(* ===== verification/_CoqProject ===== *)
-Q . S2P
Prelude.v
MemPool.v
ObjectPool.v
SpscQueue.v
WorkQueue.v
Worker.v
CString.v
CpuWorkers.v
Manager.v
Engines.v
FileSystem.v
Signals.v
Inet.v
Queue.v
Async.v
Threadpool.v
StreamWrite.v
EpollCtl.v
Poll.v
Heap.v
Timers.v
EventLoop.v
Gc.v
Digits.v
Limbs.v
BigInt.v
BigIntString.v
BigIntFloat.v
BigIntOps.v
Util.v
Ws.v
HttpParser.v
Chunked.v
HttpMessage.v
ClientOps.v
Server.v
ServerInv.v
ServerSteps.v
ServerSafety.v
