(* ===== verification/Prelude.v ===== *)
(** * CapyJS: a verification library

    CapyJS is a JavaScript runtime: a C++ program that embeds the QuickJS interpreter and
    runs scripts on libuv's event loop. It gives scripts an HTTP and WebSocket server, files,
    timers, and CPU workers that compute on threads of their own. This library models the
    C++ code of the runtime and the parts of libuv, picohttpparser and QuickJS below it, as
    functions and step relations translated from the sources, and proves what they promise.
    Paths are relative to the source tree.

    ** The program and its models

    The server. A connection is accepted into a slot of an object pool; received bytes go
    into a chain of pooled buffers until the HTTP parser accepts or rejects the head; a
    complete request is dispatched to a script handler, a static file or a 404, or turns the
    connection into a WebSocket. Guards count who still needs a connection.
    - [MemPool] (include/mem_pool.h): the pool with its free list, in debug and release
      builds. [ObjectPool]: the interface its clients use, discharged by [MemPool].
    - [ClientOps] (include/client_op.h, client_state.h): the receive buffers, over
      [ObjectPool].
    - [HttpParser], [Chunked] (deps/picohttpparser): the request parser in both builds, and
      the in-place decoder of chunked bodies.
    - [HttpMessage] (src/http_message.cc, src/builtins/response.cc): the text of responses,
      on the stack array the code writes it to.
    - [Ws] (src/ws.cc): frames and the handshake. [Util] (src/util.cc): SHA-1, base64, file
      names. [CString]: the C string functions these use.
    - [Server] (src/server.cc, src/http_context.cc, src/builtins/server_js.cc, ws_js.cc and
      the stream functions of libuv they rely on): every callback as a function on the
      server's state. [ServerInv] has its invariant, [ServerSteps] shows that every handler
      keeps it, [ServerSafety] has the events, the reachable states and the theorems.
    - [Signals] (src/signal_context.cc, [Server::run], [~Server]): servers and SIGINT.
    - [Inet] (deps/libuv/src/inet.c, [uv_ip4_addr]): the address a server listens on.

    The workers. A manager distributes jobs to workers; each has a submission queue, a
    result queue, a thread and an async handle as its doorbell.
    - [SpscQueue] (include/spsc_queue.h): the lock-free ring, alone and with two threads, whose
      accesses have the memory orders of the code.
    - [WorkQueue] (include/work_queue.h): the ring with a semaphore and a stop flag.
    - [Worker] (src/workers): the two threads of a worker over the interface of a bounded
      queue. [CpuWorkers]: what the Fibonacci, JavaScript and inference workers compute.
    - [Manager] (src/fib_engine.cc, js_engine.cc, inference_engine.cc): dispatch and status.
      [Engines] (src/builtins/fib_js.cc, js_worker_js.cc, inference_js.cc): the arguments of
      the three engines and the life of their script objects.

    The loop and its services.
    - [Queue] (deps/libuv/src/queue.h), [Heap] (heap-inl.h): libuv's pointer structures.
    - [Async] (unix/async.c): how threads wake the loop.
    - [Threadpool] (threadpool.c): how requests run on other threads and come back.
    - [Timers] (src/builtins/timer.cc on timer.c and unix/core.c): setTimeout and setInterval,
      with [Heap].
    - [StreamWrite] (unix/stream.c): the queue of writes of a connection, with partial writes
      and errors, and the shutdown.
    - [Poll] (unix/core.c, unix/linux.c): the table of watchers and [uv__io_poll], over
      [EpollCtl] (unix/linux.c): the ring of io_uring that carries epoll_ctl calls.
    - [EventLoop] (unix/core.c, src/capy_main.cc): [uv_run] on the timers, and the end of main.
    - [FileSystem] (src/builtins/fs.cc): files. Its requests execute and complete in any
      order, each once, which is what [Threadpool] proves of the pool that runs them; the
      finalizer of the object can come at any time.

    The interpreter. Of QuickJS (deps/quickjs) the memory of scripts and the numbers that do
    not fit a double.
    - [Gc] (quickjs.c): reference counts, the freeing of objects and the collector of cycles.
    - [Digits] (dtoa.c): the printing of machine integers in any radix.
    - [Limbs] (quickjs.c): arithmetic on arrays of 64-bit limbs, division included.
    - [BigInt] (quickjs.c): the functions on [JSBigInt], over [Limbs]. [BigIntString]: parsing
      and printing, over [BigInt] and [Digits]. [BigIntFloat]: conversion to and from doubles
      and comparison with them. [BigIntOps]: the operators of scripts, which choose between
      short values and arrays.

    ** How the models are made

    State is a record, with the fields of the class or the globals of the file. A function
    returns [outcome]: a result, [AssertFail] for a failed assertion or a call of [abort],
    [UB] where the C program has no defined behaviour: an access outside an array, through a
    dangling or null pointer, a second free. Machine integers are integers with their
    wrap-around written out ([wrap], [s32]); an [int] that overflows is [UB] (the counter of the
    pool's constructor, the reference counts of QuickJS). Pointers are keys of a store. Threads
    are step relations; a step is an access to shared memory ([SpscQueue], [WorkQueue], [Async]),
    a queue operation ([Worker]) or a critical section ([Threadpool]). In [SpscQueue] an index is
    the history of its stores, a load returns any store not older than what the thread has seen,
    an acquire load learns what was ordered before the release store it reads, and an access to a
    plain cell that is not ordered behind the last conflicting one is a race, which is [UB].
    What is not under the
    program's control, peers, the kernel, scripts, comes as a sequence of events or as a
    parameter; what the code requires of it is a predicate: of the server's events (ServerSafety)
    that libuv keeps its promises ([from_libuv]), that scripts use live objects ([script_ok]),
    that the kernel takes writes at once ([taken_at_once]), that memory is left ([memory_left]),
    that peers upgrade registered targets and declare lengths that do not wrap ([peer_ok]) and
    that heads and lengths of responses fit ([texts_fit]), the last four being what the code
    relies on and does not check; [act_allowed] (Timers), [careful] (Gc), the careful scripts of
    FileSystem, [stream_act_allowed] (StreamWrite), [sig_allowed] (Signals),
    [close_allowed] and [async_act_allowed] (Async), [pool_allowed] (Threadpool). What
    callbacks do is a parameter of [StreamWrite] and [Poll], as are the answers of the kernel.
    The QuickJS and llama.cpp calls of the workers are parameters of [CpuWorkers]. Functions on
    big integers also throw ([throws]); the contents of memory they have just allocated is a
    parameter, so that the theorems show that it does not matter. A double is its 64 bits.

    ** What is proved

    - The server (ServerSafety): under the six conditions above no event makes it touch freed
      memory, free twice or fail an assertion; what it does with received data is determined by
      the bytes; responses are written once; nothing leaks.
    - Protocols: parsers read back what is printed (HTTP heads, chunked bodies, WebSocket
      frames in both directions, IPv4 and IPv6 addresses, responses), stay in their buffers,
      do not change their verdict when more bytes arrive, and equal a reference definition
      that shares nothing with the code (the chunked decoder and its counters, SHA-1, the
      canonical text of IPv6 addresses).
    - Data structures: pools refine stacks, rings refine bounded queues, the pointer heap
      refines a priority queue, the intrusive queue refines a list.
    - Concurrency: the ring loses, repeats and reorders nothing and has no race; workers
      deliver results once and in order, and all of them in a bounded number of steps unless
      they are stopped, which gives up what is left; the thread pool
      handles every request once and never stalls; async handles lose no wake-up under
      sequential consistency, and can lose one when a relaxed load overtakes a store.
    - The loop: due timers fire once, in order and not early; the loop's sleep is right; the
      scan of the async handles misses none and ends; writes reach the kernel in order and every
      request is called back once; at every wait the kernel knows what every watcher wants, no
      closed watcher is called and no event is missed; [uv_run] takes its phases in their order
      and waits for as long as it may, and a program of timeouts runs to its end. A script that
      keeps to one request per file gets from each read what its own system call read.
    - The interpreter: the collector frees exactly what is unreachable, and code that owns the
      references it uses, fewer than 2^31 to an object, never touches freed memory. Big integers are integers: every operator
      gives the exact result in its only normalized form, or the exception the language asks
      for, whatever path it takes; printing and parsing are inverse and stay in their buffers;
      conversion to a double rounds to nearest.
    - Where the code does not do what it means to, a theorem exhibits it: response headers
      that overflow (HttpMessage), a WebSocket length that wraps (Ws), [stop] that hangs
      (Worker), double closes, lost files and an object collected under its requests
      (ServerSafety, Timers, FileSystem, Signals), a
      request that is never unregistered (StreamWrite), a poll that returns too early (Poll), a
      comparison of negative big integers with doubles that is reversed (BigIntFloat), an
      [asUintN] with a negative result (BigIntOps).

    ** Fuel and bounds

    Loops without a structural argument have fuel, and theorems show that it is enough:
    [drain] of a queue has its capacity plus one; the chunked decoder the length of the
    buffer plus one; the loops over receive buffers their count; the decimal digits of a
    [size_t] 20; a read loop of libuv the 32 turns its own counter allows; the path to a
    heap node 32 turns (sizes are below 2^32), the walks up and down the number of nodes plus
    one; the collection of due timers the size of the heap plus one; the scan of the async
    handles the size of the store; the critical section of a pool thread 3 turns; a write loop
    of stream.c the turns of its own counter; a flush of the epoll ring more than the 256
    entries it holds; the worklists of the collector the number of objects; the correction of a
    trial quotient 2 turns; the loops that parse and print big integers the digits there is
    room for. Running out gives [UB], which the theorems exclude. [uv_run] is given the turns it
    may take and answers [None] when it would go on; [EventLoop] shows that it does so only in the default
    mode, and that a bounded number of turns is enough for a program of timeouts. Capacities of queues are
    powers of two below 2^31; the number of live buffers times their size is below 2^31, as the
    counters need; big integers have at most 2^20 bits; a pool has fewer than 2^31 slots, an object
    at most 2^31 - 1 references, a stream fewer than 2^32 requests and 2^64 bytes to write.

    ** Not modelled

    - llama.cpp, and of QuickJS the compiler, the bytecode interpreter, objects, strings,
      regular expressions and the printing and parsing of doubles (dtoa.c): scripts are
      arbitrary sequences of calls, model evaluation is a parameter. Of the operators on big
      integers the conversion of operands that are not numbers, and running out of memory. Of
      the collector weak references. The glue that only converts values and registers classes
      with QuickJS (src/builtins/console.cc, request.cc, builtins.cc and the registration code
      of the other bindings) has no behaviour of its own.
    - System calls (unix/fs.c, signal.c, loop.c) and the kernel's side of epoll: the order of
      events and completions is left free. Of linux.c, file requests on io_uring and metrics.
    - Other platforms' branches (Windows, kqueue, 32-bit limbs), fork handlers.
    - src/capy_main.cc before the loop: reading the script and setting the runtime up.
    - Between [Server] and [StreamWrite]: the server is modelled with a kernel that takes its
      writes at once, because it passes buffers on its stack to uv_write; ServerSafety shows
      that it relies on that.

    ** Next

    The printing and parsing of doubles (dtoa.c), the strings and UTF-8 functions of QuickJS
    (cutils.c) that results pass through, and the registration of routes. *)

From Stdlib Require Export ZArith Lia.
From Stdlib Require Import Btauto.
From stdpp Require Export base tactics list gmap strings numbers.

Declare Scope capy_scope.
Delimit Scope capy_scope with capy.
#[export] Set Default Goal Selector "!".
Open Scope Z_scope.

(** ** Machine integers *)

(** [wrap w z] is the value of [z] in an unsigned [w]-bit integer. *)
Definition wrap (w z : Z) : Z := z mod 2 ^ w.

Abbreviation u8 := (wrap 8).
Abbreviation u32 := (wrap 32).
Abbreviation u64 := (wrap 64).

(** The value of [z] converted to [int]. *)
Definition s32 (z : Z) : Z := (z + 2 ^ 31) mod 2 ^ 32 - 2 ^ 31.
Definition INT_MAX : Z := 2 ^ 31 - 1.

(** [size_t] is 64 bits wide on every target of the build presets. *)
Definition SIZE_MAX : Z := 2 ^ 64 - 1.

(** [uint_ok w z]: [z] is representable in an unsigned [w]-bit integer. *)
Definition uint_ok (w z : Z) : Prop := 0 <= z < 2 ^ w.

#[export] Instance uint_ok_dec w z : Decision (uint_ok w z).
Proof. unfold uint_ok; apply _. Defined.

Abbreviation byte_ok := (uint_ok 8).

(** A buffer of [uint8_t] or [char] cells. *)
Definition bytes_ok (l : list Z) : Prop := Forall byte_ok l.

#[export] Instance bytes_ok_dec l : Decision (bytes_ok l).
Proof. unfold bytes_ok; apply _. Defined.

(** The bytes of a C string literal, without its terminating NUL. *)
Fixpoint bytes_of_string (s : string) : list Z :=
  match s with
  | EmptyString => []
  | String a s' => Z.of_N (Ascii.N_of_ascii a) :: bytes_of_string s'
  end.

Arguments bytes_of_string s%_string.

(** ** Outcomes of a C++ call

    [Ret a] is a normal return; [AssertFail] is a failed [assert] of a build
    without [NDEBUG]; [UB] is an access the language leaves undefined (a null or
    out-of-range dereference), at which the model stops. *)
Inductive outcome (A : Type) : Type :=
| Ret (a : A)
| AssertFail
| UB.
Arguments Ret {A} a.
Arguments AssertFail {A}.
Arguments UB {A}.

#[export] Instance outcome_ret : MRet outcome := @Ret.
#[export] Instance outcome_bind : MBind outcome := fun A B k m =>
  match m with Ret a => k a | AssertFail => AssertFail | UB => UB end.

#[export] Instance outcome_eq_dec `{EqDecision A} : EqDecision (outcome A).
Proof. solve_decision. Defined.

Lemma outcome_bind_Ret {A B} (m : outcome A) (k : A -> outcome B) b :
  (m ≫= k) = Ret b -> exists a, m = Ret a /\ k a = Ret b.
Proof. destruct m; [eauto|done|done]. Qed.

(** Take apart a call that returned. *)
Ltac ret_inv H x E := apply outcome_bind_Ret in H as (x & E & H).

(** ** Arrays indexed by machine integers

    [arr_get] and [arr_set] write out what an access does out of range: the read
    has no value and the write has no result. The bound is tested before the index
    is turned into a [nat], so that evaluation never builds a huge [nat]. *)
Definition in_range {A} (l : list A) (i : Z) : bool :=
  (0 <=? i) && (i <? Z.of_nat (length l)).

Definition arr_get {A} (l : list A) (i : Z) : option A :=
  if in_range l i then l !! Z.to_nat i else None.

Definition arr_set {A} (l : list A) (i : Z) (x : A) : option (list A) :=
  if in_range l i then Some (<[Z.to_nat i := x]> l) else None.

Notation "l .[ i ]" := (arr_get l i) (at level 1, format "l .[ i ]") : capy_scope.
Open Scope capy_scope.

(** Case analysis on the booleans the code branches on. *)
Ltac bool_case :=
  match goal with
  | |- context [if ?b then _ else _] => destruct b eqn:?
  | H : context [if ?b then _ else _] |- _ => destruct b eqn:?
  end.

(** Turn boolean tests in the context into the propositions they decide. *)
Ltac reflect_bools :=
  repeat match goal with
  | H : (_ && _)%bool = true |- _ => apply andb_true_iff in H as [? ?]
  | H : (_ && _)%bool = false |- _ => apply andb_false_iff in H
  | H : (_ || _)%bool = true |- _ => apply orb_true_iff in H
  | H : (_ || _)%bool = false |- _ => apply orb_false_iff in H as [? ?]
  | H : negb _ = true |- _ => apply negb_true_iff in H
  | H : negb _ = false |- _ => apply negb_false_iff in H
  | H : (_ =? _)%Z = true |- _ => apply Z.eqb_eq in H
  | H : (_ =? _)%Z = false |- _ => apply Z.eqb_neq in H
  | H : (_ <? _)%Z = true |- _ => apply Z.ltb_lt in H
  | H : (_ <? _)%Z = false |- _ => apply Z.ltb_ge in H
  | H : (_ <=? _)%Z = true |- _ => apply Z.leb_le in H
  | H : (_ <=? _)%Z = false |- _ => apply Z.leb_gt in H
  end.

Lemma in_range_spec {A} (l : list A) i :
  in_range l i = true <-> 0 <= i < Z.of_nat (length l).
Proof. unfold in_range. rewrite andb_true_iff, Z.leb_le, Z.ltb_lt. done. Qed.

Lemma arr_get_nat {A} (l : list A) (i : nat) : arr_get l (Z.of_nat i) = l !! i.
Proof.
  unfold arr_get. destruct (in_range l (Z.of_nat i)) eqn:E.
  - by rewrite Nat2Z.id.
  - symmetry. apply lookup_ge_None.
    destruct (decide (length l <= i)%nat); [done|].
    assert (in_range l (Z.of_nat i) = true) by (apply in_range_spec; lia).
    congruence.
Qed.

Lemma arr_set_nat {A} (l : list A) (i : nat) x :
  (i < length l)%nat -> arr_set l (Z.of_nat i) x = Some (<[i := x]> l).
Proof.
  intros. unfold arr_set.
  rewrite (proj2 (in_range_spec _ _)) by lia. by rewrite Nat2Z.id.
Qed.

Lemma arr_get_Some {A} (l : list A) i x :
  arr_get l i = Some x <-> 0 <= i /\ l !! Z.to_nat i = Some x.
Proof.
  unfold arr_get. destruct (in_range l i) eqn:E.
  - apply in_range_spec in E. intuition lia.
  - split; [done|]. intros [? Hl]. apply lookup_lt_Some in Hl.
    assert (in_range l i = true) by (apply in_range_spec; lia). congruence.
Qed.

Lemma arr_get_None {A} (l : list A) i :
  ~ (0 <= i < Z.of_nat (length l)) -> arr_get l i = None.
Proof.
  intros Hn. unfold arr_get. destruct (in_range l i) eqn:E; [|done].
  by apply in_range_spec in E.
Qed.

(** ** Lemmas on widths and bits *)

Create HintDb capy.

Lemma wrap_ok w z : 0 <= w -> uint_ok w (wrap w z).
Proof. intros. unfold uint_ok, wrap. apply Z.mod_pos_bound. lia. Qed.
#[export] Hint Resolve wrap_ok : capy.

Lemma wrap_small w z : uint_ok w z -> wrap w z = z.
Proof. unfold uint_ok, wrap. apply Z.mod_small. Qed.

Lemma s32_small z : - 2 ^ 31 <= z < 2 ^ 31 -> s32 z = z.
Proof. intros. unfold s32. rewrite Z.mod_small; lia. Qed.

Lemma wrap_land w z : 0 <= w -> wrap w z = Z.land z (Z.ones w).
Proof. intros. unfold wrap. by rewrite Z.land_ones. Qed.

(** A value of [w] bits has no bit set at or above position [w]. *)
Lemma uint_testbit_high w z i :
  uint_ok w z -> 0 <= w <= i -> Z.testbit z i = false.
Proof.
  intros Hz Hi. rewrite <- (Z.mod_small z (2 ^ w)) by done.
  apply Z.mod_pow2_bits_high. lia.
Qed.

(** Conversely, a non-negative value with no bit at or above [w] fits. *)
Lemma uint_ok_of_bits w z :
  0 <= w -> (forall i, w <= i -> Z.testbit z i = false) -> uint_ok w z.
Proof.
  intros Hw Hb. assert (z = z mod 2 ^ w) as ->.
  { apply Z.bits_inj'. intros i Hi. destruct (Z.lt_ge_cases i w).
    - by rewrite Z.mod_pow2_bits_low.
    - rewrite Z.mod_pow2_bits_high by lia. by apply Hb. }
  apply Z.mod_pos_bound. lia.
Qed.

Lemma uint_lxor w a b : 0 <= w -> uint_ok w a -> uint_ok w b -> uint_ok w (Z.lxor a b).
Proof.
  intros. apply uint_ok_of_bits; [done|]. intros i Hi.
  rewrite Z.lxor_spec, (uint_testbit_high w a), (uint_testbit_high w b) by (done || lia).
  done.
Qed.

Lemma uint_lor w a b : 0 <= w -> uint_ok w a -> uint_ok w b -> uint_ok w (Z.lor a b).
Proof.
  intros. apply uint_ok_of_bits; [done|]. intros i Hi.
  rewrite Z.lor_spec, (uint_testbit_high w a), (uint_testbit_high w b) by (done || lia).
  done.
Qed.

Lemma uint_land w a b : 0 <= w -> uint_ok w a -> uint_ok w (Z.land a b).
Proof.
  intros. apply uint_ok_of_bits; [done|]. intros i Hi.
  by rewrite Z.land_spec, (uint_testbit_high w a) by (done || lia).
Qed.

Lemma uint_shiftr w a n : 0 <= w -> 0 <= n -> uint_ok w a -> uint_ok w (Z.shiftr a n).
Proof.
  intros. apply uint_ok_of_bits; [done|]. intros i Hi.
  rewrite Z.shiftr_spec by lia. apply (uint_testbit_high w); [done|lia].
Qed.
#[export] Hint Resolve uint_lxor uint_lor uint_land uint_shiftr : capy.

(** Masking with [2^k - 1] is the remainder by [2^k]. *)
Lemma land_pow2_mask k z : 0 <= k -> Z.land z (2 ^ k - 1) = z mod 2 ^ k.
Proof.
  intros. replace (2 ^ k - 1) with (Z.ones k) by (rewrite Z.ones_equiv; lia).
  by apply Z.land_ones.
Qed.

(** A number without a bit in common with its predecessor is a power of two. *)
Lemma land_pred_pow2 v : 0 < v -> Z.land v (v - 1) = 0 -> v = 2 ^ Z.log2 v.
Proof.
  intros Hv Hl. destruct (Z.log2_spec v Hv) as [H1 H2]. destruct (Z.eq_dec v (2 ^ Z.log2 v)) as [|Hne]; [done|]. exfalso. pose proof (Z.log2_nonneg v).
  assert (Z.log2 (v - 1) = Z.log2 v) as El by (apply Z.log2_unique; lia).
  assert (Z.testbit (Z.land v (v - 1)) (Z.log2 v) = true) as Hb; [|by rewrite Hl, Z.bits_0 in Hb].
  rewrite Z.land_spec, Z.bit_log2 by done. rewrite <- El. apply Z.bit_log2. pose proof (Z.pow_pos_nonneg 2 (Z.log2 v)). lia.
Qed.

(** [Z.lor] of a multiple of [2^n] and a value below [2^n] is their sum. *)
Lemma lor_shiftl_add a b n :
  0 <= n -> uint_ok n b -> Z.lor (Z.shiftl a n) b = a * 2 ^ n + b.
Proof.
  intros Hn Hb. rewrite <- Z.shiftl_mul_pow2 by done.
  assert (Z.land (Z.shiftl a n) b = 0) as Hd.
  { apply Z.bits_inj'. intros i Hi. rewrite Z.land_spec, Z.bits_0.
    destruct (Z.lt_ge_cases i n).
    - by rewrite Z.shiftl_spec_low.
    - rewrite (uint_testbit_high n b) by (done || lia). btauto. }
  rewrite Z.add_nocarry_lxor by done. apply Z.bits_inj'. intros i Hi.
  rewrite Z.lor_spec, Z.lxor_spec.
  assert (Z.testbit (Z.land (Z.shiftl a n) b) i = false) as Hf by by rewrite Hd, Z.bits_0.
  rewrite Z.land_spec in Hf. destruct (Z.testbit _ i), (Z.testbit b i); done.
Qed.

(** ** Loops *)

(** Two loop bodies that agree on the states satisfying a loop invariant give the same
    result, and the invariant holds of it. *)
Lemma foldl_inv_eq {A B} (P : A -> Prop) (f g : A -> B -> A) (l : list B) a :
  P a -> (forall a b, P a -> b ∈ l -> f a b = g a b /\ P (f a b)) ->
  foldl f a l = foldl g a l /\ P (foldl f a l).
Proof.
  revert a. induction l as [|b l IH]; intros a Ha Hfg; simpl; [done|].
  destruct (Hfg a b Ha ltac:(left)) as [He HP]. rewrite <- He. apply IH; [done|].
  intros. apply Hfg; [done|by right].
Qed.
