(* ===== verification/MemPool.v ===== *)
(** The fixed-capacity object pool of include/mem_pool.h.

    A pool is an array of slots threaded by a free list of slot indices. The model
    keeps the array, the head of the free list and the counters as the class has
    them; a [T *] handed out by the pool is the index of its slot, because [data] is
    the first member of [Slot] and [release] casts the pointer back to the slot.

    [free_list_head] is kept as the index [free_list_head - slots_] in 64-bit
    arithmetic: when the last slot is taken the code forms [&slots_[SIZE_MAX]], which
    is never dereferenced while the pool is exhausted and whose index [release]
    writes back as the list terminator. *)

From S2P Require Import Prelude.

(** What [memset(&slot->data, c, sizeof(T))] leaves in an object of type [T]. *)
Class Memset (T : Type) := memset : Z -> T.

(** A [T] seen as the [n] bytes it occupies. *)
#[export] Instance memset_bytes (n : nat) : Memset (list Z) | 10 :=
  fun c => replicate n c.

Record Slot (T : Type) := mkSlot { data : T; next : Z; in_use : bool }.
Arguments mkSlot {T} _ _ _.
Arguments data {T} _.
Arguments next {T} _.
Arguments in_use {T} _.

Record MemPool (T : Type) := mkPool {
  slots_ : list (Slot T);
  free_list_head : Z;
  capacity_ : Z;
  in_use_count_ : Z;
  name_ : string
}.
Arguments mkPool {T} _ _ _ _ _.
Arguments slots_ {T} _.
Arguments free_list_head {T} _.
Arguments capacity_ {T} _.
Arguments in_use_count_ {T} _.
Arguments name_ {T} _.

Section Operations.
Context {T : Type} `{Memset T}.

(** [Slot() : next(SIZE_MAX), in_use(false)]; [d] is [T]'s own default value. *)
Definition Slot_ctor (d : T) : Slot T := mkSlot d SIZE_MAX false.

(** The constructor's loop: the first [capacity - 1] slots are linked to their successor, the
    last one keeps the terminator. The counter is an [int]: counting on from [INT_MAX] overflows. *)
Fixpoint link_slots (cap : Z) (i : Z) (l : list (Slot T)) : outcome (list (Slot T)) :=
  match l with
  | [] => Ret []
  | s :: l' =>
      let s := if i <? cap - 1 then mkSlot (data s) (i + 1) (in_use s) else s in
      if i =? INT_MAX then UB else l' ← link_slots cap (i + 1) l'; Ret (s :: l')
  end.

(** [MemPool(size_t capacity, const char *name)]. *)
Definition MemPool_ctor (d : T) (capacity : nat) (name : string) : outcome (MemPool T) :=
  slots ← link_slots (Z.of_nat capacity) 0 (replicate capacity (Slot_ctor d));
  Ret {| slots_ := slots;
         free_list_head := 0;
         capacity_ := Z.of_nat capacity;
         in_use_count_ := 0;
         name_ := name |}.

(** [T *acquire()]: [None] is [nullptr]. *)
Definition acquire (p : MemPool T) : outcome (option Z * MemPool T) :=
  if in_use_count_ p =? capacity_ p then Ret (None, p)
  else
    match (slots_ p).[free_list_head p] with
    | None => UB
    | Some retHead =>
        let id := free_list_head p in
        let next_node_idx := next retHead in
        match arr_set (slots_ p) id (mkSlot (memset 0) SIZE_MAX true) with
        | None => UB
        | Some slots' =>
            Ret (Some id,
                 {| slots_ := slots';
                    free_list_head := next_node_idx;
                    capacity_ := capacity_ p;
                    in_use_count_ := u64 (in_use_count_ p + 1);
                    name_ := name_ p |})
        end
    end.

(** [void release(T *ptr)]. [ndebug] tells whether the build defines [NDEBUG], which
    compiles the two assertions away (CMakeLists.txt defines it for Release). *)
Definition release (ndebug : bool) (ptr : option Z) (p : MemPool T) :
    outcome (MemPool T) :=
  match ptr with
  | None => if ndebug then UB else AssertFail
  | Some slot =>
      match (slots_ p).[slot] with
      | None => UB
      | Some s =>
          if negb ndebug && negb (in_use s) then AssertFail
          else if slot =? free_list_head p then
            match arr_set (slots_ p) slot (mkSlot (memset 173) (next s) false) with
            | None => UB
            | Some slots' =>
                Ret {| slots_ := slots';
                       free_list_head := free_list_head p;
                       capacity_ := capacity_ p;
                       in_use_count_ := u64 (in_use_count_ p - 1);
                       name_ := name_ p |}
            end
          else
            match arr_set (slots_ p) slot
                    (mkSlot (memset 173) (free_list_head p) false) with
            | None => UB
            | Some slots' =>
                Ret {| slots_ := slots';
                       free_list_head := slot;
                       capacity_ := capacity_ p;
                       in_use_count_ := u64 (in_use_count_ p - 1);
                       name_ := name_ p |}
            end
      end
  end.

Definition in_use_count (p : MemPool T) : Z := in_use_count_ p.
Definition capacity (p : MemPool T) : Z := capacity_ p.
Definition is_exhausted (p : MemPool T) : bool := in_use_count_ p =? capacity_ p.

(** What [verify_no_leaks] reports: [None] for "[OK]", the count for "[LEAK]". *)
Definition verify_no_leaks (p : MemPool T) : option (Z * Z) :=
  if in_use_count_ p =? 0 then None else Some (in_use_count_ p, capacity_ p).

(** The slots [dump_state] prints, in order: at most [capacity_] of them, stopping
    after the one that carries the terminator. *)
Fixpoint dump_walk (p : MemPool T) (total : nat) (wh : Z) : outcome (list Z) :=
  match total with
  | O => Ret []
  | S total' =>
      match (slots_ p).[wh] with
      | None => UB
      | Some s =>
          if next s =? SIZE_MAX then Ret [wh]
          else rest ← dump_walk p total' (next s); Ret (wh :: rest)
      end
  end.

Definition dump_state (p : MemPool T) : outcome (list Z) :=
  dump_walk p (Z.to_nat (capacity_ p)) (free_list_head p).

End Operations.

(** ** Specification: a stack of free slot numbers *)

Record PoolSpec := mkSpec { sp_cap : nat; sp_free : list nat }.

Definition spec_new (cap : nat) : PoolSpec := mkSpec cap (seq 0 cap).

Definition spec_acquire (s : PoolSpec) : option nat * PoolSpec :=
  match sp_free s with
  | [] => (None, s)
  | x :: fr => (Some x, mkSpec (sp_cap s) fr)
  end.

Definition spec_release (i : nat) (s : PoolSpec) : PoolSpec :=
  mkSpec (sp_cap s) (i :: sp_free s).

Definition spec_live (s : PoolSpec) (i : nat) : Prop :=
  (i < sp_cap s)%nat /\ i ∉ sp_free s.

#[export] Instance spec_live_dec s i : Decision (spec_live s i).
Proof. unfold spec_live; apply _. Defined.

Section Invariant.
Context {T : Type} `{Memset T}.
Implicit Types (p : MemPool T) (s : PoolSpec) (l : list (Slot T)).

(** The list of indices reached from [h] through [next] is [fr]. An empty list is
    marked by the terminator, except in a pool with no slot at all. *)
Fixpoint chain l (h : Z) (fr : list nat) : Prop :=
  match fr with
  | [] => h = SIZE_MAX \/ l = []
  | x :: fr' => h = Z.of_nat x /\
      exists sl, l !! x = Some sl /\ chain l (next sl) fr'
  end.

(** The representation relation, which is also the pool's invariant. *)
Record pool_rel p s : Prop := {
  rel_len : length (slots_ p) = sp_cap s;
  rel_cap : capacity_ p = Z.of_nat (sp_cap s);
  rel_size : Z.of_nat (sp_cap s) <= SIZE_MAX;
  rel_chain : chain (slots_ p) (free_list_head p) (sp_free s);
  rel_nodup : NoDup (sp_free s);
  rel_bound : Forall (fun i => (i < sp_cap s)%nat) (sp_free s);
  rel_flag : forall i sl, slots_ p !! i = Some sl ->
               in_use sl = bool_decide (i ∉ sp_free s);
  rel_count : in_use_count_ p = Z.of_nat (sp_cap s) - Z.of_nat (length (sp_free s))
}.

Lemma chain_insert l h fr i sl :
  chain l h fr -> i ∉ fr -> chain (<[i := sl]> l) h fr.
Proof.
  revert h. induction fr as [|x fr IH]; intros h; simpl.
  - intros [?| ->] _; [by left|by right].
  - intros [-> (s' & Hx & Hc)] [Hne Hni]%not_elem_of_cons. split; [done|].
    exists s'. rewrite list_lookup_insert_ne by done. eauto.
Qed.

Lemma free_length fr n : NoDup fr -> Forall (fun i => (i < n)%nat) fr -> (length fr <= n)%nat.
Proof.
  intros Hnd Hb. rewrite <- (length_seq n 0). apply submseteq_length, NoDup_submseteq; [done|].
  intros x Hx. apply elem_of_seq. rewrite list.Forall_forall in Hb. specialize (Hb x Hx). lia.
Qed.

Lemma rel_free_length p s : pool_rel p s -> (length (sp_free s) <= sp_cap s)%nat.
Proof. intros Hr. apply free_length; apply Hr. Qed.

Lemma rel_live_length p s i :
  pool_rel p s -> spec_live s i -> (length (sp_free s) < sp_cap s)%nat.
Proof.
  intros Hr [Hi Hni].
  assert (length (i :: sp_free s) <= sp_cap s)%nat as Hle; [|simpl in Hle; lia].
  apply free_length; constructor; (done || apply Hr).
Qed.

(** The slots that the constructor's loop leaves. *)
Fixpoint linked (c i : Z) l : list (Slot T) :=
  match l with
  | [] => []
  | sl :: l' => (if i <? c - 1 then mkSlot (data sl) (i + 1) (in_use sl) else sl) :: linked c (i + 1) l'
  end.

Lemma link_slots_linked c i l : 0 <= i <= INT_MAX ->
  link_slots c i l = if bool_decide (i + Z.of_nat (length l) <= INT_MAX) then Ret (linked c i l) else UB.
Proof.
  revert i. induction l as [|sl l IH]; intros i Hi; simpl length; simpl link_slots.
  - rewrite bool_decide_eq_true_2 by lia. done.
  - destruct (Z.eqb_spec i INT_MAX) as [->|]; [rewrite bool_decide_eq_false_2 by lia; done|]. rewrite IH by lia.
    replace (i + Z.of_nat (S (length l))) with (i + 1 + Z.of_nat (length l)) by lia. by case_bool_decide.
Qed.

Lemma length_linked c i l : length (linked c i l) = length l.
Proof. revert i. induction l; intros; simpl; auto. Qed.

Lemma linked_lookup c i l k sl :
  l !! k = Some sl ->
  linked c i l !! k =
    Some (if i + Z.of_nat k <? c - 1 then mkSlot (data sl) (i + Z.of_nat k + 1) (in_use sl)
          else sl).
Proof.
  revert i k. induction l as [|s l IH]; intros i [|k]; try done; simpl.
  - intros [= ->]. rewrite Z.add_0_r. done.
  - intros Hk. rewrite (IH (i + 1) k Hk).
    replace (i + 1 + Z.of_nat k) with (i + Z.of_nat (S k)) by lia. done.
Qed.

Lemma ctor_chain (d : T) cap n k :
  (k + n = cap)%nat -> (0 < n)%nat ->
  chain (linked (Z.of_nat cap) 0 (replicate cap (Slot_ctor d))) (Z.of_nat k) (seq k n).
Proof.
  revert k. induction n as [|n IH]; intros k Hk Hn; [lia|]. simpl. split; [done|].
  erewrite linked_lookup by (apply lookup_replicate_2; lia).
  eexists. split; [done|]. destruct (decide (n = 0%nat)) as [->|Hn'].
  - simpl. left. bool_case; reflect_bools; [lia|done].
  - bool_case; reflect_bools; [|lia]. simpl.
    replace (0 + Z.of_nat k + 1) with (Z.of_nat (S k)) by lia. apply IH; lia.
Qed.

(** The constructor returns exactly for capacities that an [int] can count. *)
Lemma ctor_exact (d : T) cap name :
  if bool_decide (Z.of_nat cap <= INT_MAX)
  then exists p, MemPool_ctor d cap name = Ret p /\ pool_rel p (spec_new cap)
  else MemPool_ctor d cap name = UB.
Proof.
  unfold MemPool_ctor. rewrite link_slots_linked by (unfold INT_MAX; lia). rewrite length_replicate, Z.add_0_l.
  case_bool_decide as Hc; [|done]. eexists. split; [done|]. unfold INT_MAX in Hc. split; simpl; try done.
  - by rewrite length_linked, length_replicate.
  - unfold SIZE_MAX. lia.
  - destruct cap; [by right|]. apply (ctor_chain d (S cap) (S cap) 0); lia.
  - apply NoDup_seq.
  - apply list.Forall_forall. intros i Hi%elem_of_seq. lia.
  - intros i sl Hi. assert (i < cap)%nat as Hlt.
    { apply lookup_lt_Some in Hi. by rewrite length_linked, length_replicate in Hi. }
    erewrite linked_lookup in Hi by (apply lookup_replicate_2; lia).
    rewrite bool_decide_eq_false_2 by (rewrite elem_of_seq; intros Hn; apply Hn; lia).
    bool_case; by injection Hi as <-.
  - rewrite length_seq. lia.
Qed.

Lemma ctor_rel (d : T) cap name p : MemPool_ctor d cap name = Ret p -> pool_rel p (spec_new cap).
Proof. intros E. pose proof (ctor_exact d cap name) as H1. case_bool_decide; [|congruence]. destruct H1 as (p' & E' & Hr). congruence. Qed.

Lemma acquire_empty p s : pool_rel p s -> sp_free s = [] -> acquire p = Ret (None, p).
Proof.
  intros Hr Hf. unfold acquire. rewrite (rel_count _ _ Hr), (rel_cap _ _ Hr), Hf.
  simpl. rewrite Z.sub_0_r, Z.eqb_refl. done.
Qed.

Lemma acquire_cons p s x fr :
  pool_rel p s -> sp_free s = x :: fr ->
  exists p', acquire p = Ret (Some (Z.of_nat x), p') /\
    pool_rel p' (mkSpec (sp_cap s) fr) /\
    slots_ p' = <[x := mkSlot (memset 0) SIZE_MAX true]> (slots_ p) /\
    name_ p' = name_ p.
Proof.
  intros Hr Hf. pose proof Hr as [Hlen Hcap Hsz Hch Hnd Hb Hfl Hct].
  rewrite Hf in *. simpl in Hch. destruct Hch as [Hh (sl & Hx & Hch)].
  apply list.NoDup_cons in Hnd as [Hni Hnd]. inversion Hb as [|? ? Hxb Hb']; subst.
  pose proof (free_length _ _ Hnd Hb') as Hfl'.
  unfold acquire. rewrite Hct, Hcap, Hh, arr_get_nat, Hx. simpl length.
  bool_case; reflect_bools; [lia|]. rewrite arr_set_nat by (rewrite Hlen; lia).
  eexists. split; [done|]. split; [|done].
  split; simpl; try done.
  - by rewrite length_insert.
  - by apply chain_insert.
  - intros i sl' Hi. rewrite list_lookup_insert in Hi.
    case_decide as Hd; [destruct Hd as [-> ?]|].
    + injection Hi as <-. simpl. by rewrite bool_decide_eq_true_2.
    + rewrite (Hfl i sl' Hi). apply bool_decide_ext.
      rewrite not_elem_of_cons. split; [naive_solver|]. intros Hi'. split; [|done].
      intros ->. apply Hd. split; [done|]. rewrite Hlen. lia.
  - unfold SIZE_MAX in *. rewrite wrap_small by (unfold uint_ok; lia). lia.
Qed.

Lemma release_live nd p s i :
  pool_rel p s -> spec_live s i ->
  exists p', release nd (Some (Z.of_nat i)) p = Ret p' /\
    pool_rel p' (spec_release i s) /\
    slots_ p' = <[i := mkSlot (memset 173) (free_list_head p) false]> (slots_ p) /\
    name_ p' = name_ p.
Proof.
  intros Hr Hl. pose proof (rel_live_length _ _ _ Hr Hl) as Hlt.
  destruct Hl as [Hi Hni]. pose proof Hr as [Hlen Hcap Hsz Hch Hnd Hb Hfl Hct].
  assert (is_Some (slots_ p !! i)) as [sl Hsl] by (apply lookup_lt_is_Some; lia).
  unfold release. rewrite arr_get_nat, Hsl, (Hfl _ _ Hsl), bool_decide_eq_true_2 by done.
  rewrite andb_false_r. bool_case; reflect_bools.
  { exfalso. destruct (sp_free s) as [|x fr]; simpl in Hch.
    - destruct Hch as [Hch| Hch]; [unfold SIZE_MAX in *; lia|].
      rewrite Hch in Hsl. done.
    - destruct Hch as [Hh _]. assert (i = x) as -> by lia. set_solver. }
  rewrite arr_set_nat by lia. eexists. split; [done|]. split; [|done].
  split; simpl; try done.
  - by rewrite length_insert.
  - split; [done|]. eexists. rewrite list_lookup_insert_eq by lia. split; [done|].
    by apply chain_insert.
  - by constructor.
  - by constructor.
  - intros j sl' Hj. rewrite list_lookup_insert in Hj.
    case_decide as Hd; [destruct Hd as [-> ?]|].
    + injection Hj as <-. simpl. rewrite bool_decide_eq_false_2; [done|set_solver].
    + rewrite (Hfl j sl' Hj). apply bool_decide_ext. rewrite not_elem_of_cons.
      split; [|naive_solver]. intros Hj'. split; [|done].
      intros ->. apply Hd. split; [done|lia].
  - unfold SIZE_MAX in *. rewrite wrap_small by (unfold uint_ok; lia). lia.
Qed.

End Invariant.

(** ** Runs of a client *)

Section Client.
Context {T : Type} `{Memset T}.

(** The client overwrites the object it holds. *)
Definition write_obj (ptr : Z) (d : T) (p : MemPool T) : outcome (MemPool T) :=
  match (slots_ p).[ptr] with
  | None => UB
  | Some s => Ret {| slots_ := <[Z.to_nat ptr := mkSlot d (next s) (in_use s)]> (slots_ p);
                     free_list_head := free_list_head p;
                     capacity_ := capacity_ p;
                     in_use_count_ := in_use_count_ p;
                     name_ := name_ p |}
  end.

(** [pool_run nd p held]: the pool [p] is reached from a fresh one by acquisitions,
    releases of pointers the client holds and writes through them; [held] lists the
    pointers acquired and not yet released. *)
Inductive pool_run (nd : bool) : MemPool T -> list Z -> Prop :=
| run_new d cap name p :
    MemPool_ctor d cap name = Ret p -> pool_run nd p []
| run_acquire p held ptr p' :
    pool_run nd p held -> acquire p = Ret (Some ptr, p') -> pool_run nd p' (ptr :: held)
| run_exhausted p held p' :
    pool_run nd p held -> acquire p = Ret (None, p') -> pool_run nd p' held
| run_write p held ptr d p' :
    pool_run nd p held -> ptr ∈ held -> write_obj ptr d p = Ret p' -> pool_run nd p' held
| run_release p h1 ptr h2 p' :
    pool_run nd p (h1 ++ ptr :: h2) -> release nd (Some ptr) p = Ret p' ->
    pool_run nd p' (h1 ++ h2).

Lemma write_obj_rel ptr d p p' s : pool_rel p s -> write_obj ptr d p = Ret p' -> pool_rel p' s.
Proof.
  intros Hr. unfold write_obj. destruct ((slots_ p).[ptr]) as [sl|] eqn:E; [|done]. intros [= <-].
  apply arr_get_Some in E as [Hp E].
  destruct Hr as [Hlen Hcap Hsz Hch Hnd Hb Hfl Hct]. split; simpl; try done.
  - by rewrite length_insert.
  - clear -Hch E. revert Hch. generalize (free_list_head p) as h.
    induction (sp_free s) as [|x fr IH]; intros h; simpl.
    + intros [?|Hl]; [by left|]. rewrite Hl in E. done.
    + intros [-> (sl' & Hx & Hc)]. split; [done|].
      rewrite list_lookup_insert. case_decide as Hd.
      * destruct Hd as [<- _]. rewrite E in Hx. injection Hx as ->.
        eexists. split; [done|]. by apply IH.
      * exists sl'. split; [done|]. by apply IH.
  - intros i sl' Hi. rewrite list_lookup_insert in Hi.
    case_decide as Hd; [|by apply Hfl]. destruct Hd as [<- _]. injection Hi as <-.
    by apply (Hfl _ sl).
Qed.

(** In a run, the held pointers are exactly the slots the specification has live. *)
Definition held_rel (s : PoolSpec) (held : list Z) : Prop :=
  NoDup held /\ (forall ptr, ptr ∈ held <-> exists i, ptr = Z.of_nat i /\ spec_live s i) /\
  (length held + length (sp_free s) = sp_cap s)%nat.

Lemma held_acquire s x fr held :
  sp_free s = x :: fr -> NoDup (sp_free s) -> (x < sp_cap s)%nat ->
  held_rel s held -> held_rel (mkSpec (sp_cap s) fr) (Z.of_nat x :: held).
Proof.
  intros Hf Hnd Hx (Hh & Hl & Hc). unfold spec_live in Hl. rewrite Hf in *.
  apply list.NoDup_cons in Hnd as [Hni Hnd]. split_and!.
  - constructor; [|done]. rewrite Hl. intros (i & Hi & _ & Hn).
    apply Nat2Z.inj in Hi as <-. set_solver.
  - intros ptr. rewrite elem_of_cons, Hl. unfold spec_live. simpl. split.
    + intros [->|(i & -> & ? & [??]%not_elem_of_cons)]; eauto.
    + intros (i & -> & ? & ?). destruct (decide (i = x)) as [->|]; [by left|right].
      exists i. rewrite not_elem_of_cons. done.
  - simpl in *. lia.
Qed.

Lemma held_release s i h1 h2 :
  held_rel s (h1 ++ Z.of_nat i :: h2) -> held_rel (spec_release i s) (h1 ++ h2).
Proof.
  intros (Hh & Hl & Hc). unfold spec_live in Hl.
  rewrite <- Permutation_middle in Hh. apply list.NoDup_cons in Hh as [Hni Hnd]. split_and!.
  - done.
  - intros ptr. unfold spec_live, spec_release. simpl. split.
    + intros Hp. destruct (proj1 (Hl ptr)) as (j & -> & ? & ?); [set_solver|].
      exists j. split; [done|]. split; [done|]. rewrite not_elem_of_cons. split; [|done].
      intros ->. set_solver.
    + intros (j & -> & ? & [Hne ?]%not_elem_of_cons).
      assert (Z.of_nat j ∈ h1 ++ Z.of_nat i :: h2) as Hj by (apply Hl; eauto).
      assert (Z.of_nat j <> Z.of_nat i) by lia. set_solver.
  - rewrite !length_app in *. simpl in *. lia.
Qed.

Lemma held_new cap : held_rel (spec_new cap) [].
Proof.
  split_and!; [constructor| |simpl; by rewrite length_seq].
  intros ptr. split; [set_solver|]. intros (i & _ & Hi & Hn). exfalso.
  simpl in *. rewrite elem_of_seq in Hn. lia.
Qed.

Lemma run_rel nd p held :
  pool_run nd p held -> exists s, pool_rel p s /\ held_rel s held.
Proof.
  induction 1 as [d cap name p Hc|p held ptr p' _ (s & Hr & Hh) Ha|p held p' _ (s & Hr & Hh) Ha
                 |p held ptr d p' _ (s & Hr & Hh) Hin Hw|p h1 ptr h2 p' _ (s & Hr & Hh) Ha].
  - exists (spec_new cap). eauto using ctor_rel, held_new.
  - destruct (sp_free s) as [|x fr] eqn:Hf.
    { rewrite (acquire_empty p s) in Ha by done. done. }
    destruct (acquire_cons p s x fr Hr Hf) as (p1 & Ha' & Hr' & _).
    rewrite Ha in Ha'. injection Ha' as -> ->. eexists. split; [done|].
    apply held_acquire; try done; [apply Hr|]. pose proof (rel_bound _ _ Hr) as Hb.
    rewrite Hf in Hb. by inversion Hb.
  - destruct (sp_free s) as [|x fr] eqn:Hf.
    { rewrite (acquire_empty p s) in Ha by done. injection Ha as <-. eauto. }
    destruct (acquire_cons p s x fr Hr Hf) as (p1 & Ha' & _). congruence.
  - exists s. eauto using write_obj_rel.
  - destruct (proj1 (proj1 (proj2 Hh) ptr)) as (i & -> & Hl); [set_solver|].
    destruct (release_live nd p s i Hr Hl) as (p1 & Ha' & Hr' & _).
    rewrite Ha in Ha'. injection Ha' as ->. eauto using held_release.
Qed.

End Client.

(** ** Properties *)

Section Properties.
Context {T : Type} `{Memset T}.
Implicit Types (p : MemPool T).

Lemma dump_walk_chain p n h fr :
  chain (slots_ p) h fr -> fr <> [] -> (length fr <= n)%nat -> slots_ p <> [] ->
  Forall (fun i => (i < length (slots_ p))%nat) fr ->
  Z.of_nat (length (slots_ p)) <= SIZE_MAX ->
  dump_walk p n h = Ret (Z.of_nat <$> fr).
Proof.
  intros Hc Hne Hle Hs Hb Hz. revert h n Hc Hne Hle.
  induction fr as [|x fr IH]; intros h n Hc Hne Hle; [done|].
  apply list.Forall_cons in Hb as [Hx Hb]. destruct Hc as [-> (sl & Hsl & Hc)].
  destruct n as [|n]; [simpl in Hle; lia|]. simpl. rewrite arr_get_nat, Hsl.
  destruct fr as [|y fr'].
  - destruct Hc as [->|?]; [|done]. by rewrite Z.eqb_refl.
  - pose proof Hc as [Hn _]. bool_case; reflect_bools.
    + apply list.Forall_cons in Hb as [Hy _]. lia.
    + by rewrite (IH Hb (next sl) n Hc) by (simpl in *; (done || lia)).
Qed.

(** C34. The constructor returns exactly for capacities that its [int] counter can count, up to
    2^31 - 1. From there a client that uses only pointers it holds never breaks the pool: the
    pointers it holds are pairwise distinct, [in_use_count()] is their number, [acquire()] always
    returns, gives [nullptr] exactly when the pool is exhausted and otherwise a slot nobody holds,
    and writing through or releasing any held pointer succeeds, with or without [NDEBUG]. *)
Theorem mem_pool_run_safe nd :
  (forall (d : T) cap name, Z.of_nat cap <= INT_MAX <-> exists p, MemPool_ctor d cap name = Ret p) /\
  forall p held, pool_run nd p held ->
  NoDup held /\
  in_use_count p = Z.of_nat (length held) /\
  (exists r p', acquire p = Ret (r, p') /\
     (r = None <-> is_exhausted p = true) /\
     (is_exhausted p = true <-> Z.of_nat (length held) = capacity p) /\
     (forall ptr, r = Some ptr -> (ptr ∉ held) /\ 0 <= ptr < capacity p)) /\
  (forall ptr, ptr ∈ held -> (exists p', release nd (Some ptr) p = Ret p') /\ forall d, exists p', write_obj ptr d p = Ret p').
Proof.
  split.
  { intros d cap name. pose proof (ctor_exact d cap name) as Hx. case_bool_decide; [naive_solver|]. split; [done|]. intros [p E]. congruence. }
  intros p held (s & Hr & Hnd & Hl & Hc)%run_rel.
  pose proof (rel_count _ _ Hr) as Hct. pose proof (rel_cap _ _ Hr) as Hcp.
  assert (is_exhausted p = true <-> sp_free s = []) as Hex.
  { unfold is_exhausted. rewrite Z.eqb_eq, Hct, Hcp, <- length_zero_iff_nil. lia. }
  unfold in_use_count, capacity. rewrite Hct, Hcp. split_and!; [done|lia| |].
  - destruct (sp_free s) as [|x fr] eqn:Hf.
    + exists None, p. rewrite (acquire_empty p s) by done. simpl in *.
      split_and!; [done|split; [by intros; apply Hex|done]|rewrite Hex; split; (done || lia)|done].
    + destruct (acquire_cons p s x fr Hr Hf) as (p' & Ha & _). exists (Some (Z.of_nat x)), p'.
      simpl in *. split_and!; [done|by rewrite Hex|rewrite Hex; split; (done || lia)|].
      intros ptr [= <-]. pose proof (rel_bound _ _ Hr) as Hb. rewrite Hf in Hb.
      apply list.Forall_cons in Hb as [Hx _]. split; [|lia].
      rewrite Hl. intros (i & Hi & _ & Hn). apply Nat2Z.inj in Hi as <-.
      rewrite Hf in Hn. set_solver.
  - intros ptr (i & -> & Hi)%Hl. destruct (release_live nd p s i Hr Hi) as (p' & ? & _). split; [by eauto|].
    intros d. unfold write_obj. rewrite arr_get_nat.
    destruct (lookup_lt_is_Some_2 (slots_ p) i) as [sl ->]; [rewrite (rel_len _ _ Hr); apply Hi|]. eauto.
Qed.

(** The pool refines a stack of free slot numbers: the constructor represents the
    stack [0, 1, ..., capacity-1], [acquire] pops it (zeroing the object and touching
    no other slot) and [release] of a live slot pushes it (poisoning the object with
    0xAD and touching no other slot). *)
Theorem mem_pool_refines_stack nd :
  (forall (d : T) cap name p, MemPool_ctor d cap name = Ret p -> pool_rel p (spec_new cap)) /\
  (forall p s, pool_rel p s ->
     exists p', acquire p = Ret (Z.of_nat <$> (spec_acquire s).1, p') /\
       pool_rel p' (spec_acquire s).2 /\
       forall i, slots_ p' !! i =
         (if decide ((spec_acquire s).1 = Some i)
          then Some (mkSlot (memset 0) SIZE_MAX true) else slots_ p !! i)) /\
  (forall p s i, pool_rel p s -> spec_live s i ->
     exists p', release nd (Some (Z.of_nat i)) p = Ret p' /\
       pool_rel p' (spec_release i s) /\
       (data <$> (slots_ p' !! i)) = Some (memset 173) /\
       forall j, j <> i -> slots_ p' !! j = slots_ p !! j).
Proof.
  split_and!.
  - intros. by eapply ctor_rel.
  - intros p s Hr. unfold spec_acquire. destruct (sp_free s) as [|x fr] eqn:Hf; simpl.
    + exists p. by rewrite (acquire_empty p s).
    + destruct (acquire_cons p s x fr Hr Hf) as (p' & Ha & Hr' & Hs & _). exists p'.
      split_and!; [done|done|]. intros i. rewrite Hs, list_lookup_insert.
      pose proof (rel_bound _ _ Hr) as Hb. rewrite Hf in Hb.
      apply list.Forall_cons in Hb as [Hx _]. rewrite <- (rel_len _ _ Hr) in Hx.
      repeat case_decide; naive_solver.
  - intros p s i Hr Hi. destruct (release_live nd p s i Hr Hi) as (p' & Ha & Hr' & Hs & _).
    exists p'. rewrite Hs. split_and!; [done|done| |].
    + rewrite list_lookup_insert_eq; [done|]. rewrite (rel_len _ _ Hr). apply Hi.
    + intros j Hj. by rewrite list_lookup_insert_ne.
Qed.

(** Releasing a slot that is already free is caught by the assertion of a build
    without [NDEBUG]. In an [NDEBUG] build the second release of the most recently
    freed slot silently lowers [in_use_count_] once more, and releasing a slot deeper
    in the free list closes a cycle: of the next three acquisitions the first and the
    third return the same slot. *)
Theorem mem_pool_double_free p s i :
  pool_rel p s -> (i ∈ sp_free s) ->
  release false (Some (Z.of_nat i)) p = AssertFail /\
  (forall fr, sp_free s = i :: fr ->
     exists p', release true (Some (Z.of_nat i)) p = Ret p' /\
       in_use_count p' = u64 (in_use_count p - 1) /\ free_list_head p' = free_list_head p) /\
  (forall x fr, sp_free s = x :: i :: fr ->
     (length (sp_free s) < sp_cap s)%nat ->
     exists p1 p2 p3 p4, release true (Some (Z.of_nat i)) p = Ret p1 /\
       acquire p1 = Ret (Some (Z.of_nat i), p2) /\
       acquire p2 = Ret (Some (Z.of_nat x), p3) /\
       acquire p3 = Ret (Some (Z.of_nat i), p4)).
Proof.
  intros Hr Hin. pose proof Hr as [Hlen Hcap Hsz Hch Hnd Hb Hfl Hct].
  assert (i < sp_cap s)%nat as Hi by (rewrite list.Forall_forall in Hb; auto).
  assert (is_Some (slots_ p !! i)) as [sl Hsl] by (apply lookup_lt_is_Some; lia).
  unfold release. rewrite arr_get_nat, Hsl, (Hfl _ _ Hsl), bool_decide_eq_false_2 by naive_solver.
  split_and!; [done| |].
  - intros fr Hf. rewrite Hf in Hch. destruct Hch as [-> _]. simpl.
    rewrite Z.eqb_refl, arr_set_nat by lia. eauto.
  - intros x fr Hf Hlt. rewrite Hf in *. simpl in Hch, Hct, Hlt.
    destruct Hch as [Hh (sx & Hsx & Hnx & si & Hsi & Hci)].
    apply list.NoDup_cons in Hnd as [Hxi _].
    assert (i <> x) as Hne by set_solver.
    assert (x < sp_cap s)%nat as Hx by (apply list.Forall_cons in Hb; naive_solver).
    simpl. bool_case; reflect_bools; [lia|].
    rewrite arr_set_nat by lia.
    unfold SIZE_MAX in Hsz.
    do 4 eexists. split; [done|].
    unfold acquire at 1. simpl. rewrite Hct, Hcap.
    rewrite wrap_small by (unfold uint_ok; lia).
    bool_case; reflect_bools; [lia|]. rewrite arr_get_nat, list_lookup_insert_eq by lia.
    rewrite arr_set_nat by (rewrite length_insert; lia). split; [done|].
    unfold acquire at 1. simpl. rewrite wrap_small by (unfold uint_ok; lia).
    bool_case; reflect_bools; [lia|].
    rewrite Hh, arr_get_nat, !list_lookup_insert_ne, Hsx by done.
    rewrite arr_set_nat by (rewrite !length_insert; lia). split; [done|].
    unfold acquire. simpl. rewrite wrap_small by (unfold uint_ok; lia).
    bool_case; reflect_bools; [lia|].
    rewrite Hnx, arr_get_nat, list_lookup_insert_ne, list_lookup_insert_eq by (rewrite ?length_insert; (done || lia)).
    rewrite arr_set_nat by (rewrite !length_insert; lia). done.
Qed.

(** [dump_state] prints the free list in order while a slot is free, and reads
    outside the slot array when the pool (of non-zero capacity) is exhausted. *)
Theorem mem_pool_dump_state p s :
  pool_rel p s -> sp_cap s <> 0%nat ->
  dump_state p = if decide (sp_free s = []) then UB else Ret (Z.of_nat <$> sp_free s).
Proof.
  intros Hr Hz. pose proof Hr as [Hlen Hcap Hsz Hch Hnd Hb Hfl Hct].
  unfold dump_state. rewrite Hcap, Nat2Z.id. case_decide as Hf.
  - rewrite Hf in Hch. destruct Hch as [->|Hn]; [|rewrite Hn in Hlen; done].
    destruct (sp_cap s) eqn:E; [done|]. simpl. rewrite arr_get_None by lia. done.
  - apply dump_walk_chain; try done; try (rewrite Hlen; done).
    + by eapply rel_free_length.
    + intros Hn. rewrite Hn in Hlen. done.
Qed.

End Properties.

(** ** Witnesses: a pool of three 4-byte objects *)

Definition pool3 : MemPool (list Z) :=
  match MemPool_ctor (replicate 4 0) 3 "pool" with Ret p => p | _ => mkPool [] 0 0 0 "pool" end.
Definition pool3_rel : pool_rel pool3 (spec_new 3) := ctor_rel (replicate 4 0) 3 "pool" pool3 eq_refl.

(** Two acquisitions, a write, a release and another acquisition. *)
Definition pool3_used : MemPool (list Z) :=
  mkPool [mkSlot [0; 0; 0; 0] SIZE_MAX true; mkSlot [1; 2; 3; 4] SIZE_MAX true; mkSlot [0; 0; 0; 0] SIZE_MAX false] 2 3 2 "pool".
Lemma pool3_run : pool_run (H := memset_bytes 4) false pool3_used [0; 1].
Proof.
  assert (pool_run (H := memset_bytes 4) false pool3 []) as R by by apply (run_new _ (replicate 4 0) 3 "pool").
  eapply run_acquire in R; [|vm_compute; reflexivity]. eapply run_acquire in R; [|vm_compute; reflexivity].
  eapply (run_write _ _ _ 1 [1; 2; 3; 4]) in R; [|set_solver|vm_compute; reflexivity].
  eapply (run_release _ _ [1] 0 []) in R; [|vm_compute; reflexivity]. eapply run_acquire in R; [|vm_compute; reflexivity]. exact R.
Qed.

Lemma mem_pool_run_safe_witness :
  in_use_count pool3_used = 2 /\
  exists r p', acquire (H := memset_bytes 4) pool3_used = Ret (r, p') /\
    (r = None <-> is_exhausted pool3_used = true) /\ (forall ptr, r = Some ptr -> (ptr ∉ [0; 1]) /\ 0 <= ptr < 3).
Proof.
  destruct (mem_pool_run_safe (H := memset_bytes 4) (T := list Z) false) as [_ H]. destruct (H _ _ pool3_run) as (_ & Hc & (r & p' & Ha & Hn & _ & Hp) & _).
  split; [exact Hc|]. exists r, p'. split; [exact Ha|]. split; [exact Hn|exact Hp].
Defined.

Lemma mem_pool_double_free_witness :
  release (H := memset_bytes 4) false (Some 0) pool3 = AssertFail.
Proof.
  apply (mem_pool_double_free (H := memset_bytes 4) pool3 (spec_new 3) 0 pool3_rel).
  vm_compute. left.
Defined.

Lemma mem_pool_dump_state_witness : dump_state pool3 = Ret [0; 1; 2].
Proof.
  exact (mem_pool_dump_state pool3 (spec_new 3) pool3_rel
           ltac:(discriminate)).
Defined.
