(* ===== verification/ObjectPool.v ===== *)
(** The interface between the object pools and their clients.

    A client sees a pool of at most [n] objects as a finite map from the pointers it holds
    to their contents. [ObjectPool] states what the operations promise on that map; the
    pool of include/mem_pool.h discharges it below, and the server's theorems use nothing
    else of it. *)

From S2P Require Import Prelude MemPool.

Class ObjectPool (P T : Type) := {
  op_acquire : P -> outcome (option Z * P);
  op_release : Z -> P -> outcome P;
  op_get : P -> Z -> option T;
  op_set : P -> Z -> T -> P;
  op_zero : T;
  (** [op_repr p n m]: the pool has [n] slots and [m] is what is live in it. *)
  op_repr : P -> nat -> gmap Z T -> Prop;
  op_get_repr p n m ptr : op_repr p n m -> op_get p ptr = m !! ptr;
  op_set_repr p n m ptr x : op_repr p n m -> is_Some (m !! ptr) ->
    op_repr (op_set p ptr x) n (<[ptr := x]> m);
  op_acquire_full p n m : op_repr p n m -> size m = n -> op_acquire p = Ret (None, p);
  op_acquire_free p n m : op_repr p n m -> size m <> n ->
    exists ptr p', op_acquire p = Ret (Some ptr, p') /\ m !! ptr = None /\
      op_repr p' n (<[ptr := op_zero]> m);
  op_release_repr p n m ptr : op_repr p n m -> is_Some (m !! ptr) ->
    exists p', op_release ptr p = Ret p' /\ op_repr p' n (delete ptr m);
  op_size p n m : op_repr p n m -> (size m <= n)%nat
}.

(** ** The pool of include/mem_pool.h *)

Section MemPoolInstance.
Context {T : Type} `{Memset T} (ndebug : bool).
Implicit Types (p : MemPool T) (s : PoolSpec) (m : gmap Z T).

(** The order in which held pointers are listed does not matter. *)
#[local] Instance held_rel_proper s : Proper ((≡ₚ) ==> iff) (held_rel s).
Proof.
  assert (forall h1 h2, h1 ≡ₚ h2 -> held_rel s h1 -> held_rel s h2) as Hp.
  { intros h1 h2 Hp (Hn & Hl & Hc). unfold held_rel. rewrite <- Hp. split_and!; [done| |done].
    intros ptr. by rewrite <- Hp. }
  intros h1 h2 He. split; by apply Hp.
Qed.

(** The object behind a pointer whose slot is in use. *)
Definition pool_get p (ptr : Z) : option T :=
  s ← (slots_ p).[ptr]; if in_use s then Some (data s) else None.

(** A write through a pointer that the client holds; clients write only objects they have read. *)
Definition pool_set p (ptr : Z) (x : T) : MemPool T := match write_obj ptr x p with Ret p' => p' | _ => p end.

Record pool_map p (n : nat) m (s : PoolSpec) : Prop := {
  pm_rel : pool_rel p s;
  pm_cap : sp_cap s = n;
  pm_held : held_rel s (map_to_list m).*1;
  pm_data : forall i x, m !! Z.of_nat i = Some x ->
    exists sl, slots_ p !! i = Some sl /\ data sl = x }.

Lemma pm_live p n m s ptr : pool_map p n m s ->
  is_Some (m !! ptr) <-> exists i, ptr = Z.of_nat i /\ spec_live s i.
Proof.
  intros [_ _ (_ & Hl & _) _]. rewrite <- Hl. split.
  - intros [x Hx]. apply list_elem_of_fmap. exists (ptr, x). split; [done|].
    by apply elem_of_map_to_list.
  - intros ([k x] & -> & Hx)%list_elem_of_fmap. apply elem_of_map_to_list in Hx. eauto.
Qed.

Lemma pm_size p n m s : pool_map p n m s -> (size m + length (sp_free s) = n)%nat.
Proof.
  intros [_ <- (_ & _ & Hc) _]. rewrite <- Hc, length_fmap, length_map_to_list. done.
Qed.

Lemma pool_get_map p n m s ptr : pool_map p n m s -> pool_get p ptr = m !! ptr.
Proof.
  intros Hm. pose proof (pm_rel _ _ _ _ Hm) as Hr. unfold pool_get.
  destruct (m !! ptr) as [x|] eqn:E.
  - destruct (proj1 (pm_live _ _ _ _ ptr Hm)) as (i & -> & Hi & Hni); [by eexists|].
    destruct (pm_data _ _ _ _ Hm i x E) as (sl & Hsl & <-). rewrite arr_get_nat, Hsl. simpl.
    rewrite (rel_flag _ _ Hr _ _ Hsl). by rewrite bool_decide_eq_true_2.
  - destruct ((slots_ p).[ptr]) as [sl|] eqn:Es; [|done]. simpl.
    apply arr_get_Some in Es as [Hp Hs]. destruct (in_use sl) eqn:Eu; [|done].
    rewrite (rel_flag _ _ Hr _ _ Hs), bool_decide_eq_true in Eu.
    assert (is_Some (m !! ptr)) as [x Hx]; [|congruence].
    apply (pm_live _ _ _ _ ptr Hm). exists (Z.to_nat ptr). split; [lia|]. split; [|done].
    rewrite <- (rel_len _ _ Hr). by eapply lookup_lt_Some.
Qed.

Lemma pool_set_map p n m s ptr x : pool_map p n m s -> is_Some (m !! ptr) ->
  pool_map (pool_set p ptr x) n (<[ptr := x]> m) s.
Proof.
  intros Hm Hl. pose proof Hl as [x0 Hx0].
  destruct (proj1 (pm_live _ _ _ _ ptr Hm) Hl) as (i & -> & Hi).
  destruct (pm_data _ _ _ _ Hm i x0 Hx0) as (sl0 & Hsl0 & _).
  assert (write_obj (Z.of_nat i) x p = Ret (pool_set p (Z.of_nat i) x)) as Ew by (unfold pool_set, write_obj; by rewrite arr_get_nat, Hsl0).
  destruct Hm as [Hr Hc Hh Hd]. split; [by eapply write_obj_rel|done| |].
  - rewrite <- (insert_delete_id m (Z.of_nat i) x0) in Hh by done.
    rewrite <- insert_delete_eq.
    rewrite map_to_list_insert in Hh |- * by apply lookup_delete_eq. done.
  - intros j y Hj. unfold pool_set, write_obj. rewrite arr_get_nat, Hsl0. simpl. rewrite Nat2Z.id.
    destruct (decide (j = i)) as [->|Hne].
    + rewrite lookup_insert_eq in Hj. injection Hj as <-.
      rewrite list_lookup_insert_eq by (by eapply lookup_lt_Some). eauto.
    + rewrite lookup_insert_ne in Hj by lia. rewrite list_lookup_insert_ne by done. by apply Hd.
Qed.

Lemma pool_acquire_map p n m s : pool_map p n m s -> size m <> n ->
  exists ptr p' s', acquire p = Ret (Some ptr, p') /\ m !! ptr = None /\
    pool_map p' n (<[ptr := memset 0]> m) s'.
Proof.
  intros Hm Hsz. pose proof (pm_size _ _ _ _ Hm) as Hs.
  destruct (sp_free s) as [|x fr] eqn:Hf; [simpl in *; lia|].
  destruct (acquire_cons p s x fr (pm_rel _ _ _ _ Hm) Hf) as (p' & Ha & Hr' & Hsl & _).
  assert (x < sp_cap s)%nat as Hx.
  { pose proof (rel_bound _ _ (pm_rel _ _ _ _ Hm)) as Hb. rewrite Hf in Hb.
    by apply list.Forall_cons in Hb as [? _]. }
  assert (m !! Z.of_nat x = None) as Hn.
  { destruct (m !! Z.of_nat x) as [y|] eqn:E; [|done].
    destruct (proj1 (pm_live _ _ _ _ (Z.of_nat x) Hm)) as (i & Hi & _ & Hni); [by eexists|].
    apply Nat2Z.inj in Hi as <-. rewrite Hf in Hni. set_solver. }
  exists (Z.of_nat x), p', (mkSpec (sp_cap s) fr). split_and!; [done|done|].
  split; [done|by destruct Hm| |].
  - rewrite map_to_list_insert by done. rewrite fmap_cons. simpl fst.
    apply held_acquire; [done|apply Hm|done|apply Hm].
  - intros i y Hy. rewrite Hsl. destruct (decide (i = x)) as [->|Hne].
    + rewrite lookup_insert_eq in Hy. injection Hy as <-.
      rewrite list_lookup_insert_eq by (rewrite (rel_len _ _ (pm_rel _ _ _ _ Hm)); done). eauto.
    + rewrite lookup_insert_ne in Hy by lia. rewrite list_lookup_insert_ne by done.
      by apply (pm_data _ _ _ _ Hm).
Qed.

Lemma pool_release_map p n m s ptr : pool_map p n m s -> is_Some (m !! ptr) ->
  exists p' s', release ndebug (Some ptr) p = Ret p' /\ pool_map p' n (delete ptr m) s'.
Proof.
  intros Hm Hl. destruct (proj1 (pm_live _ _ _ _ ptr Hm) Hl) as (i & -> & Hi).
  destruct (release_live ndebug p s i (pm_rel _ _ _ _ Hm) Hi) as (p' & Ha & Hr' & Hsl & _).
  destruct Hl as [x Hx]. exists p', (spec_release i s). split; [done|].
  split; [done|by destruct Hm| |].
  - change (held_rel (spec_release i s) ([] ++ (map_to_list (delete (Z.of_nat i) m)).*1)).
    apply held_release. simpl.
    pose proof (pm_held _ _ _ _ Hm) as Hh.
    rewrite <- (insert_delete_id m (Z.of_nat i) x) in Hh by done.
    by rewrite map_to_list_insert in Hh by apply lookup_delete_eq.
  - intros j y Hj. rewrite Hsl. destruct (decide (j = i)) as [->|Hne].
    + by rewrite lookup_delete_eq in Hj.
    + rewrite lookup_delete_ne in Hj by lia. rewrite list_lookup_insert_ne by done.
      by apply (pm_data _ _ _ _ Hm).
Qed.

#[export] Program Instance mem_pool_objects : ObjectPool (MemPool T) T := {
  op_acquire := acquire;
  op_release := fun ptr => release ndebug (Some ptr);
  op_get := pool_get;
  op_set := pool_set;
  op_zero := memset 0;
  op_repr := fun p n m => exists s, pool_map p n m s }.
Next Obligation. intros p n m ptr [s Hm]. by eapply pool_get_map. Qed.
Next Obligation. intros p n m ptr x [s Hm] Hl. eexists. by apply pool_set_map. Qed.
Next Obligation.
  intros p n m [s Hm] Hsz. eapply acquire_empty; [apply Hm|].
  pose proof (pm_size _ _ _ _ Hm). destruct (sp_free s); [done|simpl in *; lia].
Qed.
Next Obligation.
  intros p n m [s Hm] Hsz. destruct (pool_acquire_map p n m s Hm Hsz) as (ptr & p' & s' & ? & ? & ?).
  eauto 6.
Qed.
Next Obligation.
  intros p n m ptr [s Hm] Hl. destruct (pool_release_map p n m s ptr Hm Hl) as (p' & s' & ? & ?).
  eauto.
Qed.
Next Obligation. intros p n m [s Hm]. pose proof (pm_size _ _ _ _ Hm). lia. Qed.

Lemma mem_pool_new (d : T) cap name p : MemPool_ctor d cap name = Ret p -> op_repr p cap ∅.
Proof.
  intros Hc. exists (spec_new cap). split; [by eapply ctor_rel|done| |].
  - rewrite map_to_list_empty. apply held_new.
  - done.
Qed.

End MemPoolInstance.
