(* ===== verification/SpscQueue.v ===== *)
(** The lock-free ring of include/spsc_queue.h.

    Part 1 models [push], [pop] and [empty] as they run when no other thread
    interferes (the worker's drain after [uv_thread_join], the tests) and proves that
    the ring refines a bounded FIFO. Part 2 models the two threads at the granularity
    of their memory accesses under the C++ memory model, and proves that no item is lost,
    duplicated or reordered and that the accesses to the cells do not race. *)

From S2P Require Import Prelude.

(** The two [static_assert]s of the class. *)
Definition capacity_ok (N : Z) : Prop := Z.land N (N - 1) = 0 /\ 1 < N.

#[export] Instance capacity_ok_dec N : Decision (capacity_ok N).
Proof. unfold capacity_ok; apply _. Defined.

Record SPSCQueue (T : Type) := mkQueue { buf_ : list T; write_ : Z; read_ : Z }.
Arguments mkQueue {T} _ _ _.
Arguments buf_ {T} _.
Arguments write_ {T} _.
Arguments read_ {T} _.

Section Operations.
Context {T : Type} (N : Z).

(** [(w + 1) & (N - 1)] in [size_t]. *)
Definition next_index (w : Z) : Z := Z.land (u64 (w + 1)) (N - 1).

(** The default constructor; [d] is what the cells of [buf_] hold before any push. *)
Definition SPSCQueue_ctor (d : T) : SPSCQueue T :=
  mkQueue (replicate (Z.to_nat N) d) 0 0.

Definition push (item : T) (q : SPSCQueue T) : outcome (bool * SPSCQueue T) :=
  let w := write_ q in
  let next := next_index w in
  if next =? read_ q then Ret (false, q)
  else
    match arr_set (buf_ q) w item with
    | None => UB
    | Some buf' => Ret (true, mkQueue buf' next (read_ q))
    end.

(** [pop] returns [None] for [false] and the item otherwise. *)
Definition pop (q : SPSCQueue T) : outcome (option T * SPSCQueue T) :=
  let r := read_ q in
  if r =? write_ q then Ret (None, q)
  else
    match (buf_ q).[r] with
    | None => UB
    | Some out => Ret (Some out, mkQueue (buf_ q) (write_ q) (next_index r))
    end.

Definition empty (q : SPSCQueue T) : bool := read_ q =? write_ q.

End Operations.

(** ** Arithmetic of the ring *)

Section Ring.
Context (N : Z) (HN : capacity_ok N) (H64 : N <= 2 ^ 64).

Lemma capacity_pow2 : exists k, 1 <= k <= 64 /\ N = 2 ^ k.
Proof.
  destruct HN as [Hl H1]. pose proof (Z.log2_spec N ltac:(lia)) as [Hlo Hhi].
  pose proof (Z.log2_pos N H1) as Hk. exists (Z.log2 N).
  destruct (Z.eq_dec N (2 ^ Z.log2 N)) as [He|Hne].
  - split; [|done]. split; [lia|]. apply (Z.pow_le_mono_r_iff 2); lia.
  - exfalso. assert (Z.testbit (Z.land N (N - 1)) (Z.log2 N) = true) as Hb.
    { rewrite Z.land_spec, Z.bit_log2 by lia.
      replace (Z.log2 N) with (Z.log2 (N - 1)); [by rewrite Z.bit_log2 by lia|].
      apply Z.log2_unique; [lia|]. lia. }
    by rewrite Hl, Z.bits_0 in Hb.
Qed.

Lemma next_index_mod w : 0 <= w < N -> next_index N w = (w + 1) mod N.
Proof.
  intros Hw. destruct capacity_pow2 as (k & Hk & Hp). unfold next_index.
  rewrite Hp at 1. rewrite land_pow2_mask, <- Hp by lia. unfold wrap.
  replace (2 ^ 64) with (N * 2 ^ (64 - k)).
  2: { rewrite Hp at 1. rewrite <- Z.pow_add_r by lia. f_equal. lia. }
  assert (0 < 2 ^ (64 - k)) by (apply Z.pow_pos_nonneg; lia).
  rewrite Z.rem_mul_r by lia. rewrite Z.mul_comm, Z.mod_add by lia. by rewrite Z.mod_mod by lia.
Qed.

(** The index after [i] steps from 0. *)
Lemma next_index_count i : next_index N (Z.of_nat i mod N) = Z.of_nat (S i) mod N.
Proof.
  pose proof HN as [_ H1]. rewrite next_index_mod by (apply Z.mod_pos_bound; lia).
  rewrite Z.add_mod_idemp_l by lia. f_equal. lia.
Qed.

(** Two positions less than [N] apart share a cell only if they are equal. *)
Lemma cell_inj i j : (i <= j)%nat -> Z.of_nat j - Z.of_nat i < N ->
  Z.of_nat i mod N = Z.of_nat j mod N -> i = j.
Proof.
  pose proof HN as [_ H1]. intros Hij Hd He.
  pose proof (Z.div_mod (Z.of_nat i) N ltac:(lia)).
  pose proof (Z.div_mod (Z.of_nat j) N ltac:(lia)).
  assert (Z.of_nat j / N = Z.of_nat i / N) by nia. nia.
Qed.

Lemma cell_range i : 0 <= Z.of_nat i mod N < N.
Proof. pose proof HN as [_ H1]. apply Z.mod_pos_bound; lia. Qed.

End Ring.

(** ** The contract: a FIFO that holds at most [fq_cap] items

    What the ring promises to [WorkQueue] and to the workers' result path. Clients
    are verified against this interface; the ring discharges it below. *)
Class FifoQueue (Q T : Type) := {
  fq_push : T -> Q -> outcome (bool * Q);
  fq_pop : Q -> outcome (option T * Q);
  fq_empty : Q -> bool;
  fq_cap : nat;
  fq_repr : Q -> list T -> Prop;
  fq_repr_cap q l : fq_repr q l -> (length l <= fq_cap)%nat;
  fq_push_ok q l x : fq_repr q l ->
    exists q', fq_push x q = Ret (bool_decide (length l < fq_cap)%nat, q') /\
      fq_repr q' (if bool_decide (length l < fq_cap)%nat then l ++ [x] else l);
  fq_pop_ok q l : fq_repr q l ->
    exists q', fq_pop q = Ret (head l, q') /\ fq_repr q' (tail l);
  fq_empty_ok q l : fq_repr q l -> fq_empty q = bool_decide (l = [])
}.

Section Refinement.
Context {T : Type} (N : Z) (HN : capacity_ok N) (H64 : N <= 2 ^ 64).
Implicit Types (q : SPSCQueue T) (l : list T).

(** [ring_repr q l]: the cells from [read_] up to [write_] hold [l]. *)
Definition ring_repr q l : Prop :=
  exists r : nat,
    read_ q = Z.of_nat r mod N /\
    write_ q = Z.of_nat (r + length l) mod N /\
    Z.of_nat (length l) < N /\
    Z.of_nat (length (buf_ q)) = N /\
    forall j x, l !! j = Some x -> (buf_ q).[Z.of_nat (r + j) mod N] = Some x.

Lemma ring_repr_new d : ring_repr (SPSCQueue_ctor N d) [].
Proof.
  pose proof HN as [_ H1]. exists 0%nat. simpl. rewrite Z.mod_0_l by lia.
  split_and!; try done; [lia|]. rewrite length_replicate. lia.
Qed.

Lemma arr_set_ok (l : list T) i x : 0 <= i < Z.of_nat (length l) ->
  exists l', arr_set l i x = Some l' /\ length l' = length l /\ l'.[i] = Some x /\
    forall j, j <> i -> l'.[j] = l.[j].
Proof.
  intros Hi. pose proof (proj2 (in_range_spec l i) Hi) as Hr. unfold arr_set. rewrite Hr.
  eexists. split; [done|]. rewrite length_insert. split; [done|]. split.
  - apply arr_get_Some. split; [lia|]. apply list_lookup_insert_eq. lia.
  - intros j Hj. unfold arr_get, in_range. rewrite length_insert.
    bool_case; [|done]. reflect_bools. rewrite list_lookup_insert_ne; [done|lia].
Qed.

Lemma ring_full q l r :
  write_ q = Z.of_nat (r + length l) mod N -> read_ q = Z.of_nat r mod N ->
  Z.of_nat (length l) < N ->
  (next_index N (write_ q) =? read_ q) = negb (bool_decide (length l < Z.to_nat (N - 1))%nat).
Proof.
  intros Hw Hr Hl. pose proof HN as [_ H1]. rewrite Hw, Hr, next_index_count by done.
  case_bool_decide as Hc; simpl.
  - apply Z.eqb_neq. intros He. symmetry in He. apply (cell_inj N HN) in He; lia.
  - apply Z.eqb_eq. replace (Z.of_nat (S (r + length l))) with (Z.of_nat r + 1 * N) by lia.
    by rewrite Z.mod_add by lia.
Qed.

Lemma push_refines q l x : ring_repr q l ->
  exists q', push N x q = Ret (bool_decide (length l < Z.to_nat (N - 1))%nat, q') /\
    ring_repr q' (if bool_decide (length l < Z.to_nat (N - 1))%nat then l ++ [x] else l).
Proof.
  intros (r & Hr & Hw & Hl & Hb & Hc). pose proof HN as [_ H1].
  unfold push. rewrite (ring_full q l r Hw Hr Hl). case_bool_decide as Hlt; simpl.
  2: { exists q. split; [done|]. exists r. done. }
  destruct (arr_set_ok (buf_ q) (write_ q) x) as (b' & -> & Hlen & Hx & Ho).
  { rewrite Hb, Hw. by apply cell_range. }
  eexists. split; [done|]. exists r. simpl. rewrite Hlen, length_app. simpl.
  split_and!; try done; [|lia|].
  - rewrite Hw, next_index_count by done. do 2 f_equal. lia.
  - intros j y Hj. apply lookup_app_Some in Hj as [Hj|[Hge Hj]].
    + rewrite Ho; [by apply Hc|]. apply lookup_lt_Some in Hj. rewrite Hw. intros He.
      apply (cell_inj N HN) in He; lia.
    + apply list_lookup_singleton_Some in Hj as [Hj ->].
      replace (r + j)%nat with (r + length l)%nat by lia. by rewrite <- Hw.
Qed.

Lemma pop_refines q l : ring_repr q l ->
  exists q', pop N q = Ret (head l, q') /\ ring_repr q' (tail l).
Proof.
  intros (r & Hr & Hw & Hl & Hb & Hc). pose proof HN as [_ H1].
  unfold pop. rewrite Hr, Hw. destruct l as [|x l]; simpl in *.
  - rewrite Nat.add_0_r, Z.eqb_refl. exists q. split; [done|]. exists r. simpl.
    by rewrite Nat.add_0_r in *.
  - bool_case; reflect_bools; [apply (cell_inj N HN) in Heqb; lia|].
    pose proof (Hc 0%nat x eq_refl) as H0. rewrite Nat.add_0_r in H0. rewrite H0.
    eexists. split; [done|]. exists (S r). simpl. rewrite next_index_count by done.
    split_and!; try done; [|lia|].
    + do 2 f_equal. lia.
    + intros j y Hj. replace (S (r + j))%nat with (r + S j)%nat by lia. by apply Hc.
Qed.

Lemma empty_refines q l : ring_repr q l -> empty q = bool_decide (l = []).
Proof.
  intros (r & Hr & Hw & Hl & Hb & Hc). pose proof HN as [_ H1].
  unfold empty. rewrite Hr, Hw. case_bool_decide as He.
  - subst. simpl. by rewrite Nat.add_0_r, Z.eqb_refl.
  - apply Z.eqb_neq. intros Hq. apply (cell_inj N HN) in Hq; [|lia|lia].
    apply He, length_zero_iff_nil. lia.
Qed.

Program Definition ring_fifo : FifoQueue (SPSCQueue T) T := {|
  fq_push := push N;
  fq_pop := pop N;
  fq_empty := empty;
  fq_cap := Z.to_nat (N - 1);
  fq_repr := ring_repr
|}.
Next Obligation. intros q l (r & _ & _ & Hl & _). lia. Qed.
Next Obligation. intros. by apply push_refines. Qed.
Next Obligation. intros. by apply pop_refines. Qed.
Next Obligation. intros. by apply empty_refines. Qed.

End Refinement.

(** ** The two threads

    One memory access per step, under the C++ memory model of one producer and one consumer.
    An atomic is its modification order: every store, oldest first. A load returns any store that
    is not older than the last one its thread stored or observed. Every store carries a clock,
    which says how many accesses to [buf_] by either thread happen before it; a release store
    has the clock of its thread, a relaxed one has none, and only an acquire load adds the clock
    to what its thread knows. The cells of [buf_] are plain memory: an access that another
    thread's conflicting access does not happen before is a race, which is [UB]. *)
Module Threads.

Inductive memory_order := relaxed | acquire | release.

Record clock := mkClock { writes : nat; reads : nat }.
Definition clock0 : clock := mkClock 0 0.
Definition clock_join (a b : clock) : clock := mkClock (max (writes a) (writes b)) (max (reads a) (reads b)).

Record message := mkMsg { m_val : Z; m_clock : clock }.

(** A thread: the last stores to [write_] and [read_] it made or observed, and its clock. *)
Record thread := mkThread { at_write : nat; at_read : nat; now : clock }.

(** The store that a load reads from, if position [j] of the modification order [h] is one that the
    thread may still see. *)
Definition load (o : memory_order) (h : list message) (seen j : nat) (k : clock) : option (Z * clock) :=
  if (seen <=? j)%nat
  then match h !! j with
       | Some m => Some (m_val m, match o with acquire => clock_join k (m_clock m) | _ => k end)
       | None => None
       end
  else None.

Definition store (o : memory_order) (h : list message) (v : Z) (k : clock) : list message :=
  h ++ [mkMsg v (match o with release => k | _ => clock0 end)].

Section Threads.
Context {T : Type} (N : Z).

(** A cell: its contents, and the numbers of the last write and of the last read, from 1. *)
Record cell := mkCell { c_item : T; c_write : nat; c_read : nat }.

Inductive producer_pc :=
| PIdle
| PLoaded (item : T) (w : Z)              (* after write_.load *)
| PChecked (item : T) (w next : Z)        (* next != read_ was observed *)
| PWrote (item : T) (next : Z).           (* buf_[w] = item is done *)

Inductive consumer_pc :=
| CIdle
| CLoaded (r : Z)                         (* after read_.load *)
| CChecked (r : Z)                        (* r != write_ was observed *)
| CGot (r : Z) (out : T).                 (* out = buf_[r] is done *)

Record state := mkState {
  buf : list cell;
  whist : list message;                   (* write_ *)
  rhist : list message;                   (* read_ *)
  prod : thread;
  cons : thread;
  ppc : producer_pc;
  cpc : consumer_pc;
  pushed : list T;                        (* items whose push returned true *)
  popped : list T                         (* items pop returned, in order *)
}.

Definition init (b : list T) : state :=
  mkState (map (fun x => mkCell x 0 0) b) [mkMsg 0 clock0] [mkMsg 0 clock0]
    (mkThread 0 0 clock0) (mkThread 0 0 clock0) PIdle CIdle [] [].

(** One access of the producer in [push item]; [j] is the store that a load reads from. [None]: a
    load cannot read from there. *)
Definition push_step (item : T) (j : nat) (s : state) : option (outcome state) :=
  let t := prod s in
  let at_pc pc t := mkState (buf s) (whist s) (rhist s) t (cons s) pc (cpc s) (pushed s) (popped s) in
  match ppc s with
  | PIdle =>
      match load relaxed (whist s) (at_write t) j (now t) with
      | Some (w, k) => Some (Ret (at_pc (PLoaded item w) (mkThread j (at_read t) k)))
      | None => None
      end
  | PLoaded item w =>
      let next := next_index N w in
      match load acquire (rhist s) (at_read t) j (now t) with
      | Some (v, k) => Some (Ret (at_pc (if next =? v then PIdle else PChecked item w next) (mkThread (at_write t) j k)))
      | None => None
      end
  | PChecked item w next =>
      match (buf s).[w] with
      | Some c =>
          if (c_read c <=? reads (now t))%nat then
            let n := S (writes (now t)) in
            match arr_set (buf s) w (mkCell item n (c_read c)) with
            | Some b => Some (Ret (mkState b (whist s) (rhist s) (mkThread (at_write t) (at_read t) (mkClock n (reads (now t))))
                                     (cons s) (PWrote item next) (cpc s) (pushed s) (popped s)))
            | None => Some UB
            end
          else Some UB
      | None => Some UB
      end
  | PWrote item next =>
      Some (Ret (mkState (buf s) (store release (whist s) next (now t)) (rhist s) (mkThread (length (whist s)) (at_read t) (now t))
                   (cons s) PIdle (cpc s) (pushed s ++ [item]) (popped s)))
  end.

(** One access of the consumer in [pop]. *)
Definition pop_step (j : nat) (s : state) : option (outcome state) :=
  let t := cons s in
  let at_pc pc t := mkState (buf s) (whist s) (rhist s) (prod s) t (ppc s) pc (pushed s) (popped s) in
  match cpc s with
  | CIdle =>
      match load relaxed (rhist s) (at_read t) j (now t) with
      | Some (r, k) => Some (Ret (at_pc (CLoaded r) (mkThread (at_write t) j k)))
      | None => None
      end
  | CLoaded r =>
      match load acquire (whist s) (at_write t) j (now t) with
      | Some (v, k) => Some (Ret (at_pc (if r =? v then CIdle else CChecked r) (mkThread j (at_read t) k)))
      | None => None
      end
  | CChecked r =>
      match (buf s).[r] with
      | Some c =>
          if (c_write c <=? writes (now t))%nat then
            let n := S (reads (now t)) in
            match arr_set (buf s) r (mkCell (c_item c) (c_write c) n) with
            | Some b => Some (Ret (mkState b (whist s) (rhist s) (prod s) (mkThread (at_write t) (at_read t) (mkClock (writes (now t)) n))
                                     (ppc s) (CGot r (c_item c)) (pushed s) (popped s)))
            | None => Some UB
            end
          else Some UB
      | None => Some UB
      end
  | CGot r out =>
      Some (Ret (mkState (buf s) (whist s) (store release (rhist s) (next_index N r) (now t)) (prod s)
                   (mkThread (at_write t) (length (rhist s)) (now t)) (ppc s) CIdle (pushed s) (popped s ++ [out])))
  end.

(** An interleaving says which thread goes on and what its load reads from; a step that cannot
    be made is left out. *)
Inductive choice := Push (item : T) (j : nat) | Pop (j : nat).
Definition step (c : choice) (s : state) : outcome state :=
  default (Ret s) (match c with Push item j => push_step item j s | Pop j => pop_step j s end).
Fixpoint run (cs : list choice) (s : state) : outcome state :=
  match cs with [] => Ret s | c :: cs => s ← step c s; run cs s end.

(** What the producer and the consumer know at each program point. *)
Definition producer_inv (s : state) : Prop :=
  let W := length (pushed s) in
  match ppc s with
  | PIdle => True
  | PLoaded _ w => w = Z.of_nat W mod N
  | PChecked _ w next =>
      w = Z.of_nat W mod N /\ next = Z.of_nat (S W) mod N /\ Z.of_nat W + 1 < Z.of_nat (at_read (prod s)) + N
  | PWrote item next =>
      next = Z.of_nat (S W) mod N /\ Z.of_nat W + 1 < Z.of_nat (at_read (prod s)) + N
  end.

Definition consumer_inv (s : state) : Prop :=
  let R := length (popped s) in
  match cpc s with
  | CIdle => True
  | CLoaded r => r = Z.of_nat R mod N
  | CChecked r => r = Z.of_nat R mod N /\ (R < at_write (cons s))%nat
  | CGot r out => r = Z.of_nat R mod N /\ (R < at_write (cons s))%nat /\ pushed s !! R = Some out
  end.

(** The items written to [buf_], the last of them perhaps not yet published, and the number read. *)
Definition written (s : state) : list T := pushed s ++ match ppc s with PWrote item _ => [item] | _ => [] end.
Definition nread (s : state) : nat := (length (popped s) + match cpc s with CGot _ _ => 1 | _ => 0 end)%nat.

(** The modification order of an index that was advanced [n] times, each store with its number as
    component [own] of its clock. *)
Definition hist_ok (h : list message) (n : nat) (own other : clock -> nat) (bound : nat) : Prop :=
  length h = S n /\ forall i m, h !! i = Some m -> m_val m = Z.of_nat i mod N /\ own (m_clock m) = i /\ (other (m_clock m) <= bound)%nat.

Record inv (s : state) : Prop := {
  inv_buf : Z.of_nat (length (buf s)) = N;
  inv_whist : hist_ok (whist s) (length (pushed s)) writes reads (length (popped s));
  inv_rhist : hist_ok (rhist s) (length (popped s)) reads writes (length (pushed s));
  inv_prod : at_write (prod s) = length (pushed s) /\ (at_read (prod s) <= length (popped s))%nat /\
    now (prod s) = mkClock (length (written s)) (at_read (prod s));
  inv_cons : at_read (cons s) = length (popped s) /\ (length (popped s) <= at_write (cons s) <= length (pushed s))%nat /\
    now (cons s) = mkClock (at_write (cons s)) (nread s);
  inv_room : Z.of_nat (length (pushed s)) < Z.of_nat (at_read (prod s)) + N;
  inv_cells : forall i x, (length (popped s) <= i)%nat -> written s !! i = Some x ->
    exists rd, (buf s).[Z.of_nat i mod N] = Some (mkCell x (S i) rd);
  inv_reads : forall p c, (buf s).[p] = Some c -> c_read c = 0%nat \/ exists j, (j < nread s)%nat /\ Z.of_nat j mod N = p /\ c_read c = S j;
  inv_popped : popped s = take (length (popped s)) (pushed s);
  inv_producer : producer_inv s;
  inv_consumer : consumer_inv s
}.

Context (HN : capacity_ok N) (H64 : N <= 2 ^ 64).

Lemma load_ok o h n own other bound seen j k v k' :
  hist_ok h n own other bound -> load o h seen j k = Some (v, k') ->
  (seen <= j <= n)%nat /\ v = Z.of_nat j mod N /\
  exists m, own m = j /\ (other m <= bound)%nat /\ k' = match o with acquire => clock_join k m | _ => k end.
Proof.
  intros [Hl Hh]. unfold load. destruct (Nat.leb_spec seen j); [|done]. destruct (h !! j) as [m|] eqn:E; [|done]. intros [= <- <-].
  pose proof (lookup_lt_Some _ _ _ E). destruct (Hh _ _ E) as (-> & Ho & Hb). split; [lia|]. split; [done|]. by exists (m_clock m).
Qed.

Lemma hist_store h n own other bound v k :
  hist_ok h n own other bound -> v = Z.of_nat (S n) mod N -> own k = S n -> (other k <= bound)%nat ->
  hist_ok (store release h v k) (S n) own other bound.
Proof.
  intros [Hl Hh] Hv Ho Hb. split; [unfold store; rewrite length_app; simpl; lia|]. intros i m. unfold store. rewrite lookup_app_Some.
  intros [H|[Hi H]]; [by apply Hh|]. apply list_lookup_singleton_Some in H as [Hz <-]. simpl. replace i with (S n) by lia. done.
Qed.

Lemma hist_bound h n own other bound bound' : hist_ok h n own other bound -> (bound <= bound')%nat -> hist_ok h n own other bound'.
Proof. intros [Hl Hh] Hb. split; [done|]. intros i m H. destruct (Hh i m H) as (? & ? & ?). split_and!; try done. lia. Qed.

Lemma init_inv b : Z.of_nat (length b) = N -> inv (init b).
Proof.
  pose proof HN as [_ H1]. intros Hb. split; simpl; try done; try lia.
  - by rewrite length_map.
  - split; [done|]. intros [|i] m H; [|done]. injection H as <-. by rewrite Z.mod_0_l by lia.
  - split; [done|]. intros [|i] m H; [|done]. injection H as <-. by rewrite Z.mod_0_l by lia.
  - intros p c H. left. apply arr_get_Some in H as [_ H]. rewrite list_lookup_fmap in H. destruct (b !! _); [|done]. by injection H as <-.
Qed.

Lemma cell_set (l : list cell) p c c' : l.[p] = Some c ->
  exists l', arr_set l p c' = Some l' /\ length l' = length l /\ l'.[p] = Some c' /\ forall q, q <> p -> l'.[q] = l.[q].
Proof. intros H. apply arr_set_ok. apply arr_get_Some in H as [? H%lookup_lt_Some]. lia. Qed.

(** The producer's accesses. *)
Lemma push_check_inv s item w j v k :
  inv s -> ppc s = PLoaded item w -> load acquire (rhist s) (at_read (prod s)) j (now (prod s)) = Some (v, k) ->
  inv (mkState (buf s) (whist s) (rhist s) (mkThread (at_write (prod s)) j k) (cons s)
         (if next_index N w =? v then PIdle else PChecked item w (next_index N w)) (cpc s) (pushed s) (popped s)).
Proof.
  intros [Hb Hw Hr Hp Hc Hro Hce Hrd Hpo Hpi Hci] Hpc Hl. destruct (load_ok _ _ _ _ _ _ _ _ _ _ _ Hr Hl) as (Hj & -> & m & Em & Hm & ->).
  unfold producer_inv in Hpi. rewrite Hpc in Hpi. subst w. destruct Hp as (Hp1 & Hp2 & Hp3). unfold written in *. rewrite Hpc in *.
  rewrite next_index_count by done.
  split; unfold written, producer_inv; simpl; try done; try lia.
  - split; [done|]. split; [lia|]. rewrite Hp3. unfold clock_join. simpl. rewrite app_nil_r in *. destruct (_ =? _); rewrite ?app_nil_r; f_equal; lia.
  - intros i x Hi. rewrite app_nil_r in Hce. destruct (_ =? _); rewrite app_nil_r; by apply Hce.
  - destruct (Z.eqb_spec (Z.of_nat (S (length (pushed s))) mod N) (Z.of_nat j mod N)) as [He|He]; [done|]. split_and!; try done.
    destruct (Z.eq_dec (Z.of_nat (length (pushed s)) + 1) (Z.of_nat j + N)) as [Hq|]; [|lia].
    exfalso. apply He. rewrite Nat2Z.inj_succ, <- Z.add_1_r, Hq. replace (Z.of_nat j + N) with (Z.of_nat j + 1 * N) by lia. apply Z.mod_add. pose proof HN as [_ ?]. lia.
Qed.

(** The producer's write is ordered after every read of its cell. *)
Lemma push_write_inv s item w next :
  inv s -> ppc s = PChecked item w next -> exists c b,
  (buf s).[w] = Some c /\ (c_read c <= reads (now (prod s)))%nat /\
  arr_set (buf s) w (mkCell item (S (writes (now (prod s)))) (c_read c)) = Some b /\
  inv (mkState b (whist s) (rhist s)
         (mkThread (at_write (prod s)) (at_read (prod s)) (mkClock (S (writes (now (prod s)))) (reads (now (prod s)))))
         (cons s) (PWrote item next) (cpc s) (pushed s) (popped s)).
Proof.
  intros [Hb Hw Hr Hp Hc Hro Hce Hrd Hpo Hpi Hci] Hpc. unfold producer_inv in Hpi. rewrite Hpc in Hpi. destruct Hpi as (-> & -> & Hlt).
  destruct Hp as (Hp1 & Hp2 & Hp3). rewrite Hp3. simpl. unfold written in *. rewrite Hpc in *. rewrite app_nil_r in *.
  pose proof (cell_range N HN (length (pushed s))) as Hrg. destruct ((buf s).[Z.of_nat (length (pushed s)) mod N]) as [c|] eqn:Ec.
  2: { unfold arr_get in Ec. rewrite (proj2 (in_range_spec _ _)) in Ec by lia. apply lookup_ge_None in Ec. lia. }
  assert (nread s <= length (pushed s))%nat as Hn.
  { unfold nread. unfold consumer_inv in Hci. destruct (cpc s); lia. }
  exists c. destruct (cell_set _ _ _ (mkCell item (S (length (pushed s))) (c_read c)) Ec) as (b & Es & Elen & Eb & Eo). exists b. split; [done|]. split; [|split; [done|]].
  - destruct (Hrd _ _ Ec) as [->|(j & Hj & Ej & ->)]; [lia|]. destruct (Z.le_gt_cases N (Z.of_nat (length (pushed s)) - Z.of_nat j)); [lia|].
    apply (cell_inj N HN) in Ej; lia.
  - split; unfold written, producer_inv; simpl; try done.
    + by rewrite Elen.
    + split; [done|]. split; [done|]. rewrite length_app. simpl. f_equal. lia.
    + intros i x Hi. rewrite lookup_app_Some. intros [Hx|[Hge Hx]].
      * rewrite Eo; [by apply Hce|]. apply lookup_lt_Some in Hx. intros He. apply (cell_inj N HN) in He; lia.
      * apply list_lookup_singleton_Some in Hx as [Hz <-]. replace i with (length (pushed s)) by lia. by exists (c_read c).
    + intros p c' Hp. destruct (Z.eq_dec p (Z.of_nat (length (pushed s)) mod N)) as [->|]; [|rewrite Eo in Hp by done; by apply Hrd].
      rewrite Eb in Hp. injection Hp as <-. by apply (Hrd _ c).
Qed.

Lemma push_store_inv s item next :
  inv s -> ppc s = PWrote item next ->
  inv (mkState (buf s) (store release (whist s) next (now (prod s))) (rhist s) (mkThread (length (whist s)) (at_read (prod s)) (now (prod s)))
         (cons s) PIdle (cpc s) (pushed s ++ [item]) (popped s)).
Proof.
  intros [Hb Hw Hr Hp Hc Hro Hce Hrd Hpo Hpi Hci] Hpc. unfold producer_inv in Hpi. rewrite Hpc in Hpi. destruct Hpi as (-> & Hlt).
  destruct Hp as (Hp1 & Hp2 & Hp3). unfold written in *. rewrite Hpc in *. rewrite length_app in Hp3. simpl in Hp3. rewrite Nat.add_1_r in Hp3.
  split; unfold written, producer_inv; simpl; rewrite ?length_app, ?app_nil_r; simpl; try done; try lia.
  - rewrite Nat.add_1_r. apply hist_store; try done; rewrite Hp3; done.
  - apply (hist_bound _ _ _ _ _ _ Hr). lia.
  - rewrite (proj1 Hw). split; [lia|]. split; [lia|]. rewrite Hp3. f_equal. lia.
  - destruct Hc as (Hc1 & Hc2 & Hc3). split; [done|]. split; [lia|]. done.
  - rewrite take_app_le by (destruct Hc as (_ & ? & _); lia). done.
  - unfold consumer_inv in *. simpl. destruct (cpc s); try done. destruct Hci as (? & ? & Hx). split_and!; try done. by apply lookup_app_l_Some.
Qed.

Lemma push_step_inv s item j : inv s -> push_step item j s = None \/ exists s', push_step item j s = Some (Ret s') /\ inv s'.
Proof.
  intros Hi. unfold push_step. destruct (ppc s) as [|it w|it w next|it next] eqn:Hpc.
  - destruct (load _ _ _ _ _) as [[w k]|] eqn:El; [|by left]. right. eexists. split; [done|]. destruct Hi as [Hb Hw Hr Hp Hc Hro Hce Hrd Hpo Hpi Hci].
    destruct (load_ok _ _ _ _ _ _ _ _ _ _ _ Hw El) as (Hj & -> & m & _ & _ & ->). destruct Hp as (Hp1 & Hp2 & Hp3). assert (j = length (pushed s)) as -> by lia.
    unfold written in *. rewrite Hpc in *. split; unfold written, producer_inv; simpl; done.
  - destruct (load _ _ _ _ _) as [[v k]|] eqn:El; [|by left]. right. eexists. split; [done|]. by apply push_check_inv.
  - right. destruct (push_write_inv s it w next Hi Hpc) as (c & b & -> & Hle & -> & Hi'). destruct (Nat.leb_spec (c_read c) (reads (now (prod s)))); [|lia].
    eexists. split; [done|]. exact Hi'.
  - right. eexists. split; [done|]. by apply push_store_inv.
Qed.

(** The consumer's accesses. *)
Lemma pop_check_inv s r j v k :
  inv s -> cpc s = CLoaded r -> load acquire (whist s) (at_write (cons s)) j (now (cons s)) = Some (v, k) ->
  inv (mkState (buf s) (whist s) (rhist s) (prod s) (mkThread j (at_read (cons s)) k) (ppc s)
         (if r =? v then CIdle else CChecked r) (pushed s) (popped s)).
Proof.
  intros [Hb Hw Hr Hp Hc Hro Hce Hrd Hpo Hpi Hci] Hpc Hl. destruct (load_ok _ _ _ _ _ _ _ _ _ _ _ Hw Hl) as (Hj & -> & m & Em & Hm & ->).
  unfold consumer_inv in Hci. rewrite Hpc in Hci. subst r. destruct Hc as (Hc1 & Hc2 & Hc3). unfold nread in *. rewrite Hpc in *.
  assert (forall b : bool, match (if b then CIdle else CChecked (Z.of_nat (length (popped s)) mod N)) with CGot _ _ => 1 | _ => 0 end = 0)%nat as Hz by by destruct b.
  split; unfold nread, consumer_inv; simpl; rewrite ?Hz; try done; try lia.
  - split; [done|]. split; [lia|]. rewrite Hc3. unfold clock_join. simpl. f_equal; lia.
  - destruct (Z.eqb_spec (Z.of_nat (length (popped s)) mod N) (Z.of_nat j mod N)) as [He|He]; [done|]. split; [done|].
    assert (j <> length (popped s)) by congruence. lia.
Qed.

(** The consumer's read is ordered after the write of the item. *)
Lemma pop_read_inv s r :
  inv s -> cpc s = CChecked r -> exists c b,
  (buf s).[r] = Some c /\ (c_write c <= writes (now (cons s)))%nat /\
  arr_set (buf s) r (mkCell (c_item c) (c_write c) (S (reads (now (cons s))))) = Some b /\
  inv (mkState b (whist s) (rhist s) (prod s)
         (mkThread (at_write (cons s)) (at_read (cons s)) (mkClock (writes (now (cons s))) (S (reads (now (cons s))))))
         (ppc s) (CGot r (c_item c)) (pushed s) (popped s)).
Proof.
  intros [Hb Hw Hr Hp Hc Hro Hce Hrd Hpo Hpi Hci] Hpc. unfold consumer_inv in Hci. rewrite Hpc in Hci. destruct Hci as (-> & Hlt).
  destruct Hc as (Hc1 & Hc2 & Hc3). rewrite Hc3. simpl. unfold nread in *. rewrite Hpc in *. rewrite Nat.add_0_r in *.
  destruct (lookup_lt_is_Some_2 (pushed s) (length (popped s)) ltac:(lia)) as [x Hx].
  destruct (Hce (length (popped s)) x ltac:(lia)) as (rd & Ec); [unfold written; by apply lookup_app_l_Some|].
  destruct (cell_set _ _ _ (mkCell x (S (length (popped s))) (S (length (popped s)))) Ec) as (b & Es & Elen & Eb & Eo).
  exists (mkCell x (S (length (popped s))) rd), b. simpl. split; [done|]. split; [lia|]. split; [done|].
  split; unfold nread, consumer_inv; simpl; try done.
  - by rewrite Elen.
  - split; [done|]. split; [done|]. f_equal. lia.
  - intros i y Hi Hy. destruct (Z.eq_dec (Z.of_nat i mod N) (Z.of_nat (length (popped s)) mod N)) as [He|]; [|rewrite Eo by done; by apply Hce].
    assert (Z.of_nat i < Z.of_nat (length (popped s)) + N) as Hi'.
    { assert (length (written s) <= S (length (pushed s)))%nat by (unfold written; destruct (ppc s); rewrite length_app; simpl; lia).
      apply lookup_lt_Some in Hy. unfold written, producer_inv in *. destruct (ppc s); rewrite ?app_nil_r, ?length_app in Hy; simpl in Hy; lia. }
    symmetry in He. apply (cell_inj N HN) in He; [|lia|lia]. subst i. exists (S (length (popped s))). rewrite Eb. unfold written in Hy.
    rewrite (lookup_app_l_Some _ _ _ _ Hx) in Hy. by injection Hy as ->.
  - intros p c Hc. destruct (Z.eq_dec p (Z.of_nat (length (popped s)) mod N)) as [->|].
    + rewrite Eb in Hc. injection Hc as <-. right. exists (length (popped s)). split; [lia|]. done.
    + rewrite Eo in Hc by done. destruct (Hrd p c Hc) as [->|(j & ? & ? & ?)]; [by left|]. right. exists j. split; [lia|]. done.
Qed.

Lemma pop_store_inv s r out :
  inv s -> cpc s = CGot r out ->
  inv (mkState (buf s) (whist s) (store release (rhist s) (next_index N r) (now (cons s))) (prod s)
         (mkThread (at_write (cons s)) (length (rhist s)) (now (cons s))) (ppc s) CIdle (pushed s) (popped s ++ [out])).
Proof.
  intros [Hb Hw Hr Hp Hc Hro Hce Hrd Hpo Hpi Hci] Hpc. unfold consumer_inv in Hci. rewrite Hpc in Hci. destruct Hci as (-> & Hlt & Hx).
  destruct Hc as (Hc1 & Hc2 & Hc3). unfold nread in *. rewrite Hpc in *.
  split; unfold nread, consumer_inv; simpl; rewrite ?length_app; simpl; try done; try lia.
  - apply (hist_bound _ _ _ _ _ _ Hw). lia.
  - rewrite Nat.add_1_r. apply hist_store; [done|by apply next_index_count| |]; rewrite Hc3; simpl; lia.
  - destruct Hp as (? & ? & ?). split; [done|]. split; [lia|]. done.
  - rewrite (proj1 Hr). split; [lia|]. split; [lia|]. rewrite Hc3. f_equal. lia.
  - intros i x Hi. apply Hce. lia.
  - intros p c H. destruct (Hrd p c H) as [|(j & ? & ? & ?)]; [by left|]. right. exists j. split; [lia|]. done.
  - rewrite Nat.add_1_r, (take_S_r _ _ out) by done. by f_equal.
Qed.

Lemma pop_step_inv s j : inv s -> pop_step j s = None \/ exists s', pop_step j s = Some (Ret s') /\ inv s'.
Proof.
  intros Hi. unfold pop_step. destruct (cpc s) as [|r|r|r out] eqn:Hpc.
  - destruct (load _ _ _ _ _) as [[w k]|] eqn:El; [|by left]. right. eexists. split; [done|]. destruct Hi as [Hb Hw Hr Hp Hc Hro Hce Hrd Hpo Hpi Hci].
    destruct (load_ok _ _ _ _ _ _ _ _ _ _ _ Hr El) as (Hj & -> & m & _ & _ & ->). destruct Hc as (Hc1 & Hc2 & Hc3). assert (j = length (popped s)) as -> by lia.
    unfold nread in *. rewrite Hpc in *. split; unfold nread, consumer_inv; simpl; done.
  - destruct (load _ _ _ _ _) as [[v k]|] eqn:El; [|by left]. right. eexists. split; [done|]. by apply pop_check_inv.
  - right. destruct (pop_read_inv s r Hi Hpc) as (c & b & -> & Hle & -> & Hi'). destruct (Nat.leb_spec (c_write c) (writes (now (cons s)))); [|lia].
    eexists. split; [done|]. exact Hi'.
  - right. eexists. split; [done|]. by apply pop_store_inv.
Qed.

Lemma step_inv c s : inv s -> exists s', step c s = Ret s' /\ inv s'.
Proof.
  intros Hi. unfold step. destruct c as [item j|j]; [destruct (push_step_inv s item j Hi) as [->|(s' & -> & ?)]|destruct (pop_step_inv s j Hi) as [->|(s' & -> & ?)]];
    simpl; eauto.
Qed.

Lemma run_inv cs s : inv s -> exists s', run cs s = Ret s' /\ inv s'.
Proof.
  revert s. induction cs as [|c cs IH]; intros s Hi; [by exists s|]. destruct (step_inv c s Hi) as (s' & E & Hi'). simpl. rewrite E. by apply IH.
Qed.

End Threads.
End Threads.

(** ** Properties *)

Section Properties.
Context {T : Type} (N : Z) (HN : capacity_ok N) (H64 : N <= 2 ^ 64).

(** With no interference the ring is a FIFO of capacity [N - 1]: a fresh queue is
    empty; [push] returns [true] and appends exactly when fewer than [N - 1] items are
    stored, and otherwise returns [false] and changes nothing; [pop] returns and
    removes the oldest item, or reports empty; [empty] tells whether the FIFO is. *)
Theorem spsc_refines_fifo :
  (forall d : T, ring_repr N (SPSCQueue_ctor N d) []) /\
  (forall (q : SPSCQueue T) l x, ring_repr N q l ->
     exists q', push N x q = Ret (bool_decide (length l < Z.to_nat (N - 1))%nat, q') /\
       ring_repr N q' (if bool_decide (length l < Z.to_nat (N - 1))%nat then l ++ [x] else l)) /\
  (forall (q : SPSCQueue T) l, ring_repr N q l ->
     exists q', pop N q = Ret (head l, q') /\ ring_repr N q' (tail l)) /\
  (forall (q : SPSCQueue T) l, ring_repr N q l -> empty q = bool_decide (l = [])).
Proof.
  split_and!; intros.
  - by apply ring_repr_new.
  - by apply push_refines.
  - by apply pop_refines.
  - by eapply empty_refines.
Qed.

(** C32. In every interleaving of the two threads' accesses, with acquire loads that return
    arbitrarily stale indices and plain cells whose contents is only known through what the
    acquire loads and release stores order, the run has no data race and no access outside
    [buf_]; the items popped are a prefix of the items pushed, in the same order, and at most
    [N - 1] items are in the ring. *)
Theorem spsc_concurrent_fifo (b : list T) cs :
  Z.of_nat (length b) = N ->
  exists s rest, Threads.run N cs (Threads.init b) = Ret s /\
    Threads.pushed s = Threads.popped s ++ rest /\ Z.of_nat (length rest) <= N - 1.
Proof.
  intros Hb. destruct (Threads.run_inv N HN H64 cs (Threads.init b)) as (s & E & Hi); [by apply Threads.init_inv|].
  exists s, (drop (length (Threads.popped s)) (Threads.pushed s)). split; [done|]. destruct Hi as [_ _ _ Hp Hc Hro _ _ Hpo _ _]. split.
  - rewrite Hpo at 1. by rewrite take_drop.
  - rewrite length_drop. lia.
Qed.

(** A failing operation tells the truth about what the thread has observed: [push] returns [false]
    only when the [read_] it loads leaves exactly [N - 1] items outstanding, and [pop] returns
    [false] only when every item published up to the [write_] it loads has been popped. *)
Theorem spsc_failure_exact (b : list T) cs s :
  Z.of_nat (length b) = N -> Threads.run N cs (Threads.init b) = Ret s ->
  (forall item w j v k, Threads.ppc s = Threads.PLoaded item w ->
     Threads.load Threads.acquire (Threads.rhist s) (Threads.at_read (Threads.prod s)) j (Threads.now (Threads.prod s)) = Some (v, k) ->
     next_index N w = v <-> Z.of_nat (length (Threads.pushed s)) = Z.of_nat j + (N - 1)) /\
  (forall r j v k, Threads.cpc s = Threads.CLoaded r ->
     Threads.load Threads.acquire (Threads.whist s) (Threads.at_write (Threads.cons s)) j (Threads.now (Threads.cons s)) = Some (v, k) ->
     r = v <-> j = length (Threads.popped s)).
Proof.
  intros Hb E. destruct (Threads.run_inv N HN H64 cs (Threads.init b)) as (s' & E' & Hi); [by apply Threads.init_inv|]. rewrite E in E'. injection E' as <-.
  destruct Hi as [Hbl Hw Hrh Hp Hc Hro _ _ _ Hpi Hci]. pose proof HN as [_ H1]. split.
  - intros item w j v k Hpc Hl. unfold Threads.producer_inv in Hpi. rewrite Hpc in Hpi. subst w.
    destruct (Threads.load_ok N _ _ _ _ _ _ _ _ _ _ _ Hrh Hl) as (Hj & -> & _). rewrite next_index_count by done. split.
    + intros He. destruct (Z.eq_dec (Z.of_nat (length (Threads.pushed s))) (Z.of_nat j + (N - 1))); [done|]. symmetry in He. apply (cell_inj N HN) in He; lia.
    + intros He. replace (Z.of_nat (S (length (Threads.pushed s)))) with (Z.of_nat j + 1 * N) by lia. by rewrite Z.mod_add by lia.
  - intros r j v k Hcp Hl. unfold Threads.consumer_inv in Hci. rewrite Hcp in Hci. subst r.
    destruct (Threads.load_ok N _ _ _ _ _ _ _ _ _ _ _ Hw Hl) as (Hj & -> & _). split; [|by intros ->]. intros He. apply (cell_inj N HN) in He; lia.
Qed.

End Properties.

(** ** Witnesses: the four-cell ring of tests/spsc_queue_test.cc *)

Lemma capacity4 : capacity_ok 4.
Proof. by vm_compute. Qed.

(** Three pushes fit, the fourth is refused, and the items come out in order. *)
Example ring4_run :
  (q1 ← push 4 1%nat (SPSCQueue_ctor 4 0%nat); q2 ← push 4 2%nat q1.2; q3 ← push 4 3%nat q2.2;
   q4 ← push 4 4%nat q3.2; o1 ← pop 4 q4.2; o2 ← pop 4 o1.2; o3 ← pop 4 o2.2; o4 ← pop 4 o3.2;
   Ret (q3.1, q4.1, [o1.1; o2.1; o3.1; o4.1]))
  = Ret (true, false, [Some 1; Some 2; Some 3; None]%nat).
Proof. reflexivity. Qed.

Lemma spsc_refines_fifo_witness : ring_repr 4 (SPSCQueue_ctor 4 0%nat) [].
Proof. exact (proj1 (spsc_refines_fifo 4 capacity4 ltac:(lia)) 0%nat). Defined.

(** Three pushes fill the ring; the consumer takes the first item while the producer still sees the
    ring full; then the producer sees the free cell and the ring wraps around. *)
Definition full_push (item own seen : nat) : list (Threads.choice (T := nat)) :=
  [Threads.Push item own; Threads.Push item seen; Threads.Push item 0; Threads.Push item 0].
Definition ring_choices : list (Threads.choice (T := nat)) :=
  (full_push 1 0 0 ++ full_push 2 1 0 ++ [Threads.Pop 0; Threads.Pop 1] ++ full_push 3 2 0 ++
   [Threads.Pop 0; Threads.Push 4 3; Threads.Push 4 0; Threads.Pop 0] ++
   full_push 4 3 1 ++ [Threads.Pop 1; Threads.Pop 4; Threads.Pop 0; Threads.Pop 0])%nat.
Lemma spsc_concurrent_fifo_witness :
  (exists s, Threads.run 4 ring_choices (Threads.init (replicate 4 0%nat)) = Ret s /\
     Threads.pushed s = [1; 2; 3; 4]%nat /\ Threads.popped s = [1; 2]%nat) /\
  exists s rest, Threads.run 4 ring_choices (Threads.init (replicate 4 0%nat)) = Ret s /\
    Threads.pushed s = Threads.popped s ++ rest /\ Z.of_nat (length rest) <= 4 - 1.
Proof.
  split; [vm_compute; eexists; done|]. exact (spsc_concurrent_fifo 4 capacity4 ltac:(lia) (replicate 4 0%nat) ring_choices eq_refl).
Defined.

Lemma spsc_failure_exact_witness : next_index 4 3 = 0 <-> Z.of_nat 3 = Z.of_nat 0 + (4 - 1).
Proof.
  destruct (Threads.run 4 (full_push 1 0 0 ++ full_push 2 1 0 ++ full_push 3 2 0 ++ [Threads.Push 4 3])%nat (Threads.init (replicate 4 0%nat))) as [s| |] eqn:E;
    vm_compute in E; try discriminate.
  destruct (spsc_failure_exact 4 capacity4 ltac:(lia) (replicate 4 0%nat) (full_push 1 0 0 ++ full_push 2 1 0 ++ full_push 3 2 0 ++ [Threads.Push 4 3])%nat s eq_refl) as [H _];
    [vm_compute; exact E|]. injection E as <-. exact (H 4%nat 3 0%nat 0 _ eq_refl eq_refl).
Defined.
