(* ===== verification/WorkQueue.v ===== *)
(** The blocking submission queue of include/work_queue.h.

    A [WorkQueue] is the ring of [SpscQueue] plus a counting semaphore ([uv_sem_t]) and
    a [stopped_] flag. It is modelled over the [FifoQueue] interface, which the ring
    implements. Part 1 gives the operations as functions on the object; [dequeue]
    returns [Blocked] when [uv_sem_wait] would sleep. Part 2 interleaves the producer
    (enqueue and stop, on the main thread) with the consumer (dequeue, on the worker
    thread) at the points where they touch shared state. *)

From S2P Require Import Prelude SpscQueue.

(** The result of a call that may sleep on the semaphore. *)
Inductive blocking (A : Type) := Blocked | Done (a : A).
Arguments Blocked {A}.
Arguments Done {A} a.

Section WorkQueue.
Context {Q T : Type} `{!FifoQueue Q T}.

Record WorkQueue := mkWork { queue_ : Q; sem_ : nat; stopped_ : bool }.

(** [WorkQueue()]: [uv_sem_init(&sem_, 0)], [stopped_{false}]. *)
Definition WorkQueue_ctor (q : Q) : WorkQueue := mkWork q 0 false.

Definition sem_post (w : WorkQueue) : WorkQueue :=
  mkWork (queue_ w) (S (sem_ w)) (stopped_ w).

Definition enqueue (item : T) (w : WorkQueue) : outcome (bool * WorkQueue) :=
  '(ok, q') ← fq_push item (queue_ w);
  if ok : bool then Ret (true, sem_post (mkWork q' (sem_ w) (stopped_ w)))
  else Ret (false, mkWork q' (sem_ w) (stopped_ w)).

(** [dequeue(T &out)]: [Some x] is [true] with [out = x], [None] is [false]. *)
Definition dequeue (w : WorkQueue) : outcome (blocking (option T * WorkQueue)) :=
  match sem_ w with
  | O => Ret Blocked
  | S n =>
      if stopped_ w then Ret (Done (None, mkWork (queue_ w) n (stopped_ w)))
      else '(r, q') ← fq_pop (queue_ w); Ret (Done (r, mkWork q' n (stopped_ w)))
  end.

Definition stop (w : WorkQueue) : WorkQueue :=
  sem_post (mkWork (queue_ w) (sem_ w) true).

(** The loop of [drain]: the items passed to [fn], in order. [fuel] bounds the number
    of iterations; [fq_cap + 1] of them are always enough (see [drain_all]). *)
Fixpoint drain_loop (fuel : nat) (q : Q) : outcome (list T * Q) :=
  match fuel with
  | O => UB
  | S fuel' =>
      '(r, q') ← fq_pop q;
      match r with
      | None => Ret ([], q')
      | Some item => '(rest, q'') ← drain_loop fuel' q'; Ret (item :: rest, q'')
      end
  end.

Definition drain (w : WorkQueue) : outcome (list T * WorkQueue) :=
  '(items, q') ← drain_loop (S fq_cap) (queue_ w);
  Ret (items, mkWork q' (sem_ w) (stopped_ w)).

Definition work_empty (w : WorkQueue) : bool := fq_empty (queue_ w).

Lemma drain_loop_all fuel q l :
  fq_repr q l -> (length l < fuel)%nat ->
  exists q', drain_loop fuel q = Ret (l, q') /\ fq_repr q' [].
Proof.
  revert q l. induction fuel as [|fuel IH]; intros q l Hr Hl; [lia|]. simpl.
  destruct (fq_pop_ok q l Hr) as (q1 & Hp & Hr1). rewrite Hp. simpl.
  destruct l as [|x l]; simpl in *.
  - eauto.
  - destruct (IH q1 l Hr1 ltac:(lia)) as (q2 & -> & Hr2). simpl. eauto.
Qed.

(** ** The two threads *)

Inductive main_pc := MIdle | MPushed | MStopping | MStopped.
Inductive work_pc := CIdle | CWoken | CPopping | CExited.

Record wstate := mkW {
  wq : WorkQueue;
  mpc : main_pc;
  cpc : work_pc;
  accepted : list T;      (* items whose enqueue was accepted *)
  consumed : list T       (* items dequeue returned *)
}.

(** [enqueue] is a push followed by a post, [stop] a store of the flag followed by a
    post; [dequeue] waits, reads the flag and then pops. *)
Inductive wstep : wstate -> wstate -> Prop :=
| w_full w c a d item q' :
    fq_push item (queue_ w) = Ret (false, q') ->
    wstep (mkW w MIdle c a d) (mkW (mkWork q' (sem_ w) (stopped_ w)) MIdle c a d)
| w_push w c a d item q' :
    fq_push item (queue_ w) = Ret (true, q') ->
    wstep (mkW w MIdle c a d)
          (mkW (mkWork q' (sem_ w) (stopped_ w)) MPushed c (a ++ [item]) d)
| w_post w c a d :
    wstep (mkW w MPushed c a d) (mkW (sem_post w) MIdle c a d)
| w_stop_flag w c a d :
    wstep (mkW w MIdle c a d) (mkW (mkWork (queue_ w) (sem_ w) true) MStopping c a d)
| w_stop_post w c a d :
    wstep (mkW w MStopping c a d) (mkW (sem_post w) MStopped c a d)
| w_wait w m a d n :
    sem_ w = S n ->
    wstep (mkW w m CIdle a d) (mkW (mkWork (queue_ w) n (stopped_ w)) m CWoken a d)
| w_saw_stop w m a d :
    stopped_ w = true -> wstep (mkW w m CWoken a d) (mkW w m CExited a d)
| w_no_stop w m a d :
    stopped_ w = false -> wstep (mkW w m CWoken a d) (mkW w m CPopping a d)
| w_pop w m a d x q' :
    fq_pop (queue_ w) = Ret (Some x, q') ->
    wstep (mkW w m CPopping a d)
          (mkW (mkWork q' (sem_ w) (stopped_ w)) m CIdle a (d ++ [x]))
| w_pop_none w m a d q' :
    fq_pop (queue_ w) = Ret (None, q') ->
    wstep (mkW w m CPopping a d)
          (mkW (mkWork q' (sem_ w) (stopped_ w)) m CExited a d).

Inductive wreachable (q0 : Q) : wstate -> Prop :=
| wr_init : wreachable q0 (mkW (WorkQueue_ctor q0) MIdle CIdle [] [])
| wr_step s s' : wreachable q0 s -> wstep s s' -> wreachable q0 s'.

(** Semaphore tokens owned by a thread in the middle of a call. *)
Definition main_pending (m : main_pc) : nat := match m with MPushed => 1 | _ => 0 end.
Definition main_stop_token (m : main_pc) : nat := match m with MStopped => 1 | _ => 0 end.
Definition work_token (c : work_pc) : nat :=
  match c with CWoken | CPopping | CExited => 1 | CIdle => 0 end.

(** Every stored item and the stop signal carry one token each. *)
Record winv (s : wstate) (l : list T) : Prop := {
  winv_repr : fq_repr (queue_ (wq s)) l;
  winv_items : accepted s = consumed s ++ l;
  winv_tokens : (sem_ (wq s) + work_token (cpc s) + main_pending (mpc s)
                 = length l + main_stop_token (mpc s))%nat;
  winv_flag : stopped_ (wq s) = true <-> mpc s = MStopping \/ mpc s = MStopped;
  winv_popping : cpc s = CPopping -> l <> [];
  winv_exited : cpc s = CExited -> stopped_ (wq s) = true
}.

Lemma winv_init q0 : fq_repr q0 [] -> winv (mkW (WorkQueue_ctor q0) MIdle CIdle [] []) [].
Proof. intros. split; simpl; try done. split; [done|]. naive_solver. Qed.

Lemma wstep_inv s s' l : winv s l -> wstep s s' -> exists l', winv s' l'.
Proof.
  intros [Hr Hi Ht Hf Hp He] Hs. destruct Hs as
    [w c a d x q' Hpush|w c a d x q' Hpush|w c a d|w c a d|w c a d|w m a d n Hn|w m a d Hst
    |w m a d Hst|w m a d x q' Hpop|w m a d q' Hpop]; simpl in *.
  - destruct (fq_push_ok _ _ x Hr) as (q1 & Hq & Hr1). rewrite Hpush in Hq.
    injection Hq as Hb <-. rewrite <- Hb in Hr1. exists l. by split.
  - destruct (fq_push_ok _ _ x Hr) as (q1 & Hq & Hr1). rewrite Hpush in Hq.
    injection Hq as Hb <-. rewrite <- Hb in Hr1. exists (l ++ [x]).
    split; simpl; rewrite ?length_app; simpl; try done.
    + by rewrite Hi, app_assoc.
    + lia.
    + rewrite Hf. naive_solver.
    + intros _. by destruct l.
  - exists l. split; simpl; try done; [lia|]. rewrite Hf. naive_solver.
  - exists l. split; simpl; try done. naive_solver.
  - exists l. split; simpl; try done; [lia|]. naive_solver.
  - exists l. split; simpl; try done. lia.
  - exists l. by split.
  - exists l. split; simpl; try done. intros _ ->. simpl in Ht.
    destruct m; simpl in *; try lia. rewrite (proj2 Hf) in Hst by naive_solver. done.
  - destruct (fq_pop_ok _ _ Hr) as (q1 & Hq & Hr1). rewrite Hpop in Hq.
    injection Hq as Hx <-. destruct l as [|y l]; [done|]. simpl in *. injection Hx as ->.
    exists l. split; simpl; try done; [by rewrite Hi, <- app_assoc|lia].
  - destruct (fq_pop_ok _ _ Hr) as (q1 & Hq & Hr1). rewrite Hpop in Hq.
    injection Hq as Hx <-. destruct l; [|done]. by destruct Hp.
Qed.

Lemma wreachable_inv q0 s : fq_repr q0 [] -> wreachable q0 s -> exists l, winv s l.
Proof.
  intros H0. induction 1 as [|s s' _ [l Hl] Hs]; [eauto using winv_init|].
  eauto using wstep_inv.
Qed.

End WorkQueue.
Arguments WorkQueue : clear implicits.
Arguments wstate : clear implicits.

(** ** Properties *)

Section Properties.
Context {Q T : Type} `{!FifoQueue Q T}.
Implicit Types (w : WorkQueue Q).

(** No submitted item is lost or duplicated: in every interleaving the accepted
    items are the consumed ones followed by the stored ones, and [drain] passes exactly
    the stored ones to its callback, in order, and leaves the queue empty. *)
Theorem work_queue_lossless q0 s :
  fq_repr q0 [] -> wreachable q0 s ->
  exists rest w', drain (wq s) = Ret (rest, w') /\
    accepted s = consumed s ++ rest /\ work_empty w' = true.
Proof.
  intros H0 Hr. destruct (wreachable_inv q0 s H0 Hr) as [l Hi].
  destruct (drain_loop_all (S fq_cap) (queue_ (wq s)) l) as (q' & Hd & Hq).
  - apply Hi.
  - pose proof (fq_repr_cap _ _ (winv_repr _ _ Hi)). lia.
  - exists l, (mkWork q' (sem_ (wq s)) (stopped_ (wq s))). unfold drain. rewrite Hd. simpl.
    split_and!; [done|apply Hi|]. unfold work_empty. simpl. by rewrite (fq_empty_ok _ _ Hq).
Qed.

(** The semaphore never misleads the consumer. A consumer woken without [stop]
    always finds an item ([dequeue] returns [false] only once [stop] was called), and
    whenever an item is fully submitted or [stop] has returned, a consumer about to
    wait does not block. *)
Theorem work_queue_no_lost_wakeup q0 s :
  fq_repr q0 [] -> wreachable q0 s ->
  (cpc s = CExited -> stopped_ (wq s) = true) /\
  (cpc s = CPopping -> exists x q', fq_pop (queue_ (wq s)) = Ret (Some x, q')) /\
  (cpc s = CIdle -> mpc s = MIdle -> work_empty (wq s) = false -> (0 < sem_ (wq s))%nat) /\
  (cpc s = CIdle -> mpc s = MStopped -> (0 < sem_ (wq s))%nat).
Proof.
  intros H0 Hr. destruct (wreachable_inv q0 s H0 Hr) as [l [Hq Hi Ht Hf Hp He]].
  split_and!.
  - done.
  - intros Hc. destruct (fq_pop_ok _ _ Hq) as (q' & Hpop & _). specialize (Hp Hc).
    destruct l as [|x l]; [done|]. eauto.
  - intros Hc Hm Hw. unfold work_empty in Hw. rewrite (fq_empty_ok _ _ Hq) in Hw.
    rewrite Hc, Hm in Ht. simpl in Ht. destruct l; [done|]. simpl in Ht. lia.
  - intros Hc Hm. rewrite Hc, Hm in Ht. simpl in Ht. lia.
Qed.

(** [stop] takes effect at once: the [dequeue] that follows it returns [false]
    whatever the queue still holds, and the items stay for [drain]. (The comment on
    [dequeue] says that it returns false "when stopped and no items remain".) *)
Theorem work_queue_stop_abandons w l :
  fq_repr (queue_ w) l ->
  exists w', dequeue (stop w) = Ret (Done (None, w')) /\ queue_ w' = queue_ w /\
    exists w'', drain w' = Ret (l, w'').
Proof.
  intros Hl. eexists. split; [reflexivity|]. split; [done|]. unfold drain. simpl queue_.
  destruct (drain_loop_all (S fq_cap) (queue_ w) l Hl) as (q' & -> & _); [|simpl; eauto].
  pose proof (fq_repr_cap _ _ Hl). lia.
Qed.

(** A single thread sees a FIFO: enqueueing on a queue that is not full and then
    dequeueing as often as items were enqueued returns them in order, without
    blocking. *)
Theorem work_queue_roundtrip w l :
  fq_repr (queue_ w) l -> stopped_ w = false -> sem_ w = length l ->
  (forall x, (length l < fq_cap)%nat ->
     exists w', enqueue x w = Ret (true, w') /\ fq_repr (queue_ w') (l ++ [x]) /\
       sem_ w' = length (l ++ [x]) /\ stopped_ w' = false) /\
  (forall x, length l = fq_cap -> exists w', enqueue x w = Ret (false, w') /\
       fq_repr (queue_ w') l /\ sem_ w' = sem_ w) /\
  (l = [] -> dequeue w = Ret Blocked) /\
  (forall x l', l = x :: l' -> exists w', dequeue w = Ret (Done (Some x, w')) /\
       fq_repr (queue_ w') l' /\ sem_ w' = length l' /\ stopped_ w' = false).
Proof.
  intros Hq Hst Hsem. split_and!.
  - intros x Hlt. destruct (fq_push_ok _ _ x Hq) as (q' & Hp & Hq'). unfold enqueue.
    rewrite bool_decide_eq_true_2 in * by done. rewrite Hp. simpl. eexists.
    split; [done|]. simpl. rewrite length_app. simpl. split_and!; try done. lia.
  - intros x Hlt. destruct (fq_push_ok _ _ x Hq) as (q' & Hp & Hq'). unfold enqueue.
    rewrite bool_decide_eq_false_2 in * by lia. rewrite Hp. simpl. eauto.
  - intros ->. unfold dequeue. by rewrite Hsem.
  - intros x l' ->. destruct (fq_pop_ok _ _ Hq) as (q' & Hp & Hq'). unfold dequeue.
    rewrite Hsem. simpl. rewrite Hst, Hp. simpl. eauto 10.
Qed.

End Properties.

(** ** Witnesses: a work queue over the four-cell ring *)

#[local] Instance fifo4 : FifoQueue (SPSCQueue nat) nat := ring_fifo 4 capacity4 ltac:(lia).

Definition work4 : WorkQueue (SPSCQueue nat) := WorkQueue_ctor (SPSCQueue_ctor 4 0%nat).

Lemma work4_repr : fq_repr (queue_ work4) [].
Proof. by apply ring_repr_new, capacity4. Qed.

Lemma work_queue_lossless_witness :
  exists rest w', drain work4 = Ret (rest, w') /\ [] = [] ++ rest /\ work_empty w' = true.
Proof.
  exact (work_queue_lossless (SPSCQueue_ctor 4 0%nat) (mkW work4 MIdle CIdle [] []) work4_repr
           (wr_init _)).
Defined.

Lemma work4_stopped : wreachable (SPSCQueue_ctor 4 0%nat) (mkW (stop work4) MStopped CIdle [] []).
Proof.
  eapply wr_step; [eapply wr_step; [apply wr_init|apply w_stop_flag]|].
  exact (w_stop_post (mkWork (SPSCQueue_ctor 4 0%nat) 0 true) CIdle [] []).
Qed.

Lemma work_queue_no_lost_wakeup_witness : (0 < sem_ (stop work4))%nat.
Proof.
  exact (proj2 (proj2 (proj2 (work_queue_no_lost_wakeup (SPSCQueue_ctor 4 0%nat) _ work4_repr
           work4_stopped))) eq_refl eq_refl).
Defined.

Lemma work_queue_stop_abandons_witness :
  exists w', dequeue (stop work4) = Ret (Done (None, w')) /\ queue_ w' = queue_ work4 /\
    exists w'', drain w' = Ret ([], w'').
Proof. exact (work_queue_stop_abandons work4 [] work4_repr). Defined.

Lemma work_queue_roundtrip_witness : dequeue work4 = Ret Blocked.
Proof.
  exact (proj1 (proj2 (proj2 (work_queue_roundtrip work4 [] work4_repr eq_refl eq_refl))) eq_refl).
Defined.
