(* ===== verification/Worker.v ===== *)
(** A background worker: the thread, the two queues and the doorbell that
    src/workers/fib_worker.cc, js_worker.cc and inference_worker.cc have in common.

    The main thread submits jobs and runs [on_result_ready] when the doorbell rings; the
    worker thread takes jobs, computes their results and pushes them one by one. A step is
    one queue operation of one thread; [SpscQueue] and [WorkQueue] justify treating these
    as atomic. What a job computes is the parameter [serve], which threads the private
    state of the worker thread; a job carries a reference to its JavaScript callback. *)

From S2P Require Import Prelude SpscQueue WorkQueue.

(** The main thread: in the loop, in [on_result_ready], calling the sink with a popped
    result, in the [uv_thread_join] of [stop] (called from the loop or from the callback of
    a result), back in that callback after [stop], or done with a stopped worker. *)
Inductive main_at (Result : Type) :=
| MLoop | MDrain | MGot (r : Result) | MJoin (from : option Result) | MBack (r : Result) | MClosed.
Arguments MLoop {Result}.
Arguments MDrain {Result}.
Arguments MGot {Result} r.
Arguments MJoin {Result} from.
Arguments MBack {Result} r.
Arguments MClosed {Result}.

(** The worker thread: in [dequeue], with results left to push, between a push and
    [uv_async_send], or finished. *)
Inductive thread_at (W Result : Type) :=
| TWait (w : W) | TSend (w : W) (rest : list Result) | TRing (w : W) (rest : list Result) | TExited (w : W).
Arguments TWait {W Result} w.
Arguments TSend {W Result} w rest.
Arguments TRing {W Result} w rest.
Arguments TExited {W Result} w.

Section Worker.
Context {SQ RQ W Item Result : Type} `{FS : !FifoQueue SQ Item} `{FR : !FifoQueue RQ Result}.
Context (serve : W -> Item -> W * list Result).
Context (i_cb : Item -> nat) (r_cb : Result -> nat) (r_done : Result -> bool).
(** The callbacks [stop] frees for the results it finds in the queue. *)
Context (free_results : list Result -> list nat).

(** The fields of the worker object, the pending signal of the doorbell and the two
    threads; [accepted], [delivered] and [freed] record what has happened. *)
Record Worker := mkWorker {
  sub_queue_ : WorkQueue SQ; result_queue_ : RQ; in_flight_ : Z; ref_ : bool; bell : bool;
  main : main_at Result; thread : thread_at W Result;
  accepted_jobs : list Item; delivered : list Result; freed : list nat }.

(** The constructor: the doorbell is unreferenced and the thread is started. The thread
    that finds nothing to run ends before its loop ([TExited]). *)
Definition Worker_ctor (sq : SQ) (rq : RQ) (t0 : thread_at W Result) : Worker :=
  mkWorker (WorkQueue_ctor sq) rq 0 false false MLoop t0 [] [] [].

(** [enqueue(job, callback)], on the main thread. *)
Definition worker_enqueue (item : Item) (s : Worker) : outcome (bool * Worker) :=
  '(ok, sq) ← enqueue item (sub_queue_ s);
  if ok : bool then
    Ret (true, mkWorker sq (result_queue_ s) (s32 (in_flight_ s + 1))
                 (if in_flight_ s =? 0 then true else ref_ s) (bell s) (main s) (thread s)
                 (accepted_jobs s ++ [item]) (delivered s) (freed s))
  else
    Ret (false, mkWorker sq (result_queue_ s) (in_flight_ s) (ref_ s) (bell s) (main s) (thread s)
                  (accepted_jobs s) (delivered s) (freed s)).

(** The body of the loop of [on_result_ready] after a successful pop: the sink calls the
    callback and frees it with the last result of its job. *)
Definition deliver (r : Result) (m : main_at Result) (s : Worker) : Worker :=
  let n := if r_done r then s32 (in_flight_ s - 1) else in_flight_ s in
  mkWorker (sub_queue_ s) (result_queue_ s) n
    (if r_done r && (n =? 0) then false else ref_ s) (bell s) m (thread s)
    (accepted_jobs s) (delivered s ++ [r]) (freed s ++ if r_done r then [r_cb r] else []).

(** [stop()] after the join: both queues are drained and the doorbell is closed. *)
Definition stop_drain (from : option Result) (s : Worker) : outcome Worker :=
  '(items, sq) ← drain (sub_queue_ s);
  '(rs, rq) ← drain_loop (S (@fq_cap RQ Result FR)) (result_queue_ s);
  Ret (mkWorker sq rq (in_flight_ s) (ref_ s) (bell s)
         (match from with Some r => MBack r | None => MClosed end) (thread s) (accepted_jobs s) (delivered s)
         (freed s ++ (i_cb <$> items) ++ free_results rs)).

Definition with_sub (s : Worker) sq : Worker :=
  mkWorker sq (result_queue_ s) (in_flight_ s) (ref_ s) (bell s) (main s) (thread s)
    (accepted_jobs s) (delivered s) (freed s).
Definition with_main (s : Worker) b m : Worker :=
  mkWorker (sub_queue_ s) (result_queue_ s) (in_flight_ s) (ref_ s) b m (thread s)
    (accepted_jobs s) (delivered s) (freed s).
Definition with_thread (s : Worker) b t : Worker :=
  mkWorker (sub_queue_ s) (result_queue_ s) (in_flight_ s) (ref_ s) b (main s) t
    (accepted_jobs s) (delivered s) (freed s).
Definition with_results (s : Worker) rq : Worker :=
  mkWorker (sub_queue_ s) rq (in_flight_ s) (ref_ s) (bell s) (main s) (thread s)
    (accepted_jobs s) (delivered s) (freed s).

(** A script runs between events and inside the callback of a result. *)
Definition script_runs (m : main_at Result) : bool :=
  match m with MLoop | MGot _ => true | _ => false end.

Definition calling (m : main_at Result) : option Result :=
  match m with MGot r | MJoin (Some r) | MBack r => Some r | _ => None end.

Inductive kstep : Worker -> Worker -> Prop :=
| k_enqueue s item ok s' :
    script_runs (main s) = true -> worker_enqueue item s = Ret (ok, s') -> kstep s s'
| k_wake s :
    main s = MLoop -> bell s = true -> kstep s (with_main s false MDrain)
| k_pop s r rq :
    main s = MDrain -> fq_pop (result_queue_ s) = Ret (Some r, rq) ->
    kstep s (with_main (with_results s rq) (bell s) (MGot r))
| k_deliver s r :
    main s = MGot r -> kstep s (deliver r MDrain s)
| k_empty s rq :
    main s = MDrain -> fq_pop (result_queue_ s) = Ret (None, rq) ->
    kstep s (with_main (with_results s rq) (bell s) MLoop)
| k_stop s :
    script_runs (main s) = true ->
    kstep s (with_main (with_sub s (stop (sub_queue_ s))) (bell s) (MJoin (calling (main s))))
| k_join s from w s' :
    main s = MJoin from -> thread s = TExited w -> stop_drain from s = Ret s' -> kstep s s'
| k_back s r :
    main s = MBack r -> kstep s (deliver r MClosed s)
| k_take s w item sq :
    thread s = TWait w -> dequeue (sub_queue_ s) = Ret (Done (Some item, sq)) ->
    kstep s (with_thread (with_sub s sq) (bell s) (TSend (serve w item).1 (serve w item).2))
| k_exit s w sq :
    thread s = TWait w -> dequeue (sub_queue_ s) = Ret (Done (None, sq)) ->
    kstep s (with_thread (with_sub s sq) (bell s) (TExited w))
| k_push s w r rest rq :
    thread s = TSend w (r :: rest) -> fq_push r (result_queue_ s) = Ret (true, rq) ->
    kstep s (with_thread (with_results s rq) (bell s) (TRing w rest))
| k_spin s w r rest rq :
    thread s = TSend w (r :: rest) -> fq_push r (result_queue_ s) = Ret (false, rq) ->
    kstep s (with_results s rq)
| k_ring s w rest :
    thread s = TRing w rest -> kstep s (with_thread s true (TSend w rest))
| k_next s w :
    thread s = TSend w [] -> kstep s (with_thread s (bell s) (TWait w)).

Inductive kreachable (s0 : Worker) : Worker -> Prop :=
| kr_start : kreachable s0 s0
| kr_step s s' : kreachable s0 s -> kstep s s' -> kreachable s0 s'.

(** ** Reference: the jobs served one after the other *)

Fixpoint serve_all (w : W) (items : list Item) : W * list Result :=
  match items with
  | [] => (w, [])
  | i :: items' =>
      let '(w1, rs) := serve w i in
      let '(w2, rs') := serve_all w1 items' in (w2, rs ++ rs')
  end.

Definition dones (rs : list Result) : list nat := r_cb <$> filter (fun r => r_done r = true) rs.

(** What a job must produce: one or more results for its callback, of which the last and
    only the last is marked done. *)
Definition block (i : Item) (rs : list Result) : Prop :=
  exists ts r, rs = ts ++ [r] /\ r_done r = true /\ Forall (fun t => r_done t = false) ts /\
    Forall (fun t => r_cb t = i_cb i) rs.

Definition thread_state (t : thread_at W Result) : W :=
  match t with TWait w | TSend w _ | TRing w _ | TExited w => w end.
Definition to_send (t : thread_at W Result) : list Result :=
  match t with TSend _ rest | TRing _ rest => rest | _ => [] end.
Definition exited (t : thread_at W Result) : bool :=
  match t with TExited _ => true | _ => false end.
Definition joining (m : main_at Result) : bool := match m with MJoin _ => true | _ => false end.
Definition got (m : main_at Result) : list Result := option_list (calling m).

Lemma dones_app rs rs' : dones (rs ++ rs') = dones rs ++ dones rs'.
Proof. unfold dones. by rewrite list.filter_app, fmap_app. Qed.

Lemma dones_length rs : (length (dones rs) <= length rs)%nat.
Proof. unfold dones. rewrite length_fmap. apply list.length_filter. Qed.

Lemma dones_one r : dones [r] = if r_done r then [r_cb r] else [].
Proof. unfold dones. rewrite filter_cons, filter_nil. by destruct (r_done r). Qed.

Lemma dones_none rs : Forall (fun r => r_done r = false) rs -> dones rs = [].
Proof.
  induction 1 as [|r rs Hr _ IH]; [done|]. change (r :: rs) with ([r] ++ rs).
  by rewrite dones_app, dones_one, Hr, IH.
Qed.

Lemma block_dones i rs : block i rs -> dones rs = [i_cb i].
Proof.
  intros (ts & r & -> & Hr & Hts & Hcb). rewrite dones_app, dones_one, Hr.
  rewrite list.Forall_app in Hcb. destruct Hcb as [_ Hcb]. inversion Hcb as [|? ? Hrc]; subst.
  by rewrite Hrc, dones_none.
Qed.

Lemma serve_all_app w is1 is2 w1 rs1 w2 rs2 :
  serve_all w is1 = (w1, rs1) -> serve_all w1 is2 = (w2, rs2) ->
  serve_all w (is1 ++ is2) = (w2, rs1 ++ rs2).
Proof.
  revert w w1 rs1. induction is1 as [|i is1 IH]; simpl; intros w w1 rs1 H1 H2; [by simplify_eq|].
  destruct (serve w i) as [w' rs] eqn:Es. destruct (serve_all w' is1) as [w'' rs'] eqn:Er.
  simplify_eq. rewrite (IH _ _ _ Er H2). by rewrite app_assoc.
Qed.

Hypothesis serve_block : forall w i, block i (serve w i).2.

Lemma serve_all_dones w items : dones (serve_all w items).2 = i_cb <$> items.
Proof.
  revert w. induction items as [|i items IH]; intros w; [done|]. simpl.
  pose proof (serve_block w i) as Hb. destruct (serve w i) as [w1 rs].
  specialize (IH w1). destruct (serve_all w1 items) as [w2 rs']. simpl in *.
  by rewrite dones_app, IH, (block_dones _ _ Hb).
Qed.

(** ** The invariant while the worker runs *)

Record live (t0 : thread_at W Result) (s : Worker) (taken queued : list Item) (rq : list Result) : Prop := {
  l_sub : fq_repr (queue_ (sub_queue_ s)) queued;
  l_res : fq_repr (result_queue_ s) rq;
  l_accepted : accepted_jobs s = taken ++ queued;
  l_output : serve_all (thread_state t0) taken
             = (thread_state (thread s), delivered s ++ got (main s) ++ rq ++ to_send (thread s));
  l_rest : (length (dones (to_send (thread s))) <= 1)%nat;
  l_inflight : in_flight_ s = Z.of_nat (length (accepted_jobs s)) - Z.of_nat (length (dones (delivered s)));
  l_ref : ref_ s = bool_decide (0 < in_flight_ s);
  l_freed : freed s = dones (delivered s);
  l_stop : stopped_ (sub_queue_ s) = joining (main s);
  l_sem : exited (thread s) = false ->
          sem_ (sub_queue_ s) = (length queued + if joining (main s) then 1 else 0)%nat;
  l_bell : main s = MLoop -> rq <> [] -> bell s = true \/ exists w rest, thread s = TRing w rest;
  l_exit : exited (thread s) = true -> joining (main s) = true \/ exited t0 = true;
  l_main : main s <> MClosed /\ forall r, main s <> MBack r
}.

(** After [stop]: the thread is gone and the callbacks are settled. *)
Definition settled (t0 : thread_at W Result) (s : Worker) : Prop :=
  exited (thread s) = true /\
  (exists taken rest, taken `prefix_of` accepted_jobs s /\
     (serve_all (thread_state t0) taken).2 = delivered s ++ got (main s) ++ rest) /\
  (main s = MClosed \/ exists r, main s = MBack r) /\
  freed s ++ dones (got (main s)) ≡ₚ i_cb <$> accepted_jobs s.

Definition kinv t0 s : Prop := (exists taken queued rq, live t0 s taken queued rq) \/ settled t0 s.

Lemma live_start sq rq t0 :
  fq_repr sq [] -> fq_repr rq [] -> to_send t0 = [] -> live t0 (Worker_ctor sq rq t0) [] [] [].
Proof. intros Hs Hr H0. split; simpl; rewrite ?H0; try done; auto with lia. Qed.

Definition caps : Z := Z.of_nat (@fq_cap SQ Item FS) + Z.of_nat (@fq_cap RQ Result FR).

(** Outstanding jobs are queued, in the hands of the thread, in the result queue or in
    the callback. *)
Lemma live_bound t0 s taken queued rq :
  live t0 s taken queued rq ->
  in_flight_ s = Z.of_nat (length queued)
    + Z.of_nat (length (dones (got (main s) ++ rq ++ to_send (thread s)))) /\
  0 <= in_flight_ s <= caps + 2 /\
  Z.of_nat (length (dones (got (main s)))) + Z.of_nat (length queued) <= in_flight_ s.
Proof.
  intros Hl. pose proof (serve_all_dones (thread_state t0) taken) as Hd.
  rewrite (l_output _ _ _ _ _ Hl) in Hd. cbn [snd] in Hd. apply (f_equal length) in Hd.
  rewrite length_fmap, dones_app, length_app in Hd.
  pose proof (l_inflight _ _ _ _ _ Hl) as Hf.
  rewrite (l_accepted _ _ _ _ _ Hl), length_app in Hf.
  pose proof (l_rest _ _ _ _ _ Hl). pose proof (fq_repr_cap _ _ (l_sub _ _ _ _ _ Hl)).
  pose proof (fq_repr_cap _ _ (l_res _ _ _ _ _ Hl)). pose proof (dones_length rq).
  assert (length (dones (got (main s))) <= 1)%nat.
  { etrans; [apply dones_length|]. unfold got. by destruct (calling (main s)); simpl; lia. }
  rewrite !dones_app, !length_app in *. unfold caps. lia.
Qed.

Hypothesis caps_small : caps + 3 < 2 ^ 31.

Lemma live_enqueue t0 s taken queued rq item ok s' :
  live t0 s taken queued rq -> script_runs (main s) = true ->
  worker_enqueue item s = Ret (ok, s') ->
  live t0 s' taken (if ok then queued ++ [item] else queued) rq /\
  ok = bool_decide (length queued < @fq_cap SQ Item FS)%nat /\ main s' = main s.
Proof.
  intros Hl Hm He. pose proof (live_bound _ _ _ _ _ Hl) as (_ & Hb & _).
  destruct Hl as [H1 H2 H3 H4 H5 H6 H7 H8 H9 H10 H11 H12 H13].
  unfold worker_enqueue, enqueue in He.
  destruct (fq_push_ok _ _ item H1) as (q' & Hp & Hq). rewrite Hp in He. simpl in He.
  assert (Hj : joining (main s) = false) by (by destruct (main s)).
  rewrite Hj in *. case_bool_decide; simpl in He; injection He as <- <-; simpl.
  - split; [|done]. split; simpl; try done.
    + by rewrite H3, app_assoc.
    + rewrite s32_small by lia. rewrite length_app. simpl. lia.
    + rewrite s32_small by lia. rewrite (bool_decide_eq_true_2 (0 < _ + 1)) by lia. rewrite H7.
      destruct (Z.eqb_spec (in_flight_ s) 0); [done|]. rewrite bool_decide_eq_true_2; [done|lia].
    + by rewrite Hj.
    + intros He. rewrite Hj, (H10 He), length_app. simpl. lia.
    + by rewrite Hj.
  - split; [|done]. split; simpl; try done; rewrite Hj; done.
Qed.

Lemma live_deliver t0 s taken queued rq r :
  live t0 s taken queued rq -> main s = MGot r -> live t0 (deliver r MDrain s) taken queued rq.
Proof.
  intros Hl Hm. pose proof (live_bound _ _ _ _ _ Hl) as (_ & Hb & Hg).
  destruct Hl as [H1 H2 H3 H4 H5 H6 H7 H8 H9 H10 H11 H12 H13]. rewrite Hm in *.
  unfold got in Hg. simpl calling in Hg. simpl option_list in Hg. rewrite dones_one in Hg.
  split; simpl; try done.
  - rewrite <- app_assoc. done.
  - rewrite dones_app, length_app, dones_one. destruct (r_done r); simpl in *; [|lia].
    rewrite s32_small; lia.
  - destruct (r_done r); simpl in *; [|done]. rewrite s32_small by lia. rewrite H7.
    destruct (Z.eqb_spec (in_flight_ s - 1) 0); [by rewrite bool_decide_eq_false_2 by lia|].
    rewrite !bool_decide_eq_true_2; [done|lia|lia].
  - by rewrite dones_app, H8, dones_one.
Qed.

(** What [stop] frees for the results left in the queue: the callbacks of the jobs whose
    last result is among them. *)
Hypothesis free_ok : forall w items pre rs,
  (serve_all w items).2 = pre ++ rs -> free_results rs ≡ₚ dones rs.

Lemma stop_drain_run t0 s taken queued rq from :
  live t0 s taken queued rq ->
  exists sq rq', stop_drain from s =
    Ret (mkWorker sq rq' (in_flight_ s) (ref_ s) (bell s)
           (match from with Some r => MBack r | None => MClosed end) (thread s)
           (accepted_jobs s) (delivered s) (freed s ++ (i_cb <$> queued) ++ free_results rq)).
Proof.
  intros Hl. pose proof (fq_repr_cap _ _ (l_sub _ _ _ _ _ Hl)).
  pose proof (fq_repr_cap _ _ (l_res _ _ _ _ _ Hl)). unfold stop_drain, drain.
  destruct (drain_loop_all (S (@fq_cap SQ Item FS)) _ _ (l_sub _ _ _ _ _ Hl)) as (q1 & -> & _); [lia|].
  destruct (drain_loop_all (S (@fq_cap RQ Result FR)) _ _ (l_res _ _ _ _ _ Hl)) as (q2 & Hd & _); [lia|].
  cbn [outcome_bind]. rewrite Hd. cbn [outcome_bind]. eauto.
Qed.

Lemma live_join t0 s taken queued rq from w s' :
  live t0 s taken queued rq -> main s = MJoin from -> thread s = TExited w ->
  stop_drain from s = Ret s' -> settled t0 s'.
Proof.
  intros Hl Hm Ht Hs. destruct (stop_drain_run _ _ _ _ _ from Hl) as (sq & rq' & Hd).
  rewrite Hd in Hs. injection Hs as <-.
  pose proof (l_output _ _ _ _ _ Hl) as Ho. pose proof (l_accepted _ _ _ _ _ Hl) as Ha.
  rewrite Ht, Hm in Ho. simpl in Ho. rewrite app_nil_r in Ho.
  assert (Hgot : got (match from with Some r => MBack r | None => MClosed end) = got (MJoin from))
    by (by destruct from).
  split; simpl; [by rewrite Ht|]. split_and!.
  - exists taken, rq. rewrite Ha, Ho, Hgot. split; [by apply prefix_app_r|done].
  - destruct from; eauto.
  - rewrite Hgot, (l_freed _ _ _ _ _ Hl), Ha, fmap_app.
    rewrite (free_ok (thread_state t0) taken (delivered s ++ got (MJoin from)) rq)
      by (by rewrite Ho, <- app_assoc).
    rewrite <- (serve_all_dones (thread_state t0) taken), Ho. cbn [snd].
    rewrite !dones_app. solve_Permutation.
Qed.

Lemma settled_back t0 s r :
  settled t0 s -> main s = MBack r -> settled t0 (deliver r MClosed s).
Proof.
  intros (He & (taken & rest & Hp & Ho) & _ & Hf) Hm. rewrite Hm in *. simpl in *.
  split; [done|]. split_and!; simpl; [|by left|].
  - exists taken, rest. split; [done|]. by rewrite Ho, <- app_assoc.
  - unfold got in Hf. simpl in Hf. rewrite dones_one in Hf. by rewrite app_nil_r.
Qed.

Lemma live_take t0 s taken queued rq w item sq :
  live t0 s taken queued rq -> thread s = TWait w ->
  dequeue (sub_queue_ s) = Ret (Done (Some item, sq)) ->
  exists queued', queued = item :: queued' /\
    live t0 (with_thread (with_sub s sq) (bell s) (TSend (serve w item).1 (serve w item).2))
      (taken ++ [item]) queued' rq.
Proof.
  intros [H1 H2 H3 H4 H5 H6 H7 H8 H9 H10 H11 H12 H13] Ht Hd. rewrite Ht in *.
  specialize (H10 eq_refl). unfold dequeue in Hd. rewrite H9 in Hd.
  destruct (sem_ (sub_queue_ s)) as [|n]; [done|]. destruct (joining (main s)) eqn:Ej; [done|].
  destruct (fq_pop_ok _ _ H1) as (q' & Hp & Hq). rewrite Hp in Hd. simpl in Hd. simplify_eq.
  destruct queued as [|x queued]; simplify_eq/=. exists queued. split; [done|].
  assert (Hone : serve_all w [item] = serve w item).
  { simpl. destruct (serve w item). by rewrite app_nil_r. }
  pose proof (serve_block w item) as Hb. destruct (serve w item) as [w' rs]. cbn [fst snd] in *.
  split; simpl; try done.
  - by rewrite H3, <- app_assoc.
  - rewrite app_nil_r in H4. rewrite (serve_all_app _ _ _ _ _ _ _ H4 Hone).
    by rewrite <- !app_assoc.
  - by rewrite (block_dones _ _ Hb).
  - intros _. rewrite Ej. lia.
  - intros Hm Hr. destruct (H11 Hm Hr) as [|(? & ? & ?)]; [by left|done].
Qed.

Lemma live_exit t0 s taken queued rq w sq :
  live t0 s taken queued rq -> thread s = TWait w ->
  dequeue (sub_queue_ s) = Ret (Done (None, sq)) ->
  live t0 (with_thread (with_sub s sq) (bell s) (TExited w)) taken queued rq.
Proof.
  intros [H1 H2 H3 H4 H5 H6 H7 H8 H9 H10 H11 H12 H13] Ht Hd. rewrite Ht in *.
  specialize (H10 eq_refl). unfold dequeue in Hd. rewrite H9 in Hd.
  destruct (sem_ (sub_queue_ s)) as [|n]; [done|]. destruct (joining (main s)) eqn:Ej; simplify_eq.
  - split; simpl; try done.
    + intros Hm. by rewrite Hm in Ej.
    + intros _. by left.
  - destruct (fq_pop_ok _ _ H1) as (q' & Hp & Hq). rewrite Hp in Hd. simpl in Hd. simplify_eq.
    by destruct queued; simplify_eq/=.
Qed.

Lemma live_pop t0 s taken queued rq r rq' :
  live t0 s taken queued rq -> main s = MDrain -> fq_pop (result_queue_ s) = Ret (Some r, rq') ->
  live t0 (with_main (with_results s rq') (bell s) (MGot r)) taken queued (tail rq).
Proof.
  intros [H1 H2 H3 H4 H5 H6 H7 H8 H9 H10 H11 H12 H13] Hm Hp. rewrite Hm in *.
  destruct (fq_pop_ok _ _ H2) as (q' & Hp' & Hq). rewrite Hp in Hp'. simplify_eq.
  destruct rq as [|r' rq]; simplify_eq/=. by split.
Qed.

Lemma live_empty t0 s taken queued rq rq' :
  live t0 s taken queued rq -> main s = MDrain -> fq_pop (result_queue_ s) = Ret (None, rq') ->
  live t0 (with_main (with_results s rq') (bell s) MLoop) taken queued rq.
Proof.
  intros [H1 H2 H3 H4 H5 H6 H7 H8 H9 H10 H11 H12 H13] Hm Hp. rewrite Hm in *.
  destruct (fq_pop_ok _ _ H2) as (q' & Hp' & Hq). rewrite Hp in Hp'. simplify_eq.
  destruct rq; simplify_eq/=. by split.
Qed.

Lemma live_stop t0 s taken queued rq :
  live t0 s taken queued rq -> script_runs (main s) = true ->
  live t0 (with_main (with_sub s (stop (sub_queue_ s))) (bell s) (MJoin (calling (main s))))
    taken queued rq.
Proof.
  intros [H1 H2 H3 H4 H5 H6 H7 H8 H9 H10 H11 H12 H13] Hm.
  assert (Hj : joining (main s) = false) by (by destruct (main s)).
  split; simpl; try done.
  - by destruct (main s).
  - intros He. rewrite (H10 He), Hj. lia.
  - intros _. by left.
Qed.

Lemma live_push t0 s taken queued rq w r rest ok rq' :
  live t0 s taken queued rq -> thread s = TSend w (r :: rest) ->
  fq_push r (result_queue_ s) = Ret (ok, rq') ->
  live t0 (if ok then with_thread (with_results s rq') (bell s) (TRing w rest) else with_results s rq')
    taken queued (if ok then rq ++ [r] else rq) /\
  ok = bool_decide (length rq < @fq_cap RQ Result FR)%nat.
Proof.
  intros [H1 H2 H3 H4 H5 H6 H7 H8 H9 H10 H11 H12 H13] Ht Hp. rewrite Ht in *.
  destruct (fq_push_ok _ _ r H2) as (q' & Hp' & Hq). rewrite Hp in Hp'. simplify_eq.
  split; [|done]. case_bool_decide.
  - split; simpl; try done; [by rewrite H4, <- app_assoc| |by eauto].
    simpl in H5. change (r :: rest) with ([r] ++ rest) in H5.
    rewrite dones_app, length_app in H5. lia.
  - split; simpl; rewrite ?Ht; done.
Qed.

Lemma live_ring t0 s taken queued rq w rest :
  live t0 s taken queued rq -> thread s = TRing w rest ->
  live t0 (with_thread s true (TSend w rest)) taken queued rq.
Proof.
  intros [H1 H2 H3 H4 H5 H6 H7 H8 H9 H10 H11 H12 H13] Ht. rewrite Ht in *.
  split; simpl; try done. intros _ _. by left.
Qed.

Lemma live_next t0 s taken queued rq w :
  live t0 s taken queued rq -> thread s = TSend w [] ->
  live t0 (with_thread s (bell s) (TWait w)) taken queued rq.
Proof.
  intros [H1 H2 H3 H4 H5 H6 H7 H8 H9 H10 H11 H12 H13] Ht. rewrite Ht in *.
  split; simpl; try done. intros Hm Hr. destruct (H11 Hm Hr) as [|(? & ? & ?)]; [by left|done].
Qed.

Lemma live_wake t0 s taken queued rq :
  live t0 s taken queued rq -> main s = MLoop ->
  live t0 (with_main s false MDrain) taken queued rq.
Proof.
  intros [H1 H2 H3 H4 H5 H6 H7 H8 H9 H10 H11 H12 H13] Hm. rewrite Hm in *. by split.
Qed.

Lemma live_step t0 s s' taken queued rq : live t0 s taken queued rq -> kstep s s' -> kinv t0 s'.
Proof.
  intros Hl Hs. pose proof (l_main _ _ _ _ _ Hl) as [Hc Hb].
  destruct Hs as [s item ok s' Hm He|s Hm Hbell|s r rq' Hm Hp|s r Hm|s rq' Hm Hp|s Hm|s from w s' Hm Ht He
    |s r Hm|s w item sq Ht Hd|s w sq Ht Hd|s w r rest rq' Ht Hp|s w r rest rq' Ht Hp|s w rest Ht|s w Ht].
  - destruct (live_enqueue _ _ _ _ _ _ _ _ Hl Hm He) as [? _]. left. eauto.
  - left. eauto using live_wake.
  - left. eauto using live_pop.
  - left. eauto using live_deliver.
  - left. eauto using live_empty.
  - left. eauto using live_stop.
  - right. eauto using live_join.
  - by destruct (Hb r).
  - destruct (live_take _ _ _ _ _ _ _ _ Hl Ht Hd) as (queued' & _ & ?). left. eauto.
  - left. eauto using live_exit.
  - destruct (live_push _ _ _ _ _ _ _ _ _ _ Hl Ht Hp) as [? _]. left. eauto.
  - destruct (live_push _ _ _ _ _ _ _ _ _ _ Hl Ht Hp) as [? _]. left. eauto.
  - left. eauto using live_ring.
  - left. eauto using live_next.
Qed.

Lemma settled_step t0 s s' : settled t0 s -> kstep s s' -> settled t0 s'.
Proof.
  intros Hs Hk. pose proof Hs as (He & _ & Hm & _).
  assert (Hb : exists r, main s = MBack r /\ s' = deliver r MClosed s).
  { destruct Hk; destruct Hm as [Hm|[rb Hm]];
      repeat match goal with
      | H : main _ = _, H' : main _ = _ |- _ => rewrite H in H'
      | H : thread _ = _, H' : context [thread _] |- _ => rewrite H in H'
      end; simplify_eq/=; eauto.
    all: rewrite Hm in *; simplify_eq/=. }
  destruct Hb as (r & Hr & ->). by apply settled_back.
Qed.

Lemma kreachable_inv sq rq t0 s :
  fq_repr sq [] -> fq_repr rq [] -> to_send t0 = [] ->
  kreachable (Worker_ctor sq rq t0) s -> kinv t0 s.
Proof.
  intros Hs Hr H0. induction 1 as [|s s' _ IH Hk]; [left; eauto using live_start|].
  destruct IH as [(taken & queued & l & Hl)|IH]; [eauto using live_step|].
  right. eauto using settled_step.
Qed.

Lemma serve_all_suffix w items pre rs :
  (serve_all w items).2 = pre ++ rs -> dones rs = [] -> rs = [].
Proof.
  intros Hs Hd. destruct rs as [|r rs _] using rev_ind; [done|]. exfalso.
  rewrite dones_app, dones_one in Hd. apply app_eq_nil in Hd as [_ Hd].
  assert (Hr : r_done r = true); [|by rewrite Hr in Hd]. clear Hd.
  rewrite app_assoc in Hs. generalize dependent (pre ++ rs). clear pre rs. revert w.
  induction items as [|i items IH]; intros w pre Hs; [by destruct pre|]. simpl in Hs.
  pose proof (serve_block w i) as (ts & r' & Hb & Hr' & _). destruct (serve w i) as [w1 rs1].
  specialize (IH w1). destruct (serve_all w1 items) as [w2 rs2]. simpl in *. subst rs1.
  destruct rs2 as [|r2 rs2 _] using rev_ind.
  - rewrite app_nil_r in Hs. by apply app_inj_tail in Hs as [_ <-].
  - rewrite app_assoc in Hs. apply app_inj_tail in Hs as [_ <-]. by apply (IH rs2).
Qed.

Lemma kr_trans s1 s2 s3 : kreachable s1 s2 -> kreachable s2 s3 -> kreachable s1 s3.
Proof. intros H1. induction 1; eauto using kreachable. Qed.

Lemma kr_fwd s1 s2 s3 : kstep s1 s2 -> kreachable s2 s3 -> kreachable s1 s3.
Proof. intros H1. apply kr_trans. by eapply kr_step; [apply kr_start|]. Qed.

Definition stopped_main (s : Worker) : Prop := main s = MClosed \/ exists r, main s = MBack r.

Lemma join_exited t0 s taken queued rq from w :
  live t0 s taken queued rq -> main s = MJoin from -> thread s = TExited w ->
  exists s', kreachable s s' /\ stopped_main s'.
Proof.
  intros Hl Hm Ht. destruct (stop_drain_run _ _ _ _ _ from Hl) as (sq & rq' & Hd).
  eexists. split; [eapply kr_step; [apply kr_start|by eapply k_join]|].
  unfold stopped_main. simpl. destruct from; eauto.
Qed.

Lemma join_wait t0 s taken queued rq from w :
  live t0 s taken queued rq -> main s = MJoin from -> thread s = TWait w ->
  exists s', kreachable s s' /\ stopped_main s'.
Proof.
  intros Hl Hm Ht. pose proof (l_sem _ _ _ _ _ Hl) as Hs. pose proof (l_stop _ _ _ _ _ Hl) as Hp.
  rewrite Hm, Ht in *. specialize (Hs eq_refl). simpl in Hs, Hp.
  destruct (sem_ (sub_queue_ s)) as [|n] eqn:En; [lia|].
  assert (Hd : dequeue (sub_queue_ s) = Ret (Done (None, mkWork (queue_ (sub_queue_ s)) n true))).
  { unfold dequeue. by rewrite En, Hp. }
  pose proof (live_exit _ _ _ _ _ _ _ Hl Ht Hd) as Hl'.
  edestruct join_exited as (s' & Hr & Hs'); [exact Hl'|simpl; exact Hm|done|].
  exists s'. split; [|done]. eapply kr_trans; [|exact Hr]. eapply kr_step; [apply kr_start|].
  by eapply k_exit.
Qed.

Lemma join_send t0 rest s taken queued rq from w :
  live t0 s taken queued rq -> main s = MJoin from -> thread s = TSend w rest ->
  (length rq + length rest <= @fq_cap RQ Result FR)%nat ->
  exists s', kreachable s s' /\ stopped_main s'.
Proof.
  revert s rq w. induction rest as [|r rest IH]; intros s rq w Hl Hm Ht Hc; simpl in Hc.
  - edestruct join_wait as (s' & Hr & Hs'); [by eapply live_next|simpl; exact Hm|done|].
    exists s'. split; [|done]. eapply kr_trans; [|exact Hr].
    eapply kr_step; [apply kr_start|by eapply k_next].
  - destruct (fq_push_ok _ _ r (l_res _ _ _ _ _ Hl)) as (q' & Hp & _).
    rewrite bool_decide_eq_true_2 in Hp by lia.
    destruct (live_push _ _ _ _ _ _ _ _ _ _ Hl Ht Hp) as [Hl1 _].
    pose proof (live_ring _ _ _ _ _ w rest Hl1 eq_refl) as Hl2.
    edestruct IH as (s' & Hr & Hs'); [exact Hl2|exact Hm|done|rewrite length_app; simpl; lia|].
    exists s'. split; [|done]. eapply kr_trans; [|exact Hr].
    eapply kr_step; [eapply kr_step; [apply kr_start|by eapply k_push]|by apply k_ring].
Qed.

(** ** The state in which [stop] never returns *)

Definition stuck (s : Worker) : Prop :=
  (exists from, main s = MJoin from) /\ (exists w r rest, thread s = TSend w (r :: rest)) /\
  exists l, fq_repr (result_queue_ s) l /\ length l = @fq_cap RQ Result FR.

Lemma stuck_step s s' : stuck s -> kstep s s' -> stuck s'.
Proof.
  intros ((from & Hm) & (w & r & rest & Ht) & l & Hl & Hc) Hk.
  destruct Hk as [s item ok s' Hm' He|s Hm' Hbell|s r' rq' Hm' Hp|s r' Hm'|s rq' Hm' Hp|s Hm'|s from' w' s' Hm' Ht' He
    |s r' Hm'|s w' item sq Ht' Hd|s w' sq Ht' Hd|s w' r' rest' rq' Ht' Hp|s w' r' rest' rq' Ht' Hp|s w' rest' Ht'|s w' Ht'];
    rewrite ?Hm, ?Ht in *; simplify_eq/=.
  - destruct (fq_push_ok _ _ r' Hl) as (q1 & Hq & _). rewrite Hp in Hq. simplify_eq.
    case_bool_decide; [lia|done].
  - destruct (fq_push_ok _ _ r' Hl) as (q1 & Hq & Hl1). rewrite Hp in Hq. simplify_eq.
    rewrite bool_decide_eq_false_2 in Hl1 by lia.
    split_and!; simpl; eauto 10.
Qed.

Lemma stuck_forever s s' : stuck s -> kreachable s s' -> stuck s'.
Proof. intros Hs. induction 1; eauto using stuck_step. Qed.

Lemma enqueue_returns t0 s taken queued rq item :
  live t0 s taken queued rq ->
  exists ok s', worker_enqueue item s = Ret (ok, s') /\ thread s' = thread s.
Proof.
  intros Hl. destruct (fq_push_ok _ _ item (l_sub _ _ _ _ _ Hl)) as (q' & Hp & _).
  unfold worker_enqueue, enqueue. rewrite Hp. cbn [outcome_bind].
  case_bool_decide; cbn [outcome_bind]; eauto.
Qed.

Lemma dequeue_item t0 s taken item queued rq :
  live t0 s taken (item :: queued) rq -> exited (thread s) = false -> joining (main s) = false ->
  exists sq, dequeue (sub_queue_ s) = Ret (Done (Some item, sq)).
Proof.
  intros Hl He Hj. destruct (fq_pop_ok _ _ (l_sub _ _ _ _ _ Hl)) as (q' & Hp & _).
  unfold dequeue. rewrite (l_sem _ _ _ _ _ Hl He), (l_stop _ _ _ _ _ Hl), Hj. simpl.
  rewrite Hp. simpl. eauto.
Qed.

Lemma submit_one t0 s taken rq w item :
  (0 < @fq_cap SQ Item FS)%nat ->
  live t0 s taken [] rq -> main s = MLoop -> thread s = TWait w ->
  exists s' w' r rest, kreachable s s' /\ live t0 s' (taken ++ [item]) [] rq /\
    main s' = MLoop /\ thread s' = TSend w' (r :: rest).
Proof.
  intros Hc Hl Hm Ht. destruct (enqueue_returns _ _ _ _ _ item Hl) as (ok & s1 & He & Ht1).
  assert (Hs : script_runs (main s) = true) by (by rewrite Hm).
  destruct (live_enqueue _ _ _ _ _ _ _ _ Hl Hs He) as (Hl1 & Hok & Hm1).
  rewrite bool_decide_eq_true_2 in Hok by done. subst ok. simpl in Hl1.
  rewrite Ht in Ht1. rewrite Hm in Hm1.
  destruct (dequeue_item _ _ _ _ _ _ Hl1) as (sq & Hd); [by rewrite Ht1|by rewrite Hm1|].
  destruct (live_take _ _ _ _ _ _ _ _ Hl1 Ht1 Hd) as (queued' & Hq & Hl2). simplify_eq.
  destruct (serve_block w item) as (ts & r & Hb & _).
  assert (exists r' rest, (serve w item).2 = r' :: rest) as (r' & rest & Hr)
    by (rewrite Hb; destruct ts; simpl; eauto).
  eexists _, _, r', rest. split; [|split; [exact Hl2|]].
  - eapply kr_step; [eapply kr_step; [apply kr_start|by eapply k_enqueue]|by eapply k_take].
  - split; [exact Hm1|]. simpl. by rewrite Hr.
Qed.

Lemma fill_results t0 s0 (item : Item) n :
  (0 < @fq_cap SQ Item FS)%nat -> (n <= @fq_cap RQ Result FR)%nat ->
  (exists w, thread s0 = TWait w) -> main s0 = MLoop -> live t0 s0 [] [] [] ->
  exists s taken rq w r rest, kreachable s0 s /\ live t0 s taken [] rq /\ main s = MLoop /\
    thread s = TSend w (r :: rest) /\ length rq = n.
Proof.
  intros Hc Hn [w0 Ht0] Hm0 H0. induction n as [|n IH].
  { destruct (submit_one _ _ _ _ _ item Hc H0 Hm0 Ht0) as (s & w & r & rest & ? & ? & ? & ?).
    eexists _, _, _, _, _, _. eauto. }
  destruct IH as (s & taken & rq & w & r & rest & Hr & Hl & Hm & Ht & Hlen); [lia|].
  destruct (fq_push_ok _ _ r (l_res _ _ _ _ _ Hl)) as (q' & Hp & _).
  rewrite bool_decide_eq_true_2 in Hp by lia.
  destruct (live_push _ _ _ _ _ _ _ _ _ _ Hl Ht Hp) as [Hl1 _].
  pose proof (live_ring _ _ _ _ _ w rest Hl1 eq_refl) as Hl2.
  assert (Hr2 : kreachable s0 (with_thread (with_thread (with_results s q') (bell s) (TRing w rest))
                  true (TSend w rest))).
  { eapply kr_step; [eapply kr_step; [exact Hr|by eapply k_push]|by apply k_ring]. }
  destruct rest as [|r2 rest].
  - pose proof (live_next _ _ _ _ _ w Hl2 eq_refl) as Hl3.
    destruct (submit_one _ _ _ _ w item Hc Hl3 Hm eq_refl) as (s4 & w4 & r4 & rest4 & Hr4 & Hl4 & Hm4 & Ht4).
    eexists s4, _, _, w4, r4, rest4. split_and!; [|exact Hl4|done|done|rewrite length_app; simpl; lia].
    eapply kr_trans; [|exact Hr4]. eapply kr_step; [exact Hr2|by eapply k_next].
  - eexists _, _, _, w, r2, rest. split_and!; [exact Hr2|exact Hl2|done|done|].
    rewrite length_app. simpl. lia.
Qed.

(** ** Progress

    The steps that the two threads take without a call from a script, but for the retry of a push
    on a full queue. *)

Inductive progress : Worker -> Worker -> Prop :=
| p_wake s : main s = MLoop -> bell s = true -> progress s (with_main s false MDrain)
| p_pop s r rq : main s = MDrain -> fq_pop (result_queue_ s) = Ret (Some r, rq) ->
    progress s (with_main (with_results s rq) (bell s) (MGot r))
| p_deliver s r : main s = MGot r -> progress s (deliver r MDrain s)
| p_empty s rq : main s = MDrain -> fq_pop (result_queue_ s) = Ret (None, rq) ->
    progress s (with_main (with_results s rq) (bell s) MLoop)
| p_take s w item sq : thread s = TWait w -> dequeue (sub_queue_ s) = Ret (Done (Some item, sq)) ->
    progress s (with_thread (with_sub s sq) (bell s) (TSend (serve w item).1 (serve w item).2))
| p_push s w r rest rq : thread s = TSend w (r :: rest) -> fq_push r (result_queue_ s) = Ret (true, rq) ->
    progress s (with_thread (with_results s rq) (bell s) (TRing w rest))
| p_ring s w rest : thread s = TRing w rest -> progress s (with_thread s true (TSend w rest))
| p_next s w : thread s = TSend w [] -> progress s (with_thread s (bell s) (TWait w)).

Inductive progresses : nat -> Worker -> Worker -> Prop :=
| ps_refl s : progresses 0 s s
| ps_step n s s1 s2 : progress s s1 -> progresses n s1 s2 -> progresses (S n) s s2.

Lemma progress_kstep s s' : progress s s' -> kstep s s'.
Proof. destruct 1; eauto using kstep. Qed.

(** What is left to do: the results not yet pushed, signalled, popped and delivered, and the jobs
    not yet taken. *)
Definition main_work (m : main_at Result) : nat := match m with MDrain => 1 | MGot _ => 2 | _ => 0 end.
Definition thread_work (t : thread_at W Result) : nat := match t with TSend _ _ => 1 | TRing _ _ => 4 | _ => 0 end.
Definition work (s : Worker) (queued : list Item) (rq : list Result) : nat :=
  2 * length queued + 6 * length ((serve_all (thread_state (thread s)) queued).2 ++ to_send (thread s)) +
  2 * length rq + (if bell s then 2 else 0) + main_work (main s) + thread_work (thread s).

(** The worker has not been told to stop. *)
Definition runs (s : Worker) : Prop := stopped_ (sub_queue_ s) = false /\ ~ stopped_main s.

Lemma progress_work t0 s s' taken queued rq : live t0 s taken queued rq -> progress s s' ->
  exists taken' queued' rq', live t0 s' taken' queued' rq' /\ (S (work s' queued' rq') <= work s queued rq)%nat.
Proof.
  intros Hl Hp. unfold work. destruct Hp as [s Hm Hb|s r q Hm Hp|s r Hm|s q Hm Hp|s w item sq Ht Hd|s w r rest q Ht Hp|s w rest Ht|s w Ht].
  - exists taken, queued, rq. split; [by eapply live_wake|]. cbn. rewrite Hm, Hb. cbn. lia.
  - pose proof (live_pop _ _ _ _ _ _ _ Hl Hm Hp) as Hl'. exists taken, queued, (tail rq). split; [done|].
    destruct (fq_pop_ok _ _ (l_res _ _ _ _ _ Hl)) as (q' & Hq & _). rewrite Hp in Hq. destruct rq as [|r' rq]; simplify_eq.
    cbn. rewrite Hm. cbn. lia.
  - exists taken, queued, rq. split; [by eapply live_deliver|]. cbn. rewrite Hm. cbn. lia.
  - exists taken, queued, rq. split; [by eapply live_empty|]. cbn. rewrite Hm. cbn. lia.
  - destruct (live_take _ _ _ _ _ _ _ _ Hl Ht Hd) as (queued' & -> & Hl'). exists (taken ++ [item]), queued', rq. split; [done|].
    rewrite Ht. cbn [with_thread with_sub thread main bell thread_state to_send thread_work length serve_all].
    destruct (serve w item) as [w1 rs]. cbn [fst snd]. destruct (serve_all w1 queued') as [w2 rs']. cbn [snd].
    rewrite !length_app. cbn [length]. lia.
  - destruct (live_push _ _ _ _ _ _ _ _ _ _ Hl Ht Hp) as [Hl' _]. exists taken, queued, (rq ++ [r]). split; [done|].
    rewrite Ht. cbn [with_thread with_results thread main bell thread_state to_send thread_work]. rewrite !length_app. cbn [length]. lia.
  - exists taken, queued, rq. split; [by eapply live_ring|]. rewrite Ht.
    cbn [with_thread thread main bell thread_state to_send thread_work]. destruct (bell s); lia.
  - exists taken, queued, rq. split; [by eapply live_next|]. rewrite Ht.
    cbn [with_thread thread main bell thread_state to_send thread_work]. lia.
Qed.

Lemma progresses_work t0 n s s' : progresses n s s' -> forall taken queued rq, live t0 s taken queued rq -> (n <= work s queued rq)%nat.
Proof.
  induction 1 as [s|n s s1 s2 Hp _ IH]; intros taken queued rq Hl; [lia|].
  destruct (progress_work _ _ _ _ _ _ Hl Hp) as (taken1 & queued1 & rq1 & Hl1 & Hw). specialize (IH _ _ _ Hl1). lia.
Qed.

(** The work is bounded by what has not been delivered. *)
Lemma work_bound t0 s taken queued rq : live t0 s taken queued rq ->
  (work s queued rq <= 2 * length (accepted_jobs s)
     + 6 * (length (serve_all (thread_state t0) (accepted_jobs s)).2 - length (delivered s)) + 8)%nat.
Proof.
  intros Hl. pose proof (l_output _ _ _ _ _ Hl) as Ho. pose proof (l_accepted _ _ _ _ _ Hl) as Ha.
  destruct (serve_all (thread_state (thread s)) queued) as [w2 rs2] eqn:E2. rewrite Ha, (serve_all_app _ _ _ _ _ _ _ Ho E2). cbn [snd].
  unfold work. rewrite E2. cbn [snd]. rewrite !length_app.
  assert (main_work (main s) <= 2)%nat by (destruct (main s); cbn; lia). assert (thread_work (thread s) <= 4)%nat by (destruct (thread s); cbn; lia).
  destruct (bell s); lia.
Qed.

(** A running worker takes a step as long as a result is outstanding. *)
Lemma progress_enabled t0 s taken queued rq : (0 < @fq_cap RQ Result FR)%nat -> exited t0 = false ->
  live t0 s taken queued rq -> runs s -> (exists s', progress s s') \/ main s = MLoop /\ queued = [] /\ rq = [] /\ to_send (thread s) = [].
Proof.
  intros Hc H0 Hl [Hst Hn]. pose proof (l_stop _ _ _ _ _ Hl) as Hj. rewrite Hst in Hj.
  assert (exited (thread s) = false) as He.
  { destruct (exited (thread s)) eqn:E; [|done]. destruct (l_exit _ _ _ _ _ Hl E); congruence. }
  destruct (main s) as [| |r|from|r|] eqn:Hm; try discriminate Hj.
  - destruct (bell s) eqn:Hb; [left; eexists; by eapply p_wake|].
    pose proof (l_bell _ _ _ _ _ Hl Hm) as Hbell. destruct (thread s) as [w|w [|r rest]|w rest|w] eqn:Ht; [| | | |done].
    + destruct queued as [|item queued].
      * right. split; [done|]. split; [done|]. split; [|done]. destruct rq; [done|]. destruct Hbell as [?|(? & ? & ?)]; [done|congruence|congruence].
      * left. destruct (dequeue_item _ _ _ _ _ _ Hl) as (sq & Hd); [by rewrite Ht|by rewrite Hm|]. eexists. by eapply p_take.
    + left. eexists. by eapply p_next.
    + left. destruct (fq_push_ok _ _ r (l_res _ _ _ _ _ Hl)) as (q' & Hp & _). destruct (decide (length rq < @fq_cap RQ Result FR)%nat) as [Hr|Hr].
      * rewrite bool_decide_eq_true_2 in Hp by done. eexists. by eapply p_push.
      * exfalso. destruct Hbell as [?|(? & ? & ?)]; [by destruct rq; [simpl in Hr; lia|]|congruence|congruence].
    + left. eexists. by eapply p_ring.
  - left. destruct (fq_pop_ok _ _ (l_res _ _ _ _ _ Hl)) as (q' & Hp & _). destruct rq as [|r rq]; eexists; [by eapply p_empty|by eapply p_pop].
  - left. eexists. by eapply p_deliver.
  - destruct Hn. right. by eexists.
  - destruct Hn. by left.
Qed.

(** A worker whose thread never entered its loop. *)
Lemma dead_thread sq rq w s :
  fq_repr rq [] -> kreachable (Worker_ctor sq rq (TExited w)) s ->
  thread s = TExited w /\ delivered s = [] /\ fq_repr (result_queue_ s) [] /\ calling (main s) = None.
Proof.
  intros Hrq. induction 1 as [|s s' _ (Ht & Hd & Hr & Hm) Hk]; [done|].
  destruct (fq_pop_ok _ _ Hr) as (rq' & Hpop & Hr').
  destruct Hk as [s item ok s' Hm' He|s Hm' Hbell|s r' rq1 Hm' Hp|s r' Hm'|s rq1 Hm' Hp|s Hm'|s from' w' s' Hm' Ht' He
    |s r' Hm'|s w' item sq' Ht' Hd'|s w' sq' Ht' Hd'|s w' r' rest' rq1 Ht' Hp|s w' r' rest' rq1 Ht' Hp|s w' rest' Ht'|s w' Ht'];
    try (by rewrite Ht' in Ht); try (by rewrite Hm' in Hm).
  - unfold worker_enqueue in He. destruct (enqueue item _) as [[[] sq']| |]; simpl in He; try done;
      injection He as <- <-; done.
  - rewrite Hpop in Hp. by simplify_eq.
  - rewrite Hpop in Hp. by simplify_eq.
  - simpl. by rewrite Hm.
  - unfold stop_drain in He. ret_inv He x Ex. destruct x as [items sq']. ret_inv He y Ey.
    destruct y as [rs rq1]. injection He as <-. simpl.
    destruct (drain_loop_all (S (@fq_cap RQ Result FR)) _ _ Hr) as (q1 & Hdr & Hq1); [simpl; lia|].
    rewrite Hdr in Ey. simplify_eq. rewrite Hm' in Hm. by destruct from'.
Qed.

End Worker.

(** Workers with one result per job free the callback of every result they find. *)
Lemma free_all_ok {W Item Result} (serve : W -> Item -> W * list Result) (cb : Result -> nat) w items pre rs :
  (serve_all serve w items).2 = pre ++ rs -> (cb <$> rs) ≡ₚ dones cb (fun _ => true) rs.
Proof.
  intros _. unfold dones. induction rs as [|r rs IH]; [done|].
  rewrite filter_cons_True by done. simpl. by rewrite IH.
Qed.

(** ** Properties *)

Section Properties.
Context {SQ RQ W Item Result : Type} `{FS : !FifoQueue SQ Item} `{FR : !FifoQueue RQ Result}.
Context (serve : W -> Item -> W * list Result) (i_cb : Item -> nat) (r_cb : Result -> nat).
Context (r_done : Result -> bool) (free_results : list Result -> list nat).
Context (serve_block : forall w i, block i_cb r_cb r_done i (serve w i).2).
Context (caps_small : caps (FS := FS) (FR := FR) + 3 < 2 ^ 31).
Context (free_ok : forall w items pre rs,
  (serve_all serve w items).2 = pre ++ rs -> free_results rs ≡ₚ dones r_cb r_done rs).
Context (sq : SQ) (rq : RQ) (w0 : W) (sq_new : fq_repr sq []) (rq_new : fq_repr rq []).

Lemma worker_inv t0 s :
  to_send t0 = [] -> kreachable serve i_cb r_cb r_done free_results (Worker_ctor sq rq t0) s ->
  kinv serve i_cb r_cb r_done t0 s.
Proof. intros H0 Hs. by eapply kreachable_inv. Qed.

Lemma worker_all_delivered s :
  kreachable serve i_cb r_cb r_done free_results (Worker_ctor sq rq (TWait w0)) s ->
  main s = MLoop -> ref_ s = false -> delivered s = (serve_all serve w0 (accepted_jobs s)).2.
Proof.
  intros Hs Hm Hr. apply worker_inv in Hs as [(taken & queued & l & Hl)|(_ & _ & Hm' & _)]; [| |done]; cycle 1.
  { rewrite Hm in Hm'. naive_solver. }
  pose proof (l_accepted _ _ _ _ _ _ _ _ Hl) as Ha. pose proof (l_output _ _ _ _ _ _ _ _ Hl) as Ho.
  cbn [thread_state] in Ho. rewrite (l_ref _ _ _ _ _ _ _ _ Hl), bool_decide_eq_false in Hr.
  destruct (live_bound serve i_cb r_cb r_done serve_block _ _ _ _ _ Hl) as (Hb & ? & _).
  assert (queued = []) as -> by (destruct queued; simpl in *; [done|lia]).
  rewrite Ha, app_nil_r, Ho. cbn [snd]. rewrite Hm in *.
  change (got MLoop) with (@nil Result) in *. rewrite app_nil_l in *. simpl length in Hb.
  rewrite (serve_all_suffix serve i_cb r_cb r_done serve_block w0 taken (delivered s)
             (l ++ to_send (thread s))); [by rewrite app_nil_r|by rewrite Ho|].
  apply length_zero_iff_nil. lia.
Qed.

Lemma worker_freed t0 s :
  to_send t0 = [] -> kreachable serve i_cb r_cb r_done free_results (Worker_ctor sq rq t0) s ->
  main s = MClosed -> freed s ≡ₚ i_cb <$> accepted_jobs s.
Proof.
  intros H0 Hs Hc. apply worker_inv in Hs as [(taken & queued & l & Hl)|(_ & _ & Hm & Hf)]; [| |done].
  - by destruct (proj1 (l_main _ _ _ _ _ _ _ _ Hl)).
  - rewrite Hc in Hf. simpl in Hf. by rewrite app_nil_r in Hf.
Qed.

(** C33. Results reach the sink in submission order and at most once, and all of them if the worker is
    not stopped. In every interleaving of the two threads the results delivered are a prefix, without
    gap or repetition, of the results of the accepted jobs served one after the other. Until [stop]
    is called, the threads can take a step as long as a result is outstanding, without further calls
    they take at most a number of steps bounded by the jobs accepted and the results outstanding
    (retries of a push on a full queue apart), and when they come to rest, and whenever the main
    thread is in its loop and the doorbell does not keep the loop alive, all results have been
    delivered. [stop] gives up what is not delivered by then. The thread of the worker has entered
    its loop; the script worker's may fail before that. *)
Theorem worker_delivers_in_order s : (0 < @fq_cap RQ Result FR)%nat ->
  kreachable serve i_cb r_cb r_done free_results (Worker_ctor sq rq (TWait w0)) s ->
  (exists taken rest, taken `prefix_of` accepted_jobs s /\
     (serve_all serve w0 taken).2 = delivered s ++ rest) /\
  (main s = MLoop -> ref_ s = false -> delivered s = (serve_all serve w0 (accepted_jobs s)).2) /\
  (runs s -> (exists s', progress serve r_cb r_done s s') \/
     main s = MLoop /\ delivered s = (serve_all serve w0 (accepted_jobs s)).2) /\
  (runs s -> forall n s', progresses serve r_cb r_done n s s' ->
     (n <= 2 * length (accepted_jobs s) + 6 * (length (serve_all serve w0 (accepted_jobs s)).2 - length (delivered s)) + 8)%nat).
Proof.
  intros Hc Hs. pose proof (fun H1 H2 => worker_all_delivered s Hs H1 H2) as Hall.
  apply worker_inv in Hs as [(taken & queued & l & Hl)|(_ & (taken & rest & Hp & Ho) & Hm & _)]; [| |done].
  2: { split; [|split; [done|]].
       - exists taken, (got (main s) ++ rest). by rewrite <- Ho.
       - split; intros [_ Hn]; by destruct Hn. }
  pose proof (l_output _ _ _ _ _ _ _ _ Hl : serve_all serve w0 taken = _) as Ho. pose proof (l_accepted _ _ _ _ _ _ _ _ Hl) as Ha.
  split; [|split; [done|split]].
  - eexists taken, _. rewrite Ha. split; [by apply prefix_app_r|]. by rewrite Ho.
  - intros Hr. edestruct (fun H0 => progress_enabled serve r_cb r_done (TWait w0) s taken queued l Hc H0 Hl Hr) as [?|(Hm & -> & -> & Ht)]; [done|by left|right].
    split; [done|]. rewrite Ha, app_nil_r, Ho, Hm, Ht. cbn. by rewrite app_nil_r.
  - intros _ n s' Hp. etrans; [exact (progresses_work _ _ _ _ serve_block caps_small _ _ _ _ Hp _ _ _ Hl)|].
    exact (work_bound _ _ _ _ _ _ _ _ Hl).
Qed.

(** The reference count of the doorbell is exact. Until the worker is stopped,
    [in_flight_] is the number of accepted jobs whose last result has not been delivered
    (it never overflows an int), the doorbell keeps the loop alive exactly while it is
    positive, and no wake-up is lost: results waiting while the main thread is in the loop
    have rung the doorbell or are about to. *)
Theorem worker_doorbell_exact s :
  kreachable serve i_cb r_cb r_done free_results (Worker_ctor sq rq (TWait w0)) s ->
  ~ stopped_main s ->
  in_flight_ s = Z.of_nat (length (accepted_jobs s)) - Z.of_nat (length (dones r_cb r_done (delivered s))) /\
  0 <= in_flight_ s <= caps (FS := FS) (FR := FR) + 2 /\
  (ref_ s = true <-> 0 < in_flight_ s) /\
  (main s = MLoop -> bell s = false -> (forall w rest, thread s <> TRing w rest) ->
   exists rq', fq_pop (result_queue_ s) = Ret (None, rq')).
Proof.
  intros Hs Hn. apply worker_inv in Hs as [(taken & queued & l & Hl)|(_ & _ & Hm & _)]; [|done|done].
  destruct (live_bound serve i_cb r_cb r_done serve_block _ _ _ _ _ Hl) as (_ & Hb & _).
  split; [apply Hl|]. split; [exact Hb|]. split.
  - by rewrite (l_ref _ _ _ _ _ _ _ _ Hl), bool_decide_eq_true.
  - intros Hm Hbell Ht. destruct (fq_pop_ok _ _ (l_res _ _ _ _ _ _ _ _ Hl)) as (q' & Hp & _).
    destruct l as [|r l]; [by eauto|].
    destruct (l_bell _ _ _ _ _ _ _ _ Hl Hm ltac:(done)) as [Hb'|(w & rest & Hr)];
      [by rewrite Hbell in Hb'|by destruct (Ht w rest)].
Qed.

(** Every callback reference a job took is released exactly once. While the worker runs
    the released ones are those of the finished jobs; when a stopped worker is done, also
    when [stop] was called from the callback of one of its results, they are those of all
    the jobs it ever accepted. *)
Theorem worker_frees_callbacks_once s :
  kreachable serve i_cb r_cb r_done free_results (Worker_ctor sq rq (TWait w0)) s ->
  (main s = MClosed -> freed s ≡ₚ i_cb <$> accepted_jobs s) /\
  (~ stopped_main s -> freed s = dones r_cb r_done (delivered s)).
Proof.
  intros Hs. split; [by apply (worker_freed (TWait w0))|]. intros Hn.
  apply worker_inv in Hs as [(taken & queued & l & Hl)|(_ & _ & Hm & _)]; [apply Hl|done|done].
Qed.

(** [stop] returns if the results still to be pushed fit into the result queue: from
    every state of its wait the worker thread can end and [stop] can complete. *)
Theorem worker_stop_returns s from :
  kreachable serve i_cb r_cb r_done free_results (Worker_ctor sq rq (TWait w0)) s ->
  main s = MJoin from ->
  (forall l, fq_repr (result_queue_ s) l ->
     length l + length (to_send (thread s)) <= @fq_cap RQ Result FR)%nat ->
  exists s', kreachable serve i_cb r_cb r_done free_results s s' /\ stopped_main s'.
Proof.
  intros Hs Hm Hroom. apply worker_inv in Hs as [(taken & queued & l & Hl)|(_ & _ & [Hc|[r Hc]] & _)];
    [|by rewrite Hm in Hc|by rewrite Hm in Hc|done].
  specialize (Hroom l (l_res _ _ _ _ _ _ _ _ Hl)). destruct (thread s) as [w|w rest|w rest|w] eqn:Ht.
  - by eapply join_wait.
  - by eapply join_send.
  - edestruct (join_send serve i_cb r_cb r_done free_results) as (s' & Hr & Hs');
      [by eapply live_ring|exact Hm|done|exact Hroom|].
    exists s'. split; [|done]. eapply kr_trans; [|exact Hr].
    eapply kr_step; [apply kr_start|by apply k_ring].
  - by eapply join_exited.
Qed.

(** [stop] can hang. Whatever the queue sizes, the script can submit jobs until the
    worker thread waits for room in the result queue; [stop] then blocks the only thread
    that empties that queue, and no continuation ever leaves its [uv_thread_join]. *)
Theorem worker_stop_hangs (item : Item) :
  (0 < @fq_cap SQ Item FS)%nat ->
  exists s, kreachable serve i_cb r_cb r_done free_results (Worker_ctor sq rq (TWait w0)) s /\
    forall s', kreachable serve i_cb r_cb r_done free_results s s' -> exists from, main s' = MJoin from.
Proof.
  intros Hc. edestruct (fill_results serve i_cb r_cb r_done free_results serve_block caps_small
    (TWait w0) (Worker_ctor sq rq (TWait w0)) item (@fq_cap RQ Result FR) Hc ltac:(lia))
    as (s & taken & l & w & r & rest & Hr & Hl & Hm & Ht & Hlen);
    [by eexists|done|by apply live_start|].
  assert (Hs : script_runs (main s) = true) by (by rewrite Hm).
  eexists. split; [eapply kr_step; [exact Hr|by apply k_stop]|].
  intros s' Hs'. apply stuck_forever in Hs'; [by destruct Hs' as (? & _)|].
  split_and!; simpl; [eauto|eauto|]. exists l. split; [apply Hl|done].
Qed.

(** A worker whose thread ended before its loop still accepts jobs and strands them. *)
Lemma worker_dead_thread_strands s :
  kreachable serve i_cb r_cb r_done free_results (Worker_ctor sq rq (TExited w0)) s ->
  delivered s = [] /\ (accepted_jobs s <> [] -> ~ stopped_main s -> ref_ s = true).
Proof.
  intros Hs. pose proof Hs as (_ & Hd & _)%dead_thread; [|done]. split; [done|]. intros Ha Hn.
  apply worker_inv in Hs as [(taken & queued & l & Hl)|(_ & _ & Hm & _)]; [|done|done].
  rewrite (l_ref _ _ _ _ _ _ _ _ Hl), (l_inflight _ _ _ _ _ _ _ _ Hl), Hd.
  apply bool_decide_eq_true. destruct (accepted_jobs s); [done|]. simpl. lia.
Qed.

End Properties.

(** ** Witnesses: a worker that echoes its jobs, over rings of four cells *)

#[local] Instance echo_fifo : FifoQueue (SPSCQueue nat) nat := ring_fifo 4 capacity4 ltac:(lia).

Definition echo (w : unit) (i : nat) : unit * list nat := (w, [i]).
Definition Echo := @Worker (SPSCQueue nat) (SPSCQueue nat) unit nat nat.
Definition ring_at (c : nat) (w r : Z) : SPSCQueue nat := mkQueue [c; 0; 0; 0]%nat w r.
Definition echo_start (t0 : thread_at unit nat) : Echo := Worker_ctor (ring_at 0 0 0) (ring_at 0 0 0) t0.

Definition echo_reaches : Echo -> Echo -> Prop := kreachable echo id id (fun _ => true) id.

Lemma echo_block w i : block id id (fun _ => true) i (echo w i).2.
Proof. exists [], i. by repeat constructor. Qed.

Lemma echo_free (w : unit) (items pre rs : list nat) :
  (serve_all echo w items).2 = pre ++ rs -> id rs ≡ₚ dones id (fun _ => true) rs.
Proof. intros H. rewrite <- (free_all_ok echo id w items pre rs H). by rewrite list_fmap_id. Qed.

Lemma echo_ring : fq_repr (ring_at 0 0 0) [].
Proof. by apply (ring_repr_new 4 capacity4). Qed.

Lemma echo_caps : caps (FS := echo_fifo) (FR := echo_fifo) + 3 < 2 ^ 31.
Proof. by vm_compute. Qed.

(** Job 7 has been submitted; it has been delivered; it was dropped by [stop]. *)
Definition echo_busy : Echo :=
  mkWorker (mkWork (ring_at 7 1 0) 1 false) (ring_at 0 0 0) 1 true false MLoop (TWait tt) [7%nat] [] [].
Definition echo_idle : Echo :=
  mkWorker (mkWork (ring_at 7 1 1) 0 false) (ring_at 7 1 1) 0 false false MLoop (TWait tt)
    [7%nat] [7%nat] [7%nat].
Definition echo_joining : Echo :=
  mkWorker (mkWork (ring_at 7 1 0) 2 true) (ring_at 0 0 0) 1 true false (MJoin None) (TWait tt) [7%nat] [] [].
Definition echo_closed : Echo :=
  mkWorker (mkWork (ring_at 7 1 1) 1 true) (ring_at 0 0 0) 1 true false MClosed (TExited tt)
    [7%nat] [] [7%nat].

Lemma echo_to_busy : echo_reaches (echo_start (TWait tt)) echo_busy.
Proof. eapply kr_step; [apply kr_start|]. by apply (k_enqueue _ _ _ _ _ _ 7%nat true). Qed.

(** One step of a run on concrete states, normalising the state reached. *)
Tactic Notation "kr_next" uconstr(step) :=
  eapply kr_fwd; [by eapply step|];
  match goal with |- context [kreachable _ _ _ _ _ ?s _] =>
    let s' := eval vm_compute in s in change s with s' end.

Lemma echo_to_idle : echo_reaches echo_busy echo_idle.
Proof.
  kr_next (k_take _ _ _ _ _ _ tt 7%nat).
  kr_next k_push. kr_next k_ring.
  kr_next k_next. kr_next k_wake.
  kr_next k_pop. kr_next k_deliver.
  kr_next k_empty. apply kr_start.
Qed.

Lemma echo_to_joining : echo_reaches echo_busy echo_joining.
Proof. kr_next k_stop. apply kr_start. Qed.

Lemma echo_to_closed : echo_reaches echo_joining echo_closed.
Proof.
  kr_next k_exit. kr_next k_join. apply kr_start.
Qed.

Lemma echo_from_start s : echo_reaches echo_busy s -> echo_reaches (echo_start (TWait tt)) s.
Proof. apply kr_trans, echo_to_busy. Qed.

Lemma worker_delivers_in_order_witness :
  delivered echo_idle = (serve_all echo tt (accepted_jobs echo_idle)).2 /\
  (exists s', progress echo id (fun _ => true) echo_busy s') /\
  (forall n s', progresses echo id (fun _ => true) n echo_busy s' -> n <= 16)%nat.
Proof.
  assert (0 < @fq_cap (SPSCQueue nat) nat echo_fifo)%nat as Hc by (vm_compute; lia).
  assert (runs echo_busy) as Hr by (split; [done|]; intros [H|[r H]]; discriminate H).
  destruct (worker_delivers_in_order echo id id _ id echo_block echo_caps echo_free _ _ tt echo_ring echo_ring
    echo_idle Hc (echo_from_start _ echo_to_idle)) as (_ & H1 & _).
  destruct (worker_delivers_in_order echo id id _ id echo_block echo_caps echo_free _ _ tt echo_ring echo_ring
    echo_busy Hc echo_to_busy) as (_ & _ & H2 & H3).
  split; [by apply H1|]. split; [destruct (H2 Hr) as [H|[_ H]]; [exact H|discriminate H]|exact (H3 Hr)].
Defined.

Lemma worker_doorbell_exact_witness : in_flight_ echo_busy = 1 - 0.
Proof.
  refine (proj1 (worker_doorbell_exact echo id id _ id echo_block echo_caps echo_free _ _ tt echo_ring
                  echo_ring echo_busy echo_to_busy _)).
  intros [H|[r H]]; discriminate H.
Defined.

Lemma worker_frees_callbacks_once_witness : freed echo_closed ≡ₚ id <$> accepted_jobs echo_closed.
Proof.
  exact (proj1 (worker_frees_callbacks_once echo id id _ id echo_block echo_caps echo_free _ _ tt echo_ring
    echo_ring echo_closed (echo_from_start _ (kr_trans _ _ _ _ _ _ _ _ echo_to_joining echo_to_closed)))
    eq_refl).
Defined.

Lemma worker_stop_returns_witness : exists s', echo_reaches echo_joining s' /\ stopped_main s'.
Proof.
  refine (worker_stop_returns echo id id _ id echo_block echo_caps echo_free _ _ tt echo_ring
    echo_ring echo_joining None (echo_from_start _ echo_to_joining) eq_refl _).
  intros l Hl. rewrite Nat.add_0_r. exact (fq_repr_cap _ _ Hl).
Defined.

Lemma worker_stop_hangs_witness :
  exists s, echo_reaches (echo_start (TWait tt)) s /\
    forall s', echo_reaches s s' -> exists from, main s' = MJoin from.
Proof.
  refine (worker_stop_hangs echo id id _ id echo_block echo_caps _ _ tt echo_ring echo_ring 7%nat _).
  vm_compute. lia.
Defined.
