(* ===== verification/CString.v ===== *)
(** The C and C++ string functions the sources call, on byte lists.

    A C string is the list of its bytes before the terminating NUL ([cstr] cuts a
    [std::string] at its first NUL the way [c_str()] is read by C functions). *)

From S2P Require Import Prelude.

(** The bytes a C function sees through [s.c_str()]. *)
Fixpoint cstr (s : list Z) : list Z :=
  match s with
  | [] => []
  | c :: s' => if c =? 0 then [] else c :: cstr s'
  end.

(** [tolower] in the C locale. *)
Definition tolower (c : Z) : Z := if (65 <=? c) && (c <=? 90) then c + 32 else c.

(** Whether [strncmp] (with [f] the identity) or [strncasecmp] (with [f := tolower])
    of the first [n] characters returns 0; past its end a string reads as NUL. *)
Fixpoint strn_eq (f : Z -> Z) (n : nat) (a b : list Z) : bool :=
  match n with
  | O => true
  | S n' =>
      let ca := default 0 (head a) in
      let cb := default 0 (head b) in
      if negb (f ca =? f cb) then false
      else if ca =? 0 then true
      else strn_eq f n' (tail a) (tail b)
  end.

Definition strncmp0 (a b : list Z) (n : nat) : bool := strn_eq id n a b.
Definition strncasecmp0 (a b : list Z) (n : nat) : bool := strn_eq tolower n a b.

(** [strcasestr(hay, needle) != nullptr]. *)
Fixpoint strcasestr (hay needle : list Z) : bool :=
  strncasecmp0 hay needle (length needle) ||
  match hay with
  | [] => false
  | _ :: hay' => strcasestr hay' needle
  end.

(** [strrchr(s, c)] as an index into [s]. *)
Fixpoint strrchr (s : list Z) (c : Z) : option nat :=
  match s with
  | [] => None
  | x :: s' =>
      match strrchr s' c with
      | Some i => Some (S i)
      | None => if x =? c then Some 0%nat else None
      end
  end.

(** ** Facts *)

Lemma cstr_no_nul s : (0 ∉ s) -> cstr s = s.
Proof.
  induction s as [|c s IH]; [done|]. intros [Hc Hs]%not_elem_of_cons. simpl.
  bool_case; reflect_bools; [done|]. by rewrite IH.
Qed.

Lemma length_cstr s : (length (cstr s) <= length s)%nat.
Proof. induction s; simpl; [lia|]. bool_case; simpl; lia. Qed.

Lemma cstr_full s : (length s <= length (cstr s))%nat -> cstr s = s.
Proof.
  induction s as [|c s IH]; [done|]. simpl. bool_case; simpl; [lia|].
  intros. rewrite IH by lia. done.
Qed.

Lemma strn_eq_spec f n a b :
  (forall c, f c = f 0 -> c = 0) -> (0 ∉ b) -> length b = n ->
  strn_eq f n a b = true <-> f <$> take n a = f <$> b.
Proof.
  intros Hf. revert a b. induction n as [|n IH]; intros a b Hb Hl.
  - destruct b; [|done]. by rewrite take_0.
  - destruct b as [|y b]; [done|]. apply not_elem_of_cons in Hb as [Hy Hb].
    injection Hl as Hl. simpl. destruct a as [|x a]; simpl.
    + destruct (f 0 =? f y) eqn:E; simpl; [|done].
      apply Z.eqb_eq in E. symmetry in E. apply Hf in E. done.
    + destruct (f x =? f y) eqn:E; simpl; reflect_bools.
      * destruct (x =? 0) eqn:E0; reflect_bools.
        { subst. symmetry in E. apply Hf in E. done. }
        rewrite (IH a b Hb Hl), E. split; [intros Ht; by f_equal|by intros [= Ht]].
      * split; [done|]. by intros [= ?].
Qed.

Lemma tolower_0 c : tolower c = tolower 0 -> c = 0.
Proof. unfold tolower. simpl. bool_case; intros; reflect_bools; lia. Qed.

(** [strncmp(a, b, strlen(b)) == 0] holds exactly when [b] is a prefix of [a]. *)
Lemma strncmp0_prefix a b : (0 ∉ b) -> strncmp0 a b (length b) = true <-> b `prefix_of` a.
Proof.
  intros Hb. unfold strncmp0. rewrite strn_eq_spec by done. rewrite !list_fmap_id. split.
  - intros Ht. exists (drop (length b) a). rewrite <- Ht at 1. by rewrite take_drop.
  - intros [k ->]. by rewrite take_app_length.
Qed.

Lemma strncasecmp0_prefix a b : (0 ∉ b) ->
  strncasecmp0 a b (length b) = true <-> (tolower <$> b) `prefix_of` (tolower <$> a).
Proof.
  intros Hb. unfold strncasecmp0. rewrite strn_eq_spec by (done || apply tolower_0).
  split.
  - intros Ht. exists (tolower <$> drop (length b) a).
    rewrite <- Ht, <- fmap_app, take_drop. done.
  - intros [k Hk]. rewrite fmap_take, Hk, take_app_le, take_ge by (rewrite length_fmap; lia).
    done.
Qed.

Lemma strcasestr_spec hay needle : (0 ∉ needle) ->
  strcasestr hay needle = true <->
  exists pre post, tolower <$> hay = pre ++ (tolower <$> needle) ++ post.
Proof.
  intros Hn. induction hay as [|x hay IH]; cbn [strcasestr]; rewrite ?fmap_cons;
    rewrite orb_true_iff, strncasecmp0_prefix by done.
  - split.
    + intros [[k Hk]|?]; [|done]. by exists [], k.
    + intros (pre & post & He). left. destruct pre; [|done]. by exists post.
  - rewrite IH. split.
    + intros [[k Hk]|(pre & post & He)]; [by exists [], k|].
      exists (tolower x :: pre), post. by rewrite He.
    + intros ([|y pre] & post & He); [left; by exists post|right].
      injection He as _ He. eauto.
Qed.

Lemma strrchr_Some s c i :
  strrchr s c = Some i <-> exists s1 s2, s = s1 ++ c :: s2 /\ length s1 = i /\ c ∉ s2.
Proof.
  revert i. induction s as [|x s IH]; intros i; simpl.
  - split; [done|]. intros ([|? ?] & ? & ? & _); done.
  - destruct (strrchr s c) as [j|] eqn:E.
    + split.
      * intros [= <-]. destruct (proj1 (IH j) eq_refl) as (s1 & s2 & -> & <- & ?).
        by exists (x :: s1), s2.
      * intros ([|y s1] & s2 & He & Hl & Hni); injection He as -> He; subst.
        { exfalso. destruct (proj1 (IH j) eq_refl) as (t1 & t2 & Ht & _).
          apply Hni. rewrite Ht. set_solver. }
        simpl. do 2 f_equal. apply (inj Some). apply IH. eauto.
    + assert (c ∉ s) as Hni.
      { intros Hin. apply list_elem_of_split in Hin as (t1 & t2 & Ht).
        assert (exists k, strrchr s c = Some k) as [k Hk]; [|congruence].
        clear -Ht. revert t1 Ht. induction s as [|y s IH]; intros [|z t1] Ht; try done; simpl.
        - injection Ht as -> ->. destruct (strrchr t2 c); [eauto|]. rewrite Z.eqb_refl. eauto.
        - injection Ht as -> ->. destruct (IH t1 eq_refl) as [k ->]. eauto. }
      bool_case; reflect_bools; split; try done.
      * intros [= <-]. subst. by exists [], s.
      * intros ([|y s1] & s2 & He & Hl & ?); injection He as -> He; subst; [done|].
        exfalso. apply Hni. set_solver.
      * intros ([|y s1] & s2 & He & Hl & ?); injection He as -> He; subst; [done|].
        exfalso. apply Hni. set_solver.
Qed.

Lemma strrchr_app s1 s2 c :
  strrchr (s1 ++ s2) c =
    match strrchr s2 c with
    | Some j => Some (length s1 + j)%nat
    | None => strrchr s1 c
    end.
Proof.
  induction s1 as [|x s1 IH]; simpl; [by destruct (strrchr s2 c)|].
  rewrite IH. by destruct (strrchr s2 c).
Qed.

Lemma strrchr_None s c : strrchr s c = None <-> c ∉ s.
Proof.
  split.
  - intros Hn Hin. apply list_elem_of_split in Hin as (t1 & t2 & ->).
    rewrite strrchr_app in Hn. simpl in Hn. rewrite Z.eqb_refl in Hn.
    by destruct (strrchr t2 c).
  - intros Hn. destruct (strrchr s c) as [i|] eqn:E; [|done].
    apply strrchr_Some in E as (s1 & s2 & -> & _). set_solver.
Qed.
