(* ===== verification/CpuWorkers.v ===== *)
(** The three kinds of CPU workers: what each computes for a job.

    - Fibonacci: src/workers/fib_worker.cc, [compute_fib] and [run];
    - JavaScript: src/workers/js_worker.cc, [run]; the [process] function of the worker
      script is a parameter;
    - inference: src/workers/inference_worker.cc, [get_or_create_ctx], [send_error],
      [run_inference] and the clean-up of [stop]; llama.cpp is the parameter [Llama].

    Each is a [serve] function for [Worker]; the interface it has to meet ([block] and the
    clean-up of undelivered results) is proved here, so that the theorems on the threads
    and queues hold for all three. *)

From S2P Require Import Prelude SpscQueue WorkQueue CString Worker.

(** ** Fibonacci workers *)

Record FibJob := mkFibJob { fj_job_id : Z; fj_value : Z }.
Record WorkItem := mkWorkItem { wi_job : FibJob; wi_callback : nat }.
Record FibResult := mkFibResult { fr_job_id : Z; fr_result : Z; fr_error : Z; fr_callback : nat }.

Fixpoint compute_fib (n : nat) : Z :=
  match n with
  | O => 0
  | S n' => match n' with O => 1 | S n'' => u64 (compute_fib n' + compute_fib n'') end
  end.

(** One turn of the loop of [FibonacciWorker::run]. *)
Definition fib_run (w : unit) (item : WorkItem) : unit * list FibResult :=
  (w, [mkFibResult (fj_job_id (wi_job item)) (compute_fib (Z.to_nat (fj_value (wi_job item)))) 0
         (wi_callback item)]).

(** ** JavaScript workers *)

Record JSJob := mkJSJob { jj_job_id : Z; jj_input_json : list Z }.
Record JSWorkItem := mkJSWorkItem { jw_job : JSJob; jw_callback : nat }.
Record JSResult := mkJSResult {
  jr_job_id : Z; jr_output_json : list Z; jr_error : Z; jr_error_msg : list Z; jr_callback : nat }.

(** What [JS_Call] of the worker's [process] returned, and the text [JS_ToCString] gave
    for the value or the exception ([None] is a null pointer). *)
Inductive js_answer := Returned (out : option (list Z)) | Threw (msg : option (list Z)).

Definition unknown_error : list Z := bytes_of_string "unknown error".

Section JSWorker.
Context {J : Type} (process : J -> list Z -> J * js_answer).

(** One turn of the loop of [JSWorker::run]. *)
Definition js_run (ctx : J) (item : JSWorkItem) : J * list JSResult :=
  let '(ctx', ret) := process ctx (cstr (jj_input_json (jw_job item))) in
  (ctx',
   [match ret with
    | Threw msg => mkJSResult (jj_job_id (jw_job item)) [] 1 (default unknown_error msg) (jw_callback item)
    | Returned out => mkJSResult (jj_job_id (jw_job item)) (default [] out) 0 [] (jw_callback item)
    end]).

(** The part of [JSWorker::run] before its loop: the thread ends at once when the script
    is missing or empty, throws, or defines no function [process]. *)
Definition js_thread_start (source : list Z) (eval_throws has_process : bool) (ctx : J) :
    thread_at J JSResult :=
  if bool_decide (source = []) then TExited ctx
  else if eval_throws then TExited ctx
  else if has_process then TWait ctx else TExited ctx.

End JSWorker.

(** ** Inference workers *)

Record InfJob := mkInfJob {
  ij_job_id : Z; ij_model_class : list Z; ij_session_id : list Z; ij_client_id : list Z; ij_prompt : list Z }.
Record InfWorkItem := mkInfWorkItem { iw_job : InfJob; iw_callback : nat }.
Record InfResult := mkInfResult {
  ir_job_id : Z; ir_token : list Z; ir_is_done : bool; ir_error : Z; ir_callback : nat }.

Definition TOKEN_GEN_MAX : nat := 512.

(** [snprintf(buf, size, "%s", s)]: the bytes the buffer holds afterwards. *)
Definition snprintf_s (size : nat) (s : list Z) : list Z := take (size - 1) (cstr s).

(** What the worker uses of llama.cpp, per model class. *)
Record Llama (L : Type) := mkLlama {
  llama_init_from_model : L -> list Z -> L * bool;
  llama_tokenize : list Z -> list Z -> option (list Z);   (* [None]: a negative count *)
  llama_memory_clear : L -> list Z -> L;
  llama_sampler_reset : L -> list Z -> L;
  llama_decode : L -> list Z -> list Z -> L * bool;       (* [true]: returned 0 *)
  llama_sampler_sample : L -> list Z -> L * Z;
  llama_sampler_accept : L -> list Z -> Z -> L;
  llama_is_eog : list Z -> Z -> bool;
  llama_token_to_piece : list Z -> Z -> list Z
}.
Arguments llama_init_from_model {L} l.
Arguments llama_tokenize {L} l.
Arguments llama_decode {L} l.
Arguments llama_memory_clear {L} l.
Arguments llama_sampler_reset {L} l.
Arguments llama_sampler_sample {L} l.
Arguments llama_sampler_accept {L} l.
Arguments llama_is_eog {L} l.
Arguments llama_token_to_piece {L} l.

Definition msg_no_model : list Z := bytes_of_string "model not available".
Definition msg_tokenize : list Z := bytes_of_string "tokenize failed".
Definition msg_prompt : list Z := bytes_of_string "prompt eval failed".

Section InferenceWorker.
(** [models_] of the manager, which does not change once the workers run. *)
Context {L : Type} (llama : Llama L) (models_ : gset (list Z)).

(** The state of the thread: llama.cpp's, and the classes with a cached context. *)
Record InfThread := mkInfThread { it_llama : L; ctxs_ : gset (list Z) }.

Definition get_or_create_ctx (w : InfThread) (cls : list Z) : InfThread * bool :=
  if decide (cls ∈ ctxs_ w) then (w, true)
  else if decide (cls ∈ models_) then
    let '(l, ok) := llama_init_from_model llama (it_llama w) cls in
    if ok : bool then (mkInfThread l ({[cls]} ∪ ctxs_ w), true) else (mkInfThread l (ctxs_ w), false)
  else (w, false).

Definition send_error (job_id : Z) (callback : nat) (msg : list Z) : InfResult :=
  mkInfResult job_id (snprintf_s 64 msg) true 1 callback.

(** The generation loop with [k] turns left; the flag returned is [sent_done]. *)
Fixpoint token_loop (k : nat) (sent_done : bool) (job_id : Z) (cls : list Z) (cb : nat) (l : L) :
    L * list InfResult * bool :=
  match k with
  | O => (l, [], sent_done)
  | S k' =>
      let '(l0, token_id) := llama_sampler_sample llama l cls in
      let l1 := llama_sampler_accept llama l0 cls token_id in
      let is_eog := llama_is_eog llama cls token_id in
      let is_last := is_eog || Nat.eqb k' 0 in
      let piece := if is_eog then [] else take 255 (llama_token_to_piece llama cls token_id) in
      let result := mkInfResult job_id (snprintf_s 64 piece) is_last 0 cb in
      if is_last then (l1, [result], is_last)
      else
        let '(l2, ok) := llama_decode llama l1 cls [token_id] in
        if ok : bool then
          let '(l3, rs, d) := token_loop k' is_last job_id cls cb l2 in (l3, result :: rs, d)
        else (l2, [result], is_last)
  end.

Definition run_inference (w : InfThread) (item : InfWorkItem) : InfThread * list InfResult :=
  let job := iw_job item in
  let cb := iw_callback item in
  let cls := ij_model_class job in
  let '(w1, have_ctx) := get_or_create_ctx w cls in
  if negb have_ctx then (w1, [send_error (ij_job_id job) cb msg_no_model])
  else
    match llama_tokenize llama cls (ij_prompt job) with
    | None => (w1, [send_error (ij_job_id job) cb msg_tokenize])
    | Some tokens =>
        let l1 := llama_sampler_reset llama (llama_memory_clear llama (it_llama w1) cls) cls in
        let '(l2, ok) := llama_decode llama l1 cls tokens in
        if negb ok then (mkInfThread l2 (ctxs_ w1), [send_error (ij_job_id job) cb msg_prompt])
        else
          let '(l3, rs, sent_done) := token_loop TOKEN_GEN_MAX false (ij_job_id job) cls cb l2 in
          (mkInfThread l3 (ctxs_ w1),
           if sent_done then rs else rs ++ [mkInfResult (ij_job_id job) [] true 0 cb])
    end.

End InferenceWorker.

(** The loop of [InferenceWorker::stop] over the result queue: the callbacks it frees, the
    last ones in the order in which [mid_stream] is iterated. *)
Fixpoint free_mid_stream (mid_stream : gmap Z nat) (rs : list InfResult) : list nat :=
  match rs with
  | [] => (map_to_list mid_stream).*2
  | r :: rs' =>
      if ir_is_done r then ir_callback r :: free_mid_stream (delete (ir_job_id r) mid_stream) rs'
      else free_mid_stream (<[ir_job_id r := ir_callback r]> mid_stream) rs'
  end.

(** ** The results of one job *)

Fixpoint fib (n : nat) : Z * Z :=
  match n with O => (0, 1) | S n' => let '(a, b) := fib n' in (b, a + b) end.

Lemma compute_fib_spec n :
  compute_fib n = u64 (fib n).1 /\ compute_fib (S n) = u64 (fib n).2.
Proof.
  induction n as [|n [IH1 IH2]]; [done|]. split.
  - rewrite IH2. simpl. by destruct (fib n).
  - change (compute_fib (S (S n))) with (u64 (compute_fib (S n) + compute_fib n)).
    rewrite IH1, IH2. simpl. destruct (fib n) as [a b]. unfold u64, wrap. simpl.
    rewrite <- Z.add_mod by done. f_equal. lia.
Qed.

Lemma fib_mono n m : (n <= m)%nat -> 0 <= (fib n).1 <= (fib m).1 /\ 0 < (fib m).2 /\ (fib m).1 <= (fib m).2.
Proof.
  induction 1 as [|m Hm IH].
  - induction n as [|n IH]; [simpl; lia|]. simpl in *. destruct (fib n). simpl in *. lia.
  - simpl in *. destruct (fib m). simpl in *. lia.
Qed.

Lemma fib_run_block w i : block wi_callback fr_callback (fun _ => true) i (fib_run w i).2.
Proof. exists [], (List.hd (mkFibResult 0 0 0 0) (fib_run w i).2). by repeat constructor. Qed.

Lemma js_run_block {J} (process : J -> list Z -> J * js_answer) ctx i :
  block jw_callback jr_callback (fun _ => true) i (js_run process ctx i).2.
Proof.
  unfold js_run. destruct (process _ _) as [ctx' [out|msg]]; eexists [], _; by repeat constructor.
Qed.

Section InferenceFacts.
Context {L : Type} (llama : Llama L) (models_ : gset (list Z)).

(** A run of tokens of one job, the last of which is marked done iff [d]. *)
Definition token_run (job_id : Z) (cb : nat) (d : bool) (rs : list InfResult) : Prop :=
  Forall (fun r => ir_job_id r = job_id /\ ir_callback r = cb /\ (length (ir_token r) <= 63)%nat) rs /\
  if d then exists ts r, rs = ts ++ [r] /\ ir_is_done r = true /\ Forall (fun t => ir_is_done t = false) ts
  else Forall (fun t => ir_is_done t = false) rs.

Lemma snprintf_s_length n s : (length (snprintf_s n s) <= n - 1)%nat.
Proof. unfold snprintf_s. rewrite length_take. lia. Qed.

Lemma one_token job_id cb d err text rs :
  Forall (fun r => ir_job_id r = job_id /\ ir_callback r = cb /\ (length (ir_token r) <= 63)%nat) rs ->
  Forall (fun r => ir_job_id r = job_id /\ ir_callback r = cb /\ (length (ir_token r) <= 63)%nat)
    (mkInfResult job_id (snprintf_s 64 text) d err cb :: rs).
Proof. intros H. constructor; [|done]. split_and!; [done..|apply (snprintf_s_length 64)]. Qed.

Lemma token_loop_run k job_id cls cb l l' rs d :
  token_loop llama (S k) false job_id cls cb l = (l', rs, d) ->
  token_run job_id cb d rs /\ (length rs <= if d then S k else k)%nat.
Proof.
  revert l l' rs d. induction k as [|k IH]; intros l l' rs d.
  2: remember (S k) as n eqn:Hn.
  all: cbn [token_loop]; destruct (llama_sampler_sample llama l cls) as [l0 tok];
    destruct (llama_is_eog llama cls tok) eqn:Eog; rewrite ?Hn; cbn [orb Nat.eqb]; rewrite <- ?Hn.
  1-3: intros [= <- <- <-]; split; [|simpl; lia]; split;
      [by apply one_token|eexists [], _; by repeat constructor].
  destruct (llama_decode llama _ cls [tok]) as [l2 ok]. destruct ok.
  - destruct (token_loop llama n false job_id cls cb l2) as [[l3 rs3] d3] eqn:E.
    intros [= <- <- <-]. destruct (IH _ _ _ _ E) as [[Ha Hd] Hlen].
    split; [|simpl; destruct d3; lia]. split.
    + by apply one_token.
    + destruct d3; [|by constructor]. destruct Hd as (ts & r & -> & Hr & Hts).
      eexists (_ :: ts), r. split; [done|]. split; [done|]. by constructor.
  - intros [= <- <- <-]. split; [|simpl; lia]. split; [by apply one_token|by repeat constructor].
Qed.

Lemma run_inference_run w item :
  token_run (ij_job_id (iw_job item)) (iw_callback item) true (run_inference llama models_ w item).2 /\
  (length (run_inference llama models_ w item).2 <= TOKEN_GEN_MAX)%nat.
Proof.
  assert (Herr : forall msg, token_run (ij_job_id (iw_job item)) (iw_callback item) true
            [send_error (ij_job_id (iw_job item)) (iw_callback item) msg]).
  { intros msg. split; [by apply one_token|].
    eexists [], _. by repeat constructor. }
  unfold run_inference. destruct (get_or_create_ctx llama models_ w _) as [w1 []]; cbn [negb];
    [|split; [apply Herr|unfold TOKEN_GEN_MAX; simpl length; lia]].
  destruct (llama_tokenize llama _ _); [|split; [apply Herr|unfold TOKEN_GEN_MAX; simpl length; lia]].
  destruct (llama_decode llama _ _ _) as [l2 []]; cbn [negb]; [|split; [apply Herr|unfold TOKEN_GEN_MAX; simpl length; lia]].
  destruct (token_loop llama TOKEN_GEN_MAX false _ _ _ l2) as [[l3 rs] d] eqn:E.
  apply (token_loop_run 511) in E as [[Ha Hd] Hlen]. destruct d; cbn [snd]; [done|]. split.
  - split; [apply list.Forall_app; split; [done|by apply (one_token _ _ _ _ [])]|].
    eexists rs, _. done.
  - rewrite length_app. simpl in *. unfold TOKEN_GEN_MAX. lia.
Qed.

Lemma run_inference_block w i :
  block iw_callback ir_callback ir_is_done i (run_inference llama models_ w i).2.
Proof.
  destruct (run_inference_run w i) as [[Ha (ts & r & Hrs & Hr & Hts)] _].
  exists ts, r. split_and!; [done..|]. eapply list.Forall_impl; [exact Ha|]. by intros ? (_ & ? & _).
Qed.

Lemma free_mid_block mid ts r rs :
  delete (ir_job_id r) mid = ∅ -> ir_is_done r = true ->
  Forall (fun t => ir_is_done t = false /\ ir_job_id t = ir_job_id r) ts ->
  free_mid_stream mid (ts ++ r :: rs) = ir_callback r :: free_mid_stream ∅ rs.
Proof.
  intros Hmid Hr Hts. revert mid Hmid. induction Hts as [|t ts [Ht Hid] _ IH]; intros mid Hmid; simpl.
  - by rewrite Hr, Hmid.
  - rewrite Ht, Hid. apply IH. by rewrite delete_insert_eq.
Qed.

Lemma free_mid_ok w items pre rs :
  (serve_all (run_inference llama models_) w items).2 = pre ++ rs ->
  free_mid_stream ∅ rs = dones ir_callback ir_is_done rs.
Proof.
  revert w pre rs. induction items as [|i items IH]; intros w pre rs Hs; simpl in Hs.
  { apply eq_sym, app_eq_nil in Hs as [_ ->]. done. }
  destruct (run_inference_run w i) as [[Ha (ts & r & Hrs & Hr & Hts)] _].
  destruct (run_inference llama models_ w i) as [w1 rs1]. specialize (IH w1).
  destruct (serve_all _ w1 items) as [w2 rs2]. simpl in *. subst rs1.
  apply app_eq_inv in Hs as [(k & Hk & ->)|(k & -> & ->)]; [|by apply (IH k)].
  destruct k as [|r' k _] using rev_ind; [by apply (IH [])|].
  rewrite app_assoc in Hk. apply app_inj_tail in Hk as [-> <-].
  rewrite <- app_assoc. simpl. rewrite list.Forall_app in Ha, Hts.
  destruct Ha as [[Ha Hb]%list.Forall_app Hc]. destruct Hts as [_ Hk].
  inversion Hc as [|? ? (Hid & _) _]; subst.
  rewrite free_mid_block; [|by apply delete_empty|done|].
  - rewrite (IH [] rs2 eq_refl). change (r :: rs2) with ([r] ++ rs2).
    rewrite !dones_app, dones_one, Hr. by rewrite (dones_none _ _ k).
  - apply list.Forall_and. split; [done|]. eapply list.Forall_impl; [exact Hb|].
    intros t (Ht & _). congruence.
Qed.

End InferenceFacts.

(** ** The workers with their queues *)

(** [QUEUE_DEPTH] and [RESULT_QUEUE_DEPTH] of the three classes. *)
Definition FIB_QUEUE_DEPTH : Z := 64.
Definition FIB_RESULT_QUEUE_DEPTH : Z := 64.
Definition JS_QUEUE_DEPTH : Z := 32.
Definition JS_RESULT_QUEUE_DEPTH : Z := 32.
Definition INF_QUEUE_DEPTH : Z := 64.
Definition INF_RESULT_QUEUE_DEPTH : Z := 256.

Lemma depth_ok N : (Z.land N (N - 1) =? 0) = true -> (1 <? N) = true -> (N <=? 2 ^ 64) = true ->
  capacity_ok N /\ N <= 2 ^ 64.
Proof. unfold capacity_ok. lia. Qed.

(** A queue of depth [N]; the cells hold [d] before any push. *)
Definition depth_fifo (N : Z) (T : Type) (H : capacity_ok N /\ N <= 2 ^ 64) : FifoQueue (SPSCQueue T) T :=
  ring_fifo N (proj1 H) (proj2 H).

#[export] Instance fib_sub : FifoQueue (SPSCQueue WorkItem) WorkItem :=
  depth_fifo FIB_QUEUE_DEPTH _ (depth_ok FIB_QUEUE_DEPTH eq_refl eq_refl eq_refl).
#[export] Instance fib_res : FifoQueue (SPSCQueue FibResult) FibResult :=
  depth_fifo FIB_RESULT_QUEUE_DEPTH _ (depth_ok FIB_RESULT_QUEUE_DEPTH eq_refl eq_refl eq_refl).
#[export] Instance js_sub : FifoQueue (SPSCQueue JSWorkItem) JSWorkItem :=
  depth_fifo JS_QUEUE_DEPTH _ (depth_ok JS_QUEUE_DEPTH eq_refl eq_refl eq_refl).
#[export] Instance js_res : FifoQueue (SPSCQueue JSResult) JSResult :=
  depth_fifo JS_RESULT_QUEUE_DEPTH _ (depth_ok JS_RESULT_QUEUE_DEPTH eq_refl eq_refl eq_refl).
#[export] Instance inf_sub : FifoQueue (SPSCQueue InfWorkItem) InfWorkItem :=
  depth_fifo INF_QUEUE_DEPTH _ (depth_ok INF_QUEUE_DEPTH eq_refl eq_refl eq_refl).
#[export] Instance inf_res : FifoQueue (SPSCQueue InfResult) InfResult :=
  depth_fifo INF_RESULT_QUEUE_DEPTH _ (depth_ok INF_RESULT_QUEUE_DEPTH eq_refl eq_refl eq_refl).

Definition FibonacciWorker := @Worker (SPSCQueue WorkItem) (SPSCQueue FibResult) unit WorkItem FibResult.
Definition JSWorker J := @Worker (SPSCQueue JSWorkItem) (SPSCQueue JSResult) J JSWorkItem JSResult.
Definition InferenceWorker L :=
  @Worker (SPSCQueue InfWorkItem) (SPSCQueue InfResult) (@InfThread L) InfWorkItem InfResult.

Definition FibonacciWorker_ctor (di : WorkItem) (dr : FibResult) : FibonacciWorker :=
  Worker_ctor (SPSCQueue_ctor FIB_QUEUE_DEPTH di) (SPSCQueue_ctor FIB_RESULT_QUEUE_DEPTH dr) (TWait tt).
Definition JSWorker_ctor {J} (di : JSWorkItem) (dr : JSResult) (t0 : thread_at J JSResult) : JSWorker J :=
  Worker_ctor (SPSCQueue_ctor JS_QUEUE_DEPTH di) (SPSCQueue_ctor JS_RESULT_QUEUE_DEPTH dr) t0.
Definition InferenceWorker_ctor {L} (di : InfWorkItem) (dr : InfResult) (l : L) : InferenceWorker L :=
  Worker_ctor (SPSCQueue_ctor INF_QUEUE_DEPTH di) (SPSCQueue_ctor INF_RESULT_QUEUE_DEPTH dr)
    (TWait (mkInfThread l ∅)).

Definition fib_reaches : FibonacciWorker -> FibonacciWorker -> Prop :=
  kreachable fib_run wi_callback fr_callback (fun _ => true) (fmap fr_callback).
Definition js_reaches {J} (process : J -> list Z -> J * js_answer) : JSWorker J -> JSWorker J -> Prop :=
  kreachable (js_run process) jw_callback jr_callback (fun _ => true) (fmap jr_callback).
Definition inference_reaches {L} (llama : Llama L) models_ : InferenceWorker L -> InferenceWorker L -> Prop :=
  kreachable (run_inference llama models_) iw_callback ir_callback ir_is_done (free_mid_stream ∅).

Lemma fib_caps : caps (FS := fib_sub) (FR := fib_res) + 3 < 2 ^ 31.
Proof. by vm_compute. Qed.

Lemma js_caps : caps (FS := js_sub) (FR := js_res) + 3 < 2 ^ 31.
Proof. by vm_compute. Qed.

Lemma inf_caps : caps (FS := inf_sub) (FR := inf_res) + 3 < 2 ^ 31.
Proof. by vm_compute. Qed.

Lemma depth_new (N : Z) (T : Type) H (d : T) : @fq_repr _ _ (depth_fifo N T H) (SPSCQueue_ctor N d) [].
Proof. apply (ring_repr_new N (proj1 H)). Qed.

Lemma fib_sub_new d : @fq_repr _ _ fib_sub (SPSCQueue_ctor FIB_QUEUE_DEPTH d) [].
Proof. exact (depth_new FIB_QUEUE_DEPTH _ (depth_ok FIB_QUEUE_DEPTH eq_refl eq_refl eq_refl) d). Qed.

Lemma fib_res_new d : @fq_repr _ _ fib_res (SPSCQueue_ctor FIB_RESULT_QUEUE_DEPTH d) [].
Proof. exact (depth_new FIB_RESULT_QUEUE_DEPTH _ (depth_ok FIB_RESULT_QUEUE_DEPTH eq_refl eq_refl eq_refl) d). Qed.

Lemma js_sub_new d : @fq_repr _ _ js_sub (SPSCQueue_ctor JS_QUEUE_DEPTH d) [].
Proof. exact (depth_new JS_QUEUE_DEPTH _ (depth_ok JS_QUEUE_DEPTH eq_refl eq_refl eq_refl) d). Qed.

Lemma js_res_new d : @fq_repr _ _ js_res (SPSCQueue_ctor JS_RESULT_QUEUE_DEPTH d) [].
Proof. exact (depth_new JS_RESULT_QUEUE_DEPTH _ (depth_ok JS_RESULT_QUEUE_DEPTH eq_refl eq_refl eq_refl) d). Qed.

Lemma inf_sub_new d : @fq_repr _ _ inf_sub (SPSCQueue_ctor INF_QUEUE_DEPTH d) [].
Proof. exact (depth_new INF_QUEUE_DEPTH _ (depth_ok INF_QUEUE_DEPTH eq_refl eq_refl eq_refl) d). Qed.

Lemma inf_res_new d : @fq_repr _ _ inf_res (SPSCQueue_ctor INF_RESULT_QUEUE_DEPTH d) [].
Proof. exact (depth_new INF_RESULT_QUEUE_DEPTH _ (depth_ok INF_RESULT_QUEUE_DEPTH eq_refl eq_refl eq_refl) d). Qed.

(** ** Properties *)

(** A Fibonacci worker answers every job, in order, with the Fibonacci number modulo
    2^64: once the worker no longer keeps the loop alive, the results delivered are those
    of all accepted jobs. The numbers are exact up to index 93. *)
Theorem fib_worker_correct di dr s :
  fib_reaches (FibonacciWorker_ctor di dr) s -> main s = MLoop -> ref_ s = false ->
  delivered s = (fun i => mkFibResult (fj_job_id (wi_job i)) (u64 (fib (Z.to_nat (fj_value (wi_job i)))).1)
                            0 (wi_callback i)) <$> accepted_jobs s /\
  forall n, (n <= 93)%nat -> u64 (fib n).1 = (fib n).1.
Proof.
  intros Hs Hm Hr. split.
  - rewrite (worker_all_delivered fib_run wi_callback fr_callback (fun _ => true) (fmap fr_callback)
      fib_run_block fib_caps (free_all_ok fib_run fr_callback) _ _ tt (fib_sub_new di)
      (fib_res_new dr) s Hs Hm Hr). clear.
    induction (accepted_jobs s) as [|i l IH]; [done|]. simpl.
    destruct (serve_all fib_run tt l) as [w2 rs]. simpl in *. rewrite IH. f_equal. f_equal.
    apply compute_fib_spec.
  - intros n Hn. destruct (fib_mono n 93 Hn) as (Hb & _). apply wrap_small. unfold uint_ok.
    assert ((fib 93).1 < 2 ^ 64) by (by vm_compute). lia.
Qed.

(** Every inference job ends with exactly one final result, its last one, after at most
    [TOKEN_GEN_MAX] results; all carry the job's id and callback and fit the token buffer. *)
Theorem inference_results {L} (llama : Llama L) models_ w item :
  let rs := (run_inference llama models_ w item).2 in
  (exists ts r, rs = ts ++ [r] /\ ir_is_done r = true /\ Forall (fun t => ir_is_done t = false) ts) /\
  (length rs <= TOKEN_GEN_MAX)%nat /\
  Forall (fun r => ir_job_id r = ij_job_id (iw_job item) /\ ir_callback r = iw_callback item /\
                   (length (ir_token r) <= 63)%nat) rs.
Proof. simpl. by destruct (run_inference_run llama models_ w item) as [[Ha Hd] Hl]. Qed.

(** [InferenceWorker::stop] frees the callback of every job exactly once, also for jobs
    cut off in the middle of their stream, whose results share one reference. *)
Theorem inference_stop_frees_once {L} (llama : Llama L) models_ di dr l s :
  inference_reaches llama models_ (InferenceWorker_ctor di dr l) s -> main s = MClosed ->
  freed s ≡ₚ iw_callback <$> accepted_jobs s.
Proof.
  intros Hs Hm. refine (worker_freed (run_inference llama models_) iw_callback ir_callback ir_is_done
    (free_mid_stream ∅) (run_inference_block llama models_) inf_caps _ _ _ (inf_sub_new di)
    (inf_res_new dr) (TWait (mkInfThread l ∅)) s eq_refl Hs Hm).
  intros w items pre rs H. by rewrite (free_mid_ok _ _ _ _ _ _ H).
Qed.

(** A JavaScript worker whose script is missing or empty, throws, or defines no function
    [process] loses its thread silently. It still accepts jobs, never answers one, and from
    the first accepted job on it keeps the event loop alive until it is stopped. *)
Theorem js_broken_script_strands {J} (process : J -> list Z -> J * js_answer) di dr source throws has_process ctx s :
  (source = [] \/ throws = true \/ has_process = false) ->
  js_reaches process (JSWorker_ctor di dr (js_thread_start source throws has_process ctx)) s ->
  delivered s = [] /\ (accepted_jobs s <> [] -> ~ stopped_main s -> ref_ s = true).
Proof.
  intros Hbad. assert (js_thread_start source throws has_process ctx = TExited ctx) as ->.
  { unfold js_thread_start. case_bool_decide; [done|]. destruct throws, has_process; naive_solver. }
  intros Hs. exact (worker_dead_thread_strands (js_run process) jw_callback jr_callback (fun _ => true)
    (fmap jr_callback) (js_run_block process) js_caps (free_all_ok (js_run process) jr_callback) _ _ ctx
    (js_sub_new di) (js_res_new dr) s Hs).
Qed.

(** ** Witnesses *)

Definition fib_item : WorkItem := mkWorkItem (mkFibJob 0 10) 5.
Definition fib_none : WorkItem := mkWorkItem (mkFibJob 0 0) 0.
Definition fib_no_result : FibResult := mkFibResult 0 0 0 0.

(** The tenth Fibonacci number has been computed and delivered. *)
Definition fib_answered : FibonacciWorker :=
  mkWorker (mkWork (mkQueue (fib_item :: replicate 63 fib_none) 1 1) 0 false)
    (mkQueue (mkFibResult 0 55 0 5 :: replicate 63 fib_no_result) 1 1) 0 false false MLoop (TWait tt)
    [fib_item] [mkFibResult 0 55 0 5] [5%nat].

Lemma fib_to_answered : fib_reaches (FibonacciWorker_ctor fib_none fib_no_result) fib_answered.
Proof.
  kr_next (k_enqueue _ _ _ _ _ _ fib_item true).
  kr_next (k_take _ _ _ _ _ _ tt fib_item).
  kr_next k_push. kr_next k_ring.
  kr_next k_next. kr_next k_wake.
  kr_next k_pop. kr_next k_deliver.
  kr_next k_empty. apply kr_start.
Qed.

Lemma fib_worker_correct_witness : delivered fib_answered = [mkFibResult 0 55 0 5].
Proof.
  exact (proj1 (fib_worker_correct fib_none fib_no_result fib_answered fib_to_answered eq_refl eq_refl)).
Defined.

(** A model that answers one token and then ends: the state counts the samples. *)
Definition toy_llama : Llama nat :=
  mkLlama nat (fun l _ => (l, true)) (fun _ _ => Some []) (fun _ _ => 0%nat) (fun l _ => l)
    (fun l _ _ => (l, true)) (fun l _ => (S l, Z.of_nat l)) (fun l _ _ => l) (fun _ t => 0 <? t)
    (fun _ _ => [104; 105]).
Definition toy_item : InfWorkItem := mkInfWorkItem (mkInfJob 3 [109] [] [] []) 5.
Definition toy_none : InfWorkItem := mkInfWorkItem (mkInfJob 0 [] [] [] []) 0.
Definition toy_no_result : InfResult := mkInfResult 0 [] false 0 0.
Definition toy_token : InfResult := mkInfResult 3 [104; 105] false 0 5.
Definition toy_end : InfResult := mkInfResult 3 [] true 0 5.

(** [close()] was called from the callback of the first token. *)
Definition toy_stopped : InferenceWorker nat :=
  mkWorker (mkWork (mkQueue (toy_item :: replicate 63 toy_none) 1 1) 0 true)
    (mkQueue (toy_token :: toy_end :: replicate 254 toy_no_result) 2 2) 1 true true MClosed
    (TExited (mkInfThread 2%nat {[ [109] ]})) [toy_item] [toy_token] [5%nat].

Lemma toy_to_stopped :
  inference_reaches toy_llama {[ [109] ]} (InferenceWorker_ctor toy_none toy_no_result 0%nat) toy_stopped.
Proof.
  kr_next (k_enqueue _ _ _ _ _ _ toy_item true).
  kr_next (k_take _ _ _ _ _ _ (mkInfThread 0%nat ∅) toy_item).
  kr_next k_push. kr_next k_ring.
  kr_next k_wake. kr_next k_pop.
  kr_next k_push. kr_next k_ring.
  kr_next k_next. kr_next k_stop.
  kr_next k_exit. kr_next k_join.
  kr_next k_back. apply kr_start.
Qed.

Lemma inference_stop_frees_once_witness : freed toy_stopped ≡ₚ iw_callback <$> accepted_jobs toy_stopped.
Proof. exact (inference_stop_frees_once toy_llama _ _ _ _ toy_stopped toy_to_stopped eq_refl). Defined.

Definition js_item : JSWorkItem := mkJSWorkItem (mkJSJob 0 [123; 125]) 5.
Definition js_none : JSWorkItem := mkJSWorkItem (mkJSJob 0 []) 0.
Definition js_no_result : JSResult := mkJSResult 0 [] 0 [] 0.
Definition js_echo (j : unit) (s : list Z) : unit * js_answer := (j, Returned (Some s)).

(** A job was submitted to a worker whose script file is missing. *)
Definition js_stranded : JSWorker unit :=
  mkWorker (mkWork (mkQueue (js_item :: replicate 31 js_none) 1 0) 1 false)
    (SPSCQueue_ctor JS_RESULT_QUEUE_DEPTH js_no_result) 1 true false MLoop (TExited tt) [js_item] [] [].

Lemma js_to_stranded :
  js_reaches js_echo (JSWorker_ctor js_none js_no_result (js_thread_start [] false false tt)) js_stranded.
Proof. kr_next (k_enqueue _ _ _ _ _ _ js_item true). apply kr_start. Qed.

Lemma js_broken_script_strands_witness : ref_ js_stranded = true.
Proof.
  refine (proj2 (js_broken_script_strands js_echo _ _ _ _ _ _ js_stranded (or_introl eq_refl) js_to_stranded) _ _);
    [discriminate|]. intros [H|[r H]]; discriminate H.
Defined.
