(* ===== verification/Manager.v ===== *)
(** The managers of include/i_manager.h, src/fib_engine.cc, src/js_engine.cc and
    src/inference_engine.cc: round-robin dispatch over a pool of [Worker]s and the status
    of every job.

    The three managers differ in how a script value becomes a job; that is an argument of
    [js_dispatch]. [sys_step] composes a manager with the threads of its workers. *)

From S2P Require Import Prelude SpscQueue WorkQueue Worker CpuWorkers.

Inductive JobStatus := PENDING | DONE | ERROR.

#[export] Instance JobStatus_eq_dec : EqDecision JobStatus.
Proof. solve_decision. Defined.

(** What a dispatch returns to the script: an exception or the id of the job. *)
Inductive dispatch_answer := ThrowCallback | ThrowNoWorkers | ThrowInput | ThrowQueueFull (worker : nat) | JobId (id : Z).

Section Manager.
Context {SQ RQ W Item Result : Type} `{FS : !FifoQueue SQ Item} `{FR : !FifoQueue RQ Result}.
Context (serve : W -> Item -> W * list Result).
Context (i_cb : Item -> nat) (r_cb : Result -> nat) (r_done : Result -> bool).
Context (free_results : list Result -> list nat).
Context (i_id : Item -> Z) (r_id : Result -> Z) (r_error : Result -> Z).

Abbreviation Worker := (@Worker SQ RQ W Item Result).

(** The manager; [issued], [accepted_ids], [dups] and [seen] record the ids handed out,
    those of accepted jobs, the callback references taken by [JS_DupValue] and the results
    passed to [on_result]. *)
Record Manager := mkManager {
  workers_ : list Worker; next_job_id_ : Z; next_worker_idx_ : Z; job_status_ : gmap Z JobStatus;
  issued : nat; accepted_ids : list Z; dups : list nat; seen : list Result }.

Definition Manager_ctor (ws : list Worker) : Manager := mkManager ws 0 0 ∅ 0 [] [] [].

(** [workers_[next_worker_idx_++ % workers_.size()]]: the index and the new counter. *)
Definition pick_worker (idx : Z) (n : nat) : outcome (nat * Z) :=
  if Nat.eqb n 0 then UB else Ret (Z.to_nat (idx mod Z.of_nat n), u64 (idx + 1)).

(** [js_dispatch]; [job] is the job made of the script's value once its id is known, or
    [None] when the value is refused. *)
Definition js_dispatch (is_function : bool) (job : option (Z -> Item)) (m : Manager) :
    outcome (dispatch_answer * Manager) :=
  if negb is_function then Ret (ThrowCallback, m)
  else if bool_decide (workers_ m = []) then Ret (ThrowNoWorkers, m)
  else
    match job with
    | None => Ret (ThrowInput, m)
    | Some mk =>
        let job_id := next_job_id_ m in
        let item := mk job_id in
        '(i, idx) ← pick_worker (next_worker_idx_ m) (length (workers_ m));
        match workers_ m !! i with
        | None => UB
        | Some w =>
            '(ok, w') ← worker_enqueue item w;
            let m' status accepted :=
              mkManager (<[i := w']> (workers_ m)) (u64 (job_id + 1)) idx status (S (issued m)) accepted
                (dups m ++ [i_cb item]) (seen m) in
            if ok : bool then
              Ret (JobId job_id, m' (<[job_id := PENDING]> (job_status_ m)) (accepted_ids m ++ [job_id]))
            else Ret (ThrowQueueFull i, m' (job_status_ m) (accepted_ids m))
        end
    end.

Definition js_get_progress (job_id : Z) (m : Manager) : list Z :=
  match job_status_ m !! job_id with
  | None => bytes_of_string "unknown"
  | Some PENDING => bytes_of_string "pending"
  | Some DONE => bytes_of_string "done"
  | Some ERROR => bytes_of_string "error"
  end.

Definition status_of_result (r : Result) : JobStatus := if r_error r =? 0 then DONE else ERROR.

(** The update of [job_status_] at the start of [on_result]; calling and freeing the
    callback are the steps [MGot] and [deliver] of the worker. *)
Definition on_result (r : Result) (m : Manager) : Manager :=
  mkManager (workers_ m) (next_job_id_ m) (next_worker_idx_ m)
    (<[r_id r := status_of_result r]> (job_status_ m)) (issued m) (accepted_ids m) (dups m) (seen m ++ [r]).

Definition with_workers (m : Manager) ws : Manager :=
  mkManager ws (next_job_id_ m) (next_worker_idx_ m) (job_status_ m) (issued m) (accepted_ids m) (dups m) (seen m).

(** A script dispatches; a worker delivers a result to [on_result]; a worker takes another
    step; the last statement of [js_close], after [stop] has returned for every worker. *)
Inductive sys_step : Manager -> Manager -> Prop :=
| ss_dispatch m fn job a m' :
    Forall (fun s => script_runs (main s) = true) (workers_ m) ->
    (forall mk id, job = Some mk -> i_id (mk id) = id) ->
    js_dispatch fn job m = Ret (a, m') -> sys_step m m'
| ss_result m i s r rq :
    workers_ m !! i = Some s -> main s = MDrain -> fq_pop (result_queue_ s) = Ret (Some r, rq) ->
    sys_step m (on_result r
      (with_workers m (<[i := with_main (with_results s rq) (bell s) (MGot r)]> (workers_ m))))
| ss_worker m i s s' :
    workers_ m !! i = Some s -> kstep serve i_cb r_cb r_done free_results s s' ->
    accepted_jobs s' = accepted_jobs s -> (main s = MDrain -> calling (main s') = None) ->
    sys_step m (with_workers m (<[i := s']> (workers_ m)))
| ss_close m :
    Forall stopped_main (workers_ m) -> sys_step m (with_workers m []).

Inductive sys_reachable (m0 : Manager) : Manager -> Prop :=
| sr_start : sys_reachable m0 m0
| sr_step m m' : sys_reachable m0 m -> sys_step m m' -> sys_reachable m0 m'.

(** ** The status a script should see *)

Definition last_result (id : Z) (rs : list Result) : option Result :=
  list.last (filter (fun r => r_id r = id) rs).

Definition expected_status (m : Manager) (id : Z) : option JobStatus :=
  if decide (id ∈ accepted_ids m) then
    Some (match last_result id (seen m) with None => PENDING | Some r => status_of_result r end)
  else None.

Lemma last_result_snoc id rs r :
  last_result id (rs ++ [r]) = if decide (r_id r = id) then Some r else last_result id rs.
Proof.
  unfold last_result. rewrite list.filter_app, filter_cons, filter_nil.
  destruct (decide (r_id r = id)); [by rewrite last_snoc|by rewrite app_nil_r].
Qed.

Lemma last_result_none id rs : id ∉ (r_id <$> rs) -> last_result id rs = None.
Proof.
  unfold last_result. intros Hn. replace (filter _ rs) with (@nil Result); [done|].
  induction rs as [|r rs IH]; [done|]. rewrite fmap_cons, not_elem_of_cons in Hn. destruct Hn as [Hr Hn].
  rewrite filter_cons_False by congruence. by apply IH.
Qed.

Hypothesis serve_block : forall w i, block i_cb r_cb r_done i (serve w i).2.
Hypothesis caps_small : caps (FS := FS) (FR := FR) + 3 < 2 ^ 31.
Hypothesis free_ok : forall w items pre rs,
  (serve_all serve w items).2 = pre ++ rs -> free_results rs ≡ₚ dones r_cb r_done rs.
Hypothesis serve_ids : forall w i, Forall (fun r => r_id r = i_id i) (serve w i).2.

Lemma serve_all_ids w items : (r_id <$> (serve_all serve w items).2) ⊆ (i_id <$> items).
Proof.
  revert w. induction items as [|i items IH]; intros w; [done|]. simpl.
  pose proof (serve_ids w i) as Hi. destruct (serve w i) as [w1 rs].
  specialize (IH w1). destruct (serve_all serve w1 items) as [w2 rs']. simpl in *.
  rewrite fmap_app. intros x [Hx|Hx]%elem_of_app; [|set_solver].
  apply list_elem_of_fmap in Hx as (r & -> & Hr). rewrite list.Forall_forall in Hi.
  rewrite (Hi r Hr). by left.
Qed.

Definition worker_ok (s : Worker) : Prop := exists t0, kinv serve i_cb r_cb r_done t0 s.

Lemma worker_ok_step s s' :
  worker_ok s -> kstep serve i_cb r_cb r_done free_results s s' -> worker_ok s'.
Proof.
  intros [t0 [(taken & queued & rq & Hl)|Hs]] Hk; exists t0; [by eapply live_step|].
  right. by eapply settled_step.
Qed.

(** A result popped by [on_result_ready] belongs to a job the worker accepted. *)
Lemma popped_id s r rq :
  worker_ok s -> main s = MDrain -> fq_pop (result_queue_ s) = Ret (Some r, rq) ->
  r_id r ∈ (i_id <$> accepted_jobs s).
Proof.
  intros [t0 [(taken & queued & l & Hl)|(_ & _ & Hm & _)]] Hd Hp;
    [|rewrite Hd in Hm; by destruct Hm as [|[]]].
  destruct (fq_pop_ok _ _ (l_res _ _ _ _ _ _ _ _ Hl)) as (q' & Hp' & _). rewrite Hp in Hp'.
  destruct l as [|r' l]; simplify_eq/=. rewrite (l_accepted _ _ _ _ _ _ _ _ Hl), fmap_app.
  apply elem_of_app. left. apply (serve_all_ids (thread_state t0)).
  rewrite (l_output _ _ _ _ _ _ _ _ Hl). cbn [snd]. rewrite Hd. set_solver.
Qed.

Record minv (m : Manager) : Prop := {
  m_workers : Forall worker_ok (workers_ m);
  m_jobs : Forall (fun s => (i_id <$> accepted_jobs s) ⊆ accepted_ids m) (workers_ m);
  m_next : next_job_id_ m = u64 (Z.of_nat (issued m));
  m_ids : Z.of_nat (issued m) <= 2 ^ 64 ->
    NoDup (accepted_ids m) /\ Forall (fun id => 0 <= id < Z.of_nat (issued m)) (accepted_ids m) /\
    (forall id, job_status_ m !! id = expected_status m id);
  m_seen : (r_id <$> seen m) ⊆ accepted_ids m
}.

Lemma minv_start ws sqs :
  Forall2 (fun s '(sq, rq, t0) => s = Worker_ctor sq rq t0 /\ fq_repr sq [] /\ fq_repr rq [] /\ to_send t0 = [])
    ws sqs -> minv (Manager_ctor ws).
Proof.
  intros Hw. split; simpl.
  - induction Hw as [|s [[sq rq] t0] ws sqs (-> & Hs & Hr & Ht) _ IH]; constructor; [|done].
    exists t0. left. eauto using live_start.
  - induction Hw as [|s [[sq rq] t0] ws sqs (-> & _) _ IH]; constructor; [|done]. set_solver.
  - done.
  - intros _. split_and!; [constructor|constructor|]. intros id. done.
  - set_solver.
Qed.

Lemma enqueue_jobs item (s s' : Worker) ok :
  worker_enqueue item s = Ret (ok, s') ->
  accepted_jobs s' = if ok then accepted_jobs s ++ [item] else accepted_jobs s.
Proof. unfold worker_enqueue. intros H. ret_inv H x E. destruct x as [[] sq]; by simplify_eq/=. Qed.

(** What a dispatch that reaches a worker does. *)
Lemma js_dispatch_inv fn job m a m' :
  js_dispatch fn job m = Ret (a, m') ->
  m' = m \/
  exists mk i w w' ok, job = Some mk /\ workers_ m !! i = Some w /\
    worker_enqueue (mk (next_job_id_ m)) w = Ret (ok, w') /\
    m' = mkManager (<[i := w']> (workers_ m)) (u64 (next_job_id_ m + 1)) (u64 (next_worker_idx_ m + 1))
           (if ok then <[next_job_id_ m := PENDING]> (job_status_ m) else job_status_ m) (S (issued m))
           (if ok then accepted_ids m ++ [next_job_id_ m] else accepted_ids m)
           (dups m ++ [i_cb (mk (next_job_id_ m))]) (seen m).
Proof.
  unfold js_dispatch. destruct (negb fn); [intros [= _ <-]; by left|].
  case_bool_decide; [intros [= _ <-]; by left|].
  destruct job as [mk|]; [|intros [= _ <-]; by left]. intros Hd. right.
  ret_inv Hd x Ep. destruct x as [i idx]. unfold pick_worker in Ep.
  destruct (Nat.eqb _ 0); [done|]. injection Ep as Hi <-.
  destruct (workers_ m !! i) as [w|] eqn:Ew; [|done]. ret_inv Hd y Ee. destruct y as [ok w'].
  exists mk, i, w, w', ok. split_and!; try done. by destruct ok; injection Hd as <- <-.
Qed.

Lemma Forall_insert_ok {A} (P : A -> Prop) l i x : Forall P l -> P x -> Forall P (<[i := x]> l).
Proof. intros. by apply Forall_insert. Qed.

Lemma fresh_id m : minv m -> Z.of_nat (S (issued m)) <= 2 ^ 64 ->
  next_job_id_ m = Z.of_nat (issued m) /\ next_job_id_ m ∉ accepted_ids m.
Proof.
  intros Hm Hb. rewrite (m_next _ Hm), wrap_small by (unfold uint_ok; lia).
  split; [done|]. intros Hin. destruct (m_ids _ Hm ltac:(lia)) as (_ & Hf & _).
  rewrite list.Forall_forall in Hf. specialize (Hf _ Hin). lia.
Qed.

Lemma minv_dispatch m fn job a m' :
  minv m -> Forall (fun s => script_runs (main s) = true) (workers_ m) ->
  (forall mk id, job = Some mk -> i_id (mk id) = id) ->
  js_dispatch fn job m = Ret (a, m') -> minv m'.
Proof.
  intros Hm Hscript Hmk Hd. pose proof Hm as [H1 H2 H3 H4 H5].
  apply js_dispatch_inv in Hd as [->|(mk & i & w & w' & ok & -> & Hw & He & ->)]; [done|].
  specialize (Hmk mk (next_job_id_ m) eq_refl).
  assert (Hok : worker_ok w') by (eapply worker_ok_step;
    [by eapply (Forall_lookup_1 _ _ _ _ H1)|eapply k_enqueue; [by eapply (Forall_lookup_1 _ _ _ _ Hscript)|done]]).
  assert (Hsub : accepted_ids m ⊆ (if ok then accepted_ids m ++ [next_job_id_ m] else accepted_ids m))
    by (destruct ok; set_solver).
  split; simpl.
  - by apply Forall_insert_ok.
  - apply Forall_insert_ok; [eapply list.Forall_impl; [exact H2|]; set_solver|].
    rewrite (enqueue_jobs _ _ _ _ He). pose proof (Forall_lookup_1 _ _ _ _ H2 Hw) as Hin. simpl in Hin.
    destruct ok; [|done]. rewrite fmap_app. simpl. rewrite Hmk. set_solver.
  - rewrite H3. unfold wrap. rewrite Zplus_mod_idemp_l. f_equal. lia.
  - intros Hb. destruct (fresh_id m Hm Hb) as [Hn Hfresh]. destruct (H4 ltac:(lia)) as (Hnd & Hf & Hst).
    assert (Hf' : Forall (fun id => 0 <= id < Z.of_nat (S (issued m))) (accepted_ids m))
      by (eapply list.Forall_impl; [exact Hf|]; simpl; lia).
    destruct ok; [|done]. split_and!.
    + apply list.NoDup_app. split_and!; [done| |apply NoDup_singleton].
      intros x Hx ->%list_elem_of_singleton. done.
    + apply list.Forall_app. split; [done|]. constructor; [lia|done].
    + intros id. unfold expected_status. simpl. rewrite lookup_insert.
      destruct (decide (next_job_id_ m = id)) as [<-|Hne].
      * rewrite decide_True by set_solver. rewrite last_result_none; [done|]. set_solver.
      * rewrite Hst. unfold expected_status. by destruct (decide (id ∈ accepted_ids m)), (decide (id ∈ _ ++ _)); set_solver.
  - set_solver.
Qed.

Lemma minv_result m i s r rq :
  minv m -> workers_ m !! i = Some s -> main s = MDrain ->
  fq_pop (result_queue_ s) = Ret (Some r, rq) ->
  minv (on_result r (with_workers m (<[i := with_main (with_results s rq) (bell s) (MGot r)]> (workers_ m)))).
Proof.
  intros [H1 H2 H3 H4 H5] Hw Hm Hp. pose proof (Forall_lookup_1 _ _ _ _ H1 Hw) as Hok.
  pose proof (Forall_lookup_1 _ _ _ _ H2 Hw) as Hjobs. simpl in Hjobs.
  assert (Hid : r_id r ∈ accepted_ids m) by (by eapply Hjobs, popped_id).
  split; simpl; try done.
  - apply Forall_insert_ok; [done|]. eapply worker_ok_step; [exact Hok|by eapply k_pop].
  - by apply Forall_insert_ok.
  - intros Hb. destruct (H4 Hb) as (Hnd & Hf & Hst). split_and!; [done|done|]. intros id.
    unfold expected_status. simpl. rewrite lookup_insert, last_result_snoc.
    destruct (decide (r_id r = id)) as [<-|Hne]; [by rewrite decide_True|]. apply Hst.
  - rewrite fmap_app. set_solver.
Qed.

Lemma sys_step_inv m m' : minv m -> sys_step m m' -> minv m'.
Proof.
  intros Hm Hs. destruct Hs as [m fn job a m' Hsc Hmk Hd|m i s r rq Hw Hma Hp|m i s s' Hw Hk Ha _|m Hst].
  - by eapply minv_dispatch.
  - by eapply minv_result.
  - destruct Hm as [H1 H2 H3 H4 H5]. split; simpl; try done.
    + apply Forall_insert_ok; [done|]. eapply worker_ok_step; [by eapply (Forall_lookup_1 _ _ _ _ H1)|done].
    + apply Forall_insert_ok; [done|]. rewrite Ha. by apply (Forall_lookup_1 _ _ _ _ H2 Hw).
  - destruct Hm as [H1 H2 H3 H4 H5]. split; simpl; try done; constructor.
Qed.

Lemma sys_inv m0 m : minv m0 -> sys_reachable m0 m -> minv m.
Proof. intros H0. induction 1; eauto using sys_step_inv. Qed.

Lemma pick_in_range idx n : (0 < n)%nat -> (Z.to_nat (idx mod Z.of_nat n) < n)%nat.
Proof. intros. pose proof (Z.mod_pos_bound idx (Z.of_nat n)). lia. Qed.

Lemma enqueue_total item s :
  worker_ok s -> script_runs (main s) = true -> exists ok s', worker_enqueue item s = Ret (ok, s').
Proof.
  intros [t0 [(taken & queued & l & Hl)|(_ & _ & Hm & _)]] Hs.
  - destruct (enqueue_returns serve r_cb r_done _ _ _ _ _ item Hl) as (ok & s' & He & _). eauto.
  - destruct Hm as [Hm|[r Hm]]; by rewrite Hm in Hs.
Qed.

End Manager.

(** The workers picked by [k] dispatches in a row. *)
Fixpoint picks (k : nat) (idx : Z) (n : nat) : list nat :=
  match k with
  | O => []
  | S k' => match pick_worker idx n with Ret (i, idx') => i :: picks k' idx' n | _ => [] end
  end.

(** [spawn_workers] of src/inference_engine.cc: the first core and the number of cores of
    every worker, for [nprocs] processors on line. *)
Fixpoint spawn_loop (count : nat) (core_cursor cores_each : Z) : list (Z * Z) :=
  match count with
  | O => []
  | S n => (core_cursor, cores_each) :: spawn_loop n (core_cursor + cores_each) cores_each
  end.

Definition spawn_workers (count : Z) (nprocs : Z) : outcome (list (Z * Z)) :=
  let total_cores := if nprocs - 1 <? 1 then 1 else nprocs - 1 in
  if count =? 0 then UB
  else
    let cores_each := Z.quot total_cores count in
    let cores_each := if cores_each <? 1 then 1 else cores_each in
    Ret (spawn_loop (Z.to_nat count) 1 cores_each).

(** The cores a worker is pinned to. *)
Definition cores_of (w : Z * Z) : list Z := (fun i => w.1 + Z.of_nat i) <$> seq 0 (Z.to_nat w.2).

Lemma div_step (x n : Z) : 0 < n -> (x + 1) / n = x / n + if decide ((x + 1) mod n = 0) then 1 else 0.
Proof.
  intros Hn. pose proof (Z.div_mod x n ltac:(lia)). pose proof (Z.mod_pos_bound x n Hn).
  pose proof (Z.div_mod (x + 1) n ltac:(lia)). pose proof (Z.mod_pos_bound (x + 1) n Hn).
  destruct (decide _); nia.
Qed.

Lemma picks_count k idx n i :
  (i < n)%nat -> 0 <= idx -> idx + Z.of_nat k <= 2 ^ 64 ->
  Z.of_nat (length (filter (fun j => j = i) (picks k idx n)))
  = (idx + Z.of_nat k + Z.of_nat n - 1 - Z.of_nat i) / Z.of_nat n
    - (idx + Z.of_nat n - 1 - Z.of_nat i) / Z.of_nat n.
Proof.
  intros Hi. revert idx. induction k as [|k IH]; intros idx H0 Hb.
  - simpl. rewrite Z.add_0_r. lia.
  - simpl. unfold pick_worker. destruct (Nat.eqb_spec n 0); [lia|].
    assert (Hw : picks k (wrap 64 (idx + 1)) n = picks k (idx + 1) n).
    { destruct k; [done|]. rewrite wrap_small; [done|]. unfold uint_ok. lia. }
    rewrite Hw, filter_cons.
    assert (Hd := div_step (idx + Z.of_nat n - 1 - Z.of_nat i) (Z.of_nat n) ltac:(lia)).
    replace (idx + Z.of_nat n - 1 - Z.of_nat i + 1) with (idx + 1 + Z.of_nat n - 1 - Z.of_nat i) in Hd by lia.
    specialize (IH (idx + 1) ltac:(lia) ltac:(lia)).
    replace (idx + Z.of_nat (S k)) with (idx + 1 + Z.of_nat k) by lia.
    assert (Hmod : (idx + 1 + Z.of_nat n - 1 - Z.of_nat i) mod Z.of_nat n = 0 <->
                   Z.to_nat (idx mod Z.of_nat n) = i).
    { pose proof (Z.mod_pos_bound idx (Z.of_nat n) ltac:(lia)) as Hm.
      pose proof (Z.div_mod idx (Z.of_nat n) ltac:(lia)).
      replace (idx + 1 + Z.of_nat n - 1 - Z.of_nat i)
        with ((idx mod Z.of_nat n - Z.of_nat i) + (idx / Z.of_nat n + 1) * Z.of_nat n) by lia.
      rewrite Z.mod_add by lia. rewrite Z.mod_eq by lia.
      split; intros Hx; [|replace (idx mod Z.of_nat n - Z.of_nat i) with 0 by lia; rewrite Zdiv_0_l; lia].
      assert (-1 < (idx mod Z.of_nat n - Z.of_nat i) / Z.of_nat n < 1 \/
              (idx mod Z.of_nat n - Z.of_nat i) / Z.of_nat n = -1) by nia. nia. }
    destruct (decide (Z.to_nat _ = i)), (decide (_ = 0)); simpl length; try tauto; lia.
Qed.

Lemma spawn_loop_cores count cursor each :
  0 < each -> mjoin (cores_of <$> spawn_loop count cursor each)
    = (fun i => cursor + Z.of_nat i) <$> seq 0 (count * Z.to_nat each).
Proof.
  intros He. revert cursor. induction count as [|count IH]; intros cursor; [done|]. simpl.
  rewrite IH, seq_app, fmap_app. f_equal. rewrite Nat.add_0_l.
  apply list_eq. intros j. rewrite !list_lookup_fmap.
  destruct (decide (j < count * Z.to_nat each)%nat).
  - rewrite !lookup_seq_lt by lia. simpl. f_equal. lia.
  - by rewrite !lookup_seq_ge by lia.
Qed.

(** ** Properties *)

Section Properties.
Context {SQ RQ W Item Result : Type} `{FS : !FifoQueue SQ Item} `{FR : !FifoQueue RQ Result}.
Context (serve : W -> Item -> W * list Result) (i_cb : Item -> nat) (r_cb : Result -> nat).
Context (r_done : Result -> bool) (free_results : list Result -> list nat).
Context (i_id : Item -> Z) (r_id : Result -> Z) (r_error : Result -> Z).
Context (serve_block : forall w i, block i_cb r_cb r_done i (serve w i).2).
Context (caps_small : caps (FS := FS) (FR := FR) + 3 < 2 ^ 31).
Context (free_ok : forall w items pre rs,
  (serve_all serve w items).2 = pre ++ rs -> free_results rs ≡ₚ dones r_cb r_done rs).
Context (serve_ids : forall w i, Forall (fun r => r_id r = i_id i) (serve w i).2).
Context (ws : list (@Worker SQ RQ W Item Result)) (qs : list (SQ * RQ * thread_at W Result)).
Context (ws_new : Forall2 (fun s '(sq, rq, t0) =>
  s = Worker_ctor sq rq t0 /\ fq_repr sq [] /\ fq_repr rq [] /\ to_send t0 = []) ws qs).

Lemma manager_inv m :
  sys_reachable serve i_cb r_cb r_done free_results i_id r_id r_error (Manager_ctor ws) m ->
  minv serve i_cb r_cb r_done i_id r_id r_error m.
Proof. intros Hm. eapply sys_inv; [done..| |exact Hm]. by eapply minv_start. Qed.

(** [js_get_progress] tells the truth in every interleaving of scripts, results and worker
    threads. Job ids are never handed out twice (as long as fewer than 2^64 were), an id
    that was never accepted is unknown, an accepted job is pending until its first result
    arrives and is then done or in error as its latest result says. *)
Theorem manager_status_exact m id :
  sys_reachable serve i_cb r_cb r_done free_results i_id r_id r_error (Manager_ctor ws) m ->
  Z.of_nat (issued m) <= 2 ^ 64 ->
  NoDup (accepted_ids m) /\
  (id ∉ accepted_ids m -> js_get_progress id m = bytes_of_string "unknown") /\
  (id ∈ accepted_ids m -> last_result r_id id (seen m) = None ->
   js_get_progress id m = bytes_of_string "pending") /\
  (forall r, last_result r_id id (seen m) = Some r -> id ∈ accepted_ids m ->
   js_get_progress id m = bytes_of_string (if r_error r =? 0 then "done" else "error")).
Proof.
  intros Hm Hb. destruct (m_ids _ _ _ _ _ _ _ _ (manager_inv m Hm) Hb) as (Hnd & _ & Hst).
  unfold js_get_progress. rewrite Hst. unfold expected_status. split_and!; [done|..].
  - intros Hn. by rewrite decide_False.
  - intros Hi Hl. by rewrite decide_True, Hl.
  - intros r Hl Hi. rewrite decide_True, Hl by done. unfold status_of_result. by destruct (r_error r =? 0).
Qed.

(** What a dispatch does on every branch: it always returns; a refused callback, an empty
    pool and a refused value leave the manager as it was; an accepted job returns its fresh
    id and is pending; a full queue throws, uses up an id, and keeps the reference that
    [JS_DupValue] took to the callback although no job will ever release it. *)
Theorem manager_dispatch_branches m is_function job :
  sys_reachable serve i_cb r_cb r_done free_results i_id r_id r_error (Manager_ctor ws) m ->
  Forall (fun s => script_runs (main s) = true) (workers_ m) ->
  (is_function = false -> js_dispatch i_cb is_function job m = Ret (ThrowCallback, m)) /\
  (is_function = true -> workers_ m = [] -> js_dispatch i_cb is_function job m = Ret (ThrowNoWorkers, m)) /\
  (is_function = true -> workers_ m <> [] -> job = None ->
   js_dispatch i_cb is_function job m = Ret (ThrowInput, m)) /\
  (forall mk, is_function = true -> workers_ m <> [] -> job = Some mk ->
   exists a m', js_dispatch i_cb is_function job m = Ret (a, m') /\
     dups m' = dups m ++ [i_cb (mk (next_job_id_ m))] /\
     ((a = JobId (next_job_id_ m) /\ accepted_ids m' = accepted_ids m ++ [next_job_id_ m] /\
       js_get_progress (next_job_id_ m) m' = bytes_of_string "pending") \/
      (exists i, a = ThrowQueueFull i /\ accepted_ids m' = accepted_ids m /\ job_status_ m' = job_status_ m /\
       (accepted_jobs <$> workers_ m') = (accepted_jobs <$> workers_ m)))).
Proof.
  intros Hm Hscript. unfold js_dispatch. split_and!.
  - by intros ->.
  - intros -> ->. by rewrite bool_decide_eq_true_2.
  - intros -> Hw ->. by rewrite bool_decide_eq_false_2.
  - intros mk -> Hw ->. rewrite bool_decide_eq_false_2 by done. cbn [negb].
    unfold pick_worker. destruct (Nat.eqb_spec (length (workers_ m)) 0) as [Hl|Hl];
      [by apply length_zero_iff_nil in Hl|]. cbn [mbind outcome_bind].
    destruct (lookup_lt_is_Some_2 (workers_ m) (Z.to_nat (next_worker_idx_ m mod Z.of_nat (length (workers_ m)))))
      as [s Hs]; [apply pick_in_range; lia|]. rewrite Hs.
    destruct (enqueue_total serve i_cb r_cb r_done (mk (next_job_id_ m)) s) as (ok & s' & He);
      [eapply (Forall_lookup_1 _ _ _ _ (m_workers _ _ _ _ _ _ _ _ (manager_inv m Hm)) Hs)
      |exact (Forall_lookup_1 _ _ _ _ Hscript Hs)|].
    rewrite He. cbn [mbind outcome_bind]. apply enqueue_jobs in He. destruct ok; eexists _, _; (split; [done|]); simpl.
    + split; [done|]. left. split_and!; [done..|]. unfold js_get_progress. simpl. by rewrite lookup_insert_eq.
    + split; [done|]. right. eexists. split_and!; [done..|]. rewrite list_fmap_insert, He.
      apply list_insert_id. by rewrite list_lookup_fmap, Hs.
Qed.

End Properties.

(** Dispatching is fair: of [k] dispatches in a row every one of the [n] workers gets
    its share, rounded down or up, wherever the counter started (as long as it does not
    wrap around). *)
Theorem manager_round_robin k idx n i :
  (i < n)%nat -> 0 <= idx -> idx + Z.of_nat k <= 2 ^ 64 ->
  Z.of_nat k / Z.of_nat n <= Z.of_nat (length (filter (fun j => j = i) (picks k idx n)))
    <= Z.of_nat k / Z.of_nat n + 1.
Proof.
  intros Hi H0 Hb. rewrite picks_count by done. set (a := idx + Z.of_nat n - 1 - Z.of_nat i).
  replace (idx + Z.of_nat k + Z.of_nat n - 1 - Z.of_nat i) with (a + Z.of_nat k) by lia.
  pose proof (Z.div_mod a (Z.of_nat n) ltac:(lia)). pose proof (Z.mod_pos_bound a (Z.of_nat n) ltac:(lia)).
  pose proof (Z.div_mod (Z.of_nat k) (Z.of_nat n) ltac:(lia)).
  pose proof (Z.mod_pos_bound (Z.of_nat k) (Z.of_nat n) ltac:(lia)).
  pose proof (Z.div_mod (a + Z.of_nat k) (Z.of_nat n) ltac:(lia)).
  pose proof (Z.mod_pos_bound (a + Z.of_nat k) (Z.of_nat n) ltac:(lia)). nia.
Qed.

(** Inference workers are pinned to disjoint cores and never to core 0, which the main
    thread uses; all of these cores exist exactly when there are no more workers than
    processors left. *)
Theorem spawn_workers_cores count nprocs :
  0 < count -> 0 < nprocs ->
  exists l, spawn_workers count nprocs = Ret l /\ Z.of_nat (length l) = count /\
    NoDup (mjoin (cores_of <$> l)) /\ Forall (fun c => 1 <= c) (mjoin (cores_of <$> l)) /\
    (Forall (fun c => c < nprocs) (mjoin (cores_of <$> l)) <-> count <= nprocs - 1).
Proof.
  intros Hc Hn. unfold spawn_workers. destruct (Z.eqb_spec count 0); [lia|]. eexists. split; [done|].
  set (total := if nprocs - 1 <? 1 then 1 else nprocs - 1).
  assert (Ht : 1 <= total /\ nprocs - 1 <= total /\ (1 < nprocs -> total = nprocs - 1))
    by (unfold total; destruct (Z.ltb_spec (nprocs - 1) 1); lia).
  rewrite Z.quot_div_nonneg by lia.
  pose proof (Z.div_mod total count ltac:(lia)). pose proof (Z.mod_pos_bound total count Hc).
  set (each := if total / count <? 1 then 1 else total / count).
  assert (He : 0 < each /\ (count <= total -> count * each <= total) /\ each >= 1)
    by (unfold each; destruct (Z.ltb_spec (total / count) 1); nia).
  clearbody each total. rewrite spawn_loop_cores by lia. split_and!.
  - clear -Hc. generalize 1 as cur. intros cur. replace count with (Z.of_nat (Z.to_nat count)) at 2 by lia. f_equal.
    revert cur. induction (Z.to_nat count) as [|k IH]; intros cur; simpl; [done|by rewrite IH].
  - apply NoDup_fmap_2; [intros x y; lia|]. apply list.NoDup_seq.
  - apply list.Forall_fmap, list.Forall_forall. simpl. lia.
  - rewrite list.Forall_fmap, list.Forall_forall. simpl. split.
    + intros Hall. specialize (Hall (Z.to_nat count * Z.to_nat each - 1)%nat).
      rewrite elem_of_seq in Hall. nia.
    + intros Hle x Hx%elem_of_seq. nia.
Qed.

(** ** Witnesses: a manager with one Fibonacci worker *)

Lemma fib_run_ids w i : Forall (fun r => fr_job_id r = fj_job_id (wi_job i)) (fib_run w i).2.
Proof. by repeat constructor. Qed.

Definition fib_manager : Manager := Manager_ctor [FibonacciWorker_ctor fib_none fib_no_result].

(** [dispatch({value: 10}, callback)] *)
Definition fib_value_10 (id : Z) : WorkItem := mkWorkItem (mkFibJob id 10) 5.
Definition fib_dispatched : Manager :=
  match js_dispatch wi_callback true (Some fib_value_10) fib_manager with Ret (_, m) => m | _ => fib_manager end.

Definition fib_sys_reachable : Manager -> Manager -> Prop :=
  sys_reachable fib_run wi_callback fr_callback (fun _ => true) (fmap fr_callback)
    (fun i => fj_job_id (wi_job i)) fr_job_id fr_error.

Lemma fib_manager_new : Forall2 (fun s '(sq, rq, t0) =>
    s = Worker_ctor sq rq t0 /\ fq_repr sq [] /\ fq_repr rq [] /\ to_send t0 = [])
  (workers_ fib_manager)
  [(SPSCQueue_ctor FIB_QUEUE_DEPTH fib_none, SPSCQueue_ctor FIB_RESULT_QUEUE_DEPTH fib_no_result,
    TWait (Result := FibResult) tt)].
Proof.
  constructor; [|constructor]. split_and!; [done|apply fib_sub_new|apply fib_res_new|done].
Qed.

Lemma fib_to_dispatched : fib_sys_reachable fib_manager fib_dispatched.
Proof.
  eapply sr_step; [apply sr_start|]. eapply (ss_dispatch _ _ _ _ _ _ _ _ _ true (Some fib_value_10) (JobId 0)).
  - by repeat constructor.
  - intros mk id H. by injection H as <-.
  - vm_compute. reflexivity.
Qed.

Lemma manager_status_exact_witness : js_get_progress 0 fib_dispatched = bytes_of_string "pending".
Proof.
  refine (proj1 (proj2 (proj2 (manager_status_exact fib_run wi_callback fr_callback _ _ _ fr_job_id fr_error
    fib_run_block fib_caps (free_all_ok fib_run fr_callback) fib_run_ids _ _ fib_manager_new fib_dispatched 0
    fib_to_dispatched _))) _ eq_refl); [vm_compute; discriminate|].
  apply (bool_decide_unpack _). vm_compute. exact I.
Defined.

Lemma manager_dispatch_branches_witness :
  js_dispatch wi_callback true None fib_manager = Ret (ThrowInput, fib_manager).
Proof.
  refine (proj1 (proj2 (proj2 (manager_dispatch_branches fib_run wi_callback fr_callback _ _ _ fr_job_id fr_error
    fib_run_block fib_caps (free_all_ok fib_run fr_callback) fib_run_ids _ _ fib_manager_new fib_manager true
    None (sr_start _ _ _ _ _ _ _ _ _) _))) eq_refl _ eq_refl); [by repeat constructor|discriminate].
Defined.

Lemma manager_round_robin_witness :
  3 <= Z.of_nat (length (filter (fun j => j = 1%nat) (picks 10 5 3))) <= 4.
Proof. exact (manager_round_robin 10 5 3 1 ltac:(lia) ltac:(lia) ltac:(lia)). Defined.

Lemma spawn_workers_cores_witness :
  exists l, spawn_workers 2 8 = Ret l /\ Z.of_nat (length l) = 2 /\ NoDup (mjoin (cores_of <$> l)) /\
    Forall (fun c => 1 <= c) (mjoin (cores_of <$> l)) /\
    (Forall (fun c => c < 8) (mjoin (cores_of <$> l)) <-> 2 <= 8 - 1).
Proof. exact (spawn_workers_cores 2 8 ltac:(lia) ltac:(lia)). Defined.
