(* ===== verification/Engines.v ===== *)
(** The three engines, end to end: the worker classes of src/workers, the managers of
    src/fib_engine.cc, src/js_engine.cc and src/inference_engine.cc, and the script objects
    of src/builtins/fib_js.cc, js_worker_js.cc and inference_js.cc.

    [Worker] and [Manager] hold what the engines share; here are their arguments (how script
    values become jobs, how results become callback arguments, the queue sizes) and the life
    of the script object that owns a manager. *)

From S2P Require Import Prelude SpscQueue WorkQueue CString Worker CpuWorkers Manager.

(** ** The methods of the worker classes *)

Definition FibonacciWorker_enqueue (item : WorkItem) (s : FibonacciWorker) := worker_enqueue item s.
Definition FibonacciWorker_stop (from : option FibResult) (s : FibonacciWorker) : outcome FibonacciWorker :=
  stop_drain wi_callback (fmap fr_callback) from s.
Definition FibonacciWorker_on_result (r : FibResult) (m : main_at FibResult) (s : FibonacciWorker) : FibonacciWorker :=
  deliver fr_callback (fun _ => true) r m s.

Definition JSWorker_enqueue {J} (item : JSWorkItem) (s : JSWorker J) := worker_enqueue item s.
Definition JSWorker_stop {J} (from : option JSResult) (s : JSWorker J) : outcome (JSWorker J) :=
  stop_drain jw_callback (fmap jr_callback) from s.
Definition JSWorker_on_result {J} (r : JSResult) (m : main_at JSResult) (s : JSWorker J) : JSWorker J :=
  deliver jr_callback (fun _ => true) r m s.

Definition InferenceWorker_enqueue {L} (item : InfWorkItem) (s : InferenceWorker L) := worker_enqueue item s.
Definition InferenceWorker_stop {L} (from : option InfResult) (s : InferenceWorker L) : outcome (InferenceWorker L) :=
  stop_drain iw_callback (free_mid_stream ∅) from s.
Definition InferenceWorker_on_result {L} (r : InfResult) (m : main_at InfResult) (s : InferenceWorker L) :
    InferenceWorker L :=
  deliver ir_callback ir_is_done r m s.

(** ** The managers *)

(** The script values the callbacks see. *)
Inductive js_val := JSNull | JSNumber (z : Z) | JSString (s : list Z).

(** [(double)z] of an unsigned 64-bit integer: rounded to 53 significant bits, ties to even. *)
Definition double_of_u64 (z : Z) : Z :=
  if z <? 2 ^ 53 then z
  else
    let ulp := 2 ^ (Z.log2 z - 52) in
    let q := z / ulp in
    let r := z mod ulp in
    if (2 * r <? ulp) || ((2 * r =? ulp) && Z.even q) then q * ulp else (q + 1) * ulp.

Section Managers.
Context {J L : Type}.

Definition FibManager := @Manager (SPSCQueue WorkItem) (SPSCQueue FibResult) unit WorkItem FibResult.
Definition JSManager := @Manager (SPSCQueue JSWorkItem) (SPSCQueue JSResult) J JSWorkItem JSResult.
Definition InfManager := @Manager (SPSCQueue InfWorkItem) (SPSCQueue InfResult) (@InfThread L) InfWorkItem InfResult.

(** [js_dispatch(value, callback)]; [index] is what [JS_ToIndex] made of the value ([None]
    when it threw, which leaves [value] at 0). *)
Definition fib_dispatch (is_function : bool) (index : option Z) (callback : nat) (m : FibManager) :
    outcome (dispatch_answer * FibManager) :=
  js_dispatch wi_callback is_function
    (Some (fun id => mkWorkItem (mkFibJob id (default 0 index)) callback)) m.

(** [js_dispatch(input, callback)]; [input] is what [JS_ToCString] returned. *)
Definition js_engine_dispatch (is_function : bool) (input : option (list Z)) (callback : nat) (m : JSManager) :
    outcome (dispatch_answer * JSManager) :=
  js_dispatch jw_callback is_function
    ((fun s id => mkJSWorkItem (mkJSJob id (cstr s)) callback) <$> input) m.

(** The job made of a packet whose four properties are as [JS_ToCString] returned them;
    [models_] are the keys of the manager's map of models. *)
Definition inf_job (models_ : gset (list Z)) (cls sid cid prompt : option (list Z)) (callback : nat) :
    option (Z -> InfWorkItem) :=
  match cls with
  | Some c =>
      if decide (cstr c ∈ models_) then
        Some (fun id => mkInfWorkItem
          (mkInfJob id (snprintf_s 32 c) (snprintf_s 128 (default [] sid)) (snprintf_s 64 (default [] cid))
             (snprintf_s 2048 (default [] prompt))) callback)
      else None
  | None => None
  end.

(** [js_dispatch(packet, callback)] *)
Definition inf_dispatch (models_ : gset (list Z)) (is_function : bool)
    (cls sid cid prompt : option (list Z)) (callback : nat) (m : InfManager) :
    outcome (dispatch_answer * InfManager) :=
  js_dispatch iw_callback is_function (inf_job models_ cls sid cid prompt callback) m.

Definition fib_get_progress (id : Z) (m : FibManager) : list Z := js_get_progress id m.
Definition js_engine_get_progress (id : Z) (m : JSManager) : list Z := js_get_progress id m.
Definition inf_get_progress (id : Z) (m : InfManager) : list Z := js_get_progress id m.

(** [on_result]: the arguments of the callback and the manager. *)
Definition fib_on_result (r : FibResult) (m : FibManager) : (js_val * js_val) * FibManager :=
  (if negb (fr_error r =? 0) then (JSString (bytes_of_string "fibonacci error"), JSNull)
   else (JSNull, JSNumber (double_of_u64 (fr_result r))),
   on_result fr_job_id fr_error r m).

Definition js_engine_on_result (r : JSResult) (m : JSManager) : (js_val * js_val) * JSManager :=
  (if negb (jr_error r =? 0) then (JSString (cstr (jr_error_msg r)), JSNull)
   else (JSNull, JSString (cstr (jr_output_json r))),
   on_result jr_job_id jr_error r m).

Definition inf_on_result (r : InfResult) (m : InfManager) : (js_val * js_val) * InfManager :=
  (if negb (ir_error r =? 0) then (JSString (ir_token r), JSNull) else (JSNull, JSString (ir_token r)),
   on_result ir_job_id ir_error r m).

(** One row of [js_list_workers]: id, first core, number of cores and the queue hint. *)
Definition list_workers (cores : list (Z * Z)) (m : InfManager) : list (Z * Z * Z * Z) :=
  zip_with (fun '(i, c) (s : InferenceWorker L) =>
      (Z.of_nat i, c.1, c.2, if work_empty (sub_queue_ s) then 0 else 1))
    (imap (fun i c => (i, c)) cores) (workers_ m).

End Managers.

(** The constructor of the Fibonacci and JavaScript managers: [worker_size] is what
    [JS_ToInt32] made of the option ([None] when it threw). *)
Definition clamp_worker_size (worker_size : option Z) : Z :=
  let n := default 1 worker_size in if n <? 1 then 1 else n.

Definition fib_manager_ctor (worker_size : option Z) (di : WorkItem) (dr : FibResult) : FibManager :=
  Manager_ctor (replicate (Z.to_nat (clamp_worker_size worker_size)) (FibonacciWorker_ctor di dr)).

Definition js_manager_ctor {J} (worker_size : option Z) (di : JSWorkItem) (dr : JSResult)
    (t0 : thread_at J JSResult) : JSManager :=
  Manager_ctor (replicate (Z.to_nat (clamp_worker_size worker_size)) (JSWorker_ctor di dr t0)).

(** [inf_ctor]: the options that are numbers and positive replace the defaults. *)
Definition positive_option (v : option Z) (d : Z) : Z :=
  match v with Some n => if 0 <? n then n else d | None => d end.

(** [add_model] for every entry with a class and a path whose file could be loaded. *)
Fixpoint add_models (load : list Z -> bool) (entries : list (option (list Z) * option (list Z))) (models_ : gset (list Z)) :
    gset (list Z) :=
  match entries with
  | [] => models_
  | (Some cls, Some path) :: es =>
      add_models load es (if load (cstr path) then {[cstr cls]} ∪ models_ else models_)
  | _ :: es => add_models load es models_
  end.

Definition inf_manager_ctor {L} (load : list Z -> bool)
    (entries : list (option (list Z) * option (list Z))) (workers : option Z) (nprocs : Z)
    (di : InfWorkItem) (dr : InfResult) (l : L) : outcome (gset (list Z) * list (Z * Z) * InfManager) :=
  cores ← spawn_workers (positive_option workers 1) nprocs;
  Ret (add_models load entries ∅, cores,
       Manager_ctor (replicate (length cores) (InferenceWorker_ctor di dr l))).

(** ** The script object that owns a manager *)

(** A manager is open, closed (its workers stopped) or deleted. *)
Inductive mgr_life := MgrOpen | MgrClosed | MgrDeleted.

(** [opaque]: whether the script object still points to its manager; [closes]: how often
    [js_close] stopped the workers. *)
Record Binding := mkBinding { opaque : bool; life : mgr_life; closes : nat }.
Definition Binding_ctor : Binding := mkBinding true MgrOpen 0.

(** [js_close] of a manager, which must not have been deleted. *)
Definition mgr_js_close (b : Binding) : outcome Binding :=
  match life b with
  | MgrDeleted => UB
  | _ => Ret (mkBinding (opaque b) MgrClosed (S (closes b)))
  end.

Definition mgr_delete (b : Binding) : outcome Binding :=
  match life b with MgrDeleted => UB | _ => Ret (mkBinding (opaque b) MgrDeleted (closes b)) end.

(** Methods other than [close]: an exception ([false]) once the object is closed. *)
Definition binding_use (b : Binding) : outcome (bool * Binding) :=
  if opaque b then match life b with MgrDeleted => UB | _ => Ret (true, b) end else Ret (false, b).

(** [close()] of the Fibonacci and JavaScript objects, and of the inference object, which
    also deletes the manager. *)
Definition fib_binding_close (b : Binding) : outcome Binding :=
  if opaque b then mgr_js_close (mkBinding false (life b) (closes b)) else Ret b.
Definition jsw_binding_close (b : Binding) : outcome Binding :=
  if opaque b then mgr_js_close (mkBinding false (life b) (closes b)) else Ret b.
Definition inf_binding_close (b : Binding) : outcome Binding :=
  if opaque b then b' ← mgr_js_close (mkBinding false (life b) (closes b)); mgr_delete b' else Ret b.

(** The finalizer run by the garbage collector. *)
Definition binding_finalizer (b : Binding) : outcome Binding :=
  if opaque b then b' ← mgr_js_close b; mgr_delete b' else Ret b.

(** What a script does with the object: call a method, close it, or receive a result in a
    callback that may close the object; [on_result] reads the manager after the callback. *)
Inductive binding_op := OpUse | OpClose | OpResult (callback_closes : bool).

Definition binding_step (close : Binding -> outcome Binding) (op : binding_op) (b : Binding) : outcome Binding :=
  match op with
  | OpUse => '(_, b') ← binding_use b; Ret b'
  | OpClose => close b
  | OpResult callback_closes =>
      match life b with
      | MgrOpen =>
          b' ← (if callback_closes then close b else Ret b);
          match life b' with MgrDeleted => UB | _ => Ret b' end
      | _ => Ret b              (* the workers are stopped: no result arrives *)
      end
  end.

Fixpoint binding_run (close : Binding -> outcome Binding) (ops : list binding_op) (b : Binding) : outcome Binding :=
  match ops with
  | [] => binding_finalizer b
  | op :: ops' => b' ← binding_step close op b; binding_run close ops' b'
  end.

Definition script_closes (op : binding_op) : bool :=
  match op with OpClose => true | OpResult c => c | OpUse => false end.

(** The states of a Fibonacci or JavaScript object before its finalizer. *)
Definition binding_ok (b : Binding) : Prop :=
  b = Binding_ctor \/ b = mkBinding false MgrClosed 1.

Lemma fib_binding_run ops b :
  binding_ok b -> exists b', binding_run fib_binding_close ops b = Ret b' /\ closes b' = 1%nat /\
    (life b' = MgrDeleted <-> opaque b = true /\ Forall (fun op => script_closes op = false) ops).
Proof.
  revert b. induction ops as [|op ops IH]; intros b [->| ->].
  - eexists. split; [done|]. simpl. split; [done|]. split; [|done]. auto using Forall_nil.
  - eexists. split; [done|]. simpl. split; [done|]. split; [done|]. by intros [].
  - simpl. destruct op as [| |[]]; cbn.
    + destruct (IH Binding_ctor) as (b' & Hr & Hc & Hl); [by left|]. exists b'. split; [done|]. split; [done|].
      rewrite Hl, list.Forall_cons. simpl. tauto.
    + destruct (IH (mkBinding false MgrClosed 1)) as (b' & Hr & Hc & Hl); [by right|]. exists b'.
      split; [done|]. split; [done|]. rewrite Hl, list.Forall_cons. simpl. naive_solver.
    + destruct (IH (mkBinding false MgrClosed 1)) as (b' & Hr & Hc & Hl); [by right|]. exists b'.
      split; [done|]. split; [done|]. rewrite Hl, list.Forall_cons. simpl. naive_solver.
    + destruct (IH Binding_ctor) as (b' & Hr & Hc & Hl); [by left|]. exists b'. split; [done|]. split; [done|].
      rewrite Hl, list.Forall_cons. simpl. tauto.
  - destruct (IH (mkBinding false MgrClosed 1)) as (b' & Hr & Hc & Hl); [by right|].
    exists b'. assert (Hs : binding_step fib_binding_close op (mkBinding false MgrClosed 1)
                            = Ret (mkBinding false MgrClosed 1)) by (by destruct op as [| |[]]).
    cbn [binding_run]. rewrite Hs. cbn [mbind outcome_bind]. split; [done|]. split; [done|].
    rewrite Hl. simpl. naive_solver.
Qed.

Lemma inf_binding_run ops b :
  b = Binding_ctor \/ b = mkBinding false MgrDeleted 1 ->
  Forall (fun op => op <> OpResult true) ops ->
  binding_run inf_binding_close ops b = Ret (mkBinding (opaque b) MgrDeleted 1) \/
  binding_run inf_binding_close ops b = Ret (mkBinding false MgrDeleted 1).
Proof.
  intros Hb Hops. revert b Hb. induction Hops as [|op ops Hop _ IH]; intros b [->| ->]; [by left|by left|..].
  - destruct op as [| |[]]; cbn; [by apply IH; left| |done|by apply IH; left].
    right. by destruct (IH (mkBinding false MgrDeleted 1) (or_intror eq_refl)).
  - destruct op as [| |[]]; cbn; [| |done|]; by destruct (IH (mkBinding false MgrDeleted 1) (or_intror eq_refl)); right.
Qed.

(** ** Properties *)

(** A script object stops the workers of its manager exactly once, whatever the script
    calls before the garbage collector finalizes the object. The Fibonacci and JavaScript
    objects delete their manager only if the script never closed them, so an explicit
    [close()] leaks it. The inference object always deletes it, but a [close()] from the
    callback of a result deletes it under the running [on_result]. *)
Theorem script_object_lifecycle ops :
  (exists b, binding_run fib_binding_close ops Binding_ctor = Ret b /\ closes b = 1%nat /\
     (life b = MgrDeleted <-> Forall (fun op => script_closes op = false) ops)) /\
  (exists b, binding_run jsw_binding_close ops Binding_ctor = Ret b /\ closes b = 1%nat /\
     (life b = MgrDeleted <-> Forall (fun op => script_closes op = false) ops)) /\
  (Forall (fun op => op <> OpResult true) ops ->
   exists b, binding_run inf_binding_close ops Binding_ctor = Ret b /\ closes b = 1%nat /\ life b = MgrDeleted) /\
  binding_run inf_binding_close (OpResult true :: ops) Binding_ctor = UB.
Proof.
  destruct (fib_binding_run ops Binding_ctor) as (b & Hr & Hc & Hl); [by left|].
  assert (Hiff : life b = MgrDeleted <-> Forall (fun op => script_closes op = false) ops)
    by (rewrite Hl; simpl; tauto).
  split_and!; [by exists b|by exists b| |done].
  intros Hops. destruct (inf_binding_run ops Binding_ctor (or_introl eq_refl) Hops) as [-> | ->]; eauto.
Qed.

(** A script sees exact Fibonacci numbers up to index 78: the callback gets the result as
    a double, and the number with index 79 is the first that a double cannot hold. *)
Theorem fib_callback_exact n id cb (m : FibManager) :
  ((n <= 78)%nat ->
   (fib_on_result (mkFibResult id (compute_fib n) 0 cb) m).1 = (JSNull, JSNumber (fib n).1)) /\
  (fib_on_result (mkFibResult id (u64 (fib 79).1) 0 cb) m).1 <> (JSNull, JSNumber (fib 79).1).
Proof.
  split; [|by vm_compute]. intros Hn. destruct (fib_mono n 78 Hn) as (Hb & _).
  assert (H78 : (fib 78).1 < 2 ^ 53) by (by vm_compute).
  unfold fib_on_result. cbn [fst fr_result fr_error negb]. rewrite (proj1 (compute_fib_spec n)), wrap_small
    by (unfold uint_ok; lia).
  unfold double_of_u64. change (0 =? 0) with true. cbn [negb]. by destruct (Z.ltb_spec (fib n).1 (2 ^ 53)); [|lia].
Qed.

(** A model class of 32 or more bytes passes the check of the dispatch, which uses the
    whole name, but the job carries the first 31 bytes: the worker then answers that the
    model is not available. *)
Theorem inf_long_class_unavailable {L} (llama : Llama L) models_ w c sid cid prompt cb id :
  cstr c ∈ models_ -> (32 <= length (cstr c))%nat ->
  take 31 (cstr c) ∉ models_ -> take 31 (cstr c) ∉ ctxs_ w ->
  exists mk, inf_job models_ (Some c) sid cid prompt cb = Some mk /\
    ij_model_class (iw_job (mk id)) <> cstr c /\
    (run_inference llama models_ w (mk id)).2 = [send_error id cb msg_no_model].
Proof.
  intros Hin Hlen Hm Hc. unfold inf_job. rewrite decide_True by done. eexists. split; [done|]. simpl.
  unfold run_inference, get_or_create_ctx, snprintf_s. simpl ij_model_class.
  change (32 - 1)%nat with 31%nat. rewrite !decide_False by done. split; [|done].
  intros Heq. apply (f_equal length) in Heq. rewrite length_take in Heq. lia.
Qed.

(** The constructors always build a pool with at least one worker: [pick_worker] never
    divides by zero, and neither does [spawn_workers]. *)
Theorem engines_have_workers {J L} worker_size di dr (jt : thread_at J JSResult) dji djr load entries
    workers nprocs dii dir (l : L) :
  workers_ (fib_manager_ctor worker_size di dr) <> [] /\
  workers_ (js_manager_ctor worker_size dji djr jt) <> [] /\
  exists models cores m, inf_manager_ctor load entries workers nprocs dii dir l = Ret (models, cores, m) /\
    workers_ m <> [].
Proof.
  assert (Hpos : forall v d, 0 < d -> 0 < positive_option v d).
  { intros [v|] d Hd; simpl; [|done]. destruct (Z.ltb_spec 0 v); lia. }
  assert (Hclamp : 1 <= clamp_worker_size worker_size).
  { unfold clamp_worker_size. destruct (Z.ltb_spec (default 1 worker_size) 1); lia. }
  unfold fib_manager_ctor, js_manager_ctor. simpl.
  replace (Z.to_nat (clamp_worker_size worker_size)) with (S (Z.to_nat (clamp_worker_size worker_size - 1))) by lia.
  split; [done|]. split; [done|]. unfold inf_manager_ctor, spawn_workers.
  pose proof (Hpos workers 1 ltac:(lia)). destruct (Z.eqb_spec (positive_option workers 1) 0); [lia|].
  cbn [mbind outcome_bind]. eexists _, _, _. split; [done|]. simpl.
  by replace (Z.to_nat (positive_option workers 1)) with (S (Z.to_nat (positive_option workers 1 - 1))) by lia.
Qed.

(** ** Witnesses *)

Lemma script_object_lifecycle_witness :
  exists b, binding_run inf_binding_close [OpUse; OpClose; OpUse] Binding_ctor = Ret b /\ closes b = 1%nat /\
    life b = MgrDeleted.
Proof.
  refine (proj1 (proj2 (proj2 (script_object_lifecycle [OpUse; OpClose; OpUse]))) _).
  repeat constructor; discriminate.
Defined.

Lemma fib_callback_exact_witness :
  (fib_on_result (mkFibResult 0 (compute_fib 12) 0 5) fib_manager).1 = (JSNull, JSNumber 144).
Proof. exact (proj1 (fib_callback_exact 12 0 5 fib_manager) ltac:(lia)). Defined.

Definition long_class : list Z := replicate 40 97.

Lemma inf_long_class_unavailable_witness :
  exists mk, inf_job {[long_class]} (Some long_class) None None None 5 = Some mk /\
    ij_model_class (iw_job (mk 0)) <> cstr long_class /\
    (run_inference toy_llama {[long_class]} (mkInfThread 0%nat ∅) (mk 0)).2 = [send_error 0 5 msg_no_model].
Proof.
  refine (inf_long_class_unavailable toy_llama {[long_class]} (mkInfThread 0%nat ∅) long_class None None None 5 0 _ _ _ _).
  - by apply (bool_decide_unpack _).
  - vm_compute. lia.
  - by apply (bool_decide_unpack _).
  - by apply (bool_decide_unpack _).
Defined.
