(* ===== verification/FileSystem.v ===== *)
(** The file API of scripts: src/builtins/fs.cc and include/file_system.h.

    [open], [read] and [close] only submit a request; libuv's thread pool executes it (the
    system call and, for a read, the write into the buffer) and the loop then runs its
    callback. Requests execute and complete in any order, and the finalizer may delete the object at
    any time, since no request keeps it. Objects are pointers into a store
    of live [FileOpState]s and buffers, so that a use after free is an outcome. *)

From S2P Require Import Prelude.

(** A [FileOpState]; [fo_buf] points to the buffer. *)
Record FileOpState := mkFileOp { fo_fd : Z; fo_buf : option nat; fo_buf_len : Z }.

(** The requests, with their [FsOpPacket]: the state, the callback and, for a read, the
    buffer and length given to [uv_fs_read]. *)
Inductive fs_request :=
| ROpen (state : nat) (cb : nat)
| RRead (state : nat) (buf : nat) (len : Z) (cb : nat)
| RClose (state : nat) (fd : Z).

Definition req_state (r : fs_request) : nat :=
  match r with ROpen p _ => p | RRead p _ _ _ => p | RClose p _ => p end.
Definition is_close (r : fs_request) : bool := match r with RClose _ _ => true | _ => false end.

(** What a callback of the script is called with. *)
Inductive fs_reply := RepErr (err : Z) | RepFd (fd : Z) | RepData (data : list Z).

(** What the system call of a request returns: an error or the result of a close, a new
    descriptor, or the bytes read; and the [result] of the request. *)
Inductive kernel_answer := KRet (e : Z) | KFd (fd : Z) | KData (bytes : list Z).
Definition result (k : kernel_answer) : Z :=
  match k with KRet e => e | KFd fd => fd | KData bytes => Z.of_nat (length bytes) end.

(** [pending]: submitted and not yet executed; [executed]: with the answer, callback still
    to run; [kernel_fds]: the descriptors the process has open; [replies], [cb_dup] and
    [cb_freed] record the calls and references of script callbacks; [alive]: the object has not been
    deleted by its finalizer. *)
Record FileSystem := mkFS {
  fd_state : gmap Z nat; states : gmap nat FileOpState; buffers : gmap nat (list Z); next_ptr : nat;
  pending : list fs_request; executed : list (fs_request * kernel_answer); kernel_fds : gset Z;
  replies : list (nat * fs_reply); cb_dup : list nat; cb_freed : list nat;
  alive : bool }.

Definition FileSystem_ctor (fds : gset Z) : FileSystem := mkFS ∅ ∅ ∅ 0 [] [] fds [] [] [] true.

(** ** The script's calls *)

Definition open_file_async (cb : nat) (s : FileSystem) : FileSystem :=
  mkFS (fd_state s) (<[next_ptr s := mkFileOp (-1) None 0]> (states s)) (buffers s) (S (next_ptr s))
    (pending s ++ [ROpen (next_ptr s) cb]) (executed s) (kernel_fds s) (replies s) (cb_dup s ++ [cb])
    (cb_freed s) (alive s).

(** [new char[buf_len]] throws for a negative length, which ends the program. *)
Definition read_file_async (fd buf_len : Z) (cb : nat) (s : FileSystem) : outcome FileSystem :=
  match fd_state s !! s32 fd with
  | None => Ret s
  | Some p =>
      match states s !! p with
      | None => UB
      | Some st =>
          let submit sts bufs ptr b :=
            mkFS (fd_state s) sts bufs ptr (pending s ++ [RRead p b buf_len cb]) (executed s)
              (kernel_fds s) (replies s) (cb_dup s ++ [cb]) (cb_freed s) (alive s) in
          match fo_buf st with
          | Some b =>
              if fo_buf_len st =? wrap 64 buf_len then Ret (submit (states s) (buffers s) (next_ptr s) b)
              else if buf_len <? 0 then AssertFail
              else
                Ret (submit (<[p := mkFileOp (fo_fd st) (Some (next_ptr s)) buf_len]> (states s))
                       (<[next_ptr s := replicate (Z.to_nat buf_len) 0]> (delete b (buffers s)))
                       (S (next_ptr s)) (next_ptr s))
          | None =>
              if buf_len <? 0 then AssertFail
              else
                Ret (submit (<[p := mkFileOp (fo_fd st) (Some (next_ptr s)) buf_len]> (states s))
                       (<[next_ptr s := replicate (Z.to_nat buf_len) 0]> (buffers s))
                       (S (next_ptr s)) (next_ptr s))
          end
      end
  end.

Definition close_file_async (fd : Z) (s : FileSystem) : FileSystem :=
  match fd_state s !! s32 fd with
  | None => s
  | Some p =>
      mkFS (fd_state s) (states s) (buffers s) (next_ptr s) (pending s ++ [RClose p (s32 fd)]) (executed s)
        (kernel_fds s) (replies s) (cb_dup s) (cb_freed s) (alive s)
  end.

(** The finalizer of the object: its map is gone, the states, buffers and descriptors stay. *)
Definition fs_finalizer (s : FileSystem) : FileSystem :=
  mkFS ∅ (states s) (buffers s) (next_ptr s) (pending s) (executed s) (kernel_fds s) (replies s) (cb_dup s)
    (cb_freed s) false.

(** ** The thread pool *)

Definition exec_request (r : fs_request) (rest : list fs_request) (k : kernel_answer) (s : FileSystem) :
    outcome FileSystem :=
  let done bufs fds :=
    mkFS (fd_state s) (states s) bufs (next_ptr s) rest (executed s ++ [(r, k)]) fds (replies s)
      (cb_dup s) (cb_freed s) (alive s) in
  match r, k with
  | ROpen _ _, KFd fd => Ret (done (buffers s) ({[fd]} ∪ kernel_fds s))
  | RRead _ b len _, KData bytes =>
      match buffers s !! b with
      | None => UB                                 (* the kernel writes into freed memory *)
      | Some old => Ret (done (<[b := bytes ++ drop (length bytes) old]> (buffers s)) (kernel_fds s))
      end
  | RClose _ fd, KRet e => Ret (done (buffers s) (kernel_fds s ∖ {[fd]}))
  | _, KRet e => Ret (done (buffers s) (kernel_fds s))
  | _, _ => Ret s
  end.

(** ** The callbacks *)

Definition open_file_async_cb (p : nat) (cb : nat) (result : Z) (rest : list (fs_request * kernel_answer)) (s : FileSystem) :
    outcome FileSystem :=
  match states s !! p with
  | None => UB
  | Some st =>
      if result <? 0 then
        Ret (mkFS (fd_state s) (states s) (buffers s) (next_ptr s) (pending s) rest (kernel_fds s)
               (replies s ++ [(cb, RepErr result)]) (cb_dup s) (cb_freed s ++ [cb]) (alive s))
      else if negb (alive s) then UB                 (* [owner] has been deleted *)
      else
        Ret (mkFS (<[result := p]> (fd_state s)) (<[p := mkFileOp result (fo_buf st) (fo_buf_len st)]> (states s))
               (buffers s) (next_ptr s) (pending s) rest (kernel_fds s)
               (replies s ++ [(cb, RepFd result)]) (cb_dup s) (cb_freed s ++ [cb]) (alive s))
  end.

(** The data is taken from the buffer the state has when the callback runs. *)
Definition read_file_async_cb (p : nat) (cb : nat) (result : Z) (rest : list (fs_request * kernel_answer)) (s : FileSystem) :
    outcome FileSystem :=
  match states s !! p with
  | None => UB
  | Some st =>
      let reply rep :=
        mkFS (fd_state s) (states s) (buffers s) (next_ptr s) (pending s) rest (kernel_fds s)
          (replies s ++ [(cb, rep)]) (cb_dup s) (cb_freed s ++ [cb]) (alive s) in
      if result <? 0 then Ret (reply (RepErr result))
      else
        match fo_buf st ≫= (buffers s !!.) with
        | None => UB
        | Some data =>
            if Z.of_nat (length data) <? result then UB
            else Ret (reply (RepData (take (Z.to_nat result) data)))
        end
  end.

Definition delete_buffer (b : option nat) (bufs : gmap nat (list Z)) : gmap nat (list Z) :=
  match b with Some b => delete b bufs | None => bufs end.

Definition close_file_async_cb (p : nat) (rest : list (fs_request * kernel_answer)) (s : FileSystem) : outcome FileSystem :=
  match states s !! p with
  | None => UB
  | Some st =>
      if negb (alive s) then UB else
      Ret (mkFS (delete (fo_fd st) (fd_state s)) (delete p (states s)) (delete_buffer (fo_buf st) (buffers s))
             (next_ptr s) (pending s) rest (kernel_fds s) (replies s) (cb_dup s) (cb_freed s) (alive s))
  end.

Definition complete_request (r : fs_request) (result : Z) (rest : list (fs_request * kernel_answer)) (s : FileSystem) :
    outcome FileSystem :=
  match r with
  | ROpen p cb => open_file_async_cb p cb result rest s
  | RRead p _ _ cb => read_file_async_cb p cb result rest s
  | RClose p _ => close_file_async_cb p rest s
  end.

(** ** Runs *)

(** Documented behaviour of the system calls: [open] returns a descriptor that is not open,
    [read] at most as many bytes as asked for, and errors are negative. *)
Definition kernel_ok (r : fs_request) (k : kernel_answer) (s : FileSystem) : Prop :=
  match r, k with
  | ROpen _ _, KFd fd => 0 <= fd < 2 ^ 31 /\ fd ∉ kernel_fds s
  | RRead _ _ len _, KData bytes => Z.of_nat (length bytes) <= len
  | RClose _ _, KRet e => e <= 0
  | ROpen _ _, KRet e | RRead _ _ _ _, KRet e => e < 0
  | _, _ => False
  end.

Definition inflight (s : FileSystem) : list fs_request := pending s ++ (executed s).*1.

(** What may happen next, and its outcome. Scripts have the object until it is collected, which
    can be at any time: no request refers to it. *)
Inductive fs_step (s : FileSystem) : outcome FileSystem -> Prop :=
| fs_open cb : alive s = true -> fs_step s (Ret (open_file_async cb s))
| fs_read fd len cb : alive s = true -> fs_step s (read_file_async fd len cb s)
| fs_close fd : alive s = true -> fs_step s (Ret (close_file_async fd s))
| fs_collect : alive s = true -> fs_step s (Ret (fs_finalizer s))
| fs_exec pre r post k :
    pending s = pre ++ r :: post -> kernel_ok r k s -> fs_step s (exec_request r (pre ++ post) k s)
| fs_done pre r k post :
    executed s = pre ++ (r, k) :: post -> fs_step s (complete_request r (result k) (pre ++ post) s).

(** A careful script: it reads a file only while no close of it is under way, with a length
    that is not negative and that is the one of the reads in flight, it closes a file
    only while no request for it is in flight, and it keeps the object while an open or a close is
    in flight. If it is [strict], it also reads a file only while no request for it is in flight. *)
Definition read_allowed (fd len : Z) (s : FileSystem) : Prop :=
  0 <= len < 2 ^ 31 /\
  forall p, fd_state s !! s32 fd = Some p ->
    Forall (fun r => req_state r = p -> is_close r = false) (inflight s) /\
    Forall (fun r => match r with RRead p' _ len' _ => p' = p -> len' = len | _ => True end) (inflight s).

Definition close_allowed (fd : Z) (s : FileSystem) : Prop :=
  forall p, fd_state s !! s32 fd = Some p -> Forall (fun r => req_state r <> p) (inflight s).

Definition is_read (r : fs_request) : bool := match r with RRead _ _ _ _ => true | _ => false end.
Definition collect_allowed (s : FileSystem) : Prop := Forall (fun r => is_read r = true) (inflight s).

Inductive fs_careful (strict : bool) (s : FileSystem) : outcome FileSystem -> Prop :=
| fc_open cb : alive s = true -> fs_careful strict s (Ret (open_file_async cb s))
| fc_read fd len cb : alive s = true -> read_allowed fd len s -> (strict = true -> close_allowed fd s) ->
    fs_careful strict s (read_file_async fd len cb s)
| fc_close fd : alive s = true -> close_allowed fd s -> fs_careful strict s (Ret (close_file_async fd s))
| fc_collect : alive s = true -> collect_allowed s -> fs_careful strict s (Ret (fs_finalizer s))
| fc_exec pre r post k :
    pending s = pre ++ r :: post -> kernel_ok r k s -> fs_careful strict s (exec_request r (pre ++ post) k s)
| fc_done pre r k post :
    executed s = pre ++ (r, k) :: post -> fs_careful strict s (complete_request r (result k) (pre ++ post) s).

Inductive fs_reachable (step : FileSystem -> outcome FileSystem -> Prop) (s0 : FileSystem) : FileSystem -> Prop :=
| fr_start : fs_reachable step s0 s0
| fr_step s s' : fs_reachable step s0 s -> step s (Ret s') -> fs_reachable step s0 s'.

(** ** The invariant of a careful script *)

(** Requests that must be the only one for their state. *)
Definition exclusive (r : fs_request) : bool := negb (is_read r).

Definition alone (infl : list fs_request) : Prop :=
  forall r rest, infl ≡ₚ r :: rest -> exclusive r = true -> Forall (fun r' => req_state r' <> req_state r) rest.

(** What a request in flight relies on. *)
Definition request_ok (sts : gmap nat FileOpState) (r : fs_request) : Prop :=
  exists st, sts !! req_state r = Some st /\
  match r with
  | ROpen _ _ => fo_fd st = -1 /\ fo_buf st = None
  | RRead _ b len _ => fo_buf st = Some b /\ fo_buf_len st = len
  | RClose _ _ => True
  end.

Record finv (s : FileSystem) : Prop := {
  f_alone : alone (inflight s);
  f_requests : Forall (request_ok (states s)) (inflight s);
  f_results : Forall (fun x => match x.1 with
      | RRead _ _ len _ => result x.2 <= len
      | _ => True end) (executed s);
  f_fds : forall f p, fd_state s !! f = Some p -> 0 <= f /\ exists st, states s !! p = Some st /\ fo_fd st = f;
  f_bufs : forall p st b, states s !! p = Some st -> fo_buf st = Some b ->
    exists data, buffers s !! b = Some data /\ Z.of_nat (length data) = fo_buf_len st;
  f_inj : forall p1 p2 st1 st2 b, states s !! p1 = Some st1 -> states s !! p2 = Some st2 ->
    fo_buf st1 = Some b -> fo_buf st2 = Some b -> p1 = p2;
  f_next : forall p, is_Some (states s !! p) \/ is_Some (buffers s !! p) -> (p < next_ptr s)%nat;
  f_alive : alive s = false -> collect_allowed s
}.

Lemma perm_cons_cases {A} (x y : A) l l' :
  x :: l ≡ₚ y :: l' -> (x = y /\ l ≡ₚ l') \/ exists l'', l ≡ₚ y :: l'' /\ l' ≡ₚ x :: l''.
Proof.
  intros H. destruct (Permutation_vs_cons_inv H) as (l1 & l2 & Heq).
  destruct l1 as [|z l1]; simpl in Heq; injection Heq as <- ->.
  - left. split; [done|]. by apply Permutation.Permutation_cons_inv in H.
  - right. exists (l1 ++ l2). split; [by rewrite Permutation_middle|].
    rewrite <- Permutation_middle, Permutation_swap in H. symmetry.
    by apply Permutation.Permutation_cons_inv in H.
Qed.

Lemma alone_perm l l' : l ≡ₚ l' -> alone l -> alone l'.
Proof. intros Hp Ha r rest Hr. apply Ha. by rewrite Hp. Qed.

Lemma alone_tail r l : alone (r :: l) -> alone l.
Proof.
  intros Ha r' rest Hr He. specialize (Ha r' (r :: rest)). rewrite list.Forall_cons in Ha.
  apply Ha; [|done]. rewrite Hr. apply Permutation_swap.
Qed.

Lemma alone_cons r l :
  alone l -> (exclusive r = true -> Forall (fun r' => req_state r' <> req_state r) l) ->
  Forall (fun r' => exclusive r' = true -> req_state r' <> req_state r) l -> alone (r :: l).
Proof.
  intros Ha Hr Hl r' rest Hp He. apply perm_cons_cases in Hp as [[<- Hp]|(l'' & Hl' & Hrest)].
  - rewrite <- Hp. by apply Hr.
  - rewrite Hrest. constructor; [|by apply Ha].
    rewrite list.Forall_forall in Hl. apply not_eq_sym, Hl; [|done]. rewrite Hl'. by left.
Qed.

(** [Forall_impl] with membership at hand. *)
Lemma Forall_impl_elem {A} (P Q : A -> Prop) l :
  Forall P l -> (forall x, x ∈ l -> P x -> Q x) -> Forall Q l.
Proof. rewrite !list.Forall_forall. eauto. Qed.

Lemma request_live s r : finv s -> r ∈ inflight s -> (req_state r < next_ptr s)%nat.
Proof.
  intros Hf Hr. destruct (proj1 (list.Forall_forall _ _) (f_requests _ Hf) r Hr) as (st & Hst & _).
  apply (f_next _ Hf). left. eauto.
Qed.

(** A request for a fresh state or one that has no exclusive request. *)
Lemma alone_submit s r :
  finv s -> (exclusive r = true -> Forall (fun r' => req_state r' <> req_state r) (inflight s)) ->
  Forall (fun r' => exclusive r' = true -> req_state r' <> req_state r) (inflight s) ->
  alone (r :: inflight s).
Proof. intros Hf. apply alone_cons, Hf. Qed.

Lemma pending_snoc_perm s r (e : list (fs_request * kernel_answer)) :
  (pending s ++ [r]) ++ e.*1 ≡ₚ r :: pending s ++ e.*1.
Proof. rewrite <- app_assoc. simpl. symmetry. apply Permutation_middle. Qed.

Lemma finv_open cb s : finv s -> alive s = true -> finv (open_file_async cb s).
Proof.
  intros Hf Hal. pose proof Hf as [H1 H2 H3 H4 H5 H6 H7 H8].
  assert (Hfresh : states s !! next_ptr s = None).
  { destruct (states s !! next_ptr s) eqn:E; [|done].
    assert (next_ptr s < next_ptr s)%nat by (apply H7; left; eauto). lia. }
  assert (Hall : Forall (fun r => req_state r <> next_ptr s) (inflight s)).
  { apply list.Forall_forall. intros r Hr. pose proof (request_live s r Hf Hr). lia. }
  assert (Hp := pending_snoc_perm s (ROpen (next_ptr s) cb) (executed s)).
  split; unfold inflight; simpl; try done.
  - eapply alone_perm; [symmetry; exact Hp|]. apply alone_submit; [done|done|].
    eapply list.Forall_impl; [exact Hall|]. by simpl.
  - rewrite Hp. constructor.
    + eexists. simpl. by rewrite lookup_insert_eq.
    + eapply Forall_impl_elem; [exact H2|]. intros r Hr (st & Hst & Hok). exists st. split; [|done].
      rewrite lookup_insert_ne; [done|]. rewrite list.Forall_forall in Hall. by apply not_eq_sym, Hall.
  - intros f p Hfp. destruct (H4 f p Hfp) as (? & st & Hst & ?). split; [done|]. exists st. split; [|done].
    rewrite lookup_insert_ne; [done|]. congruence.
  - intros p st b Hst Hb. apply lookup_insert_Some in Hst as [[<- <-]|[_ Hst]]; [done|eauto].
  - intros p1 p2 st1 st2 b Hs1 Hs2 Hb1 Hb2.
    apply lookup_insert_Some in Hs1 as [[<- <-]|[_ Hs1]]; [done|].
    apply lookup_insert_Some in Hs2 as [[<- <-]|[_ Hs2]]; [done|eauto].
  - intros p [[st Hst]|Hb]; [|by apply Nat.lt_lt_succ_r, H7; right].
    apply lookup_insert_Some in Hst as [[<- _]|[_ Hst]]; [lia|].
    apply Nat.lt_lt_succ_r, H7. left. eauto.
  - congruence.
Qed.

(** No open and no close of the state is in flight when a careful script may read it. *)
Lemma read_not_exclusive s fd len p :
  finv s -> read_allowed fd len s -> fd_state s !! s32 fd = Some p ->
  Forall (fun r => exclusive r = true -> req_state r <> p) (inflight s).
Proof.
  intros Hf [_ Ha] Hp. destruct (Ha p Hp) as [Hc _]. destruct (f_fds _ Hf _ _ Hp) as (H0 & st & Hst & Hfd).
  apply list.Forall_forall. intros r Hr He Heq. rewrite list.Forall_forall in Hc. specialize (Hc r Hr Heq).
  destruct (proj1 (list.Forall_forall _ _) (f_requests _ Hf) r Hr) as (st' & Hst' & Hok).
  rewrite Heq, Hst in Hst'. injection Hst' as <-. destruct r; simpl in *; try done. lia.
Qed.

(** A read that gives the state a new buffer: no request for the state is in flight. *)
Lemma resize_idle s fd len p st :
  finv s -> read_allowed fd len s -> fd_state s !! s32 fd = Some p -> states s !! p = Some st ->
  (fo_buf st = None \/ fo_buf_len st <> len) -> Forall (fun r => req_state r <> p) (inflight s).
Proof.
  intros Hf Ha Hp Hst Hb. pose proof (read_not_exclusive _ _ _ _ Hf Ha Hp) as Hx.
  destruct (proj2 Ha p Hp) as [_ Hl]. apply list.Forall_forall. intros r Hr Heq.
  rewrite list.Forall_forall in Hx, Hl. specialize (Hx r Hr). specialize (Hl r Hr).
  destruct (proj1 (list.Forall_forall _ _) (f_requests _ Hf) r Hr) as (st' & Hst' & Hok).
  rewrite Heq, Hst in Hst'. injection Hst' as <-. destruct r; simpl in *; [by apply Hx| |by apply Hx].
  destruct Hok as [Hbuf Hlen]. specialize (Hl Heq). destruct Hb as [Hb|Hb]; congruence.
Qed.

Lemma finv_submit_read s p b len cb :
  finv s -> alive s = true -> Forall (fun r => exclusive r = true -> req_state r <> p) (inflight s) ->
  request_ok (states s) (RRead p b len cb) ->
  finv (mkFS (fd_state s) (states s) (buffers s) (next_ptr s) (pending s ++ [RRead p b len cb]) (executed s)
          (kernel_fds s) (replies s) (cb_dup s ++ [cb]) (cb_freed s) (alive s)).
Proof.
  intros Hf Hal Hx Hok. pose proof Hf as [H1 H2 H3 H4 H5 H6 H7 H8].
  assert (Hp := pending_snoc_perm s (RRead p b len cb) (executed s)).
  split; unfold inflight; simpl; try done.
  - eapply alone_perm; [symmetry; exact Hp|]. by apply alone_submit.
  - rewrite Hp. by constructor.
  - congruence.
Qed.

(** The state of the file system after [p] got a new buffer. *)
Lemma finv_new_buffer s p st len :
  finv s -> states s !! p = Some st -> 0 <= len -> Forall (fun r => req_state r <> p) (inflight s) ->
  finv (mkFS (fd_state s) (<[p := mkFileOp (fo_fd st) (Some (next_ptr s)) len]> (states s))
          (<[next_ptr s := replicate (Z.to_nat len) 0]> (delete_buffer (fo_buf st) (buffers s)))
          (S (next_ptr s)) (pending s) (executed s) (kernel_fds s) (replies s) (cb_dup s) (cb_freed s) (alive s)).
Proof.
  intros Hf Hst Hlen Hidle. pose proof Hf as [H1 H2 H3 H4 H5 H6 H7 H8].
  assert (Hnb : forall q st' b, states s !! q = Some st' -> fo_buf st' = Some b -> b <> next_ptr s).
  { intros q st' b Hq Hb. destruct (H5 q st' b Hq Hb) as (data & Hd & _).
    assert (b < next_ptr s)%nat by (apply H7; right; eauto). lia. }
  split; simpl; try done.
  - eapply Forall_impl_elem; [exact H2|]. intros r Hr (st' & Hst' & Hok). exists st'. split; [|done].
    rewrite lookup_insert_ne; [done|]. rewrite list.Forall_forall in Hidle. by apply not_eq_sym, Hidle.
  - intros f q Hq. destruct (H4 f q Hq) as (? & st' & Hst' & ?). split; [done|]. rewrite lookup_insert.
    destruct (decide (p = q)) as [<-|]; [|eauto]. eexists. split; [done|]. simpl. congruence.
  - intros q st' b Hq Hb. apply lookup_insert_Some in Hq as [[<- <-]|[Hne Hq]]; simpl in *.
    + injection Hb as <-. rewrite lookup_insert_eq. eexists. split; [done|]. rewrite length_replicate. lia.
    + rewrite lookup_insert_ne by (apply not_eq_sym; by eapply Hnb). destruct (H5 q st' b Hq Hb) as (data & Hd & ?).
      exists data. split; [|done]. destruct (fo_buf st) as [b0|] eqn:Eb; simpl; [|done].
      rewrite lookup_delete_ne; [done|]. intros ->. by apply Hne, (H6 p q st st' b).
  - intros q1 q2 st1 st2 b Hq1 Hq2 Hb1 Hb2.
    apply lookup_insert_Some in Hq1 as [[<- <-]|[_ Hq1]]; apply lookup_insert_Some in Hq2 as [[<- <-]|[_ Hq2]]; simpl in *.
    + done.
    + injection Hb1 as <-. by destruct (Hnb _ _ _ Hq2 Hb2).
    + injection Hb2 as <-. by destruct (Hnb _ _ _ Hq1 Hb1).
    + eauto.
  - intros q [[st' Hq]|[d Hq]]; apply lookup_insert_Some in Hq as [[<- _]|[_ Hq]]; [|..|lia|].
    + apply Nat.lt_lt_succ_r, H7. left. eauto.
    + apply Nat.lt_lt_succ_r, H7. left. eauto.
    + apply Nat.lt_lt_succ_r, H7. right. destruct (fo_buf st); simpl in Hq; [|eauto].
      apply lookup_delete_Some in Hq as [_ Hq]. eauto.
Qed.

Lemma finv_read fd len cb s :
  finv s -> alive s = true -> read_allowed fd len s -> exists s', read_file_async fd len cb s = Ret s' /\ finv s'.
Proof.
  intros Hf Hal Ha. unfold read_file_async. destruct (fd_state s !! s32 fd) as [p|] eqn:Ep; [|by eauto].
  destruct (f_fds _ Hf _ _ Ep) as (_ & st & Hst & _). rewrite Hst.
  pose proof (read_not_exclusive _ _ _ _ Hf Ha Ep) as Hx. pose proof (proj1 Ha) as Hlen.
  pose proof (resize_idle _ _ _ _ st Hf Ha Ep Hst) as Hi.
  rewrite wrap_small by (unfold uint_ok; lia).
  assert (Hnew : Forall (fun r => req_state r <> p) (inflight s) ->
    finv (mkFS (fd_state s) (<[p:=mkFileOp (fo_fd st) (Some (next_ptr s)) len]> (states s))
            (<[next_ptr s:=replicate (Z.to_nat len) 0]> (delete_buffer (fo_buf st) (buffers s)))
            (S (next_ptr s)) (pending s ++ [RRead p (next_ptr s) len cb]) (executed s) (kernel_fds s)
            (replies s) (cb_dup s ++ [cb]) (cb_freed s) (alive s))).
  { intros Hidle. refine (finv_submit_read _ p (next_ptr s) len cb (finv_new_buffer s p st len Hf Hst _ Hidle) Hal Hx _);
      [lia|]. eexists. simpl. by rewrite lookup_insert_eq. }
  destruct (fo_buf st) as [b|] eqn:Eb.
  - destruct (Z.eqb_spec (fo_buf_len st) len) as [El|El].
    + eexists. split; [done|]. apply finv_submit_read; [done|done|done|]. exists st. simpl. auto.
    + destruct (Z.ltb_spec len 0); [lia|]. eexists. split; [done|]. by apply Hnew, Hi; right.
  - destruct (Z.ltb_spec len 0); [lia|]. eexists. split; [done|]. by apply Hnew, Hi; left.
Qed.

Lemma finv_close fd s : finv s -> alive s = true -> close_allowed fd s -> finv (close_file_async fd s).
Proof.
  intros Hf Hal Ha. unfold close_file_async. destruct (fd_state s !! s32 fd) as [p|] eqn:Ep; [|done].
  pose proof Hf as [H1 H2 H3 H4 H5 H6 H7 H8]. specialize (Ha p Ep).
  destruct (H4 _ _ Ep) as (_ & st & Hst & _).
  assert (Hp := pending_snoc_perm s (RClose p (s32 fd)) (executed s)).
  split; unfold inflight; simpl; try done.
  - eapply alone_perm; [symmetry; exact Hp|]. apply alone_submit; [done|done|].
    eapply list.Forall_impl; [exact Ha|]. by simpl.
  - rewrite Hp. constructor; [|done]. by exists st.
  - congruence.
Qed.

Lemma finv_finalizer s : finv s -> collect_allowed s -> finv (fs_finalizer s).
Proof. intros [H1 H2 H3 H4 H5 H6 H7 H8] Ha. by split. Qed.

Lemma exec_perm s pre r post res :
  pending s = pre ++ r :: post -> (pre ++ post) ++ (executed s ++ [(r, res)]).*1 ≡ₚ inflight s.
Proof.
  intros Hp. unfold inflight. rewrite Hp, fmap_app. simpl. rewrite <- !app_assoc. simpl.
  apply Permutation_app_head. rewrite Permutation_app_comm, <- app_assoc. simpl.
  rewrite <- Permutation_middle, Permutation_app_comm. done.
Qed.

(** Moving a request from pending to executed, with the buffers changed in place. *)
Lemma finv_executed s pre r post res bufs fds :
  finv s -> pending s = pre ++ r :: post ->
  match r with RRead _ _ len _ => result res <= len | _ => True end ->
  (forall b data, buffers s !! b = Some data -> exists data', bufs !! b = Some data' /\ length data' = length data) ->
  (forall b, is_Some (bufs !! b) -> is_Some (buffers s !! b)) ->
  finv (mkFS (fd_state s) (states s) bufs (next_ptr s) (pre ++ post) (executed s ++ [(r, res)]) fds
          (replies s) (cb_dup s) (cb_freed s) (alive s)).
Proof.
  intros [H1 H2 H3 H4 H5 H6 H7 H8] Hp Hres Hb1 Hb2. pose proof (exec_perm s pre r post res Hp) as Hperm.
  split; unfold inflight; simpl; try done.
  - eapply alone_perm; [symmetry; exact Hperm|done].
  - by rewrite Hperm.
  - apply list.Forall_app. split; [done|]. by repeat constructor.
  - intros p st b Hst Hb. destruct (H5 p st b Hst Hb) as (data & Hd & Hl).
    destruct (Hb1 b data Hd) as (data' & Hd' & Hl'). exists data'. by rewrite Hl'.
  - intros p [Hs|Hb]; apply H7; auto.
  - unfold collect_allowed, inflight. simpl. by rewrite Hperm.
Qed.

Lemma finv_exec s pre r post k :
  finv s -> pending s = pre ++ r :: post -> kernel_ok r k s ->
  exists s', exec_request r (pre ++ post) k s = Ret s' /\ finv s'.
Proof.
  intros Hf Hp Hk. assert (Hr : r ∈ inflight s) by (unfold inflight; rewrite Hp; set_solver).
  pose proof (proj1 (list.Forall_forall _ _) (f_requests _ Hf) r Hr) as Hok.
  destruct r as [p cb|p b len cb|p fd], k as [e|fd'|bytes]; simpl in Hk; try done; simpl.
  - eexists. split; [done|]. eapply finv_executed; eauto.
  - eexists. split; [done|]. eapply finv_executed; eauto.
  - eexists. split; [done|]. destruct Hok as (st & Hst & Hb & Hl). simpl in Hst.
    eapply finv_executed; eauto. destruct (f_bufs _ Hf p st b Hst Hb) as (data & _ & Hlen). simpl. lia.
  - destruct Hok as (st & Hst & Hb & Hl). simpl in Hst.
    destruct (f_bufs _ Hf p st b Hst Hb) as (old & Ho & Hlen). rewrite Ho. eexists. split; [done|].
    eapply finv_executed; eauto.
    + intros b' data Hd. rewrite lookup_insert. destruct (decide (b = b')) as [<-|]; [|eauto].
      eexists. split; [done|]. rewrite length_app, length_drop. rewrite Ho in Hd. injection Hd as <-. lia.
    + intros b' Hb'. rewrite lookup_insert in Hb'. destruct (decide (b = b')) as [<-|]; [|done]. eauto.
  - eexists. split; [done|]. eapply finv_executed; eauto.
Qed.

Lemma done_perm s pre r res post :
  executed s = pre ++ (r, res) :: post -> inflight s ≡ₚ r :: pending s ++ (pre ++ post).*1.
Proof.
  intros He. unfold inflight. rewrite He, !fmap_app. simpl. rewrite app_assoc.
  rewrite <- Permutation_middle, <- app_assoc. done.
Qed.

(** Dropping a completed request; [sts] are the states after its callback. *)
Lemma finv_completed s pre r res post fds sts bufs reps dup freed :
  finv s -> executed s = pre ++ (r, res) :: post ->
  (forall q, q <> req_state r \/ exclusive r = false -> sts !! q = states s !! q) ->
  (forall f p, fds !! f = Some p -> 0 <= f /\ exists st, sts !! p = Some st /\ fo_fd st = f) ->
  (forall p st b, sts !! p = Some st -> fo_buf st = Some b ->
     exists st', states s !! p = Some st' /\ fo_buf st' = Some b /\ fo_buf_len st' = fo_buf_len st /\
       bufs !! b = buffers s !! b) ->
  (forall p, is_Some (sts !! p) -> is_Some (states s !! p)) -> (forall b, is_Some (bufs !! b) -> is_Some (buffers s !! b)) ->
  finv (mkFS fds sts bufs (next_ptr s) (pending s) (pre ++ post) (kernel_fds s) reps dup freed (alive s)).
Proof.
  intros Hf He Hst Hfds Hb Hs1 Hs2. pose proof Hf as [H1 H2 H3 H4 H5 H6 H7 H8].
  pose proof (done_perm s pre r res post He) as Hperm.
  split; unfold inflight; simpl.
  - eapply alone_tail, alone_perm; [exact Hperm|done].
  - rewrite Hperm, list.Forall_cons in H2. destruct H2 as [_ H2]. eapply Forall_impl_elem; [exact H2|].
    intros r' Hr' (st & Hst' & Hok). exists st. split; [|done]. rewrite Hst; [done|].
    destruct (exclusive r) eqn:Ex; [left|by right].
    specialize (H1 r _ Hperm Ex). rewrite list.Forall_forall in H1. by apply H1.
  - rewrite He, list.Forall_app, list.Forall_cons in H3. apply list.Forall_app. naive_solver.
  - done.
  - intros p st b Hp Hbuf. destruct (Hb p st b Hp Hbuf) as (st' & Hs & Hb' & Hl & Hbb).
    rewrite Hbb, <- Hl. by apply (H5 p).
  - intros p1 p2 st1 st2 b Hp1 Hp2 Hb1 Hb2.
    destruct (Hb p1 st1 b Hp1 Hb1) as (st1' & ? & ? & _). destruct (Hb p2 st2 b Hp2 Hb2) as (st2' & ? & ? & _).
    by apply (H6 p1 p2 st1' st2' b).
  - intros p [Hp|Hp]; apply H7; auto.
  - intros Hal. specialize (H8 Hal). unfold collect_allowed in H8. rewrite Hperm, list.Forall_cons in H8. apply H8.
Qed.

(** The object is there when an open or a close completes. *)
Lemma owner_alive s r : finv s -> r ∈ inflight s -> is_read r = false -> alive s = true.
Proof.
  intros Hf Hr He. destruct (alive s) eqn:Ea; [done|].
  rewrite (proj1 (list.Forall_forall _ _) (f_alive _ Hf Ea) r Hr) in He. done.
Qed.

Lemma finv_open_cb s pre p cb res post :
  finv s -> executed s = pre ++ (ROpen p cb, res) :: post ->
  exists s', open_file_async_cb p cb (result res) (pre ++ post) s = Ret s' /\ finv s'.
Proof.
  intros Hf He. assert (Hr : ROpen p cb ∈ inflight s).
  { rewrite (done_perm _ _ _ _ _ He). by left. }
  destruct (proj1 (list.Forall_forall _ _) (f_requests _ Hf) _ Hr) as (st & Hst & Hfd & Hbuf). simpl in Hst.
  unfold open_file_async_cb. rewrite Hst.
  replace (negb (alive s)) with false by (by rewrite (owner_alive _ _ Hf Hr eq_refl)).
  destruct (Z.ltb_spec (result res) 0); (eexists; split; [done|]).
  - eapply finv_completed; eauto 10 using f_fds.
  - eapply finv_completed; eauto.
    + intros q [Hq|Hq]; [|done]. by rewrite lookup_insert_ne.
    + intros f q Hq. rewrite lookup_insert in Hq. destruct (decide (result res = f)) as [<-|Hne].
      * injection Hq as <-. split; [done|]. eexists. by rewrite lookup_insert_eq.
      * destruct (f_fds _ Hf f q Hq) as (? & st' & Hst' & Hf'). split; [done|].
        rewrite lookup_insert_ne; [eauto|]. intros <-. rewrite Hst in Hst'. injection Hst' as <-. lia.
    + intros q st' b Hq Hb. apply lookup_insert_Some in Hq as [[<- <-]|[_ Hq]]; [simpl in Hb; congruence|].
      exists st'. auto.
    + intros q [st' Hq]. apply lookup_insert_Some in Hq as [[<- _]|[_ Hq]]; eauto.
Qed.

Lemma finv_read_cb s pre p b len cb res post :
  finv s -> executed s = pre ++ (RRead p b len cb, res) :: post ->
  exists s' data, read_file_async_cb p cb (result res) (pre ++ post) s = Ret s' /\ finv s' /\
    buffers s !! b = Some data /\
    replies s' = replies s ++ [(cb, if result res <? 0 then RepErr (result res) else RepData (take (Z.to_nat (result res)) data))].
Proof.
  intros Hf He. assert (Hr : RRead p b len cb ∈ inflight s).
  { rewrite (done_perm _ _ _ _ _ He). by left. }
  destruct (proj1 (list.Forall_forall _ _) (f_requests _ Hf) _ Hr) as (st & Hst & Hbuf & Hlen). simpl in Hst.
  assert (Hres : result res <= len).
  { pose proof (f_results _ Hf) as H3. rewrite He, list.Forall_app, list.Forall_cons in H3. naive_solver. }
  destruct (f_bufs _ Hf p st b Hst Hbuf) as (data & Hd & Hdl).
  assert (Hgo : forall reps dup freed, finv (mkFS (fd_state s) (states s) (buffers s) (next_ptr s) (pending s)
                  (pre ++ post) (kernel_fds s) reps dup freed (alive s))).
  { intros. eapply finv_completed; eauto 10 using f_fds. }
  unfold read_file_async_cb. rewrite Hst, Hbuf. simpl. rewrite Hd. destruct (Z.ltb_spec (result res) 0).
  - eexists _, data. split; [done|]. split; [apply Hgo|done].
  - destruct (Z.ltb_spec (Z.of_nat (length data)) (result res)); [lia|].
    eexists _, data. split; [done|]. split; [apply Hgo|done].
Qed.

Lemma finv_close_cb s pre p fd res post :
  finv s -> executed s = pre ++ (RClose p fd, res) :: post ->
  exists s', close_file_async_cb p (pre ++ post) s = Ret s' /\ finv s'.
Proof.
  intros Hf He. assert (Hr : RClose p fd ∈ inflight s).
  { rewrite (done_perm _ _ _ _ _ He). by left. }
  destruct (proj1 (list.Forall_forall _ _) (f_requests _ Hf) _ Hr) as (st & Hst & _). simpl in Hst.
  unfold close_file_async_cb. rewrite Hst.
  replace (negb (alive s)) with false by (by rewrite (owner_alive _ _ Hf Hr eq_refl)). eexists. split; [done|]. eapply finv_completed; eauto.
  - intros q [Hq|Hq]; [|done]. by rewrite lookup_delete_ne.
  - intros f q Hq. apply lookup_delete_Some in Hq as [Hne Hq]. destruct (f_fds _ Hf f q Hq) as (? & st' & Hst' & Hf').
    split; [done|]. exists st'. rewrite lookup_delete_ne; [done|]. intros <-. congruence.
  - intros q st' b Hq Hb. apply lookup_delete_Some in Hq as [Hne Hq]. exists st'. split_and!; try done.
    destruct (fo_buf st) as [b0|] eqn:Eb; simpl; [|done]. rewrite lookup_delete_ne; [done|].
    intros ->. by apply Hne, (f_inj _ Hf p q st st' b).
  - intros q [st' Hq]. apply lookup_delete_Some in Hq as [_ Hq]. eauto.
  - intros b [d Hb]. destruct (fo_buf st) as [b0|]; simpl in Hb; [|eauto].
    apply lookup_delete_Some in Hb as [_ Hb]. eauto.
Qed.

Lemma finv_careful strict s o : finv s -> fs_careful strict s o -> exists s', o = Ret s' /\ finv s'.
Proof.
  intros Hf [cb Hal|fd len cb Hal Ha _|fd Hal Ha|Hal Ha|pre r post k Hp Hk|pre r res post He].
  - eauto using finv_open.
  - by apply finv_read.
  - eauto using finv_close.
  - eauto using finv_finalizer.
  - by eapply finv_exec.
  - destruct r as [p cb|p b len cb|p fd]; simpl.
    + by eapply finv_open_cb.
    + destruct (finv_read_cb _ _ _ _ _ _ _ _ Hf He) as (s' & _ & ? & ? & _). eauto.
    + by eapply finv_close_cb.
Qed.

Lemma finv_ctor fds : finv (FileSystem_ctor fds).
Proof.
  split; unfold inflight; simpl; try done; try by constructor.
  - intros r rest Hr. by apply Permutation_nil_cons in Hr.
  - intros p [[? Hp]|[? Hp]]; by rewrite lookup_empty in Hp.
Qed.

Lemma careful_inv strict fds s : fs_reachable (fs_careful strict) (FileSystem_ctor fds) s -> finv s.
Proof.
  induction 1 as [|s s' _ IH Hs]; [apply finv_ctor|].
  destruct (finv_careful _ _ _ IH Hs) as (s'' & [= <-] & ?). done.
Qed.

(** ** One request per file: the buffer of an executed read holds what its system call read *)

Definition holds_answer (bufs : gmap nat (list Z)) (x : fs_request * kernel_answer) : Prop :=
  match x with
  | (RRead _ b _ _, KData bytes) => exists rest, bufs !! b = Some (bytes ++ rest)
  | _ => True
  end.

Definition orderly (s : FileSystem) : Prop :=
  NoDup (req_state <$> inflight s) /\ Forall (holds_answer (buffers s)) (executed s).

(** The buffer of a read is not the one of another state. *)
Lemma own_buffer s p b len cb q st b' :
  finv s -> RRead p b len cb ∈ inflight s -> states s !! q = Some st -> fo_buf st = Some b' -> p <> q -> b <> b'.
Proof.
  intros Hf Hr Hq Hb Hne ->. destruct (proj1 (list.Forall_forall _ _) (f_requests _ Hf) _ Hr) as (st' & Hst' & Hb' & _).
  by apply Hne, (f_inj _ Hf p q st' st b').
Qed.

Lemma executed_inflight s r k : (r, k) ∈ executed s -> r ∈ inflight s.
Proof. intros H. apply elem_of_app. right. apply list_elem_of_fmap. by exists (r, k). Qed.

(** What a step that leaves the buffers of the executed reads alone must show. *)
Lemma holds_kept s ex bufs :
  Forall (holds_answer (buffers s)) (executed s) -> (forall x, x ∈ ex -> x ∈ executed s) ->
  (forall p b len cb k, (RRead p b len cb, k) ∈ ex -> bufs !! b = buffers s !! b) -> Forall (holds_answer bufs) ex.
Proof.
  rewrite !list.Forall_forall. intros H Hsub Hb [r k] Hx. specialize (H _ (Hsub _ Hx)). destruct r as [|p b len cb|], k; try done.
  simpl in *. by rewrite (Hb _ _ _ _ _ Hx).
Qed.

Lemma orderly_submit s r : orderly s -> Forall (fun r' => req_state r' <> req_state r) (inflight s) ->
  NoDup (req_state <$> (pending s ++ [r]) ++ (executed s).*1).
Proof.
  intros [Hn _] Hr. rewrite (pending_snoc_perm s r (executed s)). simpl. apply list.NoDup_cons. split; [|done].
  intros (r' & Heq & Hr')%list_elem_of_fmap. by apply (proj1 (list.Forall_forall _ _) Hr r').
Qed.

Lemma orderly_read fd len cb s s' : finv s -> orderly s -> close_allowed fd s ->
  read_file_async fd len cb s = Ret s' -> orderly s'.
Proof.
  intros Hf Ho Ha Hs. unfold read_file_async in Hs. destruct (fd_state s !! s32 fd) as [p|] eqn:Ep; [|by simplify_eq].
  specialize (Ha p Ep). destruct (states s !! p) as [st|] eqn:Est; [|done]. pose proof (proj2 Ho) as Hh.
  assert (forall q b len cb k, (RRead q b len cb, k) ∈ executed s -> b <> next_ptr s /\ fo_buf st <> Some b) as Hb.
  { intros q b len' cb' k Hx%executed_inflight. assert (q <> p) as Hne by exact (proj1 (list.Forall_forall _ _) Ha _ Hx). split.
    - destruct (proj1 (list.Forall_forall _ _) (f_requests _ Hf) _ Hx) as (st' & Hst' & Hb' & _).
      destruct (f_bufs _ Hf _ _ _ Hst' Hb') as (data & Hd & _). assert (b < next_ptr s)%nat by (apply (f_next _ Hf); right; eauto). lia.
    - intros Hb'. by apply (own_buffer s q b len' cb' p st b Hf Hx Est Hb'). }
  repeat case_match; simplify_eq; (split; [exact (orderly_submit s (RRead p _ len cb) Ho Ha)|]); simpl; [done| |];
    eapply holds_kept; try done; intros q b' len' cb' k Hx; destruct (Hb _ _ _ _ _ Hx) as [Hn1 Hn2];
    rewrite lookup_insert_ne by done; [rewrite lookup_delete_ne by congruence|]; done.
Qed.

Lemma orderly_exec s pre r post k s' : finv s -> orderly s -> pending s = pre ++ r :: post ->
  exec_request r (pre ++ post) k s = Ret s' -> orderly s'.
Proof.
  intros Hf [Hn Hh] Hp Hs.
  assert (forall bufs fds, Forall (holds_answer bufs) (executed s) -> holds_answer bufs (r, k) ->
    orderly (mkFS (fd_state s) (states s) bufs (next_ptr s) (pre ++ post) (executed s ++ [(r, k)]) fds (replies s) (cb_dup s) (cb_freed s) (alive s))) as Hgo.
  { intros bufs fds H1 H2. split; [unfold inflight; simpl; by rewrite (exec_perm s pre r post k Hp)|]. simpl. apply list.Forall_app. by repeat constructor. }
  destruct r as [p cb|p b len cb|p fd], k as [e|fd'|bytes]; simpl in Hs; simplify_eq; try (by apply Hgo); try done.
  destruct (buffers s !! b) as [old|] eqn:Eb; simplify_eq. apply Hgo; [|simpl; rewrite lookup_insert_eq; by eexists].
  eapply holds_kept; [done|done|]. intros q b' len' cb' k Hx. apply lookup_insert_ne.
  unfold inflight in Hn. rewrite Hp, <- app_assoc, fmap_app in Hn. simpl in Hn. rewrite <- Permutation_middle in Hn. apply list.NoDup_cons in Hn as [Hn _].
  assert (Hr : RRead p b len cb ∈ inflight s) by (unfold inflight; rewrite Hp; set_solver).
  destruct (proj1 (list.Forall_forall _ _) (f_requests _ Hf) _ Hr) as (st & Hst & Hbuf & _). simpl in Hst.
  apply not_eq_sym. apply (own_buffer s q b' len' cb' p st b Hf (executed_inflight _ _ _ Hx) Hst Hbuf). intros ->. apply Hn.
  rewrite <- fmap_app. apply list_elem_of_fmap. exists (RRead p b' len' cb'). split; [done|]. rewrite !elem_of_app. right. right.
  apply list_elem_of_fmap. by exists (RRead p b' len' cb', k).
Qed.

Lemma orderly_done s pre r k post s' : finv s -> orderly s -> executed s = pre ++ (r, k) :: post ->
  complete_request r (result k) (pre ++ post) s = Ret s' -> orderly s'.
Proof.
  intros Hf [Hn Hh] He Hs. rewrite (done_perm s pre r k post He) in Hn. simpl in Hn. apply list.NoDup_cons in Hn as [Hr Hn].
  assert (Hsub : forall x, x ∈ pre ++ post -> x ∈ executed s) by (intros x Hx; rewrite He; set_solver).
  assert (Hsame : Forall (holds_answer (buffers s)) (pre ++ post)) by (by eapply holds_kept).
  destruct r as [p cb|p b len cb|p fd]; simpl in Hs.
  - unfold open_file_async_cb in Hs. by repeat case_match; simplify_eq; split.
  - unfold read_file_async_cb in Hs. by repeat case_match; simplify_eq; split.
  - unfold close_file_async_cb in Hs. destruct (states s !! p) as [st|] eqn:Est; [|done]. destruct (negb (alive s)); simplify_eq.
    split; [done|]. simpl. eapply holds_kept; [done|done|]. intros q b' len' cb' k' Hx.
    destruct (fo_buf st) as [b0|] eqn:Eb; simpl; [|done]. apply lookup_delete_ne, not_eq_sym.
    eapply own_buffer; [done|by eapply executed_inflight, Hsub|done|done|]. intros ->. apply Hr.
    apply list_elem_of_fmap. exists (RRead p b' len' cb'). split; [done|]. apply elem_of_app. right.
    apply list_elem_of_fmap. by exists (RRead p b' len' cb', k').
Qed.

Lemma orderly_inv fds s : fs_reachable (fs_careful true) (FileSystem_ctor fds) s -> orderly s.
Proof.
  induction 1 as [|s s' Hr IH Hs]; [by split; constructor|]. pose proof (careful_inv _ _ _ Hr) as Hf.
  inversion Hs as [cb _ Ho|fd len cb _ _ Ha Ho|fd _ Ha Ho|_ Ha Ho|pre r post k Hp Hk Ho|pre r res post He Ho]; clear Hs; subst.
  - split; [|apply IH]. apply (orderly_submit s (ROpen (next_ptr s) cb) IH). apply list.Forall_forall. intros r Hx. simpl.
    pose proof (request_live s r Hf Hx). lia.
  - eapply orderly_read; eauto.
  - unfold close_file_async. destruct (fd_state s !! s32 fd) as [p|] eqn:Ep; [|done]. split; [|apply IH].
    by apply (orderly_submit s (RClose p (s32 fd)) IH), Ha.
  - exact IH.
  - by eapply orderly_exec.
  - by eapply orderly_done.
Qed.

(** ** Callback references *)

Definition req_cb (r : fs_request) : list nat :=
  match r with ROpen _ cb => [cb] | RRead _ _ _ cb => [cb] | RClose _ _ => [] end.

Definition cbs (rs : list fs_request) : list nat := mjoin (req_cb <$> rs).

Lemma cbs_perm rs rs' : rs ≡ₚ rs' -> cbs rs ≡ₚ cbs rs'.
Proof. intros H. unfold cbs. by rewrite H. Qed.

Lemma cbs_cons r rs : cbs (r :: rs) = req_cb r ++ cbs rs.
Proof. done. Qed.

Definition cb_inv (s : FileSystem) : Prop :=
  cb_dup s ≡ₚ cb_freed s ++ cbs (inflight s) /\ (replies s).*1 = cb_freed s.

(** A request that was submitted, with [dup] its callback. *)
Lemma cb_inv_submit s r :
  cb_inv s -> cb_dup s ++ req_cb r ≡ₚ cb_freed s ++ cbs ((pending s ++ [r]) ++ (executed s).*1).
Proof.
  intros [Hd _]. rewrite (cbs_perm _ _ (pending_snoc_perm s r (executed s))), cbs_cons, Hd.
  fold (inflight s). solve_Permutation.
Qed.

(** A request that completed, with its callback called and freed. *)
Lemma cb_inv_done s pre r res post reps :
  cb_inv s -> executed s = pre ++ (r, res) :: post -> reps.*1 = req_cb r ->
  cb_dup s ≡ₚ (cb_freed s ++ req_cb r) ++ cbs (pending s ++ (pre ++ post).*1) /\
  (replies s ++ reps).*1 = cb_freed s ++ req_cb r.
Proof.
  intros [Hd Hr] He Hreps. split; [|by rewrite fmap_app, Hr, Hreps].
  rewrite Hd, (cbs_perm _ _ (done_perm s pre r res post He)), cbs_cons, <- app_assoc. done.
Qed.

Lemma cb_inv_step s s' : cb_inv s -> fs_step s (Ret s') -> cb_inv s'.
Proof.
  intros Hi Hs. inversion Hs as [cb _ Ho|fd len cb _ Ho|fd _ Ho|_ Ho|pre r post k Hp Hk Ho|pre r res post He Ho]; clear Hs.
  - subst. split; [exact (cb_inv_submit s (ROpen (next_ptr s) cb) Hi)|apply Hi].
  - unfold read_file_async in Ho. destruct (fd_state s !! s32 fd) as [p|]; [|by simplify_eq].
    destruct (states s !! p) as [st|]; [|done].
    repeat case_match; simplify_eq; (split; [|apply Hi]);
      exact (cb_inv_submit s (RRead p _ len cb) Hi).
  - subst. unfold close_file_async. destruct (fd_state s !! s32 fd) as [p|]; [|done].
    split; [|apply Hi]. pose proof (cb_inv_submit s (RClose p (s32 fd)) Hi) as H. by rewrite app_nil_r in H.
  - by subst.
  - assert (Hex : forall bufs fds res, cb_inv (mkFS (fd_state s) (states s) bufs (next_ptr s) (pre ++ post)
        (executed s ++ [(r, res)]) fds (replies s) (cb_dup s) (cb_freed s) (alive s))).
    { intros. split; [|apply Hi]. unfold inflight. simpl. rewrite (cbs_perm _ _ (exec_perm s pre r post res Hp)). apply Hi. }
    destruct r, k; simpl in Ho; try destruct (buffers s !! buf); simplify_eq; try done; apply Hex.
  - destruct r as [p cb|p b len cb|p fd]; simpl in Ho.
    + unfold open_file_async_cb in Ho. destruct (states s !! p) as [st|]; [|done].
      destruct (result res <? 0); [|destruct (negb (alive s))]; simplify_eq;
        exact (cb_inv_done s pre (ROpen p cb) res post [(cb, _)] Hi He eq_refl).
    + unfold read_file_async_cb in Ho. destruct (states s !! p) as [st|]; [|done].
      destruct (result res <? 0); [simplify_eq; exact (cb_inv_done s pre (RRead p b len cb) res post [(cb, _)] Hi He eq_refl)|].
      destruct (fo_buf st ≫= _) as [data|]; [|done]. destruct (_ <? result res); simplify_eq.
      exact (cb_inv_done s pre (RRead p b len cb) res post [(cb, _)] Hi He eq_refl).
    + unfold close_file_async_cb in Ho. destruct (states s !! p) as [st|]; [|done]. destruct (negb (alive s)); simplify_eq.
      destruct (cb_inv_done s pre _ res post [] Hi He eq_refl) as [H1 H2]. simpl req_cb in H1, H2.
      split; [by rewrite app_nil_r in H1|by rewrite !app_nil_r in H2].
Qed.

(** ** Properties *)

(** C35. A script that follows the rules of [fs_careful] cannot corrupt memory: whatever the
    thread pool does, in whatever order, no call, system call, callback or finalizer touches a freed
    state, buffer or object. The rules are: read a file only while no close of it is in flight, with a
    length in [0, 2^31) that is the one of its reads in flight; close it only while no request for it
    is in flight; keep the object while an open or a close is in flight. If the script also has at
    most one request per file in flight, the callback of a read gets the bytes that its own
    system call read. *)
Theorem fs_careful_safe strict fds s :
  fs_reachable (fs_careful strict) (FileSystem_ctor fds) s ->
  (forall o, fs_careful strict s o -> exists s', o = Ret s') /\
  (strict = true -> forall pre p b len cb bytes post, executed s = pre ++ (RRead p b len cb, KData bytes) :: post ->
     exists s', complete_request (RRead p b len cb) (result (KData bytes)) (pre ++ post) s = Ret s' /\
       replies s' = replies s ++ [(cb, RepData bytes)]).
Proof.
  intros Hs. apply careful_inv in Hs as Hf. split.
  - intros o Ho. destruct (finv_careful _ _ _ Hf Ho) as (s' & ? & _). eauto.
  - intros -> pre p b len cb bytes post He.
    destruct (finv_read_cb _ _ _ _ _ _ _ _ Hf He) as (s' & data & Hc & _ & Hd & Hrep). exists s'. split; [exact Hc|].
    destruct (Z.ltb_spec (result (KData bytes)) 0) as [Hneg|_]; [simpl in Hneg; lia|]. rewrite Hrep. do 4 f_equal.
    pose proof (proj2 (orderly_inv _ _ Hs)) as Hh. rewrite He, list.Forall_app, list.Forall_cons in Hh.
    destruct Hh as (_ & (rest & Hb) & _). rewrite Hd in Hb. injection Hb as ->. simpl. rewrite Nat2Z.id. apply take_app_length.
Qed.

(** Every request of any script answers its callback exactly once: the references taken
    are those released plus those of the requests in flight, and the released ones are
    those of the calls made, in order. *)
Theorem fs_callbacks_once fds s :
  fs_reachable fs_step (FileSystem_ctor fds) s ->
  cb_dup s ≡ₚ cb_freed s ++ cbs (inflight s) /\ (replies s).*1 = cb_freed s.
Proof.
  induction 1 as [|s s' _ IH Hs]; [done|]. by eapply cb_inv_step.
Qed.

Lemma fr_fwd step s1 o s2 s3 :
  step s1 o -> o = Ret s2 -> fs_reachable step s2 s3 -> fs_reachable step s1 s3.
Proof.
  intros H1 -> H2. induction H2; [by eapply fr_step; [apply fr_start|]|]. by eapply fr_step.
Qed.

Lemma fs_done_to s o pre r res post :
  executed s = pre ++ (r, res) :: post -> complete_request r (result res) (pre ++ post) s = o -> fs_step s o.
Proof. intros He <-. by apply fs_done. Qed.

Lemma fs_exec_to s o pre r post k :
  pending s = pre ++ r :: post -> kernel_ok r k s -> exec_request r (pre ++ post) k s = o -> fs_step s o.
Proof. intros Hp Hk <-. by apply fs_exec. Qed.

Tactic Notation "fs_next" uconstr(rule) := eapply fr_fwd; [eapply rule|vm_compute; reflexivity|].

(** Careless scripts do corrupt memory. Closing a file twice, closing it while a read is
    in flight, reading it with another length while a read is in flight, and dropping the object
    while an open is in flight all reach a state in which a callback or the kernel touches freed
    memory. *)
Theorem fs_misuse_corrupts :
  (exists s, fs_reachable fs_step (FileSystem_ctor ∅) s /\ inflight s = [RClose 0 5] /\ fs_step s UB) /\
  (exists s b, fs_reachable fs_step (FileSystem_ctor ∅) s /\ inflight s = [RRead 0 b 16 1] /\ fs_step s UB) /\
  (exists s b b', fs_reachable fs_step (FileSystem_ctor ∅) s /\
     inflight s = [RRead 0 b 16 1; RRead 0 b' 32 2] /\ fs_step s UB) /\
  (exists s, fs_reachable fs_step (FileSystem_ctor ∅) s /\ inflight s = [ROpen 0 0] /\ fs_step s UB).
Proof.
  split_and!.
  - eexists. split.
    { fs_next (fs_open _ 0%nat); [done|]. fs_next (fs_exec _ [] (ROpen 0 0) [] (KFd 5)); [done|by vm_compute|].
      fs_next (fs_done _ [] (ROpen 0 0) (KFd 5) []); [done|].
      fs_next (fs_close _ 5); [done|]. fs_next (fs_close _ 5); [done|].
      fs_next (fs_exec _ [] (RClose 0 5) [RClose 0 5] (KRet 0)); [done|by vm_compute|].
      fs_next (fs_done _ [] (RClose 0 5) (KRet 0) []); [done|].
      fs_next (fs_exec _ [] (RClose 0 5) [] (KRet (-9))); [done|by vm_compute|]. apply fr_start. }
    split; [done|]. by apply (fs_done_to _ _ [] (RClose 0 5) (KRet (-9)) []).
  - eexists _, _. split.
    { fs_next (fs_open _ 0%nat); [done|]. fs_next (fs_exec _ [] (ROpen 0 0) [] (KFd 5)); [done|by vm_compute|].
      fs_next (fs_done _ [] (ROpen 0 0) (KFd 5) []); [done|].
      fs_next (fs_read _ 5 16 1%nat); [done|]. fs_next (fs_close _ 5); [done|].
      fs_next (fs_exec _ [RRead 0 1 16 1] (RClose 0 5) [] (KRet 0)); [done|by vm_compute|].
      fs_next (fs_done _ [] (RClose 0 5) (KRet 0) []); [done|]. apply fr_start. }
    split; [done|]. by apply (fs_exec_to _ _ [] (RRead 0 1 16 1) [] (KData [])).
  - eexists _, _, _. split.
    { fs_next (fs_open _ 0%nat); [done|]. fs_next (fs_exec _ [] (ROpen 0 0) [] (KFd 5)); [done|by vm_compute|].
      fs_next (fs_done _ [] (ROpen 0 0) (KFd 5) []); [done|].
      fs_next (fs_read _ 5 16 1%nat); [done|]. fs_next (fs_read _ 5 32 2%nat); [done|]. apply fr_start. }
    split; [done|]. by apply (fs_exec_to _ _ [] (RRead 0 1 16 1) [RRead 0 2 32 2] (KData [])).
  - eexists. split.
    { fs_next (fs_open _ 0%nat); [done|]. fs_next (fs_exec _ [] (ROpen 0 0) [] (KFd 5)); [done|by vm_compute|].
      fs_next (fs_collect _); [done|]. apply fr_start. }
    split; [done|]. by apply (fs_done_to _ _ [] (ROpen 0 0) (KFd 5) []).
Qed.

(** Even a careful script can lose a file. The descriptor of a file being closed can be
    reused before the callback of the close has run; that callback then erases the entry
    of the new file. Here the script was told that file 5 is open and never closed it, but
    [fs.read] and [fs.close] no longer know it and its descriptor stays open. *)
Theorem fs_reopened_file_lost :
  exists s, fs_reachable (fs_careful true) (FileSystem_ctor ∅) s /\ inflight s = [] /\
    list.last (replies s) = Some (1%nat, RepFd 5) /\ 5 ∈ kernel_fds s /\
    (forall len cb, read_file_async 5 len cb s = Ret s) /\ close_file_async 5 s = s.
Proof.
  eexists. split.
  { fs_next (fc_open _ _ 0%nat); [done|]. fs_next (fc_exec _ _ [] (ROpen 0 0) [] (KFd 5)); [done|by vm_compute|].
    fs_next (fc_done _ _ [] (ROpen 0 0) (KFd 5) []); [done|].
    fs_next (fc_close _ _ 5); [done|intros p _; constructor|]. fs_next (fc_open _ _ 1%nat); [done|].
    fs_next (fc_exec _ _ [] (RClose 0 5) [ROpen 1 1] (KRet 0)); [done|by vm_compute|].
    fs_next (fc_exec _ _ [] (ROpen 1 1) [] (KFd 5)); [done|by vm_compute|].
    fs_next (fc_done _ _ [(RClose 0 5, KRet 0)] (ROpen 1 1) (KFd 5) []); [done|].
    fs_next (fc_done _ _ [] (RClose 0 5) (KRet 0) []); [done|]. apply fr_start. }
  split; [done|]. split; [done|]. split; [by apply (bool_decide_unpack _)|done].
Qed.

(** ** Witnesses *)

(** A file was opened as descriptor 5, a read of 4 bytes was submitted and executed. *)
Definition fs_read_done : FileSystem :=
  mkFS {[5 := 0%nat]} {[0%nat := mkFileOp 5 (Some 1%nat) 4]} {[1%nat := [104; 105; 0; 0]]} 2 []
    [(RRead 0 1 4 1, KData [104; 105])] {[5]} [(0%nat, RepFd 5)] [0; 1]%nat [0%nat] true.

Lemma fs_to_read_done : fs_reachable (fs_careful true) (FileSystem_ctor ∅) fs_read_done.
Proof.
  fs_next (fc_open _ _ 0%nat); [done|]. fs_next (fc_exec _ _ [] (ROpen 0 0) [] (KFd 5)); [done|by vm_compute|].
  fs_next (fc_done _ _ [] (ROpen 0 0) (KFd 5) []); [done|].
  fs_next (fc_read _ _ 5 4 1%nat); [done| |intros _ p _; constructor|].
  { split; [lia|]. intros p Hp. vm_compute in Hp. injection Hp as <-. by repeat constructor. }
  fs_next (fc_exec _ _ [] (RRead 0 1 4 1) [] (KData [104; 105])); [done|by vm_compute|]. apply fr_start.
Qed.

Lemma fs_careful_safe_witness :
  exists s', complete_request (RRead 0 1 4 1) 2 [] fs_read_done = Ret s' /\
    replies s' = [(0%nat, RepFd 5); (1%nat, RepData [104; 105])].
Proof.
  exact (proj2 (fs_careful_safe true ∅ fs_read_done fs_to_read_done) eq_refl [] 0%nat 1%nat 4 1%nat [104; 105] [] eq_refl).
Defined.

Lemma fs_opened : fs_reachable fs_step (FileSystem_ctor ∅) (open_file_async 7 (FileSystem_ctor ∅)).
Proof. eapply fr_step; [apply fr_start|by apply fs_open]. Qed.

Lemma fs_callbacks_once_witness :
  [7%nat] ≡ₚ [] ++ cbs (inflight (open_file_async 7 (FileSystem_ctor ∅))) /\ @nil nat = [].
Proof. exact (fs_callbacks_once ∅ _ fs_opened). Defined.
