(* ===== verification/Signals.v ===== *)
(** Signals and the life of servers: src/signal_context.cc, [Server::run] and [~Server] of
    src/server.cc.

    A [SigEntry] owns one [uv_signal_t]. What libuv requires of the handle is modelled as
    its state: it must not be initialised while it is active or closing, and it is closed
    once; a closing handle is closed at the end of the loop iteration. *)

From S2P Require Import Prelude.

Inductive sig_handle := HNone | HActive | HClosing | HClosed.

#[export] Instance sig_handle_eq_dec : EqDecision sig_handle.
Proof. solve_decision. Defined.

Record SigEntry := mkSig { sg_handle : sig_handle; sg_refcount : Z; sg_active : bool }.

Definition SigEntry_ctor : SigEntry := mkSig HNone 0 false.

(** [signals] and whether [uv_stop] was called on the loop. *)
Record SignalContext := mkSignals { signals : gmap Z SigEntry; loop_stopped : bool }.

Definition SignalContext_ctor : SignalContext := mkSignals ∅ false.

Definition uv_signal_start (h : sig_handle) : outcome sig_handle :=
  match h with HNone | HClosed => Ret HActive | HActive | HClosing => UB end.

(** [uv_signal_stop] followed by [uv_close]. *)
Definition uv_signal_close (h : sig_handle) : outcome sig_handle :=
  match h with HActive => Ret HClosing | HNone => UB | HClosing | HClosed => AssertFail end.

Definition register_daemon (signum : Z) (s : SignalContext) : outcome SignalContext :=
  let entry := default SigEntry_ctor (signals s !! signum) in
  let refcount := s32 (sg_refcount entry + 1) in
  if refcount =? 1 then
    h ← uv_signal_start (sg_handle entry);
    Ret (mkSignals (<[signum := mkSig h refcount true]> (signals s)) (loop_stopped s))
  else
    Ret (mkSignals (<[signum := mkSig (sg_handle entry) refcount (sg_active entry)]> (signals s)) (loop_stopped s)).

Definition deregister_daemon (signum : Z) (s : SignalContext) : outcome SignalContext :=
  match signals s !! signum with
  | None => Ret s
  | Some entry =>
      let refcount := s32 (sg_refcount entry - 1) in
      if (refcount =? 0) && sg_active entry then
        h ← uv_signal_close (sg_handle entry);
        Ret (mkSignals (<[signum := mkSig h refcount false]> (signals s)) (loop_stopped s))
      else
        Ret (mkSignals (<[signum := mkSig (sg_handle entry) refcount (sg_active entry)]> (signals s)) (loop_stopped s))
  end.

(** The loop calls it for an active handle only. *)
Definition on_signal_cb (signum : Z) (s : SignalContext) : outcome SignalContext :=
  match signals s !! signum with
  | None => UB
  | Some entry =>
      h ← uv_signal_close (sg_handle entry);
      Ret (mkSignals (<[signum := mkSig h (sg_refcount entry) false]> (signals s)) true)
  end.

Definition finish_closing (e : SigEntry) : SigEntry :=
  match sg_handle e with HClosing => mkSig HClosed (sg_refcount e) (sg_active e) | _ => e end.

(** ** Servers *)

Definition SIGINT : Z := 2.

(** The calls of [Server::run] after [register_daemon], with what libuv returned for
    [uv_ip4_addr], [uv_tcp_init], [uv_tcp_bind] and [uv_listen]: the result of [run] and
    whether the server listens. *)
Definition server_run_calls (rc_addr rc_init rc_bind rc_listen : Z) : Z * bool :=
  if rc_addr <? 0 then (-1, false)
  else if rc_init <? 0 then (-1, false)
  else if rc_bind <? 0 then (-1, false)
  else if rc_listen <? 0 then (0, false)
  else (0, true).

(** [listen()], the finalizer of a server object, a SIGINT, the end of a loop iteration. *)
Inductive sig_op := SListen (srv : nat) | SDestroy (srv : nat) | SSignal | SIterate.

(** [live]: the servers on which [run] was called. *)
Record SigSys := mkSigSys { sig_ctx : SignalContext; live : list nat }.

Definition sig_entry (s : SigSys) : SigEntry := default SigEntry_ctor (signals (sig_ctx s) !! SIGINT).

Definition sig_do (op : sig_op) (s : SigSys) : outcome SigSys :=
  match op with
  | SListen i => c ← register_daemon SIGINT (sig_ctx s); Ret (mkSigSys c (i :: live s))
  | SDestroy i => c ← deregister_daemon SIGINT (sig_ctx s); Ret (mkSigSys c (filter (fun j => j <> i) (live s)))
  | SSignal =>
      if decide (sg_handle (sig_entry s) = HActive) then
        c ← on_signal_cb SIGINT (sig_ctx s); Ret (mkSigSys c (live s))
      else Ret s
  | SIterate => Ret (mkSigSys (mkSignals (finish_closing <$> signals (sig_ctx s)) (loop_stopped (sig_ctx s))) (live s))
  end.

Fixpoint sig_run (ops : list sig_op) (s : SigSys) : outcome SigSys :=
  match ops with
  | [] => Ret s
  | op :: ops' => s' ← sig_do op s; sig_run ops' s'
  end.

Definition sig_start : SigSys := mkSigSys SignalContext_ctor [].

(** Every server listens once before it is destroyed, and none starts to listen while the
    handle is closing. *)
Definition sig_allowed (op : sig_op) (s : SigSys) : Prop :=
  match op with
  | SListen i => (i ∉ live s) /\ sg_handle (sig_entry s) <> HClosing /\ Z.of_nat (length (live s)) + 1 < 2 ^ 31
  | SDestroy i => i ∈ live s
  | _ => True
  end.

Inductive sig_reachable : SigSys -> Prop :=
| sgr_start : sig_reachable sig_start
| sgr_step s op s' : sig_reachable s -> sig_allowed op s -> sig_do op s = Ret s' -> sig_reachable s'.

(** The handler is installed exactly while servers listen and no signal arrived. *)
Record sinv (s : SigSys) : Prop := {
  sv_nodup : NoDup (live s);
  sv_count : sg_refcount (sig_entry s) = Z.of_nat (length (live s));
  sv_small : Z.of_nat (length (live s)) < 2 ^ 31;
  sv_active : sg_active (sig_entry s) = true <-> sg_handle (sig_entry s) = HActive;
  sv_live : sg_handle (sig_entry s) = HActive -> live s <> [];
  sv_fired : live s <> [] -> sg_handle (sig_entry s) <> HActive -> loop_stopped (sig_ctx s) = true
}.

Lemma sinv_start : sinv sig_start.
Proof. split; try done. constructor. Qed.

Lemma filter_other_length i (l : list nat) :
  NoDup l -> i ∈ l -> length l = S (length (filter (fun j => j <> i) l)).
Proof.
  induction 1 as [|x l Hx Hnd IH]; intros Hi; [by apply not_elem_of_nil in Hi|].
  destruct (decide (x = i)) as [->|Hne].
  - rewrite filter_cons_False by auto. simpl. f_equal. clear -Hx. induction l as [|y l IH]; [done|].
    apply not_elem_of_cons in Hx as [Hy Hx]. rewrite filter_cons_True by auto. simpl. auto.
  - apply elem_of_cons in Hi as [->|Hi]; [done|]. rewrite filter_cons_True by done. simpl. auto.
Qed.

Lemma sig_entry_insert e c l : sig_entry (mkSigSys (mkSignals (<[SIGINT := e]> (signals c)) (loop_stopped c)) l) = e.
Proof. unfold sig_entry. simpl. by rewrite lookup_insert_eq. Qed.

Lemma sinv_listen i s :
  sinv s -> sig_allowed (SListen i) s -> exists s', sig_do (SListen i) s = Ret s' /\ sinv s'.
Proof.
  intros [H1 H2 H3 H4 H5 H6] (Hi & Hh & Hb). simpl. unfold register_daemon. fold (sig_entry s).
  rewrite H2, s32_small by lia. destruct (Z.eqb_spec (Z.of_nat (length (live s)) + 1) 1) as [E|E].
  - assert (Hl : live s = []) by (destruct (live s); simpl in *; [done|lia]).
    assert (Hs : uv_signal_start (sg_handle (sig_entry s)) = Ret HActive).
    { destruct (sg_handle (sig_entry s)) eqn:Eh; try done. by destruct (H5 eq_refl). }
    rewrite Hs. eexists. split; [done|]. split; simpl; rewrite ?Hl, ?sig_entry_insert; simpl; try done.
    constructor; [set_solver|constructor].
  - eexists. split; [done|]. split; simpl; rewrite ?sig_entry_insert; simpl; try done.
    + by constructor.
    + lia.
    + lia.
    + intros _. apply H6. destruct (live s); [done|done].
Qed.

Lemma sinv_destroy i s :
  sinv s -> sig_allowed (SDestroy i) s -> exists s', sig_do (SDestroy i) s = Ret s' /\ sinv s'.
Proof.
  intros [H1 H2 H3 H4 H5 H6] Hi. simpl in Hi. simpl. pose proof (filter_other_length i _ H1 Hi) as Hlen.
  assert (Hnd : NoDup (filter (fun j => j <> i) (live s))) by (by apply list.NoDup_filter).
  unfold deregister_daemon. assert (He : signals (sig_ctx s) !! SIGINT = Some (sig_entry s)).
  { unfold sig_entry in *. destruct (signals (sig_ctx s) !! SIGINT); [done|]. simpl in H2. lia. }
  rewrite He, H2, s32_small by lia. set (l' := filter _ _) in *.
  destruct (Z.eqb_spec (Z.of_nat (length (live s)) - 1) 0) as [E|E]; cbn [andb].
  - assert (Hl : l' = []) by (destruct l'; simpl in *; [done|lia]).
    destruct (sg_active (sig_entry s)) eqn:Ea.
    + rewrite (proj1 H4 eq_refl). cbn [uv_signal_close mbind outcome_bind]. eexists. split; [done|].
      split; simpl; rewrite ?Hl, ?sig_entry_insert; simpl; try done. constructor.
    + eexists. split; [done|]. split; simpl; rewrite ?Hl, ?sig_entry_insert; simpl; try done.
      * constructor.
      * intros Hh. apply H4 in Hh. congruence.
  - eexists. split; [done|]. split; simpl; rewrite ?sig_entry_insert; simpl; try done.
    + lia.
    + lia.
    + intros _. destruct l'; simpl in *; [lia|done].
    + intros _. apply H6. destruct (live s); [|done]. simpl in *. lia.
Qed.

Lemma sinv_signal s : sinv s -> exists s', sig_do SSignal s = Ret s' /\ sinv s'.
Proof.
  intros Hi. pose proof Hi as [H1 H2 H3 H4 H5 H6]. simpl. destruct (decide _) as [Hh|]; [|eauto].
  unfold on_signal_cb. assert (He : signals (sig_ctx s) !! SIGINT = Some (sig_entry s)).
  { unfold sig_entry in *. by destruct (signals (sig_ctx s) !! SIGINT). }
  rewrite He, Hh. cbn [uv_signal_close mbind outcome_bind]. eexists. split; [done|].
  assert (Hen : sig_entry (mkSigSys (mkSignals (<[SIGINT := mkSig HClosing (sg_refcount (sig_entry s)) false]>
                  (signals (sig_ctx s))) true) (live s)) = mkSig HClosing (sg_refcount (sig_entry s)) false).
  { unfold sig_entry at 1. simpl. by rewrite lookup_insert_eq. }
  by split; simpl; rewrite ?Hen.
Qed.

Lemma sinv_iterate s : sinv s -> exists s', sig_do SIterate s = Ret s' /\ sinv s'.
Proof.
  intros [H1 H2 H3 H4 H5 H6]. eexists. split; [done|].
  assert (He : sig_entry (mkSigSys (mkSignals (finish_closing <$> signals (sig_ctx s)) (loop_stopped (sig_ctx s)))
                 (live s)) = finish_closing (sig_entry s)).
  { unfold sig_entry. simpl. rewrite lookup_fmap. by destruct (signals (sig_ctx s) !! SIGINT). }
  split; simpl; rewrite ?He; unfold finish_closing; try done.
  - by destruct (sg_handle (sig_entry s)).
  - destruct (sg_handle (sig_entry s)) eqn:Eh; simpl; rewrite ?Eh; try done. split; [|done]. by intros ?%H4.
  - destruct (sg_handle (sig_entry s)) eqn:Eh; simpl; rewrite ?Eh; try done.
  - destruct (sg_handle (sig_entry s)) eqn:Eh; simpl; rewrite ?Eh; try done; intros Hl _; by apply H6.
Qed.

Lemma sinv_do op s : sinv s -> sig_allowed op s -> exists s', sig_do op s = Ret s' /\ sinv s'.
Proof.
  destruct op; intros; [by apply sinv_listen|by apply sinv_destroy|by apply sinv_signal|by apply sinv_iterate].
Qed.

Lemma sig_reachable_inv s : sig_reachable s -> sinv s.
Proof.
  induction 1 as [|s op s' _ IH Ha Hd]; [apply sinv_start|].
  destruct (sinv_do op s IH Ha) as (s'' & Hd' & ?). congruence.
Qed.

(** ** Properties *)

(** With servers that each listen once before they are destroyed, the SIGINT handler is
    managed correctly: no call misuses its handle, it is installed exactly while a server
    listens and no SIGINT has arrived, and a SIGINT in that time stops the loop. *)
Theorem signals_managed s op :
  sig_reachable s -> sig_allowed op s ->
  (exists s', sig_do op s = Ret s') /\
  (live s = [] -> sg_handle (sig_entry s) <> HActive) /\
  (live s <> [] -> sg_handle (sig_entry s) = HActive \/ loop_stopped (sig_ctx s) = true) /\
  (sg_handle (sig_entry s) = HActive ->
   exists s', sig_do SSignal s = Ret s' /\ loop_stopped (sig_ctx s') = true).
Proof.
  intros Hs Ha. apply sig_reachable_inv in Hs as Hi. split_and!.
  - destruct (sinv_do op s Hi Ha) as (s' & ? & _). eauto.
  - intros Hl Hh. by apply (sv_live _ Hi).
  - intros Hl. destruct (decide (sg_handle (sig_entry s) = HActive)); [by left|right]. by apply (sv_fired _ Hi).
  - intros Hh. simpl. rewrite decide_True by done. unfold on_signal_cb, sig_entry in *.
    destruct (signals (sig_ctx s) !! SIGINT) as [e|]; [|done]. simpl in Hh. rewrite Hh.
    eexists. split; [done|]. done.
Qed.

(** A server object that never listened still deregisters when it is collected: it takes
    the handler away from another server that is listening. And a server that listens again
    in the iteration in which the last one was destroyed reinitialises a closing handle. *)
Theorem signals_unbalanced :
  (exists s, sig_run [SListen 1; SDestroy 2; SIterate; SSignal] sig_start = Ret s /\ live s = [1%nat] /\
     sg_handle (sig_entry s) = HClosed /\ loop_stopped (sig_ctx s) = false) /\
  sig_run [SListen 1; SDestroy 1; SListen 2] sig_start = UB.
Proof. split; [|done]. eexists. by split; [vm_compute; reflexivity|]. Qed.

(** [Server::run] reports every failure of libuv but the last: it returns -1 and does not
    listen when the address, the socket or the bind fails, but 0 when [uv_listen] fails. *)
Theorem server_run_reports rc_addr rc_init rc_bind rc_listen :
  let '(rc, listening) := server_run_calls rc_addr rc_init rc_bind rc_listen in
  (rc = -1 <-> rc_addr < 0 \/ rc_init < 0 \/ rc_bind < 0) /\
  (listening = true <-> 0 <= rc_addr /\ 0 <= rc_init /\ 0 <= rc_bind /\ 0 <= rc_listen) /\
  (rc = 0 /\ listening = false <-> 0 <= rc_addr /\ 0 <= rc_init /\ 0 <= rc_bind /\ rc_listen < 0).
Proof.
  unfold server_run_calls. destruct (Z.ltb_spec rc_addr 0), (Z.ltb_spec rc_init 0), (Z.ltb_spec rc_bind 0),
    (Z.ltb_spec rc_listen 0); split_and!; split; intros; (lia || done || tauto || naive_solver lia).
Qed.

(** ** Witnesses *)

Definition sig_listening : SigSys := mkSigSys (mkSignals {[SIGINT := mkSig HActive 1 true]} false) [1%nat].

Lemma sig_to_listening : sig_reachable sig_listening.
Proof.
  apply (sgr_step sig_start (SListen 1)); [constructor| |by vm_compute].
  split; [by apply (bool_decide_unpack _)|]. split; [by vm_compute|]. by vm_compute.
Qed.

Lemma signals_managed_witness :
  exists s', sig_do SSignal sig_listening = Ret s' /\ loop_stopped (sig_ctx s') = true.
Proof. exact (proj2 (proj2 (proj2 (signals_managed sig_listening SSignal sig_to_listening I))) eq_refl). Defined.
