(* ===== verification/Inet.v ===== *)
(** Internet addresses, deps/libuv/src/inet.c and the address functions of uv-common.c: the
    server's address is parsed by [uv_ip4_addr].

    Strings are lists of the bytes before the terminating zero. Part 1 translates the
    functions, with every write to a local array in range or undefined. Part 2 is about
    IPv4, Part 3 about IPv6: what is printed is read back, and any string is read safely. *)

From S2P Require Import Prelude.

(** ** Part 1: the code *)

Definition AF_INET : Z := 2.
Definition AF_INET6 : Z := 10.
Definition UV_EINVAL : Z := -22.
Definition UV_ENOSPC : Z := -28.
Definition UV_EAFNOSUPPORT : Z := -97.
Definition UV__INET6_ADDRSTRLEN : Z := 46.

Definition ch_colon : Z := 58.
Definition ch_dot : Z := 46.
Definition ch_percent : Z := 37.

(** [strchr(digits, ch) - digits] for the decimal digits, and for the two hexadecimal tables. *)
Definition digit_pos (ch : Z) : option Z := if (48 <=? ch) && (ch <=? 57) then Some (ch - 48) else None.
Definition xdigit_pos (ch : Z) : option Z :=
  if (48 <=? ch) && (ch <=? 57) then Some (ch - 48)
  else if (97 <=? ch) && (ch <=? 102) then Some (ch - 97 + 10)
  else if (65 <=? ch) && (ch <=? 70) then Some (ch - 65 + 10)
  else None.

(** [snprintf] of one byte with [%u], and of a 16-bit number with [%x]. *)
Definition print_u8 (n : Z) : list Z :=
  if n <? 10 then [48 + n]
  else if n <? 100 then [48 + n / 10; 48 + n mod 10]
  else [48 + n / 100; 48 + n / 10 mod 10; 48 + n mod 10].
Definition hex_char (d : Z) : Z := if d <? 10 then 48 + d else 87 + d.
Definition print_x16 (n : Z) : list Z :=
  if n <? 16 then [hex_char n]
  else if n <? 256 then [hex_char (n / 16); hex_char (n mod 16)]
  else if n <? 4096 then [hex_char (n / 256); hex_char (n / 16 mod 16); hex_char (n mod 16)]
  else [hex_char (n / 4096); hex_char (n / 256 mod 16); hex_char (n / 16 mod 16); hex_char (n mod 16)].

(** A function that writes a string returns its error code or the string. *)
Definition inet_ntop4 (src : list Z) (size : Z) : Z + list Z :=
  match src with
  | a :: b :: c :: d :: _ =>
      let tmp := print_u8 a ++ ch_dot :: print_u8 b ++ ch_dot :: print_u8 c ++ ch_dot :: print_u8 d in
      let l := Z.of_nat (length tmp) in
      if (l <=? 0) || (size <=? l) then inl UV_ENOSPC else inr tmp
  | _ => inl UV_EINVAL
  end.

(** *** inet_pton4 *)

(** [*p = v] in a local array. *)
Definition arr_put (tmp : list Z) (p : nat) (v : Z) : outcome (list Z) :=
  if (p <? length tmp)%nat then Ret (<[p := v]> tmp) else UB.
Definition arr_get (tmp : list Z) (p : nat) : outcome Z :=
  match tmp !! p with Some v => Ret v | None => UB end.

(** The loop over the characters; [None] is the return of UV_EINVAL. *)
Fixpoint pton4_loop (src : list Z) (saw_digit : bool) (octets : Z) (tmp : list Z) (tp : nat) :
    outcome (option (list Z)) :=
  match src with
  | [] => if octets <? 4 then Ret None else Ret (Some tmp)
  | ch :: src' =>
      match digit_pos ch with
      | Some d =>
          cur ← arr_get tmp tp;
          let nw := cur * 10 + d in
          if saw_digit && (cur =? 0) then Ret None
          else if 255 <? nw then Ret None
          else
            tmp ← arr_put tmp tp nw;
            if saw_digit then pton4_loop src' true octets tmp tp
            else if 4 <? octets + 1 then Ret None
            else pton4_loop src' true (octets + 1) tmp tp
      | None =>
          if (ch =? ch_dot) && saw_digit then
            if octets =? 4 then Ret None
            else tmp ← arr_put tmp (S tp) 0; pton4_loop src' false octets tmp (S tp)
          else Ret None
      end
  end.

(** [tmp] is the uninitialised array of four bytes. *)
Definition inet_pton4 (tmp : list Z) (src : list Z) : outcome (option (list Z)) :=
  tmp ← arr_put tmp 0 0; pton4_loop src false 0 tmp 0.

(** *** inet_ntop6 *)

(** A run of zero words: its base, -1 if there is none, and its length. *)
Record run := mkRun { base : Z; len : Z }.

Definition better (best cur : run) : run :=
  if (base best =? -1) || (len best <? len cur) then cur else best.

Fixpoint find_run (words : list Z) (i : Z) (best cur : run) : run :=
  match words with
  | [] => if base cur =? -1 then best else better best cur
  | w :: words' =>
      if w =? 0 then
        find_run words' (i + 1) best (if base cur =? -1 then mkRun i 1 else mkRun (base cur) (len cur + 1))
      else if base cur =? -1 then find_run words' (i + 1) best cur
      else find_run words' (i + 1) (better best cur) (mkRun (-1) (len cur))
  end.

Definition best_run (words : list Z) : run :=
  let best := find_run words 0 (mkRun (-1) 0) (mkRun (-1) 0) in
  if negb (base best =? -1) && (len best <? 2) then mkRun (-1) (len best) else best.

(** [words[i / 2] |= src[i] << ((1 - (i % 2)) << 3)] for all bytes. *)
Fixpoint words_of (src : list Z) : list Z :=
  match src with
  | hi :: lo :: src' => Z.lor (Z.shiftl hi 8) lo :: words_of src'
  | _ => []
  end.

(** The text from word [i] on; [tail4] is what [inet_ntop4] gives for the last four bytes. *)
Fixpoint format_words (words : list Z) (i : Z) (best : run) (w5 w7 : Z) (tail4 : list Z) : list Z :=
  match words with
  | [] => []
  | w :: words' =>
      let rest := format_words words' (i + 1) best w5 w7 tail4 in
      if negb (base best =? -1) && (base best <=? i) && (i <? base best + len best) then
        (if i =? base best then [ch_colon] else []) ++ rest
      else
        (if i =? 0 then [] else [ch_colon]) ++
        if (i =? 6) && (base best =? 0) &&
           ((len best =? 6) || ((len best =? 7) && negb (w7 =? 1)) || ((len best =? 5) && (w5 =? 0xffff)))
        then tail4
        else print_x16 w ++ rest
  end.

Definition ntop6_text (src : list Z) : list Z :=
  let words := words_of src in
  let best := best_run words in
  let tail4 := match inet_ntop4 (drop 12 src) 16 with inr t => t | inl _ => [] end in
  format_words words 0 best (nth 5 words 0) (nth 7 words 0) tail4 ++
  (if negb (base best =? -1) && (base best + len best =? 8) then [ch_colon] else []).

Definition inet_ntop6 (src : list Z) (size : Z) : Z + list Z :=
  let tmp := ntop6_text src in
  if size <? Z.of_nat (length tmp) + 1 then inl UV_ENOSPC else inr tmp.

Definition uv_inet_ntop (af : Z) (src : list Z) (size : Z) : Z + list Z :=
  if af =? AF_INET then inet_ntop4 src size
  else if af =? AF_INET6 then inet_ntop6 src size
  else inl UV_EAFNOSUPPORT.

(** *** inet_pton6 *)

(** The state when the loop is left. *)
Record pton6 := mkP6 { p_tmp : list Z; p_tp : nat; p_colon : option nat; p_seen : Z; p_val : Z }.

(** [*tp++ = val >> 8; *tp++ = val] *)
Definition put_word (tmp : list Z) (tp : nat) (val : Z) : outcome (list Z) :=
  tmp ← arr_put tmp tp (Z.land (wrap 8 (Z.shiftr val 8)) 0xff);
  arr_put tmp (S tp) (Z.land (wrap 8 val) 0xff).

(** The array of the inner [inet_pton4] is uninitialised too; what it holds does not matter. *)
Fixpoint pton6_loop (src curtok : list Z) (s : pton6) : outcome (option pton6) :=
  match src with
  | [] => Ret (Some s)
  | ch :: src' =>
      match xdigit_pos ch with
      | Some d =>
          let val := Z.lor (wrap 32 (Z.shiftl (p_val s) 4)) d in
          if 4 <? p_seen s + 1 then Ret None
          else pton6_loop src' curtok (mkP6 (p_tmp s) (p_tp s) (p_colon s) (p_seen s + 1) val)
      | None =>
          if ch =? ch_colon then
            if p_seen s =? 0 then
              match p_colon s with
              | Some _ => Ret None
              | None => pton6_loop src' src' (mkP6 (p_tmp s) (p_tp s) (Some (p_tp s)) (p_seen s) (p_val s))
              end
            else
              match src' with
              | [] => Ret None
              | _ =>
                  if (16 <? p_tp s + 2)%nat then Ret None
                  else
                    tmp ← put_word (p_tmp s) (p_tp s) (p_val s);
                    pton6_loop src' src' (mkP6 tmp (p_tp s + 2) (p_colon s) 0 0)
              end
          else if (ch =? ch_dot) && (p_tp s + 4 <=? 16)%nat then
            r ← inet_pton4 (take 4 (drop (p_tp s) (p_tmp s))) curtok;
            match r with
            | Some v4 =>
                Ret (Some (mkP6 (take (p_tp s) (p_tmp s) ++ v4 ++ drop (p_tp s + 4) (p_tmp s)) (p_tp s + 4) (p_colon s) 0 (p_val s)))
            | None => Ret None
            end
          else Ret None
      end
  end.

(** [for (i = 1; i <= n; i++) { endp[-i] = colonp[n - i]; colonp[n - i] = 0; }] *)
Fixpoint shift_loop (n i : nat) (colonp : nat) (tmp : list Z) : outcome (list Z) :=
  match n with
  | O => Ret tmp
  | S n' =>
      v ← arr_get tmp (colonp + n');
      tmp ← arr_put tmp (16 - i) v;
      tmp ← arr_put tmp (colonp + n') 0;
      shift_loop n' (S i) colonp tmp
  end.

Definition pton6_finish (s : pton6) : outcome (option (list Z)) :=
  r ← (if p_seen s =? 0 then Ret (Some (p_tmp s, p_tp s))
       else if (16 <? p_tp s + 2)%nat then Ret None
       else tmp ← put_word (p_tmp s) (p_tp s) (p_val s); Ret (Some (tmp, (p_tp s + 2)%nat)));
  match r with
  | None => Ret None
  | Some (tmp, tp) =>
      match p_colon s with
      | None => if Nat.eqb tp 16 then Ret (Some tmp) else Ret None
      | Some colonp =>
          if Nat.eqb tp 16 then Ret None
          else tmp ← shift_loop (tp - colonp) 1 colonp tmp; Ret (Some tmp)
      end
  end.

Definition inet_pton6 (src : list Z) : outcome (option (list Z)) :=
  let start src :=
    r ← pton6_loop src src (mkP6 (replicate 16 0) 0 None 0 0);
    match r with None => Ret None | Some s => pton6_finish s end in
  match src with
  | c :: src' =>
      if c =? ch_colon then
        match src' with
        | c' :: _ => if c' =? ch_colon then start src' else Ret None
        | [] => Ret None
        end
      else start src
  | [] => start src
  end.

(** The characters before a percent sign. *)
Fixpoint before_percent (src : list Z) : option (list Z) :=
  match src with
  | [] => None
  | c :: src' => if c =? ch_percent then Some [] else option_map (cons c) (before_percent src')
  end.

(** The error code, or the bytes written to [dst]. *)
Definition of_pton (r : outcome (option (list Z))) : outcome (Z + list Z) :=
  r ← r; Ret (match r with Some b => inr b | None => inl UV_EINVAL end).

Definition uv_inet_pton (af : Z) (junk : list Z) (src : list Z) : outcome (Z + list Z) :=
  if af =? AF_INET then of_pton (inet_pton4 junk src)
  else if af =? AF_INET6 then
    match before_percent src with
    | Some s => if UV__INET6_ADDRSTRLEN - 1 <? Z.of_nat (length s) then Ret (inl UV_EINVAL) else of_pton (inet_pton6 s)
    | None => of_pton (inet_pton6 src)
    end
  else Ret (inl UV_EAFNOSUPPORT).

(** [struct sockaddr_in]: family, port in network order as two bytes, address. *)
Record sockaddr_in := mkAddr { sin_family : Z; sin_port : list Z; sin_addr : list Z }.

Definition htons (port : Z) : list Z := [Z.shiftr (wrap 16 port) 8; wrap 8 port].

(** The return code and the address written. *)
Definition uv_ip4_addr (junk ip : list Z) (port : Z) : outcome (Z * sockaddr_in) :=
  r ← uv_inet_pton AF_INET junk ip;
  Ret (match r with
       | inl err => (err, mkAddr AF_INET (htons port) [0; 0; 0; 0])
       | inr b => (0, mkAddr AF_INET (htons port) b)
       end).

(** ** Part 2: IPv4 *)

Ltac Zify.zify_post_hook ::= Z.to_euclidean_division_equations.

Definition is_u8 (n : Z) : Prop := 0 <= n < 256.

(** The octets finished, each with its dot, and the one being read. *)
Definition text4 (done : list Z) (saw : bool) (cur : Z) : list Z :=
  mjoin ((fun o => print_u8 o ++ [ch_dot]) <$> done) ++ if saw then print_u8 cur else [].

Lemma print_u8_snoc cur d :
  0 < cur -> 0 <= d < 10 -> cur * 10 + d < 256 -> print_u8 (cur * 10 + d) = print_u8 cur ++ [48 + d].
Proof.
  intros Hc Hd Hlt.
  assert (E1 : (cur * 10 + d) / 10 = cur) by lia.
  assert (E2 : (cur * 10 + d) mod 10 = d) by lia.
  unfold print_u8. destruct (Z.ltb_spec (cur * 10 + d) 10); [lia|].
  destruct (Z.ltb_spec (cur * 10 + d) 100).
  - destruct (Z.ltb_spec cur 10); [|lia]. by rewrite E1, E2.
  - destruct (Z.ltb_spec cur 10); [lia|]. destruct (Z.ltb_spec cur 100); [|lia].
    assert (E3 : (cur * 10 + d) / 100 = cur / 10).
    { replace 100 with (10 * 10) by lia. rewrite <- Z.div_div by lia. by rewrite E1. }
    by rewrite E1, E2, E3.
Qed.

Lemma digit_pos_some ch d : digit_pos ch = Some d -> ch = 48 + d /\ 0 <= d < 10.
Proof. unfold digit_pos. case_match eqn:E; [|done]. intros [= <-]. reflect_bools. lia. Qed.

Lemma digit_pos_digit d : 0 <= d < 10 -> digit_pos (48 + d) = Some d.
Proof.
  intros. unfold digit_pos. rewrite (proj2 (Z.leb_le _ _)), (proj2 (Z.leb_le _ _)) by lia. cbn. f_equal. lia.
Qed.

Lemma arr_put_ok tmp p v : (p < length tmp)%nat -> arr_put tmp p v = Ret (<[p := v]> tmp).
Proof. intros. unfold arr_put. by rewrite (proj2 (Nat.ltb_lt _ _)). Qed.

Lemma arr_get_ok tmp p v : tmp !! p = Some v -> arr_get tmp p = Ret v.
Proof. unfold arr_get. by intros ->. Qed.

(** The array holds the finished octets and the current one. *)
Record oct_ok (tmp : list Z) (tp : nat) (done : list Z) (saw : bool) (cur octets : Z) : Prop := {
  oc_len : length tmp = 4%nat; oc_tp : tp = length done; oc_lt : (tp < 4)%nat;
  oc_done : take tp tmp = done; oc_cur : tmp !! tp = Some cur;
  oc_octets : octets = Z.of_nat (length done) + (if saw then 1 else 0);
  oc_range : Forall is_u8 done /\ is_u8 cur; oc_zero : saw = false -> cur = 0 }.

Lemma oct_set tmp tp done saw cur octets v :
  oct_ok tmp tp done saw cur octets -> is_u8 v ->
  oct_ok (<[tp := v]> tmp) tp done true v (if saw then octets else octets + 1).
Proof.
  intros [] Hv. constructor; try done.
  - by rewrite length_insert.
  - by rewrite take_insert_ge by lia.
  - apply list_lookup_insert_eq. lia.
  - rewrite oc_octets0. destruct saw; lia.
  - split; [apply oc_range0|done].
Qed.

Lemma oct_dot tmp tp done cur octets :
  oct_ok tmp tp done true cur octets -> octets <> 4 ->
  oct_ok (<[S tp := 0]> tmp) (S tp) (done ++ [cur]) false 0 octets.
Proof.
  intros [] Ho. assert (tp < 3)%nat by lia. constructor; try done.
  - by rewrite length_insert.
  - rewrite length_app. cbn. lia.
  - lia.
  - rewrite take_insert_ge by lia. rewrite (take_S_r _ _ _ oc_cur0). by rewrite oc_done0.
  - apply list_lookup_insert_eq. lia.
  - rewrite oc_octets0, length_app. cbn. lia.
  - split; [|unfold is_u8; lia]. apply list.Forall_app. split; [apply oc_range0|]. constructor; [apply oc_range0|constructor].
Qed.

(** Whatever is left of the input, what is accepted is the canonical text of the result. *)
Lemma pton4_sound src saw octets tmp tp done cur r :
  oct_ok tmp tp done saw cur octets -> pton4_loop src saw octets tmp tp = Ret (Some r) ->
  length r = 4%nat /\ Forall is_u8 r /\
  text4 done saw cur ++ src = text4 (take 3 r) true (nth 3 r 0).
Proof.
  revert saw octets tmp tp done cur. induction src as [|ch src IH]; intros saw octets tmp tp done cur O; cbn [pton4_loop].
  - case_match eqn:E; [done|]. intros [= <-]. reflect_bools. destruct O. assert (saw = true) as -> by (destruct saw; [done|lia]).
    assert (tp = 3)%nat by lia. subst tp. rewrite H in *.
    assert (Hr : tmp = done ++ [cur]).
    { rewrite <- oc_done0, <- (take_S_r _ _ _ oc_cur0). by rewrite take_ge by lia. }
    split; [done|]. split.
    { rewrite Hr. apply list.Forall_app. split; [apply oc_range0|]. constructor; [apply oc_range0|constructor]. }
    rewrite app_nil_r, oc_done0. f_equal. f_equal. rewrite Hr, app_nth2 by lia. by rewrite <- H, Nat.sub_diag.
  - destruct (digit_pos ch) as [d|] eqn:Ed.
    + apply digit_pos_some in Ed as [-> Hd]. rewrite (arr_get_ok _ _ _ (oc_cur _ _ _ _ _ _ O)). cbn [mbind outcome_bind].
      destruct (oc_range _ _ _ _ _ _ O) as [_ Hcur]. unfold is_u8 in Hcur.
      destruct (saw && (cur =? 0)) eqn:Ez; [done|]. destruct (Z.ltb_spec 255 (cur * 10 + d)) as [|Hle]; [done|].
      rewrite arr_put_ok by (destruct O; lia). cbn [mbind outcome_bind].
      pose proof (oct_set _ _ _ _ _ _ (cur * 10 + d) O ltac:(unfold is_u8; lia)) as O'.
      assert (Ht : text4 done saw cur ++ (48 + d) :: src = text4 done true (cur * 10 + d) ++ src).
      { unfold text4. destruct saw; cbn in Ez.
        - rewrite print_u8_snoc by (reflect_bools; lia). by rewrite <- !app_assoc.
        - pose proof (oc_zero _ _ _ _ _ _ O eq_refl) as ->. unfold print_u8. rewrite (proj2 (Z.ltb_lt (0 * 10 + d) 10)) by lia.
          rewrite app_nil_r, <- app_assoc. done. }
      rewrite Ht. destruct saw; [by apply IH|]. case_match; [done|]. by apply IH.
    + case_match eqn:Edot; [|done]. apply andb_true_iff in Edot as [->%Z.eqb_eq ->]. case_match eqn:E4; [done|]. reflect_bools.
      pose proof (oct_dot _ _ _ _ _ O E4) as O'. rewrite arr_put_ok by (destruct O, O'; rewrite length_insert in *; lia). cbn [mbind outcome_bind].
      assert (Ht : text4 done true cur ++ ch_dot :: src = text4 (done ++ [cur]) false 0 ++ src).
      { unfold text4. rewrite fmap_app, join_app. cbn. rewrite app_nil_r, <- !app_assoc. done. }
      rewrite Ht. by apply IH.
Qed.

Lemma pton4_step src saw octets tmp tp done cur d :
  oct_ok tmp tp done saw cur octets -> 0 <= d < 10 -> cur * 10 + d <= 255 -> (saw = true -> cur <> 0) ->
  pton4_loop ((48 + d) :: src) saw octets tmp tp =
  pton4_loop src true (if saw then octets else octets + 1) (<[tp := cur * 10 + d]> tmp) tp.
Proof.
  intros O Hd Hle Hz. cbn [pton4_loop]. rewrite digit_pos_digit by done.
  rewrite (arr_get_ok _ _ _ (oc_cur _ _ _ _ _ _ O)). cbn [mbind outcome_bind].
  assert (Ez : saw && (cur =? 0) = false) by (destruct saw; [cbn; by apply Z.eqb_neq, Hz|done]).
  rewrite Ez, (proj2 (Z.ltb_ge 255 _)), arr_put_ok by (destruct O; lia). cbn [mbind outcome_bind].
  destruct saw; [done|]. destruct O. by rewrite (proj2 (Z.ltb_ge 4 (octets + 1))) by lia.
Qed.

(** The digits of an octet are read as the octet. *)
Lemma pton4_octet src octets tmp tp done v :
  oct_ok tmp tp done false 0 octets -> is_u8 v ->
  pton4_loop (print_u8 v ++ src) false octets tmp tp = pton4_loop src true (octets + 1) (<[tp := v]> tmp) tp /\
  oct_ok (<[tp := v]> tmp) tp done true v (octets + 1).
Proof.
  intros O Hv. split; [|exact (oct_set _ _ _ _ _ _ v O Hv)]. unfold is_u8 in Hv. unfold print_u8.
  destruct (Z.ltb_spec v 10); [|destruct (Z.ltb_spec v 100)]; cbn [app].
  - rewrite (pton4_step _ _ _ _ _ _ _ _ O) by (done || lia). f_equal.
  - rewrite (pton4_step _ _ _ _ _ _ _ _ O) by (done || lia).
    pose proof (oct_set _ _ _ _ _ _ (0 * 10 + v / 10) O ltac:(unfold is_u8; lia)) as O1.
    rewrite (pton4_step _ _ _ _ _ _ _ _ O1), list_insert_insert_eq by (done || lia). f_equal. f_equal. lia.
  - rewrite (pton4_step _ _ _ _ _ _ _ _ O) by (done || lia).
    pose proof (oct_set _ _ _ _ _ _ (0 * 10 + v / 100) O ltac:(unfold is_u8; lia)) as O1.
    rewrite (pton4_step _ _ _ _ _ _ _ _ O1), list_insert_insert_eq by (done || lia).
    pose proof (oct_set _ _ _ _ _ _ ((0 * 10 + v / 100) * 10 + v / 10 mod 10) O ltac:(unfold is_u8; lia)) as O2.
    rewrite (pton4_step _ _ _ _ _ _ _ _ O2), list_insert_insert_eq by (done || lia). f_equal. f_equal. lia.
Qed.

Lemma pton4_dot src octets tmp tp done cur :
  oct_ok tmp tp done true cur octets -> octets <> 4 ->
  pton4_loop (ch_dot :: src) true octets tmp tp = pton4_loop src false octets (<[S tp := 0]> tmp) (S tp).
Proof.
  intros O Ho. pose proof (oct_dot _ _ _ _ _ O Ho) as O'. cbn [pton4_loop].
  change (digit_pos ch_dot) with (@None Z). cbn [Z.eqb Pos.eqb ch_dot andb].
  rewrite (proj2 (Z.eqb_neq octets 4) Ho). rewrite arr_put_ok by (destruct O, O'; rewrite length_insert in *; lia). done.
Qed.

Definition dotted (r : list Z) : list Z := text4 (take 3 r) true (nth 3 r 0).

Lemma oct_start tmp : length tmp = 4%nat -> oct_ok (<[0%nat := 0]> tmp) 0 [] false 0 0.
Proof.
  intros Hl. constructor; rewrite ?length_insert; try done; try (cbn; lia).
  apply list_lookup_insert_eq. lia.
Qed.

Lemma pton4_complete tmp a b c d :
  length tmp = 4%nat -> Forall is_u8 [a; b; c; d] -> inet_pton4 tmp (dotted [a; b; c; d]) = Ret (Some [a; b; c; d]).
Proof.
  intros Hl Hf. rewrite !list.Forall_cons in Hf. destruct Hf as (Ha & Hb & Hc & Hd & _).
  unfold inet_pton4. rewrite arr_put_ok by lia. cbn [mbind outcome_bind].
  unfold dotted, text4. cbn [take nth fmap list_fmap mjoin list_join app]. rewrite <- !app_assoc. cbn [app].
  pose proof (oct_start tmp Hl) as O.
  destruct (pton4_octet (ch_dot :: print_u8 b ++ ch_dot :: print_u8 c ++ ch_dot :: print_u8 d) _ _ _ _ _ O Ha) as [-> O1].
  rewrite (pton4_dot _ _ _ _ _ _ O1) by lia. pose proof (oct_dot _ _ _ _ _ O1 ltac:(lia)) as O2.
  destruct (pton4_octet (ch_dot :: print_u8 c ++ ch_dot :: print_u8 d) _ _ _ _ _ O2 Hb) as [-> O3].
  rewrite (pton4_dot _ _ _ _ _ _ O3) by lia. pose proof (oct_dot _ _ _ _ _ O3 ltac:(lia)) as O4.
  destruct (pton4_octet (ch_dot :: print_u8 d) _ _ _ _ _ O4 Hc) as [-> O5].
  rewrite (pton4_dot _ _ _ _ _ _ O5) by lia. pose proof (oct_dot _ _ _ _ _ O5 ltac:(lia)) as O6.
  rewrite <- (app_nil_r (print_u8 d)).
  destruct (pton4_octet [] _ _ _ _ _ O6 Hd) as [-> O7]. cbn [pton4_loop].
  destruct tmp as [|t0 [|t1 [|t2 [|t3 [|]]]]]; try done.
Qed.

(** The loop never leaves the array. *)
Lemma pton4_total src saw octets tmp tp done cur :
  oct_ok tmp tp done saw cur octets -> exists r, pton4_loop src saw octets tmp tp = Ret r.
Proof.
  revert saw octets tmp tp done cur. induction src as [|ch src IH]; intros saw octets tmp tp done cur O; cbn [pton4_loop].
  - case_match; eauto.
  - destruct (digit_pos ch) as [d|] eqn:Ed.
    + apply digit_pos_some in Ed as [-> Hd]. rewrite (arr_get_ok _ _ _ (oc_cur _ _ _ _ _ _ O)). cbn [mbind outcome_bind].
      destruct (oc_range _ _ _ _ _ _ O) as [_ Hcur]. unfold is_u8 in Hcur.
      case_match; [eauto|]. destruct (Z.ltb_spec 255 (cur * 10 + d)); [eauto|].
      rewrite arr_put_ok by (destruct O; lia). cbn [mbind outcome_bind].
      pose proof (oct_set _ _ _ _ _ _ (cur * 10 + d) O ltac:(unfold is_u8; lia)) as O'.
      destruct saw; [by eapply IH|]. case_match; [eauto|]. by eapply IH.
    + case_match eqn:Edot; [|eauto]. apply andb_true_iff in Edot as [_ ->]. case_match eqn:E4; [eauto|]. reflect_bools.
      pose proof (oct_dot _ _ _ _ _ O E4) as O'. rewrite arr_put_ok by (destruct O, O'; rewrite length_insert in *; lia). cbn [mbind outcome_bind].
      by eapply IH.
Qed.

(** [inet_pton4] accepts exactly the dotted decimal addresses without leading zeros, and
    returns their four bytes. *)
Lemma pton4_exact tmp src :
  length tmp = 4%nat ->
  exists r, inet_pton4 tmp src = Ret r /\
    (forall b, r = Some b <-> length b = 4%nat /\ Forall is_u8 b /\ src = dotted b).
Proof.
  intros Hl. assert (Ht : exists r, inet_pton4 tmp src = Ret r).
  { unfold inet_pton4. rewrite arr_put_ok by lia. cbn [mbind outcome_bind]. by eapply pton4_total, oct_start. }
  destruct Ht as [r Hr]. exists r. split; [done|]. intros b. split.
  - intros ->. unfold inet_pton4 in Hr. rewrite arr_put_ok in Hr by lia. cbn [mbind outcome_bind] in Hr.
    destruct (pton4_sound _ _ _ _ _ _ _ _ (oct_start tmp Hl) Hr) as (H1 & H2 & H3). split_and!; try done.
  - intros (H1 & H2 & ->). destruct b as [|b0 [|b1 [|b2 [|b3 [|]]]]]; try done.
    rewrite pton4_complete in Hr by done. congruence.
Qed.

Lemma ntop4_text b size :
  length b = 4%nat ->
  inet_ntop4 b size = if size <=? Z.of_nat (length (dotted b)) then inl UV_ENOSPC else inr (dotted b).
Proof.
  intros Hl. destruct b as [|b0 [|b1 [|b2 [|b3 [|]]]]]; try done. unfold inet_ntop4, dotted, text4.
  cbn [take nth fmap list_fmap mjoin list_join app]. rewrite <- !app_assoc. cbn [app].
  set (t := print_u8 b0 ++ _). assert (0 < Z.of_nat (length t)).
  { unfold t, print_u8. repeat case_match; cbn; lia. }
  by rewrite (proj2 (Z.leb_gt _ _)) by lia.
Qed.

(** [uv_ip4_addr] accepts exactly the dotted decimal addresses without leading zeros:
    for every string and port, whatever the parser's array held before, it returns 0 and the
    four bytes of the address just when the string is the address's text, and UV_EINVAL
    otherwise, without a write outside the array; the port is stored in network order modulo
    2^16, so a larger one is cut; and [inet_ntop4] writes the same text back, or reports
    that it does not fit. *)
Theorem ip4_addr_exact junk ip port :
  length junk = 4%nat ->
  exists code addr, uv_ip4_addr junk ip port = Ret (code, addr) /\
    (code = 0 \/ code = UV_EINVAL) /\
    (forall b, code = 0 /\ sin_addr addr = b <-> length b = 4%nat /\ Forall is_u8 b /\ ip = dotted b) /\
    sin_family addr = AF_INET /\
    (exists hi lo, sin_port addr = [hi; lo] /\ is_u8 hi /\ is_u8 lo /\ hi * 256 + lo = port mod 2 ^ 16) /\
    (code = 0 -> forall size, inet_ntop4 (sin_addr addr) size = if size <=? Z.of_nat (length ip) then inl UV_ENOSPC else inr ip).
Proof.
  intros Hl. destruct (pton4_exact junk ip Hl) as (r & Hr & Hx).
  assert (Hport : exists hi lo, htons port = [hi; lo] /\ is_u8 hi /\ is_u8 lo /\ hi * 256 + lo = port mod 2 ^ 16).
  { unfold htons, is_u8. rewrite Z.shiftr_div_pow2 by done. eexists _, _. split; [done|]. unfold wrap. lia. }
  unfold uv_ip4_addr, uv_inet_pton. cbn [Z.eqb Pos.eqb AF_INET]. rewrite Hr. cbn [mbind outcome_bind of_pton].
  destruct r as [b|]; eexists _, _; (split; [reflexivity|]); cbn [sin_addr sin_family sin_port].
  - destruct (proj1 (Hx b) eq_refl) as (H1 & H2 & ->). split_and!; auto.
    + intros b'. rewrite <- Hx. split; [intros [_ ->]; done|intros; by simplify_eq].
    + intros _ size. by apply ntop4_text.
  - split_and!; auto; [|done]. intros b. rewrite <- Hx. split; [by intros [? _]|done].
Qed.

(** The address a server listens on. *)
Lemma ip4_addr_exact_witness :
  exists code addr, uv_ip4_addr [7; 7; 7; 7] (dotted [0; 0; 0; 0]) 8080 = Ret (code, addr) /\ code = 0 /\ sin_addr addr = [0; 0; 0; 0].
Proof.
  destruct (ip4_addr_exact [7; 7; 7; 7] (dotted [0; 0; 0; 0]) 8080 eq_refl) as (code & addr & H & _ & Hx & _).
  exists code, addr. split; [done|]. apply Hx. split; [done|]. split; [repeat constructor; lia|done].
Defined.

(** ** Part 3: IPv6 *)

Definition is_u16 (n : Z) : Prop := 0 <= n < 65536.

(** The bytes of words, in network order. *)
Definition bytes_of (ws : list Z) : list Z := mjoin ((fun w => [w / 256; w mod 256]) <$> ws).

Lemma words_of_bytes ws : Forall is_u16 ws -> words_of (bytes_of ws) = ws.
Proof.
  induction 1 as [|w ws Hw Hws IH]; [done|]. change (bytes_of (w :: ws)) with (w / 256 :: w mod 256 :: bytes_of ws).
  cbn [words_of]. rewrite IH. f_equal.
  unfold is_u16 in Hw. rewrite (lor_shiftl_add _ _ 8) by (unfold uint_ok; lia). lia.
Qed.

Lemma bytes_of_words src : Nat.even (length src) = true -> Forall is_u8 src ->
  bytes_of (words_of src) = src /\ Forall is_u16 (words_of src) /\ (2 * length (words_of src) = length src)%nat.
Proof.
  remember (length src) as n eqn:Hn. revert src Hn. induction (lt_wf n) as [n _ IH]. intros src Hn He Hf.
  destruct src as [|a [|b src]]; [by split_and!; [..|constructor|cbn in *; lia]|by subst|].
  rewrite !list.Forall_cons in Hf. destruct Hf as (Ha & Hb & Hf). unfold is_u8 in *.
  destruct (IH (length src)) with (src := src) as (H1 & H2 & H3); try done; [subst; cbn; lia|subst; done|].
  cbn [words_of]. rewrite (lor_shiftl_add _ _ 8) by (unfold uint_ok; lia).
  split_and!.
  - change (bytes_of (?w :: ?ws)) with (w / 256 :: w mod 256 :: bytes_of ws). rewrite H1. f_equal; [lia|]. f_equal. lia.
  - constructor; [unfold is_u16; lia|done].
  - subst. cbn. lia.
Qed.

(** *** The run of zeros *)

(** A run lies within the first [n] words and they are zero there. *)
Definition run_ok (words : list Z) (n : Z) (r : run) : Prop :=
  base r = -1 \/ (0 <= base r /\ 1 <= len r /\ base r + len r <= n /\
    forall i, base r <= i < base r + len r -> words !! Z.to_nat i = Some 0).

Lemma better_ok words n best cur : run_ok words n best -> run_ok words n cur -> base cur <> -1 -> run_ok words n (better best cur).
Proof. intros H1 H2 _. unfold better. by case_match. Qed.

Lemma find_run_ok all words pre best cur :
  all = pre ++ words -> run_ok all (Z.of_nat (length pre)) best -> run_ok all (Z.of_nat (length pre)) cur ->
  (base cur <> -1 -> base cur + len cur = Z.of_nat (length pre)) ->
  run_ok all (Z.of_nat (length all)) (find_run words (Z.of_nat (length pre)) best cur).
Proof.
  revert pre best cur. induction words as [|w words IH]; intros pre best cur E Hb Hc He; cbn [find_run].
  { rewrite app_nil_r in E. subst pre. case_match; [done|]. reflect_bools. by apply better_ok. }
  assert (Hmono : forall r, run_ok all (Z.of_nat (length pre)) r -> run_ok all (Z.of_nat (length (pre ++ [w]))) r).
  { intros r [?|(? & ? & ? & ?)]; [by left|right]. rewrite length_app. cbn. split_and!; try done. lia. }
  assert (E' : all = (pre ++ [w]) ++ words) by (by rewrite <- app_assoc).
  replace (Z.of_nat (length pre) + 1) with (Z.of_nat (length (pre ++ [w]))) by (rewrite length_app; cbn; lia).
  destruct (Z.eqb_spec w 0) as [->|Hw].
  - apply IH; [done|by apply Hmono|..].
    + right. assert (Hat : all !! length pre = Some 0) by (rewrite E; by rewrite lookup_app_r, Nat.sub_diag by lia).
      destruct (Z.eqb_spec (base cur) (-1)) as [Hb1|Hb1]; cbn.
      * rewrite length_app. cbn. split_and!; try lia. intros i Hi. replace (Z.to_nat i) with (length pre) by lia. done.
      * destruct Hc as [?|(H1 & H2 & H3 & H4)]; [done|]. specialize (He Hb1). rewrite length_app. cbn. split_and!; try lia.
        intros i Hi. destruct (decide (i < base cur + len cur)); [apply H4; lia|]. by replace (Z.to_nat i) with (length pre) by lia.
    + rewrite length_app. destruct (Z.eqb_spec (base cur) (-1)) as [Hb1|Hb1]; cbn; [lia|]. specialize (He Hb1). lia.
  - destruct (Z.eqb_spec (base cur) (-1)) as [Hb1|Hb1].
    + apply IH; auto. by intros.
    + apply IH; [done|by apply Hmono, better_ok|by left|done].
Qed.

Lemma best_run_ok words :
  base (best_run words) = -1 \/
  (0 <= base (best_run words) /\ 2 <= len (best_run words) /\
   base (best_run words) + len (best_run words) <= Z.of_nat (length words) /\
   forall i, base (best_run words) <= i < base (best_run words) + len (best_run words) -> words !! Z.to_nat i = Some 0).
Proof.
  unfold best_run. pose proof (find_run_ok words words [] (mkRun (-1) 0) (mkRun (-1) 0) eq_refl ltac:(by left) ltac:(by left) ltac:(done)) as H.
  cbn [length Z.of_nat] in H. set (r := find_run _ _ _ _) in *. case_match eqn:E; [by left|].
  destruct H as [?|(? & ? & ? & ?)]; [by left|right]. split_and!; try done.
  destruct (Z.eqb_spec (base r) (-1)); [lia|]. cbn in E. reflect_bools. lia.
Qed.

(** *** Reference: the text of an address

    Words [b] to [b + l] are a run of zeros; it is the longest one, of two words at least, and the
    first of that length. *)
Definition zeros (words : list Z) (n b l : Z) : Prop :=
  0 <= b /\ 1 <= l /\ b + l <= n /\ forall i, b <= i < b + l -> words !! Z.to_nat i = Some 0.
Definition longest (words : list Z) (b l : Z) : Prop :=
  let n := Z.of_nat (length words) in
  2 <= l /\ zeros words n b l /\ forall b' l', zeros words n b' l' -> l' <= l /\ (l' = l -> b <= b').

(** Hexadecimal words with colons between them. *)
Fixpoint colons (words : list Z) : list Z :=
  match words with
  | [] => []
  | [w] => print_x16 w
  | w :: words' => print_x16 w ++ ch_colon :: colons words'
  end.

(** The last four bytes are written as an IPv4 address behind six words of zeros, and behind five
    words of zeros and the word ffff. *)
Definition embeds (words : list Z) (b l : Z) : Prop :=
  b = 0 /\ (l = 6 \/ l = 5 /\ words !! 5%nat = Some 0xffff).

(** The text: the longest run of zeros is left out between two colons. *)
Definition text6 (words text : list Z) : Prop :=
  (exists b l, longest words b l /\
     (embeds words b l ->
        text = [ch_colon; ch_colon] ++ (if l =? 5 then print_x16 0xffff ++ [ch_colon] else []) ++ dotted (drop 12 (bytes_of words))) /\
     (~ embeds words b l ->
        text = colons (take (Z.to_nat b) words) ++ [ch_colon; ch_colon] ++ colons (drop (Z.to_nat (b + l)) words))) \/
  (forall b l, ~ longest words b l) /\ text = colons words.

(** A run that is at least as good as another one. *)
Definition covers (r : run) (b l : Z) : Prop := base r <> -1 /\ l <= len r /\ (l = len r -> base r <= b).

Lemma zeros_less words n n' b l : zeros words n b l -> b + l <= n' -> zeros words n' b l.
Proof. intros (? & ? & ? & ?) ?. by split_and!. Qed.

Lemma better_covers words n best cur b l : (base best <> -1 -> base best <= base cur) ->
  base cur <> -1 -> base cur + len cur = n -> zeros words n b l -> covers best b l \/ base cur <= b -> covers (better best cur) b l.
Proof.
  intros Ho Hc He (H1 & H2 & H3 & _) H. unfold better. destruct (Z.eqb_spec (base best) (-1)) as [E|E]; cbn [orb].
  - destruct H as [[? _]|H]; [done|]. split; [done|]. lia.
  - specialize (Ho E). destruct (Z.ltb_spec (len best) (len cur)).
    + split; [done|]. destruct H as [(_ & ? & ?)|?]; lia.
    + split; [done|]. destruct H as [(_ & ? & ?)|?]; lia.
Qed.

(** What the search knows after the first [n] words. *)
Record searched (all : list Z) (n : Z) (best cur : run) : Prop := {
  se_runs : forall b l, zeros all n b l -> covers best b l \/ base cur <> -1 /\ base cur <= b;
  se_last : forall b l, zeros all n b l -> b + l = n -> base cur <> -1 /\ base cur <= b;
  se_cur : base cur <> -1 -> base cur + len cur = n /\ base cur <= n;
  se_order : base cur <> -1 -> base best <> -1 -> base best <= base cur;
  se_best : base best <> -1 -> base best <= n }.

Lemma searched_zero all n best cur : 0 <= n -> searched all n best cur -> all !! Z.to_nat n = Some 0 ->
  searched all (n + 1) best (if base cur =? -1 then mkRun n 1 else mkRun (base cur) (len cur + 1)).
Proof.
  intros Hn0 [H1 H2 H3 H4 H5] H0. set (cur' := if base cur =? -1 then mkRun n 1 else mkRun (base cur) (len cur + 1)).
  assert (base cur' <> -1 /\ base cur' <= n /\ base cur' + len cur' = n + 1 /\
    (base cur <> -1 -> base cur' = base cur) /\ (base best <> -1 -> base best <= base cur')) as (Hb & Hn & Hl & He & Ho).
  { subst cur'. destruct (Z.eqb_spec (base cur) (-1)) as [E|E]; cbn [base len].
    - split_and!; try done; try lia; auto.
    - specialize (H3 E). split_and!; try done; try lia; auto. }
  assert (forall b l, zeros all (n + 1) b l -> b + l = n + 1 -> base cur' <> -1 /\ base cur' <= b) as Hlast.
  { intros b l (Z1 & Z2 & Z3 & Z4) E. split; [done|]. destruct (decide (l = 1)) as [->|]; [lia|].
    destruct (H2 b (l - 1)) as [Hc Hle]; [|lia|by rewrite He by done].
    split_and!; try lia. intros i Hi. apply Z4. lia. }
  split; [|done|lia|auto|intros H; specialize (H5 H); lia].
  - intros b l Hz. destruct (decide (b + l = n + 1)) as [E|E]; [right; by apply (Hlast b l)|].
    destruct (H1 b l) as [?|[Hc Hle]]; [|by left|right; by rewrite He by done].
    destruct Hz as (? & ? & ? & ?). split_and!; done || lia.
Qed.

Lemma searched_word all n best cur w : 0 <= n -> searched all n best cur -> all !! Z.to_nat n = Some w -> w <> 0 ->
  searched all (n + 1) (if base cur =? -1 then best else better best cur) (mkRun (-1) (len cur)).
Proof.
  intros Hn0 [H1 H2 H3 H4 H5] Hw Hne.
  assert (forall b l, zeros all (n + 1) b l -> zeros all n b l) as Hz.
  { intros b l (Z1 & Z2 & Z3 & Z4). split_and!; try done. destruct (decide (b + l = n + 1)) as [E|E]; [|lia].
    specialize (Z4 n ltac:(lia)). rewrite Hw in Z4. congruence. }
  split; cbn [base len].
  - intros b l H%Hz. left. destruct (H1 b l H) as [Hc|[Hc Hb]].
    + destruct (Z.eqb_spec (base cur) (-1)) as [E|E]; [done|]. eapply better_covers; [by auto|done|by apply H3|done|by left].
    + rewrite (proj2 (Z.eqb_neq _ _) Hc). eapply better_covers; [by auto|done|by apply H3|done|by right].
  - intros b l H E. destruct (Hz b l H) as (_ & _ & ? & _). lia.
  - done.
  - done.
  - destruct (Z.eqb_spec (base cur) (-1)) as [E|E]; [intros H; specialize (H5 H); lia|].
    destruct (H3 E). unfold better. case_match; [lia|]. intros Hb. specialize (H5 Hb). lia.
Qed.

Lemma find_run_covers all words pre best cur : all = pre ++ words -> searched all (Z.of_nat (length pre)) best cur ->
  forall b l, zeros all (Z.of_nat (length all)) b l -> covers (find_run words (Z.of_nat (length pre)) best cur) b l.
Proof.
  revert pre best cur. induction words as [|w words IH]; intros pre best cur E Hs; cbn [find_run].
  { rewrite app_nil_r in E. subst pre. intros b l Hz. destruct (se_runs _ _ _ _ Hs b l Hz) as [Hc|[Hc Hb]].
    - destruct (Z.eqb_spec (base cur) (-1)) as [Ec|Ec]; [done|].
      eapply better_covers; [by apply Hs|done|by apply (se_cur _ _ _ _ Hs)|done|by left].
    - rewrite (proj2 (Z.eqb_neq _ _) Hc). eapply better_covers; [by apply Hs|done|by apply (se_cur _ _ _ _ Hs)|done|by right]. }
  assert (all !! Z.to_nat (Z.of_nat (length pre)) = Some w) as Hw by (rewrite Nat2Z.id, E; by rewrite lookup_app_r, Nat.sub_diag by lia).
  assert (all = (pre ++ [w]) ++ words) as E' by (by rewrite <- app_assoc).
  replace (Z.of_nat (length pre) + 1) with (Z.of_nat (length (pre ++ [w]))) by (rewrite length_app; cbn; lia).
  assert (Z.of_nat (length (pre ++ [w])) = Z.of_nat (length pre) + 1) as En by (rewrite length_app; cbn; lia).
  destruct (Z.eqb_spec w 0) as [->|Hne].
  - apply IH; [done|]. rewrite En. exact (searched_zero all (Z.of_nat (length pre)) best cur (Nat2Z.is_nonneg _) Hs Hw).
  - pose proof (searched_word _ _ _ _ w (Nat2Z.is_nonneg _) Hs Hw Hne) as Hs'. rewrite <- En in Hs'.
    destruct (Z.eqb_spec (base cur) (-1)) as [Ec|Ec]; apply IH; try done.
    destruct cur as [bc lc]. cbn in Ec. subst bc. exact Hs'.
Qed.

(** The run that the code finds is the longest one. *)
Lemma best_run_longest words :
  (base (best_run words) = -1 /\ forall b l, ~ longest words b l) \/
  longest words (base (best_run words)) (len (best_run words)).
Proof.
  assert (forall b l, zeros words (Z.of_nat (length words)) b l -> covers (find_run words 0 (mkRun (-1) 0) (mkRun (-1) 0)) b l) as Hc.
  { apply (find_run_covers words words []); [done|]. split; cbn; try done; intros b l (? & ? & ? & _); lia. }
  pose proof (best_run_ok words) as Hok. unfold best_run in *. set (r := find_run _ _ _ _) in *.
  destruct (Z.eqb_spec (base r) (-1)) as [E|E]; cbn [negb andb] in *.
  { left. split; [done|]. intros b l (_ & Hz & _). by destruct (Hc b l Hz). }
  destruct (Z.ltb_spec (len r) 2) as [E2|E2].
  { left. split; [done|]. intros b l (? & Hz & _). destruct (Hc b l Hz) as (_ & ? & _). lia. }
  right. destruct Hok as [?|(H1 & H2 & H3 & H4)]; [done|]. split; [done|]. split; [by split_and!; try lia|].
  intros b l Hz. by destruct (Hc b l Hz) as (_ & ? & ?).
Qed.

(** *** Reading what is printed *)

Lemma xdigit_hex d : 0 <= d < 16 -> xdigit_pos (hex_char d) = Some d.
Proof. intros. unfold xdigit_pos, hex_char. destruct (Z.ltb_spec d 10); repeat case_match; reflect_bools; try lia; f_equal; lia. Qed.

Lemma pton6_digit src cur tmp tp col n v d :
  0 <= d < 16 -> 0 <= v < 2 ^ 28 -> n < 4 ->
  pton6_loop (hex_char d :: src) cur (mkP6 tmp tp col n v) = pton6_loop src cur (mkP6 tmp tp col (n + 1) (v * 16 + d)).
Proof.
  intros Hd Hv Hn. cbn [pton6_loop p_val p_seen p_tmp p_tp p_colon]. rewrite xdigit_hex by done.
  rewrite (proj2 (Z.ltb_ge 4 (n + 1))) by lia. repeat f_equal.
  rewrite wrap_small by (unfold uint_ok; rewrite Z.shiftl_mul_pow2; lia).
  by rewrite lor_shiftl_add by (unfold uint_ok; lia).
Qed.

(** The digits of a word are read as the word. *)
Lemma pton6_word src cur tmp tp col w :
  is_u16 w ->
  pton6_loop (print_x16 w ++ src) cur (mkP6 tmp tp col 0 0) =
  pton6_loop src cur (mkP6 tmp tp col (Z.of_nat (length (print_x16 w))) w).
Proof.
  intros Hw. unfold is_u16 in Hw. unfold print_x16.
  destruct (Z.ltb_spec w 16); [|destruct (Z.ltb_spec w 256); [|destruct (Z.ltb_spec w 4096)]]; cbn [app];
    rewrite !pton6_digit by lia; cbn [length]; repeat f_equal; lia.
Qed.

(** The array with the first bytes written. *)
Definition p6 (bytes : list Z) (col : option nat) (n v : Z) : pton6 :=
  mkP6 (bytes ++ replicate (16 - length bytes) 0) (length bytes) col n v.

Lemma put_word_bytes bytes w :
  (length bytes + 2 <= 16)%nat -> is_u16 w ->
  put_word (bytes ++ replicate (16 - length bytes) 0) (length bytes) w =
  Ret ((bytes ++ bytes_of [w]) ++ replicate (16 - length (bytes ++ bytes_of [w])) 0).
Proof.
  intros Hl Hw. unfold is_u16 in Hw. unfold put_word.
  assert (E8 : forall z, Z.land (wrap 8 z) 255 = z mod 256).
  { intros z. change 255 with (Z.ones 8). rewrite Z.land_ones by lia. unfold wrap. apply Z.mod_mod. lia. }
  rewrite !E8, Z.shiftr_div_pow2 by lia.
  assert (Ek : exists k, (16 - length bytes)%nat = S (S k)) by (exists (14 - length bytes)%nat; lia).
  destruct Ek as [k Ek]. rewrite length_app. change (length (bytes_of [w])) with 2%nat.
  replace (16 - (length bytes + 2))%nat with k by lia. rewrite Ek. cbn [replicate].
  rewrite arr_put_ok by (rewrite length_app; cbn; lia). cbn [mbind outcome_bind].
  rewrite insert_app_r_alt, Nat.sub_diag by lia.
  rewrite arr_put_ok by (rewrite length_app; cbn; lia).
  rewrite insert_app_r_alt by lia. replace (S (length bytes) - length bytes)%nat with 1%nat by lia. cbn.
  rewrite <- app_assoc. cbn. repeat f_equal; lia.
Qed.

Lemma print_x16_len w : (1 <= length (print_x16 w) <= 4)%nat.
Proof. unfold print_x16. repeat case_match; cbn; lia. Qed.

(** A word and the colon behind it, with more to come. *)
Lemma pton6_word_colon src cur bytes col w :
  (length bytes + 2 <= 16)%nat -> is_u16 w -> src <> [] ->
  pton6_loop (print_x16 w ++ ch_colon :: src) cur (p6 bytes col 0 0) = pton6_loop src src (p6 (bytes ++ bytes_of [w]) col 0 0).
Proof.
  intros Hl Hw Hs. unfold p6 at 1. rewrite pton6_word by done. pose proof (print_x16_len w).
  cbn [pton6_loop p_seen p_tp p_tmp p_colon p_val]. change (xdigit_pos ch_colon) with (@None Z). cbn [Z.eqb Pos.eqb ch_colon].
  rewrite (proj2 (Z.eqb_neq _ 0)) by lia. destruct src as [|c src]; [done|].
  rewrite (proj2 (Nat.ltb_ge 16 _)), put_word_bytes by (done || lia). cbn [mbind outcome_bind]. unfold p6.
  do 2 f_equal. by rewrite length_app.
Qed.

(** The second of two colons marks the place of the run. *)
Lemma pton6_mark src cur bytes :
  pton6_loop (ch_colon :: src) cur (p6 bytes None 0 0) = pton6_loop src src (p6 bytes (Some (length bytes)) 0 0).
Proof. done. Qed.

(** The last word. *)
Lemma pton6_last cur bytes col w :
  (length bytes + 2 <= 16)%nat -> is_u16 w ->
  (r ← pton6_loop (print_x16 w) cur (p6 bytes col 0 0);
   match r with None => Ret None | Some s => pton6_finish s end) =
  pton6_finish (p6 (bytes ++ bytes_of [w]) col 0 0).
Proof.
  intros Hl Hw. rewrite <- (app_nil_r (print_x16 w)). unfold p6 at 1. rewrite pton6_word by done. pose proof (print_x16_len w).
  cbn [pton6_loop mbind outcome_bind]. unfold pton6_finish, p6. cbn [p_seen p_tp p_tmp p_colon p_val].
  rewrite (proj2 (Z.eqb_neq _ 0)), (proj2 (Nat.ltb_ge 16 _)), put_word_bytes by (done || lia). cbn [Z.eqb mbind outcome_bind].
  by rewrite (length_app bytes).
Qed.

(** An IPv4 address at the end: its first octet is read as hexadecimal digits and forgotten. *)
Lemma pton6_embedded bytes col a b c d :
  (length bytes + 4 <= 16)%nat -> Forall is_u8 [a; b; c; d] ->
  exists v, pton6_loop (dotted [a; b; c; d]) (dotted [a; b; c; d]) (p6 bytes col 0 0) =
    Ret (Some (p6 (bytes ++ [a; b; c; d]) col 0 v)).
Proof.
  intros Hl Hf.
  assert (Hdot : forall src n v, pton6_loop (ch_dot :: src) (dotted [a; b; c; d]) (mkP6 (bytes ++ replicate (16 - length bytes) 0) (length bytes) col n v) =
    Ret (Some (p6 (bytes ++ [a; b; c; d]) col 0 v))).
  { intros src n v. cbn [pton6_loop p_seen p_tp p_tmp p_colon p_val]. change (xdigit_pos ch_dot) with (@None Z).
    change (ch_dot =? ch_colon) with false. change (ch_dot =? ch_dot) with true. cbn [andb].
    rewrite (proj2 (Nat.leb_le _ 16)) by lia. rewrite drop_app_length, pton4_complete by (rewrite ?length_take, ?length_replicate; done || lia).
    cbn [mbind outcome_bind]. unfold p6. rewrite take_app_length, drop_app_ge, drop_replicate, !length_app by lia. cbn [length].
    rewrite <- app_assoc. cbn [app].
    by replace (16 - length bytes - (length bytes + 4 - length bytes))%nat with (16 - (length bytes + 4))%nat by lia. }
  assert (Hfirst : is_u8 a) by (by inversion Hf).
  unfold dotted at 1, text4. cbn [take nth fmap list_fmap mjoin list_join app]. rewrite <- !app_assoc. cbn [app].
  set (rest := print_u8 b ++ _). unfold is_u8 in Hfirst. unfold p6 at 1.
  assert (Hh : forall k, 0 <= k < 10 -> 48 + k = hex_char k) by (intros k Hk; unfold hex_char; destruct (Z.ltb_spec k 10); lia).
  unfold print_u8. destruct (Z.ltb_spec a 10); [|destruct (Z.ltb_spec a 100)]; cbn [app]; rewrite !Hh by lia;
    rewrite !pton6_digit by lia; rewrite Hdot; eauto.
Qed.

(** Parsing from the first character that is not the colon of a leading run. *)
Definition parse_from (src curtok : list Z) (s : pton6) : outcome (option (list Z)) :=
  r ← pton6_loop src curtok s; match r with None => Ret None | Some s => pton6_finish s end.

Lemma inet_pton6_word w src : is_u16 w ->
  inet_pton6 (print_x16 w ++ src) = parse_from (print_x16 w ++ src) (print_x16 w ++ src) (p6 [] None 0 0).
Proof.
  intros Hw. unfold is_u16 in Hw. assert (Hc : exists d t, print_x16 w = hex_char d :: t /\ 0 <= d < 16).
  { unfold print_x16. repeat case_match; reflect_bools; eexists _, _; (split; [done|lia]). }
  destruct Hc as (d & t & -> & Hd). cbn [app inet_pton6].
  assert ((hex_char d =? ch_colon) = false) as ->; [|done].
  apply Z.eqb_neq. unfold hex_char, ch_colon. case_match; reflect_bools; lia.
Qed.

Lemma inet_pton6_run src : inet_pton6 (ch_colon :: ch_colon :: src) = parse_from src src (p6 [] (Some 0%nat) 0 0).
Proof. done. Qed.

Lemma parse_word src cur bytes col w :
  (length bytes + 2 <= 16)%nat -> is_u16 w -> src <> [] ->
  parse_from (print_x16 w ++ ch_colon :: src) cur (p6 bytes col 0 0) = parse_from src src (p6 (bytes ++ bytes_of [w]) col 0 0).
Proof. intros. unfold parse_from. by rewrite pton6_word_colon. Qed.

Lemma parse_mark src cur bytes :
  parse_from (ch_colon :: src) cur (p6 bytes None 0 0) = parse_from src src (p6 bytes (Some (length bytes)) 0 0).
Proof. done. Qed.

Lemma parse_last cur bytes col w :
  (length bytes + 2 <= 16)%nat -> is_u16 w ->
  parse_from (print_x16 w) cur (p6 bytes col 0 0) = pton6_finish (p6 (bytes ++ bytes_of [w]) col 0 0).
Proof. apply pton6_last. Qed.

Lemma parse_dotted bytes col a b c d :
  (length bytes + 4 <= 16)%nat -> Forall is_u8 [a; b; c; d] ->
  exists v, parse_from (dotted [a; b; c; d]) (dotted [a; b; c; d]) (p6 bytes col 0 0) = pton6_finish (p6 (bytes ++ [a; b; c; d]) col 0 v).
Proof. intros H1 H2. destruct (pton6_embedded bytes col a b c d H1 H2) as [v Hv]. exists v. unfold parse_from. by rewrite Hv. Qed.

Lemma print_x16_ne w src : print_x16 w ++ src <> [].
Proof. pose proof (print_x16_len w). destruct (print_x16 w); [cbn in *; lia|done]. Qed.

Lemma print_x16_ne' w : print_x16 w <> [].
Proof. rewrite <- (app_nil_r (print_x16 w)). apply print_x16_ne. Qed.

Ltac side := first [assumption | apply print_x16_ne | apply print_x16_ne' | discriminate | cbn; lia].

(** Runs the parser over a text whose shape is known. *)
Ltac parse :=
  repeat first
    [ rewrite inet_pton6_run | rewrite inet_pton6_word by side
    | rewrite parse_word by side | rewrite parse_mark | rewrite parse_last by side ];
  cbn [app bytes_of fmap list_fmap mjoin list_join length].

Ltac bound_text :=
  repeat first [rewrite length_app | rewrite length_cons | rewrite length_nil];
  repeat match goal with |- context [length (print_x16 ?w)] =>
    let H := fresh in pose proof (print_x16_len w) as H; revert H; generalize (length (print_x16 w)) end;
  intros; lia.

(** Prints words with a known run. *)
Ltac format :=
  cbv [format_words base len Z.add Pos.add Pos.succ];
  cbn [Z.eqb Pos.eqb Z.leb Z.ltb Z.compare Pos.compare Pos.compare_cont negb andb orb app];
  rewrite ?app_nil_r; repeat (rewrite <- app_assoc; cbn [app]).

Lemma ntop6_no_run w0 w1 w2 w3 w4 w5 w6 w7 l t4 :
  Forall is_u16 [w0; w1; w2; w3; w4; w5; w6; w7] ->
  let text := format_words [w0; w1; w2; w3; w4; w5; w6; w7] 0 (mkRun (-1) l) w5 w7 t4 ++ [] in
  inet_pton6 text = Ret (Some (bytes_of [w0; w1; w2; w3; w4; w5; w6; w7])) /\ (length text <= 45)%nat.
Proof.
  intros Hf. rewrite !list.Forall_cons in Hf. destruct Hf as (H0 & H1 & H2 & H3 & H4 & H5 & H6 & H7 & _).
  format. cbv zeta. split; [parse; done|bound_text].
Qed.

Lemma len_print_u8 v : (1 <= length (print_u8 v) <= 3)%nat.
Proof. unfold print_u8. repeat case_match; cbn; lia. Qed.

Lemma dotted_len a b c d : (7 <= length (dotted [a; b; c; d]) <= 15)%nat.
Proof.
  unfold dotted, text4. cbn [take nth fmap list_fmap mjoin list_join app]. rewrite <- !app_assoc. cbn [app].
  repeat first [rewrite length_app | rewrite length_cons].
  pose proof (len_print_u8 a). pose proof (len_print_u8 b). pose proof (len_print_u8 c). pose proof (len_print_u8 d). lia.
Qed.

(** The words of a run, in a list whose spine is known. *)
Ltac zero_words Hz :=
  let z k := try (let E := fresh in pose proof (Hz k ltac:(lia)) as E; vm_compute in E; injection E as ->) in
  z 0; z 1; z 2; z 3; z 4; z 5; z 6; z 7; clear Hz.

Definition ntop6_reads (ws : list Z) (r : run) (t4 : list Z) : Prop :=
  let text := format_words ws 0 r (nth 5 ws 0) (nth 7 ws 0) t4 ++
    (if negb (base r =? -1) && (base r + len r =? 8) then [ch_colon] else []) in
  inet_pton6 text = Ret (Some (bytes_of ws)) /\ (length text <= 45)%nat.

Ltac runs := format; split; [parse; done|bound_text].

Lemma ntop6_run_later w0 w1 w2 w3 w4 w5 w6 w7 b l t4 :
  let ws := [w0; w1; w2; w3; w4; w5; w6; w7] in
  Forall is_u16 ws -> 1 <= b -> 2 <= l -> b + l <= 8 ->
  (forall i, b <= i < b + l -> ws !! Z.to_nat i = Some 0) ->
  ntop6_reads ws (mkRun b l) t4.
Proof.
  intros ws Hf Hb Hl Hbl Hz. subst ws. rewrite !list.Forall_cons in Hf. destruct Hf as (H0 & H1 & H2 & H3 & H4 & H5 & H6 & H7 & _).
  assert (b = 1 \/ b = 2 \/ b = 3 \/ b = 4 \/ b = 5 \/ b = 6) as Eb by lia.
  assert (l = 2 \/ l = 3 \/ l = 4 \/ l = 5 \/ l = 6 \/ l = 7) as El by lia.
  destruct_or! Eb; destruct_or! El; subst; try lia; clear Hb Hl Hbl; zero_words Hz;
    unfold ntop6_reads; cbn [nth]; runs.
Qed.

Lemma ntop6_run_first w0 w1 w2 w3 w4 w5 w6 w7 l :
  let ws := [w0; w1; w2; w3; w4; w5; w6; w7] in
  Forall is_u16 ws -> 2 <= l <= 8 ->
  (forall i, 0 <= i < l -> ws !! Z.to_nat i = Some 0) ->
  ntop6_reads ws (mkRun 0 l) (dotted [w6 / 256; w6 mod 256; w7 / 256; w7 mod 256]).
Proof.
  intros ws Hf Hl Hz. subst ws. rewrite !list.Forall_cons in Hf. destruct Hf as (H0 & H1 & H2 & H3 & H4 & H5 & H6 & H7 & _).
  assert (H4b : Forall is_u8 [w6 / 256; w6 mod 256; w7 / 256; w7 mod 256]).
  { unfold is_u16 in *. rewrite !list.Forall_cons. unfold is_u8. split_and!; try lia. constructor. }
  pose proof (dotted_len (w6 / 256) (w6 mod 256) (w7 / 256) (w7 mod 256)) as Hdl.
  assert (l = 2 \/ l = 3 \/ l = 4 \/ l = 7 \/ l = 8 \/ l = 5 \/ l = 6) as El by lia.
  destruct_or! El; subst; clear Hl; zero_words Hz; unfold ntop6_reads; cbn [nth]; try (runs; fail).
  - format. destruct (Z.eqb_spec w5 65535) as [->|Hw].
    + split; [|bound_text]. cbn [app]. rewrite inet_pton6_run, parse_word by (side || (destruct (dotted _); [cbn in Hdl; lia|done])).
      destruct (parse_dotted ([] ++ bytes_of [65535]) (Some 0%nat) _ _ _ _ ltac:(cbn; lia) H4b) as [v ->]. done.
    + split; [parse; done|bound_text].
  - format. split; [|bound_text]. rewrite inet_pton6_run.
    destruct (parse_dotted [] (Some 0%nat) _ _ _ _ ltac:(cbn; lia) H4b) as [v ->]. done.
Qed.

Lemma ntop6_text_reads ws :
  length ws = 8%nat -> Forall is_u16 ws ->
  inet_pton6 (ntop6_text (bytes_of ws)) = Ret (Some (bytes_of ws)) /\ (length (ntop6_text (bytes_of ws)) <= 45)%nat.
Proof.
  intros Hl Hw. pose proof (best_run_ok ws) as Hr. unfold ntop6_text. rewrite words_of_bytes by done.
  destruct ws as [|w0 [|w1 [|w2 [|w3 [|w4 [|w5 [|w6 [|w7 [|]]]]]]]]]; try done.
  change (drop 12 (bytes_of _)) with [w6 / 256; w6 mod 256; w7 / 256; w7 mod 256].
  pose proof (dotted_len (w6 / 256) (w6 mod 256) (w7 / 256) (w7 mod 256)).
  rewrite ntop4_text, (proj2 (Z.leb_gt 16 _)) by (done || lia).
  destruct (best_run _) as [b l]. cbn [base len length] in Hr. destruct Hr as [->|(H1 & H2 & H3 & H4)].
  - by apply ntop6_no_run.
  - destruct (decide (b = 0)) as [->|].
    + apply ntop6_run_first; try done; lia.
    + apply ntop6_run_later; try done; lia.
Qed.

(** *** The text that is printed *)

Ltac same_text := format; cbv [colons take drop]; repeat (rewrite <- app_assoc; cbn [app]); rewrite ?app_nil_r; reflexivity.

Lemma format_no_run w0 w1 w2 w3 w4 w5 w6 w7 l a b t4 :
  format_words [w0; w1; w2; w3; w4; w5; w6; w7] 0 (mkRun (-1) l) a b t4 ++ [] = colons [w0; w1; w2; w3; w4; w5; w6; w7].
Proof. same_text. Qed.

(** The text with a run, and what is printed behind it. *)
Definition run_text (ws : list Z) (b l : Z) (t4 : list Z) : list Z :=
  format_words ws 0 (mkRun b l) (nth 5 ws 0) (nth 7 ws 0) t4 ++ (if negb (b =? -1) && (b + l =? 8) then [ch_colon] else []).

Lemma format_run_later w0 w1 w2 w3 w4 w5 w6 w7 b l t4 : 1 <= b -> 2 <= l -> b + l <= 8 ->
  let ws := [w0; w1; w2; w3; w4; w5; w6; w7] in
  run_text ws b l t4 = colons (take (Z.to_nat b) ws) ++ [ch_colon; ch_colon] ++ colons (drop (Z.to_nat (b + l)) ws).
Proof.
  intros Hb Hl Hbl ws. subst ws. unfold run_text. cbn [nth].
  assert (b = 1 \/ b = 2 \/ b = 3 \/ b = 4 \/ b = 5 \/ b = 6) as Eb by lia.
  assert (l = 2 \/ l = 3 \/ l = 4 \/ l = 5 \/ l = 6 \/ l = 7) as El by lia.
  destruct_or! Eb; destruct_or! El; subst; try lia; clear Hb Hl Hbl; vm_compute Z.to_nat; same_text.
Qed.

Lemma format_run_first w0 w1 w2 w3 w4 w5 w6 w7 l t4 : 2 <= l <= 8 ->
  let ws := [w0; w1; w2; w3; w4; w5; w6; w7] in
  (embeds ws 0 l -> run_text ws 0 l t4 = [ch_colon; ch_colon] ++ (if l =? 5 then print_x16 0xffff ++ [ch_colon] else []) ++ t4) /\
  (~ embeds ws 0 l -> run_text ws 0 l t4 = [ch_colon; ch_colon] ++ colons (drop (Z.to_nat l) ws)).
Proof.
  intros Hl ws. subst ws. unfold run_text, embeds. cbn [nth lookup list_lookup].
  assert (l = 2 \/ l = 3 \/ l = 4 \/ l = 7 \/ l = 8 \/ l = 6 \/ l = 5) as El by lia.
  destruct_or! El; subst; clear Hl; vm_compute Z.to_nat; try (split; [intros [_ [?|[? _]]]; discriminate|intros _; same_text]).
  - split; [intros _; same_text|intros []; auto].
  - destruct (Z.eqb_spec w5 65535) as [->|Hw]; (split; [intros H|intros H]).
    + same_text.
    + destruct H. auto.
    + destruct H as [_ [?|[_ [= ?]]]]; [discriminate|done].
    + rewrite <- Z.eqb_neq in Hw. format. rewrite Hw. same_text.
Qed.

Lemma ntop6_text_is ws : length ws = 8%nat -> Forall is_u16 ws -> text6 ws (ntop6_text (bytes_of ws)).
Proof.
  intros Hl Hw. pose proof (best_run_longest ws) as Hr. unfold ntop6_text. rewrite words_of_bytes by done. cbv zeta.
  destruct ws as [|w0 [|w1 [|w2 [|w3 [|w4 [|w5 [|w6 [|w7 [|]]]]]]]]]; try done.
  unfold text6. change (drop 12 (bytes_of _)) with [w6 / 256; w6 mod 256; w7 / 256; w7 mod 256].
  pose proof (dotted_len (w6 / 256) (w6 mod 256) (w7 / 256) (w7 mod 256)).
  rewrite ntop4_text, (proj2 (Z.leb_gt 16 _)) by (done || lia).
  destruct (best_run _) as [b l]. cbn [base len] in *. destruct Hr as [[-> Hn]|Hr].
  { right. split; [done|]. apply format_no_run. }
  left. exists b, l. split; [done|]. destruct Hr as (Hl2 & (H1 & _ & H3 & _) & _). cbn [length] in H3.
  change (Z.of_nat 8) with 8 in H3. destruct (decide (b = 0)) as [->|Hb].
  - destruct (format_run_first w0 w1 w2 w3 w4 w5 w6 w7 l (dotted [w6 / 256; w6 mod 256; w7 / 256; w7 mod 256])) as [F1 F2]; [lia|].
    split; [exact F1|exact F2].
  - split; [by intros [? _]|]. intros _. apply format_run_later; lia.
Qed.

(** C37. An IPv6 address is printed in its shortest form and read back: for every address of
    sixteen bytes, [inet_ntop6] writes the text that leaves out the longest run of two or more zero
    words, the first of them if there are several, between two colons, and ends in an IPv4 address
    just when that run is the first six words, or the first five with ffff behind them; the text
    has at most 45 characters, which is what its array holds, [inet_pton6] parses it to the same
    sixteen bytes, and a destination too small for it and its terminating zero is refused. *)
Theorem inet6_roundtrip src size :
  length src = 16%nat -> Forall is_u8 src ->
  exists text, text6 (words_of src) text /\ (length text <= 45)%nat /\
    inet_ntop6 src size = (if size <=? Z.of_nat (length text) then inl UV_ENOSPC else inr text) /\
    inet_pton6 text = Ret (Some src).
Proof.
  intros Hl Hf. destruct (bytes_of_words src) as (Hb & Hw & Hn); [by rewrite Hl|done|].
  destruct (ntop6_text_reads (words_of src)) as [H1 H2]; [lia|done|]. rewrite Hb in H1, H2.
  pose proof (ntop6_text_is (words_of src) ltac:(lia) Hw) as Ht. rewrite Hb in Ht.
  exists (ntop6_text src). split_and!; try done. unfold inet_ntop6.
  destruct (Z.ltb_spec size (Z.of_nat (length (ntop6_text src)) + 1)), (Z.leb_spec size (Z.of_nat (length (ntop6_text src)))); done || lia.
Qed.

(** 1:0:0:2:0:0:0:3, with room for ten characters: the second run of zeros is left out. *)
Definition two_runs : list Z := [0; 1; 0; 0; 0; 0; 0; 2; 0; 0; 0; 0; 0; 0; 0; 3].

Lemma inet6_roundtrip_witness : exists text, inet_ntop6 two_runs 11 = inr text /\ inet_pton6 text = Ret (Some two_runs) /\
  text = bytes_of_string "1:0:0:2::3" /\ text6 (words_of two_runs) text.
Proof.
  destruct (inet6_roundtrip two_runs 11 eq_refl) as (text & H0 & _ & H1 & H2).
  - repeat constructor; lia.
  - exists text. assert (E : inet_ntop6 two_runs 11 = inr (bytes_of_string "1:0:0:2::3")) by reflexivity.
    rewrite E in H1. destruct (_ <=? _); [discriminate|]. injection H1 as <-. by split_and!.
Defined.

(** *** Any string *)

Definition p6_ok (s : pton6) : Prop :=
  length (p_tmp s) = 16%nat /\ (p_tp s <= 16)%nat /\ match p_colon s with Some c => (c <= p_tp s)%nat | None => True end.

Lemma put_word_total tmp tp v : (tp + 2 <= length tmp)%nat -> exists tmp', put_word tmp tp v = Ret tmp' /\ length tmp' = length tmp.
Proof.
  intros H. unfold put_word. rewrite arr_put_ok by lia. cbn [mbind outcome_bind]. rewrite arr_put_ok by (rewrite length_insert; lia).
  eexists. split; [done|]. by rewrite !length_insert.
Qed.

Lemma pton6_loop_total src cur s : p6_ok s ->
  exists r, pton6_loop src cur s = Ret r /\ match r with Some s' => p6_ok s' | None => True end.
Proof.
  revert cur s. induction src as [|ch src IH]; intros cur s Hs; cbn [pton6_loop]; [eauto|].
  destruct s as [tmp tp col seen v]. destruct Hs as (H1 & H2 & H3). cbn [p_tmp p_tp p_colon p_seen p_val] in *.
  destruct (xdigit_pos ch) as [d|].
  { destruct (4 <? seen + 1); [by exists None|]. by apply IH. }
  destruct (ch =? ch_colon).
  - destruct (seen =? 0).
    + destruct col; [by exists None|]. apply IH. split_and!; cbn; done || lia.
    + destruct src as [|c src]; [by exists None|]. destruct (Nat.ltb_spec 16 (tp + 2)); [by exists None|].
      destruct (put_word_total tmp tp v) as (tmp' & -> & Hl); [lia|]. cbn [mbind outcome_bind].
      apply IH. split_and!; cbn; [lia..|]. destruct col; lia || done.
  - destruct ((ch =? ch_dot) && _) eqn:E; [|by exists None]. apply andb_true_iff in E as [_ E]. apply Nat.leb_le in E.
    destruct (pton4_exact (take 4 (drop tp tmp)) cur) as (r & -> & Hx); [rewrite length_take, length_drop; lia|].
    cbn [mbind outcome_bind]. destruct r as [b|]; [|by exists None]. destruct (proj1 (Hx b) eq_refl) as (Hb & _ & _).
    eexists. split; [done|]. split_and!; cbn; [|lia|destruct col; lia || done].
    rewrite !length_app, length_take, length_drop. lia.
Qed.

Lemma shift_loop_total n i colonp tmp :
  length tmp = 16%nat -> (colonp + n <= 16)%nat -> (1 <= i)%nat -> exists tmp', shift_loop n i colonp tmp = Ret tmp' /\ length tmp' = 16%nat.
Proof.
  revert i tmp. induction n as [|n IH]; intros i tmp Hl Hn Hi; cbn [shift_loop]; [eauto|].
  destruct (lookup_lt_is_Some_2 tmp (colonp + n)) as [v Hv]; [lia|]. rewrite (arr_get_ok _ _ _ Hv). cbn [mbind outcome_bind].
  rewrite arr_put_ok by lia. cbn [mbind outcome_bind]. rewrite arr_put_ok by (rewrite length_insert; lia). cbn [mbind outcome_bind].
  apply IH; rewrite ?length_insert; lia.
Qed.

(** Whatever the string, [inet_pton6] stays within its array and returns. *)
Lemma inet_pton6_total src : exists r, inet_pton6 src = Ret r /\ match r with Some b => length b = 16%nat | None => True end.
Proof.
  assert (Hstart : forall src, exists r, parse_from src src (p6 [] None 0 0) = Ret r /\ match r with Some b => length b = 16%nat | None => True end).
  { clear src. intros src. unfold parse_from.
    destruct (pton6_loop_total src src (p6 [] None 0 0)) as (r & -> & Hr); [split_and!; cbn; done || lia|]. cbn [mbind outcome_bind].
    destruct r as [[tmp tp col seen v]|]; [|by exists None]. destruct Hr as (H1 & H2 & H3). cbn [p_tmp p_tp p_colon] in *. unfold pton6_finish. cbn [p_tmp p_tp p_colon p_seen p_val].
    assert (Hend : forall tmp tp, length tmp = 16%nat -> (tp <= 16)%nat -> match col with Some c => (c <= tp)%nat | None => True end ->
      exists r, match col with
        | None => if Nat.eqb tp 16 then Ret (Some tmp) else Ret None
        | Some colonp => if Nat.eqb tp 16 then Ret None else tmp ← shift_loop (tp - colonp) 1 colonp tmp; Ret (Some tmp)
        end = Ret r /\ match r with Some b => length b = 16%nat | None => True end).
    { clear. intros tmp tp H1 H2 H3. destruct col as [c|]; [|case_match; [by eexists|by exists None]]. case_match; [by exists None|].
      destruct (shift_loop_total (tp - c) 1 c tmp) as (tmp' & -> & Hl); [lia..|]. cbn [mbind outcome_bind]. by eexists. }
    destruct (seen =? 0); [by apply Hend|]. destruct (Nat.ltb_spec 16 (tp + 2)); [by exists None|].
    destruct (put_word_total tmp tp v) as (tmp' & -> & Hl); [lia|]. cbn [mbind outcome_bind]. apply Hend; [lia..|]. destruct col; lia || done. }
  unfold inet_pton6. destruct src as [|c src]; [apply (Hstart [])|]. case_match; [|apply (Hstart (c :: src))].
  destruct src as [|c' src]; [by exists None|]. case_match; [apply (Hstart (c' :: src))|by exists None].
Qed.

(** [uv_inet_pton] returns for every family and string, without undefined behaviour. *)
Theorem inet_pton_total af junk src :
  length junk = 4%nat ->
  exists r, uv_inet_pton af junk src = Ret r /\
    match r with inr b => length b = if af =? AF_INET then 4%nat else 16%nat | inl e => e = UV_EINVAL \/ e = UV_EAFNOSUPPORT end.
Proof.
  intros Hl. unfold uv_inet_pton. destruct (af =? AF_INET).
  { destruct (pton4_exact junk src Hl) as (r & -> & Hx). cbn. destruct r as [b|]; eexists; (split; [done|]); [by destruct (proj1 (Hx b) eq_refl)|by left]. }
  destruct (af =? AF_INET6); [|by exists (inl UV_EAFNOSUPPORT); split; [|right]].
  assert (H6 : forall s, exists r, of_pton (inet_pton6 s) = Ret r /\ match r with inr b => length b = 16%nat | inl e => e = UV_EINVAL \/ e = UV_EAFNOSUPPORT end).
  { intros s. destruct (inet_pton6_total s) as ([b|] & -> & Hb); cbn; eexists; (split; [done|]); [done|by left]. }
  destruct (before_percent src); [|done]. case_match; [by exists (inl UV_EINVAL); split; [|left]|done].
Qed.
