(* ===== verification/Queue.v ===== *)
(** The intrusive circular queue of deps/libuv/src/queue.h.

    A queue is a header node in a ring of nodes linked both ways; headers and elements are
    the same structure. Part 1 translates the functions on a store of nodes, Part 2 proves
    that on rings they are the list operations that their names say. The ready queue of the
    timers and the list of async handles are such rings. *)

From S2P Require Import Prelude.

(** ** Part 1: the code *)

Record uv__queue := mkQ { q_next : nat; q_prev : nat }.

Abbreviation qstore := (gmap nat uv__queue).

Definition q_load (m : qstore) (p : nat) : outcome uv__queue :=
  match m !! p with Some n => Ret n | None => UB end.
(** [p->next = v] and [p->prev = v]. *)
Definition set_next (p v : nat) (m : qstore) : outcome qstore :=
  n ← q_load m p; Ret (<[p := mkQ v (q_prev n)]> m).
Definition set_prev (p v : nat) (m : qstore) : outcome qstore :=
  n ← q_load m p; Ret (<[p := mkQ (q_next n) v]> m).
(** [p->next] and [p->prev]. *)
Definition get_next (m : qstore) (p : nat) : outcome nat := n ← q_load m p; Ret (q_next n).
Definition get_prev (m : qstore) (p : nat) : outcome nat := n ← q_load m p; Ret (q_prev n).

Definition uv__queue_init (q : nat) (m : qstore) : outcome qstore :=
  m ← set_next q q m; set_prev q q m.

Definition uv__queue_empty (q : nat) (m : qstore) : outcome bool :=
  n ← get_next m q; Ret (Nat.eqb q n).

Definition uv__queue_head (q : nat) (m : qstore) : outcome nat := get_next m q.

Definition uv__queue_next (q : nat) (m : qstore) : outcome nat := get_next m q.

Definition uv__queue_add (h n : nat) (m : qstore) : outcome qstore :=
  hp ← get_prev m h; nn ← get_next m n; m ← set_next hp nn m;
  nn ← get_next m n; hp ← get_prev m h; m ← set_prev nn hp m;
  np ← get_prev m n; m ← set_prev h np m;
  hp ← get_prev m h; set_next hp h m.

Definition uv__queue_split (h q n : nat) (m : qstore) : outcome qstore :=
  hp ← get_prev m h; m ← set_prev n hp m;
  np ← get_prev m n; m ← set_next np n m;
  m ← set_next n q m;
  qp ← get_prev m q; m ← set_prev h qp m;
  hp ← get_prev m h; m ← set_next hp h m;
  set_prev q n m.

Definition uv__queue_move (h n : nat) (m : qstore) : outcome qstore :=
  e ← uv__queue_empty h m;
  if e : bool then uv__queue_init n m
  else q ← get_next m h; uv__queue_split h q n m.

Definition uv__queue_insert_head (h q : nat) (m : qstore) : outcome qstore :=
  hn ← get_next m h; m ← set_next q hn m;
  m ← set_prev q h m;
  qn ← get_next m q; m ← set_prev qn q m;
  set_next h q m.

Definition uv__queue_insert_tail (h q : nat) (m : qstore) : outcome qstore :=
  m ← set_next q h m;
  hp ← get_prev m h; m ← set_prev q hp m;
  qp ← get_prev m q; m ← set_next qp q m;
  set_prev h q m.

Definition uv__queue_remove (q : nat) (m : qstore) : outcome qstore :=
  qp ← get_prev m q; qn ← get_next m q; m ← set_next qp qn m;
  qn ← get_next m q; qp ← get_prev m q; set_prev qn qp m.

(** ** Part 2: rings *)

Definition nxt (m : qstore) (p : nat) : option nat := q_next <$> m !! p.
Definition prv (m : qstore) (p : nat) : option nat := q_prev <$> m !! p.

(** Neighbours in the list are linked both ways. *)
Fixpoint chain (m : qstore) (xs : list nat) : Prop :=
  match xs with
  | x :: ((y :: _) as xs') => nxt m x = Some y /\ prv m y = Some x /\ chain m xs'
  | _ => True
  end.

(** The queue with header [h] holds the list [l]. *)
Definition ring (m : qstore) (h : nat) (l : list nat) : Prop :=
  NoDup (h :: l) /\ chain m (h :: l ++ [h]).

Definition upd_next (p v : nat) (m : qstore) : qstore := alter (fun n => mkQ v (q_prev n)) p m.
Definition upd_prev (p v : nat) (m : qstore) : qstore := alter (fun n => mkQ (q_next n) v) p m.

Lemma set_next_upd p v m : is_Some (m !! p) -> set_next p v m = Ret (upd_next p v m).
Proof.
  intros [n Hn]. unfold set_next, q_load, upd_next. rewrite Hn. cbn [mbind outcome_bind]. f_equal.
  apply map_eq. intros x. destruct (decide (x = p)) as [->|].
  - by rewrite lookup_insert_eq, lookup_alter_eq, Hn.
  - by rewrite lookup_insert_ne, lookup_alter_ne.
Qed.

Lemma set_prev_upd p v m : is_Some (m !! p) -> set_prev p v m = Ret (upd_prev p v m).
Proof.
  intros [n Hn]. unfold set_prev, q_load, upd_prev. rewrite Hn. cbn [mbind outcome_bind]. f_equal.
  apply map_eq. intros x. destruct (decide (x = p)) as [->|].
  - by rewrite lookup_insert_eq, lookup_alter_eq, Hn.
  - by rewrite lookup_insert_ne, lookup_alter_ne.
Qed.

Lemma get_next_nxt m p v : nxt m p = Some v -> get_next m p = Ret v.
Proof. unfold nxt, get_next, q_load. destruct (m !! p); cbn; intros; by simplify_eq. Qed.

Lemma get_prev_prv m p v : prv m p = Some v -> get_prev m p = Ret v.
Proof. unfold prv, get_prev, q_load. destruct (m !! p); cbn; intros; by simplify_eq. Qed.

Lemma is_Some_upd_next p v m x : is_Some (upd_next p v m !! x) <-> is_Some (m !! x).
Proof.
  unfold upd_next. destruct (decide (x = p)) as [->|]; [|by rewrite lookup_alter_ne].
  by rewrite lookup_alter_eq, fmap_is_Some.
Qed.

Lemma is_Some_upd_prev p v m x : is_Some (upd_prev p v m !! x) <-> is_Some (m !! x).
Proof.
  unfold upd_prev. destruct (decide (x = p)) as [->|]; [|by rewrite lookup_alter_ne].
  by rewrite lookup_alter_eq, fmap_is_Some.
Qed.

Lemma nxt_some m p v : nxt m p = Some v -> is_Some (m !! p).
Proof. unfold nxt. intros (n & H & _)%fmap_Some. eauto. Qed.

Lemma nxt_upd_next_eq p v m : is_Some (m !! p) -> nxt (upd_next p v m) p = Some v.
Proof. intros [n Hn]. unfold nxt, upd_next. by rewrite lookup_alter_eq, Hn. Qed.
Lemma nxt_upd_next_ne p v m x : x <> p -> nxt (upd_next p v m) x = nxt m x.
Proof. intros. unfold nxt, upd_next. by rewrite lookup_alter_ne. Qed.
Lemma prv_upd_next p v m x : prv (upd_next p v m) x = prv m x.
Proof.
  unfold prv, upd_next. destruct (decide (x = p)) as [->|]; [|by rewrite lookup_alter_ne].
  rewrite lookup_alter_eq. by destruct (m !! p).
Qed.
Lemma prv_upd_prev_eq p v m : is_Some (m !! p) -> prv (upd_prev p v m) p = Some v.
Proof. intros [n Hn]. unfold prv, upd_prev. by rewrite lookup_alter_eq, Hn. Qed.
Lemma prv_upd_prev_ne p v m x : x <> p -> prv (upd_prev p v m) x = prv m x.
Proof. intros. unfold prv, upd_prev. by rewrite lookup_alter_ne. Qed.
Lemma nxt_upd_prev p v m x : nxt (upd_prev p v m) x = nxt m x.
Proof.
  unfold nxt, upd_prev. destruct (decide (x = p)) as [->|]; [|by rewrite lookup_alter_ne].
  rewrite lookup_alter_eq. by destruct (m !! p).
Qed.
Lemma upd_off p v m x : x <> p -> upd_next p v m !! x = m !! x /\ upd_prev p v m !! x = m !! x.
Proof. intros. unfold upd_next, upd_prev. by rewrite !lookup_alter_ne. Qed.

(** Reads and writes of the translated functions, given what the links are. *)
Ltac link_simp :=
  repeat first
    [ rewrite prv_upd_next | rewrite nxt_upd_prev
    | rewrite nxt_upd_next_eq by (repeat (rewrite is_Some_upd_next || rewrite is_Some_upd_prev); done)
    | rewrite prv_upd_prev_eq by (repeat (rewrite is_Some_upd_next || rewrite is_Some_upd_prev); done)
    | rewrite nxt_upd_next_ne by congruence
    | rewrite prv_upd_prev_ne by congruence ].
Ltac q_step :=
  first
    [ rewrite set_next_upd by (repeat (rewrite is_Some_upd_next || rewrite is_Some_upd_prev); done)
    | rewrite set_prev_upd by (repeat (rewrite is_Some_upd_next || rewrite is_Some_upd_prev); done)
    | erewrite get_next_nxt by (link_simp; first [eassumption|reflexivity])
    | erewrite get_prev_prv by (link_simp; first [eassumption|reflexivity]) ];
  cbn [mbind outcome_bind].

Lemma chain_app m xs y ys : chain m (xs ++ y :: ys) <-> chain m (xs ++ [y]) /\ chain m (y :: ys).
Proof.
  induction xs as [|x xs IH]; [cbn; tauto|]. destruct xs as [|x' xs]; cbn in *; tauto.
Qed.

Lemma chain_frame m m' xs :
  (forall x, x ∈ removelast xs -> nxt m' x = nxt m x) -> (forall x, x ∈ tail xs -> prv m' x = prv m x) ->
  chain m xs -> chain m' xs.
Proof.
  induction xs as [|x xs IH]; [done|]. destruct xs as [|y xs]; [done|]. intros Hn Hp (H1 & H2 & H3).
  split_and!.
  - rewrite Hn; [done|]. by left.
  - rewrite Hp; [done|]. by left.
  - apply IH; [|intros z Hz; apply Hp; by right|done]. intros z Hz. apply Hn. by right.
Qed.

Lemma chain_some m xs x : chain m (xs ++ [x]) -> forall y, y ∈ xs -> is_Some (m !! y).
Proof.
  induction xs as [|z xs IH]; [by intros _ y ?%not_elem_of_nil|]. intros H y Hy.
  assert (is_Some (m !! z) /\ chain m (xs ++ [x])) as [Hz Hc].
  { destruct xs; cbn in H; destruct H as (H1 & _ & H3); eauto using nxt_some. }
  apply elem_of_cons in Hy as [->|Hy]; eauto.
Qed.

(** The stores agree outside a list of nodes. *)
Definition same_off (S : list nat) (m m' : qstore) : Prop := forall x, x ∉ S -> m' !! x = m !! x.

Lemma ring_off S m m' h l : same_off S m m' -> (forall x, x ∈ h :: l -> x ∉ S) -> ring m h l -> ring m' h l.
Proof.
  intros Ho Hd [Hnd Hc]. split; [done|]. 
  assert (Hx : forall x, x ∈ h :: l ++ [h] -> m' !! x = m !! x).
  { intros x Hx. apply Ho, Hd. set_solver. }
  eapply chain_frame; [| |done]; intros x Hin; unfold nxt, prv; rewrite Hx; try done.
  - rewrite app_comm_cons, removelast_last in Hin. set_solver.
  - by right.
Qed.

(** The last node of a ring, the header if it is empty. *)
Lemma ring_last m h l : ring m h l ->
  exists l0 p, h :: l = l0 ++ [p] /\ chain m (l0 ++ [p]) /\ nxt m p = Some h /\ prv m h = Some p /\ p ∉ l0.
Proof.
  intros [Hnd Hc]. destruct (exists_last (l := h :: l)) as (l0 & p & E); [done|].
  exists l0, p. rewrite app_comm_cons, E, <- app_assoc in Hc. cbn in Hc. apply chain_app in Hc as [H1 H2].
  destruct H2 as (? & ? & _). rewrite E in Hnd. apply list.NoDup_app in Hnd as (_ & Hd & _). split_and!; try done.
  intros Hp. apply (Hd p Hp). by left.
Qed.

Lemma ring_some m h l x : ring m h l -> x ∈ h :: l -> is_Some (m !! x).
Proof. intros [_ Hc]. rewrite app_comm_cons in Hc. by apply (chain_some _ _ _ Hc). Qed.

(** What a store update leaves outside its nodes. *)
Ltac off_solve := intros ? ?; unfold upd_next, upd_prev; rewrite !lookup_alter_ne by set_solver; done.

Lemma init_spec q m : is_Some (m !! q) ->
  exists m', uv__queue_init q m = Ret m' /\ ring m' q [] /\ same_off [q] m m'.
Proof.
  intros Hq. unfold uv__queue_init. q_step. q_step. eexists. split; [done|]. split; [|off_solve].
  split; [apply list.NoDup_singleton|]. cbn. split; [|split; [|done]]; by link_simp.
Qed.

Lemma empty_spec m h l : ring m h l -> uv__queue_empty h m = Ret (bool_decide (l = [])).
Proof.
  intros [Hnd Hc]. unfold uv__queue_empty. destruct l as [|x l]; cbn in Hc; destruct Hc as (H1 & _).
  - by rewrite (get_next_nxt _ _ _ H1); cbn; rewrite Nat.eqb_refl.
  - rewrite (get_next_nxt _ _ _ H1). cbn. apply list.NoDup_cons in Hnd as [Hh _].
    rewrite (proj2 (Nat.eqb_neq h x)); [done|]. intros ->. apply Hh. by left.
Qed.

Lemma head_spec m h x l : ring m h (x :: l) -> uv__queue_head h m = Ret x.
Proof. intros [_ Hc]. cbn in Hc. destruct Hc as (H1 & _). by apply get_next_nxt. Qed.

Lemma insert_tail_spec m h l q :
  ring m h l -> q ∉ h :: l -> is_Some (m !! q) ->
  exists m', uv__queue_insert_tail h q m = Ret m' /\ ring m' h (l ++ [q]) /\ same_off (q :: h :: l) m m'.
Proof.
  intros R Hq Hsq. pose proof (fun x => ring_some m h l x R) as Hs. pose proof R as [Hnd _].
  destruct (ring_last _ _ _ R) as (l0 & p & E & Hc & Hn & Hp & Hpl0).
  assert (Hpin : p ∈ h :: l) by (rewrite E; set_solver).
  assert (Hsp : is_Some (m !! p)) by auto. assert (Hsh : is_Some (m !! h)) by (apply Hs; by left).
  assert (q <> h) by set_solver. assert (q <> p) by (by intros ->).
  unfold uv__queue_insert_tail. do 6 q_step. eexists. split; [reflexivity|]. split; [|off_solve].
  split; [apply list.NoDup_cons in Hnd as [? ?]; apply list.NoDup_cons; split; [set_solver|]; apply list.NoDup_app; split_and!; [done|set_solver|apply list.NoDup_singleton]|].
  rewrite app_comm_cons, app_comm_cons, E, <- !app_assoc. cbn. apply chain_app. split.
  - eapply chain_frame; [| |exact Hc]; intros x Hx.
    + rewrite removelast_last in Hx. assert (x <> p) by (by intros ->). assert (x <> q) by (intros ->; rewrite E in Hq; set_solver).
      by link_simp.
    + assert (x ∈ l) by (rewrite <- E in Hx; done). apply list.NoDup_cons in Hnd as [? ?].
      assert (x <> h) by (by intros ->). assert (x <> q) by set_solver. by link_simp.
  - cbn. split_and!; by link_simp.
Qed.

(** The first node of a ring, the header if it is empty. *)
Lemma ring_first m h l : ring m h l ->
  exists x ys, l ++ [h] = x :: ys /\ chain m (x :: ys) /\ nxt m h = Some x /\ prv m x = Some h /\ (x ∉ ys) /\ x ∈ h :: l.
Proof.
  intros [Hnd Hc]. destruct (l ++ [h]) as [|x ys] eqn:E; [by destruct l|]. cbn in Hc.
  assert (Hnd' : NoDup (x :: ys)) by (rewrite <- E; rewrite Permutation_app_comm; done).
  apply list.NoDup_cons in Hnd' as [Hx _]. assert (x ∈ l ++ [h]) by (rewrite E; by left).
  exists x, ys. destruct Hc as (? & ? & ?). split_and!; try done. set_solver.
Qed.

(** Chains keep their links when only the last next and the first prev change. *)
Lemma chain_keep m m' xs x :
  chain m (xs ++ [x]) -> (forall y, y ∈ xs -> nxt m' y = nxt m y) ->
  (forall y, y ∈ tail (xs ++ [x]) -> prv m' y = prv m y) -> chain m' (xs ++ [x]).
Proof. intros Hc Hn Hp. eapply chain_frame; [|exact Hp|exact Hc]. intros y. rewrite removelast_last. apply Hn. Qed.

Lemma insert_head_spec m h l q :
  ring m h l -> q ∉ h :: l -> is_Some (m !! q) ->
  exists m', uv__queue_insert_head h q m = Ret m' /\ ring m' h (q :: l) /\ same_off (q :: h :: l) m m'.
Proof.
  intros R Hq Hsq. pose proof (fun x => ring_some m h l x R) as Hs. pose proof R as [Hnd _].
  destruct (ring_first _ _ _ R) as (x & ys & E & Hc & Hn & Hp & Hxys & Hxin).
  assert (Hsx : is_Some (m !! x)) by auto. assert (Hsh : is_Some (m !! h)) by (apply Hs; by left).
  assert (q <> h) by set_solver. assert (q <> x) by (by intros ->).
  unfold uv__queue_insert_head. do 6 q_step. eexists. split; [reflexivity|]. split; [|off_solve].
  apply list.NoDup_cons in Hnd as [Hhl Hnd].
  split; [apply list.NoDup_cons; split; [set_solver|]; apply list.NoDup_cons; split; [set_solver|done]|].
  assert (Hc' : chain m (l ++ [h])) by (by rewrite E).
  change (chain ?m' _) with (chain m' ([h; q] ++ (l ++ [h]))). rewrite E. apply (chain_app _ [h; q]). split.
  - cbn. split_and!; by link_simp.
  - rewrite <- E. eapply chain_keep; [done|..]; intros y Hy.
    + assert (y <> h) by (by intros ->). assert (y <> q) by set_solver. by link_simp.
    + rewrite E in Hy. cbn in Hy. assert (y <> x) by (by intros ->).
      assert (y ∈ l ++ [h]) by (rewrite E; by right). assert (y <> q) by set_solver. by link_simp.
Qed.

Lemma remove_spec m h l1 x l2 :
  ring m h (l1 ++ x :: l2) ->
  exists m', uv__queue_remove x m = Ret m' /\ ring m' h (l1 ++ l2) /\ same_off (h :: l1 ++ l2) m m'.
Proof.
  intros R. pose proof (fun y => ring_some m h _ y R) as Hs. pose proof R as [Hnd Hc].
  destruct (exists_last (l := h :: l1)) as (l0 & a & Ea); [done|].
  destruct (l2 ++ [h]) as [|b ys] eqn:Eb; [by destruct l2|].
  assert (Exs : h :: (l1 ++ x :: l2) ++ [h] = l0 ++ a :: x :: b :: ys).
  { rewrite <- app_assoc. cbn. rewrite Eb, app_comm_cons, Ea, <- app_assoc. done. }
  rewrite Exs in Hc. apply chain_app in Hc as [Hc1 Hc2]. cbn in Hc2.
  destruct Hc2 as (Hax & Hxa & Hxb & Hbx & Hc2). change (chain m (b :: ys)) in Hc2.
  assert (Hain : a ∈ h :: l1) by (rewrite Ea; set_solver).
  assert (Hbin : b ∈ l2 ++ [h]) by (rewrite Eb; by left).
  assert (Hsa : is_Some (m !! a)) by (apply Hs; set_solver). assert (Hsb : is_Some (m !! b)) by (apply Hs; set_solver).
  assert (Hsx : is_Some (m !! x)) by (apply Hs; set_solver).
  assert (Hperm : h :: l1 ++ x :: l2 ≡ₚ x :: h :: l1 ++ l2) by solve_Permutation.
  pose proof Hnd as Hnd1. rewrite Hperm in Hnd1.
  apply list.NoDup_cons in Hnd1 as [Hx Hnd1].
  assert (x <> a) by set_solver. assert (x <> b) by set_solver.
  unfold uv__queue_remove. do 6 q_step. eexists. split; [reflexivity|]. split; [|off_solve].
  split; [done|]. replace (h :: (l1 ++ l2) ++ [h]) with (l0 ++ a :: b :: ys).
  2:{ rewrite <- app_assoc, Eb, app_comm_cons, Ea, <- app_assoc. done. }
  assert (Hnd2 : NoDup (l0 ++ [a])) by (rewrite <- Ea; rewrite app_comm_cons in Hnd1; by apply list.NoDup_app in Hnd1 as (? & _)).
  assert (Hnd3 : NoDup (b :: ys)).
  { rewrite <- Eb, Permutation_app_comm. cbn. apply list.NoDup_cons in Hnd1 as [? Hnd1].
    apply list.NoDup_app in Hnd1 as (_ & _ & ?). apply list.NoDup_cons. split; [set_solver|done]. }
  apply list.NoDup_cons in Hnd3 as [Hbys _].
  assert (Hal0 : a ∉ l0) by (apply list.NoDup_app in Hnd2 as (_ & Hd & _); intros Hal; apply (Hd a Hal); by left).
  apply chain_app. split; [|split_and!; [by link_simp|by link_simp|]].
  - eapply chain_keep; [done|..]; intros y Hy.
    + assert (y <> a) by (by intros ->). by link_simp.
    + rewrite <- Ea in Hy. cbn in Hy. assert (y <> b); [|by link_simp].
      intros ->. apply list.NoDup_cons in Hnd1 as [Hh Hnd1]. apply list.NoDup_app in Hnd1 as (_ & Hd & _).
      apply elem_of_app in Hbin as [?| ->%list_elem_of_singleton]; [by eapply Hd|set_solver].
  - change (chain ?m' (b :: ys)) with (chain m' (b :: ys)). rewrite <- Eb in *. eapply chain_keep; [done|..]; intros y Hy.
    + assert (y <> a); [|by link_simp]. intros ->. apply list.NoDup_cons in Hnd1 as [Hh Hnd1]. apply list.NoDup_app in Hnd1 as (_ & Hd & _).
      apply elem_of_cons in Hain as [->|?]; [set_solver|by eapply Hd].
    + rewrite Eb in Hy. cbn in Hy. assert (y <> b) by (by intros ->). by link_simp.
Qed.

(** Removing a node that is in no queue, only linked to itself, changes nothing. *)
Lemma remove_self_spec m x : ring m x [] -> uv__queue_remove x m = Ret m.
Proof.
  intros [_ Hc]. cbn in Hc. destruct Hc as (Hn & Hp & _). assert (Hs : is_Some (m !! x)) by (by eapply nxt_some).
  unfold uv__queue_remove. do 6 q_step. f_equal. apply map_eq. intros y. destruct (decide (y = x)) as [->|].
  - unfold upd_prev, upd_next. rewrite !lookup_alter_eq. unfold nxt, prv in *. destruct (m !! x) as [[n p]|]; [|done].
    cbn in *. by simplify_eq.
  - unfold upd_prev, upd_next. by rewrite !lookup_alter_ne.
Qed.

Lemma NoDup_ring_split (h : nat) (l1 l2 : list nat) : NoDup (h :: l1 ++ l2) -> NoDup (h :: l1) /\ NoDup l2 /\ forall x, x ∈ h :: l1 -> x ∉ l2.
Proof. rewrite app_comm_cons. intros (? & ? & ?)%list.NoDup_app. done. Qed.

Lemma split_spec m h l1 q l2 n :
  ring m h (l1 ++ q :: l2) -> n ∉ h :: l1 ++ q :: l2 -> is_Some (m !! n) ->
  exists m', uv__queue_split h q n m = Ret m' /\ ring m' h l1 /\ ring m' n (q :: l2) /\
    same_off (n :: h :: l1 ++ q :: l2) m m'.
Proof.
  intros R Hn Hsn. pose proof (fun y => ring_some m h _ y R) as Hs. pose proof R as [Hnd Hc].
  destruct (exists_last (l := h :: l1)) as (l0 & a & Ea); [done|].
  destruct (exists_last (l := q :: l2)) as (l3 & p & Ep); [done|].
  assert (Exs : h :: (l1 ++ q :: l2) ++ [h] = (l0 ++ [a]) ++ (l3 ++ [p]) ++ [h]).
  { rewrite <- Ea, <- Ep. cbn. by rewrite <- app_assoc. }
  rewrite Exs in Hc. destruct (l3 ++ [p]) as [|q' l3p] eqn:E3; [by destruct l3|]. injection Ep as <- <-.
  rewrite <- app_assoc in Hc. cbn in Hc. apply chain_app in Hc as [Hc1 Hc2]. destruct Hc2 as (Haq & Hqa & Hc2).
  change (chain m ((q :: l2) ++ [h])) in Hc2. rewrite <- E3, <- app_assoc in Hc2. cbn in Hc2.
  apply chain_app in Hc2 as [Hc2 (Hph & Hhp & _)].
  destruct (NoDup_ring_split _ _ _ Hnd) as (Hnd1 & Hnd2 & Hdis).
  assert (Hain : a ∈ h :: l1) by (rewrite Ea; set_solver). assert (Hpin : p ∈ q :: l2) by (rewrite <- E3; set_solver).
  assert (Hal0 : a ∉ l0) by (rewrite Ea in Hnd1; apply list.NoDup_app in Hnd1 as (_ & Hd & _); intros Hal; apply (Hd a Hal); by left).
  assert (Hpl3 : p ∉ l3) by (rewrite <- E3 in Hnd2; apply list.NoDup_app in Hnd2 as (_ & Hd & _); intros Hal; apply (Hd p Hal); by left).
  assert (Hne : forall y, y ∈ h :: l1 -> y <> n /\ forall z, z ∈ q :: l2 -> y <> z).
  { intros y Hy. split; [set_solver|]. intros z Hz ->. by eapply Hdis. }
  assert (Hne2 : forall z, z ∈ q :: l2 -> z <> n) by set_solver.
  assert (Hsa : is_Some (m !! a)) by (apply Hs; set_solver). assert (Hsp : is_Some (m !! p)) by (apply Hs; set_solver).
  assert (Hsq : is_Some (m !! q)) by (apply Hs; set_solver). assert (Hsh : is_Some (m !! h)) by (apply Hs; set_solver).
  pose proof (proj1 (Hne a Hain)). pose proof (proj2 (Hne a Hain) p Hpin). pose proof (proj2 (Hne a Hain) q ltac:(by left)).
  pose proof (proj1 (Hne h ltac:(by left))). pose proof (proj2 (Hne h ltac:(by left)) q ltac:(by left)).
  pose proof (proj2 (Hne h ltac:(by left)) p Hpin).
  pose proof (Hne2 p Hpin). pose proof (Hne2 q ltac:(by left)).
  unfold uv__queue_split. do 10 q_step. eexists. split; [reflexivity|]. split; [|split; [|off_solve]].
  - split; [done|]. rewrite app_comm_cons, Ea, <- app_assoc. cbn. apply chain_app. split; [|cbn; split_and!; by link_simp].
    eapply chain_keep; [done|..]; intros y Hy.
    + assert (y <> a) by (by intros ->). assert (y ∈ h :: l1) by (rewrite Ea; set_solver).
      pose proof (proj1 (Hne y ltac:(done))). pose proof (proj2 (Hne y ltac:(done)) p Hpin). by link_simp.
    + rewrite <- Ea in Hy. cbn in Hy. assert (y ∈ h :: l1) by (by right). assert (y <> h) by (apply list.NoDup_cons in Hnd1 as [? _]; by intros ->).
      pose proof (proj1 (Hne y ltac:(done))). pose proof (proj2 (Hne y ltac:(done)) q ltac:(by left)). by link_simp.
  - split; [apply list.NoDup_cons; split; [set_solver|done]|].
    change (chain ?m' (n :: (q :: l2) ++ [n])) with (nxt m' n = Some q /\ prv m' q = Some n /\ chain m' ((q :: l2) ++ [n])).
    split; [by link_simp|]. split; [by link_simp|].
    rewrite <- E3, <- app_assoc. cbn. apply chain_app. split; [|cbn; split_and!; by link_simp].
    eapply chain_keep; [done|..]; intros y Hy.
    + assert (y <> p) by (by intros ->). assert (Hyq : y ∈ q :: l2) by (rewrite <- E3; set_solver).
      pose proof (Hne2 y Hyq). assert (y <> a) by (intros ->; by eapply Hdis). by link_simp.
    + rewrite E3 in Hy. cbn in Hy. assert (Hyq : y ∈ q :: l2) by (by right). assert (y <> q) by (apply list.NoDup_cons in Hnd2 as [? _]; by intros ->).
      pose proof (Hne2 y Hyq). assert (y <> h) by (intros ->; eapply Hdis; [by left|done]). by link_simp.
Qed.

Lemma move_spec m h l n :
  ring m h l -> n ∉ h :: l -> is_Some (m !! n) ->
  exists m', uv__queue_move h n m = Ret m' /\ ring m' h [] /\ ring m' n l /\ same_off (n :: h :: l) m m'.
Proof.
  intros R Hn Hs. unfold uv__queue_move. rewrite (empty_spec _ _ _ R). cbn [mbind outcome_bind].
  destruct l as [|q l].
  - rewrite bool_decide_true by done. destruct (init_spec n m Hs) as (m' & -> & R' & Ho). exists m'. split_and!; try done.
    + eapply ring_off; [done| |done]. set_solver.
    + intros x Hx. apply Ho. set_solver.
  - rewrite bool_decide_false by done. pose proof (head_spec _ _ _ _ R) as Hh. unfold uv__queue_head in Hh. rewrite Hh. cbn [mbind outcome_bind].
    exact (split_spec m h [] q l n R Hn Hs).
Qed.

Lemma add_spec m h l1 n l2 :
  ring m h l1 -> ring m n l2 -> (forall x, x ∈ h :: l1 -> x ∉ n :: l2) ->
  exists m', uv__queue_add h n m = Ret m' /\ ring m' h (l1 ++ l2) /\ same_off (n :: h :: l1 ++ l2) m m'.
Proof.
  intros R1 R2 Hd. pose proof R1 as [Hnd1 _]. pose proof R2 as [Hnd2 _].
  pose proof (fun y => ring_some m h _ y R1) as Hs1. pose proof (fun y => ring_some m n _ y R2) as Hs2.
  destruct (ring_last _ _ _ R1) as (l0 & a & Ea & Hca & Hah & Hha & Hal0).
  assert (Hain : a ∈ h :: l1) by (rewrite Ea; set_solver).
  assert (Hsa : is_Some (m !! a)) by auto. assert (Hsh : is_Some (m !! h)) by (apply Hs1; by left).
  assert (Hsn : is_Some (m !! n)) by (apply Hs2; by left).
  assert (Hnh : n <> h) by set_solver. assert (Hna : n <> a) by (intros ->; eapply Hd; [done|by left]).
  destruct l2 as [|b l2].
  - destruct R2 as [_ (Hnn & Hpn & _)]. unfold uv__queue_add. do 10 q_step. eexists. split; [reflexivity|].
    rewrite app_nil_r. split; [|off_solve]. split; [done|].
    rewrite app_comm_cons, Ea, <- app_assoc. cbn. apply chain_app. split; [|cbn; split_and!; by link_simp].
    eapply chain_keep; [done|..]; intros y Hy.
    + assert (y <> a) by (by intros ->). by link_simp.
    + rewrite <- Ea in Hy. cbn in Hy. assert (y <> h) by (apply list.NoDup_cons in Hnd1 as [? _]; by intros ->).
      assert (y <> n) by set_solver. by link_simp.
  - destruct (exists_last (l := b :: l2)) as (l3 & p & Ep); [done|].
    destruct R2 as [_ Hc2]. cbn in Hc2. destruct Hc2 as (Hnb & Hbn & Hc2). change (chain m ((b :: l2) ++ [n])) in Hc2.
    rewrite Ep, <- app_assoc in Hc2. cbn in Hc2. apply chain_app in Hc2 as [Hcb (Hpn & Hnp & _)].
    apply list.NoDup_cons in Hnd2 as [Hnl2 Hnd2].
    assert (Hpin : p ∈ b :: l2) by (rewrite Ep; set_solver).
    assert (Hpl3 : p ∉ l3) by (rewrite Ep in Hnd2; apply list.NoDup_app in Hnd2 as (_ & Hdd & _); intros Hal; apply (Hdd p Hal); by left).
    assert (Hne : forall y z, y ∈ h :: l1 -> z ∈ b :: l2 -> y <> z) by (intros y z Hy Hz ->; eapply Hd; [done|by right]).
    assert (Hsb : is_Some (m !! b)) by (apply Hs2; right; by left). assert (Hsp : is_Some (m !! p)) by (apply Hs2; by right).
    assert (n <> b) by set_solver. assert (n <> p) by (by intros ->).
    pose proof (Hne a b Hain ltac:(by left)). pose proof (Hne a p Hain Hpin).
    pose proof (Hne h b ltac:(by left) ltac:(by left)). pose proof (Hne h p ltac:(by left) Hpin).
    unfold uv__queue_add. do 10 q_step. eexists. split; [reflexivity|]. split; [|off_solve].
    split; [rewrite app_comm_cons; apply list.NoDup_app; split_and!; [done| |done]; intros y Hy Hz; by apply (Hne y y Hy Hz)|].
    replace (h :: (l1 ++ b :: l2) ++ [h]) with (l0 ++ a :: (b :: l2) ++ [h]).
    2:{ rewrite <- app_assoc. change (h :: l1 ++ (b :: l2) ++ [h]) with ((h :: l1) ++ (b :: l2) ++ [h]). by rewrite Ea, <- app_assoc. }
    apply chain_app. split; [|split; [by link_simp|]; split; [by link_simp|]].
    + eapply chain_keep; [done|..]; intros y Hy.
      * assert (y <> a) by (by intros ->). assert (Hyl : y ∈ h :: l1) by (rewrite Ea; set_solver).
        pose proof (Hne y p Hyl Hpin). by link_simp.
      * rewrite <- Ea in Hy. cbn in Hy. assert (Hyl : y ∈ h :: l1) by (by right).
        assert (y <> h) by (apply list.NoDup_cons in Hnd1 as [? _]; by intros ->).
        pose proof (Hne y b Hyl ltac:(by left)). by link_simp.
    + change (chain ?m' (b :: l2 ++ [h])) with (chain m' ((b :: l2) ++ [h])). rewrite Ep, <- app_assoc. cbn.
      apply chain_app. split; [|cbn; split_and!; by link_simp].
      eapply chain_keep; [done|..]; intros y Hy.
      * assert (y <> p) by (by intros ->). assert (Hyl : y ∈ b :: l2) by (rewrite Ep; set_solver).
        assert (y <> a) by (intros ->; by apply (Hne a a)). by link_simp.
      * rewrite <- Ep in Hy. cbn in Hy. assert (Hyl : y ∈ b :: l2) by (by right).
        assert (y <> b) by (apply list.NoDup_cons in Hnd2 as [? _]; by intros ->).
        assert (y <> h) by (intros ->; by apply (Hne h h ltac:(by left))). by link_simp.
Qed.

(** C28. The intrusive queue is a list. On rings the functions of queue.h are the operations
    their names say, for every length including none: init, empty and head; insertion at
    either end of a node that is in no queue; removal of any element, and of a node linked
    only to itself, which does nothing; moving a queue to another header, splitting it and
    appending one to another. Each returns, and each leaves every other ring as it is. *)
Theorem queue_refines_list m h l :
  ring m h l ->
  uv__queue_empty h m = Ret (bool_decide (l = [])) /\
  (forall x l', l = x :: l' -> uv__queue_head h m = Ret x) /\
  (forall q, q ∉ h :: l -> is_Some (m !! q) ->
     (exists m', uv__queue_insert_tail h q m = Ret m' /\ ring m' h (l ++ [q]) /\ same_off (q :: h :: l) m m') /\
     (exists m', uv__queue_insert_head h q m = Ret m' /\ ring m' h (q :: l) /\ same_off (q :: h :: l) m m') /\
     (exists m', uv__queue_move h q m = Ret m' /\ ring m' h [] /\ ring m' q l /\ same_off (q :: h :: l) m m')) /\
  (forall l1 x l2, l = l1 ++ x :: l2 ->
     exists m', uv__queue_remove x m = Ret m' /\ ring m' h (l1 ++ l2) /\ same_off (h :: l1 ++ l2) m m') /\
  (l = [] -> uv__queue_remove h m = Ret m) /\
  (forall l1 q l2 n, l = l1 ++ q :: l2 -> n ∉ h :: l -> is_Some (m !! n) ->
     exists m', uv__queue_split h q n m = Ret m' /\ ring m' h l1 /\ ring m' n (q :: l2) /\ same_off (n :: h :: l) m m') /\
  (forall n l2, ring m n l2 -> (forall x, x ∈ h :: l -> x ∉ n :: l2) ->
     exists m', uv__queue_add h n m = Ret m' /\ ring m' h (l ++ l2) /\ same_off (n :: h :: l ++ l2) m m') /\
  (forall S m' h' l', same_off S m m' -> (forall x, x ∈ h' :: l' -> x ∉ S) -> ring m h' l' -> ring m' h' l').
Proof.
  intros R. split_and!.
  - by apply empty_spec.
  - intros x l' ->. by eapply head_spec.
  - intros q Hq Hs. split_and!; [by apply insert_tail_spec|by apply insert_head_spec|by apply move_spec].
  - intros l1 x l2 ->. by apply remove_spec.
  - intros ->. by apply remove_self_spec.
  - intros l1 q l2 n ->. by apply split_spec.
  - intros n l2. by apply add_spec.
  - intros S m' h' l'. apply ring_off.
Qed.

Lemma queue_refines_list_witness :
  exists m', uv__queue_insert_tail 0 1 {[0%nat := mkQ 0 0; 1%nat := mkQ 1 1]} = Ret m' /\ ring m' 0 [1%nat].
Proof.
  assert (R : ring {[0%nat := mkQ 0 0; 1%nat := mkQ 1 1]} 0 []).
  { split; [apply list.NoDup_singleton|]. vm_compute. done. }
  destruct (queue_refines_list _ _ _ R) as (_ & _ & H & _). destruct (H 1%nat) as ((m' & ? & ? & _) & _).
  - set_solver.
  - vm_compute. eauto.
  - eauto.
Defined.
