(* ===== verification/Async.v ===== *)
(** libuv's async handles, deps/libuv/src/unix/async.c, with which a worker thread rings the
    doorbell of the event loop.

    Part 1 models [uv_async_send] on any number of threads against the loop thread's
    [uv__async_io] and [uv__async_close] on one handle, one atomic access per step. What a
    thread wants to announce, the results it put into a queue, is a number of items. The
    first, relaxed, read of [uv_async_send] may pass the thread's earlier stores; on a
    machine that lets it (total store order), they wait in a buffer of the thread. Part 2
    is the loop of [uv__async_io] over the ring of all handles. *)

From S2P Require Import Prelude Queue.

(** ** Part 1: one handle *)

(** Where a thread is in [uv_async_send]: outside, before the cheap read, before the
    increment of [busy], before the exchange of [pending], before the write to the eventfd,
    before the decrement. *)
Inductive send_at := SIdle | SLoad | SAdd | SXchg | SWrite | SSub.
#[export] Instance send_at_eq_dec : EqDecision send_at.
Proof. solve_decision. Defined.

(** A thread, and the items that its store buffer holds back. *)
Record sender := mkSender { pc : send_at; held : nat }.

(** Where the loop thread is: polling, before the read of the eventfd, before the exchange,
    in the callback, waiting for [busy] in [uv__async_spin], done with the handle. *)
Inductive loop_at := LPoll | LRead | LXchg | LCallback | LSpin | LClosed.
#[export] Instance loop_at_eq_dec : EqDecision loop_at.
Proof. solve_decision. Defined.

(** [avail] counts the items visible in memory, [taken] those the callback has seen. *)
Record async := mkAsync {
  pending : bool; busy : Z; eventfd : Z; loop_pc : loop_at; senders : list sender; avail : nat; taken : nat }.

Definition async_init (n : nat) : async := mkAsync false 0 0 LPoll (replicate n (mkSender SIdle 0)) 0 0.

Definition with_sender (i : nat) (p : sender) (s : async) : async :=
  mkAsync (pending s) (busy s) (eventfd s) (loop_pc s) (<[i := p]> (senders s)) (avail s) (taken s).

(** [write] on an eventfd adds 1, or reports EAGAIN when the counter is full, which
    [uv__async_send] takes as success. *)
Definition eventfd_write (n : Z) : Z := if n <? 2 ^ 64 - 2 then n + 1 else n.

(** A step of thread [i] that performs an access to the handle. *)
Definition send_step (i : nat) (p : sender) (s : async) : async :=
  match pc p with
  | SIdle => s
  | SLoad => with_sender i (mkSender (if pending s then SIdle else SAdd) (held p)) s
  | SAdd =>
      mkAsync (pending s) (busy s + 1) (eventfd s) (loop_pc s) (<[i := mkSender SXchg (held p)]> (senders s)) (avail s) (taken s)
  | SXchg =>
      mkAsync true (busy s) (eventfd s) (loop_pc s)
        (<[i := mkSender (if pending s then SSub else SWrite) (held p)]> (senders s)) (avail s) (taken s)
  | SWrite =>
      mkAsync (pending s) (busy s) (eventfd_write (eventfd s)) (loop_pc s)
        (<[i := mkSender SSub (held p)]> (senders s)) (avail s) (taken s)
  | SSub =>
      mkAsync (pending s) (busy s - 1) (eventfd s) (loop_pc s) (<[i := mkSender SIdle (held p)]> (senders s)) (avail s) (taken s)
  end.

(** An atomic read-modify-write waits for the thread's store buffer. *)
Definition is_rmw (a : send_at) : bool := match a with SAdd | SXchg | SSub => true | _ => false end.

(** A step of the loop thread in [uv__async_io], which the poll calls when the eventfd is readable. *)
Definition io_step (s : async) : async :=
  match loop_pc s with
  | LPoll => if 0 <? eventfd s then mkAsync (pending s) (busy s) (eventfd s) LRead (senders s) (avail s) (taken s) else s
  | LRead => mkAsync (pending s) (busy s) 0 LXchg (senders s) (avail s) (taken s)
  | LXchg =>
      mkAsync false (busy s) (eventfd s) (if pending s then LCallback else LPoll) (senders s) (avail s) (taken s)
  | LCallback => mkAsync (pending s) (busy s) (eventfd s) LPoll (senders s) (avail s) (avail s)
  | LSpin =>
      if busy s =? 0 then mkAsync (pending s) (busy s) (eventfd s) LClosed (senders s) (avail s) (taken s) else s
  | LClosed => s
  end.

(** [uv__async_close] begins: [atomic_store(pending, 1)]. *)
Definition close_step (s : async) : async :=
  mkAsync true (busy s) (eventfd s) LSpin (senders s) (avail s) (taken s).

Definition closing (s : async) : bool := match loop_pc s with LSpin | LClosed => true | _ => false end.

(** The handle's owner closes it when no thread is about to send: each is outside
    [uv_async_send] or already counted in [busy]. *)
Definition close_allowed (s : async) : Prop :=
  Forall (fun p => pc p <> SLoad /\ pc p <> SAdd) (senders s).

Inductive async_step (tso : bool) : async -> async -> Prop :=
| AStart s i p : senders s !! i = Some p -> pc p = SIdle -> closing s = false ->
    async_step tso s (if tso then with_sender i (mkSender SLoad (S (held p))) s
      else mkAsync (pending s) (busy s) (eventfd s) (loop_pc s) (<[i := mkSender SLoad (held p)]> (senders s)) (S (avail s)) (taken s))
| AFlush s i p n : senders s !! i = Some p -> held p = S n ->
    async_step tso s (mkAsync (pending s) (busy s) (eventfd s) (loop_pc s) (<[i := mkSender (pc p) n]> (senders s)) (S (avail s)) (taken s))
| ASend s i p : senders s !! i = Some p -> pc p <> SIdle -> (is_rmw (pc p) = true -> held p = 0%nat) ->
    async_step tso s (send_step i p s)
| AIo s : async_step tso s (io_step s)
| AClose s : close_allowed s -> loop_pc s = LPoll -> async_step tso s (close_step s).

Inductive async_reachable (tso : bool) (n : nat) : async -> Prop :=
| AR_init : async_reachable tso n (async_init n)
| AR_step s s' : async_reachable tso n s -> async_step tso s s' -> async_reachable tso n s'.

(** *** Invariant *)

(** Threads between the increment and the decrement of [busy]. *)
Definition inside (p : sender) : bool := match pc p with SXchg | SWrite | SSub => true | _ => false end.
Definition count_inside (l : list sender) : nat := length (filter (fun p => inside p = true) l).

Lemma count_insert l i p q :
  l !! i = Some p ->
  (count_inside (<[i := q]> l) + (if inside p then 1 else 0) = count_inside l + (if inside q then 1 else 0))%nat.
Proof.
  intros H. unfold count_inside. rewrite insert_take_drop by (by eapply lookup_lt_Some).
  rewrite <- (take_drop_middle l i p H) at 3. rewrite !list.filter_app, !length_app, !filter_cons.
  destruct (inside p), (inside q); repeat case_decide; cbn; try done; lia.
Qed.

(** Some thread is at one of the points [P]. *)
Definition some_at (P : send_at -> bool) (l : list sender) : Prop := exists i p, l !! i = Some p /\ P (pc p) = true.

Lemma some_at_insert P l i p q :
  l !! i = Some p -> some_at P l -> (P (pc p) = true -> P (pc q) = true) -> some_at P (<[i := q]> l).
Proof.
  intros Hi (j & r & Hj & HP) Himp. destruct (decide (j = i)) as [->|].
  - exists i, q. rewrite list_lookup_insert_eq by (by eapply lookup_lt_Some). simplify_eq. auto.
  - exists j, r. by rewrite list_lookup_insert_ne.
Qed.

Lemma some_at_new P l i p q : l !! i = Some p -> P (pc q) = true -> some_at P (<[i := q]> l).
Proof. intros Hi HP. exists i, q. by rewrite list_lookup_insert_eq by (by eapply lookup_lt_Some). Qed.

Definition at_write (a : send_at) : bool := bool_decide (a = SWrite).
Definition will_exchange (a : send_at) : bool := match a with SLoad | SAdd | SXchg => true | _ => false end.

Record ainv (tso : bool) (s : async) : Prop := {
  ai_busy : busy s = Z.of_nat (count_inside (senders s));
  ai_fd : 0 <= eventfd s;
  ai_closing : closing s = true -> Forall (fun p => pc p <> SLoad /\ pc p <> SAdd) (senders s);
  ai_closed : loop_pc s = LClosed -> Forall (fun p => pc p = SIdle) (senders s);
  ai_taken : (taken s <= avail s)%nat;
  ai_pending : closing s = false -> pending s = true ->
    0 < eventfd s \/ loop_pc s = LRead \/ loop_pc s = LXchg \/ some_at at_write (senders s);
  ai_held : tso = false -> Forall (fun p => held p = 0%nat) (senders s);
  ai_data : tso = false -> closing s = false -> (taken s < avail s)%nat ->
    pending s = true \/ loop_pc s = LCallback \/ some_at will_exchange (senders s) }.

Lemma ainv_init tso n : ainv tso (async_init n).
Proof.
  constructor; cbn; try done; try lia.
  - unfold count_inside. induction n as [|n IH]; [done|]. rewrite replicate_S, filter_cons_False by done. done.
  - intros _. by apply Forall_replicate.
Qed.

(** A step of one thread. *)
Lemma ainv_update tso s i p q pend' busy' efd' avail' :
  ainv tso s -> senders s !! i = Some p -> loop_pc s <> LClosed ->
  busy' = busy s + (if inside q then 1 else 0) - (if inside p then 1 else 0) ->
  (closing s = true -> pc q <> SLoad /\ pc q <> SAdd) -> 0 <= efd' -> (avail s <= avail')%nat ->
  (tso = false -> held q = 0%nat) ->
  (closing s = false -> pend' = true ->
     0 < efd' \/ loop_pc s = LRead \/ loop_pc s = LXchg \/ some_at at_write (<[i := q]> (senders s))) ->
  (tso = false -> closing s = false -> (taken s < avail')%nat ->
     pend' = true \/ loop_pc s = LCallback \/ some_at will_exchange (<[i := q]> (senders s))) ->
  ainv tso (mkAsync pend' busy' efd' (loop_pc s) (<[i := q]> (senders s)) avail' (taken s)).
Proof.
  intros [I1 I2 I3 I4 I5 I6 I7 I8] Hi Hcl Hb Hq Hfd Hav Hh Hp Hd.
  constructor; cbn [pending busy eventfd loop_pc senders avail taken]; try done; try lia.
  - rewrite Hb, I1. generalize (count_insert (senders s) i p q Hi). destruct (inside p), (inside q); lia.
  - intros Hc. apply Forall_insert; [by apply I3|by apply Hq].
  - intros E. apply Forall_insert; auto.
Qed.

Lemma ainv_send tso s i p :
  ainv tso s -> senders s !! i = Some p -> pc p <> SIdle -> ainv tso (send_step i p s).
Proof.
  intros I Hi Hp. pose proof I as [I1 I2 I3 I4 I5 I6 I7 I8].
  assert (Hin : p ∈ senders s) by (by eapply list_elem_of_lookup_2).
  assert (Hclosed : loop_pc s <> LClosed).
  { intros E. specialize (I4 E). rewrite list.Forall_forall in I4. by apply Hp, I4. }
  assert (Hh : tso = false -> held p = 0%nat).
  { intros E. specialize (I7 E). rewrite list.Forall_forall in I7. by apply I7. }
  assert (Hcl : closing s = true -> pc p <> SLoad /\ pc p <> SAdd).
  { intros E. specialize (I3 E). rewrite list.Forall_forall in I3. by apply I3. }
  assert (Hins : forall a, inside (mkSender a (held p)) = match a with SXchg | SWrite | SSub => true | _ => false end) by done.
  unfold send_step. destruct (pc p) eqn:Epc; [done|..].
  - unfold with_sender. eapply (ainv_update tso s i p _); try done.
    + unfold inside. rewrite Epc. destruct (pending s); cbn; lia.
    + intros E. destruct (Hcl E) as [? _]. done.
    + intros Hc Hpd. rewrite Hpd. destruct (I6 Hc Hpd) as [?|[?|[?|?]]]; auto. right. right. right.
      eapply some_at_insert; [done|done|]. by rewrite Epc.
    + intros Ht Hc Hlt. destruct (pending s) eqn:Epd; [by left|]. right. right.
      by eapply some_at_new.
  - eapply (ainv_update tso s i p _); try done.
    + unfold inside. rewrite Epc. cbn. lia.
    + intros Hc Hpd. destruct (I6 Hc Hpd) as [?|[?|[?|?]]]; auto. right. right. right.
      eapply some_at_insert; [done|done|]. by rewrite Epc.
    + intros Ht Hc Hlt. right. right. by eapply some_at_new.
  - eapply (ainv_update tso s i p _); try done.
    + unfold inside. rewrite Epc. destruct (pending s); cbn; lia.
    + intros _. destruct (pending s); done.
    + intros Hc _. destruct (pending s) eqn:Epd.
      * destruct (I6 Hc eq_refl) as [?|[?|[?|?]]]; auto. right. right. right. eapply some_at_insert; [done|done|]. by rewrite Epc.
      * right. right. right. by eapply some_at_new.
    + by left.
  - eapply (ainv_update tso s i p _); try done.
    + unfold inside. rewrite Epc. cbn. lia.
    + unfold eventfd_write. case_match; lia.
    + intros Hc Hpd. left. unfold eventfd_write. case_match; reflect_bools; lia.
    + intros Ht Hc Hlt. destruct (I8 Ht Hc Hlt) as [?|[?|?]]; auto. right. right. eapply some_at_insert; [done|done|]. by rewrite Epc.
  - eapply (ainv_update tso s i p _); try done.
    + unfold inside. rewrite Epc. cbn. lia.
    + intros Hc Hpd. destruct (I6 Hc Hpd) as [?|[?|[?|?]]]; auto. right. right. right.
      eapply some_at_insert; [done|done|]. by rewrite Epc.
    + intros Ht Hc Hlt. destruct (I8 Ht Hc Hlt) as [?|[?|?]]; auto. right. right. eapply some_at_insert; [done|done|]. by rewrite Epc.
Qed.

Ltac io_solve I6 I8 :=
  first [done|lia|by auto
    |intros Ht _ Hlt; destruct (I8 Ht eq_refl Hlt) as [Hd|[Hd|Hd]]; rewrite ?Hd; by auto
    |intros _ Hp; destruct (I6 eq_refl Hp) as [?|[?|[?|?]]]; by auto].

(** When the spin ends no thread is inside. *)
Lemma spin_done s :
  busy s = Z.of_nat (count_inside (senders s)) -> busy s = 0 ->
  Forall (fun p => pc p <> SLoad /\ pc p <> SAdd) (senders s) -> Forall (fun p => pc p = SIdle) (senders s).
Proof.
  intros Hb Hz. rewrite !list.Forall_forall. intros Hn p Hp.
  assert (Hf : filter (fun p => inside p = true) (senders s) = []) by (apply nil_length_inv; unfold count_inside in Hb; lia).
  destruct (Hn p Hp). destruct (pc p) eqn:Epc; try done; exfalso;
    (assert (p ∈ filter (fun p => inside p = true) (senders s)) as Hin by (apply list_elem_of_filter; unfold inside; by rewrite Epc));
    rewrite Hf in Hin; by apply not_elem_of_nil in Hin.
Qed.

Lemma ainv_io tso s : ainv tso s -> ainv tso (io_step s).
Proof.
  intros [I1 I2 I3 I4 I5 I6 I7 I8]. unfold io_step, closing in *. destruct (loop_pc s) eqn:El.
  - case_match eqn:Ef; reflect_bools; constructor; unfold closing; cbn [pending busy eventfd loop_pc senders avail taken]; rewrite ?El; io_solve I6 I8.
  - constructor; unfold closing; cbn [pending busy eventfd loop_pc senders avail taken]; io_solve I6 I8.
  - destruct (pending s) eqn:Ep; constructor; unfold closing; cbn [pending busy eventfd loop_pc senders avail taken]; io_solve I6 I8.
  - constructor; unfold closing; cbn [pending busy eventfd loop_pc senders avail taken]; io_solve I6 I8.
  - case_match eqn:Eb; reflect_bools; constructor; unfold closing; cbn [pending busy eventfd loop_pc senders avail taken]; rewrite ?El; try io_solve I6 I8.
    intros _. by apply spin_done; [..|apply I3].
  - constructor; unfold closing; rewrite ?El; auto.
Qed.

Lemma ainv_step tso s s' : ainv tso s -> async_step tso s s' -> ainv tso s'.
Proof.
  intros I Hst. destruct Hst as [s i p Hi Hp Hc|s i p n Hi Hh|s i p Hi Hp _|s|s Hc Hl].
  - pose proof I as [I1 I2 I3 I4 I5 I6 I7 I8].
    assert (Hcl : loop_pc s <> LClosed) by (unfold closing in Hc; by destruct (loop_pc s)).
    assert (Hkeep : forall q, pc q = SLoad -> closing s = false -> pending s = true ->
      0 < eventfd s \/ loop_pc s = LRead \/ loop_pc s = LXchg \/ some_at at_write (<[i := q]> (senders s))).
    { intros q Hq _ Hpd. destruct (I6 Hc Hpd) as [?|[?|[?|?]]]; auto. right. right. right.
      eapply some_at_insert; [done|done|]. by rewrite Hp. }
    destruct tso; [unfold with_sender|]; eapply (ainv_update _ s i p _); try done; try lia; try (by apply Hkeep).
    all: try (unfold inside; rewrite Hp; cbn; lia); try (rewrite Hc; done).
    + intros _. specialize (I7 eq_refl). rewrite list.Forall_forall in I7. apply (I7 p). by eapply list_elem_of_lookup_2.
    + intros _ _ _. right. right. by eapply some_at_new.
  - pose proof I as [I1 I2 I3 I4 I5 I6 I7 I8]. destruct tso.
    2:{ specialize (I7 eq_refl). rewrite list.Forall_forall in I7. rewrite (I7 p) in Hh; [done|by eapply list_elem_of_lookup_2]. }
    constructor; cbn [pending busy eventfd loop_pc senders avail taken]; try done; try lia.
    + rewrite I1. pose proof (count_insert (senders s) i p (mkSender (pc p) n) Hi) as Hcnt. unfold inside in Hcnt. cbn in Hcnt. lia.
    + intros E. apply Forall_insert; [by apply I3|]. cbn. specialize (I3 E). rewrite list.Forall_forall in I3. apply I3. by eapply list_elem_of_lookup_2.
    + intros E. apply Forall_insert; [by apply I4|]. cbn. specialize (I4 E). rewrite list.Forall_forall in I4. apply I4. by eapply list_elem_of_lookup_2.
    + intros Hc Hpd. destruct (I6 Hc Hpd) as [?|[?|[?|?]]]; auto. right. right. right. by eapply some_at_insert.
  - by eapply ainv_send.
  - by apply ainv_io.
  - destruct I as [I1 I2 I3 I4 I5 I6 I7 I8]. constructor; cbn; try done.
Qed.

Lemma async_inv tso n s : async_reachable tso n s -> ainv tso s.
Proof. induction 1; [apply ainv_init|by eapply ainv_step]. Qed.

(** *** Wake-ups *)

Definition all_idle (s : async) : Prop := Forall (fun p => pc p = SIdle) (senders s).

Lemma idle_not_at P s : all_idle s -> P SIdle = false -> ~ some_at P (senders s).
Proof.
  intros Hi HP (i & p & Hp & H). unfold all_idle in Hi. rewrite list.Forall_forall in Hi.
  rewrite (Hi p) in H; [congruence|]. by eapply list_elem_of_lookup_2.
Qed.

(** C29. No wake-up is lost when memory is sequentially consistent: in every interleaving of
    any number of sending threads with the loop, once no thread is inside [uv_async_send] and
    the loop polls, items the callback has not seen have made the eventfd readable, and the
    loop's next four steps see them all. *)
Theorem async_no_lost_wakeup n s :
  async_reachable false n s -> all_idle s -> loop_pc s = LPoll -> (taken s < avail s)%nat ->
  0 < eventfd s /\ pending s = true /\
  taken (Nat.iter 4 io_step s) = avail s /\ loop_pc (Nat.iter 4 io_step s) = LPoll.
Proof.
  intros Hr Hi Hl Hlt. destruct (async_inv _ _ _ Hr) as [I1 I2 I3 I4 I5 I6 I7 I8].
  assert (Hc : closing s = false) by (unfold closing; by rewrite Hl).
  assert (Hp : pending s = true).
  { destruct (I8 eq_refl Hc Hlt) as [?|[?|H]]; [done|congruence|]. by apply idle_not_at in H. }
  assert (Hf : 0 < eventfd s).
  { destruct (I6 Hc Hp) as [?|[?|[?|H]]]; [done|congruence|congruence|]. by apply idle_not_at in H. }
  split; [done|]. split; [done|]. clear I1 I3 I4 I6 I7 I8 Hr Hi Hc. destruct s as [pd bz fd lp sd av tk]. cbn in *. subst.
  assert (E : io_step (mkAsync true bz fd LPoll sd av tk) = mkAsync true bz fd LRead sd av tk)
    by (unfold io_step; cbn [loop_pc eventfd]; by rewrite (proj2 (Z.ltb_lt _ _) Hf)).
  change (Nat.iter 4 io_step ?x) with (io_step (io_step (io_step (io_step x)))). by rewrite E.
Qed.

(** A schedule, as the indices of steps of thread 0 and of the loop. *)
Inductive sched := Start | Flush | Send | Io.

Definition sched_step (tso : bool) (c : sched) (s : async) : option async :=
  match c, senders s !! 0%nat with
  | Io, _ => Some (io_step s)
  | Start, Some p =>
      if bool_decide (pc p = SIdle) && negb (closing s) then
        Some (if tso then with_sender 0 (mkSender SLoad (S (held p))) s
              else mkAsync (pending s) (busy s) (eventfd s) (loop_pc s) (<[0%nat := mkSender SLoad (held p)]> (senders s)) (S (avail s)) (taken s))
      else None
  | Flush, Some p =>
      match held p with
      | S n => Some (mkAsync (pending s) (busy s) (eventfd s) (loop_pc s) (<[0%nat := mkSender (pc p) n]> (senders s)) (S (avail s)) (taken s))
      | O => None
      end
  | Send, Some p =>
      if bool_decide (pc p <> SIdle) && (negb (is_rmw (pc p)) || Nat.eqb (held p) 0) then Some (send_step 0 p s) else None
  | _, None => None
  end.

Fixpoint sched_run (tso : bool) (cs : list sched) (s : async) : option async :=
  match cs with [] => Some s | c :: cs => match sched_step tso c s with Some s' => sched_run tso cs s' | None => None end end.

Lemma sched_reachable tso n cs s s' : async_reachable tso n s -> sched_run tso cs s = Some s' -> async_reachable tso n s'.
Proof.
  revert s. induction cs as [|c cs IH]; intros s Hr; cbn; [by intros [= <-]|].
  destruct (sched_step tso c s) as [s1|] eqn:E; [|done]. apply IH. eapply AR_step; [done|].
  unfold sched_step in E. destruct (senders s !! 0%nat) as [p|] eqn:Ep; destruct c; try done; try (injection E as <-; by constructor).
  - case_match eqn:Eb; [|done]. injection E as <-. apply andb_true_iff in Eb as [H1 H2]. apply bool_decide_eq_true in H1.
    apply negb_true_iff in H2. by apply (AStart tso s 0 p).
  - destruct (held p) eqn:Eh; [done|]. injection E as <-. by apply (AFlush tso s 0 p).
  - case_match eqn:Eb; [|done]. injection E as <-. apply andb_true_iff in Eb as [H1 H2]. apply bool_decide_eq_true in H1.
    apply (ASend tso s 0 p); try done. intros Hrmw. rewrite Hrmw in H2. cbn in H2. by apply Nat.eqb_eq.
Qed.

(** A thread sends twice. Its second publication waits in the store buffer while the cheap
    read still sees the first send pending; then the loop takes the first item. *)
Definition lost_schedule : list sched :=
  [Start; Flush; Send; Send; Send; Send; Send; Start; Send; Io; Io; Io; Io; Flush].

(** On a machine whose store buffers let the relaxed read of [uv_async_send] overtake
    the thread's earlier stores, a wake-up can be lost: the thread has returned from
    [uv_async_send] and its item is in memory, but the callback has not seen it, the handle
    is not pending and the eventfd is not readable. *)
Theorem async_lost_wakeup :
  exists s, async_reachable true 1 s /\ all_idle s /\ Forall (fun p => held p = 0%nat) (senders s) /\
    loop_pc s = LPoll /\ pending s = false /\ eventfd s = 0 /\ (taken s < avail s)%nat.
Proof.
  destruct (sched_run true lost_schedule (async_init 1)) as [s|] eqn:E; [|by vm_compute in E].
  exists s. split; [exact (sched_reachable true 1 _ _ _ (AR_init true 1) E)|].
  vm_compute in E. injection E as <-. split_and!; try done; [by repeat constructor..|]. cbn. lia.
Qed.

(** *** Closing *)

Inductive async_steps (tso : bool) : async -> async -> Prop :=
| AS_refl s : async_steps tso s s
| AS_step s s' s'' : async_step tso s s' -> async_steps tso s' s'' -> async_steps tso s s''.

Lemma async_steps_trans tso a b c : async_steps tso a b -> async_steps tso b c -> async_steps tso a c.
Proof. induction 1; eauto using async_steps. Qed.

(** Each thread that is counted in [busy] can leave [uv_async_send]. *)
Lemma leave_send tso s i p :
  senders s !! i = Some p -> inside p = true ->
  exists s' q, async_steps tso s s' /\ senders s' = <[i := q]> (senders s) /\ pc q = SIdle /\
    loop_pc s' = loop_pc s.
Proof.
  remember (held p) as k eqn:Hk. revert s p Hk. induction k as [|k IH]; intros s p Hk Hi Hin.
  - assert (Hlen : (i < length (senders s))%nat) by (by eapply lookup_lt_Some).
    assert (Hsub : forall s1 q, senders s1 !! i = Some q -> pc q = SSub -> held q = 0%nat ->
      exists s' q', async_steps tso s1 s' /\ senders s' = <[i := q']> (senders s1) /\ pc q' = SIdle /\ loop_pc s' = loop_pc s1).
    { intros s1 q Hq Epc Eh. eexists (send_step i q s1), _. split; [eapply AS_step; [|constructor]; apply (ASend _ _ _ q); try done; congruence|].
      unfold send_step. rewrite Epc. cbn. split; [reflexivity|]. done. }
    assert (Hwr : forall s1 q, senders s1 !! i = Some q -> pc q = SWrite -> held q = 0%nat ->
      exists s' q', async_steps tso s1 s' /\ senders s' = <[i := q']> (senders s1) /\ pc q' = SIdle /\ loop_pc s' = loop_pc s1).
    { intros s1 q Hq Epc Eh. pose proof (lookup_lt_Some _ _ _ Hq).
      destruct (Hsub (send_step i q s1) (mkSender SSub (held q))) as (s' & q' & H1 & H2 & H3 & H4); try done.
      { unfold send_step. rewrite Epc. cbn. by rewrite list_lookup_insert_eq. }
      exists s', q'. split; [eapply AS_step; [|exact H1]; apply (ASend _ _ _ q); try done; congruence|].
      unfold send_step in H2, H4. rewrite Epc in H2, H4. cbn in H2, H4. rewrite H2, list_insert_insert_eq. done. }
    destruct (pc p) eqn:Epc; unfold inside in Hin; rewrite Epc in Hin; try done; [|by eapply Hwr|by eapply Hsub].
    set (s1 := send_step i p s). set (q := mkSender (if pending s then SSub else SWrite) (held p)).
    assert (Hq : senders s1 !! i = Some q) by (unfold s1, send_step; rewrite Epc; cbn; by rewrite list_lookup_insert_eq).
    assert (Hstep : async_step tso s s1) by (apply (ASend _ _ _ p); [done|congruence|done]).
    destruct (pending s) eqn:Ep.
    + destruct (Hsub s1 q Hq eq_refl ltac:(done)) as (s' & q' & H1 & H2 & H3 & H4). exists s', q'. split; [by eapply AS_step|].
      unfold s1, send_step in H2, H4. rewrite Epc in H2, H4. cbn in H2, H4. rewrite H2, list_insert_insert_eq. done.
    + destruct (Hwr s1 q Hq eq_refl ltac:(done)) as (s' & q' & H1 & H2 & H3 & H4). exists s', q'. split; [by eapply AS_step|].
      unfold s1, send_step in H2, H4. rewrite Epc in H2, H4. cbn in H2, H4. rewrite H2, list_insert_insert_eq. done.
  - set (s1 := mkAsync (pending s) (busy s) (eventfd s) (loop_pc s) (<[i := mkSender (pc p) k]> (senders s)) (S (avail s)) (taken s)).
    destruct (IH s1 (mkSender (pc p) k)) as (s' & q & H1 & H2 & H3 & H4); try done.
    { cbn. rewrite list_lookup_insert_eq; [done|by eapply lookup_lt_Some]. }
    exists s', q. split; [eapply AS_step; [by apply (AFlush tso s i p)|done]|]. cbn in H2. rewrite H2, list_insert_insert_eq. done.
Qed.

Lemma ainv_steps tso s s' : async_steps tso s s' -> ainv tso s -> ainv tso s'.
Proof. induction 1; eauto using ainv_step. Qed.

Lemma spin_returns tso k s :
  ainv tso s -> loop_pc s = LSpin -> count_inside (senders s) = k ->
  exists s', async_steps tso s s' /\ loop_pc s' = LClosed.
Proof.
  revert s. induction k as [|k IH]; intros s I Hl Hk.
  - exists (io_step s). split; [eapply AS_step; [apply AIo|constructor]|].
    unfold io_step. rewrite Hl, (ai_busy _ _ I), Hk. done.
  - destruct (filter (fun p => inside p = true) (senders s)) as [|p ps] eqn:Ef; unfold count_inside in Hk; rewrite Ef in Hk; [done|].
    assert (Hp : p ∈ filter (fun p => inside p = true) (senders s)) by (rewrite Ef; by left).
    apply list_elem_of_filter in Hp as [Hin [i Hi]%list_elem_of_lookup].
    destruct (leave_send tso s i p Hi Hin) as (s1 & q & Hs & Es & Eq & El).
    destruct (IH s1) as (s' & Hs' & Hc).
    + by eapply ainv_steps.
    + congruence.
    + pose proof (count_insert (senders s) i p q Hi) as Hc. rewrite Hin in Hc. unfold inside in Hc at 1. rewrite Eq, <- Es in Hc.
      unfold count_inside in Hc at 2. rewrite Ef in Hc. cbn in Hc, Hk. lia.
    + exists s'. split; [by eapply async_steps_trans|done].
Qed.

(** [uv__async_close] is safe when its caller has made sure that no thread is about to
    call [uv_async_send] (a worker joins its thread first): the spin on [busy] always can
    end, and once it has, no thread is inside [uv_async_send], so the handle can be freed. *)
Theorem async_close_safe tso n s :
  async_reachable tso n s ->
  (loop_pc s = LClosed -> all_idle s) /\
  (loop_pc s = LSpin -> exists s', async_steps tso s s' /\ loop_pc s' = LClosed).
Proof.
  intros Hr. pose proof (async_inv _ _ _ Hr) as I. split; [apply I|]. intros Hl. by eapply spin_returns.
Qed.

Definition one_sent : async := mkAsync true 0 1 LPoll [mkSender SIdle 0] 1 0.

Lemma one_sent_reachable : async_reachable false 1 one_sent.
Proof. apply (sched_reachable false 1 [Start; Send; Send; Send; Send; Send] (async_init 1)); [constructor|reflexivity]. Qed.

Lemma async_no_lost_wakeup_witness : taken (Nat.iter 4 io_step one_sent) = 1%nat.
Proof.
  destruct (async_no_lost_wakeup 1 one_sent one_sent_reachable) as (_ & _ & H & _).
  - by repeat constructor.
  - reflexivity.
  - cbn. lia.
  - exact H.
Defined.

Lemma async_close_safe_witness : exists s', async_steps false (close_step one_sent) s' /\ loop_pc s' = LClosed.
Proof.
  apply (async_close_safe false 1 (close_step one_sent)); [|reflexivity].
  eapply AR_step; [exact one_sent_reachable|]. apply AClose; [|reflexivity]. by repeat constructor.
Defined.

(** ** Part 2: the scan of all handles *)

(** [uv__async_io] after the eventfd was read: the ring of handles with header [hd], the local
    queue with header [lq], the pending flags, the handles whose callbacks ran and those closed.
    Every handle has a callback. *)
Record scan := mkScan { sc_store : qstore; sc_pending : gmap nat bool; sc_calls : list nat; sc_closed : list nat }.

(** What callbacks and other threads do to the handles during the scan: send, close, and
    initialise a new handle. *)
Inductive async_act := ActSend (y : nat) | ActClose (y : nat) | ActInit (y : nat).

Section Scan.
Context (hd lq : nat) (callback : nat -> scan -> list async_act).

(** [uv_async_init], which inserts the handle into the ring; [uv__async_close] after its spin,
    which has left the flag set. *)
Definition uv_async_init (y : nat) (s : scan) : outcome scan :=
  m ← uv__queue_insert_tail hd y (sc_store s);
  Ret (mkScan m (<[y := false]> (sc_pending s)) (sc_calls s) (sc_closed s)).

Definition uv__async_close (y : nat) (s : scan) : outcome scan :=
  m ← uv__queue_remove y (sc_store s);
  Ret (mkScan m (<[y := true]> (sc_pending s)) (sc_calls s) (sc_closed s ++ [y])).

(** [uv_async_send] is here its net effect on the flag. *)
Definition async_act_do (a : async_act) (s : scan) : outcome scan :=
  match a with
  | ActSend y =>
      match sc_pending s !! y with
      | None => UB
      | Some _ => Ret (mkScan (sc_store s) (<[y := true]> (sc_pending s)) (sc_calls s) (sc_closed s))
      end
  | ActClose y => uv__async_close y s
  | ActInit y => uv_async_init y s
  end.

Fixpoint async_acts_do (acts : list async_act) (s : scan) : outcome scan :=
  match acts with [] => Ret s | a :: acts => s ← async_act_do a s; async_acts_do acts s end.

Fixpoint async_io_loop (fuel : nat) (s : scan) : outcome scan :=
  e ← uv__queue_empty lq (sc_store s);
  if e : bool then Ret s
  else
    match fuel with
    | O => UB
    | S fuel' =>
        q ← uv__queue_head lq (sc_store s);
        m ← uv__queue_remove q (sc_store s);
        m ← uv__queue_insert_tail hd q m;
        let s := mkScan m (sc_pending s) (sc_calls s) (sc_closed s) in
        match sc_pending s !! q with
        | None => UB
        | Some false => async_io_loop fuel' s
        | Some true =>
            let s := mkScan m (<[q := false]> (sc_pending s)) (sc_calls s ++ [q]) (sc_closed s) in
            s ← async_acts_do (callback q s) s;
            async_io_loop fuel' s
        end
    end.

(** One turn for each handle; there are no more of them than nodes in the store. *)
Definition uv__async_io (s : scan) : outcome scan :=
  m ← uv__queue_move hd lq (sc_store s);
  async_io_loop (size m) (mkScan m (sc_pending s) (sc_calls s) (sc_closed s)).

(** The rings during the scan: [A] the handles done, [B] those to come. *)
Record rings (s : scan) (A B : list nat) : Prop := {
  rg_hd : ring (sc_store s) hd A;
  rg_lq : ring (sc_store s) lq B;
  rg_disj : forall x, x ∈ hd :: A -> x ∉ lq :: B;
  rg_flags : forall x, x ∈ A \/ x ∈ B -> is_Some (sc_pending s !! x);
  rg_closed : forall x, x ∈ sc_closed s -> (x ∉ A) /\ (x ∉ B) }.

(** A callback closes open handles only and initialises handles that are in no queue and
    were not closed in this scan. *)
Definition async_act_allowed (s : scan) (a : async_act) : Prop :=
  forall A B, rings s A B ->
  match a with
  | ActSend y | ActClose y => y ∈ A \/ y ∈ B
  | ActInit y => is_Some (sc_store s !! y) /\ (y ∉ hd :: A) /\ (y ∉ lq :: B) /\ (y ∉ sc_closed s)
  end.

Fixpoint async_acts_allowed (acts : list async_act) (s : scan) : Prop :=
  match acts with
  | [] => True
  | a :: acts => async_act_allowed s a /\ forall s', async_act_do a s = Ret s' -> async_acts_allowed acts s'
  end.

Lemma ring_elem_split m h l y : ring m h l -> y ∈ l -> exists l1 l2, l = l1 ++ y :: l2 /\ y ∉ h :: l1 ++ l2.
Proof.
  intros [Hnd _] Hy. apply list_elem_of_split in Hy as (l1 & l2 & ->). exists l1, l2. split; [done|].
  assert (Hp : h :: l1 ++ y :: l2 ≡ₚ y :: h :: l1 ++ l2) by solve_Permutation.
  rewrite Hp in Hnd. by apply list.NoDup_cons in Hnd as [? _].
Qed.

(** What the handles still to come see of a step. *)
Record scan_rel (s s' : scan) (B B' : list nat) : Prop := {
  sr_calls : sc_calls s' = sc_calls s;
  sr_sub : B' `sublist_of` B;
  sr_keep : forall x, x ∈ B -> x ∈ B' \/ x ∈ sc_closed s';
  sr_closed : forall x, x ∈ sc_closed s -> x ∈ sc_closed s';
  sr_flags : forall x, x ∈ B' -> sc_pending s !! x = Some true -> sc_pending s' !! x = Some true }.

Lemma act_init_ok s A B y :
  rings s A B -> is_Some (sc_store s !! y) -> y ∉ hd :: A -> y ∉ lq :: B -> y ∉ sc_closed s ->
  exists s' A', async_act_do (ActInit y) s = Ret s' /\ rings s' A' B /\ scan_rel s s' B B.
Proof.
  intros [R1 R2 Rd Rf Rc] Hy HyA HyB Hyc. cbn [async_act_do]. unfold uv_async_init.
  destruct (insert_tail_spec _ _ _ y R1 HyA Hy) as (m' & -> & R1' & Ho). cbn [mbind outcome_bind].
  eexists _, (A ++ [y]). split; [done|]. split.
  - constructor; cbn; try done.
    + eapply ring_off; [exact Ho| |exact R2]. intros x Hx Hx'. apply elem_of_cons in Hx' as [->|Hx']; [done|by eapply Rd].
    + intros x Hx. rewrite app_comm_cons, elem_of_app, list_elem_of_singleton in Hx. destruct Hx as [Hx| ->]; [by apply Rd|done].
    + intros x Hx. destruct (decide (x = y)) as [->|]; [rewrite lookup_insert_eq; eauto|]. rewrite lookup_insert_ne by done.
      apply Rf. set_solver.
    + intros x Hx. destruct (Rc x Hx). split; [|done]. rewrite elem_of_app, list_elem_of_singleton. intros [?| ->]; done.
  - constructor; cbn; auto. intros x Hx Hp. rewrite lookup_insert_ne; [done|]. intros ->. apply HyB. by right.
Qed.

Lemma act_close_ok s A B y :
  rings s A B -> y ∈ A \/ y ∈ B ->
  exists s' A' B', async_act_do (ActClose y) s = Ret s' /\ rings s' A' B' /\ scan_rel s s' B B'.
Proof.
  intros [R1 R2 Rd Rf Rc] Hy. cbn [async_act_do]. unfold uv__async_close.
  assert (Hflag : forall x, is_Some (sc_pending s !! x) -> is_Some (<[y := true]> (sc_pending s) !! x)).
  { intros x Hx. rewrite lookup_insert_is_Some'. by right. }
  assert (Hkeep : forall x, sc_pending s !! x = Some true -> <[y := true]> (sc_pending s) !! x = Some true).
  { intros x Hx. destruct (decide (x = y)) as [->|]; [by rewrite lookup_insert_eq|by rewrite lookup_insert_ne]. }
  destruct Hy as [Hy|Hy].
  - destruct (ring_elem_split _ _ _ _ R1 Hy) as (l1 & l2 & -> & Hn).
    destruct (remove_spec _ _ _ _ _ R1) as (m' & -> & R1' & Ho). cbn [mbind outcome_bind].
    eexists _, (l1 ++ l2), B. split; [done|]. split.
    + constructor; cbn; try done.
      * eapply ring_off; [exact Ho| |exact R2]. intros x Hx Hx'. eapply Rd; [|done]. set_solver.
      * intros x Hx. apply Rd. set_solver.
      * intros x Hx. apply Hflag, Rf. set_solver.
      * intros x [Hx| ->%list_elem_of_singleton]%elem_of_app; [destruct (Rc x Hx); set_solver|].
        split; [set_solver|]. intros HyB. eapply (Rd y); [set_solver|by right].
    + constructor; cbn; auto. intros x Hx. rewrite elem_of_app. by left.
  - destruct (ring_elem_split _ _ _ _ R2 Hy) as (l1 & l2 & -> & Hn).
    destruct (remove_spec _ _ _ _ _ R2) as (m' & -> & R2' & Ho). cbn [mbind outcome_bind].
    eexists _, A, (l1 ++ l2). split; [done|]. split.
    + constructor; cbn; try done.
      * eapply ring_off; [exact Ho| |exact R1]. intros x Hx Hx'. eapply Rd; [done|]. set_solver.
      * intros x Hx Hx'. apply (Rd x Hx). set_solver.
      * intros x Hx. apply Hflag, Rf. set_solver.
      * intros x [Hx| ->%list_elem_of_singleton]%elem_of_app; [destruct (Rc x Hx); set_solver|].
        split; [|set_solver]. intros HyA. eapply (Rd y); [by right|set_solver].
    + constructor; cbn; auto.
      * apply sublist_app; [done|]. by apply sublist_cons.
      * intros x Hx. rewrite !elem_of_app, list_elem_of_singleton. apply elem_of_app in Hx as [?|[->|?]%elem_of_cons]; auto.
      * intros x Hx. rewrite elem_of_app. by left.
Qed.

Lemma async_act_ok s A B a :
  rings s A B -> async_act_allowed s a ->
  exists s' A' B', async_act_do a s = Ret s' /\ rings s' A' B' /\ scan_rel s s' B B'.
Proof.
  intros R Ha. specialize (Ha A B R). destruct a as [y|y|y].
  - pose proof R as [R1 R2 Rd Rf Rc]. cbn [async_act_do]. destruct (Rf y Ha) as [b Hb]. rewrite Hb.
    eexists _, A, B. split; [done|]. split.
    + constructor; cbn; try done. intros x Hx. rewrite lookup_insert_is_Some'. right. by apply Rf.
    + constructor; cbn; auto. intros x Hx Hp. destruct (decide (x = y)) as [->|]; [by rewrite lookup_insert_eq|by rewrite lookup_insert_ne].
  - by apply (act_close_ok s A B y).
  - destruct Ha as (H1 & H2 & H3 & H4). destruct (act_init_ok s A B y R H1 H2 H3 H4) as (s' & A' & ? & ? & ?). by exists s', A', B.
Qed.

Lemma async_acts_ok acts s A B :
  rings s A B -> async_acts_allowed acts s ->
  exists s' A' B', async_acts_do acts s = Ret s' /\ rings s' A' B' /\ scan_rel s s' B B'.
Proof.
  revert s A B. induction acts as [|a acts IH]; intros s A B R Ha.
  { exists s, A, B. split_and!; try done. constructor; auto. }
  destruct Ha as [Ha Hrest]. cbn [async_acts_do].
  destruct (async_act_ok s A B a R Ha) as (s1 & A1 & B1 & Hr & R1 & [Q1 Q2 Q3 Q4 Q5]). rewrite Hr. cbn [mbind outcome_bind].
  destruct (IH s1 A1 B1 R1 (Hrest s1 Hr)) as (s2 & A2 & B2 & Hr2 & R2 & [P1 P2 P3 P4 P5]).
  exists s2, A2, B2. split_and!; try done. constructor.
  - congruence.
  - by etransitivity.
  - intros x [Hx|Hx]%Q3; auto.
  - auto.
  - intros x Hx Hp. apply P5; [done|]. apply Q5; [|done]. by eapply elem_of_sublist.
Qed.

Hypothesis Hcallback : forall x s, async_acts_allowed (callback x s) s.

(** One turn: the head of the local queue goes to the end of the ring of handles. *)
Lemma visit_head s A x B :
  rings s A (x :: B) ->
  exists m1 m2, uv__queue_remove x (sc_store s) = Ret m1 /\ uv__queue_insert_tail hd x m1 = Ret m2 /\
    rings (mkScan m2 (sc_pending s) (sc_calls s) (sc_closed s)) (A ++ [x]) B.
Proof.
  intros [R1 R2 Rd Rf Rc]. pose proof (ring_some _ _ _ x R2 ltac:(set_solver)) as Hsx.
  destruct (ring_elem_split _ _ _ x R2 ltac:(by left)) as (l1 & l2 & E & Hn).
  destruct (remove_spec _ lq [] x B R2) as (m1 & Hr1 & R2' & Ho1). cbn in R2', Ho1.
  pose proof R2 as [Hnd _]. apply list.NoDup_cons in Hnd as [Hlq Hnd]. apply list.NoDup_cons in Hnd as [HxB Hnd].
  assert (HxlqB : x ∉ lq :: B) by (rewrite not_elem_of_cons; split; [intros ->; apply Hlq; by left|done]).
  assert (HxA : x ∉ hd :: A) by (intros H; apply (Rd x H); right; by left).
  assert (R1' : ring m1 hd A).
  { eapply ring_off; [exact Ho1| |exact R1]. intros y Hy Hy'. apply (Rd y Hy). set_solver. }
  destruct (insert_tail_spec m1 hd A x R1' HxA) as (m2 & Hr2 & R1'' & Ho2); [by rewrite Ho1|].
  exists m1, m2. split_and!; try done. constructor; cbn; try done.
  - eapply ring_off; [exact Ho2| |exact R2']. intros y Hy Hy'. apply elem_of_cons in Hy' as [->|Hy']; [done|].
    apply (Rd y Hy'). set_solver.
  - intros y Hy. rewrite app_comm_cons, elem_of_app, list_elem_of_singleton in Hy. destruct Hy as [Hy| ->]; [|done].
    intros Hy'. apply (Rd y Hy). set_solver.
  - intros y Hy. apply Rf. set_solver.
  - intros y Hy. destruct (Rc y Hy). set_solver.
Qed.

Lemma async_io_loop_ok fuel s A B :
  rings s A B -> (length B <= fuel)%nat ->
  exists s' A' cs, async_io_loop fuel s = Ret s' /\ rings s' A' [] /\ sc_calls s' = sc_calls s ++ cs /\
    cs `sublist_of` B /\ (forall x, x ∈ sc_closed s -> x ∈ sc_closed s') /\
    (forall x, x ∈ B -> sc_pending s !! x = Some true -> x ∈ cs \/ x ∈ sc_closed s').
Proof.
  revert s A B. induction fuel as [|fuel IH]; intros s A B R Hf; cbn [async_io_loop];
    rewrite (empty_spec _ _ _ (rg_lq _ _ _ R)); cbn [mbind outcome_bind]; destruct B as [|x B].
  1,3: rewrite bool_decide_true by done; exists s, A, []; rewrite app_nil_r; split_and!; try done; by intros x ?%not_elem_of_nil.
  { cbn in Hf. lia. }
  rewrite bool_decide_false by done. rewrite (head_spec _ _ _ _ (rg_lq _ _ _ R)). cbn [mbind outcome_bind].
  destruct (visit_head s A x B R) as (m1 & m2 & -> & Hr2 & R2). cbn [mbind outcome_bind]. rewrite Hr2. cbn [mbind outcome_bind].
  cbn [sc_pending sc_calls sc_closed]. destruct (rg_flags _ _ _ R x) as [b Hb]; [right; by left|]. rewrite Hb. destruct b.
  - set (s2 := mkScan m2 (<[x := false]> (sc_pending s)) (sc_calls s ++ [x]) (sc_closed s)).
    assert (R2' : rings s2 (A ++ [x]) B).
    { destruct R2 as [Q1 Q2 Qd Qf Qc]. constructor; try done. cbn. intros y Hy. rewrite lookup_insert_is_Some'. right. by apply Qf. }
    assert (HxB : x ∉ B) by (destruct (rg_lq _ _ _ R) as [Hnd _]; apply list.NoDup_cons in Hnd as [_ Hnd]; by apply list.NoDup_cons in Hnd as [? _]).
    destruct (async_acts_ok _ s2 _ _ R2' (Hcallback x s2)) as (s3 & A3 & B3 & -> & R3 & [Q1 Q2 Q3 Q4 Q5]). cbn [mbind outcome_bind].
    destruct (IH s3 A3 B3 R3) as (s' & A' & cs & Hr & R' & Hcalls & Hsub & Hcl & Hall).
    { apply sublist_length in Q2. cbn in Hf. lia. }
    exists s', A', (x :: cs). split_and!; try done.
    + rewrite Hcalls, Q1. cbn. by rewrite <- app_assoc.
    + apply sublist_skip. by etransitivity.
    + auto.
    + intros y [->|Hy]%elem_of_cons Hp; [left; by left|]. destruct (Q3 y Hy) as [Hy3|Hy3]; [|right; by apply Hcl].
      destruct (Hall y Hy3) as [H|H]; [|left; by right|by right].
      apply Q5; [done|]. cbn. rewrite lookup_insert_ne; [done|]. by intros ->.
  - destruct (IH _ _ B R2) as (s' & A' & cs & Hr & R' & Hcalls & Hsub & Hcl & Hall); [cbn in Hf; lia|].
    exists s', A', cs. split_and!; try done; [by apply sublist_cons|].
    intros y [->|Hy]%elem_of_cons Hp; [congruence|]. by apply Hall.
Qed.

(** One [uv__async_io] visits every async handle: it always returns, whatever the
    callbacks send, close and initialise; no callback runs twice; every handle that was
    pending when the scan began has its callback run unless another callback closed it; and
    afterwards the ring of handles is whole again. *)
Theorem async_scan_complete s A :
  ring (sc_store s) hd A -> lq ∉ hd :: A -> is_Some (sc_store s !! lq) ->
  (forall x, x ∈ A -> is_Some (sc_pending s !! x)) -> sc_closed s = [] ->
  exists s' A' cs, uv__async_io s = Ret s' /\ ring (sc_store s') hd A' /\ sc_calls s' = sc_calls s ++ cs /\ NoDup cs /\
    (forall x, x ∈ cs -> x ∈ A) /\
    (forall x, x ∈ A -> sc_pending s !! x = Some true -> x ∈ cs \/ x ∈ sc_closed s').
Proof.
  intros R Hlq Hs Hf Hc. unfold uv__async_io. destruct (move_spec _ _ _ lq R Hlq Hs) as (m & -> & R1 & R2 & Ho).
  cbn [mbind outcome_bind]. pose proof R as [Hnd _]. apply list.NoDup_cons in Hnd as [Hhd Hnd].
  set (s0 := mkScan m (sc_pending s) (sc_calls s) (sc_closed s)).
  assert (R0 : rings s0 [] A).
  { constructor; cbn; try done.
    - intros x ->%list_elem_of_singleton. rewrite not_elem_of_cons in Hlq |- *. destruct Hlq. split; [congruence|done].
    - intros x [?%not_elem_of_nil|?]; [done|]. by apply Hf.
    - rewrite Hc. by intros x ?%not_elem_of_nil. }
  assert (Hlen : (length A <= size m)%nat).
  { rewrite <- size_dom. rewrite <- (size_list_to_set (C := gset nat) A Hnd). apply subseteq_size. intros x. rewrite elem_of_list_to_set, elem_of_dom.
    intros Hx. eapply ring_some; [exact R2|by right]. }
  destruct (async_io_loop_ok (size m) s0 [] A R0 Hlen) as (s' & A' & cs & Hr & R' & Hcalls & Hsub & _ & Hall).
  exists s', A', cs. split_and!; try done.
  - exact (rg_hd _ _ _ R').
  - by eapply sublist_NoDup.
  - intros x Hx. by eapply elem_of_sublist.
Qed.

End Scan.

(** Two handles, the first of them pending. *)
Definition two_handles : scan :=
  mkScan {[0%nat := mkQ 2 3; 1%nat := mkQ 1 1; 2%nat := mkQ 3 0; 3%nat := mkQ 0 2]} {[2%nat := true; 3%nat := false]} [] [].

Lemma async_scan_complete_witness :
  exists s' A' cs, uv__async_io 0 1 (fun _ _ => []) two_handles = Ret s' /\ ring (sc_store s') 0 A' /\
    sc_calls s' = sc_calls two_handles ++ cs /\ NoDup cs /\ (forall x, x ∈ cs -> x ∈ [2%nat; 3%nat]) /\
    (forall x, x ∈ [2%nat; 3%nat] -> sc_pending two_handles !! x = Some true -> x ∈ cs \/ x ∈ sc_closed s').
Proof.
  apply (async_scan_complete 0 1 (fun _ _ => []) ltac:(done) two_handles [2%nat; 3%nat]).
  - split; [|vm_compute; done]. apply NoDup_ListNoDup. repeat constructor; set_solver.
  - set_solver.
  - vm_compute. eauto.
  - intros x [->|[->|?%not_elem_of_nil]%elem_of_cons]%elem_of_cons; [vm_compute; eauto..|done].
  - reflexivity.
Defined.
