(* ===== verification/Threadpool.v ===== *)
(** libuv's thread pool, deps/libuv/src/threadpool.c, which runs the file system requests.

    A mutex makes each critical section one step. Between them a worker thread waits for the
    condition, runs a work function or hands a finished request back; the loop thread submits
    and cancels requests and calls their [done] functions when the async handle [wq_async]
    was rung. The intrusive queues are the lists that Queue shows them to be. A signal wakes
    any one waiting thread, and waiting threads may also wake by themselves.

    Part 1 translates the functions, Part 2 is the invariant, Part 3 the theorems. *)

From S2P Require Import Prelude.

(** ** Part 1: the code *)

Definition MAX_THREADPOOL_SIZE : Z := 1024.
Definition UV_ECANCELED : Z := -125.
Definition UV_EBUSY : Z := -16.

Inductive uv__work_kind := UV__WORK_CPU | UV__WORK_FAST_IO | UV__WORK_SLOW_IO.

(** A node of [wq]: a request or one of the two messages. *)
Inductive qnode := QWork (w : nat) | QExit | QSlow.
#[export] Instance qnode_eq_dec : EqDecision qnode.
Proof. solve_decision. Defined.

(** The [work] field of a request: its function, NULL, or [uv__cancelled]. *)
Inductive work_fn := WFn | WNull | WCancelled.
#[export] Instance work_fn_eq_dec : EqDecision work_fn.
Proof. solve_decision. Defined.

(** Where a worker thread is: about to lock the mutex for the first time, in
    [uv_cond_wait], woken there, before the call of the work function, after it, before it
    locks the mutex again, returned. *)
Inductive pool_thread :=
| TStart | TWaiting | TWoken | TRun (w : nat) (is_slow_work : bool) | TFinish (w : nat) (is_slow_work : bool)
| TRelock (is_slow_work : bool) | TExited.
#[export] Instance pool_thread_eq_dec : EqDecision pool_thread.
Proof. solve_decision. Defined.

(** Where the loop thread is: outside [uv__work_done], before it takes the loop's queue, in
    its loop with the local queue. *)
Inductive loop_thread := MIdle | MMove | MDone (l : list nat).

(** The globals, the fields of the requests and of the loop; [cancelling] is the request
    between the two critical sections of [uv__work_cancel]. The last three fields record the
    requests submitted, those whose function ran, and the calls of [done]. *)
Record pool := mkPool {
  wq : list qnode; slow_io_pending_wq : list nat; idle_threads : Z; slow_io_work_running : Z; threads : list pool_thread;
  w_work : gmap nat work_fn; loop_wq : list nat; wq_async : bool; main : loop_thread; cancelling : option nat;
  submitted : list nat; ran : list nat; dones : list (nat * Z) }.

Definition set_wq q s := mkPool q (slow_io_pending_wq s) (idle_threads s) (slow_io_work_running s) (threads s)
  (w_work s) (loop_wq s) (wq_async s) (main s) (cancelling s) (submitted s) (ran s) (dones s).
Definition set_slow_q q s := mkPool (wq s) q (idle_threads s) (slow_io_work_running s) (threads s)
  (w_work s) (loop_wq s) (wq_async s) (main s) (cancelling s) (submitted s) (ran s) (dones s).
Definition set_idle n s := mkPool (wq s) (slow_io_pending_wq s) n (slow_io_work_running s) (threads s)
  (w_work s) (loop_wq s) (wq_async s) (main s) (cancelling s) (submitted s) (ran s) (dones s).
Definition set_running n s := mkPool (wq s) (slow_io_pending_wq s) (idle_threads s) n (threads s)
  (w_work s) (loop_wq s) (wq_async s) (main s) (cancelling s) (submitted s) (ran s) (dones s).
Definition set_thread i t s := mkPool (wq s) (slow_io_pending_wq s) (idle_threads s) (slow_io_work_running s) (<[i := t]> (threads s))
  (w_work s) (loop_wq s) (wq_async s) (main s) (cancelling s) (submitted s) (ran s) (dones s).
Definition set_work w f s := mkPool (wq s) (slow_io_pending_wq s) (idle_threads s) (slow_io_work_running s) (threads s)
  (<[w := f]> (w_work s)) (loop_wq s) (wq_async s) (main s) (cancelling s) (submitted s) (ran s) (dones s).
Definition set_loop_wq q s := mkPool (wq s) (slow_io_pending_wq s) (idle_threads s) (slow_io_work_running s) (threads s)
  (w_work s) q (wq_async s) (main s) (cancelling s) (submitted s) (ran s) (dones s).
Definition set_async b s := mkPool (wq s) (slow_io_pending_wq s) (idle_threads s) (slow_io_work_running s) (threads s)
  (w_work s) (loop_wq s) b (main s) (cancelling s) (submitted s) (ran s) (dones s).
Definition set_main m s := mkPool (wq s) (slow_io_pending_wq s) (idle_threads s) (slow_io_work_running s) (threads s)
  (w_work s) (loop_wq s) (wq_async s) m (cancelling s) (submitted s) (ran s) (dones s).
Definition set_cancelling c s := mkPool (wq s) (slow_io_pending_wq s) (idle_threads s) (slow_io_work_running s) (threads s)
  (w_work s) (loop_wq s) (wq_async s) (main s) c (submitted s) (ran s) (dones s).
Definition set_submitted l s := mkPool (wq s) (slow_io_pending_wq s) (idle_threads s) (slow_io_work_running s) (threads s)
  (w_work s) (loop_wq s) (wq_async s) (main s) (cancelling s) l (ran s) (dones s).
Definition set_ran l s := mkPool (wq s) (slow_io_pending_wq s) (idle_threads s) (slow_io_work_running s) (threads s)
  (w_work s) (loop_wq s) (wq_async s) (main s) (cancelling s) (submitted s) l (dones s).
Definition set_dones l s := mkPool (wq s) (slow_io_pending_wq s) (idle_threads s) (slow_io_work_running s) (threads s)
  (w_work s) (loop_wq s) (wq_async s) (main s) (cancelling s) (submitted s) (ran s) l.

(** The number of threads [init_threads] chooses: [val] is what [atoi] makes of
    UV_THREADPOOL_SIZE, [malloc_ok] whether the array of threads could be allocated. *)
Definition pool_size (val : option Z) (malloc_ok : bool) : Z :=
  let n := match val with Some v => wrap 32 v | None => 4 end in
  let n := if n =? 0 then 1 else n in
  let n := if MAX_THREADPOOL_SIZE <? n then MAX_THREADPOOL_SIZE else n in
  if 4 <? n then if malloc_ok then n else 4 else n.

Definition init_threads (val : option Z) (malloc_ok : bool) : pool :=
  mkPool [] [] 0 0 (replicate (Z.to_nat (pool_size val malloc_ok)) TStart) ∅ [] false MIdle None [] [] [].

Definition slow_work_thread_threshold (s : pool) : Z := (Z.of_nat (length (threads s)) + 1) / 2.

(** [uv_cond_signal] when the system picks thread [k]. *)
Definition cond_signal (k : nat) (s : pool) : pool :=
  if decide (threads s !! k = Some TWaiting) then set_thread k TWoken s else s.

(** The system picks a waiting thread when there is one. *)
Definition pick_ok (k : nat) (s : pool) : Prop := threads s !! k = Some TWaiting \/ TWaiting ∉ threads s.

(** The condition of the waiting loop of [worker]. *)
Definition must_wait (s : pool) : bool :=
  match wq s with
  | [] => true
  | [QSlow] => slow_work_thread_threshold s <=? slow_io_work_running s
  | _ => false
  end.

(** [worker] with the mutex locked, until it waits, leaves or unlocks it to run a request. *)
Fixpoint worker_loop (fuel : nat) (i k : nat) (s : pool) : outcome pool :=
  match fuel with
  | O => UB
  | S fuel' =>
      if must_wait s then Ret (set_thread i TWaiting (set_idle (idle_threads s + 1) s))
      else
        match wq s with
        | [] => UB
        | QExit :: _ => Ret (set_thread i TExited (cond_signal k s))
        | QWork w :: q => Ret (set_thread i (TRun w false) (set_wq q s))
        | QSlow :: q =>
            if slow_work_thread_threshold s <=? slow_io_work_running s then worker_loop fuel' i k (set_wq (q ++ [QSlow]) s)
            else
              match slow_io_pending_wq s with
              | [] => worker_loop fuel' i k (set_wq q s)
              | w :: p =>
                  let s := set_slow_q p (set_running (slow_io_work_running s + 1) (set_wq q s)) in
                  let s :=
                    match p with
                    | [] => s
                    | _ =>
                        let s := set_wq (q ++ [QSlow]) s in
                        if 0 <? idle_threads s then cond_signal k s else s
                    end in
                  Ret (set_thread i (TRun w true) s)
              end
        end
  end.

(** A thread locks the mutex: it comes from its start, from the wait, or from a request. *)
Definition worker_enter (i : nat) (s : pool) : outcome pool :=
  match threads s !! i with
  | Some TStart => Ret s
  | Some TWoken => Ret (set_thread i TStart (set_idle (idle_threads s - 1) s))
  | Some (TRelock slow) => Ret (set_thread i TStart (if slow then set_running (slow_io_work_running s - 1) s else s))
  | _ => UB
  end.

(** Three turns of the loop are enough: the message is looked at only once. *)
Definition worker_section (i k : nat) (s : pool) : outcome pool := s ← worker_enter i s; worker_loop 3 i k s.

(** [w->work(w)] *)
Definition worker_run (i : nat) (s : pool) : outcome pool :=
  match threads s !! i with
  | Some (TRun w slow) =>
      match w_work s !! w with
      | Some WFn => Ret (set_thread i (TFinish w slow) (set_ran (ran s ++ [w]) s))
      | _ => AssertFail
      end
  | _ => UB
  end.

(** The section under [wq_mutex]. *)
Definition worker_finish (i : nat) (s : pool) : outcome pool :=
  match threads s !! i with
  | Some (TFinish w slow) =>
      Ret (set_thread i (TRelock slow) (set_async true (set_loop_wq (loop_wq s ++ [w]) (set_work w WNull s))))
  | _ => UB
  end.

Definition post (q : qnode) (k : nat) (s : pool) : pool :=
  let s := set_wq (wq s ++ [q]) s in
  if 0 <? idle_threads s then cond_signal k s else s.

(** [post] for work of one of the kinds. *)
Definition post_work (w : nat) (kind : uv__work_kind) (k : nat) (s : pool) : pool :=
  match kind with
  | UV__WORK_SLOW_IO =>
      let s := set_slow_q (slow_io_pending_wq s ++ [w]) s in
      if decide (QSlow ∈ wq s) then s else post QSlow k s
  | _ => post (QWork w) k s
  end.

Definition uv__work_submit (w : nat) (kind : uv__work_kind) (k : nat) (s : pool) : pool :=
  post_work w kind k (set_work w WFn (set_submitted (submitted s ++ [w]) s)).

Definition local_wq (s : pool) : list nat := match main s with MDone l => l | _ => [] end.

Definition without (w : nat) (l : list nat) : list nat := filter (fun x => x <> w) l.

(** [uv__queue_remove(&w->wq)], from whichever queue the request is in. *)
Definition unlink (w : nat) (s : pool) : pool :=
  let s := set_wq (filter (fun q => q <> QWork w) (wq s)) s in
  let s := set_slow_q (without w (slow_io_pending_wq s)) s in
  let s := set_loop_wq (without w (loop_wq s)) s in
  set_main (match main s with MDone l => MDone (without w l) | m => m end) s.

(** [!uv__queue_empty(&w->wq)] for a request whose [done] was not called: it is in a queue. *)
Definition linked (w : nat) (s : pool) : bool :=
  bool_decide (QWork w ∈ wq s \/ w ∈ slow_io_pending_wq s \/ w ∈ loop_wq s \/ w ∈ local_wq s).

(** The first critical section of [uv__work_cancel], and its return code. *)
Definition uv__work_cancel (w : nat) (s : pool) : Z * pool :=
  if linked w s && bool_decide (w_work s !! w <> Some WNull) then (0, set_cancelling (Some w) (unlink w s)) else (UV_EBUSY, s).

(** Its second part. *)
Definition cancel_finish (s : pool) : outcome pool :=
  match cancelling s with
  | Some w => Ret (set_cancelling None (set_async true (set_loop_wq (loop_wq s ++ [w]) (set_work w WCancelled s))))
  | None => UB
  end.

(** The loop calls [uv__work_done] for the handle, after it has cleared its flag. *)
Definition async_called (s : pool) : pool := set_main MMove (set_async false s).

(** [uv__queue_move(&loop->wq, &wq)] *)
Definition work_done_move (s : pool) : pool := set_main (MDone (loop_wq s)) (set_loop_wq [] s).

(** A turn of the loop of [uv__work_done]. *)
Definition work_done_one (s : pool) : outcome pool :=
  match main s with
  | MDone (w :: l) =>
      match w_work s !! w with
      | Some f => Ret (set_main (MDone l) (set_dones (dones s ++ [(w, if decide (f = WCancelled) then UV_ECANCELED else 0)]) s))
      | None => UB
      end
  | _ => UB
  end.

(** *** Steps *)

Inductive pool_event :=
| Submit (w : nat) (kind : uv__work_kind) (k : nat) | Cancel (w : nat) | CancelFinish
| Section_ (i k : nat) | Run (i : nat) | Finish (i : nat) | Spurious (i : nat)
| AsyncCalled | DoneMove | DoneOne | DoneEnd | PostExit (k : nat).

Definition pool_do (e : pool_event) (s : pool) : outcome pool :=
  match e with
  | Submit w kind k => Ret (uv__work_submit w kind k s)
  | Cancel w => Ret (uv__work_cancel w s).2
  | CancelFinish => cancel_finish s
  | Section_ i k => worker_section i k s
  | Run i => worker_run i s
  | Finish i => worker_finish i s
  | Spurious i => Ret (set_thread i TWoken s)
  | AsyncCalled => Ret (async_called s)
  | DoneMove => Ret (work_done_move s)
  | DoneOne => work_done_one s
  | DoneEnd => Ret (set_main MIdle s)
  | PostExit k => Ret (post QExit k s)
  end.

(** The loop thread runs script code, a [done] function included. *)
Definition main_free (s : pool) : Prop := cancelling s = None /\ main s <> MMove.

(** A thread that will look at the queue. *)
Definition at_lock (t : pool_thread) : bool := match t with TStart | TWoken | TRelock _ => true | _ => false end.

(** What the threads and a program can do: it submits a request once, cancels only requests
    whose [done] was not called, and posts the exit message once. *)
Definition pool_allowed (s : pool) (e : pool_event) : Prop :=
  match e with
  | Submit w _ k => main_free s /\ (w ∉ submitted s) /\ pick_ok k s
  | Cancel w => main_free s /\ w ∈ submitted s /\ (w ∉ (dones s).*1)
  | CancelFinish => cancelling s <> None
  | Section_ i k => (exists t, threads s !! i = Some t /\ at_lock t = true) /\ pick_ok k s
  | Run i => exists w slow, threads s !! i = Some (TRun w slow)
  | Finish i => exists w slow, threads s !! i = Some (TFinish w slow)
  | Spurious i => threads s !! i = Some TWaiting
  | AsyncCalled => cancelling s = None /\ main s = MIdle /\ wq_async s = true
  | DoneMove => main s = MMove
  | DoneOne => cancelling s = None /\ exists w l, main s = MDone (w :: l)
  | DoneEnd => cancelling s = None /\ main s = MDone []
  | PostExit k => main_free s /\ (QExit ∉ wq s) /\ pick_ok k s
  end.

Inductive pool_reachable (val : option Z) (malloc_ok : bool) : pool -> Prop :=
| PR_init : pool_reachable val malloc_ok (init_threads val malloc_ok)
| PR_step s s' e : pool_reachable val malloc_ok s -> pool_allowed s e -> pool_do e s = Ret s' -> pool_reachable val malloc_ok s'.

(** ** Part 2: the invariant *)

(** *** Requests *)

(** The stage of a request: not started, started, in the hands of the loop, being cancelled. *)
Inductive stage := GQueued | GRan | GBack | GCancelling.

Definition node_tag (q : qnode) : list (nat * stage) := match q with QWork w => [(w, GQueued)] | _ => [] end.
Definition thread_tag (t : pool_thread) : list (nat * stage) :=
  match t with TRun w _ => [(w, GQueued)] | TFinish w _ => [(w, GRan)] | _ => [] end.

(** All requests in flight. *)
Definition tagged (s : pool) : list (nat * stage) :=
  (wq s ≫= node_tag) ++ ((fun w => (w, GQueued)) <$> slow_io_pending_wq s) ++ (threads s ≫= thread_tag) ++
  ((fun w => (w, GBack)) <$> (loop_wq s ++ local_wq s)) ++ ((fun w => (w, GCancelling)) <$> option_list (cancelling s)).

Definition stage_ok (work : gmap nat work_fn) (ran : list nat) (x : nat * stage) : Prop :=
  match x.2 with
  | GQueued => work !! x.1 = Some WFn /\ x.1 ∉ ran
  | GRan => work !! x.1 = Some WFn /\ x.1 ∈ ran
  | GBack => (work !! x.1 = Some WNull /\ x.1 ∈ ran) \/ (work !! x.1 = Some WCancelled /\ x.1 ∉ ran)
  | GCancelling => (work !! x.1 = Some WFn \/ work !! x.1 = Some WCancelled) /\ x.1 ∉ ran
  end.

Definition done_ok (ran : list nat) (x : nat * Z) : Prop := (x.2 = 0 /\ x.1 ∈ ran) \/ (x.2 = UV_ECANCELED /\ x.1 ∉ ran).

(** Every request submitted is in flight once or done once. *)
Record jobs (work : gmap nat work_fn) (sub ran : list nat) (dn : list (nat * Z)) (T : list (nat * stage)) : Prop := {
  j_perm : T.*1 ++ dn.*1 ≡ₚ sub;
  j_sub : NoDup sub;
  j_stage : Forall (stage_ok work ran) T;
  j_done : Forall (done_ok ran) dn;
  j_ran : NoDup ran;
  j_incl : forall w, w ∈ ran -> w ∈ sub }.

Definition jobs_ok (s : pool) : Prop := jobs (w_work s) (submitted s) (ran s) (dones s) (tagged s).

Lemma jobs_proper work sub ran dn T T' : T ≡ₚ T' -> jobs work sub ran dn T -> jobs work sub ran dn T'.
Proof. intros E [H1 H2 H3 H4 H5 H6]. constructor; try done; [by rewrite <- E|by rewrite <- E]. Qed.

Lemma jobs_fresh work sub ran dn w g R : jobs work sub ran dn ((w, g) :: R) -> (w ∉ R.*1) /\ (w ∉ dn.*1) /\ w ∈ sub.
Proof.
  intros [H1 H2 _ _ _ _]. assert (Hn : NoDup (((w, g) :: R).*1 ++ dn.*1)) by (by rewrite H1).
  cbn in Hn. rewrite list.NoDup_cons, not_elem_of_app in Hn. destruct Hn as [[? ?] _]. split_and!; try done.
  rewrite <- H1. by left.
Qed.

(** A request goes to its next stage; only its own field changes. *)
Lemma jobs_move work work' sub ran ran' dn w g g' R :
  jobs work sub ran dn ((w, g) :: R) ->
  (forall x, x <> w -> work' !! x = work !! x) -> (ran' = ran \/ (ran' = ran ++ [w] /\ w ∉ ran)) ->
  stage_ok work' ran' (w, g') -> jobs work' sub ran' dn ((w, g') :: R).
Proof.
  intros J Hw Hr Hs. destruct (jobs_fresh _ _ _ _ _ _ _ J) as (HR & Hd & Hin). destruct J as [H1 H2 H3 H4 H5 H6].
  assert (Hran : forall x, x <> w -> x ∈ ran' <-> x ∈ ran) by (intros x Hx; destruct Hr as [->|[-> _]]; set_solver).
  apply list.Forall_cons in H3 as [_ H3]. constructor; try done.
  - constructor; [done|]. rewrite list.Forall_forall in *. intros [x gx] Hx. specialize (H3 _ Hx).
    assert (x <> w) by (intros ->; apply HR, list_elem_of_fmap; by exists (w, gx)).
    pose proof (Hw x ltac:(done)). pose proof (Hran x ltac:(done)). unfold stage_ok in *. cbn [fst snd] in *. destruct gx; naive_solver congruence.
  - rewrite list.Forall_forall in *. intros [x st] Hx. specialize (H4 _ Hx).
    assert (x <> w) by (intros ->; apply Hd, list_elem_of_fmap; by exists (w, st)).
    pose proof (Hran x ltac:(done)). unfold done_ok in *. cbn [fst snd] in *. naive_solver.
  - destruct Hr as [->|[-> Hni]]; [done|]. apply list.NoDup_app. split_and!; [done|set_solver|apply list.NoDup_singleton].
  - intros x Hx. destruct (decide (x = w)) as [->|]; [done|]. by apply H6, Hran.
Qed.

Lemma jobs_finish work sub ran dn w f R :
  jobs work sub ran dn ((w, GBack) :: R) -> work !! w = Some f ->
  jobs work sub ran (dn ++ [(w, if decide (f = WCancelled) then UV_ECANCELED else 0)]) R.
Proof.
  intros [H1 H2 H3 H4 H5 H6] Hf. apply list.Forall_cons in H3 as [Hs H3]. constructor; try done.
  - rewrite <- H1, fmap_app. cbn. solve_Permutation.
  - apply list.Forall_app. split; [done|]. constructor; [|done]. unfold stage_ok, done_ok in *. cbn in *.
    destruct Hs as [[E ?]|[E ?]]; rewrite Hf in E; simplify_eq; case_decide; auto; done.
Qed.

Lemma jobs_submit work sub ran dn w T :
  jobs work sub ran dn T -> w ∉ sub -> jobs (<[w := WFn]> work) (sub ++ [w]) ran dn ((w, GQueued) :: T).
Proof.
  intros [H1 H2 H3 H4 H5 H6] Hw. constructor; try done.
  - rewrite <- H1. cbn. solve_Permutation.
  - apply list.NoDup_app. split_and!; [done|set_solver|apply list.NoDup_singleton].
  - constructor.
    + unfold stage_ok. cbn. rewrite lookup_insert_eq. split; [done|]. intros ?. by apply Hw, H6.
    + rewrite list.Forall_forall in *. intros [x g] Hx. specialize (H3 _ Hx).
      assert (x <> w). { intros ->. apply Hw. rewrite <- H1. apply elem_of_app. left. apply list_elem_of_fmap. by exists (w, g). }
      unfold stage_ok in *. cbn [fst snd] in *. by rewrite lookup_insert_ne by done.
  - intros x Hx. apply elem_of_app. left. by apply H6.
Qed.

(** *** Threads *)

Definition tsum (f : pool_thread -> nat) (l : list pool_thread) : nat := sum_list_with f l.

Lemma tsum_insert f l i t t' : l !! i = Some t -> (tsum f (<[i := t']> l) + f t = tsum f l + f t')%nat.
Proof.
  intros H. rewrite <- (take_drop_middle l i t H) at 2. rewrite insert_take_drop by (by eapply lookup_lt_Some).
  unfold tsum. rewrite !sum_list_with_app. cbn. lia.
Qed.

Lemma tsum_pos f l : (0 < tsum f l)%nat -> exists i t, l !! i = Some t /\ (0 < f t)%nat.
Proof.
  unfold tsum. induction l as [|t l IH]; cbn; [lia|]. intros H. destruct (decide (0 < f t)%nat) as [Ht|Ht].
  - by exists 0%nat, t.
  - destruct IH as (i & t' & Hi & Hp); [lia|]. by exists (S i), t'.
Qed.

Lemma tsum_zero f l i t : tsum f l = 0%nat -> l !! i = Some t -> f t = 0%nat.
Proof. intros H Hi. rewrite <- (take_drop_middle l i t Hi) in H. unfold tsum in H. rewrite sum_list_with_app in H. cbn in H. lia. Qed.

Definition is_idle (t : pool_thread) : nat := match t with TWaiting | TWoken => 1 | _ => 0 end.
Definition is_slow (t : pool_thread) : nat := match t with TRun _ true | TFinish _ true | TRelock true => 1 | _ => 0 end.
Definition awake (t : pool_thread) : bool := match t with TWaiting | TExited => false | _ => true end.

(** Some thread will look at the queue, or all threads have returned. *)
Definition attended (l : list pool_thread) : Prop :=
  (exists i t, l !! i = Some t /\ awake t = true) \/ Forall (fun t => t = TExited) l.

Definition slow_count (l : list qnode) : nat := length (filter (fun q => q = QSlow) l).

Record ctl (s : pool) : Prop := {
  c_idle : idle_threads s = Z.of_nat (tsum is_idle (threads s));
  c_slow : slow_io_work_running s = Z.of_nat (tsum is_slow (threads s));
  c_bound : slow_io_work_running s <= slow_work_thread_threshold s;
  c_one : (slow_count (wq s) <= 1)%nat;
  c_sched : slow_io_pending_wq s <> [] -> QSlow ∈ wq s;
  c_exit : TExited ∈ threads s -> head (wq s) = Some QExit;
  c_awake : wq s <> [] -> attended (threads s);
  c_bell : loop_wq s <> [] -> wq_async s = true \/ main s = MMove;
  c_some : threads s <> [] }.

Lemma slow_count_app l l' : slow_count (l ++ l') = (slow_count l + slow_count l')%nat.
Proof. unfold slow_count. by rewrite list.filter_app, length_app. Qed.

Lemma slow_count_zero l : QSlow ∉ l -> slow_count l = 0%nat.
Proof.
  intros H. unfold slow_count. induction l as [|q l IH]; [done|]. rewrite not_elem_of_cons in H. destruct H as [H1 H2]. rewrite filter_cons_False by congruence. by apply IH.
Qed.

Lemma slow_count_tail q l : (slow_count (QSlow :: l) <= 1)%nat -> q ∈ l -> q <> QSlow.
Proof.
  unfold slow_count. rewrite filter_cons_True by done. cbn. intros H Hq ->.
  assert (Hf : QSlow ∈ filter (fun q => q = QSlow) l) by (by apply list_elem_of_filter).
  destruct (filter _ l); [by apply not_elem_of_nil in Hf|cbn in H; lia].
Qed.

Lemma threshold_pos s : threads s <> [] -> 1 <= slow_work_thread_threshold s.
Proof. unfold slow_work_thread_threshold. destruct (threads s); [done|]. cbn [length]. intros _. apply Z.div_le_lower_bound; lia. Qed.

Lemma attended_set l i t t' : l !! i = Some t -> awake t' = true -> attended (<[i := t']> l).
Proof. intros H Ha. left. exists i, t'. by rewrite list_lookup_insert_eq by (by eapply lookup_lt_Some). Qed.

(** What a signal changes. *)
Lemma cond_signal_threads k s :
  cond_signal k s = s \/ (threads s !! k = Some TWaiting /\ cond_signal k s = set_thread k TWoken s).
Proof. unfold cond_signal. case_decide; auto. Qed.

Lemma no_waiting (l : list pool_thread) (i : nat) t : TWaiting ∉ l -> l !! i = Some t -> awake t = true \/ t = TExited.
Proof. intros H Hi. assert (t <> TWaiting) by (intros ->; by apply H; eapply list_elem_of_lookup_2). destruct t; auto; done. Qed.

Lemma no_waiting_attended (l : list pool_thread) : TWaiting ∉ l -> attended l.
Proof.
  intros H. destruct (decide (Forall (fun t => t = TExited) l)) as [?|Hn]; [by right|]. left.
  apply not_Forall_Exists, list.Exists_exists in Hn; [|intros ?; apply _]. destruct Hn as (t & Ht & Hne).
  apply list_elem_of_lookup in Ht as [i Hi]. exists i, t. split; [done|]. by destruct (no_waiting l i t H Hi).
Qed.

(** After a signal, or without an idle thread, someone attends to the queue. *)
Lemma signal_attended k s :
  idle_threads s = Z.of_nat (tsum is_idle (threads s)) -> pick_ok k s ->
  attended (threads (if 0 <? idle_threads s then cond_signal k s else s)).
Proof.
  intros Hi Hk. destruct (Z.ltb_spec 0 (idle_threads s)).
  - destruct Hk as [Hk|Hk].
    + unfold cond_signal. rewrite decide_True by done. cbn [threads set_thread]. by eapply attended_set.
    + unfold cond_signal. case_decide; [exfalso; by apply Hk; eapply list_elem_of_lookup_2|]. by apply no_waiting_attended.
  - apply no_waiting_attended. intros [i Ht]%list_elem_of_lookup.
    pose proof (tsum_zero is_idle (threads s) i _ ltac:(lia) Ht). done.
Qed.

Lemma bind_insert l i t t' :
  l !! i = Some t -> exists R, (l ≫= thread_tag) ≡ₚ thread_tag t ++ R /\ ((<[i := t']> l) ≫= thread_tag) ≡ₚ thread_tag t' ++ R.
Proof.
  intros H. exists ((take i l ≫= thread_tag) ++ (drop (S i) l ≫= thread_tag)).
  rewrite <- (take_drop_middle l i t H) at 1. rewrite insert_take_drop by (by eapply lookup_lt_Some).
  rewrite !bind_app, !bind_cons. split; solve_Permutation.
Qed.

(** A thread changes without a request changing its stage. *)
Lemma tagged_thread s i t t' : threads s !! i = Some t -> thread_tag t' = thread_tag t -> tagged (set_thread i t' s) ≡ₚ tagged s.
Proof.
  intros H E. destruct (bind_insert (threads s) i t t' H) as (R & H1 & H2). unfold tagged, local_wq. cbn.
  by rewrite H1, H2, E.
Qed.

(** A thread takes over or gives away a request: the others stay. *)
Lemma tagged_split s i t : threads s !! i = Some t ->
  exists R, tagged s ≡ₚ thread_tag t ++ R /\ forall t', tagged (set_thread i t' s) ≡ₚ thread_tag t' ++ R.
Proof.
  intros H. exists ((wq s ≫= node_tag) ++ ((fun w => (w, GQueued)) <$> slow_io_pending_wq s) ++
    ((take i (threads s) ≫= thread_tag) ++ (drop (S i) (threads s) ≫= thread_tag)) ++
    ((fun w => (w, GBack)) <$> (loop_wq s ++ local_wq s)) ++ ((fun w => (w, GCancelling)) <$> option_list (cancelling s))).
  unfold tagged, local_wq. cbn. split.
  - rewrite <- (take_drop_middle (threads s) i t H) at 1. rewrite !bind_app, !bind_cons. solve_Permutation.
  - intros t'. rewrite insert_take_drop by (by eapply lookup_lt_Some). rewrite !bind_app, !bind_cons. solve_Permutation.
Qed.

Lemma elem_insert_other {A} (l : list A) i x y z : l !! i = Some x -> z ∈ <[i := y]> l -> z <> y -> z ∈ l.
Proof.
  intros Hi Hz Hne. apply list_elem_of_lookup in Hz as [j Hj]. destruct (decide (j = i)) as [->|].
  - rewrite list_lookup_insert_eq in Hj by (by eapply lookup_lt_Some). by simplify_eq.
  - rewrite list_lookup_insert_ne in Hj by done. by eapply list_elem_of_lookup_2.
Qed.

Lemma attended_insert l i t t' : attended l -> l !! i = Some t -> awake t = false -> t <> TExited -> attended (<[i := t']> l).
Proof.
  intros [(j & u & Hj & Hu)|Hf] Hi Ht Hx.
  - left. exists j, u. rewrite list_lookup_insert_ne; [done|]. intros ->. congruence.
  - rewrite list.Forall_forall in Hf. exfalso. apply Hx, Hf. by eapply list_elem_of_lookup_2.
Qed.

(** A waiting thread wakes. *)
Lemma ctl_wake k s : ctl s -> threads s !! k = Some TWaiting -> ctl (set_thread k TWoken s).
Proof.
  intros [H1 H2 H3 H4 H5 H6 H7 H8 H9] Hk.
  constructor; cbn [idle_threads slow_io_work_running threads wq slow_io_pending_wq loop_wq wq_async main set_thread]; try done.
  - generalize (tsum_insert is_idle (threads s) k _ TWoken Hk). cbn. lia.
  - generalize (tsum_insert is_slow (threads s) k _ TWoken Hk). cbn. lia.
  - unfold slow_work_thread_threshold in *. cbn. by rewrite length_insert.
  - intros Hx. apply H6. by eapply elem_insert_other.
  - intros _. by eapply attended_set.
  - by rewrite <- length_zero_iff_nil, length_insert, length_zero_iff_nil.
Qed.

Lemma ctl_signal k s : ctl s -> ctl (cond_signal k s).
Proof. intros C. unfold cond_signal. case_decide; [by apply ctl_wake|done]. Qed.

Lemma tagged_signal k s : tagged (cond_signal k s) ≡ₚ tagged s.
Proof. unfold cond_signal. case_decide; [by eapply tagged_thread|done]. Qed.

(** A message is posted. *)
Lemma ctl_post q k s :
  ctl s -> pick_ok k s -> (slow_count (wq s ++ [q]) <= 1)%nat -> ctl (post q k s).
Proof.
  intros C Hk Hq. pose proof (signal_attended k (set_wq (wq s ++ [q]) s) (c_idle _ C) Hk) as Ha.
  destruct C as [H1 H2 H3 H4 H5 H6 H7 H8 H9].
  assert (Hmid : attended (threads s) -> ctl (set_wq (wq s ++ [q]) s)).
  { intros Ha'. constructor; cbn [idle_threads slow_io_work_running threads wq slow_io_pending_wq loop_wq wq_async main set_wq]; try done.
    - intros Hs. apply elem_of_app. left. by apply H5.
    - intros Hx. specialize (H6 Hx). by destruct (wq s). }
  unfold post. cbv zeta. cbn [idle_threads set_wq] in *. destruct (Z.ltb_spec 0 (idle_threads s)); [|by apply Hmid].
  unfold cond_signal in *. cbn [threads set_wq] in *. case_decide as Ek; [|by apply Hmid].
  constructor; cbn [idle_threads slow_io_work_running threads wq slow_io_pending_wq loop_wq wq_async main set_wq set_thread] in *; try done.
  - generalize (tsum_insert is_idle (threads s) k _ TWoken Ek). cbn. lia.
  - generalize (tsum_insert is_slow (threads s) k _ TWoken Ek). cbn. lia.
  - unfold slow_work_thread_threshold in *. cbn. by rewrite length_insert.
  - intros Hs. apply elem_of_app. left. by apply H5.
  - intros Hx. assert (Hx' : TExited ∈ threads s) by (by eapply elem_insert_other). specialize (H6 Hx'). by destruct (wq s).
  - by rewrite <- length_zero_iff_nil, length_insert, length_zero_iff_nil.
Qed.

Lemma tagged_post q k s : tagged (post q k s) ≡ₚ node_tag q ++ tagged s.
Proof.
  assert (E : tagged (set_wq (wq s ++ [q]) s) ≡ₚ node_tag q ++ tagged s).
  { unfold tagged, local_wq. cbn. rewrite bind_app. cbn. rewrite app_nil_r. solve_Permutation. }
  unfold post. cbv zeta. case_match; [by rewrite tagged_signal|done].
Qed.

(** *** The critical section of a worker *)

Ltac pool_cbn := cbn [wq slow_io_pending_wq idle_threads slow_io_work_running threads w_work loop_wq wq_async main cancelling
  submitted ran dones set_wq set_slow_q set_idle set_running set_thread set_work set_loop_wq set_async set_main set_cancelling
  set_submitted set_ran set_dones].

(** Weights that every step of the pool's own threads decreases: a request costs less with
    every stage, and a thread that is awake more than one that waits. *)
Definition thread_weight (t : pool_thread) : nat :=
  match t with TExited => 0 | TWaiting => 2 | TStart | TWoken | TRelock _ => 3 | TFinish _ _ => 9 | TRun _ _ => 10 end.
Definition main_weight (m : loop_thread) : nat := match m with MIdle => 0 | MMove => 2 | MDone l => 1 + length l end.
Definition measure (s : pool) : nat :=
  9 * length (wq s ≫= node_tag) + 9 * length (slow_io_pending_wq s) + tsum thread_weight (threads s) +
  2 * length (loop_wq s) + (if wq_async s then 3 else 0) + main_weight (main s) + 6 * length (option_list (cancelling s)).

(** Nothing changes for the requests. *)
Record same_jobs (s s' : pool) : Prop := {
  sj_work : w_work s' = w_work s; sj_sub : submitted s' = submitted s; sj_ran : ran s' = ran s; sj_dones : dones s' = dones s;
  sj_tagged : tagged s' ≡ₚ tagged s }.

Lemma same_jobs_ok s s' : same_jobs s s' -> jobs_ok s -> jobs_ok s'.
Proof. intros [E1 E2 E3 E4 E5] J. unfold jobs_ok. rewrite E1, E2, E3, E4. by eapply jobs_proper. Qed.

Lemma same_jobs_trans s1 s2 s3 : same_jobs s1 s2 -> same_jobs s2 s3 -> same_jobs s1 s3.
Proof. intros [E1 E2 E3 E4 E5] [F1 F2 F3 F4 F5]. constructor; try congruence. by rewrite F5. Qed.

Definition section_ok (s s' : pool) : Prop := ctl s' /\ same_jobs s s' /\ (measure s' < measure s)%nat.

Lemma measure_signal k s : (measure (cond_signal k s) <= measure s + 1)%nat.
Proof.
  unfold cond_signal. case_decide as H; [|lia]. unfold measure. pool_cbn.
  generalize (tsum_insert thread_weight (threads s) k _ TWoken H). cbn. lia.
Qed.

Lemma measure_thread s i t t' : threads s !! i = Some t ->
  (measure (set_thread i t' s) + thread_weight t = measure s + thread_weight t')%nat.
Proof. intros H. unfold measure. pool_cbn. generalize (tsum_insert thread_weight (threads s) i _ t' H). lia. Qed.

(** The thread waits. *)
Lemma section_wait i s :
  ctl s -> threads s !! i = Some TStart -> must_wait s = true ->
  section_ok s (set_thread i TWaiting (set_idle (idle_threads s + 1) s)).
Proof.
  intros [H1 H2 H3 H4 H5 H6 H7 H8 H9] Hi Hw. split_and!.
  - constructor; pool_cbn; try done.
    + generalize (tsum_insert is_idle (threads s) i _ TWaiting Hi). cbn. lia.
    + generalize (tsum_insert is_slow (threads s) i _ TWaiting Hi). cbn. lia.
    + unfold slow_work_thread_threshold in *. pool_cbn. by rewrite length_insert.
    + intros Hx. apply H6. by eapply elem_insert_other.
    + intros Hne. unfold must_wait in Hw. destruct (wq s) as [|[] []]; try done. reflect_bools.
      pose proof (threshold_pos s H9). destruct (tsum_pos is_slow (threads s)) as (j & t & Hj & Ht); [lia|].
      left. exists j, t. rewrite list_lookup_insert_ne; [split; [done|]|]; [by destruct t; cbn in Ht; try lia|].
      intros ->. rewrite Hi in Hj. simplify_eq. cbn in Ht. lia.
    + by rewrite <- length_zero_iff_nil, length_insert, length_zero_iff_nil.
  - constructor; try done. by apply (tagged_thread (set_idle (idle_threads s + 1) s) i TStart).
  - generalize (measure_thread (set_idle (idle_threads s + 1) s) i _ TWaiting Hi). unfold measure. pool_cbn. cbn [thread_weight]. lia.
Qed.

(** The thread leaves and passes the signal on. *)
Lemma section_exit i k s q :
  ctl s -> threads s !! i = Some TStart -> pick_ok k s -> wq s = QExit :: q ->
  section_ok s (set_thread i TExited (cond_signal k s)).
Proof.
  intros C Hi Hk Hq. pose proof (ctl_signal k s C) as [H1 H2 H3 H4 H5 H6 H7 H8 H9].
  assert (Hi' : threads (cond_signal k s) !! i = Some TStart).
  { unfold cond_signal. case_decide as E; [|done]. pool_cbn. rewrite list_lookup_insert_ne; [done|]. intros ->. congruence. }
  assert (Ewq : wq (cond_signal k s) = QExit :: q) by (unfold cond_signal; by case_decide). split_and!.
  - constructor; pool_cbn; try done.
    + generalize (tsum_insert is_idle _ i _ TExited Hi'). cbn. lia.
    + generalize (tsum_insert is_slow _ i _ TExited Hi'). cbn. lia.
    + unfold slow_work_thread_threshold in *. pool_cbn. by rewrite length_insert.
    + intros _. by rewrite Ewq.
    + intros _. destruct Hk as [Hk|Hk].
      * left. exists k, TWoken. unfold cond_signal. rewrite decide_True by done. pool_cbn.
        assert (i <> k) by (intros ->; congruence). rewrite list_lookup_insert_ne by done.
        by rewrite list_lookup_insert_eq by (by eapply lookup_lt_Some).
      * apply no_waiting_attended. unfold cond_signal. rewrite decide_False by (intros E; by apply Hk; eapply list_elem_of_lookup_2).
        intros Hx. apply Hk. by eapply elem_insert_other.
    + by rewrite <- length_zero_iff_nil, length_insert, length_zero_iff_nil.
  - constructor; try (unfold cond_signal; by case_decide). rewrite <- (tagged_signal k s). by apply (tagged_thread (cond_signal k s) i TStart).
  - generalize (measure_thread (cond_signal k s) i _ TExited Hi') (measure_signal k s). cbn. lia.
Qed.

(** The thread takes a request. *)
Lemma section_take i s w q :
  ctl s -> threads s !! i = Some TStart -> wq s = QWork w :: q -> section_ok s (set_thread i (TRun w false) (set_wq q s)).
Proof.
  intros [H1 H2 H3 H4 H5 H6 H7 H8 H9] Hi Hq. rewrite Hq in *. split_and!.
  - constructor; pool_cbn; try done.
    + generalize (tsum_insert is_idle _ i _ (TRun w false) Hi). cbn. lia.
    + generalize (tsum_insert is_slow _ i _ (TRun w false) Hi). cbn. lia.
    + unfold slow_work_thread_threshold in *. pool_cbn. by rewrite length_insert.
    + intros Hs. specialize (H5 Hs). by apply elem_of_cons in H5 as [?|?].
    + intros Hx. assert (Hx' : TExited ∈ threads s) by (by eapply elem_insert_other). by specialize (H6 Hx').
    + intros _. by eapply attended_set.
    + by rewrite <- length_zero_iff_nil, length_insert, length_zero_iff_nil.
  - constructor; try done. destruct (bind_insert (threads s) i _ (TRun w false) Hi) as (R & E1 & E2).
    unfold tagged, local_wq. pool_cbn. rewrite E1, E2, Hq, bind_cons. cbn. solve_Permutation.
  - generalize (measure_thread (set_wq q s) i _ (TRun w false) Hi). unfold measure. pool_cbn. rewrite Hq, bind_cons. cbn [thread_weight node_tag app length]. lia.
Qed.

(** The queue changes while the thread holds the mutex and no thread has left. *)
Lemma ctl_set_wq i s q q' :
  ctl s -> threads s !! i = Some TStart -> wq s = QSlow :: q ->
  (slow_count q' <= 1)%nat -> (slow_io_pending_wq s <> [] -> QSlow ∈ q') -> ctl (set_wq q' s).
Proof.
  intros [H1 H2 H3 H4 H5 H6 H7 H8 H9] Hi Hq H1' Hs. constructor; pool_cbn; try done.
  - intros Hx. specialize (H6 Hx). by rewrite Hq in H6.
  - intros _. left. by exists i, TStart.
Qed.

Lemma slow_tail_none q : (slow_count (QSlow :: q) <= 1)%nat -> QSlow ∉ q.
Proof. intros H Hin. by apply (slow_count_tail QSlow q H Hin). Qed.

Lemma post_set_thread i t q k s :
  threads s !! i = Some TStart -> t <> TWaiting -> set_thread i t (post q k s) = post q k (set_thread i t s).
Proof.
  intros Hi Ht. unfold post. cbv zeta. pool_cbn. case_match; [|done]. unfold cond_signal. pool_cbn.
  destruct (decide (k = i)) as [->|Hne].
  - rewrite list_lookup_insert_eq by (by eapply lookup_lt_Some). rewrite !decide_False by congruence. done.
  - rewrite list_lookup_insert_ne by done. case_decide; [|done]. unfold set_thread. pool_cbn. by rewrite (list_insert_insert_ne _ i k) by done.
Qed.

Lemma post_set_slow p q k s : set_slow_q p (post q k s) = post q k (set_slow_q p s).
Proof. unfold post. cbv zeta. pool_cbn. case_match; [|done]. unfold cond_signal. pool_cbn. by case_decide. Qed.

Lemma post_fields q k s :
  wq (post q k s) = wq s ++ [q] /\ slow_io_pending_wq (post q k s) = slow_io_pending_wq s /\ w_work (post q k s) = w_work s /\
  submitted (post q k s) = submitted s /\ ran (post q k s) = ran s /\ dones (post q k s) = dones s.
Proof. unfold post. cbv zeta. case_match; [|done]. unfold cond_signal. by case_decide. Qed.

Lemma ctl_set_slow p s : ctl s -> (p <> [] -> QSlow ∈ wq s) -> ctl (set_slow_q p s).
Proof. intros [H1 H2 H3 H4 H5 H6 H7 H8 H9] Hp. by constructor. Qed.

Lemma tagged_set_slow p s : slow_io_pending_wq s = [] -> tagged (set_slow_q p s) ≡ₚ ((fun w => (w, GQueued)) <$> p) ++ tagged s.
Proof. intros E. unfold tagged, local_wq. pool_cbn. rewrite E. cbn. solve_Permutation. Qed.

Lemma measure_post q k s : (measure (post q k s) <= measure s + 9 * length (node_tag q) + 1)%nat.
Proof.
  assert (E : measure (set_wq (wq s ++ [q]) s) = (measure s + 9 * length (node_tag q))%nat).
  { unfold measure. pool_cbn. rewrite bind_app, length_app. cbn. rewrite app_nil_r. lia. }
  unfold post. cbv zeta. case_match; [generalize (measure_signal k (set_wq (wq s ++ [q]) s))|]; lia.
Qed.

(** The thread takes a slow request: the message goes back when more of them wait. *)
Lemma section_slow i k s q w p :
  ctl s -> threads s !! i = Some TStart -> pick_ok k s -> wq s = QSlow :: q ->
  slow_io_work_running s < slow_work_thread_threshold s -> slow_io_pending_wq s = w :: p ->
  let s1 := set_slow_q p (set_running (slow_io_work_running s + 1) (set_wq q s)) in
  let s2 := match p with [] => s1 | _ => post QSlow k s1 end in
  section_ok s (set_thread i (TRun w true) s2).
Proof.
  intros [H1 H2 H3 H4 H5 H6 H7 H8 H9] Hi Hk Hq Hlt Hp. rewrite Hq in *. pose proof (slow_tail_none q H4) as Hns. pose proof (slow_count_zero q Hns) as Hz.
  set (s0 := set_thread i (TRun w true) (set_slow_q [] (set_running (slow_io_work_running s + 1) (set_wq q s)))).
  assert (C0 : ctl s0).
  { subst s0. constructor; pool_cbn; try done.
    - generalize (tsum_insert is_idle _ i _ (TRun w true) Hi). cbn. lia.
    - generalize (tsum_insert is_slow _ i _ (TRun w true) Hi). cbn. lia.
    - unfold slow_work_thread_threshold in *. pool_cbn. rewrite length_insert. lia.
    - lia.
    - intros Hx. assert (Hx' : TExited ∈ threads s) by (by eapply elem_insert_other). by specialize (H6 Hx').
    - intros _. by eapply attended_set.
    - by rewrite <- length_zero_iff_nil, length_insert, length_zero_iff_nil. }
  assert (Hk0 : pick_ok k s0).
  { destruct Hk as [Hk|Hk]; [left|right]; subst s0; pool_cbn.
    - rewrite list_lookup_insert_ne; [done|]. intros ->. congruence.
    - intros Hx. apply Hk. by eapply elem_insert_other. }
  assert (T0 : tagged s ≡ₚ ((fun w => (w, GQueued)) <$> p) ++ tagged s0).
  { destruct (bind_insert (threads s) i _ (TRun w true) Hi) as (R & E1 & E2).
    subst s0. unfold tagged, local_wq. pool_cbn. rewrite E1, E2, Hq, Hp, bind_cons. cbn. solve_Permutation. }
  assert (M0 : (measure s0 + 2 + 9 * length p = measure s)%nat).
  { generalize (measure_thread s i _ (TRun w true) Hi). subst s0. unfold measure. pool_cbn. rewrite Hq, Hp, bind_cons.
    cbn [thread_weight node_tag app length]. lia. }
  cbv zeta. destruct p as [|w' p].
  - split_and!; [done|constructor; try done; by rewrite T0|cbn [length] in M0; fold s0; lia].
  - set (p' := w' :: p) in *.
    assert (E : set_thread i (TRun w true) (post QSlow k (set_slow_q p' (set_running (slow_io_work_running s + 1) (set_wq q s)))) =
      set_slow_q p' (post QSlow k s0)).
    { rewrite post_set_thread, post_set_slow by done. done. }
    rewrite E. destruct (post_fields QSlow k s0) as (F1 & F2 & F3 & F4 & F5 & F6).
    assert (C1 : ctl (post QSlow k s0)).
    { apply ctl_post; try done. subst s0. pool_cbn. rewrite slow_count_app, Hz. change (slow_count [QSlow]) with 1%nat. lia. }
    split_and!.
    + apply ctl_set_slow; [done|]. intros _. rewrite F1. apply elem_of_app. right. by left.
    + constructor; pool_cbn; rewrite ?F3, ?F4, ?F5, ?F6; try done. rewrite tagged_set_slow by (by rewrite F2).
      by rewrite tagged_post, T0.
    + assert (measure (set_slow_q p' (post QSlow k s0)) = (measure (post QSlow k s0) + 9 * length p')%nat).
      { unfold measure. pool_cbn. rewrite F2. subst s0. pool_cbn. cbn [length]. lia. }
      generalize (measure_post QSlow k s0). cbn [node_tag length]. lia.
Qed.

(** One look at the queue is enough when the message is not at its head. *)
Lemma worker_loop_plain fuel i k s :
  ctl s -> threads s !! i = Some TStart -> pick_ok k s -> head (wq s) <> Some QSlow \/ must_wait s = true ->
  exists s', worker_loop (S fuel) i k s = Ret s' /\ section_ok s s'.
Proof.
  intros C Hi Hk Hh. cbn [worker_loop]. destruct (must_wait s) eqn:Ew.
  { eexists. split; [done|]. by apply section_wait. }
  destruct Hh as [Hh|?]; [|done]. destruct (wq s) as [|[w| |] q] eqn:Eq.
  - unfold must_wait in Ew. by rewrite Eq in Ew.
  - eexists. split; [done|]. by apply section_take.
  - eexists. split; [done|]. by eapply section_exit.
  - done.
Qed.

Lemma section_ok_wq s q s' : same_jobs s (set_wq q s) -> measure (set_wq q s) = measure s -> section_ok (set_wq q s) s' -> section_ok s s'.
Proof. intros E M (H1 & H2 & H3). split_and!; [done|by eapply same_jobs_trans|lia]. Qed.

Lemma worker_loop_ok i k s :
  ctl s -> threads s !! i = Some TStart -> pick_ok k s ->
  exists s', worker_loop 3 i k s = Ret s' /\ section_ok s s'.
Proof.
  intros C Hi Hk. destruct (decide (head (wq s) <> Some QSlow \/ must_wait s = true)) as [?|Hn]; [by apply worker_loop_plain|].
  apply Decidable.not_or in Hn as [Hh Ew]. apply dec_stable in Hh. destruct (wq s) as [|? q] eqn:Eq; [done|]. cbn in Hh. simplify_eq.
  apply not_true_is_false in Ew. pose proof (c_one _ C) as H1. rewrite Eq in H1. pose proof (slow_tail_none q H1) as Hns.
  assert (Hsame : forall q', (q' ≫= node_tag) ≡ₚ (q ≫= node_tag) -> same_jobs s (set_wq q' s) /\ measure (set_wq q' s) = measure s).
  { intros q' E. split.
    - constructor; try done. unfold tagged, local_wq. pool_cbn. by rewrite Eq, bind_cons, E.
    - unfold measure. pool_cbn. by rewrite Eq, bind_cons, E. }
  change (worker_loop 3 i k s) with (worker_loop (S (S (S 0))) i k s). cbn [worker_loop]. fold worker_loop. rewrite Ew, Eq.
  destruct (Z.leb_spec (slow_work_thread_threshold s) (slow_io_work_running s)) as [Hle|Hlt].
  - destruct (Hsame (q ++ [QSlow])) as [E M]; [rewrite bind_app; cbn; by rewrite app_nil_r|].
    assert (Hq : q <> []). { intros ->. unfold must_wait in Ew. rewrite Eq in Ew. reflect_bools. lia. }
    destruct (worker_loop_plain 1 i k (set_wq (q ++ [QSlow]) s)) as (s' & Hs & Hok); pool_cbn; try done.
    + eapply ctl_set_wq; try done.
      * rewrite slow_count_app, (slow_count_zero q Hns). change (slow_count [QSlow]) with 1%nat. lia.
      * intros _. apply elem_of_app. right. by left.
    + left. destruct q as [|x q]; [done|]. cbn. intros ?. simplify_eq. by apply Hns; left.
    + exists s'. split; [exact Hs|]. by eapply section_ok_wq.
  - destruct (slow_io_pending_wq s) as [|w p] eqn:Ep.
    + destruct (Hsame q) as [E M]; [done|].
      destruct (worker_loop_plain 1 i k (set_wq q s)) as (s' & Hs & Hok); pool_cbn; try done.
      * eapply ctl_set_wq; try done; rewrite (slow_count_zero q Hns); lia.
      * left. destruct q as [|x q]; [done|]. cbn. intros ?. simplify_eq. by apply Hns; left.
      * exists s'. split; [exact Hs|]. by eapply section_ok_wq.
    + eexists. split; [done|]. pose proof (section_slow i k s q w p C Hi Hk Eq Hlt Ep) as H. by destruct p.
Qed.

(** *** Steps of the threads *)

Lemma ctl_enter i s t :
  ctl s -> threads s !! i = Some t -> at_lock t = true ->
  exists s1, worker_enter i s = Ret s1 /\ ctl s1 /\ same_jobs s s1 /\ measure s1 = measure s /\ threads s1 = <[i := TStart]> (threads s).
Proof.
  intros [H1 H2 H3 H4 H5 H6 H7 H8 H9] Hi Ht. unfold worker_enter. rewrite Hi.
  assert (HI := tsum_insert is_idle _ i _ TStart Hi). assert (HS := tsum_insert is_slow _ i _ TStart Hi).
  assert (HM := tsum_insert thread_weight _ i _ TStart Hi).
  assert (Hgoal : forall a b, idle_threads s = a + Z.of_nat (is_idle t) -> slow_io_work_running s = b + Z.of_nat (is_slow t) ->
    thread_tag t = [] -> thread_weight t = 3%nat ->
    let s1 := set_thread i TStart (set_idle a (set_running b s)) in
    ctl s1 /\ same_jobs s s1 /\ measure s1 = measure s /\ threads s1 = <[i := TStart]> (threads s)).
  { intros a b Ha Hb Hg Hw s1. subst s1. split_and!; [..|done].
    - constructor; pool_cbn; try done; [cbn in HI; lia|cbn in HS; lia|..].
      + unfold slow_work_thread_threshold in *. pool_cbn. rewrite length_insert. lia.
      + intros Hx. apply H6. by eapply elem_insert_other.
      + intros _. by eapply attended_set.
      + by rewrite <- length_zero_iff_nil, length_insert, length_zero_iff_nil.
    - constructor; try done. apply (tagged_thread (set_idle a (set_running b s)) i t TStart Hi). by rewrite Hg.
    - unfold measure. pool_cbn. cbn [thread_weight] in HM. lia. }
  destruct t as [| | |w b|w b|b|]; try done.
  - exists s. split; [done|]. split_and!; [by constructor|by constructor|done|]. by rewrite list_insert_id.
  - eexists. split; [done|]. apply (Hgoal (idle_threads s - 1) (slow_io_work_running s)); cbn; done || lia.
  - eexists. split; [done|]. destruct b.
    + apply (Hgoal (idle_threads s) (slow_io_work_running s - 1)); cbn; done || lia.
    + apply (Hgoal (idle_threads s) (slow_io_work_running s)); cbn; done || lia.
Qed.

(** *** Every step *)

(** A step of the pool's threads or of the loop, not of the program. *)
Definition productive (e : pool_event) : bool :=
  match e with CancelFinish | Section_ _ _ | Run _ | Finish _ | AsyncCalled | DoneMove | DoneOne | DoneEnd => true | _ => false end.

Definition pool_inv (s : pool) : Prop := ctl s /\ jobs_ok s.

Definition event_ok (s : pool) (e : pool_event) : Prop :=
  exists s', pool_do e s = Ret s' /\ pool_inv s' /\ (productive e = true -> (measure s' < measure s)%nat /\ submitted s' = submitted s).

(** A thread goes on without locking the mutex. *)
Lemma ctl_thread i s t t' :
  ctl s -> threads s !! i = Some t -> is_idle t' = is_idle t -> is_slow t' = is_slow t -> awake t' = true -> ctl (set_thread i t' s).
Proof.
  intros [H1 H2 H3 H4 H5 H6 H7 H8 H9] Hi E1 E2 Ha. constructor; pool_cbn; try done.
  - generalize (tsum_insert is_idle _ i _ t' Hi). lia.
  - generalize (tsum_insert is_slow _ i _ t' Hi). lia.
  - unfold slow_work_thread_threshold in *. pool_cbn. by rewrite length_insert.
  - intros Hx. apply H6. eapply elem_insert_other; [done|done|]. by intros <-.
  - intros _. by eapply attended_set.
  - by rewrite <- length_zero_iff_nil, length_insert, length_zero_iff_nil.
Qed.

(** The queues of the loop and the records of the requests do not matter to the threads. *)
Lemma ctl_loop s s' :
  ctl s -> wq s' = wq s -> slow_io_pending_wq s' = slow_io_pending_wq s -> idle_threads s' = idle_threads s ->
  slow_io_work_running s' = slow_io_work_running s -> threads s' = threads s ->
  (loop_wq s' <> [] -> wq_async s' = true \/ main s' = MMove) -> ctl s'.
Proof.
  intros [H1 H2 H3 H4 H5 H6 H7 H8 H9] E1 E2 E3 E4 E5 Hb.
  constructor; unfold slow_work_thread_threshold in *; rewrite ?E1, ?E2, ?E3, ?E4, ?E5; try done.
Qed.

Lemma submit_ok s w kind k : pool_inv s -> pool_allowed s (Submit w kind k) -> event_ok s (Submit w kind k).
Proof.
  intros [C J] (_ & Hw & Hk). eexists. split; [done|]. split; [|done]. unfold uv__work_submit.
  set (s1 := set_work w WFn (set_submitted (submitted s ++ [w]) s)).
  assert (C1 : ctl s1) by (apply (ctl_loop s); try done; apply C).
  assert (J1 : forall T, T ≡ₚ (w, GQueued) :: tagged s -> jobs (w_work s1) (submitted s1) (ran s1) (dones s1) T).
  { intros T E. eapply jobs_proper; [symmetry; exact E|]. by apply jobs_submit. }
  assert (Hgo : forall q, node_tag q = [(w, GQueued)] -> slow_count [q] = 0%nat -> pool_inv (post q k s1)).
  { intros q Eq Ez. destruct (post_fields q k s1) as (F1 & F2 & F3 & F4 & F5 & F6). split.
    - apply ctl_post; [done..|]. rewrite slow_count_app, Ez. pose proof (c_one _ C1). lia.
    - unfold jobs_ok. rewrite F3, F4, F5, F6. apply J1. by rewrite tagged_post, Eq. }
  destruct kind; [by apply Hgo|by apply Hgo|]. unfold post_work. cbv zeta. pool_cbn.
  assert (Eslow : forall s', slow_io_pending_wq s' = slow_io_pending_wq s -> tagged s' ≡ₚ tagged s ->
    tagged (set_slow_q (slow_io_pending_wq s ++ [w]) s') ≡ₚ (w, GQueued) :: tagged s).
  { intros s' E1 E2. rewrite <- E2. unfold tagged, local_wq. pool_cbn. rewrite E1, fmap_app. cbn. solve_Permutation. }
  case_decide as Hin.
  - split; [by apply ctl_set_slow|]. apply J1. by apply Eslow.
  - rewrite <- post_set_slow. destruct (post_fields QSlow k s1) as (F1 & F2 & F3 & F4 & F5 & F6). split.
    + apply ctl_set_slow; [|intros _; rewrite F1; apply elem_of_app; right; by left].
      apply ctl_post; [done..|]. rewrite slow_count_app, slow_count_zero by done. change (slow_count [QSlow]) with 1%nat. lia.
    + unfold jobs_ok. pool_cbn. rewrite F3, F4, F5, F6. apply J1. apply Eslow; [by rewrite F2|]. by rewrite tagged_post.
Qed.

(** **** Cancelling *)

Lemma filter_bind_nodes w q :
  filter (fun x => x <> QWork w) q ≫= node_tag = filter (fun x => x.1 <> w) (q ≫= node_tag).
Proof.
  induction q as [|x q IH]; [done|]. rewrite filter_cons, bind_cons, list.filter_app, <- IH. destruct x as [y| |]; cbn [node_tag].
  - rewrite filter_cons. cbn [fst]. destruct (decide (y = w)) as [->|].
    + rewrite !decide_False by naive_solver. done.
    + rewrite !decide_True by naive_solver. done.
  - rewrite decide_True by done. done.
  - rewrite decide_True by done. done.
Qed.

Lemma filter_fmap_tag w g l : (fun x => (x, g)) <$> without w l = filter (fun x : nat * stage => x.1 <> w) ((fun x => (x, g)) <$> l).
Proof.
  induction l as [|x l IH]; [done|]. unfold without in *. rewrite fmap_cons, !filter_cons. cbn [fst]. case_decide; [rewrite fmap_cons|]; by rewrite IH.
Qed.

Lemma filter_none w (T : list (nat * stage)) : w ∉ T.*1 -> filter (fun x => x.1 <> w) T = T.
Proof.
  induction T as [|[x g] T IH]; [done|]. cbn [fmap list_fmap fst]. rewrite not_elem_of_cons. intros [H1 H2].
  rewrite filter_cons_True by (cbn; congruence). by rewrite IH.
Qed.

Lemma filter_pull w g (T : list (nat * stage)) : NoDup T.*1 -> (w, g) ∈ T -> T ≡ₚ (w, g) :: filter (fun x => x.1 <> w) T.
Proof.
  intros Hn [l1 [l2 ->]]%list_elem_of_split. rewrite fmap_app in Hn. cbn in Hn.
  rewrite list.filter_app, filter_cons_False by (cbn; naive_solver).
  apply list.NoDup_app in Hn as (Hn1 & Hn2 & Hn3). apply list.NoDup_cons in Hn3 as [Hn3 _].
  rewrite !filter_none; [solve_Permutation|done|]. intros H. by apply (Hn2 w H); left.
Qed.

Lemma jobs_nodup work sub ran dn T : jobs work sub ran dn T -> NoDup T.*1.
Proof.
  intros J. assert (H : NoDup (T.*1 ++ dn.*1)) by (rewrite (j_perm _ _ _ _ _ J); apply J). by apply list.NoDup_app in H as [? _].
Qed.

(** The requests in the queues, and those of the threads. *)
Definition in_queues (s : pool) : list (nat * stage) :=
  (wq s ≫= node_tag) ++ ((fun w => (w, GQueued)) <$> slow_io_pending_wq s) ++ ((fun w => (w, GBack)) <$> (loop_wq s ++ local_wq s)).

Lemma tagged_queues s : cancelling s = None -> tagged s ≡ₚ in_queues s ++ (threads s ≫= thread_tag).
Proof. intros E. unfold tagged, in_queues. rewrite E. cbn. solve_Permutation. Qed.

Lemma in_queues_unlink w s : in_queues (unlink w s) = filter (fun x => x.1 <> w) (in_queues s).
Proof.
  unfold in_queues, unlink. pool_cbn. rewrite !list.filter_app, filter_bind_nodes, filter_fmap_tag. f_equal. f_equal.
  rewrite <- filter_fmap_tag. f_equal. unfold local_wq, without. pool_cbn. rewrite list.filter_app. by destruct (main s).
Qed.

Lemma linked_tag w s : linked w s = true -> exists g, (w, g) ∈ in_queues s /\ (g = GQueued \/ g = GBack).
Proof.
  unfold linked, in_queues. rewrite bool_decide_eq_true. intros [H|[H|H]].
  - exists GQueued. split; [|auto]. apply elem_of_app. left. apply list_elem_of_bind. exists (QWork w). split; [by left|done].
  - exists GQueued. split; [|auto]. apply elem_of_app. right. apply elem_of_app. left. apply list_elem_of_fmap. by exists w.
  - exists GBack. split; [|auto]. apply elem_of_app. right. apply elem_of_app. right. apply list_elem_of_fmap. exists w.
    split; [done|]. by apply elem_of_app.
Qed.

Lemma ctl_unlink w s : ctl s -> main s <> MMove -> ctl (unlink w s).
Proof.
  intros [H1 H2 H3 H4 H5 H6 H7 H8 H9] Hm. unfold unlink. constructor; pool_cbn; try done.
  - replace (slow_count (filter _ (wq s))) with (slow_count (wq s)); [done|]. unfold slow_count. f_equal.
    clear. induction (wq s) as [|q l IH]; [done|].
    rewrite !filter_cons. repeat case_decide; rewrite ?filter_cons_True, ?filter_cons_False by done; subst; congruence.
  - intros Hs. apply list_elem_of_filter. split; [done|]. apply H5. intros E. apply Hs. by rewrite E.
  - intros Hx. specialize (H6 Hx). destruct (wq s) as [|q l]; [done|]. cbn in H6. simplify_eq. by rewrite filter_cons_True.
  - intros Hne. apply H7. intros E. apply Hne. by rewrite E.
  - intros Hne. left. destruct H8 as [?|?]; [|done..]. intros E. apply Hne. by rewrite E.
Qed.

Lemma cancel_ok s w : pool_inv s -> pool_allowed s (Cancel w) -> event_ok s (Cancel w).
Proof.
  intros [C J] ([Hc Hm] & _ & _). unfold event_ok. cbn [pool_do]. unfold uv__work_cancel.
  destruct (linked w s && _) eqn:E; [|by exists s]. apply andb_true_iff in E as [Hl Hw]. apply bool_decide_eq_true in Hw.
  eexists. split; [done|]. split; [|done]. cbn [snd].
  destruct (linked_tag w s Hl) as (g & Hg & Hgs). unfold jobs_ok in J. pose proof (tagged_queues s Hc) as ET.
  apply (jobs_proper _ _ _ _ _ _ ET) in J. pose proof (jobs_nodup _ _ _ _ _ J) as Hn.
  assert (Hth : w ∉ (threads s ≫= thread_tag).*1).
  { rewrite fmap_app in Hn. apply list.NoDup_app in Hn as (_ & Hn & _). apply Hn, list_elem_of_fmap. by exists (w, g). }
  assert (Hin : (w, g) ∈ in_queues s ++ (threads s ≫= thread_tag)) by (apply elem_of_app; by left).
  pose proof (filter_pull w g _ Hn Hin) as EP. apply (jobs_proper _ _ _ _ _ _ EP) in J.
  split.
  - apply (ctl_loop (unlink w s)); try done; [by apply ctl_unlink|]. apply (ctl_unlink w s C Hm).
  - unfold jobs_ok. eapply (jobs_proper _ _ _ _ ((w, GCancelling) :: filter (fun x => x.1 <> w) (in_queues s ++ (threads s ≫= thread_tag)))).
    + rewrite list.filter_app, (filter_none w (threads s ≫= thread_tag)), <- in_queues_unlink by done.
      unfold tagged, in_queues, unlink, local_wq. pool_cbn. cbn. solve_Permutation.
    + apply (jobs_move (w_work s) (w_work s) _ (ran s) _ _ w g); try done; [by left|].
      pose proof (j_stage _ _ _ _ _ J) as [Hs _]%list.Forall_cons. unfold stage_ok in *. cbn [fst snd] in *.
      destruct Hgs as [->| ->]; naive_solver.
Qed.

Lemma cancel_finish_ok s : pool_inv s -> pool_allowed s CancelFinish -> event_ok s CancelFinish.
Proof.
  intros [C J] Hc. cbn in Hc. unfold event_ok. cbn [pool_do]. unfold cancel_finish. destruct (cancelling s) as [w|] eqn:Ec; [|done].
  eexists. split; [done|]. split; [split|].
  - apply (ctl_loop s); try done. by left.
  - unfold jobs_ok in *. pool_cbn.
    set (R := (wq s ≫= node_tag) ++ ((fun w => (w, GQueued)) <$> slow_io_pending_wq s) ++ (threads s ≫= thread_tag) ++
      ((fun w => (w, GBack)) <$> (loop_wq s ++ local_wq s))).
    apply (jobs_proper _ _ _ _ _ ((w, GCancelling) :: R)) in J; [|unfold tagged, R; rewrite Ec; cbn; solve_Permutation].
    eapply (jobs_proper _ _ _ _ ((w, GBack) :: R)); [unfold tagged, R, local_wq; pool_cbn; rewrite !fmap_app; cbn; solve_Permutation|].
    pose proof (j_stage _ _ _ _ _ J) as [Hs _]%list.Forall_cons.
    eapply jobs_move; [exact J| |by left|]; [intros x Hx; by rewrite lookup_insert_ne|].
    unfold stage_ok in *. cbn [fst snd] in *. right. rewrite lookup_insert_eq. naive_solver.
  - intros _. split; [|done]. unfold measure. pool_cbn. rewrite Ec, length_app. change (length (option_list (@None nat))) with 0%nat. change (length (option_list (Some w))) with 1%nat. cbn [length]. destruct (wq_async s); lia.
Qed.

(** **** Threads and the loop *)

Lemma section_event_ok s i k : pool_inv s -> pool_allowed s (Section_ i k) -> event_ok s (Section_ i k).
Proof.
  intros [C J] [(t & Hi & Ht) Hk]. unfold event_ok. cbn [pool_do]. unfold worker_section.
  destruct (ctl_enter i s t C Hi Ht) as (s1 & -> & C1 & S1 & M1 & T1). cbn [mbind outcome_bind].
  destruct (worker_loop_ok i k s1 C1) as (s2 & -> & C2 & S2 & M2).
  - rewrite T1, list_lookup_insert_eq by (by eapply lookup_lt_Some). done.
  - unfold pick_ok. rewrite T1. destruct Hk as [Hk|Hk].
    + left. rewrite list_lookup_insert_ne; [done|]. intros ->. rewrite Hk in Hi. by simplify_eq.
    + right. intros Hx. apply Hk. by eapply elem_insert_other.
  - exists s2. split; [done|]. pose proof (same_jobs_trans _ _ _ S1 S2) as S.
    split; [split; [done|by eapply same_jobs_ok]|]. intros _. split; [lia|apply S].
Qed.

Lemma run_ok s i : pool_inv s -> pool_allowed s (Run i) -> event_ok s (Run i).
Proof.
  intros [C J] (w & slow & Hi). unfold event_ok. cbn [pool_do]. unfold worker_run. rewrite Hi.
  destruct (tagged_split s i _ Hi) as (R & E1 & E2). unfold jobs_ok in J. apply (jobs_proper _ _ _ _ _ _ E1) in J. cbn in J.
  pose proof (j_stage _ _ _ _ _ J) as [[Hw Hr] _]%list.Forall_cons. cbn in Hw, Hr. rewrite Hw.
  eexists. split; [done|]. split; [split|].
  - apply (ctl_loop (set_thread i (TFinish w slow) s)); try done; [by eapply ctl_thread|]. apply C.
  - unfold jobs_ok. pool_cbn. eapply jobs_proper; [symmetry; apply (E2 (TFinish w slow))|]. cbn.
    eapply jobs_move; [exact J|done|by right|]. unfold stage_ok. cbn. split; [done|]. set_solver.
  - intros _. split; [|done]. generalize (measure_thread s i _ (TFinish w slow) Hi). unfold measure. pool_cbn. cbn [thread_weight]. lia.
Qed.

Lemma finish_ok s i : pool_inv s -> pool_allowed s (Finish i) -> event_ok s (Finish i).
Proof.
  intros [C J] (w & slow & Hi). unfold event_ok. cbn [pool_do]. unfold worker_finish. rewrite Hi.
  destruct (tagged_split s i _ Hi) as (R & E1 & E2). unfold jobs_ok in J. apply (jobs_proper _ _ _ _ _ _ E1) in J. cbn in J.
  pose proof (j_stage _ _ _ _ _ J) as [[Hw Hr] _]%list.Forall_cons. cbn in Hw, Hr.
  eexists. split; [done|]. split; [split|].
  - apply (ctl_loop (set_thread i (TRelock slow) s)); try done; [by eapply ctl_thread|]. by left.
  - unfold jobs_ok. pool_cbn. eapply (jobs_proper _ _ _ _ ((w, GBack) :: R)).
    + specialize (E2 (TRelock slow)). cbn in E2. rewrite <- E2. unfold tagged, local_wq. pool_cbn. rewrite !fmap_app. cbn. solve_Permutation.
    + eapply jobs_move; [exact J| |by left|]; [intros x Hx; by rewrite lookup_insert_ne|].
      left. cbn. by rewrite lookup_insert_eq.
  - intros _. split; [|done]. generalize (measure_thread s i _ (TRelock slow) Hi). unfold measure. pool_cbn. rewrite length_app. cbn [thread_weight length].
    destruct (wq_async s); lia.
Qed.

Lemma loop_event_ok s e :
  pool_inv s -> pool_allowed s e -> match e with AsyncCalled | DoneMove | DoneOne | DoneEnd | Spurious _ | PostExit _ => True | _ => False end ->
  event_ok s e.
Proof.
  intros [C J] Ha He. destruct e as [| | | | | |i| | | | |k]; try done; clear He; unfold event_ok; cbn [pool_do pool_allowed] in *.
  - eexists. split; [done|]. split; [split; [by apply ctl_wake|]|done]. eapply same_jobs_ok; [|done].
    constructor; try done. by eapply tagged_thread.
  - destruct Ha as (_ & Hm & Hb). eexists. split; [done|]. split; [split|].
    + apply (ctl_loop s); try done. by right.
    + eapply same_jobs_ok; [|done]. constructor; try done. unfold tagged, local_wq. pool_cbn. by rewrite Hm.
    + intros _. split; [|done]. unfold measure, async_called. pool_cbn. rewrite Hb, Hm. cbn [main_weight]. lia.
  - eexists. split; [done|]. split; [split|].
    + apply (ctl_loop s); done.
    + eapply same_jobs_ok; [|done]. constructor; try done. unfold tagged, local_wq. pool_cbn. by rewrite Ha, app_nil_r.
    + intros _. split; [|done]. unfold measure, work_done_move. pool_cbn. rewrite Ha. cbn [main_weight length]. lia.
  - destruct Ha as (_ & w & l & Hm). unfold work_done_one. rewrite Hm. unfold jobs_ok in J.
    set (s1 := set_main (MDone l) s).
    assert (E : tagged s ≡ₚ (w, GBack) :: tagged s1).
    { unfold tagged, local_wq, s1. pool_cbn. rewrite Hm, !fmap_app. cbn. solve_Permutation. }
    apply (jobs_proper _ _ _ _ _ _ E) in J. pose proof (j_stage _ _ _ _ _ J) as [Hs _]%list.Forall_cons.
    assert (Hf : exists f, w_work s !! w = Some f) by (unfold stage_ok in Hs; cbn in Hs; naive_solver). destruct Hf as [f Hf]. rewrite Hf.
    eexists. split; [done|]. split; [split|].
    + apply (ctl_loop s); try done. pool_cbn. intros Hne. left. destruct (c_bell _ C Hne) as [?|E']; [done|]. by rewrite Hm in E'.
    + unfold jobs_ok. pool_cbn. by apply (jobs_finish _ _ _ _ w f).
    + intros _. split; [|done]. unfold measure. pool_cbn. rewrite Hm. cbn [main_weight length]. lia.
  - destruct Ha as (_ & Hm). eexists. split; [done|]. split; [split|].
    + apply (ctl_loop s); try done. pool_cbn. intros Hne. left. destruct (c_bell _ C Hne) as [?|E']; [done|]. by rewrite Hm in E'.
    + eapply same_jobs_ok; [|done]. constructor; try done. unfold tagged, local_wq. pool_cbn. by rewrite Hm.
    + intros _. split; [|done]. unfold measure. pool_cbn. rewrite Hm. cbn [main_weight length]. lia.
  - destruct Ha as (_ & Hx & Hk). eexists. split; [done|]. split; [split|done].
    + apply ctl_post; [done..|]. rewrite slow_count_app. change (slow_count [QExit]) with 0%nat. pose proof (c_one _ C). lia.
    + destruct (post_fields QExit k s) as (F1 & F2 & F3 & F4 & F5 & F6). eapply same_jobs_ok; [|done].
      constructor; try done. by rewrite tagged_post.
Qed.

Lemma pool_step_ok s e : pool_inv s -> pool_allowed s e -> event_ok s e.
Proof.
  intros I Ha. destruct e; try (by apply loop_event_ok).
  - by apply submit_ok.
  - by apply cancel_ok.
  - by apply cancel_finish_ok.
  - by apply section_event_ok.
  - by apply run_ok.
  - by apply finish_ok.
Qed.

Lemma pool_size_range val m : 1 <= pool_size val m <= MAX_THREADPOOL_SIZE.
Proof.
  unfold pool_size, MAX_THREADPOOL_SIZE. destruct val as [v|]; cbv zeta; [|by destruct m].
  assert (0 <= wrap 32 v) by (unfold wrap; apply Z.mod_pos_bound; lia). generalize dependent (wrap 32 v). intros n Hn.
  destruct (Z.eqb_spec n 0); [by destruct m|]. repeat case_match; reflect_bools; lia.
Qed.

Lemma pool_inv_init val m : pool_inv (init_threads val m).
Proof.
  pose proof (pool_size_range val m) as Hr. unfold init_threads. destruct (Z.to_nat (pool_size val m)) as [|n] eqn:En; [lia|].
  assert (Hz : forall f n, f TStart = 0%nat -> tsum f (replicate n TStart) = 0%nat).
  { intros f k Hf. induction k as [|k IH]; [done|]. unfold tsum in *. cbn. lia. }
  assert (Ht : forall n, replicate n TStart ≫= thread_tag = []) by (intros k; induction k; done).
  split.
  - constructor; pool_cbn; try done.
    + by rewrite Hz.
    + by rewrite Hz.
    + unfold slow_work_thread_threshold. pool_cbn. apply Z.div_pos; lia.
    + cbn. lia.
    + intros [k Hk]%list_elem_of_lookup. apply lookup_replicate in Hk as [? _]. done.
  - unfold jobs_ok, tagged, local_wq. pool_cbn. rewrite Ht. constructor; try done; try constructor; by intros w ?%not_elem_of_nil.
Qed.

Lemma pool_reachable_inv val m s : pool_reachable val m s -> pool_inv s.
Proof.
  induction 1 as [|s s' e _ IH Ha Hd]; [apply pool_inv_init|]. destruct (pool_step_ok s e IH Ha) as (s1 & Hd1 & I1 & _).
  rewrite Hd in Hd1. by simplify_eq.
Qed.

(** ** Part 3: the theorems *)

(** C25. Every request is handled exactly once, in every interleaving of the pool's threads
    with a loop that submits and cancels requests. No work function is called that is NULL or
    [uv__cancelled], no function runs twice and no [done] is called twice; [done] gets 0 just
    when the function ran, and UV_ECANCELED when it never did; and a request submitted is
    either done or in exactly one place: a queue, a thread, or the hands of the canceller. *)
Theorem threadpool_once val malloc_ok s :
  pool_reachable val malloc_ok s ->
  (forall e, pool_allowed s e -> exists s', pool_do e s = Ret s') /\
  NoDup (ran s) /\ NoDup (dones s).*1 /\
  (forall w st, (w, st) ∈ dones s -> (st = 0 /\ w ∈ ran s) \/ (st = UV_ECANCELED /\ w ∉ ran s)) /\
  (tagged s).*1 ++ (dones s).*1 ≡ₚ submitted s /\ NoDup (submitted s).
Proof.
  intros Hr. pose proof (pool_reachable_inv _ _ _ Hr) as I. split_and!.
  - intros e He. destruct (pool_step_ok s e I He) as (s' & Hd & _). eauto.
  - apply I.
  - destruct I as [_ J]. assert (H : NoDup ((tagged s).*1 ++ (dones s).*1)) by (rewrite (j_perm _ _ _ _ _ J); apply J).
    by apply list.NoDup_app in H as (_ & _ & ?).
  - intros w st Hw. destruct I as [_ J]. pose proof (j_done _ _ _ _ _ J) as Hf. rewrite list.Forall_forall in Hf. by apply (Hf (w, st)).
  - apply I.
  - apply I.
Qed.

(** Steps of the pool's threads and of the loop alone. *)
Inductive psteps : nat -> pool -> pool -> Prop :=
| PS_refl s : psteps 0 s s
| PS_step n s s1 s2 e : productive e = true -> pool_allowed s e -> pool_do e s = Ret s1 -> psteps n s1 s2 -> psteps (S n) s s2.

Lemma psteps_bound n s s' : psteps n s s' -> pool_inv s -> pool_inv s' /\ (n + measure s' <= measure s)%nat /\ submitted s' = submitted s.
Proof.
  induction 1 as [s|n s s1 s2 e Hp Ha Hd _ IH]; intros I; [split_and!; try done; lia|].
  destruct (pool_step_ok s e I Ha) as (s1' & Hd' & I1 & Hm). rewrite Hd in Hd'. simplify_eq. destruct (Hm Hp) as [Hm1 Hm2].
  destruct (IH I1) as (I2 & Hb & Hs). split_and!; [done|lia|congruence].
Qed.

Lemma some_pick s : exists k, pick_ok k s.
Proof.
  destruct (decide (TWaiting ∈ threads s)) as [[k Hk]%list_elem_of_lookup|Hn]; [exists k; by left|exists 0%nat; by right].
Qed.

(** A thread that is awake has a step. *)
Lemma awake_step s i t : threads s !! i = Some t -> awake t = true -> exists e, productive e = true /\ pool_allowed s e.
Proof.
  intros Hi Ht. destruct (some_pick s) as [k Hk].
  destruct t as [| | |w b|w b|b|]; try done;
    first [by exists (Section_ i k); split; [done|split; [eauto|done]]
          |by exists (Run i); split; [done|exists w, b]|by exists (Finish i); split; [done|exists w, b]].
Qed.

(** As long as a request is not done someone has a step to make. *)
Lemma pool_progress s : pool_inv s -> (QExit ∉ wq s) -> tagged s <> [] -> exists e, productive e = true /\ pool_allowed s e.
Proof.
  intros [C J] Hx Hne. destruct (cancelling s) as [w|] eqn:Ec.
  { exists CancelFinish. cbn. by rewrite Ec. }
  destruct (main s) as [| |l] eqn:Em.
  2: { by exists DoneMove. }
  2: { destruct l as [|w l]; [by exists DoneEnd|]. exists DoneOne. cbn. eauto. }
  destruct (loop_wq s) as [|w l] eqn:El.
  2: { exists AsyncCalled. cbn. split_and!; try done. destruct (c_bell _ C) as [?|?]; [by rewrite El|done|congruence]. }
  assert (Hq : (exists i t, threads s !! i = Some t /\ awake t = true)); [|destruct Hq as (i & t & ? & ?); by eapply awake_step].
  destruct (decide (wq s = [])) as [Eq|Hq].
  - assert (Es : slow_io_pending_wq s = []).
    { destruct (slow_io_pending_wq s) as [|w p] eqn:Es; [done|]. pose proof (c_sched _ C) as H. rewrite Es, Eq in H. by apply not_elem_of_nil in H. }
    unfold tagged, local_wq in Hne. rewrite Eq, Es, El, Em, Ec in Hne. cbn in Hne. rewrite app_nil_r in Hne.
    destruct (threads s ≫= thread_tag) as [|x T] eqn:ET; [done|].
    assert (Hin : x ∈ threads s ≫= thread_tag) by (rewrite ET; by left).
    apply list_elem_of_bind in Hin as (t & Ht & Hin). apply list_elem_of_lookup in Hin as [i Hi]. exists i, t. split; [done|].
    by destruct t; try (by apply not_elem_of_nil in Ht).
  - destruct (c_awake _ C Hq) as [?|Hf]; [done|]. exfalso. destruct (threads s) as [|t ts] eqn:Et; [by apply (c_some _ C)|].
    apply list.Forall_cons in Hf as [-> _]. pose proof (c_exit _ C) as He. rewrite Et in He. specialize (He ltac:(by left)).
    destruct (wq s); [done|]. cbn in He. simplify_eq. apply Hx. by left.
Qed.

(** C26. The pool never stalls: from any reachable state, whatever the order in which its
    threads and the loop make their steps, they make only a bounded number of them, and
    where they can make no more every request submitted is done, unless the exit message was
    posted. Signals go to any waiting thread, and slow requests that wait for the threshold
    are not forgotten. *)
Theorem threadpool_drains val malloc_ok s n s' :
  pool_reachable val malloc_ok s -> psteps n s s' ->
  (n <= measure s)%nat /\ submitted s' = submitted s /\
  ((QExit ∉ wq s') -> (forall e, productive e = true -> ~ pool_allowed s' e) -> (dones s').*1 ≡ₚ submitted s).
Proof.
  intros Hr Hs. pose proof (pool_reachable_inv _ _ _ Hr) as I. destruct (psteps_bound _ _ _ Hs I) as (I' & Hb & Es).
  split; [lia|]. split; [done|]. intros Hx Hstuck.
  destruct (tagged s') as [|x T] eqn:ET.
  - destruct I' as [_ J]. pose proof (j_perm _ _ _ _ _ J) as P. rewrite ET in P. by rewrite <- Es.
  - destruct (pool_progress s' I' Hx) as (e & He & Ha); [by rewrite ET|]. by destruct (Hstuck e He).
Qed.

(** Slow requests never take more than half of the threads, rounded up, so that a pool of
    two or more always has a thread for other work; the pool's two counters count exactly the
    threads that wait or were woken and those with a slow request; and while the queue is not
    empty some thread is awake to look at it, or all have returned. *)
Theorem threadpool_slow_bounded val malloc_ok s :
  pool_reachable val malloc_ok s ->
  let n := Z.of_nat (length (threads s)) in
  let slow := Z.of_nat (tsum is_slow (threads s)) in
  slow_io_work_running s = slow /\ slow <= (n + 1) / 2 /\ (2 <= n -> slow < n) /\
  idle_threads s = Z.of_nat (tsum is_idle (threads s)) /\ (wq s <> [] -> attended (threads s)).
Proof.
  intros Hr n slow. destruct (pool_reachable_inv _ _ _ Hr) as [[H1 H2 H3 H4 H5 H6 H7 H8 H9] _].
  unfold slow_work_thread_threshold in H3. split_and!; try done; subst n slow; [lia|].
  intros Hn. assert ((Z.of_nat (length (threads s)) + 1) / 2 < Z.of_nat (length (threads s))) by (apply Z.div_lt_upper_bound; lia). lia.
Qed.

Lemma tag_linked w g s : (w, g) ∈ in_queues s -> linked w s = true.
Proof.
  unfold linked, in_queues. rewrite bool_decide_eq_true, !elem_of_app. intros [H|[H|H]].
  - apply list_elem_of_bind in H as (q & Hq & Hin). destruct q as [y| |]; cbn in Hq; [|by apply not_elem_of_nil in Hq..].
    apply list_elem_of_singleton in Hq. simplify_eq. by left.
  - apply list_elem_of_fmap in H as (y & E & Hy). simplify_eq. auto.
  - apply list_elem_of_fmap in H as (y & E & Hy). simplify_eq. apply elem_of_app in Hy. tauto.
Qed.

(** C27. [uv_cancel] succeeds exactly while no thread has taken the request: for a request
    whose [done] was not called it returns 0 when the function has not run and no thread is
    about to run it, and UV_EBUSY, changing nothing, otherwise. *)
Theorem threadpool_cancel_exact val malloc_ok s w :
  pool_reachable val malloc_ok s -> pool_allowed s (Cancel w) ->
  ((uv__work_cancel w s).1 = 0 <-> (w ∉ ran s) /\ forall slow, TRun w slow ∉ threads s) /\
  ((uv__work_cancel w s).1 <> 0 -> uv__work_cancel w s = (UV_EBUSY, s)).
Proof.
  intros Hr ([Hc _] & Hsub & Hnd). destruct (pool_reachable_inv _ _ _ Hr) as [_ J]. unfold jobs_ok in J.
  apply (jobs_proper _ _ _ _ _ _ (tagged_queues s Hc)) in J. pose proof (jobs_nodup _ _ _ _ _ J) as Hn.
  rewrite fmap_app in Hn. apply list.NoDup_app in Hn as (_ & Hn & _).
  assert (Hin : w ∈ ((in_queues s) ++ (threads s ≫= thread_tag)).*1).
  { rewrite <- (j_perm _ _ _ _ _ J) in Hsub. apply elem_of_app in Hsub as [?|?]; done. }
  apply list_elem_of_fmap in Hin as ([w' g] & E & Hin). cbn in E. subst w'.
  pose proof (j_stage _ _ _ _ _ J) as Hst. rewrite list.Forall_forall in Hst. specialize (Hst _ Hin).
  assert (Hth : forall t, thread_tag t = [(w, g)] -> t ∈ threads s -> (w, g) ∈ threads s ≫= thread_tag).
  { intros t Et Ht. apply list_elem_of_bind. exists t. rewrite Et. split; [by left|done]. }
  unfold uv__work_cancel. apply elem_of_app in Hin as [Hin|Hin].
  - rewrite (tag_linked w g s Hin). cbn [andb].
    assert (Hq : w ∉ (threads s ≫= thread_tag).*1) by (apply Hn, list_elem_of_fmap; by exists (w, g)).
    assert (Hno : forall slow, TRun w slow ∉ threads s).
    { intros slow Ht. apply Hq, list_elem_of_fmap. exists (w, GQueued). split; [done|]. apply list_elem_of_bind. exists (TRun w slow). split; [by left|done]. }
    assert (Hg : g = GQueued \/ g = GBack).
    { unfold in_queues in Hin. rewrite !elem_of_app, list_elem_of_bind, !list_elem_of_fmap in Hin. destruct Hin as [(q & Hq' & _)|[(?&?&_)|(?&?&_)]]; simplify_eq; auto.
      destruct q; cbn in Hq'; [apply list_elem_of_singleton in Hq'; simplify_eq; auto|by apply not_elem_of_nil in Hq'..]. }
    unfold stage_ok in Hst. cbn in Hst. case_bool_decide as Hw; cbn [fst]; split; try done.
    + split; [|done]. intros _. split; [|done]. destruct Hg as [->| ->]; naive_solver.
    + split; [done|]. intros [Hr' _]. destruct Hg as [->| ->]; naive_solver congruence.
  - assert (Hl : linked w s = false).
    { destruct (linked w s) eqn:El; [|done]. destruct (linked_tag w s El) as (g' & Hg & _). exfalso.
      apply (Hn w); apply list_elem_of_fmap; [by exists (w, g')|by exists (w, g)]. }
    rewrite Hl. cbn [andb fst]. split; [|done]. split; [done|]. intros [Hr' Hno]. exfalso.
    apply list_elem_of_bind in Hin as (t & Ht & Hint). destruct t as [| | |w' b|w' b|b|]; cbn in Ht; try (by apply not_elem_of_nil in Ht);
      apply list_elem_of_singleton in Ht; simplify_eq; [by apply (Hno b)|]. by destruct Hst.
Qed.

(** *** Runs *)

(** [pool_allowed], computed. *)
Definition main_freeb (s : pool) : bool :=
  match cancelling s with Some _ => false | None => match main s with MMove => false | _ => true end end.
Definition pick_okb (k : nat) (s : pool) : bool :=
  bool_decide (threads s !! k = Some TWaiting) || bool_decide (TWaiting ∉ threads s).
Definition pool_allowedb (s : pool) (e : pool_event) : bool :=
  match e with
  | Submit w _ k => main_freeb s && bool_decide (w ∉ submitted s) && pick_okb k s
  | Cancel w => main_freeb s && bool_decide (w ∈ submitted s) && bool_decide (w ∉ (dones s).*1)
  | CancelFinish => match cancelling s with Some _ => true | None => false end
  | Section_ i k => match threads s !! i with Some t => at_lock t | None => false end && pick_okb k s
  | Run i => match threads s !! i with Some (TRun _ _) => true | _ => false end
  | Finish i => match threads s !! i with Some (TFinish _ _) => true | _ => false end
  | Spurious i => bool_decide (threads s !! i = Some TWaiting)
  | AsyncCalled => match cancelling s, main s with None, MIdle => wq_async s | _, _ => false end
  | DoneMove => match main s with MMove => true | _ => false end
  | DoneOne => match cancelling s, main s with None, MDone (_ :: _) => true | _, _ => false end
  | DoneEnd => match cancelling s, main s with None, MDone [] => true | _, _ => false end
  | PostExit k => main_freeb s && bool_decide (QExit ∉ wq s) && pick_okb k s
  end.

Lemma pool_allowedb_sound s e : pool_allowedb s e = true -> pool_allowed s e.
Proof.
  unfold pool_allowedb, pool_allowed, main_freeb, pick_okb, main_free, pick_ok.
  destruct e; rewrite ?andb_true_iff, ?orb_true_iff, ?bool_decide_eq_true; repeat case_match; naive_solver.
Qed.

Fixpoint tp_run (es : list pool_event) (s : pool) : option pool :=
  match es with
  | [] => Some s
  | e :: es => if pool_allowedb s e then match pool_do e s with Ret s' => tp_run es s' | _ => None end else None
  end.

Lemma tp_run_reachable val m es s s' : pool_reachable val m s -> tp_run es s = Some s' -> pool_reachable val m s'.
Proof.
  revert s. induction es as [|e es IH]; intros s Hr; cbn; [by intros [= <-]|].
  destruct (pool_allowedb s e) eqn:Ea; [|done]. destruct (pool_do e s) as [s1| |] eqn:Ed; try done.
  apply IH. eapply PR_step; [done|by apply pool_allowedb_sound|done].
Qed.

Lemma tp_run_psteps es s s' :
  forallb productive es = true -> tp_run es s = Some s' -> psteps (length es) s s'.
Proof.
  revert s. induction es as [|e es IH]; intros s; cbn; [by intros _ [= <-]; constructor|]. rewrite andb_true_iff. intros [Hp Hps].
  destruct (pool_allowedb s e) eqn:Ea; [|done]. destruct (pool_do e s) as [s1| |] eqn:Ed; try done. intros Hr.
  econstructor; [done|by apply pool_allowedb_sound|done|by apply IH].
Qed.

(** Two threads; a fast request, two slow ones, and one that is cancelled. *)
Definition run_submit : list pool_event :=
  [Section_ 0 0; Section_ 1 0; Submit 10 UV__WORK_FAST_IO 0; Submit 11 UV__WORK_SLOW_IO 1; Submit 12 UV__WORK_SLOW_IO 0;
   Submit 13 UV__WORK_CPU 0; Cancel 13].
Definition run_work : list pool_event :=
  [CancelFinish; Section_ 0 0; Section_ 1 0; Run 1; Run 0; Finish 0; Section_ 0 1; Finish 1; AsyncCalled; DoneMove; DoneOne; DoneOne;
   Section_ 1 0; DoneOne; DoneEnd; Run 1; Finish 1; AsyncCalled; DoneMove; DoneOne; DoneEnd; Section_ 1 0].

Definition run_state (es : list pool_event) : pool := default (init_threads (Some 2) true) (tp_run es (init_threads (Some 2) true)).

Lemma run_state_reachable es : tp_run es (init_threads (Some 2) true) <> None -> pool_reachable (Some 2) true (run_state es).
Proof.
  unfold run_state. destruct (tp_run es _) as [s|] eqn:E; [|done]. intros _. cbn. eapply tp_run_reachable; [apply PR_init|done].
Qed.

Lemma threadpool_once_witness :
  (dones (run_state (run_submit ++ run_work))).*1 = [13; 10; 11; 12]%nat /\ NoDup (ran (run_state (run_submit ++ run_work))).
Proof.
  split; [by vm_compute|].
  apply (threadpool_once (Some 2) true (run_state (run_submit ++ run_work))). apply run_state_reachable. by vm_compute.
Defined.

Lemma threadpool_drains_witness : submitted (run_state (run_submit ++ run_work)) = submitted (run_state run_submit).
Proof.
  apply (threadpool_drains (Some 2) true (run_state run_submit) (length run_work) (run_state (run_submit ++ run_work))).
  - apply run_state_reachable. by vm_compute.
  - apply tp_run_psteps; by vm_compute.
Defined.

Lemma threadpool_slow_bounded_witness : Z.of_nat (tsum is_slow (threads (run_state (run_submit ++ take 3 run_work)))) = 1.
Proof.
  destruct (threadpool_slow_bounded (Some 2) true (run_state (run_submit ++ take 3 run_work))) as [E _].
  - apply run_state_reachable. by vm_compute.
  - rewrite <- E. by vm_compute.
Defined.

Lemma threadpool_cancel_exact_witness : (uv__work_cancel 13 (run_state (take 6 run_submit))).1 = 0.
Proof.
  apply (threadpool_cancel_exact (Some 2) true (run_state (take 6 run_submit)) 13).
  - apply run_state_reachable. by vm_compute.
  - apply pool_allowedb_sound. by vm_compute.
  - split; [vm_compute; apply not_elem_of_nil|]. intros slow. vm_compute. intros H.
    repeat (apply elem_of_cons in H as [H|H]; [done|]). by apply not_elem_of_nil in H.
Defined.
