(* ===== verification/StreamWrite.v ===== *)
(** Writing to a connection, deps/libuv/src/unix/stream.c: the queue of write requests behind
    [uv_write], partial writes, write callbacks and [uv_shutdown].

    The stream is a connected, non-blocking TCP socket, as the server's are: there is no
    connect request, no handle to send along and no blocking mode. Buffers are their
    contents, which stay as they are until the callback. What the kernel answers to each
    write is a list of answers in the state; callbacks do what the parameter [script] says.

    Part 1 translates the functions, Part 2 is the invariant, Part 3 the theorems. *)

From S2P Require Import Prelude.

(** ** Part 1: the code *)

Definition UV_EAGAIN : Z := -11.
Definition UV_EBADF : Z := -9.
Definition UV_EPIPE : Z := -32.
Definition UV_ENOMEM : Z := -12.
Definition UV_ENOTCONN : Z := -107.
Definition UV_ECANCELED : Z := -125.
Definition UV_EINVAL : Z := -22.
Definition IOV_MAX : nat := 1024.

(** The kernel takes at most so many bytes, is interrupted, has no room, or fails. *)
Inductive kres := KWrote (n : nat) | KIntr | KAgain | KErr (e : Z).

(** A [uv_write_t]. The buffers hold what is left of them, [w_nbufs] is their number; the
    last two fields record the data of the request and the part the kernel has taken. *)
Record write_req := mkReq {
  w_bufs : option (list (list Z)); w_nbufs : nat; w_index : nat; w_error : Z; w_data : list Z; w_sent : list Z }.

(** The stream: whether its descriptor is open, the flags WRITABLE, SHUT and CLOSING, the
    two queues, [shutdown_req], whether the watcher polls for POLLOUT and whether it is in
    the loop's pending queue, and the loop's count of active requests. The last five fields
    are the kernel's answers to come, the bytes it has taken, the requests accepted, and the
    calls of write and shutdown callbacks. *)
Record stream := mkStream {
  s_open : bool; s_writable : bool; s_shut : bool; s_closing : bool;
  write_queue : list nat; write_completed_queue : list nat; reqs : gmap nat write_req;
  write_queue_size : Z; shutdown_req : option nat; pollout : bool; fed : bool; active_reqs : Z;
  kern : list kres; sent : list Z; accepted : list nat; calls : list (nat * Z); shut_calls : list (nat * Z) }.

Definition set_open b s := mkStream b (s_writable s) (s_shut s) (s_closing s) (write_queue s) (write_completed_queue s)
  (reqs s) (write_queue_size s) (shutdown_req s) (pollout s) (fed s) (active_reqs s) (kern s) (sent s) (accepted s) (calls s) (shut_calls s).
Definition set_writable b s := mkStream (s_open s) b (s_shut s) (s_closing s) (write_queue s) (write_completed_queue s)
  (reqs s) (write_queue_size s) (shutdown_req s) (pollout s) (fed s) (active_reqs s) (kern s) (sent s) (accepted s) (calls s) (shut_calls s).
Definition set_shut b s := mkStream (s_open s) (s_writable s) b (s_closing s) (write_queue s) (write_completed_queue s)
  (reqs s) (write_queue_size s) (shutdown_req s) (pollout s) (fed s) (active_reqs s) (kern s) (sent s) (accepted s) (calls s) (shut_calls s).
Definition set_closing b s := mkStream (s_open s) (s_writable s) (s_shut s) b (write_queue s) (write_completed_queue s)
  (reqs s) (write_queue_size s) (shutdown_req s) (pollout s) (fed s) (active_reqs s) (kern s) (sent s) (accepted s) (calls s) (shut_calls s).
Definition set_queue q s := mkStream (s_open s) (s_writable s) (s_shut s) (s_closing s) q (write_completed_queue s)
  (reqs s) (write_queue_size s) (shutdown_req s) (pollout s) (fed s) (active_reqs s) (kern s) (sent s) (accepted s) (calls s) (shut_calls s).
Definition set_completed q s := mkStream (s_open s) (s_writable s) (s_shut s) (s_closing s) (write_queue s) q
  (reqs s) (write_queue_size s) (shutdown_req s) (pollout s) (fed s) (active_reqs s) (kern s) (sent s) (accepted s) (calls s) (shut_calls s).
Definition set_req i r s := mkStream (s_open s) (s_writable s) (s_shut s) (s_closing s) (write_queue s) (write_completed_queue s)
  (<[i := r]> (reqs s)) (write_queue_size s) (shutdown_req s) (pollout s) (fed s) (active_reqs s) (kern s) (sent s) (accepted s) (calls s) (shut_calls s).
Definition set_size n s := mkStream (s_open s) (s_writable s) (s_shut s) (s_closing s) (write_queue s) (write_completed_queue s)
  (reqs s) n (shutdown_req s) (pollout s) (fed s) (active_reqs s) (kern s) (sent s) (accepted s) (calls s) (shut_calls s).
Definition set_shutdown r s := mkStream (s_open s) (s_writable s) (s_shut s) (s_closing s) (write_queue s) (write_completed_queue s)
  (reqs s) (write_queue_size s) r (pollout s) (fed s) (active_reqs s) (kern s) (sent s) (accepted s) (calls s) (shut_calls s).
Definition set_pollout b s := mkStream (s_open s) (s_writable s) (s_shut s) (s_closing s) (write_queue s) (write_completed_queue s)
  (reqs s) (write_queue_size s) (shutdown_req s) b (fed s) (active_reqs s) (kern s) (sent s) (accepted s) (calls s) (shut_calls s).
Definition set_fed b s := mkStream (s_open s) (s_writable s) (s_shut s) (s_closing s) (write_queue s) (write_completed_queue s)
  (reqs s) (write_queue_size s) (shutdown_req s) (pollout s) b (active_reqs s) (kern s) (sent s) (accepted s) (calls s) (shut_calls s).
Definition set_active n s := mkStream (s_open s) (s_writable s) (s_shut s) (s_closing s) (write_queue s) (write_completed_queue s)
  (reqs s) (write_queue_size s) (shutdown_req s) (pollout s) (fed s) n (kern s) (sent s) (accepted s) (calls s) (shut_calls s).
Definition set_kern k s := mkStream (s_open s) (s_writable s) (s_shut s) (s_closing s) (write_queue s) (write_completed_queue s)
  (reqs s) (write_queue_size s) (shutdown_req s) (pollout s) (fed s) (active_reqs s) k (sent s) (accepted s) (calls s) (shut_calls s).
Definition set_sent l s := mkStream (s_open s) (s_writable s) (s_shut s) (s_closing s) (write_queue s) (write_completed_queue s)
  (reqs s) (write_queue_size s) (shutdown_req s) (pollout s) (fed s) (active_reqs s) (kern s) l (accepted s) (calls s) (shut_calls s).
Definition set_accepted l s := mkStream (s_open s) (s_writable s) (s_shut s) (s_closing s) (write_queue s) (write_completed_queue s)
  (reqs s) (write_queue_size s) (shutdown_req s) (pollout s) (fed s) (active_reqs s) (kern s) (sent s) l (calls s) (shut_calls s).
Definition set_calls l s := mkStream (s_open s) (s_writable s) (s_shut s) (s_closing s) (write_queue s) (write_completed_queue s)
  (reqs s) (write_queue_size s) (shutdown_req s) (pollout s) (fed s) (active_reqs s) (kern s) (sent s) (accepted s) l (shut_calls s).
Definition set_shut_calls l s := mkStream (s_open s) (s_writable s) (s_shut s) (s_closing s) (write_queue s) (write_completed_queue s)
  (reqs s) (write_queue_size s) (shutdown_req s) (pollout s) (fed s) (active_reqs s) (kern s) (sent s) (accepted s) (calls s) l.

(** [uv__stream_init] with an accepted descriptor. *)
Definition stream_opened (k : list kres) : stream :=
  mkStream true true false false [] [] ∅ 0 None false false 0 k [] [] [] [].

(** [uv__req_init] and [uv__req_unregister]; the count is an unsigned int. *)
Definition req_register (s : stream) : stream := set_active (wrap 32 (active_reqs s + 1)) s.
Definition req_unregister (s : stream) : outcome stream :=
  if 0 <? active_reqs s then Ret (set_active (active_reqs s - 1) s) else AssertFail.

Definition get_req (i : nat) (s : stream) : outcome write_req := match reqs s !! i with Some r => Ret r | None => UB end.

Definition total (bufs : list (list Z)) : nat := length (mjoin bufs).

(** The buffers from [write_index] on. *)
Definition rest_bufs (r : write_req) : list (list Z) := match w_bufs r with Some b => drop (w_index r) b | None => [] end.

(** [uv__try_write] on buffers: a number of bytes or an error code, and the answers left.
    The loop repeats a write that was interrupted. *)
Fixpoint try_write_loop (ks : list kres) (offered : list Z) : Z * list kres :=
  match ks with
  | [] => (UV_EAGAIN, [])
  | KIntr :: ks => try_write_loop ks offered
  | KWrote n :: ks => (Z.of_nat (min n (length offered)), ks)
  | KAgain :: ks => (UV_EAGAIN, ks)
  | KErr e :: ks => (e, ks)
  end.

Definition uv__try_write (bufs : list (list Z)) (s : stream) : Z * stream :=
  let offered := mjoin (take IOV_MAX bufs) in
  let '(n, ks) := try_write_loop (kern s) offered in
  (n, set_sent (sent s ++ take (Z.to_nat n) offered) (set_kern ks s)).

(** The loop of [uv__write_req_update] from a buffer on: the buffers after [n] bytes were
    taken, and by how many the index advances. *)
Fixpoint consume (bufs : list (list Z)) (n : nat) : outcome (list (list Z) * nat) :=
  match bufs with
  | [] => UB
  | b :: bs =>
      let len := min n (length b) in
      let b' := drop len b in
      let n' := (n - len)%nat in
      match b' with
      | [] => if Nat.eqb n' 0 then Ret (b' :: bs, 1%nat) else '(bs', k) ← consume bs n'; Ret (b' :: bs', S k)
      | _ => Ret (b' :: bs, 0%nat)
      end
  end.

Definition uv__write_req_update (i : nat) (n : Z) (s : stream) : outcome (bool * stream) :=
  r ← get_req i s;
  if write_queue_size s <? n then AssertFail
  else
    match w_bufs r with
    | None => UB
    | Some bufs =>
        '(bs, k) ← consume (drop (w_index r) bufs) (Z.to_nat n);
        let index := (w_index r + k)%nat in
        let taken := take (Z.to_nat n) (mjoin (rest_bufs r)) in
        let r := mkReq (Some (take (w_index r) bufs ++ bs)) (w_nbufs r) index (w_error r) (w_data r) (w_sent r ++ taken) in
        Ret (Nat.eqb index (w_nbufs r), set_req i r (set_size (write_queue_size s - n) s))
    end.

Definition remove (i : nat) (q : list nat) : list nat := filter (fun j => j <> i) q.

Definition uv__write_req_finish (i : nat) (s : stream) : outcome stream :=
  r ← get_req i s;
  let r := if w_error r =? 0 then mkReq None (w_nbufs r) (w_index r) (w_error r) (w_data r) (w_sent r) else r in
  Ret (set_fed true (set_completed (write_completed_queue s ++ [i]) (set_queue (remove i (write_queue s)) (set_req i r s)))).

(** [uv__write]; [count] is the number of requests that may still be finished. *)
Fixpoint write_loop (count : nat) (s : stream) : outcome stream :=
  match write_queue s with
  | [] => Ret s
  | i :: _ =>
      r ← get_req i s;
      let '(n, s) := uv__try_write (rest_bufs r) s in
      if 0 <=? n then
        '(finished, s) ← uv__write_req_update i n s;
        if finished : bool then
          s ← uv__write_req_finish i s;
          match count with O => Ret s | S count => write_loop count s end
        else Ret (set_pollout true s)
      else if n =? UV_EAGAIN then Ret (set_pollout true s)
      else
        r ← get_req i s;
        s ← uv__write_req_finish i (set_req i (mkReq (w_bufs r) (w_nbufs r) (w_index r) n (w_data r) (w_sent r)) s);
        Ret (set_pollout false s)
  end.

Definition uv__write (s : stream) : outcome stream := if s_open s then write_loop 32 s else AssertFail.

Definition uv__check_before_write (nbufs : Z) (s : stream) : Z :=
  if (nbufs <? 1) || (1024 * 1024 <? nbufs) then UV_EINVAL
  else if negb (s_open s) then UV_EBADF
  else if negb (s_writable s) then UV_EPIPE
  else 0.

(** [uv_write]: the request [i], its buffers, and whether [uv__malloc] succeeds when there
    are more than four. *)
Definition uv_write (i : nat) (bufs : list (list Z)) (malloc_ok : bool) (s : stream) : outcome (Z * stream) :=
  let err := uv__check_before_write (Z.of_nat (length bufs)) s in
  if err <? 0 then Ret (err, s)
  else
    let empty_queue := write_queue_size s =? 0 in
    let s := req_register s in
    if (4 <? length bufs)%nat && negb malloc_ok then Ret (UV_ENOMEM, s)
    else
      let s := set_req i (mkReq (Some bufs) (length bufs) 0 0 (mjoin bufs) []) s in
      let s := set_size (wrap 64 (write_queue_size s + Z.of_nat (total bufs))) s in
      let s := set_accepted (accepted s ++ [i]) (set_queue (write_queue s ++ [i]) s) in
      if empty_queue then s ← uv__write s; Ret (0, s) else Ret (0, set_pollout true s).

Definition uv_try_write (bufs : list (list Z)) (s : stream) : Z * stream :=
  if negb (write_queue_size s =? 0) then (UV_EAGAIN, s)
  else
    let err := uv__check_before_write (Z.of_nat (length bufs)) s in
    if err <? 0 then (err, s) else uv__try_write bufs s.

Definition uv_shutdown (i : nat) (s : stream) : outcome (Z * stream) :=
  if negb (s_writable s) || s_shut s || bool_decide (shutdown_req s <> None) || s_closing s then Ret (UV_ENOTCONN, s)
  else if negb (s_open s) then AssertFail
  else
    let s := set_writable false (set_shutdown (Some i) (req_register s)) in
    Ret (0, if bool_decide (write_queue s = []) then set_fed true s else s).

(** [uv_close] up to [uv__stream_close], the part that concerns writing. *)
Definition stream_close (s : stream) : outcome stream :=
  if s_closing s then AssertFail
  else Ret (set_writable false (set_open false (set_pollout false (set_fed false (set_closing true s))))).

(** What a callback may do with the stream. *)
Inductive stream_act := AWrite (i : nat) (bufs : list (list Z)) | AShutdown (i : nat) | AClose.

Definition stream_act_do (a : stream_act) (s : stream) : outcome stream :=
  match a with
  | AWrite i bufs => '(_, s) ← uv_write i bufs true s; Ret s
  | AShutdown i => '(_, s) ← uv_shutdown i s; Ret s
  | AClose => stream_close s
  end.

Fixpoint stream_acts_do (acts : list stream_act) (s : stream) : outcome stream :=
  match acts with [] => Ret s | a :: acts => s ← stream_act_do a s; stream_acts_do acts s end.

Section Callbacks.

(** What the callback of a write or of the shutdown does when it is called, and what
    [shutdown(2)] answers. *)
Context (script : nat -> Z -> stream -> list stream_act) (shut_script : Z -> stream -> list stream_act) (shutdown_error : Z).

(** [uv__write_req_size] *)
Definition uv__write_req_size (r : write_req) (s : stream) : outcome Z :=
  match w_bufs r with
  | None => AssertFail
  | Some _ =>
      let size := wrap 64 (Z.of_nat (total (rest_bufs r))) in
      if write_queue_size s <? size then AssertFail else Ret size
  end.

(** The loop of [uv__write_callbacks] over the queue it took. *)
Fixpoint callbacks_loop (pq : list nat) (s : stream) : outcome stream :=
  match pq with
  | [] => Ret s
  | i :: pq =>
      s ← req_unregister s;
      r ← get_req i s;
      s ← match w_bufs r with
          | None => Ret s
          | Some _ =>
              size ← uv__write_req_size r s;
              Ret (set_req i (mkReq None (w_nbufs r) (w_index r) (w_error r) (w_data r) (w_sent r))
                     (set_size (write_queue_size s - size) s))
          end;
      let s := set_calls (calls s ++ [(i, w_error r)]) s in
      s ← stream_acts_do (script i (w_error r) s) s;
      callbacks_loop pq s
  end.

Definition uv__write_callbacks (s : stream) : outcome stream :=
  callbacks_loop (write_completed_queue s) (set_completed [] s).

Definition uv__drain (s : stream) : outcome stream :=
  if negb (bool_decide (write_queue s = [])) then AssertFail
  else
    let s := if s_closing s then s else set_pollout false s in
    match shutdown_req s with
    | None => Ret s
    | Some i =>
        if s_closing s || negb (s_shut s) then
          s ← req_unregister (set_shutdown None s);
          let err := if s_closing s then UV_ECANCELED else shutdown_error in
          let s := if negb (s_closing s) && (shutdown_error =? 0) then set_shut true s else s in
          let s := set_shut_calls (shut_calls s ++ [(i, err)]) s in
          stream_acts_do (shut_script err s) s
        else Ret s
    end.

(** The loop of [uv__stream_flush_write_queue]. *)
Fixpoint flush_loop (q : list nat) (error : Z) (s : stream) : outcome stream :=
  match q with
  | [] => Ret s
  | i :: q =>
      r ← get_req i s;
      let r := mkReq (w_bufs r) (w_nbufs r) (w_index r) error (w_data r) (w_sent r) in
      flush_loop q error (set_completed (write_completed_queue s ++ [i]) (set_queue q (set_req i r s)))
  end.

Definition uv__stream_flush_write_queue (error : Z) (s : stream) : outcome stream := flush_loop (write_queue s) error s.

(** [uv__stream_destroy], which [uv__finish_close] calls for a closed handle. *)
Definition uv__stream_destroy (s : stream) : outcome stream :=
  if pollout s then AssertFail
  else
    s ← uv__stream_flush_write_queue UV_ECANCELED s;
    s ← uv__write_callbacks s;
    s ← uv__drain s;
    if write_queue_size s =? 0 then Ret s else AssertFail.

(** [uv__stream_io]: [acts] is what the read callbacks do, [out] says that POLLOUT, POLLERR
    or POLLHUP is among the events. *)
Definition uv__stream_io (acts : list stream_act) (out : bool) (s : stream) : outcome stream :=
  if s_closing s then AssertFail
  else if negb (s_open s) then AssertFail
  else
    s ← stream_acts_do acts s;
    if negb (s_open s) then Ret s
    else if out then
      s ← uv__write s;
      s ← uv__write_callbacks s;
      if bool_decide (write_queue s = []) then uv__drain s else Ret s
    else Ret s.

(** The loop takes the watcher from its pending queue. *)
Definition run_pending (s : stream) : outcome stream := uv__stream_io [] true (set_fed false s).

End Callbacks.

(** ** Part 2: the invariant *)

Definition kres_ok (k : kres) : Prop := match k with KErr e => e < 0 | _ => True end.

(** The bytes of a request that are still in its buffers, by number of request. *)
Definition left_of (m : gmap nat write_req) (i : nat) : nat :=
  match m !! i with Some r => length (mjoin (rest_bufs r)) | None => 0 end.
Definition sent_of (m : gmap nat write_req) (i : nat) : list Z := match m !! i with Some r => w_sent r | None => [] end.
Definition sum_left (m : gmap nat write_req) (l : list nat) : nat := sum_list_with (left_of m) l.
Definition all_sent (m : gmap nat write_req) (l : list nat) : list Z := mjoin (sent_of m <$> l).

(** A request in the write queue. *)
Definition req_queued (r : write_req) : Prop :=
  exists bufs, w_bufs r = Some bufs /\ length bufs = w_nbufs r /\ (w_index r < w_nbufs r)%nat /\ w_error r = 0 /\
    w_sent r ++ mjoin (drop (w_index r) bufs) = w_data r.

(** What a result says: 0 is given to a request whose data the kernel has taken. *)
Definition result_ok (e : Z) (r : write_req) : Prop :=
  (e = 0 /\ w_sent r = w_data r) \/ (e < 0 /\ w_sent r `prefix_of` w_data r).

(** A completed request still has its buffers if it failed. *)
Definition req_done (r : write_req) : Prop :=
  result_ok (w_error r) r /\ (w_error r = 0 -> w_bufs r = None).

(** [pq] are the requests that a running [uv__write_callbacks] has still to call. *)
Record inv (pq : list nat) (s : stream) : Prop := {
  v_order : (calls s).*1 ++ pq ++ write_completed_queue s ++ write_queue s = accepted s;
  v_nodup : NoDup (accepted s);
  v_queue : Forall (fun i => exists r, reqs s !! i = Some r /\ req_queued r) (write_queue s);
  v_later : Forall (fun i => sent_of (reqs s) i = []) (tail (write_queue s));
  v_done : Forall (fun i => exists r, reqs s !! i = Some r /\ req_done r) (pq ++ write_completed_queue s);
  v_calls : Forall (fun c => exists r, reqs s !! c.1 = Some r /\ w_error r = c.2 /\ result_ok c.2 r) (calls s);
  v_sent : sent s = all_sent (reqs s) (accepted s);
  v_size : write_queue_size s = Z.of_nat (sum_left (reqs s) (pq ++ write_completed_queue s ++ write_queue s));
  v_active : active_reqs s = Z.of_nat (length (pq ++ write_completed_queue s ++ write_queue s) + length (option_list (shutdown_req s)));
  v_closing : s_closing s = negb (s_open s);
  v_closed : s_open s = false -> s_writable s = false /\ pollout s = false /\ fed s = false;
  v_shutting : shutdown_req s <> None \/ s_shut s = true -> s_writable s = false;
  v_shut : s_shut s = true -> write_queue s = [] /\ shutdown_req s = None;
  v_kern : Forall kres_ok (kern s);
  v_fits : write_queue_size s < 2 ^ 64 }.

Lemma left_of_insert_ne m i j r : i <> j -> left_of (<[i := r]> m) j = left_of m j.
Proof. intros. unfold left_of. by rewrite lookup_insert_ne. Qed.

Lemma sum_left_insert m i r l : i ∉ l -> sum_left (<[i := r]> m) l = sum_left m l.
Proof.
  unfold sum_left. induction l as [|j l IH]; [done|]. rewrite not_elem_of_cons. intros [H1 H2]. cbn. by rewrite left_of_insert_ne, IH by done.
Qed.

Lemma sum_left_app m l l' : sum_left m (l ++ l') = (sum_left m l + sum_left m l')%nat.
Proof. apply sum_list_with_app. Qed.

Lemma sum_left_single m i : sum_left m [i] = left_of m i.
Proof. unfold sum_left. cbn. lia. Qed.

Lemma all_sent_app m l l' : all_sent m (l ++ l') = all_sent m l ++ all_sent m l'.
Proof. unfold all_sent. rewrite fmap_app. apply join_app. Qed.

Lemma all_sent_cons m i l : all_sent m (i :: l) = sent_of m i ++ all_sent m l.
Proof. done. Qed.

Lemma all_sent_insert m i r l : i ∉ l -> all_sent (<[i := r]> m) l = all_sent m l.
Proof.
  induction l as [|j l IH]; [done|]. rewrite not_elem_of_cons. intros [H1 H2]. rewrite !all_sent_cons, IH by done. f_equal.
  unfold sent_of. by rewrite lookup_insert_ne.
Qed.

Lemma all_sent_none m l : Forall (fun i => sent_of m i = []) l -> all_sent m l = [].
Proof. induction 1 as [|i l H _ IH]; [done|]. by rewrite all_sent_cons, H, IH. Qed.

(** A property of requests is kept for those that do not change. *)
Lemma reqs_frame (P : write_req -> Prop) (m : gmap nat write_req) (i : nat) r (l : list nat) :
  i ∉ l -> Forall (fun j => exists r, m !! j = Some r /\ P r) l -> Forall (fun j => exists r', <[i := r]> m !! j = Some r' /\ P r') l.
Proof.
  intros Hi. rewrite !list.Forall_forall. intros H j Hj. assert (i <> j) by (by intros ->). rewrite lookup_insert_ne by done. by apply H.
Qed.

Ltac st_cbn := cbn [s_open s_writable s_shut s_closing write_queue write_completed_queue reqs write_queue_size shutdown_req pollout fed
  active_reqs kern sent accepted calls shut_calls set_open set_writable set_shut set_closing set_queue set_completed set_req set_size
  set_shutdown set_pollout set_fed set_active set_kern set_sent set_accepted set_calls set_shut_calls] in *.

Lemma remove_head i q : i ∉ q -> remove i (i :: q) = q.
Proof.
  intros H. unfold remove. rewrite filter_cons_False by naive_solver. induction q as [|j q IH]; [done|].
  rewrite not_elem_of_cons in H. destruct H. rewrite filter_cons_True by congruence. by rewrite IH.
Qed.

(** *** The kernel *)

Lemma try_write_spec ks offered n ks' :
  try_write_loop ks offered = (n, ks') -> Forall kres_ok ks ->
  Forall kres_ok ks' /\ (n < 0 \/ 0 <= n <= Z.of_nat (length offered)).
Proof.
  revert n ks'. induction ks as [|k ks IH]; intros n ks'; cbn.
  { intros [= <- <-] _. split; [constructor|left; done]. }
  rewrite list.Forall_cons. destruct k as [m| | |e].
  - intros [= <- <-] [_ H]. split; [done|right]. lia.
  - intros E [_ H]. by apply IH.
  - intros [= <- <-] [_ H]. split; [done|by left].
  - intros [= <- <-] [H1 H]. split; [done|by left].
Qed.

Lemma consume_spec bufs n :
  (n <= length (mjoin bufs))%nat -> bufs <> [] ->
  exists bs k, consume bufs n = Ret (bs, k) /\ length bs = length bufs /\ (k <= length bufs)%nat /\
    mjoin (drop k bs) = drop n (mjoin bufs).
Proof.
  revert n. induction bufs as [|b bufs IH]; intros n Hn Hne; [done|]. change (mjoin (b :: bufs)) with (b ++ mjoin bufs) in Hn. rewrite length_app in Hn. cbn [consume].
  destruct (Nat.le_gt_cases (length b) n) as [Hle|Hgt].
  - rewrite Nat.min_r by done. rewrite drop_all. destruct (Nat.eqb_spec (n - length b) 0) as [E|E].
    + exists ([] :: bufs), 1%nat. split; [done|]. split; [done|]. split; [cbn; lia|]. cbn. rewrite drop_0.
      rewrite drop_app_ge by done. by rewrite E, drop_0.
    + destruct bufs as [|b' bufs]; [change (length (mjoin (@nil (list Z)))) with 0%nat in Hn; lia|].
      destruct (IH (n - length b)%nat ltac:(lia) ltac:(done)) as (bs & k & -> & Hl & Hk & Hj). cbn [mbind outcome_bind].
      exists ([] :: bs), (S k). split; [done|]. split; [cbn; cbn in Hl; lia|]. split; [cbn in *; lia|].
      change (drop (S k) ([] :: bs)) with (drop k bs). rewrite Hj. change (mjoin (b :: b' :: bufs)) with (b ++ mjoin (b' :: bufs)).
      by rewrite drop_app_ge by done.
  - rewrite Nat.min_l by lia. destruct (drop n b) as [|x b'] eqn:Eb.
    { apply (f_equal length) in Eb. rewrite length_drop in Eb. cbn in Eb. lia. }
    exists ((x :: b') :: bufs), 0%nat. split; [done|]. split; [done|]. split; [lia|]. rewrite drop_0.
    change (mjoin ((x :: b') :: bufs)) with ((x :: b') ++ mjoin bufs). change (mjoin (b :: bufs)) with (b ++ mjoin bufs).
    rewrite <- Eb. by rewrite drop_app_le by lia.
Qed.

Lemma prefix_take_join {A} (l : list (list A)) k : mjoin (take k l) `prefix_of` mjoin l.
Proof. exists (mjoin (drop k l)). rewrite <- join_app. by rewrite take_drop. Qed.

(** *** The head of the queue *)

(** The kernel took [taken] of request [i], which becomes [r]. *)
Definition upd (i : nat) (r : write_req) (taken : list Z) (k : list kres) (s : stream) : stream :=
  set_req i r (set_size (write_queue_size s - Z.of_nat (length taken)) (set_sent (sent s ++ taken) (set_kern k s))).

Lemma head_fresh pq s i q : inv pq s -> write_queue s = i :: q ->
  (i ∉ (calls s).*1) /\ (i ∉ pq) /\ (i ∉ write_completed_queue s) /\ (i ∉ q).
Proof.
  intros I Hq. pose proof (v_nodup _ _ I) as Hn. rewrite <- (v_order _ _ I), Hq, !app_assoc in Hn.
  apply list.NoDup_app in Hn as (_ & Hn & Hc). apply list.NoDup_cons in Hc as [Hi _].
  split_and!; try done; intros Hin; apply (Hn i); rewrite ?elem_of_app; auto; by left.
Qed.

Lemma inv_head pq s i q r r' taken k c' q' :
  inv pq s -> write_queue s = i :: q -> reqs s !! i = Some r ->
  w_sent r' = w_sent r ++ taken -> (length (mjoin (rest_bufs r')) + length taken = length (mjoin (rest_bufs r)))%nat -> Forall kres_ok k ->
  (c' = write_completed_queue s /\ q' = i :: q /\ req_queued r') \/ (c' = write_completed_queue s ++ [i] /\ q' = q /\ req_done r') ->
  inv pq (set_completed c' (set_queue q' (upd i r' taken k s))).
Proof.
  intros I Hq Hr Hsent Hleft Hk Hcase. destruct (head_fresh _ _ _ _ I Hq) as (F1 & F2 & F3 & F4).
  destruct I as [H1 H2 H3 H4 H5 H6 H7 H8 H9 H10 H11 H12 H13 H14 H15]. rewrite Hq in *. cbn [tail] in H4.
  assert (Ecq : c' ++ q' = write_completed_queue s ++ i :: q) by (destruct Hcase as [(-> & -> & _)|(-> & -> & _)]; [done|by rewrite <- app_assoc]).
  assert (Hl : left_of (<[i := r']> (reqs s)) i = length (mjoin (rest_bufs r'))) by (unfold left_of; by rewrite lookup_insert_eq).
  assert (Hl0 : left_of (reqs s) i = length (mjoin (rest_bufs r))) by (unfold left_of; by rewrite Hr).
  apply list.Forall_cons in H3 as [_ H3].
  constructor; unfold upd; st_cbn; try done.
  - by rewrite Ecq.
  - destruct Hcase as [(_ & -> & Hok)|(_ & -> & _)]; [constructor|]; [exists r'; by rewrite lookup_insert_eq|..]; by apply reqs_frame.
  - assert (Hq' : Forall (fun j => sent_of (<[i := r']> (reqs s)) j = []) q).
    { rewrite list.Forall_forall in *. intros j Hj. specialize (H4 j Hj). unfold sent_of in *. rewrite lookup_insert_ne; [done|]. by intros ->. }
    destruct Hcase as [(_ & -> & Hok)|(_ & -> & _)]; [done|]. destruct q; [constructor|]. by apply list.Forall_cons in Hq' as [_ ?].
  - apply list.Forall_app in H5 as [H5a H5b]. apply list.Forall_app. split; [by apply reqs_frame|].
    destruct Hcase as [(-> & _ & _)|(-> & _ & Hok)]; [by apply reqs_frame|]. apply list.Forall_app. split; [by apply reqs_frame|].
    constructor; [|done]. exists r'. by rewrite lookup_insert_eq.
  - rewrite list.Forall_forall in *. intros c Hc. specialize (H6 c Hc). rewrite lookup_insert_ne; [done|].
    intros ->. apply F1, list_elem_of_fmap. by exists c.
  - assert (E1 : sent_of (<[i := r']> (reqs s)) i = w_sent r') by (unfold sent_of; by rewrite lookup_insert_eq).
    assert (E2 : sent_of (reqs s) i = w_sent r) by (unfold sent_of; by rewrite Hr).
    rewrite H7, <- H1, !all_sent_app, !all_sent_cons, !all_sent_insert, (all_sent_none (reqs s) q), E1, E2, Hsent by done.
    by rewrite !app_nil_r, <- !app_assoc.
  - rewrite Ecq, H8. rewrite !sum_left_app. unfold sum_left. cbn [sum_list_with]. fold (sum_left (<[i:=r']> (reqs s)) q). fold (sum_left (reqs s) q).
    fold (sum_left (<[i:=r']> (reqs s)) pq). fold (sum_left (reqs s) pq).
    fold (sum_left (<[i:=r']> (reqs s)) (write_completed_queue s)). fold (sum_left (reqs s) (write_completed_queue s)).
    rewrite !sum_left_insert by done. rewrite Hl, Hl0. lia.
  - by rewrite Ecq, H9.
  - intros Hs. by destruct (H13 Hs).
  - lia.
Qed.

Lemma inv_pollout pq s b : inv pq s -> s_open s = true -> inv pq (set_pollout b s).
Proof. intros [H1 H2 H3 H4 H5 H6 H7 H8 H9 H10 H11 H12 H13 H14 H15] Ho. constructor; st_cbn; try done. congruence. Qed.

Lemma inv_fed pq s b : inv pq s -> s_open s = true -> inv pq (set_fed b s).
Proof. intros [H1 H2 H3 H4 H5 H6 H7 H8 H9 H10 H11 H12 H13 H14 H15] Ho. constructor; st_cbn; try done. congruence. Qed.

(** What [uv__write] leaves alone, and what it guarantees: a queue that is not empty is
    watched or fed, and new completions are fed. *)
Record write_post (s s' : stream) : Prop := {
  p_open : s_open s' = s_open s; p_writable : s_writable s' = s_writable s; p_sh : s_shut s' = s_shut s;
  p_shutdown : shutdown_req s' = shutdown_req s; p_accepted : accepted s' = accepted s; p_calls : calls s' = calls s;
  p_shut_calls : shut_calls s' = shut_calls s;
  p_live : write_queue s' <> [] -> pollout s' = true \/ fed s' = true;
  p_fed : write_completed_queue s' = write_completed_queue s /\ fed s' = fed s \/ fed s' = true }.

Lemma write_post_refl s : (write_queue s <> [] -> pollout s = true \/ fed s = true) -> write_post s s.
Proof. intros H. constructor; auto. Qed.

Lemma write_post_trans s1 s2 s3 : write_post s1 s2 -> write_post s2 s3 -> fed s2 = true -> write_post s1 s3.
Proof.
  intros [A1 A2 A3 A4 A5 A6 A7 A8 A9] [B1 B2 B3 B4 B5 B6 B7 B8 B9] Hf. constructor; try congruence; [done|].
  right. destruct B9 as [[_ E]|?]; congruence.
Qed.

Lemma take_prefix_take {A} (l l' : list A) n : l `prefix_of` l' -> (n <= length l)%nat -> take n l = take n l'.
Proof. intros [k ->] Hn. by rewrite take_app_le. Qed.

(** A request after [n] bytes of it were taken. *)
Lemma update_ok pq s i q r ks n :
  inv pq s -> write_queue s = i :: q -> reqs s !! i = Some r ->
  0 <= n <= Z.of_nat (length (mjoin (take IOV_MAX (rest_bufs r)))) -> Forall kres_ok ks ->
  let taken := take (Z.to_nat n) (mjoin (take IOV_MAX (rest_bufs r))) in
  exists r' fin, uv__write_req_update i n (set_sent (sent s ++ taken) (set_kern ks s)) = Ret (fin, upd i r' taken ks s) /\
    w_sent r' = w_sent r ++ taken /\ (length (mjoin (rest_bufs r')) + length taken = length (mjoin (rest_bufs r)))%nat /\
    w_error r' = 0 /\ w_data r' = w_data r /\
    if fin : bool then mjoin (rest_bufs r') = [] /\ w_sent r' = w_data r else req_queued r'.
Proof.
  intros I Hq Hr Hn Hk taken.
  pose proof (v_queue _ _ I) as Hf. rewrite Hq in Hf. apply list.Forall_cons in Hf as [(r0 & Hr0 & Hrq) _]. rewrite Hr in Hr0. simplify_eq.
  destruct Hrq as (bufs & Eb & Hlen & Hidx & Herr & Hdata).
  assert (Erest : rest_bufs r0 = drop (w_index r0) bufs) by (unfold rest_bufs; by rewrite Eb).
  pose proof (prefix_take_join (rest_bufs r0) IOV_MAX) as Hpre. pose proof (prefix_length _ _ Hpre) as Hpl.
  assert (Et : taken = take (Z.to_nat n) (mjoin (rest_bufs r0))) by (subst taken; apply take_prefix_take; [done|lia]).
  assert (Elen : Z.of_nat (length taken) = n) by (rewrite Et, length_take; lia).
  assert (Hsize : n <= write_queue_size s).
  { rewrite (v_size _ _ I), Hq, !sum_left_app. unfold sum_left. cbn [sum_list_with].
    assert (left_of (reqs s) i = length (mjoin (rest_bufs r0))) by (unfold left_of; by rewrite Hr). lia. }
  destruct (consume_spec (rest_bufs r0) (Z.to_nat n)) as (bs & k & Hc & Hbl & Hkl & Hj); [lia|rewrite Erest; intros E; apply (f_equal length) in E; rewrite length_drop in E; cbn in E; lia|].
  assert (Hbs : length bs = (w_nbufs r0 - w_index r0)%nat) by (rewrite Hbl, Erest, length_drop; lia).
  set (r' := mkReq (Some (take (w_index r0) bufs ++ bs)) (w_nbufs r0) (w_index r0 + k) (w_error r0) (w_data r0) (w_sent r0 ++ taken)).
  assert (Erest' : rest_bufs r' = drop k bs).
  { unfold rest_bufs, r'. cbn [w_bufs w_index]. rewrite drop_app_ge by (rewrite length_take; lia). rewrite length_take. f_equal. lia. }
  exists r', (Nat.eqb (w_index r0 + k) (w_nbufs r0)). split_and!; try done.
  - unfold uv__write_req_update, get_req. st_cbn. rewrite Hr. cbn [mbind outcome_bind].
    rewrite (proj2 (Z.ltb_ge _ _)) by done. rewrite Eb, <- Erest, Hc. cbn [mbind outcome_bind]. unfold upd. rewrite Elen. rewrite <- Et. done.
  - rewrite Erest', Hj, length_drop. lia.
  - destruct (Nat.eqb_spec (w_index r0 + k) (w_nbufs r0)) as [E|E].
    + rewrite Erest'. rewrite drop_ge in Hj |- * by lia. split; [done|]. cbn. rewrite <- Hdata, <- Erest. f_equal.
      rewrite Et. apply take_ge. symmetry in Hj. apply (f_equal length) in Hj. rewrite length_drop in Hj. change (mjoin (@nil (list Z))) with (@nil Z) in Hj. cbn in Hj. lia.
    + exists (take (w_index r0) bufs ++ bs). cbn. split_and!; try done.
      * rewrite length_app, length_take. lia.
      * lia.
      * fold (rest_bufs r'). change (drop (w_index r0 + k) (take (w_index r0) bufs ++ bs)) with (rest_bufs r').
        rewrite Erest', Hj, <- Hdata, <- Erest, Et, <- app_assoc. by rewrite take_drop.
Qed.

Lemma set_req_twice i r r' s : set_req i r' (set_req i r s) = set_req i r' s.
Proof. destruct s. unfold set_req. cbn. by rewrite insert_insert_eq. Qed.

Lemma finish_upd i r r' taken ks s q :
  write_queue s = i :: q -> i ∉ q ->
  r' = (if w_error r =? 0 then mkReq None (w_nbufs r) (w_index r) (w_error r) (w_data r) (w_sent r) else r) ->
  uv__write_req_finish i (upd i r taken ks s) =
  Ret (set_fed true (set_completed (write_completed_queue s ++ [i]) (set_queue q (upd i r' taken ks s)))).
Proof.
  intros Hq Hi ->. unfold uv__write_req_finish.
  assert (Hget : get_req i (upd i r taken ks s) = Ret r) by (unfold get_req, upd; cbn; by rewrite lookup_insert_eq).
  rewrite Hget. cbn [mbind outcome_bind]. change (write_queue (upd i r taken ks s)) with (write_queue s).
  change (write_completed_queue (upd i r taken ks s)) with (write_completed_queue s).
  rewrite Hq, remove_head by done. unfold upd. by rewrite set_req_twice.
Qed.

Lemma upd_post s s' i r taken ks :
  s' = set_fed true (set_completed (write_completed_queue s ++ [i]) (set_queue (tail (write_queue s)) (upd i r taken ks s))) -> write_post s s'.
Proof. intros ->. constructor; auto. Qed.

Lemma inv_kern pq s ks : inv pq s -> Forall kres_ok ks -> inv pq (set_sent (sent s ++ []) (set_kern ks s)).
Proof. intros [H1 H2 H3 H4 H5 H6 H7 H8 H9 H10 H11 H12 H13 H14 H15] Hk. constructor; st_cbn; try done. by rewrite app_nil_r. Qed.

(** One turn: the loop ends, or a request is finished and the loop may go on. *)
Lemma write_turn pq count s i q :
  inv pq s -> s_open s = true -> write_queue s = i :: q ->
  exists s', inv pq s' /\ write_post s s' /\ s_open s' = true /\
    (write_loop count s = Ret s' \/
     fed s' = true /\ write_loop count s = match count with O => Ret s' | S count => write_loop count s' end).
Proof.
  intros I Ho Hq. destruct (head_fresh _ _ _ _ I Hq) as (_ & _ & _ & Hi).
  pose proof (v_queue _ _ I) as Hf. rewrite Hq in Hf. apply list.Forall_cons in Hf as [(r & Hr & Hrq) _].
  assert (Hloop : write_loop count s = let '(n, s) := uv__try_write (rest_bufs r) s in
      if 0 <=? n then
        '(finished, s) ← uv__write_req_update i n s;
        if finished : bool then
          s ← uv__write_req_finish i s;
          match count with O => Ret s | S count => write_loop count s end
        else Ret (set_pollout true s)
      else if n =? UV_EAGAIN then Ret (set_pollout true s)
      else
        r ← get_req i s;
        s ← uv__write_req_finish i (set_req i (mkReq (w_bufs r) (w_nbufs r) (w_index r) n (w_data r) (w_sent r)) s);
        Ret (set_pollout false s)).
  { destruct count; cbn [write_loop]; rewrite Hq; unfold get_req; rewrite Hr; done. }
  rewrite Hloop. clear Hloop. unfold uv__try_write.
  destruct (try_write_loop (kern s) (mjoin (take IOV_MAX (rest_bufs r)))) as [n ks] eqn:Et.
  destruct (try_write_spec _ _ _ _ Et (v_kern _ _ I)) as [Hk Hn].
  destruct (Z.leb_spec 0 n) as [Hn0|Hn0].
  - destruct Hn as [?|Hn]; [lia|].
    destruct (update_ok pq s i q r ks n I Hq Hr Hn Hk) as (r' & fin & -> & Hs & Hl & He & Hd & Hfin). cbn [mbind outcome_bind].
    set (taken := take (Z.to_nat n) _) in *. destruct fin.
    + rewrite (finish_upd i r' _ taken ks s q Hq Hi eq_refl). cbn [mbind outcome_bind]. rewrite He. cbn [Z.eqb].
      destruct Hfin as [Hempty Hall].
      set (s1 := set_fed true _). exists s1. split; [|split; [|split; [done|by right]]].
      * apply inv_fed; [|done]. eapply (inv_head pq s i q r); [done|done|done|exact Hs|rewrite Hempty in Hl; exact Hl|done|].
        right. split_and!; [done..|]. split; [|done]. left. split; [done|]. cbn. congruence.
      * by apply (upd_post _ _ i (mkReq None (w_nbufs r') (w_index r') 0 (w_data r') (w_sent r')) taken ks); rewrite Hq.
    + eexists. split; [|split; [|split; [|left; reflexivity]]].
      * apply inv_pollout; [|done].
        assert (E : upd i r' taken ks s = set_completed (write_completed_queue s) (set_queue (i :: q) (upd i r' taken ks s))) by (rewrite <- Hq; done).
        rewrite E. eapply (inv_head pq s i q r); try done. by left.
      * constructor; auto.
      * done.
  - assert (Et0 : take (Z.to_nat n) (mjoin (take IOV_MAX (rest_bufs r))) = []) by (replace (Z.to_nat n) with 0%nat by lia; done).
    rewrite Et0. destruct (Z.eqb_spec n UV_EAGAIN).
    + eexists. split; [|split; [|split; [|left; reflexivity]]]; [apply inv_pollout; [by apply inv_kern|done]| |done]. constructor; auto.
    + unfold get_req at 1. st_cbn. rewrite Hr. cbn [mbind outcome_bind].
      set (r' := mkReq (w_bufs r) (w_nbufs r) (w_index r) n (w_data r) (w_sent r)).
      assert (E : set_req i r' (set_sent (sent s ++ []) (set_kern ks s)) = upd i r' [] ks s).
      { unfold upd, set_req, set_size. st_cbn. cbn [length]. by rewrite Z.sub_0_r. }
      rewrite E, (finish_upd i r' r' [] ks s q Hq Hi) by (cbn; by rewrite (proj2 (Z.eqb_neq n 0)) by lia). cbn [mbind outcome_bind].
      eexists. split; [|split; [|split; [|left; reflexivity]]]; [| |done].
      * apply inv_pollout; [|done]. apply inv_fed; [|done]. eapply (inv_head pq s i q r); [done|done|done|cbn; by rewrite app_nil_r|unfold rest_bufs; cbn; lia|done|].
        right. split_and!; [done..|]. split; [|cbn; lia]. right. split; [done|]. cbn.
        destruct Hrq as (bufs & _ & _ & _ & _ & <-). by apply prefix_app_r.
      * constructor; auto.
Qed.

Lemma write_loop_ok pq count s :
  inv pq s -> s_open s = true -> exists s', write_loop count s = Ret s' /\ inv pq s' /\ write_post s s'.
Proof.
  revert s. induction count as [|count IH]; intros s I Ho; (destruct (write_queue s) as [|i q] eqn:Hq;
    [exists s; split; [cbn; by rewrite Hq|]; split; [done|]; apply write_post_refl; by rewrite Hq|]).
  - destruct (write_turn pq 0 s i q I Ho Hq) as (s' & I' & P & _ & [E|[_ E]]); eauto.
  - destruct (write_turn pq (S count) s i q I Ho Hq) as (s1 & I1 & P1 & Ho1 & [E|[Hf E]]); [eauto|].
    destruct (IH s1 I1 Ho1) as (s2 & E2 & I2 & P2). exists s2. rewrite E. split; [done|]. split; [done|]. by eapply write_post_trans.
Qed.

(** *** What callbacks do *)

(** The counters have room for a request of [n] bytes. *)
Definition room_for (s : stream) (n : nat) : Prop :=
  active_reqs s + 1 < 2 ^ 32 /\ write_queue_size s + Z.of_nat n < 2 ^ 64.
#[global] Instance room_for_dec s n : Decision (room_for s n).
Proof. unfold room_for. apply _. Defined.

(** A request is used for one write at a time, fewer than [2^32] requests are active and fewer than
    [2^64] bytes queued at a time, and a stream is closed once. *)
Definition stream_act_allowed (s : stream) (a : stream_act) : Prop :=
  match a with
  | AWrite i bufs => i ∉ accepted s /\ room_for s (total bufs)
  | AShutdown _ => room_for s 0
  | AClose => s_closing s = false
  end.

Fixpoint stream_acts_allowed (acts : list stream_act) (s : stream) : Prop :=
  match acts with
  | [] => True
  | a :: acts => stream_act_allowed s a /\ forall s', stream_act_do a s = Ret s' -> stream_acts_allowed acts s'
  end.

(** The loop will come back to an open stream: the queue is watched or fed, completed
    requests and a shutdown with nothing left to write are fed. *)
Definition live_queues (s : stream) : Prop :=
  s_open s = true -> (write_queue s <> [] -> pollout s = true \/ fed s = true) /\ (write_completed_queue s <> [] -> fed s = true).
Definition live_shutdown (s : stream) : Prop :=
  s_open s = true -> shutdown_req s <> None -> write_queue s = [] -> fed s = true.

Lemma fresh_parts pq s i : inv pq s -> i ∉ accepted s ->
  (i ∉ (calls s).*1) /\ (i ∉ pq) /\ (i ∉ write_completed_queue s) /\ (i ∉ write_queue s).
Proof. intros I. rewrite <- (v_order _ _ I), !not_elem_of_app. tauto. Qed.

Lemma room_counts pq s n : inv pq s -> room_for s n ->
  wrap 32 (active_reqs s + 1) = active_reqs s + 1 /\ wrap 64 (write_queue_size s + Z.of_nat n) = write_queue_size s + Z.of_nat n.
Proof.
  intros I [H1 H2]. pose proof (v_size _ _ I). pose proof (v_active _ _ I). split; apply wrap_small; unfold uint_ok; lia.
Qed.

(** A request is put into the queue. *)
Lemma inv_enqueue pq s i bufs :
  inv pq s -> i ∉ accepted s -> room_for s (total bufs) -> bufs <> [] -> s_writable s = true ->
  inv pq (set_accepted (accepted s ++ [i]) (set_queue (write_queue s ++ [i])
    (set_size (wrap 64 (write_queue_size s + Z.of_nat (total bufs)))
       (set_req i (mkReq (Some bufs) (length bufs) 0 0 (mjoin bufs) []) (req_register s))))).
Proof.
  intros I Hi Hroom Hne Hw. unfold req_register. destruct (room_counts _ _ _ I Hroom) as [-> ->].
  destruct (fresh_parts _ _ _ I Hi) as (F1 & F2 & F3 & F4).
  set (r := mkReq (Some bufs) (length bufs) 0 0 (mjoin bufs) []).
  destruct I as [H1 H2 H3 H4 H5 H6 H7 H8 H9 H10 H11 H12 H13 H14 H15].
  assert (Hs : sent_of (<[i := r]> (reqs s)) i = []) by (unfold sent_of; by rewrite lookup_insert_eq).
  constructor; st_cbn; try done.
  - by rewrite <- H1, <- !app_assoc.
  - apply list.NoDup_app. split_and!; [done|set_solver|apply list.NoDup_singleton].
  - apply list.Forall_app. split; [by apply reqs_frame|]. constructor; [|done]. exists r. rewrite lookup_insert_eq. split; [done|].
    exists bufs. cbn. split_and!; try done. destruct bufs; [done|cbn; lia].
  - assert (Hq : Forall (fun j => sent_of (<[i := r]> (reqs s)) j = []) (tail (write_queue s))).
    { rewrite list.Forall_forall in *. intros j Hj. specialize (H4 j Hj). unfold sent_of in *. rewrite lookup_insert_ne; [done|].
      intros ->. apply F4. destruct (write_queue s); [by apply not_elem_of_nil in Hj|by right]. }
    destruct (write_queue s) as [|j q]; [done|]. cbn [tail app] in *. apply list.Forall_app. split; [done|]. by constructor.
  - apply list.Forall_app in H5 as [H5a H5b]. apply list.Forall_app. split; by apply reqs_frame.
  - rewrite list.Forall_forall in *. intros c Hc. specialize (H6 c Hc). rewrite lookup_insert_ne; [done|].
    intros ->. apply F1, list_elem_of_fmap. by exists c.
  - rewrite all_sent_app, all_sent_insert, all_sent_cons, Hs by done. by rewrite H7, app_nil_r.
  - assert (El : left_of (<[i := r]> (reqs s)) i = total bufs) by (unfold left_of; rewrite lookup_insert_eq; done).
    rewrite H8, !sum_left_app, !sum_left_insert, sum_left_single, El by done. lia.
  - rewrite H9, !length_app. cbn [length]. lia.
  - intros H. rewrite (H12 (or_intror H)) in Hw. done.
  - apply Hroom.
Qed.

Lemma writable_facts pq s : inv pq s -> s_writable s = true -> s_open s = true /\ shutdown_req s = None /\ s_shut s = false.
Proof.
  intros I Hw. split_and!.
  - destruct (s_open s) eqn:E; [done|]. destruct (v_closed _ _ I E). congruence.
  - destruct (shutdown_req s) eqn:E; [|done]. rewrite (v_shutting _ _ I) in Hw; [done|]. left. by rewrite E.
  - destruct (s_shut s) eqn:E; [|done]. rewrite (v_shutting _ _ I) in Hw; [done|]. by right.
Qed.

Record act_ok (pq : list nat) (s s' : stream) : Prop := {
  o_inv : inv pq s';
  o_live : live_queues s -> live_queues s';
  o_shut : live_shutdown s -> live_shutdown s';
  o_closed : s_open s = false -> s' = s }.

Lemma act_ok_refl pq s : inv pq s -> act_ok pq s s.
Proof. by constructor. Qed.

Lemma act_ok_trans pq s1 s2 s3 : act_ok pq s1 s2 -> act_ok pq s2 s3 -> act_ok pq s1 s3.
Proof. intros [A1 A2 A3 A4] [B1 B2 B3 B4]. constructor; auto. intros H. specialize (A4 H). subst. auto. Qed.

Lemma uv_write_ok pq s i bufs :
  inv pq s -> i ∉ accepted s -> room_for s (total bufs) -> exists c s', uv_write i bufs true s = Ret (c, s') /\ act_ok pq s s'.
Proof.
  intros I Hi Hroom. unfold uv_write, uv__check_before_write.
  destruct ((Z.of_nat (length bufs) <? 1) || _) eqn:En.
  { eexists _, s. split; [done|]. by apply act_ok_refl. }
  destruct (s_open s) eqn:Ho; cbn [negb]; [|eexists _, s; split; [done|]; by apply act_ok_refl].
  destruct (s_writable s) eqn:Hw; cbn [negb]; [|eexists _, s; split; [done|]; by apply act_ok_refl].
  cbn [Z.ltb Z.compare]. reflect_bools. assert (Hne : bufs <> []) by (destruct bufs; cbn in *; [lia|done]).
  rewrite andb_false_r. pose proof (inv_enqueue pq s i bufs I Hi Hroom Hne Hw) as I1.
  destruct (writable_facts pq s I Hw) as (_ & Hsh & _). cbv zeta.
  set (s1 := set_accepted _ _) in *.
  destruct (write_queue_size s =? 0).
  - unfold uv__write. change (s_open s1) with (s_open s). rewrite Ho.
    destruct (write_loop_ok pq 32 s1 I1 Ho) as (s2 & -> & I2 & P). cbn [mbind outcome_bind]. exists 0, s2. split; [done|].
    destruct P as [P1 P2 P3 P4 P5 P6 P7 P8 P9]. constructor; [done|..].
    + intros L _. split; [done|]. intros Hc. destruct P9 as [[E1 E2]|?]; [|done]. rewrite E2. rewrite E1 in Hc. by apply (L Ho).
    + intros _ _ Hs. rewrite P4 in Hs. by destruct (Hs Hsh).
    + congruence.
  - eexists 0, _. split; [done|]. constructor; [by apply inv_pollout|..].
    + intros L _. split; [by left|]. apply (L Ho).
    + intros _ _ Hs. by destruct (Hs Hsh).
    + congruence.
Qed.

Lemma uv_shutdown_ok pq s i : inv pq s -> room_for s 0 -> exists c s', uv_shutdown i s = Ret (c, s') /\ act_ok pq s s'.
Proof.
  intros I Hroom. unfold uv_shutdown. destruct (_ || _ || _ || _) eqn:E.
  { eexists _, s. split; [done|]. by apply act_ok_refl. }
  reflect_bools. destruct (writable_facts pq s I) as (Ho & Hsh & Hs); [done|]. rewrite Ho. cbn [negb].
  eexists _, _. split; [done|]. unfold req_register. rewrite (proj1 (room_counts _ _ _ I Hroom)).
  assert (I1 : inv pq (set_writable false (set_shutdown (Some i) (set_active (active_reqs s + 1) s)))).
  { destruct I as [J1 J2 J3 J4 J5 J6 J7 J8 J9 J10 J11 J12 J13 J14 J15]. constructor; st_cbn; try done.
    - rewrite J9, Hsh. change (length (option_list (@None nat))) with 0%nat. change (length (option_list (Some i))) with 1%nat. lia.
    - intros ?. congruence.
    - intros ?. congruence. }
  destruct (bool_decide_reflect (write_queue (set_writable false (set_shutdown (Some i) (set_active (active_reqs s + 1) s))) = [])) as [Hq|Hq].
  - constructor; [by apply inv_fed| | |congruence].
    + intros L _. split; [by right|done].
    + by intros _ _ _ _.
  - constructor; [done| | |congruence].
    + intros L _. apply (L Ho).
    + intros _ _ _ Hq'. by destruct (Hq Hq').
Qed.

Lemma stream_close_ok pq s : inv pq s -> s_closing s = false -> exists s', stream_close s = Ret s' /\ act_ok pq s s'.
Proof.
  intros I Hc. unfold stream_close. rewrite Hc. eexists. split; [done|].
  pose proof (v_closing _ _ I) as E. rewrite Hc in E. symmetry in E. apply negb_false_iff in E. constructor; try done; [|congruence].
  destruct I as [H1 H2 H3 H4 H5 H6 H7 H8 H9 H10 H11 H12 H13 H14 H15]. by constructor.
Qed.

Lemma stream_act_ok pq s a : inv pq s -> stream_act_allowed s a -> exists s', stream_act_do a s = Ret s' /\ act_ok pq s s'.
Proof.
  intros I Ha. destruct a as [i bufs|i|]; cbn [stream_act_do].
  - destruct (uv_write_ok pq s i bufs I (proj1 Ha) (proj2 Ha)) as (c & s' & -> & H). eauto.
  - destruct (uv_shutdown_ok pq s i I Ha) as (c & s' & -> & H). eauto.
  - by apply stream_close_ok.
Qed.

Lemma stream_acts_ok pq acts s :
  inv pq s -> stream_acts_allowed acts s -> exists s', stream_acts_do acts s = Ret s' /\ act_ok pq s s'.
Proof.
  revert s. induction acts as [|a acts IH]; intros s I Ha; cbn [stream_acts_do]; [eauto using act_ok_refl|].
  destruct Ha as [Ha Hr]. destruct (stream_act_ok pq s a I Ha) as (s1 & E & O1). rewrite E. cbn [mbind outcome_bind].
  destruct (IH s1 (o_inv _ _ _ O1) (Hr s1 E)) as (s2 & -> & O2). eauto using act_ok_trans.
Qed.

(** *** Callbacks *)

(** The first of the requests to call is called. *)
Lemma inv_call i pq s r :
  inv (i :: pq) s -> reqs s !! i = Some r ->
  inv pq (set_calls (calls s ++ [(i, w_error r)])
    (set_req i (mkReq None (w_nbufs r) (w_index r) (w_error r) (w_data r) (w_sent r))
       (set_size (write_queue_size s - Z.of_nat (left_of (reqs s) i)) (set_active (active_reqs s - 1) s)))).
Proof.
  intros [H1 H2 H3 H4 H5 H6 H7 H8 H9 H10 H11 H12 H13 H14 H15] Hr.
  set (r' := mkReq None (w_nbufs r) (w_index r) (w_error r) (w_data r) (w_sent r)).
  pose proof H2 as Hn. rewrite <- H1 in Hn. apply list.NoDup_app in Hn as (_ & Hn1 & Hn2). cbn in Hn2. apply list.NoDup_cons in Hn2 as [Hn2 _].
  rewrite !not_elem_of_app in Hn2. destruct Hn2 as (F2 & F3 & F4).
  assert (F1 : i ∉ (calls s).*1) by (intros Hin; apply (Hn1 i Hin); by left).
  assert (Hsent : forall j, sent_of (<[i := r']> (reqs s)) j = sent_of (reqs s) j).
  { intros j. unfold sent_of. destruct (decide (i = j)) as [<-|]; [by rewrite lookup_insert_eq, Hr|by rewrite lookup_insert_ne]. }
  cbn in H5. apply list.Forall_cons in H5 as [(r0 & Hr0 & Hd) H5]. rewrite Hr in Hr0. simplify_eq.
  apply list.Forall_app in H5 as [H5a H5b].
  constructor; st_cbn; try done.
  - rewrite <- H1, fmap_app. cbn. by rewrite <- app_assoc.
  - by apply reqs_frame.
  - rewrite list.Forall_forall in *. intros j Hj. rewrite Hsent. by apply H4.
  - apply list.Forall_app. split; by apply reqs_frame.
  - apply list.Forall_app. split.
    + rewrite list.Forall_forall in *. intros c Hc. specialize (H6 c Hc). rewrite lookup_insert_ne; [done|].
      intros ->. apply F1, list_elem_of_fmap. by exists c.
    + constructor; [|done]. exists r'. cbn. rewrite lookup_insert_eq. split; [done|]. split; [done|]. by destruct Hd as [Hd _].
  - rewrite H7. unfold all_sent. f_equal. apply list_fmap_ext. intros j x _. by rewrite Hsent.
  - rewrite H8, <- !app_comm_cons. unfold sum_left at 1. cbn [sum_list_with]. fold (sum_left (reqs s) (pq ++ write_completed_queue s ++ write_queue s)).
    rewrite sum_left_insert by (rewrite !not_elem_of_app; done). lia.
  - rewrite H9. cbn [length app]. lia.
  - lia.
Qed.

Lemma ret_bind {A B} (a : A) (k : A -> outcome B) : (Ret a ≫= k) = k a.
Proof. done. Qed.

Section Theorems.
Context (script : nat -> Z -> stream -> list stream_act) (shut_script : Z -> stream -> list stream_act) (shutdown_error : Z).
Hypothesis script_ok : forall i e s, stream_acts_allowed (script i e s) s.
Hypothesis shut_script_ok : forall e s, stream_acts_allowed (shut_script e s) s.

(** What running callbacks does to the rest of the stream. *)
Record cb_post (s s' : stream) : Prop := {
  b_live : live_queues s -> live_queues s';
  b_closed : s_open s = false -> s_open s' = false /\ write_queue s' = write_queue s /\ write_completed_queue s' = write_completed_queue s }.

Lemma callbacks_loop_ok pq s :
  inv pq s -> exists s', callbacks_loop script pq s = Ret s' /\ inv [] s' /\ cb_post s s'.
Proof using script_ok.
  revert s. induction pq as [|i pq IH]; intros s I; cbn [callbacks_loop].
  { exists s. split; [done|]. split; [done|]. by constructor. }
  pose proof (v_active _ _ I) as Ha. cbn [app length] in Ha.
  unfold req_unregister at 1. rewrite (proj2 (Z.ltb_lt 0 _)), ret_bind by lia.
  pose proof (v_done _ _ I) as Hd. cbn in Hd. apply list.Forall_cons in Hd as [(r & Hr & Hd) _].
  assert (Hget : get_req i (set_active (active_reqs s - 1) s) = Ret r) by (unfold get_req; cbn; by rewrite Hr).
  rewrite Hget, ret_bind. pose proof (inv_call i pq s r I Hr) as I1. set (s1 := set_calls _ _) in I1.
  assert (Hmid : (match w_bufs r with
          | None => Ret (set_active (active_reqs s - 1) s)
          | Some _ => size ← uv__write_req_size r (set_active (active_reqs s - 1) s);
              Ret (set_req i (mkReq None (w_nbufs r) (w_index r) (w_error r) (w_data r) (w_sent r))
                     (set_size (write_queue_size (set_active (active_reqs s - 1) s) - size) (set_active (active_reqs s - 1) s)))
          end) = Ret (set_req i (mkReq None (w_nbufs r) (w_index r) (w_error r) (w_data r) (w_sent r))
       (set_size (write_queue_size s - Z.of_nat (left_of (reqs s) i)) (set_active (active_reqs s - 1) s)))).
  { assert (El : left_of (reqs s) i = length (mjoin (rest_bufs r))) by (unfold left_of; by rewrite Hr).
    destruct (w_bufs r) as [bufs|] eqn:Eb.
    - unfold uv__write_req_size. rewrite Eb. unfold total. rewrite <- El.
      pose proof (v_size _ _ I) as Hs. cbn [app] in Hs. unfold sum_left in Hs. cbn [sum_list_with] in Hs. st_cbn.
      pose proof (v_fits _ _ I). rewrite wrap_small by (unfold uint_ok; lia). rewrite (proj2 (Z.ltb_ge _ _)) by lia. done.
    - rewrite El. unfold rest_bufs. rewrite Eb. change (length (mjoin (@nil (list Z)))) with 0%nat. rewrite Z.sub_0_r.
      unfold set_req, set_size, set_active. st_cbn. rewrite insert_id; [done|]. rewrite Hr. f_equal. destruct r. cbn in *. by subst. }
  rewrite Hmid, ret_bind. cbv zeta. change (set_calls _ (set_req _ _ _)) with s1.
  destruct (stream_acts_ok pq (script i (w_error r) s1) s1 I1 (script_ok _ _ _)) as (s2 & -> & [O1 O2 O3 O4]). cbn [mbind outcome_bind].
  destruct (IH s2 O1) as (s3 & -> & I3 & [B1 B2]). exists s3. split; [done|]. split; [done|]. constructor.
  - intros L. apply B1, O2. exact L.
  - intros Ho. assert (E : s2 = s1) by (by apply O4). subst s2. by apply B2.
Qed.

Lemma write_callbacks_ok s :
  inv [] s -> exists s', uv__write_callbacks script s = Ret s' /\ inv [] s' /\ cb_post (set_completed [] s) s'.
Proof using script_ok.
  intros [H1 H2 H3 H4 H5 H6 H7 H8 H9 H10 H11 H12 H13 H14 H15]. unfold uv__write_callbacks. apply callbacks_loop_ok.
  constructor; st_cbn; try done. by rewrite app_nil_r.
Qed.

Lemma drain_ok s :
  inv [] s -> write_queue s = [] -> live_queues s ->
  exists s', uv__drain shut_script shutdown_error s = Ret s' /\ inv [] s' /\ live_queues s' /\ live_shutdown s' /\
    (s_open s = false -> s_open s' = false /\ write_queue s' = [] /\ write_completed_queue s' = write_completed_queue s /\ shutdown_req s' = None).
Proof using shut_script_ok.
  intros I Hq L. unfold uv__drain. rewrite bool_decide_eq_true_2 by done. cbn [negb]. cbv zeta.
  set (s0 := if s_closing s then s else set_pollout false s).
  assert (I0 : inv [] s0).
  { subst s0. destruct (s_closing s) eqn:Ec; [done|]. apply inv_pollout; [done|]. pose proof (v_closing _ _ I). destruct (s_open s); cbn in *; congruence. }
  assert (L0 : live_queues s0).
  { subst s0. destruct (s_closing s); [done|]. intros Ho. st_cbn. split; [by rewrite Hq|]. by apply L. }
  assert (F0 : write_queue s0 = [] /\ s_open s0 = s_open s /\ write_completed_queue s0 = write_completed_queue s /\
    s_closing s0 = s_closing s) by (subst s0; destruct (s_closing s) eqn:Ec; split_and!; st_cbn; congruence).
  clearbody s0. destruct F0 as (Fq & Fo & Fc & Fcl). 
  destruct (shutdown_req s0) as [i|] eqn:Esh.
  2: { exists s0. split; [done|]. split; [done|]. split; [done|]. split; [intros _ Hs; by rewrite Esh in Hs|]. intros Ho. by rewrite Fo. }
  assert (Hns : s_shut s0 = false). { destruct (s_shut s0) eqn:E; [|done]. destruct (v_shut _ _ I0 E). congruence. }
  rewrite Hns, orb_true_r. unfold req_unregister. st_cbn.
  pose proof (v_active _ _ I0) as Ha. rewrite Esh in Ha. change (length (option_list (Some i))) with 1%nat in Ha.
  rewrite (proj2 (Z.ltb_lt 0 _)) by lia. cbn [mbind outcome_bind]. st_cbn.
  set (err := if s_closing s0 then _ else _). set (s1 := set_shut_calls _ _).
  assert (I1 : inv [] s1).
  { pose proof (v_shutting _ _ I0) as Hw. rewrite Esh in Hw. specialize (Hw ltac:(by left)).
    destruct I0 as [J1 J2 J3 J4 J5 J6 J7 J8 J9 J10 J11 J12 J13 J14 J15]. subst s1.
    destruct (negb (s_closing s0) && (shutdown_error =? 0)); constructor; st_cbn; try done.
    all: change (length (option_list (@None nat))) with 0%nat; lia. }
  assert (L1 : live_queues s1 /\ live_shutdown s1).
  { subst s1. destruct (_ && _); (split; [exact L0|]); intros _ Hs; by destruct (Hs eq_refl). }
  destruct (stream_acts_ok [] (shut_script err s1) s1 I1 (shut_script_ok _ _)) as (s2 & -> & [O1 O2 O3 O4]).
  exists s2. split; [done|]. split; [done|]. split; [apply O2, L1|]. split; [apply O3, L1|].
  intros Ho. assert (E : s2 = s1) by (apply O4; subst s1; destruct (_ && _); st_cbn; congruence). subst s2 s1. destruct (_ && _); st_cbn; by rewrite Fo.
Qed.

(** *** The loop *)

Lemma uv__write_ok pq s : inv pq s -> s_open s = true -> exists s', uv__write s = Ret s' /\ inv pq s' /\ write_post s s'.
Proof. intros I Ho. unfold uv__write. rewrite Ho. by apply write_loop_ok. Qed.

Lemma stream_io_ok acts out s :
  inv [] s -> s_open s = true -> stream_acts_allowed acts s -> (out = false -> live_queues s /\ live_shutdown s) ->
  exists s', uv__stream_io script shut_script shutdown_error acts out s = Ret s' /\ inv [] s' /\ live_queues s' /\ live_shutdown s'.
Proof using script_ok shut_script_ok.
  intros I Ho Ha Hl. unfold uv__stream_io. pose proof (v_closing _ _ I) as Hc. rewrite Ho in *. cbn [negb] in *. rewrite Hc.
  destruct (stream_acts_ok [] acts s I Ha) as (s1 & -> & [O1 O2 O3 O4]). rewrite ret_bind.
  destruct (s_open s1) eqn:Ho1; cbn [negb].
  2: { exists s1. split; [done|]. split; [done|]. split; intros H; congruence. }
  destruct out.
  2: { destruct (Hl eq_refl). exists s1. split; [done|]. auto. }
  destruct (uv__write_ok [] s1 O1 Ho1) as (s2 & -> & I2 & P). rewrite ret_bind.
  destruct (write_callbacks_ok s2 I2) as (s3 & -> & I3 & [B1 B2]). rewrite ret_bind.
  assert (L3 : live_queues s3). { apply B1. intros _. st_cbn. split; [apply P|done]. }
  case_bool_decide as Hq.
  - destruct (drain_ok s3 I3 Hq L3) as (s4 & -> & I4 & L4 & L4' & _). eauto.
  - exists s3. split; [done|]. split; [done|]. split; [done|]. by intros _ _ ?.
Qed.

Lemma upd_nil i r s : upd i r [] (kern s) s = set_req i r s.
Proof. unfold upd, set_req, set_size, set_sent, set_kern. st_cbn. cbn [length]. by rewrite Z.sub_0_r, app_nil_r. Qed.

Lemma flush_loop_ok q s e :
  inv [] s -> s_open s = false -> write_queue s = q -> e < 0 ->
  exists s', flush_loop q e s = Ret s' /\ inv [] s' /\ s_open s' = false /\ write_queue s' = [].
Proof.
  revert s. induction q as [|i q IH]; intros s I Ho Hq He; cbn [flush_loop]; [eauto|].
  pose proof (v_queue _ _ I) as Hf. rewrite Hq in Hf. apply list.Forall_cons in Hf as [(r & Hr & Hrq) _].
  unfold get_req. rewrite Hr, ret_bind. apply IH; try done. rewrite <- upd_nil. 
  eapply (inv_head [] s i q r); [done|done|done|cbn; by rewrite app_nil_r|unfold rest_bufs; cbn; lia|apply I|].
  right. split_and!; [done..|]. split; [|cbn; lia]. right. split; [done|]. cbn. destruct Hrq as (bufs & _ & _ & _ & _ & <-). by apply prefix_app_r.
Qed.

(** *** Reachable states *)

Inductive stream_event := EvAct (a : stream_act) | EvIo (acts : list stream_act) (out : bool) | EvPending.

Definition stream_do (e : stream_event) (s : stream) : outcome stream :=
  match e with
  | EvAct a => stream_act_do a s
  | EvIo acts out => uv__stream_io script shut_script shutdown_error acts out s
  | EvPending => run_pending script shut_script shutdown_error s
  end.

(** The loop polls an open stream and runs a fed watcher; the program acts at any time. *)
Definition stream_allowed (s : stream) (e : stream_event) : Prop :=
  match e with
  | EvAct a => stream_act_allowed s a
  | EvIo acts _ => s_open s = true /\ stream_acts_allowed acts s
  | EvPending => fed s = true
  end.

Inductive stream_reachable (k : list kres) : stream -> Prop :=
| SR_init : stream_reachable k (stream_opened k)
| SR_step s s' e : stream_reachable k s -> stream_allowed s e -> stream_do e s = Ret s' -> stream_reachable k s'.

Definition stream_inv (s : stream) : Prop := inv [] s /\ live_queues s /\ live_shutdown s.

Lemma stream_step_ok s e : stream_inv s -> stream_allowed s e -> exists s', stream_do e s = Ret s' /\ stream_inv s'.
Proof using script_ok shut_script_ok.
  intros (I & L & L') Ha. destruct e as [a|acts out|]; cbn [stream_do stream_allowed] in *.
  - destruct (stream_act_ok [] s a I Ha) as (s' & -> & [O1 O2 O3 _]). exists s'. split; [done|]. split_and!; auto.
  - destruct Ha as [Ho Ha]. destruct (stream_io_ok acts out s I Ho Ha) as (s' & -> & ?); [done|]. exists s'. by split.
  - assert (Ho : s_open s = true). { destruct (s_open s) eqn:E; [done|]. destruct (v_closed _ _ I E) as (_ & _ & ?). congruence. }
    unfold run_pending. destruct (stream_io_ok [] true (set_fed false s)) as (s' & -> & ?); try done; [by apply inv_fed|]. exists s'. by split.
Qed.

Lemma stream_reachable_inv k s : Forall kres_ok k -> stream_reachable k s -> stream_inv s.
Proof using script_ok shut_script_ok.
  intros Hk. induction 1 as [|s s' e _ IH Ha Hd].
  - split; [constructor; cbn; try done; by (apply Forall_nil_2 || apply NoDup_nil_2 || intros [?|?])|]. split; by intros _.
  - destruct (stream_step_ok s e IH Ha) as (s1 & E & I1). rewrite Hd in E. by simplify_eq.
Qed.

(** ** Part 3: the theorems *)

(** The data of requests, in their order. *)
Definition data_of (m : gmap nat write_req) (i : nat) : list Z := match m !! i with Some r => w_data r | None => [] end.
Definition all_data (m : gmap nat write_req) (l : list nat) : list Z := mjoin (data_of m <$> l).

Lemma all_data_cons m i l : all_data m (i :: l) = data_of m i ++ all_data m l.
Proof. done. Qed.
Lemma all_data_app m l l' : all_data m (l ++ l') = all_data m l ++ all_data m l'.
Proof. unfold all_data. rewrite fmap_app. apply join_app. Qed.

(** No request has failed. *)
Definition no_errors (s : stream) : Prop := forall i r, i ∈ accepted s -> reqs s !! i = Some r -> w_error r = 0.

Lemma done_sent s l :
  Forall (fun i => exists r, reqs s !! i = Some r /\ result_ok (w_error r) r) l -> (forall i, i ∈ l -> i ∈ accepted s) -> no_errors s ->
  all_sent (reqs s) l = all_data (reqs s) l.
Proof.
  intros Hf. induction Hf as [|i l (r & Hr & Hd) Hf IH]; intros Hin Hno; [done|].
  rewrite all_sent_cons, all_data_cons, IH by (try done; intros j Hj; apply Hin; by right). f_equal.
  specialize (Hno i r (Hin i ltac:(by left)) Hr). unfold sent_of, data_of. rewrite Hr. destruct Hd as [[_ E]|[E _]]; [done|lia].
Qed.

Lemma inv_sent_data s : inv [] s -> no_errors s ->
  exists rest, all_data (reqs s) (accepted s) = sent s ++ rest /\ (write_queue s = [] -> rest = []).
Proof.
  intros I Hno. pose proof I as [H1 H2 H3 H4 H5 H6 H7 H8 H9 H10 H11 H12 H13 H14 H15]. cbn [app] in *.
  set (dn := (calls s).*1 ++ write_completed_queue s).
  assert (Hacc : accepted s = dn ++ write_queue s) by (subst dn; by rewrite <- app_assoc).
  assert (Ed : all_sent (reqs s) dn = all_data (reqs s) dn).
  { apply done_sent; [|intros i Hi; rewrite Hacc; apply elem_of_app; by left|done]. subst dn. apply list.Forall_app. split.
    - rewrite list.Forall_forall in H6. apply list.Forall_forall. intros i [c [-> Hc]]%list_elem_of_fmap. destruct (H6 c Hc) as (r & Hr & <- & Ho). eauto.
    - rewrite list.Forall_forall in H5. apply list.Forall_forall. intros i Hi. destruct (H5 i Hi) as (r & Hr & Ho & _). eauto. }
  rewrite H7, Hacc, all_sent_app, all_data_app, Ed. destruct (write_queue s) as [|i q].
  { exists []. split; [by rewrite !app_nil_r|done]. }
  apply list.Forall_cons in H3 as [(r & Hr & (bufs & _ & _ & _ & _ & Hdata)) _]. cbn [tail] in H4.
  exists (mjoin (drop (w_index r) bufs) ++ all_data (reqs s) q). split; [|done].
  rewrite all_sent_cons, all_data_cons, (all_sent_none (reqs s) q), app_nil_r by done. unfold sent_of, data_of. rewrite Hr, <- Hdata.
  by rewrite <- !app_assoc.
Qed.

(** C21. Writing keeps the order and reports the truth. In every reachable state, whatever the
    kernel takes of each write, however often it has no room, is interrupted or fails, and
    whatever the callbacks do, as long as fewer than [2^32] requests are active and fewer than
    [2^64] bytes queued, which is what the counters hold: no assertion fails; callbacks run once per request and in the
    order of the requests; status 0 means that the kernel has taken all data of the request;
    the bytes the kernel has taken are those of the requests one after the other; and unless
    a request has failed they are a beginning of all the data written, the whole of it when
    the queue is empty. *)
Theorem writes_in_order k s :
  Forall kres_ok k -> stream_reachable k s ->
  (forall e, stream_allowed s e -> exists s', stream_do e s = Ret s') /\
  (calls s).*1 `prefix_of` accepted s /\ NoDup (accepted s) /\
  (forall i e, (i, e) ∈ calls s -> exists r, reqs s !! i = Some r /\
     ((e = 0 /\ w_sent r = w_data r) \/ (e < 0 /\ w_sent r `prefix_of` w_data r))) /\
  sent s = all_sent (reqs s) (accepted s) /\
  (no_errors s -> sent s `prefix_of` all_data (reqs s) (accepted s) /\
     (write_queue s = [] -> sent s = all_data (reqs s) (accepted s))).
Proof using script_ok shut_script_ok.
  intros Hk Hr. pose proof (stream_reachable_inv k s Hk Hr) as SI. destruct SI as (I & L & L'). split_and!.
  - intros e He. destruct (stream_step_ok s e) as (s' & E & _); [done|done|]. eauto.
  - rewrite <- (v_order _ _ I). by apply prefix_app_r.
  - apply I.
  - intros i e Hin. pose proof (v_calls _ _ I) as Hc. rewrite list.Forall_forall in Hc. destruct (Hc _ Hin) as (r & ? & _ & ?). eauto.
  - apply I.
  - intros Hno. destruct (inv_sent_data s I Hno) as (rest & E & Hrest). rewrite E. split; [by apply prefix_app_r|].
    intros Hq. by rewrite (Hrest Hq), app_nil_r.
Qed.

(** C22. An open stream is never forgotten: while requests are queued the loop polls for
    POLLOUT or has the watcher in its pending queue, and completed requests whose callbacks
    have not run, and a shutdown with nothing left to write, are in the pending queue. The
    end of the stream is sent only after all queued data, and [write_queue_size] is the
    number of bytes not yet taken. *)
Theorem stream_not_stalled k s :
  Forall kres_ok k -> stream_reachable k s ->
  (s_open s = true -> (write_queue s <> [] -> pollout s = true \/ fed s = true) /\
     (write_completed_queue s <> [] -> fed s = true) /\ (shutdown_req s <> None -> write_queue s = [] -> fed s = true)) /\
  (s_shut s = true -> write_queue s = []) /\
  write_queue_size s = Z.of_nat (sum_left (reqs s) (write_completed_queue s ++ write_queue s)).
Proof using script_ok shut_script_ok.
  intros Hk Hr. destruct (stream_reachable_inv k s Hk Hr) as (I & L & L'). split_and!.
  - intros Ho. destruct (L Ho). split_and!; auto.
  - intros Hs. by destruct (v_shut _ _ I Hs).
  - apply (v_size _ _ I).
Qed.

(** Closing a stream answers everything: once [uv_close] was called, [uv__stream_destroy]
    runs the callback of every request that is left, with its own result or UV_ECANCELED,
    and of a pending shutdown; afterwards no request is active and no byte is counted, and
    its assertions hold. *)
Theorem destroy_completes k s :
  Forall kres_ok k -> stream_reachable k s -> s_closing s = true ->
  exists s', uv__stream_destroy script shut_script shutdown_error s = Ret s' /\
    (calls s').*1 = accepted s' /\ NoDup (calls s').*1 /\ shutdown_req s' = None /\ active_reqs s' = 0 /\ write_queue_size s' = 0.
Proof using script_ok shut_script_ok.
  intros Hk Hr Hc. destruct (stream_reachable_inv k s Hk Hr) as (I & _ & _).
  assert (Ho : s_open s = false) by (pose proof (v_closing _ _ I) as E; rewrite Hc in E; by destruct (s_open s)).
  unfold uv__stream_destroy, uv__stream_flush_write_queue. destruct (v_closed _ _ I Ho) as (_ & -> & _).
  destruct (flush_loop_ok (write_queue s) s UV_ECANCELED I Ho eq_refl ltac:(done)) as (s1 & -> & I1 & Ho1 & Hq1). rewrite ret_bind.
  destruct (write_callbacks_ok s1 I1) as (s2 & -> & I2 & [_ B]). rewrite ret_bind. destruct (B Ho1) as (Ho2 & Hq2 & Hc2). st_cbn. rewrite Hq1 in Hq2.
  destruct (drain_ok s2 I2 Hq2) as (s3 & -> & I3 & _ & _ & D); [intros ?; congruence|]. rewrite ret_bind.
  destruct (D Ho2) as (Ho3 & Hq3 & Hc3 & Hs3). rewrite Hc2 in Hc3.
  assert (Hz : write_queue_size s3 = 0) by (rewrite (v_size _ _ I3), Hq3, Hc3; done).
  rewrite Hz. exists s3. split; [done|].
  assert (E : (calls s3).*1 = accepted s3). { pose proof (v_order _ _ I3) as E. rewrite Hq3, Hc3 in E. cbn in E. by rewrite app_nil_r in E. }
  split_and!; try done; [rewrite E; apply I3|]. rewrite (v_active _ _ I3), Hq3, Hc3, Hs3. done.
Qed.

End Theorems.

(** *** A run *)

(** Callbacks that do nothing. *)
Definition quiet (i : nat) (e : Z) (s : stream) : list stream_act := [].
Definition quiet_shut (e : Z) (s : stream) : list stream_act := [].

Definition stream_allowedb (s : stream) (e : stream_event) : bool :=
  match e with
  | EvAct (AWrite i bufs) => bool_decide (i ∉ accepted s /\ room_for s (total bufs))
  | EvAct (AShutdown _) => bool_decide (room_for s 0)
  | EvAct AClose => negb (s_closing s)
  | EvIo [] _ => s_open s
  | EvIo _ _ => false
  | EvPending => fed s
  end.

Lemma stream_allowedb_sound s e : stream_allowedb s e = true -> stream_allowed s e.
Proof.
  destruct e as [[i bufs|i|]|[|a acts] out|]; cbn; try done.
  - by rewrite bool_decide_eq_true.
  - by rewrite bool_decide_eq_true.
  - by rewrite negb_true_iff.
Qed.

Fixpoint stream_run (es : list stream_event) (s : stream) : option stream :=
  match es with
  | [] => Some s
  | e :: es =>
      if stream_allowedb s e then match stream_do quiet quiet_shut 0 e s with Ret s' => stream_run es s' | _ => None end else None
  end.

Lemma stream_run_reachable k es s s' :
  stream_reachable quiet quiet_shut 0 k s -> stream_run es s = Some s' -> stream_reachable quiet quiet_shut 0 k s'.
Proof.
  revert s. induction es as [|e es IH]; intros s Hr; cbn; [by intros [= <-]|].
  destruct (stream_allowedb s e) eqn:Ea; [|done]. destruct (stream_do _ _ _ e s) as [s1| |] eqn:Ed; try done.
  apply IH. eapply SR_step; [done|by apply stream_allowedb_sound|done].
Qed.

(** The kernel takes three bytes of five, is busy, is interrupted, takes the rest, fails. *)
Definition demo_kernel : list kres := [KWrote 3; KAgain; KIntr; KWrote 9; KErr (-104); KAgain].
Definition demo_events : list stream_event :=
  [EvAct (AWrite 1 [[1; 2]; [3; 4; 5]]); EvAct (AWrite 2 [[6]; [7]]); EvAct (AWrite 3 [[8]]); EvIo [] true; EvIo [] true; EvPending].
Definition demo (es : list stream_event) : stream := default (stream_opened demo_kernel) (stream_run es (stream_opened demo_kernel)).

Lemma demo_reachable es : stream_run es (stream_opened demo_kernel) <> None -> stream_reachable quiet quiet_shut 0 demo_kernel (demo es).
Proof. unfold demo. destruct (stream_run es _) as [s|] eqn:E; [|done]. intros _. eapply stream_run_reachable; [apply SR_init|done]. Qed.

Lemma demo_kernel_ok : Forall kres_ok demo_kernel.
Proof. by repeat constructor. Qed.

Lemma writes_in_order_witness :
  calls (demo demo_events) = [(1%nat, 0); (2%nat, -104)] /\ sent (demo demo_events) = [1; 2; 3; 4; 5] /\
  (calls (demo demo_events)).*1 `prefix_of` accepted (demo demo_events).
Proof.
  split; [by vm_compute|]. split; [by vm_compute|].
  apply (writes_in_order quiet quiet_shut 0 ltac:(done) ltac:(done) demo_kernel); [apply demo_kernel_ok|].
  apply demo_reachable. by vm_compute.
Defined.

Lemma stream_not_stalled_witness :
  write_queue (demo demo_events) = [3%nat] /\ (pollout (demo demo_events) = true \/ fed (demo demo_events) = true).
Proof.
  split; [by vm_compute|].
  apply (stream_not_stalled quiet quiet_shut 0 ltac:(done) ltac:(done) demo_kernel); [apply demo_kernel_ok|..]; [apply demo_reachable|..]; by vm_compute.
Defined.

Lemma destroy_completes_witness :
  exists s', uv__stream_destroy quiet quiet_shut 0 (demo (demo_events ++ [EvAct (AShutdown 4); EvAct AClose])) = Ret s' /\ active_reqs s' = 0.
Proof.
  destruct (destroy_completes quiet quiet_shut 0 ltac:(done) ltac:(done) demo_kernel (demo (demo_events ++ [EvAct (AShutdown 4); EvAct AClose])))
    as (s' & H & _ & _ & _ & Ha & _); [apply demo_kernel_ok|apply demo_reachable; by vm_compute|by vm_compute|]. exists s'. split; [exact H|exact Ha].
Defined.

(** [uv_write] registers the request before it allocates the array for more than four
    buffers: when that fails it reports UV_ENOMEM and the loop counts an active request that
    nothing will ever finish. *)
Theorem write_enomem_leaks i bufs s :
  uv__check_before_write (Z.of_nat (length bufs)) s = 0 -> (4 < length bufs)%nat ->
  exists s', uv_write i bufs false s = Ret (UV_ENOMEM, s') /\ active_reqs s' = wrap 32 (active_reqs s + 1) /\ accepted s' = accepted s.
Proof.
  intros Hc Hl. unfold uv_write. rewrite Hc. cbn [Z.ltb Z.compare]. rewrite (proj2 (Nat.ltb_lt 4 _) Hl). cbn [negb andb]. eauto.
Qed.
