(* ===== verification/EpollCtl.v ===== *)
(** The registration of interest with epoll through io_uring, deps/libuv/src/unix/linux.c:
    [uv__epoll_ctl_prep] and [uv__epoll_ctl_flush].

    [uv__io_poll] collects its epoll_ctl calls in the ring of 256 entries that
    [uv__platform_loop_init] sets up and submits them together. An ADD of a descriptor that is
    known already fails and is tried again as a MOD. The model keeps the ring as the code has
    it: the 32-bit counters, the slots, the array of events that the entries point into, and
    the fields packed into [user_data]. The kernel's side of the ring carries the entries out
    in order, as io_uring does for epoll_ctl.

    Part 1 is the code, Part 2 what a ring stands for, Part 3 the theorems. *)

From S2P Require Import Prelude.

(** ** Part 1: the code *)

Definition EPOLL_CTL_ADD : Z := 1.
Definition EPOLL_CTL_DEL : Z := 2.
Definition EPOLL_CTL_MOD : Z := 3.
Definition ENOENT : Z := 2.
Definition EBADF : Z := 9.
Definition EEXIST : Z := 17.

Record epoll_event := mkEv { ev_events : Z; ev_fd : nat }.

#[export] Instance epoll_event_eq_dec : EqDecision epoll_event.
Proof. solve_decision. Defined.

(** epoll_ctl(2) on the set of interest: 0 or a negated error, and the set afterwards. *)
Definition epoll_ctl (open : nat -> bool) (op : Z) (fd : nat) (e : epoll_event) (ep : gmap nat epoll_event) : Z * gmap nat epoll_event :=
  if negb (open fd) then (- EBADF, ep)
  else
    match ep !! fd with
    | Some _ =>
        if op =? EPOLL_CTL_ADD then (- EEXIST, ep)
        else if op =? EPOLL_CTL_MOD then (0, <[fd := e]> ep)
        else (0, delete fd ep)
    | None => if op =? EPOLL_CTL_ADD then (0, <[fd := e]> ep) else (- ENOENT, ep)
    end.

Record sqe := mkSqe { sqe_addr : nat; sqe_len : Z; sqe_off : nat; sqe_user_data : Z }.
Record cqe := mkCqe { cqe_user_data : Z; cqe_res : Z }.

(** The ring: the counters, the two arrays, the events the entries point to, and the
    kernel's set of interest. *)
Record ring := mkRing {
  sqhead : Z; sqtail : Z; cqhead : Z; cqtail : Z;
  sqes : list sqe; cqes : list cqe; prep : list epoll_event; interest : gmap nat epoll_event }.

Definition sqmask : Z := 255.
Definition cqmask : Z := 511.
Definition slot_of (n : Z) : nat := Z.to_nat (Z.land n sqmask).

(** The ring as [uv__iou_init] leaves it, at any value of its counters. *)
Definition ring_init (sq cq : Z) (ep : gmap nat epoll_event) : ring :=
  mkRing sq sq cq cq (replicate 256 (mkSqe 0 0 0 0)) (replicate 512 (mkCqe 0 0)) (replicate 256 (mkEv 0 0)) ep.

Section Ring.

(** Which descriptors are open. *)
Context (open : nat -> bool).

(** The kernel's side of io_uring_enter: take the next entry, carry it out, post its result. *)
Definition enter_one (r : ring) : outcome ring :=
  match sqes r !! slot_of (sqhead r) with
  | None => UB
  | Some q =>
      match prep r !! sqe_addr q with
      | None => UB
      | Some e =>
          let '(res, ep) := epoll_ctl open (sqe_len q) (sqe_off q) e (interest r) in
          Ret (mkRing (u32 (sqhead r + 1)) (sqtail r) (cqhead r) (u32 (cqtail r + 1)) (sqes r)
                 (<[Z.to_nat (Z.land (cqtail r) cqmask) := mkCqe (sqe_user_data q) res]> (cqes r)) (prep r) ep)
      end
  end.

Fixpoint io_uring_enter (n : nat) (r : ring) : outcome ring :=
  match n with O => Ret r | S n => r ← enter_one r; io_uring_enter n r end.

(** [uv__epoll_ctl_prep] up to the test whether the ring is full. *)
Definition prep_entry (op : Z) (fd : nat) (e : epoll_event) (r : ring) : outcome ring :=
  if negb ((op =? EPOLL_CTL_ADD) || (op =? EPOLL_CTL_MOD)) then AssertFail
  else
    let slot := slot_of (sqtail r) in
    if (slot <? length (prep r))%nat && (slot <? length (sqes r))%nat then
      let user_data := Z.lor (Z.lor op (Z.shiftl (Z.of_nat slot) 2)) (Z.shiftl (Z.of_nat fd) 32) in
      Ret (mkRing (sqhead r) (u32 (sqtail r + 1)) (cqhead r) (cqtail r)
             (<[slot := mkSqe slot op fd user_data]> (sqes r)) (cqes r) (<[slot := e]> (prep r)) (interest r))
    else UB.

Definition ring_full (r : ring) : bool := Z.land (sqhead r) sqmask =? Z.land (sqtail r) sqmask.

(** [uv__epoll_ctl_prep] and [uv__epoll_ctl_flush] call each other. [None] is a model that
    has run out of fuel; [AssertFail] is also the code's abort. *)
Fixpoint uv__epoll_ctl_flush (fuel : nat) (r : ring) : option (outcome ring) :=
  match fuel with
  | O => None
  | S fuel =>
      if sqhead r =? sqtail r then Some AssertFail
      else
        let n := u32 (sqtail r - sqhead r) in
        match io_uring_enter (Z.to_nat n) r with
        | Ret r => if sqhead r =? sqtail r then cq_loop fuel (prep r) r else Some AssertFail
        | o => Some o
        end
  end
with cq_loop (fuel : nat) (oldevents : list epoll_event) (r : ring) : option (outcome ring) :=
  match fuel with
  | O => None
  | S fuel =>
      if cqhead r =? cqtail r then Some (Ret r)
      else
        match cqes r !! Z.to_nat (Z.land (cqhead r) cqmask) with
        | None => Some UB
        | Some c =>
            let r := mkRing (sqhead r) (sqtail r) (u32 (cqhead r + 1)) (cqtail r) (sqes r) (cqes r) (prep r) (interest r) in
            if cqe_res c =? 0 then cq_loop fuel oldevents r
            else
              let fd := Z.to_nat (Z.shiftr (cqe_user_data c) 32) in
              let op := Z.land 3 (cqe_user_data c) in
              let oldslot := Z.to_nat (Z.land 255 (Z.shiftr (cqe_user_data c) 2)) in
              if op =? EPOLL_CTL_DEL then cq_loop fuel oldevents r
              else if negb (op =? EPOLL_CTL_ADD) then Some AssertFail
              else if negb (cqe_res c =? - EEXIST) then Some AssertFail
              else
                match oldevents !! oldslot with
                | None => Some UB
                | Some e =>
                    match prep_entry EPOLL_CTL_MOD fd e r with
                    | Ret r =>
                        match (if ring_full r then uv__epoll_ctl_flush fuel r else Some (Ret r)) with
                        | Some (Ret r) => cq_loop fuel oldevents r
                        | o => o
                        end
                    | o => Some o
                    end
                end
        end
  end.

(** Fuel for one flush: a ring of completions, and once more for a ring of retries. *)
Definition flush_fuel : nat := 600.

Definition run_flush (r : ring) : outcome ring :=
  match uv__epoll_ctl_flush flush_fuel r with Some o => o | None => UB end.

Definition uv__epoll_ctl_prep (op : Z) (fd : nat) (e : epoll_event) (r : ring) : outcome ring :=
  r ← prep_entry op fd e r;
  if ring_full r then run_flush r else Ret r.

(** The loop of [uv__io_poll] that flushes until the ring is empty. *)
Fixpoint flush_all (fuel : nat) (r : ring) : outcome ring :=
  if sqhead r =? sqtail r then Ret r
  else match fuel with O => UB | S fuel => r ← run_flush r; flush_all fuel r end.

(** The same registration without a ring: [epoll_ctl], and MOD when ADD finds the descriptor
    there. *)
Definition ctl_direct (op : Z) (fd : nat) (e : epoll_event) (ep : gmap nat epoll_event) : outcome (gmap nat epoll_event) :=
  let '(res, ep1) := epoll_ctl open op fd e ep in
  if res =? 0 then Ret ep1
  else if negb (op =? EPOLL_CTL_ADD) then AssertFail
  else if negb (res =? - EEXIST) then AssertFail
  else
    let '(res, ep2) := epoll_ctl open EPOLL_CTL_MOD fd e ep1 in
    if res =? 0 then Ret ep2 else AssertFail.

End Ring.

(** ** Part 2: what a ring stands for *)

Abbreviation entry := (Z * nat * epoll_event)%type.
Definition e_fd (x : entry) : nat := x.1.2.

Definition user_data (x : entry) (slot : nat) : Z :=
  Z.lor (Z.lor x.1.1 (Z.shiftl (Z.of_nat slot) 2)) (Z.shiftl (Z.of_nat (e_fd x)) 32).

(** The entries between head and tail are the list. *)
Definition ring_holds (r : ring) (l : list entry) : Prop :=
  uint_ok 32 (sqhead r) /\ sqtail r = u32 (sqhead r + Z.of_nat (length l)) /\ (length l <= 256)%nat /\
  (length (sqes r) = 256 /\ length (prep r) = 256 /\ length (cqes r) = 512)%nat /\
  forall (i : nat) (x : entry), l !! i = Some x ->
    let slot := slot_of (sqhead r + Z.of_nat i) in
    sqes r !! slot = Some (mkSqe slot x.1.1 (e_fd x) (user_data x slot)) /\ prep r !! slot = Some x.2.

(** The completions between head and tail are those of the entries at the slots from [h] on. *)
Definition cq_holds (r : ring) (h : Z) (l : list entry) (res : list Z) : Prop :=
  uint_ok 32 (cqhead r) /\ cqtail r = u32 (cqhead r + Z.of_nat (length l)) /\ length l = length res /\ (length l <= 256)%nat /\
  forall (k : nat) (x : entry) (v : Z), l !! k = Some x -> res !! k = Some v ->
    cqes r !! Z.to_nat ((cqhead r + Z.of_nat k) mod 512) = Some (mkCqe (user_data x (slot_of (h + Z.of_nat k))) v).

(** What the set of interest becomes when the entries take effect. *)
Definition eff (ep : gmap nat epoll_event) (l : list entry) : gmap nat epoll_event :=
  foldr (fun x m => <[e_fd x := x.2]> m) ep l.

Definition entry_ok (open : nat -> bool) (ep : gmap nat epoll_event) (x : entry) : Prop :=
  open (e_fd x) = true /\ (x.1.1 = EPOLL_CTL_ADD \/ x.1.1 = EPOLL_CTL_MOD /\ is_Some (ep !! e_fd x)).

Definition entries_ok (open : nat -> bool) (ep : gmap nat epoll_event) (l : list entry) : Prop :=
  NoDup (e_fd <$> l) /\ Forall (entry_ok open ep) l.

(** The kernel's results for a list of entries. *)
Fixpoint raw (open : nat -> bool) (ep : gmap nat epoll_event) (l : list entry) : list Z * gmap nat epoll_event :=
  match l with
  | [] => ([], ep)
  | x :: l =>
      let '(v, ep) := epoll_ctl open x.1.1 (e_fd x) x.2 ep in
      let '(vs, ep) := raw open ep l in (v :: vs, ep)
  end.

(** The entries to try again, as MOD. *)
Fixpoint retries (l : list entry) (res : list Z) : list entry :=
  match l, res with
  | x :: l, v :: res => (if v =? 0 then [] else [(EPOLL_CTL_MOD, e_fd x, x.2)]) ++ retries l res
  | _, _ => []
  end.

Lemma slot_of_mod n : slot_of n = Z.to_nat (n mod 256).
Proof. unfold slot_of, sqmask. change 255 with (2 ^ 8 - 1). by rewrite land_pow2_mask. Qed.

Lemma u32_mod z n : 0 <= n <= 32 -> (u32 z) mod 2 ^ n = z mod 2 ^ n.
Proof.
  intros. unfold wrap. apply Z.mod_mod_divide. exists (2 ^ (32 - n)).
  rewrite <- Z.pow_add_r by lia. f_equal. lia.
Qed.

Lemma slot_of_u32 z k : slot_of (u32 z + k) = slot_of (z + k).
Proof.
  rewrite !slot_of_mod. change 256 with (2 ^ 8). rewrite Z.add_mod, u32_mod, <- Z.add_mod by lia. done.
Qed.

Lemma cq_u32 z k : (u32 z + k) mod 512 = (z + k) mod 512.
Proof. change 512 with (2 ^ 9). rewrite Z.add_mod, u32_mod, <- Z.add_mod by lia. done. Qed.

Lemma slot_lt n : (slot_of n < 256)%nat.
Proof. rewrite slot_of_mod. pose proof (Z.mod_pos_bound n 256). lia. Qed.

(** Within a ring's length, different places are different slots. *)
Lemma mod_ne a i j m : 0 <= i < m -> 0 <= j < m -> i <> j -> (a + i) mod m <> (a + j) mod m.
Proof.
  intros Hi Hj Hne E. apply Hne.
  assert ((a + i - (a + j)) mod m = 0) as E0 by (rewrite Zminus_mod, E, Z.sub_diag; apply Z.mod_0_l; lia).
  apply Z.mod_divide in E0 as [q E0]; [|lia]. assert (i - j = q * m) by lia.
  assert (q = 0) by nia. lia.
Qed.

Lemma slot_ne h (i j : nat) : (i < 256)%nat -> (j < 256)%nat -> i <> j -> slot_of (h + Z.of_nat i) <> slot_of (h + Z.of_nat j).
Proof.
  intros Hi Hj Hne E. rewrite !slot_of_mod in E. apply Z2Nat.inj in E; [|apply Z.mod_pos_bound; lia..].
  eapply (mod_ne h (Z.of_nat i) (Z.of_nat j) 256); lia.
Qed.

Lemma eff_insert ep l fd e : fd ∉ (e_fd <$> l) -> eff (<[fd := e]> ep) l = <[fd := e]> (eff ep l).
Proof.
  induction l as [|x l IH]; [done|]. rewrite fmap_cons, not_elem_of_cons. intros [Hne Hn].
  change (<[e_fd x := x.2]> (eff (<[fd := e]> ep) l) = <[fd := e]> (<[e_fd x := x.2]> (eff ep l))).
  rewrite IH by done. apply insert_insert_ne. congruence.
Qed.

Lemma eff_snoc ep l x : e_fd x ∉ (e_fd <$> l) -> eff ep (l ++ [x]) = <[e_fd x := x.2]> (eff ep l).
Proof. intros. unfold eff. rewrite foldr_app. cbn. by apply eff_insert. Qed.

Lemma entries_ok_cons open ep x l :
  entries_ok open ep (x :: l) <-> entry_ok open ep x /\ e_fd x ∉ (e_fd <$> l) /\ entries_ok open ep l.
Proof. unfold entries_ok. rewrite fmap_cons, list.NoDup_cons, list.Forall_cons. tauto. Qed.

Lemma entry_ok_insert open ep x fd e : entry_ok open ep x -> entry_ok open (<[fd := e]> ep) x.
Proof.
  intros [Ho [H|[H1 H2]]]; split; [done|by left|done|right]. split; [done|].
  destruct (decide (fd = e_fd x)) as [->|]; [rewrite lookup_insert_eq|rewrite lookup_insert_ne by done]; eauto.
Qed.

Lemma entries_ok_insert open ep l fd e : entries_ok open ep l -> entries_ok open (<[fd := e]> ep) l.
Proof. intros [H1 H2]. split; [done|]. eapply list.Forall_impl; [exact H2|]. intros. by apply entry_ok_insert. Qed.

(** A round of the kernel: what was not registered is left to the retries. *)
Lemma raw_eff open l : forall ep res ep',
  entries_ok open ep l -> raw open ep l = (res, ep') ->
  length res = length l /\ eff ep' (retries l res) = eff ep l /\
  entries_ok open ep' (retries l res) /\ (forall x, x ∈ retries l res -> e_fd x ∈ (e_fd <$> l)) /\
  (forall fd, is_Some (ep !! fd) -> is_Some (ep' !! fd)) /\
  (forall k x v, l !! k = Some x -> res !! k = Some v -> v = 0 \/ v = - EEXIST /\ x.1.1 = EPOLL_CTL_ADD).
Proof.
  induction l as [|x l IH]; intros ep res ep' Hok Hr.
  { cbn in Hr. simplify_eq. repeat split; [constructor|constructor|set_solver|done|]. intros k x v Hk. by rewrite lookup_nil in Hk. }
  apply entries_ok_cons in Hok as (Hx & Hn & Hok). cbn in Hr.
  destruct (epoll_ctl open x.1.1 (e_fd x) x.2 ep) as [v ep1] eqn:Ec. destruct (raw open ep1 l) as [vs ep2] eqn:Er. simplify_eq.
  assert ((v = 0 /\ ep1 = <[e_fd x := x.2]> ep) \/ (v = - EEXIST /\ x.1.1 = EPOLL_CTL_ADD /\ ep1 = ep /\ is_Some (ep !! e_fd x))) as Hv.
  { destruct Hx as [Ho Hop]. unfold epoll_ctl in Ec. rewrite Ho in Ec. cbn [negb] in Ec.
    destruct Hop as [E|[E [w Hw]]]; rewrite E in Ec |- *; [|rewrite Hw in Ec]; cbn in Ec; [|by left; simplify_eq].
    destruct (ep !! e_fd x) eqn:El; simplify_eq; [right; eauto|by left]. }
  assert (entries_ok open ep1 l) as Hok1 by (destruct Hv as [[_ ->]|(_ & _ & -> & _)]; [by apply entries_ok_insert|done]).
  destruct (IH _ _ _ Hok1 Er) as (Hl & He & Hre & Hsub & Hdom & Hval).
  assert (forall fd, is_Some (ep !! fd) -> is_Some (ep1 !! fd)) as Hdom1.
  { intros fd Hfd. destruct Hv as [[_ ->]|(_ & _ & -> & _)]; [|done]. rewrite lookup_insert. case_match; eauto. }
  split; [cbn; lia|]. destruct Hv as [[-> ->]|(-> & Hadd & -> & Hin)]; cbn [retries].
  - change (0 =? 0) with true. cbn [app]. split; [|split; [done|split; [set_solver|split; [eauto|]]]].
    + rewrite He. by apply eff_insert.
    + intros [|k] y w Hy Hw; [cbn in Hw; simplify_eq; by left|]. by eapply Hval.
  - change (- EEXIST =? 0) with false. cbn [app].
    split; [|split; [|split; [set_solver|split; [eauto|]]]].
    + change (<[e_fd x := x.2]> (eff ep' (retries l vs)) = <[e_fd x := x.2]> (eff ep l)). by rewrite He.
    + apply entries_ok_cons. split; [|split; [|done]].
      * destruct Hx as [Ho _]. split; [done|]. right. split; [done|]. by apply Hdom.
      * cbn [e_fd fst snd]. intros (y & E & Hy)%list_elem_of_fmap. apply Hsub in Hy. apply Hn.
        unfold e_fd in *. cbn in E. congruence.
    + intros [|k] y w Hy Hw; [cbn in Hy, Hw; simplify_eq; by right|]. by eapply Hval.
Qed.

(** Without a ring the entries take effect one by one. *)
Fixpoint all_direct (open : nat -> bool) (l : list entry) (ep : gmap nat epoll_event) : outcome (gmap nat epoll_event) :=
  match l with [] => Ret ep | x :: l => ep ← ctl_direct open x.1.1 (e_fd x) x.2 ep; all_direct open l ep end.

Lemma ctl_direct_ok open ep x : entry_ok open ep x -> ctl_direct open x.1.1 (e_fd x) x.2 ep = Ret (<[e_fd x := x.2]> ep).
Proof.
  intros [Ho Hop]. unfold ctl_direct, epoll_ctl. rewrite Ho. cbn [negb].
  destruct Hop as [E|[E [w Hw]]]; rewrite E; [|rewrite Hw]; [|done].
  destruct (ep !! e_fd x) eqn:El; [|done]. cbn. by rewrite El.
Qed.

Lemma all_direct_eff open l : forall ep, entries_ok open ep l -> all_direct open l ep = Ret (eff ep l).
Proof.
  induction l as [|x l IH]; intros ep Hok; [done|]. apply entries_ok_cons in Hok as (Hx & Hn & Hok).
  cbn [all_direct]. rewrite ctl_direct_ok by done. cbn [mbind outcome_bind].
  rewrite IH by by apply entries_ok_insert. by rewrite eff_insert.
Qed.

(** Decoding [user_data]. *)
Lemma user_data_decode (x : entry) slot :
  0 <= x.1.1 < 4 -> (slot < 256)%nat ->
  Z.land 3 (user_data x slot) = x.1.1 /\ Z.to_nat (Z.land 255 (Z.shiftr (user_data x slot) 2)) = slot /\
  Z.to_nat (Z.shiftr (user_data x slot) 32) = e_fd x.
Proof.
  intros Hop Hs. unfold user_data.
  assert (Z.lor x.1.1 (Z.shiftl (Z.of_nat slot) 2) = Z.of_nat slot * 2 ^ 2 + x.1.1) as ->
    by (rewrite Z.lor_comm; apply lor_shiftl_add; unfold uint_ok; lia).
  rewrite Z.lor_comm, lor_shiftl_add by (unfold uint_ok; lia).
  set (f := Z.of_nat (e_fd x)). set (q := Z.of_nat slot).
  change 3 with (2 ^ 2 - 1). change 255 with (2 ^ 8 - 1). rewrite !(Z.land_comm (2 ^ _ - 1)), !land_pow2_mask by lia.
  rewrite !Z.shiftr_div_pow2 by lia.
  assert ((f * 2 ^ 32 + (q * 2 ^ 2 + x.1.1)) / 2 ^ 2 = f * 2 ^ 30 + q) as ->.
  { symmetry. apply Z.div_unique with x.1.1; [lia|]. lia. }
  split; [|split].
  - symmetry. apply Z.mod_unique with (f * 2 ^ 30 + q); lia.
  - replace ((f * 2 ^ 30 + q) mod 2 ^ 8) with q; [lia|]. apply Z.mod_unique with (f * 2 ^ 22); lia.
  - replace ((f * 2 ^ 32 + (q * 2 ^ 2 + x.1.1)) / 2 ^ 32) with f; [lia|].
    apply Z.div_unique with (q * 2 ^ 2 + x.1.1); lia.
Qed.

(** A round of the kernel on the first entry. *)
Lemma enter_one_ok open r (x : entry) l :
  ring_holds r (x :: l) ->
  exists r', enter_one open r = Ret r' /\ ring_holds r' l /\ sqhead r' = u32 (sqhead r + 1) /\ sqtail r' = sqtail r /\
    prep r' = prep r /\ sqes r' = sqes r /\ cqhead r' = cqhead r /\ cqtail r' = u32 (cqtail r + 1) /\
    interest r' = (epoll_ctl open x.1.1 (e_fd x) x.2 (interest r)).2 /\
    cqes r' = <[Z.to_nat (cqtail r mod 512) := mkCqe (user_data x (slot_of (sqhead r))) (epoll_ctl open x.1.1 (e_fd x) x.2 (interest r)).1]> (cqes r).
Proof.
  intros (Hh & Ht & Hlen & (Hs & Hp & Hc) & Hi). destruct (Hi 0%nat x eq_refl) as [Hsq Hpr]. cbn in Hsq, Hpr.
  rewrite Z.add_0_r in Hsq, Hpr. unfold enter_one. rewrite Hsq. cbn [sqe_addr]. rewrite Hpr. cbn [sqe_len sqe_off sqe_user_data].
  destruct (epoll_ctl open x.1.1 (e_fd x) x.2 (interest r)) as [v ep]. eexists. split; [done|].
  cbn [sqhead sqtail cqhead cqtail sqes cqes prep interest fst snd].
  unfold cqmask. change 511 with (2 ^ 9 - 1). rewrite land_pow2_mask by lia. repeat split; try done.
  - apply wrap_ok. lia.
  - apply wrap_ok. lia.
  - cbn [sqtail sqhead]. rewrite Ht. cbn [length]. unfold wrap. rewrite Zplus_mod_idemp_l. f_equal. lia.
  - cbn [length] in Hlen. lia.
  - cbn. by rewrite length_insert.
  - cbn [sqhead sqes prep]. rewrite slot_of_u32. replace (sqhead r + 1 + Z.of_nat i) with (sqhead r + Z.of_nat (S i)) by lia. by apply Hi.
  - cbn [sqhead sqes prep]. rewrite slot_of_u32. replace (sqhead r + 1 + Z.of_nat i) with (sqhead r + Z.of_nat (S i)) by lia. by apply Hi.
Qed.

(** The kernel carries out everything that was submitted and posts as many completions. *)
Lemma enter_ok open l : forall r res ep',
  ring_holds r l -> uint_ok 32 (cqtail r) -> raw open (interest r) l = (res, ep') ->
  exists r', io_uring_enter open (length l) r = Ret r' /\ ring_holds r' [] /\
    sqhead r' = sqtail r /\ sqtail r' = sqtail r /\ prep r' = prep r /\ interest r' = ep' /\
    cqhead r' = cqhead r /\ cqtail r' = u32 (cqtail r + Z.of_nat (length l)) /\
    (forall (k : nat) (x : entry) (v : Z), l !! k = Some x -> res !! k = Some v ->
       cqes r' !! Z.to_nat ((cqtail r + Z.of_nat k) mod 512) = Some (mkCqe (user_data x (slot_of (sqhead r + Z.of_nat k))) v)) /\
    (forall j, Z.of_nat (length l) <= j < 512 ->
       cqes r' !! Z.to_nat ((cqtail r + j) mod 512) = cqes r !! Z.to_nat ((cqtail r + j) mod 512)).
Proof.
  induction l as [|x l IH]; intros r res ep' Hr Hct Hraw.
  { cbn in Hraw. simplify_eq. exists r. cbn [io_uring_enter length]. split; [done|]. split; [done|].
    destruct Hr as (Hh & Ht & _). rewrite !Z.add_0_r in *. rewrite (wrap_small _ _ Hh) in Ht. rewrite (wrap_small _ _ Hct).
    repeat split; done. }
  destruct (enter_one_ok open r x l Hr) as (r1 & E1 & Hr1 & Hh1 & Ht1 & Hp1 & Hs1 & Hc1 & Hct1 & Hi1 & Hq1).
  cbn [raw] in Hraw. destruct (epoll_ctl open x.1.1 (e_fd x) x.2 (interest r)) as [v ep1] eqn:Ec. cbn [fst snd] in *.
  destruct (raw open ep1 l) as [vs ep2] eqn:Er. simplify_eq.
  assert (uint_ok 32 (cqtail r1)) as Hct1' by (rewrite Hct1; apply wrap_ok; lia).
  destruct (IH r1 vs ep' Hr1 Hct1' Er) as (r' & E' & Hr' & Hh & Ht & Hp & Hi & Hc & Hct' & Hget & Hkeep).
  exists r'. split; [cbn [io_uring_enter length]; rewrite E1; exact E'|]. split; [done|].
  assert (length (cqes r) = 512%nat) as Hlc by apply Hr. assert (length l < 256)%nat as Hll.
  { destruct Hr as (_ & _ & Hl & _). cbn [length] in Hl. lia. }
  rewrite Hh, Ht, Hp, Hi, Hc, Hct', Hct1. repeat split; try congruence.
  - cbn [length]. unfold wrap. rewrite Zplus_mod_idemp_l. f_equal. lia.
  - intros [|k] y w Hy Hw.
    + cbn in Hy, Hw. simplify_eq. rewrite !Z.add_0_r.
      specialize (Hkeep 511 ltac:(lia)). rewrite Hct1, cq_u32 in Hkeep.
      assert ((cqtail r + 1 + 511) mod 512 = cqtail r mod 512) as E5 by (rewrite <- Z.add_assoc; change (1 + 511) with (1 * 512); apply Z.mod_add; lia).
      rewrite E5 in Hkeep. rewrite Hkeep, Hq1. apply list_lookup_insert_eq.
      pose proof (Z.mod_pos_bound (cqtail r) 512). lia.
    + cbn in Hy, Hw. specialize (Hget k y w Hy Hw). rewrite Hct1, cq_u32, Hh1, slot_of_u32 in Hget.
      replace (cqtail r + Z.of_nat (S k)) with (cqtail r + 1 + Z.of_nat k) by lia.
      replace (sqhead r + Z.of_nat (S k)) with (sqhead r + 1 + Z.of_nat k) by lia. done.
  - intros j Hj. cbn [length] in Hj. specialize (Hkeep (j - 1) ltac:(lia)). rewrite Hct1, cq_u32 in Hkeep.
    replace (cqtail r + 1 + (j - 1)) with (cqtail r + j) in Hkeep by lia. rewrite Hkeep, Hq1.
    apply list_lookup_insert_ne. intros E. apply Z2Nat.inj in E; [|apply Z.mod_pos_bound; lia..].
    rewrite <- (Z.add_0_r (cqtail r)) in E at 1. by apply mod_ne in E; [| |lia|lia].
Qed.

(** [uv__epoll_ctl_prep] without the flush appends an entry. *)
Lemma prep_entry_ok op fd e r l :
  ring_holds r l -> (length l < 256)%nat -> op = EPOLL_CTL_ADD \/ op = EPOLL_CTL_MOD ->
  exists r', prep_entry op fd e r = Ret r' /\ ring_holds r' (l ++ [(op, fd, e)]) /\
    ring_full r' = Nat.eqb (S (length l)) 256 /\
    cqhead r' = cqhead r /\ cqtail r' = cqtail r /\ cqes r' = cqes r /\ interest r' = interest r.
Proof.
  intros (Hh & Ht & Hlen & (Hs & Hp & Hc) & Hi) Hl Hop. unfold prep_entry.
  assert (((op =? EPOLL_CTL_ADD) || (op =? EPOLL_CTL_MOD))%bool = true) as -> by (destruct Hop as [-> | ->]; done).
  cbn [negb]. pose proof (slot_lt (sqtail r)) as Hlt.
  rewrite Hs, Hp, (proj2 (Nat.ltb_lt _ _) Hlt). cbn [andb].
  assert (slot_of (sqtail r) = slot_of (sqhead r + Z.of_nat (length l))) as Es.
  { rewrite Ht. rewrite <- (Z.add_0_r (u32 _)), slot_of_u32. f_equal. lia. }
  eexists. split; [done|]. split; [|split; [|done]].
  - split; [done|]. split; [|split; [rewrite length_app; cbn; lia|split; [cbn [sqes prep cqes]; by rewrite !length_insert|]]].
    + cbn [sqtail sqhead]. rewrite Ht, length_app. cbn [length]. unfold wrap. rewrite Zplus_mod_idemp_l. f_equal. lia.
    + intros i x Hx. cbn [sqhead sqes prep]. destruct (decide (i < length l)%nat) as [Hil|Hil].
      * rewrite lookup_app_l in Hx by done. rewrite Es, !list_lookup_insert_ne by (apply slot_ne; lia). by apply Hi.
      * rewrite lookup_app_r in Hx by lia. apply list_lookup_singleton_Some in Hx as [Hi0 <-].
        replace i with (length l) by lia. rewrite <- Es, !list_lookup_insert_eq by lia. done.
  - unfold ring_full, sqmask. cbn [sqhead sqtail]. change 255 with (2 ^ 8 - 1). rewrite !land_pow2_mask by lia.
    rewrite Ht, !u32_mod by lia. destruct (Nat.eqb_spec (S (length l)) 256) as [E|E]; [apply Z.eqb_eq|apply Z.eqb_neq].
    + rewrite Z.add_mod, u32_mod by lia. rewrite <- Z.add_mod by lia.
      replace (sqhead r + Z.of_nat (length l) + 1) with (sqhead r + 1 * 2 ^ 8) by lia. symmetry. by apply Z.mod_add.
    + rewrite (Z.add_mod (u32 _)), u32_mod, <- Z.add_mod by lia. rewrite <- (Z.add_0_r (sqhead r)) at 1.
      rewrite <- Z.add_assoc. apply mod_ne; lia.
Qed.

(** Reading off one completion. *)
Definition cq_advance (r : ring) : ring :=
  mkRing (sqhead r) (sqtail r) (u32 (cqhead r + 1)) (cqtail r) (sqes r) (cqes r) (prep r) (interest r).

Lemma cq_step r h (x : entry) l v res :
  cq_holds r h (x :: l) (v :: res) ->
  (cqhead r =? cqtail r) = false /\
  cqes r !! Z.to_nat (Z.land (cqhead r) cqmask) = Some (mkCqe (user_data x (slot_of h)) v) /\
  cq_holds (cq_advance r) (h + 1) l res.
Proof.
  intros (Hch & Hct & Hl & H256 & Hget). cbn [length] in *. unfold cqmask. change 511 with (2 ^ 9 - 1).
  rewrite land_pow2_mask by lia. change (2 ^ 9) with 512. split; [|split; [|split; [apply wrap_ok; lia|split; [|split; [lia|split; [lia|]]]]]].
  - apply Z.eqb_neq. rewrite Hct. intros E. unfold wrap, uint_ok in *.
    rewrite <- (Z.mod_small (cqhead r) (2 ^ 32)) in E at 1 by done.
    rewrite <- (Z.add_0_r (cqhead r)) in E at 1. apply mod_ne in E; lia.
  - specialize (Hget 0%nat x v eq_refl eq_refl). by rewrite !Z.add_0_r in Hget.
  - cbn [cq_advance cqhead cqtail]. rewrite Hct. unfold wrap. rewrite Zplus_mod_idemp_l. f_equal. lia.
  - intros k y w Hy Hw. cbn [cq_advance cqhead cqes]. rewrite cq_u32.
    replace (cqhead r + 1 + Z.of_nat k) with (cqhead r + Z.of_nat (S k)) by lia.
    replace (h + 1 + Z.of_nat k) with (h + Z.of_nat (S k)) by lia. by apply Hget.
Qed.

Lemma cq_nil r h : cq_holds r h [] [] -> cqhead r = cqtail r.
Proof. intros (Hch & Hct & _). by rewrite Hct, Z.add_0_r, (wrap_small _ _ Hch). Qed.

(** Completions that all succeeded are read off. *)
Lemma cq_loop_zeros open l : forall fuel old r h res,
  (length l < fuel)%nat -> cq_holds r h l res -> Forall (fun v => v = 0) res ->
  exists r', cq_loop open fuel old r = Some (Ret r') /\ sqhead r' = sqhead r /\ sqtail r' = sqtail r /\ sqes r' = sqes r /\
    prep r' = prep r /\ cqes r' = cqes r /\ interest r' = interest r /\ cqhead r' = cqtail r /\ cqtail r' = cqtail r.
Proof.
  induction l as [|x l IH]; intros [|fuel] old r h res Hf Hcq Hz; [cbn in Hf; lia| |cbn in Hf; lia|].
  { destruct res; [|by destruct Hcq as (_ & _ & ? & _)]. apply cq_nil in Hcq. cbn [cq_loop].
    rewrite (proj2 (Z.eqb_eq _ _)) by done. by exists r. }
  destruct res as [|v res]; [by destruct Hcq as (_ & _ & ? & _)|]. apply list.Forall_cons in Hz as [-> Hz].
  apply cq_step in Hcq as (E1 & E2 & Hcq). cbn [cq_loop]. rewrite E1, E2. cbn [cqe_res]. change (0 =? 0) with true.
  fold (cq_advance r). cbn [length] in Hf. exact (IH fuel old (cq_advance r) _ _ ltac:(lia) Hcq Hz).
Qed.

(** The completions a round of the kernel leaves. *)
Lemma enter_cq open r l res ep' :
  ring_holds r l -> uint_ok 32 (cqhead r) -> cqhead r = cqtail r -> raw open (interest r) l = (res, ep') -> length res = length l ->
  exists r', io_uring_enter open (length l) r = Ret r' /\ ring_holds r' [] /\ sqhead r' = sqtail r' /\
    prep r' = prep r /\ interest r' = ep' /\ cq_holds r' (sqhead r) l res.
Proof.
  intros Hr Hch Hct Hraw Hl. destruct (enter_ok open l r res ep' Hr ltac:(congruence) Hraw)
    as (r' & E & Hr' & Hh & Ht & Hp & Hi & Hc & Hct' & Hget & _).
  exists r'. split; [done|]. split; [done|]. split; [congruence|]. split; [done|]. split; [done|].
  split; [congruence|]. split; [congruence|]. split; [done|]. split; [apply Hr|].
  intros k x v Hx Hv. rewrite Hc, Hct. by apply Hget.
Qed.

Lemma sq_count r l : ring_holds r l -> Z.to_nat (u32 (sqtail r - sqhead r)) = length l.
Proof.
  intros (Hh & -> & Hl & _). unfold wrap. rewrite Zminus_mod_idemp_l.
  replace (sqhead r + Z.of_nat (length l) - sqhead r) with (Z.of_nat (length l)) by lia.
  rewrite Z.mod_small by lia. lia.
Qed.

Lemma sq_nonempty r l : ring_holds r l -> (sqhead r =? sqtail r) = bool_decide (l = []).
Proof.
  intros Hr. pose proof (sq_count r l Hr) as E. destruct Hr as (Hh & Ht & Hl & _). case_bool_decide as Hn.
  - subst l. apply Z.eqb_eq. by rewrite Ht, Z.add_0_r, wrap_small.
  - apply Z.eqb_neq. intros E'. rewrite <- E', Z.sub_diag in E. cbn in E. by destruct l.
Qed.

Lemma flush_unfold open fuel r l :
  ring_holds r l -> l <> [] ->
  uv__epoll_ctl_flush open (S fuel) r =
    match io_uring_enter open (length l) r with
    | Ret r => if sqhead r =? sqtail r then cq_loop open fuel (prep r) r else Some AssertFail
    | o => Some o
    end.
Proof.
  intros Hr Hl. cbn [uv__epoll_ctl_flush]. rewrite (sq_nonempty r l) by done. rewrite bool_decide_false by done.
  by rewrite (sq_count r l).
Qed.

Definition all_mod (l : list entry) : Prop := Forall (fun x => x.1.1 = EPOLL_CTL_MOD) l.

Lemma raw_mods open l : forall ep, entries_ok open ep l -> all_mod l ->
  raw open ep l = (replicate (length l) 0, eff ep l).
Proof.
  induction l as [|x l IH]; intros ep Hok Hm; [done|]. apply entries_ok_cons in Hok as (Hx & Hn & Hok).
  apply list.Forall_cons in Hm as [Em Hm]. cbn [raw]. destruct Hx as [Ho Hop]. unfold epoll_ctl. rewrite Ho, Em. cbn [negb].
  destruct Hop as [E|[_ [w Hw]]]; [rewrite E in Em; done|]. rewrite Hw. cbn.
  change EPOLL_CTL_MOD with 3. cbn. rewrite IH by (done || by apply entries_ok_insert).
  by rewrite eff_insert.
Qed.

(** Flushing entries that cannot fail empties the ring. *)
Lemma flush_mods open fuel r l :
  (300 <= fuel)%nat -> ring_holds r l -> l <> [] -> uint_ok 32 (cqhead r) -> cqhead r = cqtail r ->
  entries_ok open (interest r) l -> all_mod l ->
  exists r', uv__epoll_ctl_flush open fuel r = Some (Ret r') /\ ring_holds r' [] /\
    uint_ok 32 (cqhead r') /\ cqhead r' = cqtail r' /\ interest r' = eff (interest r) l.
Proof.
  intros Hf Hr Hne Hch Hct Hok Hm. destruct fuel as [|fuel]; [lia|]. rewrite (flush_unfold _ _ _ l) by done.
  pose proof (raw_mods open l _ Hok Hm) as Hraw.
  destruct (enter_cq open r l _ _ Hr Hch Hct Hraw) as (r1 & -> & Hr1 & Eh & Ep & Ei & Hcq); [by rewrite length_replicate|].
  rewrite (proj2 (Z.eqb_eq _ _)) by done. assert (length l <= 256)%nat by apply Hr.
  destruct (cq_loop_zeros open l fuel (prep r1) r1 _ _ ltac:(lia) Hcq) as (r2 & E2 & Hh2 & Ht2 & Hs2 & Hp2 & Hc2 & Hi2 & Hch2 & Hct2).
  { apply Forall_replicate. done. }
  exists r2. split; [done|]. split; [|split; [|split; [congruence|congruence]]].
  - unfold ring_holds in *. rewrite Hh2, Ht2, Hs2, Hp2, Hc2. done.
  - rewrite Hch2. destruct Hcq as (_ & -> & _). apply wrap_ok. lia.
Qed.

(** The ring between two operations: no completion is waiting, the entries pending may be
    carried out, and [goal] is what the set of interest becomes with them. *)
Definition ring_ok (open : nat -> bool) (r : ring) (p : list entry) (goal : gmap nat epoll_event) : Prop :=
  ring_holds r p /\ (length p < 256)%nat /\ uint_ok 32 (cqhead r) /\ cqhead r = cqtail r /\
  entries_ok open (interest r) p /\ eff (interest r) p = goal.

Definition dom_grows (r r' : ring) : Prop := forall fd, is_Some (interest r !! fd) -> is_Some (interest r' !! fd).

Lemma is_Some_eff ep l fd : is_Some (ep !! fd) -> is_Some (eff ep l !! fd).
Proof.
  intros H. induction l as [|x l IH]; [done|]. cbn. rewrite lookup_insert. case_match; [eauto|exact IH].
Qed.

Lemma cq_loop_end open fuel old r : (0 < fuel)%nat -> cqhead r = cqtail r -> cq_loop open fuel old r = Some (Ret r).
Proof. intros Hf E. destruct fuel; [lia|]. cbn [cq_loop]. by rewrite (proj2 (Z.eqb_eq _ _)). Qed.

(** Reading off the completions of a round: what failed is prepared again, and the ring is
    flushed once more in case the retries fill it. *)
Lemma cq_loop_ok open l : forall fuel old r h res p,
  (length l + 302 <= fuel)%nat -> cq_holds r h l res -> ring_holds r p -> (length p + length l <= 256)%nat -> (length p < 256)%nat ->
  all_mod p -> entries_ok open (interest r) (p ++ retries l res) ->
  (forall k x, l !! k = Some x -> old !! slot_of (h + Z.of_nat k) = Some x.2) ->
  (forall k x v, l !! k = Some x -> res !! k = Some v -> v = 0 \/ v = - EEXIST /\ x.1.1 = EPOLL_CTL_ADD) ->
  exists r' p', cq_loop open fuel old r = Some (Ret r') /\ ring_ok open r' p' (eff (interest r) (p ++ retries l res)) /\
    all_mod p' /\ (forall y, y ∈ p' -> y ∈ p ++ retries l res) /\ dom_grows r r'.
Proof.
  induction l as [|x l IH]; intros fuel old r h res p Hf Hcq Hr Hlen Hp Hm Hok Hold Hval.
  { destruct res; [|by destruct Hcq as (_ & _ & ? & _)]. pose proof (proj1 Hcq). apply cq_nil in Hcq.
    cbn [retries] in *. rewrite app_nil_r in *. exists r, p. split; [apply cq_loop_end; [lia|done]|].
    split; [done|]. split; [done|]. split; [done|]. by intros fd. }
  destruct res as [|v res]; [by destruct Hcq as (_ & _ & ? & _)|]. destruct fuel as [|fuel]; [lia|].
  apply cq_step in Hcq as (E1 & E2 & Hcq). cbn [cq_loop length] in *. rewrite E1, E2. cbn [cqe_res cqe_user_data].
  fold (cq_advance r). cbn [retries] in *.
  assert (forall k y, l !! k = Some y -> old !! slot_of (h + 1 + Z.of_nat k) = Some y.2) as Hold'.
  { intros k y Hy. replace (h + 1 + Z.of_nat k) with (h + Z.of_nat (S k)) by lia. by apply Hold. }
  assert (forall k y w, l !! k = Some y -> res !! k = Some w -> w = 0 \/ w = - EEXIST /\ y.1.1 = EPOLL_CTL_ADD) as Hval'.
  { intros k. exact (Hval (S k)). }
  destruct (Hval 0%nat x v eq_refl eq_refl) as [-> |[-> Hadd]].
  { change (0 =? 0) with true in *. exact (IH fuel old (cq_advance r) _ _ p ltac:(lia) Hcq Hr ltac:(lia) Hp Hm Hok Hold' Hval'). }
  change (- EEXIST =? 0) with false in *.
  destruct (user_data_decode x (slot_of h) ltac:(rewrite Hadd; unfold EPOLL_CTL_ADD; lia) (slot_lt h)) as (-> & -> & ->).
  rewrite Hadd. change (EPOLL_CTL_ADD =? EPOLL_CTL_DEL) with false. change (EPOLL_CTL_ADD =? EPOLL_CTL_ADD) with true.
  rewrite Z.eqb_refl. cbn [negb].
  pose proof (Hold 0%nat x eq_refl) as Hold0. rewrite Z.add_0_r in Hold0. rewrite Hold0.
  destruct (prep_entry_ok EPOLL_CTL_MOD (e_fd x) x.2 (cq_advance r) p Hr Hp ltac:(by right))
    as (r1 & -> & Hr1 & -> & Hch1 & Hct1 & Hcq1 & Hi1).
  rewrite (app_assoc p [_]) in *. set (p1 := p ++ [(EPOLL_CTL_MOD, e_fd x, x.2)]) in *.
  assert (all_mod p1) as Hm1 by (apply list.Forall_app; split; [done|by repeat constructor]).
  assert (length p1 = S (length p)) as Hl1 by (unfold p1; rewrite length_app; cbn; lia).
  assert (interest r1 = interest r) as Ei1 by exact Hi1.
  destruct (Nat.eqb_spec (S (length p)) 256) as [Efull|Hnf].
  - assert (l = []) as -> by (destruct l; [done|cbn in *; lia]). destruct res; [|by destruct Hcq as (_ & _ & ? & _)].
    cbn [retries] in *. rewrite app_nil_r in *. pose proof (proj1 Hcq) as Hch. apply cq_nil in Hcq.
    destruct (flush_mods open fuel r1 p1) as (r2 & -> & Hr2 & Hch2 & Hct2 & Hi2);
      [lia|done|intros E0; rewrite E0 in Hl1; done|by rewrite Hch1|congruence|by rewrite Ei1|done|].
    exists r2, []. split; [apply cq_loop_end; [lia|done]|]. rewrite Ei1 in Hi2.
    split; [split; [done|split; [cbn; lia|split; [done|split; [done|split; [split; [apply NoDup_nil_2|apply Forall_nil_2]|exact Hi2]]]]]|].
    split; [apply Forall_nil_2|]. split; [set_solver|]. intros fd Hfd. rewrite Hi2. by apply is_Some_eff.
  - destruct (IH fuel old r1 (h + 1) res p1 ltac:(lia)) as (r' & p' & E & Hok' & Hm' & Hsub & Hd); try done.
    + unfold cq_holds in *. by rewrite Hch1, Hct1, Hcq1.
    + lia.
    + lia.
    + by rewrite Ei1.
    + exists r', p'. split; [done|]. split; [by rewrite <- Ei1|]. split; [done|]. split; [done|].
      intros fd Hfd. apply Hd. by rewrite Ei1.
Qed.

(** A flush keeps what the set of interest will be. *)
Lemma flush_ok open r p :
  ring_holds r p -> p <> [] -> uint_ok 32 (cqhead r) -> cqhead r = cqtail r -> entries_ok open (interest r) p ->
  exists r' p', run_flush open r = Ret r' /\ ring_ok open r' p' (eff (interest r) p) /\ all_mod p' /\
    (forall y, y ∈ p' -> e_fd y ∈ (e_fd <$> p)) /\ dom_grows r r'.
Proof.
  intros Hr Hne Hch Hct Hok. unfold run_flush, flush_fuel. rewrite (flush_unfold _ _ _ p) by done.
  destruct (raw open (interest r) p) as [res ep'] eqn:Hraw.
  destruct (raw_eff open p _ _ _ Hok Hraw) as (Hl & He & Hre & Hsub & Hdom & Hval).
  destruct (enter_cq open r p _ _ Hr Hch Hct Hraw Hl) as (r1 & -> & Hr1 & Eh & Ep & Ei & Hcq).
  rewrite (proj2 (Z.eqb_eq _ _)) by done. assert (length p <= 256)%nat by apply Hr.
  destruct (cq_loop_ok open p 599 (prep r1) r1 (sqhead r) res []) as (r' & p' & -> & Hok' & Hm' & Hs' & Hd').
  - lia.
  - done.
  - done.
  - cbn. lia.
  - cbn. lia.
  - apply Forall_nil_2.
  - by rewrite Ei.
  - intros k x Hx. rewrite Ep. by apply Hr.
  - done.
  - exists r', p'. split; [done|]. cbn [app] in *. rewrite Ei, He in Hok'. split; [done|]. split; [done|].
    split; [eauto|]. intros fd Hfd. apply Hd'. rewrite Ei. by apply Hdom.
Qed.

Lemma prep_ok open r p goal (x : entry) :
  ring_ok open r p goal -> entry_ok open (interest r) x -> e_fd x ∉ (e_fd <$> p) ->
  exists r' p', uv__epoll_ctl_prep open x.1.1 (e_fd x) x.2 r = Ret r' /\ ring_ok open r' p' (<[e_fd x := x.2]> goal) /\
    (forall y, y ∈ p' -> e_fd y ∈ (e_fd <$> (p ++ [x]))) /\ dom_grows r r'.
Proof.
  intros (Hr & Hl & Hch & Hct & Hok & He) Hx Hn. unfold uv__epoll_ctl_prep.
  destruct (prep_entry_ok x.1.1 (e_fd x) x.2 r p Hr Hl) as (r1 & -> & Hr1 & Ef & Hch1 & Hct1 & _ & Hi1).
  { destruct Hx as [_ [H|[H _]]]; auto. }
  replace ((x.1.1, e_fd x, x.2) : entry) with x in Hr1 by (destruct x as [[??]?]; done).
  assert (entries_ok open (interest r1) (p ++ [x])) as Hok1.
  { rewrite Hi1. destruct Hok as [H1 H2]. split; [|apply list.Forall_app; split; [done|apply list.Forall_singleton; done]].
    rewrite fmap_app. apply list.NoDup_app. split; [done|]. split; [|apply NoDup_singleton]. set_solver. }
  assert (eff (interest r1) (p ++ [x]) = <[e_fd x := x.2]> goal) as He1 by (rewrite Hi1, eff_snoc by done; congruence).
  cbn [mbind outcome_bind]. rewrite Ef. destruct (Nat.eqb_spec (S (length p)) 256) as [E|E].
  - destruct (flush_ok open r1 (p ++ [x])) as (r' & p' & -> & Hok' & _ & Hs & Hd); [done|by destruct p|congruence|congruence|done|].
    exists r', p'. rewrite He1 in Hok'. split; [done|]. split; [done|]. split; [done|].
    intros fd Hfd. apply Hd. by rewrite Hi1.
  - exists r1, (p ++ [x]). split; [done|]. split; [|split; [|intros fd; by rewrite Hi1]].
    + split; [done|]. split; [rewrite length_app; cbn; lia|]. split; [congruence|]. split; [congruence|]. by split.
    + intros y Hy. apply list_elem_of_fmap. eauto.
Qed.

(** Two flushes empty the ring: what is left after the first cannot fail. *)
Lemma flush_all_ok open r p goal :
  ring_ok open r p goal ->
  exists r', flush_all open 2 r = Ret r' /\ interest r' = goal /\ ring_ok open r' [] goal.
Proof.
  intros (Hr & Hl & Hch & Hct & Hok & He). cbn [flush_all]. rewrite (sq_nonempty r p) by done. case_bool_decide as Hp.
  { subst p. exists r. by split. }
  destruct (flush_ok open r p) as (r1 & p1 & -> & (Hr1 & Hl1 & Hch1 & Hct1 & Hok1 & He1) & Hm & _ & _); [done..|].
  rewrite He in He1. cbn [mbind outcome_bind]. rewrite (sq_nonempty r1 p1) by done. case_bool_decide as Hp1.
  { subst p1. exists r1. by split. }
  destruct (flush_mods open flush_fuel r1 p1) as (r2 & E2 & Hr2 & Hch2 & Hct2 & Hi2); [unfold flush_fuel; lia|done..|].
  unfold run_flush. rewrite E2. cbn [mbind outcome_bind]. rewrite (sq_nonempty r2 []) by done.
  rewrite bool_decide_true by done. exists r2. rewrite Hi2, He1. split; [done|]. split; [done|].
  split; [done|]. split; [cbn; lia|]. split; [done|]. split; [done|]. split; [split; constructor|]. cbn. congruence.
Qed.

(** ** Part 3: the theorems *)

(** What [uv__io_poll] does with a list of watchers: prepare them all, then flush. *)
Fixpoint prep_all (open : nat -> bool) (l : list entry) (r : ring) : outcome ring :=
  match l with [] => Ret r | x :: l => r ← uv__epoll_ctl_prep open x.1.1 (e_fd x) x.2 r; prep_all open l r end.

Definition register_batch (open : nat -> bool) (l : list entry) (r : ring) : outcome ring :=
  r ← prep_all open l r; flush_all open 2 r.

Lemma prep_all_ok open l : forall r p goal,
  ring_ok open r p goal -> entries_ok open (interest r) l -> (forall y, y ∈ p -> e_fd y ∉ (e_fd <$> l)) ->
  exists r' p', prep_all open l r = Ret r' /\ ring_ok open r' p' (eff goal l).
Proof.
  induction l as [|x l IH]; intros r p goal Hr Hok Hn; [by exists r, p|].
  apply entries_ok_cons in Hok as (Hx & Hnx & Hok).
  destruct (prep_ok open r p goal x Hr Hx) as (r1 & p1 & E1 & Hr1 & Hs1 & Hd1).
  { intros (y & E & Hy)%list_elem_of_fmap. apply Hn in Hy. rewrite <- E in Hy. apply Hy. left. }
  destruct (IH r1 p1 _ Hr1) as (r' & p' & E' & Hr').
  - destruct Hok as [H1 H2]. split; [done|]. eapply list.Forall_impl; [exact H2|].
    intros y [Ho Hop]. split; [done|]. destruct Hop as [H|[H H']]; [by left|right; auto].
  - intros y Hy. apply Hs1 in Hy. rewrite fmap_app, elem_of_app in Hy. destruct Hy as [(z & E & Hz)%list_elem_of_fmap|Hy].
    + apply Hn in Hz. rewrite E. set_solver.
    + apply list_elem_of_singleton in Hy. by rewrite Hy.
  - exists r', p'. cbn [prep_all]. rewrite E1. cbn [mbind outcome_bind]. split; [done|]. by rewrite eff_insert in Hr' by done.
Qed.

Lemma ring_init_ok open sq cq ep : uint_ok 32 sq -> uint_ok 32 cq -> ring_ok open (ring_init sq cq ep) [] ep.
Proof.
  intros Hs Hc. split; [|split; [cbn; lia|split; [done|split; [done|split; [split; constructor|done]]]]].
  split; [done|]. split; [cbn [length]; by rewrite Z.add_0_r, wrap_small|]. split; [cbn; lia|].
  split; [|by intros i x Hx]. cbn [ring_init sqes prep cqes]. by rewrite !length_replicate.
Qed.

(** Registering a batch of descriptors through the io_uring ring, whatever the values of its
    counters and however many entries there are, never fails an assertion, empties the ring, and
    leaves the kernel's set of interest as registering them one by one with epoll_ctl does. *)
Theorem ring_registers open sq cq (ep : gmap nat epoll_event) (l : list entry) :
  uint_ok 32 sq -> uint_ok 32 cq -> entries_ok open ep l ->
  exists r, register_batch open l (ring_init sq cq ep) = Ret r /\ sqhead r = sqtail r /\
    all_direct open l ep = Ret (interest r) /\ (forall x, x ∈ l -> interest r !! e_fd x = Some x.2).
Proof.
  intros Hs Hc Hok. destruct (prep_all_ok open l (ring_init sq cq ep) [] ep) as (r1 & p1 & E1 & Hr1).
  { by apply ring_init_ok. } { done. } { set_solver. }
  destruct (flush_all_ok open r1 p1 _ Hr1) as (r & E & Hi & Hr). exists r. unfold register_batch. rewrite E1. cbn [mbind outcome_bind].
  split; [done|]. split; [|split; [rewrite Hi; by apply all_direct_eff|]].
  - destruct Hr as [Hr _]. apply Z.eqb_eq. rewrite (sq_nonempty r []) by done. done.
  - intros x Hx. rewrite Hi. clear -Hx Hok. induction l as [|y l IH]; [set_solver|].
    apply entries_ok_cons in Hok as (_ & Hn & Hok). cbn. apply elem_of_cons in Hx as [->|Hx].
    + by rewrite lookup_insert_eq.
    + rewrite lookup_insert_ne; [by apply IH|]. intros E'. apply Hn. rewrite E'. apply list_elem_of_fmap. eauto.
Qed.

(** Three hundred descriptors, of which every second is known to the kernel, with counters
    about to overflow. *)
Lemma ring_registers_witness :
  let ep := list_to_map ((fun i => (2 * i, mkEv 1 (2 * i)))%nat <$> seq 0 150) in
  let l := (fun i => (EPOLL_CTL_ADD, i, mkEv 5 i)) <$> seq 0 300 in
  exists r, register_batch (fun _ => true) l (ring_init (2 ^ 32 - 7) (2 ^ 32 - 3) ep) = Ret r /\ sqhead r = sqtail r /\
    all_direct (fun _ => true) l ep = Ret (interest r) /\ (forall x, x ∈ l -> interest r !! e_fd x = Some x.2).
Proof.
  intros ep l. apply ring_registers; [done|done|]. split.
  - assert (e_fd <$> l = seq 0 300) as -> by (vm_compute; reflexivity). apply NoDup_seq.
  - apply list.Forall_forall. intros x (i & -> & _)%list_elem_of_fmap. split; [done|by left].
Defined.
