(* ===== verification/Poll.v ===== *)
(** The watchers of the event loop and its polling for I/O, deps/libuv/src/unix: [uv__io_init],
    [uv__io_start], [uv__io_stop], [uv__io_close], [uv__io_feed], [uv__io_active], the table of
    watchers ([next_power_of_two], [maybe_resize]) and [uv__run_pending] of core.c,
    [uv__platform_invalidate_fd] and [uv__io_poll] of linux.c.

    A watcher is a number, a descriptor a [nat], and -1 is [None]. The kernel is its set of
    interest and the answers that epoll_pwait gives. What the callbacks do, including opening
    and closing descriptors, is a parameter; the state keeps a log of the waits, the
    callbacks and what they did. The loop collects neither metrics nor file operations on
    io_uring, and does not block SIGPROF.

    Part 1 is the code, Part 2 the table's size, Part 3 the invariant, Part 4 the operations,
    Part 5 polling. *)

From S2P Require Import Prelude.
From S2P Require Import EpollCtl.

(** ** Part 1: the code *)

Definition POLLIN : Z := 1.
Definition POLLPRI : Z := 2.
Definition POLLOUT : Z := 4.
Definition POLLERR : Z := 8.
Definition POLLHUP : Z := 16.
Definition POLLRDHUP : Z := 8192.
Definition poll_mask : Z := Z.lor (Z.lor (Z.lor POLLIN POLLOUT) POLLRDHUP) POLLPRI.
Definition INT_MAX : Z := 2147483647.
Definition UV_ENOMEM : Z := -12.

(** A [uv__io_t]: its descriptor, the events the kernel was last told and those wanted. *)
Record io_watcher := mkW { w_fd : option nat; w_events : Z; w_pevents : Z }.

(** What code does with watchers: [IoOpen] is a new descriptor and [uv__io_init], [IoClose]
    is [uv__io_close] followed by the close of the descriptor, as in [uv__stream_close]. *)
Inductive io_act :=
| IoOpen (w fd : nat) | IoStart (w : nat) (events : Z) | IoStop (w : nat) (events : Z)
| IoClose (w : nat) | IoFeed (w : nat).

#[export] Instance io_act_eq_dec : EqDecision io_act.
Proof. solve_decision. Defined.

(** The log: a call of epoll_pwait with the kernel's set of interest, the watchers and those still
    to be registered, a return of epoll_pwait with the owners of the descriptors at that time and the
    events, a callback with the events and what was wanted then, the signal watcher's
    callback, a callback from the pending queue, and what was done. *)
Inductive io_log :=
| LPoll (interest : gmap nat epoll_event) (watchers : gmap nat io_watcher) (unregistered : list nat)
| LWait (owners : gmap nat nat) (events : list (nat * Z))
| LCall (w fd : nat) (events wanted : Z) | LSignal | LPending (w : nat) | LAct (a : io_act).

(** The loop: the table of watchers and whether a failed allocation has freed it, [nfds], the
    queue of watchers to register, the pending queue and the part of it that
    [uv__run_pending] has taken, the watchers, the allocator's answers, the ring with the
    kernel's set of interest, the open descriptors with the watcher that has each, the events
    being dispatched, [time], and the log, newest entry first. *)
Record io_loop := mkLoop {
  watchers : list (option nat); dangling : bool; nfds : Z; watcher_queue : list nat;
  pending_queue : list nat; running : list nat; ws : gmap nat io_watcher; allocs : list bool;
  ctl : ring; owner : gmap nat nat; inv_events : option (list (option nat * Z)); now : Z; log : list io_log }.

Definition set_watchers v s := 
  mkLoop v (dangling s) (nfds s) (watcher_queue s) (pending_queue s) (running s) (ws s) (allocs s) (ctl s) (owner s) (inv_events s) (now s) (log s).
Definition set_dangling v s := 
  mkLoop (watchers s) v (nfds s) (watcher_queue s) (pending_queue s) (running s) (ws s) (allocs s) (ctl s) (owner s) (inv_events s) (now s) (log s).
Definition set_nfds v s := 
  mkLoop (watchers s) (dangling s) v (watcher_queue s) (pending_queue s) (running s) (ws s) (allocs s) (ctl s) (owner s) (inv_events s) (now s) (log s).
Definition set_watcher_queue v s := 
  mkLoop (watchers s) (dangling s) (nfds s) v (pending_queue s) (running s) (ws s) (allocs s) (ctl s) (owner s) (inv_events s) (now s) (log s).
Definition set_pending_queue v s := 
  mkLoop (watchers s) (dangling s) (nfds s) (watcher_queue s) v (running s) (ws s) (allocs s) (ctl s) (owner s) (inv_events s) (now s) (log s).
Definition set_running v s := 
  mkLoop (watchers s) (dangling s) (nfds s) (watcher_queue s) (pending_queue s) v (ws s) (allocs s) (ctl s) (owner s) (inv_events s) (now s) (log s).
Definition set_ws v s := 
  mkLoop (watchers s) (dangling s) (nfds s) (watcher_queue s) (pending_queue s) (running s) v (allocs s) (ctl s) (owner s) (inv_events s) (now s) (log s).
Definition set_allocs v s := 
  mkLoop (watchers s) (dangling s) (nfds s) (watcher_queue s) (pending_queue s) (running s) (ws s) v (ctl s) (owner s) (inv_events s) (now s) (log s).
Definition set_ctl v s := 
  mkLoop (watchers s) (dangling s) (nfds s) (watcher_queue s) (pending_queue s) (running s) (ws s) (allocs s) v (owner s) (inv_events s) (now s) (log s).
Definition set_owner v s := 
  mkLoop (watchers s) (dangling s) (nfds s) (watcher_queue s) (pending_queue s) (running s) (ws s) (allocs s) (ctl s) v (inv_events s) (now s) (log s).
Definition set_inv_events v s := 
  mkLoop (watchers s) (dangling s) (nfds s) (watcher_queue s) (pending_queue s) (running s) (ws s) (allocs s) (ctl s) (owner s) v (now s) (log s).
Definition set_now v s := 
  mkLoop (watchers s) (dangling s) (nfds s) (watcher_queue s) (pending_queue s) (running s) (ws s) (allocs s) (ctl s) (owner s) (inv_events s) v (log s).
Definition set_log v s := 
  mkLoop (watchers s) (dangling s) (nfds s) (watcher_queue s) (pending_queue s) (running s) (ws s) (allocs s) (ctl s) (owner s) (inv_events s) (now s) v.

Definition set_w (w : nat) (r : io_watcher) (s : io_loop) : io_loop := set_ws (<[w := r]> (ws s)) s.
Definition get_w (w : nat) (s : io_loop) : outcome io_watcher := match ws s !! w with Some r => Ret r | None => UB end.
Definition add_log (l : io_log) (s : io_loop) : io_loop := set_log (l :: log s) s.
Definition set_interest (ep : gmap nat epoll_event) (r : ring) : ring :=
  mkRing (sqhead r) (sqtail r) (cqhead r) (cqtail r) (sqes r) (cqes r) (prep r) ep.
Definition is_open (s : io_loop) (fd : nat) : bool := bool_decide (is_Some (owner s !! fd)).

Definition remove (w : nat) (q : list nat) : list nat := filter (fun v => v <> w) q.

(** [next_power_of_two] on an unsigned int. *)
Definition next_power_of_two (val : Z) : Z :=
  let val := u32 (val - 1) in
  let val := Z.lor val (Z.shiftr val 1) in
  let val := Z.lor val (Z.shiftr val 2) in
  let val := Z.lor val (Z.shiftr val 4) in
  let val := Z.lor val (Z.shiftr val 8) in
  let val := Z.lor val (Z.shiftr val 16) in
  u32 (val + 1).

(** [maybe_resize]; [uv__reallocf] frees the old table when it fails. *)
Definition maybe_resize (len : Z) (s : io_loop) : outcome (Z * io_loop) :=
  let nwatchers := Z.of_nat (length (watchers s)) in
  if len <=? nwatchers then Ret (0, s)
  else if dangling s then UB
  else
    let n := u32 (next_power_of_two (u32 (len + 2)) - 2) in
    let ok := match allocs s with b :: _ => b | [] => true end in
    let s := set_allocs (tail (allocs s)) s in
    if ok then Ret (0, set_watchers (watchers s ++ replicate (Z.to_nat n - length (watchers s)) None) s)
    else Ret (UV_ENOMEM, set_dangling true s).

(** [loop->watchers[fd]] *)
Definition table_get (fd : nat) (s : io_loop) : outcome (option nat) :=
  if dangling s then UB else match watchers s !! fd with Some o => Ret o | None => UB end.

Definition events_valid (events : Z) : bool :=
  (Z.land events (Z.lnot poll_mask) =? 0) && negb (events =? 0).

Definition uv__io_start (w : nat) (events : Z) (s : io_loop) : outcome (Z * io_loop) :=
  r ← get_w w s;
  if negb (events_valid events) then AssertFail
  else
    match w_fd r with
    | None => AssertFail
    | Some fd =>
        if negb (Z.of_nat fd <? INT_MAX) then AssertFail
        else
          let r := mkW (w_fd r) (w_events r) (Z.lor (w_pevents r) events) in
          let s := set_w w r s in
          '(err, s) ← maybe_resize (Z.of_nat fd + 1) s;
          if negb (err =? 0) then Ret (err, s)
          else if w_events r =? w_pevents r then Ret (0, s)
          else
            let s := if bool_decide (w ∈ watcher_queue s) then s else set_watcher_queue (watcher_queue s ++ [w]) s in
            o ← table_get fd s;
            match o with
            | Some _ => Ret (0, s)
            | None => Ret (0, set_nfds (nfds s + 1) (set_watchers (<[fd := Some w]> (watchers s)) s))
            end
    end.

Definition uv__io_stop (w : nat) (events : Z) (s : io_loop) : outcome io_loop :=
  r ← get_w w s;
  if negb (events_valid events) then AssertFail
  else
    match w_fd r with
    | None => Ret s
    | Some fd =>
        if (length (watchers s) <=? fd)%nat then Ret s
        else
          let pevents := Z.land (w_pevents r) (Z.lnot events) in
          if pevents =? 0 then
            let s := set_watcher_queue (remove w (watcher_queue s)) (set_w w (mkW (Some fd) 0 0) s) in
            o ← table_get fd s;
            if bool_decide (o = Some w) then
              if 0 <? nfds s then Ret (set_nfds (nfds s - 1) (set_watchers (<[fd := None]> (watchers s)) s)) else AssertFail
            else Ret s
          else
            let s := set_w w (mkW (Some fd) (w_events r) pevents) s in
            Ret (if bool_decide (w ∈ watcher_queue s) then s else set_watcher_queue (watcher_queue s ++ [w]) s)
    end.

(** [uv__platform_invalidate_fd]: an event of the descriptor loses it. *)
Definition invalidate (fd : nat) (e : option nat * Z) : option nat * Z := if bool_decide (e.1 = Some fd) then (None, e.2) else e.

Definition uv__platform_invalidate_fd (fd : nat) (s : io_loop) : io_loop :=
  let s := set_inv_events (option_map (map (invalidate fd)) (inv_events s)) s in
  set_ctl (set_interest (epoll_ctl (is_open s) EPOLL_CTL_DEL fd (mkEv 0 0) (interest (ctl s))).2 (ctl s)) s.

Definition uv__io_close (w : nat) (s : io_loop) : outcome io_loop :=
  s ← uv__io_stop w poll_mask s;
  let s := set_running (remove w (running s)) (set_pending_queue (remove w (pending_queue s)) s) in
  r ← get_w w s;
  match w_fd r with None => Ret s | Some fd => Ret (uv__platform_invalidate_fd fd s) end.

Definition uv__io_feed (w : nat) (s : io_loop) : io_loop :=
  if bool_decide (w ∈ pending_queue s ++ running s) then s else set_pending_queue (pending_queue s ++ [w]) s.

Definition uv__io_active (w : nat) (events : Z) (s : io_loop) : outcome bool :=
  r ← get_w w s;
  if negb (events_valid events) then AssertFail else Ret (negb (Z.land (w_pevents r) events =? 0)).

(** [close(2)] takes the descriptor out of the set of interest. *)
Definition sys_close (fd : nat) (s : io_loop) : io_loop :=
  set_owner (delete fd (owner s)) (set_ctl (set_interest (delete fd (interest (ctl s))) (ctl s)) s).

Definition io_act_do (a : io_act) (s : io_loop) : outcome io_loop :=
  let s := add_log (LAct a) s in
  match a with
  | IoOpen w fd => Ret (set_w w (mkW (Some fd) 0 0) (set_owner (<[fd := w]> (owner s)) s))
  | IoStart w events => '(_, s) ← uv__io_start w events s; Ret s
  | IoStop w events => uv__io_stop w events s
  | IoClose w =>
      s ← uv__io_close w s;
      r ← get_w w s;
      match w_fd r with
      | None => Ret s
      | Some fd => Ret (set_w w (mkW None (w_events r) (w_pevents r)) (sys_close fd s))
      end
  | IoFeed w => Ret (uv__io_feed w s)
  end.

Fixpoint io_acts_do (acts : list io_act) (s : io_loop) : outcome io_loop :=
  match acts with [] => Ret s | a :: acts => s ← io_act_do a s; io_acts_do acts s end.

(** An answer of epoll_pwait, with the time afterwards. *)
Inductive wait := WEvents (events : list (nat * Z)) (time : Z) | WTimeout (time : Z) | WIntr (time : Z).

Section Poll.

(** What the callback of a watcher does, the loop's signal watcher, and whether the ring is
    used. *)
Context (script : nat -> Z -> io_loop -> list io_act) (signal_io_watcher : nat) (use_ring : bool).

(** [uv__io_cb]: the component that the watcher belongs to. *)
Definition uv__io_cb (w : nat) (events : Z) (s : io_loop) : outcome io_loop := io_acts_do (script w events s) s.

(** The loop of [uv__run_pending] over the queue it took. *)
Fixpoint pending_loop (fuel : nat) (s : io_loop) : outcome io_loop :=
  match fuel with
  | O => Ret s
  | S fuel =>
      match running s with
      | [] => Ret s
      | w :: q => s ← uv__io_cb w POLLOUT (add_log (LPending w) (set_running q s)); pending_loop fuel s
      end
  end.

Definition uv__run_pending (s : io_loop) : outcome io_loop :=
  pending_loop (length (pending_queue s)) (set_running (pending_queue s) (set_pending_queue [] s)).

(** The first loop of [uv__io_poll], over the queue of watchers. *)
Fixpoint register_loop (q : list nat) (s : io_loop) : outcome io_loop :=
  match q with
  | [] => Ret s
  | w :: q =>
      r ← get_w w s;
      let op := if w_events r =? 0 then EPOLL_CTL_ADD else EPOLL_CTL_MOD in
      let s := set_w w (mkW (w_fd r) (w_pevents r) (w_pevents r)) (set_watcher_queue q s) in
      match w_fd r with
      | None => AssertFail
      | Some fd =>
          let e := mkEv (w_pevents r) fd in
          if use_ring then
            c ← uv__epoll_ctl_prep (is_open s) op fd e (ctl s); register_loop q (set_ctl c s)
          else
            ep ← ctl_direct (is_open s) op fd e (interest (ctl s)); register_loop q (set_ctl (set_interest ep (ctl s)) s)
      end
  end.

(** The loop of [uv__io_poll] over the events, from event [i] on; [n] events are left. The
    result has [have_signals] and [nevents]. *)
Fixpoint dispatch (n i : nat) (have_signals : bool) (nevents : nat) (s : io_loop) : outcome (bool * nat * io_loop) :=
  match n with
  | O => Ret (have_signals, nevents, s)
  | S n =>
      match inv_events s with
      | None => UB
      | Some es =>
          match es !! i with
          | None => UB
          | Some (None, _) => dispatch n (S i) have_signals nevents s
          | Some (Some fd, m) =>
              if (length (watchers s) <=? fd)%nat then AssertFail
              else
                o ← table_get fd s;
                match o with
                | None =>
                    let ep := (epoll_ctl (is_open s) EPOLL_CTL_DEL fd (mkEv m fd) (interest (ctl s))).2 in
                    dispatch n (S i) have_signals nevents (set_ctl (set_interest ep (ctl s)) s)
                | Some w =>
                    r ← get_w w s;
                    let m := Z.land m (Z.lor (Z.lor (w_pevents r) POLLERR) POLLHUP) in
                    let m := if (m =? POLLERR) || (m =? POLLHUP) then Z.lor m (Z.land (w_pevents r) poll_mask) else m in
                    let s := set_inv_events (Some (<[i := (Some fd, m)]> es)) s in
                    if m =? 0 then dispatch n (S i) have_signals nevents s
                    else if bool_decide (w = signal_io_watcher) then dispatch n (S i) true (S nevents) s
                    else
                      s ← uv__io_cb w m (add_log (LCall w fd m (w_pevents r)) s);
                      dispatch n (S i) have_signals (S nevents) s
                end
          end
      end
  end.

(** The flush of the ring before epoll_pwait and at the end. *)
Definition flush_ring (s : io_loop) : outcome io_loop :=
  if use_ring then c ← flush_all (is_open s) 2 (ctl s); Ret (set_ctl c s) else Ret s.

(** After [update_timeout]: the new [timeout] and [real_timeout], or [None] to leave. *)
Definition update_timeout (timeout real_timeout base : Z) (s : io_loop) : outcome (option (Z * Z)) :=
  if timeout =? 0 then Ret None
  else if timeout =? -1 then Ret (Some (timeout, real_timeout))
  else if negb (0 <? timeout) then AssertFail
  else
    let real_timeout := s32 (u64 (real_timeout - u64 (now s - base))) in
    if real_timeout <=? 0 then Ret None else Ret (Some (real_timeout, real_timeout)).

(** The [for] loop of [uv__io_poll]. What epoll_pwait answers is a list of functions of the
    timeout and the set of interest; when the list is used up the call is still waiting, and
    the result is [false]. *)
Fixpoint poll_loop (ks : list (Z -> gmap nat epoll_event -> wait)) (count : nat) (timeout real_timeout base : Z) (s : io_loop) : outcome (bool * io_loop) :=
  if nfds s =? 0 then s ← flush_ring s; Ret (true, s)
  else
    s ← flush_ring s;
    let s := add_log (LPoll (interest (ctl s)) (ws s) (watcher_queue s)) s in
    match ks with
    | [] => Ret (false, s)
    | k :: ks =>
    match k timeout (interest (ctl s)) with
    | WTimeout t => let s := set_now t s in if timeout =? -1 then AssertFail else Ret (true, s)
    | WIntr t =>
        let s := set_now t s in
        o ← update_timeout timeout real_timeout base s;
        match o with
        | None => s ← flush_ring s; Ret (true, s)
        | Some (timeout, real_timeout) => poll_loop ks count timeout real_timeout base s
        end
    | WEvents es t =>
        let s := add_log (LWait (owner s) es) (set_now t s) in
        let s := set_inv_events (Some ((fun e : nat * Z => (Some e.1, e.2)) <$> es)) s in
        '(have_signals, nevents, s) ← dispatch (length es) 0 false 0 s;
        s ← (if have_signals : bool then uv__io_cb signal_io_watcher POLLIN (add_log LSignal s) else Ret s);
        let s := set_inv_events None s in
        if have_signals : bool then s ← flush_ring s; Ret (true, s)
        else if negb (Nat.eqb nevents 0) then
          match count with
          | S (S count) =>
              if Nat.eqb (length es) 1024 then poll_loop ks (S count) 0 real_timeout base s
              else s ← flush_ring s; Ret (true, s)
          | _ => s ← flush_ring s; Ret (true, s)
          end
        else
          o ← update_timeout timeout real_timeout base s;
          match o with
          | None => s ← flush_ring s; Ret (true, s)
          | Some (timeout, real_timeout) => poll_loop ks count timeout real_timeout base s
          end
    end
    end.

Definition uv__io_poll (ks : list (Z -> gmap nat epoll_event -> wait)) (timeout : Z) (s : io_loop) : outcome (bool * io_loop) :=
  if timeout <? -1 then AssertFail
  else s ← register_loop (watcher_queue s) s; poll_loop ks 48 timeout timeout (now s) s.

End Poll.

(** ** Part 2: the size of the table *)

(** Or-ing with the value shifted by [k] doubles the window of bits that are looked at. *)
Lemma smear_step m x k :
  0 <= k -> (forall i, 0 <= i -> Z.testbit x i = true <-> exists j, 0 <= j < k /\ Z.testbit m (i + j) = true) ->
  forall i, 0 <= i -> Z.testbit (Z.lor x (Z.shiftr x k)) i = true <-> exists j, 0 <= j < 2 * k /\ Z.testbit m (i + j) = true.
Proof.
  intros Hk H i Hi. rewrite Z.lor_spec, Z.shiftr_spec, orb_true_iff, (H i), (H (i + k)) by lia. split.
  - intros [(j & Hj & E)|(j & Hj & E)]; [exists j|exists (k + j)]; (split; [lia|]); [done|]. by rewrite Z.add_assoc.
  - intros (j & Hj & E). destruct (Z.lt_ge_cases j k); [left; exists j|right; exists (j - k)]; (split; [lia|]); [done|].
    by replace (i + k + (j - k)) with (i + j) by lia.
Qed.

(** [next_power_of_two] is the least power of two that is not below its argument. *)
Lemma next_power_of_two_spec v : 1 <= v <= 2 ^ 31 -> next_power_of_two v = 2 ^ Z.log2_up v.
Proof.
  intros Hv. unfold next_power_of_two. rewrite (wrap_small 32 (v - 1)) by (unfold uint_ok; lia).
  set (m := v - 1). assert (0 <= m < 2 ^ 31) as Hm by lia. cbv zeta.
  assert (forall i, 0 <= i -> Z.testbit m i = true <-> exists j, 0 <= j < 1 /\ Z.testbit m (i + j) = true) as H1.
  { intros i Hi. split; [intros E; exists 0; split; [lia|]; by rewrite Z.add_0_r|].
    intros (j & Hj & E). by replace (i + j) with i in E by lia. }
  pose proof (smear_step m _ 1 ltac:(lia) H1) as H2. pose proof (smear_step m _ 2 ltac:(lia) H2) as H4.
  pose proof (smear_step m _ 4 ltac:(lia) H4) as H8. pose proof (smear_step m _ 8 ltac:(lia) H8) as H16.
  pose proof (smear_step m _ 16 ltac:(lia) H16) as H32. clear H1 H2 H4 H8 H16. rename H32 into H1.
  match type of H1 with context [Z.testbit ?x] => set (x5 := x) in * end.
  assert (x5 = 2 ^ Z.log2_up v - 1) as ->.
  2: { assert (2 ^ Z.log2_up v <= 2 ^ 31).
       { apply Z.pow_le_mono_r; [lia|]. rewrite <- (Z.log2_up_pow2 31) by lia. apply Z.log2_up_le_mono. lia. }
       rewrite Z.sub_add. apply wrap_small. unfold uint_ok. split; [apply Z.pow_nonneg; lia|lia]. }
  destruct (decide (m = 0)) as [E|Hne].
  { unfold x5. clear H1. rewrite E. by replace v with 1 by lia. }
  rewrite Z.log2_up_eqn by lia. replace (Z.pred v) with m by lia. replace (2 ^ Z.succ (Z.log2 m) - 1) with (Z.ones (Z.succ (Z.log2 m))) by (rewrite Z.ones_equiv; lia).
  pose proof (Z.log2_nonneg m). assert (Z.log2 m < 31) by (apply Z.log2_lt_pow2; lia).
  apply Z.bits_inj'. intros i Hi. destruct (Z.lt_ge_cases i (Z.succ (Z.log2 m))).
  - rewrite Z.ones_spec_low by lia. apply H1; [done|]. exists (Z.log2 m - i). split; [lia|].
    replace (i + (Z.log2 m - i)) with (Z.log2 m) by lia. apply Z.bit_log2. lia.
  - rewrite Z.ones_spec_high by lia. destruct (Z.testbit x5 i) eqn:E; [|done].
    apply H1 in E as (j & Hj & E); [|done]. rewrite Z.bits_above_log2 in E; [done|lia|lia].
Qed.

(** The size chosen for a table of [len] entries is enough. *)
Lemma resize_enough len : 1 <= len <= 2 ^ 31 - 2 ->
  len <= u32 (next_power_of_two (u32 (len + 2)) - 2) <= 2 * len + 2.
Proof.
  intros Hl. rewrite (wrap_small 32 (len + 2)) by (unfold uint_ok; lia). rewrite next_power_of_two_spec by lia.
  pose proof (Z.log2_up_spec (len + 2) ltac:(lia)) as [H1 H2].
  assert (2 ^ Z.log2_up (len + 2) = 2 * 2 ^ Z.pred (Z.log2_up (len + 2))) as E.
  { assert (0 < Z.log2_up (len + 2)) by (apply Z.log2_up_pos; lia). rewrite <- Z.pow_succ_r by lia. f_equal. lia. }
  rewrite wrap_small; [lia|]. unfold uint_ok. lia.
Qed.

(** ** Part 3: the invariant *)

Definition MAX_FD : Z := 2 ^ 31 - 64.

Fixpoint occupied (l : list (option nat)) : Z :=
  match l with [] => 0 | Some _ :: l => 1 + occupied l | None :: l => occupied l end.

Definition opened (s : io_loop) (w fd : nat) : Prop := exists r, ws s !! w = Some r /\ w_fd r = Some fd.

(** The watchers, the table, the queues and a set of interest [ep] fit together: the table
    has exactly the watchers that want something, [nfds] counts them, every descriptor has
    one watcher, a watcher that the kernel must still be told about is in the queue, and the
    kernel knows the others. *)
Record core (ep : gmap nat epoll_event) (s : io_loop) : Prop := mkCore {
  i_table : forall fd w, watchers s !! fd = Some (Some w) <-> exists r, ws s !! w = Some r /\ w_fd r = Some fd /\ w_pevents r <> 0;
  i_nfds : nfds s = occupied (watchers s);
  i_owner : forall fd w, owner s !! fd = Some w <-> opened s w fd;
  i_bound : forall fd w, owner s !! fd = Some w -> Z.of_nat fd < MAX_FD;
  i_closed : forall w r, ws s !! w = Some r -> w_fd r = None -> w_events r = 0 /\ w_pevents r = 0;
  i_nodup : NoDup (watcher_queue s);
  i_queue : forall w, w ∈ watcher_queue s -> exists r fd, ws s !! w = Some r /\ w_fd r = Some fd /\ w_pevents r <> 0;
  i_dirty : forall w r, ws s !! w = Some r -> w_events r <> w_pevents r -> w ∈ watcher_queue s;
  i_known : forall w r fd, ws s !! w = Some r -> w_fd r = Some fd -> w_events r <> 0 -> ep !! fd = Some (mkEv (w_events r) fd);
  i_interest : forall fd e, ep !! fd = Some e -> ev_fd e = fd /\ is_Some (owner s !! fd) /\ (fd < length (watchers s))%nat;
  i_mask : forall w r, ws s !! w = Some r -> Z.land (w_pevents r) (Z.lnot poll_mask) = 0;
  i_pnodup : NoDup (pending_queue s ++ running s);
  i_pending : forall w, w ∈ pending_queue s ++ running s -> exists fd, opened s w fd;
  i_alloc : dangling s = false /\ Forall (fun b => b = true) (allocs s) }.

(** The ring is empty. *)
Definition ring_idle (r : ring) : Prop := ring_holds r [] /\ uint_ok 32 (cqhead r) /\ cqhead r = cqtail r.

(** The last wait in a log, and what was done since. *)
Fixpoint last_wait (l : list io_log) : option (gmap nat nat * list (nat * Z)) :=
  match l with [] => None | LWait o es :: _ => Some (o, es) | _ :: l => last_wait l end.
Fixpoint since_wait (l : list io_log) : list io_log :=
  match l with [] => [] | LWait _ _ :: _ => [] | x :: l => x :: since_wait l end.

(** The events not yet dispatched belong to the watchers they were reported for. *)
Definition batch_ok (s : io_loop) : Prop :=
  forall es, inv_events s = Some es -> exists o evs, last_wait (log s) = Some (o, evs) /\ length es = length evs /\
    forall i fd m, es !! i = Some (Some fd, m) -> (fd < length (watchers s))%nat /\ fd ∈ evs.*1 /\
      exists w, owner s !! fd = Some w /\ o !! fd = Some w /\ LAct (IoClose w) ∉ since_wait (log s).

(** Callbacks of [uv__io_poll]: the descriptor is one of those reported by the last wait, the
    watcher had it then and has not been closed since, it wants something now, and is
    given events that it wants, errors or hang-ups. *)
Fixpoint calls_ok (l : list io_log) : Prop :=
  match l with
  | [] => True
  | LCall w fd m wanted :: l =>
      (exists o evs, last_wait l = Some (o, evs) /\ fd ∈ evs.*1 /\ o !! fd = Some w) /\ LAct (IoClose w) ∉ since_wait l /\
      wanted <> 0 /\ m <> 0 /\ Z.land m (Z.lnot (Z.lor (Z.lor wanted POLLERR) POLLHUP)) = 0 /\ calls_ok l
  | _ :: l => calls_ok l
  end.

(** What the kernel knows when it is asked to wait: of a watcher that wants something and is not
    in the queue, exactly the events it wants; and of no descriptor without a watcher. Of a
    watcher that wants nothing any more it may still know what that wanted before. *)
Definition told (ep : gmap nat epoll_event) (m : gmap nat io_watcher) (q : list nat) : Prop :=
  (forall w r fd, m !! w = Some r -> w_fd r = Some fd -> w_pevents r <> 0 -> w ∉ q -> ep !! fd = Some (mkEv (w_pevents r) fd)) /\
  (forall fd e, ep !! fd = Some e -> exists w r, m !! w = Some r /\ w_fd r = Some fd /\
     (w_pevents r = 0 \/ w ∈ q \/ e = mkEv (w_pevents r) fd)).

Fixpoint polls_ok (l : list io_log) : Prop :=
  match l with [] => True | LPoll ep m q :: l => told ep m q /\ polls_ok l | _ :: l => polls_ok l end.
Definition log_ok (l : list io_log) : Prop := calls_ok l /\ polls_ok l.

Definition io_inv (s : io_loop) : Prop :=
  core (interest (ctl s)) s /\ ring_idle (ctl s) /\ batch_ok s /\ log_ok (log s).

(** A loop without watchers. *)
Definition loop_init (sq cq : Z) : io_loop :=
  mkLoop [] false 0 [] [] [] ∅ [] (ring_init sq cq ∅) ∅ None 0 [].

(** What code may do: open a descriptor that is free and not one of the standard streams,
    which are never closed, and use watchers that exist. *)
Definition act_allowed (a : io_act) (s : io_loop) : Prop :=
  match a with
  | IoOpen w fd => owner s !! fd = None /\ 2 < Z.of_nat fd < MAX_FD /\ (forall r, ws s !! w = Some r -> w_fd r = None)
  | IoStart w events => events_valid events = true /\ exists fd, opened s w fd
  | IoStop w events => events_valid events = true /\ is_Some (ws s !! w)
  | IoClose w => is_Some (ws s !! w)
  | IoFeed w => exists fd, opened s w fd
  end.

Fixpoint acts_allowed (acts : list io_act) (s : io_loop) : Prop :=
  match acts with
  | [] => True
  | a :: acts => act_allowed a s /\ forall s', io_act_do a s = Ret s' -> acts_allowed acts s'
  end.

Lemma occupied_insert l (i : nat) o o' :
  l !! i = Some o' ->
  occupied (<[i := o]> l) = occupied l + (match o with Some _ => 1 | None => 0 end) - (match o' with Some _ => 1 | None => 0 end).
Proof.
  revert i. induction l as [|x l IH]; intros [|i] H; [done|done| |].
  - cbn in H |- *. simplify_eq. destruct o, o'; lia.
  - change (<[S i := o]> (x :: l)) with (x :: <[i := o]> l). cbn [occupied]. rewrite (IH i H). destruct x; lia.
Qed.

Lemma occupied_app_none l n : occupied (l ++ replicate n None) = occupied l.
Proof. induction l as [|[x|] l IH]; cbn; [by induction n|lia|done]. Qed.

Lemma occupied_pos l (i w : nat) : l !! i = Some (Some w) -> 0 < occupied l.
Proof.
  assert (forall l, 0 <= occupied l) as Hn by (intros l'; induction l' as [|[] ? IH]; cbn; lia).
  revert i. induction l as [|x l IH]; intros [|i] H; [done|done| |].
  - cbn in H. simplify_eq. cbn [occupied]. specialize (Hn l). lia.
  - specialize (IH i H). cbn [occupied]. destruct x; lia.
Qed.

Lemma elem_remove v w q : v ∈ remove w q <-> v ∈ q /\ v <> w.
Proof. unfold remove. rewrite list_elem_of_filter. tauto. Qed.

Lemma remove_app w l k : remove w (l ++ k) = remove w l ++ remove w k.
Proof. unfold remove. by rewrite list.filter_app. Qed.

Lemma NoDup_remove w q : NoDup q -> NoDup (remove w q).
Proof. unfold remove. apply list.NoDup_filter. Qed.

(** Consequences of the invariant. *)
Section Core.

Context (ep : gmap nat epoll_event) (s : io_loop) (HC : core ep s).

Lemma core_events_pevents w r : ws s !! w = Some r -> w_events r <> 0 -> w_pevents r <> 0.
Proof.
  intros Hw He Hp. assert (w ∈ watcher_queue s) as Hq by (apply (i_dirty _ _ HC w r Hw); congruence).
  apply (i_queue _ _ HC) in Hq as (r' & fd & Hw' & _ & Hp'). congruence.
Qed.

Lemma core_unique w v fd : opened s w fd -> opened s v fd -> w = v.
Proof. intros H1%(i_owner _ _ HC) H2%(i_owner _ _ HC). congruence. Qed.

Lemma core_table_owner fd w : watchers s !! fd = Some (Some w) -> owner s !! fd = Some w.
Proof. intros (r & ? & ? & ?)%(i_table _ _ HC). apply (i_owner _ _ HC). by exists r. Qed.

Lemma core_idle_absent w r fd v : ws s !! w = Some r -> w_fd r = Some fd -> w_pevents r = 0 -> watchers s !! fd <> Some (Some v).
Proof.
  intros Hw Hf Hp E. pose proof E as Ho%core_table_owner. apply (i_owner _ _ HC) in Ho.
  assert (v = w) as -> by (eapply core_unique; [exact Ho|by exists r]).
  apply (i_table _ _ HC) in E as (r' & ? & ? & ?). congruence.
Qed.

Lemma core_known_lt w r fd : ws s !! w = Some r -> w_fd r = Some fd -> w_pevents r <> 0 -> (fd < length (watchers s))%nat.
Proof. intros. eapply lookup_lt_Some. apply (i_table _ _ HC). by exists r. Qed.

End Core.

(** A watcher that keeps its descriptor changes what it wants or what the kernel was told. *)
Lemma core_update ep ep' s s' w r r' fd :
  core ep s -> ws s !! w = Some r -> w_fd r = Some fd -> w_fd r' = Some fd ->
  ws s' = <[w := r']> (ws s) -> owner s' = owner s ->
  pending_queue s' = pending_queue s -> running s' = running s ->
  dangling s' = false -> Forall (fun b => b = true) (allocs s') ->
  (forall fd' v, fd' <> fd -> watchers s' !! fd' = Some (Some v) <-> watchers s !! fd' = Some (Some v)) ->
  (forall v, watchers s' !! fd = Some (Some v) <-> v = w /\ w_pevents r' <> 0) ->
  (length (watchers s) <= length (watchers s'))%nat -> nfds s' = occupied (watchers s') ->
  NoDup (watcher_queue s') -> (forall v, v <> w -> v ∈ watcher_queue s' <-> v ∈ watcher_queue s) ->
  (w ∈ watcher_queue s' -> w_pevents r' <> 0) -> (w_events r' <> w_pevents r' -> w ∈ watcher_queue s') ->
  Z.land (w_pevents r') (Z.lnot poll_mask) = 0 ->
  (forall fd', fd' <> fd -> ep' !! fd' = ep !! fd') ->
  (w_events r' <> 0 -> ep' !! fd = Some (mkEv (w_events r') fd)) ->
  (forall e, ep' !! fd = Some e -> ev_fd e = fd /\ (fd < length (watchers s'))%nat) ->
  core ep' s'.
Proof.
  intros HC Hw Hf Hf' Ews Eow Ep Er Hd Ha Ht Htw Hlen Hn Hnd Hq Hqw Hdw Hm Hep Hkn Hin.
  assert (forall v fd', opened s' v fd' <-> opened s v fd') as Hop.
  { intros v fd'. unfold opened. rewrite Ews. destruct (decide (v = w)) as [->|Hne].
    - rewrite lookup_insert_eq. split; intros (x & E & E'); simplify_eq; eauto.
    - by rewrite lookup_insert_ne. }
  constructor.
  - intros fd' v. destruct (decide (fd' = fd)) as [->|Hne].
    + rewrite Htw, Ews. split.
      * intros [-> Hp]. exists r'. by rewrite lookup_insert_eq.
      * intros (x & Hx & Hxf & Hxp). destruct (decide (v = w)) as [->|Hne].
        -- rewrite lookup_insert_eq in Hx. by simplify_eq.
        -- rewrite lookup_insert_ne in Hx by done. destruct Hne. eapply core_unique; [done|by exists x|by exists r].
    + rewrite Ht, (i_table _ _ HC), Ews by done. destruct (decide (v = w)) as [->|Hvw].
      * rewrite lookup_insert_eq. split; intros (x & Hx & Hxf & _); simplify_eq; congruence.
      * by rewrite lookup_insert_ne.
  - done.
  - intros fd' v. rewrite Eow, Hop. apply (i_owner _ _ HC).
  - intros fd' v. rewrite Eow. apply (i_bound _ _ HC).
  - intros v x. rewrite Ews. destruct (decide (v = w)) as [->|Hvw]; [rewrite lookup_insert_eq; intros ? ?; simplify_eq; congruence|].
    rewrite lookup_insert_ne by done. apply (i_closed _ _ HC).
  - done.
  - intros v Hv. rewrite Ews. destruct (decide (v = w)) as [->|Hvw]; [exists r', fd; rewrite lookup_insert_eq; auto|].
    rewrite lookup_insert_ne by done. apply (i_queue _ _ HC). by apply Hq.
  - intros v x. rewrite Ews. destruct (decide (v = w)) as [->|Hvw]; [rewrite lookup_insert_eq; intros ? ?; simplify_eq; auto|].
    rewrite lookup_insert_ne by done. intros. apply Hq; [done|]. by eapply (i_dirty _ _ HC).
  - intros v x fd'. rewrite Ews. destruct (decide (v = w)) as [->|Hvw]; [rewrite lookup_insert_eq; intros; simplify_eq; auto|].
    rewrite lookup_insert_ne by done. intros Hx Hxf He. rewrite Hep; [by eapply (i_known _ _ HC)|].
    intros ->. apply Hvw. eapply core_unique; [done|by exists x|by exists r].
  - intros fd' e He. rewrite Eow. destruct (decide (fd' = fd)) as [->|Hne].
    + destruct (Hin e He). split; [done|]. split; [|done]. exists w. apply (i_owner _ _ HC). by exists r.
    + rewrite Hep in He by done. destruct (i_interest _ _ HC _ _ He) as (? & ? & ?). split; [done|]. split; [done|lia].
  - intros v x. rewrite Ews. destruct (decide (v = w)) as [->|Hvw]; [rewrite lookup_insert_eq; by intros; simplify_eq|].
    rewrite lookup_insert_ne by done. apply (i_mask _ _ HC).
  - rewrite Ep, Er. apply (i_pnodup _ _ HC).
  - intros v. rewrite Ep, Er. intros Hv. destruct (i_pending _ _ HC v Hv) as [fd' H]. exists fd'. by apply Hop.
  - done.
Qed.

(** ** Part 4: the operations *)

(** What starting and stopping leave alone. *)
Definition frame (s s' : io_loop) : Prop :=
  ctl s' = ctl s /\ owner s' = owner s /\ inv_events s' = inv_events s /\ log s' = log s /\ now s' = now s /\
  pending_queue s' = pending_queue s /\ running s' = running s /\ (length (watchers s) <= length (watchers s'))%nat.

Lemma maybe_resize_ok fd s :
  dangling s = false -> Forall (fun b => b = true) (allocs s) -> Z.of_nat fd < MAX_FD ->
  exists n a, maybe_resize (Z.of_nat fd + 1) s = Ret (0, set_watchers (watchers s ++ replicate n None) (set_allocs a s)) /\
    (fd < length (watchers s) + n)%nat /\ Forall (fun b => b = true) a.
Proof.
  intros Hd Ha Hfd. unfold maybe_resize. unfold MAX_FD in Hfd. case_match eqn:E; reflect_bools.
  { exists 0%nat, (allocs s). cbn [replicate]. rewrite app_nil_r. split; [by destruct s|]. split; [lia|done]. }
  rewrite Hd. pose proof (resize_enough (Z.of_nat fd + 1) ltac:(lia)) as Hn.
  set (n := u32 (next_power_of_two (u32 (Z.of_nat fd + 1 + 2)) - 2)) in *.
  assert ((match allocs s with b :: _ => b | [] => true end) = true) as -> by (destruct Ha; [done|by subst]).
  exists (Z.to_nat n - length (watchers s))%nat, (tail (allocs s)). split; [by destruct s|]. split; [lia|]. by destruct Ha.
Qed.

Lemma lookup_app_none (l : list (option nat)) n (i v : nat) :
  (l ++ replicate n None) !! i = Some (Some v) <-> l !! i = Some (Some v).
Proof.
  rewrite lookup_app_Some. split; [intros [H|[_ H]]; [done|]|by left]. apply lookup_replicate in H as [? _]. done.
Qed.

Lemma valid_nonzero ev : events_valid ev = true -> ev <> 0 /\ Z.land ev (Z.lnot poll_mask) = 0.
Proof. unfold events_valid. intros H. reflect_bools. auto. Qed.

Lemma lor_nonzero a b : b <> 0 -> Z.lor a b <> 0.
Proof. intros H [_ E]%Z.lor_eq_0_iff. done. Qed.

Lemma valid_lor a ev : Z.land a (Z.lnot poll_mask) = 0 -> Z.land ev (Z.lnot poll_mask) = 0 -> Z.land (Z.lor a ev) (Z.lnot poll_mask) = 0.
Proof. intros H1 H2. by rewrite Z.land_lor_distr_l, H1, H2. Qed.

Lemma valid_land a b : Z.land a (Z.lnot poll_mask) = 0 -> Z.land (Z.land a b) (Z.lnot poll_mask) = 0.
Proof. intros H. rewrite <- Z.land_assoc, (Z.land_comm b), Z.land_assoc, H. done. Qed.

Definition q_enqueue (w : nat) (q : list nat) : list nat := if bool_decide (w ∈ q) then q else q ++ [w].

Lemma enqueue_ok w q : NoDup q -> NoDup (q_enqueue w q) /\ w ∈ q_enqueue w q /\ forall v, v <> w -> v ∈ q_enqueue w q <-> v ∈ q.
Proof.
  intros H. unfold q_enqueue. case_bool_decide as E; [done|]. split; [|split; [set_solver|set_solver]].
  apply list.NoDup_app. split; [done|]. split; [set_solver|apply NoDup_singleton].
Qed.

Lemma set_queue_if w s :
  (if bool_decide (w ∈ watcher_queue s) then s else set_watcher_queue (watcher_queue s ++ [w]) s) = set_watcher_queue (q_enqueue w (watcher_queue s)) s.
Proof. unfold q_enqueue. case_bool_decide; [by destruct s|done]. Qed.

(** [uv__io_start] succeeds, and the watcher wants the events as well. *)
Lemma io_start_ok ep w ev s r fd :
  core ep s -> events_valid ev = true -> ws s !! w = Some r -> w_fd r = Some fd ->
  exists s', uv__io_start w ev s = Ret (0, s') /\ core ep s' /\ frame s s' /\
    ws s' = <[w := mkW (Some fd) (w_events r) (Z.lor (w_pevents r) ev)]> (ws s).
Proof.
  intros HC Hev Hw Hf. destruct (valid_nonzero _ Hev) as [Hnz Hval]. destruct (i_alloc _ _ HC) as [Hd Ha].
  assert (Z.of_nat fd < MAX_FD) as Hb by (apply (i_bound _ _ HC fd w); apply (i_owner _ _ HC); by exists r).
  unfold uv__io_start, get_w. rewrite Hw. cbn [mbind outcome_bind]. rewrite Hev, Hf. cbn [negb w_events w_pevents w_fd].
  rewrite (proj2 (Z.ltb_lt _ _)) by (unfold MAX_FD, INT_MAX in *; lia). cbn [negb].
  set (r' := mkW (Some fd) (w_events r) (Z.lor (w_pevents r) ev)).
  destruct (maybe_resize_ok fd (set_w w r' s)) as (n & a & -> & Hn & Haa); [done|done|done|].
  cbn [mbind outcome_bind watchers set_w set_ws] in *. change (0 =? 0) with true. cbn [negb].
  assert (Z.lor (w_pevents r) ev <> 0) as Hnz' by by apply lor_nonzero.
  assert (Z.land (Z.lor (w_pevents r) ev) (Z.lnot poll_mask) = 0) as Hval' by (apply valid_lor; [by apply (i_mask _ _ HC w)|done]).
  pose proof (occupied_app_none (watchers s) n) as Hocc. pose proof (i_nfds _ _ HC) as Hnf.
  case_match eqn:Eev; reflect_bools.
  { eexists. split; [done|]. split; [|split; [|done]].
    2: { repeat (split; [done|]). cbn. rewrite length_app. lia. }
    apply (core_update ep ep s _ w r r' fd); try done; cbn [set_watchers set_allocs set_w set_ws watchers nfds watcher_queue].
    - intros. apply lookup_app_none.
    - intros v. rewrite lookup_app_none, (i_table _ _ HC). split.
      + intros (x & Hx & Hxf & Hxp). split; [|done]. eapply core_unique; [done|by exists x|by exists r].
      + intros [-> _]. exists r. split; [done|]. split; [done|]. eapply core_events_pevents; [done|done|congruence].
    - rewrite length_app. lia.
    - congruence.
    - apply (i_nodup _ _ HC).
    - exact (i_known _ _ HC w r fd Hw Hf).
    - intros e He. destruct (i_interest _ _ HC _ _ He) as (? & _ & ?). split; [done|]. rewrite length_app. lia. }
  rewrite set_queue_if. cbn [set_watchers set_allocs set_w set_ws watcher_queue].
  destruct (enqueue_ok w (watcher_queue s) (i_nodup _ _ HC)) as (Hq1 & Hq2 & Hq3).
  unfold table_get. cbn [set_watcher_queue set_watchers set_allocs set_w set_ws watchers dangling]. rewrite Hd.
  destruct (lookup_lt_is_Some_2 (watchers s ++ replicate n None) fd) as [o Ho]; [rewrite length_app, length_replicate; lia|].
  rewrite Ho. cbn [mbind outcome_bind].
  assert (forall v, o = Some v -> v = w) as Hov.
  { intros v ->. apply lookup_app_none in Ho. apply (core_table_owner _ _ HC) in Ho. apply (i_owner _ _ HC) in Ho.
    eapply core_unique; [done|done|by exists r]. }
  assert (forall W N, (forall fd' v, fd' <> fd -> W !! fd' = Some (Some v) <-> watchers s !! fd' = Some (Some v)) ->
    W !! fd = Some (Some w) -> (length (watchers s) <= length W)%nat -> N = occupied W ->
    core ep (set_nfds N (set_watchers W (set_watcher_queue (q_enqueue w (watcher_queue s)) (set_allocs a (set_w w r' s)))))) as Hfin.
  { intros W N HW HWfd Hlen HN.
    apply (core_update ep ep s _ w r r' fd); try done; cbn [set_nfds set_watcher_queue set_watchers set_allocs set_w set_ws watchers nfds watcher_queue].
    - intros v. rewrite HWfd. split; [intros E; by simplify_eq|by intros [-> _]].
    - exact (i_known _ _ HC w r fd Hw Hf).
    - intros e He. destruct (i_interest _ _ HC _ _ He) as (? & _ & ?). split; [done|]. lia. }
  destruct o as [v|]; (eexists; split; [done|]).
  - rewrite (Hov v eq_refl) in Ho. split; [|split; [|done]].
    + apply (Hfin (watchers s ++ replicate n None) (nfds s)); [intros; apply lookup_app_none|done|rewrite length_app; lia|congruence].
    + repeat (split; [done|]). cbn. rewrite length_app. lia.
  - split; [|split; [|done]].
    + apply (Hfin (<[fd := Some w]> (watchers s ++ replicate n None)) (nfds s + 1)).
      * intros fd' v Hne. rewrite list_lookup_insert_ne by done. apply lookup_app_none.
      * apply list_lookup_insert_eq. by eapply lookup_lt_Some.
      * rewrite length_insert, length_app. lia.
      * rewrite (occupied_insert _ _ _ _ Ho). lia.
    + repeat (split; [done|]). cbn [watchers set_nfds set_watchers]. rewrite length_insert, length_app. lia.
Qed.

(** [uv__io_stop] takes the events from what the watcher wants. *)
Lemma io_stop_ok ep w ev s r :
  core ep s -> events_valid ev = true -> ws s !! w = Some r ->
  exists s', uv__io_stop w ev s = Ret s' /\ core ep s' /\ frame s s' /\
    exists r', ws s' = <[w := r']> (ws s) /\ w_fd r' = w_fd r /\ w_pevents r' = Z.land (w_pevents r) (Z.lnot ev) /\
      (w_pevents r' = 0 -> w_events r' = 0).
Proof.
  intros HC Hev Hw. destruct (i_alloc _ _ HC) as [Hd Ha]. pose proof (i_mask _ _ HC w r Hw) as Hmask.
  unfold uv__io_stop, get_w. rewrite Hw. cbn [mbind outcome_bind]. rewrite Hev. cbn [negb].
  assert (w_pevents r = 0 -> exists s', Ret s = Ret s' /\ core ep s' /\ frame s s' /\
    exists r', ws s' = <[w := r']> (ws s) /\ w_fd r' = w_fd r /\ w_pevents r' = Z.land (w_pevents r) (Z.lnot ev) /\
      (w_pevents r' = 0 -> w_events r' = 0)) as Hsame.
  { intros Hp. exists s. split; [done|]. split; [done|]. split; [by repeat (split; [done|])|].
    exists r. split; [by rewrite insert_id|]. split; [done|]. rewrite Hp. split; [done|]. intros _.
    destruct (decide (w_events r = 0)); [done|]. by destruct (core_events_pevents _ _ HC w r Hw). }
  destruct (w_fd r) as [fd|] eqn:Hf; [|apply Hsame; by apply (i_closed _ _ HC w)].
  case_match eqn:El.
  { apply Nat.leb_le in El. apply Hsame. destruct (decide (w_pevents r = 0)); [done|].
    pose proof (core_known_lt _ _ HC w r fd Hw Hf). lia. }
  apply Nat.leb_gt in El. pose proof (i_nfds _ _ HC) as Hnf.
  case_match eqn:Ep; reflect_bools.
  - set (r' := mkW (Some fd) 0 0). unfold table_get. cbn [set_watcher_queue set_w set_ws watchers dangling watcher_queue nfds]. rewrite Hd.
    destruct (lookup_lt_is_Some_2 (watchers s) fd El) as [o Ho]. rewrite Ho. cbn [mbind outcome_bind].
    assert (forall W N, (forall fd' v, fd' <> fd -> W !! fd' = Some (Some v) <-> watchers s !! fd' = Some (Some v)) ->
      (forall v, W !! fd <> Some (Some v)) -> length (watchers s) = length W -> N = occupied W ->
      core ep (set_nfds N (set_watchers W (set_watcher_queue (remove w (watcher_queue s)) (set_w w r' s))))) as Hfin.
    { intros W N HW HWfd Hlen HN.
      apply (core_update ep ep s _ w r r' fd); try done; cbn [set_nfds set_watcher_queue set_watchers set_w set_ws watchers nfds watcher_queue].
      - intros v. split; [intros E; by destruct (HWfd v)|by intros [_ []]].
      - lia.
      - apply NoDup_remove, (i_nodup _ _ HC).
      - intros v Hv. rewrite elem_remove. tauto.
      - by intros [_ []]%elem_remove.
      - intros e He. destruct (i_interest _ _ HC _ _ He) as (? & _ & ?). split; [done|]. lia. }
    case_bool_decide as Eo.
    + subst o. rewrite Hnf, (proj2 (Z.ltb_lt _ _)) by by eapply occupied_pos. eexists. split; [done|]. split; [|split; [|exists r'; by rewrite Ep]].
      * apply (Hfin (<[fd := None]> (watchers s)) _).
        -- intros fd' v Hne. by rewrite list_lookup_insert_ne.
        -- intros v. rewrite list_lookup_insert_eq by done. done.
        -- by rewrite length_insert.
        -- rewrite (occupied_insert _ _ _ _ Ho). lia.
      * repeat (split; [done|]). cbn [watchers set_nfds set_watchers]. by rewrite length_insert.
    + eexists. split; [done|]. split; [|split; [by repeat (split; [done|])|exists r'; by rewrite Ep]].
      apply (Hfin (watchers s) (nfds s)); try done. intros v Hv. apply Eo. rewrite Hv in Ho. simplify_eq. f_equal.
      apply (core_table_owner _ _ HC), (i_owner _ _ HC) in Hv. eapply core_unique; [done|done|by exists r].
  - set (r' := mkW (Some fd) (w_events r) (Z.land (w_pevents r) (Z.lnot ev))). rewrite set_queue_if.
    destruct (enqueue_ok w (watcher_queue s) (i_nodup _ _ HC)) as (Hq1 & Hq2 & Hq3).
    eexists. split; [done|]. split; [|split; [by repeat (split; [done|])|exists r'; split; [done|]; split; [done|]; split; [done|intros E; by destruct Ep]]].
    assert (w_pevents r <> 0) as Hp by (intros E; rewrite E in Ep; done).
    apply (core_update ep ep s _ w r r' fd); try done; cbn [set_watcher_queue set_w set_ws watchers nfds watcher_queue].
    + intros v. rewrite (i_table _ _ HC). split.
      * intros (x & Hx & Hxf & Hxp). split; [|done]. eapply core_unique; [done|by exists x|by exists r].
      * intros [-> _]. by exists r.
    + by apply valid_land.
    + exact (i_known _ _ HC w r fd Hw Hf).
    + intros e He. destruct (i_interest _ _ HC _ _ He) as (? & _ & ?). split; [done|]. lia.
Qed.

(** A watcher without wishes loses its descriptor. *)
Lemma core_close ep s s' w r fd :
  core ep s -> ws s !! w = Some r -> w_fd r = Some fd -> w_events r = 0 -> w_pevents r = 0 ->
  ws s' = <[w := mkW None 0 0]> (ws s) -> owner s' = delete fd (owner s) ->
  pending_queue s' = remove w (pending_queue s) -> running s' = remove w (running s) ->
  watchers s' = watchers s -> nfds s' = nfds s -> watcher_queue s' = watcher_queue s ->
  dangling s' = dangling s -> allocs s' = allocs s ->
  core (delete fd ep) s'.
Proof.
  intros HC Hw Hf He Hp Ews Eow Epq Erun Ewat Enf Eq Ed Ea.
  assert (forall v fd', opened s' v fd' <-> opened s v fd' /\ fd' <> fd) as Hop.
  { intros v fd'. unfold opened. rewrite Ews. destruct (decide (v = w)) as [->|Hne].
    - rewrite lookup_insert_eq. split; [intros (x & E & E'); simplify_eq|]. intros [(x & E & E') Hn]. congruence.
    - rewrite lookup_insert_ne by done. split; [|tauto]. intros (x & E & E'). split; [by exists x|]. intros ->.
      apply Hne. eapply core_unique; [done|by exists x|by exists r]. }
  assert (forall v x, ws s' !! v = Some x -> v <> w -> ws s !! v = Some x) as Hother.
  { intros v x Hx Hne. rewrite Ews, lookup_insert_ne in Hx by done. done. }
  constructor.
  - intros fd' v. rewrite Ewat, (i_table _ _ HC), Ews. destruct (decide (v = w)) as [->|Hne].
    + rewrite lookup_insert_eq. split; intros (x & E & E' & E''); simplify_eq; congruence.
    + by rewrite lookup_insert_ne.
  - rewrite Enf, Ewat. apply (i_nfds _ _ HC).
  - intros fd' v. rewrite Eow, Hop, lookup_delete_Some, (i_owner _ _ HC). split; intros [? ?]; split; congruence || done.
  - intros fd' v. rewrite Eow, lookup_delete_Some. intros [_ H]. by apply (i_bound _ _ HC) in H.
  - intros v x Hx Hxf. destruct (decide (v = w)) as [->|Hne].
    + rewrite Ews, lookup_insert_eq in Hx. by simplify_eq.
    + apply (i_closed _ _ HC v); auto.
  - rewrite Eq. apply (i_nodup _ _ HC).
  - intros v. rewrite Eq, Ews. intros (x & fd' & Hx & Hxf & Hxp)%(i_queue _ _ HC). exists x, fd'.
    rewrite lookup_insert_ne; [done|]. intros ->. congruence.
  - intros v x Hx Hd. rewrite Eq. destruct (decide (v = w)) as [->|Hne].
    + rewrite Ews, lookup_insert_eq in Hx. by simplify_eq.
    + apply (i_dirty _ _ HC v x); auto.
  - intros v x fd' Hx Hxf Hxe. destruct (decide (v = w)) as [->|Hne].
    + rewrite Ews, lookup_insert_eq in Hx. by simplify_eq.
    + apply Hother in Hx; [|done]. rewrite lookup_delete_ne; [by apply (i_known _ _ HC v)|]. intros ->.
      apply Hne. eapply core_unique; [done|by exists x|by exists r].
  - intros fd' e. rewrite lookup_delete_Some. intros [Hne H]. rewrite Eow, Ewat, lookup_delete_ne by done. by apply (i_interest _ _ HC).
  - intros v x Hx. destruct (decide (v = w)) as [->|Hne].
    + rewrite Ews, lookup_insert_eq in Hx. by simplify_eq.
    + apply (i_mask _ _ HC v); auto.
  - rewrite Epq, Erun, <- remove_app. apply NoDup_remove, (i_pnodup _ _ HC).
  - intros v. rewrite Epq, Erun, <- remove_app, elem_remove. intros [Hv Hne].
    destruct (i_pending _ _ HC v Hv) as [fd' Ho]. exists fd'. apply Hop. split; [done|]. intros ->.
    apply Hne. eapply core_unique; [done|done|by exists r].
  - rewrite Ed, Ea. apply (i_alloc _ _ HC).
Qed.

(** A new descriptor for a watcher that has none. *)
Lemma core_open ep s s' w fd :
  core ep s -> act_allowed (IoOpen w fd) s ->
  ws s' = <[w := mkW (Some fd) 0 0]> (ws s) -> owner s' = <[fd := w]> (owner s) ->
  pending_queue s' = pending_queue s -> running s' = running s ->
  watchers s' = watchers s -> nfds s' = nfds s -> watcher_queue s' = watcher_queue s ->
  dangling s' = dangling s -> allocs s' = allocs s ->
  core ep s'.
Proof.
  intros HC (Hno & [_ Hb] & Hnw) Ews Eow Epq Erun Ewat Enf Eq Ed Ea.
  assert (forall fd', ~ opened s w fd') as Hnop by (intros fd' (x & Hx & Hxf); apply Hnw in Hx; congruence).
  assert (forall v fd', opened s' v fd' <-> opened s v fd' \/ v = w /\ fd' = fd) as Hop.
  { intros v fd'. unfold opened at 1. rewrite Ews. destruct (decide (v = w)) as [->|Hne].
    - rewrite lookup_insert_eq. split; [intros (x & E & E'); simplify_eq/=; by right|]. intros [H|[_ ->]]; [by destruct (Hnop fd')|eauto].
    - rewrite lookup_insert_ne by done. unfold opened. naive_solver. }
  assert (forall v x, ws s' !! v = Some x -> v = w /\ x = mkW (Some fd) 0 0 \/ v <> w /\ ws s !! v = Some x) as Hcase.
  { intros v x Hx. rewrite Ews in Hx. destruct (decide (v = w)) as [->|Hne].
    - rewrite lookup_insert_eq in Hx. left. by simplify_eq.
    - rewrite lookup_insert_ne in Hx by done. by right. }
  constructor.
  - intros fd' v. rewrite Ewat, (i_table _ _ HC), Ews. destruct (decide (v = w)) as [->|Hne].
    + rewrite lookup_insert_eq. split; [intros (x & E & E' & E'')|intros (x & E & E' & E''); by simplify_eq].
      destruct (Hnop fd'). by exists x.
    + by rewrite lookup_insert_ne.
  - rewrite Enf, Ewat. apply (i_nfds _ _ HC).
  - intros fd' v. rewrite Eow, Hop, <- (i_owner _ _ HC). destruct (decide (fd' = fd)) as [->|Hne].
    + rewrite lookup_insert_eq, Hno. naive_solver.
    + rewrite lookup_insert_ne by done. naive_solver.
  - intros fd' v. rewrite Eow. destruct (decide (fd' = fd)) as [->|Hne]; [done|]. rewrite lookup_insert_ne by done. apply (i_bound _ _ HC).
  - intros v x [[-> ->]|[_ Hx]]%Hcase; [done|]. by apply (i_closed _ _ HC v).
  - rewrite Eq. apply (i_nodup _ _ HC).
  - intros v. rewrite Eq, Ews. intros (x & fd' & Hx & Hxf & Hxp)%(i_queue _ _ HC). exists x, fd'.
    rewrite lookup_insert_ne; [done|]. intros ->. destruct (Hnop fd'). by exists x.
  - intros v x [[-> ->]|[_ Hx]]%Hcase; [done|]. rewrite Eq. by apply (i_dirty _ _ HC v).
  - intros v x fd' [[-> ->]|[_ Hx]]%Hcase; [done|]. by apply (i_known _ _ HC v).
  - intros fd' e (? & ? & ?)%(i_interest _ _ HC). rewrite Eow, Ewat. split; [done|]. split; [|done].
    rewrite lookup_insert. case_match; eauto.
  - intros v x [[-> ->]|[_ Hx]]%Hcase; [done|]. by apply (i_mask _ _ HC v).
  - rewrite Epq, Erun. apply (i_pnodup _ _ HC).
  - intros v. rewrite Epq, Erun. intros [fd' Ho]%(i_pending _ _ HC). exists fd'. apply Hop. by left.
  - rewrite Ed, Ea. apply (i_alloc _ _ HC).
Qed.

Lemma core_feed ep s w :
  core ep s -> (exists fd, opened s w fd) -> core ep (uv__io_feed w s).
Proof.
  intros HC Ho. unfold uv__io_feed. case_bool_decide as E; [done|]. destruct HC. constructor; try done; cbn [pending_queue running set_pending_queue].
  - assert (((pending_queue s ++ [w]) ++ running s) ≡ₚ w :: pending_queue s ++ running s) as -> by (rewrite <- app_assoc; symmetry; apply Permutation_middle).
    by apply list.NoDup_cons.
  - intros v Hv. assert (v = w \/ v ∈ pending_queue s ++ running s) as [->|Hv'] by set_solver; [exact Ho|].
    exact (i_pending0 v Hv').
Qed.

(** The act leaves the watcher as it is, or lets it want more. *)
Definition untouched (w : nat) (a : io_act) : Prop := match a with IoStop v _ | IoClose v => v <> w | _ => True end.

(** What the step from [s] to [s'] by an act leaves alone. *)
Record keeps (a : io_act) (s s' : io_loop) : Prop := mkKeeps {
  k_log : log s' = LAct a :: log s;
  k_len : option_map length (inv_events s') = option_map length (inv_events s);
  k_now : now s' = now s;
  k_running : (length (running s') <= length (running s))%nat;
  k_watch : forall w r fd, untouched w a -> ws s !! w = Some r -> w_fd r = Some fd ->
    exists r', ws s' !! w = Some r' /\ w_fd r' = Some fd /\ forall b, Z.testbit (w_pevents r) b = true -> Z.testbit (w_pevents r') b = true;
  k_batch : forall w fd es i m, untouched w a -> opened s w fd -> inv_events s = Some es -> es !! i = Some (Some fd, m) ->
    exists es', inv_events s' = Some es' /\ es' !! i = Some (Some fd, m) }.

Lemma core_log ep l s : core ep s -> core ep (add_log l s).
Proof. intros []. by constructor. Qed.

(** A step that keeps the descriptors and the events keeps what is known of the events. *)
Lemma batch_ok_same s s' a :
  batch_ok s -> (forall w, a <> IoClose w) -> inv_events s' = inv_events s -> log s' = LAct a :: log s ->
  (length (watchers s) <= length (watchers s'))%nat ->
  (forall fd w, owner s !! fd = Some w -> owner s' !! fd = Some w) -> batch_ok s'.
Proof.
  intros HB Ha Ei El Hlen Ho es. rewrite Ei. intros Hes. destruct (HB es Hes) as (o & evs & Hlw & Hl & H).
  exists o, evs. rewrite El. cbn [last_wait]. split; [done|]. split; [done|].
  intros i fd m Hi. destruct (H i fd m Hi) as (Hfd & Hin & w & Hw & How & Hn). split; [lia|]. split; [done|].
  exists w. split; [by apply Ho|]. split; [done|]. cbn [since_wait]. intros [E|E]%elem_of_cons; [|done]. simplify_eq. by destruct (Ha w).
Qed.

(** Starting and stopping, as acts. *)
Lemma act_frame a s s' :
  io_inv s -> (forall w, a <> IoClose w) -> core (interest (ctl s)) s' -> frame (add_log (LAct a) s) s' ->
  (forall w r fd, untouched w a -> ws s !! w = Some r -> w_fd r = Some fd ->
    exists r', ws s' !! w = Some r' /\ w_fd r' = Some fd /\ forall b, Z.testbit (w_pevents r) b = true -> Z.testbit (w_pevents r') b = true) ->
  io_inv s' /\ keeps a s s'.
Proof.
  intros (HC & HR & HB & HL) Ha HC' (Ec & Eo & Ei & El & En & _ & Er & Hlen) Hk.
  cbn [add_log set_log ctl owner inv_events log now watchers] in *. split.
  - split; [by rewrite Ec|]. split; [by rewrite Ec|]. split; [|rewrite El; exact HL].
    eapply (batch_ok_same s s' a); try done. intros fd w. by rewrite Eo.
  - constructor; try done; [by rewrite Ei|by rewrite Er|]. intros w fd es i m _ _ Hes Hi. exists es. by rewrite Ei.
Qed.

Lemma update_grows (m : gmap nat io_watcher) w r r' :
  m !! w = Some r -> w_fd r' = w_fd r -> (forall b, Z.testbit (w_pevents r) b = true -> Z.testbit (w_pevents r') b = true) ->
  forall v x fd, m !! v = Some x -> w_fd x = Some fd ->
    exists x', <[w := r']> m !! v = Some x' /\ w_fd x' = Some fd /\ forall b, Z.testbit (w_pevents x) b = true -> Z.testbit (w_pevents x') b = true.
Proof.
  intros Hw Hf Hb v x fd Hx Hxf. destruct (decide (v = w)) as [->|Hne].
  - simplify_eq. exists r'. rewrite lookup_insert_eq. split; [done|]. split; [congruence|done].
  - exists x. by rewrite lookup_insert_ne.
Qed.

Lemma epoll_del open fd e ep : open fd = true -> (epoll_ctl open EPOLL_CTL_DEL fd e ep).2 = delete fd ep.
Proof.
  intros Ho. unfold epoll_ctl. rewrite Ho. cbn [negb]. destruct (ep !! fd) eqn:E; [done|]. cbn. by rewrite delete_id.
Qed.

(** [uv__io_close] as one state. *)
Definition unqueue (w : nat) (s : io_loop) : io_loop :=
  set_running (remove w (running s)) (set_pending_queue (remove w (pending_queue s)) s).

Lemma io_close_run ep w s r :
  core ep s -> ws s !! w = Some r ->
  exists s1 r1, uv__io_close w s = Ret (match w_fd r with None => unqueue w s1 | Some fd => uv__platform_invalidate_fd fd (unqueue w s1) end) /\
    core ep s1 /\ frame s s1 /\ ws s1 = <[w := r1]> (ws s) /\ w_fd r1 = w_fd r /\ w_pevents r1 = 0 /\ w_events r1 = 0.
Proof.
  intros HC Hw. destruct (io_stop_ok _ w poll_mask s r HC ltac:(by vm_compute) Hw) as (s1 & E1 & HC1 & Hfr & r1 & Ew1 & Hf1 & Hp1 & He1).
  rewrite (i_mask _ _ HC w r Hw) in Hp1. exists s1, r1. split; [|by auto 10].
  unfold uv__io_close. rewrite E1. cbn [mbind outcome_bind]. fold (unqueue w s1). unfold get_w.
  change (ws (unqueue w s1)) with (ws s1). rewrite Ew1, lookup_insert_eq. cbn [mbind outcome_bind]. rewrite Hf1. by destruct (w_fd r).
Qed.

Lemma remove_absent w q : w ∉ q -> remove w q = q.
Proof.
  unfold remove. induction q as [|v q IH]; [done|]. rewrite not_elem_of_cons. intros [Hne Hn].
  rewrite filter_cons_True by congruence. f_equal. by apply IH.
Qed.

(** Taking a watcher without descriptor from the queues changes nothing. *)
Lemma unqueue_id ep s w : core ep s -> (forall fd, ~ opened s w fd) -> unqueue w s = s.
Proof.
  intros HC Hn. assert (w ∉ pending_queue s ++ running s) as H.
  { intros [fd H]%(i_pending _ _ HC). by destruct (Hn fd). }
  rewrite elem_of_app in H. unfold unqueue. cbn [set_pending_queue running].
  rewrite !remove_absent by tauto. by destruct s.
Qed.

Lemma batch_ok_close s s' w :
  batch_ok s -> log s' = LAct (IoClose w) :: log s -> (length (watchers s) <= length (watchers s'))%nat ->
  (forall es', inv_events s' = Some es' -> exists es, inv_events s = Some es /\ length es' = length es /\
    forall i fd m, es' !! i = Some (Some fd, m) -> es !! i = Some (Some fd, m) /\
      forall v, owner s !! fd = Some v -> v <> w /\ owner s' !! fd = Some v) ->
  batch_ok s'.
Proof.
  intros HB El Hlen H es' Hes'. destruct (H es' Hes') as (es & Hes & Hl & He). destruct (HB es Hes) as (o & evs & Hlw & Hle & Hall).
  exists o, evs. rewrite El. cbn [last_wait since_wait]. split; [done|]. split; [congruence|].
  intros i fd m Hi. destruct (He i fd m Hi) as [Hi' Hv]. destruct (Hall i fd m Hi') as (Hfd & Hin & v & Hov & Ho & Hn).
  destruct (Hv v Hov) as [Hne Hov']. split; [lia|]. split; [done|]. exists v. split; [done|]. split; [done|].
  intros [E|E]%elem_of_cons; [|done]. congruence.
Qed.

Lemma ring_idle_interest ep r : ring_idle r -> ring_idle (set_interest ep r).
Proof. done. Qed.

(** Closing: the table, the queues, the kernel and the events being dispatched forget it. *)
Lemma io_close_ok s w :
  io_inv s -> is_Some (ws s !! w) -> exists s', io_act_do (IoClose w) s = Ret s' /\ io_inv s' /\ keeps (IoClose w) s s'.
Proof.
  intros (HC & HR & HB & HL) [r Hw]. set (s0 := add_log (LAct (IoClose w)) s).
  destruct (io_close_run (interest (ctl s)) w s0 r ltac:(by apply core_log) Hw)
    as (s1 & r1 & E1 & HC1 & (Ec & Eo & Ei & El & En & Epq & Erun & Hlen) & Ew1 & Hf1 & Hp1 & He1).
  cbn [s0 add_log set_log ctl owner inv_events log now watchers ws] in Ec, Eo, Ei, El, En, Hlen, Ew1.
  unfold io_act_do. fold s0. rewrite E1. cbn [mbind outcome_bind].
  assert (forall v x fd, untouched v (IoClose w) -> ws s !! v = Some x -> w_fd x = Some fd -> ws s1 !! v = Some x) as Hwv.
  { cbn [untouched]. intros v x fd Hne Hx _. by rewrite Ew1, lookup_insert_ne. }
  destruct (w_fd r) as [fd|] eqn:Hf.
  - set (s2 := uv__platform_invalidate_fd fd (unqueue w s1)). unfold get_w. change (ws s2) with (ws s1).
    rewrite Ew1, lookup_insert_eq. cbn [mbind outcome_bind]. rewrite Hf1, Hp1, He1. eexists. split; [done|].
    assert (owner s !! fd = Some w) as How by (apply (i_owner _ _ HC); by exists r).
    assert (inv_events s2 = option_map (map (invalidate fd)) (inv_events s)) as Einv.
    { unfold s2, uv__platform_invalidate_fd. cbn [set_ctl set_inv_events inv_events unqueue set_running set_pending_queue]. by rewrite Ei. }
    assert (interest (ctl s2) = delete fd (interest (ctl s))) as Ein.
    { unfold s2, uv__platform_invalidate_fd. cbn [set_ctl set_inv_events ctl set_interest interest unqueue set_running set_pending_queue].
      rewrite Ec. apply epoll_del. unfold is_open. cbn [owner set_inv_events unqueue set_running set_pending_queue]. rewrite Eo, How. done. }
    split; [split; [|split; [|split]]|].
    + cbn [sys_close set_w set_ws set_owner set_ctl ctl set_interest interest]. rewrite Ein, delete_delete_eq.
      apply (core_close _ s1 _ w r1 fd); try done; [by rewrite Ew1, lookup_insert_eq].
    + apply ring_idle_interest. unfold s2, uv__platform_invalidate_fd. cbn [set_ctl ctl]. apply ring_idle_interest.
      cbn [set_inv_events ctl unqueue set_running set_pending_queue]. by rewrite Ec.
    + apply (batch_ok_close s _ w); [done|exact El|exact Hlen|]. intros es' Hes'.
      change (inv_events s2 = Some es') in Hes'. rewrite Einv in Hes'. destruct (inv_events s) as [es|] eqn:Hes; [|done].
      cbn in Hes'. simplify_eq. exists es. split; [done|]. split; [by rewrite length_map|].
      intros i fd' m Hi. apply list_lookup_fmap_Some in Hi as ([o k] & E & Hi). unfold invalidate in E. cbn [fst snd] in E.
      case_bool_decide as Eo'; simplify_eq. split; [done|]. intros v Hv. split.
      * intros ->. apply Eo'. f_equal. apply (i_owner _ _ HC) in Hv as (x & Hx & Hxf). congruence.
      * cbn [owner set_w set_ws sys_close set_owner]. change (owner s2) with (owner s1). rewrite Eo. rewrite lookup_delete_ne; congruence.
    + cbn [set_w set_ws sys_close set_owner log set_ctl]. change (log s2) with (log s1). rewrite El. exact HL.
    + constructor.
      * exact El.
      * change (option_map length (inv_events s2) = option_map length (inv_events s)). rewrite Einv.
        destruct (inv_events s); cbn; [by rewrite length_map|done].
      * exact En.
      * change (length (remove w (running s1)) <= length (running s))%nat. rewrite Erun. apply length_filter.
      * intros v x fd' Hu Hx Hxf. exists x. cbn [set_w set_ws ws sys_close set_owner set_ctl]. change (ws s2) with (ws s1).
        rewrite lookup_insert_ne by (cbn in Hu; congruence). split; [exact (Hwv v x fd' Hu Hx Hxf)|done].
      * intros v fd' es i m Hu (x & Hx & Hxf) Hes Hi. exists (map (invalidate fd) es).
        change (inv_events s2 = Some (map (invalidate fd) es) /\ map (invalidate fd) es !! i = Some (Some fd', m)).
        rewrite Einv, Hes. split; [done|].
        apply list_lookup_fmap_Some. exists (Some fd', m). split; [|done].
        unfold invalidate. cbn [fst]. rewrite bool_decide_false; [done|]. intros E. simplify_eq. apply Hu.
        eapply (core_unique _ _ HC); [by exists r|by exists x].
  - unfold get_w. change (ws (unqueue w s1)) with (ws s1). rewrite Ew1, lookup_insert_eq. cbn [mbind outcome_bind]. rewrite Hf1.
    eexists. split; [done|]. assert (forall fd, ~ opened s1 w fd) as Hn.
    { intros fd (x & Hx & Hxf). rewrite Ew1, lookup_insert_eq in Hx. congruence. }
    rewrite (unqueue_id _ _ _ HC1 Hn). split; [split; [by rewrite Ec|split; [by rewrite Ec|split; [|by rewrite El]]]|].
    + apply (batch_ok_close s _ w); try done. rewrite Ei. intros es Hes. exists es. split; [done|]. split; [done|].
      intros i fd m Hi. split; [done|]. intros v Hv. rewrite Eo. split; [|done]. intros ->.
      apply (i_owner _ _ HC) in Hv as (x & Hx & Hxf). congruence.
    + constructor; [done|by rewrite Ei|done|by rewrite Erun| |].
      * intros v x fd Hu Hx Hxf. exists x. split; [exact (Hwv v x fd Hu Hx Hxf)|done].
      * intros v fd es i m _ _ Hes Hi. exists es. by rewrite Ei.
Qed.

(** Every act of the callers keeps the invariant. *)
Lemma io_act_ok a s :
  io_inv s -> act_allowed a s -> exists s', io_act_do a s = Ret s' /\ io_inv s' /\ keeps a s s'.
Proof.
  intros HI Ha. pose proof HI as (HC & HR & HB & HL). pose proof (core_log _ (LAct a) _ HC) as HC0.
  destruct a as [w fd|w ev|w ev|w|w].
  - eexists. split; [done|]. pose proof Ha as (Hno & _ & Hnw).
    assert (io_inv (set_w w (mkW (Some fd) 0 0) (set_owner (<[fd := w]> (owner s)) (add_log (LAct (IoOpen w fd)) s)))) as HI'.
    { split; [by eapply (core_open _ s)|]. split; [done|]. split; [|done].
      eapply (batch_ok_same s _ (IoOpen w fd)); try done. intros fd' v Hv. cbn. rewrite lookup_insert_ne; congruence. }
    split; [exact HI'|]. constructor; try done.
    + intros v x fd' _ Hx Hxf. exists x. cbn. rewrite lookup_insert_ne; [done|]. intros ->. apply Hnw in Hx. congruence.
    + intros v fd' es i m _ _ Hes Hi. by exists es.
  - destruct Ha as [Hev (fd & r & Hw & Hf)]. cbn [io_act_do].
    destruct (io_start_ok _ w ev _ r fd HC0 Hev Hw Hf) as (s' & -> & HC' & Hfr & Ews). exists s'. split; [done|].
    apply (act_frame _ s s' HI); try done. intros v x fd' _ Hx Hxf. rewrite Ews.
    eapply (update_grows _ w r); try done. intros b Hb. cbn. by rewrite Z.lor_spec, Hb.
  - destruct Ha as [Hev [r Hw]]. cbn [io_act_do].
    destruct (io_stop_ok _ w ev _ r HC0 Hev Hw) as (s' & -> & HC' & Hfr & r' & Ews & _). exists s'. split; [done|].
    apply (act_frame _ s s' HI); try done. intros v x fd' Hu Hx Hxf. cbn in Hu. exists x. by rewrite Ews, lookup_insert_ne.
  - by apply io_close_ok.
  - exists (uv__io_feed w (add_log (LAct (IoFeed w)) s)). split; [done|].
    pose proof (core_feed _ _ w HC0 Ha) as HC'. unfold uv__io_feed in *. case_bool_decide;
      (split; [split; [done|split; [done|split; [by eapply (batch_ok_same s _ (IoFeed w))|done]]]|]);
      (constructor; try done; [intros v x fd _ Hx Hxf; by exists x|]; intros v fd es i m _ _ Hes Hi; by exists es).
Qed.

(** A list of acts. *)
Record keeps_all (acts : list io_act) (s s' : io_loop) : Prop := mkKeepsAll {
  ka_log : log s' = reverse (LAct <$> acts) ++ log s;
  ka_len : option_map length (inv_events s') = option_map length (inv_events s);
  ka_now : now s' = now s;
  ka_running : (length (running s') <= length (running s))%nat;
  ka_watch : forall w r fd, Forall (untouched w) acts -> ws s !! w = Some r -> w_fd r = Some fd ->
    exists r', ws s' !! w = Some r' /\ w_fd r' = Some fd /\ forall b, Z.testbit (w_pevents r) b = true -> Z.testbit (w_pevents r') b = true;
  ka_batch : forall w fd es i m, Forall (untouched w) acts -> opened s w fd -> inv_events s = Some es -> es !! i = Some (Some fd, m) ->
    exists es', inv_events s' = Some es' /\ es' !! i = Some (Some fd, m) }.

Lemma io_acts_ok acts : forall s,
  io_inv s -> acts_allowed acts s -> exists s', io_acts_do acts s = Ret s' /\ io_inv s' /\ keeps_all acts s s'.
Proof.
  induction acts as [|a acts IH]; intros s HI Ha.
  { exists s. split; [done|]. split; [done|]. constructor; try done; [intros w r fd _ Hw Hf; by exists r|].
    intros w fd es i m _ _ Hes Hi. by exists es. }
  destruct Ha as [Ha Has]. destruct (io_act_ok a s HI Ha) as (s1 & E1 & HI1 & [L1 N1 T1 R1 W1 B1]).
  destruct (IH s1 HI1 (Has s1 E1)) as (s' & E' & HI' & [L2 N2 T2 R2 W2 B2]).
  exists s'. cbn [io_acts_do]. rewrite E1. cbn [mbind outcome_bind]. split; [done|]. split; [done|]. constructor.
  - rewrite L2, L1, fmap_cons, reverse_cons, <- app_assoc. done.
  - congruence.
  - congruence.
  - lia.
  - intros w r fd [Hu Hus]%list.Forall_cons Hw Hf. destruct (W1 w r fd Hu Hw Hf) as (r1 & Hw1 & Hf1 & Hb1).
    destruct (W2 w r1 fd Hus Hw1 Hf1) as (r2 & Hw2 & Hf2 & Hb2). exists r2. auto.
  - intros w fd es i m [Hu Hus]%list.Forall_cons Hop Hes Hi. destruct (B1 w fd es i m Hu Hop Hes Hi) as (es1 & Hes1 & Hi1).
    destruct Hop as (r & Hw & Hf). destruct (W1 w r fd Hu Hw Hf) as (r1 & Hw1 & Hf1 & _).
    apply (B2 w fd es1 i m Hus); [by exists r1|done|done].
Qed.

Lemma acts_since acts l : since_wait (reverse (LAct <$> acts) ++ l) = reverse (LAct <$> acts) ++ since_wait l.
Proof.
  induction acts as [|a acts IH] using rev_ind; [done|]. rewrite fmap_app, reverse_app. cbn. by rewrite IH.
Qed.

Lemma acts_last_wait acts l : last_wait (reverse (LAct <$> acts) ++ l) = last_wait l.
Proof. induction acts as [|a acts IH] using rev_ind; [done|]. rewrite fmap_app, reverse_app. cbn. by rewrite IH. Qed.

(** The set of interest may lose a descriptor that no watcher in the table has. *)
Lemma core_disarm ep s fd : core ep s -> watchers s !! fd = Some None -> core (delete fd ep) s.
Proof.
  intros HC Hn. assert (forall w r, ws s !! w = Some r -> w_fd r = Some fd -> w_events r = 0) as Hz.
  { intros w r Hw Hf. destruct (decide (w_events r = 0)) as [|He]; [done|].
    assert (watchers s !! fd = Some (Some w)); [|congruence]. apply (i_table _ _ HC). exists r.
    split; [done|]. split; [done|]. by eapply core_events_pevents. }
  destruct HC. constructor; try done.
  - intros w r fd' Hw Hf He. rewrite lookup_delete_ne; [by eapply i_known0|]. intros ->. by destruct He; eapply Hz.
  - intros fd' e [_ H]%lookup_delete_Some. by apply i_interest0.
Qed.

Lemma core_ctl ep c s : core ep s -> core ep (set_ctl c s).
Proof. intros []. by constructor. Qed.
Lemma core_inv_events ep v s : core ep s -> core ep (set_inv_events v s).
Proof. intros []. by constructor. Qed.
Lemma core_now ep t s : core ep s -> core ep (set_now t s).
Proof. intros []. by constructor. Qed.

(** The events given to a watcher are among those it wants, errors and hang-ups. *)
Lemma given_events p m :
  let m1 := Z.land m (Z.lor (Z.lor p POLLERR) POLLHUP) in
  let m2 := if (m1 =? POLLERR) || (m1 =? POLLHUP) then Z.lor m1 (Z.land p poll_mask) else m1 in
  Z.land m2 (Z.lnot (Z.lor (Z.lor p POLLERR) POLLHUP)) = 0 /\ (m1 <> 0 -> m2 <> 0).
Proof.
  intros m1 m2. set (a := Z.lor (Z.lor p POLLERR) POLLHUP) in *.
  assert (Z.land m1 (Z.lnot a) = 0) as H1.
  { unfold m1. by rewrite <- Z.land_assoc, Z.land_lnot_diag, Z.land_0_r. }
  assert (Z.land (Z.land p poll_mask) (Z.lnot a) = 0) as H2.
  { apply Z.bits_inj'. intros i Hi. unfold a. rewrite !Z.land_spec, Z.lnot_spec, !Z.lor_spec, Z.bits_0 by done.
    by destruct (Z.testbit p i), (Z.testbit poll_mask i), (Z.testbit POLLERR i), (Z.testbit POLLHUP i). }
  unfold m2. case_match; [|done]. split; [by rewrite Z.land_lor_distr_l, H1, H2|]. intros Hm. rewrite Z.lor_comm. by apply lor_nonzero.
Qed.

(** The next event is taken up: its mask changes, and a callback is logged. *)
Lemma batch_ok_mask s es i fd m m' :
  batch_ok s -> inv_events s = Some es -> es !! i = Some (Some fd, m) -> batch_ok (set_inv_events (Some (<[i := (Some fd, m')]> es)) s).
Proof.
  intros HB Hes Hi es' [= <-]. destruct (HB es Hes) as (o & evs & Hlw & Hl & H). exists o, evs. split; [done|].
  split; [by rewrite length_insert|]. intros j fd' k Hj. destruct (decide (j = i)) as [->|Hne].
  - rewrite list_lookup_insert_eq in Hj by by eapply lookup_lt_Some. simplify_eq. by eapply H.
  - rewrite list_lookup_insert_ne in Hj by done. by eapply H.
Qed.

Lemma batch_ok_call s w fd m p : batch_ok s -> batch_ok (add_log (LCall w fd m p) s).
Proof.
  intros HB es Hes. destruct (HB es Hes) as (o & evs & Hlw & Hl & H). exists o, evs. split; [done|]. split; [done|].
  intros i fd' k Hi. destruct (H i fd' k Hi) as (? & ? & v & ? & ? & Hn). split; [done|]. split; [done|]. exists v.
  split; [done|]. split; [done|]. cbn. intros [?|?]%elem_of_cons; done.
Qed.

(** ** Part 5: polling *)

Section Polling.

Context (script : nat -> Z -> io_loop -> list io_act) (signal_io_watcher : nat) (use_ring : bool).
Context (script_ok : forall w ev s, acts_allowed (script w ev s) s).

(** One event: a callback or none, and what becomes of the other watchers and events. *)
Record one_event (i : nat) (s s' : io_loop) : Prop := mkOne {
  o_inv : io_inv s';
  o_len : option_map length (inv_events s') = option_map length (inv_events s);
  o_now : now s' = now s;
  o_log : exists L, log s' = L ++ log s /\ Forall (fun x => match x with LWait _ _ => False | _ => True end) L /\
    (forall w r fd, (forall a, LAct a ∈ L -> untouched w a) -> ws s !! w = Some r -> w_fd r = Some fd ->
       exists r', ws s' !! w = Some r' /\ w_fd r' = Some fd /\ forall b, Z.testbit (w_pevents r) b = true -> Z.testbit (w_pevents r') b = true) /\
    (forall w fd es j m, (forall a, LAct a ∈ L -> untouched w a) -> opened s w fd -> inv_events s = Some es -> j <> i ->
       es !! j = Some (Some fd, m) -> exists es', inv_events s' = Some es' /\ es' !! j = Some (Some fd, m)) /\
    (forall w r fd es m, w <> signal_io_watcher -> ws s !! w = Some r -> w_fd r = Some fd -> w_pevents r <> 0 -> inv_events s = Some es ->
       es !! i = Some (Some fd, m) -> Z.land m (Z.lor (Z.lor (w_pevents r) POLLERR) POLLHUP) <> 0 ->
       exists ev p, LCall w fd ev p ∈ L) }.

(** A callback, after its event was logged. *)
Lemma callback_ok w ev s : io_inv s -> exists acts s', uv__io_cb script w ev s = Ret s' /\ io_inv s' /\ keeps_all acts s s'.
Proof. intros HI. destruct (io_acts_ok (script w ev s) s HI (script_ok _ _ _)) as (s' & ? & ? & ?). by exists (script w ev s), s'. Qed.

Lemma elem_acts a acts : LAct a ∈ reverse (LAct <$> acts) <-> a ∈ acts.
Proof.
  rewrite elem_of_reverse, list_elem_of_fmap. split; [|by exists a]. intros (b & E & Hb). by simplify_eq.
Qed.

Lemma untouched_all w acts l : (forall a, LAct a ∈ reverse (LAct <$> acts) ++ l -> untouched w a) -> Forall (untouched w) acts.
Proof. intros H. apply list.Forall_forall. intros a Ha. apply H. apply elem_of_app. left. by apply elem_acts. Qed.

(** An event that leads to no callback. *)
Lemma one_event_quiet i s s' :
  io_inv s' -> log s' = log s -> now s' = now s -> ws s' = ws s -> option_map length (inv_events s') = option_map length (inv_events s) ->
  (forall es j, inv_events s = Some es -> j <> i -> exists es', inv_events s' = Some es' /\ es' !! j = es !! j) ->
  (forall w r fd es m, w <> signal_io_watcher -> ws s !! w = Some r -> w_fd r = Some fd -> w_pevents r <> 0 -> inv_events s = Some es ->
       es !! i = Some (Some fd, m) -> Z.land m (Z.lor (Z.lor (w_pevents r) POLLERR) POLLHUP) = 0) ->
  one_event i s s'.
Proof.
  intros HI El En Ew Elen Hj Hi. constructor; try done. exists []. rewrite El, Ew. split; [done|]. split; [constructor|].
  split; [intros w r fd _ Hw Hf; by exists r|]. split.
  - intros w fd es j m _ _ Hes Hne Hm. destruct (Hj es j Hes Hne) as (es' & ? & E). exists es'. by rewrite E.
  - intros w r fd es m Hs Hw Hf Hp Hes Hm Hne. by destruct Hne; eapply Hi.
Qed.

(** The state in which the callback of event [i] runs. *)
Lemma call_inv s es i fd m w r m' :
  io_inv s -> inv_events s = Some es -> es !! i = Some (Some fd, m) -> watchers s !! fd = Some (Some w) -> ws s !! w = Some r ->
  m' <> 0 -> Z.land m' (Z.lnot (Z.lor (Z.lor (w_pevents r) POLLERR) POLLHUP)) = 0 ->
  io_inv (add_log (LCall w fd m' (w_pevents r)) (set_inv_events (Some (<[i := (Some fd, m')]> es)) s)).
Proof.
  intros (HC & HR & HB & HL) Hes Hi Ht Hw Hm' Hsub.
  split; [by apply core_log, core_inv_events|]. split; [done|]. split; [by apply batch_ok_call; eapply batch_ok_mask|].
  destruct (HB es Hes) as (o & evs & Hlw & _ & H). destruct (H i fd m Hi) as (_ & Hin & v & Hv & Ho & Hn).
  apply (core_table_owner _ _ HC) in Ht as Hown. rewrite Hown in Hv. simplify_eq. destruct HL as [HL HP]. split; [|exact HP].
  cbn. split; [by exists o, evs|]. split; [done|].
  split; [|done]. apply (i_table _ _ HC) in Ht as (r' & Hr' & _ & Hp). congruence.
Qed.

(** The step of [dispatch]. *)
Lemma dispatch_step n i hs ne s es :
  io_inv s -> inv_events s = Some es -> (i < length es)%nat ->
  exists hs' ne' s', dispatch script signal_io_watcher (S n) i hs ne s = dispatch script signal_io_watcher n (S i) hs' ne' s' /\ one_event i s s'.
Proof.
  intros HI Hes Hi. pose proof HI as (HC & HR & HB & HL). destruct (lookup_lt_is_Some_2 es i Hi) as [[[fd|] m] Hm]; cbn [dispatch]; rewrite Hes, Hm.
  2: { exists hs, ne, s. split; [done|]. apply one_event_quiet; try done; [intros es' j Hes' _; by exists es'|].
       intros. rewrite Hes in *. simplify_eq. }
  destruct (HB es Hes) as (o & evs & Hlw & Hl & H). destruct (H i fd m Hm) as (Hfd & Hin & v & Hv & Ho & Hn).
  rewrite (proj2 (Nat.leb_gt _ _)) by done. unfold table_get. rewrite (proj1 (i_alloc _ _ HC)).
  destruct (lookup_lt_is_Some_2 (watchers s) fd Hfd) as [[w|] Ht]; rewrite Ht; cbn [mbind outcome_bind].
  2: { eexists _, _, _. split; [done|]. rewrite epoll_del by (unfold is_open; by rewrite Hv). apply one_event_quiet; try done.
       - split; [|done]. cbn. apply core_ctl. by apply core_disarm.
       - intros es' j Hes' _. by exists es'.
       - intros w r fd' es' k _ Hw Hf Hp Hes' Hk. simplify_eq. exfalso.
         assert (watchers s !! fd = Some (Some w)); [|congruence]. apply (i_table _ _ HC). by exists r. }
  pose proof (proj1 (i_table _ _ HC fd w) Ht) as (r & Hw & Hf & Hp). unfold get_w. rewrite Hw. cbn [mbind outcome_bind].
  destruct (given_events (w_pevents r) m) as [Hsub Hnz]. cbv zeta in Hsub, Hnz.
  set (m1 := Z.land m _) in *. set (m2 := if (m1 =? POLLERR) || (m1 =? POLLHUP) then _ else m1) in *.
  assert (forall w' r', w' <> signal_io_watcher -> ws s !! w' = Some r' -> w_fd r' = Some fd -> w' = w /\ r' = r) as Huniq.
  { intros w' r' _ Hw' Hf'. assert (w' = w) as -> by (eapply (core_unique _ _ HC); [by exists r'|by exists r]). split; [done|congruence]. }
  set (s1 := set_inv_events (Some (<[i := (Some fd, m2)]> es)) s).
  assert (io_inv s1) as HI1 by (split; [by apply core_inv_events|split; [done|split; [by eapply batch_ok_mask|done]]]).
  assert (forall es' j, inv_events s = Some es' -> j <> i -> exists es2, inv_events s1 = Some es2 /\ es2 !! j = es' !! j) as Hkeep.
  { intros es' j Hes' Hne. simplify_eq. eexists. split; [done|]. by rewrite list_lookup_insert_ne. }
  assert (option_map length (inv_events s1) = option_map length (inv_events s)) as Hlen1.
  { unfold s1. cbn. rewrite Hes. cbn. by rewrite length_insert. }
  destruct (m2 =? 0) eqn:Em; reflect_bools.
  { exists hs, ne, s1. split; [done|]. apply one_event_quiet; try done. intros w' r' fd' es' k Hs Hw' Hf' Hp' Hes' Hk. simplify_eq.
    destruct (Huniq w' r' Hs Hw' Hf') as [-> ->]. destruct (decide (m1 = 0)) as [E|E]; [exact E|]. by destruct (Hnz E). }
  case_bool_decide as Esig.
  { eexists true, _, s1. split; [done|]. apply one_event_quiet; try done. intros w' r' fd' es' k Hs Hw' Hf' Hp' Hes' Hk. simplify_eq.
    by destruct (Huniq w' r' Hs Hw' Hf') as [-> ->]. }
  destruct (callback_ok w m2 (add_log (LCall w fd m2 (w_pevents r)) s1)) as (acts & s2 & E2 & HI2 & [L2 N2 T2 _ W2 B2]).
  { by eapply call_inv. }
  rewrite E2. cbn [mbind outcome_bind]. eexists _, _, s2. split; [done|]. constructor; [done|by rewrite N2|by rewrite T2|].
  exists (reverse (LAct <$> acts) ++ [LCall w fd m2 (w_pevents r)]). split; [rewrite L2, <- app_assoc; done|]. split; [|split; [|split]].
  - apply list.Forall_app. split; [|by repeat constructor]. apply list.Forall_forall. intros x. rewrite elem_of_reverse. by intros (a & -> & _)%list_elem_of_fmap.
  - intros w' r' fd' Hu%untouched_all Hw' Hf'. by apply W2.
  - intros w' fd' es' j k Hu%untouched_all Hop Hes' Hne Hk. destruct (Hkeep es' j Hes' Hne) as (es2 & Hes2 & E).
    apply (B2 w' fd' es2 j k Hu Hop Hes2). by rewrite E.
  - intros w' r' fd' es' k Hs Hw' Hf' Hp' Hes' Hk _. simplify_eq. destruct (Huniq w' r' Hs Hw' Hf') as [-> ->].
    exists m2, (w_pevents r). apply elem_of_app. right. by left.
Qed.

(** All the events. *)
Lemma dispatch_ok n : forall i hs ne s es,
  io_inv s -> inv_events s = Some es -> length es = (i + n)%nat ->
  exists hs' ne' s' L, dispatch script signal_io_watcher n i hs ne s = Ret (hs', ne', s') /\ io_inv s' /\ is_Some (inv_events s') /\
    log s' = L ++ log s /\ Forall (fun x => match x with LWait _ _ => False | _ => True end) L /\ now s' = now s /\
    forall j fd m w r, (i <= j)%nat -> es !! j = Some (Some fd, m) -> w <> signal_io_watcher -> ws s !! w = Some r -> w_fd r = Some fd ->
      w_pevents r <> 0 -> Z.land m (Z.lor (Z.lor (w_pevents r) POLLERR) POLLHUP) <> 0 -> (forall a, LAct a ∈ L -> untouched w a) ->
      exists ev p, LCall w fd ev p ∈ L.
Proof.
  induction n as [|n IH]; intros i hs ne s es HI Hes Hlen.
  { exists hs, ne, s, []. rewrite Hes. split; [done|]. split; [done|]. split; [by eexists|]. split; [done|]. split; [constructor|]. split; [done|].
    intros j fd m w r Hj Hm%lookup_lt_Some. lia. }
  destruct (dispatch_step n i hs ne s es HI Hes ltac:(lia)) as (hs1 & ne1 & s1 & -> & [HI1 Hl1 Hn1 (L1 & El1 & Hw1 & Hwatch & Hbatch & Hcall)]).
  rewrite Hes in Hl1. destruct (inv_events s1) as [es1|] eqn:Hes1; [|done]. cbn in Hl1.
  destruct (IH (S i) hs1 ne1 s1 es1 HI1 Hes1 ltac:(simplify_eq; lia)) as (hs' & ne' & s' & L2 & E & HI' & Hes' & El2 & Hw2 & Hn2 & Hrest).
  exists hs', ne', s', (L2 ++ L1). split; [done|]. split; [done|]. split; [done|]. split; [by rewrite El2, El1, app_assoc|].
  split; [by apply list.Forall_app|]. split; [congruence|]. intros j fd m w r Hj Hm Hs Hw Hf Hp Hnz Hu.
  assert (forall a, LAct a ∈ L1 -> untouched w a) as Hu1 by (intros a Ha; apply Hu, elem_of_app; by right).
  assert (forall a, LAct a ∈ L2 -> untouched w a) as Hu2 by (intros a Ha; apply Hu, elem_of_app; by left).
  destruct (decide (j = i)) as [->|Hne].
  { destruct (Hcall w r fd es m Hs Hw Hf Hp Hes Hm Hnz) as (ev & p & H). exists ev, p. apply elem_of_app. by right. }
  destruct (Hwatch w r fd Hu1 Hw Hf) as (r1 & Hwr & Hfr & Hb).
  destruct (Hbatch w fd es j m Hu1 ltac:(by exists r) Hes Hne Hm) as (es1' & E1 & Hm1). simplify_eq.
  assert (forall q, Z.land q (w_pevents r) <> 0 -> Z.land q (w_pevents r1) <> 0) as Hgrow.
  { intros q Hq E0. apply Hq. apply Z.bits_inj'. intros b Hb0. apply (f_equal (fun z => Z.testbit z b)) in E0.
    rewrite Z.land_spec, Z.bits_0 in E0 |- *. specialize (Hb b). destruct (Z.testbit q b), (Z.testbit (w_pevents r) b); try done.
    rewrite Hb in E0 by done. done. }
  destruct (Hrest j fd m w r1 ltac:(lia) Hm1 Hs Hwr Hfr) as (ev & p & H); [| |done|].
  - intros E0. specialize (Hgrow (w_pevents r)). rewrite Z.land_diag, E0, Z.land_0_r in Hgrow. by apply Hgrow.
  - rewrite !Z.land_lor_distr_r in *. intros [[E1' E2']%Z.lor_eq_0_iff E3']%Z.lor_eq_0_iff. apply Hnz. rewrite E2', E3', !Z.lor_0_r.
    destruct (decide (Z.land m (w_pevents r) = 0)) as [|Hq]; [done|]. by destruct (Hgrow m Hq).
  - exists ev, p. apply elem_of_app. by left.
Qed.

(** Registering: the kernel gets to know what every watcher wants. *)
Record registered (s s' : io_loop) : Prop := mkRegistered {
  r_owner : owner s' = owner s; r_log : log s' = log s; r_inv : inv_events s' = inv_events s; r_now : now s' = now s;
  r_nfds : nfds s' = nfds s; r_queue : watcher_queue s' = [];
  r_ws : forall w r, ws s !! w = Some r -> exists r', ws s' !! w = Some r' /\ w_fd r' = w_fd r /\ w_pevents r' = w_pevents r }.

(** The kernel's set of interest [ep] once the entries in the ring have taken effect. *)
Definition polling (ep : gmap nat epoll_event) (p : list entry) (s : io_loop) : Prop :=
  core ep s /\ ring_ok (is_open s) (ctl s) p ep /\ (use_ring = false -> p = []).

Lemma eff_lookup_ne ep l fd : fd ∉ (e_fd <$> l) -> eff ep l !! fd = ep !! fd.
Proof.
  induction l as [|x l IH]; [done|]. rewrite fmap_cons, not_elem_of_cons. intros [Hne Hn].
  change (eff ep (x :: l)) with (<[e_fd x := x.2]> (eff ep l)). rewrite lookup_insert_ne by congruence. by apply IH.
Qed.

(** One watcher is taken from the queue. *)
Lemma register_step ep p w q s :
  polling ep p s -> watcher_queue s = w :: q -> (forall y v, y ∈ p -> v ∈ w :: q -> ~ opened s v (e_fd y)) ->
  exists c ep' p' r fd, ws s !! w = Some r /\ w_fd r = Some fd /\
    let s1 := set_ctl c (set_w w (mkW (Some fd) (w_pevents r) (w_pevents r)) (set_watcher_queue q s)) in
    register_loop use_ring (w :: q) s = register_loop use_ring q s1 /\ polling ep' p' s1 /\
    (forall y, y ∈ p' -> y ∈ p \/ e_fd y = fd \/ exists z, z ∈ p /\ e_fd z = e_fd y).
Proof.
  intros (HC & HR & Hdir) Hq Hdisj. destruct (i_queue _ _ HC w) as (r & fd & Hw & Hf & Hp); [rewrite Hq; by left|].
  set (op := if w_events r =? 0 then EPOLL_CTL_ADD else EPOLL_CTL_MOD). set (e := mkEv (w_pevents r) fd). set (x := ((op, fd, e) : entry)).
  set (s0 := set_w w (mkW (Some fd) (w_pevents r) (w_pevents r)) (set_watcher_queue q s)).
  assert (owner s !! fd = Some w) as How by (apply (i_owner _ _ HC); by exists r).
  assert (fd ∉ (e_fd <$> p)) as Hfp.
  { intros (y & -> & Hy)%list_elem_of_fmap. apply (Hdisj y w Hy); [by left|]. by exists r. }
  pose proof HR as (HRh & HRl & HRc & HRt & HRe & Heff).
  assert (entry_ok (is_open s0) (interest (ctl s0)) x) as Hx.
  { split; [unfold is_open; change (owner s0) with (owner s); cbn; by rewrite How|]. unfold x, op. cbn. case_match; reflect_bools; [by left|right].
    split; [done|]. rewrite <- (eff_lookup_ne _ p) by done. rewrite Heff, (i_known _ _ HC w r fd) by done. eauto. }
  assert (NoDup (w :: q)) as [Hnq Hndq]%list.NoDup_cons by (rewrite <- Hq; apply (i_nodup _ _ HC)).
  assert (forall c, core (<[fd := e]> ep) (set_ctl c s0)) as HC1.
  { intros c. apply core_ctl. apply (core_update ep _ s _ w r (mkW (Some fd) (w_pevents r) (w_pevents r)) fd); try done; cbn [s0 set_w set_ws set_watcher_queue watchers nfds watcher_queue].
    - apply (i_alloc _ _ HC).
    - apply (i_alloc _ _ HC).
    - intros v. rewrite (i_table _ _ HC). split; [|intros [-> _]; by exists r].
      intros (y & Hy & Hyf & Hyp). split; [|done]. eapply (core_unique _ _ HC); [by exists y|by exists r].
    - apply (i_nfds _ _ HC).
    - intros v Hv. rewrite Hq. set_solver.
    - by apply (i_mask _ _ HC w r).
    - intros fd' Hne. by rewrite lookup_insert_ne.
    - intros _. by rewrite lookup_insert_eq.
    - intros e'. rewrite lookup_insert_eq. intros [= <-]. split; [done|]. by eapply (core_known_lt _ _ HC). }
  cbn [register_loop]. unfold get_w. rewrite Hw. cbn [mbind outcome_bind]. rewrite Hf. fold op e s0. destruct use_ring eqn:Eu.
  - destruct (prep_ok (is_open s0) (ctl s0) p ep x HR Hx Hfp) as (c & p' & E & HR' & Hsub & _).
    change (e_fd x) with fd in *. change x.1.1 with op in *. change x.2 with e in *.
    exists c, (<[fd := e]> ep), p', r, fd. split; [done|]. split; [done|]. cbv zeta. fold s0. rewrite E. cbn [mbind outcome_bind].
    split; [done|]. split; [split; [apply HC1|split; [exact HR'|congruence]]|]. intros y Hy. apply Hsub in Hy. rewrite fmap_app, elem_of_app in Hy.
    destruct Hy as [(z & Ez & Hz)%list_elem_of_fmap|Hy]; [right; right; by exists z|]. apply list_elem_of_singleton in Hy. by right; left.
  - pose proof (Hdir eq_refl) as Ep. subst p. change (eff (interest (ctl s)) []) with (interest (ctl s)) in Heff.
    pose proof (ctl_direct_ok (is_open s0) (interest (ctl s0)) x Hx) as E. change (e_fd x) with fd in *. change x.1.1 with op in *. change x.2 with e in *.
    change (ctl s0) with (ctl s) in *. rewrite Heff in E.
    exists (set_interest (<[fd := e]> ep) (ctl s)), (<[fd := e]> ep), [], r, fd. split; [done|]. split; [done|]. cbv zeta. fold s0.
    change (ctl s0) with (ctl s). rewrite Heff, E. cbn [mbind outcome_bind]. split; [done|]. split; [|by intros y Hy%not_elem_of_nil].
    split; [apply HC1|]. split; [|done]. split; [exact HRh|]. split; [cbn; lia|]. split; [done|]. split; [done|]. split; [split; constructor|done].
Qed.

Lemma register_ok q : forall ep p s,
  polling ep p s -> watcher_queue s = q -> (forall y v, y ∈ p -> v ∈ q -> ~ opened s v (e_fd y)) ->
  exists ep' p' s', register_loop use_ring q s = Ret s' /\ polling ep' p' s' /\ registered s s'.
Proof.
  induction q as [|w q IH]; intros ep p s HP Hq Hdisj.
  { exists ep, p, s. split; [done|]. split; [done|]. constructor; try done. intros w r Hw. by exists r. }
  pose proof HP as (HC & _ & _).
  destruct (register_step ep p w q s HP Hq Hdisj) as (c & ep1 & p1 & r & fd & Hw & Hf & E & HP1 & Hsub). cbv zeta in E, HP1.
  set (s1 := set_ctl c _) in *.
  assert (forall v fd', opened s1 v fd' <-> opened s v fd') as Hop.
  { intros v fd'. unfold opened. change (ws s1) with (<[w := mkW (Some fd) (w_pevents r) (w_pevents r)]> (ws s)).
    destruct (decide (v = w)) as [->|Hne]; [rewrite lookup_insert_eq|by rewrite lookup_insert_ne].
    split; intros (x & Hx & Hxf); simplify_eq/=; eauto. }
  destruct (IH ep1 p1 s1 HP1 eq_refl) as (ep' & p' & s' & E' & HP' & [R1 R2 R3 R4 R5 R6 R7]).
  - intros y v Hy Hv Ho%Hop. assert (NoDup (w :: q)) as [Hnq _]%list.NoDup_cons by (rewrite <- Hq; apply (i_nodup _ _ HC)).
    destruct (Hsub y Hy) as [H|[H|(z & Hz & Ez)]].
    + apply (Hdisj y v H); [by right|done].
    + apply Hnq. assert (w = v) as ->; [|done]. eapply (core_unique _ _ HC); [by exists r|]. by rewrite <- H.
    + apply (Hdisj z v Hz); [by right|]. by rewrite Ez.
  - exists ep', p', s'. split; [by rewrite E|]. split; [done|]. constructor; try done.
    intros v x Hx. destruct (decide (v = w)) as [->|Hne].
    + simplify_eq. destruct (R7 w (mkW (Some fd) (w_pevents r) (w_pevents r))) as (x' & ? & ? & ?); [apply lookup_insert_eq|].
      exists x'. split; [done|]. cbn in *. split; [congruence|done].
    + apply R7. change (<[w := mkW (Some fd) (w_pevents r) (w_pevents r)]> (ws s) !! v = Some x). by rewrite lookup_insert_ne.
Qed.

(** After the flush the kernel's set of interest is the one that was aimed at. *)
Lemma flush_ring_ok ep p s :
  polling ep p s -> exists c, flush_ring use_ring s = Ret (set_ctl c s) /\ interest c = ep /\ ring_idle c.
Proof.
  intros (HC & HR & Hdir). unfold flush_ring. destruct use_ring eqn:Eu.
  - destruct (flush_all_ok _ _ _ _ HR) as (c & -> & Hi & Hc). exists c. split; [done|]. split; [done|].
    destruct Hc as (? & _ & ? & ? & _). done.
  - rewrite (Hdir eq_refl) in HR. destruct HR as (? & _ & ? & ? & _ & He). exists (ctl s). split; [by destruct s|]. done.
Qed.

Lemma polling_idle s : io_inv s -> polling (interest (ctl s)) [] s.
Proof.
  intros (HC & (Hh & Hc & Ht) & _). split; [done|]. split; [|done]. split; [done|]. split; [cbn; lia|]. split; [done|]. split; [done|].
  split; [split; constructor|done].
Qed.

Lemma flush_ring_idle s : io_inv s -> exists c, flush_ring use_ring s = Ret (set_ctl c s) /\ interest c = interest (ctl s) /\ ring_idle c.
Proof. intros HI. by apply (flush_ring_ok _ [] s), polling_idle. Qed.

Lemma io_inv_ctl s c : io_inv s -> interest c = interest (ctl s) -> ring_idle c -> io_inv (set_ctl c s).
Proof. intros (HC & _ & HB & HL) E Hi. split; [cbn; rewrite E; by apply core_ctl|]. done. Qed.

(** The state after the flush. *)
Definition flushed (s : io_loop) : io_loop := match flush_ring use_ring s with Ret s => s | _ => s end.

(** What epoll_pwait may answer: events of registered descriptors, and no timeout when there
    is none. *)
Definition kernel_ok (k : Z -> gmap nat epoll_event -> wait) : Prop :=
  forall timeout ep,
    match k timeout ep with
    | WEvents es t => (0 < length es <= 1024)%nat /\ forall fd m, (fd, m) ∈ es -> is_Some (ep !! fd)
    | WTimeout t => timeout <> -1
    | WIntr t => True
    end.

(** Between two waits: the descriptors and the log are in order, and nothing is dispatched. *)
Definition waiting (s : io_loop) : Prop :=
  exists ep p, polling ep p s /\ inv_events s = None /\ log_ok (log s).

Lemma io_inv_waiting s : io_inv s -> inv_events s = None -> waiting s.
Proof. intros HI Hn. exists (interest (ctl s)), []. split; [by apply polling_idle|]. split; [done|]. apply HI. Qed.

Lemma waiting_flush s : waiting s -> exists c, flush_ring use_ring s = Ret (set_ctl c s) /\ io_inv (set_ctl c s).
Proof.
  intros (ep & p & HP & Hn & HL). destruct (flush_ring_ok ep p s HP) as (c & E & Hi & Hc). exists c. split; [done|].
  split; [cbn; rewrite Hi; apply core_ctl, HP|]. split; [done|]. split; [|done]. intros es. cbn. by rewrite Hn.
Qed.

Lemma batch_start s es t :
  io_inv s -> (forall fd m, (fd, m) ∈ es -> is_Some (interest (ctl s) !! fd)) ->
  io_inv (set_inv_events (Some ((fun e : nat * Z => (Some e.1, e.2)) <$> es)) (add_log (LWait (owner s) es) (set_now t s))).
Proof.
  intros (HC & HR & HB & HL) Hk. split; [by apply core_inv_events, core_log, core_now|]. split; [done|]. split; [|done].
  intros es' [= <-]. exists (owner s), es. split; [done|]. split; [by rewrite length_fmap|].
  intros i fd m ([fd' m'] & Hi & E)%list_lookup_fmap_Some. cbn in *. simplify_eq.
  assert ((fd', m') ∈ es) as Hin by by eapply list_elem_of_lookup_2. destruct (Hk _ _ Hin) as [e He].
  destruct (i_interest _ _ HC _ _ He) as (_ & [w Hw] & Hlt). split; [done|]. split; [apply list_elem_of_fmap; by exists (fd', m')|].
  exists w. split; [done|]. split; [done|]. apply not_elem_of_nil.
Qed.

Lemma update_timeout_ok timeout real base s :
  -1 <= timeout -> exists o, update_timeout timeout real base s = Ret o /\ forall t r, o = Some (t, r) -> -1 <= t.
Proof.
  intros Ht. unfold update_timeout. repeat case_match; reflect_bools; try lia.
  - exists None. by split.
  - eexists. split; [done|]. intros ? ? [= -> ->]. done.
  - exists None. by split.
  - eexists. split; [done|]. intros ? ? [= <- <-]. lia.
Qed.

(** The call of epoll_pwait. *)
Lemma core_told ep s : core ep s -> told ep (ws s) (watcher_queue s).
Proof.
  intros HC. assert (forall w r fd, ws s !! w = Some r -> w_fd r = Some fd -> w_pevents r <> 0 -> w ∉ watcher_queue s -> ep !! fd = Some (mkEv (w_pevents r) fd)) as H1.
  { intros w r fd Hw Hf Hp Hq. assert (w_events r = w_pevents r) as E by (destruct (decide (w_events r = w_pevents r)) as [|Hne]; [done|]; by apply (i_dirty _ _ HC w r) in Hne).
    rewrite <- E. apply (i_known _ _ HC w r fd); [done|done|congruence]. }
  split; [exact H1|]. intros fd e He. destruct (i_interest _ _ HC fd e He) as (_ & [w Hw] & _). apply (i_owner _ _ HC) in Hw as (r & Hr & Hf).
  exists w, r. split; [done|]. split; [done|]. destruct (decide (w_pevents r = 0)) as [|Hp]; [by left|right].
  destruct (decide (w ∈ watcher_queue s)) as [|Hq]; [by left|right]. specialize (H1 w r fd Hr Hf Hp Hq). congruence.
Qed.

Lemma io_inv_poll s : io_inv s -> inv_events s = None -> io_inv (add_log (LPoll (interest (ctl s)) (ws s) (watcher_queue s)) s).
Proof.
  intros (HC & HR & HB & HL & HP) Hn. split; [by apply core_log|]. split; [done|]. split; [intros es; cbn; by rewrite Hn|].
  split; [exact HL|]. split; [by apply core_told|exact HP].
Qed.

(** The end of a poll. *)
Lemma poll_end s : io_inv s -> inv_events s = None ->
  exists s', (s ← flush_ring use_ring s; Ret (true, s)) = Ret (true, s') /\ io_inv s' /\ inv_events s' = None /\ log s' = log s.
Proof.
  intros HI Hn. destruct (flush_ring_idle s HI) as (c & -> & Ei & Hc). exists (set_ctl c s). split; [done|].
  split; [by apply io_inv_ctl|done].
Qed.

(** The events of one wait, the signal watcher included. *)
Lemma wait_events_ok es t s :
  io_inv s -> (forall fd m, (fd, m) ∈ es -> is_Some (interest (ctl s) !! fd)) ->
  exists hs ne s1 s2,
    dispatch script signal_io_watcher (length es) 0 false 0
      (set_inv_events (Some ((fun e : nat * Z => (Some e.1, e.2)) <$> es)) (add_log (LWait (owner s) es) (set_now t s))) = Ret (hs, ne, s1) /\
    (if hs then uv__io_cb script signal_io_watcher POLLIN (add_log LSignal s1) else Ret s1) = Ret s2 /\
    io_inv (set_inv_events None s2) /\ exists L, log s2 = L ++ log s.
Proof.
  intros HI Hk. destruct (dispatch_ok (length es) 0 false 0 _ _ (batch_start s es t HI Hk) eq_refl) as (hs & ne & s1 & L & E & HI1 & _ & EL & _);
    [by rewrite length_fmap|].
  exists hs, ne, s1. assert (log s1 = (L ++ [LWait (owner s) es]) ++ log s) as EL1 by (rewrite EL, <- app_assoc; done). assert (forall s2, io_inv s2 -> io_inv (set_inv_events None s2)) as Hend.
  { intros s2 (HC & HR & HB & HL). split; [by apply core_inv_events|]. by split. }
  destruct hs; [|exists s1; split; [done|]; split; [done|]; split; [by apply Hend|by eexists]].
  destruct (callback_ok signal_io_watcher POLLIN (add_log LSignal s1)) as (acts & s2 & E2 & HI2 & [L2 _ _ _ _ _]).
  2: { exists s2. split; [done|]. split; [done|]. split; [auto|]. exists (reverse (LAct <$> acts) ++ LSignal :: L ++ [LWait (owner s) es]).
       rewrite L2, <- app_assoc. cbn. by rewrite EL1. }
  destruct HI1 as (HC & HR & HB & HL). split; [by apply core_log|]. split; [done|]. split; [|done].
  intros es' Hes'. destruct (HB es' Hes') as (o & evs & Hlw & Hl & H). exists o, evs. split; [done|]. split; [done|].
  intros i fd m Hi. destruct (H i fd m Hi) as (? & ? & v & ? & ? & Hn). split; [done|]. split; [done|]. exists v.
  split; [done|]. split; [done|]. cbn. intros [?|?]%elem_of_cons; done.
Qed.

(** The [for] loop of [uv__io_poll]. *)
Definition poll_result (s : io_loop) (m : outcome (bool * io_loop)) : Prop :=
  exists b s', m = Ret (b, s') /\ io_inv s' /\ inv_events s' = None /\ exists L, log s' = L ++ log s.

Lemma poll_result_log s s0 m L : log s0 = L ++ log s -> poll_result s0 m -> poll_result s m.
Proof.
  intros E (b & s' & ? & ? & ? & L' & E'). exists b, s'. split; [done|]. split; [done|]. split; [done|]. exists (L' ++ L). by rewrite E', E, app_assoc.
Qed.

Lemma poll_result_end s : io_inv s -> inv_events s = None -> poll_result s (s ← flush_ring use_ring s; Ret (true, s)).
Proof. intros HI Hn. destruct (poll_end s HI Hn) as (s' & E & ? & ? & El). exists true, s'. split; [done|]. split; [done|]. split; [done|]. by exists []. Qed.

Lemma io_inv_now t s : io_inv s -> io_inv (set_now t s).
Proof. intros (HC & HR & HB & HL). split; [by apply core_now|]. by split. Qed.

Lemma poll_loop_ok ks : forall count timeout real base s,
  waiting s -> Forall kernel_ok ks -> -1 <= timeout ->
  poll_result (if nfds s =? 0 then s else add_log (LPoll (interest (ctl (flushed s))) (ws s) (watcher_queue s)) s)
    (poll_loop script signal_io_watcher use_ring ks count timeout real base s).
Proof.
  induction ks as [|k ks IH]; intros count timeout real base s HW Hks Ht; cbn [poll_loop].
  all: destruct (waiting_flush s HW) as (c & Ef & HI); assert (inv_events (set_ctl c s) = None) as Hn by (destruct HW as (? & ? & _ & ? & _); done).
  all: unfold flushed; rewrite Ef; destruct (nfds s =? 0); cbn [mbind outcome_bind].
  1,3: exists true, (set_ctl c s); split; [done|]; split; [done|]; split; [done|]; by exists [].
  all: pose proof (io_inv_poll _ HI Hn) as HI0; change (ws (set_ctl c s)) with (ws s) in *; change (watcher_queue (set_ctl c s)) with (watcher_queue s) in *.
  all: set (s0 := add_log _ (set_ctl c s)) in *; apply (poll_result_log _ s0 _ []); [done|].
  { exists false, s0. split; [done|]. split; [done|]. split; [done|]. by exists []. }
  apply list.Forall_cons in Hks as [Hk Hks]. specialize (Hk timeout (interest (ctl s0))).
  assert (forall s count timeout real, io_inv s -> inv_events s = None -> -1 <= timeout ->
    poll_result s (poll_loop script signal_io_watcher use_ring ks count timeout real base s)) as Hnext.
  { intros s' count' t r HI' Hn' Ht'. pose proof (IH count' t r base s' (io_inv_waiting _ HI' Hn') Hks Ht') as H.
    destruct (nfds s' =? 0); [done|]. eapply (poll_result_log _ _ _ [_]); [|exact H]. done. }
  assert (forall count s', io_inv s' -> inv_events s' = None -> poll_result s'
    (o ← update_timeout timeout real base s';
     match o with None => s ← flush_ring use_ring s'; Ret (true, s)
     | Some (timeout, real) => poll_loop script signal_io_watcher use_ring ks count timeout real base s' end)) as Hupd.
  { intros count' s' HI' Hn'. destruct (update_timeout_ok timeout real base s' Ht) as (o & -> & Ho). cbn [mbind outcome_bind].
    destruct o as [[t r]|]; [|by apply poll_result_end]. apply Hnext; [done|done|by eapply Ho]. }
  destruct (k timeout (interest (ctl s0))) as [es t|t|t].
  - destruct Hk as [_ Hk]. destruct (wait_events_ok es t s0 HI0 Hk) as (hs & ne & s1 & s2 & E1 & E2 & HI2 & L & EL).
    rewrite E1. cbn [mbind outcome_bind]. rewrite E2. cbn [mbind outcome_bind]. apply (poll_result_log _ (set_inv_events None s2) _ L); [done|].
    destruct hs; [by apply poll_result_end|]. destruct (negb (ne =? 0)%nat); [|by apply Hupd].
    destruct count as [|[|count]]; [by apply poll_result_end..|]. case_match; [|by apply poll_result_end]. by apply Hnext.
  - rewrite (proj2 (Z.eqb_neq _ _)) by done. exists true, (set_now t s0). split; [done|]. split; [by apply io_inv_now|]. split; [done|]. by exists [].
  - apply (poll_result_log _ (set_now t s0) _ []); [done|]. by apply (Hupd count); [apply io_inv_now|].
Qed.

(** [uv__io_poll]: what it logs first is the call of epoll_pwait, if there are watchers, with an
    empty queue and what the watchers wanted when it was called. *)
Definition polled_first (s : io_loop) (l : list io_log) : Prop :=
  exists L, if nfds s =? 0 then l = L ++ log s
    else exists ep m, l = L ++ LPoll ep m [] :: log s /\
      forall w r, ws s !! w = Some r -> exists r', m !! w = Some r' /\ w_fd r' = w_fd r /\ w_pevents r' = w_pevents r.

Lemma io_poll_ok ks timeout s :
  io_inv s -> inv_events s = None -> Forall kernel_ok ks -> -1 <= timeout ->
  exists b s', uv__io_poll script signal_io_watcher use_ring ks timeout s = Ret (b, s') /\ io_inv s' /\ inv_events s' = None /\ polled_first s (log s').
Proof.
  intros HI Hn Hks Ht. unfold uv__io_poll. rewrite (proj2 (Z.ltb_ge _ _)) by done.
  destruct (register_ok (watcher_queue s) _ [] s (polling_idle s HI) eq_refl) as (ep & p & s1 & -> & HP & HR).
  { by intros y v Hy%not_elem_of_nil. }
  cbn [mbind outcome_bind]. assert (waiting s1) as HW.
  { exists ep, p. split; [done|]. rewrite (r_inv _ _ HR), (r_log _ _ HR). split; [done|]. apply HI. }
  destruct (poll_loop_ok ks 48 timeout timeout (now s1) s1 HW Hks Ht) as (b & s' & E & HI' & Hn' & L & EL).
  exists b, s'. split; [done|]. split; [done|]. split; [done|]. exists L. rewrite (r_nfds _ _ HR) in EL. destruct (nfds s =? 0).
  - by rewrite EL, (r_log _ _ HR).
  - eexists _, (ws s1). cbn in EL. rewrite (r_log _ _ HR), (r_queue _ _ HR) in EL. split; [exact EL|]. apply (r_ws _ _ HR).
Qed.

(** [uv__run_pending] serves the whole queue it took. *)
Lemma pending_loop_ok fuel : forall s, io_inv s -> inv_events s = None -> (length (running s) <= fuel)%nat ->
  exists s', pending_loop script fuel s = Ret s' /\ io_inv s' /\ inv_events s' = None /\ running s' = [].
Proof.
  induction fuel as [|fuel IH]; intros s HI Hn Hl; cbn [pending_loop].
  { destruct (running s) eqn:E; [|cbn in Hl; lia]. by exists s. }
  destruct (running s) as [|w q] eqn:E; [by exists s|].
  destruct (callback_ok w POLLOUT (add_log (LPending w) (set_running q s))) as (acts & s1 & -> & HI1 & [_ N1 _ R1 _ _]).
  { destruct HI as (HC & HR & HB & HL). split; [|split; [done|split; [|done]]].
    - destruct HC. constructor; try done; cbn [add_log set_log set_running pending_queue running].
      + rewrite E, <- Permutation_middle, list.NoDup_cons in i_pnodup0. apply i_pnodup0.
      + intros v Hv. apply i_pending0. rewrite E. set_solver.
    - intros es Hes. cbn in Hes. congruence. }
  cbn [mbind outcome_bind]. cbn [add_log set_log set_running running inv_events] in N1, R1. rewrite Hn in N1.
  apply IH; [done|by destruct (inv_events s1)|]. cbn [length] in Hl. lia.
Qed.

Lemma run_pending_ok s : io_inv s -> inv_events s = None ->
  exists s', uv__run_pending script s = Ret s' /\ io_inv s' /\ inv_events s' = None /\ running s' = [].
Proof.
  intros (HC & HR & HB & HL) Hn. apply pending_loop_ok; [|done|done]. split; [|split; [done|split; [|done]]].
  - destruct HC. constructor; try done; cbn [set_running set_pending_queue pending_queue running app].
    + by apply list.NoDup_app in i_pnodup0 as [? _].
    + intros v Hv. apply i_pending0, elem_of_app. by left.
  - intros es Hes. cbn in Hes. congruence.
Qed.

(** A run of the loop: acts outside callbacks, polls and rounds of pending callbacks. *)
Inductive io_event := SAct (a : io_act) | SPoll (ks : list (Z -> gmap nat epoll_event -> wait)) (timeout : Z) | SPending.

Fixpoint io_run (steps : list io_event) (s : io_loop) : outcome io_loop :=
  match steps with
  | [] => Ret s
  | SAct a :: steps => s ← io_act_do a s; io_run steps s
  | SPoll ks timeout :: steps =>
      '(b, s) ← uv__io_poll script signal_io_watcher use_ring ks timeout s;
      if b : bool then io_run steps s else Ret s
  | SPending :: steps => s ← uv__run_pending script s; io_run steps s
  end.

Fixpoint steps_allowed (steps : list io_event) (s : io_loop) : Prop :=
  match steps with
  | [] => True
  | SAct a :: steps => act_allowed a s /\ forall s', io_act_do a s = Ret s' -> steps_allowed steps s'
  | SPoll ks timeout :: steps =>
      Forall kernel_ok ks /\ -1 <= timeout /\
      forall s', uv__io_poll script signal_io_watcher use_ring ks timeout s = Ret (true, s') -> steps_allowed steps s'
  | SPending :: steps => forall s', uv__run_pending script s = Ret s' -> steps_allowed steps s'
  end.

Lemma io_run_ok steps : forall s,
  io_inv s -> inv_events s = None -> steps_allowed steps s -> exists s', io_run steps s = Ret s' /\ io_inv s' /\ inv_events s' = None.
Proof.
  induction steps as [|[a|ks timeout|] steps IH]; intros s HI Hn Hs; cbn [io_run].
  - by exists s.
  - destruct Hs as [Ha Hs]. destruct (io_act_ok a s HI Ha) as (s1 & E & HI1 & [_ N1 _ _ _ _]). rewrite Hn in N1.
    rewrite E. cbn [mbind outcome_bind]. apply IH; [done|by destruct (inv_events s1)|by apply Hs].
  - destruct Hs as (Hks & Ht & Hs). destruct (io_poll_ok ks timeout s HI Hn Hks Ht) as (b & s1 & E & HI1 & N1 & _).
    rewrite E. cbn [mbind outcome_bind]. destruct b; [|by exists s1]. apply IH; [done|done|by apply Hs].
  - destruct (run_pending_ok s HI Hn) as (s1 & E & HI1 & N1 & _). rewrite E. cbn [mbind outcome_bind]. apply IH; [done|done|by apply Hs].
Qed.

End Polling.

Lemma loop_init_inv sq cq : uint_ok 32 sq -> uint_ok 32 cq -> io_inv (loop_init sq cq).
Proof.
  intros Hs Hc. split; [|split; [|done]].
  - constructor; try done; try apply NoDup_nil_2; cbn.
    + intros fd w. split; [done|]. by intros (r & Hr & _).
    + intros fd w. split; [done|]. by intros (r & Hr & _).
    + by intros w Hw%not_elem_of_nil.
    + by intros w Hw%not_elem_of_nil.
  - destruct (ring_init_ok (fun _ => true) sq cq ∅ Hs Hc) as (? & _ & ? & ? & _). done.
Qed.

(** Acts that check what they may do. *)
Definition openb (w : nat) (s : io_loop) : bool := match ws s !! w with Some r => bool_decide (w_fd r <> None) | None => false end.
Definition act_allowedb (a : io_act) (s : io_loop) : bool :=
  match a with
  | IoOpen w fd => bool_decide (owner s !! fd = None) && (2 <? Z.of_nat fd) && (Z.of_nat fd <? MAX_FD) && negb (openb w s)
  | IoStart w events => events_valid events && openb w s
  | IoStop w events => events_valid events && bool_decide (is_Some (ws s !! w))
  | IoClose w => bool_decide (is_Some (ws s !! w))
  | IoFeed w => openb w s
  end.

Lemma openb_spec w s : openb w s = true -> exists fd, opened s w fd.
Proof.
  unfold openb, opened. destruct (ws s !! w) as [r|]; [|done]. intros H%bool_decide_eq_true.
  destruct (w_fd r) as [fd|] eqn:E; [|done]. by exists fd, r.
Qed.

Lemma act_allowedb_sound a s : act_allowedb a s = true -> act_allowed a s.
Proof.
  destruct a as [w fd|w ev|w ev|w|w]; cbn; intros H; reflect_bools.
  - match goal with H : bool_decide _ = true |- _ => apply bool_decide_eq_true in H end. split; [done|]. split; [done|].
    intros r Hr. unfold openb in *. rewrite Hr in *. destruct (w_fd r); [|done].
    match goal with H : bool_decide _ = false |- _ => apply bool_decide_eq_false in H; by destruct H end.
  - split; [done|by apply openb_spec].
  - split; [done|by eapply bool_decide_eq_true].
  - by eapply bool_decide_eq_true.
  - by apply openb_spec.
Qed.

Fixpoint careful (acts : list io_act) (s : io_loop) : list io_act :=
  match acts with
  | [] => []
  | a :: acts => if act_allowedb a s then match io_act_do a s with Ret s' => a :: careful acts s' | _ => [] end else careful acts s
  end.

Lemma careful_ok acts : forall s, acts_allowed (careful acts s) s.
Proof.
  induction acts as [|a acts IH]; intros s; [done|]. cbn [careful]. destruct (act_allowedb a s) eqn:Ea; [|apply IH].
  destruct (io_act_do a s) as [s'| |] eqn:E; [|done..]. split; [by apply act_allowedb_sound|]. intros s'' E'. rewrite E in E'. simplify_eq. apply IH.
Qed.

(** ** Part 6: the theorems *)

(** C23. Whatever callbacks do with the watchers - start, stop, close, open new descriptors that
    reuse the numbers - and however epoll_pwait answers, a run of acts, polls and pending
    callbacks fails no assertion. A callback is given only to a watcher that had the descriptor
    when the kernel reported it, was not closed since and wants something, and only with
    events it wants, errors or hang-ups. [nfds] counts the watchers in the table. *)
Theorem io_poll_safe script signal_io_watcher use_ring steps sq cq :
  (forall w ev s, acts_allowed (script w ev s) s) -> uint_ok 32 sq -> uint_ok 32 cq ->
  steps_allowed script signal_io_watcher use_ring steps (loop_init sq cq) ->
  exists s', io_run script signal_io_watcher use_ring steps (loop_init sq cq) = Ret s' /\ calls_ok (log s') /\
    nfds s' = occupied (watchers s') /\ inv_events s' = None.
Proof.
  intros Hsc Hs Hc Hst. destruct (io_run_ok script signal_io_watcher use_ring Hsc steps _ (loop_init_inv sq cq Hs Hc) eq_refl Hst) as (s' & E & HI & Hn).
  exists s'. split; [done|]. split; [apply HI|]. split; [|done]. by eapply i_nfds; apply HI.
Qed.

(** Two connections are readable; the first callback closes the second connection and opens a
    third on its descriptor, which the second event is not for. *)
Definition reuse_script (w : nat) (ev : Z) (s : io_loop) : list io_act :=
  careful (if Nat.eqb w 1 then [IoClose 2; IoOpen 3 4; IoStart 3 POLLIN; IoFeed 1] else []) s.
Definition both_ready (timeout : Z) (ep : gmap nat epoll_event) : wait :=
  WEvents (filter (fun e => is_Some (ep !! e.1)) [(3%nat, POLLIN); (4%nat, POLLIN)]) 7.
Definition reuse_run : list io_event :=
  [SAct (IoOpen 1 3); SAct (IoOpen 2 4); SAct (IoStart 1 POLLIN); SAct (IoStart 2 POLLIN);
   SPoll [fun timeout ep => if bool_decide (is_Some (ep !! 3%nat)) then both_ready timeout ep else WIntr 1] (-1); SPending].

Lemma io_poll_safe_witness :
  exists s', io_run reuse_script 0 true reuse_run (loop_init 5 6) = Ret s' /\ calls_ok (log s') /\
    nfds s' = occupied (watchers s') /\ inv_events s' = None.
Proof.
  apply io_poll_safe; [intros; apply careful_ok|done|done|].
  assert (forall a s, act_allowedb a s = true -> act_allowed a s) as Hb by apply act_allowedb_sound.
  unfold reuse_run. cbn [steps_allowed].
  repeat (split; [apply Hb; vm_compute; reflexivity|]; let s := fresh "s" in let E := fresh "E" in intros s E; vm_compute in E; injection E as <-).
  split; [|done]. constructor; [|constructor]. intros timeout ep. case_bool_decide as Hd; [|done].
  unfold both_ready. destruct Hd as [e He]. split.
  - rewrite filter_cons_True by (cbn; rewrite He; eauto). cbn [length]. split; [lia|].
    etransitivity; [apply le_n_S, length_filter|]. cbn. lia.
  - by intros fd m [H _]%list_elem_of_filter.
Defined.






(** No event is lost: of the events that a wait reported, each goes to the callback of its
    watcher, unless a callback of the same round stopped or closed that watcher. *)
Theorem events_dispatched script signal_io_watcher use_ring steps sq cq s es t :
  (forall w ev s, acts_allowed (script w ev s) s) -> uint_ok 32 sq -> uint_ok 32 cq ->
  steps_allowed script signal_io_watcher use_ring steps (loop_init sq cq) ->
  io_run script signal_io_watcher use_ring steps (loop_init sq cq) = Ret s ->
  (forall fd m, (fd, m) ∈ es -> is_Some (interest (ctl s) !! fd)) ->
  let s1 := set_inv_events (Some ((fun e : nat * Z => (Some e.1, e.2)) <$> es)) (add_log (LWait (owner s) es) (set_now t s)) in
  exists hs ne s' L, dispatch script signal_io_watcher (length es) 0 false 0 s1 = Ret (hs, ne, s') /\ log s' = L ++ log s1 /\
    forall fd m w r, (fd, m) ∈ es -> w <> signal_io_watcher -> ws s !! w = Some r -> w_fd r = Some fd -> w_pevents r <> 0 ->
      Z.land m (Z.lor (Z.lor (w_pevents r) POLLERR) POLLHUP) <> 0 -> (forall a, LAct a ∈ L -> untouched w a) ->
      exists ev p, LCall w fd ev p ∈ L.
Proof.
  intros Hsc Hs Hc Hst E Hk s1. destruct (io_run_ok script signal_io_watcher use_ring Hsc steps _ (loop_init_inv sq cq Hs Hc) eq_refl Hst) as (s0 & E0 & HI & Hn).
  rewrite E in E0. simplify_eq.
  destruct (dispatch_ok script signal_io_watcher Hsc (length es) 0 false 0 s1 _ (batch_start s0 es t HI Hk) eq_refl)
    as (hs & ne & s' & L & Ed & _ & _ & El & _ & _ & H); [by rewrite length_fmap|].
  exists hs, ne, s', L. split; [done|]. split; [done|]. intros fd m w r Hin Hsig Hw Hf Hp Hm Hu.
  apply list_elem_of_lookup in Hin as [j Hj]. apply (H j fd m w r); try done; [lia|]. by rewrite list_lookup_fmap, Hj.
Qed.

Definition two_ready_run : list io_event :=
  [SAct (IoOpen 1 3); SAct (IoStart 1 POLLIN); SAct (IoOpen 2 4); SAct (IoStart 2 POLLIN); SPoll [fun _ _ => WIntr 1] 0].

Lemma events_dispatched_witness :
  exists s, io_run reuse_script 0 false two_ready_run (loop_init 0 0) = Ret s /\
  let es := [(3%nat, POLLHUP); (4%nat, POLLIN)] in
  let s1 := set_inv_events (Some ((fun e : nat * Z => (Some e.1, e.2)) <$> es)) (add_log (LWait (owner s) es) (set_now 2 s)) in
  exists hs ne s' L, dispatch reuse_script 0 (length es) 0 false 0 s1 = Ret (hs, ne, s') /\ log s' = L ++ log s1 /\
    forall fd m w r, (fd, m) ∈ es -> w <> 0%nat -> ws s !! w = Some r -> w_fd r = Some fd -> w_pevents r <> 0 ->
      Z.land m (Z.lor (Z.lor (w_pevents r) POLLERR) POLLHUP) <> 0 -> (forall a, LAct a ∈ L -> untouched w a) ->
      exists ev p, LCall w fd ev p ∈ L.
Proof.
  assert (steps_allowed reuse_script 0 false two_ready_run (loop_init 0 0)) as Ha.
  { assert (forall a s, act_allowedb a s = true -> act_allowed a s) as Hb by apply act_allowedb_sound.
    unfold two_ready_run. cbn [steps_allowed].
    repeat (split; [first [apply Hb; vm_compute; reflexivity | by repeat constructor]|]; try (split; [lia|]);
      let s := fresh "s" in let E := fresh "E" in intros s E; vm_compute in E; injection E as <-). done. }
  assert (uint_ok 32 0) as H0 by done.
  assert (match io_run reuse_script 0 false two_ready_run (loop_init 0 0) with
          | Ret s => bool_decide (is_Some (interest (ctl s) !! 3%nat)) && bool_decide (is_Some (interest (ctl s) !! 4%nat)) | _ => false end = true) as Hk
    by (vm_compute; reflexivity).
  destruct (io_run reuse_script 0 false two_ready_run (loop_init 0 0)) as [s| |] eqn:E; [|discriminate Hk..].
  exists s. split; [reflexivity|].
  apply (events_dispatched reuse_script 0 false two_ready_run 0 0 s [(3%nat, POLLHUP); (4%nat, POLLIN)] 2 (fun w ev s => careful_ok _ s) H0 H0 Ha E).
  apply andb_true_iff in Hk as [H3%bool_decide_eq_true H4%bool_decide_eq_true]. clear E Ha.
  intros fd m [[= -> ->]|[[= -> ->]|[]%not_elem_of_nil]%elem_of_cons]%elem_of_cons; assumption.
Defined.

(** What interrupted waits take from the timeout is counted from the start of the poll each
    time: interrupted after 40 and after 70 milliseconds, a poll of 100 returns at once. *)
Theorem poll_returns_early :
  exists s s', io_run (fun _ _ _ => []) 0 false [SAct (IoOpen 1 3); SAct (IoStart 1 POLLIN)] (loop_init 0 0) = Ret s /\
    uv__io_poll (fun _ _ _ => []) 0 false [fun _ _ => WIntr 40; fun _ _ => WIntr 70] 100 s = Ret (true, s') /\ now s' = 70.
Proof. eexists _, _. split; [vm_compute; reflexivity|]. split; vm_compute; reflexivity. Qed.

(** When the table of watchers cannot grow, [uv__reallocf] has freed it and the loop still uses
    it: the failure of one [uv__io_start] makes the next [uv__io_stop] a use after free. *)
Theorem resize_failure_dangles :
  exists s s', io_run (fun _ _ _ => []) 0 false [SAct (IoOpen 1 3); SAct (IoStart 1 POLLIN); SAct (IoOpen 2 100)] (loop_init 0 0) = Ret s /\
    uv__io_start 2 POLLIN (set_allocs [false] s) = Ret (UV_ENOMEM, s') /\ uv__io_stop 1 POLLIN s' = UB.
Proof. eexists _, _. split; [vm_compute; reflexivity|]. split; vm_compute; reflexivity. Qed.
