(* ===== verification/Heap.v ===== *)
(** The binary heap of deps/libuv/src/heap-inl.h, on which libuv keeps its timers.

    Part 1 translates the C functions on a store of nodes linked by pointers. Part 2 shows
    that the store always represents a complete tree, given as the list of its nodes in
    level order (the children of position [i] are at [2i] and [2i+1], counting from 1), and
    that every pointer operation implements an operation on that list. Part 3 proves the
    heap order. *)

From Stdlib Require Import ZifyNat.
From S2P Require Import Prelude.

(** ** Part 1: the code *)

Record heap_node := mkNode { n_left : option nat; n_right : option nat; n_parent : option nat }.

(** A heap with the nodes of the store; [h_min] is the root. *)
Record heap := mkHeap { h_min : option nat; h_nelts : Z; h_nodes : gmap nat heap_node }.

Definition heap_init (nodes : gmap nat heap_node) : heap := mkHeap None 0 nodes.
Definition heap_min (h : heap) : option nat := h_min h.

Definition set_n_left (v : option nat) (n : heap_node) : heap_node := mkNode v (n_right n) (n_parent n).
Definition set_n_right (v : option nat) (n : heap_node) : heap_node := mkNode (n_left n) v (n_parent n).
Definition set_n_parent (v : option nat) (n : heap_node) : heap_node := mkNode (n_left n) (n_right n) v.

Definition with_nodes (h : heap) (m : gmap nat heap_node) : heap := mkHeap (h_min h) (h_nelts h) m.
Definition with_min (h : heap) (p : option nat) : heap := mkHeap p (h_nelts h) (h_nodes h).
Definition with_nelts (h : heap) (n : Z) : heap := mkHeap (h_min h) n (h_nodes h).

(** [*p], and an assignment to a field of [*p]; [p] must point to a node. *)
Definition load (h : heap) (p : nat) : outcome heap_node :=
  match h_nodes h !! p with Some n => Ret n | None => UB end.
Definition update (f : heap_node -> heap_node) (p : nat) (h : heap) : outcome heap :=
  n ← load h p; Ret (with_nodes h (<[p := f n]> (h_nodes h))).
(** The same for a pointer that may be null, which is skipped. *)
Definition update_opt (f : heap_node -> heap_node) (p : option nat) (h : heap) : outcome heap :=
  match p with None => Ret h | Some p => update f p h end.

Definition heap_node_swap (h : heap) (parent child : nat) : outcome heap :=
  tp ← load h parent;
  tc ← load h child;
  let h := with_nodes h (<[child := tp]> (<[parent := tc]> (h_nodes h))) in
  h ← update (set_n_parent (Some child)) parent h;
  nc ← load h child;
  let left_child := bool_decide (n_left nc = Some child) in
  h ← update (if left_child then set_n_left (Some parent) else set_n_right (Some parent)) child h;
  let sibling := if left_child then n_right nc else n_left nc in
  h ← update_opt (set_n_parent (Some child)) sibling h;
  np ← load h parent;
  h ← update_opt (set_n_parent (Some parent)) (n_left np) h;
  h ← update_opt (set_n_parent (Some parent)) (n_right np) h;
  nc ← load h child;
  match n_parent nc with
  | None => Ret (with_min h (Some child))
  | Some g =>
      ng ← load h g;
      update (if bool_decide (n_left ng = Some parent) then set_n_left (Some child) else set_n_right (Some child)) g h
  end.

(** A pointer to a pointer into the tree. *)
Inductive slot := AtMin | AtLeft (p : nat) | AtRight (p : nat).

Definition slot_get (h : heap) (s : slot) : outcome (option nat) :=
  match s with
  | AtMin => Ret (h_min h)
  | AtLeft p => n ← load h p; Ret (n_left n)
  | AtRight p => n ← load h p; Ret (n_right n)
  end.

Definition slot_set (h : heap) (s : slot) (v : option nat) : outcome heap :=
  match s with
  | AtMin => Ret (with_min h v)
  | AtLeft p => update (set_n_left v) p h
  | AtRight p => update (set_n_right v) p h
  end.

(** [for (k = 0, n = ...; n >= 2; k += 1, n /= 2) path = (path << 1) | (n & 1);] with 32
    bits, so 32 turns are enough. *)
Fixpoint calc_path (fuel : nat) (n : Z) (k : nat) (path : Z) : nat * Z :=
  match fuel with
  | O => (k, path)
  | S fuel' =>
      if n <? 2 then (k, path)
      else calc_path fuel' (n / 2) (S k) (Z.lor (wrap 32 (Z.shiftl path 1)) (Z.land n 1))
  end.

(** The walk along the path: the slots [parent] and [child]. *)
Fixpoint walk (h : heap) (k : nat) (path : Z) (parent child : slot) : outcome (slot * slot) :=
  match k with
  | O => Ret (parent, child)
  | S k' =>
      v ← slot_get h child;
      match v with
      | None => UB
      | Some p => walk h k' (Z.shiftr path 1) child (if Z.land path 1 =? 1 then AtRight p else AtLeft p)
      end
  end.

(** In [heap_remove]: the unlinked [child] takes the place of [node]. *)
Definition replace_node (node child : nat) (h : heap) : outcome heap :=
  nn ← load h node;
  h ← update (fun _ => nn) child h;
  h ← update_opt (set_n_parent (Some child)) (n_left nn) h;
  h ← update_opt (set_n_parent (Some child)) (n_right nn) h;
  match n_parent nn with
  | None => Ret (with_min h (Some child))
  | Some g =>
      ng ← load h g;
      update (if bool_decide (n_left ng = Some node) then set_n_left (Some child) else set_n_right (Some child)) g h
  end.

Section Operations.
Context (less_than : nat -> nat -> bool).

(** [while (x->parent != NULL && less_than(x, x->parent)) heap_node_swap(heap, x->parent, x);] *)
Fixpoint sift_up (fuel : nat) (x : nat) (h : heap) : outcome heap :=
  match fuel with
  | O => UB
  | S fuel' =>
      n ← load h x;
      match n_parent n with
      | None => Ret h
      | Some p => if less_than x p then h ← heap_node_swap h p x; sift_up fuel' x h else Ret h
      end
  end.

Definition heap_insert (newnode : nat) (h : heap) : outcome heap :=
  let h := with_nodes h (<[newnode := mkNode None None None]> (h_nodes h)) in
  let '(k, path) := calc_path 32 (wrap 32 (1 + h_nelts h)) 0 0 in
  '(parent, child) ← walk h k path AtMin AtMin;
  pv ← slot_get h parent;
  h ← update (set_n_parent pv) newnode h;
  h ← slot_set h child (Some newnode);
  let h := with_nelts h (wrap 32 (h_nelts h + 1)) in
  sift_up (S (Z.to_nat (h_nelts h))) newnode h.

(** The choice of [smallest] in the loop of [heap_remove]. *)
Definition pick_smallest (child : nat) (n : heap_node) : nat :=
  let smallest :=
    match n_left n with Some l => if less_than l child then l else child | None => child end in
  match n_right n with Some r => if less_than r smallest then r else smallest | None => smallest end.

Fixpoint sift_down (fuel : nat) (child : nat) (h : heap) : outcome heap :=
  match fuel with
  | O => UB
  | S fuel' =>
      n ← load h child;
      let smallest := pick_smallest child n in
      if Nat.eqb smallest child then Ret h
      else h ← heap_node_swap h child smallest; sift_down fuel' child h
  end.

Definition heap_remove (node : nat) (h : heap) : outcome heap :=
  if h_nelts h =? 0 then Ret h
  else
    let fuel := S (Z.to_nat (h_nelts h)) in
    let '(k, path) := calc_path 32 (h_nelts h) 0 0 in
    '(_, max) ← walk h k path AtMin AtMin;
    let h := with_nelts h (h_nelts h - 1) in
    v ← slot_get h max;
    h ← slot_set h max None;
    match v with
    | None => UB
    | Some child =>
        if Nat.eqb child node then
          if bool_decide (h_min h = Some child) then Ret (with_min h None) else Ret h
        else
          h ← replace_node node child h;
          h ← sift_down fuel child h;
          sift_up fuel child h
    end.

(** Removing the root. *)
Definition heap_dequeue (h : heap) : outcome heap :=
  match h_min h with Some m => heap_remove m h | None => Ret h end.

End Operations.

(** ** Part 2: the tree in level order *)

Ltac Zify.zify_post_hook ::= Z.to_euclidean_division_equations.

(** The node at a position, counting from 1. *)
Definition at_pos (l : list nat) (i : nat) : option nat :=
  match i with O => None | S j => l !! j end.

Definition node_at (l : list nat) (i : nat) : heap_node :=
  mkNode (at_pos l (2 * i)) (at_pos l (2 * i + 1)) (at_pos l (i / 2)).

Record repr (h : heap) (l : list nat) : Prop := {
  repr_nodup : NoDup l;
  repr_nelts : h_nelts h = Z.of_nat (length l);
  repr_min : h_min h = at_pos l 1;
  repr_nodes : forall i x, at_pos l i = Some x -> h_nodes h !! x = Some (node_at l i) }.

(** The nodes at positions [j] and [i] exchanged. *)
Definition swap_at (l : list nat) (j i : nat) : list nat :=
  match at_pos l j, at_pos l i with
  | Some p, Some c => <[pred j := c]> (<[pred i := p]> l)
  | _, _ => l
  end.

Lemma at_pos_lt l i x : at_pos l i = Some x -> (1 <= i <= length l)%nat.
Proof. destruct i; [done|]. intros H%lookup_lt_Some. lia. Qed.

Lemma at_pos_some l i : (1 <= i <= length l)%nat -> exists x, at_pos l i = Some x.
Proof. destruct i; [lia|]. intros. cbn. apply lookup_lt_is_Some. lia. Qed.

Lemma at_pos_none l i : (length l < i)%nat -> at_pos l i = None.
Proof. destruct i; [lia|]. intros. cbn. apply lookup_ge_None. lia. Qed.

Lemma at_pos_elem l i x : at_pos l i = Some x -> x ∈ l.
Proof. destruct i; [done|]. apply list_elem_of_lookup_2. Qed.

Lemma elem_at_pos l x : x ∈ l -> exists i, at_pos l i = Some x.
Proof. intros [j H]%list_elem_of_lookup. by exists (S j). Qed.

Lemma at_pos_inj l i j x : NoDup l -> at_pos l i = Some x -> at_pos l j = Some x -> i = j.
Proof.
  destruct i, j; try done. cbn. intros Hnd H1 H2. f_equal. exact (NoDup_lookup _ _ _ _ Hnd H1 H2).
Qed.

Lemma at_pos_decide l q k x :
  NoDup l -> at_pos l k = Some x -> bool_decide (at_pos l q = Some x) = bool_decide (q = k).
Proof.
  intros Hnd Hk. apply bool_decide_ext. split; [intros Hq; by eapply at_pos_inj|by intros ->].
Qed.

Lemma at_pos_swap l j i p c k :
  at_pos l j = Some p -> at_pos l i = Some c -> j <> i ->
  at_pos (swap_at l j i) k = if Nat.eqb k j then Some c else if Nat.eqb k i then Some p else at_pos l k.
Proof.
  intros Hj Hi Hne. unfold swap_at. rewrite Hj, Hi.
  pose proof (at_pos_lt _ _ _ Hj). pose proof (at_pos_lt _ _ _ Hi).
  destruct k; [by destruct j, i; try lia|]. cbn [at_pos].
  destruct (Nat.eqb_spec (S k) j) as [<-|].
  { cbn. rewrite list_lookup_insert_eq; [done|]. rewrite length_insert. lia. }
  rewrite list_lookup_insert_ne by lia.
  destruct (Nat.eqb_spec (S k) i) as [<-|].
  - cbn. rewrite list_lookup_insert_eq; [done|]. lia.
  - by rewrite list_lookup_insert_ne by lia.
Qed.

Lemma length_swap_at l j i : length (swap_at l j i) = length l.
Proof.
  unfold swap_at. destruct (at_pos l j), (at_pos l i); try done. by rewrite !length_insert.
Qed.

Lemma swap_at_perm l j i p c :
  at_pos l j = Some p -> at_pos l i = Some c -> j <> i -> swap_at l j i ≡ₚ l.
Proof.
  intros Hj Hi Hne. unfold swap_at. rewrite Hj, Hi.
  destruct j as [|j], i as [|i]; try done. cbn in *.
  rewrite <- (list_insert_id l j p Hj) at 2.
  pose proof (lookup_lt_Some _ _ _ Hj). pose proof (lookup_lt_Some _ _ _ Hi).
  apply Permutation_inj. split; [by rewrite !length_insert|].
  exists (fun k => if Nat.eqb k i then j else if Nat.eqb k j then i else k). split.
  - intros a b. repeat case_match; rewrite ?Nat.eqb_eq, ?Nat.eqb_neq in *; lia.
  - intros k. rewrite (list_insert_id l j p Hj).
    destruct (Nat.eqb_spec k i) as [->|].
    + rewrite list_lookup_insert_ne by lia. by rewrite list_lookup_insert_eq by lia.
    + destruct (Nat.eqb_spec k j) as [->|].
      * rewrite list_lookup_insert_eq by (rewrite length_insert; lia). done.
      * by rewrite !list_lookup_insert_ne by lia.
Qed.

(** Nodes of the store under an optional update. *)
Definition alter_opt (f : heap_node -> heap_node) (o : option nat) (m : gmap nat heap_node) : gmap nat heap_node :=
  match o with None => m | Some q => alter f q m end.

Lemma lookup_alter_opt f o m x :
  alter_opt f o m !! x = if bool_decide (o = Some x) then f <$> m !! x else m !! x.
Proof.
  destruct o as [q|]; cbn [alter_opt]; [|by rewrite bool_decide_false].
  case_bool_decide as H; [simplify_eq; apply lookup_alter_eq|].
  apply lookup_alter_ne. congruence.
Qed.

Lemma update_alter f p h n :
  h_nodes h !! p = Some n -> update f p h = Ret (with_nodes h (alter f p (h_nodes h))).
Proof.
  intros H. unfold update, load. rewrite H. cbn [mbind outcome_bind]. do 2 f_equal.
  apply map_eq. intros q. destruct (decide (q = p)) as [->|].
  - by rewrite lookup_insert_eq, lookup_alter_eq, H.
  - by rewrite lookup_insert_ne, lookup_alter_ne.
Qed.

Lemma update_opt_alter f o h :
  (forall q, o = Some q -> is_Some (h_nodes h !! q)) ->
  update_opt f o h = Ret (with_nodes h (alter_opt f o (h_nodes h))).
Proof.
  destruct o as [q|]; [|by destruct h]. intros H. cbn. destruct (H q eq_refl) as [n Hn].
  by eapply update_alter.
Qed.

Lemma load_some h p n : h_nodes h !! p = Some n -> load h p = Ret n.
Proof. unfold load. by intros ->. Qed.

Lemma is_Some_alter_opt f o m x : is_Some (alter_opt f o m !! x) <-> is_Some (m !! x).
Proof. rewrite lookup_alter_opt. case_bool_decide; [by rewrite fmap_is_Some|done]. Qed.

Lemma is_Some_alter f p (m : gmap nat heap_node) x : is_Some (alter f p m !! x) <-> is_Some (m !! x).
Proof. apply (is_Some_alter_opt f (Some p)). Qed.

(** The store that [heap_node_swap] leaves, [i] being the position of the child. *)
Definition swap_nodes (l : list nat) (i p c : nat) (m : gmap nat heap_node) : gmap nat heap_node :=
  let j := (i / 2)%nat in
  let even := bool_decide (2 * j = i)%nat in
  let m := <[c := node_at l j]> (<[p := node_at l i]> m) in
  let m := alter_opt (set_n_parent (Some c)) (Some p) m in
  let m := alter_opt (if even then set_n_left (Some p) else set_n_right (Some p)) (Some c) m in
  let m := alter_opt (set_n_parent (Some c)) (if even then at_pos l (2 * j + 1) else at_pos l (2 * j)) m in
  let m := alter_opt (set_n_parent (Some p)) (at_pos l (2 * i)) m in
  let m := alter_opt (set_n_parent (Some p)) (at_pos l (2 * i + 1)) m in
  alter_opt (if bool_decide (2 * (j / 2) = j)%nat then set_n_left (Some c) else set_n_right (Some c)) (at_pos l (j / 2)) m.

Lemma repr_is_Some h l i x : repr h l -> at_pos l i = Some x -> is_Some (h_nodes h !! x).
Proof. intros R H. rewrite (repr_nodes _ _ R _ _ H). eauto. Qed.

(** Lookups in an updated store at nodes of known position. *)
Ltac store_simp Hnd :=
  repeat match goal with
         | |- context [alter_opt _ _ _ !! _] => rewrite lookup_alter_opt
         | |- context [<[?x := _]> _ !! ?x] => rewrite lookup_insert_eq
         | |- context [<[_ := _]> _ !! _] => rewrite lookup_insert_ne by congruence
         | |- context [bool_decide (Some ?x = Some ?x)] => rewrite (bool_decide_true (Some x = Some x)) by done
         | |- context [bool_decide (Some ?x = Some ?y)] => rewrite (bool_decide_false (Some x = Some y)) by congruence
         | H : at_pos ?l ?k = Some ?x |- context [bool_decide (at_pos ?l ?q = Some ?x)] =>
             rewrite (at_pos_decide l q k x Hnd H);
             first [rewrite (bool_decide_false (q = k)) by lia|rewrite (bool_decide_true (q = k)) by lia]
         end.

Lemma sibling_pos l i :
  (1 <= i / 2 <= length l)%nat ->
  exists s, (if bool_decide (2 * (i / 2) = i)%nat then at_pos l (2 * (i / 2) + 1) else at_pos l (2 * (i / 2))) = at_pos l s
    /\ (s / 2 = i / 2)%nat /\ s <> i.
Proof. intros. case_bool_decide; eexists; (split; [reflexivity|]); lia. Qed.

Ltac opt_step Hsome :=
  rewrite update_opt_alter by (intros ? ?; simplify_eq; cbn [h_nodes]; rewrite ?is_Some_alter_opt; by eapply Hsome);
  unfold with_nodes; cbn [mbind outcome_bind h_nodes h_min h_nelts].

Lemma swap_runs h l i p c :
  repr h l -> at_pos l i = Some c -> at_pos l (i / 2) = Some p ->
  heap_node_swap h p c =
  Ret (mkHeap (at_pos (swap_at l (i / 2) i) 1) (h_nelts h) (swap_nodes l i p c (h_nodes h))).
Proof.
  intros R Hi Hj. pose proof (at_pos_lt _ _ _ Hj) as Bj. pose proof (at_pos_lt _ _ _ Hi) as Bi.
  pose proof (repr_nodup _ _ R) as Hnd.
  assert (Hpc : p <> c) by (intros ->; pose proof (at_pos_inj _ _ _ _ Hnd Hi Hj); lia).
  pose proof (repr_nodes _ _ R _ _ Hi) as Li. pose proof (repr_nodes _ _ R _ _ Hj) as Lj.
  assert (Hsome : forall q x, at_pos l q = Some x -> is_Some (<[c := node_at l (i / 2)]> (<[p := node_at l i]> (h_nodes h)) !! x)).
  { intros q x Hq. rewrite !lookup_insert_is_Some'. right. right. by eapply repr_is_Some. }
  unfold heap_node_swap, swap_nodes.
  rewrite (load_some _ _ _ Lj), (load_some _ _ _ Li).
  change (update ?f p) with (update_opt f (Some p)). change (update ?f c) with (update_opt f (Some c)).
  unfold with_nodes. cbn [mbind outcome_bind h_nodes h_min h_nelts].
  opt_step Hsome.
  erewrite load_some by (cbn [h_nodes]; store_simp Hnd; done).
  cbn [mbind outcome_bind n_left node_at n_right].
  rewrite (at_pos_decide l _ i c Hnd Hi).
  destruct (sibling_pos l i Bj) as (s & -> & Hs1 & Hs2).
  opt_step Hsome. opt_step Hsome.
  erewrite load_some.
  2:{ cbn [h_nodes]. store_simp Hnd. cbn. done. }
  cbn [mbind outcome_bind n_left n_right node_at set_n_parent].
  opt_step Hsome. opt_step Hsome.
  erewrite load_some.
  2:{ cbn [h_nodes]. store_simp Hnd. cbn. done. }
  assert (Hp : forall b, n_parent ((if b : bool then set_n_left (Some p) else set_n_right (Some p)) (node_at l (i/2))) = at_pos l (i / 2 / 2)) by (by intros []).
  cbn [mbind outcome_bind]. rewrite Hp.
  rewrite (at_pos_swap _ _ _ _ _ 1 Hj Hi) by lia. rewrite (proj2 (Nat.eqb_neq 1 i)) by lia.
  destruct (at_pos l (i / 2 / 2)) as [g|] eqn:Hg.
  - pose proof (at_pos_lt _ _ _ Hg).
    assert (Hgn : g <> p) by (intros ->; pose proof (at_pos_inj _ _ _ _ Hnd Hg Hj); lia).
    assert (Hgc : g <> c) by (intros ->; pose proof (at_pos_inj _ _ _ _ Hnd Hg Hi); lia).
    erewrite load_some.
    2:{ cbn [h_nodes]. store_simp Hnd. by eapply repr_nodes. }
    cbn [mbind outcome_bind n_left node_at]. change (update ?f g) with (update_opt f (Some g)).
    rewrite (at_pos_decide l _ _ p Hnd Hj).
    rewrite update_opt_alter by (intros q Hq; simplify_eq; cbn [h_nodes]; rewrite ?is_Some_alter_opt; by eapply Hsome).
    rewrite (proj2 (Nat.eqb_neq 1 (i/2))) by lia. by rewrite <- (repr_min _ _ R).
  - destruct (decide (i / 2 = 1)%nat) as [E|].
    + rewrite E. done.
    + destruct (at_pos_some l (i / 2 / 2)); [lia|congruence].
Qed.

(** Settle a test on positions by arithmetic, by cases where it does not. *)
Ltac pos_cases :=
  repeat match goal with
         | |- context [Nat.eqb ?a ?b] =>
             first [rewrite (proj2 (Nat.eqb_neq a b)) by lia|rewrite (proj2 (Nat.eqb_eq a b)) by lia
                   |destruct (Nat.eqb_spec a b)]
         | |- context [bool_decide (?a = ?b :> nat)] =>
             first [rewrite (bool_decide_false (a = b)) by lia|rewrite (bool_decide_true (a = b)) by lia
                   |destruct (decide (a = b)); [rewrite (bool_decide_true (a = b)) by done|rewrite (bool_decide_false (a = b)) by done]]
         end.

Ltac node_solve :=
  unfold node_at, set_n_parent, set_n_left, set_n_right;
  pos_cases; cbn [fmap option_fmap option_map n_left n_right n_parent]; do 2 f_equal;
  first [done|congruence|f_equal; lia
        |match goal with
         | H : at_pos ?l _ = Some ?c |- at_pos ?l _ = Some ?c => rewrite <- H; f_equal; lia
         | H : at_pos ?l _ = Some ?c |- Some ?c = at_pos ?l _ => rewrite <- H; f_equal; lia
         end].

(** Name the half of a position. *)
Tactic Notation "halve" constr(i) ident(j) :=
  let E := fresh in
  assert (2 * (i / 2) <= i <= 2 * (i / 2) + 1)%nat by lia;
  generalize dependent (i / 2)%nat; intros j; intros.

(** What a position of the exchanged list holds. *)
Lemma swap_nodes_at l i p c m k x :
  NoDup l -> at_pos l i = Some c -> at_pos l (i / 2) = Some p ->
  (forall q y, at_pos l q = Some y -> m !! y = Some (node_at l q)) ->
  at_pos (swap_at l (i / 2) i) k = Some x ->
  swap_nodes l i p c m !! x = Some (node_at (swap_at l (i / 2) i) k).
Proof.
  intros Hnd Hi Hj Hm. pose proof (at_pos_lt _ _ _ Hj) as Bj. pose proof (at_pos_lt _ _ _ Hi) as Bi.
  assert (Hpc : p <> c) by (intros ->; pose proof (at_pos_inj _ _ _ _ Hnd Hi Hj); lia).
  unfold node_at at 1. rewrite !(at_pos_swap l (i / 2) i p c) by (done || lia).
  unfold swap_nodes. destruct (sibling_pos l i Bj) as (s & -> & Hs1 & Hs2).
  destruct (Nat.eqb_spec k (i / 2)) as [->|Hkj].
  { intros [= <-]. store_simp Hnd. clear Hpc. node_solve. }
  destruct (Nat.eqb_spec k i) as [->|Hki].
  { intros [= <-]. store_simp Hnd. clear Hpc. node_solve. }
  intros Hk.
  assert (Hxp : x <> p) by (intros ->; pose proof (at_pos_inj _ _ _ _ Hnd Hk Hj); lia).
  assert (Hxc : x <> c) by (intros ->; pose proof (at_pos_inj _ _ _ _ Hnd Hk Hi); lia).
  rewrite !lookup_alter_opt, !(bool_decide_false (Some _ = Some x)) by congruence.
  rewrite !lookup_insert_ne by done. rewrite (Hm _ _ Hk), !(at_pos_decide l _ k x Hnd Hk).
  clear Hpc Hxp Hxc. unfold node_at. halve i j. halve s j'. halve j g. halve k f. subst j'.
  destruct (decide (f = j)), (decide (f = i)), (decide (g = k)), (decide (2 * g = j)%nat), (decide (2 * i = k)%nat);
    try lia; node_solve.
Qed.

Lemma swap_repr h l i p c :
  repr h l -> at_pos l i = Some c -> at_pos l (i / 2) = Some p ->
  exists h', heap_node_swap h p c = Ret h' /\ repr h' (swap_at l (i / 2) i) /\ h_nelts h' = h_nelts h.
Proof.
  intros R Hi Hj. eexists. split; [by apply swap_runs|]. split; [|done].
  pose proof (at_pos_lt _ _ _ Hj). constructor; cbn.
  - rewrite (swap_at_perm _ _ _ _ _ Hj Hi) by lia. exact (repr_nodup _ _ R).
  - rewrite length_swap_at. exact (repr_nelts _ _ R).
  - done.
  - intros k x. apply swap_nodes_at; try done; [exact (repr_nodup _ _ R)|exact (repr_nodes _ _ R)].
Qed.

(** The slot that holds the node at a position. *)
Definition slot_at (l : list nat) (n : nat) : slot :=
  match at_pos l (n / 2) with
  | None => AtMin
  | Some p => if Nat.odd n then AtRight p else AtLeft p
  end.

Lemma slot_get_at h l n :
  repr h l -> (1 <= n <= S (length l))%nat -> slot_get h (slot_at l n) = Ret (at_pos l n).
Proof.
  intros R Hn. unfold slot_at. destruct (decide (n = 1)%nat) as [->|].
  { cbn. f_equal. exact (repr_min _ _ R). }
  destruct (at_pos_some l (n / 2)) as [p Hp]; [lia|]. rewrite Hp.
  pose proof (Nat.div2_odd n) as E. rewrite Nat.div2_div in E.
  destruct (Nat.odd n); cbn; rewrite (load_some _ _ _ (repr_nodes _ _ R _ _ Hp)); cbn [mbind outcome_bind node_at n_left n_right];
    do 2 f_equal; cbn [Nat.b2n] in E; lia.
Qed.

Lemma land1 z : Z.land z 1 = z mod 2.
Proof. exact (land_pow2_mask 1 z ltac:(lia)). Qed.

(** The walk along the computed path ends at the slot of position [n], its parent slot before it. *)
Lemma walk_calc h l fuel n k path :
  repr h l -> (1 <= n <= S (length l))%nat -> Z.of_nat n < 2 ^ Z.of_nat fuel ->
  0 <= path < 2 ^ Z.of_nat k -> 2 ^ Z.of_nat k * Z.of_nat n < 2 ^ 32 ->
  let '(k', path') := calc_path fuel (Z.of_nat n) k path in
  walk h k' path' AtMin AtMin = walk h k path (slot_at l (n / 2)) (slot_at l n).
Proof.
  revert n k path. induction fuel as [|fuel IH]; intros n k path R Hn Hf Hpath Hk; [cbn in Hf; lia|].
  cbn [calc_path]. destruct (Z.ltb_spec (Z.of_nat n) 2) as [H1|H2].
  { assert (n = 1)%nat as -> by lia. done. }
  replace (Z.of_nat n / 2) with (Z.of_nat (n / 2)) by lia.
  assert (Hland : Z.land (Z.of_nat n) 1 = Z.of_nat n mod 2) by apply land1.
  assert (HS : 2 ^ Z.of_nat (S k) = 2 * 2 ^ Z.of_nat k) by (rewrite Nat2Z.inj_succ, Z.pow_succ_r; lia).
  assert (HF : 2 ^ Z.of_nat (S fuel) = 2 * 2 ^ Z.of_nat fuel) by (rewrite Nat2Z.inj_succ, Z.pow_succ_r; lia).
  set (q := 2 ^ Z.of_nat k) in *.
  assert (Hq : q * 2 * Z.of_nat (n / 2) <= q * Z.of_nat n) by (rewrite <- Z.mul_assoc; apply Z.mul_le_mono_nonneg_l; lia).
  assert (Hq2 : q * 2 <= q * Z.of_nat n) by (apply Z.mul_le_mono_nonneg_l; lia).
  rewrite wrap_small by (unfold uint_ok; rewrite Z.shiftl_mul_pow2 by lia; lia).
  rewrite lor_shiftl_add, Hland by (unfold uint_ok; lia).
  specialize (IH (n / 2)%nat (S k) (path * 2 ^ 1 + Z.of_nat n mod 2) R).
  destruct (calc_path _ _ _ _) as [k' path']. rewrite HS in IH. rewrite IH by lia.
  cbn [walk]. rewrite (slot_get_at _ _ _ R) by lia.
  destruct (at_pos_some l (n / 2)) as [p Hp]; [lia|]. rewrite Hp. cbn [mbind outcome_bind].
  f_equal.
  - rewrite Z.shiftr_div_pow2 by lia. lia.
  - unfold slot_at. rewrite Hp, land1. f_equal.
    pose proof (Nat.div2_odd n) as E. rewrite Nat.div2_div in E.
    destruct (Nat.odd n); cbn [Nat.b2n] in E; case_match eqn:Ec; try done; reflect_bools; lia.
Qed.


Lemma at_pos_app l x k :
  at_pos (l ++ [x]) k = if Nat.eqb k (S (length l)) then Some x else at_pos l k.
Proof.
  destruct k as [|k]; [done|]. cbn [at_pos]. destruct (Nat.eqb_spec (S k) (S (length l))) as [E|].
  - rewrite lookup_app_r by lia. by replace (k - length l)%nat with O by lia.
  - destruct (Nat.lt_ge_cases k (length l)); [by rewrite lookup_app_l|].
    rewrite lookup_app_r by lia. rewrite (lookup_ge_None_2 l) by lia.
    by destruct (k - length l)%nat eqn:E; [lia|].
Qed.

Lemma at_pos_init l k :
  at_pos (take (pred (length l)) l) k = if Nat.eqb k (length l) then None else at_pos l k.
Proof.
  destruct k as [|k]; [by destruct l|]. cbn [at_pos]. destruct (Nat.eqb_spec (S k) (length l)).
  - by rewrite lookup_take_ge by lia.
  - destruct (Nat.lt_ge_cases (S k) (length l)); [by rewrite lookup_take_lt by lia|].
    rewrite lookup_take_ge by lia. symmetry. apply lookup_ge_None_2. lia.
Qed.

Lemma at_pos_insert l i x k :
  (1 <= i <= length l)%nat ->
  at_pos (<[pred i := x]> l) k = if Nat.eqb k i then Some x else at_pos l k.
Proof.
  intros Hi. destruct k as [|k]; [by destruct i; [lia|]|]. cbn [at_pos].
  destruct (Nat.eqb_spec (S k) i) as [<-|]; [cbn [pred]; by rewrite list_lookup_insert_eq by lia|].
  by rewrite list_lookup_insert_ne by lia.
Qed.

(** Writing the slot of position [n]: the root pointer or a link of the parent. *)
Lemma slot_set_at h l n v :
  repr h l -> (1 <= n <= S (length l))%nat ->
  slot_set h (slot_at l n) v =
  Ret (mkHeap (if Nat.eqb n 1 then v else h_min h) (h_nelts h)
         (alter_opt (if Nat.odd n then set_n_right v else set_n_left v) (at_pos l (n / 2)) (h_nodes h))).
Proof.
  intros R Hn. unfold slot_at. destruct (Nat.eqb_spec n 1) as [->|]; [done|].
  destruct (at_pos_some l (n / 2)) as [p Hp]; [lia|]. rewrite Hp.
  destruct (Nat.odd n); cbn; by rewrite (update_alter _ _ _ _ (repr_nodes _ _ R _ _ Hp)).
Qed.

(** The new node linked after the last one. *)
Lemma append_repr h l x :
  repr h l -> x ∉ l -> h_nodes h !! x = Some (mkNode None None (at_pos l (S (length l) / 2))) ->
  exists h', slot_set h (slot_at l (S (length l))) (Some x) = Ret h' /\
    repr (with_nelts h' (h_nelts h + 1)) (l ++ [x]) /\ h_nelts h' = h_nelts h.
Proof.
  intros R Hx Hn. eexists. split; [apply slot_set_at; [done|lia]|]. split; [|done].
  set (n := S (length l)). constructor; cbn [with_nelts h_nelts h_min h_nodes].
  - apply list.NoDup_app. split_and!; [exact (repr_nodup _ _ R)|set_solver|apply list.NoDup_singleton].
  - rewrite length_app, (repr_nelts _ _ R). cbn. lia.
  - rewrite at_pos_app. fold n. rewrite (Nat.eqb_sym 1). destruct (Nat.eqb_spec n 1); [done|exact (repr_min _ _ R)].
  - intros k y. unfold node_at. rewrite !at_pos_app. fold n.
    pose proof (Nat.div2_odd n) as E. rewrite Nat.div2_div in E.
    destruct (Nat.eqb_spec k n) as [->|Hk].
    + intros [= <-]. rewrite lookup_alter_opt, bool_decide_false, Hn.
      2:{ intros H%at_pos_elem. done. }
      rewrite !(proj2 (Nat.eqb_neq _ n)) by lia. by rewrite (at_pos_none l (2 * n)), (at_pos_none l (2 * n + 1)) by lia.
    + intros Hy. pose proof (at_pos_lt _ _ _ Hy) as By. rewrite lookup_alter_opt, (at_pos_decide l _ k y (repr_nodup _ _ R) Hy).
      rewrite (repr_nodes _ _ R _ _ Hy). rewrite (proj2 (Nat.eqb_neq (k / 2) n)) by lia.
      destruct (Nat.odd n) eqn:Eo; cbn [Nat.b2n] in E; pos_cases; try done.
Qed.

(** The last node unlinked. *)
Lemma clear_repr h l :
  repr h l -> l <> [] ->
  exists h', slot_set (with_nelts h (h_nelts h - 1)) (slot_at l (length l)) None = Ret h' /\
    repr h' (take (pred (length l)) l) /\ h_nelts h' = h_nelts h - 1 /\
    (forall x, is_Some (h_nodes h !! x) -> is_Some (h_nodes h' !! x)).
Proof.
  intros R Hl. assert (Hlen : (1 <= length l)%nat) by (destruct l; [done|cbn; lia]).
  exists (mkHeap (if Nat.eqb (length l) 1 then None else h_min h) (h_nelts h - 1)
    (alter_opt (if Nat.odd (length l) then set_n_right None else set_n_left None) (at_pos l (length l / 2)) (h_nodes h))).
  split.
  { unfold slot_set, slot_at. destruct (Nat.eqb_spec (length l) 1) as [E1|]; [by rewrite E1|].
    destruct (at_pos_some l (length l / 2)) as [p Hp]; [lia|]. rewrite Hp.
    destruct (Nat.odd _); cbn [alter_opt]; by erewrite update_alter by (eapply (repr_nodes _ _ R); exact Hp). }
  split_and!; [|done|by intros x; cbn; rewrite is_Some_alter_opt].
  constructor; cbn [h_nelts h_min h_nodes].
  - eapply sublist_NoDup; [exact (repr_nodup _ _ R)|apply sublist_take].
  - rewrite length_take, (repr_nelts _ _ R). lia.
  - rewrite at_pos_init, (repr_min _ _ R), (Nat.eqb_sym 1). done.
  - intros k y. unfold node_at. rewrite !at_pos_init.
    pose proof (Nat.div2_odd (length l)) as E. rewrite Nat.div2_div in E.
    destruct (Nat.eqb_spec k (length l)) as [->|Hk]; [done|].
    intros Hy. pose proof (at_pos_lt _ _ _ Hy) as By. rewrite lookup_alter_opt, (at_pos_decide l _ k y (repr_nodup _ _ R) Hy).
    rewrite (repr_nodes _ _ R _ _ Hy). rewrite (proj2 (Nat.eqb_neq (k / 2) (length l))) by lia.
    destruct (Nat.odd (length l)) eqn:Eo; cbn [Nat.b2n] in E; pos_cases; try done.
Qed.

Lemma update_const h p n v :
  h_nodes h !! p = Some n -> update (fun _ => v) p h = Ret (with_nodes h (<[p := v]> (h_nodes h))).
Proof. intros H. unfold update. by rewrite (load_some _ _ _ H). Qed.

(** The store that [replace_node] leaves, [i] being the position of the replaced node. *)
Definition replace_nodes (l : list nat) (i child : nat) (m : gmap nat heap_node) : gmap nat heap_node :=
  let m := <[child := node_at l i]> m in
  let m := alter_opt (set_n_parent (Some child)) (at_pos l (2 * i)) m in
  let m := alter_opt (set_n_parent (Some child)) (at_pos l (2 * i + 1)) m in
  alter_opt (if bool_decide (2 * (i / 2) = i)%nat then set_n_left (Some child) else set_n_right (Some child)) (at_pos l (i / 2)) m.

Lemma replace_runs h l i node child :
  repr h l -> at_pos l i = Some node -> child ∉ l -> is_Some (h_nodes h !! child) ->
  replace_node node child h =
  Ret (mkHeap (at_pos (<[pred i := child]> l) 1) (h_nelts h) (replace_nodes l i child (h_nodes h))).
Proof.
  intros R Hi Hc [nc Hnc]. pose proof (repr_nodup _ _ R) as Hnd. pose proof (at_pos_lt _ _ _ Hi) as Bi.
  assert (Hne : forall q x, at_pos l q = Some x -> child <> x) by (intros q x Hq%at_pos_elem ->; done).
  assert (Hsome : forall q x, at_pos l q = Some x -> is_Some (<[child := node_at l i]> (h_nodes h) !! x)).
  { intros q x Hq. rewrite lookup_insert_is_Some'. right. by eapply repr_is_Some. }
  unfold replace_node, replace_nodes. rewrite (load_some _ _ _ (repr_nodes _ _ R _ _ Hi)). cbn [mbind outcome_bind].
  rewrite (update_const _ _ _ _ Hnc). unfold with_nodes. cbn [mbind outcome_bind].
  cbn [node_at n_left n_right n_parent]. opt_step Hsome. opt_step Hsome.
  rewrite at_pos_insert by done.
  destruct (at_pos l (i / 2)) as [g|] eqn:Hg.
  - pose proof (at_pos_lt _ _ _ Hg). pose proof (Hne _ _ Hg).
    erewrite load_some.
    2:{ cbn [h_nodes]. store_simp Hnd. by eapply repr_nodes. }
    cbn [mbind outcome_bind n_left node_at]. change (update ?f g) with (update_opt f (Some g)).
    rewrite (at_pos_decide l _ _ node Hnd Hi). opt_step Hsome.
    rewrite (proj2 (Nat.eqb_neq 1 i)) by lia. by rewrite <- (repr_min _ _ R).
  - destruct (decide (i = 1)%nat) as [->|]; [done|]. destruct (at_pos_some l (i / 2)); [lia|congruence].
Qed.

Lemma replace_repr h l i node child :
  repr h l -> at_pos l i = Some node -> child ∉ l -> is_Some (h_nodes h !! child) ->
  exists h', replace_node node child h = Ret h' /\ repr h' (<[pred i := child]> l).
Proof.
  intros R Hi Hc Hs. eexists. split; [by apply replace_runs|].
  pose proof (repr_nodup _ _ R) as Hnd. pose proof (at_pos_lt _ _ _ Hi) as Bi.
  assert (Hne : forall q x, at_pos l q = Some x -> child <> x) by (intros q x Hq%at_pos_elem ->; done).
  constructor; cbn [h_nelts h_min h_nodes].
  - apply NoDup_alt. intros a b x Ha Hb.
    assert (Hab : at_pos (<[pred i := child]> l) (S a) = Some x) by done.
    assert (Hbb : at_pos (<[pred i := child]> l) (S b) = Some x) by done.
    rewrite at_pos_insert in Hab, Hbb by done.
    destruct (Nat.eqb_spec (S a) i), (Nat.eqb_spec (S b) i); simplify_eq; try lia.
    + by apply Hne in Hbb.
    + by apply Hne in Hab.
    + pose proof (at_pos_inj _ _ _ _ Hnd Hab Hbb). lia.
  - rewrite length_insert. exact (repr_nelts _ _ R).
  - done.
  - intros k y. unfold node_at. rewrite !at_pos_insert by done. unfold replace_nodes.
    destruct (Nat.eqb_spec k i) as [->|Hki].
    + intros [= <-]. rewrite !lookup_alter_opt, !bool_decide_false by (intros H%at_pos_elem; done).
      rewrite lookup_insert_eq. unfold node_at. by rewrite !(proj2 (Nat.eqb_neq _ i)) by lia.
    + intros Hk. pose proof (Hne _ _ Hk). rewrite !lookup_alter_opt, !(at_pos_decide l _ k y Hnd Hk), lookup_insert_ne by done.
      rewrite (repr_nodes _ _ R _ _ Hk). pose proof (at_pos_lt _ _ _ Hk). clear Hne H.
      unfold node_at. halve i j. halve k f.
      destruct (decide (f = i)), (decide (j = k)), (decide (2 * j = i)%nat), (decide (2 * i = k)%nat); try lia; node_solve.
Qed.

(** ** Part 3: the heap order *)

(** A comparison that is a strict weak order. *)
Class StrictWeak (less_than : nat -> nat -> bool) : Prop := {
  less_asym x y : less_than x y = true -> less_than y x = false;
  less_negtrans x y z : less_than x y = false -> less_than y z = false -> less_than x z = false }.

Section Order.
Context (less_than : nat -> nat -> bool) `{!StrictWeak less_than}.

(** The node at position [k] is not less than its parent. *)
Definition pos_ok (l : list nat) (k : nat) : Prop :=
  forall x y, at_pos l k = Some x -> at_pos l (k / 2) = Some y -> less_than x y = false.

Definition ordered (l : list nat) : Prop := forall k, pos_ok l k.

(** The children of position [i] are not less than the parent of [i]. *)
Definition skip_ok (l : list nat) (i : nat) : Prop :=
  forall k x y, (k / 2 = i)%nat -> at_pos l k = Some x -> at_pos l (i / 2) = Some y -> less_than x y = false.

(** In order except that the node at [i] may be less than its parent; except that it may
    also be greater than its children. *)
Definition up_ok (l : list nat) (i : nat) : Prop :=
  (forall k, k <> i -> pos_ok l k) /\ skip_ok l i.
Definition down_ok (l : list nat) (i : nat) : Prop :=
  (forall k, k <> i -> (k / 2)%nat <> i -> pos_ok l k) /\ skip_ok l i.

Lemma up_ok_swap l i p c :
  at_pos l i = Some c -> at_pos l (i / 2) = Some p -> less_than c p = true ->
  up_ok l i -> up_ok (swap_at l (i / 2) i) (i / 2).
Proof.
  intros Hi Hj Hlt [Hok Hskip]. pose proof (at_pos_lt _ _ _ Hj) as Bj.
  pose proof (less_asym _ _ Hlt) as Hge.
  assert (HS : forall k, at_pos (swap_at l (i / 2) i) k = if Nat.eqb k (i / 2) then Some c else if Nat.eqb k i then Some p else at_pos l k)
    by (intros k; apply at_pos_swap; done || lia).
  split.
  - intros k Hk x y. rewrite !HS, (proj2 (Nat.eqb_neq k (i / 2))) by done.
    destruct (Nat.eqb_spec k i) as [->|Hki].
    { rewrite Nat.eqb_refl. intros [= <-] [= <-]. done. }
    destruct (Nat.eqb_spec (k / 2) (i / 2)) as [E|Hkj].
    { intros Hx [= <-]. eapply less_negtrans; [|exact Hge]. apply (Hok k Hki x p Hx). by rewrite E. }
    destruct (Nat.eqb_spec (k / 2) i) as [E|].
    { intros Hx [= <-]. by eapply Hskip. }
    by apply Hok.
  - intros k x y Hk. rewrite !HS.
    rewrite (proj2 (Nat.eqb_neq (i / 2 / 2) (i / 2))), (proj2 (Nat.eqb_neq (i / 2 / 2) i)), (proj2 (Nat.eqb_neq k (i / 2))) by lia.
    assert (Hjy : at_pos l (i / 2 / 2) = Some y -> less_than p y = false) by (intros; eapply (Hok (i / 2)%nat); done || lia).
    destruct (Nat.eqb_spec k i) as [->|Hki].
    { intros [= <-]. done. }
    intros Hx Hy. eapply less_negtrans; [|by apply Hjy]. apply (Hok k Hki x p Hx). by rewrite Hk.
Qed.

Lemma up_ok_ordered l i : up_ok l i -> pos_ok l i -> ordered l.
Proof. intros [H _] Hi k. destruct (decide (k = i)) as [->|]; [done|by apply H]. Qed.

Lemma sift_up_spec fuel i x h l :
  repr h l -> at_pos l i = Some x -> up_ok l i -> (i < fuel)%nat ->
  exists h' l', sift_up less_than fuel x h = Ret h' /\ repr h' l' /\ ordered l' /\ l' ≡ₚ l.
Proof.
  revert i h l. induction fuel as [|fuel IH]; intros i h l R Hi Hup Hf; [lia|].
  cbn [sift_up]. rewrite (load_some _ _ _ (repr_nodes _ _ R _ _ Hi)). cbn [mbind outcome_bind node_at n_parent].
  destruct (at_pos l (i / 2)) as [p|] eqn:Hj.
  2:{ exists h, l. split_and!; try done. apply (up_ok_ordered _ i Hup). intros ? y _ H. congruence. }
  destruct (less_than x p) eqn:Hlt.
  2:{ exists h, l. split_and!; try done. apply (up_ok_ordered _ i Hup). intros ? y H1 H2. congruence. }
  pose proof (at_pos_lt _ _ _ Hj).
  destruct (swap_repr _ _ _ _ _ R Hi Hj) as (h1 & -> & R1 & _). cbn [mbind outcome_bind].
  destruct (IH (i / 2)%nat h1 (swap_at l (i / 2) i)) as (h' & l' & Hrun & R' & Ho & HP);
    [done| |by eapply up_ok_swap|lia|].
  { rewrite (at_pos_swap _ _ _ _ _ _ Hj Hi) by lia. by rewrite Nat.eqb_refl. }
  exists h', l'. split_and!; try done. rewrite HP. eapply swap_at_perm; [done..|lia].
Qed.


Lemma down_ok_swap l s p c :
  at_pos l s = Some c -> at_pos l (s / 2) = Some p -> less_than c p = true ->
  (forall k x, (k / 2 = s / 2)%nat -> at_pos l k = Some x -> less_than x c = false) ->
  down_ok l (s / 2) -> down_ok (swap_at l (s / 2) s) s.
Proof.
  intros Hs Hj Hlt Hmin [Hok Hskip]. pose proof (at_pos_lt _ _ _ Hj) as Bj.
  assert (HS : forall k, at_pos (swap_at l (s / 2) s) k = if Nat.eqb k (s / 2) then Some c else if Nat.eqb k s then Some p else at_pos l k)
    by (intros k; apply at_pos_swap; done || lia).
  split.
  - intros k Hk Hk2 x y. rewrite !HS, (proj2 (Nat.eqb_neq k s)), (proj2 (Nat.eqb_neq (k / 2) s)) by done.
    destruct (Nat.eqb_spec k (s / 2)) as [->|Hkj].
    { rewrite (proj2 (Nat.eqb_neq (s / 2 / 2) (s / 2))) by lia. intros [= <-]. by apply (Hskip s). }
    destruct (Nat.eqb_spec (k / 2) (s / 2)) as [E|].
    { intros Hx [= <-]. by eapply Hmin. }
    by apply Hok.
  - intros k x y Hk. rewrite !HS, Nat.eqb_refl, (proj2 (Nat.eqb_neq k s)), (proj2 (Nat.eqb_neq k (s / 2))) by lia.
    intros Hx [= <-]. eapply (Hok k); [lia..|done|by rewrite Hk].
Qed.

Lemma down_ok_up l i c :
  at_pos l i = Some c -> (forall k x, (k / 2 = i)%nat -> at_pos l k = Some x -> less_than x c = false) ->
  down_ok l i -> up_ok l i.
Proof.
  intros Hi Hc [Hok Hskip]. split; [|done]. intros k Hk. destruct (decide (k / 2 = i)%nat) as [E|]; [|by apply Hok].
  intros x y Hx Hy. rewrite E, Hi in Hy. simplify_eq. by eapply Hc.
Qed.

(** [pick_smallest] returns the node when no child is less, and otherwise the least child. *)
Lemma pick_smallest_spec l i c :
  NoDup l -> at_pos l i = Some c ->
  let s := pick_smallest less_than c (node_at l i) in
  (s = c /\ forall k x, (k / 2 = i)%nat -> at_pos l k = Some x -> less_than x c = false) \/
  (s <> c /\ exists k, (k / 2 = i)%nat /\ at_pos l k = Some s /\ less_than s c = true /\
     forall k' x, (k' / 2 = i)%nat -> at_pos l k' = Some x -> less_than x s = false).
Proof.
  intros Hnd Hi. pose proof (at_pos_lt _ _ _ Hi) as Bi. unfold pick_smallest. cbn [node_at n_left n_right].
  assert (Hirr : forall x, less_than x x = false).
  { intros x. destruct (less_than x x) eqn:E; [|done]. pose proof (less_asym _ _ E). congruence. }
  assert (Hne : forall k x, (k / 2 = i)%nat -> at_pos l k = Some x -> x <> c).
  { intros k x Hk Hx ->. pose proof (at_pos_inj _ _ _ _ Hnd Hi Hx). lia. }
  assert (Hcases : forall s, (forall x, at_pos l (2 * i) = Some x -> less_than x s = false) ->
    (forall x, at_pos l (2 * i + 1) = Some x -> less_than x s = false) ->
    forall k x, (k / 2 = i)%nat -> at_pos l k = Some x -> less_than x s = false).
  { intros s H1 H2 k x Hk Hx. destruct (decide (k = 2 * i)%nat) as [->|]; [by apply H1|].
    assert (k = 2 * i + 1)%nat as -> by lia. by apply H2. }
  assert (E0 : (2 * i / 2 = i)%nat) by lia. assert (E1 : ((2 * i + 1) / 2 = i)%nat) by lia.
  destruct (at_pos l (2 * i)) as [a|] eqn:Ha, (at_pos l (2 * i + 1)) as [b|] eqn:Hb.
  - destruct (less_than a c) eqn:Lac.
    + destruct (less_than b a) eqn:Lba; right; (split; [by eauto|]).
      * exists (2 * i + 1)%nat. split_and!; try done.
        { destruct (less_than b c) eqn:Lbc; [done|]. rewrite (less_negtrans b c a) in Lba; [done|done|].
          by apply less_asym. }
        apply Hcases; intros x ?; simplify_eq; [by apply less_asym|done].
      * exists (2 * i)%nat. split_and!; try done. apply Hcases; intros x ?; simplify_eq; done.
    + destruct (less_than b c) eqn:Lbc; [right|left]; (split; [by eauto|]).
      * exists (2 * i + 1)%nat. split_and!; try done. apply Hcases; intros x ?; simplify_eq; [|done].
        eapply less_negtrans; [exact Lac|]. by apply less_asym.
      * apply Hcases; intros x ?; simplify_eq; done.
  - destruct (less_than a c) eqn:Lac; [right|left]; (split; [by eauto|]).
    + exists (2 * i)%nat. split_and!; try done. apply Hcases; intros x ?; simplify_eq; done.
    + apply Hcases; intros x ?; simplify_eq; done.
  - rewrite (at_pos_none l (2 * i + 1)) in Hb; [done|].
    destruct (Nat.le_gt_cases (2 * i) (length l)); [|lia]. destruct (at_pos_some l (2 * i)); [lia|congruence].
  - left. split; [done|]. apply Hcases; intros x ?; simplify_eq.
Qed.

Lemma sift_down_spec fuel i x h l :
  repr h l -> at_pos l i = Some x -> down_ok l i -> (length l < i + fuel)%nat ->
  exists h' l' i', sift_down less_than fuel x h = Ret h' /\ repr h' l' /\ at_pos l' i' = Some x /\
    up_ok l' i' /\ l' ≡ₚ l.
Proof.
  revert i h l. induction fuel as [|fuel IH]; intros i h l R Hi Hd Hf.
  { pose proof (at_pos_lt _ _ _ Hi). lia. }
  cbn [sift_down]. rewrite (load_some _ _ _ (repr_nodes _ _ R _ _ Hi)). cbn [mbind outcome_bind].
  pose proof (at_pos_lt _ _ _ Hi) as Bi.
  destruct (pick_smallest_spec l i x (repr_nodup _ _ R) Hi) as [[-> Hc]|(Hne & k & <- & Hk & Hlt & Hmin)].
  { rewrite Nat.eqb_refl. exists h, l, i. split_and!; try done. by eapply down_ok_up. }
  rewrite (proj2 (Nat.eqb_neq _ _) Hne). set (s := pick_smallest _ _ _) in *.
  destruct (swap_repr _ _ _ _ _ R Hk Hi) as (h1 & -> & R1 & _). cbn [mbind outcome_bind].
  destruct (IH k h1 (swap_at l (k / 2) k)) as (h' & l' & i' & Hrun & R' & Hat & Hup & HP);
    [done| |by eapply down_ok_swap|rewrite length_swap_at; lia|].
  { rewrite (at_pos_swap _ _ _ _ _ _ Hi Hk) by lia. by rewrite (proj2 (Nat.eqb_neq k (k / 2))), Nat.eqb_refl by lia. }
  exists h', l', i'. split_and!; try done. rewrite HP. eapply swap_at_perm; [done..|lia].
Qed.


Lemma walk_to h l n :
  repr h l -> (1 <= n <= S (length l))%nat -> Z.of_nat n < 2 ^ 32 ->
  let '(k, path) := calc_path 32 (Z.of_nat n) 0 0 in
  walk h k path AtMin AtMin = Ret (slot_at l (n / 2), slot_at l n).
Proof. intros R Hn Hlt. pose proof (walk_calc h l 32 n 0 0 R Hn) as H. apply H; cbn; lia. Qed.

Lemma ordered_append l x : ordered l -> up_ok (l ++ [x]) (S (length l)).
Proof.
  intros Ho. split.
  - intros k Hk a b. rewrite !at_pos_app, (proj2 (Nat.eqb_neq k _)) by done. intros Ha.
    pose proof (at_pos_lt _ _ _ Ha). rewrite (proj2 (Nat.eqb_neq (k / 2) _)) by lia. by apply Ho.
  - intros k a b Hk. rewrite at_pos_app, (proj2 (Nat.eqb_neq k _)) by lia.
    by rewrite at_pos_none by lia.
Qed.

Lemma ordered_init l : ordered l -> ordered (take (pred (length l)) l).
Proof. intros Ho k x y. rewrite !at_pos_init. repeat case_match; try done. apply Ho. Qed.

Lemma ordered_replace l i node child :
  at_pos l i = Some node -> ordered l -> down_ok (<[pred i := child]> l) i.
Proof.
  intros Hi Ho. pose proof (at_pos_lt _ _ _ Hi) as Bi. split.
  - intros k Hk Hk2 x y. rewrite !at_pos_insert, (proj2 (Nat.eqb_neq k i)), (proj2 (Nat.eqb_neq (k / 2) i)) by done.
    apply Ho.
  - intros k x y Hk. rewrite !at_pos_insert, (proj2 (Nat.eqb_neq k i)), (proj2 (Nat.eqb_neq (i / 2) i)) by (done || lia).
    intros Hx Hy. eapply less_negtrans; [eapply (Ho k); [done|by rewrite Hk]|]. by eapply (Ho i).
Qed.

Lemma heap_insert_spec x h l :
  repr h l -> ordered l -> x ∉ l -> Z.of_nat (length l) + 1 < 2 ^ 32 ->
  exists h' l', heap_insert less_than x h = Ret h' /\ repr h' l' /\ ordered l' /\ l' ≡ₚ x :: l.
Proof.
  intros R Ho Hx Hlen. unfold heap_insert.
  set (h0 := with_nodes h _).
  assert (R0 : repr h0 l).
  { destruct R as [R1 R2 R3 R4]. constructor; try done. intros i y Hy. cbn.
    rewrite lookup_insert_ne; [by apply R4|]. intros ->. by apply at_pos_elem in Hy. }
  replace (wrap 32 (1 + h_nelts h0)) with (Z.of_nat (S (length l))).
  2:{ rewrite wrap_small; [|unfold uint_ok]; rewrite (repr_nelts _ _ R0); lia. }
  pose proof (walk_to h0 l (S (length l)) R0 ltac:(lia) ltac:(lia)) as Hw.
  destruct (calc_path _ _ _ _) as [k path]. rewrite Hw. cbn [mbind outcome_bind].
  assert (Hpv : slot_get h0 (slot_at l (S (length l) / 2)) = Ret (at_pos l (S (length l) / 2))).
  { destruct l as [|a l']; [cbn; by rewrite (repr_min _ _ R)|]. apply slot_get_at; [done|cbn [length]; lia]. }
  rewrite Hpv. cbn [mbind outcome_bind].
  assert (Hl0 : h_nodes h0 !! x = Some (mkNode None None None)) by apply lookup_insert_eq.
  rewrite (update_alter _ _ _ _ Hl0). cbn [mbind outcome_bind]. set (h1 := with_nodes h0 _).
  assert (R1 : repr h1 l).
  { destruct R0 as [R1 R2 R3 R4]. constructor; try done. intros i y Hy. cbn [h1 with_nodes h_nodes].
    rewrite lookup_alter_ne; [by apply R4|]. intros ->. by apply at_pos_elem in Hy. }
  destruct (append_repr h1 l x R1 Hx) as (h2 & -> & R2 & Hn2).
  { cbn [h1 with_nodes h_nodes]. by rewrite lookup_alter_eq, Hl0. }
  cbn [mbind outcome_bind]. rewrite Hn2, wrap_small.
  2:{ unfold uint_ok. rewrite (repr_nelts _ _ R1). lia. }
  destruct (sift_up_spec (S (Z.to_nat (h_nelts (with_nelts h2 (h_nelts h1 + 1))))) (S (length l)) x _ _ R2) as (h' & l' & Hr & R' & Ho' & HP).
  - rewrite at_pos_app. by rewrite Nat.eqb_refl.
  - by apply ordered_append.
  - cbn [h_nelts with_nelts]. rewrite (repr_nelts _ _ R1). lia.
  - exists h', l'. split_and!; try done. rewrite HP. by rewrite Permutation_app_comm.
Qed.

Lemma take_init_perm l n child :
  length l = S n -> at_pos l (S n) = Some child -> l ≡ₚ child :: take n l.
Proof.
  intros Hl Hc. cbn in Hc. rewrite <- (take_drop n l) at 1. rewrite (drop_S l child n) by done.
  rewrite (drop_ge l) by lia. by rewrite Permutation_app_comm.
Qed.

Lemma insert_perm l i node child :
  at_pos l i = Some node -> child :: l ≡ₚ node :: <[pred i := child]> l.
Proof.
  intros Hi. destruct i as [|i]; [done|]. cbn in *. rewrite (insert_take_drop l i child) by (by eapply lookup_lt_Some).
  rewrite <- (take_drop_middle l i node Hi) at 1. solve_Permutation.
Qed.

Lemma heap_remove_spec x h l :
  repr h l -> ordered l -> x ∈ l -> Z.of_nat (length l) < 2 ^ 32 ->
  exists h' l', heap_remove less_than x h = Ret h' /\ repr h' l' /\ ordered l' /\ l ≡ₚ x :: l'.
Proof.
  intros R Ho Hx Hlen. unfold heap_remove.
  assert (Hne : l <> []) by (by intros ->; apply not_elem_of_nil in Hx).
  assert (Hpos : (1 <= length l)%nat) by (destruct l; [done|cbn; lia]).
  rewrite (proj2 (Z.eqb_neq (h_nelts h) 0)) by (rewrite (repr_nelts _ _ R); lia).
  cbv zeta. replace (calc_path 32 (h_nelts h) 0 0) with (calc_path 32 (Z.of_nat (length l)) 0 0) by (by rewrite (repr_nelts _ _ R)).
  pose proof (walk_to h l (length l) R ltac:(lia) ltac:(lia)) as Hw.
  destruct (calc_path _ _ _ _) as [k path]. rewrite Hw. cbn [mbind outcome_bind].
  assert (Hget : slot_get (with_nelts h (h_nelts h - 1)) (slot_at l (length l)) = Ret (at_pos l (length l)))
    by (rewrite <- (slot_get_at h l (length l) R) by lia; done).
  rewrite Hget. destruct (at_pos_some l (length l)) as [child Hc]; [lia|]. rewrite Hc.
  destruct (clear_repr h l R Hne) as (h1 & -> & R1 & Hn1 & Hs1). cbn [mbind outcome_bind].
  set (l1 := take (pred (length l)) l) in *.
  assert (HP1 : l ≡ₚ child :: l1) by (apply take_init_perm; [lia|by replace (S (pred (length l))) with (length l) by lia]).
  pose proof (ordered_init l Ho) as Ho1. fold l1 in Ho1.
  destruct (Nat.eqb_spec child x) as [->|Hcx].
  { exists h1, l1. split_and!; try done. case_bool_decide as Hm; [|done].
    exfalso. pose proof (repr_nodup _ _ R) as Hnd. rewrite HP1 in Hnd. apply list.NoDup_cons in Hnd as [Hn _].
    rewrite (repr_min _ _ R1) in Hm. by apply at_pos_elem in Hm. }
  assert (Hc1 : child ∉ l1) by (pose proof (repr_nodup _ _ R) as Hnd; rewrite HP1 in Hnd; by apply list.NoDup_cons in Hnd as [Hn _]).
  assert (Hx1 : x ∈ l1) by (rewrite HP1 in Hx; by apply elem_of_cons in Hx as [->|]).
  destruct (elem_at_pos _ _ Hx1) as [i Hi].
  destruct (replace_repr h1 l1 i x child R1 Hi Hc1) as (h2 & -> & R2).
  { apply Hs1. by eapply repr_is_Some. }
  cbn [mbind outcome_bind]. pose proof (at_pos_lt _ _ _ Hi) as Bi.
  assert (Hl1 : length l1 = pred (length l)) by (unfold l1; rewrite length_take; lia).
  destruct (sift_down_spec (S (Z.to_nat (h_nelts h))) i child h2 _ R2) as (h3 & l3 & i3 & -> & R3 & Hi3 & Hup & HP3).
  { rewrite at_pos_insert, Nat.eqb_refl by done. done. }
  { by eapply ordered_replace. }
  { rewrite length_insert, (repr_nelts _ _ R). lia. }
  cbn [mbind outcome_bind].
  destruct (sift_up_spec (S (Z.to_nat (h_nelts h))) i3 child h3 l3 R3 Hi3 Hup) as (h4 & l4 & -> & R4 & Ho4 & HP4).
  { apply at_pos_lt in Hi3. rewrite HP3, length_insert in Hi3. rewrite (repr_nelts _ _ R). lia. }
  exists h4, l4. split_and!; try done. rewrite HP4, HP3, HP1. by apply insert_perm.
Qed.

(** The root is a least element. *)
Lemma ordered_min l m : ordered l -> at_pos l 1 = Some m -> forall i x, at_pos l i = Some x -> less_than x m = false.
Proof.
  intros Ho Hm i. induction (lt_wf i) as [i _ IH]. intros x Hx.
  pose proof (at_pos_lt _ _ _ Hx) as B. destruct (decide (i = 1)%nat) as [->|].
  - simplify_eq. destruct (less_than m m) eqn:E; [|done]. pose proof (less_asym _ _ E). congruence.
  - destruct (at_pos_some l (i / 2)) as [p Hp]; [lia|].
    eapply less_negtrans; [by eapply (Ho i)|]. eapply (IH (i / 2)%nat); [lia|done].
Qed.


(** ** The heap as a priority queue *)

(** The heap is a well-formed ordered tree whose nodes are exactly the set. *)
Definition heap_ok (h : heap) (S : gset nat) : Prop :=
  exists l, repr h l /\ ordered l /\ list_to_set l = S.

Inductive heap_op := OpInsert (x : nat) | OpRemove (x : nat) | OpDequeue.

Definition heap_do (op : heap_op) (h : heap) : outcome heap :=
  match op with
  | OpInsert x => heap_insert less_than x h
  | OpRemove x => heap_remove less_than x h
  | OpDequeue => heap_dequeue less_than h
  end.

(** What the caller promises: a node is inserted when it is not in the heap, and removed when it is. *)
Definition op_legal (S : gset nat) (op : heap_op) : Prop :=
  match op with OpInsert x => x ∉ S | OpRemove x => x ∈ S | OpDequeue => True end.

Definition is_least (S : gset nat) (m : nat) : Prop := m ∈ S /\ forall x, x ∈ S -> less_than x m = false.

Inductive pq_step : gset nat -> heap_op -> gset nat -> Prop :=
| PInsert S x : pq_step S (OpInsert x) ({[x]} ∪ S)
| PRemove S x : pq_step S (OpRemove x) (S ∖ {[x]})
| PDequeueEmpty : pq_step ∅ OpDequeue ∅
| PDequeue S m : is_least S m -> pq_step S OpDequeue (S ∖ {[m]}).

Lemma heap_ok_init nodes : heap_ok (heap_init nodes) ∅.
Proof.
  exists []. split_and!; [|by intros [|k] x y; [done|rewrite at_pos_none by (cbn; lia)]|done].
  constructor; cbn; [constructor|done|done|]. intros i x H%at_pos_elem. by apply not_elem_of_nil in H.
Qed.

Lemma heap_ok_size h (S : gset nat) l : repr h l -> list_to_set l = S -> length l = size S.
Proof. intros R <-. symmetry. apply size_list_to_set. exact (repr_nodup _ _ R). Qed.

Lemma heap_min_least h S :
  heap_ok h S -> match heap_min h with None => S = ∅ | Some m => is_least S m end.
Proof.
  intros (l & R & Ho & <-). unfold heap_min. rewrite (repr_min _ _ R).
  destruct (at_pos l 1) as [m|] eqn:Hm.
  - split; [rewrite elem_of_list_to_set; by eapply at_pos_elem|].
    intros x Hx. rewrite elem_of_list_to_set in Hx. apply elem_at_pos in Hx as [i Hi]. by eapply ordered_min.
  - destruct l; [done|]. done.
Qed.

Lemma heap_insert_ok h S x :
  heap_ok h S -> x ∉ S -> Z.of_nat (size S) + 1 < 2 ^ 32 ->
  exists h', heap_insert less_than x h = Ret h' /\ heap_ok h' ({[x]} ∪ S).
Proof.
  intros (l & R & Ho & HS) Hx Hsz. rewrite <- (heap_ok_size _ _ _ R HS) in Hsz.
  destruct (heap_insert_spec x h l R Ho) as (h' & l' & Hr & R' & Ho' & HP); [set_solver|done|].
  exists h'. split; [done|]. exists l'. split_and!; try done. rewrite HP. set_solver.
Qed.

Lemma heap_remove_ok h S x :
  heap_ok h S -> x ∈ S -> Z.of_nat (size S) < 2 ^ 32 ->
  exists h', heap_remove less_than x h = Ret h' /\ heap_ok h' (S ∖ {[x]}).
Proof.
  intros (l & R & Ho & HS) Hx Hsz. rewrite <- (heap_ok_size _ _ _ R HS) in Hsz.
  destruct (heap_remove_spec x h l R Ho) as (h' & l' & Hr & R' & Ho' & HP); [set_solver|done|].
  exists h'. split; [done|]. exists l'. split_and!; try done.
  pose proof (repr_nodup _ _ R) as Hnd. rewrite HP in Hnd. apply list.NoDup_cons in Hnd as [Hn _].
  rewrite <- HS, HP. set_solver.
Qed.

(** C9. The pointer heap of libuv is a priority queue. From [heap_init] on, every insertion of
    a node that is not in the heap, every removal of one that is and every dequeue returns
    (the walk follows no null pointer and the loops end), leaves a complete tree whose parent
    and child links agree and are in order, and has exactly the effect on the set of nodes
    that its name says; [heap_min] is a least node, or null when the heap is empty. *)
Theorem heap_refines_pq :
  (forall nodes, heap_ok (heap_init nodes) ∅) /\
  (forall h S, heap_ok h S -> match heap_min h with None => S = ∅ | Some m => is_least S m end) /\
  (forall h S op, heap_ok h S -> op_legal S op -> Z.of_nat (size S) + 1 < 2 ^ 32 ->
     exists h' S', heap_do op h = Ret h' /\ pq_step S op S' /\ heap_ok h' S').
Proof.
  split; [exact heap_ok_init|]. split; [exact heap_min_least|]. intros h S op Hok Hop Hsz.
  destruct op as [x|x|]; cbn in Hop |- *.
  - destruct (heap_insert_ok h S x Hok Hop Hsz) as (h' & Hr & Hok'). eauto using PInsert.
  - destruct (heap_remove_ok h S x Hok Hop ltac:(lia)) as (h' & Hr & Hok'). eauto using PRemove.
  - pose proof (heap_min_least _ _ Hok) as Hm. unfold heap_dequeue, heap_min in *. destruct (h_min h) as [m|].
    + destruct (heap_remove_ok h S m Hok (proj1 Hm) ltac:(lia)) as (h' & Hr & Hok'). exists h', (S ∖ {[m]}). eauto using PDequeue, conj.
    + subst S. eauto using PDequeueEmpty.
Qed.

End Order.

#[export] Instance ltb_strict_weak : StrictWeak Nat.ltb.
Proof. split; intros *; rewrite ?Nat.ltb_lt, ?Nat.ltb_ge; lia. Qed.

Lemma heap_refines_pq_witness :
  exists h' S', heap_do Nat.ltb (OpInsert 7) (heap_init ∅) = Ret h' /\ pq_step Nat.ltb ∅ (OpInsert 7) S' /\ heap_ok Nat.ltb h' S'.
Proof.
  destruct (heap_refines_pq Nat.ltb) as (Hi & _ & Hs). apply (Hs (heap_init ∅) ∅ (OpInsert 7)).
  - apply Hi.
  - cbn. apply not_elem_of_empty.
  - reflexivity.
Defined.
