(* ===== verification/Timers.v ===== *)
(** Script timers: src/builtins/timer.cc on deps/libuv/src/timer.c and the closing of
    handles in deps/libuv/src/unix/core.c.

    Handles are the numbers of a store; an address is never given out twice, so the use of a
    freed handle shows as [UB]. What a script function does when it is called is a parameter:
    the calls of setTimeout, setInterval and clearInterval it makes, as a function of the
    state. The intrusive ready queue of [uv__run_timers] is a list. *)

From Stdlib Require Import ZifyNat Sorted.
From S2P Require Import Prelude Heap.

(** ** The state *)

(** The two functions that timer.cc passes to [uv_timer_start]. *)
Inductive timer_cb := timer_libuv_cb | set_interval_libuv_cb.
#[export] Instance timer_cb_eq_dec : EqDecision timer_cb.
Proof. solve_decision. Defined.

(** [uv_timer_t] with its [Libuv_Cb]; [t_data] is the script function. *)
Record uv_timer_t := mkTimer {
  t_cb : option timer_cb; t_timeout : Z; t_repeat : Z; t_start_id : Z;
  t_active : bool; t_closing : bool; t_closed : bool; t_data : nat }.

(** A call of a timer callback: the handle, its callback, when it was due and the loop's time. *)
Record fire := mkFire { f_handle : nat; f_cb : timer_cb; f_due : Z; f_now : Z }.

(** The loop's timer fields and the script's [TimerContext]. [l_fired] and [l_freed] record
    the callbacks made and the handles given back to [free]. *)
Record uv_loop_t := mkLoop {
  l_time : Z; l_counter : Z; l_active_handles : Z;
  l_heap : heap; l_timers : gmap nat uv_timer_t;
  l_ready : list nat; l_closing : list nat; l_next : nat;
  l_registered_cb : list nat; l_interval_cb : gmap Z (option nat);
  l_fired : list fire; l_freed : list nat }.

Definition loop_init (time : Z) : uv_loop_t := mkLoop time 0 0 (heap_init ∅) ∅ [] [] 0 [] ∅ [] [].

Definition set_timers (m : gmap nat uv_timer_t) (l : uv_loop_t) : uv_loop_t :=
  mkLoop (l_time l) (l_counter l) (l_active_handles l) (l_heap l) m (l_ready l) (l_closing l) (l_next l)
    (l_registered_cb l) (l_interval_cb l) (l_fired l) (l_freed l).
Definition set_heap (h : heap) (l : uv_loop_t) : uv_loop_t :=
  mkLoop (l_time l) (l_counter l) (l_active_handles l) h (l_timers l) (l_ready l) (l_closing l) (l_next l)
    (l_registered_cb l) (l_interval_cb l) (l_fired l) (l_freed l).
Definition set_active_handles (n : Z) (l : uv_loop_t) : uv_loop_t :=
  mkLoop (l_time l) (l_counter l) n (l_heap l) (l_timers l) (l_ready l) (l_closing l) (l_next l)
    (l_registered_cb l) (l_interval_cb l) (l_fired l) (l_freed l).
Definition set_counter (n : Z) (l : uv_loop_t) : uv_loop_t :=
  mkLoop (l_time l) n (l_active_handles l) (l_heap l) (l_timers l) (l_ready l) (l_closing l) (l_next l)
    (l_registered_cb l) (l_interval_cb l) (l_fired l) (l_freed l).
Definition set_ready (q : list nat) (l : uv_loop_t) : uv_loop_t :=
  mkLoop (l_time l) (l_counter l) (l_active_handles l) (l_heap l) (l_timers l) q (l_closing l) (l_next l)
    (l_registered_cb l) (l_interval_cb l) (l_fired l) (l_freed l).
Definition set_closing (q : list nat) (l : uv_loop_t) : uv_loop_t :=
  mkLoop (l_time l) (l_counter l) (l_active_handles l) (l_heap l) (l_timers l) (l_ready l) q (l_next l)
    (l_registered_cb l) (l_interval_cb l) (l_fired l) (l_freed l).
Definition set_context (cbs : list nat) (m : gmap Z (option nat)) (l : uv_loop_t) : uv_loop_t :=
  mkLoop (l_time l) (l_counter l) (l_active_handles l) (l_heap l) (l_timers l) (l_ready l) (l_closing l) (l_next l)
    cbs m (l_fired l) (l_freed l).
Definition set_time (t : Z) (l : uv_loop_t) : uv_loop_t :=
  mkLoop t (l_counter l) (l_active_handles l) (l_heap l) (l_timers l) (l_ready l) (l_closing l) (l_next l)
    (l_registered_cb l) (l_interval_cb l) (l_fired l) (l_freed l).
Definition log_fire (f : fire) (l : uv_loop_t) : uv_loop_t :=
  mkLoop (l_time l) (l_counter l) (l_active_handles l) (l_heap l) (l_timers l) (l_ready l) (l_closing l) (l_next l)
    (l_registered_cb l) (l_interval_cb l) (l_fired l ++ [f]) (l_freed l).

(** [*handle]. *)
Definition deref (l : uv_loop_t) (x : nat) : outcome uv_timer_t :=
  match l_timers l !! x with Some t => Ret t | None => UB end.
Definition put (x : nat) (t : uv_timer_t) (l : uv_loop_t) : uv_loop_t := set_timers (<[x := t]> (l_timers l)) l.

Definition set_active (b : bool) (t : uv_timer_t) : uv_timer_t :=
  mkTimer (t_cb t) (t_timeout t) (t_repeat t) (t_start_id t) b (t_closing t) (t_closed t) (t_data t).

(** ** timer.c *)

Definition timer_key (m : gmap nat uv_timer_t) (x : nat) : Z * Z :=
  match m !! x with Some t => (t_timeout t, t_start_id t) | None => (0, 0) end.

Definition timer_less_than (m : gmap nat uv_timer_t) (a b : nat) : bool :=
  let '(ta, ia) := timer_key m a in
  let '(tb, ib) := timer_key m b in
  if ta <? tb then true else if tb <? ta then false else ia <? ib.

(** [malloc] of a handle and [uv_timer_init], with the handle's [data]. *)
Definition uv_timer_init (f : nat) (l : uv_loop_t) : nat * uv_loop_t :=
  let x := l_next l in
  (x, mkLoop (l_time l) (l_counter l) (l_active_handles l) (l_heap l)
        (<[x := mkTimer None 0 0 0 false false false f]> (l_timers l))
        (l_ready l) (l_closing l) (S x) (l_registered_cb l) (l_interval_cb l) (l_fired l) (l_freed l)).

Definition uv_timer_stop (x : nat) (l : uv_loop_t) : outcome uv_loop_t :=
  t ← deref l x;
  if t_active t then
    h ← heap_remove (timer_less_than (l_timers l)) x (l_heap l);
    Ret (set_active_handles (wrap 32 (l_active_handles l - 1)) (put x (set_active false t) (set_heap h l)))
  else Ret (set_ready (filter (fun y => y <> x) (l_ready l)) l).

Definition UV_EINVAL : Z := -22.

Definition uv_timer_start (x : nat) (cb : option timer_cb) (timeout repeat : Z) (l : uv_loop_t) : outcome (Z * uv_loop_t) :=
  t ← deref l x;
  if t_closing t || t_closed t || bool_decide (cb = None) then Ret (UV_EINVAL, l)
  else
    l ← uv_timer_stop x l;
    t ← deref l x;
    let clamped_timeout := wrap 64 (l_time l + timeout) in
    let clamped_timeout := if clamped_timeout <? timeout then 2 ^ 64 - 1 else clamped_timeout in
    let t := mkTimer cb clamped_timeout repeat (l_counter l) (t_active t) (t_closing t) (t_closed t) (t_data t) in
    let l := set_counter (wrap 64 (l_counter l + 1)) (put x t l) in
    h ← heap_insert (timer_less_than (l_timers l)) x (l_heap l);
    Ret (0, set_active_handles (wrap 32 (l_active_handles l + 1)) (put x (set_active true t) (set_heap h l))).

Definition uv_timer_again (x : nat) (l : uv_loop_t) : outcome (Z * uv_loop_t) :=
  t ← deref l x;
  match t_cb t with
  | None => Ret (UV_EINVAL, l)
  | Some cb =>
      if t_repeat t =? 0 then Ret (0, l)
      else
        l ← uv_timer_stop x l;
        '(_, l) ← uv_timer_start x (Some cb) (t_repeat t) (t_repeat t) l;
        Ret (0, l)
  end.

Definition uv__next_timeout (l : uv_loop_t) : outcome Z :=
  match heap_min (l_heap l) with
  | None => Ret (-1)
  | Some x =>
      t ← deref l x;
      if t_timeout t <=? l_time l then Ret 0
      else
        let diff := wrap 64 (t_timeout t - l_time l) in
        Ret (if INT_MAX <? diff then INT_MAX else diff)
  end.

Definition uv_timer_get_due_in (x : nat) (l : uv_loop_t) : outcome Z :=
  t ← deref l x;
  if t_timeout t <=? l_time l then Ret 0 else Ret (wrap 64 (t_timeout t - l_time l)).

(** The first loop of [uv__run_timers]: the due timers move from the heap to the ready queue. *)
Fixpoint collect_due (fuel : nat) (l : uv_loop_t) : outcome uv_loop_t :=
  match fuel with
  | O => UB
  | S fuel' =>
      match heap_min (l_heap l) with
      | None => Ret l
      | Some x =>
          t ← deref l x;
          if l_time l <? t_timeout t then Ret l
          else
            l ← uv_timer_stop x l;
            collect_due fuel' (set_ready (l_ready l ++ [x]) l)
      end
  end.

(** ** core.c *)

Definition uv__make_close_pending (x : nat) (l : uv_loop_t) : outcome uv_loop_t :=
  t ← deref l x;
  if negb (t_closing t) || t_closed t then AssertFail
  else Ret (set_closing (x :: l_closing l) l).

(** [uv_close] on a timer; [uv__timer_close] is [uv_timer_stop]. *)
Definition uv_close (x : nat) (l : uv_loop_t) : outcome uv_loop_t :=
  t ← deref l x;
  if t_closing t || t_closed t then AssertFail
  else
    let t := mkTimer (t_cb t) (t_timeout t) (t_repeat t) (t_start_id t) (t_active t) true (t_closed t) (t_data t) in
    l ← uv_timer_stop x (put x t l);
    uv__make_close_pending x l.

(** The close callback: [free] of the handle, its node and its data. *)
Definition on_close (x : nat) (l : uv_loop_t) : uv_loop_t :=
  mkLoop (l_time l) (l_counter l) (l_active_handles l) (with_nodes (l_heap l) (delete x (h_nodes (l_heap l))))
    (delete x (l_timers l)) (l_ready l) (l_closing l) (l_next l) (l_registered_cb l) (l_interval_cb l)
    (l_fired l) (l_freed l ++ [x]).

(** [uv__finish_close] on a timer, which ends in the close callback. *)
Definition uv__finish_close (x : nat) (l : uv_loop_t) : outcome uv_loop_t :=
  t ← deref l x;
  if negb (t_closing t) || t_closed t then AssertFail else Ret (on_close x l).

Fixpoint finish_all (p : list nat) (l : uv_loop_t) : outcome uv_loop_t :=
  match p with
  | [] => Ret l
  | x :: q => l ← uv__finish_close x l; finish_all q l
  end.

Definition uv__run_closing_handles (l : uv_loop_t) : outcome uv_loop_t :=
  finish_all (l_closing l) (set_closing [] l).

(** [uv__loop_alive] for a loop that has only timers. *)
Definition uv__loop_alive (l : uv_loop_t) : bool :=
  (0 <? l_active_handles l) || negb (bool_decide (l_closing l = [])).

(** ** timer.cc *)

(** A call a script makes. [delay] is the number that [JS_ToInt32] gave; [id] is what
    [IdGenerator::generate] draws. *)
Inductive js_act :=
| SetTimeout (f : nat) (delay : Z)
| SetInterval (f : nat) (delay id : Z)
| ClearInterval (id : Z).

(** The [int32_t] delay converted to [uint64_t]. *)
Definition delay_u64 (delay : Z) : Z := wrap 64 delay.

Definition SetTimeOutFunc (f : nat) (delay : Z) (l : uv_loop_t) : outcome uv_loop_t :=
  let l := set_context (l_registered_cb l ++ [f]) (l_interval_cb l) l in
  let '(x, l) := uv_timer_init f l in
  '(_, l) ← uv_timer_start x (Some timer_libuv_cb) (delay_u64 delay) 0 l;
  Ret l.

Definition SetIntervalFunc (f : nat) (delay id : Z) (l : uv_loop_t) : outcome uv_loop_t :=
  let l := set_context (l_registered_cb l ++ [f]) (l_interval_cb l) l in
  let '(x, l) := uv_timer_init f l in
  '(_, l) ← uv_timer_start x (Some set_interval_libuv_cb) (delay_u64 delay) (delay_u64 delay) l;
  Ret (set_context (l_registered_cb l) (<[id := Some x]> (l_interval_cb l)) l).

(** [operator[]] adds a null handle for an unknown id. *)
Definition clearIntervalFunc (id : Z) (l : uv_loop_t) : outcome uv_loop_t :=
  match l_interval_cb l !! id with
  | Some (Some x) => uv_close x l
  | _ => UB
  end.

Definition js_call (a : js_act) (l : uv_loop_t) : outcome uv_loop_t :=
  match a with
  | SetTimeout f delay => SetTimeOutFunc f delay l
  | SetInterval f delay id => SetIntervalFunc f delay id l
  | ClearInterval id => clearIntervalFunc id l
  end.

Fixpoint run_acts (acts : list js_act) (l : uv_loop_t) : outcome uv_loop_t :=
  match acts with
  | [] => Ret l
  | a :: acts => l ← js_call a l; run_acts acts l
  end.

Section Run.
(** What a script function does when it is called in a state. *)
Context (script : nat -> uv_loop_t -> list js_act).

(** [handle->timer_cb(handle)]. *)
Definition call_timer_cb (x : nat) (l : uv_loop_t) : outcome uv_loop_t :=
  t ← deref l x;
  match t_cb t with
  | None => UB
  | Some timer_libuv_cb => l ← run_acts (script (t_data t) l) l; uv_close x l
  | Some set_interval_libuv_cb => run_acts (script (t_data t) l) l
  end.

(** The second loop of [uv__run_timers]. *)
Fixpoint dispatch_ready (fuel : nat) (l : uv_loop_t) : outcome uv_loop_t :=
  match l_ready l with
  | [] => Ret l
  | x :: q =>
      match fuel with
      | O => UB
      | S fuel' =>
          t ← deref l x;
          let l := set_ready q l in
          let l := match t_cb t with Some cb => log_fire (mkFire x cb (t_timeout t) (l_time l)) l | None => l end in
          '(_, l) ← uv_timer_again x l;
          l ← call_timer_cb x l;
          dispatch_ready fuel' l
      end
  end.

Definition uv__run_timers (l : uv_loop_t) : outcome uv_loop_t :=
  l ← collect_due (S (Z.to_nat (h_nelts (l_heap l)))) (set_ready [] l);
  dispatch_ready (length (l_ready l)) l.

(** What the loop does: run script code outside the timers, [uv__update_time], run the due
    timers, run the close callbacks. *)
Inductive loop_event := EvScript (acts : list js_act) | EvTime (now : Z) | EvTimers | EvClosing.

Definition loop_do (e : loop_event) (l : uv_loop_t) : outcome uv_loop_t :=
  match e with
  | EvScript acts => run_acts acts l
  | EvTime now => Ret (set_time now l)
  | EvTimers => uv__run_timers l
  | EvClosing => uv__run_closing_handles l
  end.

Fixpoint loop_run (es : list loop_event) (l : uv_loop_t) : outcome uv_loop_t :=
  match es with
  | [] => Ret l
  | e :: es => l ← loop_do e l; loop_run es l
  end.
End Run.

(** ** Invariant *)

#[export] Instance timer_less_strict m : StrictWeak (timer_less_than m).
Proof.
  unfold timer_less_than. split; intros *; repeat case_match; intros; simplify_eq; reflect_bools; try done; try lia.
Qed.

Definition active_set (l : uv_loop_t) : gset nat := dom (filter (fun p => t_active (snd p) = true) (l_timers l)).

Lemma elem_active_set l x :
  x ∈ active_set l <-> exists t, l_timers l !! x = Some t /\ t_active t = true.
Proof.
  unfold active_set. rewrite elem_of_dom. split.
  - intros [t [H1 H2]%map_lookup_filter_Some]. eauto.
  - intros (t & H1 & H2). exists t. by apply map_lookup_filter_Some.
Qed.

Record tinv (l : uv_loop_t) : Prop := {
  ti_heap : heap_ok (timer_less_than (l_timers l)) (l_heap l) (active_set l);
  ti_active : l_active_handles l = Z.of_nat (size (active_set l));
  ti_size : Z.of_nat (size (l_timers l)) + 1 < 2 ^ 32;
  ti_time : 0 <= l_time l < 2 ^ 64;
  ti_ready_nodup : NoDup (l_ready l);
  ti_ready : forall x, x ∈ l_ready l -> exists t, l_timers l !! x = Some t /\
    t_active t = false /\ t_closing t = false /\ is_Some (t_cb t) /\ t_timeout t <= l_time l;
  ti_closing_nodup : NoDup (l_closing l);
  ti_closing : forall x, x ∈ l_closing l <-> exists t, l_timers l !! x = Some t /\ t_closing t = true;
  ti_timer : forall x t, l_timers l !! x = Some t ->
    is_Some (t_cb t) /\ t_closed t = false /\ (t_closing t = true -> t_active t = false) /\
    0 <= t_timeout t < 2 ^ 64 /\ 0 <= t_repeat t < 2 ^ 64 /\ (t_cb t = Some timer_libuv_cb -> t_repeat t = 0);
  ti_intervals : forall id x t, l_interval_cb l !! id = Some (Some x) -> l_timers l !! x = Some t ->
    t_cb t = Some set_interval_libuv_cb;
  ti_interval_lt : forall id x, l_interval_cb l !! id = Some (Some x) -> (x < l_next l)%nat;
  ti_fresh : forall x, is_Some (l_timers l !! x) -> (x < l_next l)%nat;
  ti_freed_nodup : NoDup (l_freed l);
  ti_freed : forall x, x ∈ l_freed l -> l_timers l !! x = None /\ (x < l_next l)%nat }.

(** The heap only looks at the keys of its members and at their nodes. *)
Lemma heap_ok_ext less less' h S :
  (forall x y, x ∈ S -> y ∈ S -> less x y = less' x y) -> heap_ok less h S -> heap_ok less' h S.
Proof.
  intros He (l & R & Ho & <-). exists l. split_and!; try done. intros k x y Hx Hy.
  rewrite <- He; [by eapply Ho|..]; rewrite elem_of_list_to_set; by eapply at_pos_elem.
Qed.

Lemma heap_ok_delete less h S x :
  x ∉ S -> heap_ok less h S -> heap_ok less (with_nodes h (delete x (h_nodes h))) S.
Proof.
  intros Hx (l & R & Ho & HS). exists l. split_and!; try done. destruct R as [R1 R2 R3 R4]. constructor; try done.
  intros i y Hy. cbn. rewrite lookup_delete_ne; [by apply R4|]. intros ->. apply at_pos_elem in Hy. set_solver.
Qed.

Lemma timer_less_key m m' x y :
  timer_key m x = timer_key m' x -> timer_key m y = timer_key m' y -> timer_less_than m x y = timer_less_than m' x y.
Proof. unfold timer_less_than. by intros -> ->. Qed.

Lemma timer_key_ne m x y t : x <> y -> timer_key (<[x := t]> m) y = timer_key m y.
Proof. intros. unfold timer_key. by rewrite lookup_insert_ne. Qed.

Lemma active_set_put_out l m x t :
  l_timers l = <[x := t]> m -> t_active t = false ->
  active_set l = dom (filter (fun p => t_active (snd p) = true) m) ∖ {[x]}.
Proof.
  intros E Ht. apply set_eq. intros y. rewrite elem_active_set, E, elem_of_difference, elem_of_singleton, elem_of_dom.
  destruct (decide (y = x)) as [->|].
  - rewrite lookup_insert_eq. split; [intros (? & ? & ?); simplify_eq; congruence|tauto].
  - rewrite lookup_insert_ne by done. split.
    + intros (u & H1 & H2). split; [|done]. exists u. by apply map_lookup_filter_Some.
    + intros [[u [H1 H2]%map_lookup_filter_Some] _]. eauto.
Qed.

Lemma active_set_put_in l m x t :
  l_timers l = <[x := t]> m -> t_active t = true ->
  active_set l = {[x]} ∪ dom (filter (fun p => t_active (snd p) = true) m).
Proof.
  intros E Ht. apply set_eq. intros y. rewrite elem_active_set, E, elem_of_union, elem_of_singleton, elem_of_dom.
  destruct (decide (y = x)) as [->|].
  - rewrite lookup_insert_eq. split; [tauto|]. eauto.
  - rewrite lookup_insert_ne by done. split.
    + intros (u & H1 & H2). right. exists u. by apply map_lookup_filter_Some.
    + intros [?|[u [H1 H2]%map_lookup_filter_Some]]; [done|]. eauto.
Qed.

Lemma active_size l : (size (active_set l) <= size (l_timers l))%nat.
Proof.
  rewrite <- (size_dom (l_timers l)). apply subseteq_size. intros x. rewrite elem_active_set, elem_of_dom.
  intros (t & -> & _). eauto.
Qed.

(** The part of the invariant that the operations on the heap need. *)
Record tcore (l : uv_loop_t) : Prop := {
  tc_heap : heap_ok (timer_less_than (l_timers l)) (l_heap l) (active_set l);
  tc_active : l_active_handles l = Z.of_nat (size (active_set l));
  tc_size : Z.of_nat (size (l_timers l)) + 1 < 2 ^ 32;
  tc_ready : forall x t, x ∈ l_ready l -> l_timers l !! x = Some t -> t_active t = false }.

Lemma tinv_core l : tinv l -> tcore l.
Proof.
  intros I. constructor; [apply I..|]. intros x t Hx Ht. destruct (ti_ready _ I x Hx) as (t' & ? & ? & _). congruence.
Qed.

(** The fields that starting and stopping a timer leave alone. *)
Record frame (l l' : uv_loop_t) : Prop := {
  fr_time : l_time l' = l_time l; fr_closing : l_closing l' = l_closing l; fr_next : l_next l' = l_next l;
  fr_cbs : l_registered_cb l' = l_registered_cb l; fr_ints : l_interval_cb l' = l_interval_cb l;
  fr_fired : l_fired l' = l_fired l; fr_freed : l_freed l' = l_freed l }.

#[export] Instance frame_preorder : PreOrder frame.
Proof.
  split; [by intros l; constructor|]. intros a b c [] []. constructor; congruence.
Qed.

Lemma filter_ne_id (x : nat) (q : list nat) : x ∉ q -> filter (fun y => y <> x) q = q.
Proof.
  induction q as [|y q IH]; [done|]. rewrite not_elem_of_cons. intros [Hy Hq].
  rewrite filter_cons_True by done. by rewrite IH.
Qed.

Lemma key_set_active m x t b y : m !! x = Some t -> timer_key (<[x := set_active b t]> m) y = timer_key m y.
Proof.
  intros H. destruct (decide (x = y)) as [->|]; [|by apply timer_key_ne].
  unfold timer_key. by rewrite lookup_insert_eq, H.
Qed.

Lemma deref_some l x t : l_timers l !! x = Some t -> deref l x = Ret t.
Proof. unfold deref. by intros ->. Qed.

Lemma stop_spec x l t :
  tcore l -> l_timers l !! x = Some t ->
  exists l', uv_timer_stop x l = Ret l' /\ tcore l' /\ frame l l' /\ l_counter l' = l_counter l /\
    l_timers l' = <[x := set_active false t]> (l_timers l) /\
    l_ready l' = filter (fun y => y <> x) (l_ready l).
Proof.
  intros C Ht. unfold uv_timer_stop. rewrite (deref_some _ _ _ Ht). cbn [mbind outcome_bind].
  destruct (t_active t) eqn:Ha.
  - assert (Hx : x ∈ active_set l) by (rewrite elem_active_set; eauto).
    assert (Hr : x ∉ l_ready l) by (intros H; rewrite (tc_ready _ C x t H Ht) in Ha; done).
    pose proof (active_size l). pose proof (tc_size _ C).
    destruct (heap_remove_ok _ _ _ x (tc_heap _ C) Hx ltac:(lia)) as (h & -> & Hok). cbn [mbind outcome_bind].
    eexists. split; [done|].
    assert (EA : active_set (set_active_handles (wrap 32 (l_active_handles l - 1)) (put x (set_active false t) (set_heap h l))) = active_set l ∖ {[x]})
      by (by eapply (active_set_put_out _ (l_timers l))).
    assert (Hsz : size (active_set l) = S (size (active_set l ∖ {[x]}))).
    { rewrite size_difference, size_singleton by set_solver.
      assert (size (active_set l) <> 0)%nat; [|lia]. rewrite size_non_empty_iff. set_solver. }
    split_and!; [|by constructor|done|done|by rewrite filter_ne_id].
    constructor; rewrite ?EA; cbn [l_timers l_heap l_active_handles l_ready put set_timers set_active_handles set_heap].
    + eapply heap_ok_ext; [|exact Hok]. intros. symmetry. apply timer_less_key; by apply key_set_active.
    + rewrite wrap_small, (tc_active _ C); [lia|]. unfold uint_ok. rewrite (tc_active _ C). lia.
    + rewrite map_size_insert_Some; [done|by rewrite Ht].
    + intros y u Hy. destruct (decide (y = x)) as [->|]; [done|]. rewrite lookup_insert_ne by done. by apply C.
  - eexists. split; [done|].
    assert (ET : <[x := set_active false t]> (l_timers l) = l_timers l).
    { apply insert_id. rewrite Ht. f_equal. destruct t; cbn in *. by rewrite Ha. }
    split_and!; [|by constructor|done|by cbn; rewrite ET|done].
    destruct C as [C1 C2 C3 C4]. constructor; try done. cbn. intros y u [_ Hy]%list_elem_of_filter. by apply C4.
Qed.

(** [loop->time + timeout], clamped when it wraps. *)
Definition clamp (time timeout : Z) : Z :=
  if wrap 64 (time + timeout) <? timeout then 2 ^ 64 - 1 else wrap 64 (time + timeout).

Definition started (l : uv_loop_t) (t : uv_timer_t) (cb : timer_cb) (timeout repeat : Z) : uv_timer_t :=
  mkTimer (Some cb) (clamp (l_time l) timeout) repeat (l_counter l) true (t_closing t) (t_closed t) (t_data t).

Lemma start_spec x l t cb timeout repeat :
  tcore l -> l_timers l !! x = Some t -> t_closing t = false -> t_closed t = false ->
  exists l', uv_timer_start x (Some cb) timeout repeat l = Ret (0, l') /\ tcore l' /\ frame l l' /\
    l_timers l' = <[x := started l t cb timeout repeat]> (l_timers l) /\
    l_ready l' = filter (fun y => y <> x) (l_ready l).
Proof.
  intros C Ht Hc1 Hc2. unfold uv_timer_start. rewrite (deref_some _ _ _ Ht). cbn [mbind outcome_bind].
  rewrite Hc1, Hc2. cbn [orb]. rewrite bool_decide_false by done.
  destruct (stop_spec x l t C Ht) as (l1 & -> & C1 & F1 & K1 & T1 & R1). cbn [mbind outcome_bind].
  rewrite (deref_some l1 x (set_active false t)) by (by rewrite T1, lookup_insert_eq). cbn [mbind outcome_bind set_active t_active t_closing t_closed t_data].
  cbv zeta. rewrite (fr_time _ _ F1), K1, Hc1, Hc2. fold (clamp (l_time l) timeout).
  set (t1 := mkTimer (Some cb) (clamp (l_time l) timeout) repeat (l_counter l) false false false (t_data t)).
  cbn [l_timers put set_timers set_counter l_heap]. rewrite T1, insert_insert_eq.
  assert (HA1 : x ∉ active_set l1).
  { rewrite elem_active_set, T1, lookup_insert_eq. intros (? & ? & ?). by simplify_eq. }
  assert (Hok1 : heap_ok (timer_less_than (<[x := t1]> (l_timers l))) (l_heap l1) (active_set l1)).
  { eapply heap_ok_ext; [|exact (tc_heap _ C1)]. intros a b Ha Hb. rewrite T1.
    apply timer_less_key; rewrite !timer_key_ne; try done; by intros ->. }
  pose proof (active_size l1). pose proof (tc_size _ C1).
  destruct (heap_insert_ok _ _ _ x Hok1 HA1 ltac:(lia)) as (h & -> & Hok). cbn [mbind outcome_bind].
  eexists. split; [done|].
  match goal with |- tcore ?l' /\ _ => set (l2 := l') end.
  assert (ET : l_timers l2 = <[x := set_active true t1]> (l_timers l)) by (cbn; by rewrite T1, !insert_insert_eq).
  assert (EA : active_set l2 = {[x]} ∪ active_set l1).
  { rewrite (active_set_put_in l2 (l_timers l1) x (set_active true t1)); [done|by rewrite ET, T1, insert_insert_eq|done]. }
  split_and!; [| |by rewrite ET; unfold started; rewrite Hc1, Hc2|done].
  - constructor; rewrite ?EA.
    + rewrite ET. cbn [l2 l_heap put set_timers set_active_handles set_heap].
      eapply heap_ok_ext; [|exact Hok]. intros a b _ _.
      apply timer_less_key; destruct (decide (x = a)), (decide (x = b)); subst;
        rewrite ?timer_key_ne by done; unfold timer_key; by rewrite ?lookup_insert_eq.
    + cbn [l2 l_active_handles put set_timers set_active_handles set_heap set_counter].
      rewrite size_union, size_singleton by set_solver.
      rewrite wrap_small; rewrite (tc_active _ C1); [lia|]. unfold uint_ok. lia.
    + rewrite ET, map_size_insert_Some by (by rewrite Ht). exact (tc_size _ C).
    + rewrite ET. cbn [l2 l_ready put set_timers set_active_handles set_heap set_counter]. rewrite R1.
      intros y u [Hy Hyr]%list_elem_of_filter. rewrite lookup_insert_ne by done. by apply C.
  - etransitivity; [exact F1|]. by constructor.
Qed.

Definition timer_ok (t : uv_timer_t) : Prop :=
  is_Some (t_cb t) /\ t_closed t = false /\ (t_closing t = true -> t_active t = false) /\
  0 <= t_timeout t < 2 ^ 64 /\ 0 <= t_repeat t < 2 ^ 64 /\ (t_cb t = Some timer_libuv_cb -> t_repeat t = 0).

(** An operation that changes one handle, takes it off the ready queue and perhaps closes it. *)
Lemma tinv_update l l' x t' :
  tinv l -> tcore l' -> l_timers l' = <[x := t']> (l_timers l) ->
  l_ready l' = filter (fun y => y <> x) (l_ready l) -> l_time l' = l_time l -> l_freed l' = l_freed l ->
  x ∉ l_freed l -> x ∉ l_closing l -> l_closing l' = (if t_closing t' then x :: l_closing l else l_closing l) ->
  timer_ok t' -> (x < l_next l')%nat -> (l_next l <= l_next l')%nat ->
  (forall id y, l_interval_cb l' !! id = Some (Some y) ->
     (l_interval_cb l !! id = Some (Some y) /\ (y = x -> t_cb t' = Some set_interval_libuv_cb)) \/
     (y = x /\ t_cb t' = Some set_interval_libuv_cb)) ->
  tinv l'.
Proof.
  intros I C ET ER Etime Efreed Hxf Hxc Ecl Hok Hn1 Hn2 Hint. destruct C as [C1 C2 C3 C4].
  constructor; try done.
  - rewrite Etime. apply I.
  - rewrite ER. apply list.NoDup_filter, I.
  - rewrite ER, ET, Etime. intros y [Hy Hyr]%list_elem_of_filter. rewrite lookup_insert_ne by done. by apply I.
  - rewrite Ecl. destruct (t_closing t'); [apply list.NoDup_cons; split; [done|]|]; apply I.
  - intros y. rewrite Ecl, ET. destruct (decide (y = x)) as [->|].
    + rewrite lookup_insert_eq. destruct (t_closing t') eqn:E.
      * split; [eauto|]. intros _. by left.
      * split; [done|]. intros (? & ? & ?). congruence.
    + rewrite lookup_insert_ne by done. rewrite <- (ti_closing _ I). destruct (t_closing t'); [|done].
      rewrite elem_of_cons. naive_solver.
  - rewrite ET. intros y u. destruct (decide (y = x)) as [->|].
    + rewrite lookup_insert_eq. by intros [= <-].
    + rewrite lookup_insert_ne by done. apply I.
  - rewrite ET. intros id y u Hi. destruct (decide (y = x)) as [->|].
    + rewrite lookup_insert_eq. intros [= <-]. destruct (Hint _ _ Hi) as [[_ H]|[_ H]]; auto.
    + rewrite lookup_insert_ne by done. destruct (Hint _ _ Hi) as [[H _]|[? _]]; [|done]. by eapply I.
  - intros id y Hi. destruct (Hint _ _ Hi) as [[H _]|[-> _]]; [|done]. apply (ti_interval_lt _ I) in H. lia.
  - rewrite ET. intros y. destruct (decide (y = x)) as [->|]; [done|]. rewrite lookup_insert_ne by done.
    intros H%(ti_fresh _ I). lia.
  - rewrite Efreed. apply I.
  - rewrite Efreed, ET. intros y Hy. rewrite lookup_insert_ne by (by intros ->).
    destruct (ti_freed _ I y Hy). split; [done|lia].
Qed.

Lemma tinv_alloc_not_freed l x t : tinv l -> l_timers l !! x = Some t -> x ∉ l_freed l.
Proof. intros I Ht Hf. destruct (ti_freed _ I x Hf). congruence. Qed.

Lemma tinv_not_closing l x t : tinv l -> l_timers l !! x = Some t -> t_closing t = false -> x ∉ l_closing l.
Proof. intros I Ht Hc. rewrite (ti_closing _ I). intros (? & ? & ?). congruence. Qed.

Definition closed_timer (t : uv_timer_t) : uv_timer_t :=
  mkTimer (t_cb t) (t_timeout t) (t_repeat t) (t_start_id t) false true (t_closed t) (t_data t).

(** Closing a live timer always works. *)
Lemma close_spec x l t :
  tinv l -> l_timers l !! x = Some t -> t_closing t = false ->
  exists l', uv_close x l = Ret l' /\ tinv l' /\
    l_timers l' = <[x := closed_timer t]> (l_timers l) /\ l_ready l' = filter (fun y => y <> x) (l_ready l) /\
    l_closing l' = x :: l_closing l /\ l_time l' = l_time l /\ l_fired l' = l_fired l /\ l_freed l' = l_freed l.
Proof.
  intros I Ht Hc. destruct (ti_timer _ I x t Ht) as (Hcb & Hcl & _ & Hto & Hrp & Htm).
  unfold uv_close. rewrite (deref_some _ _ _ Ht). cbn [mbind outcome_bind]. rewrite Hc, Hcl. cbn [orb].
  set (t0 := mkTimer _ _ _ _ _ true _ _).
  assert (C0 : tcore (put x t0 l)).
  { destruct (tinv_core _ I) as [C1 C2 C3 C4].
    assert (EA : active_set (put x t0 l) = active_set l).
    { apply set_eq. intros y. rewrite !elem_active_set. cbn. destruct (decide (y = x)) as [->|].
      - rewrite lookup_insert_eq, Ht. split; intros (u & ? & ?); simplify_eq; eauto.
      - by rewrite lookup_insert_ne. }
    constructor; rewrite ?EA; cbn; try done.
    - eapply heap_ok_ext; [|exact C1]. intros a b _ _. apply timer_less_key; unfold timer_key;
        (destruct (decide (x = a)), (decide (x = b)); subst; rewrite ?lookup_insert_eq, ?lookup_insert_ne by done; try done; by rewrite Ht).
    - rewrite map_size_insert_Some; [done|by rewrite Ht].
    - intros y u Hy. destruct (decide (y = x)) as [->|].
      + rewrite lookup_insert_eq. intros [= <-]. cbn. by eapply C4.
      + rewrite lookup_insert_ne by done. by apply C4. }
  destruct (stop_spec x _ t0 C0) as (l1 & -> & C1 & F1 & _ & T1 & R1); [by cbn; rewrite lookup_insert_eq|].
  cbn [mbind outcome_bind]. unfold uv__make_close_pending.
  rewrite (deref_some l1 x (set_active false t0)) by (by rewrite T1, lookup_insert_eq). cbn [mbind outcome_bind].
  cbn [set_active t0 t_closing t_closed negb orb].
  eexists. split; [done|]. destruct F1 as [E1 E2 E3 E4 E5 E6 E7]. cbn in *.
  rewrite insert_insert_eq in T1.
  assert (Et : set_active false t0 = closed_timer t) by (unfold closed_timer, t0, set_active; cbn; by rewrite Hcl).
  rewrite Et in T1. split_and!; try (cbn; congruence).
  eapply (tinv_update l _ x (closed_timer t)); cbn; try congruence; try done.
  - destruct C1 as [D1 D2 D3 D4]. by constructor.
  - by eapply tinv_alloc_not_freed.
  - by eapply tinv_not_closing.
  - rewrite E3. apply (ti_fresh _ I). eauto.
  - by rewrite E3.
  - rewrite E5. intros id y Hi. left. split; [done|]. intros ->. by eapply I.
Qed.

Lemma clamp_range time timeout : 0 <= clamp time timeout < 2 ^ 64.
Proof.
  unfold clamp. case_match; [lia|]. apply (wrap_ok 64). lia.
Qed.

Lemma start_ok x l t cb timeout repeat :
  tinv l -> l_timers l !! x = Some t -> t_closing t = false -> t_cb t = Some cb ->
  0 <= repeat < 2 ^ 64 -> (cb = timer_libuv_cb -> repeat = 0) ->
  exists l', uv_timer_start x (Some cb) timeout repeat l = Ret (0, l') /\ tinv l' /\ frame l l' /\
    l_timers l' = <[x := started l t cb timeout repeat]> (l_timers l) /\
    l_ready l' = filter (fun y => y <> x) (l_ready l).
Proof.
  intros I Ht Hc Hcb Hrp Htm. destruct (ti_timer _ I x t Ht) as (_ & Hcl & _).
  destruct (start_spec x l t cb timeout repeat (tinv_core _ I) Ht Hc Hcl) as (l' & Hr & C & F & T & R).
  exists l'. split_and!; try done. destruct F as [E1 E2 E3 E4 E5 E6 E7].
  eapply (tinv_update l l' x); try done.
  - by eapply tinv_alloc_not_freed.
  - by eapply tinv_not_closing.
  - cbn. by rewrite Hc.
  - pose proof (clamp_range (l_time l) timeout). unfold timer_ok, started. cbn. rewrite Hc.
    split_and!; try done; try lia. intros [= ->]. auto.
  - rewrite E3. apply (ti_fresh _ I). eauto.
  - by rewrite E3.
  - rewrite E5. intros id y Hi. left. split; [done|]. intros ->. cbn.
    pose proof (ti_intervals _ I _ _ _ Hi Ht). congruence.
Qed.

(** A new timer: [malloc], [uv_timer_init] and [uv_timer_start]. *)
Lemma create_spec f cbs cb timeout repeat l :
  tinv l -> Z.of_nat (size (l_timers l)) + 2 < 2 ^ 32 -> 0 <= repeat < 2 ^ 64 -> (cb = timer_libuv_cb -> repeat = 0) ->
  let '(x, l0) := uv_timer_init f (set_context cbs (l_interval_cb l) l) in
  exists l' t', uv_timer_start x (Some cb) timeout repeat l0 = Ret (0, l') /\ x = l_next l /\
    t' = mkTimer (Some cb) (clamp (l_time l) timeout) repeat (l_counter l) true false false f /\
    l_timers l' = <[x := t']> (l_timers l) /\ l_ready l' = l_ready l /\ l_closing l' = l_closing l /\
    l_time l' = l_time l /\ l_fired l' = l_fired l /\ l_freed l' = l_freed l /\ l_next l' = S x /\
    l_interval_cb l' = l_interval_cb l /\ l_registered_cb l' = cbs /\ tcore l'.
Proof.
  intros I Hsz Hrp Htm. cbn. set (x := l_next l). set (l0 := mkLoop _ _ _ _ _ _ _ _ _ _ _ _).
  set (t0 := mkTimer None 0 0 0 false false false f) in *.
  assert (Hx : l_timers l !! x = None).
  { destruct (l_timers l !! x) eqn:E; [|done]. pose proof (ti_fresh _ I x ltac:(eauto)). lia. }
  assert (EA : active_set l0 = active_set l).
  { rewrite (active_set_put_out l0 (l_timers l) x t0); [|done|done]. apply difference_disjoint_L.
    fold (active_set l). intros y Hy ->%elem_of_singleton. rewrite elem_active_set in Hy. destruct Hy as (? & ? & _). congruence. }
  assert (Hrd : x ∉ l_ready l) by (intros H; destruct (ti_ready _ I x H) as (? & ? & _); congruence).
  assert (C0 : tcore l0).
  { destruct (tinv_core _ I) as [C1 C2 C3 C4]. constructor; rewrite ?EA; cbn; try done.
    - eapply heap_ok_ext; [|exact C1]. intros a b Ha Hb. rewrite elem_active_set in Ha, Hb.
      destruct Ha as (? & ? & _), Hb as (? & ? & _). apply timer_less_key; rewrite timer_key_ne; try done; congruence.
    - rewrite map_size_insert_None by done. lia.
    - intros y u Hy. rewrite lookup_insert_ne by (by intros ->). by apply C4. }
  destruct (start_spec x l0 t0 cb timeout repeat C0) as (l' & Hr & C & F & T & R); [apply lookup_insert_eq|done|done|].
  destruct F as [E1 E2 E3 E4 E5 E6 E7]. cbn in *. rewrite insert_insert_eq in T.
  exists l', (started l0 t0 cb timeout repeat). split_and!; try done. by rewrite R, filter_ne_id.
Qed.

(** ** Calls from scripts *)

(** What a careful script keeps to: it clears only intervals that are running, and it does
    not fill the memory with timers. *)
Definition act_allowed (l : uv_loop_t) (a : js_act) : Prop :=
  match a with
  | SetTimeout _ _ | SetInterval _ _ _ => Z.of_nat (size (l_timers l)) + 2 < 2 ^ 32
  | ClearInterval id =>
      exists x t, l_interval_cb l !! id = Some (Some x) /\ l_timers l !! x = Some t /\ t_closing t = false
  end.

Fixpoint acts_allowed (acts : list js_act) (l : uv_loop_t) : Prop :=
  match acts with
  | [] => True
  | a :: acts => act_allowed l a /\ forall l', js_call a l = Ret l' -> acts_allowed acts l'
  end.

(** What script code leaves alone while timers are being dispatched. *)
Record quiet (l l' : uv_loop_t) : Prop := {
  qt_time : l_time l' = l_time l;
  qt_fired : l_fired l' = l_fired l;
  qt_freed : l_freed l' = l_freed l;
  qt_sub : l_ready l' `sublist_of` l_ready l;
  qt_ready : forall x, x ∈ l_ready l -> x ∈ l_ready l' \/ x ∈ l_closing l';
  qt_closing : forall x, x ∈ l_closing l -> x ∈ l_closing l';
  qt_timeouts : forall x t, l_timers l !! x = Some t -> t_cb t = Some timer_libuv_cb -> l_timers l' !! x = Some t;
  qt_timers : forall x t, l_timers l !! x = Some t -> l_timers l' !! x = Some t \/ x ∈ l_closing l' }.

#[export] Instance quiet_preorder : PreOrder quiet.
Proof.
  split; [constructor; auto; reflexivity|]. intros a b c [A1 A2 A3 A4 A5 A6 A7 A8] [B1 B2 B3 B4 B5 B6 B7 B8].
  constructor; try congruence; auto.
  - by etransitivity.
  - intros x [H|H]%A5; auto.
  - intros x t [H|H]%A8; auto.
Qed.

Lemma create_ok f cb timeout repeat l ints :
  tinv l -> Z.of_nat (size (l_timers l)) + 2 < 2 ^ 32 -> 0 <= repeat < 2 ^ 64 -> (cb = timer_libuv_cb -> repeat = 0) ->
  (forall id y, ints !! id = Some (Some y) ->
     l_interval_cb l !! id = Some (Some y) \/ (y = l_next l /\ cb = set_interval_libuv_cb)) ->
  let '(x, l0) := uv_timer_init f (set_context (l_registered_cb l ++ [f]) (l_interval_cb l) l) in
  exists l', uv_timer_start x (Some cb) timeout repeat l0 = Ret (0, l') /\
    let l'' := set_context (l_registered_cb l') ints l' in
    x = l_next l /\ l_interval_cb l' = l_interval_cb l /\ tinv l'' /\ quiet l l'' /\
    l_timers l'' = <[x := mkTimer (Some cb) (clamp (l_time l) timeout) repeat (l_counter l) true false false f]> (l_timers l).
Proof.
  intros I Hsz Hrp Htm Hints.
  pose proof (create_spec f (l_registered_cb l ++ [f]) cb timeout repeat l I Hsz Hrp Htm) as H.
  destruct (uv_timer_init _ _) as [x l0].
  destruct H as (l' & t' & Hr & -> & Et & T & R & Ecl & Etm & Efi & Efr & En & Eint & _ & C).
  assert (Hx : l_timers l !! l_next l = None).
  { destruct (l_timers l !! l_next l) eqn:E; [|done]. pose proof (ti_fresh _ I (l_next l) ltac:(eauto)). lia. }
  exists l'. split; [done|]. cbv zeta. split_and!; try done.
  - assert (Hrd : l_next l ∉ l_ready l) by (intros H; destruct (ti_ready _ I _ H) as (? & ? & _); congruence).
    eapply (tinv_update l _ (l_next l) t'); cbn; try done.
    + destruct C as [C1 C2 C3 C4]. by constructor.
    + by rewrite filter_ne_id.
    + intros H%(ti_freed _ I). lia.
    + intros (? & ? & _)%(ti_closing _ I). congruence.
    + by rewrite Et.
    + rewrite Et. pose proof (clamp_range (l_time l) timeout). unfold timer_ok. cbn.
      split_and!; try done; try lia. intros [= ->]. auto.
    + lia.
    + lia.
    + intros id y Hi. rewrite Et. cbn. destruct (Hints _ _ Hi) as [H|[-> ->]]; [|by right].
      left. split; [done|]. intros ->. apply (ti_interval_lt _ I) in H. lia.
  - constructor; cbn; try done; rewrite ?R, ?Ecl; auto.
    + intros y t Hy Ht. rewrite T, lookup_insert_ne; [done|]. congruence.
    + intros y t Hy. left. rewrite T, lookup_insert_ne; [done|]. congruence.
  - cbn. by rewrite T, Et.
Qed.

Lemma delay_u64_range d : 0 <= delay_u64 d < 2 ^ 64.
Proof. apply (wrap_ok 64). lia. Qed.

Lemma js_call_spec a l :
  tinv l -> act_allowed l a -> exists l', js_call a l = Ret l' /\ tinv l' /\ quiet l l'.
Proof.
  intros I Ha. destruct a as [f d|f d id|id]; cbn [js_call act_allowed] in *.
  - unfold SetTimeOutFunc.
    pose proof (create_ok f timer_libuv_cb (delay_u64 d) 0 l (l_interval_cb l) I Ha ltac:(lia) ltac:(done) ltac:(auto)) as H.
    destruct (uv_timer_init _ _) as [x l0]. destruct H as (l' & -> & _ & Eint & I' & Q & _). cbn [mbind outcome_bind].
    exists l'. rewrite <- Eint in I', Q. by destruct l'.
  - unfold SetIntervalFunc.
    pose proof (create_ok f set_interval_libuv_cb (delay_u64 d) (delay_u64 d) l (<[id := Some (l_next l)]> (l_interval_cb l)) I Ha (delay_u64_range d) ltac:(done)) as H.
    destruct (uv_timer_init _ _) as [x l0]. destruct H as (l' & -> & -> & Eint & I' & Q & _).
    { intros k y. destruct (decide (k = id)) as [->|].
      - rewrite lookup_insert_eq. intros [= <-]. auto.
      - rewrite lookup_insert_ne by done. auto. }
    cbn [mbind outcome_bind]. rewrite Eint. eauto.
  - destruct Ha as (x & t & Hi & Ht & Hc). unfold clearIntervalFunc. rewrite Hi.
    destruct (close_spec x l t I Ht Hc) as (l' & Hr & I' & T & R & Ecl & Etm & Efi & Efr).
    exists l'. split_and!; try done. constructor; try done.
    + rewrite R. apply sublist_filter.
    + intros y Hy. rewrite R, Ecl. destruct (decide (y = x)) as [->|]; [right; by left|].
      left. by apply list_elem_of_filter.
    + intros y Hy. rewrite Ecl. by right.
    + intros y u Hy Hu. rewrite T, lookup_insert_ne; [done|]. intros ->.
      pose proof (ti_intervals _ I _ _ _ Hi Hy). congruence.
    + intros y u Hy. rewrite T, Ecl. destruct (decide (y = x)) as [->|]; [right; by left|]. left.
      by rewrite lookup_insert_ne.
Qed.

Lemma run_acts_spec acts l :
  tinv l -> acts_allowed acts l -> exists l', run_acts acts l = Ret l' /\ tinv l' /\ quiet l l'.
Proof.
  revert l. induction acts as [|a acts IH]; intros l I Ha; [exists l; split_and!; try done; reflexivity|].
  destruct Ha as [Ha Hrest]. cbn [run_acts]. destruct (js_call_spec a l I Ha) as (l1 & Hr & I1 & Q1).
  rewrite Hr. cbn [mbind outcome_bind]. destruct (IH l1 I1 (Hrest l1 Hr)) as (l2 & -> & I2 & Q2).
  exists l2. split_and!; try done. by etransitivity.
Qed.

(** ** Running the due timers *)

Lemma stop_ok x l t :
  tinv l -> l_timers l !! x = Some t -> t_closing t = false ->
  exists l', uv_timer_stop x l = Ret l' /\ tinv l' /\ frame l l' /\
    l_timers l' = <[x := set_active false t]> (l_timers l) /\ l_ready l' = filter (fun y => y <> x) (l_ready l).
Proof.
  intros I Ht Hc. destruct (stop_spec x l t (tinv_core _ I) Ht) as (l' & Hr & C & F & _ & T & R).
  exists l'. split_and!; try done. destruct F as [E1 E2 E3 E4 E5 E6 E7].
  pose proof (ti_timer _ I x t Ht) as (H1 & H2 & H3 & H4 & H5 & H6).
  eapply (tinv_update l l' x); try done.
  - by eapply tinv_alloc_not_freed.
  - by eapply tinv_not_closing.
  - cbn. by rewrite Hc.
  - rewrite E3. apply (ti_fresh _ I). eauto.
  - by rewrite E3.
  - rewrite E5. intros id y Hi. left. split; [done|]. intros ->. cbn. by eapply I.
Qed.

(** Putting an idle, due timer at the end of the ready queue. *)
Lemma tinv_push l x t :
  tinv l -> l_timers l !! x = Some t -> t_active t = false -> t_closing t = false -> t_timeout t <= l_time l ->
  x ∉ l_ready l -> tinv (set_ready (l_ready l ++ [x]) l).
Proof.
  intros I Ht Ha Hc Hto Hx. pose proof (ti_timer _ I x t Ht) as (H1 & _). destruct I. constructor; cbn; try done.
  - apply list.NoDup_app. split_and!; [done|set_solver|apply list.NoDup_singleton].
  - intros y [Hy| ->%list_elem_of_singleton]%elem_of_app; [auto|]. eauto 10.
Qed.

Lemma tinv_pop l x q : tinv l -> l_ready l = x :: q -> tinv (set_ready q l).
Proof.
  intros I E. pose proof (ti_ready_nodup _ I) as Hnd. pose proof (ti_ready _ I) as Hr. rewrite E in Hnd, Hr.
  apply list.NoDup_cons in Hnd as [_ Hnd]. destruct I. constructor; cbn; try done.
  intros y Hy. apply Hr. by right.
Qed.

(** [a] is not due after [b]. *)
Definition key_le (m : gmap nat uv_timer_t) (a b : nat) : Prop := timer_less_than m b a = false.

Definition due (l : uv_loop_t) (x : nat) : Prop :=
  exists t, l_timers l !! x = Some t /\ t_active t = true /\ t_timeout t <= l_time l.

Lemma sorted_snoc (R : nat -> nat -> Prop) q x :
  StronglySorted R q -> (forall y, y ∈ q -> R y x) -> StronglySorted R (q ++ [x]).
Proof.
  induction 1 as [|y q Hq IH Hy]; intros Hx; cbn; [by repeat constructor|].
  constructor; [apply IH; intros; apply Hx; by right|].
  rewrite Forall_app. split; [done|]. constructor; [|constructor]. apply Hx. by left.
Qed.

Lemma sorted_ext (R R' : nat -> nat -> Prop) q : (forall a b, R a b -> R' a b) -> StronglySorted R q -> StronglySorted R' q.
Proof. intros HR. induction 1; constructor; [done|]. eapply List.Forall_impl; [|done]. auto. Qed.

(** What the first loop of [uv__run_timers] leaves. *)
Record collected (l l' : uv_loop_t) : Prop := {
  co_frame : frame l l';
  co_key : forall x, timer_key (l_timers l') x = timer_key (l_timers l) x;
  co_sorted : StronglySorted (key_le (l_timers l')) (l_ready l');
  co_ready : forall x, x ∈ l_ready l' <-> x ∈ l_ready l \/ due l x;
  co_due : forall x, ~ due l' x;
  co_timers : forall x, l_timers l' !! x = l_timers l !! x \/
    exists t, l_timers l !! x = Some t /\ l_timers l' !! x = Some (set_active false t) /\ x ∈ l_ready l' }.

Lemma timeout_le_min l m x :
  is_least (timer_less_than (l_timers l)) (active_set l) m -> x ∈ active_set l ->
  (timer_key (l_timers l) m).1 <= (timer_key (l_timers l) x).1.
Proof.
  intros [_ H] Hx. specialize (H x Hx). unfold timer_less_than in H.
  destruct (timer_key _ x), (timer_key _ m). repeat case_match; try done; reflect_bools; cbn; lia.
Qed.

Lemma collect_step l m t :
  tinv l -> is_least (timer_less_than (l_timers l)) (active_set l) m -> l_timers l !! m = Some t ->
  t_timeout t <= l_time l ->
  StronglySorted (key_le (l_timers l)) (l_ready l) ->
  (forall p a, p ∈ l_ready l -> a ∈ active_set l -> key_le (l_timers l) p a) ->
  exists l1, uv_timer_stop m l = Ret l1 /\ let l2 := set_ready (l_ready l1 ++ [m]) l1 in
    tinv l2 /\ frame l l2 /\ (forall x, timer_key (l_timers l2) x = timer_key (l_timers l) x) /\
    StronglySorted (key_le (l_timers l2)) (l_ready l2) /\
    (forall p a, p ∈ l_ready l2 -> a ∈ active_set l2 -> key_le (l_timers l2) p a) /\
    (forall x, x ∈ l_ready l2 <-> x ∈ l_ready l \/ x = m) /\
    (forall x, due l x <-> due l2 x \/ x = m) /\ active_set l = {[m]} ∪ active_set l2 /\ (m ∉ active_set l2) /\
    l_timers l2 = <[m := set_active false t]> (l_timers l).
Proof.
  intros I [Hm Hleast] Ht Hto Hs Hpa.
  pose proof Hm as Hm'. rewrite elem_active_set in Hm'. destruct Hm' as (t' & Et & Ha). rewrite Ht in Et. simplify_eq.
  pose proof (ti_timer _ I m _ Ht) as (_ & _ & Hcl & _).
  assert (Hc : t_closing t' = false) by (destruct (t_closing t') eqn:E; [rewrite Hcl in Ha by done|]; done).
  assert (Hr : m ∉ l_ready l) by (intros H; destruct (ti_ready _ I m H) as (? & ? & ? & _); congruence).
  destruct (stop_ok m l t' I Ht Hc) as (l1 & Hrun & I1 & F1 & T1 & R1). rewrite filter_ne_id in R1 by done.
  exists l1. split; [done|]. cbv zeta. set (l2 := set_ready _ l1).
  assert (Hm1 : l_timers l1 !! m = Some (set_active false t')) by (by rewrite T1, lookup_insert_eq).
  assert (HK : forall x, timer_key (l_timers l2) x = timer_key (l_timers l) x)
    by (intros x; cbn; rewrite T1; by apply key_set_active).
  assert (HL : forall a b, key_le (l_timers l2) a b <-> key_le (l_timers l) a b)
    by (intros a b; unfold key_le; by rewrite (timer_less_key _ (l_timers l) b a)).
  assert (HA2 : active_set l2 = active_set l ∖ {[m]}).
  { eapply (active_set_put_out l2 (l_timers l) m (set_active false t')); done. }
  split_and!.
  - eapply tinv_push; try done; [by rewrite (fr_time _ _ F1)|by rewrite R1].
  - etransitivity; [exact F1|]. by constructor.
  - done.
  - cbn [l2 l_ready set_ready]. rewrite R1. eapply sorted_ext; [intros a b; apply HL|].
    apply sorted_snoc; [done|]. auto.
  - intros p a Hp. rewrite HA2. intros [Ha2 _]%elem_of_difference. apply HL.
    cbn in Hp. rewrite R1 in Hp. apply elem_of_app in Hp as [Hp| ->%list_elem_of_singleton]; [auto|]. by apply Hleast.
  - intros x. cbn. rewrite R1, elem_of_app, list_elem_of_singleton. done.
  - intros x. unfold due. cbn [l2 l_timers set_ready l_time]. rewrite T1, (fr_time _ _ F1).
    destruct (decide (x = m)) as [->|].
    + rewrite lookup_insert_eq. split; [by right|]. eauto.
    + rewrite lookup_insert_ne by done. naive_solver.
  - rewrite HA2. apply set_eq. intros x. destruct (decide (x = m)); set_solver.
  - rewrite HA2. set_solver.
  - exact T1.
Qed.

Lemma collect_spec fuel l :
  tinv l -> (size (active_set l) < fuel)%nat ->
  StronglySorted (key_le (l_timers l)) (l_ready l) ->
  (forall p a, p ∈ l_ready l -> a ∈ active_set l -> key_le (l_timers l) p a) ->
  exists l', collect_due fuel l = Ret l' /\ tinv l' /\ collected l l'.
Proof.
  revert l. induction fuel as [|fuel IH]; intros l I Hf Hs Hpa; [lia|]. cbn [collect_due].
  pose proof (heap_min_least _ _ _ (ti_heap _ I)) as Hm. destruct (heap_min (l_heap l)) as [m|].
  2:{ assert (Hnd : forall x, ~ due l x).
      { intros x (t & H1 & H2 & _). assert (x ∈ active_set l) by (rewrite elem_active_set; eauto). set_solver. }
      exists l. split_and!; try done. constructor; try done; [|by left]. intros x. split; [auto|]. intros [?|?%Hnd]; done. }
  pose proof (proj1 Hm) as Hmem. rewrite elem_active_set in Hmem. destruct Hmem as (t & Ht & Ha).
  rewrite (deref_some _ _ _ Ht). cbn [mbind outcome_bind].
  destruct (Z.ltb_spec (l_time l) (t_timeout t)) as [Hlt|Hge].
  - assert (Hnd : forall x, ~ due l x).
    { intros x (u & H1 & H2 & H3). pose proof (timeout_le_min l m x Hm ltac:(rewrite elem_active_set; eauto)) as H.
      unfold timer_key in H. rewrite H1, Ht in H. cbn in H. lia. }
    exists l. split_and!; try done. constructor; try done; [|by left]. intros x. split; [auto|]. intros [?|?%Hnd]; done.
  - destruct (collect_step l m t I Hm Ht Hge Hs Hpa) as (l1 & -> & I2 & F2 & K2 & S2 & P2 & Q2 & D2 & A2 & N2 & T2).
    cbn [mbind outcome_bind]. set (l2 := set_ready _ l1) in *.
    destruct (IH l2 I2) as (l' & Hr & I' & [C1 C2 C3 C4 C5 C6]); [|done|done|].
    { rewrite A2, size_union, size_singleton in Hf by set_solver. lia. }
    exists l'. split_and!; try done. constructor; try done.
    + by etransitivity.
    + intros x. by rewrite C2.
    + intros x. rewrite C4, Q2, D2. tauto.
    + intros x. destruct (decide (x = m)) as [->|].
      * right. exists t. split; [done|]. destruct (C6 m) as [H|(u & Hu & H & Hm')].
        -- split; [by rewrite H, T2, lookup_insert_eq|]. rewrite C4, Q2. tauto.
        -- rewrite T2, lookup_insert_eq in Hu. simplify_eq. done.
      * specialize (C6 x). by rewrite T2, lookup_insert_ne in C6.
Qed.

Lemma tinv_log f l : tinv l -> tinv (log_fire f l).
Proof. intros []. by constructor. Qed.

(** [t'] is the timer [t] that fired at [now] and was not closed: it is armed again one period
    later, or stays stopped when its period is 0. *)
Definition rearmed (now : Z) (t t' : uv_timer_t) : Prop :=
  if t_repeat t =? 0 then t_active t' = false
  else t_active t' = true /\ t_timeout t' = clamp now (t_repeat t) /\ t_repeat t' = t_repeat t.

Lemma again_ok x l t cb :
  tinv l -> l_timers l !! x = Some t -> t_closing t = false -> t_active t = false -> t_cb t = Some cb -> x ∉ l_ready l ->
  exists l' t', uv_timer_again x l = Ret (0, l') /\ tinv l' /\ frame l l' /\ l_ready l' = l_ready l /\
    l_timers l' = <[x := t']> (l_timers l) /\ t_cb t' = Some cb /\ t_closing t' = false /\ t_data t' = t_data t /\
    rearmed (l_time l) t t'.
Proof.
  intros I Ht Hc Ha Hcb Hx. unfold uv_timer_again, rearmed. rewrite (deref_some _ _ _ Ht). cbn [mbind outcome_bind]. rewrite Hcb.
  destruct (Z.eqb_spec (t_repeat t) 0) as [E|E].
  { exists l, t. split_and!; try done. by rewrite insert_id. }
  pose proof (ti_timer _ I x t Ht) as (_ & _ & _ & _ & Hrp & Htm).
  destruct (stop_ok x l t I Ht Hc) as (l1 & -> & I1 & F1 & T1 & R1). cbn [mbind outcome_bind].
  destruct (start_ok x l1 (set_active false t) cb (t_repeat t) (t_repeat t) I1) as (l2 & -> & I2 & F2 & T2 & R2); try done.
  { by rewrite T1, lookup_insert_eq. }
  { intros ->. auto. }
  cbn [mbind outcome_bind]. exists l2, (started l1 (set_active false t) cb (t_repeat t) (t_repeat t)).
  split_and!; try done.
  - by etransitivity.
  - by rewrite R2, R1, !filter_ne_id by (rewrite ?filter_ne_id; done).
  - by rewrite T2, T1, insert_insert_eq.
  - cbn. by rewrite (fr_time _ _ F1).
Qed.

Section Script.
Context (script : nat -> uv_loop_t -> list js_act).
Hypothesis Hscript : forall f l, tinv l -> acts_allowed (script f l) l.

(** What dispatching does to the rest of the state. *)
Record dispatched (l l' : uv_loop_t) (fs : list fire) : Prop := {
  di_time : l_time l' = l_time l;
  di_fired : l_fired l' = l_fired l ++ fs;
  di_freed : l_freed l' = l_freed l;
  di_closing : forall x, x ∈ l_closing l -> x ∈ l_closing l';
  di_closed : forall f, f ∈ fs -> f_cb f = timer_libuv_cb -> f_handle f ∈ l_closing l';
  di_timers : forall x t, l_timers l !! x = Some t -> x ∉ (f_handle <$> fs) -> l_timers l' !! x = Some t \/ x ∈ l_closing l';
  di_fire : forall f, f ∈ fs -> exists t, l_timers l !! f_handle f = Some t /\
    f = mkFire (f_handle f) (f_cb f) (t_timeout t) (l_time l) /\ t_timeout t <= l_time l /\ t_cb t = Some (f_cb f) /\
    (f_cb f = set_interval_libuv_cb -> f_handle f ∈ l_closing l' \/
       exists t', l_timers l' !! f_handle f = Some t' /\ rearmed (l_time l) t t');
  di_timeouts : forall x t, l_timers l !! x = Some t -> t_cb t = Some timer_libuv_cb -> x ∉ (f_handle <$> fs) ->
    l_timers l' !! x = Some t }.

Lemma dispatch_one x q l t cb :
  tinv l -> l_ready l = x :: q -> l_timers l !! x = Some t -> t_cb t = Some cb ->
  exists l1 l', uv_timer_again x (log_fire (mkFire x cb (t_timeout t) (l_time l)) (set_ready q l)) = Ret (0, l1) /\
    call_timer_cb script x l1 = Ret l' /\ tinv l' /\
    dispatched l l' [mkFire x cb (t_timeout t) (l_time l)] /\
    l_ready l' `sublist_of` q /\ (forall y, y ∈ q -> y ∈ l_ready l' \/ y ∈ l_closing l').
Proof.
  intros I Er Ht Hcb.
  destruct (ti_ready _ I x) as (t0 & Et0 & Ha & Hc & _ & Hto); [rewrite Er; by left|]. rewrite Ht in Et0. simplify_eq.
  pose proof (ti_ready_nodup _ I) as Hnd. rewrite Er in Hnd. apply list.NoDup_cons in Hnd as [Hxq _].
  set (f0 := mkFire x cb (t_timeout t0) (l_time l)).
  pose proof (tinv_log f0 _ (tinv_pop l x q I Er)) as I0. set (l0 := log_fire f0 (set_ready q l)) in *.
  destruct (again_ok x l0 t0 cb I0) as (l1 & t1 & Hag & I1 & F1 & R1 & T1 & Hcb1 & Hc1 & Hd1 & Hrep); try done.
  exists l1. pose proof (fun f => Hscript f l1 I1) as Hs.
  assert (Hx1 : l_timers l1 !! x = Some t1) by (by rewrite T1, lookup_insert_eq).
  destruct F1 as [E1 E2 E3 E4 E5 E6 E7]. cbn in E1, E2, E6, E7, R1.
  destruct (run_acts_spec _ l1 I1 (Hs (t_data t1))) as (l2 & Hr2 & I2 & [Q1 Q2 Q3 Q4 Q5 Q6 Q7 Q8]).
  assert (Htm : forall y u, l_timers l !! y = Some u -> y <> x -> l_timers l2 !! y = Some u \/ y ∈ l_closing l2).
  { intros y u Hy Hne. apply Q8. by rewrite T1, lookup_insert_ne. }
  unfold call_timer_cb. rewrite (deref_some _ _ _ Hx1). cbn [mbind outcome_bind]. rewrite Hcb1.
  destruct cb.
  - rewrite Hr2. cbn [mbind outcome_bind].
    destruct (close_spec x l2 t1 I2 (Q7 _ _ Hx1 Hcb1) Hc1) as (l3 & -> & I3 & T3 & R3 & Cl3 & Tm3 & Fi3 & Fr3).
    exists l3. split_and!; try done.
    + constructor; try (cbn; congruence).
      * intros y Hy. rewrite Cl3. right. apply Q6. by rewrite E2.
      * intros f ->%list_elem_of_singleton _. rewrite Cl3. by left.
      * intros y u Hy Hne. cbn in Hne. rewrite list_elem_of_singleton in Hne. rewrite Cl3, T3, lookup_insert_ne by done.
        destruct (Htm y u Hy Hne); [by left|right; by right].
      * intros f ->%list_elem_of_singleton. exists t0. by split_and!.
      * intros y u Hy Hu Hne. cbn in Hne. rewrite list_elem_of_singleton in Hne. rewrite T3, lookup_insert_ne by done.
        apply Q7; [|done]. by rewrite T1, lookup_insert_ne.
    + rewrite R3, <- R1. etransitivity; [apply sublist_filter|done].
    + intros y Hy. rewrite Cl3, R3. rewrite <- R1 in Hy. destruct (Q5 y Hy) as [H|H]; [left|right; by right].
      apply list_elem_of_filter. split; [|done]. intros ->. rewrite R1 in Hy. done.
  - exists l2. split_and!; try done.
    + constructor; try (cbn; congruence).
      * intros y Hy. apply Q6. by rewrite E2.
      * intros f ->%list_elem_of_singleton. done.
      * intros y u Hy Hne. cbn in Hne. rewrite list_elem_of_singleton in Hne. by apply Htm.
      * intros f ->%list_elem_of_singleton. exists t0. split_and!; try done. cbn. intros _.
        destruct (Q8 _ _ Hx1) as [H|H]; [right; eauto|by left].
      * intros y u Hy Hu Hne. cbn in Hne. rewrite list_elem_of_singleton in Hne. apply Q7; [|done]. by rewrite T1, lookup_insert_ne.
    + by rewrite <- R1.
    + intros y Hy. rewrite <- R1 in Hy. by apply Q5.
Qed.

Lemma dispatched_nil l : dispatched l l [].
Proof.
  constructor; try done.
  - by rewrite app_nil_r.
  - by intros f ?%not_elem_of_nil.
  - by left.
  - by intros f ?%not_elem_of_nil.
Qed.

Lemma dispatch_spec fuel l :
  tinv l -> (length (l_ready l) <= fuel)%nat ->
  exists l' fs, dispatch_ready script fuel l = Ret l' /\ tinv l' /\ l_ready l' = [] /\ dispatched l l' fs /\
    (f_handle <$> fs) `sublist_of` l_ready l /\
    (forall x, x ∈ l_ready l -> x ∈ (f_handle <$> fs) \/ x ∈ l_closing l').
Proof.
  revert l. induction fuel as [|fuel IH]; intros l I Hf; cbn [dispatch_ready]; destruct (l_ready l) as [|x q] eqn:Er.
  1,3: exists l, []; split_and!; try done; [apply dispatched_nil|by intros ? ?%not_elem_of_nil].
  { cbn in Hf. lia. }
  destruct (ti_ready _ I x) as (t & Ht & _ & _ & [cb Hcb] & _); [rewrite Er; by left|].
  rewrite (deref_some _ _ _ Ht). cbn [mbind outcome_bind]. rewrite Hcb.
  destruct (dispatch_one x q l t cb I Er Ht Hcb) as (l1 & l2 & Hag & Hcall & I2 & D2 & Hsub & Hq).
  cbn [l_time set_ready]. rewrite Hag. cbn [mbind outcome_bind]. rewrite Hcall. cbn [mbind outcome_bind].
  destruct (IH l2 I2) as (l' & fs & Hr & I' & Er' & D' & Hsub' & Hq').
  { apply sublist_length in Hsub. cbn in Hf. lia. }
  pose proof (ti_ready_nodup _ I) as Hnd. rewrite Er in Hnd. apply list.NoDup_cons in Hnd as [Hxq Hnd].
  set (f0 := mkFire x cb (t_timeout t) (l_time l)) in *.
  assert (Hfs : forall f, f ∈ fs -> f_handle f ∈ q).
  { intros f Hin. eapply elem_of_sublist; [|exact Hsub]. eapply elem_of_sublist; [|exact Hsub']. apply list_elem_of_fmap. eauto. }
  exists l', (f0 :: fs). split_and!; try done.
  - destruct D2 as [A1 A2 A3 A4 A5 A6 A7 A8], D' as [B1 B2 B3 B4 B5 B6 B7 B8].
    constructor; try congruence; auto.
    + rewrite B2, A2, <- app_assoc. done.
    + intros f [->|Hin]%elem_of_cons Hcb'; [|by apply B5]. apply B4. apply (A5 f0); [by left|done].
    + intros y u Hy. cbn. rewrite not_elem_of_cons. intros [Hne Hnf].
      destruct (A6 y u Hy) as [H|H]; [cbn; by rewrite list_elem_of_singleton|by apply B6|right; by apply B4].
    + intros f [->|Hin]%elem_of_cons.
      * destruct (A7 f0) as (t' & Ht' & Ef & Hle & Hcb' & Hint); [by left|]. exists t'. split_and!; try done.
        intros Hc. destruct (Hint Hc) as [H|(t2 & Ht2 & H2)]; [left; by apply B4|].
        destruct (B6 _ _ Ht2) as [H|H]; [|right; eauto|by left].
        rewrite list_elem_of_fmap. intros (f & Ef' & Hin). apply Hfs in Hin. cbn in Ef'. congruence.
      * destruct (B7 f Hin) as (t' & Ht' & Ef & Hle & Hcb' & Hint). pose proof (Hfs f Hin) as Hin'.
        assert (Hne : f_handle f <> x) by (by intros Ex; rewrite Ex in Hin').
        destruct (ti_ready _ I (f_handle f)) as (u & Hu & _); [rewrite Er; by right|].
        assert (u = t') as ->.
        { destruct (A6 _ _ Hu) as [H|H]; [cbn; by rewrite list_elem_of_singleton|congruence|].
          exfalso. rewrite (ti_closing _ I2) in H. destruct H as (v & Hv & Hcl). 
          destruct (ti_ready _ I2 (f_handle f)) as (w & Hw & _ & Hnc & _); [|congruence].
          eapply elem_of_sublist; [|exact Hsub']. apply list_elem_of_fmap. eauto. }
        exists t'. rewrite <- A1. split_and!; try done.
    + intros y u Hy Hu. cbn. rewrite not_elem_of_cons. intros [Hne Hnf]. apply B8; [|done|done]. apply A8; [done|done|]. cbn. by rewrite list_elem_of_singleton.
  - cbn. apply sublist_skip. by etransitivity.
  - intros y [->|Hy]%elem_of_cons; [left; by left|].
    destruct (Hq y Hy) as [H|H]; [|right; by apply D'].
    destruct (Hq' y H) as [H'|H']; [left; by right|by right].
Qed.

Lemma heap_ok_nelts less h S : heap_ok less h S -> h_nelts h = Z.of_nat (size S).
Proof. intros (q & R & _ & HS). by rewrite (repr_nelts _ _ R), (heap_ok_size _ _ _ R HS). Qed.

Lemma tinv_no_ready l : tinv l -> tinv (set_ready [] l).
Proof.
  intros []. constructor; cbn; try done; [constructor|]. by intros x ?%not_elem_of_nil.
Qed.

(** What one [uv__run_timers] does, seen from the state it starts in. *)
Record ran (l l' : uv_loop_t) (fs : list fire) : Prop := {
  rn_fired : l_fired l' = l_fired l ++ fs;
  rn_time : l_time l' = l_time l;
  rn_freed : l_freed l' = l_freed l;
  rn_closing : forall x, x ∈ l_closing l -> x ∈ l_closing l';
  rn_sorted : StronglySorted (key_le (l_timers l)) (f_handle <$> fs);
  rn_nodup : NoDup (f_handle <$> fs);
  rn_all : forall x t, due l x -> l_timers l !! x = Some t ->
    x ∈ (f_handle <$> fs) \/ x ∈ l_closing l' /\ t_cb t = Some set_interval_libuv_cb;
  rn_closed : forall f, f ∈ fs -> f_cb f = timer_libuv_cb -> f_handle f ∈ l_closing l';
  rn_fire : forall f, f ∈ fs -> due l (f_handle f) /\ exists t, l_timers l !! f_handle f = Some t /\
    f = mkFire (f_handle f) (f_cb f) (t_timeout t) (l_time l) /\ t_cb t = Some (f_cb f) /\
    (f_cb f = set_interval_libuv_cb -> f_handle f ∈ l_closing l' \/
       exists t', l_timers l' !! f_handle f = Some t' /\ rearmed (l_time l) t t') }.

Lemma sorted_sublist (R : nat -> nat -> Prop) p q : p `sublist_of` q -> StronglySorted R q -> StronglySorted R p.
Proof.
  induction 1 as [|x p q Hs IH|x p q Hs IH]; inversion 1 as [|? ? Hq Hf]; subst; [constructor| |auto].
  constructor; [auto|]. rewrite list.Forall_forall in Hf |- *. intros y Hy. apply Hf. by eapply elem_of_sublist.
Qed.

Lemma sublist_map {A B} (f : A -> B) (p q : list A) : p `sublist_of` q -> (f <$> p) `sublist_of` (f <$> q).
Proof. induction 1; cbn; by constructor. Qed.

Lemma run_timers_spec l :
  tinv l -> exists l' fs, uv__run_timers script l = Ret l' /\ tinv l' /\ l_ready l' = [] /\ ran l l' fs.
Proof.
  intros I. unfold uv__run_timers. pose proof (tinv_no_ready _ I) as I0.
  rewrite (heap_ok_nelts _ _ _ (ti_heap _ I)), Nat2Z.id.
  destruct (collect_spec (S (size (active_set l))) (set_ready [] l) I0) as (l1 & -> & I1 & [C1 C2 C3 C4 C5 C6]).
  { change (active_set (set_ready [] l)) with (active_set l). lia. }
  { constructor. }
  { by intros p a ?%not_elem_of_nil. }
  cbn [mbind outcome_bind].
  destruct (dispatch_spec (length (l_ready l1)) l1 I1 ltac:(lia)) as (l' & fs & -> & I' & Er & [D1 D2 D3 D4 D5 D6 D7 D8] & Hsub & Hall).
  exists l', fs. destruct C1 as [E1 E2 E3 E4 E5 E6 E7]. cbn in E1, E2, E3, E4, E5, E6, E7, C2, C4, C6.
  assert (Hdue : forall x, x ∈ l_ready l1 <-> due l x).
  { intros x. rewrite C4. split; [intros [?%not_elem_of_nil|?]; done|by right]. }
  split_and!; try done. constructor; try congruence.
  - intros x Hx. apply D4. by rewrite E2.
  - eapply sorted_ext; [|eapply sorted_sublist; [exact Hsub|exact C3]].
    intros a b. unfold key_le. by rewrite (timer_less_key _ (l_timers l) b a).
  - eapply sublist_NoDup; [|exact Hsub]. apply I1.
  - intros x t Hx Ht. apply Hdue in Hx. destruct (decide (x ∈ f_handle <$> fs)) as [|Hnf]; [by left|right].
    destruct (Hall x Hx) as [?|Hcl]; [done|]. split; [done|].
    destruct (ti_ready _ I1 x Hx) as (t1 & Ht1 & _ & Hnc & [cb Hcb] & _). assert (t_cb t1 = t_cb t) as Ecb.
    { destruct (C6 x) as [H|(u & Hu & H & _)]; rewrite Ht1 in H; [|rewrite Ht in Hu; by simplify_eq]. cbn in H. congruence. }
    rewrite <- Ecb, Hcb. destruct cb; [|done]. pose proof (D8 _ _ Ht1 Hcb Hnf) as Ht1'.
    apply (ti_closing _ I') in Hcl as (u & Hu & Hc). congruence.
  - exact D5.
  - intros f Hf. assert (Hd : due l (f_handle f)).
    { apply Hdue. eapply elem_of_sublist; [|exact Hsub]. apply list_elem_of_fmap. eauto. }
    split; [done|]. destruct (D7 f Hf) as (t & Ht & Ef & Hle & Hcb & Hint). rewrite E1 in *.
    destruct (C6 (f_handle f)) as [H|(u & Hu & H & _)]; rewrite H in Ht; [eauto 10|]. simplify_eq. exists u. split_and!; try done.
Qed.

Definition timeouts_fired (l : uv_loop_t) : list nat :=
  (f_handle <$> filter (fun f => f_cb f = timer_libuv_cb) (l_fired l)).

(** Every timeout that fired is closing or freed, and no other timeout is; nothing fired early. *)
Record once (l : uv_loop_t) : Prop := {
  on_nodup : NoDup (timeouts_fired l);
  on_gone : forall x, x ∈ timeouts_fired l -> x ∈ l_closing l \/ x ∈ l_freed l;
  on_due : Forall (fun f => f_due f <= f_now f) (l_fired l) }.

Lemma due_live l x : tinv l -> due l x -> (x ∉ l_closing l) /\ (x ∉ l_freed l).
Proof.
  intros I (t & Ht & Ha & _). split.
  - intros (u & Hu & Hc)%(ti_closing _ I). pose proof (ti_timer _ I x u Hu) as (_ & _ & H & _). rewrite Ht in Hu. simplify_eq.
    by rewrite H in Ha.
  - by eapply tinv_alloc_not_freed.
Qed.

Lemma once_ran l l' fs : tinv l -> once l -> ran l l' fs -> once l'.
Proof.
  intros I [O1 O2 O3] [R1 R2 R3 R4 R5 R6 R7 R8 R9].
  assert (Hin : forall x, x ∈ (f_handle <$> filter (fun f => f_cb f = timer_libuv_cb) fs) ->
            exists f, f ∈ fs /\ f_cb f = timer_libuv_cb /\ x = f_handle f).
  { intros x (f & -> & [Hc Hf]%list_elem_of_filter)%list_elem_of_fmap. eauto. }
  constructor; unfold timeouts_fired in *; rewrite R1, ?list.filter_app, ?fmap_app.
  - apply list.NoDup_app. split_and!; [done| |].
    + intros x Hx (f & Hf & _ & ->)%Hin. destruct (due_live l (f_handle f) I (proj1 (R9 f Hf))). destruct (O2 _ Hx); done.
    + eapply sublist_NoDup; [exact R6|]. apply sublist_map, sublist_filter.
  - intros x [Hx|(f & Hf & Hc & ->)%Hin]%elem_of_app.
    + rewrite R3. destruct (O2 _ Hx); auto.
    + left. by apply R8.
  - apply list.Forall_app. split; [done|]. apply list.Forall_forall. intros f Hf.
    destruct (R9 f Hf) as ((t & Ht & _ & Hle) & u & Hu & -> & _). cbn. rewrite Ht in Hu. by simplify_eq.
Qed.

Lemma once_quiet l l' : once l -> quiet l l' -> once l'.
Proof.
  intros [O1 O2 O3] [Q1 Q2 Q3 Q4 Q5 Q6 Q7 Q8]. constructor; unfold timeouts_fired in *; rewrite ?Q2; try done.
  intros x Hx. rewrite Q3. destruct (O2 x Hx); auto.
Qed.

(** ** Closing *)

Lemma finish_one x p l :
  tinv (set_closing (x :: p) l) ->
  exists l1, uv__finish_close x (set_closing [] l) = Ret (set_closing [] l1) /\ tinv (set_closing p l1) /\
    l_freed l1 = l_freed l ++ [x] /\ l_fired l1 = l_fired l.
Proof.
  intros I. destruct (proj1 (ti_closing _ I x)) as (t & Ht & Hc); [by left|]. cbn in Ht.
  pose proof (ti_timer _ I x t Ht) as (_ & Hcl & Ha & _). specialize (Ha Hc).
  pose proof (ti_closing_nodup _ I) as Hnd. cbn in Hnd. apply list.NoDup_cons in Hnd as [Hxp Hnd].
  pose proof (tinv_alloc_not_freed _ _ _ I Ht) as Hxf. cbn in Hxf.
  unfold uv__finish_close. rewrite (deref_some _ x t) by done. cbn [mbind outcome_bind]. rewrite Hc, Hcl. cbn [negb orb].
  exists (mkLoop (l_time l) (l_counter l) (l_active_handles l) (with_nodes (l_heap l) (delete x (h_nodes (l_heap l))))
    (delete x (l_timers l)) (l_ready l) [] (l_next l) (l_registered_cb l) (l_interval_cb l) (l_fired l) (l_freed l ++ [x])).
  split; [reflexivity|]. split; [|done].
  match goal with |- tinv ?l' => set (l1 := l') end.
  assert (EA : active_set l1 = active_set l).
  { apply set_eq. intros y. rewrite !elem_active_set. cbn. destruct (decide (y = x)) as [->|].
    - rewrite lookup_delete_eq, Ht. split; intros (? & ? & ?); simplify_eq. congruence.
    - by rewrite lookup_delete_ne. }
  assert (Hxa : x ∉ active_set l) by (rewrite elem_active_set; intros (? & ? & ?); simplify_eq; congruence).
  destruct I as [I1 I2 I3 I4 I5 I6 I7 I8 I9 I10 I11 I12 I13 I14].
  change (active_set (set_closing (x :: p) l)) with (active_set l) in *.
  constructor; rewrite ?EA; cbn in *; try done.
  - apply heap_ok_delete; [done|]. eapply heap_ok_ext; [|exact I1]. intros a b Ha1 Hb1.
    apply timer_less_key; unfold timer_key; rewrite lookup_delete_ne; try done; by intros ->.
  - rewrite map_size_delete_Some by (by rewrite Ht). lia.
  - intros y Hy. rewrite lookup_delete_ne; [by apply I6|]. intros ->. destruct (I6 _ Hy) as (? & ? & _ & ? & _). congruence.
  - intros y. destruct (decide (y = x)) as [->|].
    + rewrite lookup_delete_eq. split; [done|]. by intros (? & ? & _).
    + rewrite lookup_delete_ne by done. rewrite <- I8, elem_of_cons. naive_solver.
  - intros y u [_ Hy]%lookup_delete_Some. by eapply I9.
  - intros id y u Hi [_ Hy]%lookup_delete_Some. by eapply I10.
  - intros y [u [_ Hy]%lookup_delete_Some]. apply I12. eauto.
  - apply list.NoDup_app. split_and!; [done|set_solver|apply list.NoDup_singleton].
  - intros y [Hy| ->%list_elem_of_singleton]%elem_of_app.
    + destruct (I14 y Hy). split; [|done]. by rewrite lookup_delete_ne by (by intros ->).
    + rewrite lookup_delete_eq. split; [done|]. apply I12. eauto.
Qed.

Lemma finish_all_spec p l :
  tinv (set_closing p l) ->
  exists l', finish_all p (set_closing [] l) = Ret l' /\ tinv l' /\ l_closing l' = [] /\
    l_freed l' = l_freed l ++ p /\ l_fired l' = l_fired l.
Proof.
  revert l. induction p as [|x p IH]; intros l I; cbn [finish_all].
  { eexists. split; [done|]. split_and!; try done. cbn. by rewrite app_nil_r. }
  destruct (finish_one x p l I) as (l1 & -> & I1 & Ef & Ei). cbn [mbind outcome_bind].
  destruct (IH l1 I1) as (l' & Hr & I' & Ec & Ef' & Ei'). exists l'. split_and!; try done; [|congruence].
  by rewrite Ef', Ef, <- app_assoc.
Qed.

Lemma closing_spec l :
  tinv l -> exists l', uv__run_closing_handles l = Ret l' /\ tinv l' /\ l_closing l' = [] /\
    l_freed l' = l_freed l ++ l_closing l /\ l_fired l' = l_fired l.
Proof. intros I. apply finish_all_spec. by destruct l. Qed.

(** ** The loop *)

Definition event_allowed (l : uv_loop_t) (e : loop_event) : Prop :=
  match e with
  | EvScript acts => acts_allowed acts l
  | EvTime now => l_time l <= now < 2 ^ 64
  | EvTimers | EvClosing => True
  end.

Fixpoint events_allowed (es : list loop_event) (l : uv_loop_t) : Prop :=
  match es with
  | [] => True
  | e :: es => event_allowed l e /\ forall l', loop_do script e l = Ret l' -> events_allowed es l'
  end.

Lemma tinv_time now l : tinv l -> l_time l <= now < 2 ^ 64 -> tinv (set_time now l).
Proof.
  intros [] Hn. constructor; cbn; try done; [lia|]. intros x Hx.
  destruct (ti_ready0 x Hx) as (t & ? & ? & ? & ? & ?). exists t. split_and!; try done. lia.
Qed.

Lemma loop_do_spec e l :
  tinv l -> once l -> event_allowed l e -> exists l', loop_do script e l = Ret l' /\ tinv l' /\ once l'.
Proof.
  intros I O He. destruct e as [acts|now| |]; cbn [loop_do event_allowed] in *.
  - destruct (run_acts_spec acts l I He) as (l' & -> & I' & Q). eauto using once_quiet.
  - eexists. split; [done|]. split; [by apply tinv_time|]. destruct O. by constructor.
  - destruct (run_timers_spec l I) as (l' & fs & -> & I' & _ & R). eauto using once_ran.
  - destruct (closing_spec l I) as (l' & -> & I' & Ec & Ef & Ei). exists l'. split_and!; try done.
    destruct O as [O1 O2 O3]. constructor; unfold timeouts_fired in *; rewrite ?Ei; try done.
    intros x Hx. right. rewrite Ef, elem_of_app. destruct (O2 x Hx); auto.
Qed.

Lemma loop_run_spec es l :
  tinv l -> once l -> events_allowed es l -> exists l', loop_run script es l = Ret l' /\ tinv l' /\ once l'.
Proof.
  revert l. induction es as [|e es IH]; intros l I O He; [by exists l|]. destruct He as [He Hes]. cbn [loop_run].
  destruct (loop_do_spec e l I O He) as (l1 & Hr & I1 & O1). rewrite Hr. cbn [mbind outcome_bind]. auto.
Qed.

Lemma loop_init_ok time : 0 <= time < 2 ^ 64 -> tinv (loop_init time) /\ once (loop_init time).
Proof.
  intros Ht. split; constructor; cbn; try done; try by intros ? ?%not_elem_of_nil.
  all: try by constructor.
  - apply heap_ok_init.
  - intros x. split; [by intros ?%not_elem_of_nil|by intros (? & ? & _)].
  - by intros x [? ?].
Qed.

(** C20. Scripts that clear only running intervals use timers safely: whatever they set and
    clear, from top-level code or from timer callbacks, and however time passes, every loop
    phase returns, with no failed assertion and no use of a freed handle. In every state
    reached the timer heap holds exactly the active timers, the count of active handles that
    keeps the loop alive is their number, and no handle is freed twice or freed while it is
    in the heap, in the ready queue or waiting to be closed. *)
Theorem timers_safe time es :
  0 <= time < 2 ^ 64 -> events_allowed es (loop_init time) ->
  exists l, loop_run script es (loop_init time) = Ret l /\
    heap_ok (timer_less_than (l_timers l)) (l_heap l) (active_set l) /\
    l_active_handles l = Z.of_nat (size (active_set l)) /\ NoDup (l_freed l) /\
    forall x, x ∈ l_freed l -> (x ∉ active_set l) /\ (x ∉ l_ready l) /\ (x ∉ l_closing l).
Proof.
  intros Ht He. destruct (loop_init_ok time Ht) as [I0 O0].
  destruct (loop_run_spec es _ I0 O0 He) as (l & Hr & I & _). exists l.
  split_and!; [done|apply I..|]. intros x Hx. destruct (ti_freed _ I x Hx) as [Hn _]. split_and!.
  - rewrite elem_active_set. intros (? & ? & _). congruence.
  - intros (? & ? & _)%(ti_ready _ I). congruence.
  - intros (? & ? & _)%(ti_closing _ I). congruence.
Qed.

(** In every run of such a script a [setTimeout] callback is called at most once, its handle
    is closed or freed from then on, and no timer callback is ever called before it is due. *)
Theorem timeouts_fire_once time es l :
  0 <= time < 2 ^ 64 -> events_allowed es (loop_init time) -> loop_run script es (loop_init time) = Ret l ->
  NoDup (timeouts_fired l) /\ (forall x, x ∈ timeouts_fired l -> x ∈ l_closing l \/ x ∈ l_freed l) /\
  Forall (fun f => f_due f <= f_now f) (l_fired l).
Proof.
  intros Ht He Hr. destruct (loop_init_ok time Ht) as [I0 O0].
  destruct (loop_run_spec es _ I0 O0 He) as (l' & Hr' & _ & O). rewrite Hr in Hr'. simplify_eq. split_and!; apply O.
Qed.

(** C38. Every state such a script reaches is well-typed: the clock, the deadlines and the
    periods are 64-bit unsigned numbers and the counts fit 32 bits; every handle has a callback
    and none is marked closed while it is allocated; a closing handle is inactive and is
    exactly one waiting for its close callback; timeouts do not repeat; and the table of
    intervals refers to allocated handles of intervals only, or to handles no longer allocated. *)
Theorem timers_well_typed time es l :
  0 <= time < 2 ^ 64 -> events_allowed es (loop_init time) -> loop_run script es (loop_init time) = Ret l ->
  0 <= l_time l < 2 ^ 64 /\ 0 <= l_active_handles l < 2 ^ 32 /\
  (forall x t, l_timers l !! x = Some t -> timer_ok t /\ (t_closing t = true <-> x ∈ l_closing l)) /\
  (forall id x t, l_interval_cb l !! id = Some (Some x) -> l_timers l !! x = Some t ->
     t_cb t = Some set_interval_libuv_cb).
Proof.
  intros Ht He Hr. destruct (loop_init_ok time Ht) as [I0 O0].
  destruct (loop_run_spec es _ I0 O0 He) as (l1 & Hr' & I & _). rewrite Hr in Hr'. simplify_eq.
  split; [apply I|]. split.
  { rewrite (ti_active _ I). pose proof (active_size l1). pose proof (ti_size _ I). lia. }
  split; [|apply I]. intros x t Hx. split; [by eapply I|]. rewrite (ti_closing _ I). split; [eauto|].
  intros (u & Hu & Hc). congruence.
Qed.

(** C19. One [uv__run_timers] on any reachable state calls the callbacks of the timers that were
    due when it began and no others, each once, in the order of their deadlines and, between
    equal ones, of their starts. Every due timeout is called; a due interval is left out only if
    a callback of the same turn cleared it. Timers started by a callback wait for the next turn.
    An interval that was called and not cleared is re-armed one period after the loop's time, or,
    when its period is 0, stays stopped; a timeout's handle is closed. *)
Theorem run_timers_in_order time es l :
  0 <= time < 2 ^ 64 -> events_allowed es (loop_init time) -> loop_run script es (loop_init time) = Ret l ->
  exists l' fs, uv__run_timers script l = Ret l' /\ ran l l' fs.
Proof.
  intros Ht He Hr. destruct (loop_init_ok time Ht) as [I0 O0].
  destruct (loop_run_spec es _ I0 O0 He) as (l1 & Hr' & I & _). rewrite Hr in Hr'. simplify_eq.
  destruct (run_timers_spec l1 I) as (l' & fs & ? & _ & _ & ?). eauto.
Qed.

Lemma next_timeout_spec l :
  tinv l -> exists r, uv__next_timeout l = Ret r /\
    (r = -1 <-> active_set l = ∅) /\ (r = 0 <-> exists x, due l x) /\
    (0 < r -> (forall x t, l_timers l !! x = Some t -> t_active t = true -> l_time l + r <= t_timeout t) /\
       (r = INT_MAX \/ exists x t, l_timers l !! x = Some t /\ t_active t = true /\ t_timeout t = l_time l + r)) /\
    -1 <= r.
Proof.
  intros I. unfold uv__next_timeout. pose proof (heap_min_least _ _ _ (ti_heap _ I)) as Hm.
  destruct (heap_min (l_heap l)) as [m|].
  2:{ exists (-1). split_and!; try done; try lia. split; [done|]. intros (x & t & H1 & H2 & _).
      assert (x ∈ active_set l) by (rewrite elem_active_set; eauto). set_solver. }
  pose proof (proj1 Hm) as Hmem. assert (Hne : active_set l <> ∅) by set_solver.
  rewrite elem_active_set in Hmem. destruct Hmem as (t & Ht & Ha).
  assert (Hmin : forall x u, l_timers l !! x = Some u -> t_active u = true -> t_timeout t <= t_timeout u).
  { intros x u Hx Hu. pose proof (timeout_le_min l m x Hm ltac:(rewrite elem_active_set; eauto)) as H.
    unfold timer_key in H. by rewrite Hx, Ht in H. }
  rewrite (deref_some _ _ _ Ht). cbn [mbind outcome_bind].
  destruct (Z.leb_spec (t_timeout t) (l_time l)) as [Hle|Hgt].
  - exists 0. split_and!; try done; try lia. split; [|done]. intros _. exists m, t. done.
  - pose proof (ti_time _ I). pose proof (ti_timer _ I m t Ht) as (_ & _ & _ & Hto & _).
    rewrite wrap_small by (unfold uint_ok; lia). eexists. split; [done|].
    set (r := if _ : bool then _ else _).
    assert (Hr : 0 < r <= t_timeout t - l_time l /\ (r = INT_MAX \/ r = t_timeout t - l_time l)).
    { unfold r, INT_MAX. case_match; reflect_bools; lia. }
    split_and!; try lia.
    + split; [lia|done].
    + split; [lia|]. intros (x & u & Hx & Hu & Hd). specialize (Hmin x u Hx Hu). lia.
    + intros _. split.
      * intros x u Hx Hu. specialize (Hmin x u Hx Hu). lia.
      * destruct (proj2 Hr) as [->| ->]; [by left|]. right. exists m, t. split_and!; try done. lia.
Qed.

(** The loop sleeps right: before polling, [uv__next_timeout] answers -1 exactly when no
    timer is active, 0 exactly when one is due, and otherwise a time that ends at the next
    deadline (or at the largest [int] before it), never after one; and the loop is alive
    exactly while some timer is active or waiting to be closed. *)
Theorem loop_sleeps_right time es l :
  0 <= time < 2 ^ 64 -> events_allowed es (loop_init time) -> loop_run script es (loop_init time) = Ret l ->
  (exists r, uv__next_timeout l = Ret r /\
    (r = -1 <-> active_set l = ∅) /\ (r = 0 <-> exists x, due l x) /\
    (0 < r -> (forall x t, l_timers l !! x = Some t -> t_active t = true -> l_time l + r <= t_timeout t) /\
       (r = INT_MAX \/ exists x t, l_timers l !! x = Some t /\ t_active t = true /\ t_timeout t = l_time l + r)) /\
    -1 <= r) /\
  (uv__loop_alive l = false <-> active_set l = ∅ /\ l_closing l = []).
Proof.
  intros Ht He Hr. destruct (loop_init_ok time Ht) as [I0 O0].
  destruct (loop_run_spec es _ I0 O0 He) as (l1 & Hr' & I & _). rewrite Hr in Hr'. simplify_eq.
  split; [by apply next_timeout_spec|]. unfold uv__loop_alive. rewrite (ti_active _ I), orb_false_iff, Z.ltb_ge.
  rewrite negb_false_iff, bool_decide_eq_true, <- leibniz_equiv_iff, <- size_empty_iff.
  split; intros [? ?]; split; try done; lia.
Qed.

End Script.

(** ** Witnesses and misuse *)

(** A function that sets another timeout of 5 ms while there are few timers. *)
Definition retry_script (f : nat) (l : uv_loop_t) : list js_act :=
  if decide (size (l_timers l) < 10)%nat then [SetTimeout f 5] else [].

Lemma retry_allowed f l : tinv l -> acts_allowed (retry_script f l) l.
Proof. intros _. unfold retry_script. case_decide; cbn; [|done]. split; [lia|done]. Qed.

Definition demo_events : list loop_event :=
  [EvScript [SetTimeout 1 10; SetInterval 2 4 1234567]; EvTime 104; EvTimers; EvScript [ClearInterval 1234567];
   EvTime 120; EvTimers; EvClosing].

(** The promises of a careful script, as a computation. *)
Definition act_okb (l : uv_loop_t) (a : js_act) : bool :=
  match a with
  | SetTimeout _ _ | SetInterval _ _ _ => Z.of_nat (size (l_timers l)) + 2 <? 2 ^ 32
  | ClearInterval id =>
      match l_interval_cb l !! id with
      | Some (Some x) => match l_timers l !! x with Some t => negb (t_closing t) | None => false end
      | _ => false
      end
  end.

Fixpoint acts_okb (acts : list js_act) (l : uv_loop_t) : bool :=
  match acts with
  | [] => true
  | a :: acts => act_okb l a && match js_call a l with Ret l' => acts_okb acts l' | _ => true end
  end.

Definition event_okb (l : uv_loop_t) (e : loop_event) : bool :=
  match e with
  | EvScript acts => acts_okb acts l
  | EvTime now => (l_time l <=? now) && (now <? 2 ^ 64)
  | EvTimers | EvClosing => true
  end.

Fixpoint events_okb (script : nat -> uv_loop_t -> list js_act) (es : list loop_event) (l : uv_loop_t) : bool :=
  match es with
  | [] => true
  | e :: es => event_okb l e && match loop_do script e l with Ret l' => events_okb script es l' | _ => true end
  end.

Lemma acts_okb_allowed acts l : acts_okb acts l = true -> acts_allowed acts l.
Proof.
  revert l. induction acts as [|a acts IH]; intros l; cbn [acts_okb acts_allowed]; [done|].
  intros [Ha Hr]%andb_true_iff. split.
  - clear Hr. destruct a; cbn [act_okb act_allowed] in *; [by apply Z.ltb_lt..|]. repeat case_match; try done. reflect_bools. eauto.
  - intros l' Hl. rewrite Hl in Hr. auto.
Qed.

Lemma events_okb_allowed script es l : events_okb script es l = true -> events_allowed script es l.
Proof.
  revert l. induction es as [|e es IH]; intros l; cbn [events_okb events_allowed]; [done|].
  intros [He Hr]%andb_true_iff. split.
  - destruct e; cbn in *; try done; [by apply acts_okb_allowed|reflect_bools; lia].
  - intros l' Hl. rewrite Hl in Hr. auto.
Qed.

Lemma demo_allowed : events_allowed retry_script demo_events (loop_init 100).
Proof. apply events_okb_allowed. vm_compute. reflexivity. Qed.

Definition demo_loop : uv_loop_t :=
  match loop_run retry_script demo_events (loop_init 100) with Ret l => l | _ => loop_init 100 end.

Lemma demo_runs : loop_run retry_script demo_events (loop_init 100) = Ret demo_loop.
Proof. vm_compute. reflexivity. Qed.

Lemma timers_safe_witness :
  exists l, loop_run retry_script demo_events (loop_init 100) = Ret l /\ NoDup (l_freed l).
Proof.
  destruct (timers_safe retry_script retry_allowed 100 demo_events ltac:(lia) demo_allowed) as (l & ? & _ & _ & ? & _).
  eauto.
Defined.

Lemma timeouts_fire_once_witness : NoDup (timeouts_fired demo_loop) /\ (0 < length (timeouts_fired demo_loop))%nat.
Proof.
  split; [|vm_compute; lia].
  exact (proj1 (timeouts_fire_once retry_script retry_allowed 100 demo_events demo_loop ltac:(lia) demo_allowed demo_runs)).
Defined.

Lemma timers_well_typed_witness : 0 <= l_time demo_loop < 2 ^ 64.
Proof.
  exact (proj1 (timers_well_typed retry_script retry_allowed 100 demo_events demo_loop ltac:(lia) demo_allowed demo_runs)).
Defined.

(** In the demonstration a timer is due once the clock has moved on. *)
Lemma demo_late_allowed : events_allowed retry_script (demo_events ++ [EvScript [SetTimeout 1 5; SetInterval 0 3 8]; EvTime 400]) (loop_init 100).
Proof. apply events_okb_allowed. vm_compute. reflexivity. Qed.

Definition demo_late : uv_loop_t :=
  match loop_run retry_script (demo_events ++ [EvScript [SetTimeout 1 5; SetInterval 0 3 8]; EvTime 400]) (loop_init 100) with
  | Ret l => l | _ => loop_init 100 end.

Lemma run_timers_in_order_witness : exists l' fs, uv__run_timers retry_script demo_late = Ret l' /\ ran demo_late l' fs /\
  length fs = 4%nat.
Proof.
  destruct (run_timers_in_order retry_script retry_allowed 100 _ demo_late ltac:(lia) demo_late_allowed ltac:(vm_compute; reflexivity))
    as (l' & fs & E & R). exists l', fs. split; [exact E|]. split; [exact R|].
  assert (length (l_fired l') = length (l_fired demo_late) + length fs)%nat as Hl by (rewrite (rn_fired _ _ _ R), length_app; done).
  assert (length (l_fired demo_late) = 3%nat) as E3 by (vm_compute; reflexivity).
  assert (match uv__run_timers retry_script demo_late with Ret l => length (l_fired l) | _ => 0%nat end = 7%nat) as E7 by (vm_compute; reflexivity).
  rewrite E in E7. cbv iota in E7. lia.
Defined.

Lemma loop_sleeps_right_witness : uv__loop_alive demo_loop = false <-> active_set demo_loop = ∅ /\ l_closing demo_loop = [].
Proof.
  exact (proj2 (loop_sleeps_right retry_script retry_allowed 100 demo_events demo_loop ltac:(lia) demo_allowed demo_runs)).
Defined.

(** The callbacks of a run, as handle and time. *)
Definition fires (r : outcome uv_loop_t) : option (list (nat * Z)) :=
  match r with Ret l => Some ((fun f => (f_handle f, f_now f)) <$> l_fired l) | _ => None end.

(** A negative delay, as an unsigned one, puts the deadline at the end of time. *)
Lemma negative_delay_late time d :
  0 <= time < 2 ^ 63 -> -(2 ^ 31) <= d < 0 -> 2 ^ 64 - 2 ^ 31 <= clamp time (delay_u64 d).
Proof.
  intros Ht Hd. unfold clamp, delay_u64, wrap.
  rewrite (Z.mod_eq d) by lia. replace (d / 2 ^ 64) with (-1) by (apply (Z.div_unique d (2 ^ 64) (-1) (2 ^ 64 + d)); lia).
  destruct (Z.ltb_spec ((time + (d - 2 ^ 64 * -1)) mod 2 ^ 64) (d - 2 ^ 64 * -1)); lia.
Qed.

Definition no_script (f : nat) (l : uv_loop_t) : list js_act := [].

(** What happens outside those promises, and with odd delays. Clearing an unknown id
    dereferences a null handle; clearing an interval twice fails an assertion of libuv or,
    once the close callback has run, uses freed memory. A negative delay is converted to
    an unsigned one, so the timer's deadline lies at the end of time and it never fires.
    [setInterval] with delay 0 fires once and never again, and its handle is never freed. *)
Theorem timer_misuse :
  loop_run no_script [EvScript [ClearInterval 7]] (loop_init 100) = UB /\
  loop_run no_script [EvScript [SetInterval 1 5 7; ClearInterval 7; ClearInterval 7]] (loop_init 100) = AssertFail /\
  loop_run no_script [EvScript [SetInterval 1 5 7; ClearInterval 7]; EvClosing; EvScript [ClearInterval 7]] (loop_init 100) = UB /\
  (forall time d, 0 <= time < 2 ^ 63 -> -(2 ^ 31) <= d < 0 -> 2 ^ 64 - 2 ^ 31 <= clamp time (delay_u64 d)) /\
  fires (loop_run no_script [EvScript [SetTimeout 1 (-1)]; EvTime (2 ^ 63); EvTimers] (loop_init 100)) = Some [] /\
  fires (loop_run no_script [EvScript [SetInterval 1 0 7]; EvTimers; EvTime 200; EvTimers; EvClosing; EvTimers] (loop_init 100)) = Some [(0%nat, 100)] /\
  fires (loop_run no_script [EvScript [SetInterval 1 5 7]; EvTime 105; EvTimers; EvTime 110; EvTimers] (loop_init 100)) = Some [(0%nat, 105); (0%nat, 110)].
Proof.
  do 3 (split; [vm_compute; reflexivity|]). split; [exact negative_delay_late|].
  split; [vm_compute; reflexivity|]. split; vm_compute; reflexivity.
Qed.

Lemma timer_misuse_witness : 2 ^ 64 - 2 ^ 31 <= clamp 100 (delay_u64 (-5)).
Proof. destruct timer_misuse as (_ & _ & _ & H & _). apply (H 100 (-5)); lia. Defined.
