(* ===== verification/EventLoop.v ===== *)
(** The event loop, [uv_run] of deps/libuv/src/unix/core.c, on the script timers, and the main
    program src/capy_main.cc.

    The timers, their heap and the closing of handles are those of the file Timers. What other
    handles do in a turn of the loop - the time that polling takes, the calls that I/O callbacks
    make, whether they keep the loop alive - is given for every turn. Loop watchers (idle,
    prepare, check), which the program has none of, and metrics are left out. *)

From S2P Require Import Prelude Heap Timers.

(** ** Part 1: the code *)

Inductive uv_run_mode := UV_RUN_DEFAULT | UV_RUN_ONCE | UV_RUN_NOWAIT.
#[global] Instance uv_run_mode_eq_dec : EqDecision uv_run_mode.
Proof. solve_decision. Defined.

(** A turn: whether the pending queue was empty before and what its callbacks do; whether
    something else but timers asks for a poll without waiting; the time after a poll with a
    timeout that begins at a time; what the callbacks of the poll do, and whether one of them
    calls [uv_stop]; the clock when the time is updated; whether other handles or requests are
    active at the end. *)
Record turn := mkTurn {
  tn_pending_empty : bool; tn_pending : uv_loop_t -> list js_act; tn_busy : bool; tn_poll : Z -> Z -> Z;
  tn_io : uv_loop_t -> list js_act; tn_stop : bool; tn_now : Z -> Z; tn_others : bool }.

(** [uv__loop_alive] with [others] for handles and requests that are not timers. *)
Definition loop_alive (others : bool) (l : uv_loop_t) : bool := uv__loop_alive l || others.

Definition uv__backend_timeout (stop_flag busy others : bool) (l : uv_loop_t) : outcome Z :=
  if negb stop_flag && ((0 <? l_active_handles l) || others) && negb busy && bool_decide (l_closing l = [])
  then uv__next_timeout l else Ret 0.

Section Run.

Context (script : nat -> uv_loop_t -> list js_act).

(** One turn of the [while] loop: [uv__run_pending], the poll, [uv__run_closing_handles] and
    the timers. *)
Definition run_turn (mode : uv_run_mode) (others : bool) (tn : turn) (l : uv_loop_t) : outcome uv_loop_t :=
  l ← run_acts (tn_pending tn l) l;
  timeout ← (match mode with
             | UV_RUN_DEFAULT => uv__backend_timeout false (tn_busy tn) others l
             | UV_RUN_ONCE => if tn_pending_empty tn then uv__backend_timeout false (tn_busy tn) others l else Ret 0
             | UV_RUN_NOWAIT => Ret 0
             end);
  let l := set_time (tn_poll tn (l_time l) timeout) l in
  l ← run_acts (tn_io tn l) l;
  l ← uv__run_closing_handles l;
  uv__run_timers script (set_time (tn_now tn (l_time l)) l).

(** The [while] loop; the result is [r], or [None] when there are no more turns to run. *)
Fixpoint run_loop (mode : uv_run_mode) (turns : list turn) (others stop_flag r : bool) (l : uv_loop_t) : outcome (option bool * uv_loop_t) :=
  if r && negb stop_flag then
    match turns with
    | [] => Ret (None, l)
    | tn :: turns =>
        l ← run_turn mode others tn l;
        let r := loop_alive (tn_others tn) l in
        match mode with
        | UV_RUN_DEFAULT => run_loop mode turns (tn_others tn) (tn_stop tn) r l
        | _ => Ret (Some r, l)
        end
    end
  else Ret (Some r, l).

(** [uv_run]; [now] is the clock. The stop flag is cleared at the end. *)
Definition uv_run (mode : uv_run_mode) (turns : list turn) (others stop_flag : bool) (now : Z -> Z) (l : uv_loop_t) : outcome (option bool * uv_loop_t) :=
  let r := loop_alive others l in
  let l := if r then l else set_time (now (l_time l)) l in
  l ← (match mode with
       | UV_RUN_DEFAULT => if r && negb stop_flag then uv__run_timers script (set_time (now (l_time l)) l) else Ret l
       | _ => Ret l
       end);
  run_loop mode turns others stop_flag r l.

(** [main]: the script's top-level code, [uv_run], and the references that
    [tear_down_runtime_env] frees. *)
Definition capy_main (acts : list js_act) (turns : list turn) (others : bool) (now : Z -> Z) (time : Z) : outcome (option bool * list nat * uv_loop_t) :=
  l ← run_acts acts (loop_init time);
  '(r, l) ← uv_run UV_RUN_DEFAULT turns others false now l;
  Ret (r, l_registered_cb l, l).

End Run.

(** ** Part 2: the phases of [uv_run] *)

Section Phases.

Context (script : nat -> uv_loop_t -> list js_act).

(** What the loop promises of its phases. Something is left to wait for: an active timer, a handle
    that is closing, or other handles and requests. *)
Definition keeps_alive (others : bool) (l : uv_loop_t) : bool :=
  bool_decide (active_set l <> ∅) || bool_decide (l_closing l <> []) || others.

(** How long a poll may wait. It must not wait at all in the mode for that, when callbacks were
    pending in the mode for one turn, when something else asks for it, when a handle is to be closed
    or when there is nothing to wait for; else until the next timer is due and no longer, and
    without limit only when there is no timer. *)
Definition no_wait (mode : uv_run_mode) (others : bool) (tn : turn) (l : uv_loop_t) : Prop :=
  mode = UV_RUN_NOWAIT \/ mode = UV_RUN_ONCE /\ tn_pending_empty tn = false \/ tn_busy tn = true \/ l_closing l <> [] \/
  active_set l = ∅ /\ others = false.
Definition wait_ok (mode : uv_run_mode) (others : bool) (tn : turn) (l : uv_loop_t) (timeout : Z) : Prop :=
  -1 <= timeout /\ (timeout = 0 <-> no_wait mode others tn l \/ exists x, due l x) /\
  (timeout = -1 -> active_set l = ∅) /\
  (0 < timeout -> (forall x t, l_timers l !! x = Some t -> t_active t = true -> l_time l + timeout <= t_timeout t) /\
     (timeout = INT_MAX \/ exists x t, l_timers l !! x = Some t /\ t_active t = true /\ t_timeout t = l_time l + timeout)).

(** A turn: the pending callbacks, a poll of the right length and its callbacks, the closing of
    handles, the clock and then the timers that are due. *)
Definition turn_phases (mode : uv_run_mode) (others : bool) (tn : turn) (l l' : uv_loop_t) : Prop :=
  exists l0 timeout l1, loop_run script [EvScript (tn_pending tn l)] l = Ret l0 /\ wait_ok mode others tn l0 timeout /\
    let t1 := tn_poll tn (l_time l0) timeout in
    loop_run script [EvTime t1; EvScript (tn_io tn (set_time t1 l0)); EvClosing] l0 = Ret l1 /\
    loop_run script [EvTime (tn_now tn (l_time l1)); EvTimers] l1 = Ret l'.

(** The turns: while something is left ([r]) and no stop was asked for, and only one in the modes
    for that. The result says whether something is left at the end; [None] is a loop that has taken
    all the turns given and goes on. *)
Inductive phases (mode : uv_run_mode) : list turn -> bool -> bool -> bool -> uv_loop_t -> option bool -> uv_loop_t -> Prop :=
| ph_end turns others stop r l : r = false \/ stop = true -> phases mode turns others stop r l (Some r) l
| ph_more others l : phases mode [] others false true l None l
| ph_once tn turns others l l1 : mode <> UV_RUN_DEFAULT -> turn_phases mode others tn l l1 ->
    phases mode (tn :: turns) others false true l (Some (keeps_alive (tn_others tn) l1)) l1
| ph_turn tn turns others l l1 res l2 : mode = UV_RUN_DEFAULT -> turn_phases mode others tn l l1 ->
    phases mode turns (tn_others tn) (tn_stop tn) (keeps_alive (tn_others tn) l1) l1 res l2 ->
    phases mode (tn :: turns) others false true l res l2.

(** Before the turns: the clock when nothing is left; the clock and the due timers in the default
    mode. *)
Definition before_turns (mode : uv_run_mode) (others stop : bool) (now : Z -> Z) (l l0 : uv_loop_t) : Prop :=
  if keeps_alive others l then
    if bool_decide (mode = UV_RUN_DEFAULT) && negb stop then loop_run script [EvTime (now (l_time l)); EvTimers] l = Ret l0 else l0 = l
  else l0 = set_time (now (l_time l)) l.

Context (Hscript : forall f l, tinv l -> acts_allowed (script f l) l).

(** The clock does not run backwards, and callbacks do only what scripts may do. *)
Definition clock_ok (f : Z -> Z) : Prop := forall t, 0 <= t < 2 ^ 64 -> t <= f t < 2 ^ 64.
Definition turn_ok (tn : turn) : Prop :=
  (forall timeout, clock_ok (fun t => tn_poll tn t timeout)) /\ clock_ok (tn_now tn) /\
  (forall l, tinv l -> acts_allowed (tn_pending tn l) l) /\ (forall l, tinv l -> acts_allowed (tn_io tn l) l).

Lemma active_none l : tinv l -> (0 <? l_active_handles l) = bool_decide (active_set l <> ∅).
Proof.
  intros I. rewrite (ti_active _ I). case_bool_decide as E.
  - apply Z.ltb_lt. assert (size (active_set l) <> 0%nat) by (by intros ?%size_empty_inv%leibniz_equiv). lia.
  - apply Z.ltb_ge. destruct (decide (active_set l = ∅)) as [->|]; [by rewrite size_empty|done].
Qed.

Lemma loop_alive_ok others l : tinv l -> loop_alive others l = keeps_alive others l.
Proof.
  intros I. unfold loop_alive, uv__loop_alive, keeps_alive. rewrite (active_none l I). do 2 f_equal.
  destruct (l_closing l); [done|]. by rewrite bool_decide_false, bool_decide_true.
Qed.

Lemma backend_wait_ok mode others tn l : tinv l ->
  exists timeout, (match mode with
    | UV_RUN_DEFAULT => uv__backend_timeout false (tn_busy tn) others l
    | UV_RUN_ONCE => if tn_pending_empty tn then uv__backend_timeout false (tn_busy tn) others l else Ret 0
    | UV_RUN_NOWAIT => Ret 0 end) = Ret timeout /\ wait_ok mode others tn l timeout.
Proof.
  intros I. assert (no_wait mode others tn l -> wait_ok mode others tn l 0) as Hz.
  { intros H. split; [lia|]. split; [split; [by left|done]|]. split; [lia|lia]. }
  assert (mode <> UV_RUN_NOWAIT -> (mode = UV_RUN_ONCE -> tn_pending_empty tn = true) ->
    exists timeout, uv__backend_timeout false (tn_busy tn) others l = Ret timeout /\ wait_ok mode others tn l timeout) as Hb.
  { intros H1 H2. unfold uv__backend_timeout. rewrite (active_none l I). cbn [negb andb].
    destruct (bool_decide (active_set l <> ∅) || others) eqn:Ea.
    2: { apply orb_false_iff in Ea as [Ea%bool_decide_eq_false ->]. exists 0. split; [done|]. apply Hz. right; right; right; right.
         split; [|done]. by destruct (decide (active_set l = ∅)). }
    destruct (tn_busy tn) eqn:Eb; cbn [negb andb]; [exists 0; split; [done|]; apply Hz; by right; right; left|].
    destruct (decide (l_closing l = [])) as [Ec|Ec]; [rewrite (bool_decide_true _ Ec)|rewrite (bool_decide_false _ Ec)].
    2: { exists 0. split; [done|]. apply Hz. by right; right; right; left. }
    destruct (next_timeout_spec script Hscript l I) as (r & -> & Hm & H0 & Hpos & Hge). exists r. split; [done|].
    split; [lia|]. split; [|split; [by intros ->%Hm|done]]. rewrite H0. split; [by right|]. intros [Hn|?]; [|done]. exfalso.
    destruct Hn as [?|[[? ?]|[?|[?|[E ->]]]]]; [done| | | |]; try congruence.
    - rewrite H2 in *; done.
    - rewrite orb_false_r in Ea. by apply bool_decide_eq_true in Ea. }
  destruct mode; [by apply Hb| |exists 0; split; [done|]; apply Hz; by left].
  destruct (tn_pending_empty tn) eqn:Ep; [by apply Hb|]. exists 0. split; [done|]. apply Hz. right; left. done.
Qed.

Lemma turn_run mode others tn l :
  tinv l -> once l -> turn_ok tn ->
  exists l', run_turn script mode others tn l = Ret l' /\ turn_phases mode others tn l l' /\ tinv l' /\ once l'.
Proof.
  intros I O (Hp & Hn & H1 & H2). unfold run_turn.
  destruct (run_acts_spec _ l I (H1 l I)) as (l1 & E1 & I1 & Q1). rewrite E1. cbn [mbind outcome_bind].
  destruct (backend_wait_ok mode others tn l1 I1) as (timeout & -> & Hw).
  cbn [mbind outcome_bind]. set (t1 := tn_poll tn (l_time l1) timeout).
  assert (tinv (set_time t1 l1)) as I2 by (apply tinv_time; [done|]; apply (Hp timeout); apply I1).
  destruct (run_acts_spec _ _ I2 (H2 _ I2)) as (l3 & E3 & I3 & Q3). rewrite E3. cbn [mbind outcome_bind].
  assert (once l3) as O3 by (eapply once_quiet; [|exact Q3]; pose proof (once_quiet _ _ O Q1) as []; by constructor).
  destruct (loop_do_spec script Hscript EvClosing l3 I3 O3 Logic.I) as (l4 & E4 & I4 & O4). cbn [loop_do] in E4. rewrite E4. cbn [mbind outcome_bind].
  set (t2 := tn_now tn (l_time l4)).
  assert (tinv (set_time t2 l4)) as I5 by (apply tinv_time; [done|]; apply Hn; apply I4).
  assert (once (set_time t2 l4)) as O5 by (destruct O4; by constructor).
  destruct (loop_do_spec script Hscript EvTimers _ I5 O5 Logic.I) as (l' & E' & I' & O'). cbn [loop_do] in E'. exists l'. split; [done|]. split; [|done].
  exists l1, timeout, l4. cbn [loop_run loop_do]. rewrite E1. split; [done|]. split; [done|]. cbv zeta. fold t1. cbn [mbind outcome_bind]. rewrite E3.
  cbn [mbind outcome_bind]. rewrite E4. split; [done|]. fold t2. by rewrite E'.
Qed.

Lemma run_loop_phases turns : forall mode others stop l r,
  tinv l -> once l -> Forall turn_ok turns ->
  exists res l', run_loop script mode turns others stop r l = Ret (res, l') /\ phases mode turns others stop r l res l' /\ tinv l' /\ once l'.
Proof.
  induction turns as [|tn turns IH]; intros mode others stop l r I O Ht; cbn [run_loop].
  all: destruct (r && negb stop) eqn:Er; [apply andb_true_iff in Er as [-> Es%negb_true_iff]; subst stop|].
  2,4: exists (Some r), l; split; [done|]; split; [|done]; constructor; destruct r, stop; auto; discriminate Er.
  { exists None, l. split; [done|]. split; [constructor|done]. }
  apply list.Forall_cons in Ht as [Hn Ht].
  destruct (turn_run mode others tn l I O Hn) as (l1 & -> & Hp & I1 & O1). cbn [mbind outcome_bind]. rewrite (loop_alive_ok _ _ I1).
  destruct mode; [|eexists _, l1; split; [done|]; split; [by eapply ph_once|done]..].
  destruct (IH UV_RUN_DEFAULT (tn_others tn) (tn_stop tn) l1 (keeps_alive (tn_others tn) l1) I1 O1 Ht) as (res & l' & E & Hph & I' & O').
  exists res, l'. split; [done|]. split; [by eapply ph_turn|done].
Qed.

Lemma uv_run_phases mode turns others stop now l :
  tinv l -> once l -> clock_ok now -> Forall turn_ok turns ->
  exists res l0 l', uv_run script mode turns others stop now l = Ret (res, l') /\ before_turns mode others stop now l l0 /\
    phases mode turns others stop (keeps_alive others l) l0 res l' /\ tinv l' /\ once l'.
Proof.
  intros I O Hnow Ht. unfold uv_run, before_turns. rewrite (loop_alive_ok _ _ I). set (r := keeps_alive others l).
  assert (tinv (set_time (now (l_time l)) l) /\ once (set_time (now (l_time l)) l)) as [It Ot].
  { split; [apply tinv_time; [done|]; apply Hnow, I|]. destruct O. by constructor. }
  destruct r eqn:Er.
  2: { assert (match mode with UV_RUN_DEFAULT => if false && negb stop then uv__run_timers script (set_time (now (l_time (set_time (now (l_time l)) l))) (set_time (now (l_time l)) l)) else Ret (set_time (now (l_time l)) l) | _ => Ret (set_time (now (l_time l)) l) end
         = Ret (set_time (now (l_time l)) l)) as -> by by destruct mode.
       cbn [mbind outcome_bind]. destruct (run_loop_phases turns mode others stop _ false It Ot Ht) as (res & l' & E & Hp & I' & O').
       exists res, (set_time (now (l_time l)) l), l'. done. }
  destruct (bool_decide (mode = UV_RUN_DEFAULT) && negb stop) eqn:Eb.
  - apply andb_true_iff in Eb as [->%bool_decide_eq_true Es%negb_true_iff]. subst stop. cbn [andb negb].
    destruct (loop_do_spec script Hscript EvTimers _ It Ot Logic.I) as (l1 & E1 & I1 & O1). cbn [loop_do] in E1. rewrite E1. cbn [mbind outcome_bind].
    destruct (run_loop_phases turns UV_RUN_DEFAULT others false l1 true I1 O1 Ht) as (res & l' & E & Hp & I' & O').
    exists res, l1, l'. split; [done|]. split; [|done]. cbn [loop_run loop_do mbind outcome_bind]. by rewrite E1.
  - assert (match mode with UV_RUN_DEFAULT => if true && negb stop then uv__run_timers script (set_time (now (l_time l)) l) else Ret l | _ => Ret l end = Ret l) as ->.
    { destruct mode; [|done..]. rewrite bool_decide_true in Eb by done. cbn [andb] in *. by rewrite Eb. }
    cbn [mbind outcome_bind]. destruct (run_loop_phases turns mode others stop l true I O Ht) as (res & l' & E & Hp & I' & O').
    exists res, l, l'. done.
Qed.

End Phases.

(** ** Part 3: scripts of timeouts run to their end *)

(** The sum of the numbers in a map. *)
Definition sum_map (m : gmap nat nat) : nat := map_fold (fun _ n a => (n + a)%nat) 0%nat m.

Lemma sum_map_insert m x n : m !! x = None -> sum_map (<[x := n]> m) = (n + sum_map m)%nat.
Proof. intros H. unfold sum_map. apply map_fold_insert_L; [intros; lia|done]. Qed.

Lemma sum_map_delete m x n : m !! x = Some n -> sum_map m = (n + sum_map (delete x m))%nat.
Proof. intros H. rewrite <- (insert_delete_id m x n H) at 1. apply sum_map_insert. apply lookup_delete_eq. Qed.

Lemma sum_map_update m x n n' : m !! x = Some n -> (sum_map (<[x := n']> m) + n = n' + sum_map m)%nat.
Proof.
  intros H. rewrite (sum_map_delete m x n H). rewrite <- insert_delete_eq, sum_map_insert by apply lookup_delete_eq. lia.
Qed.

(** Setting timeouts, as scripts do. *)
Lemma set_timeout_spec g d l :
  tinv l -> act_allowed l (SetTimeout g d) -> 0 <= d < 2 ^ 31 -> l_time l + 2 ^ 31 < 2 ^ 64 ->
  exists l', js_call (SetTimeout g d) l = Ret l' /\ tinv l' /\ quiet l l' /\ l_ready l' = l_ready l /\ l_next l' = S (l_next l) /\
    l_registered_cb l' = l_registered_cb l ++ [g] /\ l_closing l' = l_closing l /\ l_timers l !! l_next l = None /\
    exists t, l_timers l' = <[l_next l := t]> (l_timers l) /\ t_cb t = Some timer_libuv_cb /\ t_timeout t = l_time l + d /\
      t_active t = true /\ t_closing t = false /\ t_data t = g.
Proof.
  intros I Ha Hd Ht. pose proof (ti_time _ I) as Ht0.
  assert (l_timers l !! l_next l = None) as Hx.
  { destruct (l_timers l !! l_next l) eqn:E; [|done]. pose proof (ti_fresh _ I (l_next l) ltac:(eauto)). lia. }
  destruct (js_call_spec (SetTimeout g d) l I Ha) as (l' & Hr & I' & Q). exists l'. split; [done|]. split; [done|]. split; [done|].
  cbn [js_call] in Hr. unfold SetTimeOutFunc in Hr.
  pose proof (create_spec g (l_registered_cb l ++ [g]) timer_libuv_cb (delay_u64 d) 0 l I Ha ltac:(lia) ltac:(done)) as H.
  destruct (uv_timer_init _ _) as [x l0]. destruct H as (l1 & t' & E & -> & Et & T & R & Ec & _ & _ & _ & En & _ & Eb & _).
  rewrite E in Hr. cbn [mbind outcome_bind] in Hr. simplify_eq. split; [done|]. split; [done|]. split; [done|]. split; [done|]. split; [done|].
  eexists. split; [exact T|]. cbn. split; [done|]. split; [|done].
  unfold clamp, delay_u64. rewrite (wrap_small 64 d) by (unfold uint_ok; lia). rewrite wrap_small by (unfold uint_ok; lia).
  case_match; reflect_bools; lia.
Qed.

Lemma close_keeps x l l' : uv_close x l = Ret l' -> l_next l' = l_next l /\ l_registered_cb l' = l_registered_cb l.
Proof.
  unfold uv_close, uv_timer_stop, uv__make_close_pending. intros H. ret_inv H t E1. case_match; [done|]. ret_inv H l1 E2. ret_inv H t1 E3.
  case_match; simplify_eq. ret_inv E2 t2 E4. case_match; [ret_inv E2 h E5|]; by simplify_eq.
Qed.

Section Nested.

Context (script : nat -> uv_loop_t -> list js_act) (Hscript : forall f l, tinv l -> acts_allowed (script f l) l).

(** Functions set at most [K] timeouts, of functions of lower rank. *)
Context (rank : nat -> nat) (K : nat).
Definition lower (r : nat) (a : js_act) : Prop := exists g d, a = SetTimeout g d /\ (rank g < r)%nat /\ 0 <= d < 2 ^ 31.
Hypothesis Hlower : forall f l, Forall (lower (rank f)) (script f l).
Hypothesis HK : forall f l, (length (script f l) <= K)%nat.

(** How many callbacks a function can lead to, at most. *)
Definition wt (f : nat) : nat := (S K ^ rank f)%nat.
Definition timer_wt (t : uv_timer_t) : nat := if t_closing t then 0%nat else wt (t_data t).
Definition weight (l : uv_loop_t) : nat := sum_map (timer_wt <$> l_timers l).

(** All timers are timeouts, due within the time that one poll can wait; those that are
    not closing are active, about to be called or being called; and every timeout ever set has
    fired or is one of them. *)
Record nest (running : list nat) (l : uv_loop_t) : Prop := mkNest {
  n_cb : forall x t, l_timers l !! x = Some t -> t_cb t = Some timer_libuv_cb;
  n_far : forall x t, l_timers l !! x = Some t -> t_timeout t <= l_time l + INT_MAX;
  n_live : forall x t, l_timers l !! x = Some t -> t_closing t = false -> t_active t = true \/ x ∈ l_ready l \/ x ∈ running;
  n_all : forall x, (x < l_next l)%nat -> x ∈ timeouts_fired l \/ exists t, l_timers l !! x = Some t /\ t_closing t = false;
  n_cbs : length (l_registered_cb l) = l_next l }.

Lemma acts_nest run r acts : forall l,
  tinv l -> nest run l -> acts_allowed acts l -> Forall (lower r) acts -> l_time l + 2 ^ 31 < 2 ^ 64 ->
  exists l', run_acts acts l = Ret l' /\ tinv l' /\ nest run l' /\ quiet l l' /\ l_ready l' = l_ready l /\ l_closing l' = l_closing l /\
    (weight l' <= weight l + length acts * S K ^ pred r)%nat /\ l_next l' = (l_next l + length acts)%nat.
Proof.
  induction acts as [|a acts IH]; intros l I N Ha Hl Ht.
  { exists l. split; [done|]. split; [done|]. split; [done|]. split; [reflexivity|]. split; [done|]. split; [done|]. cbn. lia. }
  apply list.Forall_cons in Hl as [(g & d & -> & Hr & Hd) Hl]. destruct Ha as [Ha Has]. cbn [run_acts].
  destruct (set_timeout_spec g d l I Ha Hd Ht) as (l1 & E1 & I1 & Q1 & R1 & En & Eb & Ec & Hx & t & T & Hcb & Hto & Hact & Hcl & Hdt).
  rewrite E1. cbn [mbind outcome_bind]. pose proof (qt_time _ _ Q1) as Et. pose proof (qt_fired _ _ Q1) as Ef.
  assert (nest run l1) as N1.
  { destruct N as [N1 N2 N3 N4 N5]. constructor.
    - intros y u. rewrite T. intros [[_ <-]|[_ H]]%lookup_insert_Some; [done|]. by eapply N1.
    - intros y u. rewrite T, Et. intros [[_ <-]|[_ H]]%lookup_insert_Some; [unfold INT_MAX; lia|]. by eapply N2.
    - intros y u. rewrite T, R1. intros [[_ <-]|[_ H]]%lookup_insert_Some; [by left|]. by eapply N3.
    - intros y. rewrite En, T. unfold timeouts_fired. rewrite Ef. intros Hy. destruct (decide (y = l_next l)) as [->|Hne].
      + right. exists t. by rewrite lookup_insert_eq.
      + rewrite lookup_insert_ne by done. apply N4. lia.
    - rewrite Eb, length_app, N5, En. cbn. lia. }
  destruct (IH l1 I1 N1 (Has l1 E1) Hl ltac:(lia)) as (l' & E' & I' & N' & Q' & R' & Ec' & W' & En').
  exists l'. split; [done|]. split; [done|]. split; [done|]. split; [by etransitivity|]. split; [congruence|]. split; [congruence|].
  split; [|rewrite En', En; cbn; lia].
  assert (weight l1 = (wt g + weight l)%nat) as W1.
  { unfold weight. rewrite T, fmap_insert, sum_map_insert by (rewrite lookup_fmap, Hx; done). unfold timer_wt at 1. by rewrite Hcl, Hdt. }
  assert (wt g <= S K ^ pred r)%nat by (unfold wt; apply Nat.pow_le_mono_r; lia). cbn [length]. lia.
Qed.

(** A function's callbacks weigh less than the function. *)
Lemma script_lighter f l : (length (script f l) * S K ^ pred (rank f) < wt f)%nat.
Proof.
  unfold wt. pose proof (HK f l) as H. destruct (rank f) as [|r] eqn:E.
  - pose proof (Hlower f l) as Hl. rewrite E in Hl. destruct (script f l) as [|a acts]; [cbn; lia|].
    apply list.Forall_cons in Hl as [(g & d & _ & ? & _) _]. lia.
  - cbn [pred]. rewrite Nat.pow_succ_r'. assert (S K ^ r <> 0)%nat by (apply Nat.pow_nonzero; lia). nia.
Qed.

(** One callback of [uv__run_timers]. *)
Lemma fire_nest x q l t :
  tinv l -> nest [] l -> l_time l + 2 ^ 31 < 2 ^ 64 -> l_ready l = x :: q -> l_timers l !! x = Some t ->
  let l0 := log_fire (mkFire x timer_libuv_cb (t_timeout t) (l_time l)) (set_ready q l) in
  exists l', uv_timer_again x l0 = Ret (0, l0) /\ call_timer_cb script x l0 = Ret l' /\ tinv l' /\ nest [] l' /\
    l_time l' = l_time l /\ l_ready l' = q /\ (l_next l <= l_next l')%nat /\ (weight l' < weight l)%nat.
Proof.
  intros I N Ht Er Htx l0. pose proof (n_cb _ _ N x t Htx) as Hcb.
  destruct (ti_ready _ I x) as (t' & Htx' & Ha & Hc & _ & Hto); [rewrite Er; by left|]. rewrite Htx in Htx'. simplify_eq.
  pose proof (ti_ready_nodup _ I) as Hnd. rewrite Er in Hnd. apply list.NoDup_cons in Hnd as [Hxq _].
  pose proof (ti_timer _ I x t' Htx) as (_ & _ & _ & _ & _ & Hrep). specialize (Hrep Hcb).
  assert (tinv l0) as I0 by by apply tinv_log, (tinv_pop l x q).
  unfold uv_timer_again. rewrite (deref_some l0 x t') by done. cbn [mbind outcome_bind]. rewrite Hcb, Hrep. cbn [Z.eqb mbind outcome_bind].
  assert (forall y, y ∈ timeouts_fired l0 <-> y ∈ timeouts_fired l \/ y = x) as Hfired.
  { intros y. unfold timeouts_fired, l0. cbn [log_fire l_fired set_ready]. rewrite list.filter_app, fmap_app, elem_of_app.
    rewrite filter_cons_True by done. cbn. by rewrite list_elem_of_singleton. }
  assert (nest [x] l0) as N0.
  { destruct N as [N1 N2 N3 N4 N5]. constructor; try done.
    - intros y u Hy Hcy. destruct (N3 y u Hy Hcy) as [H|[H|H]]; [by left| |set_solver]. rewrite Er in H. cbn. set_solver.
    - intros y Hy. destruct (N4 y Hy) as [H|H]; [left; apply Hfired; by left|by right]. }
  unfold call_timer_cb. rewrite (deref_some l0 x t') by done. cbn [mbind outcome_bind]. rewrite Hcb.
  destruct (acts_nest [x] (rank (t_data t')) (script (t_data t') l0) l0 I0 N0 (Hscript _ _ I0) (Hlower _ _) Ht)
    as (l2 & E2 & I2 & N2 & Q2 & R2 & Ec2 & W2 & En2). rewrite E2. cbn [mbind outcome_bind].
  pose proof (qt_timeouts _ _ Q2 x t' Htx Hcb) as Htx2.
  destruct (close_spec x l2 t' I2 Htx2 Hc) as (l3 & E3 & I3 & T3 & R3 & Cl3 & Tm3 & Fi3 & Fr3).
  assert (l_next l3 = l_next l2 /\ l_registered_cb l3 = l_registered_cb l2) as [En3 Eb3].
  { by eapply close_keeps. }
  exists l3. split; [done|]. split; [done|]. split; [done|].
  change (l_ready l0) with q in R2. change (l_next l0) with (l_next l) in En2. split; [|split; [|split; [|split]]].
  - destruct N2 as [N1' N2' N3' N4' N5']. constructor.
    + intros y u. rewrite T3. intros [[_ <-]|[_ H]]%lookup_insert_Some; [done|]. by eapply N1'.
    + intros y u. rewrite T3, Tm3. intros [[_ <-]|[_ H]]%lookup_insert_Some; [exact (N2' x t' Htx2)|]. by eapply N2'.
    + intros y u. rewrite T3, R3, R2. intros [[_ <-]|[Hne H]]%lookup_insert_Some Hcy; [done|].
      destruct (N3' y u H Hcy) as [Hy|[Hy|Hy]]; [by left| |set_solver]. right; left. rewrite R2 in Hy.
      apply list_elem_of_filter. split; [congruence|done].
    + intros y. rewrite En3, T3. unfold timeouts_fired. rewrite Fi3. intros Hy. destruct (decide (y = x)) as [->|Hne].
      * left. fold (timeouts_fired l2). unfold timeouts_fired. rewrite (qt_fired _ _ Q2). apply Hfired. by right.
      * rewrite lookup_insert_ne by done. by apply N4'.
    + by rewrite Eb3, En3.
  - rewrite Tm3. exact (qt_time _ _ Q2).
  - rewrite R3, R2. by apply filter_ne_id.
  - lia.
  - assert (weight l3 + wt (t_data t') = weight l2)%nat as W3.
    { unfold weight. rewrite T3, fmap_insert. pose proof (sum_map_update (timer_wt <$> l_timers l2) x (wt (t_data t')) 0) as H.
      change (timer_wt (closed_timer t')) with 0%nat. rewrite H; [done|]. rewrite lookup_fmap, Htx2. cbn. unfold timer_wt. by rewrite Hc. }
    change (weight l0) with (weight l) in W2. pose proof (script_lighter (t_data t') l0). lia.
Qed.

Lemma dispatch_nest fuel : forall l,
  tinv l -> nest [] l -> l_time l + 2 ^ 31 < 2 ^ 64 -> (length (l_ready l) <= fuel)%nat ->
  exists l', dispatch_ready script fuel l = Ret l' /\ tinv l' /\ nest [] l' /\ l_time l' = l_time l /\ l_ready l' = [] /\
    (l_next l <= l_next l')%nat /\ (weight l' + length (l_ready l) <= weight l)%nat.
Proof.
  induction fuel as [|fuel IH]; intros l I N Ht Hf; cbn [dispatch_ready]; destruct (l_ready l) as [|x q] eqn:Er.
  1,3: exists l; repeat (split; [done|]); cbn; lia.
  { cbn in Hf. lia. }
  destruct (ti_ready _ I x) as (t & Htx & _); [rewrite Er; by left|].
  rewrite (deref_some _ _ _ Htx). cbn [mbind outcome_bind]. rewrite (n_cb _ _ N x t Htx).
  destruct (fire_nest x q l t I N Ht Er Htx) as (l1 & Ea & Ec & I1 & N1 & Et & Er1 & En1 & W1).
  cbn [l_time set_ready]. rewrite Ea. cbn [mbind outcome_bind]. rewrite Ec. cbn [mbind outcome_bind].
  destruct (IH l1 I1 N1 ltac:(lia)) as (l' & E & I' & N' & Et' & Er' & En' & W'); [rewrite Er1; cbn in Hf; lia|].
  exists l'. split; [done|]. split; [done|]. split; [done|]. split; [congruence|]. split; [done|]. split; [lia|]. rewrite Er1 in W'. cbn [length]. lia.
Qed.

(** [uv__run_timers] lightens the load by at least the number of timers due. *)
Lemma run_timers_nest l :
  tinv l -> nest [] l -> l_ready l = [] -> l_time l + 2 ^ 31 < 2 ^ 64 ->
  exists l', uv__run_timers script l = Ret l' /\ tinv l' /\ nest [] l' /\ l_time l' = l_time l /\ l_ready l' = [] /\ (l_next l <= l_next l')%nat /\
    (weight l' <= weight l)%nat /\ ((exists x, due l x) -> (weight l' < weight l)%nat) /\
    ((weight l' < weight l)%nat \/ l_closing l' = l_closing l).
Proof.
  intros I N Er Ht. unfold uv__run_timers. pose proof (tinv_no_ready _ I) as I0.
  rewrite (heap_ok_nelts _ _ _ (ti_heap _ I)), Nat2Z.id.
  destruct (collect_spec (S (size (active_set l))) (set_ready [] l) I0) as (l1 & -> & I1 & [[E1 E2 E3 E4 E5 E6 E7] _ _ C4 _ C6]).
  { change (active_set (set_ready [] l)) with (active_set l). lia. }
  { constructor. }
  { by intros p a ?%not_elem_of_nil. }
  cbn [mbind outcome_bind]. cbn [set_ready l_time l_closing l_next l_registered_cb l_fired l_freed l_timers l_ready] in E1, E2, E3, E4, E6, C4, C6.
  assert (nest [] l1) as N1.
  { destruct N as [N1 N2 N3 N4 N5]. constructor.
    - intros y u Hy. destruct (C6 y) as [H|(v & Hv & H & _)]; rewrite H in Hy; [by eapply N1|]. simplify_eq. cbn. by eapply N1.
    - intros y u Hy. rewrite E1. destruct (C6 y) as [H|(v & Hv & H & _)]; rewrite H in Hy; [by eapply N2|]. simplify_eq. cbn. by eapply N2.
    - intros y u Hy Hc. destruct (C6 y) as [H|(v & Hv & H & Hr)]; [|auto]. rewrite H in Hy. rewrite Er in N3.
      destruct (N3 y u Hy Hc) as [Ha|[Ha|Ha]]; [by left|set_solver|set_solver].
    - intros y. rewrite E3. unfold timeouts_fired. rewrite E6. intros Hy. destruct (N4 y Hy) as [H|(u & Hu & Hc)]; [by left|right].
      destruct (C6 y) as [H|(v & Hv & H & _)]; [exists u; by rewrite H|]. simplify_eq. eexists. by split.
    - congruence. }
  assert (weight l1 = weight l) as W1.
  { unfold weight. f_equal. apply map_eq. intros y. rewrite !lookup_fmap. destruct (C6 y) as [->|(v & -> & -> & _)]; done. }
  destruct (dispatch_nest (length (l_ready l1)) l1 I1 N1 ltac:(lia) ltac:(lia)) as (l' & Ed & I' & N' & Et & Er' & En' & W').
  exists l'. split; [done|]. split; [done|]. split; [done|]. split; [congruence|]. split; [done|]. split; [lia|]. split; [lia|].
  split.
  - intros [x Hx]. assert (x ∈ l_ready l1) as Hin by (apply C4; right; exact Hx). destruct (l_ready l1); [set_solver|]. cbn [length] in W'. lia.
  - destruct (l_ready l1) eqn:Er1; [right|left; cbn [length] in W'; lia]. cbn [length dispatch_ready] in Ed. rewrite Er1 in Ed. by simplify_eq.
Qed.

(** The close callbacks take the closing handles away and nothing else. *)
Lemma finish_all_effect p : forall l l', finish_all p l = Ret l' ->
  (forall x, l_timers l' !! x = if bool_decide (x ∈ p) then None else l_timers l !! x) /\ l_time l' = l_time l /\
  l_ready l' = l_ready l /\ l_next l' = l_next l /\ l_fired l' = l_fired l /\ l_registered_cb l' = l_registered_cb l /\
  weight l' = weight l.
Proof.
  induction p as [|x p IH]; intros l l' H; cbn [finish_all] in H.
  { simplify_eq. split; [|done]. intros x. rewrite bool_decide_false; [done|set_solver]. }
  ret_inv H l1 E. unfold uv__finish_close in E. ret_inv E t Et. case_match eqn:Ec; [done|]. simplify_eq. reflect_bools.
  destruct (IH _ _ H) as (Ht & H2 & H3 & H4 & H5 & H6 & H7). split; [|repeat (split; [done|])].
  2: { rewrite H7. unfold weight. cbn [on_close l_timers]. rewrite fmap_delete. unfold deref in Et. destruct (l_timers l !! x) as [u|] eqn:Ex; [|done].
       simplify_eq. rewrite (sum_map_delete (timer_wt <$> l_timers l) x 0); [done|]. rewrite lookup_fmap, Ex. cbn. unfold timer_wt.
       match goal with H : t_closing t = true |- _ => by rewrite H end. }
  intros y. rewrite Ht. cbn [on_close l_timers].
  destruct (decide (y = x)) as [->|Hne].
  - rewrite lookup_delete_eq, (bool_decide_true (x ∈ x :: p)) by set_solver. by case_bool_decide.
  - rewrite lookup_delete_ne by done. assert (y ∈ x :: p <-> y ∈ p) as Hiff by set_solver. by rewrite (bool_decide_ext _ _ Hiff).
Qed.

Lemma closing_nest l : tinv l -> nest [] l -> l_ready l = [] ->
  exists l', uv__run_closing_handles l = Ret l' /\ tinv l' /\ nest [] l' /\ l_time l' = l_time l /\ l_ready l' = [] /\ l_closing l' = [] /\
    l_next l' = l_next l /\ weight l' = weight l /\ forall x, due l' x <-> due l x.
Proof.
  intros I N Er. destruct (closing_spec script Hscript l I) as (l' & E & I' & Ec & _ & _). exists l'. split; [done|]. split; [done|].
  destruct (finish_all_effect _ _ _ E) as (Ht & Et & Er' & En & Ef & Eb & Ew). cbn in Ht, Et, Er', En, Ef, Eb.
  assert (forall x t, l_timers l !! x = Some t -> t_closing t = false -> l_timers l' !! x = Some t) as Hkeep.
  { intros x t Hx Hc. rewrite Ht, bool_decide_false; [done|]. intros (u & Hu & Hcu)%(ti_closing _ I). congruence. }
  assert (forall x t, l_timers l' !! x = Some t -> l_timers l !! x = Some t /\ x ∉ l_closing l) as Hback.
  { intros x t. rewrite Ht. case_bool_decide; [done|]. auto. }
  assert (nest [] l') as N'.
  { destruct N as [N1 N2 N3 N4 N5]. constructor.
    - intros x t [Hx _]%Hback. by eapply N1.
    - intros x t [Hx _]%Hback. rewrite Et. by eapply N2.
    - intros x t [Hx _]%Hback. rewrite Er'. by apply N3.
    - intros x. rewrite En. unfold timeouts_fired. rewrite Ef. intros Hx. destruct (N4 x Hx) as [H|(t & H & Hc)]; [by left|right].
      exists t. split; [by apply Hkeep|done].
    - congruence. }
  split; [done|]. split; [done|]. split; [congruence|]. split; [done|]. split; [done|]. split.
  - exact Ew.
  - intros x. unfold due. rewrite Et. split.
    + intros (t & [Hx _]%Hback & H). by exists t.
    + intros (t & Hx & Ha & Hd). exists t. split; [|done]. apply Hkeep; [done|].
      destruct (t_closing t) eqn:Hc; [|done]. pose proof (ti_timer _ I x t Hx) as (_ & _ & H & _). rewrite (H Hc) in Ha. done.
Qed.

(** A turn in which nothing but timers happens, and in which polling and the clock are late by
    at most [D] milliseconds. *)
Definition idle_turn (D : Z) (tn : turn) : Prop :=
  (forall l, tn_pending tn l = []) /\ (forall l, tn_io tn l = []) /\ tn_busy tn = false /\ tn_stop tn = false /\ tn_others tn = false /\
  (forall t timeout, t + Z.max 0 timeout <= tn_poll tn t timeout <= t + Z.max 0 timeout + D) /\
  (forall t, t <= tn_now tn t <= t + D).

(** What is left to do: two turns for each callback, one for closed handles. *)
Definition to_do (l : uv_loop_t) : nat := (2 * weight l + (if bool_decide (l_closing l = []) then 0 else 1))%nat.

Definition in_time (D : Z) (l : uv_loop_t) : Prop := l_time l + (Z.of_nat (to_do l) + 1) * (2 ^ 31 + 2 * D) < 2 ^ 63.

Lemma nest_time t l : nest [] l -> l_time l <= t -> nest [] (set_time t l).
Proof. intros [N1 N2 N3 N4 N5] Ht. constructor; try done. intros x u Hx. cbn. specialize (N2 x u Hx). lia. Qed.

(** The poll waits until a timer is due, or not at all when handles are to be closed. *)
Lemma sleep_nest l :
  tinv l -> nest [] l -> l_ready l = [] -> loop_alive false l = true ->
  exists r, uv__backend_timeout false false false l = Ret r /\ 0 <= r <= INT_MAX /\
    (l_closing l = [] -> forall t, l_time l + r <= t -> exists x, due (set_time t l) x).
Proof.
  intros I N Er Hal. unfold loop_alive, uv__loop_alive in Hal. unfold uv__backend_timeout. rewrite !orb_false_r in *. cbn [negb andb].
  rewrite andb_true_r. case_bool_decide as Ec; [|rewrite andb_false_r; exists 0; split; [done|]; split; [unfold INT_MAX; lia|done]].
  rewrite andb_true_r. cbn [negb] in Hal. rewrite orb_false_r in Hal. rewrite Hal.
  destruct (next_timeout_spec script Hscript l I) as (r & -> & H1 & H0 & Hpos & Hge). exists r. split; [done|]. reflect_bools.
  assert (exists x t, l_timers l !! x = Some t /\ t_active t = true) as (x & t & Hx & Ha).
  { rewrite (ti_active _ I) in Hal. destruct (decide (active_set l = ∅)) as [E|E]; [rewrite E, size_empty in Hal; lia|].
    apply set_choose_L in E as [x Hx]. rewrite elem_active_set in Hx. destruct Hx as (t & ? & ?). by exists x, t. }
  assert (r <> -1) by (intros E; apply H1 in E; assert (x ∈ active_set l) by (rewrite elem_active_set; eauto); set_solver).
  assert (0 < r -> l_time l + r <= t_timeout t) as Hrt by (intros Hr; by apply (proj1 (Hpos Hr) x t)).
  pose proof (n_far _ _ N x t Hx). split; [unfold INT_MAX in *; lia|]. intros _ t' Ht'. destruct (decide (r = 0)) as [E|E].
  - apply H0 in E as (y & u & Hy & Hay & Hdy). exists y, u. cbn. split; [done|]. split; [done|]. lia.
  - destruct (Hpos ltac:(lia)) as [Hall [E'|(y & u & Hy & Hay & Hdy)]].
    + exists x, t. cbn. split; [done|]. split; [done|]. lia.
    + exists y, u. cbn. split; [done|]. split; [done|]. lia.
Qed.

(** A turn leaves less to do. *)
Lemma turn_nest D tn l :
  0 <= D -> idle_turn D tn -> tinv l -> once l -> nest [] l -> l_ready l = [] -> loop_alive false l = true -> in_time D l ->
  exists l', run_turn script UV_RUN_DEFAULT false tn l = Ret l' /\ tinv l' /\ once l' /\ nest [] l' /\ l_ready l' = [] /\ in_time D l' /\ (to_do l' < to_do l)%nat /\
    (l_next l <= l_next l')%nat.
Proof.
  intros HD (Hp & Hio & Hb & Hs & Ho & Hpoll & Hnow) I O N Er Hal Hin. unfold run_turn. rewrite Hp, Hb. cbn [run_acts mbind outcome_bind].
  destruct (sleep_nest l I N Er Hal) as (r & -> & Hr & Hdue). cbn [mbind outcome_bind]. rewrite Hio. cbn [run_acts mbind outcome_bind].
  set (t1 := tn_poll tn (l_time l) r). pose proof (Hpoll (l_time l) r) as Ht1. fold t1 in Ht1. rewrite Z.max_r in Ht1 by lia.
  pose proof (ti_time _ I). unfold in_time, INT_MAX in *.
  assert (2 ^ 31 + 2 * D <= (Z.of_nat (to_do l) + 1) * (2 ^ 31 + 2 * D)) as HB.
  { rewrite <- (Z.mul_1_l (2 ^ 31 + 2 * D)) at 1. apply Z.mul_le_mono_nonneg_r; lia. }
  assert (tinv (set_time t1 l)) as I1 by (apply tinv_time; [done|lia]).
  assert (nest [] (set_time t1 l)) as N1 by (apply nest_time; [done|lia]).
  destruct (closing_nest (set_time t1 l) I1 N1 Er) as (l2 & E2 & I2 & N2 & Et2 & Er2 & Ec2 & En2 & W2 & Hd2). rewrite E2. cbn [mbind outcome_bind].
  cbn [l_time set_time] in Et2. set (t2 := tn_now tn (l_time l2)). pose proof (Hnow (l_time l2)) as Ht2. fold t2 in Ht2.
  assert (tinv (set_time t2 l2)) as I3 by (apply tinv_time; [done|lia]).
  assert (nest [] (set_time t2 l2)) as N3 by (apply nest_time; [done|lia]).
  destruct (run_timers_nest (set_time t2 l2) I3 N3 Er2) as (l3 & E4 & I4 & N4 & Et4 & Er4 & En4 & W4 & Hlt & Hcl); [cbn; lia|].
  change (weight (set_time t2 l2)) with (weight l2) in *. change (weight (set_time t1 l)) with (weight l) in W2. cbn [l_time set_time] in Et4.
  assert (to_do l3 < to_do l)%nat as Hless.
  { unfold to_do. destruct (decide (l_closing l = [])) as [Ec|Ec].
    - assert (weight l3 < weight l2)%nat; [|rewrite (bool_decide_true (l_closing l = [])) by done; case_bool_decide; lia]. apply Hlt.
      destruct (Hdue Ec t1 ltac:(lia)) as [x Hx]. exists x. apply Hd2 in Hx as (t & Hx & Ha & Hd). exists t. cbn. split; [done|]. split; [done|]. lia.
    - rewrite (bool_decide_false (l_closing l = [])) by done. case_bool_decide as Ec3; [lia|].
      destruct Hcl as [Hcl|Hcl]; [lia|]. cbn in Hcl. congruence. }
  assert (once l3) as O3.
  { assert (once (set_time t1 l)) as O1 by (destruct O; by constructor).
    destruct (loop_do_spec script Hscript EvClosing _ I1 O1 Logic.I) as (l2' & E & _ & O2). cbn [loop_do] in E. rewrite E2 in E.
    assert (l2' = l2) as -> by congruence. assert (once (set_time t2 l2)) as O2' by (destruct O2; by constructor).
    destruct (loop_do_spec script Hscript EvTimers _ I3 O2' Logic.I) as (l3' & E' & _ & O3). cbn [loop_do] in E'. rewrite E4 in E'. congruence. }
  exists l3. split; [done|]. split; [done|]. split; [done|]. split; [done|]. split; [done|].
  split; [|split; [done|cbn in En2, En4; lia]]. unfold in_time.
  assert ((Z.of_nat (to_do l3) + 1) * (2 ^ 31 + 2 * D) + (2 ^ 31 + 2 * D) <= (Z.of_nat (to_do l) + 1) * (2 ^ 31 + 2 * D)).
  { clear -Hless HD. rewrite <- Z.mul_succ_l. apply Z.mul_le_mono_nonneg_r; lia. }
  lia.
Qed.

(** The loop comes to its end. *)
Lemma loop_completes D turns : forall l,
  0 <= D -> Forall (idle_turn D) turns -> tinv l -> once l -> nest [] l -> l_ready l = [] -> in_time D l -> (to_do l < length turns)%nat ->
  exists l', run_loop script UV_RUN_DEFAULT turns false false (loop_alive false l) l = Ret (Some false, l') /\ tinv l' /\ once l' /\ nest [] l' /\
    l_ready l' = [] /\ loop_alive false l' = false /\ (l_next l <= l_next l')%nat.
Proof.
  induction turns as [|tn turns IH]; intros l HD Hts I O N Er Hin Hn; [cbn in Hn; lia|]. cbn [run_loop].
  destruct (loop_alive false l) eqn:Hal; cbn [andb negb]; [|by exists l].
  apply list.Forall_cons in Hts as [Htn Hts]. destruct (turn_nest D tn l HD Htn I O N Er Hal Hin) as (l1 & -> & I1 & O1 & N1 & Er1 & Hin1 & Hlt & Hnx).
  cbn [mbind outcome_bind]. destruct Htn as (_ & _ & _ & -> & -> & _).
  destruct (IH l1 HD Hts I1 O1 N1 Er1 Hin1) as (l' & E & ? & ? & ? & ? & ? & ?); [cbn [length] in Hn; lia|].
  exists l'. split; [done|]. repeat (split; [done|]). lia.
Qed.

Lemma not_alive l : tinv l -> nest [] l -> l_ready l = [] -> loop_alive false l = false -> l_timers l = ∅ /\ l_closing l = [].
Proof.
  intros I N Er Hal. unfold loop_alive, uv__loop_alive in Hal. rewrite orb_false_r in Hal. apply orb_false_iff in Hal as [Ha Hc]. reflect_bools.
  apply bool_decide_eq_true in Hc. split; [|done]. apply map_eq. intros x. rewrite lookup_empty. destruct (l_timers l !! x) as [t|] eqn:Hx; [|done].
  destruct (t_closing t) eqn:Ht.
  - assert (x ∈ l_closing l) by (apply (ti_closing _ I); eauto). rewrite Hc in *. set_solver.
  - destruct (n_live _ _ N x t Hx Ht) as [H|[H|H]]; [|rewrite Er in H; set_solver|set_solver].
    assert (x ∈ active_set l) as Hin by (rewrite elem_active_set; eauto). rewrite (ti_active _ I) in Ha.
    assert (size (active_set l) <> 0%nat); [|lia]. rewrite size_non_empty_iff. set_solver.
Qed.

(** [uv_run] in the default mode, from a state in which nothing has fired or been closed. *)
Lemma uv_run_completes D turns now l :
  0 <= D -> (forall t, t <= now t <= t + D) -> Forall (idle_turn D) turns -> tinv l -> once l -> nest [] l ->
  l_ready l = [] -> l_closing l = [] -> l_freed l = [] -> (2 * weight l + 1 < length turns)%nat ->
  l_time l + (Z.of_nat (2 * weight l) + 3) * (2 ^ 31 + 2 * D) < 2 ^ 63 ->
  exists l', uv_run script UV_RUN_DEFAULT turns false false now l = Ret (Some false, l') /\ tinv l' /\ once l' /\ nest [] l' /\
    l_ready l' = [] /\ loop_alive false l' = false /\ (l_next l <= l_next l')%nat.
Proof.
  intros HD Hnow Hts I O N Er Ec Ef Hn Ht. set (B := 2 ^ 31 + 2 * D) in *. pose proof (ti_time _ I) as Ht0.
  assert (3 * B <= (Z.of_nat (2 * weight l) + 3) * B) as HB by (apply Z.mul_le_mono_nonneg_r; lia).
  pose proof (Hnow (l_time l)) as Hnl. unfold uv_run. cbn [negb]. rewrite andb_true_r.
  destruct (loop_alive false l) eqn:Hal.
  2: { cbn [mbind outcome_bind]. exists (set_time (now (l_time l)) l). cbn [run_loop].
       assert (run_loop script UV_RUN_DEFAULT turns false false false (set_time (now (l_time l)) l) = Ret (Some false, set_time (now (l_time l)) l)) as -> by by destruct turns.
       split; [done|]. split; [apply tinv_time; [done|lia]|]. split; [destruct O; by constructor|]. split; [apply nest_time; [done|lia]|done]. }
  set (t0 := now (l_time l)) in *. set (l0 := set_time t0 l).
  assert (tinv l0) as I0 by (apply tinv_time; [done|lia]). assert (nest [] l0) as N0 by (apply nest_time; [done|lia]).
  assert (once l0) as O0 by (destruct O; by constructor).
  destruct (run_timers_nest l0 I0 N0 Er) as (l1 & E1 & I1 & N1 & Et1 & Er1 & En1 & W1 & _); [cbn; lia|]. rewrite E1. cbn [mbind outcome_bind].
  destruct (run_timers_spec script Hscript l0 I0) as (l1' & fs & E1' & _ & _ & HR). rewrite E1 in E1'. assert (l1' = l1) as -> by congruence. clear E1'.
  pose proof (once_ran _ _ _ I0 O0 HR) as O1.
  assert (loop_alive false l1 = true) as Hal1.
  { destruct (loop_alive false l1) eqn:E; [done|exfalso]. destruct (not_alive l1 I1 N1 Er1 E) as [Hemp Hcl].
    assert (exists x, (x < l_next l)%nat) as [x Hx].
    { unfold loop_alive, uv__loop_alive in Hal. rewrite Ec in Hal. cbn in Hal. rewrite !orb_false_r in Hal. reflect_bools. rewrite (ti_active _ I) in Hal.
      destruct (decide (active_set l = ∅)) as [E'|E']; [rewrite E', size_empty in Hal; lia|]. apply set_choose_L in E' as [x Hx].
      rewrite elem_active_set in Hx. destruct Hx as (t & Hx & _). exists x. apply (ti_fresh _ I). eauto. }
    destruct (n_all _ _ N1 x) as [H|(t & Hxt & _)]; [cbn in En1; lia| |by rewrite Hemp in Hxt].
    apply (on_gone _ O1) in H as [H|H]; [rewrite Hcl in H|rewrite (rn_freed _ _ _ HR) in H; cbn in H; rewrite Ef in H]; by apply not_elem_of_nil in H. }
  cbn in Et1. change (weight l0) with (weight l) in W1. rewrite <- Hal1.
  assert (to_do l1 <= 2 * weight l + 1)%nat as Hto by (unfold to_do; case_bool_decide; lia).
  destruct (loop_completes D turns l1 HD Hts I1 O1 N1 Er1) as (l' & E & ? & ? & ? & ? & ? & ?).
  - unfold in_time. fold B. assert ((Z.of_nat (to_do l1) + 1) * B + B <= (Z.of_nat (2 * weight l) + 3) * B); [|unfold B in *; lia].
    rewrite <- Z.mul_succ_l. apply Z.mul_le_mono_nonneg_r; [unfold B; lia|lia].
  - lia.
  - exists l'. split; [done|]. repeat (split; [done|]). cbn in En1. lia.
Qed.

End Nested.

(** ** Part 4: the theorems *)

(** C39. Whatever callbacks do in the turns of the loop, [uv_run] implements its phases. In the default
    mode it first runs the timers that are due; then, while something is left to wait for and no
    stop was asked for, it takes turns, and just one in the modes for that. A turn runs the pending
    callbacks, polls until the next timer is due and no longer (not at all when it must not), closes
    handles, reads the clock and runs the timers that are due. It fails no assertion and uses no freed
    handle, returns unless it is in the default mode and goes on after the turns given, and its result
    says whether something is left; timeouts fire at most once and never early. *)
Theorem uv_run_refines script mode turns others stop now time :
  (forall f l, tinv l -> acts_allowed (script f l) l) -> 0 <= time < 2 ^ 64 -> clock_ok now -> Forall turn_ok turns ->
  forall acts l, acts_allowed acts (loop_init time) -> run_acts acts (loop_init time) = Ret l ->
  exists res l0 l', uv_run script mode turns others stop now l = Ret (res, l') /\
    before_turns script mode others stop now l l0 /\ phases script mode turns others stop (keeps_alive others l) l0 res l' /\
    (res = None -> mode = UV_RUN_DEFAULT \/ turns = []) /\
    NoDup (timeouts_fired l') /\ Forall (fun f => f_due f <= f_now f) (l_fired l').
Proof.
  intros Hs Ht Hn Hts acts l Ha E. destruct (loop_init_ok time Ht) as [I0 O0].
  destruct (loop_do_spec script Hs (EvScript acts) _ I0 O0 Ha) as (l1 & E1 & I1 & O1). cbn [loop_do] in E1. rewrite E in E1. simplify_eq.
  destruct (uv_run_phases script Hs mode turns others stop now l1 I1 O1 Hn Hts) as (res & l0 & l' & Er & Hb & Hp & I' & [O1' _ O3']).
  exists res, l0, l'. split; [done|]. split; [done|]. split; [done|]. split; [|done]. intros ->.
  inversion Hp; subst; auto.
Qed.

(** C40. A program that sets timeouts of at least 0 and less than 2^31 milliseconds, whose functions
    set at most [K] further timeouts each, of functions of lower rank and with such delays, and that
    has no other handles and makes no calls from I/O callbacks, runs to its end: [uv_run] returns
    because nothing is left, within [2 * total + 2] turns for a [total] that the script bounds,
    provided the clock stays below 2^63 for that long; every timeout that was ever set has fired
    exactly once, its handle is freed, and there is one callback reference for each to be freed at the
    end. Polling and clock may be late by up to [D] milliseconds every time. A negative delay becomes
    a deadline that is never reached. *)
Theorem timeouts_complete script rank K D acts turns time now R :
  (forall f l, tinv l -> acts_allowed (script f l) l) -> (forall f l, Forall (lower rank (rank f)) (script f l)) ->
  (forall f l, (length (script f l) <= K)%nat) ->
  acts_allowed acts (loop_init time) -> Forall (lower rank R) acts ->
  0 <= D -> 0 <= time -> (forall t, t <= now t <= t + D) -> Forall (idle_turn D) turns ->
  let total := (length acts * S K ^ pred R)%nat in
  (2 * total + 1 < length turns)%nat -> time + (Z.of_nat (2 * total) + 3) * (2 ^ 31 + 2 * D) < 2 ^ 63 ->
  exists cbs l, capy_main script acts turns false now time = Ret (Some false, cbs, l) /\ l_timers l = ∅ /\
    NoDup (timeouts_fired l) /\ (forall x, (x < l_next l)%nat <-> x ∈ timeouts_fired l) /\ (forall x, (x < l_next l)%nat -> x ∈ l_freed l) /\
    (length acts <= l_next l)%nat /\ length cbs = l_next l.
Proof.
  intros Hs Hl HK Ha Hr HD Ht0 Hnow Hts total Hn Htime.
  assert (2 ^ 31 + 2 * D <= (Z.of_nat (2 * total) + 3) * (2 ^ 31 + 2 * D)) as HB.
  { rewrite <- (Z.mul_1_l (2 ^ 31 + 2 * D)) at 1. apply Z.mul_le_mono_nonneg_r; lia. }
  destruct (loop_init_ok time ltac:(lia)) as [I0 O0].
  assert (nest [] (loop_init time)) as N0 by (constructor; [done|done|done|cbn; lia|done]).
  destruct (acts_nest rank K [] R acts (loop_init time) I0 N0 Ha Hr ltac:(cbn; lia)) as (l1 & E1 & I1 & N1 & Q1 & R1 & Ec1 & W1 & En1).
  pose proof (once_quiet _ _ O0 Q1) as O1. pose proof (qt_time _ _ Q1) as Et1. cbn in Et1, R1, Ec1, En1.
  change (weight rank K (loop_init time)) with 0%nat in W1. cbn [Nat.add] in W1.
  unfold capy_main. rewrite E1. cbn [mbind outcome_bind].
  assert (exists l', uv_run script UV_RUN_DEFAULT turns false false now l1 = Ret (Some false, l') /\ tinv l' /\ once l' /\ nest [] l' /\
    l_ready l' = [] /\ loop_alive false l' = false /\ (l_next l1 <= l_next l')%nat) as (l' & -> & I' & O' & N' & Er' & Hal' & En').
  { apply (uv_run_completes script Hs rank K Hl HK D turns now l1); try done; [by rewrite (qt_freed _ _ Q1)|lia|]. rewrite Et1.
    assert ((Z.of_nat (2 * weight rank K l1) + 3) * (2 ^ 31 + 2 * D) <= (Z.of_nat (2 * total) + 3) * (2 ^ 31 + 2 * D)); [|lia].
    apply Z.mul_le_mono_nonneg_r; [lia|]. unfold total. lia. }
  assert (l_timers l' = ∅ /\ l_closing l' = []) as [Hemp Hcl] by (eapply not_alive; eassumption). cbn [mbind outcome_bind]. exists (l_registered_cb l'), l'. split; [done|]. split; [done|].
  assert (forall x, (x < l_next l')%nat -> x ∈ timeouts_fired l') as Hfired.
  { intros x Hx. destruct (n_all _ _ N' x Hx) as [H|(t & Hxt & _)]; [done|]. rewrite Hemp in Hxt. done. }
  assert (forall x, x ∈ timeouts_fired l' -> x ∈ l_freed l') as Hfreed.
  { intros x [H|H]%(on_gone _ O'); [|done]. rewrite Hcl in H. by apply not_elem_of_nil in H. }
  split; [apply O'|]. split; [|split; [auto|split; [lia|apply N']]]. intros x. split; [apply Hfired|]. intros H%Hfreed. by apply (ti_freed _ I').
Qed.

(** A script whose function 2 sets a timeout of function 1, which sets one of function 0; it
    stops setting timers when there are many. *)
Definition chain_script (f : nat) (l : uv_loop_t) : list js_act :=
  if decide (size (l_timers l) < 100)%nat then match f with 2%nat => [SetTimeout 1 10] | 1%nat => [SetTimeout 0 30] | _ => [] end else [].

Lemma chain_allowed f l : tinv l -> acts_allowed (chain_script f l) l.
Proof. intros I. unfold chain_script. case_decide; [|done]. destruct f as [|[|[|f]]]; try done; (split; [cbn; lia|done]). Qed.

Lemma chain_lower f l : Forall (lower (fun f => f) f) (chain_script f l).
Proof.
  unfold chain_script. case_decide; [|constructor]. destruct f as [|[|[|f]]]; repeat constructor; (eexists _, _; split; [done|]; split; lia).
Qed.

(** A turn that is a millisecond late twice. *)
Definition late_turn : turn := mkTurn true (fun _ => []) false (fun t timeout => t + Z.max 0 timeout + 1) (fun _ => []) false (fun t => t + 1) false.

Lemma timeouts_complete_witness :
  exists cbs l, capy_main chain_script [SetTimeout 2 5; SetTimeout 0 7] (replicate 20 late_turn) false (fun t => t + 1) 100 = Ret (Some false, cbs, l) /\
    l_timers l = ∅ /\ NoDup (timeouts_fired l) /\ (forall x, (x < l_next l)%nat <-> x ∈ timeouts_fired l) /\
    (forall x, (x < l_next l)%nat -> x ∈ l_freed l) /\ (2 <= l_next l)%nat /\ length cbs = l_next l.
Proof.
  apply (timeouts_complete chain_script (fun f => f) 1 1 [SetTimeout 2 5; SetTimeout 0 7] (replicate 20 late_turn) 100 (fun t => t + 1) 3).
  - exact chain_allowed.
  - exact chain_lower.
  - intros f l. unfold chain_script. case_decide; [|cbn; lia]. destruct f as [|[|[|f]]]; cbn; lia.
  - apply acts_okb_allowed. vm_compute. reflexivity.
  - repeat constructor; (eexists _, _; split; [done|]; split; lia).
  - lia.
  - lia.
  - intros t. lia.
  - apply Forall_replicate. unfold idle_turn. cbn. repeat (split; [done|]). split; intros; lia.
  - cbn. lia.
  - cbn. lia.
Defined.

(** One turn: the timeout is due after the poll, and fires; the function it calls sets another. *)
Definition once_turn : turn :=
  mkTurn true (fun _ => []) false (fun t timeout => Z.min (t + Z.max 0 timeout) (2 ^ 64 - 1)) (fun _ => []) false (fun t => t) true.

Lemma once_turn_ok : turn_ok once_turn.
Proof.
  split; [intros timeout t Ht; cbn; lia|]. split; [intros t Ht; cbn; lia|]. by split.
Qed.

Lemma uv_run_refines_witness :
  exists l, run_acts [SetTimeout 2 5] (loop_init 100) = Ret l /\
  exists res l0 l', uv_run chain_script UV_RUN_ONCE [once_turn] false false (fun t => t) l = Ret (res, l') /\
    phases chain_script UV_RUN_ONCE [once_turn] false false true l0 res l' /\
    timeouts_fired l' = [0%nat] /\ res = Some true.
Proof.
  assert (clock_ok (fun t => t)) as Hc by (intros t Ht; lia).
  destruct (run_acts [SetTimeout 2 5] (loop_init 100)) as [l| |] eqn:E; [|vm_compute in E; discriminate E..].
  exists l. split; [reflexivity|].
  destruct (uv_run_refines chain_script UV_RUN_ONCE [once_turn] false false (fun t => t) 100 chain_allowed ltac:(lia) Hc
    ltac:(constructor; [apply once_turn_ok|constructor]) [SetTimeout 2 5] l ltac:(apply acts_okb_allowed; vm_compute; reflexivity) E)
    as (res & l0 & l' & Er & _ & Hp & _).
  assert (match run_acts [SetTimeout 2 5] (loop_init 100) with
    | Ret l => keeps_alive false l = true /\ match uv_run chain_script UV_RUN_ONCE [once_turn] false false (fun t => t) l with Ret (r, l') => timeouts_fired l' = [0%nat] /\ r = Some true | _ => False end
    | _ => False end) as H by (vm_compute; done).
  rewrite E, Er in H. destruct H as (Hk & Hf & Hr). rewrite Hk in Hp. exists res, l0, l'. split; [exact Er|]. split; [exact Hp|]. split; [exact Hf|exact Hr].
Defined.
