(* ===== verification/Gc.v ===== *)
(** The memory management of QuickJS, deps/quickjs/quickjs.c: reference counts and the
    collector of cycles.

    Objects are the numbers of a store. The fields of each kind of object that hold references
    are modelled, with the order in which they are marked and freed; what a class of objects
    refers to is a list, which the class's finalizer frees and its [gc_mark] marks, as the
    interface of classes asks. Strings, symbols, big integers and atoms hold no references to
    objects and are left out, as are weak references. A count is an [int] that must not overflow.

    Part 1 is the code, Part 2 counting, Part 3 the invariant and the freeing of references,
    Part 4 the collector, Part 5 the theorems. *)

From S2P Require Import Prelude.

(** ** Part 1: the code *)

(** A property of an object; [PDeleted] has the atom [JS_ATOM_NULL]. A reference is [None] for
    a value that is not an object. *)
Inductive prop :=
| PValue (v : option nat) | PGetSet (getter setter : option nat) | PVarRef (var_ref : nat)
| PAutoInit (realm : nat) | PDeleted.

(** The kinds of GC objects. [VAR_REF] refers to its value when it is detached and else to the
    async function whose frame it is in, if any. The stack of an async function is [None] while
    it runs. *)
Inductive gc_obj :=
| JS_OBJECT (shape : nat) (props : list prop) (class : list nat)
| FUNCTION_BYTECODE (cpool : list (option nat)) (realm : option nat)
| SHAPE (proto : option nat)
| VAR_REF (is_detached : bool) (ref : option nat)
| ASYNC_FUNCTION (is_completed : bool) (cur_func this_val : option nat) (stack : option (list (option nat))) (r0 r1 : option nat)
| JS_CONTEXT (modules : list nat) (values : list (option nat)) (shapes : list (option nat))
| MODULE (attributes var_refs values : list (option nat)).

(** A header: [ref_count], [mark]; [o_fin] says that the fields have been freed. *)
Record gobj := mkObj { o_rc : Z; o_mark : bool; o_fin : bool; o_obj : gc_obj }.

(** The runtime: the objects, the three lists, and the objects given back to the allocator. *)
Record rt := mkRt {
  heap : gmap nat gobj; gc_obj_list : list nat; tmp_obj_list : list nat; gc_zero_ref_count_list : list nat; freed : list nat }.

Definition set_obj (x : nat) (o : gobj) (s : rt) : rt :=
  mkRt (<[x := o]> (heap s)) (gc_obj_list s) (tmp_obj_list s) (gc_zero_ref_count_list s) (freed s).
Definition get (x : nat) (s : rt) : outcome gobj := match heap s !! x with Some o => Ret o | None => UB end.
Definition set_rc (n : Z) (o : gobj) : gobj := mkObj n (o_mark o) (o_fin o) (o_obj o).
Definition set_mark (b : bool) (o : gobj) : gobj := mkObj (o_rc o) b (o_fin o) (o_obj o).
Definition set_fin (o : gobj) : gobj := mkObj (o_rc o) (o_mark o) true (o_obj o).

Definition opts (l : list (option nat)) : list nat := omap id l.
Definition opt (o : option nat) : list nat := option_list o.

Definition prop_kids (p : prop) : list nat :=
  match p with
  | PValue v => opt v
  | PGetSet g s => opt g ++ opt s
  | PVarRef r => [r]
  | PAutoInit c => [c]
  | PDeleted => []
  end.

(** What a context and a module refer to, and an async function while it is not completed; the
    values of a context are its global objects, constructors and prototypes, those of a module
    its namespace, function, exception, [import.meta], promise, resolving functions and private
    value. *)
Definition JS_MarkContext (modules : list nat) (values shapes : list (option nat)) : list nat := modules ++ opts values ++ opts shapes.
Definition js_mark_module_def (attributes var_refs values : list (option nat)) : list nat := opts attributes ++ opts var_refs ++ opts values.
Definition mark_frame (cur_func this_val : option nat) (stack : option (list (option nat))) : list nat :=
  opt cur_func ++ opt this_val ++ match stack with Some l => opts l | None => [] end.

(** [mark_children]: the objects it calls [mark_func] on, in order. *)
Definition mark_children (o : gc_obj) : list nat :=
  match o with
  | JS_OBJECT shape props class => [shape] ++ (props ≫= prop_kids) ++ class
  | FUNCTION_BYTECODE cpool realm => opts cpool ++ opt realm
  | SHAPE proto => opt proto
  | VAR_REF _ ref => opt ref
  | ASYNC_FUNCTION completed cur_func this_val stack r0 r1 => (if completed then [] else mark_frame cur_func this_val stack) ++ opt r0 ++ opt r1
  | JS_CONTEXT modules values shapes => JS_MarkContext modules values shapes
  | MODULE attributes var_refs values => js_mark_module_def attributes var_refs values
  end.

(** The references that freeing an object frees, in order. The frame of a function that runs
    cannot be freed. *)
Definition free_object (shape : nat) (props : list prop) (class : list nat) : list nat := (props ≫= prop_kids) ++ [shape] ++ class.
Definition free_function_bytecode (cpool : list (option nat)) (realm : option nat) : list nat := opts cpool ++ opt realm.
Definition js_free_shape0 (proto : option nat) : list nat := opt proto.
Definition free_var_ref (ref : option nat) : list nat := opt ref.
Definition async_func_free_frame (cur_func this_val : option nat) (stack : option (list (option nat))) : outcome (list nat) :=
  match stack with Some stack => Ret (opts stack ++ opt cur_func ++ opt this_val) | None => AssertFail end.
Definition __async_func_free (is_completed : bool) (cur_func this_val : option nat) (stack : option (list (option nat))) (r0 r1 : option nat) : outcome (list nat) :=
  frame ← (if is_completed then Ret [] else async_func_free_frame cur_func this_val stack); Ret (frame ++ opt r0 ++ opt r1).
Definition JS_FreeContext (modules : list nat) (values shapes : list (option nat)) : list nat := modules ++ opts values ++ opts shapes.
Definition js_free_module_def (attributes var_refs values : list (option nat)) : list nat := opts attributes ++ opts var_refs ++ opts values.

Definition free_children (o : gc_obj) : outcome (list nat) :=
  match o with
  | JS_OBJECT shape props class => Ret (free_object shape props class)
  | FUNCTION_BYTECODE cpool realm => Ret (free_function_bytecode cpool realm)
  | SHAPE proto => Ret (js_free_shape0 proto)
  | VAR_REF _ ref => Ret (free_var_ref ref)
  | ASYNC_FUNCTION is_completed cur_func this_val stack r0 r1 => __async_func_free is_completed cur_func this_val stack r0 r1
  | JS_CONTEXT modules values shapes => Ret (JS_FreeContext modules values shapes)
  | MODULE attributes var_refs values => Ret (js_free_module_def attributes var_refs values)
  end.

(** [list_del] *)
Definition del (x : nat) (l : list nat) : list nat := filter (fun y => y <> x) l.
Definition list_del (x : nat) (s : rt) : rt :=
  mkRt (heap s) (del x (gc_obj_list s)) (del x (tmp_obj_list s)) (del x (gc_zero_ref_count_list s)) (freed s).

(** [list_add_tail] and [list_add] to the lists. *)
Definition add_gc (x : nat) (s : rt) : rt :=
  mkRt (heap s) (gc_obj_list s ++ [x]) (tmp_obj_list s) (gc_zero_ref_count_list s) (freed s).
Definition add_tmp (x : nat) (s : rt) : rt :=
  mkRt (heap s) (gc_obj_list s) (tmp_obj_list s ++ [x]) (gc_zero_ref_count_list s) (freed s).
Definition add_zero (x : nat) (s : rt) : rt :=
  mkRt (heap s) (gc_obj_list s) (tmp_obj_list s) (x :: gc_zero_ref_count_list s) (freed s).
Definition add_zero_tail (x : nat) (s : rt) : rt :=
  mkRt (heap s) (gc_obj_list s) (tmp_obj_list s) (gc_zero_ref_count_list s ++ [x]) (freed s).

(** [js_free_rt] *)
Definition js_free_rt (x : nat) (s : rt) : rt :=
  mkRt (delete x (heap s)) (gc_obj_list s) (tmp_obj_list s) (gc_zero_ref_count_list s) (freed s ++ [x]).

Fixpoint each (f : nat -> rt -> outcome rt) (l : list nat) (s : rt) : outcome rt :=
  match l with [] => Ret s | x :: l => s ← f x s; each f l s end.

(** The kinds that are freed at once when the last reference goes. *)
Definition immediate (o : gc_obj) : bool := match o with SHAPE _ | VAR_REF _ _ | JS_CONTEXT _ _ _ => true | _ => false end.

(** Freeing a reference: [JS_FreeValueRT] and [async_func_free] for values and async functions,
    which hand an object without references to [zero] ([__JS_FreeValueRT]), and [free_var_ref],
    [js_free_shape] and [JS_FreeContext], which free at once. *)
Fixpoint free_ref (zero : nat -> rt -> outcome rt) (fuel : nat) (x : nat) (s : rt) : outcome rt :=
  match fuel with
  | O => UB
  | S fuel =>
      o ← get x s;
      if immediate (o_obj o) then
        if o_rc o <=? 0 then AssertFail
        else
          if o_rc o - 1 =? 0 then
            kids ← free_children (o_obj o);
            s ← each (free_ref zero fuel) kids (set_obj x (set_fin (set_rc (o_rc o - 1) o)) s);
            Ret (js_free_rt x (list_del x s))
          else Ret (set_obj x (set_rc (o_rc o - 1) o) s)
      else
        let s := set_obj x (set_rc (o_rc o - 1) o) s in
        if o_rc o - 1 <=? 0 then zero x s else Ret s
  end.

(** A context refers to shapes, which refer to objects: no deeper. *)
Definition free_fuel : nat := 3.

(** The link of a module in the list of its context, which [js_free_module_def] undoes: a cycle
    may free the module first. *)
Definition drop_module (x : nat) (o : gc_obj) : gc_obj :=
  match o with JS_CONTEXT modules values shapes => JS_CONTEXT (del x modules) values shapes | _ => o end.
Definition unlink_module (x : nat) (o : gc_obj) (s : rt) : rt :=
  match o with
  | MODULE _ _ _ =>
      mkRt ((fun o => mkObj (o_rc o) (o_mark o) (o_fin o) (drop_module x (o_obj o))) <$> heap s)
        (gc_obj_list s) (tmp_obj_list s) (gc_zero_ref_count_list s) (freed s)
  | _ => s
  end.

(** [free_gc_object], [remove] saying that cycles are being removed. *)
Definition free_gc_object (zero : nat -> rt -> outcome rt) (remove : bool) (x : nat) (s : rt) : outcome rt :=
  o ← get x s;
  if immediate (o_obj o) then UB
  else
    kids ← free_children (o_obj o);
    s ← each (free_ref zero free_fuel) kids (set_obj x (set_fin o) s);
    let s := list_del x (unlink_module x (o_obj o) s) in
    o ← get x s;
    if remove && negb (o_rc o =? 0) then Ret (add_zero_tail x s) else Ret (js_free_rt x s).

(** [__JS_FreeValueRT] and [async_func_free] while references are being freed; only the first
    marks. *)
Definition zero_decref (x : nat) (s : rt) : outcome rt :=
  o ← get x s;
  let o' := match o_obj o with ASYNC_FUNCTION _ _ _ _ _ _ => o | _ => set_mark true o end in
  Ret (add_zero x (set_obj x o' (list_del x s))).

(** [free_zero_refcount]; the fuel is the number of objects. *)
Fixpoint zero_loop (fuel : nat) (s : rt) : outcome rt :=
  match gc_zero_ref_count_list s with
  | [] => Ret s
  | x :: _ =>
      match fuel with
      | O => UB
      | S fuel =>
          o ← get x s;
          if negb (o_rc o =? 0) then AssertFail
          else s ← free_gc_object zero_decref false x s; zero_loop fuel s
      end
  end.

Definition free_zero_refcount (s : rt) : outcome rt := zero_loop (size (heap s)) s.

(** [__JS_FreeValueRT] outside, and the freeing of any reference. *)
Definition zero_none (x : nat) (s : rt) : outcome rt := s ← zero_decref x s; free_zero_refcount s.
Definition JS_FreeRef (x : nat) (s : rt) : outcome rt := free_ref zero_none free_fuel x s.

(** [ref_count++] on an [int], which must not count on from [INT_MAX]. *)
Definition incref (o : gobj) : outcome gobj := if o_rc o =? INT_MAX then UB else Ret (set_rc (o_rc o + 1) o).

(** [JS_DupValue] and the other dup functions. *)
Definition JS_DupRef (x : nat) (s : rt) : outcome rt := o ← get x s; o ← incref o; Ret (set_obj x o s).

(** A new object with its references taken, and [add_gc_object]. *)
Definition new_object (x : nat) (o : gc_obj) (s : rt) : outcome rt :=
  s ← each JS_DupRef (mark_children o) s; Ret (add_gc x (set_obj x (mkObj 1 false false o) s)).

(** A store to the fields of an object: the new references are taken, then the old ones
    freed. *)
Definition store_fields (x : nat) (o' : gc_obj) (s : rt) : outcome rt :=
  o ← get x s;
  s ← each JS_DupRef (mark_children o') s;
  o1 ← get x s;
  each JS_FreeRef (mark_children (o_obj o)) (set_obj x (mkObj (o_rc o1) (o_mark o1) (o_fin o1) o') s).

(** [gc_decref_child] *)
Definition gc_decref_child (x : nat) (s : rt) : outcome rt :=
  o ← get x s;
  if o_rc o <=? 0 then AssertFail
  else
    let s := set_obj x (set_rc (o_rc o - 1) o) s in
    Ret (if (o_rc o - 1 =? 0) && o_mark o then add_tmp x (list_del x s) else s).

(** [gc_decref]: the loop over the list as it is at the start. Only objects it has passed are
    moved. *)
Definition gc_decref_one (x : nat) (s : rt) : outcome rt :=
  o ← get x s;
  if o_mark o then AssertFail
  else
    s ← each gc_decref_child (mark_children (o_obj o)) s;
    o ← get x s;
    let s := set_obj x (set_mark true o) s in
    Ret (if o_rc o =? 0 then add_tmp x (list_del x s) else s).
Definition gc_decref (s : rt) : outcome rt := each gc_decref_one (gc_obj_list s) s.

(** [gc_scan_incref_child] and [gc_scan_incref_child2] *)
Definition gc_scan_incref_child (x : nat) (s : rt) : outcome rt :=
  o ← get x s;
  o ← incref o;
  if o_rc o =? 1 then Ret (add_gc x (list_del x (set_obj x (set_mark false o) s))) else Ret (set_obj x o s).
Definition gc_scan_incref_child2 (x : nat) (s : rt) : outcome rt :=
  o ← get x s; o ← incref o; Ret (set_obj x o s).

(** The first loop of [gc_scan], from place [i] of the list, to which it appends. *)
Fixpoint scan_loop (fuel i : nat) (s : rt) : outcome rt :=
  match gc_obj_list s !! i with
  | None => Ret s
  | Some x =>
      match fuel with
      | O => UB
      | S fuel =>
          o ← get x s;
          if o_rc o <=? 0 then AssertFail
          else s ← each gc_scan_incref_child (mark_children (o_obj o)) (set_obj x (set_mark false o) s); scan_loop fuel (S i) s
      end
  end.

Definition scan_tmp (x : nat) (s : rt) : outcome rt := o ← get x s; each gc_scan_incref_child2 (mark_children (o_obj o)) s.

Definition gc_scan (s : rt) : outcome rt :=
  s ← scan_loop (size (heap s)) 0 s; each scan_tmp (tmp_obj_list s) s.

(** The first loop of [gc_free_cycles]. *)
Fixpoint cycles_loop (fuel : nat) (s : rt) : outcome rt :=
  match tmp_obj_list s with
  | [] => Ret s
  | x :: _ =>
      match fuel with
      | O => UB
      | S fuel =>
          o ← get x s;
          s ← (if immediate (o_obj o) then Ret (add_zero_tail x (list_del x s)) else free_gc_object (fun _ s => Ret s) true x s);
          cycles_loop fuel s
      end
  end.

Definition free_struct (x : nat) (s : rt) : outcome rt :=
  o ← get x s; if immediate (o_obj o) then AssertFail else Ret (js_free_rt x s).

Definition gc_free_cycles (s : rt) : outcome rt :=
  s ← cycles_loop (size (heap s)) s;
  s ← each free_struct (gc_zero_ref_count_list s) s;
  Ret (mkRt (heap s) (gc_obj_list s) (tmp_obj_list s) [] (freed s)).

(** [JS_RunGCInternal] without weak references. *)
Definition JS_RunGC (s : rt) : outcome rt :=
  s ← gc_decref (mkRt (heap s) (gc_obj_list s) [] (gc_zero_ref_count_list s) (freed s)); s ← gc_scan s; gc_free_cycles s.

(** ** Part 2: counting *)

Lemma incref_ok o : o_rc o < INT_MAX -> incref o = Ret (set_rc (o_rc o + 1) o).
Proof. intros H. unfold incref. by destruct (Z.eqb_spec (o_rc o) INT_MAX); [lia|]. Qed.

(** The lookup [Hy] at [y] in a map where [x] was set. *)
Ltac at_key x y Hy := destruct (decide (x = y)) as [<-|]; [rewrite lookup_insert_eq in Hy; injection Hy as <-|rewrite lookup_insert_ne in Hy by done].

Fixpoint occ (x : nat) (l : list nat) : Z :=
  match l with [] => 0 | y :: l => (if decide (x = y) then 1 else 0) + occ x l end.

Lemma occ_nonneg x l : 0 <= occ x l.
Proof. induction l; simpl; [lia|]. case_decide; lia. Qed.

Lemma occ_app x l k : occ x (l ++ k) = occ x l + occ x k.
Proof. induction l; simpl; lia. Qed.

Lemma occ_perm x l k : l ≡ₚ k -> occ x l = occ x k.
Proof. induction 1; simpl; lia. Qed.

Lemma occ_pos x l : 0 < occ x l <-> x ∈ l.
Proof.
  induction l as [|y l IH]; simpl; [split; [lia|set_solver]|]. rewrite elem_of_cons, <- IH.
  pose proof (occ_nonneg x l). case_decide; intuition lia.
Qed.

Lemma occ_zero x l : x ∉ l -> occ x l = 0.
Proof. intros H. pose proof (occ_nonneg x l). rewrite <- occ_pos in H. lia. Qed.

Lemma elem_of_del x y l : y ∈ del x l <-> y ∈ l /\ y <> x.
Proof. unfold del. rewrite list_elem_of_filter. tauto. Qed.

Lemma del_id x l : x ∉ l -> del x l = l.
Proof.
  intros H. unfold del. induction l as [|y l IH]; [done|]. rewrite filter_cons_True by set_solver.
  rewrite IH by set_solver. done.
Qed.

Lemma occ_del x y l : occ y (del x l) = if decide (y = x) then 0 else occ y l.
Proof.
  induction l as [|z l IH]; [simpl; by case_decide|]. unfold del. rewrite filter_cons. fold (del x l).
  repeat case_decide; simpl; rewrite ?IH; repeat case_decide; congruence || lia.
Qed.

(** The references an object holds, none once its fields are freed, and those of a store. *)
Definition okids (o : gobj) : list nat := if o_fin o then [] else mark_children (o_obj o).
Definition all_kids (h : gmap nat gobj) : list nat := map_to_list h ≫= (fun p => okids p.2).

Lemma all_kids_delete h x o : h !! x = Some o -> all_kids h ≡ₚ okids o ++ all_kids (delete x h).
Proof. intros H. unfold all_kids. rewrite <- (map_to_list_delete h x o H). reflexivity. Qed.

Lemma occ_delete h x o c : h !! x = Some o -> occ c (all_kids (delete x h)) = occ c (all_kids h) - occ c (okids o).
Proof. intros H. rewrite (occ_perm c _ _ (all_kids_delete h x o H)), occ_app. lia. Qed.

Lemma occ_insert h x o o' c : h !! x = Some o ->
  occ c (all_kids (<[x := o']> h)) = occ c (all_kids h) - occ c (okids o) + occ c (okids o').
Proof.
  intros H. rewrite (occ_perm c _ _ (all_kids_delete (<[x := o']> h) x o' (lookup_insert_eq _ _ _))), occ_app.
  rewrite delete_insert_eq, (occ_delete h x o c H). lia.
Qed.

Lemma occ_insert_new h x o c : h !! x = None -> occ c (all_kids (<[x := o]> h)) = occ c (all_kids h) + occ c (okids o).
Proof. intros H. unfold all_kids. rewrite (occ_perm c _ _ (bind_Permutation _ _ _ (map_to_list_insert h x o H))), bind_cons, occ_app. simpl. lia. Qed.

Lemma elem_of_all_kids h c : c ∈ all_kids h <-> exists x o, h !! x = Some o /\ c ∈ okids o.
Proof.
  unfold all_kids. rewrite list_elem_of_bind. split.
  - intros ([x o] & Hc & Hx). apply elem_of_map_to_list in Hx. simpl in Hc. by exists x, o.
  - intros (x & o & Hx & Hc). exists (x, o). by rewrite elem_of_map_to_list.
Qed.

(** The references freed are the references marked, unless an async function is running. *)
Definition running (o : gc_obj) : bool := match o with ASYNC_FUNCTION false _ _ None _ _ => true | _ => false end.

Lemma free_children_marked o : running o = false -> exists ks, free_children o = Ret ks /\ ks ≡ₚ mark_children o.
Proof.
  unfold free_children, __async_func_free, async_func_free_frame, mark_children, mark_frame.
  destruct o as [sh ps cl|cp r|p|d r|[] f t [st|] r0 r1|ms vs shs|a b c]; intros Hr; try discriminate Hr; eexists; (split; [reflexivity|]); try reflexivity.
  - unfold free_object. simpl. by rewrite (Permutation_app_comm _ (sh :: cl)), <- app_comm_cons, (Permutation_app_comm cl).
  - by rewrite !(app_assoc (opt f)), (Permutation_app_comm (opts st)).
Qed.

(** How deep the freeing of an object goes. *)
Definition rank (o : gc_obj) : nat := match o with JS_CONTEXT _ _ _ => 2 | SHAPE _ | VAR_REF _ _ => 1 | _ => 0 end.

Lemma rank_immediate o : immediate o = (0 <? rank o)%nat.
Proof. by destruct o. Qed.

(** The objects reachable from the references that [ext] counts. *)
Inductive reach (ext : nat -> Z) (h : gmap nat gobj) : nat -> Prop :=
| reach_root x o : h !! x = Some o -> 0 < ext x -> reach ext h x
| reach_kid x o c : reach ext h x -> h !! x = Some o -> c ∈ okids o -> reach ext h c.

(** ** Part 3: the invariant, and the freeing of references *)

(** The counts are values of an [int]. *)
Definition fits (s : rt) : Prop := forall x o, heap s !! x = Some o -> o_rc o <= INT_MAX.

Definition alive (s : rt) : list nat := gc_obj_list s ++ tmp_obj_list s ++ gc_zero_ref_count_list s.
Definition refs (todo : list nat) (s : rt) (x : nat) : Z := occ x (all_kids (heap s)) + occ x todo.

Section refcount.
Context (ext : nat -> Z).

(** Every object is on one of the lists; its count is that of the references from outside
    ([ext]), those of the objects and those that are about to be freed ([todo]), or more once
    its fields are freed; no reference dangles; nothing is freed twice. *)
Record acc (todo : list nat) (s : rt) : Prop := {
  a_nodup : NoDup (alive s);
  a_dom x : x ∈ alive s <-> is_Some (heap s !! x);
  a_rc x o : heap s !! x = Some o -> if o_fin o then ext x = 0 /\ refs todo s x <= o_rc o else o_rc o = ext x + refs todo s x;
  a_kids x : 0 < refs todo s x -> is_Some (heap s !! x);
  a_rank x o c oc : heap s !! x = Some o -> immediate (o_obj o) = true -> c ∈ okids o -> heap s !! c = Some oc -> (rank (o_obj oc) < rank (o_obj o))%nat;
  a_imm x o : heap s !! x = Some o -> immediate (o_obj o) = true -> if o_fin o then o_rc o = 0 else 0 < o_rc o;
  a_run x o : heap s !! x = Some o -> running (o_obj o) = true -> 0 < ext x;
  a_freed x : x ∈ freed s -> heap s !! x = None;
  a_once : NoDup (freed s);
  a_ext x : 0 <= ext x;
  a_root x : 0 < ext x -> is_Some (heap s !! x) }.

(** What is reached stays, on the list it is on, with its fields. *)
Definition keeps (s s' : rt) : Prop := forall x o, reach ext (heap s) x -> heap s !! x = Some o ->
  exists o', heap s' !! x = Some o' /\ (o_fin o = false -> o_obj o' = o_obj o) /\ o_fin o' = o_fin o /\ (x ∈ gc_obj_list s -> x ∈ gc_obj_list s').

(** Objects only go, to the allocator; of those that stay, only [new] may have had their fields
    freed. *)
Record shrinks (new : list nat) (s s' : rt) : Prop := {
  k_size : (size (heap s') <= size (heap s))%nat;
  k_old x o' : heap s' !! x = Some o' -> exists o, heap s !! x = Some o /\ rank (o_obj o') = rank (o_obj o) /\ (o_fin o' = true -> o_fin o = true \/ x ∈ new);
  k_gone x : is_Some (heap s' !! x) \/ x ∈ freed s' <-> is_Some (heap s !! x) \/ x ∈ freed s }.

Lemma refs_nonneg todo s x : 0 <= refs todo s x.
Proof. unfold refs. pose proof (occ_nonneg x (all_kids (heap s))). pose proof (occ_nonneg x todo). lia. Qed.

Lemma refs_cons x todo s y : refs (x :: todo) s y = refs todo s y + (if decide (y = x) then 1 else 0).
Proof. unfold refs. simpl. lia. Qed.

Lemma refs_app ks todo s y : refs (ks ++ todo) s y = refs todo s y + occ y ks.
Proof. unfold refs. rewrite occ_app. lia. Qed.

(** Reached objects have references. *)
Lemma reach_rc todo s x : acc todo s -> reach ext (heap s) x -> exists o, heap s !! x = Some o /\ 0 < o_rc o.
Proof.
  intros A Hr. pose proof (refs_nonneg todo s x) as Hn. destruct Hr as [x o Ho Hx|x o c _ Ho Hc].
  - exists o. split; [done|]. pose proof (a_rc _ _ A _ _ Ho) as H. destruct (o_fin o); lia.
  - assert (0 < refs todo s c) as Hp.
    { unfold refs. pose proof (occ_nonneg c todo). enough (0 < occ c (all_kids (heap s))) by lia.
      apply occ_pos, elem_of_all_kids. by exists x, o. }
    destruct (a_kids _ _ A _ Hp) as [oc Hoc]. exists oc. split; [done|].
    pose proof (a_rc _ _ A _ _ Hoc) as H. pose proof (a_ext _ _ A c). destruct (o_fin oc); lia.
Qed.

Lemma zero_unreached todo s x o : acc todo s -> heap s !! x = Some o -> o_rc o = 0 -> ~ reach ext (heap s) x.
Proof. intros A Ho H0 Hr. destruct (reach_rc _ _ _ A Hr) as (o' & Ho' & ?). simplify_eq. lia. Qed.

Lemma unreached_ext todo s x o : acc todo s -> heap s !! x = Some o -> ~ reach ext (heap s) x -> ext x = 0.
Proof. intros A Ho Hr. pose proof (a_ext _ _ A x). destruct (decide (ext x = 0)); [done|]. destruct Hr. eapply reach_root; [done|lia]. Qed.

Lemma keeps_refl s : keeps s s.
Proof. intros x o _ Ho. eauto. Qed.

Lemma keeps_reach todo s s' x : acc todo s -> keeps s s' -> reach ext (heap s) x -> reach ext (heap s') x.
Proof.
  intros A K Hr. induction Hr as [x o Ho Hx|x o c Hr IH Ho Hc].
  - destruct (K x o) as (o' & Ho' & _); [by eapply reach_root|done|]. by eapply reach_root.
  - destruct (K x o Hr Ho) as (o' & Ho' & E1 & E2 & _). eapply reach_kid; [exact IH|exact Ho'|]. unfold okids in *. rewrite E2. destruct (o_fin o); [done|]. by rewrite E1.
Qed.

Lemma keeps_reach_back todo s s' x : acc todo s -> keeps s s' -> reach ext (heap s') x -> reach ext (heap s) x.
Proof.
  intros A K Hr. induction Hr as [x o' Ho' Hx|x o' c Hr IH Ho' Hc].
  - destruct (a_root _ _ A x Hx) as [o Ho]. by eapply reach_root.
  - destruct (reach_rc _ _ _ A IH) as (o & Ho & _). destruct (K x o IH Ho) as (o2 & Ho2 & E1 & E2 & _). simplify_eq.
    eapply reach_kid; [exact IH|exact Ho|]. unfold okids in *. rewrite E2 in Hc. destruct (o_fin o); [done|]. by rewrite <- E1.
Qed.

Lemma keeps_trans todo s1 s2 s3 : acc todo s1 -> keeps s1 s2 -> keeps s2 s3 -> keeps s1 s3.
Proof.
  intros A K1 K2 x o Hr Ho. destruct (K1 x o Hr Ho) as (o2 & Ho2 & E2 & F2 & ?).
  destruct (K2 x o2) as (o3 & Ho3 & E3 & F3 & ?); [by eapply keeps_reach|done|].
  exists o3. repeat split; [done| |congruence|auto]. intros Hf. rewrite E3 by congruence. auto.
Qed.

Lemma shrinks_refl new s : shrinks new s s.
Proof. split; [lia|eauto 6|done]. Qed.

Lemma shrinks_trans new s1 s2 s3 : shrinks new s1 s2 -> shrinks new s2 s3 -> shrinks new s1 s3.
Proof.
  intros K1 K2. split.
  - pose proof (k_size _ _ _ K1). pose proof (k_size _ _ _ K2). lia.
  - intros x o3 H3. destruct (k_old _ _ _ K2 _ _ H3) as (o2 & H2 & E2 & F2). destruct (k_old _ _ _ K1 _ _ H2) as (o1 & H1 & E1 & F1).
    exists o1. rewrite E2, E1. naive_solver.
  - intros x. rewrite (k_gone _ _ _ K2). apply (k_gone _ _ _ K1).
Qed.

Lemma acc_perm todo todo' s : todo ≡ₚ todo' -> acc todo s -> acc todo' s.
Proof.
  intros Hp A. assert (forall x, refs todo' s x = refs todo s x) as E by (intros x; unfold refs; by rewrite (occ_perm x _ _ Hp)).
  destruct A as [A1 A2 A3 A4 A5 A6 A7 A8 A9 A10 A11]. split; try done; [intros x o Ho; rewrite E; by apply A3|intros x; rewrite E; apply A4].
Qed.

(** An object replaced by one of the same kind, with the same place on the lists. *)
Lemma set_obj_old new x o o' s : heap s !! x = Some o -> rank (o_obj o') = rank (o_obj o) -> (o_fin o' = true -> o_fin o = true \/ x ∈ new) ->
  shrinks new s (set_obj x o' s).
Proof.
  intros Ho Hk Hf. split; simpl.
  - rewrite map_size_insert, Ho. done.
  - intros y oy Hy. destruct (decide (x = y)) as [<-|Hn]; [|rewrite lookup_insert_ne in Hy by done; eauto 6].
    rewrite lookup_insert_eq in Hy. simplify_eq. eauto.
  - intros y. rewrite lookup_insert_is_Some. split; intros [H|H]; auto; [destruct H as [<-|[_ ?]]; eauto|].
    left. destruct (decide (x = y)); auto.
Qed.

Lemma set_obj_keeps x o o' s : heap s !! x = Some o -> o_obj o' = o_obj o -> (reach ext (heap s) x -> o_fin o' = o_fin o) -> keeps s (set_obj x o' s).
Proof.
  intros Ho E F y oy Hr Hy. simpl. destruct (decide (x = y)) as [<-|Hn]; [|rewrite lookup_insert_ne by done; eauto].
  rewrite lookup_insert_eq. simplify_eq. eauto 6.
Qed.

(** The accounting when the object [x] changes to [o'] and the references to free to [todo']. *)
Lemma acc_set todo todo' s x o o' : acc todo s -> heap s !! x = Some o -> o_obj o' = o_obj o ->
  (forall y, occ y (okids o') + occ y todo' + (if decide (y = x) then o_rc o - o_rc o' else 0) = occ y (okids o) + occ y todo) ->
  (o_fin o = true -> o_fin o' = true) -> (o_fin o' = true -> ext x = 0) ->
  (immediate (o_obj o) = true -> if o_fin o' then o_rc o' = 0 else 0 < o_rc o') ->
  o_rc o' <= o_rc o -> acc todo' (set_obj x o' s).
Proof.
  intros A Ho Eo Hocc Hfin Hext Himm Hle.
  assert (forall y, refs todo' (set_obj x o' s) y = refs todo s y - (if decide (y = x) then o_rc o - o_rc o' else 0)) as E.
  { intros y. unfold refs. simpl. rewrite (occ_insert _ _ _ _ _ Ho). specialize (Hocc y). lia. }
  assert (forall y oy, <[x := o']> (heap s) !! y = Some oy -> exists oy0, heap s !! y = Some oy0 /\ o_obj oy = o_obj oy0 /\ (forall c, c ∈ okids oy -> c ∈ okids oy0)) as Hback.
  { intros y oy Hy. destruct (decide (x = y)) as [<-|Hn]; [|rewrite lookup_insert_ne in Hy by done; eauto].
    rewrite lookup_insert_eq in Hy. simplify_eq. exists o. repeat split; [done..|]. intros c. unfold okids. rewrite Eo.
    destruct (o_fin o) eqn:?; [rewrite Hfin by done; done|]. destruct (o_fin oy); [set_solver|done]. }
  assert (forall y, is_Some (<[x := o']> (heap s) !! y) <-> is_Some (heap s !! y)) as Hdom.
  { intros y. rewrite lookup_insert_is_Some. split; [intros [<-|[_ ?]]; eauto|]. intros ?. destruct (decide (x = y)); auto. }
  destruct A as [A1 A2 A3 A4 A5 A6 A7 A8 A9 A10 A11]. split; simpl; auto.
  - intros y. by rewrite Hdom, <- A2.
  - intros y oy Hy. rewrite E. destruct (decide (x = y)) as [<-|Hn].
    + rewrite lookup_insert_eq in Hy. injection Hy as <-. specialize (A3 _ _ Ho). rewrite decide_True by done.
      destruct (o_fin o) eqn:Ef; [rewrite Hfin by done; lia|]. destruct (o_fin o'); [|lia]. split; [auto|]. rewrite (Hext eq_refl) in A3. lia.
    + rewrite lookup_insert_ne in Hy by done. rewrite decide_False by done. specialize (A3 _ _ Hy). destruct (o_fin oy); lia.
  - intros y. rewrite E, Hdom. intros Hy. apply A4. case_decide; lia.
  - intros y oy c oc Hy Hi Hc Hoc. destruct (Hback _ _ Hy) as (oy0 & Hy0 & Ey & Hk). destruct (Hback _ _ Hoc) as (oc0 & Hc0 & Ec & _).
    rewrite Ey in *. rewrite Ec. eauto.
  - intros y oy Hy Hi. destruct (decide (x = y)) as [<-|Hn].
    + rewrite lookup_insert_eq in Hy. injection Hy as <-. rewrite Eo in Hi. by apply Himm.
    + rewrite lookup_insert_ne in Hy by done. by apply (A6 y).
  - intros y oy Hy Hr. destruct (Hback _ _ Hy) as (oy0 & Hy0 & Ey & _). rewrite Ey in Hr. eauto.
  - intros y Hy. apply eq_None_not_Some. rewrite Hdom, (A8 _ Hy). by intros [].
  - intros y Hy. apply Hdom. auto.
Qed.

(** A reference to [x] freed. *)
Lemma acc_dec todo s x o : acc (x :: todo) s -> heap s !! x = Some o -> (immediate (o_obj o) = true -> 1 < o_rc o) ->
  acc todo (set_obj x (set_rc (o_rc o - 1) o) s).
Proof.
  intros A Ho Hi. eapply (acc_set _ _ _ _ o); simpl; try done.
  - intros y. unfold okids. simpl. case_decide; lia.
  - intros Hf. pose proof (a_rc _ _ A _ _ Ho) as H. rewrite Hf in H. tauto.
  - intros H1. specialize (Hi H1). pose proof (a_imm _ _ A _ _ Ho H1) as H. destruct (o_fin o); lia.
  - lia.
Qed.

(** The fields of [x] are about to be freed. *)
Lemma acc_fin todo s x o ks : acc todo s -> heap s !! x = Some o -> immediate (o_obj o) = false -> o_fin o = false -> ext x = 0 ->
  ks ≡ₚ mark_children (o_obj o) -> acc (ks ++ todo) (set_obj x (set_fin o) s).
Proof.
  intros A Ho Hi Hf He Hk. eapply (acc_set _ _ _ _ o); simpl; try done; [|by rewrite Hi].
  intros y. unfold okids. simpl. rewrite Hf, occ_app, (occ_perm y _ _ Hk). case_decide; simpl; lia.
Qed.

(** The last reference to [x] freed, and its fields about to be. *)
Lemma acc_last todo s x o ks : acc (x :: todo) s -> heap s !! x = Some o -> o_fin o = false -> o_rc o = 1 -> ks ≡ₚ mark_children (o_obj o) ->
  acc (ks ++ todo) (set_obj x (set_fin (set_rc (o_rc o - 1) o)) s).
Proof.
  intros A Ho Hf H1 Hk. assert (ext x = 0) as He.
  { pose proof (a_rc _ _ A _ _ Ho) as H. rewrite Hf, refs_cons, decide_True in H by done. pose proof (a_ext _ _ A x). pose proof (refs_nonneg todo s x). lia. }
  eapply (acc_set _ _ _ _ o); simpl; try done; [|lia|lia].
  intros y. unfold okids. simpl. rewrite Hf, occ_app, (occ_perm y _ _ Hk). case_decide; simpl; lia.
Qed.

(** Only the lists change. *)
Lemma acc_lists todo s s' : acc todo s -> heap s' = heap s -> freed s' = freed s -> alive s' ≡ₚ alive s -> acc todo s'.
Proof.
  intros [A1 A2 A3 A4 A5 A6 A7 A8 A9 A10 A11] Eh Ef Hp. split; unfold refs in *; rewrite ?Eh, ?Ef; try done.
  - by rewrite Hp.
  - intros x. by rewrite Hp.
Qed.

Lemma del_perm x l : x ∈ l -> NoDup l -> l ≡ₚ x :: del x l.
Proof.
  intros Hx Hn. apply NoDup_Permutation; [done| |].
  - constructor; [rewrite elem_of_del; tauto|]. by apply list.NoDup_filter.
  - intros y. rewrite elem_of_cons, elem_of_del. destruct (decide (y = x)) as [->|]; tauto.
Qed.

Lemma alive_del x s : alive (list_del x s) = del x (alive s).
Proof. unfold alive, del. simpl. by rewrite !list.filter_app. Qed.

(** A move from list to list. *)
Lemma acc_move todo s x s' : acc todo s -> is_Some (heap s !! x) -> heap s' = heap s -> freed s' = freed s ->
  alive s' ≡ₚ x :: alive (list_del x s) -> acc todo s'.
Proof.
  intros A Hx Eh Ef Hp. eapply acc_lists; [exact A|done|done|]. rewrite Hp, alive_del. symmetry. apply del_perm; [|apply A].
  by apply (a_dom _ _ A).
Qed.

(** An object without references and fields goes. *)
Lemma acc_delete todo s x o : acc todo s -> heap s !! x = Some o -> okids o = [] -> ext x = 0 -> refs todo s x = 0 ->
  acc todo (js_free_rt x (list_del x s)).
Proof.
  intros A Ho Hk He H0. destruct A as [A1 A2 A3 A4 A5 A6 A7 A8 A9 A10 A11].
  assert (forall y, refs todo (js_free_rt x (list_del x s)) y = refs todo s y) as E.
  { intros y. unfold refs. simpl. rewrite (occ_delete _ _ _ _ Ho), Hk. simpl. lia. }
  assert (forall y oy, delete x (heap s) !! y = Some oy -> heap s !! y = Some oy) as Hb by (intros y oy H; apply lookup_delete_Some in H; tauto).
  split; simpl; try (intros y oy; rewrite ?E; eauto; fail).
  - change (NoDup (alive (list_del x s))). rewrite alive_del. by apply list.NoDup_filter.
  - intros y. change (y ∈ alive (list_del x s) <-> is_Some (delete x (heap s) !! y)).
    rewrite alive_del, elem_of_del, lookup_delete_is_Some, A2. naive_solver.
  - intros y oy Hy. rewrite E. by apply A3, Hb.
  - intros y. rewrite E. intros Hy. rewrite lookup_delete_is_Some. split; [intros <-; lia|auto].
  - intros y oy Hy Hi. by apply (A6 y), Hi; apply Hb.
  - intros y Hy. apply elem_of_app in Hy. apply lookup_delete_None. rewrite list_elem_of_singleton in Hy. naive_solver.
  - apply list.NoDup_app. repeat split; [done| |apply NoDup_singleton]. intros y Hy Hy'. apply list_elem_of_singleton in Hy'. subst. rewrite A8 in Ho; done.
  - done.
  - intros y Hy. rewrite lookup_delete_is_Some. split; [intros <-; lia|auto].
Qed.

Lemma delete_keeps x s : ~ reach ext (heap s) x -> keeps s (js_free_rt x (list_del x s)).
Proof.
  intros Hx y o Hr Ho. assert (y <> x) as Hn by (intros ->; done). simpl. rewrite lookup_delete_ne by done.
  exists o. repeat split; [done|]. rewrite elem_of_del. tauto.
Qed.

Lemma delete_shrinks new x s o : heap s !! x = Some o -> shrinks new s (js_free_rt x (list_del x s)).
Proof.
  intros Ho. split; simpl.
  - rewrite map_size_delete, Ho. lia.
  - intros y oy H. apply lookup_delete_Some in H as [_ H]. eauto 6.
  - intros y. rewrite lookup_delete_is_Some, elem_of_app, list_elem_of_singleton. destruct (decide (y = x)) as [->|]; naive_solver.
Qed.

(** A module leaves the list of its context. *)
Lemma occ_drop_module x y o : occ y (mark_children (drop_module x o)) <= occ y (mark_children o) /\
  (y <> x -> occ y (mark_children (drop_module x o)) = occ y (mark_children o)).
Proof.
  destruct o as [| | | | |ms vs shs|]; simpl; try lia. unfold JS_MarkContext. rewrite !occ_app, occ_del. pose proof (occ_nonneg y ms). case_decide; lia.
Qed.

Definition drop_obj (x : nat) (o : gobj) : gobj := mkObj (o_rc o) (o_mark o) (o_fin o) (drop_module x (o_obj o)).

Lemma okids_drop x y o : occ y (okids (drop_obj x o)) <= occ y (okids o) /\ (y <> x -> occ y (okids (drop_obj x o)) = occ y (okids o)).
Proof. unfold okids. simpl. destruct (o_fin o); [simpl; lia|]. apply occ_drop_module. Qed.

Lemma all_kids_drop x y h : occ y (all_kids (drop_obj x <$> h)) <= occ y (all_kids h) /\ (y <> x -> occ y (all_kids (drop_obj x <$> h)) = occ y (all_kids h)).
Proof.
  induction h as [|z o h Hz IH] using map_ind; [rewrite fmap_empty; lia|]. rewrite fmap_insert, !occ_insert_new by (rewrite ?lookup_fmap, Hz; done).
  pose proof (okids_drop x y o). intuition lia.
Qed.

Lemma drop_kinds x o : rank (drop_module x o) = rank o /\ immediate (drop_module x o) = immediate o /\ running (drop_module x o) = running o.
Proof. by destruct o. Qed.

Lemma drop_unreached x o : x ∉ mark_children o -> drop_module x o = o.
Proof. destruct o; simpl; try done. unfold JS_MarkContext. intros H. rewrite del_id; [done|]. set_solver. Qed.

Lemma acc_unlink todo s x o ob : acc todo s -> heap s !! x = Some o -> o_fin o = true -> acc todo (unlink_module x ob s).
Proof.
  intros A Ho Hf. destruct ob; simpl; try done. change (acc todo (mkRt (drop_obj x <$> heap s) (gc_obj_list s) (tmp_obj_list s) (gc_zero_ref_count_list s) (freed s))).
  set (s' := mkRt _ _ _ _ _).
  assert (forall y, refs todo s' y <= refs todo s y /\ (y <> x -> refs todo s' y = refs todo s y)) as E.
  { intros y. unfold refs. simpl. pose proof (all_kids_drop x y (heap s)). intuition lia. }
  assert (forall y oy, heap s' !! y = Some oy -> exists oy0, heap s !! y = Some oy0 /\ oy = drop_obj x oy0) as Hb.
  { intros y oy Hy. simpl in Hy. rewrite lookup_fmap in Hy. apply fmap_Some in Hy as (oy0 & ? & ->). eauto. }
  assert (forall y, is_Some (heap s' !! y) <-> is_Some (heap s !! y)) as Hdom by (intros y; simpl; by rewrite lookup_fmap, fmap_is_Some).
  destruct A as [A1 A2 A3 A4 A5 A6 A7 A8 A9 A10 A11]. split; try done.
  - intros y. by rewrite Hdom.
  - intros y oy Hy. apply Hb in Hy as (oy0 & Hy & ->). specialize (A3 _ _ Hy). simpl. specialize (E y).
    destruct (decide (y = x)) as [->|Hn]; [simplify_eq; rewrite Hf in *; lia|]. destruct (o_fin oy0); lia.
  - intros y Hy. apply Hdom, A4. specialize (E y). lia.
  - intros y oy c oc Hy Hi Hc Hoc. apply Hb in Hy as (oy0 & Hy & ->). apply Hb in Hoc as (oc0 & Hoc & ->). simpl in *.
    destruct (drop_kinds x (o_obj oy0)) as (-> & Ei & _), (drop_kinds x (o_obj oc0)) as (-> & _). eapply A5; [done|by rewrite <- Ei| |done].
    apply occ_pos. apply occ_pos in Hc. pose proof (okids_drop x c oy0). lia.
  - intros y oy Hy Hi. apply Hb in Hy as (oy0 & Hy & ->). simpl in *. apply (A6 y); [done|]. by rewrite <- (proj1 (proj2 (drop_kinds x (o_obj oy0)))).
  - intros y oy Hy Hi. apply Hb in Hy as (oy0 & Hy & ->). simpl in *. apply (A7 y oy0); [done|]. by rewrite <- (proj2 (proj2 (drop_kinds x (o_obj oy0)))).
  - intros y Hy. simpl. by rewrite lookup_fmap, A8.
  - intros y Hy. by apply Hdom, A11.
Qed.

Lemma unlink_lookup x ob s y o : heap s !! y = Some o ->
  exists o', heap (unlink_module x ob s) !! y = Some o' /\ o_rc o' = o_rc o /\ o_fin o' = o_fin o /\ (o' = o \/ o_obj o' = drop_module x (o_obj o)).
Proof. intros Ho. destruct ob; simpl; eauto 6. rewrite lookup_fmap, Ho. simpl. eauto 6. Qed.

Lemma unlink_keeps x ob s : ~ reach ext (heap s) x -> keeps s (unlink_module x ob s).
Proof.
  intros Hx y o Hr Ho. destruct (unlink_lookup x ob s y o Ho) as (o' & Ho' & _ & Ef & Eo). exists o'. split; [done|].
  split; [|split; [done|by destruct ob]]. intros Hf. destruct Eo as [->|Eo]; [done|]. rewrite Eo.
  apply drop_unreached. intros Hc. apply Hx. eapply reach_kid; [exact Hr|exact Ho|]. unfold okids. by rewrite Hf.
Qed.

Lemma unlink_shrinks new x ob s : shrinks new s (unlink_module x ob s).
Proof.
  destruct ob; try apply shrinks_refl. split; simpl.
  - by rewrite map_size_fmap.
  - intros y o' Hy. rewrite lookup_fmap in Hy. apply fmap_Some in Hy as (o & Ho & ->). exists o. simpl. rewrite (proj1 (drop_kinds x (o_obj o))). auto.
  - intros y. by rewrite lookup_fmap, fmap_is_Some.
Qed.

(** Objects whose fields are freed stay. *)
Definition frozen (s s' : rt) : Prop := forall x o, heap s !! x = Some o -> o_fin o = true ->
  exists o', heap s' !! x = Some o' /\ o_fin o' = true /\ o_rc o' <= o_rc o.

Record step_ok (new todo : list nat) (s s' : rt) : Prop := {
  so_acc : acc todo s'; so_keeps : keeps s s'; so_shrinks : shrinks new s s'; so_frozen : frozen s s' }.

Lemma step_refl new todo s : acc todo s -> step_ok new todo s s.
Proof. intros A. split; [done|apply keeps_refl|apply shrinks_refl|intros x o Ho Hf]. exists o. repeat split; [done..|lia]. Qed.

Lemma step_trans new t t1 t2 s s1 s2 : acc t s -> step_ok new t1 s s1 -> step_ok new t2 s1 s2 -> step_ok new t2 s s2.
Proof.
  intros A K1 K2. split; [apply K2| | |].
  - eapply keeps_trans; [exact A|apply K1|apply K2].
  - eapply shrinks_trans; [apply K1|apply K2].
  - intros x o Ho Hf. destruct (so_frozen _ _ _ _ K1 _ _ Ho Hf) as (o1 & H1 & F1 & L1). destruct (so_frozen _ _ _ _ K2 _ _ H1 F1) as (o2 & H2 & F2 & L2).
    exists o2. repeat split; [done..|lia].
Qed.

Lemma step_more new new' todo s s' : new ⊆ new' -> step_ok new todo s s' -> step_ok new' todo s s'.
Proof.
  intros Hn [A K [S1 S2 S3] F]. split; [done..| |done]. split; [done| |done]. intros x o' Ho.
  destruct (S2 _ _ Ho) as (o & ? & ? & H). exists o. repeat split; [done..|]. intros Hf. destruct (H Hf); auto.
Qed.

Lemma step_weaken new todo s s' : step_ok [] todo s s' -> step_ok new todo s s'.
Proof. apply step_more. set_solver. Qed.

Lemma frozen_set x o o' s : heap s !! x = Some o -> o_rc o' <= o_rc o -> (o_fin o = true -> o_fin o' = true) -> frozen s (set_obj x o' s).
Proof.
  intros Ho Hr Hf y oy Hy F. simpl. destruct (decide (x = y)) as [<-|Hn].
  - rewrite lookup_insert_eq. simplify_eq. eauto.
  - rewrite lookup_insert_ne by done. exists oy. repeat split; [done..|lia].
Qed.

Lemma dec_step todo s x o : acc (x :: todo) s -> heap s !! x = Some o -> (immediate (o_obj o) = true -> 1 < o_rc o) ->
  step_ok [] todo s (set_obj x (set_rc (o_rc o - 1) o) s).
Proof.
  intros A Ho Hi. split; [by apply acc_dec|by eapply set_obj_keeps| |eapply frozen_set; simpl; [done|lia|done]].
  eapply set_obj_old; [done..|auto].
Qed.

(** What the freeing of references keeps besides, and what is asked of [zero]. *)
Record closed (P : rt -> Prop) (z : nat -> rt -> outcome rt) : Prop := {
  c_dec s x o : P s -> heap s !! x = Some o -> 1 < o_rc o -> P (set_obj x (set_rc (o_rc o - 1) o) s);
  c_fin s x o : P s -> heap s !! x = Some o -> immediate (o_obj o) = true -> o_fin o = false -> o_rc o = 1 -> P (set_obj x (set_fin (set_rc (o_rc o - 1) o)) s);
  c_del s x o : P s -> heap s !! x = Some o -> immediate (o_obj o) = true -> o_fin o = true -> P (js_free_rt x (list_del x s));
  c_zero todo s x o : let s1 := set_obj x (set_rc (o_rc o - 1) o) s in
    P s -> acc (x :: todo) s -> acc todo s1 -> heap s !! x = Some o -> immediate (o_obj o) = false -> o_rc o = 1 ->
    exists s', z x s1 = Ret s' /\ step_ok [] todo s1 s' /\ P s' }.

Lemma get_some x s o : heap s !! x = Some o -> get x s = Ret o.
Proof. intros H. unfold get. by rewrite H. Qed.

Definition ref_spec (P : rt -> Prop) (f : nat -> rt -> outcome rt) (d : nat) : Prop := forall x todo s,
  acc (x :: todo) s -> P s -> (forall o, heap s !! x = Some o -> rank (o_obj o) < d)%nat ->
  exists s', f x s = Ret s' /\ step_ok [] todo s s' /\ P s'.

Lemma each_ok P f d : ref_spec P f d -> forall ks todo s, acc (ks ++ todo) s -> P s ->
  (forall x o, x ∈ ks -> heap s !! x = Some o -> rank (o_obj o) < d)%nat -> exists s', each f ks s = Ret s' /\ step_ok [] todo s s' /\ P s'.
Proof.
  intros Hf. induction ks as [|x ks IH]; intros todo s A HP Hr; simpl.
  { exists s. split; [done|]. split; [by apply step_refl|done]. }
  destruct (Hf x (ks ++ todo) s A HP) as (s1 & E1 & K1 & P1); [intros o; apply Hr; set_solver|].
  destruct (IH todo s1) as (s2 & E2 & K2 & P2); [apply K1|done| |].
  { intros y o Hy Ho. destruct (k_old _ _ _ (so_shrinks _ _ _ _ K1) _ _ Ho) as (o0 & Ho0 & -> & _). apply (Hr y); [set_solver|done]. }
  exists s2. rewrite E1. cbn [mbind outcome_bind]. split; [done|]. split; [|done]. eapply step_trans; [exact A|exact K1|exact K2].
Qed.

Lemma last_unreached todo s x o : acc (x :: todo) s -> heap s !! x = Some o -> o_fin o = false -> o_rc o = 1 -> ~ reach ext (heap s) x.
Proof.
  intros A Ho Hf H1 Hr. pose proof (a_rc _ _ A _ _ Ho) as H. rewrite Hf, refs_cons, decide_True in H by done. unfold refs in H.
  pose proof (occ_nonneg x todo). pose proof (occ_nonneg x (all_kids (heap s))). pose proof (a_ext _ _ A x).
  inversion Hr as [? ? ? Hx|y oy ? _ Hy Hc]; subst; [lia|].
  assert (0 < occ x (all_kids (heap s))); [|lia]. apply occ_pos, elem_of_all_kids. eauto.
Qed.

(** The object [x], whose fields were freed on the way from [s], goes. *)
Lemma delete_step t todo s s2 x o o2 : acc t s -> heap s !! x = Some o -> o_fin o = false -> step_ok [x] todo s s2 ->
  heap s2 !! x = Some o2 -> o_fin o2 = true -> o_rc o2 = 0 -> step_ok [] todo s (js_free_rt x (list_del x s2)).
Proof.
  intros A Ho Hf K Ho2 Hf2 H2. pose proof (so_acc _ _ _ _ K) as A2. pose proof (a_rc _ _ A2 _ _ Ho2) as Hrc. rewrite Hf2 in Hrc.
  pose proof (refs_nonneg todo s2 x) as Hn. pose proof (delete_shrinks [x] x s2 o2 Ho2) as Hd. split.
  - eapply acc_delete; [done|done| |tauto|lia]. unfold okids. by rewrite Hf2.
  - eapply keeps_trans; [exact A|apply K|]. apply delete_keeps. by eapply zero_unreached.
  - pose proof (shrinks_trans _ _ _ _ (so_shrinks _ _ _ _ K) Hd) as [S1 S2 S3]. split; [done| |done].
    intros y o' Hy. destruct (S2 _ _ Hy) as (o0 & ? & ? & H). exists o0. repeat split; [done..|]. intros F. destruct (H F) as [|E]; [auto|].
    apply list_elem_of_singleton in E. subst. simpl in Hy. by rewrite lookup_delete_eq in Hy.
  - intros y oy Hy F. destruct (so_frozen _ _ _ _ K _ _ Hy F) as (o' & Ho' & ? & ?). exists o'. simpl.
    rewrite lookup_delete_ne; [done|]. intros ->. congruence.
Qed.

Lemma free_ref_ok P z : closed P z -> forall fuel, ref_spec P (free_ref z fuel) fuel.
Proof.
  intros C. induction fuel as [|fuel IH]; intros x todo s A HP Hr.
  all: assert (is_Some (heap s !! x)) as [o Ho] by (apply (a_kids _ _ A); rewrite refs_cons, decide_True by done; pose proof (refs_nonneg todo s x); lia).
  { specialize (Hr _ Ho). lia. }
  pose proof (a_rc _ _ A _ _ Ho) as Hrc. rewrite refs_cons, decide_True in Hrc by done. pose proof (refs_nonneg todo s x) as Hn. pose proof (a_ext _ _ A x) as Hx.
  cbn [free_ref]. rewrite (get_some _ _ _ Ho). cbn [mbind outcome_bind]. destruct (immediate (o_obj o)) eqn:Hi.
  - pose proof (a_imm _ _ A _ _ Ho Hi) as Hp. destruct (o_fin o) eqn:Hf; [lia|]. destruct (Z.leb_spec (o_rc o) 0); [lia|].
    destruct (Z.eqb_spec (o_rc o - 1) 0) as [H1|H1].
    + destruct (free_children_marked (o_obj o)) as (ks & -> & Hk); [by destruct (o_obj o)|]. cbn [mbind outcome_bind].
      set (s1 := set_obj x (set_fin (set_rc (o_rc o - 1) o)) s).
      assert (step_ok [x] (ks ++ todo) s s1) as K1.
      { split; [apply acc_last; [done..|lia|done]| |eapply set_obj_old; [done..|set_solver]|eapply frozen_set; simpl; [done|lia|done]].
        eapply set_obj_keeps; [done..|]. intros R. exfalso. eapply last_unreached; [exact A|done|done|lia|exact R]. }
      destruct (each_ok P (free_ref z fuel) fuel IH ks todo s1) as (s2 & E2 & K2 & P2); [apply K1|by apply (c_fin _ _ C); [..|lia]| |].
      { intros c oc Hc Hoc. destruct (k_old _ _ _ (so_shrinks _ _ _ _ K1) _ _ Hoc) as (oc0 & Hoc0 & -> & _).
        assert (rank (o_obj oc0) < rank (o_obj o))%nat; [|specialize (Hr _ Ho); lia]. eapply (a_rank _ _ A); [exact Ho|exact Hi| |exact Hoc0].
        unfold okids. by rewrite Hf, <- Hk. }
      rewrite E2. cbn [mbind outcome_bind]. eexists. split; [reflexivity|].
      destruct (so_frozen _ _ _ _ K2 x (set_fin (set_rc (o_rc o - 1) o))) as (o2 & Ho2 & Hf2 & L2); [simpl; apply lookup_insert_eq|done|]. simpl in L2.
      pose proof (a_rc _ _ (so_acc _ _ _ _ K2) _ _ Ho2) as Hrc2. rewrite Hf2 in Hrc2. pose proof (refs_nonneg todo s2 x).
      destruct (k_old _ _ _ (so_shrinks _ _ _ _ K2) _ _ Ho2) as (o1 & Ho1 & Er & _). simpl in Ho1. rewrite lookup_insert_eq in Ho1. injection Ho1 as <-.
      split; [|eapply (c_del _ _ C); [exact P2|exact Ho2| |exact Hf2]; rewrite rank_immediate, Er; simpl; by rewrite <- rank_immediate].
      eapply delete_step; [exact A|exact Ho|exact Hf| |exact Ho2|done|lia]. eapply step_trans; [exact A|exact K1|by apply step_weaken].
    + eexists. split; [reflexivity|]. split; [apply dec_step; [done..|lia]|]. apply (c_dec _ _ C); [done..|lia].
  - destruct (Z.leb_spec (o_rc o - 1) 0) as [H1|H1].
    + assert (o_rc o = 1) as E1 by (destruct (o_fin o); lia). assert (step_ok [] todo s (set_obj x (set_rc (o_rc o - 1) o) s)) as K1 by (apply dec_step; [done..|congruence]).
      destruct (c_zero _ _ C todo s x o) as (s' & E & K & P'); [done..|apply K1|done|done|done|]. exists s'. split; [done|]. split; [|done].
      eapply step_trans; [exact A|exact K1|exact K].
    + eexists. split; [reflexivity|]. split; [apply dec_step; [done..|congruence]|]. apply (c_dec _ _ C); [done..|lia].
Qed.

(** [free_gc_object] up to the fate of the structure. *)
Lemma free_gc_object_ok P z remove todo s x o : closed P z -> (forall s x ob, P s -> P (unlink_module x ob s)) ->
  acc todo s -> heap s !! x = Some o -> immediate (o_obj o) = false -> o_fin o = false -> ~ reach ext (heap s) x -> P (set_obj x (set_fin o) s) ->
  exists s3 o3, step_ok [x] todo s s3 /\ P s3 /\ heap s3 !! x = Some o3 /\ o_fin o3 = true /\ o_rc o3 <= o_rc o /\
    free_gc_object z remove x s = Ret (if remove && negb (o_rc o3 =? 0) then add_zero_tail x (list_del x s3) else js_free_rt x (list_del x s3)).
Proof.
  intros C Cu A Ho Hi Hf Hr HP. pose proof (unreached_ext _ _ _ _ A Ho Hr) as He.
  destruct (free_children_marked (o_obj o)) as (ks & Ek & Hk). { destruct (running (o_obj o)) eqn:E; [|done]. pose proof (a_run _ _ A _ _ Ho E). lia. }
  set (s1 := set_obj x (set_fin o) s).
  assert (step_ok [x] (ks ++ todo) s s1) as K1.
  { split; [by apply acc_fin|by eapply set_obj_keeps|eapply set_obj_old; [done..|set_solver]|eapply frozen_set; simpl; [done|lia|done]]. }
  destruct (each_ok P _ _ (free_ref_ok P z C free_fuel) ks todo s1) as (s2 & E2 & K2 & P2); [apply K1|done| |].
  { intros c oc _ _. destruct (o_obj oc); unfold free_fuel; simpl; lia. }
  destruct (so_frozen _ _ _ _ K2 x (set_fin o)) as (o2 & Ho2 & Hf2 & L2); [simpl; apply lookup_insert_eq|done|].
  destruct (unlink_lookup x (o_obj o) s2 x o2 Ho2) as (o3 & Ho3 & Er & Ef & _).
  assert (step_ok [x] todo s s2) as K12 by (eapply step_trans; [exact A|exact K1|by apply step_weaken]).
  exists (unlink_module x (o_obj o) s2), o3. split; [|repeat split; auto; [congruence|simpl in L2; lia|]].
  - eapply step_trans; [exact A|exact K12|]. split; [eapply acc_unlink; [apply K2|done..]| |apply unlink_shrinks|].
    + apply unlink_keeps. intros R. apply Hr. eapply keeps_reach_back; [exact A|apply K12|exact R].
    + intros y oy Hy F. destruct (unlink_lookup x (o_obj o) s2 y oy Hy) as (oy' & Hy' & ? & ? & _). exists oy'. repeat split; [done|congruence|lia].
  - unfold free_gc_object. rewrite (get_some _ _ _ Ho). cbn [mbind outcome_bind]. rewrite Hi, Ek. cbn [mbind outcome_bind]. fold s1. rewrite E2. cbn [mbind outcome_bind].
    unfold get. simpl. rewrite Ho3. cbn [mbind outcome_bind]. by case_match.
Qed.

(** While references are freed: the objects without references are on their list, and have
    their fields, [X] apart. *)
Record freeing (X : nat -> Prop) (s : rt) : Prop := {
  f_tmp : tmp_obj_list s = [];
  f_fin y o : heap s !! y = Some o -> o_fin o = true -> o_rc o = 0;
  f_zero y o : y ∈ gc_zero_ref_count_list s -> heap s !! y = Some o -> o_rc o = 0 /\ immediate (o_obj o) = false /\ (o_fin o = true -> X y);
  f_list y o : y ∈ gc_obj_list s -> heap s !! y = Some o -> o_fin o = true \/ 0 < o_rc o;
  f_mark y o : y ∈ gc_obj_list s -> heap s !! y = Some o -> o_mark o = false }.

Lemma zero_decref_ok X todo s x o : let s1 := set_obj x (set_rc (o_rc o - 1) o) s in
  freeing X s -> acc todo s1 -> heap s !! x = Some o -> immediate (o_obj o) = false -> o_rc o = 1 ->
  exists s', zero_decref x s1 = Ret s' /\ step_ok [] todo s1 s' /\ freeing X s'.
Proof.
  intros s1 [F1 F2 F3 F4 F5] A Ho Hi H1. set (o1 := set_rc (o_rc o - 1) o) in *. assert (heap s1 !! x = Some o1) as Ho1 by apply lookup_insert_eq.
  assert (o_fin o = false) as Hf by (destruct (o_fin o) eqn:E; [specialize (F2 _ _ Ho E); lia|done]).
  unfold zero_decref. rewrite (get_some _ _ _ Ho1). cbn [mbind outcome_bind].
  set (o2 := match o_obj o1 with ASYNC_FUNCTION _ _ _ _ _ _ => o1 | _ => set_mark true o1 end).
  assert (o_rc o2 = 0 /\ o_obj o2 = o_obj o /\ o_fin o2 = false /\ okids o2 = okids o1) as (R2 & B2 & G2 & Y2).
  { unfold o2, okids. simpl. destruct (o_obj o) eqn:E; simpl; rewrite ?E; repeat split; try done; lia. }
  assert (~ reach ext (heap s1) x) as Hr by (eapply zero_unreached; [exact A|exact Ho1|simpl; lia]).
  set (s2 := set_obj x o2 s1). assert (acc todo s2) as A2.
  { clearbody o2. eapply (acc_set todo todo s1 x o1); [done..| | | | |]; simpl; try congruence; [|lia]. intros y. rewrite Y2, R2. case_decide; lia. }
  eexists. split; [reflexivity|]. split; [split|split]; simpl.
  - eapply (acc_move todo s2 x); [done|eexists; apply lookup_insert_eq|done|done|]. unfold alive. simpl. rewrite F1. simpl. by rewrite Permutation_middle.
  - intros y oy R Hy. assert (y <> x) by (intros ->; done). exists oy. cbn [heap set_obj add_zero list_del s2 gc_obj_list].
    rewrite lookup_insert_ne by done. rewrite elem_of_del. repeat split; tauto.
  - destruct (set_obj_old [] x o1 o2 s1) as [S1 S2 S3]; [done|by rewrite B2|congruence|]. split; [exact S1|exact S2|exact S3].
  - eapply (frozen_set x o1 o2 s1); [done|simpl; lia|simpl; congruence].
  - by rewrite F1.
  - intros y oy Hy Hfy. at_key x y Hy; [done|]. rewrite lookup_insert_ne in Hy by done. eauto.
  - intros y oy Hz Hy. at_key x y Hy; [by rewrite B2, R2, G2|]. rewrite lookup_insert_ne in Hy by done. apply elem_of_cons in Hz as [|Hz]; [congruence|].
    apply elem_of_del in Hz as [Hz _]. eauto.
  - intros y oy Hz Hy. apply elem_of_del in Hz as [Hz ?]. rewrite !lookup_insert_ne in Hy by done. eauto.
  - intros y oy Hz Hy. apply elem_of_del in Hz as [Hz ?]. rewrite !lookup_insert_ne in Hy by done. eauto.
Qed.

Lemma freeing_dec X s x o : freeing X s -> heap s !! x = Some o -> 1 < o_rc o -> freeing X (set_obj x (set_rc (o_rc o - 1) o) s).
Proof.
  intros [F1 F2 F3 F4 F5] Ho H1. split; simpl; [done| | | |].
  - intros y oy Hy Hf. at_key x y Hy; [|eauto]. specialize (F2 _ _ Ho Hf). lia.
  - intros y oy Hz Hy. at_key x y Hy; [|eauto]. specialize (F3 _ _ Hz Ho). lia.
  - intros y oy Hz Hy. at_key x y Hy; [|eauto]. simpl. right. lia.
  - intros y oy Hz Hy. at_key x y Hy; [apply (F5 x o Hz Ho)|eauto].
Qed.

Lemma freeing_fin X s x o : freeing X s -> heap s !! x = Some o -> o_rc o = 1 -> freeing X (set_obj x (set_fin (set_rc (o_rc o - 1) o)) s).
Proof.
  intros [F1 F2 F3 F4 F5] Ho H1. split; simpl; [done| | | |].
  - intros y oy Hy Hf. at_key x y Hy; [|eauto]. simpl. lia.
  - intros y oy Hz Hy. at_key x y Hy; [|eauto]. specialize (F3 _ _ Hz Ho). lia.
  - intros y oy Hz Hy. at_key x y Hy; [|eauto]. auto.
  - intros y oy Hz Hy. at_key x y Hy; [apply (F5 x o Hz Ho)|eauto].
Qed.

Lemma freeing_del X Y s x : freeing X s -> (forall y, X y -> y <> x -> Y y) -> freeing Y (js_free_rt x (list_del x s)).
Proof.
  intros [F1 F2 F3 F4 F5] HX. split; simpl; [by rewrite F1| | | |]; intros y oy; rewrite ?elem_of_del, lookup_delete_Some; [naive_solver| |naive_solver..].
  intros [Hz Hn] [_ Hy]. destruct (F3 _ _ Hz Hy) as (? & ? & ?). auto.
Qed.

Lemma freeing_unlink X s x ob : freeing X s -> freeing X (unlink_module x ob s).
Proof.
  intros F. destruct ob; try done. destruct F as [F1 F2 F3 F4 F5]. split; simpl; [done|..]; intros y oy.
  all: rewrite lookup_fmap, fmap_Some.
  - intros (o & Ho & ->) Hf. by apply (F2 y o).
  - intros Hz (o & Ho & ->). simpl. rewrite (proj1 (proj2 (drop_kinds x (o_obj o)))). by apply (F3 y o).
  - intros Hz (o & Ho & ->). simpl. by apply (F4 y o).
  - intros Hz (o & Ho & ->). simpl. by apply (F5 y o).
Qed.

Lemma closed_decref X : closed (freeing X) zero_decref.
Proof.
  split; intros.
  - by apply freeing_dec.
  - by apply freeing_fin.
  - eapply freeing_del; eauto.
  - by eapply zero_decref_ok.
Qed.

(** The cascade: it ends, with no object left without references. *)
Lemma zero_loop_ok fuel todo s : acc todo s -> freeing (fun _ => False) s -> (size (heap s) <= fuel)%nat ->
  exists s', zero_loop fuel s = Ret s' /\ step_ok [] todo s s' /\ freeing (fun _ => False) s' /\ gc_zero_ref_count_list s' = [].
Proof.
  revert s. induction fuel as [|fuel IH]; intros s A F Hs; cbn [zero_loop]; destruct (gc_zero_ref_count_list s) as [|x zs] eqn:Ez.
  1,3: (exists s; split; [done|]; split; [by apply step_refl|done]).
  all: assert (x ∈ gc_zero_ref_count_list s) as Hx by (rewrite Ez; set_solver).
  all: assert (is_Some (heap s !! x)) as [o Ho] by (apply (a_dom _ _ A); unfold alive; set_solver).
  { apply Nat.le_0_r, map_size_empty_inv in Hs. rewrite Hs in Ho. done. }
  destruct (f_zero _ _ F _ _ Hx Ho) as (H0 & Hi & Hf). assert (o_fin o = false) as Hf' by (destruct (o_fin o); [destruct Hf|]; done).
  rewrite (get_some _ _ _ Ho). cbn [mbind outcome_bind]. rewrite H0. cbn [negb Z.eqb].
  destruct (free_gc_object_ok (freeing (fun y => y = x)) zero_decref false todo s x o) as (s3 & o3 & K & F3 & Ho3 & Hf3 & L3 & E).
  { apply closed_decref. } { intros. by apply freeing_unlink. } 1-4: done. { by eapply zero_unreached. }
  { destruct F as [F1 F2 F3 F4 F5]. split; simpl; [done| | | |].
    - intros y oy Hy Hfy. at_key x y Hy; [done|]. eauto.
    - intros y oy Hz Hy. at_key x y Hy; [done|]. destruct (F3 _ _ Hz Hy) as (? & ? & Hn). repeat split; [done..|]. intros Hc. destruct (Hn Hc).
    - intros y oy Hz Hy. at_key x y Hy; [auto|]. eauto.
    - intros y oy Hz Hy. at_key x y Hy; [apply (F5 x o Hz Ho)|eauto]. }
  rewrite E. cbn [andb mbind outcome_bind]. pose proof (f_fin _ _ F3 _ _ Ho3 Hf3) as R3.
  pose proof (delete_step _ _ _ _ _ _ _ A Ho Hf' K Ho3 Hf3 R3) as K4.
  destruct (IH (js_free_rt x (list_del x s3))) as (s' & E' & K' & F' & Z').
  { apply K4. } { eapply freeing_del; [exact F3|naive_solver]. }
  { simpl. rewrite map_size_delete, Ho3. pose proof (k_size _ _ _ (so_shrinks _ _ _ _ K)).
    assert (size (heap s3) <> 0%nat) by (intros Hz; apply map_size_empty_inv in Hz; by rewrite Hz in Ho3). lia. }
  exists s'. split; [done|]. split; [|done]. eapply step_trans; [exact A|exact K4|exact K'].
Qed.

(** Outside the collector. *)
Definition idle (s : rt) : Prop := freeing (fun _ => False) s /\ gc_zero_ref_count_list s = [].

Lemma closed_none : closed idle zero_none.
Proof.
  split.
  - intros s x o [F Z] Ho H1. split; [by apply freeing_dec|done].
  - intros s x o [F Z] Ho Hi Hf H1. split; [by apply freeing_fin|done].
  - intros s x o [F Z] Ho Hi Hf. split; [eapply freeing_del; eauto|]. simpl. by rewrite Z.
  - intros todo s x o s1 [F Z] A A1 Ho Hi H1. destruct (zero_decref_ok (fun _ => False) todo s x o) as (s2 & E2 & K2 & F2); [done..|].
    destruct (zero_loop_ok (size (heap s2)) todo s2) as (s3 & E3 & K3 & F3 & Z3); [apply K2|done|lia|].
    exists s3. unfold zero_none, free_zero_refcount. fold s1 in E2. rewrite E2. cbn [mbind outcome_bind]. split; [done|]. split; [|done].
    eapply step_trans; [exact A1|exact K2|exact K3].
Qed.

Lemma JS_FreeRef_ok : ref_spec idle JS_FreeRef free_fuel.
Proof. apply free_ref_ok, closed_none. Qed.

(** ** Part 4: the collector *)

(** While cycles are removed: the three lists lie in [R], [T] and outside both; the objects
    whose fields are freed are on the last, [X] apart. *)
Record removing (X R : nat -> Prop) (T : list nat) (s : rt) : Prop := {
  r_list y : y ∈ gc_obj_list s -> R y;
  r_tmp y : y ∈ tmp_obj_list s -> y ∈ T;
  r_zero y : y ∈ gc_zero_ref_count_list s -> ~ R y;
  r_own y o : y ∈ gc_zero_ref_count_list s -> heap s !! y = Some o -> o_fin o = true \/ immediate (o_obj o) = true;
  r_fin y o : heap s !! y = Some o -> o_fin o = true -> immediate (o_obj o) = false -> y ∈ gc_zero_ref_count_list s \/ X y;
  r_mark y o : R y -> heap s !! y = Some o -> o_mark o = false }.

Lemma removing_set X R T s x o o' : removing X R T s -> heap s !! x = Some o -> o_obj o' = o_obj o -> o_mark o' = o_mark o -> (o_fin o = true -> o_fin o' = true) ->
  (o_fin o' = true -> o_fin o = true \/ immediate (o_obj o) = true \/ X x) -> removing X R T (set_obj x o' s).
Proof.
  intros [R1 R2 R3 R4 R5 R6] Ho E Em Hf Hf'. split; simpl; [done..| | |].
  - intros y oy Hz Hy. at_key x y Hy; [|eauto]. rewrite E. destruct (R4 _ _ Hz Ho); auto.
  - intros y oy Hy. at_key x y Hy; [|eauto]. rewrite E. intros F I. destruct (Hf' F) as [|[|]]; [eauto|congruence|auto].
  - intros y oy HR Hy. at_key x y Hy; [|eauto]. rewrite Em. eauto.
Qed.

Lemma removing_del X R T s x : removing X R T s -> (forall o, heap s !! x = Some o -> immediate (o_obj o) = true) -> removing X R T (js_free_rt x (list_del x s)).
Proof.
  intros [R1 R2 R3 R4 R5 R6] Hx. split; simpl; intros y; rewrite ?elem_of_del.
  - intros [? _]. auto.
  - intros [? _]. auto.
  - intros [? _]. auto.
  - intros o. rewrite elem_of_del, lookup_delete_Some. intros [Hz _] [_ Hy]. eauto.
  - intros o. rewrite elem_of_del, lookup_delete_Some. intros [Hn Hy] Hf Hi. destruct (R5 _ _ Hy Hf Hi); auto.
  - intros o HR. rewrite lookup_delete_Some. intros [_ Hy]. eauto.
Qed.

Lemma removing_unlink X R T s x ob : removing X R T s -> removing X R T (unlink_module x ob s).
Proof.
  intros F. destruct ob; try done. destruct F as [R1 R2 R3 R4 R5 R6]. split; simpl; [done..| | |]; intros y oy; rewrite lookup_fmap, fmap_Some.
  - intros Hz (o & Ho & ->). simpl. rewrite (proj1 (proj2 (drop_kinds x (o_obj o)))). by apply (R4 y o).
  - intros (o & Ho & ->). simpl. rewrite (proj1 (proj2 (drop_kinds x (o_obj o)))). by apply (R5 y o).
  - intros HR (o & Ho & ->). by apply (R6 y o).
Qed.

Lemma closed_remove X R T : closed (removing X R T) (fun _ s => Ret s).
Proof.
  split.
  - intros s x o F Ho H1. eapply removing_set; simpl; eauto.
  - intros s x o F Ho Hi Hf H1. eapply removing_set; simpl; eauto.
  - intros s x o F Ho Hi Hf. apply removing_del; [done|]. intros o' E. congruence.
  - intros todo s x o s1 F A A1 Ho Hi H1. exists s1. split; [done|]. split; [by apply step_refl|]. eapply removing_set; simpl; eauto.
Qed.

(** [x] goes to the end of the list of structures to free. *)
Lemma zero_tail_step new todo s x : acc todo s -> is_Some (heap s !! x) -> ~ reach ext (heap s) x -> step_ok new todo s (add_zero_tail x (list_del x s)).
Proof.
  intros A Hx Hr. split.
  - eapply (acc_move todo s x); [done..|]. unfold alive. simpl. rewrite !(app_assoc _ _ [x]). apply Permutation_sym, Permutation_cons_append.
  - intros y o R Ho. assert (y <> x) by (intros ->; done). exists o. simpl. rewrite elem_of_del. tauto.
  - split; [done|simpl; eauto 6|done].
  - intros y o Ho F. exists o. repeat split; [done..|lia].
Qed.

Lemma removing_move X Y R T s x : removing X R T s -> ~ R x -> (forall o, heap s !! x = Some o -> o_fin o = true \/ immediate (o_obj o) = true) ->
  (forall y, X y -> y <> x -> Y y) -> removing Y R (del x T) (add_zero_tail x (list_del x s)).
Proof.
  intros [R1 R2 R3 R4 R5 R6] Hx Ho HX. split; simpl; intros y; rewrite ?elem_of_app, ?elem_of_del, ?list_elem_of_singleton.
  - intros [? _]. auto.
  - intros [? ?]. auto.
  - intros [[? _]| ->]; auto.
  - intros o. rewrite elem_of_app, elem_of_del, list_elem_of_singleton. intros [[Hz _]| ->] Hy; eauto.
  - intros o Hy F I. rewrite elem_of_app, elem_of_del, list_elem_of_singleton. destruct (decide (y = x)) as [->|Hn]; [auto|]. destruct (R5 _ _ Hy F I); auto.
  - intros o. apply R6.
Qed.

Lemma removing_gone X Y R T s x : removing X R T s -> (forall y, X y -> y <> x -> Y y) -> removing Y R (del x T) (js_free_rt x (list_del x s)).
Proof.
  intros [R1 R2 R3 R4 R5 R6] HX. split; simpl; intros y; rewrite ?elem_of_del.
  - intros [? _]. auto.
  - intros [? ?]. auto.
  - intros [? _]. auto.
  - intros o. rewrite elem_of_del, lookup_delete_Some. intros [Hz _] [_ Hy]. eauto.
  - intros o. rewrite elem_of_del, lookup_delete_Some. intros [Hn Hy] Hf Hi. destruct (R5 _ _ Hy Hf Hi); auto.
  - intros o HR. rewrite lookup_delete_Some. intros [_ Hy]. eauto.
Qed.

Definition fin_own (s : rt) : Prop := forall y o, heap s !! y = Some o -> o_fin o = true -> immediate (o_obj o) = false.

Lemma fin_own_step todo s s' x o : step_ok [x] todo s s' -> heap s !! x = Some o -> immediate (o_obj o) = false -> fin_own s -> fin_own s'.
Proof.
  intros K Ho Hi H y oy Hy Hf. destruct (k_old _ _ _ (so_shrinks _ _ _ _ K) _ _ Hy) as (o0 & Ho0 & Er & F). rewrite rank_immediate, Er, <- rank_immediate.
  destruct (F Hf) as [F0|E]; [eauto|]. apply list_elem_of_singleton in E. subst. congruence.
Qed.

(** One turn of the first loop of [gc_free_cycles]. *)
Lemma cycles_turn todo s x o R T : acc todo s -> removing (fun _ => False) R T s -> x ∈ tmp_obj_list s -> heap s !! x = Some o -> ~ R x -> ~ reach ext (heap s) x -> fin_own s ->
  exists s', (if immediate (o_obj o) then Ret (add_zero_tail x (list_del x s)) else free_gc_object (fun _ s => Ret s) true x s) = Ret s' /\
    step_ok [x] todo s s' /\ removing (fun _ => False) R (del x T) s' /\ fin_own s'.
Proof.
  intros A F Hx Ho HR Hr HO. destruct (immediate (o_obj o)) eqn:Hi.
  { eexists. split; [reflexivity|]. split; [apply zero_tail_step; eauto|]. split; [|done].
    eapply removing_move; [done..| |done]. intros o' E. simplify_eq. auto. }
  assert (o_fin o = false) as Hf.
  { destruct (o_fin o) eqn:E; [|done]. destruct (r_fin _ _ _ _ F _ _ Ho E Hi) as [Hz|[]]. pose proof (a_nodup _ _ A) as N. unfold alive in N.
    apply list.NoDup_app in N as (_ & _ & N). apply list.NoDup_app in N as (_ & N & _). destruct (N x Hx Hz). }
  destruct (free_gc_object_ok (removing (fun y => y = x) R T) (fun _ s => Ret s) true todo s x o) as (s3 & o3 & K & F3 & Ho3 & Hf3 & L3 & E).
  { apply closed_remove. } { intros. by apply removing_unlink. } 1-5: done.
  { assert (removing (fun y => y = x) R T s) as F' by (destruct F as [R1 R2 R3 R4 R5 R6]; split; auto; intros y oy Hy Hfy Hiy; destruct (R5 y oy) as [|[]]; auto).
    eapply removing_set; simpl; eauto. }
  rewrite E. eexists. split; [reflexivity|]. cbn [andb]. destruct (Z.eqb_spec (o_rc o3) 0) as [H0|H0]; cbn [negb].
  - pose proof (step_weaken [x] _ _ _ (delete_step _ _ _ _ _ _ _ A Ho Hf K Ho3 Hf3 H0)) as K'.
    split; [exact K'|]. split; [eapply removing_gone; [exact F3|naive_solver]|by eapply fin_own_step].
  - assert (step_ok [x] todo s (add_zero_tail x (list_del x s3))) as K'.
    { eapply step_trans; [exact A|exact K|]. apply zero_tail_step; [apply K|eauto|]. intros Hr3. apply Hr. eapply keeps_reach_back; [exact A|apply K|exact Hr3]. }
    split; [exact K'|]. split; [|by eapply fin_own_step]. eapply removing_move; [exact F3|done| |naive_solver]. intros o' Eo. simplify_eq. auto.
Qed.

Lemma cycles_loop_ok R fuel s T : acc [] s -> removing (fun _ => False) R T s -> (forall y, y ∈ T -> ~ R y /\ ~ reach ext (heap s) y) -> NoDup T -> fin_own s ->
  (length T <= fuel)%nat -> exists s', cycles_loop fuel s = Ret s' /\ step_ok T [] s s' /\ removing (fun _ => False) R [] s' /\ fin_own s'.
Proof.
  revert s T. induction fuel as [|fuel IH]; intros s T A F HT N HO Hl; cbn [cycles_loop]; destruct (tmp_obj_list s) as [|x ts] eqn:Et.
  1,3: (exists s; split; [done|]; split; [by apply step_refl|]; split; [|done]; destruct F as [R1 R2 R3 R4 R5 R6]; split; auto; intros y; rewrite Et; set_solver).
  all: assert (x ∈ tmp_obj_list s) as Hx by (rewrite Et; set_solver); pose proof (r_tmp _ _ _ _ F _ Hx) as HxT.
  { destruct T; [set_solver|simpl in Hl; lia]. }
  assert (is_Some (heap s !! x)) as [o Ho] by (apply (a_dom _ _ A); unfold alive; set_solver). destruct (HT x HxT) as [HR Hr].
  rewrite (get_some _ _ _ Ho). cbn [mbind outcome_bind]. destruct (cycles_turn [] s x o R T) as (s1 & E1 & K1 & F1 & O1); [done..|]. rewrite E1. cbn [mbind outcome_bind].
  destruct (IH s1 (del x T)) as (s' & E' & K' & F'); [apply K1|done| |by apply list.NoDup_filter|done| |].
  { intros y Hy. apply elem_of_del in Hy as [Hy _]. destruct (HT y Hy). split; [done|]. intros Hr1. eapply keeps_reach_back in Hr1; [done|exact A|apply K1]. }
  { pose proof (Permutation_length (del_perm x T HxT N)) as Hp. simpl in Hp. lia. }
  exists s'. split; [done|]. split; [|done]. eapply step_trans; [exact A|eapply step_more; [|exact K1]; set_solver|eapply step_more; [|exact K']].
  intros y Hy. apply elem_of_del in Hy. tauto.
Qed.

(** What is left when the cycles are removed: no [SHAPE], [VAR_REF] or [JS_CONTEXT], whose counts
    would be without a reference. *)
Lemma removed_own (R : nat -> Prop) s : acc [] s -> removing (fun _ => False) R [] s -> (forall x, R x <-> reach ext (heap s) x) -> fin_own s ->
  forall n x o, x ∈ gc_zero_ref_count_list s -> heap s !! x = Some o -> (2 - rank (o_obj o) < n)%nat -> immediate (o_obj o) = false.
Proof.
  intros A F HR HO. induction n as [|n IH]; intros x o Hx Ho Hn; [lia|]. destruct (immediate (o_obj o)) eqn:Hi; [|done]. exfalso.
  assert (~ reach ext (heap s) x) as Hr by (rewrite <- HR; by apply (r_zero _ _ _ _ F)).
  destruct (o_fin o) eqn:Hf; [rewrite (HO _ _ Ho Hf) in Hi; done|]. pose proof (a_imm _ _ A _ _ Ho Hi) as Hp. rewrite Hf in Hp.
  pose proof (a_rc _ _ A _ _ Ho) as Hrc. rewrite Hf, (unreached_ext _ _ _ _ A Ho Hr) in Hrc. unfold refs in Hrc. simpl in Hrc.
  assert (x ∈ all_kids (heap s)) as Hk by (apply occ_pos; lia). apply elem_of_all_kids in Hk as (y & oy & Hy & Hc).
  assert (y ∈ alive s) as Hl by (apply (a_dom _ _ A); eauto). unfold alive in Hl. rewrite !elem_of_app in Hl. destruct Hl as [Hl|[Hl|Hl]].
  - apply Hr. eapply reach_kid; [|exact Hy|exact Hc]. apply HR. by apply (r_list _ _ _ _ F).
  - apply (r_tmp _ _ _ _ F) in Hl. set_solver.
  - destruct (r_own _ _ _ _ F _ _ Hl Hy) as [E|E]; [unfold okids in Hc; rewrite E in Hc; set_solver|].
    rewrite (IH y oy Hl Hy) in E; [done|]. pose proof (a_rank _ _ A _ _ _ _ Hy E Hc Ho). assert (rank (o_obj oy) <= 2)%nat by (destruct (o_obj oy); simpl; lia). lia.
Qed.

Definition with_zero (zs : list nat) (s : rt) : rt := mkRt (heap s) (gc_obj_list s) (tmp_obj_list s) zs (freed s).

(** The second loop of [gc_free_cycles]. *)
Lemma free_structs_ok zs s : acc [] (with_zero zs s) -> (forall x o, x ∈ zs -> heap s !! x = Some o -> o_fin o = true /\ immediate (o_obj o) = false) ->
  (forall x, x ∈ zs -> x ∉ all_kids (heap s)) ->
  exists s', each free_struct zs s = Ret s' /\ acc [] (with_zero [] s') /\ keeps (with_zero zs s) (with_zero [] s') /\ shrinks [] (with_zero zs s) (with_zero [] s') /\
    gc_obj_list s' = gc_obj_list s /\ tmp_obj_list s' = tmp_obj_list s /\ heap s' ⊆ heap s.
Proof.
  revert s. induction zs as [|x zs IH]; intros s A Hz Hk; cbn [each].
  { exists s. split; [done|]. split; [done|]. split; [apply keeps_refl|]. split; [apply shrinks_refl|done]. }
  assert (is_Some (heap s !! x)) as [o Ho] by (apply (a_dom _ _ A); unfold alive; simpl; set_solver). destruct (Hz x o) as [Hf Hi]; [set_solver|done|].
  unfold free_struct at 2. rewrite (get_some _ _ _ Ho). cbn [mbind outcome_bind]. rewrite Hi. cbn [mbind outcome_bind].
  assert (with_zero zs (js_free_rt x s) = js_free_rt x (list_del x (with_zero (x :: zs) s))) as E.
  { pose proof (a_nodup _ _ A) as N. unfold alive in N. simpl in N. rewrite app_assoc in N. apply list.NoDup_app in N as (_ & N1 & N2). apply list.NoDup_cons in N2 as [N2 _].
    unfold with_zero, js_free_rt, list_del. simpl. f_equal; [| |unfold del; rewrite filter_cons_False by tauto; fold (del x zs)]; symmetry; apply del_id; set_solver. }
  assert (refs [] (with_zero (x :: zs) s) x = 0) as H0 by (unfold refs; simpl; rewrite occ_zero; [done|apply Hk; set_solver]).
  assert (ext x = 0) as He by (pose proof (a_rc _ _ A _ _ Ho) as H; rewrite Hf in H; tauto).
  assert (~ reach ext (heap s) x) as Hr.
  { intros R. inversion R as [? ? ? Hx|y oy ? _ Hy Hc]; subst; [lia|]. apply (Hk x); [set_solver|]. apply elem_of_all_kids. eauto. }
  assert (okids o = []) as Hok by (unfold okids; by rewrite Hf).
  destruct (IH (js_free_rt x s)) as (s' & E' & A' & K' & S' & L' & T' & M').
  - rewrite E. by eapply acc_delete.
  - intros y oy Hy Hoy. simpl in Hoy. apply lookup_delete_Some in Hoy as [_ Hoy]. apply (Hz y); [set_solver|done].
  - intros y Hy Hc. apply (Hk y); [set_solver|]. apply occ_pos. apply occ_pos in Hc. simpl in Hc. rewrite (occ_delete _ _ _ _ Ho), Hok in Hc. simpl in Hc. lia.
  - exists s'. split; [done|]. split; [done|]. rewrite E in K', S'. split; [|split; [|repeat split; [done..|]]].
    + eapply keeps_trans; [exact A| |exact K']. by apply delete_keeps.
    + eapply shrinks_trans; [|exact S']. by eapply delete_shrinks.
    + etrans; [exact M'|]. apply delete_subseteq.
Qed.

Lemma length_dom (h0 : gmap nat gobj) (l : list nat) : NoDup l -> (forall x, x ∈ l -> is_Some (h0 !! x)) -> (length l <= size h0)%nat.
Proof.
  intros N H. rewrite <- size_dom, <- (size_list_to_set (C := gset nat) l N). apply subseteq_size. intros x. rewrite elem_of_list_to_set, elem_of_dom. apply H.
Qed.

(** [gc_free_cycles], where the temporary list holds what is not reached: it goes, all of it. *)
Lemma gc_free_cycles_ok s : acc [] s -> gc_zero_ref_count_list s = [] -> (forall x o, heap s !! x = Some o -> o_fin o = false) ->
  (forall x, x ∈ gc_obj_list s <-> reach ext (heap s) x) -> (forall x o, x ∈ gc_obj_list s -> heap s !! x = Some o -> o_mark o = false) ->
  exists s', gc_free_cycles s = Ret s' /\ acc [] s' /\ keeps s s' /\ tmp_obj_list s' = [] /\ gc_zero_ref_count_list s' = [] /\
    (forall x, is_Some (heap s' !! x) \/ x ∈ freed s' <-> is_Some (heap s !! x) \/ x ∈ freed s) /\
    (forall x o, heap s' !! x = Some o -> reach ext (heap s) x /\ o_mark o = false).
Proof.
  intros A Ez Hf HL HM. set (R := reach ext (heap s)).
  assert (NoDup (tmp_obj_list s) /\ forall x, x ∈ tmp_obj_list s -> ~ R x) as [NT HT].
  { pose proof (a_nodup _ _ A) as N. unfold alive in N. rewrite Ez, app_nil_r in N. apply list.NoDup_app in N as (_ & N1 & N2).
    split; [done|]. intros x Hx Hr. apply (N1 x); [by apply HL|done]. }
  destruct (cycles_loop_ok R (size (heap s)) s (tmp_obj_list s)) as (s1 & E1 & K1 & F1 & O1); [done| |auto|done|intros y o Hy Hfy; by rewrite (Hf _ _ Hy) in Hfy| |].
  { split; [intros y; apply HL|done|rewrite Ez..| |]; [by intros y ?%not_elem_of_nil|by intros y o ?%not_elem_of_nil| |intros y o Hr; apply HM, HL, Hr].
    intros y o Hy Hfy. by rewrite (Hf _ _ Hy) in Hfy. }
  { apply length_dom; [done|]. intros x Hx. apply (a_dom _ _ A). unfold alive. set_solver. }
  pose proof (so_acc _ _ _ _ K1) as A1.
  assert (forall x, R x <-> reach ext (heap s1) x) as HR by (intros x; split; [by eapply keeps_reach; [|apply K1]|eapply keeps_reach_back; [exact A|apply K1]]).
  assert (tmp_obj_list s1 = []) as T1 by (apply elem_of_nil_inv; intros x Hx; apply (r_tmp _ _ _ _ F1) in Hx; set_solver).
  assert (s1 = with_zero (gc_zero_ref_count_list s1) s1) as Es by by destruct s1.
  assert (forall x o, x ∈ gc_zero_ref_count_list s1 -> heap s1 !! x = Some o -> o_fin o = true /\ immediate (o_obj o) = false) as HZ.
  { intros x o Hx Ho. assert (immediate (o_obj o) = false) as Hi by (eapply (removed_own R s1 A1 F1 HR O1 3); [exact Hx|exact Ho|lia]).
    destruct (r_own _ _ _ _ F1 _ _ Hx Ho); [done|congruence]. }
  destruct (free_structs_ok (gc_zero_ref_count_list s1) s1) as (s2 & E2 & A2 & K2 & S2 & L2 & T2 & M2); [by rewrite <- Es|done| |].
  { intros x Hx Hk. apply elem_of_all_kids in Hk as (y & oy & Hy & Hc). assert (y ∈ alive s1) as Hl by (apply (a_dom _ _ A1); eauto).
    unfold alive in Hl. rewrite T1, !elem_of_app in Hl. destruct Hl as [Hl|[Hl|Hl]]; [|set_solver|unfold okids in Hc; rewrite (proj1 (HZ _ _ Hl Hy)) in Hc; set_solver].
    apply (r_zero _ _ _ _ F1 x Hx), HR. eapply reach_kid; [|exact Hy|exact Hc]. apply HR. by apply (r_list _ _ _ _ F1). }
  rewrite <- Es in K2, S2. exists (with_zero [] s2). unfold gc_free_cycles. rewrite E1. cbn [mbind outcome_bind]. rewrite E2. cbn [mbind outcome_bind].
  split; [done|]. split; [done|]. split; [eapply keeps_trans; [exact A|apply K1|exact K2]|]. split; [by rewrite <- T1, <- T2|]. split; [done|]. split.
  { intros x. rewrite (k_gone _ _ _ S2). apply (k_gone _ _ _ (so_shrinks _ _ _ _ K1)). }
  intros x o Ho. simpl in Ho. assert (R x) as Hr.
  { assert (x ∈ alive (with_zero [] s2)) as Hl by (apply (a_dom _ _ A2); simpl; eauto). unfold alive in Hl. simpl in Hl. rewrite T2, T1, L2, app_nil_r in Hl.
    by apply (r_list _ _ _ _ F1). }
  split; [done|]. apply (r_mark _ _ _ _ F1 x); [done|]. by eapply lookup_weaken.
Qed.

(** *** Trial deletion

    The passes over the graph change counts, marks and lists: [counted f] says that the objects
    are those of [h0] with the counts [f], [split_by Q] that the temporary list holds those with
    [Q], and the main list the others. *)
Section trial.
Context (h0 : gmap nat gobj) (f0 : list nat).

Definition counted (f : nat -> Z) (s : rt) : Prop :=
  (forall y o, heap s !! y = Some o -> exists o0, h0 !! y = Some o0 /\ o_rc o = f y /\ o_fin o = o_fin o0 /\ o_obj o = o_obj o0) /\
  (forall y, is_Some (heap s !! y) <-> is_Some (h0 !! y)) /\ freed s = f0.

Record split_by (Q : nat -> Prop) (s : rt) : Prop := {
  sp_zero : gc_zero_ref_count_list s = [];
  sp_nodup : NoDup (gc_obj_list s ++ tmp_obj_list s);
  sp_tmp y : y ∈ tmp_obj_list s <-> is_Some (h0 !! y) /\ Q y;
  sp_list y : y ∈ gc_obj_list s <-> is_Some (h0 !! y) /\ ~ Q y }.

Lemma counted_set f f' s x o o' : counted f s -> heap s !! x = Some o -> o_rc o' = f' x -> o_fin o' = o_fin o -> o_obj o' = o_obj o ->
  (forall y, y <> x -> f' y = f y) -> counted f' (set_obj x o' s).
Proof.
  intros (C1 & C2 & C3) Ho E1 E2 E3 Hf. split; [|split; [|done]]; simpl.
  - intros y oy Hy. at_key x y Hy; [|rewrite Hf by done; eauto]. destruct (C1 _ _ Ho) as (o0 & ? & ? & ? & ?). exists o0. repeat split; congruence.
  - intros y. rewrite lookup_insert_is_Some, C2. destruct (C1 _ _ Ho) as (o0 & ? & _). destruct (decide (x = y)) as [<-|]; naive_solver.
Qed.

Lemma counted_get f s x : counted f s -> is_Some (h0 !! x) -> exists o o0, heap s !! x = Some o /\ get x s = Ret o /\ h0 !! x = Some o0 /\ o_rc o = f x /\ o_fin o = o_fin o0 /\ o_obj o = o_obj o0.
Proof. intros (C1 & C2 & _) Hx. apply C2 in Hx as [o Ho]. destruct (C1 _ _ Ho) as (o0 & ?). exists o, o0. rewrite (get_some _ _ _ Ho). tauto. Qed.

Lemma counted_lists f s s' : counted f s -> heap s' = heap s -> freed s' = freed s -> counted f s'.
Proof. unfold counted. intros C -> ->. done. Qed.

Lemma split_iff Q Q' s : (forall y, is_Some (h0 !! y) -> Q y <-> Q' y) -> split_by Q s -> split_by Q' s.
Proof. intros H [S1 S2 S3 S4]. split; [done..| |]; intros y; rewrite ?S3, ?S4; specialize (H y); tauto. Qed.

Lemma split_heap Q s x o : split_by Q s -> split_by Q (set_obj x o s).
Proof. intros [S1 S2 S3 S4]. by split. Qed.

Lemma split_to_tmp Q s x : split_by Q s -> is_Some (h0 !! x) -> ~ Q x -> split_by (fun y => Q y \/ y = x) (add_tmp x (list_del x s)).
Proof.
  intros [S1 S2 S3 S4] Hx HQ. split; simpl.
  - by rewrite S1.
  - rewrite app_assoc. unfold del. rewrite <- list.filter_app. fold (del x (gc_obj_list s ++ tmp_obj_list s)). apply list.NoDup_app.
    repeat split; [by apply list.NoDup_filter| |apply NoDup_singleton]. intros y. rewrite elem_of_del, list_elem_of_singleton. tauto.
  - intros y. rewrite elem_of_app, elem_of_del, list_elem_of_singleton, S3. destruct (decide (y = x)) as [->|]; tauto.
  - intros y. rewrite elem_of_del, S4. tauto.
Qed.

Lemma split_to_list Q s x : split_by Q s -> is_Some (h0 !! x) -> Q x ->
  split_by (fun y => Q y /\ y <> x) (add_gc x (list_del x s)) /\ gc_obj_list (add_gc x (list_del x s)) = gc_obj_list s ++ [x].
Proof.
  intros [S1 S2 S3 S4] Hx HQ. assert (del x (gc_obj_list s) = gc_obj_list s) as E by (apply del_id; rewrite S4; tauto). split; [split|]; simpl.
  - by rewrite S1.
  - rewrite E, <- app_assoc. simpl. rewrite <- Permutation_middle. apply list.NoDup_app in S2 as (N1 & N2 & N3). apply list.NoDup_cons. split.
    + rewrite elem_of_app, elem_of_del, S4. tauto.
    + apply list.NoDup_app. repeat split; [done| |by apply list.NoDup_filter]. intros y Hy. rewrite elem_of_del. intros [? _]. by apply (N2 y).
  - intros y. rewrite elem_of_del, S3. tauto.
  - intros y. rewrite E, elem_of_app, S4, list_elem_of_singleton. destruct (decide (y = x)) as [->|]; tauto.
  - by rewrite E.
Qed.

Context (Hext : forall x, 0 <= ext x).

(** Room for the references [cs] beside those already counted. *)
Lemma room_head c cs K : (forall x, ext x + occ x ((c :: cs) ++ K) <= INT_MAX) -> ext c + occ c K < INT_MAX.
Proof. intros H. specialize (H c). simpl in H. rewrite occ_app, decide_True in H by done. pose proof (occ_nonneg c cs). lia. Qed.
Lemma room_tail c cs K : (forall x, ext x + occ x ((c :: cs) ++ K) <= INT_MAX) -> forall x, ext x + occ x (cs ++ c :: K) <= INT_MAX.
Proof. intros H x. specialize (H x). rewrite <- (occ_perm x _ _ (Permutation_middle cs K c)). exact H. Qed.

(** [gc_decref]: the objects [D] are passed, the references [R] not yet taken off. *)
Record lowering (D R : list nat) (s : rt) : Prop := {
  lo_count : counted (fun y => ext y + occ y R) s;
  lo_mark y o : heap s !! y = Some o -> o_mark o = bool_decide (y ∈ D);
  lo_split : split_by (fun y => y ∈ D /\ ext y + occ y R = 0) s }.

Lemma gc_decref_child_ok D R c s : lowering D (c :: R) s -> is_Some (h0 !! c) -> exists s', gc_decref_child c s = Ret s' /\ lowering D R s'.
Proof.
  intros [C M S] Hc. destruct (counted_get _ _ _ C Hc) as (o & o0 & Ho & Eg & Ho0 & Er & _). unfold gc_decref_child. rewrite Eg. cbn [mbind outcome_bind].
  simpl in Er. rewrite decide_True in Er by done. pose proof (Hext c). pose proof (occ_nonneg c R). destruct (Z.leb_spec (o_rc o) 0); [lia|]. eexists. split; [reflexivity|].
  set (s1 := set_obj c (set_rc (o_rc o - 1) o) s).
  assert (counted (fun y => ext y + occ y R) s1) as C1.
  { eapply counted_set; [exact C|exact Ho|simpl; lia|done|done|]. intros y Hy. simpl. rewrite decide_False by done. lia. }
  assert (forall y oy, heap s1 !! y = Some oy -> o_mark oy = bool_decide (y ∈ D)) as M1 by (intros y oy Hy; simpl in Hy; at_key c y Hy; simpl; eauto).
  assert (split_by (fun y => y ∈ D /\ ext y + occ y (c :: R) = 0) s1) as S1 by by apply split_heap.
  rewrite (M _ _ Ho). destruct (Z.eqb_spec (o_rc o - 1) 0) as [Hz0|Hz0]; cbn [andb]; [case_bool_decide as HD|].
  - split; [by eapply counted_lists|done|]. eapply split_iff; [|apply (split_to_tmp _ _ c S1 Hc)]; simpl.
    + intros y _. destruct (decide (y = c)) as [->|]; intuition lia.
    + rewrite decide_True by done. lia.
  - split; [done..|]. eapply split_iff; [|exact S1]. intros y _. simpl. case_decide; [subst; tauto|]. intuition lia.
  - split; [done..|]. eapply split_iff; [|exact S1]. intros y _. simpl. case_decide; [subst; intuition lia|]. intuition lia.
Qed.

Lemma gc_decref_children_ok D cs R s : lowering D (cs ++ R) s -> (forall c, c ∈ cs -> is_Some (h0 !! c)) -> exists s', each gc_decref_child cs s = Ret s' /\ lowering D R s'.
Proof.
  revert s. induction cs as [|c cs IH]; intros s L Hc; cbn [each]; [eauto|].
  destruct (gc_decref_child_ok D (cs ++ R) c s L) as (s1 & E1 & L1); [apply Hc; set_solver|]. rewrite E1. cbn [mbind outcome_bind]. apply IH; [done|set_solver].
Qed.

Lemma lowering_mark D R s x o : lowering D R s -> x ∉ D -> heap s !! x = Some o ->
  lowering (D ++ [x]) R (if o_rc o =? 0 then add_tmp x (list_del x (set_obj x (set_mark true o) s)) else set_obj x (set_mark true o) s).
Proof.
  intros [C M S] HD Ho. set (s1 := set_obj x (set_mark true o) s). destruct (proj1 C _ _ Ho) as (o0 & Ho0 & Er & _).
  assert (counted (fun y => ext y + occ y R) s1) as C1 by (eapply counted_set; [exact C|exact Ho|done..]).
  assert (forall y oy, heap s1 !! y = Some oy -> o_mark oy = bool_decide (y ∈ D ++ [x])) as M1.
  { intros y oy Hy. simpl in Hy. at_key x y Hy; [simpl; by rewrite bool_decide_true by set_solver|]. rewrite (M _ _ Hy). apply bool_decide_ext. set_solver. }
  assert (split_by (fun y => y ∈ D /\ ext y + occ y R = 0) s1) as S1 by by apply split_heap.
  destruct (Z.eqb_spec (o_rc o) 0) as [H0|H0].
  - split; [by eapply counted_lists|done|]. eapply split_iff; [|apply (split_to_tmp _ _ x S1); [eauto|tauto]]. intros y _. simpl.
    rewrite elem_of_app, list_elem_of_singleton. destruct (decide (y = x)) as [->|]; intuition lia.
  - split; [done..|]. eapply split_iff; [|exact S1]. intros y _. simpl. rewrite elem_of_app, list_elem_of_singleton.
    destruct (decide (y = x)) as [->|]; intuition lia.
Qed.

Definition kid (x : nat) : list nat := match h0 !! x with Some o => mark_children (o_obj o) | None => [] end.

Context (Hkid : forall x c, c ∈ kid x -> is_Some (h0 !! c)).

Lemma gc_decref_loop_ok xs D R s : lowering D ((xs ≫= kid) ++ R) s -> NoDup (D ++ xs) -> (forall x, x ∈ xs -> is_Some (h0 !! x)) ->
  exists s', each gc_decref_one xs s = Ret s' /\ lowering (D ++ xs) R s'.
Proof.
  revert D s. induction xs as [|x xs IH]; intros D s L N Hx; cbn [each]; [exists s; by rewrite app_nil_r|].
  rewrite bind_cons, <- app_assoc in L. assert (x ∉ D) as HD by (apply list.NoDup_app in N as (_ & N & _); intros H; apply (N x H); set_solver).
  destruct (counted_get _ _ _ (lo_count _ _ _ L) (Hx x ltac:(set_solver))) as (o & o0 & Ho & Eg & Ho0 & _ & _ & Eo).
  unfold gc_decref_one at 2. rewrite Eg. cbn [mbind outcome_bind]. rewrite (lo_mark _ _ _ L _ _ Ho), bool_decide_false by done.
  assert (mark_children (o_obj o) = kid x) as -> by (unfold kid; by rewrite Ho0, Eo).
  destruct (gc_decref_children_ok D (kid x) ((xs ≫= kid) ++ R) s L) as (s1 & E1 & L1); [apply Hkid|]. rewrite E1. cbn [mbind outcome_bind].
  destruct (counted_get _ _ _ (lo_count _ _ _ L1) (Hx x ltac:(set_solver))) as (o1 & _ & Ho1 & Eg1 & _). rewrite Eg1. cbn [mbind outcome_bind].
  pose proof (lowering_mark _ _ _ _ _ L1 HD Ho1) as L2. destruct (IH (D ++ [x]) _ L2) as (s' & E' & L'); [by rewrite <- app_assoc|set_solver|].
  exists s'. rewrite <- app_assoc in L'. done.
Qed.

(** [gc_scan]: the references [K] are counted again; the main list holds what has a count. *)
Record raising (K : list nat) (s : rt) : Prop := {
  ra_count : counted (fun y => ext y + occ y K) s;
  ra_split : split_by (fun y => ext y + occ y K = 0) s;
  ra_reach y : y ∈ gc_obj_list s -> reach ext h0 y }.

(** The list grows at its end, and no mark is set. *)
Definition grows (s s' : rt) : Prop := gc_obj_list s `prefix_of` gc_obj_list s' /\
  (forall y o, heap s !! y = Some o -> o_mark o = false -> exists o', heap s' !! y = Some o' /\ o_mark o' = false).

Lemma grows_trans s1 s2 s3 : grows s1 s2 -> grows s2 s3 -> grows s1 s3.
Proof.
  intros [G1 M1] [G2 M2]. split; [by etrans|]. intros y o Ho Hm. destruct (M1 _ _ Ho Hm) as (o2 & Ho2 & Hm2). eauto.
Qed.

Lemma grows_set s x o o' : heap s !! x = Some o -> (o_mark o = false -> o_mark o' = false) -> grows s (set_obj x o' s).
Proof.
  intros Ho Hm. split; [done|]. intros y oy Hy Hmy. simpl. destruct (decide (x = y)) as [<-|Hn].
  - rewrite lookup_insert_eq. simplify_eq. eauto.
  - rewrite lookup_insert_ne by done. eauto.
Qed.

Lemma counted_incref K c s o o' : counted (fun y => ext y + occ y K) s -> heap s !! c = Some o -> o_rc o' = o_rc o + 1 -> o_fin o' = o_fin o -> o_obj o' = o_obj o ->
  counted (fun y => ext y + occ y (c :: K)) (set_obj c o' s).
Proof.
  intros C Ho E1 E2 E3. destruct (proj1 C _ _ Ho) as (o0 & _ & Er & _). eapply counted_set; [exact C|exact Ho| |done|done|].
  - simpl. rewrite decide_True by done. lia.
  - intros y Hy. simpl. rewrite decide_False by done. lia.
Qed.

Lemma gc_scan_incref_child_ok K c s : raising K s -> is_Some (h0 !! c) -> reach ext h0 c -> ext c + occ c K < INT_MAX ->
  exists s', gc_scan_incref_child c s = Ret s' /\ raising (c :: K) s' /\ grows s s'.
Proof.
  intros [C S R] Hc Hr Hm. destruct (counted_get _ _ _ C Hc) as (o & o0 & Ho & Eg & Ho0 & Er & _). unfold gc_scan_incref_child. rewrite Eg. cbn [mbind outcome_bind].
  pose proof (Hext c). pose proof (occ_nonneg c K). simpl in Er. rewrite incref_ok by lia. cbn [mbind outcome_bind]. change (o_rc (set_rc (o_rc o + 1) o)) with (o_rc o + 1).
  destruct (Z.eqb_spec (o_rc o + 1) 1) as [H1|H1]; (eexists; split; [reflexivity|]).
  - set (s1 := set_obj c _ s). assert (split_by (fun y => ext y + occ y K = 0) s1) as S1 by by apply split_heap.
    destruct (split_to_list _ _ c S1 Hc) as [S2 EL]; [lia|]. split; [split|].
    + eapply counted_lists; [|done|done]. by eapply counted_incref.
    + eapply split_iff; [|exact S2]. intros y _. simpl. pose proof (occ_nonneg y K). pose proof (Hext y). case_decide; subst; intuition lia.
    + rewrite EL. intros y Hy. apply elem_of_app in Hy as [Hy|Hy]; [by apply R|]. apply list_elem_of_singleton in Hy. by subst.
    + destruct (grows_set s c o (set_mark false (set_rc (o_rc o + 1) o)) Ho) as [_ G]; [done|]. split; [rewrite EL; by exists [c]|exact G].
  - split; [split|].
    + by eapply counted_incref.
    + apply split_heap. eapply split_iff; [|exact S]. intros y _. simpl. case_decide; subst; intuition lia.
    + exact R.
    + by eapply grows_set.
Qed.

Lemma gc_scan_children_ok cs K s : raising K s -> (forall c, c ∈ cs -> is_Some (h0 !! c) /\ reach ext h0 c) ->
  (forall c, ext c + occ c (cs ++ K) <= INT_MAX) ->
  exists s' K', each gc_scan_incref_child cs s = Ret s' /\ K' ≡ₚ cs ++ K /\ raising K' s' /\ grows s s'.
Proof.
  revert K s. induction cs as [|c cs IH]; intros K s L Hc Hm; cbn [each].
  { exists s, K. split; [done|]. split; [done|]. split; [done|]. split; [done|eauto]. }
  destruct (gc_scan_incref_child_ok K c s L) as (s1 & E1 & L1 & G1); [apply Hc; set_solver..|by apply room_head in Hm|].
  rewrite E1. cbn [mbind outcome_bind].
  destruct (IH (c :: K) s1 L1) as (s' & K' & E' & HK & L' & G'); [set_solver|by apply room_tail|]. exists s', K'. split; [done|]. split; [|split; [done|by eapply grows_trans]].
  rewrite HK. simpl. symmetry. apply Permutation_middle.
Qed.

Context (Hfin : forall x o, h0 !! x = Some o -> o_fin o = false).

Lemma kid_reach x c : reach ext h0 x -> c ∈ kid x -> is_Some (h0 !! c) /\ reach ext h0 c.
Proof.
  intros R Hc. split; [by eapply Hkid|]. unfold kid in Hc. destruct (h0 !! x) as [o|] eqn:Ho; [|set_solver].
  eapply reach_kid; [exact R|exact Ho|]. unfold okids. by rewrite (Hfin _ _ Ho).
Qed.

Lemma raising_unmark K s x o : raising K s -> heap s !! x = Some o -> raising K (set_obj x (set_mark false o) s).
Proof.
  intros [C S R] Ho. split; [|by apply split_heap|done]. destruct (proj1 C _ _ Ho) as (o0 & _ & Er & _). by eapply counted_set.
Qed.

Context (Hmax : forall x, ext x + occ x (all_kids h0) <= INT_MAX).

Lemma kids_occ_le c (l : list nat) : NoDup l -> (forall x, x ∈ l -> is_Some (h0 !! x)) -> occ c (l ≫= kid) <= occ c (all_kids h0).
Proof.
  intros N Hd. assert (forall h : gmap nat gobj, (forall x, x ∈ l -> h !! x = h0 !! x) -> occ c (l ≫= kid) <= occ c (all_kids h)) as H; [|by apply H].
  induction l as [|x l IH]; intros h E; [apply occ_nonneg|]. apply list.NoDup_cons in N as [Hx N].
  destruct (Hd x) as [o Ho]; [set_solver|]. assert (h !! x = Some o) as Hh by (rewrite E by set_solver; done).
  specialize (IH N ltac:(set_solver) (delete x h)). rewrite (occ_delete _ _ _ _ Hh) in IH.
  rewrite bind_cons, occ_app. unfold kid at 1. rewrite Ho. unfold okids in IH. rewrite (Hfin _ _ Ho) in IH.
  enough (occ c (l ≫= kid) <= occ c (all_kids h) - occ c (mark_children (o_obj o))) by lia. apply IH.
  intros y Hy. rewrite lookup_delete_ne by set_solver. apply E. set_solver.
Qed.

Lemma room_in K l : K ≡ₚ l ≫= kid -> NoDup l -> (forall x, x ∈ l -> is_Some (h0 !! x)) -> forall c, ext c + occ c K <= INT_MAX.
Proof. intros HK N Hd c. rewrite (occ_perm c _ _ HK). pose proof (kids_occ_le c l N Hd). specialize (Hmax c). lia. Qed.

(** The first loop of [gc_scan]: the fuel is enough, and what is on the main list at the end is
    closed under references, counted and unmarked. *)
Lemma scan_loop_ok fuel i K s : raising K s -> K ≡ₚ take i (gc_obj_list s) ≫= kid -> (i <= length (gc_obj_list s))%nat ->
  (forall y o, y ∈ take i (gc_obj_list s) -> heap s !! y = Some o -> o_mark o = false) -> (size h0 <= fuel + i)%nat ->
  exists s' K', scan_loop fuel i s = Ret s' /\ raising K' s' /\ K' ≡ₚ gc_obj_list s' ≫= kid /\
    (forall y o, y ∈ gc_obj_list s' -> heap s' !! y = Some o -> o_mark o = false).
Proof.
  revert i K s. induction fuel as [|fuel IH]; intros i K s L HK Hi HM Hs; cbn [scan_loop]; destruct (gc_obj_list s !! i) as [x|] eqn:Hx.
  2,4: (apply lookup_ge_None in Hx; rewrite take_ge in HK, HM by done; exists s, K; done).
  all: assert (x ∈ gc_obj_list s) as HxL by (by eapply list_elem_of_lookup_2); pose proof (ra_split _ _ L) as SP.
  { apply lookup_lt_Some in Hx. assert (length (gc_obj_list s) <= size h0)%nat; [|lia]. apply length_dom; [|intros y Hy; by apply (sp_list _ _ SP)].
    pose proof (sp_nodup _ _ SP) as N. apply list.NoDup_app in N. tauto. }
  destruct (proj1 (sp_list _ _ SP x) HxL) as [Hd Hq]. destruct (counted_get _ _ _ (ra_count _ _ L) Hd) as (o & o0 & Ho & Eg & Ho0 & Er & _ & Eo).
  rewrite Eg. cbn [mbind outcome_bind]. pose proof (Hext x). pose proof (occ_nonneg x K). simpl in Er. destruct (Z.leb_spec (o_rc o) 0); [lia|].
  assert (mark_children (o_obj o) = kid x) as -> by (unfold kid; by rewrite Ho0, Eo).
  destruct (gc_scan_children_ok (kid x) K (set_obj x (set_mark false o) s)) as (s1 & K1 & E1 & HK1 & L1 & [[l Hl] G]).
  { by apply raising_unmark. } { intros c Hc. eapply kid_reach; [|exact Hc]. by apply (ra_reach _ _ L). }
  { apply (room_in _ (take (S i) (gc_obj_list s))).
    - by rewrite HK, (take_S_r _ _ _ Hx), bind_app, bind_singleton, (Permutation_app_comm (kid x)).
    - pose proof (sp_nodup _ _ SP) as N. apply list.NoDup_app in N as [N _]. rewrite <- (take_drop (S i) (gc_obj_list s)) in N. apply list.NoDup_app in N. tauto.
    - intros y Hy. apply (sp_list _ _ SP). eapply elem_of_take in Hy as (j & Hj & _). by eapply list_elem_of_lookup_2. }
  rewrite E1. cbn [mbind outcome_bind]. simpl in Hl. pose proof (lookup_lt_Some _ _ _ Hx) as Hlt.
  assert (take (S i) (gc_obj_list s1) = take i (gc_obj_list s) ++ [x]) as Et by (rewrite Hl, take_app_le by lia; by apply take_S_r).
  apply (IH (S i) K1); [done| |rewrite Hl, length_app; lia| |lia].
  - rewrite HK1, Et, bind_app, bind_singleton, HK. apply Permutation_app_comm.
  - rewrite Et. intros y oy Hy Hoy. assert (exists o', heap (set_obj x (set_mark false o) s) !! y = Some o' /\ o_mark o' = false) as (o' & Ho' & Hm').
    { simpl. destruct (decide (x = y)) as [<-|Hn]; [rewrite lookup_insert_eq; eauto|]. rewrite lookup_insert_ne by done.
      apply elem_of_app in Hy as [Hy|Hy]; [|apply list_elem_of_singleton in Hy; congruence]. assert (is_Some (heap s !! y)) as [o' Ho'].
      { apply (proj1 (proj2 (ra_count _ _ L))), (sp_list _ _ SP). eapply elem_of_take in Hy as (j & Hj & _). by eapply list_elem_of_lookup_2. }
      eauto. }
    destruct (G _ _ Ho' Hm') as (o2 & Ho2 & ?). congruence.
Qed.

(** Its second loop counts the references of the rest, and changes nothing else. *)
Definition quiet (s s' : rt) : Prop :=
  gc_obj_list s' = gc_obj_list s /\ tmp_obj_list s' = tmp_obj_list s /\ gc_zero_ref_count_list s' = gc_zero_ref_count_list s /\
  (forall y o, heap s' !! y = Some o -> exists o0, heap s !! y = Some o0 /\ o_mark o = o_mark o0).

Lemma quiet_refl s : quiet s s.
Proof. repeat split. eauto. Qed.

Lemma quiet_trans s1 s2 s3 : quiet s1 s2 -> quiet s2 s3 -> quiet s1 s3.
Proof.
  intros (A1 & B1 & C1 & D1) (A2 & B2 & C2 & D2). repeat split; try congruence. intros y o Ho.
  destruct (D2 _ _ Ho) as (o2 & Ho2 & ->). eauto.
Qed.

Lemma scan_children2_ok cs K s : counted (fun y => ext y + occ y K) s -> (forall c, c ∈ cs -> is_Some (h0 !! c)) ->
  (forall c, ext c + occ c (cs ++ K) <= INT_MAX) ->
  exists s' K', each gc_scan_incref_child2 cs s = Ret s' /\ counted (fun y => ext y + occ y K') s' /\ K' ≡ₚ cs ++ K /\ quiet s s'.
Proof.
  revert K s. induction cs as [|c cs IH]; intros K s C Hc Hm; cbn [each]; [exists s, K; split; [done|]; split; [done|]; split; [done|apply quiet_refl]|].
  destruct (counted_get _ _ _ C (Hc c ltac:(set_solver))) as (o & o0 & Ho & Eg & Ho0 & Er & _). unfold gc_scan_incref_child2 at 2. rewrite Eg. cbn [mbind outcome_bind].
  simpl in Er. pose proof (room_head _ _ _ Hm). rewrite incref_ok by lia. cbn [mbind outcome_bind].
  destruct (IH (c :: K) (set_obj c (set_rc (o_rc o + 1) o) s)) as (s' & K' & E' & C' & HK' & Q'); [by eapply counted_incref|set_solver|by apply room_tail|].
  exists s', K'. split; [done|]. split; [done|]. split; [rewrite HK'; symmetry; apply Permutation_middle|]. eapply quiet_trans; [|exact Q'].
  repeat split. intros y oy Hy. simpl in Hy. at_key c y Hy; eauto.
Qed.

Lemma scan_tmp_ok xs K s : counted (fun y => ext y + occ y K) s -> (forall x, x ∈ xs -> is_Some (h0 !! x)) ->
  (forall c, ext c + occ c (K ++ (xs ≫= kid)) <= INT_MAX) ->
  exists s' K', each scan_tmp xs s = Ret s' /\ counted (fun y => ext y + occ y K') s' /\ K' ≡ₚ K ++ (xs ≫= kid) /\ quiet s s'.
Proof.
  revert K s. induction xs as [|x xs IH]; intros K s C Hx Hm; cbn [each]; [exists s, K; rewrite app_nil_r; split; [done|]; split; [done|]; split; [done|apply quiet_refl]|].
  destruct (counted_get _ _ _ C (Hx x ltac:(set_solver))) as (o & o0 & Ho & Eg & Ho0 & _ & _ & Eo). unfold scan_tmp at 2. rewrite Eg. cbn [mbind outcome_bind].
  assert (mark_children (o_obj o) = kid x) as -> by (unfold kid; by rewrite Ho0, Eo).
  destruct (scan_children2_ok (kid x) K s C) as (s1 & K1 & E1 & C1 & HK1 & Q1); [apply Hkid| |].
  { intros c. specialize (Hm c). rewrite bind_cons, !occ_app in Hm. rewrite occ_app. pose proof (occ_nonneg c (xs ≫= kid)). lia. }
  rewrite E1. cbn [mbind outcome_bind].
  destruct (IH K1 s1 C1) as (s' & K' & E' & C' & HK' & Q'); [set_solver| |].
  { intros c. specialize (Hm c). rewrite bind_cons, !occ_app in Hm. rewrite occ_app, (occ_perm c _ _ HK1), occ_app. lia. } exists s', K'. split; [done|]. split; [done|]. split; [|by eapply quiet_trans].
  by rewrite HK', HK1, bind_cons, app_assoc, (Permutation_app_comm (kid x)).
Qed.

Lemma kids_occ c (l : list nat) (h : gmap nat gobj) : NoDup l -> (forall x, x ∈ l <-> is_Some (h !! x)) -> (forall x o, h !! x = Some o -> o_fin o = false) ->
  (forall x, x ∈ l -> h !! x = h0 !! x) -> occ c (l ≫= kid) = occ c (all_kids h).
Proof.
  revert h. induction l as [|x l IH]; intros h N Hd Hf E.
  { assert (h = ∅) as ->; [|done]. apply map_empty. intros x. apply eq_None_not_Some. rewrite <- Hd. set_solver. }
  apply list.NoDup_cons in N as [Hx N]. destruct (proj1 (Hd x)) as [o Ho]; [set_solver|].
  rewrite bind_cons, occ_app, (IH (delete x h) N), (occ_delete _ _ _ _ Ho).
  - unfold kid, okids. rewrite <- (E x), Ho, (Hf _ _ Ho) by set_solver. lia.
  - intros y. rewrite lookup_delete_is_Some, <- Hd. set_solver.
  - intros y oy. rewrite lookup_delete_Some. intros [_ ?]. eauto.
  - intros y Hy. rewrite lookup_delete_ne by set_solver. apply E. set_solver.
Qed.

(** Trial deletion as a whole: the counts are as before, and the lists tell what is reached. *)
Lemma trial_deletion s : heap s = h0 -> freed s = f0 -> gc_zero_ref_count_list s = [] -> tmp_obj_list s = [] -> NoDup (gc_obj_list s) ->
  (forall x, x ∈ gc_obj_list s <-> is_Some (h0 !! x)) -> (forall x o, h0 !! x = Some o -> o_mark o = false /\ o_rc o = ext x + occ x (all_kids h0)) ->
  exists s1 s2, gc_decref s = Ret s1 /\ gc_scan s1 = Ret s2 /\ counted (fun y => ext y + occ y (all_kids h0)) s2 /\ gc_zero_ref_count_list s2 = [] /\
    NoDup (gc_obj_list s2 ++ tmp_obj_list s2) /\
    (forall x, x ∈ gc_obj_list s2 <-> reach ext h0 x) /\ (forall x, x ∈ tmp_obj_list s2 <-> is_Some (h0 !! x) /\ ~ reach ext h0 x) /\
    (forall x o, x ∈ gc_obj_list s2 -> heap s2 !! x = Some o -> o_mark o = false).
Proof.
  intros Eh Ef Ez Et N Hd H0. destruct (gc_decref_loop_ok (gc_obj_list s) [] [] s) as (s1 & E1 & L1); [split|done|intros x; apply Hd|].
  { split; [|split; [by rewrite Eh|done]]. rewrite Eh. intros y o Ho. exists o. split; [done|]. split; [|done]. rewrite (proj2 (H0 _ _ Ho)), app_nil_r. f_equal.
    symmetry. apply kids_occ; auto. }
  { rewrite Eh. intros y o Ho. rewrite (proj1 (H0 _ _ Ho)). by rewrite bool_decide_false by set_solver. }
  { split; rewrite ?Et, ?app_nil_r; try done; intros y; rewrite ?Hd; set_solver. }
  simpl in L1. destruct L1 as [C1 M1 S1]. assert (size (heap s1) = size h0) as Hsz.
  { rewrite <- !size_dom. f_equal. apply set_eq. intros y. rewrite !elem_of_dom. apply C1. }
  destruct (scan_loop_ok (size (heap s1)) 0 [] s1) as (s2 & K & E2 & [C2 S2 R2] & HK & M2); [split; [done| |]|done|lia|set_solver|lia|].
  { eapply split_iff; [|exact S1]. intros y Hy. simpl. rewrite Hd. tauto. }
  { intros y Hy. apply (sp_list _ _ S1) in Hy as [Hy Hn]. simpl in Hn. rewrite Hd in Hn. destruct Hy as [o Ho]. eapply reach_root; [exact Ho|]. pose proof (Hext y).
    assert (ext y <> 0); [|lia]. intros Hy0. apply Hn. split; [eauto|simpl; lia]. }
  destruct (scan_tmp_ok (tmp_obj_list s2) K s2 C2) as (s3 & K3 & E3 & C3 & HK3 & (Q1 & Q2 & Q3 & Q4)); [intros x Hx; by apply (sp_tmp _ _ S2)| |].
  { apply (room_in _ (gc_obj_list s2 ++ tmp_obj_list s2)); [by rewrite HK, bind_app|apply S2|]. intros x Hx. apply elem_of_app in Hx as [Hx|Hx]; [by apply (sp_list _ _ S2)|by apply (sp_tmp _ _ S2)]. }
  assert (forall x, x ∈ gc_obj_list s2 <-> reach ext h0 x) as HR.
  { intros x. split; [apply R2|]. intros R. induction R as [x o Ho Hx|x o c R IH Ho Hc]; apply (sp_list _ _ S2).
    - split; [eauto|]. pose proof (occ_nonneg x K). lia.
    - assert (c ∈ kid x) as Hck by (unfold kid; rewrite Ho; unfold okids in Hc; by rewrite (Hfin _ _ Ho) in Hc). split; [by eapply Hkid|].
      assert (0 < occ c K); [|pose proof (Hext c); lia]. apply occ_pos. rewrite HK, list_elem_of_bind. eauto. }
  exists s1, s3. split; [exact E1|]. split; [unfold gc_scan; rewrite E2; exact E3|]. split; [|split; [rewrite Q3; apply S2|]].
  { destruct C3 as (C4 & C5 & C6). split; [|done]. intros y o Ho. destruct (C4 _ _ Ho) as (o0 & ? & Er & ?). exists o0. split; [done|]. split; [|done]. rewrite Er.
    f_equal. rewrite (occ_perm _ _ _ HK3), occ_app, (occ_perm _ _ _ HK), <- occ_app, <- bind_app. apply kids_occ; [apply S2| |done|done].
    intros x. rewrite elem_of_app, (sp_list _ _ S2), (sp_tmp _ _ S2). destruct (decide (ext x + occ x K = 0)); tauto. }
  rewrite Q1, Q2. split; [apply S2|]. split; [done|]. split.
  - intros x. rewrite <- HR, (sp_tmp _ _ S2), (sp_list _ _ S2). destruct (decide (ext x + occ x K = 0)); tauto.
  - intros x o Hx Ho. destruct (Q4 _ _ Ho) as (o0 & Ho0 & ->). eauto.
Qed.
End trial.

Lemma all_kids_same (h h' : gmap nat gobj) : okids <$> h = okids <$> h' -> all_kids h ≡ₚ all_kids h'.
Proof.
  intros E. assert (forall g : gmap nat gobj, all_kids g ≡ₚ map_to_list (okids <$> g) ≫= snd) as H; [|by rewrite !H, E].
  intros g. unfold all_kids. rewrite map_to_list_fmap, list_fmap_bind. done.
Qed.

(** Trial deletion leaves the accounting as it was. *)
Lemma acc_counted s s2 : acc [] s -> (forall x o, heap s !! x = Some o -> o_fin o = false) ->
  counted (heap s) (freed s) (fun y => ext y + occ y (all_kids (heap s))) s2 -> NoDup (alive s2) -> (forall x, x ∈ alive s2 <-> is_Some (heap s !! x)) -> acc [] s2.
Proof.
  intros A Hf (C1 & C2 & C3) N Hd.
  assert (all_kids (heap s2) ≡ₚ all_kids (heap s)) as Hk.
  { apply all_kids_same, map_eq. intros y. rewrite !lookup_fmap. destruct (heap s2 !! y) as [o|] eqn:Ho.
    - destruct (C1 _ _ Ho) as (o0 & Ho0 & _ & E1 & E2). rewrite Ho0. simpl. unfold okids. by rewrite E1, E2.
    - destruct (heap s !! y) as [o0|] eqn:Ho0; [|done]. destruct (proj2 (C2 y)) as [? ?]; [eauto|congruence]. }
  assert (forall y, refs [] s2 y = refs [] s y) as E by (intros y; unfold refs; by rewrite (occ_perm y _ _ Hk)).
  destruct A as [A1 A2 A3 A4 A5 A6 A7 A8 A9 A10 A11]. split; try done.
  - intros y. by rewrite Hd, C2.
  - intros y o Ho. destruct (C1 _ _ Ho) as (o0 & Ho0 & E1 & E2 & _). rewrite E2, (Hf _ _ Ho0), E, E1. unfold refs. simpl. lia.
  - intros y. rewrite E, C2. apply A4.
  - intros y o c oc Ho Hi Hc Hoc. destruct (C1 _ _ Ho) as (o0 & Ho0 & _ & E1 & E2), (C1 _ _ Hoc) as (oc0 & Hoc0 & _ & _ & E3).
    unfold okids in Hc. rewrite E2, E3, E1 in *. by eapply A5.
  - intros y o Ho Hi. destruct (C1 _ _ Ho) as (o0 & Ho0 & E1 & E2 & E3). rewrite E3 in Hi. specialize (A6 _ _ Ho0 Hi). specialize (A3 _ _ Ho0).
    rewrite E2. rewrite (Hf _ _ Ho0) in *. unfold refs in A3. simpl in A3. lia.
  - intros y o Ho Hr. destruct (C1 _ _ Ho) as (o0 & Ho0 & _ & _ & E3). rewrite E3 in Hr. eauto.
  - rewrite C3. intros y Hy. apply eq_None_not_Some. rewrite C2, (A8 _ Hy). by intros [].
  - by rewrite C3.
  - intros y Hy. by apply C2, A11.
Qed.

(** The state between calls: every object is on the main list, unmarked, has its fields and a
    reference. *)
Record wf (s : rt) : Prop := {
  wf_acc : acc [] s; wf_tmp : tmp_obj_list s = []; wf_zero : gc_zero_ref_count_list s = [];
  wf_obj x o : heap s !! x = Some o -> 0 < o_rc o /\ o_mark o = false /\ o_fin o = false }.

Lemma wf_count s x o : wf s -> heap s !! x = Some o -> o_rc o = ext x + occ x (all_kids (heap s)).
Proof.
  intros [A _ _ Ho] Hx. pose proof (a_rc _ _ A _ _ Hx) as Hrc. rewrite (proj2 (proj2 (Ho _ _ Hx))) in Hrc. unfold refs in Hrc. simpl in Hrc. lia.
Qed.

Lemma wf_room s x : wf s -> fits s -> ext x + occ x (all_kids (heap s)) <= INT_MAX.
Proof.
  intros W F. destruct (heap s !! x) as [o|] eqn:Hx; [rewrite <- (wf_count _ _ _ W Hx); by apply (F x)|].
  pose proof (a_root _ _ (wf_acc _ W) x) as H1. pose proof (a_kids _ _ (wf_acc _ W) x) as H2. unfold refs in H2. simpl in H2. rewrite Hx in H1, H2.
  destruct (decide (0 < ext x)) as [H|]; [by destruct (H1 H)|].
  destruct (decide (0 < occ x (all_kids (heap s)))) as [H|]; [destruct H2; [lia|done]|]. unfold INT_MAX. lia.
Qed.

Lemma run_gc_ok s : wf s -> fits s -> exists s', JS_RunGC s = Ret s' /\ wf s' /\ keeps s s' /\ (forall x, is_Some (heap s' !! x) <-> reach ext (heap s) x) /\
  (forall x, x ∈ freed s' <-> x ∈ freed s \/ is_Some (heap s !! x) /\ ~ reach ext (heap s) x).
Proof.
  intros W Fi. pose proof W as [A Ht Hz Ho]. assert (mkRt (heap s) (gc_obj_list s) [] (gc_zero_ref_count_list s) (freed s) = s) as Es by (destruct s; simpl in *; by subst).
  assert (forall x, x ∈ gc_obj_list s <-> is_Some (heap s !! x)) as Hd.
  { intros x. rewrite <- (a_dom _ _ A). unfold alive. by rewrite Ht, Hz, !app_nil_r. }
  destruct (trial_deletion (heap s) (freed s) (a_ext _ _ A)) with (s := s) as (s1 & s2 & E1 & E2 & (C1 & C2 & C3) & Z2 & N2 & L2 & T2 & M2); try done.
  { intros x c. unfold kid. destruct (heap s !! x) as [o|] eqn:Hx; [|set_solver]. intros Hc. apply (a_kids _ _ A). unfold refs. simpl.
    assert (0 < occ c (all_kids (heap s))); [|lia]. apply occ_pos, elem_of_all_kids. exists x, o. unfold okids. by rewrite (proj2 (proj2 (Ho _ _ Hx))). }
  { intros x o Hx. apply (Ho _ _ Hx). } { intros x. by apply wf_room. }
  { pose proof (a_nodup _ _ A) as N. unfold alive in N. by rewrite Ht, Hz, !app_nil_r in N. }
  { intros x o Hx. split; [apply (Ho _ _ Hx)|]. pose proof (a_rc _ _ A _ _ Hx) as Hrc. rewrite (proj2 (proj2 (Ho _ _ Hx))) in Hrc. unfold refs in Hrc. simpl in Hrc. lia. }
  assert (acc [] s2) as A2.
  { eapply acc_counted; [done|intros x o Hx; apply (Ho _ _ Hx)|by split| |]; unfold alive; rewrite Z2, app_nil_r; [done|]. intros x. rewrite elem_of_app, L2, T2.
    split; [|intros Hx; rewrite <- L2; destruct (decide (x ∈ gc_obj_list s2)) as [|Hn]; [auto|tauto]].
    intros [Hr|[? _]]; [|done]. destruct (reach_rc _ _ _ A Hr) as (o & ? & _). eauto. }
  assert (keeps s s2) as K2.
  { intros x o Hr Hx. destruct (proj2 (C2 x)) as [o2 Ho2]; [eauto|]. destruct (C1 _ _ Ho2) as (o0 & ? & _ & ? & ?). simplify_eq. exists o2.
    repeat split; [done..|]. intros _. by apply L2. }
  assert (forall x, reach ext (heap s) x <-> reach ext (heap s2) x) as HR by (intros x; split; [by eapply keeps_reach|by eapply keeps_reach_back]).
  destruct (gc_free_cycles_ok s2 A2 Z2) as (s3 & E3 & A3 & K3 & T3 & Z3 & G3 & M3).
  { intros x o Hx. destruct (C1 _ _ Hx) as (o0 & Ho0 & _ & -> & _). apply (Ho _ _ Ho0). } { intros x. by rewrite L2, HR. } { done. }
  assert (keeps s s3) as K by (eapply keeps_trans; [exact A|exact K2|exact K3]).
  assert (forall x, is_Some (heap s3 !! x) <-> reach ext (heap s) x) as HD.
  { intros x. split; [intros [o Hx]; apply HR, (M3 _ _ Hx)|]. intros Hr. destruct (reach_rc _ _ _ A Hr) as (o & Hx & _). destruct (K _ _ Hr Hx) as (o' & ? & _). eauto. }
  exists s3. split; [unfold JS_RunGC; rewrite Es, E1; cbn [mbind outcome_bind]; by rewrite E2|]. split; [|split; [done|split; [done|]]].
  - split; [done..|]. intros x o Hx. destruct (M3 _ _ Hx) as [Hr ?]. apply HR in Hr. destruct (reach_rc _ _ _ A3 (keeps_reach _ _ _ _ A K Hr)) as (o' & ? & ?).
    destruct (reach_rc _ _ _ A Hr) as (o0 & Hx0 & _). destruct (K _ _ Hr Hx0) as (o2 & ? & _ & F & _). simplify_eq. rewrite F. by destruct (Ho _ _ Hx0) as (_ & _ & ->).
  - intros x. specialize (G3 x). specialize (HD x). rewrite C2, C3 in G3. assert (x ∈ freed s3 -> heap s3 !! x = None) as Hn by apply (a_freed _ _ A3).
    assert (is_Some (heap s3 !! x) -> x ∉ freed s3) by (intros [o E] Hx; rewrite Hn in E; done). 
    assert (x ∈ freed s -> ~ reach ext (heap s) x) by (intros Hx Hr; destruct (reach_rc _ _ _ A Hr) as (o & E & _); by rewrite (a_freed _ _ A _ Hx) in E).
    destruct (decide (is_Some (heap s3 !! x))); tauto.
Qed.

(** Without cycles, what has a reference is reached. *)
Lemma acyclic_reached s (m : nat -> nat) (M : nat) : wf s -> (forall x, m x <= M)%nat -> (forall x o c, heap s !! x = Some o -> c ∈ okids o -> m c < m x)%nat ->
  forall n x, (M - m x < n)%nat -> is_Some (heap s !! x) -> reach ext (heap s) x.
Proof.
  intros W HM Hm. induction n as [|n IH]; intros x Hn [o Ho]; [lia|]. destruct (wf_obj _ W _ _ Ho) as (Hp & _ & Hf).
  pose proof (a_rc _ _ (wf_acc _ W) _ _ Ho) as Hrc. rewrite Hf in Hrc. unfold refs in Hrc. simpl in Hrc. destruct (decide (0 < ext x)); [by eapply reach_root|].
  assert (x ∈ all_kids (heap s)) as Hk by (apply occ_pos; lia). apply elem_of_all_kids in Hk as (y & oy & Hy & Hc). eapply reach_kid; [|exact Hy|exact Hc].
  apply IH; [|eauto]. specialize (Hm _ _ _ Hy Hc). pose proof (HM y). lia.
Qed.

Lemma calm_idle s : tmp_obj_list s = [] -> gc_zero_ref_count_list s = [] -> (forall x o, heap s !! x = Some o -> 0 < o_rc o /\ o_mark o = false /\ o_fin o = false) -> idle s.
Proof.
  intros Ht Hz Ho. split; [|done]. split; [done| |rewrite Hz; set_solver| |]; intros y o.
  - intros Hy Hf. by rewrite (proj2 (proj2 (Ho _ _ Hy))) in Hf.
  - intros _ Hy. right. apply (Ho _ _ Hy).
  - intros _ Hy. apply (Ho _ _ Hy).
Qed.

Lemma idle_wf s s' : (forall x o, heap s !! x = Some o -> o_fin o = false) -> step_ok [] [] s s' -> idle s' -> wf s'.
Proof.
  intros Hf K [F Z]. pose proof (so_acc _ _ _ _ K) as A. split; [done|apply F|done|]. intros x o Ho.
  assert (x ∈ gc_obj_list s') as Hx.
  { assert (x ∈ alive s') as Hl by (apply (a_dom _ _ A); eauto). unfold alive in Hl. by rewrite Z, (f_tmp _ _ F), !app_nil_r in Hl. }
  assert (o_fin o = false) as Hff.
  { destruct (o_fin o) eqn:E; [|done]. destruct (k_old _ _ _ (so_shrinks _ _ _ _ K) _ _ Ho) as (o0 & Ho0 & _ & H). destruct (H E) as [H'|H']; [|set_solver].
    by rewrite (Hf _ _ Ho0) in H'. }
  split; [|split; [by apply (f_mark _ _ F x)|done]]. destruct (f_list _ _ F _ _ Hx Ho); [congruence|done].
Qed.

Lemma free_refs_ok xs s : acc xs s -> idle s -> (forall x o, heap s !! x = Some o -> o_fin o = false) ->
  exists s', each JS_FreeRef xs s = Ret s' /\ wf s' /\ step_ok [] [] s s'.
Proof.
  intros A I Hf. destruct (each_ok idle JS_FreeRef free_fuel JS_FreeRef_ok xs [] s) as (s' & E & K & I'); [by rewrite app_nil_r|done| |].
  { intros x o _ _. destruct (o_obj o); unfold free_fuel; simpl; lia. }
  exists s'. split; [done|]. split; [by eapply idle_wf|done].
Qed.
End refcount.

(** References change hands between the outside and the list of those to free. *)
Lemma acc_trade ext ext' todo todo' s : acc ext todo s -> (forall x o, heap s !! x = Some o -> o_fin o = false) -> (forall y, 0 <= ext' y) ->
  (forall y, ext' y + occ y todo' = ext y + occ y todo) -> (forall x o, heap s !! x = Some o -> running (o_obj o) = true -> 0 < ext' x) -> acc ext' todo' s.
Proof.
  intros A Hf H0 He Hr. assert (forall y, ext' y + refs todo' s y = ext y + refs todo s y) as E by (intros y; unfold refs; specialize (He y); lia).
  assert (forall y, 0 < ext y + refs todo s y -> is_Some (heap s !! y)) as Hd.
  { intros y Hy. destruct (decide (0 < ext y)); [by apply (a_root _ _ _ A)|]. apply (a_kids _ _ _ A). pose proof (a_ext _ _ _ A y). lia. }
  destruct A as [A1 A2 A3 A4 A5 A6 A7 A8 A9 A10 A11]. split; try done.
  - intros y o Ho. specialize (A3 _ _ Ho). rewrite (Hf _ _ Ho) in *. specialize (E y). lia.
  - intros y Hy. apply Hd. specialize (E y). specialize (H0 y). lia.
  - intros y Hy. apply Hd. specialize (E y). pose proof (refs_nonneg todo' s y). lia.
Qed.

(** A reference more. *)
Lemma dup_ok ext todo s x o : acc ext todo s -> heap s !! x = Some o -> o_fin o = false ->
  acc (fun y => ext y + (if decide (y = x) then 1 else 0)) todo (set_obj x (set_rc (o_rc o + 1) o) s).
Proof.
  intros A Ho Hf. set (s' := set_obj _ _ _).
  assert (forall y, refs todo s' y = refs todo s y) as E by (intros y; unfold refs; simpl; rewrite (occ_insert _ _ _ _ _ Ho); unfold okids; simpl; lia).
  assert (forall y oy, heap s' !! y = Some oy -> exists o0, heap s !! y = Some o0 /\ o_fin oy = o_fin o0 /\ o_obj oy = o_obj o0 /\ o_rc oy = o_rc o0 + (if decide (y = x) then 1 else 0)) as Hb.
  { intros y oy Hy. simpl in Hy. at_key x y Hy; [rewrite decide_True by done; eauto|rewrite decide_False by done; exists oy; repeat split; [done..|lia]]. }
  assert (forall y, is_Some (heap s' !! y) <-> is_Some (heap s !! y)) as Hd.
  { intros y. simpl. rewrite lookup_insert_is_Some. destruct (decide (x = y)) as [<-|]; naive_solver. }
  destruct A as [A1 A2 A3 A4 A5 A6 A7 A8 A9 A10 A11]. split; try done.
  - intros y. by rewrite Hd.
  - intros y oy Hy. destruct (Hb _ _ Hy) as (o0 & Ho0 & -> & _ & ->). rewrite E. specialize (A3 _ _ Ho0).
    destruct (decide (y = x)) as [->|]; [simplify_eq; rewrite Hf in *; lia|destruct (o_fin o0); lia].
  - intros y. rewrite E, Hd. apply A4.
  - intros y oy c oc Hy Hi Hc Hoc. destruct (Hb _ _ Hy) as (o0 & Ho0 & E1 & E2 & _), (Hb _ _ Hoc) as (oc0 & Hoc0 & _ & E3 & _).
    unfold okids in Hc. rewrite E1, E2, E3 in *. by eapply A5.
  - intros y oy Hy Hi. destruct (Hb _ _ Hy) as (o0 & Ho0 & -> & E2 & ->). rewrite E2 in Hi. specialize (A6 _ _ Ho0 Hi).
    destruct (decide (y = x)) as [->|]; [simplify_eq; rewrite Hf in *; lia|destruct (o_fin o0); lia].
  - intros y oy Hy Hr. destruct (Hb _ _ Hy) as (o0 & Ho0 & _ & E2 & _). rewrite E2 in Hr. specialize (A7 _ _ Ho0 Hr). case_decide; lia.
  - intros y Hy. apply eq_None_not_Some. rewrite Hd, (A8 _ Hy). by intros [].
  - intros y. specialize (A10 y). case_decide; lia.
  - intros y Hy. apply Hd. case_decide; [subst; eauto|]. apply A11. lia.
Qed.

(** Freeing raises no count. *)
Definition lower (s s' : rt) : Prop := forall x o', heap s' !! x = Some o' -> exists o, heap s !! x = Some o /\ o_rc o' <= o_rc o.

Lemma lower_heap s s' : heap s' = heap s -> lower s s'.
Proof. intros E x o Ho. rewrite E in Ho. eauto with lia. Qed.

Lemma lower_trans s1 s2 s3 : lower s1 s2 -> lower s2 s3 -> lower s1 s3.
Proof. intros L1 L2 x o Ho. destruct (L2 _ _ Ho) as (o2 & Ho2 & ?), (L1 _ _ Ho2) as (o1 & ? & ?). exists o1. split; [done|lia]. Qed.

Lemma lower_set s x o o' : heap s !! x = Some o -> o_rc o' <= o_rc o -> lower s (set_obj x o' s).
Proof. intros Ho H y oy Hy. simpl in Hy. at_key x y Hy; [eauto|]. exists oy. split; [done|lia]. Qed.

Lemma lower_free s x : lower s (js_free_rt x s).
Proof. intros y oy Hy. simpl in Hy. apply lookup_delete_Some in Hy as [_ Hy]. exists oy. split; [done|lia]. Qed.

Lemma lower_unlink s x o : lower s (unlink_module x o s).
Proof.
  unfold unlink_module. destruct o; try by apply lower_heap. intros y oy Hy. simpl in Hy. rewrite lookup_fmap in Hy.
  destruct (heap s !! y) as [o|] eqn:Ho; [|done]. injection Hy as <-. exists o. split; [done|simpl; lia].
Qed.

Lemma lower_fits s s' : lower s s' -> fits s -> fits s'.
Proof. intros L F x o Ho. destruct (L _ _ Ho) as (o0 & Ho0 & ?). specialize (F _ _ Ho0). lia. Qed.

Lemma get_inv x s o : get x s = Ret o -> heap s !! x = Some o.
Proof. unfold get. destruct (heap s !! x); by intros [= ->]. Qed.

Lemma each_lower f : (forall x s s', f x s = Ret s' -> lower s s') -> forall l s s', each f l s = Ret s' -> lower s s'.
Proof.
  intros Hf. induction l as [|x l IH]; intros s s' H; cbn [each] in H; [injection H as <-; by apply lower_heap|].
  destruct (f x s) as [s1| |] eqn:E1; try done. eapply lower_trans; [by eapply Hf|by apply IH].
Qed.

Lemma free_ref_lower zero : (forall x s s', zero x s = Ret s' -> lower s s') -> forall fuel x s s', free_ref zero fuel x s = Ret s' -> lower s s'.
Proof.
  intros Hz. induction fuel as [|fuel IH]; intros x s s' H; cbn [free_ref] in H; [done|].
  destruct (get x s) as [o| |] eqn:Eg; try done. apply get_inv in Eg. cbn [mbind outcome_bind] in H.
  assert (lower s (set_obj x (set_rc (o_rc o - 1) o) s)) as L1 by (eapply lower_set; [done|simpl; lia]).
  destruct (immediate (o_obj o)).
  - destruct (o_rc o <=? 0); [done|]. destruct (o_rc o - 1 =? 0); [|by injection H as <-].
    destruct (free_children (o_obj o)) as [kids| |]; try done. cbn [mbind outcome_bind] in H.
    destruct (each _ kids _) as [s1| |] eqn:Ee; try done. cbn [mbind outcome_bind] in H. injection H as <-.
    eapply lower_trans; [eapply (lower_set _ x); [exact Eg|]|]. 2: { eapply lower_trans; [exact (each_lower _ IH _ _ _ Ee)|]. apply (lower_free (list_del x s1)). }
    simpl. lia.
  - destruct (o_rc o - 1 <=? 0); [|by injection H as <-]. eapply lower_trans; [exact L1|by eapply Hz].
Qed.

Lemma zero_decref_lower x s s' : zero_decref x s = Ret s' -> lower s s'.
Proof.
  unfold zero_decref. destruct (get x s) as [o| |] eqn:Eg; try done. apply get_inv in Eg. cbn [mbind outcome_bind]. intros [= <-].
  eapply (lower_set (list_del x s) x o); [done|]. destruct (o_obj o); simpl; lia.
Qed.

Lemma free_gc_object_lower zero r x s s' : (forall x s s', zero x s = Ret s' -> lower s s') -> free_gc_object zero r x s = Ret s' -> lower s s'.
Proof.
  intros Hz H. unfold free_gc_object in H. destruct (get x s) as [o| |] eqn:Eg; try done. apply get_inv in Eg. cbn [mbind outcome_bind] in H.
  destruct (immediate (o_obj o)); [done|]. destruct (free_children (o_obj o)) as [kids| |]; try done. cbn [mbind outcome_bind] in H.
  destruct (each _ kids _) as [s1| |] eqn:Ee; try done. cbn [mbind outcome_bind] in H.
  destruct (get x (list_del x (unlink_module x (o_obj o) s1))) as [o1| |]; try done. cbn [mbind outcome_bind] in H.
  assert (lower s (unlink_module x (o_obj o) s1)) as L.
  { eapply lower_trans; [eapply (lower_set _ x _ (set_fin o) Eg); simpl; lia|]. eapply lower_trans; [exact (each_lower _ (free_ref_lower _ Hz _) _ _ _ Ee)|apply lower_unlink]. }
  destruct (r && _); injection H as <-; [exact L|]. eapply lower_trans; [exact L|apply (lower_free (list_del x _))].
Qed.

Lemma zero_loop_lower fuel s s' : zero_loop fuel s = Ret s' -> lower s s'.
Proof.
  revert s. induction fuel as [|fuel IH]; intros s H; cbn [zero_loop] in H; destruct (gc_zero_ref_count_list s) as [|x l]; try done.
  1,2: injection H as <-; by apply lower_heap.
  destruct (get x s) as [o| |]; try done. cbn [mbind outcome_bind] in H. destruct (negb _); [done|].
  destruct (free_gc_object _ _ _ _) as [s1| |] eqn:Ef; try done. cbn [mbind outcome_bind] in H.
  eapply lower_trans; [exact (free_gc_object_lower _ _ _ _ _ zero_decref_lower Ef)|by apply IH].
Qed.

Lemma JS_FreeRef_lower x s s' : JS_FreeRef x s = Ret s' -> lower s s'.
Proof.
  apply free_ref_lower. clear. intros x s s'. unfold zero_none, free_zero_refcount. destruct (zero_decref x s) as [s1| |] eqn:E; try done.
  intros H. eapply lower_trans; [by eapply zero_decref_lower|by eapply zero_loop_lower].
Qed.

(** Fewer objects with the same fields hold fewer references. *)
Lemma all_kids_sub c (h' h : gmap nat gobj) : (forall x o', h' !! x = Some o' -> exists o, h !! x = Some o /\ okids o' = okids o) ->
  occ c (all_kids h') <= occ c (all_kids h).
Proof.
  revert h. induction h' as [|x o' h' Hx IH] using map_ind; intros h H; [apply occ_nonneg|].
  destruct (H x o') as (o & Ho & E); [apply lookup_insert_eq|]. rewrite (occ_insert_new _ _ _ _ Hx), E.
  enough (occ c (all_kids h') <= occ c (all_kids (delete x h))) as L by (rewrite (occ_delete _ _ _ _ Ho) in L; lia).
  apply IH. intros y oy Hy. assert (y <> x) as Hn by congruence. destruct (H y oy) as (o2 & ? & ?); [by rewrite lookup_insert_ne|].
  exists o2. split; [by rewrite lookup_delete_ne|done].
Qed.

(** Only counts go up. *)
Definition bumped (s s' : rt) : Prop :=
  gc_obj_list s' = gc_obj_list s /\ tmp_obj_list s' = tmp_obj_list s /\ gc_zero_ref_count_list s' = gc_zero_ref_count_list s /\ freed s' = freed s /\
  (forall y, is_Some (heap s' !! y) <-> is_Some (heap s !! y)) /\
  (forall y o', heap s' !! y = Some o' -> exists o, heap s !! y = Some o /\ o_obj o' = o_obj o /\ o_fin o' = o_fin o /\ o_mark o' = o_mark o /\ o_rc o <= o_rc o').

Lemma bumped_refl s : bumped s s.
Proof. repeat split; try done. intros y o Ho. exists o. repeat split; [done..|lia]. Qed.

Lemma bumped_trans s1 s2 s3 : bumped s1 s2 -> bumped s2 s3 -> bumped s1 s3.
Proof.
  intros (A1 & A2 & A3 & A4 & A5 & A6) (B1 & B2 & B3 & B4 & B5 & B6). repeat split; try congruence; try (intros y; rewrite B5; apply A5).
  - intros Hy. by apply A5, B5.
  - intros Hy. by apply B5, A5.
  - intros y o Ho. destruct (B6 _ _ Ho) as (o2 & Ho2 & ? & ? & ? & ?), (A6 _ _ Ho2) as (o1 & ? & ? & ? & ? & ?). exists o1. repeat split; try congruence; lia.
Qed.

Lemma wf_bumped ext ext' s s' : wf ext s -> bumped s s' -> acc ext' [] s' -> wf ext' s'.
Proof.
  intros [_ W1 W2 W3] (_ & B2 & B3 & _ & _ & B6) A. split; [done|congruence..|]. intros x o Ho. destruct (B6 _ _ Ho) as (o0 & Ho0 & _ & -> & -> & ?).
  destruct (W3 _ _ Ho0) as (? & ? & ?). repeat split; [lia|done..].
Qed.

Definition room (s : rt) (ks : list nat) : bool :=
  forallb (fun c => match heap s !! c with Some o => o_rc o + occ c ks <=? INT_MAX | None => false end) ks.

Lemma room_spec s ks c : room s ks = true -> c ∈ ks -> exists o, heap s !! c = Some o /\ o_rc o + occ c ks <= INT_MAX.
Proof.
  unfold room. rewrite forallb_forall. intros H Hc. apply list_elem_of_In in Hc. specialize (H _ Hc). destruct (heap s !! c) as [o|]; [|done].
  exists o. split; [done|]. by apply Z.leb_le.
Qed.

Lemma room_next s c o ks : room s (c :: ks) = true -> heap s !! c = Some o -> o_rc o < INT_MAX /\ room (set_obj c (set_rc (o_rc o + 1) o) s) ks = true.
Proof.
  intros H Ho. split.
  - destruct (room_spec _ _ c H) as (o' & Ho' & Hr); [set_solver|]. simplify_eq. simpl in Hr. rewrite decide_True in Hr by done. pose proof (occ_nonneg c ks). lia.
  - unfold room. apply forallb_forall. intros d Hd. apply list_elem_of_In in Hd. destruct (room_spec _ _ d H) as (o' & Ho' & Hr); [set_solver|]. simpl in Hr |- *.
    destruct (decide (c = d)) as [<-|Hn].
    + rewrite lookup_insert_eq. simplify_eq. rewrite decide_True in Hr by done. apply Z.leb_le. simpl. lia.
    + rewrite lookup_insert_ne, Ho' by done. rewrite decide_False in Hr by done. apply Z.leb_le. lia.
Qed.

Lemma fits_set s x o : fits s -> o_rc o <= INT_MAX -> fits (set_obj x o s).
Proof. intros F H y oy Hy. simpl in Hy. at_key x y Hy; [done|by apply (F y)]. Qed.

Lemma dups_ok ks ext s : wf ext s -> fits s -> room s ks = true ->
  exists s', each JS_DupRef ks s = Ret s' /\ wf (fun y => ext y + occ y ks) s' /\ bumped s s' /\ fits s'.
Proof.
  revert ext s. induction ks as [|c ks IH]; intros ext s W F Hk; cbn [each].
  { exists s. split; [done|]. split; [|split; [apply bumped_refl|done]]. eapply wf_bumped; [exact W|apply bumped_refl|]. eapply acc_trade; [apply W|..]; simpl.
    - intros x o Ho. apply (wf_obj _ _ W _ _ Ho).
    - intros y. pose proof (a_ext _ _ _ (wf_acc _ _ W) y). lia.
    - lia.
    - intros x o Ho Hr. pose proof (a_run _ _ _ (wf_acc _ _ W) _ _ Ho Hr). lia. }
  destruct (room_spec _ _ c Hk ltac:(set_solver)) as (o & Ho & _). destruct (room_next _ _ _ _ Hk Ho) as [Hm Hk1].
  unfold JS_DupRef at 2. rewrite (get_some _ _ _ Ho). cbn [mbind outcome_bind]. rewrite (incref_ok o Hm). cbn [mbind outcome_bind].
  set (s1 := set_obj c (set_rc (o_rc o + 1) o) s). assert (bumped s s1) as B1.
  { repeat split; simpl; try (rewrite lookup_insert_is_Some; destruct (decide (c = y)) as [<-|]; naive_solver).
    intros y oy Hy. at_key c y Hy; [exists o; simpl; repeat split; [done..|lia]|]. exists oy. repeat split; [done..|lia]. }
  assert (wf (fun y => ext y + (if decide (y = c) then 1 else 0)) s1) as W1.
  { eapply wf_bumped; [exact W|exact B1|]. apply dup_ok; [apply W|done|]. apply (wf_obj _ _ W _ _ Ho). }
  destruct (IH _ _ W1) as (s' & E & W' & B' & F'); [apply fits_set; [done|simpl; lia]|done|].
  exists s'. split; [done|]. split; [|split; [by eapply bumped_trans|done]]. eapply wf_bumped; [exact W'|apply bumped_refl|]. eapply acc_trade; [apply W'|..]; simpl.
  - intros x ox Hx. apply (wf_obj _ _ W' _ _ Hx).
  - intros y. pose proof (a_ext _ _ _ (wf_acc _ _ W) y). pose proof (occ_nonneg y ks). case_decide; lia.
  - intros y. lia.
  - intros x ox Hx Hr. pose proof (a_run _ _ _ (wf_acc _ _ W') _ _ Hx Hr) as H. simpl in H. lia.
Qed.

(** The fields of an object may refer to objects that exist; those of a [SHAPE], a [VAR_REF] or a
    [JS_CONTEXT] only to the kinds below. *)
Definition kids_fit (s : rt) (o : gc_obj) : bool :=
  forallb (fun c => match heap s !! c with Some oc => negb (immediate o) || (rank (o_obj oc) <? rank o)%nat | None => false end) (mark_children o).

Lemma kids_fit_spec s o c : kids_fit s o = true -> c ∈ mark_children o -> exists oc, heap s !! c = Some oc /\ (immediate o = true -> rank (o_obj oc) < rank o)%nat.
Proof.
  unfold kids_fit. rewrite forallb_forall. intros H Hc. apply list_elem_of_In in Hc. specialize (H _ Hc). destruct (heap s !! c) as [oc|]; [|done].
  exists oc. split; [done|]. intros Hi. rewrite Hi in H. simpl in H. by apply Nat.ltb_lt.
Qed.

Lemma new_ok ext s x o : wf ext s -> fits s -> heap s !! x = None -> x ∉ freed s -> kids_fit s o = true -> room s (mark_children o) = true -> running o = false ->
  exists s', new_object x o s = Ret s' /\ wf (fun y => ext y + (if decide (y = x) then 1 else 0)) s' /\ fits s'.
Proof.
  intros W F Hx Hfr Hk Hm Hr. destruct (dups_ok (mark_children o) ext s W F Hm) as (s1 & E1 & W1 & B1 & F1).
  unfold new_object. rewrite E1. cbn [mbind outcome_bind]. eexists. split; [reflexivity|]. split; [|exact (fits_set s1 x (mkObj 1 false false o) F1 ltac:(done))].
  set (s2 := add_gc x _).
  destruct B1 as (B1 & B2 & B3 & B4 & B5 & B6). assert (heap s1 !! x = None) as Hx1 by (apply eq_None_not_Some; rewrite B5, Hx; by intros []).
  pose proof (wf_acc _ _ W1) as A1. assert (forall y, refs [] s2 y = refs [] s1 y + occ y (mark_children o)) as E.
  { intros y. unfold refs. simpl. rewrite (occ_insert_new _ _ _ _ Hx1). unfold okids. simpl. lia. }
  assert (x ∉ mark_children o) as Hxk by (intros Hc; destruct (kids_fit_spec _ _ _ Hk Hc) as (oc & ? & _); congruence).
  assert (ext x = 0 /\ refs [] s1 x = 0) as [Hx0 Hr0].
  { pose proof (a_ext _ _ _ (wf_acc _ _ W) x). pose proof (refs_nonneg [] s1 x). split; [destruct (decide (0 < ext x)) as [H'|]; [apply (a_root _ _ _ (wf_acc _ _ W)) in H'|lia]|destruct (decide (0 < refs [] s1 x)) as [H'|]; [apply (a_kids _ _ _ A1) in H'|lia]];
      destruct H'; congruence. }
  assert (forall y oy, heap s2 !! y = Some oy -> oy = mkObj 1 false false o /\ y = x \/ y <> x /\ heap s1 !! y = Some oy) as Hb.
  { intros y oy Hy. simpl in Hy. at_key x y Hy; auto. }
  destruct W1 as [_ Ht Hz Ho]. split; [|done..|].
  2: { intros y oy Hy. destruct (Hb _ _ Hy) as [[-> _]|[_ ?]]; [done|eauto]. }
  destruct A1 as [A1 A2 A3 A4 A5 A6 A7 A8 A9 A10 A11]. split; try done.
  - unfold alive in *. simpl. rewrite Ht, Hz in *. rewrite !app_nil_r in *. apply list.NoDup_app. repeat split; [done| |apply NoDup_singleton].
    intros y Hy Hy'. apply list_elem_of_singleton in Hy'. subst. apply A2 in Hy. destruct Hy. congruence.
  - intros y. unfold alive in *. simpl. rewrite Ht, Hz in *. rewrite lookup_insert_is_Some, <- A2, !app_nil_r, elem_of_app, list_elem_of_singleton. destruct (decide (x = y)); naive_solver.
  - intros y oy Hy. rewrite E. destruct (Hb _ _ Hy) as [[-> ->]|[Hn Hy1]].
    + simpl. rewrite decide_True by done. rewrite occ_zero by done. lia.
    + specialize (A3 _ _ Hy1). rewrite (proj2 (proj2 (Ho _ _ Hy1))) in *. rewrite decide_False by done. simpl in A3. lia.
  - intros y. rewrite E. simpl. rewrite lookup_insert_is_Some. intros Hy. destruct (decide (x = y)); [auto|]. right. split; [done|].
    destruct (decide (y ∈ mark_children o)) as [Hc|Hc]; [|apply A4; rewrite (occ_zero _ _ Hc) in Hy; lia].
    destruct (kids_fit_spec _ _ _ Hk Hc) as (oc & ? & _). apply B5. eauto.
  - intros y oy c oc Hy Hi Hc Hoc. destruct (Hb _ _ Hoc) as [[-> ->]|[Hnc Hoc1]].
    + exfalso. destruct (Hb _ _ Hy) as [[-> _]|[_ Hy1]]; [done|]. assert (0 < refs [] s1 x); [|lia]. unfold refs. simpl.
      assert (0 < occ x (all_kids (heap s1))); [|lia]. apply occ_pos, elem_of_all_kids. eauto.
    + destruct (Hb _ _ Hy) as [[-> _]|[_ Hy1]]; [|eauto]. destruct (kids_fit_spec _ _ _ Hk Hc) as (oc0 & Hoc0 & H). destruct (B6 _ _ Hoc1) as (oc' & ? & -> & _). simplify_eq. auto.
  - intros y oy Hy Hi. destruct (Hb _ _ Hy) as [[-> _]|[_ Hy1]]; [done|]. by apply (A6 y).
  - intros y oy Hy Hry. destruct (Hb _ _ Hy) as [[-> _]|[Hn Hy1]]; [simpl in Hry; congruence|]. rewrite decide_False by done.
    destruct (B6 _ _ Hy1) as (o0 & Ho0 & E0 & _). rewrite E0 in Hry. pose proof (a_run _ _ _ (wf_acc _ _ W) _ _ Ho0 Hry). lia.
  - intros y Hy. simpl in *. assert (y <> x) by (intros ->; congruence). rewrite lookup_insert_ne by done. auto.
  - intros y. pose proof (a_ext _ _ _ (wf_acc _ _ W) y). case_decide; lia.
  - intros y Hy. simpl. rewrite lookup_insert_is_Some. destruct (decide (x = y)); [auto|]. right. split; [done|]. rewrite decide_False in Hy by done.
    apply B5, (a_root _ _ _ (wf_acc _ _ W)). lia.
Qed.

Lemma store_ok ext s x o o' : wf ext s -> fits s -> heap s !! x = Some o -> 0 < ext x -> kids_fit s o' = true -> room s (mark_children o') = true -> rank o' = rank (o_obj o) ->
  exists s', store_fields x o' s = Ret s' /\ wf ext s' /\ fits s'.
Proof.
  intros W F Ho Hx Hk Hm Hrk. destruct (dups_ok (mark_children o') ext s W F Hm) as (s1 & E1 & W1 & B1 & F1).
  destruct B1 as (B1 & B2 & B3 & B4 & B5 & B6). destruct (proj2 (B5 x)) as [o1 Ho1]; [eauto|]. destruct (B6 _ _ Ho1) as (o0 & ? & Eo & Ef & Em & Er). simplify_eq.
  destruct (wf_obj _ _ W _ _ Ho) as (Hp & _ & Hf).
  unfold store_fields. rewrite (get_some _ _ _ Ho). cbn [mbind outcome_bind]. rewrite E1. cbn [mbind outcome_bind]. rewrite (get_some _ _ _ Ho1). cbn [mbind outcome_bind].
  set (on := mkObj (o_rc o1) (o_mark o1) (o_fin o1) o'). set (s2 := set_obj x on s1). pose proof (wf_acc _ _ W1) as A1. destruct W1 as [_ Ht Hz Hob].
  assert (forall y, refs (mark_children (o_obj o)) s2 y = refs [] s1 y + occ y (mark_children o')) as E.
  { intros y. unfold refs. simpl. rewrite (occ_insert _ _ _ _ _ Ho1). unfold okids. simpl. rewrite Ef, Hf, Eo. lia. }
  assert (forall y oy, heap s2 !! y = Some oy -> exists o1, heap s1 !! y = Some o1 /\ rank (o_obj oy) = rank (o_obj o1) /\ o_rc oy = o_rc o1 /\ o_mark oy = o_mark o1 /\ o_fin oy = o_fin o1 /\
    (y = x /\ o_obj oy = o' \/ oy = o1)) as Hb.
  { intros y oy Hy. simpl in Hy. at_key x y Hy; [|eauto 10]. exists o1. simpl. rewrite Eo. repeat split; auto. }
  assert (forall y, is_Some (heap s2 !! y) <-> is_Some (heap s1 !! y)) as Hd.
  { intros y. simpl. rewrite lookup_insert_is_Some. destruct (decide (x = y)) as [<-|]; naive_solver. }
  assert (acc ext (mark_children (o_obj o)) s2) as A2.
  { destruct A1 as [A1 A2 A3 A4 A5 A6 A7 A8 A9 A10 A11]. split; try done.
    - intros y. by rewrite Hd.
    - intros y oy Hy. rewrite E. destruct (Hb _ _ Hy) as (oy1 & Hy1 & _ & -> & _ & -> & _). specialize (A3 _ _ Hy1). rewrite (proj2 (proj2 (Hob _ _ Hy1))) in *. simpl in A3. lia.
    - intros y. rewrite E, Hd. intros Hy. destruct (decide (y ∈ mark_children o')) as [Hc|Hc]; [|apply A4; rewrite (occ_zero _ _ Hc) in Hy; lia].
      destruct (kids_fit_spec _ _ _ Hk Hc) as (oc & ? & _). apply B5. eauto.
    - intros y oy c oc Hy Hi Hc Hoc. destruct (Hb _ _ Hy) as (oy1 & Hy1 & Ry & _ & _ & Fy & Hor), (Hb _ _ Hoc) as (oc1 & Hoc1 & -> & _).
      destruct Hor as [[-> Eoy]| ->]; [|by eapply A5]. rewrite Eoy in *. unfold okids in Hc. rewrite Fy, (proj2 (proj2 (Hob _ _ Hy1))), Eoy in Hc.
      destruct (kids_fit_spec _ _ _ Hk Hc) as (oc0 & Hoc0 & H). destruct (B6 _ _ Hoc1) as (oc' & ? & -> & _). simplify_eq. auto.
    - intros y oy Hy Hi. destruct (Hb _ _ Hy) as (oy1 & Hy1 & Ry & -> & _ & -> & _). apply (A6 y); [done|]. by rewrite rank_immediate, <- Ry, <- rank_immediate.
    - intros y oy Hy Hry. destruct (Hb _ _ Hy) as (oy1 & Hy1 & _ & _ & _ & _ & [[-> _]| ->]); [done|]. destruct (B6 _ _ Hy1) as (oy0 & Hy0 & E0 & _). rewrite E0 in Hry.
      apply (a_run _ _ _ (wf_acc _ _ W) _ _ Hy0 Hry).
    - intros y Hy. apply eq_None_not_Some. rewrite Hd, (A8 _ Hy). by intros [].
    - apply (a_ext _ _ _ (wf_acc _ _ W)).
    - intros y Hy. apply Hd, B5. by apply (a_root _ _ _ (wf_acc _ _ W)). }
  assert (forall y oy, heap s2 !! y = Some oy -> 0 < o_rc oy /\ o_mark oy = false /\ o_fin oy = false) as Hob2.
  { intros y oy Hy. destruct (Hb _ _ Hy) as (oy1 & Hy1 & _ & -> & -> & -> & _). eauto. }
  destruct (free_refs_ok ext (mark_children (o_obj o)) s2 A2) as (s' & E' & W' & _); [by apply calm_idle|intros y oy Hy; apply (Hob2 _ _ Hy)|].
  exists s'. split; [done|]. split; [done|]. exact (lower_fits _ _ (each_lower _ JS_FreeRef_lower _ _ _ E') (fits_set s1 x on F1 (F1 x o1 Ho1))).
Qed.

Lemma free_ok ext s x o : let ext' := fun y => ext y - (if decide (y = x) then 1 else 0) in
  wf ext s -> heap s !! x = Some o -> 0 < ext x -> (running (o_obj o) = true -> 1 < ext x) ->
  exists s', JS_FreeRef x s = Ret s' /\ wf ext' s' /\ step_ok ext' [] [] s s' /\ acc ext' [x] s.
Proof.
  intros ext' W Ho Hx Hr. assert (forall y oy, heap s !! y = Some oy -> o_fin oy = false) as Hf by (intros y oy Hy; apply (wf_obj _ _ W _ _ Hy)).
  assert (acc ext' [x] s) as A.
  { eapply acc_trade; [apply W|done|..]; unfold ext'.
    - intros y. pose proof (a_ext _ _ _ (wf_acc _ _ W) y). case_decide; subst; lia.
    - intros y. simpl. case_decide; lia.
    - intros y oy Hy Hry. pose proof (a_run _ _ _ (wf_acc _ _ W) _ _ Hy Hry). case_decide; [subst; simplify_eq; specialize (Hr Hry)|]; lia. }
  destruct (free_refs_ok ext' [x] s A) as (s' & E & W' & K); [apply calm_idle; apply W|done|]. exists s'. split; [|done].
  cbn [each] in E. destruct (JS_FreeRef x s); [exact E|done..].
Qed.

(** ** Part 5: the theorems *)

(** Code that uses the runtime holds references ([held]); it may take a reference to what it
    holds or to what that refers to, give one up (while it runs an async function, it keeps
    that), make an object or store to one, with references it holds, and collect. No object may
    get more than [INT_MAX] references. *)
Inductive action := ADup (x : nat) | AFree (x : nat) | ANew (x : nat) (o : gc_obj) | AStore (x : nat) (o : gc_obj) | AGc.

Definition holds (held : list nat) (x : nat) : bool := bool_decide (x ∈ held).
Definition is_running (s : rt) (x : nat) : bool := match heap s !! x with Some o => running (o_obj o) | None => false end.
Definition seen (s : rt) (held : list nat) (x : nat) : bool :=
  holds held x || existsb (fun y => match heap s !! y with Some o => bool_decide (x ∈ mark_children (o_obj o)) | None => false end) held.

Definition allowed (s : rt) (held : list nat) (a : action) : bool :=
  match a with
  | ADup x => seen s held x && room s [x]
  | AFree x => holds held x && (negb (is_running s x) || (1 <? occ x held))
  | ANew x o => match heap s !! x with
                | None => negb (bool_decide (x ∈ freed s)) && forallb (holds held) (mark_children o) && kids_fit s o && room s (mark_children o) && negb (running o)
                | Some _ => false end
  | AStore x o' => match heap s !! x with
                   | Some o => holds held x && forallb (holds held) (mark_children o') && kids_fit s o' && room s (mark_children o') && (rank o' =? rank (o_obj o))%nat
                   | None => false end
  | AGc => true
  end.

Fixpoint drop_one (x : nat) (l : list nat) : list nat :=
  match l with [] => [] | y :: l => if decide (x = y) then l else y :: drop_one x l end.

Definition act (a : action) (s : rt) : outcome rt :=
  match a with ADup x => JS_DupRef x s | AFree x => JS_FreeRef x s | ANew x o => new_object x o s | AStore x o => store_fields x o s | AGc => JS_RunGC s end.
Definition held_after (a : action) (held : list nat) : list nat :=
  match a with ADup x | ANew x _ => x :: held | AFree x => drop_one x held | AStore _ _ | AGc => held end.

(** A run, and what makes it one of code that handles its references as it should: each action
    is allowed in the state that those before it leave. *)
Fixpoint run (l : list action) (s : rt) (held : list nat) : outcome (rt * list nat) :=
  match l with [] => Ret (s, held) | a :: l => s ← act a s; run l s (held_after a held) end.
Fixpoint careful (l : list action) (s : rt) (held : list nat) : bool :=
  match l with
  | [] => true
  | a :: l => allowed s held a && match act a s with Ret s => careful l s (held_after a held) | _ => true end
  end.

Definition rt_init : rt := mkRt ∅ [] [] [] [].

Lemma occ_drop_one x y l : x ∈ l -> occ y (drop_one x l) = occ y l - (if decide (y = x) then 1 else 0).
Proof.
  induction l as [|z l IH]; [set_solver|]. intros Hx. simpl. destruct (decide (x = z)) as [->|Hn]; [lia|].
  simpl. rewrite IH by set_solver. lia.
Qed.

Lemma wf_ext ext ext' s : (forall y, ext' y = ext y) -> wf ext s -> wf ext' s.
Proof.
  intros E W. split; [|apply W..]. eapply acc_trade; [apply W|..].
  - intros x o Ho. apply (wf_obj _ _ W _ _ Ho).
  - intros y. rewrite E. apply (a_ext _ _ _ (wf_acc _ _ W)).
  - intros y. by rewrite E.
  - intros x o Ho Hr. rewrite E. by apply (a_run _ _ _ (wf_acc _ _ W) _ o).
Qed.

Lemma reach_ext ext ext' h x : (forall y, ext' y = ext y) -> reach ext h x -> reach ext' h x.
Proof. intros E. induction 1 as [y o Ho Hy|y o c R IH Ho Hc]; [eapply reach_root; [done|by rewrite E]|by eapply reach_kid]. Qed.

Definition count (held : list nat) (x : nat) : Z := occ x held.

Lemma gc_ok s held : wf (count held) s -> fits s ->
  exists s', JS_RunGC s = Ret s' /\ wf (count held) s' /\ fits s' /\ (forall x, is_Some (heap s' !! x) <-> reach (count held) (heap s) x) /\
    (forall x o', heap s' !! x = Some o' -> exists o, heap s !! x = Some o /\ o_obj o' = o_obj o /\ o_mark o' = false) /\
    (forall x, x ∈ freed s' <-> x ∈ freed s \/ is_Some (heap s !! x) /\ ~ reach (count held) (heap s) x).
Proof.
  intros W F. destruct (run_gc_ok _ _ W F) as (s' & E' & W' & K & D & G).
  assert (forall x o', heap s' !! x = Some o' -> exists o, heap s !! x = Some o /\ o_obj o' = o_obj o /\ o_mark o' = false) as Hs.
  { intros x o' Ho'. assert (reach (count held) (heap s) x) as R by (apply D; eauto). destruct (reach_rc _ _ _ _ (wf_acc _ _ W) R) as (o & Ho & _).
    destruct (K _ _ R Ho) as (o2 & ? & Eo & _). simplify_eq. exists o. split; [done|]. split; [apply Eo; apply (wf_obj _ _ W _ _ Ho)|apply (wf_obj _ _ W' _ _ Ho')]. }
  exists s'. split; [done|]. split; [done|]. split; [|done]. intros x o' Ho'. destruct (Hs _ _ Ho') as (o & Ho & _).
  rewrite (wf_count _ _ _ _ W' Ho'). etrans; [|apply (wf_room _ s x W F)].
  enough (occ x (all_kids (heap s')) <= occ x (all_kids (heap s))) by lia. apply all_kids_sub.
  intros y oy Hy. destruct (Hs _ _ Hy) as (o0 & Ho0 & E0 & _). exists o0. split; [done|]. unfold okids.
  by rewrite (proj2 (proj2 (wf_obj _ _ W _ _ Ho0))), (proj2 (proj2 (wf_obj _ _ W' _ _ Hy))), E0.
Qed.

Lemma act_ok s held a : wf (count held) s -> fits s -> allowed s held a = true ->
  exists s', act a s = Ret s' /\ wf (count (held_after a held)) s' /\ fits s'.
Proof.
  intros W F Ha. destruct a as [x|x|x o|x o'|]; simpl in Ha |- *; unfold count.
  - apply andb_true_iff in Ha as [_ Hm]. destruct (dups_ok [x] _ _ W F Hm) as (s' & E & W' & _ & F').
    exists s'. split; [cbn [each] in E; by destruct (JS_DupRef x s)|]. split; [|done]. eapply wf_ext; [|exact W']. intros y. unfold count. simpl. lia.
  - apply andb_true_iff in Ha as [Hx Hr]. apply bool_decide_eq_true in Hx. pose proof (proj2 (occ_pos x held) Hx) as Hp.
    destruct (a_root _ _ _ (wf_acc _ _ W) x Hp) as [o Ho]. unfold is_running in Hr. rewrite Ho in Hr.
    destruct (free_ok _ _ _ _ W Ho Hp) as (s' & E & W' & _). { intros R. rewrite R in Hr. simpl in Hr. apply Z.ltb_lt in Hr. done. }
    exists s'. split; [done|]. split; [eapply wf_ext; [|exact W']; intros y; by apply occ_drop_one|]. by eapply lower_fits; [eapply JS_FreeRef_lower|].
  - destruct (heap s !! x) eqn:Hx; [done|]. rewrite !andb_true_iff, !negb_true_iff, bool_decide_eq_false in Ha. destruct Ha as ((((Hf & _) & Hk) & Hm) & Hr).
    destruct (new_ok _ _ _ _ W F Hx Hf Hk Hm Hr) as (s' & E & W' & F'). exists s'. split; [done|]. split; [|done]. eapply wf_ext; [|exact W']. intros y. unfold count. simpl. lia.
  - destruct (heap s !! x) as [o|] eqn:Ho; [|done]. rewrite !andb_true_iff in Ha. destruct Ha as ((((Hx & _) & Hk) & Hm) & Hr). apply Nat.eqb_eq in Hr.
    unfold holds in Hx. apply bool_decide_eq_true, occ_pos in Hx. by destruct (store_ok _ _ _ _ o' W F Ho Hx Hk Hm Hr) as (s' & ? & ? & ?); eauto.
  - destruct (gc_ok _ _ W F) as (s' & ? & ? & ? & _). eauto.
Qed.

Lemma wf_init : wf (count []) rt_init.
Proof.
  split; [|done..]. split; try done; try apply NoDup_nil_2; intros x.
  unfold alive. simpl. rewrite lookup_empty. split; [set_solver|by intros []].
Qed.

Lemma gc_run_ok l s held : wf (count held) s -> fits s -> careful l s held = true ->
  exists s' held', run l s held = Ret (s', held') /\ wf (count held') s' /\ fits s'.
Proof.
  revert s held. induction l as [|a l IH]; intros s held W F Hl; cbn [run careful] in *; [eauto|]. apply andb_true_iff in Hl as [Ha Hl].
  destruct (act_ok s held a W F Ha) as (s1 & E & W1 & F1). rewrite E in Hl |- *. cbn [mbind outcome_bind]. auto.
Qed.

Lemma fits_init : fits rt_init.
Proof. intros x o Ho. simpl in Ho. by rewrite lookup_empty in Ho. Qed.

(** C11. Code that handles its references as it should, and gives no object more than [INT_MAX],
    never makes QuickJS touch freed memory, fail an assertion, overflow a count or run without end:
    every run ends in a state where each object that the references held lead to exists, every count
    is the number of references there are, at least 1, no field refers to a freed object, and no
    object was freed twice. *)
Theorem gc_runs_safe (l : list action) : careful l rt_init [] = true ->
  exists s held, run l rt_init [] = Ret (s, held) /\ (forall x, reach (count held) (heap s) x -> is_Some (heap s !! x)) /\
    (forall x o, heap s !! x = Some o -> o_rc o = count held x + occ x (all_kids (heap s)) /\ 0 < o_rc o <= INT_MAX) /\
    (forall x c o, heap s !! x = Some o -> c ∈ mark_children (o_obj o) -> is_Some (heap s !! c)) /\
    NoDup (freed s) /\ (forall x, x ∈ freed s -> heap s !! x = None).
Proof.
  intros Hl. destruct (gc_run_ok l rt_init [] wf_init fits_init Hl) as (s & held & E & W & F). pose proof (wf_acc _ _ W) as A. exists s, held. split; [done|].
  split; [intros x R; destruct (reach_rc _ _ _ _ A R) as (o & ? & _); eauto|]. split; [|split; [|split; apply A]].
  - intros x o Ho. destruct (wf_obj _ _ W _ _ Ho) as (Hp & _). rewrite <- (wf_count _ _ _ _ W Ho). specialize (F _ _ Ho). lia.
  - intros x c o Ho Hc. apply (a_kids _ _ _ A). unfold refs. simpl. assert (0 < occ c (all_kids (heap s))); [|lia]. apply occ_pos, elem_of_all_kids.
    exists x, o. unfold okids. by rewrite (proj2 (proj2 (wf_obj _ _ W _ _ Ho))).
Qed.

(** C10. The collector is exact: after any run of careful code, it returns, keeps the objects that
    the held references lead to and no others; these keep their fields, and their counts are
    lowered to the references that are left, those held and those of the objects kept; it frees
    each of the others once. *)
Theorem gc_collects_exactly (l : list action) (s : rt) (held : list nat) : careful l rt_init [] = true -> run l rt_init [] = Ret (s, held) ->
  exists s', JS_RunGC s = Ret s' /\ (forall x, is_Some (heap s' !! x) <-> reach (count held) (heap s) x) /\
    (forall x o', heap s' !! x = Some o' -> exists o, heap s !! x = Some o /\ o_obj o' = o_obj o /\ o_mark o' = false) /\
    (forall x o', heap s' !! x = Some o' -> o_rc o' = count held x + occ x (all_kids (heap s'))) /\
    (forall x, x ∈ freed s' <-> x ∈ freed s \/ is_Some (heap s !! x) /\ ~ reach (count held) (heap s) x) /\ NoDup (freed s').
Proof.
  intros Hl E. destruct (gc_run_ok l rt_init [] wf_init fits_init Hl) as (s0 & held0 & E0 & W & F). rewrite E in E0. injection E0 as <- <-.
  destruct (gc_ok _ _ W F) as (s' & E' & W' & _ & D & Hs & G). exists s'. split; [done|]. split; [done|]. split; [done|]. split; [|split; [done|apply W']].
  intros x o' Ho'. by apply wf_count.
Qed.

(** Giving up a reference, after any run of careful code, frees only what nothing leads to any more, and, when
    no object leads back to itself, all of that. *)
Theorem free_value_exact (l : list action) (s : rt) (held : list nat) (x : nat) : careful l rt_init [] = true -> run l rt_init [] = Ret (s, held) -> allowed s held (AFree x) = true ->
  exists s', JS_FreeRef x s = Ret s' /\
    (forall y o, reach (count (drop_one x held)) (heap s) y -> heap s !! y = Some o -> exists o', heap s' !! y = Some o' /\ o_obj o' = o_obj o) /\
    (forall y, is_Some (heap s' !! y) \/ y ∈ freed s' <-> is_Some (heap s !! y) \/ y ∈ freed s) /\
    (forall (m : nat -> nat) M, (forall y, m y <= M)%nat -> (forall y o c, heap s' !! y = Some o -> c ∈ mark_children (o_obj o) -> m c < m y)%nat ->
      forall y, is_Some (heap s' !! y) <-> reach (count (drop_one x held)) (heap s) y).
Proof.
  intros Hl E Ha. destruct (gc_run_ok l rt_init [] wf_init fits_init Hl) as (s0 & held0 & E0 & W & _). rewrite E in E0. injection E0 as <- <-.
  simpl in Ha. apply andb_true_iff in Ha as [Hx Hr]. apply bool_decide_eq_true in Hx. pose proof (proj2 (occ_pos x held) Hx) as Hp.
  destruct (a_root _ _ _ (wf_acc _ _ W) x Hp) as [o Ho]. unfold is_running in Hr. rewrite Ho in Hr.
  destruct (free_ok _ _ _ _ W Ho Hp) as (s' & E' & W' & K & A). { intros R. rewrite R in Hr. simpl in Hr. apply Z.ltb_lt in Hr. done. }
  assert (forall h y, reach (count (drop_one x held)) h y <-> reach (fun y => count held y - (if decide (y = x) then 1 else 0)) h y) as HR.
  { intros h y. split; apply reach_ext; intros z; [symmetry|]; by apply occ_drop_one. }
  exists s'. split; [done|]. split; [|split; [apply (so_shrinks _ _ _ _ _ K)|]].
  - intros y oy R Hy. destruct (so_keeps _ _ _ _ _ K y oy) as (o' & ? & Eo & _); [by apply HR|done|]. exists o'. split; [done|]. apply Eo, (wf_obj _ _ W _ _ Hy).
  - intros m M HM Hm y. rewrite HR. split.
    + intros Hy. eapply keeps_reach_back; [exact A|apply K|]. eapply (acyclic_reached _ s' m M W' HM); [|exact (Nat.lt_succ_diag_r _)|done].
      intros z oz c Hz Hc. apply (Hm _ _ _ Hz). unfold okids in Hc. by rewrite (proj2 (proj2 (wf_obj _ _ W' _ _ Hz))) in Hc.
    + intros R. destruct (reach_rc _ _ _ _ A R) as (oy & Hy & _). destruct (so_keeps _ _ _ _ _ K _ _ R Hy) as (o' & ? & _). eauto.
Qed.

(** A function whose closure refers to itself, and an object, a module and a context that refer to
    each other, given up; another object is held. *)
Definition cycle_script : list action :=
  [ANew 0 (SHAPE None); ANew 1 (JS_OBJECT 0 [] []); ANew 2 (VAR_REF true (Some 1%nat)); ANew 3 (FUNCTION_BYTECODE [] None);
   AStore 1 (JS_OBJECT 0 [PVarRef 2; PValue None; PDeleted] [3%nat; 2%nat]); ANew 4 (JS_OBJECT 0 [PValue (Some 3%nat)] []); ANew 5 (MODULE [] [] [Some 4%nat]);
   ANew 6 (JS_CONTEXT [5%nat] [Some 1%nat] [Some 0%nat]); AStore 3 (FUNCTION_BYTECODE [] (Some 6%nat)); ANew 7 (SHAPE None); ANew 8 (JS_OBJECT 7 [] []);
   AFree 0; AFree 1; AFree 2; AFree 3; AFree 4; AFree 5; AFree 6; AFree 7].

Definition cycle_state : rt * list nat := match run cycle_script rt_init [] with Ret p => p | _ => (rt_init, []) end.

(** The same with the collection; then another reference to the object left is taken and given up. *)
Lemma gc_runs_safe_witness : exists s held, run (cycle_script ++ [AGc; ADup 8; AFree 8]) rt_init [] = Ret (s, held) /\
  (forall x o, heap s !! x = Some o -> o_rc o = count held x + occ x (all_kids (heap s)) /\ 0 < o_rc o <= INT_MAX) /\ NoDup (freed s).
Proof.
  destruct (gc_runs_safe (cycle_script ++ [AGc; ADup 8; AFree 8])) as (s & held & E & _ & H & _ & N & _); [vm_compute; reflexivity|].
  exists s, held. split; [exact E|]. split; [exact H|exact N].
Defined.

Lemma gc_collects_exactly_witness : exists s', JS_RunGC (fst cycle_state) = Ret s' /\ is_Some (heap s' !! 7%nat) /\ freed s' = [6; 5; 0; 2; 1; 3; 4]%nat.
Proof.
  destruct (gc_collects_exactly cycle_script (fst cycle_state) (snd cycle_state)) as (s' & E & D & _); [vm_compute; reflexivity..|].
  exists s'. split; [exact E|]. split.
  - apply D. eapply reach_kid; [eapply (reach_root _ _ 8%nat); vm_compute; reflexivity|vm_compute; reflexivity|]. vm_compute. left.
  - enough (Ret (freed s') = Ret [6; 5; 0; 2; 1; 3; 4]%nat) as H by (injection H; done). change (Ret (freed s')) with (s ← Ret s'; Ret (freed s)).
    rewrite <- E. vm_compute. reflexivity.
Defined.

Lemma free_value_exact_witness : exists s', JS_FreeRef 8 (fst cycle_state) = Ret s' /\ (is_Some (heap s' !! 8%nat) \/ 8%nat ∈ freed s').
Proof.
  destruct (free_value_exact cycle_script (fst cycle_state) (snd cycle_state) 8) as (s' & E & _ & G & _); [vm_compute; reflexivity..|].
  exists s'. split; [exact E|]. apply G. left. eexists. vm_compute. reflexivity.
Defined.
