(* ===== verification/Digits.v ===== *)
(** Integers in decimal and other radixes: the printing functions of deps/quickjs/dtoa.c, from
    [u32toa_len] to [i64toa_radix].

    A function returns the characters it writes. [toa_loop] fills a buffer from its end and is
    given the room before the end, so a write before the start of the buffer is undefined
    behaviour.

    Part 1 is the code, Part 2 the digits of a number, Part 3 what the functions print. *)

From S2P Require Import Prelude.

(** ** Part 1: the code *)

(** A digit as a character: [digit + '0'] or [digit + 'a' - 10]. *)
Definition digit_char (digit : Z) : Z := if digit <? 10 then digit + 48 else digit + 87.

(** The loop [do *--q = n % radix; n /= radix; while (n != 0)]: the room left and the characters. *)
Fixpoint toa_loop (room : nat) (n radix : Z) (q : list Z) : outcome (nat * list Z) :=
  match room with
  | O => UB
  | S room =>
      let q := digit_char (n mod radix) :: q in
      let n := n / radix in
      if n =? 0 then Ret (room, q) else toa_loop room n radix q
  end.

(** The loop [for (i = len - 1; i >= 0; i--)] that writes all [len] digits. *)
Fixpoint toa_len (len : nat) (n radix : Z) (q : list Z) : list Z :=
  match len with O => q | S len => toa_len len (n / radix) radix (digit_char (n mod radix) :: q) end.

Definition u32toa_len (n : Z) (len : nat) : list Z := toa_len len n 10 [].

Fixpoint bin_len (len : nat) (n radix_bits : Z) (q : list Z) : list Z :=
  match len with
  | O => q
  | S len => bin_len len (Z.shiftr n radix_bits) radix_bits (digit_char (Z.land n (Z.shiftl 1 radix_bits - 1)) :: q)
  end.
Definition u64toa_bin_len (n radix_bits : Z) (len : nat) : list Z := bin_len len n radix_bits [].

Definition u32toa (n : Z) : outcome (list Z) := '(_, q) ← toa_loop 10 n 10 []; Ret q.
Definition i32toa (n : Z) : outcome (list Z) :=
  if 0 <=? n then u32toa n else q ← u32toa (u32 (- n)); Ret (45 :: q).

Definition u64toa (n : Z) : outcome (list Z) :=
  if n <? 0x100000000 then u32toa n
  else
    let n1 := n / 1000000000 in
    let n := n mod 1000000000 in
    q ← (if 0x100000000 <=? n1 then
           let n2 := u32 (n1 / 1000000000) in
           let n1 := n1 mod 1000000000 in
           let two := if 10 <=? n2 then [n2 / 10 + 48] else [] in
           let n2 := if 10 <=? n2 then n2 mod 10 else n2 in
           Ret (two ++ [n2 + 48] ++ u32toa_len n1 9)
         else u32toa n1);
    Ret (q ++ u32toa_len n 9).
Definition i64toa (n : Z) : outcome (list Z) :=
  if 0 <=? n then u64toa n else q ← u64toa (u64 (- n)); Ret (45 :: q).

Definition clz64 (n : Z) : Z := 63 - Z.log2 n.
Definition u64toa_radix (n radix : Z) : outcome (list Z) :=
  if radix =? 10 then u64toa n
  else if Z.land radix (radix - 1) =? 0 then
    let radix_bits := Z.log2 radix in
    let l := if n =? 0 then 1 else (64 - clz64 n + radix_bits - 1) / radix_bits in
    Ret (u64toa_bin_len n radix_bits (Z.to_nat l))
  else '(_, q) ← toa_loop 41 n radix []; Ret q.
Definition i64toa_radix (n radix : Z) : outcome (list Z) :=
  if 0 <=? n then u64toa_radix n radix else q ← u64toa_radix (u64 (- n)) radix; Ret (45 :: q).

(** ** Part 2: the digits of a number *)

(** The number with the given digits, most significant first. *)
Fixpoint dval_from (r v : Z) (ds : list Z) : Z := match ds with [] => v | d :: ds => dval_from r (v * r + d) ds end.
Definition dval (r : Z) (ds : list Z) : Z := dval_from r 0 ds.

Definition digits_ok (r : Z) (ds : list Z) : Prop := Forall (fun d => 0 <= d < r) ds.

(** Digits without leading zeros; zero is one digit. *)
Definition canonical (ds : list Z) : Prop := match ds with [] => False | [_] => True | d :: _ => d <> 0 end.

(** What is printed for a number: its digits, after a minus sign for a negative one. *)
Definition shows_nat (r n : Z) (s : list Z) : Prop :=
  exists ds, s = map digit_char ds /\ digits_ok r ds /\ canonical ds /\ dval r ds = n.
Definition shows (r n : Z) (s : list Z) : Prop :=
  if 0 <=? n then shows_nat r n s else exists s', s = 45 :: s' /\ shows_nat r (- n) s'.

Lemma dval_from_app r v a b : dval_from r v (a ++ b) = dval_from r (dval_from r v a) b.
Proof. revert v. induction a as [|d a IH]; intros v; [done|]. apply IH. Qed.
Lemma dval_from_val r v ds : dval_from r v ds = v * r ^ Z.of_nat (length ds) + dval r ds.
Proof.
  revert v. unfold dval. induction ds as [|d ds IH]; intros v; cbn [dval_from length]; [change (Z.of_nat 0) with 0; rewrite Z.pow_0_r; lia|].
  rewrite IH, (IH (0 * r + d)), Nat2Z.inj_succ, Z.pow_succ_r by lia. ring.
Qed.
Lemma dval_app r a b : dval r (a ++ b) = dval r a * r ^ Z.of_nat (length b) + dval r b.
Proof. unfold dval at 1. rewrite dval_from_app. apply dval_from_val. Qed.
Lemma dval_cons r d ds : dval r (d :: ds) = d * r ^ Z.of_nat (length ds) + dval r ds.
Proof. unfold dval at 1. cbn [dval_from]. rewrite dval_from_val. f_equal. Qed.
Lemma dval_snoc r ds d : dval r (ds ++ [d]) = dval r ds * r + d.
Proof. rewrite dval_app. cbn [length dval dval_from]. change (Z.of_nat 1) with 1. rewrite Z.pow_1_r. unfold dval. simpl. lia. Qed.
Lemma dval_bound r ds : 2 <= r -> digits_ok r ds -> 0 <= dval r ds < r ^ Z.of_nat (length ds).
Proof.
  intros Hr. induction 1 as [|d ds Hd _ IH]; [done|]. rewrite dval_cons. cbn [length]. rewrite Nat2Z.inj_succ, Z.pow_succ_r by lia. nia.
Qed.

(** A number has one canonical sequence of digits. *)
Lemma digits_unique r a b : 2 <= r -> digits_ok r a -> digits_ok r b -> length a = length b -> dval r a = dval r b -> a = b.
Proof.
  intros Hr Ha. revert b. induction Ha as [|d a Hd Ha IH]; intros b Hb El Ev; [by destruct b|]. destruct Hb as [|e b He Hb]; [done|].
  injection El as El. rewrite !dval_cons, El in Ev. pose proof (dval_bound r a Hr Ha) as Hba. pose proof (dval_bound r b Hr Hb) as Hbb. rewrite El in Hba.
  assert (d = e) as -> by nia. f_equal. apply IH; try done. lia.
Qed.
Lemma canonical_large r d e ds : 2 <= r -> digits_ok r (d :: e :: ds) -> d <> 0 -> r ^ Z.of_nat (S (length ds)) <= dval r (d :: e :: ds).
Proof.
  intros Hr Hd Hn. inversion Hd as [|? ? Hd1 Hds]; subst. rewrite dval_cons. cbn [length]. pose proof (dval_bound r (e :: ds) Hr Hds). nia.
Qed.
Lemma canonical_length r a b :
  2 <= r -> digits_ok r a -> digits_ok r b -> canonical a -> canonical b -> dval r a = dval r b -> (length a <= length b)%nat.
Proof.
  intros Hr Ha Hb Hca Hcb E. destruct a as [|d [|e a]]; [done|destruct b; [done|simpl; lia]|].
  pose proof (canonical_large r d e a Hr Ha Hca) as Hl. pose proof (dval_bound r b Hr Hb) as Hbb. rewrite E in Hl. cbn [length].
  destruct (decide (S (S (length a)) <= length b)%nat) as [|Hlt]; [done|]. exfalso.
  pose proof (Z.pow_le_mono_r r (Z.of_nat (length b)) (Z.of_nat (S (length a))) ltac:(lia) ltac:(lia)). lia.
Qed.
Lemma canonical_unique r a b :
  2 <= r -> digits_ok r a -> digits_ok r b -> canonical a -> canonical b -> dval r a = dval r b -> a = b.
Proof.
  intros Hr Ha Hb Hca Hcb E. apply (digits_unique r); try done.
  pose proof (canonical_length r a b Hr Ha Hb Hca Hcb E). pose proof (canonical_length r b a Hr Hb Ha Hcb Hca (eq_sym E)). lia.
Qed.

(** ** Part 3: what the functions print *)

Lemma toa_len_ok len n r q :
  2 <= r -> 0 <= n ->
  exists ds, toa_len len n r q = map digit_char ds ++ q /\ digits_ok r ds /\ length ds = len /\ dval r ds = n mod r ^ Z.of_nat len.
Proof.
  intros Hr. revert n q. induction len as [|len IH]; intros n q Hn; cbn [toa_len].
  { exists []. change (r ^ Z.of_nat 0) with 1. rewrite Z.mod_1_r. split; [done|]. split; [apply Forall_nil_2|done]. }
  destruct (IH (n / r) (digit_char (n mod r) :: q)) as (ds & E & Hds & El & Ev); [apply Z.div_pos; lia|]. exists (ds ++ [n mod r]).
  rewrite E, map_app, <- app_assoc, length_app, dval_snoc, Ev. split; [done|]. split; [|split; [simpl; lia|]].
  - apply Forall_app. split; [done|]. constructor; [apply Z.mod_pos_bound; lia|apply Forall_nil_2].
  - rewrite Nat2Z.inj_succ, Z.pow_succ_r, Z.rem_mul_r by (try apply Z.pow_pos_nonneg; lia). lia.
Qed.

Lemma toa_loop_ok room n r q :
  2 <= r -> (0 < room)%nat -> 0 <= n < r ^ Z.of_nat room ->
  exists ds room', toa_loop room n r q = Ret (room', map digit_char ds ++ q) /\ digits_ok r ds /\ canonical ds /\ dval r ds = n /\ (length ds + room' = room)%nat /\ (n <> 0 -> hd 0 ds <> 0).
Proof.
  intros Hr. revert n q. induction room as [|room IH]; intros n q Hroom Hn; [lia|]. cbn [toa_loop]. pose proof (Z.mod_pos_bound n r ltac:(lia)).
  pose proof (Z.div_mod n r ltac:(lia)) as Edm. destruct (Z.eqb_spec (n / r) 0) as [E0|E0].
  - exists [n mod r], room. split; [done|]. split; [by constructor; [|apply Forall_nil_2]|]. split; [done|]. unfold dval. cbn [dval_from hd length]. lia.
  - rewrite Nat2Z.inj_succ, Z.pow_succ_r in Hn by lia. pose proof (Z.div_pos n r ltac:(lia) ltac:(lia)).
    assert (0 < room)%nat as Hr0. { destruct room; [|lia]. change (r ^ Z.of_nat 0) with 1 in Hn. rewrite Z.div_small in E0 by lia. done. }
    destruct (IH (n / r) (digit_char (n mod r) :: q) Hr0) as (ds & room' & E & Hds & Hc & Ev & El & Hh); [split; [done|]; apply Z.div_lt_upper_bound; lia|].
    specialize (Hh E0). exists (ds ++ [n mod r]), room'. rewrite E, map_app, <- app_assoc, length_app, dval_snoc, Ev. split; [done|].
    split; [apply Forall_app; split; [done|]; by constructor; [|apply Forall_nil_2]|]. split; [|split; [lia|split; [simpl; lia|]]]; destruct ds as [|d [|e ds]]; done.
Qed.

Lemma u32toa_ok n : uint_ok 32 n -> exists ds, u32toa n = Ret (map digit_char ds) /\ digits_ok 10 ds /\ canonical ds /\ dval 10 ds = n /\ (length ds <= 10)%nat /\ (n <> 0 -> hd 0 ds <> 0).
Proof.
  intros Hn. destruct (toa_loop_ok 10 n 10 [] ltac:(lia) ltac:(lia)) as (ds & room & E & H1 & H2 & H3 & H4 & H5); [unfold uint_ok in Hn; lia|].
  exists ds. unfold u32toa. rewrite E, app_nil_r. cbn [mbind outcome_bind]. split_and!; try done. lia.
Qed.

(** Digits after digits that do not start with zero. *)
Lemma canonical_app a b : a <> [] -> hd 0 a <> 0 -> canonical (a ++ b).
Proof. destruct a as [|d a]; [done|]. cbn [hd app]. intros _ Hd. by destruct (a ++ b). Qed.

Lemma small_digit d : 0 <= d < 10 -> d + 48 = digit_char d.
Proof. intros. unfold digit_char. destruct (Z.ltb_spec d 10); lia. Qed.

(** The part of [u64toa] before the last nine digits. *)
Definition high_digits (n1 : Z) : outcome (list Z) :=
  if 0x100000000 <=? n1 then
    let n2 := u32 (n1 / 1000000000) in
    let n1 := n1 mod 1000000000 in
    let two := if 10 <=? n2 then [n2 / 10 + 48] else [] in
    let n2 := if 10 <=? n2 then n2 mod 10 else n2 in
    Ret (two ++ [n2 + 48] ++ u32toa_len n1 9)
  else u32toa n1.

Lemma high_digits_ok n1 :
  0 < n1 <= 18446744073 ->
  exists ds, high_digits n1 = Ret (map digit_char ds) /\ digits_ok 10 ds /\ ds <> [] /\ hd 0 ds <> 0 /\ dval 10 ds = n1 /\ (length ds <= 11)%nat.
Proof.
  intros Hn. unfold high_digits. destruct (Z.leb_spec 4294967296 n1).
  - set (n2 := n1 / 1000000000). assert (4 <= n2 <= 18) as Hn2.
    { unfold n2. split; [apply Z.div_le_lower_bound; lia|]. assert (n1 / 1000000000 < 19) by (apply Z.div_lt_upper_bound; lia). lia. }
    cbv zeta. rewrite (wrap_small 32) by (unfold uint_ok; lia). destruct (toa_len_ok 9 (n1 mod 1000000000) 10 [] ltac:(lia)) as (ds & E & Hds & El & Ev); [apply Z.mod_pos_bound; lia|].
    unfold u32toa_len. rewrite E, app_nil_r. rewrite Z.mod_mod in Ev by lia. pose proof (Z.div_mod n1 1000000000 ltac:(lia)) as Edm. fold n2 in Edm. clearbody n2.
    change (10 ^ Z.of_nat 9) with 1000000000 in Ev. destruct (Z.leb_spec 10 n2).
    + exists ([1; n2 - 10] ++ ds). assert (n2 / 10 = 1) as -> by (symmetry; apply (Z.div_unique n2 10 1 (n2 - 10)); lia).
      assert (n2 mod 10 = n2 - 10) as -> by (symmetry; apply (Z.mod_unique_pos n2 10 1); lia). rewrite (small_digit (n2 - 10)) by lia.
      rewrite map_app, dval_app, Ev, El, length_app, El. split; [done|]. split; [|split_and!; [done|done| |simpl; lia]].
      * apply Forall_app. split; [|done]. constructor; [lia|]. constructor; [lia|apply Forall_nil_2].
      * unfold dval. cbn [dval_from]. change (10 ^ Z.of_nat 9) with 1000000000. lia.
    + exists ([n2] ++ ds). rewrite (small_digit n2) by lia. rewrite map_app, dval_app, Ev, El, length_app, El. split; [done|]. split; [|split_and!; [done|simpl; lia| |simpl; lia]].
      * apply Forall_app. split; [|done]. constructor; [lia|apply Forall_nil_2].
      * unfold dval. cbn [dval_from]. change (10 ^ Z.of_nat 9) with 1000000000. lia.
  - destruct (u32toa_ok n1) as (ds & E & H1 & H2 & H3 & H4 & H5); [unfold uint_ok; lia|]. exists ds. rewrite E. split_and!; try done; [by intros ->|apply H5; lia|lia].
Qed.

Lemma u64toa_ok n :
  uint_ok 64 n -> exists ds, u64toa n = Ret (map digit_char ds) /\ digits_ok 10 ds /\ canonical ds /\ dval 10 ds = n /\ (length ds <= 20)%nat.
Proof.
  intros Hn. unfold uint_ok in Hn. unfold u64toa. destruct (Z.ltb_spec n 4294967296).
  { destruct (u32toa_ok n) as (ds & E & H1 & H2 & H3 & H4 & _); [unfold uint_ok; lia|]. exists ds. split_and!; try done. lia. }
  fold (high_digits (n / 1000000000)). cbv zeta. pose proof (Z.div_mod n 1000000000 ltac:(lia)) as Edm.
  destruct (high_digits_ok (n / 1000000000)) as (hs & Eh & Hhs & Hne & Hhd & Ehv & Ehl).
  { split; [apply Z.div_str_pos; lia|]. assert (n / 1000000000 < 18446744074); [|lia]. apply Z.div_lt_upper_bound; lia. }
  fold (high_digits (n / 1000000000)). rewrite Eh. cbn [mbind outcome_bind].
  destruct (toa_len_ok 9 (n mod 1000000000) 10 [] ltac:(lia)) as (ds & E & Hds & El & Ev); [apply Z.mod_pos_bound; lia|]. unfold u32toa_len. rewrite E, app_nil_r.
  rewrite Z.mod_mod in Ev by lia. exists (hs ++ ds). rewrite map_app, dval_app, length_app, Ehv, El, Ev. split; [done|]. split; [by apply Forall_app|].
  split; [by apply canonical_app|]. change (10 ^ Z.of_nat 9) with 1000000000. split; lia.
Qed.

Lemma bin_len_toa len n k q : 1 <= k -> 0 <= n -> bin_len len n k q = toa_len len n (2 ^ k) q.
Proof.
  intros Hk. revert n q. induction len as [|len IH]; intros n q Hn; [done|]. cbn [bin_len toa_len].
  rewrite Z.shiftr_div_pow2, Z.shiftl_1_l by lia. replace (2 ^ k - 1) with (Z.ones k) by (rewrite Z.ones_equiv; lia). rewrite Z.land_ones by lia. apply IH. apply Z.div_pos; [done|]. apply Z.pow_pos_nonneg; lia.
Qed.

(** As many digits as a number has bits. *)
Lemma fixed_canonical r n len :
  2 <= r -> (0 < len)%nat -> 0 <= n < r ^ Z.of_nat len -> (len = 1%nat \/ r ^ Z.of_nat (len - 1) <= n) ->
  exists ds, toa_len len n r [] = map digit_char ds /\ digits_ok r ds /\ canonical ds /\ dval r ds = n /\ length ds = len.
Proof.
  intros Hr Hl Hn Hlow. destruct (toa_len_ok len n r [] Hr ltac:(lia)) as (ds & E & Hds & El & Ev). exists ds. rewrite E, app_nil_r, Z.mod_small in * by done.
  split_and!; try done. destruct ds as [|d [|e ds]]; [simpl in El; lia|done|]. intros ->. rewrite dval_cons in Ev. inversion Hds as [|? ? _ Hds']; subst.
  pose proof (dval_bound r (e :: ds) Hr Hds'). destruct Hlow as [|Hlow]; [simpl in *; lia|]. cbn [length] in *. replace (S (S (length ds)) - 1)%nat with (S (length ds)) in Hlow by lia. lia.
Qed.

Lemma bin_digits n k :
  1 <= k -> 0 < n < 2 ^ 64 ->
  let l := (64 - clz64 n + k - 1) / k in
  1 <= l <= 64 /\ n < (2 ^ k) ^ l /\ (l = 1 \/ (2 ^ k) ^ (l - 1) <= n).
Proof.
  intros Hk Hn l. unfold clz64 in l. pose proof (Z.log2_nonneg n). destruct (Z.log2_spec n ltac:(lia)) as [H1 H2].
  assert (Z.log2 n < 64) by (apply Z.log2_lt_pow2; lia). assert (l = (Z.log2 n + k) / k) as El by (unfold l; f_equal; lia). clearbody l.
  pose proof (Z.div_mod (Z.log2 n + k) k ltac:(lia)) as Edm. pose proof (Z.mod_pos_bound (Z.log2 n + k) k ltac:(lia)) as Hm. rewrite <- El in Edm.
  assert (1 <= l) by nia. assert (l <= 64) by nia. split; [done|]. rewrite <- !Z.pow_mul_r by lia. split.
  - eapply Z.lt_le_trans; [exact H2|]. apply Z.pow_le_mono_r; lia.
  - destruct (Z.eq_dec l 1); [by left|right]. etransitivity; [|exact H1]. apply Z.pow_le_mono_r; lia.
Qed.

Lemma u64toa_radix_ok n r :
  uint_ok 64 n -> 2 <= r <= 36 ->
  exists ds, u64toa_radix n r = Ret (map digit_char ds) /\ digits_ok r ds /\ canonical ds /\ dval r ds = n /\ (length ds <= 64)%nat.
Proof.
  intros Hn Hr. pose proof Hn as Hn'. unfold uint_ok in Hn'. unfold u64toa_radix. destruct (Z.eqb_spec r 10) as [->|].
  { destruct (u64toa_ok n Hn) as (ds & E & H1 & H2 & H3 & H4). exists ds. split_and!; try done. lia. }
  destruct (Z.eqb_spec (Z.land r (r - 1)) 0) as [Hp|Hp].
  - apply land_pred_pow2 in Hp; [|lia]. set (k := Z.log2 r) in *. assert (1 <= k) by (unfold k; apply Z.log2_le_pow2; lia).
    unfold u64toa_bin_len. destruct (Z.eqb_spec n 0) as [->|].
    + exists [0]. split; [|split; [constructor; [lia|apply Forall_nil_2]|split; [done|split; [done|simpl; lia]]]]. done.
    + destruct (bin_digits n k) as (Hl & Hlt & Hlow); [done|lia|]. set (l := (64 - clz64 n + k - 1) / k) in *. clearbody l. rewrite bin_len_toa by lia. rewrite <- Hp in *.
      destruct (fixed_canonical r n (Z.to_nat l)) as (ds & E & H1 & H2 & H3 & H4); [lia|lia|rewrite Z2Nat.id by lia; lia| |].
      { destruct Hlow as [->|Hlow]; [by left|]. right. rewrite Nat2Z.inj_sub, Z2Nat.id by lia. exact Hlow. }
      rewrite E. exists ds. split_and!; try done. lia.
  - assert (3 <= r) by (destruct (Z.eq_dec r 2) as [->|]; [done|lia]).
    destruct (toa_loop_ok 41 n r [] ltac:(lia) ltac:(lia)) as (ds & room & E & H1 & H2 & H3 & H4 & _).
    { split; [lia|]. apply Z.lt_le_trans with (3 ^ Z.of_nat 41); [|apply Z.pow_le_mono_l; lia]. change (3 ^ Z.of_nat 41) with 36472996377170786403. lia. }
    exists ds. rewrite E, app_nil_r. cbn [mbind outcome_bind]. split_and!; try done. lia.
Qed.

Lemma i64toa_radix_ok n r :
  - 2 ^ 63 <= n < 2 ^ 63 -> 2 <= r <= 36 -> exists s, i64toa_radix n r = Ret s /\ shows r n s /\ (length s <= 65)%nat.
Proof.
  intros Hn Hr. unfold i64toa_radix, shows. destruct (Z.leb_spec 0 n).
  - destruct (u64toa_radix_ok n r) as (ds & E & H1 & H2 & H3 & H4); [unfold uint_ok; lia|done|]. exists (map digit_char ds). rewrite length_map. split; [done|]. split; [|lia]. by exists ds.
  - assert (u64 (- n) = - n) as -> by (apply (wrap_small 64); unfold uint_ok; lia).
    destruct (u64toa_radix_ok (- n) r) as (ds & E & H1 & H2 & H3 & H4); [unfold uint_ok; lia|done|]. rewrite E. cbn [mbind outcome_bind].
    exists (45 :: map digit_char ds). cbn [length]. rewrite length_map. split; [done|]. split; [|lia]. eexists. split; [done|]. by exists ds.
Qed.

Lemma i32toa_ok n : - 2 ^ 31 <= n < 2 ^ 31 -> exists s, i32toa n = Ret s /\ shows 10 n s /\ (length s <= 11)%nat.
Proof.
  intros Hn. unfold i32toa, shows. destruct (Z.leb_spec 0 n).
  - destruct (u32toa_ok n) as (ds & E & H1 & H2 & H3 & H4 & _); [unfold uint_ok; lia|]. exists (map digit_char ds). rewrite length_map. split; [done|]. split; [|lia]. by exists ds.
  - assert (u32 (- n) = - n) as -> by (apply (wrap_small 32); unfold uint_ok; lia).
    destruct (u32toa_ok (- n)) as (ds & E & H1 & H2 & H3 & H4 & _); [unfold uint_ok; lia|]. rewrite E. cbn [mbind outcome_bind].
    exists (45 :: map digit_char ds). cbn [length]. rewrite length_map. split; [done|]. split; [|lia]. eexists. split; [done|]. by exists ds.
Qed.

(** Integers are printed right and within their buffers: for every 64-bit integer and radix from
    2 to 36 [i64toa_radix] writes the digits of the number without leading zeros, after a minus
    sign for a negative one, at most 65 characters; [i64toa] and [i32toa] do the same in decimal,
    with at most 21 and 11 characters, also for the least integer. *)
Theorem integers_printed n r :
  - 2 ^ 63 <= n < 2 ^ 63 -> 2 <= r <= 36 ->
  (exists s, i64toa_radix n r = Ret s /\ shows r n s /\ (length s <= 65)%nat) /\
  (exists s, i64toa n = Ret s /\ shows 10 n s /\ (length s <= 21)%nat) /\
  (- 2 ^ 31 <= n < 2 ^ 31 -> exists s, i32toa n = Ret s /\ shows 10 n s /\ (length s <= 11)%nat).
Proof.
  intros Hn Hr. split; [by apply i64toa_radix_ok|]. split; [|apply i32toa_ok]. unfold i64toa, shows. destruct (Z.leb_spec 0 n).
  - destruct (u64toa_ok n) as (ds & E & H1 & H2 & H3 & H4); [unfold uint_ok; lia|]. exists (map digit_char ds). rewrite length_map. split; [done|]. split; [|lia]. by exists ds.
  - assert (u64 (- n) = - n) as -> by (apply (wrap_small 64); unfold uint_ok; lia).
    destruct (u64toa_ok (- n)) as (ds & E & H1 & H2 & H3 & H4); [unfold uint_ok; lia|]. rewrite E. cbn [mbind outcome_bind].
    exists (45 :: map digit_char ds). cbn [length]. rewrite length_map. split; [done|]. split; [|lia]. eexists. split; [done|]. by exists ds.
Qed.
Lemma integers_printed_witness :
  (exists s, i64toa_radix (- 2 ^ 63) 3 = Ret s /\ shows 3 (- 2 ^ 63) s /\ (length s <= 65)%nat) /\
  i64toa (- 2 ^ 63) = Ret [45; 57; 50; 50; 51; 51; 55; 50; 48; 51; 54; 56; 53; 52; 55; 55; 53; 56; 48; 56].
Proof. split; [apply (integers_printed (- 2 ^ 63) 3); lia|vm_compute; reflexivity]. Defined.
