(* ===== verification/Limbs.v ===== *)
(** The arithmetic on arrays of limbs below the big integers of QuickJS, deps/quickjs/quickjs.c:
    the functions [mp_add] to [mp_shr], with 64-bit limbs.

    An array of limbs is a list of integers below [2^64], least significant first. A function
    that fills an array returns it, beside the carry the C function returns; where the code
    works on part of an array the part is cut out and put back, and an index outside the array
    is undefined behaviour.

    Part 1 is the code, Part 2 the value of an array and what each function computes, Part 3 the
    division. *)

From S2P Require Import Prelude.

(** ** Part 1: the code *)

(** The macro [ADDC]: sum and carry. *)
Definition ADDC (op1 op2 carry_in : Z) : Z * Z :=
  let a := u64 (op1 + op2) in
  let k1 := Z.b2z (a <? op1) in
  let a' := u64 (a + carry_in) in
  (a', Z.lor (Z.b2z (a' <? carry_in)) k1).

(** The bits of [a] above its highest set bit, in a word of 64 bits; [clz64]. *)
Definition js_limb_clz (a : Z) : Z := 63 - Z.log2 a.
Definition js_limb_safe_clz (a : Z) : Z := if a =? 0 then 64 else js_limb_clz a.

Fixpoint mp_add (op1 op2 : list Z) (carry : Z) : list Z * Z :=
  match op1, op2 with
  | a :: op1, b :: op2 => let '(r, c) := ADDC a b carry in let '(rs, c) := mp_add op1 op2 c in (r :: rs, c)
  | _, _ => ([], carry)
  end.

Fixpoint mp_sub (op1 op2 : list Z) (k : Z) : list Z * Z :=
  match op1, op2 with
  | v :: op1, b :: op2 =>
      let a := u64 (v - b) in
      let k1 := Z.b2z (v <? a) in
      let v := u64 (a - k) in
      let k := Z.lor (Z.b2z (a <? v)) k1 in
      let '(rs, k) := mp_sub op1 op2 k in (v :: rs, k)
  | _, _ => ([], k)
  end.

(** [mp_neg] with its [carry], which starts with 1. *)
Fixpoint mp_neg_loop (op2 : list Z) (carry : Z) : list Z * Z :=
  match op2 with
  | [] => ([], carry)
  | b :: op2 =>
      let v := u64 ((2 ^ 64 - 1 - b) + carry) in
      let '(rs, c) := mp_neg_loop op2 (Z.b2z (v <? carry)) in (v :: rs, c)
  end.
Definition mp_neg (op2 : list Z) : list Z * Z := mp_neg_loop op2 1.

Fixpoint mp_mul1 (taba : list Z) (b l : Z) : list Z * Z :=
  match taba with
  | [] => ([], l)
  | a :: taba => let t := wrap 128 (a * b + l) in let '(rs, l) := mp_mul1 taba b (Z.shiftr t 64) in (u64 t :: rs, l)
  end.

Fixpoint mp_div1 (taba : list Z) (b r : Z) : list Z * Z :=
  match taba with
  | [] => ([], r)
  | a :: taba => let '(qs, r) := mp_div1 taba b r in let a1 := Z.lor (Z.shiftl r 64) a in (u64 (a1 / b) :: qs, a1 mod b)
  end.

Fixpoint add_mul1_loop (tabr taba : list Z) (b l : Z) : list Z * Z :=
  match tabr, taba with
  | r :: tabr, a :: taba =>
      let t := wrap 128 (a * b + l + r) in let '(rs, l) := add_mul1_loop tabr taba b (Z.shiftr t 64) in (u64 t :: rs, l)
  | _, _ => ([], l)
  end.
Definition mp_add_mul1 (tabr taba : list Z) (b : Z) : list Z * Z := add_mul1_loop tabr taba b 0.

Fixpoint sub_mul1_loop (tabr taba : list Z) (b l : Z) : list Z * Z :=
  match tabr, taba with
  | r :: tabr, a :: taba =>
      let t := wrap 128 (r - a * b - l) in let '(rs, l) := sub_mul1_loop tabr taba b (u64 (- Z.shiftr t 64)) in (u64 t :: rs, l)
  | _, _ => ([], l)
  end.
Definition mp_sub_mul1 (tabr taba : list Z) (b : Z) : list Z * Z := sub_mul1_loop tabr taba b 0.

(** Part of an array, and an array with a part replaced. *)
Definition slice (tab : list Z) (i n : nat) : outcome (list Z) :=
  if (i + n <=? length tab)%nat then Ret (take n (drop i tab)) else UB.
Definition splice (tab : list Z) (i : nat) (l : list Z) : outcome (list Z) :=
  if (i + length l <=? length tab)%nat then Ret (take i tab ++ l ++ drop (i + length l) tab) else UB.
Definition limb (tab : list Z) (i : nat) : outcome Z := match tab !! i with Some v => Ret v | None => UB end.

(** [mp_mul_basecase]: its loop over the limbs of [op2] from the [i]th. *)
Fixpoint mul_loop (result op1 op2 : list Z) (i : nat) : outcome (list Z) :=
  match op2 with
  | [] => Ret result
  | b :: op2 =>
      part ← slice result i (length op1);
      let '(part, r) := mp_add_mul1 part op1 b in
      result ← splice result i part;
      result ← splice result (i + length op1) [r];
      mul_loop result op1 op2 (S i)
  end.
Definition mp_mul_basecase (result op1 op2 : list Z) : outcome (list Z) :=
  match op2 with
  | [] => UB
  | b :: op2 =>
      let '(part, l) := mp_mul1 op1 b 0 in
      result ← splice result 0 part;
      result ← splice result (length op1) [l];
      mul_loop result op1 op2 1
  end.

Definition udiv1norm_init (d : Z) : Z := u64 (Z.lor (Z.shiftl (u64 (- d - 1)) 64) (2 ^ 64 - 1) / d).

(** [udiv1norm]: quotient and remainder. *)
Definition udiv1norm (a1 a0 d d_inv : Z) : Z * Z :=
  let n1m := if Z.testbit a0 63 then 2 ^ 64 - 1 else 0 in
  let n_adj := u64 (a0 + Z.land n1m d) in
  let a := wrap 128 (d_inv * u64 (a1 - n1m) + n_adj) in
  let q := u64 (Z.shiftr a 64 + a1) in
  let a := Z.lor (Z.shiftl a1 64) a0 in
  let a := wrap 128 (a - q * d - d) in
  let ah := u64 (Z.shiftr a 64) in
  let q := u64 (q + (1 + ah)) in
  let r := u64 (u64 a + Z.land ah d) in
  (q, r).

Definition UDIV1NORM_THRESHOLD : nat := 3.

Fixpoint div1norm_loop (taba : list Z) (b b_inv r : Z) : list Z * Z :=
  match taba with
  | [] => ([], r)
  | a :: taba => let '(qs, r) := div1norm_loop taba b b_inv r in let '(q, r) := udiv1norm r a b b_inv in (q :: qs, r)
  end.
Definition mp_div1norm (taba : list Z) (b r : Z) : list Z * Z :=
  if (UDIV1NORM_THRESHOLD <=? length taba)%nat then div1norm_loop taba b (udiv1norm_init b) r else mp_div1 taba b r.

(** The first iteration of [mp_divnorm]: whether the high limbs of [taba] are at least [tabb];
    both are given from the highest limb down. *)
Fixpoint high_ge (a b : list Z) : bool :=
  match a, b with
  | x :: a, y :: b => if x =? y then high_ge a b else negb (x <? y)
  | _, _ => true
  end.

(** The loop that corrects a quotient that is too large. *)
Fixpoint correct_loop (fuel : nat) (part tabb : list Z) (top q : Z) : outcome (list Z * Z * Z) :=
  match fuel with
  | O => UB
  | S fuel =>
      let q := u64 (q - 1) in
      let '(part, c) := mp_add part tabb 0 in
      if negb (c =? 0) then
        let top := u64 (top + 1) in
        if top =? 0 then Ret (part, top, q) else correct_loop fuel part tabb top q
      else correct_loop fuel part tabb top q
  end.

(** The number of corrections is at most two. *)
Definition correct_fuel : nat := 2.

(** One turn of the main loop: the quotient limb and [taba[i..i+nb]]. *)
Definition div_step (part tabb : list Z) (top b1 b1_inv : Z) : outcome (Z * list Z * Z) :=
  next ← limb part (length tabb - 1);
  let q := if b1 <=? top then 2 ^ 64 - 1
           else if negb (b1_inv =? 0) then (udiv1norm top next b1 b1_inv).1
           else u64 (Z.lor (Z.shiftl top 64) next / b1) in
  let '(part, r) := mp_sub_mul1 part tabb q in
  let a := u64 (top - r) in
  if top <? a then '(part, a, q) ← correct_loop correct_fuel part tabb a q; Ret (q, part, a)
  else Ret (q, part, a).

Fixpoint div_loop (i : nat) (tabq taba tabb : list Z) (b1 b1_inv : Z) : outcome (list Z * list Z) :=
  match i with
  | O => Ret (tabq, taba)
  | S i =>
      let nb := length tabb in
      top ← limb taba (i + nb);
      part ← slice taba i nb;
      '(q, part, top) ← div_step part tabb top b1 b1_inv;
      taba ← splice taba i part;
      taba ← splice taba (i + nb) [top];
      tabq ← splice tabq i [q];
      div_loop i tabq taba tabb b1 b1_inv
  end.

(** [mp_divnorm]: the arrays [tabq] and [taba] afterwards; [na] limbs of [taba] are used. *)
Definition mp_divnorm (tabq taba : list Z) (na : nat) (tabb : list Z) : outcome (list Z * list Z) :=
  let nb := length tabb in
  b1 ← limb tabb (nb - 1);
  if (nb =? 1)%nat then
    a ← slice taba 0 na;
    let '(q, r) := mp_div1norm a b1 0 in
    tabq ← splice tabq 0 q;
    taba ← splice taba 0 [r];
    Ret (tabq, taba)
  else
    let n := (na - nb)%nat in
    let b1_inv := if (UDIV1NORM_THRESHOLD <=? n)%nat then udiv1norm_init b1 else 0 in
    high ← slice taba n nb;
    let q := high_ge (rev high) (rev tabb) in
    tabq ← splice tabq n [Z.b2z q];
    taba ← (if q then splice taba n (mp_sub high tabb 0).1 else Ret taba);
    div_loop n tabq taba tabb b1 b1_inv.

(** [mp_shl] with [l], which starts with 0. *)
Fixpoint mp_shl_loop (taba : list Z) (shift l : Z) : list Z * Z :=
  match taba with
  | [] => ([], l)
  | v :: taba => let '(rs, h) := mp_shl_loop taba shift (Z.shiftr v (64 - shift)) in (Z.lor (u64 (Z.shiftl v shift)) l :: rs, h)
  end.
Definition mp_shl (taba : list Z) (shift : Z) : list Z * Z := mp_shl_loop taba shift 0.

(** [mp_shr]: the limbs, and the limb last seen. *)
Fixpoint mp_shr_loop (tab : list Z) (shift high : Z) : list Z * Z :=
  match tab with
  | [] => ([], high)
  | a :: tab =>
      let '(rs, l) := mp_shr_loop tab shift high in
      (Z.lor (Z.shiftr a shift) (u64 (Z.shiftl l (64 - shift))) :: rs, a)
  end.
Definition mp_shr (tab : list Z) (shift high : Z) : list Z * Z :=
  let '(rs, l) := mp_shr_loop tab shift high in (rs, Z.land l (Z.shiftl 1 shift - 1)).

(** ** Part 2: values *)

(** The base, [2^64]. *)
Local Notation B := 18446744073709551616.

Definition limb_ok (x : Z) : Prop := 0 <= x < B.
Definition limbs_ok (l : list Z) : Prop := Forall limb_ok l.

Fixpoint val (l : list Z) : Z := match l with [] => 0 | x :: l => x + B * val l end.

(** The weight of the limb after [n]. *)
Definition Bn (n : nat) : Z := B ^ Z.of_nat n.

Lemma Bn_0 : Bn 0 = 1.
Proof. reflexivity. Qed.

Lemma Bn_S n : Bn (S n) = B * Bn n.
Proof. unfold Bn. rewrite Nat2Z.inj_succ, Z.pow_succ_r by lia. reflexivity. Qed.

Lemma Bn_pos n : 0 < Bn n.
Proof. unfold Bn. apply Z.pow_pos_nonneg; lia. Qed.

Lemma Bn_add n m : Bn (n + m) = Bn n * Bn m.
Proof. unfold Bn. rewrite Nat2Z.inj_add, Z.pow_add_r by lia. reflexivity. Qed.

Lemma val_bound l : limbs_ok l -> 0 <= val l < Bn (length l).
Proof.
  induction 1 as [|x l Hx _ IH]; simpl; [rewrite Bn_0; lia|]. rewrite Bn_S. unfold limb_ok in Hx. lia.
Qed.

Lemma val_app l k : val (l ++ k) = val l + Bn (length l) * val k.
Proof. induction l as [|x l IH]; simpl; [rewrite Bn_0; lia|]. rewrite IH, Bn_S. lia. Qed.

Lemma val_replicate_0 n : val (replicate n 0) = 0.
Proof. induction n as [|n IH]; simpl; [done|]. rewrite IH. lia. Qed.

(** Arrays of the same length with the same value are the same. *)
Lemma val_inj l k : limbs_ok l -> limbs_ok k -> length l = length k -> val l = val k -> l = k.
Proof.
  intros Hl. revert k. induction Hl as [|x l Hx Hl IH]; intros [|y k] Hk El E; try done. apply list.Forall_cons in Hk as [Hy Hk].
  simpl in *. unfold limb_ok in *. assert (val l = val k) as Ev by nia. rewrite (IH k); [|done|lia|done]. f_equal. lia.
Qed.

Lemma u64_limb x : limb_ok (u64 x).
Proof. apply (wrap_ok 64). lia. Qed.

Lemma u64_split x : x = u64 x + B * (x / B).
Proof. unfold wrap. change (2 ^ 64) with B. pose proof (Z_div_mod_eq_full x B). lia. Qed.

Lemma u64_small x : limb_ok x -> u64 x = x.
Proof. apply (wrap_small 64). Qed.

Lemma lor_b2z a b : Z.lor (Z.b2z a) (Z.b2z b) = Z.b2z (a || b).
Proof. by destruct a, b. Qed.

(** A sum and a difference of limbs wrap at most once. *)
Lemma u64_add a b : limb_ok a -> limb_ok b -> u64 (a + b) = a + b - B * Z.b2z (B <=? a + b).
Proof.
  unfold limb_ok. intros Ha Hb. destruct (Z.leb_spec B (a + b)); simpl Z.b2z.
  - unfold wrap. change (2 ^ 64) with B. rewrite <- (Z.mod_add _ (-1)) by lia. rewrite Z.mod_small by lia. lia.
  - rewrite u64_small by (unfold limb_ok; lia). lia.
Qed.

Lemma u64_sub a b : limb_ok a -> limb_ok b -> u64 (a - b) = a - b + B * Z.b2z (a <? b).
Proof.
  unfold limb_ok. intros Ha Hb. destruct (Z.ltb_spec a b); simpl Z.b2z.
  - unfold wrap. change (2 ^ 64) with B. rewrite <- (Z.mod_add _ 1) by lia. rewrite Z.mod_small by lia. lia.
  - rewrite u64_small by (unfold limb_ok; lia). lia.
Qed.

Lemma ADDC_ok a b k : limb_ok a -> limb_ok b -> 0 <= k <= 1 ->
  exists r c, ADDC a b k = (r, c) /\ r + B * c = a + b + k /\ limb_ok r /\ 0 <= c <= 1.
Proof.
  intros Ha Hb Hk. eexists _, _. split; [reflexivity|]. rewrite lor_b2z. pose proof (u64_limb (a + b)) as H1.
  rewrite (u64_add (u64 (a + b)) k) by (done || unfold limb_ok; lia). pose proof (u64_add a b Ha Hb) as E. unfold limb_ok in *.
  destruct (Z.leb_spec B (a + b)), (Z.leb_spec B (u64 (a + b) + k)); simpl Z.b2z in *;
    repeat (match goal with |- context [?x <? ?y] => destruct (Z.ltb_spec x y) end); simpl; lia.
Qed.

Lemma mp_add_ok op1 op2 k : limbs_ok op1 -> limbs_ok op2 -> length op1 = length op2 -> 0 <= k <= 1 ->
  exists r c, mp_add op1 op2 k = (r, c) /\ limbs_ok r /\ length r = length op1 /\ 0 <= c <= 1 /\ val r + Bn (length op1) * c = val op1 + val op2 + k.
Proof.
  intros H1. revert op2 k. induction H1 as [|a op1 Ha H1 IH]; intros [|b op2] k H2 El Hk; try done; cbn [mp_add val length].
  { exists [], k. rewrite Bn_0. split; [done|]; split; [apply Forall_nil_2|]; simpl; lia. }
  apply list.Forall_cons in H2 as [Hb H2]. destruct (ADDC_ok a b k Ha Hb Hk) as (r0 & c0 & -> & E0 & Hr0 & Hc0).
  destruct (IH op2 c0 H2) as (r & c & -> & Hr & Er & Hc & E); [simpl in El; lia|done|]. exists (r0 :: r), c. rewrite Bn_S. cbn [val length].
  split; [done|]. split; [by constructor|]. split; [lia|]. split; [done|]. nia.
Qed.

Lemma mp_sub_ok op1 op2 k : limbs_ok op1 -> limbs_ok op2 -> length op1 = length op2 -> 0 <= k <= 1 ->
  exists r c, mp_sub op1 op2 k = (r, c) /\ limbs_ok r /\ length r = length op1 /\ 0 <= c <= 1 /\ val r = val op1 - val op2 - k + Bn (length op1) * c.
Proof.
  intros H1. revert op2 k. induction H1 as [|a op1 Ha H1 IH]; intros [|b op2] k H2 El Hk; try done; cbn [mp_sub val length].
  { exists [], k. rewrite Bn_0. split; [done|]; split; [apply Forall_nil_2|]; simpl; lia. }
  apply list.Forall_cons in H2 as [Hb H2]. set (x := u64 (a - b)). set (v := u64 (x - k)). set (c0 := Z.lor _ _).
  assert (limb_ok v /\ 0 <= c0 <= 1 /\ v = a - b - k + B * c0) as (Hv & Hc0 & E0).
  { split; [apply u64_limb|]. unfold c0. rewrite lor_b2z. pose proof (u64_sub a b Ha Hb) as Ex. fold x in Ex.
    pose proof (u64_limb (a - b)) as Hx. fold x in Hx. assert (limb_ok k) as Hk' by (unfold limb_ok; lia). pose proof (u64_sub x k Hx Hk') as Ev. fold v in Ev.
    pose proof (u64_limb (x - k)) as Hv. fold v in Hv. unfold limb_ok in *. clearbody x v.
    destruct (Z.ltb_spec a b), (Z.ltb_spec x k); simpl Z.b2z in *; repeat (match goal with |- context [?x <? ?y] => destruct (Z.ltb_spec x y) end); simpl; lia. }
  destruct (IH op2 c0 H2) as (r & c & -> & Hr & Er & Hc & E); [simpl in El; lia|done|]. exists (v :: r), c. rewrite Bn_S. cbn [val length].
  split; [done|]. split; [by constructor|]. split; [simpl; lia|]. split; [done|]. nia.
Qed.

Lemma mp_neg_ok op2 : limbs_ok op2 -> exists r c, mp_neg op2 = (r, c) /\ limbs_ok r /\ length r = length op2 /\ 0 <= c <= 1 /\ val r + Bn (length op2) * c = Bn (length op2) - val op2.
Proof.
  intros H. enough (forall k, 0 <= k <= 1 -> exists r c, mp_neg_loop op2 k = (r, c) /\ limbs_ok r /\ length r = length op2 /\ 0 <= c <= 1 /\
    val r + Bn (length op2) * c = Bn (length op2) - 1 - val op2 + k) as Hk.
  { destruct (Hk 1) as (r & c & E & ? & ? & ? & ?); [lia|]. exists r, c. unfold mp_neg. split_and!; try done; lia. }
  induction H as [|b op2 Hb H IH]; intros k Hk; cbn [mp_neg_loop val length].
  { exists [], k. rewrite Bn_0. split; [done|]; split; [apply Forall_nil_2|]; simpl; lia. }
  set (v := u64 _). set (c0 := Z.b2z _). assert (limb_ok v /\ 0 <= c0 <= 1 /\ v + B * c0 = B - 1 - b + k) as (Hv & Hc0 & E0).
  { split; [apply u64_limb|]. unfold limb_ok in Hb. pose proof (u64_add (B - 1 - b) k) as E. change (u64 (B - 1 - b + k)) with v in E. rewrite E by (unfold limb_ok; lia). unfold c0. rewrite E by (unfold limb_ok; lia).
    destruct (Z.leb_spec B (B - 1 - b + k)); simpl Z.b2z; destruct (Z.ltb_spec (B - 1 - b + k - B * 1) k), (Z.ltb_spec (B - 1 - b + k - B * 0) k); simpl; lia. }
  destruct (IH c0 Hc0) as (r & c & -> & Hr & Er & Hc & E). exists (v :: r), c. rewrite Bn_S. cbn [val length].
  split; [done|]. split; [by constructor|]. split; [simpl; lia|]. split; [done|]. nia.
Qed.

Lemma limb_mul a b : limb_ok a -> limb_ok b -> 0 <= a * b <= (B - 1) * (B - 1).
Proof. unfold limb_ok. intros Ha Hb. split; [apply Z.mul_nonneg_nonneg; lia|]. apply Z.mul_le_mono_nonneg; lia. Qed.

(** The two halves of a double limb. *)
Lemma dlimb_split t : 0 <= t < B * B -> wrap 128 t = t /\ limb_ok (Z.shiftr t 64) /\ u64 t + B * Z.shiftr t 64 = t.
Proof.
  intros Ht. split; [apply wrap_small; unfold uint_ok; change (2 ^ 128) with (B * B); lia|]. rewrite Z.shiftr_div_pow2 by lia. change (2 ^ 64) with B.
  pose proof (u64_split t) as E. split; [|lia]. unfold limb_ok. split; [apply Z.div_pos; lia|apply Z.div_lt_upper_bound; lia].
Qed.

Lemma mp_mul1_ok taba b l : limbs_ok taba -> limb_ok b -> limb_ok l ->
  exists r h, mp_mul1 taba b l = (r, h) /\ limbs_ok r /\ length r = length taba /\ limb_ok h /\ val r + Bn (length taba) * h = val taba * b + l.
Proof.
  intros H Hb. revert l. induction H as [|a taba Ha H IH]; intros l Hl; cbn [mp_mul1 val length].
  { exists [], l. rewrite Bn_0. split; [done|]. split; [apply Forall_nil_2|]. split; [done|]. split; [done|]. simpl. lia. }
  pose proof (limb_mul a b Ha Hb). destruct (dlimb_split (a * b + l)) as (-> & Ht & E0); [unfold limb_ok in *; lia|].
  destruct (IH _ Ht) as (r & h & -> & Hr & Er & Hh & E). exists (u64 (a * b + l) :: r), h. rewrite Bn_S. cbn [val length].
  split; [done|]. split; [constructor; [apply u64_limb|done]|]. split; [lia|]. split; [done|]. nia.
Qed.

Lemma mp_add_mul1_ok tabr taba b : limbs_ok tabr -> limbs_ok taba -> length tabr = length taba -> limb_ok b ->
  exists r h, mp_add_mul1 tabr taba b = (r, h) /\ limbs_ok r /\ length r = length taba /\ limb_ok h /\ val r + Bn (length taba) * h = val tabr + val taba * b.
Proof.
  intros H Ha El Hb. enough (forall l, limb_ok l -> exists r h, add_mul1_loop tabr taba b l = (r, h) /\ limbs_ok r /\ length r = length taba /\ limb_ok h /\
    val r + Bn (length taba) * h = val tabr + val taba * b + l) as Hk.
  { destruct (Hk 0) as (r & h & E & ? & ? & ? & ?); [unfold limb_ok; lia|]. exists r, h. unfold mp_add_mul1. split_and!; try done; lia. }
  revert taba Ha El. induction H as [|x tabr Hx H IH]; intros [|a taba] Ha El l Hl; try done; cbn [add_mul1_loop val length].
  { exists [], l. rewrite Bn_0. split; [done|]. split; [apply Forall_nil_2|]. split; [done|]. split; [done|]. simpl. lia. }
  apply list.Forall_cons in Ha as [Ha Has]. pose proof (limb_mul a b Ha Hb). destruct (dlimb_split (a * b + l + x)) as (-> & Ht & E0); [unfold limb_ok in *; lia|].
  destruct (IH taba Has ltac:(simpl in El; lia) _ Ht) as (r & h & -> & Hr & Er & Hh & E). exists (u64 (a * b + l + x) :: r), h. rewrite Bn_S. cbn [val length].
  split; [done|]. split; [constructor; [apply u64_limb|done]|]. split; [lia|]. split; [done|]. nia.
Qed.

(** The halves of a difference that may be negative. *)
Lemma dlimb_neg t : - (B * (B - 1)) <= t < B -> limb_ok (u64 (- Z.shiftr (wrap 128 t) 64)) /\ u64 (wrap 128 t) - B * u64 (- Z.shiftr (wrap 128 t) 64) = t.
Proof.
  intros Ht. split; [apply u64_limb|]. assert (u64 (wrap 128 t) = u64 t) as ->.
  { unfold wrap. change (2 ^ 128) with (B * B). change (2 ^ 64) with B. apply Z.mod_mod_divide. by exists B. }
  assert (u64 (- Z.shiftr (wrap 128 t) 64) = - (t / B)) as ->.
  { assert (wrap 128 t = t + B * B * Z.b2z (t <? 0)) as Ew.
    { unfold wrap. change (2 ^ 128) with (B * B). destruct (Z.ltb_spec t 0); simpl Z.b2z.
      - rewrite <- (Z.mod_add _ 1) by lia. rewrite Z.mod_small by lia. lia.
      - rewrite Z.mod_small by lia. lia. }
    rewrite Ew, Z.shiftr_div_pow2 by lia. change (2 ^ 64) with B. replace (t + B * B * Z.b2z (t <? 0)) with (t + (B * Z.b2z (t <? 0)) * B) by lia. rewrite Z.div_add by lia.
    assert (- (B - 1) <= t / B <= 0) as Hq by (split; [apply Z.div_le_lower_bound; lia|apply Z.lt_succ_r, Z.div_lt_upper_bound; lia]).
    destruct (Z.ltb_spec t 0); simpl Z.b2z.
    - unfold wrap. change (2 ^ 64) with B. rewrite <- (Z.mod_add _ 1) by lia. rewrite Z.mod_small by lia. lia.
    - rewrite u64_small by (unfold limb_ok; assert (0 <= t / B) by (apply Z.div_pos; lia); lia). lia. }
  pose proof (u64_split t). lia.
Qed.

Lemma mp_sub_mul1_ok tabr taba b : limbs_ok tabr -> limbs_ok taba -> length tabr = length taba -> limb_ok b ->
  exists r h, mp_sub_mul1 tabr taba b = (r, h) /\ limbs_ok r /\ length r = length taba /\ limb_ok h /\ val r = val tabr - val taba * b + Bn (length taba) * h.
Proof.
  intros H Ha El Hb. enough (forall l, limb_ok l -> exists r h, sub_mul1_loop tabr taba b l = (r, h) /\ limbs_ok r /\ length r = length taba /\ limb_ok h /\
    val r = val tabr - val taba * b - l + Bn (length taba) * h) as Hk.
  { destruct (Hk 0) as (r & h & E & ? & ? & ? & ?); [unfold limb_ok; lia|]. exists r, h. unfold mp_sub_mul1. split_and!; try done; lia. }
  revert taba Ha El. induction H as [|x tabr Hx H IH]; intros [|a taba] Ha El l Hl; try done; cbn [sub_mul1_loop val length].
  { exists [], l. rewrite Bn_0. split; [done|]. split; [apply Forall_nil_2|]. split; [done|]. split; [done|]. simpl. lia. }
  apply list.Forall_cons in Ha as [Ha Has]. pose proof (limb_mul a b Ha Hb). destruct (dlimb_neg (x - a * b - l)) as (Ht & E0); [unfold limb_ok in *; lia|].
  destruct (IH taba Has ltac:(simpl in El; lia) _ Ht) as (r & h & -> & Hr & Er & Hh & E). eexists (_ :: r), h. rewrite Bn_S. cbn [val length].
  split; [reflexivity|]. split; [constructor; [apply u64_limb|done]|]. split; [lia|]. split; [done|]. nia.
Qed.

Lemma lor_limbs h l : limb_ok l -> Z.lor (Z.shiftl h 64) l = h * B + l.
Proof. apply (lor_shiftl_add h l 64). lia. Qed.

Lemma mp_div1_ok taba b r : limbs_ok taba -> 0 <= r < b -> limb_ok b ->
  exists q r', mp_div1 taba b r = (q, r') /\ limbs_ok q /\ length q = length taba /\ 0 <= r' < b /\ val taba + Bn (length taba) * r = val q * b + r'.
Proof.
  intros H Hr Hb. induction H as [|a taba Ha H IH]; cbn [mp_div1 val length].
  { exists [], r. rewrite Bn_0. split; [done|]. split; [apply Forall_nil_2|]. split; [done|]. split; [done|]. simpl. lia. }
  destruct IH as (q & r1 & -> & Hq & Eq & Hr1 & E). rewrite lor_limbs by done. pose proof (Z.div_mod (r1 * B + a) b ltac:(lia)) as Ed.
  pose proof (Z.mod_pos_bound (r1 * B + a) b ltac:(lia)) as Hm. unfold limb_ok in *.
  assert (0 <= (r1 * B + a) / b < B) as Hd by (split; [apply Z.div_pos; lia|apply Z.div_lt_upper_bound; nia]).
  eexists (_ :: q), _. rewrite Bn_S. cbn [val length]. split; [reflexivity|]. split; [constructor; [apply u64_limb|done]|]. split; [lia|]. split; [done|].
  rewrite u64_small by done. nia.
Qed.

Lemma slice_app lo hi rest i n : length lo = i -> length hi = n -> slice (lo ++ hi ++ rest) i n = Ret hi.
Proof.
  intros <- <-. unfold slice. rewrite !length_app. destruct (Nat.leb_spec (length lo + length hi) (length lo + (length hi + length rest))); [|lia].
  by rewrite drop_app_length, take_app_length.
Qed.

Lemma splice_app lo old new rest i : length lo = i -> length new = length old -> splice (lo ++ old ++ rest) i new = Ret (lo ++ new ++ rest).
Proof.
  intros <- E. unfold splice. rewrite !length_app, E. destruct (Nat.leb_spec (length lo + length old) (length lo + (length old + length rest))); [|lia].
  rewrite take_app_length. do 2 f_equal. rewrite app_assoc, drop_app_ge by (rewrite length_app; lia). f_equal. rewrite length_app. by replace (length lo + length old - (length lo + length old))%nat with 0%nat by lia.
Qed.

Lemma limb_app lo x rest i : length lo = i -> limb (lo ++ x :: rest) i = Ret x.
Proof. intros <-. unfold limb. by rewrite list_lookup_middle. Qed.

(** An array as a part before, a part of [n] limbs, and the rest. *)
Lemma split_at (l : list Z) i n : (i + n <= length l)%nat -> exists lo hi rest, l = lo ++ hi ++ rest /\ length lo = i /\ length hi = n.
Proof.
  intros H. exists (take i l), (take n (drop i l)), (drop n (drop i l)). rewrite !take_drop, !length_take, length_drop. split; [done|]. lia.
Qed.

Lemma limbs_app l k : limbs_ok (l ++ k) <-> limbs_ok l /\ limbs_ok k.
Proof. apply list.Forall_app. Qed.

Lemma limbs_snoc l x : limbs_ok (l ++ [x]) <-> limbs_ok l /\ limb_ok x.
Proof. rewrite limbs_app. unfold limbs_ok at 2. by rewrite list.Forall_singleton. Qed.

Lemma mul_loop_ok op1 op2 : limbs_ok op1 -> limbs_ok op2 -> forall finished rest i, limbs_ok finished -> limbs_ok rest ->
  length finished = (i + length op1)%nat -> length rest = length op2 ->
  exists r, mul_loop (finished ++ rest) op1 op2 i = Ret r /\ limbs_ok r /\ length r = (i + length op1 + length op2)%nat /\ val r = val finished + Bn i * (val op1 * val op2).
Proof.
  intros H1 H2. induction H2 as [|b op2 Hb H2 IH]; intros fin rest i Hf Hrest El Er; cbn [mul_loop val length].
  { destruct rest; [|done]. exists fin. rewrite app_nil_r. split; [done|]. split; [done|]. lia. }
  destruct rest as [|x rest]; [done|]. destruct (split_at fin i (length op1)) as (lo & hi & e & -> & Elo & Ehi); [lia|].
  assert (e = []) as -> by (apply length_zero_iff_nil; rewrite !length_app in El; lia). rewrite app_nil_r in *. apply limbs_app in Hf as [Hlo Hhi].
  destruct (mp_add_mul1_ok hi op1 b Hhi H1 Ehi Hb) as (hi' & h & Em & Hhi' & Ehi' & Hh & E).
  rewrite <- app_assoc, (slice_app lo hi (x :: rest) i (length op1)) by done. cbn [mbind outcome_bind]. rewrite Em.
  rewrite splice_app by lia || done. cbn [mbind outcome_bind].
  rewrite app_assoc. change (x :: rest) with ([x] ++ rest). rewrite splice_app by (rewrite ?length_app; done || lia). cbn [mbind outcome_bind]. rewrite app_assoc.
  apply list.Forall_cons in Hrest as [_ Hrest].
  destruct (IH ((lo ++ hi') ++ [h]) rest (S i)) as (r & Er' & Hr & Lr & Ev).
  { rewrite !limbs_app. split; [done|]. by apply list.Forall_singleton. } { done. } { rewrite !length_app. simpl. lia. } { simpl in Er. lia. }
  exists r. split; [done|]. split; [done|]. split; [lia|]. rewrite Ev, !val_app, Bn_S, !length_app, Bn_add, Ehi', Elo. cbn [val]. nia.
Qed.

Lemma mp_mul_basecase_ok result op1 op2 : limbs_ok result -> limbs_ok op1 -> limbs_ok op2 -> length result = (length op1 + length op2)%nat -> op2 <> [] ->
  exists r, mp_mul_basecase result op1 op2 = Ret r /\ limbs_ok r /\ length r = (length op1 + length op2)%nat /\ val r = val op1 * val op2.
Proof.
  intros Hr H1 H2 El Hn. destruct op2 as [|b op2]; [done|]. apply list.Forall_cons in H2 as [Hb H2]. unfold mp_mul_basecase.
  destruct (mp_mul1_ok op1 b 0 H1 Hb) as (part & h & -> & Hpart & Ep & Hh & E); [unfold limb_ok; lia|]. simpl in El.
  destruct (split_at result 0 (length op1)) as (lo & hi & rest & -> & Elo & Ehi); [lia|]. destruct lo; [|done]. rewrite !length_app in El. destruct rest as [|x rest]; [simpl in El; lia|].
  rewrite !limbs_app in Hr. destruct Hr as (_ & Hhi & Hrest). apply list.Forall_cons in Hrest as [_ Hrest]. rewrite splice_app by (done || lia). cbn [mbind outcome_bind].
  change (([] ++ part ++ x :: rest)) with (part ++ [x] ++ rest). rewrite splice_app by done. cbn [mbind outcome_bind]. rewrite app_assoc.
  destruct (mul_loop_ok op1 op2 H1 H2 (part ++ [h]) rest 1) as (r & Er & Hr & Lr & Ev).
  { rewrite limbs_app. split; [done|]. by apply list.Forall_singleton. } { done. } { rewrite length_app. simpl. lia. } { simpl in El. lia. }
  exists r. split; [done|]. split; [done|]. split; [simpl; lia|]. rewrite Ev, val_app, Ep, Bn_S, Bn_0. cbn [val]. nia.
Qed.

(** Shifts. *)
Lemma pow_split s : 0 <= s <= 64 -> B = 2 ^ s * 2 ^ (64 - s).
Proof. intros. rewrite <- Z.pow_add_r by lia. by replace (s + (64 - s)) with 64 by lia. Qed.

Lemma u64_shiftl v s : 0 <= s <= 64 -> limb_ok v -> u64 (Z.shiftl v s) = Z.shiftl (v mod 2 ^ (64 - s)) s.
Proof.
  intros Hs Hv. unfold wrap. rewrite !Z.shiftl_mul_pow2 by lia. change (2 ^ 64) with B. rewrite (pow_split s) by lia.
  rewrite (Z.mul_comm (2 ^ s)), Z.mul_mod_distr_r; [done|..]; apply Z.pow_nonzero; lia.
Qed.

Lemma mp_shl_ok taba s : limbs_ok taba -> 1 <= s <= 63 ->
  exists r h, mp_shl taba s = (r, h) /\ limbs_ok r /\ length r = length taba /\ 0 <= h < 2 ^ s /\ val r + Bn (length taba) * h = val taba * 2 ^ s.
Proof.
  intros H Hs. pose proof (pow_split s) as EB. pose proof (Z.pow_pos_nonneg 2 s). pose proof (Z.pow_pos_nonneg 2 (64 - s)).
  enough (forall l, 0 <= l < 2 ^ s -> exists r h, mp_shl_loop taba s l = (r, h) /\ limbs_ok r /\ length r = length taba /\ 0 <= h < 2 ^ s /\
    val r + Bn (length taba) * h = val taba * 2 ^ s + l) as Hk.
  { destruct (Hk 0) as (r & h & E & ? & ? & ? & ?); [lia|]. exists r, h. unfold mp_shl. split_and!; try done; lia. }
  induction H as [|v taba Hv H' IH]; intros l Hl; cbn [mp_shl_loop val length].
  { exists [], l. rewrite Bn_0. split; [done|]. split; [apply Forall_nil_2|]. simpl. lia. }
  rewrite u64_shiftl, lor_shiftl_add, Z.shiftr_div_pow2 by (done || lia).
  pose proof (Z.mod_pos_bound v (2 ^ (64 - s)) ltac:(lia)) as Hm. pose proof (Z.div_mod v (2 ^ (64 - s)) ltac:(lia)) as Ed. unfold limb_ok in Hv.
  assert (0 <= v / 2 ^ (64 - s) < 2 ^ s) as Hd by (split; [apply Z.div_pos; lia|apply Z.div_lt_upper_bound; [lia|rewrite Z.mul_comm, <- EB; lia]]).
  destruct (IH _ Hd) as (r & h & -> & Hr & Er & Hh & E). eexists (_ :: r), h. rewrite Bn_S. cbn [val length]. split; [reflexivity|].
  set (m := v mod 2 ^ (64 - s)) in *. set (d := v / 2 ^ (64 - s)) in *. clearbody m d.
  split; [constructor; [unfold limb_ok; nia|done]|]. split; [lia|]. split; [done|]. nia.
Qed.

Lemma mod_limb x y n : limb_ok x -> (x + B * y) mod (B * Bn n) = x + B * (y mod Bn n).
Proof.
  intros Hx. pose proof (Bn_pos n). unfold limb_ok in Hx. rewrite Z.rem_mul_r by lia. rewrite (Z.mul_comm B y), Z.mod_add, Z.div_add by lia.
  rewrite (Z.mod_small x), (Z.div_small x) by lia. done.
Qed.

Lemma mp_shr_ok tab s high : limbs_ok tab -> 1 <= s <= 63 -> limb_ok high ->
  exists r m, mp_shr tab s high = (r, m) /\ limbs_ok r /\ length r = length tab /\ val r = ((val tab + Bn (length tab) * high) / 2 ^ s) mod Bn (length tab).
Proof.
  intros H Hs Hh. pose proof (pow_split s) as EB. pose proof (Z.pow_pos_nonneg 2 s). pose proof (Z.pow_pos_nonneg 2 (64 - s)).
  enough (exists r l, mp_shr_loop tab s high = (r, l) /\ limbs_ok r /\ length r = length tab /\ limb_ok l /\ l mod 2 ^ s = (val tab + Bn (length tab) * high) mod 2 ^ s /\
    val r = ((val tab + Bn (length tab) * high) / 2 ^ s) mod Bn (length tab)) as (r & l & E & ? & ? & _ & _ & ?).
  { exists r, (Z.land l (Z.shiftl 1 s - 1)). unfold mp_shr. by rewrite E. }
  induction H as [|a tab Ha H' IH]; cbn [mp_shr_loop val length].
  { exists [], high. rewrite Bn_0, Z.mod_1_r. split; [done|]. split; [apply Forall_nil_2|]. split; [done|]. split; [done|]. split; [f_equal; lia|done]. }
  destruct IH as (r & l & -> & Hr & Er & Hl & El & Ev). rewrite Bn_S. set (V := val tab + Bn (length tab) * high) in *.
  replace (a + B * val tab + B * Bn (length tab) * high) with (a + B * V) by (unfold V; lia).
  eexists (_ :: r), a. split; [reflexivity|]. rewrite Z.shiftr_div_pow2, u64_shiftl, Z.lor_comm by (done || lia). replace (64 - (64 - s)) with s by lia.
  unfold limb_ok in Ha. assert (0 <= a / 2 ^ s < 2 ^ (64 - s)) as Hd by (split; [apply Z.div_pos; lia|apply Z.div_lt_upper_bound; lia]).
  rewrite lor_shiftl_add by (done || lia). pose proof (Z.mod_pos_bound l (2 ^ s) ltac:(lia)) as Hm.
  assert (limb_ok (l mod 2 ^ s * 2 ^ (64 - s) + a / 2 ^ s)) as Hlo by (unfold limb_ok; rewrite EB by lia; nia).
  split; [by constructor|]. split; [simpl; lia|]. split; [done|]. split.
  - rewrite EB by lia. replace (a + 2 ^ s * 2 ^ (64 - s) * V) with (a + 2 ^ (64 - s) * V * 2 ^ s) by lia. by rewrite Z.mod_add by lia.
  - cbn [val]. rewrite Ev, El. pose proof (Z.div_mod V (2 ^ s) ltac:(lia)) as EV. pose proof (Bn_pos (length tab)).
    assert ((a + B * V) / 2 ^ s = (V mod 2 ^ s * 2 ^ (64 - s) + a / 2 ^ s) + B * (V / 2 ^ s)) as ->.
    { replace (a + B * V) with (a + (2 ^ (64 - s) * V) * 2 ^ s) by (rewrite EB by lia; lia). rewrite Z.div_add by lia. rewrite EB by lia. nia. }
    rewrite El in Hlo. by rewrite mod_limb.
Qed.

(** ** Part 3: division *)

(** The high part of a number from bounds of the number. *)
Lemma high_lt M x t k : 0 <= x < M -> x + M * t < M * k -> t < k.
Proof. intros Hx H. apply Z.lt_nge. intros Hk. apply (Z.mul_le_mono_nonneg_l _ _ M) in Hk; lia. Qed.

Lemma high_ge_0 M x t : 0 <= x < M -> 0 <= x + M * t -> 0 <= t.
Proof. intros Hx H. apply Z.le_ngt. intros Ht. assert (t <= -1) as Hk by lia. apply (Z.mul_le_mono_nonneg_l _ _ M) in Hk; lia. Qed.

Lemma mul_bound a b x y : 0 <= a <= x -> 0 <= b <= y -> 0 <= a * b <= x * y.
Proof. intros. split; [apply Z.mul_nonneg_nonneg; lia|apply Z.mul_le_mono_nonneg; lia]. Qed.

Lemma land_ones_limb d : limb_ok d -> Z.land (2 ^ 64 - 1) d = d.
Proof. intros Hd. rewrite Z.land_comm, land_pow2_mask by lia. by apply Z.mod_small. Qed.

Lemma u64_plus_B x : u64 (x + B) = u64 x.
Proof. unfold wrap. change (2 ^ 64) with B. replace (x + B) with (x + 1 * B) by lia. apply Z.mod_add. lia. Qed.

(** The inverse of a normalized limb. *)
Lemma udiv1norm_init_ok d : B / 2 <= d < B -> exists k, limb_ok (udiv1norm_init d) /\ 1 <= k <= d /\ (B + udiv1norm_init d) * d = B * B - k.
Proof.
  change (B / 2) with 9223372036854775808. intros Hd. unfold udiv1norm_init.
  rewrite lor_limbs by (unfold limb_ok; lia). assert (u64 (- d - 1) = B - 1 - d) as ->.
  { rewrite <- u64_plus_B, u64_small by (unfold limb_ok; lia). lia. }
  change (2 ^ 64) with B. set (n := (B - 1 - d) * B + (B - 1)). pose proof (Z.div_mod n d ltac:(lia)) as E. pose proof (Z.mod_pos_bound n d ltac:(lia)) as Hm.
  assert (limb_ok (n / d)) as Hq by (unfold limb_ok; split; [apply Z.div_pos; unfold n; nia|apply Z.div_lt_upper_bound; unfold n; nia]).
  rewrite u64_small by done. exists (1 + n mod d). split; [done|]. split; [lia|]. unfold n in *. nia.
Qed.

(** The estimate of the quotient is the quotient or one less. *)
Lemma udiv_estimate d v k m x : 0 < d < B -> 1 <= k <= d -> (B + v) * d = B * B - k -> 0 <= m <= d -> 0 <= x < d ->
  let f := ((B + v) * m + x) / B in f * d <= m * B + x < (f + 2) * d.
Proof.
  intros Hd Hk Ev Hm Hx f. pose proof (Z.div_mod ((B + v) * m + x) B ltac:(lia)) as E. pose proof (Z.mod_pos_bound ((B + v) * m + x) B ltac:(lia)) as Hr. fold f in E.
  set (r := ((B + v) * m + x) mod B) in *. clearbody f r.
  assert (B * (f * d) + r * d = B * B * m - k * m + x * d) as Ed.
  { replace (B * (f * d) + r * d) with ((B * f + r) * d) by lia. rewrite <- E. replace (((B + v) * m + x) * d) with ((B + v) * d * m + x * d) by lia. rewrite Ev. lia. }
  pose proof (mul_bound r d (B - 1) d ltac:(lia) ltac:(lia)) as Hrd. pose proof (mul_bound k m d d ltac:(lia) ltac:(lia)) as Hkm.
  pose proof (mul_bound x (B - d) (d - 1) (B - d) ltac:(lia) ltac:(lia)) as Hxd. split; lia.
Qed.

(** A quotient estimated as it is or one too small is corrected by the sign of the remainder that
    is left after one more subtraction of the divisor. *)
Lemma udiv_correct N q d :
  limb_ok d -> 0 < d -> limb_ok q -> 0 <= N < d * B -> q * d <= N < (q + 2) * d ->
  let a := wrap 128 (N - q * d - d) in
  let ah := u64 (Z.shiftr a 64) in
  (u64 (q + (1 + ah)), u64 (u64 a + Z.land ah d)) = (N / d, N mod d).
Proof.
  intros Hdl Hdp Hq HNB HN. cbv zeta. pose proof Hdl as Hd. unfold limb_ok in Hd. pose proof (Z.div_mod N d ltac:(lia)) as EN. pose proof (Z.mod_pos_bound N d ltac:(lia)) as HNm. unfold limb_ok in Hq.
  destruct (Z.lt_ge_cases (N - q * d - d) 0) as [Hneg|Hpos].
  - assert (wrap 128 (N - q * d - d) = (B - 1) * B + (B + (N - q * d - d))) as ->.
    { unfold wrap. change (2 ^ 128) with (B * B). rewrite <- (Z.mod_add _ 1) by lia. rewrite Z.mod_small by lia. lia. }
    assert (Z.shiftr ((B - 1) * B + (B + (N - q * d - d))) 64 = B - 1) as ->.
    { rewrite Z.shiftr_div_pow2 by lia. change (2 ^ 64) with B. symmetry. apply (Z.div_unique _ _ _ (B + (N - q * d - d))); lia. }
    rewrite (u64_small (B - 1)) by (unfold limb_ok; lia). change (Z.land (B - 1) d) with (Z.land (2 ^ 64 - 1) d). rewrite land_ones_limb by done.
    replace (q + (1 + (B - 1))) with (q + B) by lia. rewrite u64_plus_B, u64_small by done.
    assert (u64 ((B - 1) * B + (B + (N - q * d - d))) = B + (N - q * d - d)) as ->.
    { unfold wrap. change (2 ^ 64) with B. rewrite Z.add_comm, Z.mod_add by lia. apply Z.mod_small. lia. }
    replace (B + (N - q * d - d) + d) with (N - q * d + B) by lia. rewrite u64_plus_B, u64_small by (unfold limb_ok; lia).
    f_equal; [apply (Z.div_unique N d q (N - q * d)); lia|apply (Z.mod_unique_pos N d q); lia].
  - assert (0 <= N - q * d - d < d) as Hr by lia. rewrite (wrap_small 128) by (unfold uint_ok; change (2 ^ 128) with (B * B); lia).
    assert (Z.shiftr (N - q * d - d) 64 = 0) as -> by (rewrite Z.shiftr_div_pow2 by lia; apply Z.div_small; change (2 ^ 64) with B; lia).
    rewrite (u64_small 0), Z.land_0_l by (unfold limb_ok; lia). assert (q + 1 = N / d) as Eq by (apply (Z.div_unique N d (q + 1) (N - q * d - d)); lia).
    assert (N / d < B) by (apply Z.div_lt_upper_bound; lia). rewrite (u64_small (N - q * d - d)), !Z.add_0_r by (unfold limb_ok; lia).
    rewrite (u64_small (N - q * d - d)), (u64_small (q + 1)) by (unfold limb_ok; lia).
    f_equal; [lia|]. apply (Z.mod_unique_pos N d (q + 1)); lia.
Qed.

Lemma udiv1norm_ok a1 a0 d : B / 2 <= d < B -> 0 <= a1 < d -> limb_ok a0 -> udiv1norm a1 a0 d (udiv1norm_init d) = ((a1 * B + a0) / d, (a1 * B + a0) mod d).
Proof.
  intros Hd Ha1 Ha0. destruct (udiv1norm_init_ok d Hd) as (k & Hv & Hk & Ev). set (v := udiv1norm_init d) in *. clearbody v.
  change (B / 2) with 9223372036854775808 in Hd. unfold limb_ok in Hv. assert (limb_ok d) as Hdl by (unfold limb_ok; lia).
  set (s := Z.b2z (Z.testbit a0 63)). assert (0 <= s <= 1 /\ (s = 1 <-> B / 2 <= a0)) as (Hs & Hs1).
  { unfold s. change (B / 2) with (2 ^ 63). unfold limb_ok in Ha0. rewrite Z.testbit_eqb by lia. destruct (Z.eqb_spec ((a0 / 2 ^ 63) mod 2) 1) as [E|E]; simpl Z.b2z.
    - split; [lia|]. split; [|done]. intros _. destruct (Z.le_gt_cases (2 ^ 63) a0); [done|]. rewrite Z.div_small in E by lia. done.
    - split; [lia|]. split; [done|]. intros H. exfalso. apply E. assert (a0 / 2 ^ 63 = 1) as ->; [|done]. symmetry. apply (Z.div_unique _ _ _ (a0 - 2 ^ 63)); lia. }
  change (B / 2) with 9223372036854775808 in Hs1. unfold udiv1norm.
  replace (if Z.testbit a0 63 then 2 ^ 64 - 1 else 0) with (s * (2 ^ 64 - 1)) by (unfold s; by destruct (Z.testbit a0 63)).
  assert (Z.land (s * (2 ^ 64 - 1)) d = s * d) as ->.
  { assert (s = 0 \/ s = 1) as [-> | ->] by lia; rewrite ?Z.mul_0_l, ?Z.mul_1_l; [done|by apply land_ones_limb]. }
  clearbody s. unfold limb_ok in Ha0. set (x := u64 (a0 + s * d)). assert (x = a0 + s * d - s * B /\ 0 <= x < d) as (Ex & Hx).
  { unfold x. assert (s = 0 \/ s = 1) as [-> | ->] by lia; rewrite ?Z.mul_0_l, ?Z.mul_1_l.
    - rewrite u64_small by (unfold limb_ok; lia). lia.
    - replace (a0 + d) with (a0 + d - B + B) by lia. rewrite u64_plus_B, u64_small by (unfold limb_ok; lia). lia. }
  set (m := u64 (a1 - s * (2 ^ 64 - 1))). assert (m = a1 + s) as Em.
  { unfold m. change (2 ^ 64) with B. assert (s = 0 \/ s = 1) as [-> | ->] by lia.
    - rewrite u64_small by (unfold limb_ok; lia). lia.
    - rewrite <- u64_plus_B, u64_small by (unfold limb_ok; lia). lia. }
  clearbody x m. subst m. pose proof (udiv_estimate d v k (a1 + s) x) as Hest. cbv zeta in Hest. specialize (Hest ltac:(lia) Hk Ev ltac:(lia) Hx).
  pose proof (mul_bound v (a1 + s) (B - 1) d ltac:(lia) ltac:(lia)) as Hvm.
  destruct (dlimb_split (v * (a1 + s) + x)) as (-> & Hh & Esp); [lia|]. set (h := Z.shiftr (v * (a1 + s) + x) 64) in *.
  assert (((B + v) * (a1 + s) + x) / B = (a1 + s) + h) as Ef.
  { replace ((B + v) * (a1 + s) + x) with ((v * (a1 + s) + x) + (a1 + s) * B) by lia. rewrite Z.div_add by lia. unfold h. rewrite Z.shiftr_div_pow2 by lia. change (2 ^ 64) with B. lia. }
  rewrite Ef in Hest. clearbody h. unfold limb_ok in Hh. set (N := a1 * B + a0). assert ((h + a1) * d <= N < (h + a1 + 2) * d) as HN by (unfold N; lia).
  assert (limb_ok (h + a1)) as Hq by (split; [lia|]; apply (Z.mul_lt_mono_pos_r d); unfold N in *; lia). rewrite (u64_small (h + a1)), lor_limbs by done. fold N. clear Hest Ef Esp.
  assert (0 <= N < d * B) as HNB by (unfold N; lia). clearbody N. clear Ev Hk Hs Hs1 Ex.
  apply udiv_correct; try done; lia.
Qed.

Lemma mp_div1norm_ok taba b r : limbs_ok taba -> 0 <= r < b -> B / 2 <= b < B ->
  exists q r', mp_div1norm taba b r = (q, r') /\ limbs_ok q /\ length q = length taba /\ 0 <= r' < b /\ val taba + Bn (length taba) * r = val q * b + r'.
Proof.
  intros H Hr Hb. unfold mp_div1norm. destruct (UDIV1NORM_THRESHOLD <=? length taba)%nat; [|apply mp_div1_ok; [done..|unfold limb_ok; lia]].
  induction H as [|a taba Ha H IH]; cbn [div1norm_loop val length].
  { exists [], r. rewrite Bn_0. split; [done|]. split; [apply Forall_nil_2|]. split; [done|]. split; [done|]. simpl. lia. }
  destruct IH as (q & r1 & -> & Hq & Eq & Hr1 & E). rewrite udiv1norm_ok by done. pose proof (Z.div_mod (r1 * B + a) b ltac:(lia)) as Ed.
  pose proof (Z.mod_pos_bound (r1 * B + a) b ltac:(lia)) as Hm. unfold limb_ok in Ha.
  assert (0 <= (r1 * B + a) / b < B) as Hd by (split; [apply Z.div_pos; lia|apply Z.div_lt_upper_bound; lia]).
  eexists (_ :: q), _. rewrite Bn_S. cbn [val length]. split; [reflexivity|]. split; [by constructor|]. split; [lia|]. split; [done|]. nia.
Qed.

Lemma high_ge_ok a b : limbs_ok a -> limbs_ok b -> length a = length b -> high_ge (rev a) (rev b) = (val b <=? val a).
Proof.
  revert b. induction a as [|x a IH] using rev_ind; intros b Ha Hb El.
  { by destruct b. }
  destruct b as [|y b _] using rev_ind; [rewrite length_app in El; simpl in El; lia|]. rewrite !length_app in El. simpl in El.
  apply limbs_snoc in Ha as [Ha Hx], Hb as [Hb Hy]. rewrite !rev_app_distr, !val_app. cbn [rev app high_ge val].
  pose proof (val_bound a Ha). pose proof (val_bound b Hb) as Hvb. assert (length a = length b) as Elb by lia. rewrite <- Elb in Hvb |- *. pose proof (Bn_pos (length a)).
  destruct (Z.eqb_spec x y) as [->|Hn].
  - rewrite IH by (done || lia). destruct (Z.leb_spec (val b) (val a)), (Z.leb_spec (val b + Bn (length a) * (y + B * 0)) (val a + Bn (length a) * (y + B * 0))); lia.
  - destruct (Z.ltb_spec x y), (Z.leb_spec (val b + Bn (length a) * (y + B * 0)) (val a + Bn (length a) * (x + B * 0))); simpl; try done; nia.
Qed.

Section divisor.
Context (tabb : list Z) (lowb : list Z) (b1 : Z).
Context (Hb : limbs_ok tabb) (Etabb : tabb = lowb ++ [b1]) (Hb1 : B / 2 <= b1 < B).
Let nb := length tabb.
Let b := val tabb.

Lemma divisor_bounds : b = val lowb + Bn (length lowb) * b1 /\ 0 <= val lowb < Bn (length lowb) /\ Bn nb = B * Bn (length lowb) /\ Bn nb <= 2 * b /\ 0 < b < Bn nb.
Proof.
  assert (limbs_ok lowb) as Hl by (rewrite Etabb in Hb; apply limbs_app in Hb; tauto). pose proof (val_bound lowb Hl). pose proof (val_bound tabb Hb) as Hv. fold b nb in Hv.
  assert (b = val lowb + Bn (length lowb) * b1) as E by (unfold b; rewrite Etabb, val_app; cbn [val]; lia).
  assert (Bn nb = B * Bn (length lowb)) as En by (unfold nb; rewrite Etabb, length_app, Bn_add; cbn [length]; rewrite Bn_S, Bn_0; lia).
  change (B / 2) with 9223372036854775808 in Hb1. pose proof (Bn_pos (length lowb)). split_and!; try done; try lia; nia.
Qed.

(** The limb that is tried is too large by at most two. *)
Lemma trial_quotient low next top : limbs_ok low -> length low = length lowb -> limb_ok next -> limb_ok top ->
  let N := val low + Bn (length low) * (next + B * top) in N < B * b ->
  let q := if b1 <=? top then B - 1 else (top * B + next) / b1 in limb_ok q /\ - (2 * b) < N - q * b < b.
Proof.
  intros Hl El Hn Ht N HN q. destruct divisor_bounds as (Eb & Hlb & En & H2 & Hb0). pose proof (val_bound low Hl) as Hlow. unfold N, q in *. rewrite El in *.
  set (M := Bn (length lowb)) in *. change (B / 2) with 9223372036854775808 in Hb1. unfold limb_ok in *. destruct (Z.leb_spec b1 top) as [H|H].
  - split; [lia|]. assert (top = b1) as -> by nia. split; nia.
  - set (A := top * B + next). pose proof (Z.div_mod A b1 ltac:(lia)) as EA. pose proof (Z.mod_pos_bound A b1 ltac:(lia)) as HA.
    assert (0 <= A / b1 < B) as Hd by (unfold A; split; [apply Z.div_pos; lia|apply Z.div_lt_upper_bound; nia]). split; [done|].
    replace (next + B * top) with A by (unfold A; lia). set (d := A / b1) in *. set (e := A mod b1) in *. clearbody d e A.
    pose proof (mul_bound d (val lowb) (B - 1) (M - 1) ltac:(lia) ltac:(lia)) as H3. assert (M * A = M * b1 * d + M * e) as H5 by (rewrite EA; lia).
    pose proof (mul_bound M e M (b1 - 1) ltac:(lia) ltac:(lia)) as H6. rewrite Eb in *. split; lia.
Qed.

Lemma correct_loop_ok fuel part top Q N : limbs_ok part -> length part = nb -> limb_ok top -> - (Z.of_nat fuel * b) <= N - Q * b < 0 ->
  val part + Bn nb * top = N - Q * b + B * Bn nb ->
  exists part', correct_loop fuel part tabb top (u64 Q) = Ret (part', 0, u64 (N / b)) /\ limbs_ok part' /\ length part' = nb /\ val part' = N mod b.
Proof.
  destruct divisor_bounds as (Eb & Hlb & En & H2 & Hb0). revert part top Q. induction fuel as [|fuel IH]; intros part top Q Hp Ep Ht HD E; [lia|]. cbn [correct_loop].
  destruct (mp_add_ok part tabb 0 Hp Hb Ep ltac:(lia)) as (part1 & c & -> & Hp1 & Ep1 & Hc & E1). fold b in E1. rewrite Ep in *. pose proof (val_bound part1 Hp1) as Hv. rewrite Ep1 in Hv.
  assert (u64 (u64 Q - 1) = u64 (Q - 1)) as -> by (unfold wrap; by rewrite Zminus_mod_idemp_l). unfold limb_ok in Ht.
  assert (val part1 + Bn nb * (top + c) = N - (Q - 1) * b + B * Bn nb) as E2 by lia.
  destruct (Z.lt_ge_cases (N - (Q - 1) * b) 0) as [Hneg|Hpos].
  - assert (top + c < B) as Hlt by (apply (high_lt (Bn nb) (val part1)); lia). destruct (Z.eqb_spec c 0) as [->|Hc0]; cbn [negb].
    + apply IH; [done..|nia|lia].
    + rewrite u64_small by (unfold limb_ok; lia). destruct (Z.eqb_spec (top + 1) 0); [lia|]. assert (c = 1) as -> by lia. apply IH; [done..|unfold limb_ok; lia|nia|lia].
  - assert (top + c = B) as Htop.
    { assert (B <= top + c); [|lia]. enough (0 <= top + c - B) by lia. apply (high_ge_0 (Bn nb) (val part1)); lia. }
    rewrite Htop in E2. assert (c = 1) as -> by lia. cbn [Z.eqb negb]. replace (top + 1) with (0 + B) by lia.
    rewrite u64_plus_B, u64_small by (unfold limb_ok; lia). cbn [Z.eqb]. exists part1. assert (val part1 = N - (Q - 1) * b) as Ev by lia.
    rewrite <- (Z.div_unique N b (Q - 1) (val part1)) by lia. split; [done|]. split; [done|]. split; [done|]. apply (Z.mod_unique_pos N b (Q - 1)); lia.
Qed.

Lemma div_step_ok part top b1_inv : limbs_ok part -> length part = nb -> limb_ok top -> val part + Bn nb * top < B * b -> b1_inv = 0 \/ b1_inv = udiv1norm_init b1 ->
  let N := val part + Bn nb * top in
  exists part', div_step part tabb top b1 b1_inv = Ret (N / b, part', 0) /\ limbs_ok part' /\ length part' = nb /\ val part' = N mod b /\ limb_ok (N / b).
Proof.
  intros Hp Ep Ht HN Hinv N. destruct divisor_bounds as (Eb & Hlb & En & H2 & Hb0). fold N in HN.
  assert (length tabb = S (length lowb)) as Enb by (rewrite Etabb, length_app; simpl; lia). fold nb in Enb.
  destruct part as [|next low _] using rev_ind; [simpl in Ep; lia|]. rewrite length_app in Ep. simpl in Ep. apply limbs_snoc in Hp as [Hlow Hnext].
  assert (N = val low + Bn (length low) * (next + B * top)) as EN by (unfold N; rewrite val_app, En; replace (length lowb) with (length low) by lia; cbn [val]; lia).
  destruct (trial_quotient low next top Hlow ltac:(lia) Hnext Ht) as (Hq & HD); [by rewrite <- EN|]. rewrite <- EN in HD. set (q := if b1 <=? top then B - 1 else (top * B + next) / b1) in *.
  assert (0 <= N) as HN0 by (rewrite EN; pose proof (val_bound low Hlow); pose proof (Bn_pos (length low)); unfold limb_ok in *; nia).
  assert (limb_ok (N / b)) as HqN by (unfold limb_ok; split; [apply Z.div_pos; lia|apply Z.div_lt_upper_bound; lia]).
  unfold div_step. rewrite limb_app by (fold nb; lia). cbn [mbind outcome_bind].
  match goal with |- context [let '(_, _) := mp_sub_mul1 _ _ ?x in _] => assert (x = q) as -> end.
  { unfold q. destruct (Z.leb_spec b1 top) as [H|H]; [done|]. unfold limb_ok in Ht. destruct (Z.eqb_spec b1_inv 0) as [E|E]; cbn [negb].
    - rewrite lor_limbs by done. unfold q in Hq. destruct (Z.leb_spec b1 top); [lia|]. by apply u64_small.
    - destruct Hinv as [| ->]; [done|]. by rewrite udiv1norm_ok by (done || lia). }
  clearbody q. assert (limbs_ok (low ++ [next])) as Hp by by apply limbs_snoc.
  destruct (mp_sub_mul1_ok (low ++ [next]) tabb q Hp Hb) as (part1 & r & -> & Hp1 & Ep1 & Hr & E1); [rewrite length_app; simpl; fold nb; lia|done|]. fold b nb in E1, Ep1.
  assert (val part1 + Bn nb * (top - r) = N - q * b) as E2 by (unfold N; lia). pose proof (val_bound part1 Hp1) as Hv. rewrite Ep1 in Hv. unfold limb_ok in Ht, Hr.
  rewrite u64_sub by (unfold limb_ok; lia). destruct (Z.ltb_spec top r) as [Hlt|Hge]; simpl Z.b2z.
  - destruct (Z.ltb_spec top (top - r + B * 1)); [|lia]. destruct (correct_loop_ok correct_fuel part1 (top - r + B * 1) q N Hp1 Ep1) as (part' & E & Hp' & Ep' & Ev').
    { unfold limb_ok. lia. } { split; [unfold correct_fuel; lia|]. apply Z.nle_gt. intros H0. rewrite <- E2 in H0. apply high_ge_0 in H0; [lia|done]. } { lia. }
    rewrite (u64_small q Hq) in E. rewrite E. cbn [mbind outcome_bind]. exists part'. rewrite u64_small by done. done.
  - destruct (Z.ltb_spec top (top - r + B * 0)); [lia|]. assert (0 <= N - q * b) by (rewrite <- E2; pose proof (mul_bound (Bn nb) (top - r) (Bn nb) (top - r)); lia).
    assert (top - r < 1) as Etr' by (apply (high_lt (Bn nb) (val part1)); lia). assert (top - r = 0) as Etr by lia.
    assert (q = N / b) as <- by (apply (Z.div_unique N b q (N - q * b)); lia). exists part1. rewrite Etr. split; [done|]. split; [done|]. split; [done|]. split; [|done].
    apply (Z.mod_unique_pos N b q); lia.
Qed.

(** The main loop: [R], the limbs from the [i]th, is below the divisor. *)
Lemma div_loop_ok i tabq lo R rest b1_inv : limbs_ok lo -> length lo = i -> limbs_ok R -> length R = nb -> val R < b -> (i <= length tabq)%nat ->
  b1_inv = 0 \/ b1_inv = udiv1norm_init b1 ->
  exists q R' rest', div_loop i tabq (lo ++ R ++ rest) tabb b1 b1_inv = Ret (q ++ drop i tabq, R' ++ rest') /\
    limbs_ok q /\ length q = i /\ limbs_ok R' /\ length R' = nb /\ length rest' = (i + length rest)%nat /\ val lo + Bn i * val R = val q * b + val R' /\ val R' < b.
Proof.
  intros Hlo. revert i tabq R rest. induction lo as [|x lo IH] using rev_ind; intros i tabq R rest Ei HR ER Hlt Hq Hinv.
  { simpl in Ei. subst i. exists [], R, rest. cbn [div_loop app length val]. rewrite drop_0, Bn_0. split; [done|]. split; [apply Forall_nil_2|]. split_and!; try done; lia. }
  rewrite length_app in Ei. simpl in Ei. destruct i as [|i]; [lia|]. apply limbs_snoc in Hlo as [Hlo Hx]. destruct divisor_bounds as (Eb & Hlb & En & H2 & Hb0).
  destruct R as [|top R _] using rev_ind; [pose proof (Bn_pos (length lowb)); simpl in ER; rewrite <- ER, Bn_0 in En; lia|].
  apply limbs_snoc in HR as [HR Ht]. rewrite length_app in ER. simpl in ER. set (part := x :: R).
  assert (limbs_ok part) as Hp by by constructor. assert (length part = nb) as Ep by (simpl; lia).
  assert (val part + Bn nb * top = x + B * val (R ++ [top])) as EN.
  { unfold part. rewrite val_app. cbn [val]. replace nb with (S (length R)) by lia. rewrite Bn_S. lia. }
  replace ((lo ++ [x]) ++ (R ++ [top]) ++ rest) with (lo ++ part ++ [top] ++ rest) by (unfold part; by rewrite <- !app_assoc). cbn [div_loop].
  assert (length lo = i) as Ei' by lia. fold nb.
  assert (limb (lo ++ part ++ [top] ++ rest) (i + nb) = Ret top) as -> by (rewrite app_assoc; apply limb_app; rewrite length_app; lia). cbn [mbind outcome_bind].
  rewrite slice_app by done. cbn [mbind outcome_bind]. unfold limb_ok in Hx.
  destruct (div_step_ok part top b1_inv Hp Ep Ht) as (part' & E & Hp' & Ep' & Ev' & Hq'); [rewrite EN; lia|done|]. rewrite E. cbn [mbind outcome_bind].
  rewrite splice_app by (done || lia). cbn [mbind outcome_bind]. rewrite app_assoc, splice_app by (rewrite ?length_app; done || lia). cbn [mbind outcome_bind]. rewrite <- app_assoc.
  set (q := (val part + Bn nb * top) / b) in *. destruct (split_at tabq i 1) as (q0 & q1 & q2 & -> & Eq0 & Eq1); [lia|].
  rewrite splice_app by done. cbn [mbind outcome_bind]. pose proof (Z.mod_pos_bound (val part + Bn nb * top) b ltac:(lia)) as Hm.
  destruct (IH Hlo i (q0 ++ [q] ++ q2) part' ([0] ++ rest)) as (qs & R' & rest' & E2 & Hqs & Eqs & HR' & ER' & Erest & Ev & Hlt'); [done|done|done|lia|rewrite !length_app; lia|done|].
  rewrite E2. exists (qs ++ [q]), R', rest'. replace (drop i (q0 ++ [q] ++ q2)) with ([q] ++ q2) by (rewrite <- Eq0; by rewrite drop_app_length).
  replace (drop (S i) (q0 ++ q1 ++ q2)) with q2 by (rewrite app_assoc, drop_app_length'; [done|rewrite length_app; lia]). rewrite <- app_assoc. split; [done|].
  rewrite limbs_snoc, !length_app, (val_app lo), (val_app qs), Eqs, Bn_S. simpl length. split; [done|]. split; [lia|]. split; [done|]. split; [done|]. split; [simpl in Erest; lia|]. split; [|done].
  pose proof (Z.div_mod (val part + Bn nb * top) b ltac:(lia)) as Ed. fold q in Ed. rewrite EN in Ed at 1. rewrite Ei'. cbn [val]. rewrite Ev' in Ev.
  assert (Bn i * (x + B * val (R ++ [top])) = Bn i * (b * q + (val part + Bn nb * top) mod b)) as Em by congruence. lia.
Qed.
End divisor.

Lemma mp_divnorm_ok tabq taba na tabb lowb b1 : tabb = lowb ++ [b1] -> limbs_ok tabb -> B / 2 <= b1 -> (length tabb <= na <= length taba)%nat -> limbs_ok (take na taba) ->
  (na - length tabb < length tabq)%nat ->
  exists q R rest, mp_divnorm tabq taba na tabb = Ret (q ++ drop (S (na - length tabb)) tabq, R ++ rest) /\
    limbs_ok q /\ length q = S (na - length tabb) /\ limbs_ok R /\ length R = length tabb /\ length (R ++ rest) = length taba /\
    val q = val (take na taba) / val tabb /\ val R = val (take na taba) mod val tabb.
Proof.
  intros Eb Hb Hb1 Hna Ha Hq. assert (limb_ok b1) as Hb1l by (rewrite Eb in Hb; apply limbs_snoc in Hb; tauto). unfold limb_ok in Hb1l.
  destruct (divisor_bounds tabb lowb b1 Hb Eb ltac:(lia)) as (Ebv & Hlb & En & H2 & Hb0). unfold mp_divnorm.
  assert (length tabb = S (length lowb)) as Enb by (rewrite Eb, length_app; simpl; lia).
  assert (limb tabb (length tabb - 1) = Ret b1) as -> by (rewrite Eb at 1; apply limb_app; lia). cbn [mbind outcome_bind].
  destruct (Nat.eqb_spec (length tabb) 1) as [E1|E1].
  - destruct (split_at taba 0 na) as (lo & a & rest & -> & Elo & Ea); [lia|]. destruct lo; [|done]. cbn [app] in *. rewrite take_app_length' in * by done.
    change (a ++ rest) with ([] ++ a ++ rest). rewrite slice_app by done. cbn [mbind outcome_bind].
    assert (val tabb = b1) as Evb by (rewrite Ebv; assert (length lowb = 0%nat) as -> by lia; rewrite Bn_0; destruct lowb; [simpl; lia|simpl in Enb; lia]).
    change (B / 2) with 9223372036854775808 in Hb1.
    destruct (mp_div1norm_ok a b1 0 Ha) as (q & r & -> & Hqq & Eq & Hr & Ev); [lia|change (B / 2) with 9223372036854775808; lia|].
    destruct (split_at tabq 0 na) as (lo & q0 & q1 & -> & Elo' & Eq0); [lia|]. destruct lo; [|done]. cbn [app] in *. change (q0 ++ q1) with ([] ++ q0 ++ q1) at 1. rewrite splice_app by (done || lia).
    cbn [mbind outcome_bind app]. destruct a as [|a0 a]; [simpl in Ea; lia|]. change ((a0 :: a) ++ rest) with ([] ++ [a0] ++ (a ++ rest)). rewrite splice_app by done. cbn [mbind outcome_bind].
    exists q, [r], (a ++ rest). replace (S (na - length tabb)) with na by lia. rewrite drop_app_length' by done. split; [done|]. split; [done|]. split; [lia|].
    split; [constructor; [unfold limb_ok; lia|apply Forall_nil_2]|]. split; [done|]. split; [done|]. rewrite Evb. rewrite Z.mul_0_r, Z.add_0_r in Ev.
    split; [apply (Z.div_unique _ b1 _ r); lia|replace (val [r]) with r by (cbn [val]; lia); apply (Z.mod_unique_pos _ b1 (val q)); lia].
  - set (n := (na - length tabb)%nat) in *. destruct (split_at taba n (length tabb)) as (lo & high & rest & -> & Elo & Eh); [lia|].
    assert (take na (lo ++ high ++ rest) = lo ++ high) as Et by (rewrite app_assoc; apply take_app_length'; rewrite length_app; lia). rewrite Et in *. apply limbs_app in Ha as [Hlo Hhigh].
    rewrite slice_app by done. cbn [mbind outcome_bind]. rewrite high_ge_ok by (done || lia). pose proof (val_bound high Hhigh) as Hv. rewrite Eh in Hv.
    destruct (split_at tabq n 1) as (q0 & q1 & q2 & -> & Eq0 & Eq1); [lia|]. rewrite (splice_app q0 q1) by done. cbn [mbind outcome_bind].
    set (c := val tabb <=? val high). assert (exists R, (if c then splice (lo ++ high ++ rest) n (mp_sub high tabb 0).1 else Ret (lo ++ high ++ rest)) = Ret (lo ++ R ++ rest) /\
      limbs_ok R /\ length R = length tabb /\ val R = val high - Z.b2z c * val tabb /\ val R < val tabb) as (R & ER & HR & LR & VR & Hlt).
    { unfold c. destruct (Z.leb_spec (val tabb) (val high)) as [Hc|Hc]; [|exists high; split_and!; try done; simpl; lia].
      destruct (mp_sub_ok high tabb 0 Hhigh Hb Eh ltac:(lia)) as (R & k & E & HR & LR & Hk & Ev). rewrite E. simpl fst. exists R. rewrite splice_app by done.
      pose proof (val_bound R HR) as HvR. rewrite LR, Eh in *. assert (k <= 0) by (apply Z.lt_succ_r; apply (high_lt (Bn (length tabb)) (val high - val tabb)); lia).
      assert (k = 0) as -> by lia. split_and!; try done; simpl; lia. }
    rewrite ER. cbn [mbind outcome_bind]. change (B / 2) with 9223372036854775808 in Hb1.
    destruct (div_loop_ok tabb lowb b1 Hb Eb ltac:(change (B / 2) with 9223372036854775808; lia) n (q0 ++ [Z.b2z c] ++ q2) lo R rest
      (if (UDIV1NORM_THRESHOLD <=? n)%nat then udiv1norm_init b1 else 0)) as (q & R' & rest' & E & Hqq & Eq & HR' & ER' & Erest & Ev & Hlt'); [done..|rewrite !length_app; lia|destruct (UDIV1NORM_THRESHOLD <=? n)%nat; [by right|by left]|].
    exists (q ++ [Z.b2z c]), R', rest'. rewrite E. replace (drop n (q0 ++ [Z.b2z c] ++ q2)) with ([Z.b2z c] ++ q2) by (rewrite <- Eq0; by rewrite drop_app_length).
    replace (drop (S n) (q0 ++ q1 ++ q2)) with q2 by (rewrite app_assoc, drop_app_length'; [done|rewrite length_app; lia]). rewrite <- app_assoc. split; [done|].
    rewrite limbs_snoc, !length_app, !val_app, Eq, Elo. cbn [val length]. pose proof (val_bound R' HR') as HvR'. split; [split; [done|destruct c; done]|].
    split; [lia|]. split; [done|]. split; [done|]. split; [rewrite !length_app in *; lia|].
    assert (val lo + Bn n * val high = val tabb * (val q + Bn n * Z.b2z c) + val R') as Em by lia.
    split; [apply (Z.div_unique _ _ _ (val R')); lia|apply (Z.mod_unique_pos _ _ (val q + Bn n * Z.b2z c)); lia].
Qed.
