(* ===== verification/BigInt.v ===== *)
(** The big integers of scripts, deps/quickjs/quickjs.c: [js_bigint_new] to [js_bigint_cmp].

    A [JSBigInt] is its array of limbs, least significant first, in two's complement; arrays
    are not empty. Functions throw a RangeError when a number gets too large, for a division by
    zero and for a negative exponent; memory does not run out. What a new array holds before it
    is written is [fresh], which may be anything.

    Part 1 is the code, Part 2 the value of a number, Part 3 what each function computes. *)

From S2P Require Import Prelude Limbs.

(** ** Part 1: the code *)

(** Exceptions, and results that may be one. *)
Inductive js_exn := TooLarge | DivisionByZero | NegativeExponent | UnaryPlus.

Abbreviation throws A := (outcome (js_exn + A)%type).
Definition js_bind {A B} (m : throws A) (k : A -> throws B) : throws B :=
  match m with Ret (inr a) => k a | Ret (inl e) => Ret (inl e) | AssertFail => AssertFail | UB => UB end.
Notation "x ⇐ m ; k" := (js_bind m (fun x => k)) (at level 20, m at level 100, k at level 200, right associativity) : capy_scope.
Abbreviation ok a := (Ret (inr a)).
Abbreviation throw e := (Ret (inl e)).

Section Code.
Context (fresh : nat -> list Z).

Definition JS_BIGINT_MAX_SIZE : Z := 16384.

Definition js_bigint_new (len : nat) : throws (list Z) :=
  if JS_BIGINT_MAX_SIZE <? Z.of_nat len then throw TooLarge else ok (fresh len).

Definition js_bigint_set_si (a : Z) : list Z := [u64 a].
Definition js_bigint_new_si (a : Z) : throws (list Z) := _ ⇐ js_bigint_new 1; ok [u64 a].
Definition js_bigint_new_ui64 (a : Z) : throws (list Z) :=
  if a <=? 2 ^ 63 - 1 then js_bigint_new_si a else _ ⇐ js_bigint_new 2; ok [a; 0].

(** The test of [js_bigint_normalize1] and [js_bigint_extend]: the limb [v] above [w] only repeats
    the sign. *)
Definition redundant (v w : Z) : bool := ((v =? 0) || (v =? 2 ^ 64 - 1)) && (Z.land v 1 =? Z.shiftr w 63).

Fixpoint strip (high_first : list Z) : list Z :=
  match high_first with
  | v :: ((w :: _) as l) => if redundant v w then strip l else high_first
  | l => l
  end.
Definition js_bigint_normalize (a : list Z) : list Z := rev (strip (rev a)).
Definition js_bigint_normalize1 (a : list Z) (l : nat) : list Z := js_bigint_normalize (take l a).

Definition top_limb (a : list Z) : Z := default 0 (list.last a).
Definition js_bigint_sign (a : list Z) : bool := Z.testbit (top_limb a) 63.

Definition js_bigint_get_si_sat (a : list Z) : Z :=
  match a with [x] => if Z.testbit x 63 then x - 2 ^ 64 else x | _ => if js_bigint_sign a then - 2 ^ 63 else 2 ^ 63 - 1 end.

Definition js_bigint_extend (r : list Z) (op1 : Z) : list Z := if redundant op1 (top_limb r) then js_bigint_normalize r else r ++ [op1].

(** The loops of [js_bigint_add], over the two operands of each [ADDC]. *)
Definition flip_limb (b_neg : bool) (x : Z) : Z := if b_neg then 2 ^ 64 - 1 - x else x.
Fixpoint add_loop (ops : list (Z * Z)) (carry : Z) : list Z * Z :=
  match ops with
  | [] => ([], carry)
  | (op1, op2) :: ops => let '(r, carry) := ADDC op1 op2 carry in let '(rs, carry) := add_loop ops carry in (r :: rs, carry)
  end.
Definition sign_limb (s : bool) : Z := if s then 2 ^ 64 - 1 else 0.

Definition js_bigint_add (a b : list Z) (b_neg : bool) : throws (list Z) :=
  _ ⇐ js_bigint_new (max (length a) (length b));
  let n1 := min (length a) (length b) in
  let '(r, carry) := add_loop (zip (take n1 a) (map (flip_limb b_neg) (take n1 b))) (Z.b2z b_neg) in
  let a_sign := sign_limb (js_bigint_sign a) in
  let b_sign := flip_limb b_neg (sign_limb (js_bigint_sign b)) in
  let '(r', carry) :=
    if (length b <? length a)%nat then add_loop (map (fun op1 => (op1, b_sign)) (drop n1 a)) carry
    else add_loop (map (fun x => (a_sign, flip_limb b_neg x)) (drop n1 b)) carry in
  ok (js_bigint_extend (r ++ r') (u64 (a_sign + b_sign + carry))).

Definition js_bigint_neg (a : list Z) : throws (list Z) := js_bigint_add (js_bigint_set_si 0) a true.

Definition sub_at (r : list Z) (i : nat) (b : list Z) : outcome (list Z) := part ← slice r i (length b); splice r i (mp_sub part b 0).1.

Definition js_bigint_mul (a b : list Z) : throws (list Z) :=
  r ⇐ js_bigint_new (length a + length b);
  r ← mp_mul_basecase r a b;
  r ← (if js_bigint_sign a then sub_at r (length a) b else Ret r);
  r ← (if js_bigint_sign b then sub_at r (length b) a else Ret r);
  ok (js_bigint_normalize r).

(** The absolute value, and its length without leading zeros. *)
Definition mp_abs (a : list Z) (sign : bool) : list Z := if sign then (mp_neg a).1 else a.
Fixpoint trim (high_first : list Z) : list Z :=
  match high_first with v :: ((_ :: _) as l) => if v =? 0 then trim l else high_first | l => l end.
Definition trim_len (a : list Z) : nat := length (trim (rev a)).

(** The shift that normalizes the divisor, applied to both: divisor, dividend and the length of
    the dividend. *)
Definition normalize_divisor (tabb r : list Z) (na : nat) (shift : Z) : outcome (list Z * list Z * nat) :=
  if shift =? 0 then Ret (tabb, r, na)
  else
    let tabb := (mp_shl tabb shift).1 in
    part ← slice r 0 na;
    let '(part, h) := mp_shl part shift in
    r ← splice r 0 part;
    if h =? 0 then Ret (tabb, r, na) else r ← splice r na [h]; Ret (tabb, r, S na).

Definition js_bigint_divrem (a b : list Z) (is_rem : bool) : throws (list Z) :=
  if bool_decide (b = [0]) then throw DivisionByZero
  else
    let a_sign := js_bigint_sign a in
    let b_sign := js_bigint_sign b in
    r ⇐ js_bigint_new (length a + 2);
    r ← splice r 0 (mp_abs a a_sign);
    let na := trim_len (mp_abs a a_sign) in
    let nb := trim_len (mp_abs b b_sign) in
    let tabb := take nb (mp_abs b b_sign) in
    if (na <? nb)%nat then
      if is_rem then _ ⇐ js_bigint_new (length a); ok a else js_bigint_new_si 0
    else
      high ← limb tabb (nb - 1);
      let shift := js_limb_clz high in
      '(tabb, r, na) ← normalize_divisor tabb r na shift;
      q ⇐ js_bigint_new (na - nb + 2);
      '(q, r) ← mp_divnorm q r na tabb;
      if is_rem then
        part ← slice r 0 nb;
        r ← splice r 0 (if shift =? 0 then part else (mp_shr part shift 0).1);
        r ← splice r nb [0];
        part ← slice r 0 (S nb);
        r ← (if a_sign then splice r 0 (mp_neg part).1 else Ret r);
        ok (js_bigint_normalize1 r (S nb))
      else
        q ← splice q (na - nb + 1) [0];
        ok (js_bigint_normalize (if xorb a_sign b_sign then (mp_neg q).1 else q)).

(** and, or, xor *)
Inductive logic_op := OP_or | OP_and | OP_xor.
Definition logic (op : logic_op) : Z -> Z -> Z := match op with OP_or => Z.lor | OP_and => Z.land | OP_xor => Z.lxor end.
Fixpoint logic_loop (f : Z -> Z -> Z) (a b : list Z) (b_sign : Z) : list Z :=
  match a, b with
  | x :: a, y :: b => f x y :: logic_loop f a b b_sign
  | x :: a, [] => f x b_sign :: logic_loop f a [] b_sign
  | [], _ => []
  end.
Definition js_bigint_logic (a b : list Z) (op : logic_op) : throws (list Z) :=
  let '(a, b) := if (length a <? length b)%nat then (b, a) else (a, b) in
  _ ⇐ js_bigint_new (length a);
  ok (js_bigint_normalize (logic_loop (logic op) a b (sign_limb (js_bigint_sign b)))).

Definition js_bigint_not (a : list Z) : throws (list Z) := _ ⇐ js_bigint_new (length a); ok (map (fun x => 2 ^ 64 - 1 - x) a).

Definition js_bigint_shl (a : list Z) (shift1 : Z) : throws (list Z) :=
  if bool_decide (a = [0]) then js_bigint_new_si 0
  else
    let d := Z.to_nat (shift1 / 64) in
    let shift := shift1 mod 64 in
    _ ⇐ js_bigint_new (length a + d);
    if shift =? 0 then ok (replicate d 0 ++ a)
    else
      let '(r, l) := mp_shl a shift in
      let l := if js_bigint_sign a then Z.lor l (u64 (Z.shiftl (2 ^ 64 - 1) shift)) else l in
      ok (js_bigint_extend (replicate d 0 ++ r) l).

Definition js_bigint_shr (a : list Z) (shift1 : Z) : throws (list Z) :=
  let d := Z.to_nat (shift1 / 64) in
  let shift := shift1 mod 64 in
  let a_sign := js_bigint_sign a in
  if (length a <=? d)%nat then js_bigint_new_si (- Z.b2z a_sign)
  else
    _ ⇐ js_bigint_new (length a - d);
    if shift =? 0 then ok (drop d a) else ok (js_bigint_normalize (mp_shr (drop d a) shift (sign_limb a_sign)).1).

(** [js_bigint_pow]: the loop over the bits of the exponent below its highest. *)
Fixpoint pow_loop (i : nat) (r a : list Z) (e : Z) : throws (list Z) :=
  match i with
  | O => ok r
  | S i =>
      r ⇐ js_bigint_mul r r;
      r ⇐ (if Z.testbit e (Z.of_nat i) then js_bigint_mul r a else ok r);
      pow_loop i r a e
  end.

(** The power of plus or minus [2^n]. *)
Definition pow2_case (n : Z) (is_neg : bool) (b : list Z) : throws (list Z) :=
  match b with
  | [b0] =>
      if 2 ^ 31 - 1 <? b0 then throw TooLarge
      else
        let e := b0 * n in
        if JS_BIGINT_MAX_SIZE * 64 <? e then throw TooLarge
        else
          let is_neg := is_neg && Z.testbit b0 0 in
          let len := Z.to_nat ((e + 64 + 1 - Z.b2z is_neg) / 64) in
          _ ⇐ js_bigint_new len;
          r ← splice (replicate len 0) (Z.to_nat (e / 64)) [u64 (Z.shiftl (u64 (1 - 2 * Z.b2z is_neg)) (e mod 64))];
          ok r
  | _ => throw TooLarge
  end.

Definition pow_general (a b : list Z) : throws (list Z) :=
  match b with
  | [e] =>
      if 2 ^ 31 - 1 <? e then throw TooLarge
      else _ ⇐ js_bigint_new (length a); pow_loop (Z.to_nat (Z.log2 e)) a a e
  | _ => throw TooLarge
  end.

Definition js_bigint_pow (a b : list Z) : throws (list Z) :=
  if js_bigint_sign b then throw NegativeExponent
  else if bool_decide (b = [0]) then js_bigint_new_si 1
  else
    match a with
    | [v] =>
        if v <=? 1 then js_bigint_new_si v
        else if v =? 2 ^ 64 - 1 then js_bigint_new_si (1 - 2 * Z.land (default 0 (head b)) 1)
        else
          let is_neg := Z.testbit v 63 in
          let v := if is_neg then u64 (- v) else v in
          if Z.land v (v - 1) =? 0 then pow2_case (63 - js_limb_clz v) is_neg b else pow_general a b
    | _ => pow_general a b
    end.

(** [js_bigint_cmp]: the loop, over limbs from the highest down. *)
Fixpoint cmp_loop (a b : list Z) : Z :=
  match a, b with
  | x :: a, y :: b => if x =? y then cmp_loop a b else if x <? y then -1 else 1
  | _, _ => 0
  end.
Definition js_bigint_cmp (a b : list Z) : Z :=
  let a_sign := js_bigint_sign a in
  if negb (Bool.eqb a_sign (js_bigint_sign b)) then 1 - 2 * Z.b2z a_sign
  else if (length a <? length b)%nat then 2 * Z.b2z a_sign - 1
  else if (length b <? length a)%nat then 1 - 2 * Z.b2z a_sign
  else cmp_loop (rev a) (rev b).
End Code.

(** ** Part 2: the value of a number *)

Local Notation B := 18446744073709551616.

Definition sval (l : list Z) : Z := val l - Bn (length l) * Z.b2z (js_bigint_sign l).

(** An array with no limb too many. *)
Definition normalized (l : list Z) : Prop :=
  match rev l with v :: w :: _ => redundant v w = false | [] => False | _ => True end.
Definition bigint_ok (l : list Z) : Prop := limbs_ok l /\ normalized l.

Lemma top_limb_snoc l x : top_limb (l ++ [x]) = x.
Proof. unfold top_limb. by rewrite last_snoc. Qed.

Lemma sign_bit x : limb_ok x -> Z.testbit x 63 = (2 ^ 63 <=? x).
Proof.
  intros Hx. unfold limb_ok in Hx. rewrite Z.testbit_odd, Z.shiftr_div_pow2 by lia.
  destruct (Z.leb_spec (2 ^ 63) x).
  - replace (x / 2 ^ 63) with 1; [done|]. apply (Z.div_unique x (2 ^ 63) 1 (x - 2 ^ 63)); lia.
  - rewrite Z.div_small by lia. done.
Qed.
Lemma sign_shift x : limb_ok x -> Z.shiftr x 63 = Z.b2z (Z.testbit x 63).
Proof.
  intros Hx. rewrite sign_bit by done. unfold limb_ok in Hx. rewrite Z.shiftr_div_pow2 by lia.
  destruct (Z.leb_spec (2 ^ 63) x); simpl Z.b2z; [|apply Z.div_small; lia]. symmetry. apply (Z.div_unique x (2 ^ 63) 1 (x - 2 ^ 63)); lia.
Qed.

Lemma sval_snoc l x :
  sval (l ++ [x]) = val l + Bn (length l) * (x - B * Z.b2z (Z.testbit x 63)).
Proof.
  unfold sval, js_bigint_sign. rewrite top_limb_snoc, val_app, length_app, Bn_add. cbn [val length].
  rewrite Bn_S, Bn_0. lia.
Qed.
Lemma sval_cons x l : l <> [] -> sval (x :: l) = x + B * sval l.
Proof.
  destruct l as [|y l _] using rev_ind; [done|]. intros _. change (x :: l ++ [y]) with ((x :: l) ++ [y]).
  rewrite !sval_snoc. cbn [val length]. rewrite Bn_S. lia.
Qed.
Lemma sval_one x : sval [x] = x - B * Z.b2z (Z.testbit x 63).
Proof. change [x] with ([] ++ [x]). rewrite sval_snoc. cbn [val length]. rewrite Bn_0. lia. Qed.

(** A number of n limbs is between [- B^n / 2] and [B^n / 2], and is determined by its limbs. *)
Lemma sval_bounds l : limbs_ok l -> l <> [] -> - Bn (length l) <= 2 * sval l < Bn (length l).
Proof.
  destruct l as [|x l _] using rev_ind; [done|]. intros [Hl Hx]%limbs_snoc _.
  rewrite sval_snoc, length_app, Bn_add. cbn [length]. rewrite Bn_S, Bn_0, sign_bit by done.
  pose proof (val_bound l Hl). unfold limb_ok in Hx.
  destruct (Z.leb_spec (2 ^ 63) x); simpl Z.b2z; nia.
Qed.
Lemma sval_unique l z k :
  limbs_ok l -> l <> [] -> - Bn (length l) <= 2 * z < Bn (length l) -> val l = z + Bn (length l) * k -> sval l = z.
Proof.
  intros Hl Hne Hz E. pose proof (sval_bounds l Hl Hne) as Hb. unfold sval in *. pose proof (Bn_pos (length l)) as HB.
  revert Hb E. generalize (Z.b2z (js_bigint_sign l)). intros s Hb E. rewrite E in *. assert (k = s); [|subst; lia]. nia.
Qed.
Lemma sval_inj l k : limbs_ok l -> limbs_ok k -> length l = length k -> l <> [] -> sval l = sval k -> l = k.
Proof.
  intros Hl Hk E Hne Es. apply val_inj; try done. assert (k <> []) as Hne' by (destruct k; [by destruct l|done]).
  pose proof (val_bound l Hl). pose proof (val_bound k Hk). unfold sval in Es. rewrite E in *. pose proof (Bn_pos (length k)).
  assert (Z.b2z (js_bigint_sign l) = Z.b2z (js_bigint_sign k)) as Eb; [|rewrite Eb in Es; lia].
  generalize dependent (Z.b2z (js_bigint_sign l)). generalize (Z.b2z (js_bigint_sign k)). intros. nia.
Qed.
Lemma sval_neg l : limbs_ok l -> l <> [] -> js_bigint_sign l = bool_decide (sval l < 0).
Proof.
  intros Hl Hne. pose proof (val_bound l Hl). pose proof (Bn_pos (length l)). unfold sval.
  case_bool_decide; destruct (js_bigint_sign l); simpl in *; lia || done.
Qed.

(** Redundant limbs do not count. *)
Lemma redundant_spec v w :
  limb_ok v -> limb_ok w -> redundant v w = true -> v = (B - 1) * Z.b2z (Z.testbit w 63).
Proof.
  intros Hv Hw [Hv01 Hb]%andb_prop. rewrite sign_shift in Hb by done. apply Z.eqb_eq in Hb.
  apply orb_prop in Hv01. destruct Hv01 as [->%Z.eqb_eq| ->%Z.eqb_eq]; destruct (Z.testbit w 63); simpl in *; try done.
Qed.
Lemma redundant_sval l v w :
  limb_ok v -> limb_ok w -> redundant v w = true -> sval ((l ++ [w]) ++ [v]) = sval (l ++ [w]).
Proof.
  intros Hv Hw Hr. pose proof (redundant_spec v w Hv Hw Hr) as Ev. rewrite !sval_snoc, val_app, length_app, Bn_add.
  cbn [val length]. rewrite Bn_S, Bn_0. rewrite (sign_bit v Hv). rewrite Ev. destruct (Z.testbit w 63); simpl; lia.
Qed.
(** A number that needs its highest limb is large. *)
Lemma not_redundant_large l v w :
  limbs_ok l -> limb_ok v -> limb_ok w -> redundant v w = false ->
  let z := sval ((l ++ [w]) ++ [v]) in Bn (S (length l)) <= 2 * z \/ 2 * z < - Bn (S (length l)).
Proof.
  intros Hl Hv Hw Hr z. subst z. rewrite !sval_snoc, val_app, length_app, Nat.add_1_r, Bn_S. cbn [val length].
  pose proof (val_bound l Hl). pose proof (Bn_pos (length l)). unfold redundant in Hr. rewrite sign_shift in Hr by done.
  rewrite (sign_bit w Hw) in Hr. rewrite (sign_bit v Hv). unfold limb_ok in *.
  destruct (Z.eqb_spec v 0) as [->|]; [destruct (Z.leb_spec (2 ^ 63) w); simpl in *; [nia|done]|].
  destruct (Z.eqb_spec v (2 ^ 64 - 1)) as [->|].
  { destruct (Z.leb_spec (2 ^ 63) w); simpl in *; [done|nia]. }
  destruct (Z.leb_spec (2 ^ 63) v); simpl; nia.
Qed.

(** Normalization and extension keep the number. *)
Lemma strip_ok l :
  limbs_ok l -> l <> [] ->
  limbs_ok (strip l) /\ strip l <> [] /\ sval (rev (strip l)) = sval (rev l) /\ normalized (rev (strip l)) /\ (length (strip l) <= length l)%nat.
Proof.
  unfold normalized. intros Hl Hne. induction Hl as [|v l Hv Hl IH]; [done|]. destruct l as [|w l].
  { cbn [strip rev app]. split_and!; try done. by constructor. }
  change (strip (v :: w :: l)) with (if redundant v w then strip (w :: l) else v :: w :: l). destruct (redundant v w) eqn:Er.
  - destruct (IH ltac:(done)) as (? & ? & E & ? & ?). split_and!; try done; [|simpl in *; lia]. rewrite E.
    cbn [rev]. symmetry. apply redundant_sval; try done. by inversion Hl.
  - rewrite rev_involutive, Er. split_and!; try done. by constructor.
Qed.

Lemma limbs_rev l : limbs_ok l -> limbs_ok (rev l).
Proof. unfold limbs_ok. rewrite !List.Forall_forall. intros H x Hx. by apply H, in_rev. Qed.

Lemma normalize_ok l :
  limbs_ok l -> l <> [] ->
  bigint_ok (js_bigint_normalize l) /\ sval (js_bigint_normalize l) = sval l /\ (length (js_bigint_normalize l) <= length l)%nat.
Proof.
  intros Hl Hne. unfold js_bigint_normalize. assert (rev l <> []) as Hne' by (intros E; apply Hne; rewrite <- (rev_involutive l), E; done).
  destruct (strip_ok (rev l) (limbs_rev l Hl) Hne') as (H1 & H2 & H3 & H4 & H5). rewrite rev_involutive in H3. rewrite !length_rev in *.
  split_and!; try done. split; [by apply limbs_rev|done].
Qed.

Lemma normalized_snoc l w v : normalized ((l ++ [w]) ++ [v]) <-> redundant v w = false.
Proof. unfold normalized. by rewrite !rev_app_distr. Qed.

Lemma normalized_ne l : normalized l -> l <> [].
Proof. intros H ->. done. Qed.

Lemma extend_ok r e :
  limbs_ok r -> r <> [] -> limb_ok e ->
  bigint_ok (js_bigint_extend r e) /\ sval (js_bigint_extend r e) = sval (r ++ [e]) /\ (length (js_bigint_extend r e) <= S (length r))%nat.
Proof.
  intros Hr Hne He. unfold js_bigint_extend. destruct r as [|w l _] using rev_ind; [done|]. rewrite top_limb_snoc.
  pose proof Hr as [_ Hw]%limbs_snoc. destruct (redundant e w) eqn:Er.
  - destruct (normalize_ok _ Hr Hne) as (H1 & H2 & H3). split_and!; try done; [|lia]. rewrite H2. symmetry. by apply redundant_sval.
  - split_and!; [|done|rewrite length_app; simpl; lia]. split; [by apply limbs_snoc|]. by apply normalized_snoc.
Qed.

(** A normalized number of [S n] limbs does not fit in [n]. *)
Lemma normalized_large l n :
  bigint_ok l -> length l = S (S n) -> Bn (S n) <= 2 * sval l \/ 2 * sval l < - Bn (S n).
Proof.
  intros [Hl Hn] El. destruct l as [|v l _] using rev_ind; [done|]. destruct l as [|w l _] using rev_ind; [done|].
  apply normalized_snoc in Hn. apply limbs_snoc in Hl as [[Hl Hw]%limbs_snoc Hv]. rewrite !length_app in El. simpl in El.
  replace n with (length l) by lia. by apply not_redundant_large.
Qed.

Lemma Bn_mono n m : (n <= m)%nat -> Bn n <= Bn m.
Proof. intros H. unfold Bn. apply Z.pow_le_mono_r; lia. Qed.

(** Of two normalized numbers the longer is larger in magnitude, so the array is determined. *)
Lemma bigint_ok_inj a b : bigint_ok a -> bigint_ok b -> sval a = sval b -> a = b.
Proof.
  assert (forall a b, bigint_ok a -> bigint_ok b -> sval a = sval b -> (length b <= length a)%nat) as Hle.
  { clear. intros a b Ha Hb E. destruct (decide (length b <= length a)%nat) as [|Hlt]; [done|]. exfalso.
    pose proof (sval_bounds a (proj1 Ha) (normalized_ne a (proj2 Ha))). assert (length a <> 0%nat) by (destruct a; [by destruct Ha|done]).
    destruct (length b) as [|[|n]] eqn:Eb; [lia..|]. pose proof (normalized_large b n Hb Eb). pose proof (Bn_mono (length a) (S n)). lia. }
  intros Ha Hb E. apply sval_inj; try apply Ha; try apply Hb; try done; [|by apply normalized_ne, Ha].
  pose proof (Hle a b Ha Hb E). pose proof (Hle b a Hb Ha (eq_sym E)). lia.
Qed.

(** *** Addition *)

Lemma add_loop_ok ops c :
  Forall (fun p => limb_ok p.1 /\ limb_ok p.2) ops -> 0 <= c <= 1 ->
  exists r c', add_loop ops c = (r, c') /\ limbs_ok r /\ length r = length ops /\ 0 <= c' <= 1 /\
    val r + Bn (length ops) * c' = val ops.*1 + val ops.*2 + c.
Proof.
  intros H. revert c. induction H as [|[x y] ops [Hx Hy] _ IH]; intros c Hc; cbn [add_loop].
  { exists [], c. cbn [length]. rewrite Bn_0. split; [done|]. split; [apply Forall_nil_2|]. split_and!; try done; try lia. simpl. lia. }
  destruct (ADDC_ok x y c Hx Hy Hc) as (r0 & c0 & -> & E0 & Hr0 & Hc0). destruct (IH c0 Hc0) as (r & c' & -> & Hr & Er & Hc' & E).
  exists (r0 :: r), c'. split; [done|]. split; [by constructor|]. split; [simpl; lia|]. split; [done|]. rewrite !fmap_cons. cbn [val length fst snd]. rewrite Bn_S. lia.
Qed.

Lemma val_flip l : limbs_ok l -> limbs_ok (map (flip_limb true) l) /\ val (map (flip_limb true) l) = Bn (length l) - 1 - val l.
Proof.
  induction 1 as [|x l Hx Hl [IH1 IH2]]; [split; [apply Forall_nil_2|done]|]. unfold limb_ok in Hx.
  cbn [map flip_limb val length]. rewrite Bn_S, IH2. split; [|lia]. constructor; [unfold limb_ok; lia|done].
Qed.
Lemma map_flip_false l : map (flip_limb false) l = l.
Proof. induction l as [|x l IH]; [done|]. cbn. by rewrite IH. Qed.

Lemma sign_limb_ok s : limb_ok (sign_limb s).
Proof. unfold limb_ok. destruct s; simpl; lia. Qed.
Lemma val_sign k s : val (replicate k (sign_limb s)) = (Bn k - 1) * Z.b2z s.
Proof. induction k as [|k IH]; [by rewrite Bn_0|]. cbn [replicate val]. rewrite IH, Bn_S. destruct s; simpl; lia. Qed.
Lemma limbs_replicate k x : limb_ok x -> limbs_ok (replicate k x).
Proof. intros. by apply Forall_replicate. Qed.

(** Sign extension: the arrays of [n] limbs the loops read. *)
Definition ext (n : nat) (l : list Z) : list Z := l ++ replicate (n - length l) (sign_limb (js_bigint_sign l)).

Lemma ext_ok n l :
  limbs_ok l -> (length l <= n)%nat ->
  limbs_ok (ext n l) /\ length (ext n l) = n /\ val (ext n l) = sval l + Bn n * Z.b2z (js_bigint_sign l).
Proof.
  intros Hl Hn. unfold ext. split_and!.
  - apply limbs_app. split; [done|]. apply limbs_replicate, sign_limb_ok.
  - rewrite length_app, length_replicate. lia.
  - rewrite val_app, val_sign. unfold sval. replace n with (length l + (n - length l))%nat at 2 by lia. rewrite Bn_add. lia.
Qed.

Lemma flip_ok b b_neg :
  limbs_ok b -> b <> [] ->
  limbs_ok (map (flip_limb b_neg) b) /\ sval (map (flip_limb b_neg) b) = (if b_neg then -1 - sval b else sval b) /\
  sign_limb (js_bigint_sign (map (flip_limb b_neg) b)) = flip_limb b_neg (sign_limb (js_bigint_sign b)).
Proof.
  intros Hb Hne. destruct b_neg; [|by rewrite map_flip_false]. destruct (val_flip b Hb) as [H1 H2].
  assert (js_bigint_sign (map (flip_limb true) b) = negb (js_bigint_sign b)) as Es.
  { destruct b as [|x b _] using rev_ind; [done|]. unfold js_bigint_sign. rewrite map_app. cbn [map]. rewrite !top_limb_snoc.
    rewrite limbs_snoc in Hb. destruct Hb as [_ Hx]. cbn [flip_limb]. assert (limb_ok (2 ^ 64 - 1 - x)) by (unfold limb_ok in *; lia).
    rewrite !sign_bit by done. unfold limb_ok in Hx. lia. }
  split; [done|]. split; [|rewrite Es; by destruct (js_bigint_sign b)]. unfold sval. rewrite Es, H2, length_map.
  pose proof (Bn_pos (length b)). destruct (js_bigint_sign b); simpl; lia.
Qed.

Lemma add_loop_app o1 o2 c :
  add_loop (o1 ++ o2) c = let '(r1, c) := add_loop o1 c in let '(r2, c) := add_loop o2 c in (r1 ++ r2, c).
Proof.
  revert c. induction o1 as [|[x y] o1 IH]; intros c; cbn [add_loop app]; [by destruct (add_loop o2 c)|].
  destruct (ADDC x y c) as [r c0]. rewrite IH. destruct (add_loop o1 c0) as [? c1]. by destruct (add_loop o2 c1).
Qed.

(** The sum of two sign-extended arrays, with the limb above. *)
Lemma add_ext x y n cin :
  limbs_ok x -> x <> [] -> limbs_ok y -> y <> [] -> (length x <= n)%nat -> (length y <= n)%nat -> 0 <= cin <= 1 ->
  exists r c, add_loop (zip (ext n x) (ext n y)) cin = (r, c) /\ limbs_ok r /\ length r = n /\
    sval (r ++ [u64 (sign_limb (js_bigint_sign x) + sign_limb (js_bigint_sign y) + c)]) = sval x + sval y + cin.
Proof.
  intros Hx Hnx Hy Hny Hxn Hyn Hc. destruct (ext_ok n x Hx Hxn) as (Hx1 & Hx2 & Hx3). destruct (ext_ok n y Hy Hyn) as (Hy1 & Hy2 & Hy3).
  destruct (add_loop_ok (zip (ext n x) (ext n y)) cin) as (r & c & E & Hr & Er & Hc' & Ev); [|done|].
  { apply list.Forall_lookup. intros i [a b] Hi. apply lookup_zip_Some in Hi as [Ha Hb].
    split; [by eapply (list.Forall_lookup_1 _ (ext n x))|by eapply (list.Forall_lookup_1 _ (ext n y))]. }
  rewrite length_zip_with, Hx2, Hy2, Nat.min_id in *. rewrite fst_zip, snd_zip, Hx3, Hy3 in Ev by lia.
  exists r, c. split; [done|]. split; [done|]. split; [done|]. set (e := sign_limb _ + sign_limb _ + c).
  apply (sval_unique _ _ (Z.b2z (js_bigint_sign x) + Z.b2z (js_bigint_sign y) - e / B)).
  - apply limbs_snoc. split; [done|apply u64_limb].
  - by destruct r.
  - rewrite length_app, Nat.add_1_r, Er, Bn_S. pose proof (sval_bounds x Hx Hnx). pose proof (sval_bounds y Hy Hny).
    pose proof (Bn_mono _ _ Hxn). pose proof (Bn_mono _ _ Hyn). pose proof (Bn_pos n). lia.
  - rewrite val_app, length_app, Nat.add_1_r, Er, Bn_S. cbn [val]. pose proof (u64_split e) as Ee.
    assert (forall s, sign_limb s = (B - 1) * Z.b2z s) as Hs by (by intros []). unfold e in Ee at 1. rewrite !Hs in Ee.
    assert (val r = sval x + Bn n * Z.b2z (js_bigint_sign x) + (sval y + Bn n * Z.b2z (js_bigint_sign y)) + cin - Bn n * c) as -> by lia.
    assert (u64 e = (B - 1) * Z.b2z (js_bigint_sign x) + (B - 1) * Z.b2z (js_bigint_sign y) + c - B * (e / B)) as -> by lia. lia.
Qed.

Lemma zip_replicate_r (l : list Z) (s : Z) : zip l (replicate (length l) s) = map (fun x => (x, s)) l.
Proof. induction l as [|x l IH]; [done|]. cbn. by rewrite <- IH. Qed.
Lemma zip_replicate_l (l : list Z) (s : Z) : zip (replicate (length l) s) l = map (fun x => (s, x)) l.
Proof. induction l as [|x l IH]; [done|]. cbn. by rewrite <- IH. Qed.

Lemma zip_ext (a y : list Z) :
  let n1 := min (length a) (length y) in
  zip (ext (max (length a) (length y)) a) (ext (max (length a) (length y)) y) =
  zip (take n1 a) (take n1 y) ++
  (if (length y <? length a)%nat then map (fun x => (x, sign_limb (js_bigint_sign y))) (drop n1 a)
   else map (fun x => (sign_limb (js_bigint_sign a), x)) (drop n1 y)).
Proof.
  unfold ext. destruct (Nat.ltb_spec (length y) (length a)).
  - rewrite Nat.max_l, Nat.min_r, Nat.sub_diag by lia. cbn [replicate]. rewrite app_nil_r, (take_ge y) by lia.
    rewrite <- (take_drop (length y) a) at 1. rewrite zip_with_app by (rewrite length_take; lia). f_equal.
    rewrite <- zip_replicate_r, length_drop. done.
  - rewrite Nat.max_r, Nat.min_l, Nat.sub_diag by lia. cbn [replicate]. rewrite app_nil_r, (take_ge a) by lia.
    rewrite <- (take_drop (length a) y) at 2. rewrite zip_with_app by (rewrite length_take; lia). f_equal.
    rewrite <- zip_replicate_l, length_drop. done.
Qed.

(** What an operation does: the number [z] in its only normalized form, or an exception for an
    array of more than [JS_BIGINT_MAX_SIZE] limbs. *)
Definition computes (m : throws (list Z)) (len : nat) (z : Z) : Prop :=
  if JS_BIGINT_MAX_SIZE <? Z.of_nat len then m = throw TooLarge else exists r, m = ok r /\ bigint_ok r /\ sval r = z.

Lemma computes_intro m len z r :
  bigint_ok r -> sval r = z -> (m = if JS_BIGINT_MAX_SIZE <? Z.of_nat len then throw TooLarge else ok r) -> computes m len z.
Proof. intros Hr Hz ->. unfold computes. destruct (_ <? _); [done|]. by exists r. Qed.

Section Operations.
Context (fresh : nat -> list Z) (fresh_ok : forall n, length (fresh n) = n /\ limbs_ok (fresh n)).

Lemma bigint_new_bind {A} len (k : list Z -> throws A) :
  js_bind (js_bigint_new fresh len) k = if JS_BIGINT_MAX_SIZE <? Z.of_nat len then throw TooLarge else k (fresh len).
Proof. unfold js_bigint_new. by destruct (_ <? _). Qed.

Lemma bigint_computes len r z :
  bigint_ok r -> sval r = z -> computes (js_bind (js_bigint_new fresh len) (fun _ => ok r)) len z.
Proof. intros. apply (computes_intro _ _ _ r); try done. apply bigint_new_bind. Qed.

Lemma js_bigint_add_ok a b (b_neg : bool) :
  bigint_ok a -> bigint_ok b ->
  exists r, bigint_ok r /\ sval r = (if b_neg then sval a - sval b else sval a + sval b) /\
    (length r <= S (max (length a) (length b)))%nat /\
    js_bigint_add fresh a b b_neg =
    if JS_BIGINT_MAX_SIZE <? Z.of_nat (max (length a) (length b)) then throw TooLarge else ok r.
Proof.
  intros [Ha Hna] [Hb Hnb]. apply normalized_ne in Hna, Hnb. destruct (flip_ok b b_neg Hb Hnb) as (Hf1 & Hf2 & Hf3).
  set (y := map (flip_limb b_neg) b) in *. assert (length y = length b) as Ely by apply length_map. assert (y <> []) as Hny by (by intros ->%map_eq_nil).
  destruct (add_ext a y (max (length a) (length b)) (Z.b2z b_neg)) as (r & c & E & Hr & Er & Ev); try done; [lia..|destruct b_neg; simpl; lia|].
  rewrite <- Ely, zip_ext, add_loop_app, Ely, Hf3 in E. rewrite Hf3 in Ev. assert (r <> []) as Hner by (destruct r; [destruct a; [done|]; simpl in Er; lia|done]).
  destruct (extend_ok r (u64 (sign_limb (js_bigint_sign a) + flip_limb b_neg (sign_limb (js_bigint_sign b)) + c)) Hr Hner (u64_limb _)) as (Hx1 & Hx2 & Hx3).
  eexists. split; [exact Hx1|]. split; [rewrite Hx2, Ev, Hf2; destruct b_neg; simpl; lia|]. split; [lia|].
  unfold js_bigint_add. rewrite bigint_new_bind. destruct (_ <? _) eqn:Esz; [done|].
  subst y. rewrite firstn_map, skipn_map in E. cbv zeta in E.
  destruct (add_loop (zip (take _ a) _) _) as [r1 c1]. destruct (length b <? length a)%nat.
  - destruct (add_loop _ c1) as [r2 c2]. by simplify_eq.
  - rewrite map_map in E. destruct (add_loop _ c1) as [r2 c2]. by simplify_eq.
Qed.

Lemma small_ok x : limb_ok x -> bigint_ok [x].
Proof. intros. split; [by constructor; [|apply Forall_nil_2]|done]. Qed.

Lemma js_bigint_add_computes a b (b_neg : bool) :
  bigint_ok a -> bigint_ok b ->
  computes (js_bigint_add fresh a b b_neg) (max (length a) (length b)) (if b_neg then sval a - sval b else sval a + sval b).
Proof. intros Ha Hb. destruct (js_bigint_add_ok a b b_neg Ha Hb) as (r & Hr & Ev & _ & E). by apply (computes_intro _ _ _ r). Qed.

Lemma js_bigint_neg_ok a : bigint_ok a -> computes (js_bigint_neg fresh a) (length a) (- sval a).
Proof.
  intros Ha. unfold js_bigint_neg. assert (bigint_ok (js_bigint_set_si 0)) as H0 by apply small_ok, u64_limb.
  destruct (js_bigint_add_ok _ a true H0 Ha) as (r & Hr & Ev & _ & E). apply (computes_intro _ _ _ r); [done|rewrite Ev; change (sval (js_bigint_set_si 0)) with 0; lia|].
  rewrite E. pose proof (normalized_ne a (proj2 Ha)). replace (max _ _) with (length a); [done|]. destruct a; [done|]. simpl. lia.
Qed.

(** *** Multiplication *)

Lemma sub_at_ok r i b (s : bool) :
  limbs_ok r -> limbs_ok b -> length r = (i + length b)%nat ->
  exists r' c, (if s then sub_at r i b else Ret r) = Ret r' /\ limbs_ok r' /\ length r' = length r /\
    val r' = val r - Bn i * val b * Z.b2z s + Bn (length r) * c.
Proof.
  intros Hr Hb El. destruct s; [|exists r, 0; split_and!; try done; simpl; lia].
  destruct (split_at r i (length b)) as (lo & hi & rest & -> & Elo & Ehi); [lia|]. unfold sub_at. rewrite slice_app by done. cbn [mbind outcome_bind].
  rewrite !length_app in El. assert (rest = []) as -> by (destruct rest; [done|simpl in El; lia]).
  rewrite !limbs_app in Hr. destruct Hr as (Hlo & Hhi & _).
  destruct (mp_sub_ok hi b 0 Hhi Hb Ehi ltac:(lia)) as (h & c & -> & Hh & Eh & Hc & Ev). cbn [fst]. rewrite splice_app by lia.
  exists (lo ++ h ++ []), c. split; [done|]. split; [by apply limbs_app; split; [|apply limbs_app; split; [|apply Forall_nil_2]]|].
  rewrite !app_nil_r, !length_app. split; [lia|]. rewrite !val_app, Bn_add, Ev, Elo. simpl Z.b2z. lia.
Qed.

Lemma js_bigint_mul_ok a b :
  bigint_ok a -> bigint_ok b -> computes (js_bigint_mul fresh a b) (length a + length b) (sval a * sval b).
Proof.
  intros [Ha Hna%normalized_ne] [Hb Hnb%normalized_ne]. destruct (fresh_ok (length a + length b)) as [Hf1 Hf2].
  destruct (mp_mul_basecase_ok _ a b Hf2 Ha Hb Hf1 Hnb) as (r0 & E0 & Hr0 & El0 & Ev0).
  destruct (sub_at_ok r0 (length a) b (js_bigint_sign a) Hr0 Hb ltac:(lia)) as (r1 & c1 & E1 & Hr1 & El1 & Ev1).
  destruct (sub_at_ok r1 (length b) a (js_bigint_sign b) Hr1 Ha ltac:(lia)) as (r2 & c2 & E2 & Hr2 & El2 & Ev2).
  assert (r2 <> []) as Hne by (intros ->; destruct a; [done|simpl in *; lia]).
  destruct (normalize_ok r2 Hr2 Hne) as (Hn1 & Hn2 & _). apply (computes_intro _ _ _ (js_bigint_normalize r2)); [done| |by unfold js_bigint_mul; rewrite bigint_new_bind, E0; cbn [mbind outcome_bind]; rewrite E1; cbn [mbind outcome_bind]; rewrite E2].
  rewrite Hn2. apply (sval_unique r2 _ (c1 + c2 - Z.b2z (js_bigint_sign a) * Z.b2z (js_bigint_sign b))); [done..| |].
  - pose proof (sval_bounds a Ha Hna). pose proof (sval_bounds b Hb Hnb). rewrite El2, El1, El0, Bn_add. nia.
  - rewrite Ev2, Ev1, Ev0, El1, El2, El1, El0, Bn_add. unfold sval. ring.
Qed.

(** *** Division *)

Lemma mp_abs_ok a :
  limbs_ok a -> a <> [] ->
  let m := mp_abs a (js_bigint_sign a) in limbs_ok m /\ length m = length a /\ val m = Z.abs (sval a).
Proof.
  intros Ha Hne m. pose proof (sval_bounds a Ha Hne). pose proof (val_bound a Ha). pose proof (sval_neg a Ha Hne) as Hs. subst m. unfold mp_abs.
  destruct (js_bigint_sign a) eqn:Es; symmetry in Hs.
  - apply bool_decide_eq_true in Hs. destruct (mp_neg_ok a Ha) as (r & c & -> & Hr & Er & Hc & Ev). cbn [fst]. split; [done|]. split; [done|].
    unfold sval in *. rewrite Es in *. simpl Z.b2z in *. pose proof (val_bound r Hr). rewrite Er in *. assert (c = 0) by nia. subst. lia.
  - split; [done|]. split; [done|]. unfold sval in *. rewrite Es in *. simpl Z.b2z in *. lia.
Qed.

Lemma trim_zeros l : exists k, l = replicate k 0 ++ trim l.
Proof.
  induction l as [|v l [k IH]]; [by exists 0%nat|]. destruct l as [|w l]; [by exists 0%nat|].
  change (trim (v :: w :: l)) with (if v =? 0 then trim (w :: l) else v :: w :: l).
  destruct (Z.eqb_spec v 0) as [->|]; [|by exists 0%nat]. exists (S k). cbn [replicate app]. by f_equal.
Qed.
Lemma trim_top l v k : trim l = v :: k -> k <> [] -> v <> 0.
Proof.
  induction l as [|x l IH]; [done|]. destruct l as [|w l]; [by intros [= <- <-]|].
  change (trim (x :: w :: l)) with (if x =? 0 then trim (w :: l) else x :: w :: l).
  destruct (Z.eqb_spec x 0); [done|]. by intros [= <- <-].
Qed.

Lemma trim_ne l : l <> [] -> trim l <> [].
Proof.
  induction l as [|y l IH]; [done|]. intros _. destruct l as [|z l]; [done|].
  change (trim (y :: z :: l)) with (if y =? 0 then trim (z :: l) else y :: z :: l). destruct (y =? 0); [by apply IH|done].
Qed.
Lemma rev_zeros k : rev (replicate k 0) = replicate k 0.
Proof.
  induction k as [|k IH]; [done|]. cbn [replicate rev]. rewrite IH. clear. induction k as [|k IH]; [done|]. cbn. by rewrite IH.
Qed.

(** The limbs that count. *)
Lemma trim_len_ok l :
  limbs_ok l -> l <> [] ->
  let n := trim_len l in
  (1 <= n <= length l)%nat /\ limbs_ok (take n l) /\ length (take n l) = n /\ val (take n l) = val l /\
  exists low t, take n l = low ++ [t] /\ limb_ok t /\ (t = 0 -> n = 1%nat).
Proof.
  intros Hl Hne. unfold trim_len. destruct (trim_zeros (rev l)) as [k Ek]. assert (rev l <> []) as Hr by (intros E; apply Hne; by rewrite <- (rev_involutive l), E).
  pose proof (trim_ne _ Hr). destruct (trim (rev l)) as [|v t] eqn:Et; [done|]. apply (f_equal (@rev Z)) in Ek.
  rewrite rev_involutive, rev_app_distr, rev_zeros in Ek. cbn [rev] in Ek. cbn zeta. set (n := length (v :: t)).
  assert (length (rev t ++ [v]) = n) as En by (subst n; rewrite length_app, length_rev; simpl; lia).
  assert (take n l = rev t ++ [v]) as Etk by (rewrite Ek, <- En; apply take_app_length). assert (length l = (n + k)%nat) as El by (rewrite Ek, length_app, En, length_replicate; done).
  assert (limbs_ok (rev t ++ [v])) as Hlt by (rewrite Ek in Hl; by apply limbs_app in Hl as [? _]).
  rewrite Etk. split_and!; [subst n; simpl; lia|lia|done|done| |].
  - rewrite Ek, (val_app _ (replicate k 0)), val_replicate_0. lia.
  - exists (rev t), v. split; [done|]. split; [by apply limbs_snoc in Hlt as [_ ?]|]. intros ->. destruct t; [done|].
    by destruct (trim_top _ _ _ Et).
Qed.

Lemma top_bounds low t : limbs_ok low -> Bn (length low) * t <= val (low ++ [t]) < Bn (length low) * (t + 1).
Proof. intros Hl. rewrite val_app. cbn [val]. pose proof (val_bound low Hl). lia. Qed.

Lemma slice_front hi rest n : length hi = n -> slice (hi ++ rest) 0 n = Ret hi.
Proof. intros. by apply (slice_app [] hi). Qed.
Lemma splice_front old new rest : length new = length old -> splice (old ++ rest) 0 new = Ret (new ++ rest).
Proof. intros. by apply (splice_app [] old). Qed.

(** The shift moves the highest bit of the divisor to the top. *)
Lemma clz_ok t : limb_ok t -> 0 < t -> let s := js_limb_clz t in 0 <= s <= 63 /\ 2 ^ 63 <= t * 2 ^ s /\ (t + 1) * 2 ^ s <= 2 ^ 64.
Proof.
  intros Ht Hp. unfold limb_ok in Ht. unfold js_limb_clz. pose proof (Z.log2_spec t Hp) as [H1 H2]. pose proof (Z.log2_nonneg t).
  assert (Z.log2 t <= 63) by (assert (Z.log2 t < 64); [apply Z.log2_lt_pow2; lia|lia]). cbn zeta. split; [lia|].
  assert (2 ^ Z.log2 t * 2 ^ (63 - Z.log2 t) = 2 ^ 63) as E1 by (rewrite <- Z.pow_add_r by lia; f_equal; lia).
  assert (2 ^ Z.succ (Z.log2 t) * 2 ^ (63 - Z.log2 t) = 2 ^ 64) as E2 by (rewrite <- Z.pow_add_r by lia; f_equal; lia).
  pose proof (Z.pow_pos_nonneg 2 (63 - Z.log2 t)). split; [rewrite <- E1|rewrite <- E2]; apply Z.mul_le_mono_nonneg_r; lia.
Qed.

Lemma shl_divisor low t s :
  limbs_ok (low ++ [t]) -> 1 <= s <= 63 -> 2 ^ 63 <= t * 2 ^ s -> (t + 1) * 2 ^ s <= 2 ^ 64 ->
  exists low' t', (mp_shl (low ++ [t]) s).1 = low' ++ [t'] /\ limbs_ok (low' ++ [t']) /\ length low' = length low /\
    B / 2 <= t' /\ val (low' ++ [t']) = val (low ++ [t]) * 2 ^ s.
Proof.
  intros Hl Hs H1 H2. destruct (mp_shl_ok _ s Hl Hs) as (r & h & -> & Hr & Er & Hh & Ev). cbn [fst]. rewrite length_app in Er, Ev. simpl in Er.
  destruct r as [|t' low' _] using rev_ind; [simpl in Er; lia|]. rewrite length_app in Er. simpl in Er. exists low', t'.
  apply limbs_snoc in Hl as [Hl _]. pose proof (top_bounds low t Hl) as Hb. pose proof Hr as [Hlow' Ht']%limbs_snoc. pose proof (top_bounds low' t' Hlow') as Hb'.
  assert (length low' = length low) as El by lia. rewrite El in *. rewrite Bn_add in Ev. cbn [length] in Ev. rewrite Bn_S, Bn_0 in Ev.
  pose proof (Bn_pos (length low)) as HB. set (V := val (low ++ [t])) in *. set (V' := val (low' ++ [t'])) in *. set (N := Bn (length low)) in *.
  pose proof (Z.pow_pos_nonneg 2 s). assert (N * (t * 2 ^ s) <= V * 2 ^ s < N * ((t + 1) * 2 ^ s)) as HV by nia.
  clearbody V V' N. change (2 ^ 63) with (B / 2) in H1. change (B / 2) with 9223372036854775808 in *. unfold limb_ok in Ht'.
  assert (h = 0) as -> by nia. split_and!; try done; [|lia]. nia.
Qed.

Lemma normalize_divisor_ok low t r na :
  limbs_ok (low ++ [t]) -> 0 < t -> (na < length r)%nat -> limbs_ok (take na r) ->
  let s := js_limb_clz t in
  exists low' t' r' na', normalize_divisor (low ++ [t]) r na s = Ret (low' ++ [t'], r', na') /\
    limbs_ok (low' ++ [t']) /\ length low' = length low /\ B / 2 <= t' /\ val (low' ++ [t']) = val (low ++ [t]) * 2 ^ s /\
    (na <= na' <= S na)%nat /\ length r' = length r /\ limbs_ok (take na' r') /\ val (take na' r') = val (take na r) * 2 ^ s.
Proof.
  intros Hb Ht Hna Hr s. pose proof Hb as [_ Htl]%limbs_snoc. destruct (clz_ok t Htl Ht) as (Hs & H1 & H2). fold s in Hs, H1, H2. unfold normalize_divisor.
  destruct (Z.eqb_spec s 0) as [Es|Es].
  { rewrite Es in *. exists low, t, r, na. change (B / 2) with (2 ^ 63). split_and!; try done; lia. }
  destruct (shl_divisor low t s) as (low' & t' & -> & Hb' & El' & Ht' & Ev'); [done|lia|done..|].
  destruct (split_at r 0 (S na)) as (lo & hi & rest & -> & Elo & Ehi); [lia|]. destruct lo; [|done]. cbn [app] in *.
  destruct hi as [|x hi _] using rev_ind; [done|]. rewrite length_app, Nat.add_1_r in Ehi. injection Ehi as Ehi. rewrite <- app_assoc in *.
  assert (forall m, length m = na -> take na (m ++ [x] ++ rest) = m) as Htk by (intros m <-; apply take_app_length). rewrite (Htk hi Ehi) in *.
  rewrite slice_front by done. cbn [mbind outcome_bind]. destruct (mp_shl_ok hi s Hr ltac:(lia)) as (p & h & -> & Hp & Ep & Hh & Evp). cbn [mbind outcome_bind].
  rewrite splice_front by done. cbn [mbind outcome_bind]. destruct (Z.eqb_spec h 0) as [->|].
  - exists low', t', (p ++ [x] ++ rest), na. rewrite (Htk p) by lia. split_and!; try done; try lia. rewrite !length_app. simpl. lia.
  - rewrite (splice_app p [x] [h] rest) by (done || lia). cbn [mbind outcome_bind]. exists low', t', (p ++ [h] ++ rest), (S na).
    assert (take (S na) (p ++ [h] ++ rest) = p ++ [h]) as -> by (rewrite app_assoc; replace (S na) with (length (p ++ [h])) by (rewrite length_app; simpl; lia); apply take_app_length).
    split_and!; try done; try lia; [rewrite !length_app; simpl; lia| |].
    + apply limbs_snoc. split; [done|]. unfold limb_ok. pose proof (Z.pow_lt_mono_r 2 s 64). lia.
    + rewrite val_app, Ep. cbn [val]. lia.
Qed.

(** The sign of a result: the magnitude with a limb for the sign, negated or not. *)
Lemma signed_ok q (s : bool) :
  limbs_ok q ->
  let l := if s then (mp_neg (q ++ [0])).1 else q ++ [0] in
  limbs_ok l /\ length l = S (length q) /\ sval l = if s then - val q else val q.
Proof.
  intros Hq. assert (limbs_ok (q ++ [0])) as Hq0 by (apply limbs_snoc; split; [done|unfold limb_ok; lia]).
  assert (val (q ++ [0]) = val q) as Ev by (rewrite val_app; simpl; lia). assert (length (q ++ [0]) = S (length q)) as El by (rewrite length_app; simpl; lia).
  pose proof (val_bound q Hq). pose proof (Bn_pos (length q)). destruct s; cbn zeta.
  - destruct (mp_neg_ok _ Hq0) as (r & c & -> & Hr & Er & Hc & Evr). cbn [fst]. split; [done|]. split; [lia|]. rewrite El, Ev in *.
    apply (sval_unique r _ (1 - c)); [done|by destruct r| |rewrite Er; lia]. rewrite Er, Bn_S. lia.
  - split; [done|]. split; [done|]. unfold sval, js_bigint_sign. rewrite top_limb_snoc, Ev. simpl Z.b2z. lia.
Qed.

Lemma quot_abs a b : b <> 0 -> Z.quot a b = if xorb (bool_decide (a < 0)) (bool_decide (b < 0)) then - (Z.abs a / Z.abs b) else Z.abs a / Z.abs b.
Proof. intros Hb. rewrite Z.quot_div by done. do 2 case_bool_decide; simpl; destruct (Z.eq_dec a 0) as [->|]; rewrite ?Z.div_0_l by lia; lia. Qed.
Lemma rem_abs a b : b <> 0 -> Z.rem a b = if bool_decide (a < 0) then - (Z.abs a mod Z.abs b) else Z.abs a mod Z.abs b.
Proof. intros Hb. rewrite Z.rem_mod by done. case_bool_decide; destruct (Z.eq_dec a 0) as [->|]; rewrite ?Z.mod_0_l by lia; lia. Qed.

(** After the division of the shifted arrays: the quotient and the remainder. *)
Lemma finish_quotient q x (s : bool) :
  limbs_ok q ->
  exists r, (q' ← splice (q ++ [x]) (length q) [0]; ok (js_bigint_normalize (if s then (mp_neg q').1 else q'))) = (ok r : throws _) /\
    bigint_ok r /\ sval r = if s then - val q else val q.
Proof.
  intros Hq. destruct (signed_ok q s Hq) as (H1 & H2 & H3). replace (q ++ [x]) with (q ++ [x] ++ []) by done. rewrite splice_app by done. cbn [mbind outcome_bind].
  rewrite app_nil_r. eexists. split; [done|]. destruct (normalize_ok _ H1) as (? & E & _); [intros E; by rewrite E in H2|]. by rewrite E.
Qed.
Lemma finish_remainder R (rest : list Z) shift (s : bool) :
  limbs_ok R -> 0 <= shift <= 63 -> rest <> [] ->
  exists r, (part ← slice (R ++ rest) 0 (length R);
             r ← splice (R ++ rest) 0 (if shift =? 0 then part else (mp_shr part shift 0).1);
             r ← splice r (length R) [0];
             part ← slice r 0 (S (length R));
             r ← (if s then splice r 0 (mp_neg part).1 else Ret r);
             ok (js_bigint_normalize1 r (S (length R)))) = (ok r : throws _) /\
    bigint_ok r /\ sval r = if s then - (val R / 2 ^ shift) else val R / 2 ^ shift.
Proof.
  intros HR Hs Hne. rewrite slice_front by done. cbn [mbind outcome_bind].
  set (R' := if shift =? 0 then R else (mp_shr R shift 0).1). assert (limbs_ok R' /\ length R' = length R /\ val R' = val R / 2 ^ shift) as (HR' & ER' & Ev).
  { subst R'. destruct (Z.eqb_spec shift 0) as [->|]; [rewrite Z.div_1_r; done|]. destruct (mp_shr_ok R shift 0 HR) as (r & m & -> & Hr & Er & E); [lia|unfold limb_ok; lia|].
    cbn [fst]. split_and!; try done. rewrite E, Z.mul_0_r, Z.add_0_r. pose proof (val_bound R HR). apply Z.mod_small.
    pose proof (Z.pow_pos_nonneg 2 shift). split; [apply Z.div_pos; lia|]. apply Z.div_lt_upper_bound; nia. }
  clearbody R'. rewrite splice_front by done. cbn [mbind outcome_bind]. destruct rest as [|x rest]; [done|].
  change (x :: rest) with ([x] ++ rest). rewrite splice_app by done. cbn [mbind outcome_bind]. rewrite app_assoc, slice_front by (rewrite length_app; simpl; lia). cbn [mbind outcome_bind].
  destruct (signed_ok R' s HR') as (H1 & H2 & H3). set (l := if s then _ else _) in *.
  assert ((if s then splice ((R' ++ [0]) ++ rest) 0 (mp_neg (R' ++ [0])).1 else Ret ((R' ++ [0]) ++ rest)) = Ret (l ++ rest)) as ->.
  { subst l. destruct s; [|done]. apply splice_front. rewrite length_app, H2. simpl. lia. }
  cbn [mbind outcome_bind]. unfold js_bigint_normalize1. rewrite <- ER', <- H2, take_app_length. eexists. split; [done|].
  destruct (normalize_ok l H1) as (? & E & _); [intros E; by rewrite E in H2|]. rewrite E, H3, Ev. done.
Qed.

Lemma zero_iff b : bigint_ok b -> b = [0] <-> sval b = 0.
Proof.
  intros Hb. split; [by intros ->|]. intros E. apply bigint_ok_inj; try done. apply small_ok. unfold limb_ok. lia.
Qed.

(** The division of the magnitudes, when the dividend is not the shorter one. *)
Lemma divide_ok a b (is_rem : bool) :
  bigint_ok a -> bigint_ok b -> sval b <> 0 -> Z.of_nat (length a + 2) <= JS_BIGINT_MAX_SIZE ->
  let A := mp_abs a (js_bigint_sign a) in let D := mp_abs b (js_bigint_sign b) in
  let na := trim_len A in let nb := trim_len D in (nb <= na)%nat ->
  forall rest, length rest = 2%nat ->
  exists r, bigint_ok r /\ sval r = (if is_rem then Z.rem (sval a) (sval b) else Z.quot (sval a) (sval b)) /\
  (let tabb := take nb D in
   high ← limb tabb (nb - 1);
   let shift := js_limb_clz high in
   '(tabb, r, na) ← normalize_divisor tabb (A ++ rest) na shift;
   q ⇐ js_bigint_new fresh (na - nb + 2);
   '(q, r) ← mp_divnorm q r na tabb;
   if is_rem then
     part ← slice r 0 nb;
     r ← splice r 0 (if shift =? 0 then part else (mp_shr part shift 0).1);
     r ← splice r nb [0];
     part ← slice r 0 (S nb);
     r ← (if js_bigint_sign a then splice r 0 (mp_neg part).1 else Ret r);
     ok (js_bigint_normalize1 r (S nb))
   else
     q ← splice q (na - nb + 1) [0];
     ok (js_bigint_normalize (if xorb (js_bigint_sign a) (js_bigint_sign b) then (mp_neg q).1 else q))) = ok r.
Proof.
  intros [Ha Hna%normalized_ne] [Hb Hnb%normalized_ne] Hb0 Hsz A D na nb Hle rest Hrest.
  destruct (mp_abs_ok a Ha Hna) as (HA & ElA & EvA). destruct (mp_abs_ok b Hb Hnb) as (HD & ElD & EvD). fold A D in HA, ElA, EvA, HD, ElD, EvD.
  destruct (trim_len_ok A HA) as (Hn1 & Hn2 & Hn3 & Hn4 & _); [by destruct A, a|]. destruct (trim_len_ok D HD) as (Hd1 & Hd2 & Hd3 & Hd4 & low & t & Et & Ht & Ht0); [by destruct D, b|].
  fold na in Hn1, Hn2, Hn3, Hn4. fold nb in Hd1, Hd2, Hd3, Hd4, Et, Ht0. clearbody na nb. cbn zeta. rewrite Et in *.
  assert (nb = S (length low)) as Enb by (rewrite <- Hd3, length_app; simpl; lia).
  assert (0 < t) as Htp.
  { unfold limb_ok in Ht. destruct (Z.eq_dec t 0) as [->|]; [|lia]. specialize (Ht0 eq_refl). destruct low; [|simpl in Enb; lia]. simpl in Hd4. lia. }
  rewrite (limb_app low t []) by lia. cbn [mbind outcome_bind].
  destruct (normalize_divisor_ok low t (A ++ rest) na) as (low' & t' & r' & na' & -> & Hb' & El' & Ht' & Ev' & Hna' & Er' & Hr' & Evr); [done|done|rewrite length_app; lia|by rewrite take_app_le by lia|].
  destruct (clz_ok t Ht Htp) as (Hs & _ & _). set (s := js_limb_clz t) in *. clearbody s. rewrite take_app_le, Hn4, EvA in Evr by lia. rewrite Hd4, EvD in Ev'.
  cbn [mbind outcome_bind]. rewrite bigint_new_bind. destruct (Z.ltb_spec JS_BIGINT_MAX_SIZE (Z.of_nat (na' - nb + 2))); [lia|].
  assert (length (low' ++ [t']) = nb) as Elb by (rewrite length_app; simpl; lia). rewrite length_app in Er'. destruct (fresh_ok (na' - nb + 2)) as [Hf _].
  destruct (mp_divnorm_ok (fresh (na' - nb + 2)) r' na' (low' ++ [t']) low' t') as (q & R & rest' & -> & Hq & Elq & HR & ElR & Elr & Evq & EvR); [done|done|done|lia|done|lia|].
  cbn [mbind outcome_bind]. rewrite Elb in *. rewrite Evr, Ev' in *. pose proof (Z.pow_pos_nonneg 2 s ltac:(lia) ltac:(lia)) as Hp.
  rewrite Z.div_mul_cancel_r in Evq by lia. rewrite Z.mul_mod_distr_r in EvR by lia. rewrite quot_abs, rem_abs by done.
  rewrite !sval_neg by done. destruct is_rem.
  - rewrite <- ElR. destruct (finish_remainder R rest' s (bool_decide (sval a < 0)) HR ltac:(lia)) as (r & E & Hr & Evs).
    { intros ->. rewrite app_nil_r in Elr. lia. }
    exists r. split; [done|]. split; [|exact E]. rewrite Evs, EvR, Z.div_mul by lia. done.
  - assert (exists x, drop (S (na' - nb)) (fresh (na' - nb + 2)) = [x]) as [x ->].
    { assert (length (drop (S (na' - nb)) (fresh (na' - nb + 2))) = 1%nat) as E by (rewrite length_drop; lia). destruct (drop _ _) as [|x [|]]; try done. by exists x. }
    replace (na' - nb + 1)%nat with (length q) by lia.
    destruct (finish_quotient q x (xorb (bool_decide (sval a < 0)) (bool_decide (sval b < 0))) Hq) as (r & E & Hr & Evs).
    exists r. split; [done|]. split; [|exact E]. by rewrite Evs, Evq.
Qed.

(** A dividend with fewer limbs than the divisor is smaller. *)
Lemma fewer_limbs a b :
  limbs_ok a -> a <> [] -> limbs_ok b -> b <> [] -> (trim_len a < trim_len b)%nat -> val a < val b.
Proof.
  intros Ha Hna Hb Hnb Hlt. destruct (trim_len_ok a Ha Hna) as (H1 & H2 & H3 & H4 & _). destruct (trim_len_ok b Hb Hnb) as (K1 & K2 & K3 & K4 & low & t & Et & Ht & Ht0).
  pose proof (val_bound _ H2) as HA. rewrite H3, H4 in HA. rewrite Et in *. rewrite length_app in K3. simpl in K3. apply limbs_snoc in K2 as [Hl _].
  pose proof (top_bounds low t Hl). pose proof (Bn_mono (trim_len a) (length low) ltac:(lia)). pose proof (Bn_pos (length low)). unfold limb_ok in Ht.
  assert (t <> 0) by (intros ->; specialize (Ht0 eq_refl); lia). nia.
Qed.

Lemma js_bigint_divrem_ok a b (is_rem : bool) :
  bigint_ok a -> bigint_ok b -> sval b <> 0 ->
  computes (js_bigint_divrem fresh a b is_rem) (length a + 2) (if is_rem then Z.rem (sval a) (sval b) else Z.quot (sval a) (sval b)).
Proof.
  intros Ha Hb Hb0. unfold js_bigint_divrem, computes. rewrite bool_decide_eq_false_2 by (by rewrite zero_iff). rewrite bigint_new_bind.
  destruct (Z.ltb_spec JS_BIGINT_MAX_SIZE (Z.of_nat (length a + 2))).
  { done. }
  pose proof Ha as [Hla Hna%normalized_ne]. pose proof Hb as [Hlb Hnb%normalized_ne].
  destruct (mp_abs_ok a Hla Hna) as (HA & ElA & EvA). destruct (mp_abs_ok b Hlb Hnb) as (HD & ElD & EvD).
  destruct (fresh_ok (length a + 2)) as [Hf _]. destruct (split_at (fresh (length a + 2)) 0 (length a)) as (lo & hi & rest & Ef & Elo & Ehi); [lia|].
  destruct lo; [|done]. rewrite Ef in *. cbn [app] in *. rewrite length_app in Hf. rewrite splice_front by lia. cbn [mbind outcome_bind].
  case (Nat.ltb_spec (trim_len (mp_abs a (js_bigint_sign a))) (trim_len (mp_abs b (js_bigint_sign b)))); intros Hlen.
  - apply fewer_limbs in Hlen; [|done|by destruct (mp_abs a _), a|done|by destruct (mp_abs b _), b]. rewrite EvA, EvD in Hlen. destruct is_rem.
    + exists a. rewrite bigint_new_bind. destruct (Z.ltb_spec JS_BIGINT_MAX_SIZE (Z.of_nat (length a))); [lia|]. split; [done|]. split; [done|]. symmetry. by apply Z.rem_small_iff.
    + exists [0]. split; [done|]. split; [apply small_ok; unfold limb_ok; lia|]. symmetry. by apply Z.quot_small_iff.
  - destruct (divide_ok a b is_rem Ha Hb Hb0 ltac:(lia) Hlen rest ltac:(lia)) as (r & Hr & Ev & E). exists r. split; [exact E|done].
Qed.

(** *** Bitwise operations *)

Definition bool_op (op : logic_op) : bool -> bool -> bool := match op with OP_or => orb | OP_and => andb | OP_xor => xorb end.

Lemma logic_testbit op x y i : Z.testbit (logic op x y) i = bool_op op (Z.testbit x i) (Z.testbit y i).
Proof. destruct op; [apply Z.lor_spec|apply Z.land_spec|apply Z.lxor_spec]. Qed.
Lemma logic_comm op x y : logic op x y = logic op y x.
Proof. destruct op; [apply Z.lor_comm|apply Z.land_comm|apply Z.lxor_comm]. Qed.

Lemma split_testbit x s i : limb_ok x -> 0 <= i -> Z.testbit (x + B * s) i = if i <? 64 then Z.testbit x i else Z.testbit s (i - 64).
Proof.
  intros Hx Hi. unfold limb_ok in Hx. destruct (Z.ltb_spec i 64).
  - rewrite <- (Z.mod_pow2_bits_low (x + B * s) 64) by done. f_equal. symmetry. apply (Z.mod_unique_pos _ _ s); change (2 ^ 64) with B; lia.
  - replace i with (i - 64 + 64) at 1 by lia. rewrite <- Z.div_pow2_bits by lia. f_equal. symmetry. apply (Z.div_unique _ _ s x); change (2 ^ 64) with B; lia.
Qed.
Lemma logic_limb op x y : limb_ok x -> limb_ok y -> limb_ok (logic op x y).
Proof.
  intros Hx Hy. unfold limb_ok in *. set (z := logic op x y). assert (z / 2 ^ 64 = 0) as Ez.
  { apply Z.bits_inj'. intros i Hi. rewrite Z.div_pow2_bits, Z.bits_0 by lia. unfold z. rewrite logic_testbit.
    assert (forall w, 0 <= w < B -> Z.testbit w (i + 64) = false) as Hw.
    { intros w Hw. rewrite <- (Z.mod_small w (2 ^ 64)) by done. apply Z.mod_pow2_bits_high. lia. }
    rewrite !Hw by done. by destruct op. }
  pose proof (Z.div_mod z (2 ^ 64)). pose proof (Z.mod_pos_bound z (2 ^ 64)). change (2 ^ 64) with B in *. clearbody z. lia.
Qed.
Lemma logic_split op x y s t :
  limb_ok x -> limb_ok y -> logic op (x + B * s) (y + B * t) = logic op x y + B * logic op s t.
Proof.
  intros Hx Hy. apply Z.bits_inj'. intros i Hi. rewrite logic_testbit, !split_testbit by (by try apply logic_limb).
  destruct (i <? 64); by rewrite logic_testbit.
Qed.
Lemma logic_sign op p q : logic op (- Z.b2z p) (- Z.b2z q) = - Z.b2z (bool_op op p q).
Proof. by destruct op, p, q. Qed.
Lemma sign_limb_bit s : Z.testbit (sign_limb s) 63 = s.
Proof. by destruct s. Qed.
Lemma sign_limb_split s : - Z.b2z s = sign_limb s + B * (- Z.b2z s).
Proof. by destruct s. Qed.

Lemma sval_one_split x : sval [x] = x + B * (- Z.b2z (Z.testbit x 63)).
Proof. rewrite sval_one. lia. Qed.

Lemma logic_loop_sign op a s :
  limbs_ok a -> a <> [] ->
  limbs_ok (logic_loop (logic op) a [] (sign_limb s)) /\ length (logic_loop (logic op) a [] (sign_limb s)) = length a /\
  sval (logic_loop (logic op) a [] (sign_limb s)) = logic op (sval a) (- Z.b2z s).
Proof.
  intros Ha Hne. pose proof (sign_limb_ok s) as Hs. induction Ha as [|x a Hx Ha IH]; [done|].
  pose proof (logic_limb op x _ Hx Hs). cbn [logic_loop length]. destruct a as [|y a].
  { cbn [logic_loop]. split; [by constructor; [|apply Forall_nil_2]|]. split; [done|]. rewrite !sval_one_split, (sign_limb_split s), logic_split by done.
    rewrite logic_sign, logic_testbit, sign_limb_bit. done. }
  destruct (IH ltac:(done)) as (H1 & H2 & H3). split; [by constructor|]. split; [lia|].
  rewrite sval_cons by (intros E; by rewrite E in H2). rewrite H3, (sval_cons x) by done. rewrite (sign_limb_split s) at 2. by rewrite logic_split.
Qed.

Lemma logic_loop_ok op a b :
  limbs_ok a -> limbs_ok b -> b <> [] -> (length b <= length a)%nat ->
  let r := logic_loop (logic op) a b (sign_limb (js_bigint_sign b)) in
  limbs_ok r /\ length r = length a /\ sval r = logic op (sval a) (sval b).
Proof.
  intros Ha. revert b. induction Ha as [|x a Hx Ha IH]; intros b Hb Hne Hle; [by destruct b; [|simpl in Hle; lia]|].
  destruct Hb as [|y b Hy Hb]; [done|]. pose proof (logic_limb op x y Hx Hy). cbn [logic_loop length]. cbn zeta.
  destruct b as [|z b].
  - rewrite (sval_one_split y). change (js_bigint_sign [y]) with (Z.testbit y 63). destruct a as [|w a].
    + cbn [logic_loop]. split; [by constructor; [|apply Forall_nil_2]|]. split; [done|]. rewrite !sval_one_split, logic_split, logic_sign, logic_testbit by done. done.
    + destruct (logic_loop_sign op (w :: a) (Z.testbit y 63) Ha ltac:(done)) as (H1 & H2 & H3). split; [by constructor|]. split; [lia|].
      rewrite sval_cons by (intros E; by rewrite E in H2). rewrite H3, (sval_cons x) by done. by rewrite logic_split.
  - assert (js_bigint_sign (y :: z :: b) = js_bigint_sign (z :: b)) as -> by done.
    destruct (IH (z :: b) Hb ltac:(done) ltac:(simpl in *; lia)) as (H1 & H2 & H3). split; [by constructor|]. split; [lia|].
    rewrite sval_cons by (intros E; rewrite E in H2; destruct a; [simpl in Hle; lia|done]).
    rewrite H3, (sval_cons x) by (destruct a; [simpl in Hle; lia|done]). rewrite (sval_cons y) by done. by rewrite logic_split.
Qed.

Lemma js_bigint_logic_ok a b op :
  bigint_ok a -> bigint_ok b -> computes (js_bigint_logic fresh a b op) (max (length a) (length b)) (logic op (sval a) (sval b)).
Proof.
  intros Ha Hb. unfold js_bigint_logic.
  assert (forall a b, bigint_ok a -> bigint_ok b -> (length b <= length a)%nat ->
    computes (_ ⇐ js_bigint_new fresh (length a); ok (js_bigint_normalize (logic_loop (logic op) a b (sign_limb (js_bigint_sign b))))) (length a) (logic op (sval a) (sval b))) as Hop.
  { clear. intros a b [Ha Hna%normalized_ne] [Hb Hnb%normalized_ne] Hle. destruct (logic_loop_ok op a b Ha Hb Hnb Hle) as (H1 & H2 & H3).
    destruct (normalize_ok _ H1) as (H4 & H5 & _); [intros E; rewrite E in H2; by destruct a|]. apply bigint_computes; [done|]. by rewrite H5. }
  case (Nat.ltb_spec (length a) (length b)); intros Hlt.
  - rewrite Nat.max_r, logic_comm by lia. apply Hop; try done. lia.
  - rewrite Nat.max_l by lia. by apply Hop.
Qed.

Lemma flip_redundant v w : limb_ok v -> limb_ok w -> redundant (flip_limb true v) (flip_limb true w) = redundant v w.
Proof.
  intros Hv Hw. unfold redundant, flip_limb. unfold limb_ok in *. rewrite !sign_shift, !sign_bit by (unfold limb_ok; lia).
  assert (forall x, Z.land x 1 = x mod 2) as Hland by (intros x; apply (Z.land_ones x 1); lia). rewrite !Hland.
  replace (2 ^ 64 - 1 - v) with (1 - v + (2 ^ 63 - 1) * 2) by lia. destruct (Z.eqb_spec v 0) as [->|]; [destruct (Z.leb_spec (2 ^ 63) w), (Z.leb_spec (2 ^ 63) (2 ^ 64 - 1 - w)); done || lia|].
  destruct (Z.eqb_spec v (2 ^ 64 - 1)) as [->|]; [destruct (Z.leb_spec (2 ^ 63) w), (Z.leb_spec (2 ^ 63) (2 ^ 64 - 1 - w)); done || lia|].
  destruct (Z.eqb_spec (1 - v + (2 ^ 63 - 1) * 2) 0); [lia|]. destruct (Z.eqb_spec (1 - v + (2 ^ 63 - 1) * 2) (2 ^ 64 - 1)); [lia|]. done.
Qed.

Lemma js_bigint_not_ok a : bigint_ok a -> computes (js_bigint_not fresh a) (length a) (Z.lnot (sval a)).
Proof.
  intros [Ha Hna]. pose proof (normalized_ne a Hna) as Hne. destruct (flip_ok a true Ha Hne) as (H1 & H2 & _).
  apply bigint_computes; [|change (map _ a) with (map (flip_limb true) a); rewrite H2; unfold Z.lnot; lia]. split; [done|]. change (map _ a) with (map (flip_limb true) a).
  destruct a as [|v a _] using rev_ind; [done|]. destruct a as [|w a _] using rev_ind; [done|]. rewrite !map_app. cbn [map]. apply normalized_snoc.
  apply normalized_snoc in Hna. rewrite !limbs_snoc in Ha. rewrite flip_redundant; naive_solver.
Qed.

(** *** Shifts *)

Lemma sval_app l k : k <> [] -> sval (l ++ k) = val l + Bn (length l) * sval k.
Proof.
  destruct k as [|x k _] using rev_ind; [done|]. intros _. rewrite app_assoc, !sval_snoc, val_app, length_app, Bn_add. lia.
Qed.
Lemma sign_app l k : k <> [] -> js_bigint_sign (l ++ k) = js_bigint_sign k.
Proof. destruct k as [|x k _] using rev_ind; [done|]. intros _. unfold js_bigint_sign. by rewrite app_assoc, !top_limb_snoc. Qed.
Lemma Bn_pow2 n : Bn n = 2 ^ (64 * Z.of_nat n).
Proof. unfold Bn. change B with (2 ^ 64). rewrite <- Z.pow_mul_r by lia. done. Qed.

Lemma zeros_normalized d a : bigint_ok a -> sval a <> 0 -> bigint_ok (replicate d 0 ++ a).
Proof.
  intros [Ha Hna] Hz. split; [apply limbs_app; split; [apply limbs_replicate; unfold limb_ok; lia|done]|].
  destruct a as [|v a _] using rev_ind; [done|]. destruct a as [|w a _] using rev_ind.
  - destruct d as [|d]; [done|]. rewrite replicate_S_end. apply normalized_snoc. cbn [app] in *.
    unfold redundant. destruct (Z.eqb_spec v 0) as [->|]; [done|]. destruct (Z.eqb_spec v (2 ^ 64 - 1)) as [->|]; done.
  - rewrite !app_assoc. apply normalized_snoc. by apply normalized_snoc in Hna.
Qed.

(** The limb above a shifted number, with its sign. *)
Lemma shl_high a s :
  limbs_ok a -> a <> [] -> 1 <= s <= 63 ->
  exists r l, mp_shl a s = (r, l) /\ limbs_ok r /\ length r = length a /\
    let h := if js_bigint_sign a then Z.lor l (u64 (Z.shiftl (2 ^ 64 - 1) s)) else l in
    limb_ok h /\ sval (r ++ [h]) = sval a * 2 ^ s.
Proof.
  intros Ha Hne Hs. destruct (mp_shl_ok a s Ha Hs) as (r & l & E & Hr & Er & Hl & Ev). exists r, l. split; [done|]. split; [done|]. split; [done|].
  pose proof (Z.pow_le_mono_r 2 s 63 ltac:(lia) ltac:(lia)) as Hp. pose proof (Z.pow_pos_nonneg 2 s).
  set (h := if js_bigint_sign a then _ else l). assert (h = l + (B - 2 ^ s) * Z.b2z (js_bigint_sign a)) as Eh.
  { subst h. destruct (js_bigint_sign a); [|simpl; lia]. assert (u64 (Z.shiftl (2 ^ 64 - 1) s) = Z.shiftl (2 ^ (64 - s) - 1) s) as ->.
    { rewrite u64_shiftl by (unfold limb_ok; lia). f_equal. symmetry. apply (Z.mod_unique_pos _ _ (2 ^ s - 1)).
      - pose proof (Z.pow_pos_nonneg 2 (64 - s)). lia.
      - assert (2 ^ 64 = 2 ^ (64 - s) * 2 ^ s) as E64 by (rewrite <- Z.pow_add_r by lia; f_equal; lia). lia. }
    rewrite Z.lor_comm, lor_shiftl_add by (unfold uint_ok; lia). rewrite Z.mul_sub_distr_r, <- Z.pow_add_r by lia. replace (64 - s + s) with 64 by lia. simpl Z.b2z. lia. }
  clearbody h. cbn zeta. assert (limb_ok h) as Hh by (unfold limb_ok; destruct (js_bigint_sign a); simpl in Eh; lia). split; [done|].
  pose proof (sval_bounds a Ha Hne). apply (sval_unique _ _ (Z.b2z (js_bigint_sign a))).
  - by apply limbs_snoc.
  - by destruct r.
  - rewrite length_app, Er, Nat.add_1_r, Bn_S. pose proof (Bn_pos (length a)). nia.
  - rewrite val_app, length_app, Er, Nat.add_1_r, Bn_S. cbn [val]. rewrite Eh. unfold sval. lia.
Qed.

Lemma shift_split k : 0 <= k -> 2 ^ k = Bn (Z.to_nat (k / 64)) * 2 ^ (k mod 64).
Proof.
  intros Hk. pose proof (Z.mod_pos_bound k 64). pose proof (Z.div_pos k 64). rewrite Bn_pow2, Z2Nat.id, <- Z.pow_add_r by lia. f_equal. pose proof (Z.div_mod k 64). lia.
Qed.

Lemma js_bigint_shl_zero a k : bigint_ok a -> sval a = 0 -> computes (js_bigint_shl fresh a k) 1 (sval a * 2 ^ k).
Proof.
  intros Ha Hz. apply zero_iff in Hz as ->; [|done]. exists [0]. split; [done|]. split; [apply small_ok; unfold limb_ok; lia|done].
Qed.
Lemma js_bigint_shl_ok a k :
  bigint_ok a -> 0 <= k -> sval a <> 0 -> computes (js_bigint_shl fresh a k) (length a + Z.to_nat (k / 64)) (sval a * 2 ^ k).
Proof.
  intros Ha Hk Hz. pose proof Ha as [Hla Hne%normalized_ne]. unfold js_bigint_shl. rewrite bool_decide_eq_false_2 by (by rewrite zero_iff).
  rewrite (shift_split k Hk). pose proof (Z.mod_pos_bound k 64 ltac:(lia)). set (d := Z.to_nat (k / 64)). set (s := k mod 64) in *.
  assert (forall l, l <> [] -> sval (replicate d 0 ++ l) = Bn d * sval l) as Hd by (intros l Hl; rewrite sval_app, val_replicate_0, length_replicate by done; lia).
  destruct (Z.eqb_spec s 0) as [->|].
  - apply bigint_computes; [by apply zeros_normalized|]. rewrite Hd by done. lia.
  - destruct (shl_high a s Hla Hne ltac:(lia)) as (r & l & -> & Hr & Er & Hh & Ev). cbv zeta in Hh, Ev.
    assert (limbs_ok (replicate d 0 ++ r)) as Hdr by (apply limbs_app; split; [apply limbs_replicate; unfold limb_ok; lia|done]).
    destruct (extend_ok (replicate d 0 ++ r) _ Hdr ltac:(destruct r, a; by destruct d) Hh) as (H1 & H2 & _).
    apply bigint_computes; [exact H1|]. rewrite H2, <- app_assoc, Hd, Ev by (by destruct r). lia.
Qed.

Lemma normalized_drop d a : normalized a -> drop d a <> [] -> normalized (drop d a).
Proof.
  intros Ha Hne. rewrite <- (take_drop d a) in Ha. unfold normalized in *. rewrite rev_app_distr in Ha.
  assert (rev (drop d a) <> []) as Hr by (intros E; apply Hne; by rewrite <- (rev_involutive (drop d a)), E).
  destruct (rev (drop d a)) as [|v [|w l]]; [done..|]. done.
Qed.

Lemma shr_high l s :
  limbs_ok l -> l <> [] -> 1 <= s <= 63 ->
  exists r m, mp_shr l s (sign_limb (js_bigint_sign l)) = (r, m) /\ limbs_ok r /\ length r = length l /\ sval r = sval l / 2 ^ s.
Proof.
  intros Hl Hne Hs. destruct (mp_shr_ok l s _ Hl Hs (sign_limb_ok (js_bigint_sign l))) as (r & m & E & Hr & Er & Ev). exists r, m. split; [done|]. split; [done|]. split; [done|].
  pose proof (sval_bounds l Hl Hne) as Hb. pose proof (Z.pow_pos_nonneg 2 s ltac:(lia) ltac:(lia)) as Hp. set (W := val l + Bn (length l) * sign_limb (js_bigint_sign l)) in Ev.
  assert (W = sval l + (Z.b2z (js_bigint_sign l) * Bn (length l) * 2 ^ (64 - s)) * 2 ^ s) as EW.
  { unfold W, sval. assert (B = 2 ^ (64 - s) * 2 ^ s) as E64 by (rewrite <- Z.pow_add_r by lia; replace (64 - s + s) with 64 by lia; done).
    assert (forall b, sign_limb b = (B - 1) * Z.b2z b) as Hsl by (by intros []). rewrite Hsl. rewrite E64 at 1. ring. }
  rewrite EW, Z.div_add in Ev by lia. pose proof (Z.div_mod (sval l / 2 ^ s + Z.b2z (js_bigint_sign l) * Bn (length l) * 2 ^ (64 - s)) (Bn (length l)) ltac:(pose proof (Bn_pos (length l)); lia)) as EM.
  rewrite <- Ev in EM. assert (exists Q, sval l / 2 ^ s + Z.b2z (js_bigint_sign l) * Bn (length l) * 2 ^ (64 - s) = Bn (length l) * Q + val r) as [Q EQ] by (by eexists).
  clear EM. apply (sval_unique r _ (Z.b2z (js_bigint_sign l) * 2 ^ (64 - s) - Q)); [done|by destruct r, l| |rewrite Er].
  - rewrite Er. assert (- Bn (length l) <= 2 * (sval l / 2 ^ s) < Bn (length l)); [|done].
    pose proof (Z.mul_div_le (sval l) (2 ^ s) Hp). pose proof (Z.mul_succ_div_gt (sval l) (2 ^ s) Hp).
    pose proof (Bn_pos (length l)). destruct (Z.le_gt_cases 0 (sval l)).
    + pose proof (Z.div_le_upper_bound (sval l) (2 ^ s) (sval l) Hp ltac:(nia)). pose proof (Z.div_pos (sval l) (2 ^ s)). lia.
    + pose proof (Z.div_le_lower_bound (sval l) (2 ^ s) (sval l) Hp ltac:(nia)). assert (sval l / 2 ^ s < 0) by (apply Z.div_lt_upper_bound; lia). lia.
  - lia.
Qed.

Lemma js_bigint_shr_ok a k :
  bigint_ok a -> 0 <= k -> computes (js_bigint_shr fresh a k) (length a - Z.to_nat (k / 64)) (sval a / 2 ^ k).
Proof.
  intros Ha Hk. pose proof Ha as [Hla Hne%normalized_ne]. unfold js_bigint_shr. rewrite (shift_split k Hk). pose proof (Z.mod_pos_bound k 64 ltac:(lia)) as Hs.
  set (d := Z.to_nat (k / 64)). set (s := k mod 64) in *. clearbody d s. pose proof (Z.pow_pos_nonneg 2 s ltac:(lia) ltac:(lia)) as Hp. pose proof (Bn_pos d).
  destruct (Nat.leb_spec (length a) d) as [Hd|Hd].
  - pose proof (sval_bounds a Hla Hne). pose proof (Bn_mono _ _ Hd). rewrite sval_neg by done. replace (length a - d)%nat with 0%nat by lia. cbn.
    eexists. split; [done|]. split; [apply small_ok, u64_limb|]. case_bool_decide; [|symmetry; apply Z.div_small; nia]. change (-1 = sval a / (Bn d * 2 ^ s)).
    apply (Z.div_unique _ _ _ (sval a + Bn d * 2 ^ s)); nia.
  - assert (drop d a <> []) as Hned by (intros E%(f_equal length); rewrite length_drop in E; simpl in E; lia). assert (limbs_ok (drop d a)) as Hld by (by apply Forall_drop).
    assert (sval a / Bn d = sval (drop d a)) as Ed.
    { rewrite <- (take_drop d a) at 1. rewrite sval_app by done. assert (limbs_ok (take d a)) as Ht by (by apply Forall_take). pose proof (val_bound _ Ht) as Hv.
      rewrite length_take, Nat.min_l in * by lia. symmetry. apply (Z.div_unique _ _ _ (val (take d a))); lia. }
    rewrite <- Z.div_div, Ed by lia. rewrite <- (length_drop a d). destruct (Z.eqb_spec s 0) as [->|].
    + apply bigint_computes; [|by rewrite Z.div_1_r]. split; [done|]. apply normalized_drop; [apply Ha|done].
    + assert (js_bigint_sign a = js_bigint_sign (drop d a)) as -> by (rewrite <- (take_drop d a) at 1; by apply sign_app).
      destruct (shr_high (drop d a) s Hld Hned ltac:(lia)) as (r & m & -> & Hr & Er & Ev). destruct (normalize_ok r Hr) as (H1 & H2 & _); [by destruct r, (drop d a)|].
      apply bigint_computes; [done|]. cbn [fst]. by rewrite H2.
Qed.

(** *** Comparison *)

Definition three_way (x y : Z) : Z := match x ?= y with Lt => -1 | Eq => 0 | Gt => 1 end.

Lemma cmp_loop_ok a b : limbs_ok a -> limbs_ok b -> length a = length b -> cmp_loop (rev a) (rev b) = three_way (val a) (val b).
Proof.
  revert b. induction a as [|x a IH] using rev_ind; intros b Ha Hb El; [by destruct b|].
  destruct b as [|y b _] using rev_ind; [rewrite length_app in El; simpl in El; lia|]. rewrite !length_app in El. simpl in El.
  apply limbs_snoc in Ha as [Ha Hx]. apply limbs_snoc in Hb as [Hb Hy]. rewrite !rev_app_distr. cbn [rev app cmp_loop].
  pose proof (top_bounds a x Ha). pose proof (top_bounds b y Hb) as Htb. assert (length b = length a) as Elb by lia. rewrite Elb in Htb. pose proof (Bn_pos (length a)).
  unfold three_way. destruct (Z.eqb_spec x y) as [->|].
  - rewrite IH, !val_app by (done || lia). unfold three_way. rewrite Elb. cbn [val].
    rewrite (Z.add_comm (val a)), (Z.add_comm (val b)), Zcompare_plus_compat. done.
  - destruct (Z.ltb_spec x y).
    + assert (val (a ++ [x]) < val (b ++ [y])) as Hlt by nia. apply Z.compare_lt_iff in Hlt. by rewrite Hlt.
    + assert (val (b ++ [y]) < val (a ++ [x])) as Hlt by nia. apply Z.compare_gt_iff in Hlt. by rewrite Hlt.
Qed.

Lemma three_way_lt x y : x < y -> three_way x y = -1.
Proof. intros H%Z.compare_lt_iff. unfold three_way. by rewrite H. Qed.
Lemma three_way_gt x y : y < x -> three_way x y = 1.
Proof. intros H%Z.compare_gt_iff. unfold three_way. by rewrite H. Qed.

(** Of two normalized numbers of one sign the longer is farther from zero. *)
Lemma longer_larger a b :
  bigint_ok a -> bigint_ok b -> js_bigint_sign a = js_bigint_sign b -> (length a < length b)%nat ->
  if js_bigint_sign a then sval b < sval a else sval a < sval b.
Proof.
  intros Ha Hb Es Hlt. pose proof Ha as [Hla Hna%normalized_ne]. pose proof Hb as [Hlb Hnb%normalized_ne].
  pose proof (sval_bounds a Hla Hna). destruct (length b) as [|[|n]] eqn:El; [lia|destruct a; [done|simpl in Hlt; lia]|].
  pose proof (normalized_large b n Hb El). pose proof (Bn_mono (length a) (S n) ltac:(lia)).
  pose proof (sval_neg a Hla Hna) as Ha0. pose proof (sval_neg b Hlb Hnb) as Hb0. rewrite <- Es in Hb0. destruct (js_bigint_sign a); symmetry in Ha0, Hb0.
  - apply bool_decide_eq_true in Ha0, Hb0. lia.
  - apply bool_decide_eq_false in Ha0, Hb0. lia.
Qed.

Lemma js_bigint_cmp_ok a b : bigint_ok a -> bigint_ok b -> js_bigint_cmp a b = three_way (sval a) (sval b).
Proof.
  intros Ha Hb. pose proof Ha as [Hla Hna%normalized_ne]. pose proof Hb as [Hlb Hnb%normalized_ne]. unfold js_bigint_cmp.
  pose proof (sval_neg a Hla Hna) as Ha0. pose proof (sval_neg b Hlb Hnb) as Hb0. destruct (Bool.eqb_spec (js_bigint_sign a) (js_bigint_sign b)) as [Es|Es]; simpl negb; cbv iota.
  - destruct (Nat.ltb_spec (length a) (length b)); [|destruct (Nat.ltb_spec (length b) (length a))].
    + pose proof (longer_larger a b Ha Hb Es ltac:(done)) as Hl. destruct (js_bigint_sign a); simpl; symmetry; [by apply three_way_gt|by apply three_way_lt].
    + pose proof (longer_larger b a Hb Ha (eq_sym Es) ltac:(done)) as Hl. rewrite Es. destruct (js_bigint_sign b); simpl; symmetry; [by apply three_way_lt|by apply three_way_gt].
    + assert (length a = length b) as El by lia. rewrite cmp_loop_ok by done. unfold sval, three_way. rewrite Es, El, <- !Z.add_opp_r.
      by rewrite !(Z.add_comm _ (- _)), Zcompare_plus_compat.
  - destruct (js_bigint_sign a), (js_bigint_sign b); try done; symmetry in Ha0, Hb0; simpl Z.b2z; symmetry.
    + apply bool_decide_eq_true in Ha0. apply bool_decide_eq_false in Hb0. apply three_way_lt. lia.
    + apply bool_decide_eq_false in Ha0. apply bool_decide_eq_true in Hb0. apply three_way_gt. lia.
Qed.

Lemma js_bigint_get_si_sat_ok a : bigint_ok a -> js_bigint_get_si_sat a = Z.max (- 2 ^ 63) (Z.min (2 ^ 63 - 1) (sval a)).
Proof.
  intros Ha. pose proof Ha as [Hla Hna%normalized_ne]. destruct a as [|x [|y a]]; [done| |].
  - cbn [js_bigint_get_si_sat]. pose proof (sval_bounds [x] Hla Hna) as Hb. cbn [length] in Hb. rewrite Bn_S, Bn_0 in Hb. rewrite sval_one in *. destruct (Z.testbit x 63); simpl Z.b2z in *; lia.
  - pose proof (normalized_large _ (length a) Ha eq_refl) as Hl. pose proof (Bn_mono 1 (S (length a)) ltac:(lia)) as Hm. rewrite Bn_S, Bn_0 in Hm.
    cbn [js_bigint_get_si_sat]. rewrite sval_neg by done. case_bool_decide; lia.
Qed.

(** *** Powers *)

(** Numbers whose array may be refused: those of at least [2^1048510]. The number of bits is sealed
    so that no tactic computes the power. *)
Definition large_bits_aux : seal (64 * 16383).
Proof. by eexists. Qed.
Definition large_bits : Z := large_bits_aux.(unseal).
Lemma large_bits_eq : large_bits = 64 * 16383.
Proof. apply seal_eq. Qed.
Definition too_large (z : Z) : Prop := 2 ^ large_bits <= 4 * Z.abs z.

Definition power_ok (m : throws (list Z)) (z : Z) : Prop :=
  match m with Ret (inr r) => bigint_ok r /\ sval r = z | Ret (inl TooLarge) => too_large z | _ => False end.

Lemma bigint_length l : bigint_ok l -> exists n, length l = S n.
Proof. intros [_ H]. destruct l; [done|]. by eexists. Qed.
Lemma normalized_magnitude l n : bigint_ok l -> sval l <> 0 -> length l = S n -> Bn n <= 2 * Z.abs (sval l).
Proof.
  intros Hl Hz El. destruct n as [|n]; [rewrite Bn_0; lia|]. pose proof (normalized_large l n Hl El). lia.
Qed.

Lemma Bn_limit n : 16383 <= Z.of_nat n -> 2 ^ large_bits <= Bn n.
Proof. intros Hn. rewrite Bn_pow2. apply Z.pow_le_mono_r; [lia|]. rewrite large_bits_eq. lia. Qed.

Lemma large_bits_bound k : JS_BIGINT_MAX_SIZE * 64 - 1 <= k -> large_bits <= k.
Proof. rewrite large_bits_eq. unfold JS_BIGINT_MAX_SIZE. lia. Qed.

Lemma mul_power_ok a b :
  bigint_ok a -> bigint_ok b -> sval a <> 0 -> sval b <> 0 -> power_ok (js_bigint_mul fresh a b) (sval a * sval b).
Proof.
  intros Ha Hb Hza Hzb. pose proof (js_bigint_mul_ok a b Ha Hb) as Hm. unfold computes in Hm. destruct (Z.ltb_spec JS_BIGINT_MAX_SIZE (Z.of_nat (length a + length b))) as [Hsz|].
  - rewrite Hm. cbn [power_ok]. destruct (bigint_length a Ha) as [n En]. destruct (bigint_length b Hb) as [m Em]. unfold too_large.
    pose proof (normalized_magnitude a n Ha Hza En). pose proof (normalized_magnitude b m Hb Hzb Em). unfold JS_BIGINT_MAX_SIZE in Hsz.
    pose proof (Bn_limit (n + m) ltac:(lia)) as Hl. rewrite Bn_add in Hl. pose proof (Bn_pos n). pose proof (Bn_pos m). rewrite Z.abs_mul.
    etransitivity; [exact Hl|]. replace (4 * (Z.abs (sval a) * Z.abs (sval b))) with ((2 * Z.abs (sval a)) * (2 * Z.abs (sval b))) by ring. apply Z.mul_le_mono_nonneg; lia.
  - destruct Hm as (r & -> & Hr & Ev). done.
Qed.

(** A power with a larger exponent is too large when a smaller one is. *)
Lemma too_large_mono x y : Z.abs x <= Z.abs y -> too_large x -> too_large y.
Proof. unfold too_large. generalize (2 ^ large_bits). intros. lia. Qed.
Lemma pow_abs_mono x n m : x <> 0 -> 0 <= n <= m -> Z.abs (x ^ n) <= Z.abs (x ^ m).
Proof. intros Hx Hn. rewrite !Z.abs_pow. apply Z.pow_le_mono_r; lia. Qed.

Lemma power_ok_mono m x n k z : power_ok m (x ^ n) -> x <> 0 -> 0 <= n <= k -> z = x ^ k ->
  match m with Ret (inl e) => power_ok (Ret (inl e)) z | Ret (inr r) => bigint_ok r /\ sval r = x ^ n | _ => False end.
Proof.
  intros Hm Hx Hn ->. destruct m as [[[]|r]| |]; try done. simpl in *. eapply too_large_mono; [|exact Hm]. by apply pow_abs_mono.
Qed.

Lemma pow_loop_ok i r a e :
  bigint_ok a -> sval a <> 0 -> bigint_ok r -> 0 <= e -> sval r = sval a ^ (e / 2 ^ Z.of_nat i) ->
  power_ok (pow_loop fresh i r a e) (sval a ^ e).
Proof.
  intros Ha Hz Hr He. revert r Hr. induction i as [|i IH]; intros r Hr Ev; cbn [pow_loop].
  { change (2 ^ Z.of_nat 0) with 1 in Ev. rewrite Z.div_1_r in Ev. done. }
  set (m := e / 2 ^ Z.of_nat (S i)) in *. assert (e / 2 ^ Z.of_nat i = 2 * m + Z.b2z (Z.testbit e (Z.of_nat i))) as Em.
  { unfold m. rewrite Z.testbit_spec' by lia. rewrite Nat2Z.inj_succ, Z.pow_succ_r, (Z.mul_comm 2 (2 ^ _)), <- Z.div_div by lia. apply Z.div_mod. lia. }
  assert (0 <= m) by (unfold m; apply Z.div_pos; lia). assert (e / 2 ^ Z.of_nat i <= e) by (apply Z.div_le_upper_bound; [lia|]; pose proof (Z.pow_pos_nonneg 2 (Z.of_nat i)); nia).
  assert (sval r <> 0) as Hzr by (rewrite Ev; apply Z.pow_nonzero; lia).
  pose proof (mul_power_ok r r Hr Hr Hzr Hzr) as H2. rewrite Ev, <- Z.pow_add_r in H2 by lia. replace (m + m) with (2 * m) in H2 by lia.
  eapply power_ok_mono in H2; [|done| |reflexivity]; [|split; [lia|]; transitivity (e / 2 ^ Z.of_nat i); [destruct (Z.testbit e (Z.of_nat i)); simpl in Em; lia|done]].
  destruct (js_bigint_mul fresh r r) as [[?|r2]| |]; try done. destruct H2 as [Hr2 Ev2]. cbn [js_bind]. clearbody m.
  destruct (Z.testbit e (Z.of_nat i)); simpl Z.b2z in Em.
  - assert (sval r2 <> 0) as Hzr2 by (rewrite Ev2; apply Z.pow_nonzero; lia). pose proof (mul_power_ok r2 a Hr2 Ha Hzr2 Hz) as H3.
    rewrite Ev2, (Z.mul_comm (sval a ^ _)), <- Z.pow_succ_r in H3 by lia. replace (Z.succ (2 * m)) with (2 * m + 1) in H3 by lia.
    eapply power_ok_mono in H3; [|done| |reflexivity]; [|split; [lia|rewrite <- Em; done]].
    destruct (js_bigint_mul fresh r2 a) as [[?|r3]| |]; try done. destruct H3 as [Hr3 Ev3]. cbn [js_bind]. apply IH; [done|]. by rewrite Em.
  - cbn [js_bind]. apply IH; [done|]. rewrite Em, Z.add_0_r. done.
Qed.

Lemma two_pow_too_large z k : large_bits <= k -> 2 ^ k <= Z.abs z -> too_large z.
Proof.
  intros Hk Hz. unfold too_large. pose proof (Z.pow_le_mono_r 2 large_bits k ltac:(lia) Hk) as Hm. revert Hm Hz. generalize (2 ^ large_bits) (2 ^ k). intros. lia.
Qed.

(** Exponents a power of which only -1, 0 and 1 have. *)
Lemma large_exponent x b : 2 <= Z.abs x -> 2 ^ 31 <= b -> too_large (x ^ b).
Proof.
  intros Hx Hb. apply (two_pow_too_large _ b); [apply large_bits_bound; unfold JS_BIGINT_MAX_SIZE; lia|]. rewrite Z.abs_pow. apply Z.pow_le_mono_l. lia.
Qed.

(** The exponents of one limb, and the larger ones. *)
Lemma exponent_cases b :
  bigint_ok b -> 0 < sval b -> (exists b0, b = [b0] /\ sval b = b0 /\ limb_ok b0) \/ (exists x y l, b = x :: y :: l) /\ 2 ^ 31 <= sval b.
Proof.
  intros Hb Hp. pose proof Hb as [Hl Hne%normalized_ne]. destruct b as [|x [|y l]]; [done| |].
  - left. exists x. split; [done|]. assert (limb_ok x) as Hx by (by inversion Hl). split; [|done]. rewrite sval_one in *. unfold limb_ok in Hx. destruct (Z.testbit x 63); simpl Z.b2z in *; lia.
  - right. split; [by eauto|]. pose proof (normalized_large _ (length l) Hb eq_refl). pose proof (Bn_mono 1 (S (length l)) ltac:(lia)) as Hm. rewrite Bn_S, Bn_0 in Hm. lia.
Qed.

Lemma pow_general_ok a b :
  bigint_ok a -> bigint_ok b -> 0 < sval b -> 2 <= Z.abs (sval a) -> power_ok (pow_general fresh a b) (sval a ^ sval b).
Proof.
  intros Ha Hb Hp Ha2. unfold pow_general. destruct (exponent_cases b Hb Hp) as [(e & -> & Ev & He)|[(x & y & l & ->) Hlarge]].
  - rewrite Ev in *. destruct (Z.ltb_spec (2 ^ 31 - 1) e); [apply large_exponent; lia|]. rewrite bigint_new_bind.
    destruct (Z.ltb_spec JS_BIGINT_MAX_SIZE (Z.of_nat (length a))) as [Hsz|].
    + unfold JS_BIGINT_MAX_SIZE in Hsz. destruct (bigint_length a Ha) as [n En]. pose proof (normalized_magnitude a n Ha ltac:(lia) En).
      cbn [power_ok]. pose proof (pow_abs_mono (sval a) 1 e ltac:(lia) ltac:(lia)) as Hm. rewrite Z.pow_1_r in Hm. apply (too_large_mono _ _ Hm).
      unfold too_large. pose proof (Bn_limit n ltac:(lia)) as Hl. revert Hl. generalize (2 ^ large_bits). intros. lia.
    + apply pow_loop_ok; [done|lia|done|lia|]. rewrite Z2Nat.id by apply Z.log2_nonneg. pose proof (Z.log2_spec e Hp).
      replace (e / 2 ^ Z.log2 e) with 1; [by rewrite Z.pow_1_r|]. rewrite Z.pow_succ_r in * by apply Z.log2_nonneg. apply (Z.div_unique e _ 1 (e - 2 ^ Z.log2 e)); lia.
  - apply large_exponent; lia.
Qed.

(** The array of plus or minus [2^e]. *)
Lemma power_array_ok e (neg : bool) :
  0 <= e ->
  let len := Z.to_nat ((e + 64 + 1 - Z.b2z neg) / 64) in
  exists r, splice (replicate len 0) (Z.to_nat (e / 64)) [u64 (Z.shiftl (u64 (1 - 2 * Z.b2z neg)) (e mod 64))] = Ret r /\
    bigint_ok r /\ sval r = (if neg then -1 else 1) * 2 ^ e.
Proof.
  intros He len. pose proof (Z.mod_pos_bound e 64 ltac:(lia)) as Hs. rewrite (shift_split e He). set (i := Z.to_nat (e / 64)). set (s := e mod 64) in *.
  assert (e = 64 * Z.of_nat i + s) as Ee by (unfold i, s; rewrite Z2Nat.id by (apply Z.div_pos; lia); apply Z.div_mod; lia). clearbody i s.
  pose proof (Z.pow_le_mono_r 2 s 63 ltac:(lia) ltac:(lia)) as Hp63. pose proof (Z.pow_pos_nonneg 2 s ltac:(lia) ltac:(lia)) as Hp.
  set (x := u64 (Z.shiftl _ s)). assert (x = if neg then B - 2 ^ s else 2 ^ s) as Ex.
  { unfold x, wrap. rewrite Z.shiftl_mul_pow2 by lia. change (2 ^ 64) with B. symmetry. destruct neg; simpl Z.b2z; [|apply (Z.mod_unique_pos _ _ 0); change ((1 - 2 * 0) mod B) with 1; lia].
    apply (Z.mod_unique_pos _ _ (2 ^ s - 1)); change ((1 - 2 * 1) mod B) with (B - 1); lia. }
  clearbody x. assert (limb_ok x) as Hx by (unfold limb_ok; destruct neg; lia).
  assert (exists k, len = (i + S k)%nat /\ (k = 0%nat \/ (k = 1%nat /\ neg = false /\ s = 63)) /\ (k = 0%nat -> neg = false -> s < 63)) as (k & El & Hk & Hk0).
  { exists (Z.to_nat ((s + 1 - Z.b2z neg) / 64)). unfold len. replace (e + 64 + 1 - Z.b2z neg) with (s + 1 - Z.b2z neg + (Z.of_nat i + 1) * 64) by lia. rewrite Z.div_add by lia.
    assert (0 <= (s + 1 - Z.b2z neg) / 64) by (apply Z.div_pos; destruct neg; simpl; lia). split; [lia|]. destruct neg; simpl Z.b2z.
    - rewrite Z.div_small by lia. split; [by left|done].
    - destruct (Z.eq_dec s 63) as [->|]; [split; [right; done|intros E; done]|]. rewrite Z.div_small by lia. split; [by left|lia]. }
  clearbody len. subst len. rewrite replicate_add. change (replicate (S k) 0) with ([0] ++ replicate k 0). rewrite splice_app by (done || apply length_replicate).
  eexists. split; [reflexivity|]. assert (bigint_ok ([x] ++ replicate k 0) /\ sval ([x] ++ replicate k 0) = (if neg then -1 else 1) * 2 ^ s) as [Hr Ev].
  { destruct Hk as [->|(-> & -> & ->)].
    - cbn [replicate app]. split; [by apply small_ok|]. rewrite sval_one, sign_bit by done. destruct neg; subst x.
      + destruct (Z.leb_spec (2 ^ 63) (B - 2 ^ s)); simpl Z.b2z; lia.
      + pose proof (Z.pow_lt_mono_r 2 s 63 ltac:(lia) ltac:(lia) (Hk0 eq_refl eq_refl)). destruct (Z.leb_spec (2 ^ 63) (2 ^ s)); simpl Z.b2z; lia.
    - subst x. split; [|done]. split; [|done]. constructor; [done|]. constructor; [unfold limb_ok; lia|apply Forall_nil_2]. }
  split; [apply zeros_normalized; [done|rewrite Ev; destruct neg; lia]|]. rewrite sval_app by done. rewrite val_replicate_0, length_replicate, Ev. lia.
Qed.

Lemma opp_pow x n : 0 <= n -> (- x) ^ n = (if Z.testbit n 0 then -1 else 1) * x ^ n.
Proof.
  intros Hn. rewrite Z.bit0_odd. destruct (Z.odd n) eqn:Eo.
  - rewrite Z.pow_opp_odd by (by apply Z.odd_spec). lia.
  - rewrite Z.pow_opp_even; [lia|]. apply Z.even_spec. by rewrite <- Z.negb_odd, Eo.
Qed.

Lemma pow2_case_ok n (neg : bool) b :
  1 <= n <= 63 -> bigint_ok b -> 0 < sval b -> power_ok (pow2_case fresh n neg b) ((if neg then - 2 ^ n else 2 ^ n) ^ sval b).
Proof.
  intros Hn Hb Hp. pose proof (Z.pow_le_mono_r 2 1 n ltac:(lia) ltac:(lia)) as H2. change (2 ^ 1) with 2 in H2.
  assert (forall m, large_bits <= m -> forall z, m = n * sval b -> Z.abs z = 2 ^ n -> too_large (z ^ sval b)) as Hbig.
  { intros m Hm z -> Hz. apply (two_pow_too_large _ _ Hm). rewrite Z.abs_pow, Hz, Z.pow_mul_r by lia. lia. }
  unfold pow2_case. destruct (exponent_cases b Hb Hp) as [(e & -> & Ev & He)|[(x & y & l & ->) Hlarge]]; [|apply large_exponent; [destruct neg; lia|done]].
  rewrite Ev in *. destruct (Z.ltb_spec (2 ^ 31 - 1) e); [apply large_exponent; [destruct neg; lia|lia]|].
  destruct (Z.ltb_spec (JS_BIGINT_MAX_SIZE * 64) (e * n)).
  { eapply Hbig; [|reflexivity|destruct neg; lia]. apply large_bits_bound. lia. }
  rewrite bigint_new_bind. set (neg' := neg && Z.testbit e 0).
  destruct (Z.ltb_spec JS_BIGINT_MAX_SIZE (Z.of_nat (Z.to_nat ((e * n + 64 + 1 - Z.b2z neg') / 64)))) as [Hsz|].
  { eapply Hbig; [|reflexivity|destruct neg; lia]. apply large_bits_bound. unfold JS_BIGINT_MAX_SIZE in *.
    assert (0 <= (e * n + 64 + 1 - Z.b2z neg') / 64) by (apply Z.div_pos; destruct neg'; simpl; nia).
    pose proof (Z.mul_div_le (e * n + 64 + 1 - Z.b2z neg') 64 ltac:(lia)). destruct neg'; simpl Z.b2z in *; lia. }
  destruct (power_array_ok (e * n) neg' ltac:(nia)) as (r & -> & Hr & Evr). cbn [mbind outcome_bind power_ok]. split; [done|]. rewrite Evr, (Z.mul_comm e), Z.pow_mul_r by lia.
  unfold neg'. destruct neg; [|simpl; lia]. rewrite opp_pow by lia. by destruct (Z.testbit e 0).
Qed.

Lemma new_si_power v z : sval [u64 v] = z -> power_ok (js_bigint_new_si fresh v) z.
Proof. intros. split; [apply small_ok, u64_limb|done]. Qed.

Lemma head_odd b : b <> [] -> Z.odd (default 0 (head b)) = Z.odd (sval b).
Proof.
  destruct b as [|x [|y b]]; [done| |]; intros _; cbn [head default].
  - rewrite sval_one, Z.odd_sub, Z.odd_mul. simpl. by destruct (Z.odd x).
  - rewrite sval_cons, Z.odd_add, Z.odd_mul by done. simpl. by destruct (Z.odd x).
Qed.

(** The bases of one limb. *)
Lemma pow_small_ok v b :
  limb_ok v -> bigint_ok b -> 0 < sval b ->
  power_ok (if v <=? 1 then js_bigint_new_si fresh v
            else if v =? 2 ^ 64 - 1 then js_bigint_new_si fresh (1 - 2 * Z.land (default 0 (head b)) 1)
            else
              let is_neg := Z.testbit v 63 in
              let w := if is_neg then u64 (- v) else v in
              if Z.land w (w - 1) =? 0 then pow2_case fresh (63 - js_limb_clz w) is_neg b else pow_general fresh [v] b)
           (sval [v] ^ sval b).
Proof.
  intros Hv Hb Hp. unfold limb_ok in Hv. destruct (Z.leb_spec v 1).
  { apply new_si_power. assert (v = 0 \/ v = 1) as [-> | ->] by lia; [symmetry; by apply Z.pow_0_l|symmetry; apply Z.pow_1_l; lia]. }
  destruct (Z.eqb_spec v (2 ^ 64 - 1)) as [->|].
  { apply new_si_power. change (sval [2 ^ 64 - 1]) with (- (1)). rewrite opp_pow, Z.pow_1_l, Z.bit0_odd, <- (head_odd b) by (try lia; by apply normalized_ne, Hb).
    assert (forall x, Z.land x 1 = Z.b2z (Z.odd x)) as Hodd by (intros x; transitivity (x mod 2); [apply (Z.land_ones x 1); lia|rewrite Zmod_odd; by destruct (Z.odd x)]). rewrite Hodd. by destruct (Z.odd _). }
  assert (sval [v] = v - B * Z.b2z (Z.testbit v 63)) as Es by apply sval_one. rewrite sign_bit in * by (unfold limb_ok; lia). cbv zeta.
  set (w := if 2 ^ 63 <=? v then u64 (- v) else v). assert (w = Z.abs (sval [v]) /\ 2 <= w <= 2 ^ 63) as [Ew Hw].
  { rewrite Es. unfold w, wrap. destruct (Z.leb_spec (2 ^ 63) v); simpl Z.b2z; [|lia]. assert (- v mod 2 ^ 64 = B - v) as -> by (symmetry; apply (Z.mod_unique_pos _ _ (-1)); change (2 ^ 64) with B; lia). lia. }
  clearbody w. destruct (Z.eqb_spec (Z.land w (w - 1)) 0) as [Hl|]; [|apply pow_general_ok; [by apply small_ok|done|done|lia]].
  apply land_pred_pow2 in Hl; [|lia]. replace (63 - js_limb_clz w) with (Z.log2 w) by (unfold js_limb_clz; lia).
  assert (1 <= Z.log2 w <= 63) by (split; [apply Z.log2_le_pow2; lia|rewrite <- (Z.log2_pow2 63) by lia; apply Z.log2_le_mono; lia]).
  replace (sval [v]) with (if 2 ^ 63 <=? v then - 2 ^ Z.log2 w else 2 ^ Z.log2 w); [by apply pow2_case_ok|].
  rewrite <- Hl. rewrite Es in Ew |- *. destruct (Z.leb_spec (2 ^ 63) v); simpl Z.b2z in *; lia.
Qed.

Lemma js_bigint_pow_ok a b : bigint_ok a -> bigint_ok b -> 0 <= sval b -> power_ok (js_bigint_pow fresh a b) (sval a ^ sval b).
Proof.
  intros Ha Hb Hp. unfold js_bigint_pow. pose proof Hb as [Hlb Hnb%normalized_ne]. rewrite sval_neg by done. rewrite bool_decide_eq_false_2 by lia.
  case_bool_decide as Hb0; [subst b; by apply new_si_power|]. rewrite zero_iff in Hb0 by done.
  destruct a as [|v [|w a]]; [by destruct Ha| |].
  - apply pow_small_ok; [|done|lia]. destruct Ha as [Ha _]. by inversion Ha.
  - apply pow_general_ok; [done|done|lia|]. pose proof (normalized_large _ (length a) Ha eq_refl). pose proof (Bn_mono 1 (S (length a)) ltac:(lia)) as Hm. rewrite Bn_S, Bn_0 in Hm. lia.
Qed.
End Operations.

(** ** Part 4: theorems *)

(** C13. The operators on big integers compute the mathematical result: for two normalized numbers
    [js_bigint_add] gives the sum or the difference, [js_bigint_neg] the opposite, [js_bigint_mul]
    the product, [js_bigint_logic] and [js_bigint_not] the bitwise operations on infinite two's
    complement, [js_bigint_shl] and [js_bigint_shr] multiplication by a power of two and division
    rounded down; [js_bigint_cmp] their order. Every result is an array with no limb too many, and
    each of them throws exactly when the array it first allocates would exceed
    [JS_BIGINT_MAX_SIZE]; what a new array held does not matter. *)
Theorem bigint_arithmetic_exact fresh a b :
  (forall n, length (fresh n) = n /\ limbs_ok (fresh n)) -> bigint_ok a -> bigint_ok b ->
  computes (js_bigint_add fresh a b false) (max (length a) (length b)) (sval a + sval b) /\
  computes (js_bigint_add fresh a b true) (max (length a) (length b)) (sval a - sval b) /\
  computes (js_bigint_neg fresh a) (length a) (- sval a) /\
  computes (js_bigint_mul fresh a b) (length a + length b) (sval a * sval b) /\
  (forall op, computes (js_bigint_logic fresh a b op) (max (length a) (length b)) (logic op (sval a) (sval b))) /\
  computes (js_bigint_not fresh a) (length a) (Z.lnot (sval a)) /\
  (forall k, 0 <= k -> computes (js_bigint_shl fresh a k) (if bool_decide (sval a = 0) then 1 else length a + Z.to_nat (k / 64)) (sval a * 2 ^ k)) /\
  (forall k, 0 <= k -> computes (js_bigint_shr fresh a k) (length a - Z.to_nat (k / 64)) (sval a / 2 ^ k)) /\
  js_bigint_cmp a b = three_way (sval a) (sval b).
Proof.
  intros Hf Ha Hb. split_and!.
  - by apply (js_bigint_add_computes fresh a b false).
  - by apply (js_bigint_add_computes fresh a b true).
  - by apply js_bigint_neg_ok.
  - by apply js_bigint_mul_ok.
  - intros op. by apply js_bigint_logic_ok.
  - by apply js_bigint_not_ok.
  - intros k Hk. case_bool_decide as Hz; [by apply js_bigint_shl_zero|by apply js_bigint_shl_ok].
  - intros k Hk. by apply js_bigint_shr_ok.
  - by apply js_bigint_cmp_ok.
Qed.
Definition fresh_junk (n : nat) : list Z := replicate n 12297829382473034410.
Lemma fresh_junk_ok n : length (fresh_junk n) = n /\ limbs_ok (fresh_junk n).
Proof. split; [apply length_replicate|]. apply limbs_replicate. unfold limb_ok. lia. Qed.
Lemma bigint_ok_dec l : forallb (fun x => (0 <=? x) && (x <? B)) l = true -> normalized l -> bigint_ok l.
Proof.
  intros H Hn. split; [|done]. apply List.Forall_forall. intros x Hx. rewrite forallb_forall in H. specialize (H x Hx). unfold limb_ok. lia.
Qed.

(** C14. Division: for a divisor other than zero [js_bigint_divrem] gives the quotient rounded
    toward zero and the remainder with the sign of the dividend, both normalized, without an
    access outside its arrays; the trial quotients of [mp_divnorm] are corrected at most twice. It
    throws for the divisor zero, and when the dividend with two more limbs exceeds
    [JS_BIGINT_MAX_SIZE]. *)
Theorem bigint_division_exact fresh a b :
  (forall n, length (fresh n) = n /\ limbs_ok (fresh n)) -> bigint_ok a -> bigint_ok b ->
  if bool_decide (sval b = 0)
  then forall is_rem, js_bigint_divrem fresh a b is_rem = throw DivisionByZero
  else computes (js_bigint_divrem fresh a b false) (length a + 2) (Z.quot (sval a) (sval b)) /\
       computes (js_bigint_divrem fresh a b true) (length a + 2) (Z.rem (sval a) (sval b)).
Proof.
  intros Hf Ha Hb. case_bool_decide as Hz.
  - intros is_rem. unfold js_bigint_divrem. rewrite bool_decide_eq_true_2; [done|]. by apply zero_iff.
  - split; [by apply (js_bigint_divrem_ok fresh Hf a b false)|by apply (js_bigint_divrem_ok fresh Hf a b true)].
Qed.

(** Powers: for an exponent that is not negative [js_bigint_pow] gives the power, normalized,
    or throws that the result is too large, and that only for powers of at least [2^1048510]; it
    does no access outside its arrays and its loop ends. A negative exponent is refused. *)
Theorem bigint_power_exact fresh a b :
  (forall n, length (fresh n) = n /\ limbs_ok (fresh n)) -> bigint_ok a -> bigint_ok b ->
  if bool_decide (sval b < 0)
  then js_bigint_pow fresh a b = throw NegativeExponent
  else match js_bigint_pow fresh a b with
       | Ret (inr r) => bigint_ok r /\ sval r = sval a ^ sval b
       | Ret (inl e) => e = TooLarge /\ 2 ^ large_bits <= 4 * Z.abs (sval a ^ sval b)
       | _ => False
       end.
Proof.
  intros Hf Ha Hb. pose proof Hb as [Hlb Hnb%normalized_ne]. case_bool_decide as Hs.
  - unfold js_bigint_pow. rewrite sval_neg by done. by rewrite bool_decide_eq_true_2.
  - pose proof (js_bigint_pow_ok fresh Hf a b Ha Hb ltac:(lia)) as Hp. unfold power_ok in Hp.
    destruct (js_bigint_pow fresh a b) as [[[]|r]| |]; done.
Qed.

Definition sample_a : list Z := [18446744073709551615; 1; 18446744073709551615].
Definition sample_b : list Z := [5; 9223372036854775808; 0].

Lemma bigint_arithmetic_exact_witness :
  bigint_ok sample_a /\ bigint_ok sample_b /\
  computes (js_bigint_mul fresh_junk sample_a sample_b) 6 (sval sample_a * sval sample_b) /\
  js_bigint_mul fresh_junk sample_a sample_b = ok [18446744073709551611; 9223372036854775817; 18446744073709551610; 9223372036854775808].
Proof.
  assert (bigint_ok sample_a) as Ha by (by apply bigint_ok_dec). assert (bigint_ok sample_b) as Hb by (by apply bigint_ok_dec).
  split; [done|]. split; [done|]. split; [|vm_compute; reflexivity].
  destruct (bigint_arithmetic_exact fresh_junk sample_a sample_b fresh_junk_ok Ha Hb) as (_ & _ & _ & H & _). exact H.
Defined.

Definition sample_c : list Z := [18446744073709539236; 9223372036854775877; 18446744073709551577; 9223372036854775814; 18446744073709551612].
Lemma bigint_division_exact_witness :
  bigint_ok sample_c /\ bigint_ok sample_b /\ sval sample_b <> 0 /\
  computes (js_bigint_divrem fresh_junk sample_c sample_b true) (length sample_c + 2) (Z.rem (sval sample_c) (sval sample_b)) /\
  js_bigint_divrem fresh_junk sample_c sample_b false = ok [18446744073709551609; 13; 18446744073709551609] /\
  js_bigint_divrem fresh_junk sample_c sample_b true = ok [18446744073709539271].
Proof.
  assert (bigint_ok sample_c) as Hc by (by apply bigint_ok_dec). assert (bigint_ok sample_b) as Hb by (by apply bigint_ok_dec).
  split; [done|]. split; [done|]. split; [by vm_compute|]. split; [|split; vm_compute; reflexivity].
  pose proof (bigint_division_exact fresh_junk sample_c sample_b fresh_junk_ok Hc Hb) as H. rewrite bool_decide_eq_false_2 in H by (by vm_compute). by destruct H.
Defined.

Lemma bigint_power_exact_witness :
  bigint_ok [18446744073709551613] /\ bigint_ok [41] /\
  js_bigint_pow fresh_junk [18446744073709551613] [41] = ok [420491770248316829; 18446744073709551614] /\ sval [420491770248316829; 18446744073709551614] = sval [18446744073709551613] ^ sval [41].
Proof.
  assert (bigint_ok [18446744073709551613]) as Ha by (by apply bigint_ok_dec). assert (bigint_ok [41]) as Hb by (by apply bigint_ok_dec).
  assert (js_bigint_pow fresh_junk [18446744073709551613] [41] = ok [420491770248316829; 18446744073709551614]) as E by (vm_compute; reflexivity).
  pose proof (bigint_power_exact fresh_junk _ _ fresh_junk_ok Ha Hb) as H. rewrite E in H. change (bool_decide (sval [41] < 0)) with false in H.
  split; [exact Ha|]. split; [exact Hb|]. split; [exact E|]. exact (proj2 H).
Defined.

(** ** Values

    A number that fits in a limb is kept in the value itself. *)

Inductive bigint_value := SHORT_BIG_INT (v : Z) | BIG_INT (p : list Z).

Definition JS_SHORT_BIG_INT_MIN : Z := - 2 ^ 63.
Definition JS_SHORT_BIG_INT_MAX : Z := 2 ^ 63 - 1.
Definition is_short (v : Z) : bool := (JS_SHORT_BIG_INT_MIN <=? v) && (v <=? JS_SHORT_BIG_INT_MAX).

(** [js_bigint_set_short] for a short operand. *)
Definition operand (v : bigint_value) : list Z := match v with SHORT_BIG_INT v => js_bigint_set_si v | BIG_INT p => p end.

Definition value (v : bigint_value) : Z := match v with SHORT_BIG_INT v => v | BIG_INT p => sval p end.
(** A value is short exactly when it fits. *)
Definition value_ok (v : bigint_value) : Prop :=
  match v with SHORT_BIG_INT v => is_short v = true | BIG_INT p => bigint_ok p /\ (2 <= length p)%nat end.
Definition limbs (v : bigint_value) : nat := length (operand v).

Lemma is_short_iff v : is_short v = true <-> - 2 ^ 63 <= v < 2 ^ 63.
Proof. unfold is_short, JS_SHORT_BIG_INT_MIN, JS_SHORT_BIG_INT_MAX. lia. Qed.

Lemma sval_short v : - 2 ^ 63 <= v < 2 ^ 63 -> sval [u64 v] = v.
Proof.
  intros Hv. apply (sval_unique [u64 v] v (- (v / B))); [constructor; [apply u64_limb|apply Forall_nil_2]|done|cbn [length]; rewrite Bn_S, Bn_0; lia|].
  cbn [val length]. rewrite Bn_S, Bn_0. pose proof (u64_split v). lia.
Qed.
Lemma operand_ok v : value_ok v -> bigint_ok (operand v) /\ sval (operand v) = value v.
Proof.
  destruct v as [v|p]; cbn [value_ok operand value]; [|intros [? _]; done]. intros Hv%is_short_iff. split; [apply small_ok, u64_limb|by apply sval_short].
Qed.
