(* ===== verification/BigIntString.v ===== *)
(** Big integers as text, deps/quickjs/quickjs.c: [js_bigint_from_string] and
    [js_bigint_to_string1], with the functions and tables they use.

    A string is the list of its characters without the terminating zero. The buffer that
    [js_bigint_to_string1] fills from its end is the room that is left and what is written.

    Part 1 is the code, Part 2 parsing, Part 3 printing, Part 4 the theorems. *)

From S2P Require Import Prelude Digits Limbs BigInt.

(** ** Part 1: the code *)

Definition to_digit (c : Z) : Z :=
  if (48 <=? c) && (c <=? 57) then c - 48
  else if (65 <=? c) && (c <=? 90) then c - 65 + 10
  else if (97 <=? c) && (c <=? 122) then c - 97 + 10
  else 36.

Definition js_pow_dec : list Z :=
  [1; 10; 100; 1000; 10000; 100000; 1000000; 10000000; 100000000; 1000000000; 10000000000;
   100000000000; 1000000000000; 10000000000000; 100000000000000; 1000000000000000;
   10000000000000000; 100000000000000000; 1000000000000000000; 10000000000000000000].
Definition JS_LIMB_DIGITS : nat := 19.

Fixpoint skip_zeros (p : list Z) : list Z :=
  match p with c :: p' => if c =? 48 then skip_zeros p' else p | [] => [] end.

(** The inner loop: at most [n] digits, their number and value. *)
Fixpoint read_digits (n : nat) (p : list Z) (i : nat) (v : Z) : list Z * nat * Z :=
  match n, p with
  | S n, ch :: p' =>
      let c := to_digit ch in
      if 10 <=? c then (p, i, v) else read_digits n p' (S i) (u64 (v * 10 + c))
  | _, _ => (p, i, v)
  end.

(** The loop for radix 10; every pass but the last reads a digit. *)
Fixpoint dec_loop (fuel : nat) (p tab : list Z) (len : nat) : outcome (list Z * nat) :=
  match fuel with
  | O => UB
  | S fuel =>
      let '(p, i, v) := read_digits JS_LIMB_DIGITS p 0 0 in
      if (i =? 0)%nat then Ret (tab, len)
      else
        t0 ← limb tab 0;
        '(tab, len) ← (if (len =? 1)%nat && (t0 =? 0) then tab ← splice tab 0 [v]; Ret (tab, len)
                       else
                         part ← slice tab 0 len;
                         pow ← limb js_pow_dec i;
                         let '(part, h) := mp_mul1 part pow v in
                         tab ← splice tab 0 part;
                         if h =? 0 then Ret (tab, len) else tab ← splice tab len [h]; Ret (tab, S len));
        dec_loop fuel p tab len
  end.

Definition from_decimal (p r : list Z) : outcome (list Z) :=
  tab ← splice r 0 [0];
  '(tab, len) ← dec_loop (S (length p)) p tab 1;
  top ← limb tab (len - 1);
  '(tab, len) ← (if Z.testbit top 63 then tab ← splice tab len [0]; Ret (tab, S len) else Ret (tab, len));
  Ret (take len tab).

(** The loop for a radix that is a power of two, over the digits from the last. *)
Fixpoint from_binary (digits : list Z) (i radix log2_radix : Z) (tab : list Z) : outcome (list Z) :=
  match digits with
  | [] => Ret tab
  | ch :: digits =>
      let c := to_digit ch in
      if radix <=? c then AssertFail
      else
        let bit_pos := i * log2_radix in
        let shift := Z.land bit_pos 63 in
        let pos := Z.to_nat (bit_pos / 64) in
        x ← limb tab pos;
        tab ← splice tab pos [Z.lor x (u64 (Z.shiftl c shift))];
        tab ← (if 64 <? shift + log2_radix then
                 x ← limb tab (S pos);
                 splice tab (S pos) [Z.lor x (Z.shiftr c (64 - shift))]
               else Ret tab);
        from_binary digits (i + 1) radix log2_radix tab
  end.

Section Code.
Context (fresh : nat -> list Z).

(** The bits allowed for [n_digits] digits. *)
Definition digit_bits (n_digits radix : Z) : Z :=
  if radix =? 10 then (n_digits * 27 + 7) / 8 else n_digits * (Z.log2 (radix - 1) + 1).

Definition js_bigint_from_string (str : list Z) (radix : Z) : throws (list Z) :=
  let '(is_neg, p) := match str with c :: p => if c =? 45 then (true, p) else (false, str) | [] => (false, []) end in
  let p := skip_zeros p in
  let n_digits := Z.of_nat (length p) in
  if JS_BIGINT_MAX_SIZE * 64 <? n_digits then throw TooLarge
  else
    let n_bits := digit_bits n_digits radix in
    let n_limbs := Z.to_nat (Z.max 1 (n_bits / 64 + 1)) in
    r ⇐ js_bigint_new fresh n_limbs;
    r ← (if radix =? 10 then from_decimal p r
         else from_binary (rev p) 0 radix (Z.log2 (radix - 1) + 1) (replicate n_limbs 0));
    let r := js_bigint_normalize r in
    if is_neg then js_bigint_neg fresh r else ok r.

(** [js_u64toa], whose two branches are the same loop. *)
Definition js_u64toa (room : nat) (n base : Z) (q : list Z) : outcome (nat * list Z) := toa_loop room n base q.

(** [limb_to_a]: [len] digits. *)
Fixpoint limb_to_a (room : nat) (n radix : Z) (len : nat) (q : list Z) : outcome (nat * list Z) :=
  match len, room with
  | O, _ => Ret (room, q)
  | S _, O => UB
  | S len, S room => limb_to_a room (n / radix) radix len (digit_char (n mod radix) :: q)
  end.

Definition digits_per_limb_table : list nat :=
  [64; 40; 32; 27; 24; 22; 21; 20; 19; 18; 17; 17; 16; 16; 16; 15; 15; 15; 14; 14; 14; 14; 13; 13;
   13; 13; 13; 13; 13; 12; 12; 12; 12; 12; 12]%nat.
Definition radix_base_table : list Z :=
  [0x0000000000000000; 0xa8b8b452291fe821; 0x0000000000000000; 0x6765c793fa10079d;
   0x41c21cb8e1000000; 0x3642798750226111; 0x8000000000000000; 0xa8b8b452291fe821;
   0x8ac7230489e80000; 0x4d28cb56c33fa539; 0x1eca170c00000000; 0x780c7372621bd74d;
   0x1e39a5057d810000; 0x5b27ac993df97701; 0x0000000000000000; 0x27b95e997e21d9f1;
   0x5da0e1e53c5c8000; 0xd2ae3299c1c4aedb; 0x16bcc41e90000000; 0x2d04b7fdd9c0ef49;
   0x5658597bcaa24000; 0xa0e2073737609371; 0x0c29e98000000000; 0x14adf4b7320334b9;
   0x226ed36478bfa000; 0x383d9170b85ff80b; 0x5a3c23e39c000000; 0x8e65137388122bcd;
   0xdd41bb36d259e000; 0x0aee5720ee830681; 0x1000000000000000; 0x172588ad4f5f0981;
   0x211e44f7d02c1000; 0x2ee56725f06e5c71; 0x41c21cb8e1000000].

(** The loop for a radix that is not a power of two: divide by the power of the radix that fits in a
    limb, print the remainder with all its digits and the last quotient without leading zeros. *)
Fixpoint to_string_loop (fuel room : nat) (r : list Z) (radix radix_base : Z) (digits : nat) (q : list Z) : outcome (nat * list Z) :=
  match fuel with
  | O => UB
  | S fuel =>
      let r := take (trim_len r) r in
      let divide :=
        let '(r, v) := mp_div1 r radix_base 0 in
        '(room, q) ← limb_to_a room v radix digits q;
        to_string_loop fuel room r radix radix_base digits q in
      match r with
      | [v] => if v <? radix_base then (if v =? 0 then Ret (room, q) else js_u64toa room v radix q) else divide
      | _ => divide
      end
  end.

(** The loop for a power of two: [n] digits from bit [i * log2_radix] up. *)
Fixpoint to_string_bin (n room : nat) (i : Z) (r : list Z) (radix log2_radix : Z) (q : list Z) : outcome (nat * list Z) :=
  match n, room with
  | O, _ => Ret (room, q)
  | S _, O => UB
  | S n, S room =>
      let bit_pos := i * log2_radix in
      let pos := Z.to_nat (bit_pos / 64) in
      let shift := bit_pos mod 64 in
      x ← limb r pos;
      let c := u32 (Z.shiftr x shift) in
      c ← (if (64 <? shift + log2_radix) && (S pos <? length r)%nat then
             y ← limb r (S pos);
             Ret (u32 (Z.lor c (u64 (Z.shiftl y (64 - shift)))))
           else Ret c);
      let c := Z.land c (radix - 1) in
      to_string_bin n room (i + 1) r radix log2_radix (digit_char c :: q)
  end.

Definition js_bigint_to_string1 (val : bigint_value) (radix : Z) : throws (list Z) :=
  match val with
  | SHORT_BIG_INT v => buf ← i64toa_radix v radix; ok buf
  | BIG_INT r =>
      if bool_decide (r = [0]) then ok [48]
      else
        let is_binary_radix := Z.land radix (radix - 1) =? 0 in
        let is_neg := js_bigint_sign r in
        r ⇐ (if is_neg then js_bigint_neg fresh r
             else if is_binary_radix then ok r
             else _ ⇐ js_bigint_new fresh (length r); ok r);
        let log2_radix := Z.log2 radix in
        let n_bits := Z.of_nat (length r) * 64 - js_limb_safe_clz (top_limb r) in
        let n_digits := Z.to_nat ((n_bits + log2_radix - 1) / log2_radix) in
        let room := (n_digits + Nat.b2n is_neg)%nat in
        '(room, q) ← (if is_binary_radix then to_string_bin n_digits room 0 r radix log2_radix []
                      else
                        radix_base ← limb radix_base_table (Z.to_nat (radix - 2));
                        digits ← (match digits_per_limb_table !! Z.to_nat (radix - 2) with Some d => Ret d | None => UB end);
                        to_string_loop (S room) room r radix radix_base digits []);
        if is_neg then (match room with O => UB | S _ => ok (45 :: q) end) else ok q
  end.
End Code.

(** ** Part 2: parsing *)

Local Notation B := 18446744073709551616.

Definition digit_chars (r : Z) (p : list Z) : Prop := Forall (fun c => 0 <= to_digit c < r) p.
Definition pval (r : Z) (p : list Z) : Z := dval r (map to_digit p).

Lemma pval_app r a b : pval r (a ++ b) = pval r a * r ^ Z.of_nat (length b) + pval r b.
Proof. unfold pval. by rewrite map_app, dval_app, length_map. Qed.
Lemma pval_bound r p : 2 <= r -> digit_chars r p -> 0 <= pval r p < r ^ Z.of_nat (length p).
Proof. intros Hr Hp. unfold pval. rewrite <- (length_map to_digit p). apply dval_bound; [done|]. by apply Forall_map. Qed.

Lemma read_digits_ok n p i v :
  digit_chars 10 p -> 0 <= v < 10 ^ Z.of_nat i -> (i + n <= 19)%nat ->
  let k := min n (length p) in read_digits n p i v = (drop k p, (i + k)%nat, v * 10 ^ Z.of_nat k + pval 10 (take k p)).
Proof.
  intros Hp. revert n i v. induction Hp as [|ch p Hch Hp IH]; intros n i v Hv Hn; cbn zeta.
  { rewrite Nat.min_0_r. destruct n; cbn [read_digits drop take]; rewrite Nat.add_0_r; change (Z.of_nat 0) with 0; rewrite Z.pow_0_r, Z.mul_1_r, Z.add_0_r; done. }
  destruct n as [|n]; cbn [read_digits].
  { cbn [Nat.min drop take]. rewrite Nat.add_0_r. change (Z.of_nat 0) with 0. rewrite Z.pow_0_r, Z.mul_1_r, Z.add_0_r. done. }
  destruct (Z.leb_spec 10 (to_digit ch)); [lia|]. pose proof (Z.pow_le_mono_r 10 (Z.of_nat i) 18 ltac:(lia) ltac:(lia)) as Hp18.
  assert (u64 (v * 10 + to_digit ch) = v * 10 + to_digit ch) as -> by (apply (wrap_small 64); unfold uint_ok; lia).
  rewrite IH; [|rewrite Nat2Z.inj_succ, Z.pow_succ_r by lia; lia|lia]. cbn [length Nat.min drop take]. f_equal; [f_equal; lia|].
  change (ch :: take (min n (length p)) p) with ([ch] ++ take (min n (length p)) p). rewrite pval_app, length_take.
  replace (min (min n (length p)) (length p)) with (min n (length p)) by lia. rewrite Nat2Z.inj_succ, Z.pow_succ_r by lia. unfold pval at 2, dval. cbn [map dval_from]. ring.
Qed.

Lemma pow_dec_ok i : (i <= 19)%nat -> limb js_pow_dec i = Ret (10 ^ Z.of_nat i) /\ limb_ok (10 ^ Z.of_nat i).
Proof. intros Hi. unfold limb_ok. do 20 (destruct i as [|i]; [by vm_compute|]). lia. Qed.

(** The value in the first [len] limbs of the array, with no more limbs than it needs. *)
Definition dec_inv (tab : list Z) (len : nat) (V : Z) : Prop :=
  (1 <= len <= length tab)%nat /\ limbs_ok (take len tab) /\ val (take len tab) = V /\ (len = 1%nat \/ Bn (len - 1) <= V).

(** One pass: from [V] to [V * 10^i + v]. *)
Lemma dec_step_ok tab len V i v :
  dec_inv tab len V -> (1 <= i <= 19)%nat -> limb_ok v -> V * 10 ^ Z.of_nat i + v < Bn (length tab) ->
  exists tab' len', dec_inv tab' len' (V * 10 ^ Z.of_nat i + v) /\ length tab' = length tab /\
  (t0 ← limb tab 0;
   if (len =? 1)%nat && (t0 =? 0) then tab ← splice tab 0 [v]; Ret (tab, len)
   else
     part ← slice tab 0 len;
     pow ← limb js_pow_dec i;
     let '(part, h) := mp_mul1 part pow v in
     tab ← splice tab 0 part;
     if h =? 0 then Ret (tab, len) else tab ← splice tab len [h]; Ret (tab, S len)) = Ret (tab', len').
Proof.
  intros (Hlen & Hl & EV & Hlow) Hi Hv Hbig. destruct (split_at tab 0 len) as (lo & part & rest & -> & Elo & Ep); [lia|]. destruct lo; [|done]. cbn [app] in *.
  assert (take len (part ++ rest) = part) as Et by (rewrite <- Ep; apply take_app_length). rewrite Et in *. destruct part as [|t0 part]; [simpl in Ep; lia|].
  change (limb ((t0 :: part) ++ rest) 0) with (Ret t0). cbn [mbind outcome_bind]. destruct ((len =? 1)%nat && (t0 =? 0)) eqn:Ec.
  - apply andb_prop in Ec as [Ec1%Nat.eqb_eq Ec2%Z.eqb_eq]. subst t0. assert (part = []) as -> by (destruct part; [done|simpl in Ep; lia]). rewrite Ec1 in *. exists ([v] ++ rest), 1%nat.
    rewrite (splice_front [0] [v] rest) by done. simpl in EV. subst V. split; [|done]. split; [simpl; lia|]. change (take 1 ([v] ++ rest)) with [v].
    split; [by constructor; [|apply Forall_nil_2]|]. split; [simpl; lia|by left].
  - set (P := t0 :: part) in *. clearbody P. destruct (pow_dec_ok i) as [-> Hpow]; [lia|]. rewrite slice_front by done. cbn [mbind outcome_bind].
    destruct (mp_mul1_ok P (10 ^ Z.of_nat i) v Hl Hpow Hv) as (P' & h & -> & HP' & ElP & Hh & EvP). rewrite splice_front by done. cbn [mbind outcome_bind].
    rewrite EV, Ep in EvP. pose proof (val_bound P' HP') as HbP. rewrite ElP, Ep in HbP. rewrite !length_app in *. pose proof (Z.pow_pos_nonneg 10 (Z.of_nat i) ltac:(lia) ltac:(lia)).
    unfold limb_ok in Hv. destruct (Z.eqb_spec h 0) as [->|Hh0].
    + exists (P' ++ rest), len. assert (take len (P' ++ rest) = P') as Et' by (rewrite <- Ep, <- ElP; apply take_app_length). split; [|split; [rewrite length_app; lia|done]].
      split; [rewrite length_app; lia|]. rewrite Et'. split; [done|]. split; [lia|]. destruct Hlow as [|Hlow]; [by left|right]. pose proof (Bn_pos (len - 1)). nia.
    + assert (len < length P + length rest)%nat as Hroom.
      { destruct (decide (length P + length rest <= len)%nat) as [Hge|]; [|lia]. apply Bn_mono in Hge. unfold limb_ok in Hh. nia. }
      destruct rest as [|x rest]; [simpl in Hroom; lia|]. change (x :: rest) with ([x] ++ rest). rewrite splice_app by (done || lia). cbn [mbind outcome_bind].
      exists (P' ++ [h] ++ rest), (S len). split; [|split; [rewrite !length_app; simpl; lia|done]]. split; [rewrite !length_app; simpl; lia|].
      assert (take (S len) (P' ++ [h] ++ rest) = P' ++ [h]) as -> by (rewrite app_assoc; replace (S len) with (length (P' ++ [h])) by (rewrite length_app; simpl; lia); apply take_app_length).
      split; [by apply limbs_snoc|]. rewrite val_app, ElP, Ep. cbn [val]. split; [lia|right]. replace (S len - 1)%nat with len by lia. unfold limb_ok in Hh. nia.
Qed.

Lemma dec_loop_ok fuel p tab len V :
  digit_chars 10 p -> (length p < fuel)%nat -> dec_inv tab len V -> 0 <= V -> V * 10 ^ Z.of_nat (length p) + pval 10 p < Bn (length tab) ->
  exists tab' len', dec_loop fuel p tab len = Ret (tab', len') /\ length tab' = length tab /\ dec_inv tab' len' (V * 10 ^ Z.of_nat (length p) + pval 10 p).
Proof.
  revert p tab len V. induction fuel as [|fuel IH]; intros p tab len V Hp Hf Hinv HV Hbig; [lia|]. cbn [dec_loop]. unfold JS_LIMB_DIGITS.
  rewrite (read_digits_ok 19 p 0 0 Hp) by (change (10 ^ Z.of_nat 0) with 1; lia). set (k := min 19 (length p)). destruct p as [|ch p].
  { exists tab, len. cbn [length]. change (10 ^ Z.of_nat 0) with 1. unfold pval, dval. cbn [map dval_from]. replace (V * 1 + 0) with V by lia. split; [reflexivity|]. split; [done|exact Hinv]. }
  destruct (Nat.eqb_spec (0 + k) 0) as [Hk|_]; [unfold k in Hk; cbn [length] in Hk; lia|]. set (P := ch :: p) in *.
  assert (1 <= k <= 19)%nat as Hk by (unfold k; cbn [length P]; subst P; simpl length; lia). assert (k <= length P)%nat as HkP by (unfold k; lia). clearbody k.
  assert (digit_chars 10 (take k P)) as Htk by (by apply Forall_take). assert (digit_chars 10 (drop k P)) as Hdk by (by apply Forall_drop).
  pose proof (pval_bound 10 (take k P) ltac:(lia) Htk) as Hv. rewrite length_take, Nat.min_l in Hv by lia. pose proof (pval_bound 10 (drop k P) ltac:(lia) Hdk) as Hd.
  assert (V * 10 ^ Z.of_nat (length P) + pval 10 P = (V * 10 ^ Z.of_nat k + pval 10 (take k P)) * 10 ^ Z.of_nat (length (drop k P)) + pval 10 (drop k P)) as EV.
  { rewrite <- (take_drop k P) at 2. rewrite pval_app, length_drop. replace (Z.of_nat (length P)) with (Z.of_nat k + Z.of_nat (length P - k)) by lia. rewrite Z.pow_add_r by lia. ring. }
  rewrite EV in *. clear EV. pose proof (Z.pow_le_mono_r 10 (Z.of_nat k) 19 ltac:(lia) ltac:(lia)). pose proof (Z.pow_pos_nonneg 10 (Z.of_nat (length (drop k P))) ltac:(lia) ltac:(lia)).
  rewrite Z.mul_0_l, Z.add_0_l. set (v := pval 10 (take k P)) in *. set (V' := V * 10 ^ Z.of_nat k + v) in *.
  assert (0 <= V') by (unfold V'; pose proof (Z.pow_pos_nonneg 10 (Z.of_nat k)); nia).
  destruct (dec_step_ok tab len V k v Hinv Hk) as (tab' & len' & Hinv' & Elt & Es); [unfold limb_ok; lia|fold V'; nia|].
  change (0 + k)%nat with k. fold V' in Hinv'. clearbody V' v. destruct (limb tab 0) as [t0| |]; try done. cbn [mbind outcome_bind] in *. rewrite Es. cbn [mbind outcome_bind].
  rewrite <- Elt in Hbig |- *. apply IH; try done. rewrite length_drop. lia.
Qed.

Lemma from_decimal_ok p r :
  digit_chars 10 p -> (0 < length r)%nat -> 2 * pval 10 p < Bn (length r) ->
  exists l, from_decimal p r = Ret l /\ limbs_ok l /\ l <> [] /\ sval l = pval 10 p /\ (length l <= length r)%nat.
Proof.
  intros Hp Hr Hbig. unfold from_decimal. destruct r as [|x rest]; [simpl in Hr; lia|]. change (x :: rest) with ([x] ++ rest) in *. rewrite splice_front by done. cbn [mbind outcome_bind].
  assert (length ([0] ++ rest) = length ([x] ++ rest)) as El0 by done. pose proof (pval_bound 10 p ltac:(lia) Hp). rewrite <- El0 in *. clear El0 Hr. set (tab := [0] ++ rest) in *.
  assert (dec_inv tab 1 0) as Hinv. { split; [simpl; lia|]. split; [constructor; [unfold limb_ok; lia|apply Forall_nil_2]|]. split; [done|by left]. }
  clearbody tab. destruct (dec_loop_ok (S (length p)) p tab 1 0 Hp ltac:(lia) Hinv ltac:(lia)) as (tab' & len & -> & El & Hlen & Hl & Ev & _); [lia|]. cbn [mbind outcome_bind].
  rewrite Z.mul_0_l, Z.add_0_l in Ev. destruct (split_at tab' 0 len) as (lo & part & rest' & -> & Elo & Ep); [lia|]. destruct lo; [|done]. cbn [app] in *.
  assert (take len (part ++ rest') = part) as Et by (rewrite <- Ep; apply take_app_length). rewrite Et in *.
  destruct part as [|t low _] using rev_ind; [simpl in Ep; lia|]. rewrite length_app in Ep. simpl in Ep. rewrite <- app_assoc. rewrite (limb_app low t rest') by lia. cbn [mbind outcome_bind].
  pose proof Hl as [Hlow Ht]%limbs_snoc. rewrite length_app in El, Hlen. rewrite <- El in Hbig. destruct (Z.testbit t 63) eqn:Es.
  - assert (rest' <> []) as Hne.
    { intros ->. rewrite sign_bit in Es by done. pose proof (top_bounds low t Hlow). cbn [length] in Hbig. rewrite Nat.add_0_r, length_app in Hbig. cbn [length] in Hbig.
      rewrite Bn_add, Bn_S, Bn_0 in Hbig. pose proof (Bn_pos (length low)). unfold limb_ok in Ht. nia. }
    destruct rest' as [|y rest']; [done|]. rewrite app_assoc. change (y :: rest') with ([y] ++ rest'). rewrite splice_app by (done || (rewrite length_app; simpl; lia)). cbn [mbind outcome_bind].
    exists ((low ++ [t]) ++ [0]). split; [|split; [|split; [|split]]].
    + f_equal. rewrite app_assoc. replace (S len) with (length ((low ++ [t]) ++ [0])) by (rewrite !length_app; simpl; lia). apply take_app_length.
    + apply limbs_snoc. split; [done|unfold limb_ok; lia].
    + by destruct low.
    + rewrite sval_snoc, Ev. simpl. lia.
    + rewrite <- El, !length_app. simpl. lia.
  - exists (low ++ [t]). split; [|split; [done|split; [by destruct low|split]]].
    + cbn [mbind outcome_bind]. f_equal. rewrite app_assoc. replace len with (length (low ++ [t])) by (rewrite !length_app; simpl; lia). apply take_app_length.
    + rewrite sval_snoc, Es. rewrite val_app in Ev. cbn [val] in Ev. simpl Z.b2z. lia.
    + rewrite <- El, length_app. lia.
Qed.

(** One digit of a binary radix. *)
Lemma binary_step tab b k c :
  limbs_ok tab -> 0 <= b -> 1 <= k <= 63 -> 0 <= c < 2 ^ k -> val tab < 2 ^ b -> b + k <= 64 * Z.of_nat (length tab) ->
  exists tab', limbs_ok tab' /\ length tab' = length tab /\ val tab' = val tab + c * 2 ^ b /\
  (x ← limb tab (Z.to_nat (b / 64));
   tab ← splice tab (Z.to_nat (b / 64)) [Z.lor x (u64 (Z.shiftl c (Z.land b 63)))];
   if 64 <? Z.land b 63 + k then
     x ← limb tab (S (Z.to_nat (b / 64)));
     splice tab (S (Z.to_nat (b / 64))) [Z.lor x (Z.shiftr c (64 - Z.land b 63))]
   else Ret tab) = Ret tab'.
Proof.
  intros Hl Hb Hk Hc Hv Hlen. assert (Z.land b 63 = b mod 64) as -> by (apply (Z.land_ones b 6); lia). rewrite shift_split in Hv |- * by done.
  pose proof (Z.mod_pos_bound b 64 ltac:(lia)) as Hs. pose proof (Z.div_pos b 64 ltac:(lia) ltac:(lia)). pose proof (Z.div_mod b 64 ltac:(lia)) as Edm.
  set (s := b mod 64) in *. set (pos := Z.to_nat (b / 64)) in *. assert (b = 64 * Z.of_nat pos + s) as Eb by (unfold pos; rewrite Z2Nat.id by done; lia). clearbody s pos. clear Edm.
  destruct (split_at tab pos 1) as (lo & hi & rest & -> & Elo & Ehi); [lia|]. destruct hi as [|x [|]]; try done.
  apply limbs_app in Hl as [Hlo Hl]. apply Forall_app in Hl as [Hx Hrest]. inversion Hx as [|? ? Hx' _]; subst x0 l. pose proof (val_bound lo Hlo). pose proof (val_bound rest Hrest). pose proof (Bn_pos pos).
  rewrite !val_app, Elo in *. cbn [val length] in *. rewrite Bn_S, Bn_0 in *. rewrite !length_app in Hlen. cbn [length] in Hlen. pose proof (Z.pow_pos_nonneg 2 s ltac:(lia) ltac:(lia)). pose proof (Z.pow_le_mono_r 2 s 63 ltac:(lia) ltac:(lia)).
  assert (x + B * val rest < 2 ^ s) as Hxs by nia. unfold limb_ok in Hx'. assert (val rest = 0) as Hr0 by lia. assert (0 <= x < 2 ^ s) as Hx2 by lia.
  pose proof (Z.pow_le_mono_r 2 k 63 ltac:(lia) ltac:(lia)). assert (limb_ok c) as Hlc by (unfold limb_ok; lia).
  assert (Z.lor x (u64 (Z.shiftl c s)) = (c mod 2 ^ (64 - s)) * 2 ^ s + x) as Ex by (rewrite u64_shiftl, Z.lor_comm by (done || lia); apply lor_shiftl_add; [lia|done]).
  assert (B = 2 ^ (64 - s) * 2 ^ s) as EB by (rewrite <- Z.pow_add_r by lia; replace (64 - s + s) with 64 by lia; done).
  pose proof (Z.pow_pos_nonneg 2 (64 - s) ltac:(lia) ltac:(lia)). pose proof (Z.mod_pos_bound c (2 ^ (64 - s)) ltac:(lia)) as Hm. pose proof (Z.div_mod c (2 ^ (64 - s)) ltac:(lia)) as Ecdm.
  rewrite (limb_app lo x rest) by done. cbn [mbind outcome_bind]. rewrite splice_app by done. cbn [mbind outcome_bind]. rewrite Ex. set (x' := _ + x).
  assert (limb_ok x') as Hx1 by (unfold limb_ok, x'; rewrite EB; nia).
  destruct (Z.ltb_spec 64 (s + k)).
  - destruct rest as [|y rest]; [simpl in Hlen; lia|]. inversion Hrest as [|? ? Hy Hrest']; subst x0 l. cbn [val] in Hr0. pose proof (val_bound rest Hrest'). unfold limb_ok in Hy. assert (y = 0) as -> by lia.
    replace (lo ++ [x'] ++ 0 :: rest) with ((lo ++ [x']) ++ [0] ++ rest) by (by rewrite <- app_assoc). rewrite (limb_app (lo ++ [x']) 0 rest) by (rewrite length_app; simpl; lia). cbn [mbind outcome_bind].
    rewrite splice_app by (done || (rewrite length_app; simpl; lia)). rewrite Z.lor_0_l, Z.shiftr_div_pow2 by lia. eexists. split; [|split; [|split; [|reflexivity]]].
    + apply limbs_app. split; [apply limbs_snoc; done|]. constructor; [|done]. unfold limb_ok. split; [apply Z.div_pos; lia|]. apply Z.div_lt_upper_bound; [lia|]. unfold limb_ok in Hlc. nia.
    + rewrite !length_app. simpl. lia.
    + rewrite !val_app, length_app, Elo, Bn_add. cbn [val length]. rewrite Bn_S, Bn_0. unfold x'. rewrite Hr0. rewrite Ecdm at 3. rewrite EB. ring_simplify. nia.
  - exists (lo ++ [x'] ++ rest). split; [|split; [|split; [|reflexivity]]].
    + apply limbs_app. split; [done|]. by constructor.
    + rewrite !length_app. done.
    + rewrite !val_app, Elo. cbn [val length]. rewrite Bn_S, Bn_0. unfold x'. rewrite Z.mod_small; [ring|]. split; [lia|]. eapply Z.lt_le_trans; [apply Hc|]. apply Z.pow_le_mono_r; lia.
Qed.

Lemma from_binary_ok ds i k tab :
  digit_chars (2 ^ k) ds -> 0 <= i -> 1 <= k <= 63 -> limbs_ok tab -> val tab < 2 ^ (i * k) ->
  (i + Z.of_nat (length ds)) * k <= 64 * Z.of_nat (length tab) ->
  exists tab', from_binary ds i (2 ^ k) k tab = Ret tab' /\ limbs_ok tab' /\ length tab' = length tab /\
    val tab' = val tab + pval (2 ^ k) (rev ds) * 2 ^ (i * k).
Proof.
  intros Hds Hi Hk. revert i tab Hi. induction Hds as [|ch ds Hch Hds IH]; intros i tab Hi Hl Hv Hlen; cbn [from_binary].
  { exists tab. split_and!; try done. cbn. lia. }
  cbn [length] in Hlen. destruct (Z.leb_spec (2 ^ k) (to_digit ch)); [lia|]. cbv zeta.
  destruct (binary_step tab (i * k) k (to_digit ch) Hl) as (tab1 & Hl1 & El1 & Ev1 & Es); [nia|done|lia|done|nia|].
  destruct (limb tab _) as [x| |]; try done. cbn [mbind outcome_bind] in *. destruct (splice tab _ _) as [tab0| |]; try done. cbn [mbind outcome_bind] in *. rewrite Es. cbn [mbind outcome_bind].
  assert (2 ^ ((i + 1) * k) = 2 ^ k * 2 ^ (i * k)) as Ep by (rewrite <- Z.pow_add_r by nia; f_equal; lia). pose proof (Z.pow_pos_nonneg 2 (i * k) ltac:(lia) ltac:(nia)). pose proof (val_bound tab Hl).
  destruct (IH (i + 1) tab1) as (tab2 & E2 & Hl2 & El2 & Ev2); [lia|done|rewrite Ev1, Ep; nia|nia|]. exists tab2. split_and!; try done; [lia|].
  rewrite Ev2, Ev1, Ep. cbn [rev]. rewrite pval_app. cbn [length]. change (Z.of_nat 1) with 1. rewrite Z.pow_1_r. unfold pval at 3, dval. cbn [map dval_from]. ring.
Qed.

Lemma skip_zeros_ok r p : 1 <= r -> digit_chars r p -> digit_chars r (skip_zeros p) /\ pval r (skip_zeros p) = pval r p.
Proof.
  intros Hr. induction 1 as [|c p Hc Hp [IH1 IH2]]; [split; [apply Forall_nil_2|done]|]. cbn [skip_zeros]. destruct (Z.eqb_spec c 48) as [->|]; [|split; [by constructor|done]].
  split; [done|]. rewrite IH2. change (48 :: p) with ([48] ++ p). rewrite pval_app. change (pval r [48]) with (0 * r + 0). lia.
Qed.

(** The bits allowed are enough for any number of that many digits. *)
Lemma digit_bits_enough n r : 0 <= n -> r = 10 \/ r = 2 \/ r = 8 \/ r = 16 -> r ^ n <= 2 ^ digit_bits n r /\ 0 <= digit_bits n r.
Proof.
  intros Hn Hr. unfold digit_bits. destruct (Z.eqb_spec r 10) as [->|].
  - pose proof (Z.div_mod (n * 27 + 7) 8 ltac:(lia)) as Edm. pose proof (Z.mod_pos_bound (n * 27 + 7) 8 ltac:(lia)). set (m := (n * 27 + 7) / 8) in *. assert (0 <= m) by lia. split; [|done].
    apply (Z.pow_le_mono_l_iff _ _ 8); [lia|apply Z.pow_nonneg; lia|lia|].
    rewrite <- !Z.pow_mul_r by lia. rewrite (Z.mul_comm n). rewrite Z.pow_mul_r by lia. transitivity ((2 ^ 27) ^ n); [apply Z.pow_le_mono_l; lia|].
    rewrite <- Z.pow_mul_r by lia. apply Z.pow_le_mono_r; lia.
  - destruct Hr as [->|[-> |[-> | ->]]]; [done| | |]; simpl Z.log2; (split; [|lia]); rewrite (Z.mul_comm n), Z.pow_mul_r by lia; apply Z.pow_le_mono_l; lia.
Qed.

Section Parsing.
Context (fresh : nat -> list Z) (fresh_ok : forall n, length (fresh n) = n /\ limbs_ok (fresh n)).

(** The limbs [js_bigint_from_string] allocates, and whether it refuses the string. *)
Definition string_limbs (p : list Z) (r : Z) : nat := Z.to_nat (Z.max 1 (digit_bits (Z.of_nat (length (skip_zeros p))) r / 64 + 1)).
Definition string_too_long (p : list Z) (r : Z) : bool :=
  (JS_BIGINT_MAX_SIZE * 64 <? Z.of_nat (length (skip_zeros p))) || (JS_BIGINT_MAX_SIZE <? Z.of_nat (string_limbs p r)).

Definition signed_string (neg : bool) (p : list Z) : list Z := if neg then 45 :: p else p.

Lemma parse_array p r tab :
  (r = 10 \/ r = 2 \/ r = 8 \/ r = 16) -> digit_chars r p -> skip_zeros p = p -> length tab = string_limbs p r ->
  exists l, (if r =? 10 then from_decimal p tab else from_binary (rev p) 0 r (Z.log2 (r - 1) + 1) (replicate (string_limbs p r) 0)) = Ret l /\
    limbs_ok l /\ l <> [] /\ sval l = pval r p /\ (length l <= string_limbs p r)%nat.
Proof.
  intros Hr Hp Hz El. set (n := Z.of_nat (length p)). destruct (digit_bits_enough n r ltac:(lia) Hr) as [Hbits H0].
  assert (2 * pval r p < Bn (string_limbs p r) /\ n * (Z.log2 (r - 1) + 1) <= 64 * Z.of_nat (string_limbs p r) \/ r = 10 /\ 2 * pval r p < Bn (string_limbs p r)) as Hcases.
  { assert (2 * pval r p < Bn (string_limbs p r)) as Hb.
    { pose proof (pval_bound r p ltac:(lia) Hp). fold n in H. unfold string_limbs. rewrite Hz. fold n. rewrite Bn_pow2. pose proof (Z.div_mod (digit_bits n r) 64 ltac:(lia)). pose proof (Z.mod_pos_bound (digit_bits n r) 64 ltac:(lia)).
      pose proof (Z.pow_le_mono_r 2 (digit_bits n r + 1) (64 * Z.of_nat (Z.to_nat (Z.max 1 (digit_bits n r / 64 + 1)))) ltac:(lia) ltac:(lia)) as Hm. rewrite Z.pow_add_r, Z.pow_1_r in Hm by lia. lia. }
    destruct (Z.eqb_spec r 10) as [->|Hne]; [by right|left]. split; [done|]. unfold string_limbs, digit_bits. rewrite Hz. fold n. destruct (Z.eqb_spec r 10); [done|].
    set (b := n * (Z.log2 (r - 1) + 1)). pose proof (Z.div_mod b 64 ltac:(lia)). pose proof (Z.mod_pos_bound b 64 ltac:(lia)). lia. }
  assert (1 <= string_limbs p r)%nat as Hn1 by (unfold string_limbs; lia). destruct (Z.eqb_spec r 10) as [->|Hne].
  - rewrite <- El in *. destruct (from_decimal_ok p tab Hp ltac:(lia)) as (l & E & H1 & H2 & H3 & H4); [naive_solver|]. by exists l.
  - destruct Hcases as [[Hb Hlen]|[? _]]; [|done]. set (k := Z.log2 (r - 1) + 1) in *. assert (r = 2 ^ k /\ 1 <= k <= 63) as [Er Hk] by (unfold k; destruct Hr as [->|[-> |[-> | ->]]]; done).
    clearbody k. subst r. assert (limbs_ok (replicate (string_limbs p (2 ^ k)) 0)) as Hl0 by (apply limbs_replicate; unfold limb_ok; lia).
    assert (digit_chars (2 ^ k) (rev p)) as Hrp by (unfold digit_chars in *; rewrite List.Forall_forall in *; intros c Hc; apply Hp; by apply in_rev).
    destruct (from_binary_ok (rev p) 0 k _ Hrp ltac:(lia) Hk Hl0) as (l & E & Hl & Ell & Ev); [rewrite val_replicate_0; done|rewrite length_rev, length_replicate; lia|].
    rewrite val_replicate_0, rev_involutive, Z.mul_0_l, Z.pow_0_r in Ev. rewrite length_replicate in Ell. exists l. assert (l <> []) as Hnel by (destruct l; [simpl in Ell; lia|done]).
    split_and!; try done; [|lia]. apply (sval_unique l _ 0); [done|done| |rewrite Ev; lia]. pose proof (pval_bound (2 ^ k) p ltac:(lia) Hp). rewrite Ell. pose proof (Bn_pos (string_limbs p (2 ^ k))). lia.
Qed.

Lemma skip_zeros_idem p : skip_zeros (skip_zeros p) = skip_zeros p.
Proof. induction p as [|c p IH]; [done|]. cbn [skip_zeros]. destruct (c =? 48) eqn:E; [done|]. cbn [skip_zeros]. by rewrite E. Qed.

Lemma from_string_sign neg p r :
  (r <= 36) -> digit_chars r p ->
  match signed_string neg p with c :: q => if c =? 45 then (true, q) else (false, signed_string neg p) | [] => (false, []) end = (neg, p).
Proof.
  intros Hr Hp. destruct neg; [done|]. cbn [signed_string]. destruct Hp as [|c p Hc Hp]; [done|]. destruct (Z.eqb_spec c 45) as [->|]; [|done]. change (to_digit 45) with 36 in Hc. lia.
Qed.

Lemma from_string_ok neg p r :
  (r = 10 \/ r = 2 \/ r = 8 \/ r = 16) -> digit_chars r p ->
  if string_too_long p r then js_bigint_from_string fresh (signed_string neg p) r = throw TooLarge
  else exists l, js_bigint_from_string fresh (signed_string neg p) r = ok l /\ bigint_ok l /\ sval l = if neg then - pval r p else pval r p.
Proof.
  intros Hr Hp. unfold js_bigint_from_string. rewrite (from_string_sign neg p r) by (done || lia). cbv zeta. unfold string_too_long.
  destruct (Z.ltb_spec (JS_BIGINT_MAX_SIZE * 64) (Z.of_nat (length (skip_zeros p)))); [done|]. rewrite bigint_new_bind. fold (string_limbs p r). cbn [orb].
  destruct (Z.ltb_spec JS_BIGINT_MAX_SIZE (Z.of_nat (string_limbs p r))) as [|Hsz]; [done|]. destruct (skip_zeros_ok r p ltac:(lia) Hp) as [Hp' Ev'].
  assert (string_limbs (skip_zeros p) r = string_limbs p r) as Esl by (unfold string_limbs; by rewrite skip_zeros_idem).
  destruct (parse_array (skip_zeros p) r (fresh (string_limbs p r)) Hr Hp' (skip_zeros_idem p)) as (l & E & Hl & Hne & Ev & Ell); [rewrite Esl; apply fresh_ok|].
  rewrite Esl in *. rewrite E. cbn [mbind outcome_bind]. destruct (normalize_ok l Hl Hne) as (H1 & H2 & H3). rewrite <- Ev', <- Ev, <- H2. destruct neg; [|by exists (js_bigint_normalize l)].
  pose proof (js_bigint_neg_ok fresh (js_bigint_normalize l) H1) as Hneg. unfold computes in Hneg.
  destruct (Z.ltb_spec JS_BIGINT_MAX_SIZE (Z.of_nat (length (js_bigint_normalize l)))); [lia|]. exact Hneg.
Qed.
End Parsing.

(** ** Part 3: printing *)

Lemma limb_to_a_ok room n r len q : (len <= room)%nat -> limb_to_a room n r len q = Ret ((room - len)%nat, toa_len len n r q).
Proof.
  revert room n q. induction len as [|len IH]; intros room n q Hl; [by destruct room; [|rewrite Nat.sub_0_r]|].
  destruct room as [|room]; [lia|]. cbn [limb_to_a toa_len]. rewrite IH by lia. done.
Qed.

(** The tables hold, for each radix, the largest power that fits in a limb. *)
Definition table_entry (radix : Z) : bool :=
  match radix_base_table !! Z.to_nat (radix - 2), digits_per_limb_table !! Z.to_nat (radix - 2) with
  | Some b, Some d => (Z.land radix (radix - 1) =? 0) || ((b =? radix ^ Z.of_nat d) && (b <? B) && (B <=? b * radix) && (0 <? d)%nat)
  | _, _ => false
  end.
Lemma tables_checked : forallb table_entry (seqZ 2 35) = true.
Proof. vm_compute. reflexivity. Qed.

Lemma tables_ok radix :
  2 <= radix <= 36 -> Z.land radix (radix - 1) <> 0 ->
  exists d, limb radix_base_table (Z.to_nat (radix - 2)) = Ret (radix ^ Z.of_nat d) /\
    digits_per_limb_table !! Z.to_nat (radix - 2) = Some d /\ limb_ok (radix ^ Z.of_nat d) /\ (0 < d)%nat.
Proof.
  intros Hr Hp. pose proof tables_checked as Ht. rewrite forallb_forall in Ht. specialize (Ht radix). rewrite <- list_elem_of_In, elem_of_seqZ in Ht.
  specialize (Ht ltac:(lia)). unfold table_entry, limb in *. destruct (radix_base_table !! _) as [b|]; [|done]. destruct (digits_per_limb_table !! _) as [d|]; [|done].
  apply orb_prop in Ht as [Ht|Ht]; [lia|]. apply andb_prop in Ht as [Ht Hd]. apply andb_prop in Ht as [Ht _]. apply andb_prop in Ht as [Hb%Z.eqb_eq Hlt]. subst b.
  exists d. unfold limb_ok. pose proof (Z.pow_nonneg radix (Z.of_nat d) ltac:(lia)). split_and!; try done; [lia..|]. by apply Nat.ltb_lt.
Qed.

Lemma trim_len_trim l : limbs_ok l -> l <> [] -> limbs_ok (take (trim_len l) l) /\ take (trim_len l) l <> [] /\ val (take (trim_len l) l) = val l.
Proof.
  intros Hl Hne. destruct (trim_len_ok l Hl Hne) as (H1 & H2 & H3 & H4 & _). split; [done|]. split; [|done]. intros E. rewrite E in H3. simpl in H3. lia.
Qed.

(** A number of more than one limb without leading zeros, or one limb that is at least the base. *)
Lemma loop_large l base :
  limbs_ok l -> l <> [] -> limb_ok base -> (forall v, take (trim_len l) l = [v] -> base <= v) -> base <= val l.
Proof.
  intros Hl Hne Hb Hv. destruct (trim_len_ok l Hl Hne) as (H1 & H2 & H3 & H4 & low & t & Et & Ht & Ht0). rewrite Et in *. rewrite <- H4.
  destruct low as [|x low]; [simpl; specialize (Hv t eq_refl); lia|]. apply limbs_snoc in H2 as [Hlow _]. pose proof (top_bounds (x :: low) t Hlow) as Htb. rewrite length_app in H3. simpl in H3.
  assert (t <> 0) by (intros ->; specialize (Ht0 eq_refl); lia). cbn [length] in Htb. rewrite Bn_S in Htb. pose proof (Bn_pos (length low)). unfold limb_ok in *. nia.
Qed.

Lemma to_string_loop_ok fuel room l radix d q :
  2 <= radix -> (0 < d)%nat -> limb_ok (radix ^ Z.of_nat d) -> limbs_ok l -> l <> [] -> 0 < val l -> (room < fuel)%nat -> val l < radix ^ Z.of_nat room ->
  exists ds room', to_string_loop fuel room l radix (radix ^ Z.of_nat d) d q = Ret (room', map digit_char ds ++ q) /\
    digits_ok radix ds /\ ds <> [] /\ hd 0 ds <> 0 /\ dval radix ds = val l /\ (length ds + room' = room)%nat.
Proof.
  intros Hr Hd Hbase. set (base := radix ^ Z.of_nat d) in *. assert (0 < base) as Hb0 by (apply Z.pow_pos_nonneg; lia).
  revert room l q. induction fuel as [|fuel IH]; intros room l q Hl Hne Hpos Hf Hroom; [lia|]. cbn [to_string_loop]. cbv zeta. destruct (trim_len_trim l Hl Hne) as (Hl' & Hne' & Ev').
  pose proof (loop_large l base Hl Hne Hbase) as Hlarge. set (l' := take (trim_len l) l) in *.
  assert (base <= val l -> exists ds room', (let '(r, v) := mp_div1 l' base 0 in '(room, q) ← limb_to_a room v radix d q; to_string_loop fuel room r radix base d q) = Ret (room', map digit_char ds ++ q) /\
    digits_ok radix ds /\ ds <> [] /\ hd 0 ds <> 0 /\ dval radix ds = val l /\ (length ds + room' = room)%nat) as Hdiv.
  { intros Hge. destruct (mp_div1_ok l' base 0 Hl' ltac:(lia) Hbase) as (l2 & v & -> & Hl2 & El2 & Hv & Ev). rewrite Z.mul_0_r, Z.add_0_r, Ev' in Ev.
    assert (d < room)%nat as Hdr. { destruct (decide (d < room)%nat) as [|Hnd]; [done|]. exfalso. pose proof (Z.pow_le_mono_r radix (Z.of_nat room) (Z.of_nat d) ltac:(lia) ltac:(lia)). lia. }
    rewrite limb_to_a_ok by lia. cbn [mbind outcome_bind]. destruct (toa_len_ok d v radix q Hr ltac:(lia)) as (lo & -> & Hlo & Ello & Evlo). fold base in Evlo. rewrite Z.mod_small in Evlo by lia.
    assert (0 < val l2) as Hp2 by nia.
    destruct (IH (room - d)%nat l2 (map digit_char lo ++ q)) as (hi & room' & -> & Hhi & Hnhi & Hhd & Evhi & Elhi); [done|by destruct l2, l'|done|lia| |].
    { apply (Z.mul_lt_mono_pos_r base); [done|]. replace (radix ^ Z.of_nat (room - d) * base) with (radix ^ Z.of_nat room) by (unfold base; rewrite <- Z.pow_add_r by lia; f_equal; lia). lia. }
    exists (hi ++ lo), room'. rewrite map_app, <- app_assoc, length_app, dval_app, Evhi, Evlo, Ello. fold base. split; [done|]. split; [by apply Forall_app|].
    split; [by destruct hi|]. split; [by destruct hi|]. split; lia. }
  destruct l' as [|v [|w l2]] eqn:El; [done| |apply Hdiv, Hlarge; done].
  destruct (Z.ltb_spec v base) as [Hlt|Hge]; [|apply Hdiv, Hlarge; by intros ? [= <-]]. simpl in Ev'. assert (v = val l) as -> by lia. destruct (Z.eqb_spec (val l) 0); [lia|].
  assert (0 < room)%nat by (destruct room; [change (radix ^ Z.of_nat 0) with 1 in Hroom; lia|lia]).
  destruct (toa_loop_ok room (val l) radix q Hr ltac:(done) ltac:(lia)) as (ds & room' & E & H1 & H2 & H3 & H4 & H5). exists ds, room'. split_and!; try done; [by intros ->|by apply H5].
Qed.

Lemma limb_high_bits x j : limb_ok x -> 64 <= j -> Z.testbit x j = false.
Proof. intros Hx Hj. unfold limb_ok in Hx. rewrite <- (Z.mod_small x (2 ^ 64)) by lia. apply Z.mod_pow2_bits_high. lia. Qed.

(** A digit of a binary radix, cut from one limb or two. *)
Lemma binary_digit r b k :
  limbs_ok r -> 0 <= b -> 1 <= k <= 31 -> b < 64 * Z.of_nat (length r) ->
  (x ← limb r (Z.to_nat (b / 64));
   let c := u32 (Z.shiftr x (b mod 64)) in
   c ← (if (64 <? b mod 64 + k) && (S (Z.to_nat (b / 64)) <? length r)%nat then
          y ← limb r (S (Z.to_nat (b / 64)));
          Ret (u32 (Z.lor c (u64 (Z.shiftl y (64 - b mod 64)))))
        else Ret c);
   Ret (Z.land c (2 ^ k - 1))) = Ret ((val r / 2 ^ b) mod 2 ^ k).
Proof.
  intros Hl Hb Hk Hlen. pose proof (Z.mod_pos_bound b 64 ltac:(lia)) as Hs. pose proof (Z.div_pos b 64 ltac:(lia) ltac:(lia)). pose proof (Z.div_mod b 64 ltac:(lia)) as Edm.
  rewrite (shift_split b Hb). set (s := b mod 64) in *. set (pos := Z.to_nat (b / 64)) in *. assert (b = 64 * Z.of_nat pos + s) as Eb by (unfold pos; rewrite Z2Nat.id by done; lia). clearbody s pos. clear Edm.
  destruct (split_at r pos 1) as (lo & hi & rest & -> & Elo & Ehi); [lia|]. destruct hi as [|x [|]]; try done. assert (limb (lo ++ [x] ++ rest) pos = Ret x) as -> by (by apply limb_app). cbn [mbind outcome_bind]. cbv zeta.
  apply limbs_app in Hl as [Hlo Hl]. apply Forall_app in Hl as [Hx Hrest]. inversion Hx as [|? ? Hx' _]; subst x0 l. pose proof (val_bound lo Hlo). pose proof (Bn_pos pos).
  assert (val (lo ++ [x] ++ rest) / (Bn pos * 2 ^ s) = (x + B * val rest) / 2 ^ s) as ->.
  { rewrite <- Z.div_div by (try apply Z.pow_pos_nonneg; lia). f_equal. rewrite !val_app, Elo in *. cbn [val length]. rewrite Bn_S, Bn_0. symmetry. apply (Z.div_unique _ _ _ (val lo)); lia. }
  assert (forall c, Z.land c (2 ^ k - 1) = c mod 2 ^ k) as Hland by (intros c; replace (2 ^ k - 1) with (Z.ones k) by (rewrite Z.ones_equiv; lia); apply Z.land_ones; lia).
  assert (forall i, 0 <= i < k -> Z.testbit ((x + B * val rest) / 2 ^ s) i = if i + s <? 64 then Z.testbit x (i + s) else Z.testbit (val rest) (i + s - 64)) as Hbits.
  { intros i Hi. rewrite Z.div_pow2_bits by lia. apply split_testbit; [done|lia]. }
  assert (forall z i, 0 <= i < k -> Z.testbit (u32 z) i = Z.testbit z i) as Hu32 by (intros z i Hi; apply (Z.mod_pow2_bits_low z 32); lia).
  assert (forall c, (forall i, 0 <= i < k -> Z.testbit c i = Z.testbit ((x + B * val rest) / 2 ^ s) i) -> Ret (Z.land c (2 ^ k - 1)) = Ret (((x + B * val rest) / 2 ^ s) mod 2 ^ k)) as Hfin.
  { intros c Hc. f_equal. rewrite Hland. apply Z.bits_inj'. intros i Hi. destruct (Z.lt_ge_cases i k); [rewrite !Z.mod_pow2_bits_low by lia; apply Hc; lia|rewrite !Z.mod_pow2_bits_high by lia; done]. }
  assert (forall j, 64 <= j -> Z.testbit x j = false) as Hxh by (intros j Hj; by apply limb_high_bits).
  destruct (Z.ltb_spec 64 (s + k)); cbn [andb].
  - rewrite !length_app. destruct rest as [|y rest].
    + destruct (Nat.ltb_spec (S pos) (length lo + (length [x] + length (@nil Z)))) as [Hc|_]; [simpl in Hc; lia|]. cbn [mbind outcome_bind]. apply Hfin. intros i Hi. rewrite Hbits, Hu32, Z.shiftr_spec by lia.
      destruct (Z.ltb_spec (i + s) 64); [done|]. cbn [val]. rewrite Z.bits_0. apply Hxh. lia.
    + destruct (Nat.ltb_spec (S pos) (length lo + (length [x] + length (y :: rest)))) as [_|Hc]; [|simpl in Hc; lia]. replace (lo ++ [x] ++ y :: rest) with ((lo ++ [x]) ++ y :: rest) by (by rewrite <- app_assoc).
      rewrite limb_app by (rewrite length_app; simpl; lia). cbn [mbind outcome_bind]. apply Hfin. intros i Hi. rewrite Hbits, !Hu32, Z.lor_spec, Hu32, Z.shiftr_spec by lia.
      assert (Z.testbit (u64 (Z.shiftl y (64 - s))) i = Z.testbit (Z.shiftl y (64 - s)) i) as -> by (apply (Z.mod_pow2_bits_low _ 64); lia). rewrite Z.shiftl_spec by lia.
      inversion Hrest as [|? ? Hy _]; subst x0 l. cbn [val]. destruct (Z.ltb_spec (i + s) 64).
      * rewrite (Z.testbit_neg_r y) by lia. apply orb_false_r.
      * rewrite Hxh, split_testbit by (done || lia). destruct (Z.ltb_spec (i + s - 64) 64); [|lia]. simpl. f_equal. lia.
  - cbn [mbind outcome_bind]. apply Hfin. intros i Hi. rewrite Hbits, Hu32, Z.shiftr_spec by lia. destruct (Z.ltb_spec (i + s) 64); [done|lia].
Qed.

Lemma to_string_bin_ok n room i r k q :
  limbs_ok r -> 0 <= i -> 1 <= k <= 31 -> (n <= room)%nat -> (n = 0%nat \/ (i + Z.of_nat n - 1) * k < 64 * Z.of_nat (length r)) ->
  to_string_bin n room i r (2 ^ k) k q = Ret ((room - n)%nat, toa_len n (val r / 2 ^ (i * k)) (2 ^ k) q).
Proof.
  intros Hl Hi Hk. revert room i q Hi. induction n as [|n IH]; intros room i q Hi Hn Hlen; [by destruct room; [|rewrite Nat.sub_0_r]|].
  destruct room as [|room]; [lia|]. destruct Hlen as [|Hlen]; [done|]. cbn [to_string_bin toa_len]. cbv zeta.
  pose proof (binary_digit r (i * k) k Hl ltac:(nia) Hk ltac:(nia)) as Hd. cbv zeta in Hd. destruct (limb r (Z.to_nat (i * k / 64))) as [x| |]; cbn [mbind outcome_bind] in *; [|done|done].
  match type of Hd with context [if ?c then ?m else ?m'] => destruct (if c then m else m') as [c'| |] end; cbn [mbind outcome_bind] in *; [|done|done]. injection Hd as ->.
  rewrite IH; [|lia|lia|destruct n; [by left|right; nia]]. cbn [Nat.sub]. do 3 f_equal. rewrite Z.div_div; [|apply Z.pow_nonzero; nia|apply Z.pow_pos_nonneg; nia].
  rewrite <- Z.pow_add_r by nia. do 2 f_equal. lia.
Qed.

(** The number of bits of a positive number. *)
Lemma n_bits_ok r :
  bigint_ok r -> 0 < sval r ->
  let n_bits := Z.of_nat (length r) * 64 - js_limb_safe_clz (top_limb r) in
  1 <= n_bits <= 64 * Z.of_nat (length r) /\ val r = sval r /\ 2 ^ (n_bits - 1) <= sval r < 2 ^ n_bits.
Proof.
  intros Hr Hp. pose proof Hr as [Hl Hne%normalized_ne]. assert (val r = sval r) as Ev.
  { pose proof (sval_neg r Hl Hne) as Hs. rewrite bool_decide_eq_false_2 in Hs by lia. unfold sval. rewrite Hs. simpl. lia. }
  destruct r as [|t low _] using rev_ind; [done|]. rewrite top_limb_snoc. pose proof Hl as [Hlow Ht]%limbs_snoc. pose proof (top_bounds low t Hlow) as Htb. rewrite Ev in Htb.
  rewrite length_app, Nat2Z.inj_add. cbn [length]. change (Z.of_nat 1) with 1. cbv zeta. set (m := Z.of_nat (length low)). assert (Bn (length low) = 2 ^ (64 * m)) as EB by apply Bn_pow2.
  unfold js_limb_safe_clz, js_limb_clz. unfold limb_ok in Ht. destruct (Z.eqb_spec t 0) as [->|].
  - destruct low as [|w low _] using rev_ind; [simpl in *; lia|]. pose proof (normalized_large _ (length low) Hr ltac:(rewrite !length_app; simpl; lia)) as Hlarge.
    assert (length (low ++ [w]) = S (length low)) as Elw by (rewrite length_app; simpl; lia). rewrite <- Elw, EB in Hlarge. rewrite EB in Htb.
    assert (1 <= m) by (unfold m; rewrite Elw; lia). replace ((m + 1) * 64 - 64) with (64 * m) by lia. split; [lia|]. split; [done|]. split; [|lia].
    pose proof (Z.pow_pos_nonneg 2 (64 * m - 1)). replace (64 * m) with (Z.succ (64 * m - 1)) in Hlarge by lia. rewrite Z.pow_succ_r in Hlarge by lia. lia.
  - destruct (Z.log2_spec t ltac:(lia)) as [H1 H2]. pose proof (Z.log2_nonneg t). assert (Z.log2 t < 64) by (apply Z.log2_lt_pow2; lia).
    replace ((m + 1) * 64 - (63 - Z.log2 t)) with (64 * m + Z.succ (Z.log2 t)) by lia. replace (64 * m + Z.succ (Z.log2 t) - 1) with (64 * m + Z.log2 t) by lia.
    assert (0 <= m) by lia. split; [lia|]. split; [done|]. rewrite !Z.pow_add_r, <- EB by lia. pose proof (Bn_pos (length low)). split; nia.
Qed.

(** The room is enough: [r^(n-1) <= V < r^n] for a power of two, [V < r^n] otherwise. *)
Lemma n_digits_ok n_bits k V :
  1 <= n_bits -> 1 <= k -> 2 ^ (n_bits - 1) <= V < 2 ^ n_bits ->
  let n := (n_bits + k - 1) / k in 1 <= n /\ V < (2 ^ k) ^ n /\ (2 ^ k) ^ (n - 1) <= V /\ (n - 1) * k < n_bits.
Proof.
  intros Hn Hk HV n. pose proof (Z.div_mod (n_bits + k - 1) k ltac:(lia)) as Edm. pose proof (Z.mod_pos_bound (n_bits + k - 1) k ltac:(lia)) as Hm. fold n in Edm. clearbody n.
  assert (1 <= n) by nia. rewrite <- !Z.pow_mul_r by lia. split; [done|]. split; [|split; [|lia]].
  - eapply Z.lt_le_trans; [apply HV|]. apply Z.pow_le_mono_r; lia.
  - etransitivity; [|apply HV]. apply Z.pow_le_mono_r; lia.
Qed.

Section Printing.
Context (fresh : nat -> list Z) (fresh_ok : forall n, length (fresh n) = n /\ limbs_ok (fresh n)).

(** The magnitude of a number other than zero, and its digits. *)
Lemma print_magnitude r radix extra :
  bigint_ok r -> 0 < sval r -> 2 <= radix <= 36 ->
  let log2_radix := Z.log2 radix in
  let n_bits := Z.of_nat (length r) * 64 - js_limb_safe_clz (top_limb r) in
  let n_digits := Z.to_nat ((n_bits + log2_radix - 1) / log2_radix) in
  let room := (n_digits + extra)%nat in
  exists ds room',
    (if Z.land radix (radix - 1) =? 0 then to_string_bin n_digits room 0 r radix log2_radix []
     else
       radix_base ← limb radix_base_table (Z.to_nat (radix - 2));
       digits ← (match digits_per_limb_table !! Z.to_nat (radix - 2) with Some d => Ret d | None => UB end);
       to_string_loop (S room) room r radix radix_base digits []) = Ret (room', map digit_char ds) /\
    digits_ok radix ds /\ canonical ds /\ dval radix ds = sval r /\ (extra <= room')%nat.
Proof.
  intros Hr Hp Hradix k n_bits n_digits room. pose proof Hr as [Hl Hne%normalized_ne]. assert (1 <= k <= 31) as Hk.
  { unfold k. split; [apply Z.log2_le_pow2; lia|]. assert (Z.log2 radix < 6) by (apply Z.log2_lt_pow2; lia). lia. }
  destruct (n_bits_ok r Hr Hp) as (Hnb & Ev & Hbits). fold n_bits in Hnb, Hbits. destruct (n_digits_ok n_bits k (sval r) ltac:(lia) ltac:(lia) Hbits) as (Hn1 & Hhi & Hlo & Hlast).
  set (n := (n_bits + k - 1) / k) in *. assert (Z.of_nat n_digits = n) as En by (unfold n_digits; fold n; lia). clearbody n_bits n n_digits. clear Hbits.
  pose proof (Z.log2_spec radix ltac:(lia)) as [Hlog _]. fold k in Hlog. destruct (Z.eqb_spec (Z.land radix (radix - 1)) 0) as [Hb|Hb].
  - apply land_pred_pow2 in Hb; [|lia]. fold k in Hb. clearbody k. subst radix. rewrite to_string_bin_ok by (done || lia || (right; lia)). rewrite Z.mul_0_l, Z.pow_0_r, Z.div_1_r, Ev.
    destruct (fixed_canonical (2 ^ k) (sval r) n_digits) as (ds & E & H1 & H2 & H3 & H4); [lia|lia|rewrite En; lia|right; rewrite Nat2Z.inj_sub, En by lia; done|].
    rewrite E. exists ds, (room - n_digits)%nat. split_and!; try done. unfold room. lia.
  - destruct (tables_ok radix Hradix Hb) as (d & -> & -> & Hbase & Hd). cbn [mbind outcome_bind].
    assert (sval r < radix ^ n) as Hlt by (eapply Z.lt_le_trans; [exact Hhi|]; apply Z.pow_le_mono_l; lia).
    destruct (to_string_loop_ok (S room) room r radix d []) as (ds & room' & E & H1 & H2 & H3 & H4 & H5); try done; try lia.
    { rewrite Ev. eapply Z.lt_le_trans; [exact Hlt|]. apply Z.pow_le_mono_r; [lia|]. unfold room. lia. }
    rewrite E, app_nil_r. exists ds, room'. rewrite H4. split_and!; try done.
    + destruct ds as [|x [|y ds]]; done.
    + rewrite Ev in H4. assert (canonical ds) as Hc by (by destruct ds as [|x [|y ds]]).
      assert (length ds <= n_digits)%nat; [|unfold room in H5; lia].
      destruct ds as [|x [|y ds]]; [done|simpl; lia|]. pose proof (canonical_large radix x y ds ltac:(lia) H1 Hc) as Hcl. cbn [length].
      destruct (decide (S (S (length ds)) <= n_digits)%nat) as [|Hgt]; [done|]. exfalso. pose proof (Z.pow_le_mono_r radix n (Z.of_nat (S (length ds))) ltac:(lia) ltac:(lia)). lia.
Qed.

Lemma to_string_ok r radix :
  bigint_ok r -> 2 <= radix <= 36 -> Z.of_nat (length r) <= JS_BIGINT_MAX_SIZE ->
  exists s, js_bigint_to_string1 fresh (BIG_INT r) radix = ok s /\ shows radix (sval r) s.
Proof.
  intros Hr Hradix Hsz. unfold js_bigint_to_string1. case_bool_decide as Hz.
  { subst r. exists [48]. split; [done|]. exists [0]. split; [done|]. split; [constructor; [lia|apply Forall_nil_2]|done]. }
  rewrite zero_iff in Hz by done. pose proof Hr as [Hl Hne%normalized_ne]. cbv zeta. rewrite (sval_neg r Hl Hne). unfold shows. case_bool_decide as Hs.
  - pose proof (js_bigint_neg_ok fresh r Hr) as Hneg. unfold computes in Hneg. destruct (Z.ltb_spec JS_BIGINT_MAX_SIZE (Z.of_nat (length r))); [lia|]. destruct Hneg as (r' & -> & Hr' & Ev').
    cbn [js_bind Nat.b2n]. destruct (print_magnitude r' radix 1 Hr' ltac:(lia) Hradix) as (ds & room' & E & H1 & H2 & H3 & H4). cbv zeta in E. rewrite E. cbn [mbind outcome_bind].
    destruct room' as [|room']; [lia|]. exists (45 :: map digit_char ds). split; [done|]. destruct (Z.leb_spec 0 (sval r)); [lia|]. eexists. split; [done|]. exists ds. rewrite <- Ev'. done.
  - assert ((if Z.land radix (radix - 1) =? 0 then ok r else _ ⇐ js_bigint_new fresh (length r); ok r) = (ok r : throws _)) as ->.
    { destruct (_ =? 0); [done|]. rewrite bigint_new_bind. destruct (Z.ltb_spec JS_BIGINT_MAX_SIZE (Z.of_nat (length r))); [lia|done]. }
    cbn [js_bind Nat.b2n]. destruct (print_magnitude r radix 0 Hr ltac:(lia) Hradix) as (ds & room' & E & H1 & H2 & H3 & H4). cbv zeta in E. rewrite E. cbn [mbind outcome_bind].
    exists (map digit_char ds). split; [done|]. destruct (Z.leb_spec 0 (sval r)); [|lia]. by exists ds.
Qed.
End Printing.

(** ** Part 4: theorems *)

Lemma to_digit_char d : 0 <= d < 36 -> to_digit (digit_char d) = d.
Proof.
  intros Hd. unfold digit_char, to_digit. destruct (Z.ltb_spec d 10).
  - destruct (Z.leb_spec 48 (d + 48)), (Z.leb_spec (d + 48) 57); simpl; lia.
  - destruct (Z.leb_spec 48 (d + 87)), (Z.leb_spec (d + 87) 57), (Z.leb_spec 65 (d + 87)), (Z.leb_spec (d + 87) 90), (Z.leb_spec 97 (d + 87)), (Z.leb_spec (d + 87) 122); simpl; lia.
Qed.
Lemma digit_chars_map r ds : r <= 36 -> digits_ok r ds -> digit_chars r (map digit_char ds) /\ pval r (map digit_char ds) = dval r ds.
Proof.
  intros Hr Hds. assert (map to_digit (map digit_char ds) = ds) as E.
  { rewrite map_map. induction Hds as [|d ds Hd Hds IH]; [done|]. cbn [map]. rewrite IH, to_digit_char by lia. done. }
  split; [|unfold pval; by rewrite E]. clear E. induction Hds as [|d ds Hd Hds IH]; [apply Forall_nil_2|]. constructor; [|done]. cbn beta. by rewrite to_digit_char by lia.
Qed.

Lemma shows_signed r n s :
  2 <= r <= 36 -> shows r n s -> exists p, s = signed_string (n <? 0) p /\ digit_chars r p /\ (if n <? 0 then - pval r p else pval r p) = n.
Proof.
  intros Hr. unfold shows. destruct (Z.leb_spec 0 n), (Z.ltb_spec n 0); try lia.
  - intros (ds & -> & Hds & _ & Ev). destruct (digit_chars_map r ds ltac:(lia) Hds) as [H1 H2]. exists (map digit_char ds). by rewrite H2.
  - intros (s' & -> & ds & -> & Hds & _ & Ev). destruct (digit_chars_map r ds ltac:(lia) Hds) as [H1 H2]. exists (map digit_char ds). split; [done|]. split; [done|]. rewrite H2. lia.
Qed.

Lemma value_to_string v radix fresh : value_ok v -> Z.of_nat (limbs v) <= JS_BIGINT_MAX_SIZE -> 2 <= radix <= 36 ->
  exists s, js_bigint_to_string1 fresh v radix = ok s /\ shows radix (value v) s.
Proof.
  destruct v as [v|r]; intros Hv Hsz Hr; cbn [value_ok value] in *.
  - apply is_short_iff in Hv. destruct (i64toa_radix_ok v radix Hv Hr) as (s & E & Hs & _). exists s. cbn [js_bigint_to_string1]. by rewrite E.
  - destruct Hv as [Hv _]. by apply to_string_ok.
Qed.

(** The digits of a number after the leading zeros are no more than it needs. *)
Lemma skip_zeros_large r p : 2 <= r -> digit_chars r p -> skip_zeros p = [] \/ r ^ (Z.of_nat (length (skip_zeros p)) - 1) <= pval r p.
Proof.
  intros Hr. induction 1 as [|c p Hc Hp IH]; [by left|]. cbn [skip_zeros]. pose proof (pval_bound r p Hr Hp) as Hb.
  assert (pval r (c :: p) = to_digit c * r ^ Z.of_nat (length p) + pval r p) as E.
  { change (c :: p) with ([c] ++ p). by rewrite pval_app. }
  destruct (Z.eqb_spec c 48) as [->|Hn].
  - destruct IH as [IH|IH]; [by left|right]. rewrite E. change (to_digit 48) with 0. lia.
  - right. rewrite E. cbn [length]. replace (Z.of_nat (S (length p)) - 1) with (Z.of_nat (length p)) by lia.
    assert (1 <= to_digit c); [|nia]. enough (to_digit c <> 0) by lia. unfold to_digit. repeat case_match; reflect_bools; lia.
Qed.

(** A number of at most 16000 limbs gives a text that is not refused. *)
Lemma text_short p r L :
  (r = 10 \/ r = 2 \/ r = 8 \/ r = 16) -> digit_chars r p -> 1 <= Z.of_nat L <= 16000 -> pval r p < Bn L -> string_too_long p r = false.
Proof.
  intros Hr Hp HL Hb. rewrite Bn_pow2 in Hb. unfold string_too_long, string_limbs. set (n := Z.of_nat (length (skip_zeros p))).
  assert (forall a b, 0 < b -> 0 < a -> (n = 0 \/ 2 ^ b <= r ^ a) -> n = 0 \/ b * (n - 1) < 64 * Z.of_nat L * a) as Hlen.
  { intros a b Hb0 Ha0 [Hn|Hab]; [by left|]. destruct (skip_zeros_large r p) as [H|H]; [lia|done|left; unfold n; by rewrite H|]. fold n in H.
    destruct (decide (n = 0)) as [|Hn]; [by left|right]. apply (Z.pow_lt_mono_r_iff 2); [lia|nia|]. rewrite !(Z.pow_mul_r 2) by lia.
    eapply Z.le_lt_trans; [apply Z.pow_le_mono_l; split; [apply Z.pow_nonneg; lia|exact Hab]|]. rewrite <- Z.pow_mul_r, (Z.mul_comm a), Z.pow_mul_r by lia.
    apply Z.pow_lt_mono_l; [lia|]. split; [apply Z.pow_nonneg; lia|]. rewrite Z.pow_mul_r in Hb by lia. rewrite <- Z.pow_mul_r in Hb by lia. rewrite <- Z.pow_mul_r by lia. lia. }
  assert (digit_bits n r / 64 + 1 <= JS_BIGINT_MAX_SIZE /\ n <= JS_BIGINT_MAX_SIZE * 64) as [H1 H2].
  { clear Hp Hb. clearbody n. unfold JS_BIGINT_MAX_SIZE, digit_bits. destruct Hr as [->|[-> |[-> | ->]]]; simpl Z.eqb; cbv iota; simpl Z.log2.
    - destruct (Hlen 28 93) as [H|H]; [lia|lia|right; vm_compute; discriminate|Z.div_mod_to_equations; lia..].
    - destruct (Hlen 1 1) as [H|H]; [lia|lia|right; vm_compute; discriminate|Z.div_mod_to_equations; lia..].
    - destruct (Hlen 1 3) as [H|H]; [lia|lia|right; vm_compute; discriminate|Z.div_mod_to_equations; lia..].
    - destruct (Hlen 1 4) as [H|H]; [lia|lia|right; vm_compute; discriminate|Z.div_mod_to_equations; lia..]. }
  apply orb_false_iff. split; apply Z.ltb_ge; unfold JS_BIGINT_MAX_SIZE in *; lia.
Qed.

(** C15. Text and back: for every radix from 2 to 36 [js_bigint_to_string1] prints a big integer, short
    or of at most [JS_BIGINT_MAX_SIZE] limbs, as its digits without leading zeros, after a minus sign
    for a negative one, without leaving the buffer it allocated; and for the radixes of literals, 2, 8,
    10 and 16, [js_bigint_from_string] of that text gives the same number again, or refuses the text
    because the array it allocates for that many digits would be too large, which does not happen for
    a number of at most 16000 limbs. *)
Theorem bigint_text_roundtrip fresh v radix :
  (forall n, length (fresh n) = n /\ limbs_ok (fresh n)) -> value_ok v -> Z.of_nat (limbs v) <= JS_BIGINT_MAX_SIZE -> 2 <= radix <= 36 ->
  exists p, js_bigint_to_string1 fresh v radix = ok (signed_string (value v <? 0) p) /\
    shows radix (value v) (signed_string (value v <? 0) p) /\
    (radix = 10 \/ radix = 2 \/ radix = 8 \/ radix = 16 ->
     js_bigint_from_string fresh (signed_string (value v <? 0) p) radix = (if string_too_long p radix then throw TooLarge else ok (operand v)) /\
     (Z.of_nat (limbs v) <= 16000 -> string_too_long p radix = false)).
Proof.
  intros Hf Ha Hsz Hr. destruct (value_to_string v radix fresh Ha Hsz Hr) as (s & E & Hs). destruct (shows_signed radix (value v) s Hr Hs) as (p & -> & Hp & Ev).
  destruct (operand_ok v Ha) as [Ho Eo]. exists p. split; [done|]. split; [done|]. intros Hradix. split.
  - pose proof (from_string_ok fresh Hf (value v <? 0) p radix Hradix Hp) as Hparse.
    destruct (string_too_long p radix); [done|]. destruct Hparse as (l & -> & Hl & El). do 2 f_equal. apply bigint_ok_inj; try done. lia.
  - intros HL. pose proof Ho as [Hl Hne%normalized_ne]. pose proof (sval_bounds _ Hl Hne) as Hb. rewrite Eo in Hb. fold (limbs v) in Hb.
    apply (text_short p radix (limbs v)); [done|done| |pose proof (Bn_pos (limbs v)); destruct (Z.ltb_spec (value v) 0); lia].
    unfold limbs in *. destruct (operand v); [done|simpl in *; lia].
Qed.

(** C16. Parsing stays in bounds: for any string of digits of radix 2, 8, 10 or 16, in either case, with
    leading zeros or none and perhaps a minus sign, [js_bigint_from_string] writes only inside the
    array it allocated for that many digits, passes its assertion, and returns the number in its
    normalized form; it throws exactly for strings of more than 1048576 digits after the zeros, or
    that need more than [JS_BIGINT_MAX_SIZE] limbs by its count. *)
Theorem bigint_parse_in_bounds fresh neg p r :
  (forall n, length (fresh n) = n /\ limbs_ok (fresh n)) -> (r = 10 \/ r = 2 \/ r = 8 \/ r = 16) -> digit_chars r p ->
  if string_too_long p r then js_bigint_from_string fresh (signed_string neg p) r = throw TooLarge
  else exists l, js_bigint_from_string fresh (signed_string neg p) r = ok l /\ bigint_ok l /\ sval l = if neg then - pval r p else pval r p.
Proof. intros Hf Hr Hp. by apply from_string_ok. Qed.

Lemma bigint_text_roundtrip_witness :
  js_bigint_to_string1 fresh_junk (SHORT_BIG_INT (- 2 ^ 63)) 36 = ok [45; 49; 121; 50; 112; 48; 105; 106; 51; 50; 101; 56; 101; 56] /\
  js_bigint_to_string1 fresh_junk (BIG_INT sample_a) 10 = ok [45; 51; 52; 48; 50; 56; 50; 51; 54; 54; 57; 50; 48; 57; 51; 56; 52; 54; 51; 52; 50; 54; 52; 56; 49; 49; 49; 57; 50; 56; 52; 51; 52; 57; 49; 48; 56; 50; 50; 53] /\
  exists p, js_bigint_to_string1 fresh_junk (BIG_INT sample_a) 10 = ok (signed_string true p) /\
    js_bigint_from_string fresh_junk (signed_string true p) 10 = ok sample_a.
Proof.
  assert (value_ok (BIG_INT sample_a)) as Ha by (split; [by apply bigint_ok_dec|vm_compute; lia]). split; [vm_compute; reflexivity|]. split; [vm_compute; reflexivity|].
  destruct (bigint_text_roundtrip fresh_junk (BIG_INT sample_a) 10 fresh_junk_ok Ha ltac:(vm_compute; discriminate) ltac:(lia)) as (p & E & _ & H).
  change (value (BIG_INT sample_a) <? 0) with true in E, H. exists p. split; [exact E|]. destruct H as [H1 H2]; [by left|]. rewrite H2 in H1 by (vm_compute; discriminate). exact H1.
Defined.

Definition sample_hex : list Z := [48; 102; 70; 48; 48; 48; 48; 48; 48; 48; 48; 48; 48; 48; 48; 48; 48; 49].
Lemma bigint_parse_in_bounds_witness :
  digit_chars 16 sample_hex /\ string_too_long sample_hex 16 = false /\
  js_bigint_from_string fresh_junk (45 :: sample_hex) 16 = ok [1152921504606846975; 18446744073709551600] /\
  exists l, js_bigint_from_string fresh_junk (signed_string true sample_hex) 16 = ok l /\ bigint_ok l /\ sval l = - pval 16 sample_hex.
Proof.
  assert (digit_chars 16 sample_hex) as Hp by (repeat (constructor; [by vm_compute|]); apply Forall_nil_2).
  split; [exact Hp|]. split; [vm_compute; reflexivity|]. split; [vm_compute; reflexivity|].
  apply (bigint_parse_in_bounds fresh_junk true sample_hex 16 fresh_junk_ok); [lia|exact Hp].
Defined.
