(* ===== verification/BigIntFloat.v ===== *)
(** Big integers and floating point numbers, deps/quickjs/quickjs.c: [js_bigint_get_mant_exp] to
    [js_bigint_float64_cmp].

    A double is its 64 bits. The conversion of a 64-bit integer to a double, which the language
    does for numbers of one limb, is [float_of_int], rounding to nearest with ties to even; it is
    also the reference for the conversion of longer numbers.

    Part 1 is the code, Part 2 the leading bits of a number, Part 3 the conversions, Part 4 the
    comparison. *)

From S2P Require Import Prelude Limbs BigInt.

(** ** Part 1: the code *)

(** Rounding [a / 2^n] to nearest, ties to even. *)
Definition round_even (a n : Z) : Z :=
  let q := a / 2 ^ n in
  match 2 * (a mod 2 ^ n) ?= 2 ^ n with Lt => q | Gt => q + 1 | Eq => if Z.even q then q else q + 1 end.

(** The double nearest to an integer, as bits; infinity when it is too large. *)
Definition float_bits (sgn : bool) (e mant : Z) : Z := Z.b2z sgn * 2 ^ 63 + (e + 1023) * 2 ^ 52 + mant.
Definition float_of_int (z : Z) : Z :=
  if z =? 0 then 0
  else
    let e := Z.log2 (Z.abs z) in
    let m := if e <=? 52 then Z.abs z * 2 ^ (52 - e) else round_even (Z.abs z) (e - 52) in
    let '(e, m) := if m =? 2 ^ 53 then (e + 1, 2 ^ 52) else (e, m) in
    if 1023 <? e then float_bits (z <? 0) 1024 0 else float_bits (z <? 0) e (m - 2 ^ 52).

(** The magnitude of a number, limb by limb, with the carry. *)
Fixpoint abs_limbs (tab : list Z) (sgn : bool) (carry : Z) : list Z * Z :=
  match tab with
  | [] => ([], carry)
  | x :: tab =>
      let v := u64 (flip_limb sgn x + carry) in
      let '(vs, c) := abs_limbs tab sgn (Z.b2z (v <? carry)) in (v :: vs, c)
  end.

(** Mantissa and exponent; the array has two limbs or one. *)
Definition js_bigint_get_mant_exp (a : list Z) : Z * Z :=
  let n1 := (length a - 2)%nat in
  let sgn := js_bigint_sign a in
  let '(low, carry) := abs_limbs (take n1 a) sgn (Z.b2z sgn) in
  let low_bits := foldl Z.lor 0 low in
  let '(t, _) := abs_limbs (drop n1 a) sgn carry in
  let '(t0, t1) := match t with [v] => (0, v) | t0 :: t1 :: _ => (t0, t1) | [] => (0, 0) end in
  let a1 := t1 in
  let a0 := Z.lor t0 (Z.b2z (negb (low_bits =? 0))) in
  let '(shift, a1, a0) :=
    if a1 =? 0 then (64, a0, 0)
    else
      let shift := js_limb_clz a1 in
      if shift =? 0 then (shift, a1, a0)
      else (shift, Z.lor (u64 (Z.shiftl a1 shift)) (Z.shiftr a0 (64 - shift)), u64 (Z.shiftl a0 shift)) in
  (Z.lor a1 (Z.b2z (negb (a0 =? 0))), Z.of_nat (length a) * 64 - shift - 1).

Definition shr_rndn (a n : Z) : Z :=
  let addend := Z.land (Z.shiftr a n) 1 + (Z.shiftl 1 (n - 1) - 1) in Z.shiftr (u64 (a + addend)) n.

Definition js_bigint_to_float64 (a : list Z) : Z :=
  match a with
  | [x] => float_of_int (x - 2 ^ 64 * Z.b2z (Z.testbit x 63))
  | _ =>
      let sgn := js_bigint_sign a in
      let '(mant, e) := js_bigint_get_mant_exp a in
      let '(mant, e) :=
        if 1023 <? e then (0, 1024)
        else
          let mant := Z.lor (Z.shiftr mant 1) (Z.land mant 1) in
          let mant := shr_rndn mant 10 in
          let '(mant, e) := if Z.shiftl 1 53 <=? mant then (Z.shiftr mant 1, e + 1) else (mant, e) in
          (Z.land mant (Z.shiftl 1 52 - 1), e) in
      Z.lor (Z.lor (Z.shiftl (Z.b2z sgn) 63) (Z.shiftl (e + 1023) 52)) mant
  end.

(** The fields of a double. *)
Definition float_sign (b : Z) : bool := Z.testbit b 63.
Definition float_exp (b : Z) : Z := Z.land (Z.shiftr b 52) (Z.shiftl 1 11 - 1).
Definition float_mant (b : Z) : Z := Z.land b (Z.shiftl 1 52 - 1).

Inductive float_result := NotInteger | NotFinite | Integer (r : list Z).

Definition js_bigint_from_float64 (fresh : nat -> list Z) (a : Z) : throws float_result :=
  let sgn := float_sign a in
  let e := float_exp a in
  let mant := float_mant a in
  if e =? 2047 then ok NotFinite
  else if (e =? 0) && (mant =? 0) then r ⇐ js_bigint_new_si fresh 0; ok (Integer r)
  else
    let e := e - 1023 in
    if e <? 0 then ok NotInteger
    else
      let mant := Z.lor mant (Z.shiftl 1 52) in
      if (e <? 52) && negb (Z.land mant (Z.shiftl 1 (52 - e) - 1) =? 0) then ok NotInteger
      else
        let '(mant, e) := if e <? 52 then (Z.shiftr mant (52 - e), 0) else (mant, e - 52) in
        let mant := if sgn then u64 (- mant) else mant in
        r ⇐ js_bigint_shl fresh (js_bigint_set_si mant) e;
        ok (Integer r).

Definition js_bigint_float64_cmp (a : list Z) (b : Z) : Z :=
  let b_sign := float_sign b in
  let e := float_exp b in
  let mant := float_mant b in
  let a_sign := js_bigint_sign a in
  if e =? 2047 then if negb (mant =? 0) then 2 else 2 * Z.b2z b_sign - 1
  else if (e =? 0) && (mant =? 0) then if bool_decide (a = [0]) then 0 else 1 - 2 * Z.b2z a_sign
  else if bool_decide (a = [0]) then 2 * Z.b2z b_sign - 1
  else if negb (Bool.eqb a_sign b_sign) then 1 - 2 * Z.b2z a_sign
  else
    let e := e - 1023 in
    let '(a_mant, f) := js_bigint_get_mant_exp a in
    if f =? e then
      let mant := u64 (Z.shiftl (Z.lor mant (Z.shiftl 1 52)) 11) in
      if a_mant <? mant then 2 * Z.b2z a_sign - 1 else if mant <? a_mant then 1 - 2 * Z.b2z a_sign else 0
    else if f <? e then -1 else 1.

(** ** Part 2: the leading bits of a number *)

Local Notation B := 18446744073709551616.

Lemma abs_limbs_ok tab sgn c :
  limbs_ok tab -> 0 <= c <= 1 ->
  exists vs c', abs_limbs tab sgn c = (vs, c') /\ limbs_ok vs /\ length vs = length tab /\ 0 <= c' <= 1 /\
    val vs + Bn (length tab) * c' = val (map (flip_limb sgn) tab) + c.
Proof.
  intros H. revert c. induction H as [|x tab Hx H IH]; intros c Hc; cbn [abs_limbs].
  { exists [], c. cbn [length]. rewrite Bn_0. split; [done|]. split; [apply Forall_nil_2|]. split; [done|]. split; [done|]. simpl. lia. }
  assert (limb_ok (flip_limb sgn x)) as Hf by (unfold limb_ok in *; destruct sgn; simpl; lia). set (f := flip_limb sgn x) in *. set (v := u64 (f + c)).
  assert (f + c = v + B * Z.b2z (v <? c) /\ limb_ok v) as [Ev Hv].
  { unfold v. unfold limb_ok in Hf. destruct (Z.eq_dec (f + c) B) as [E|E].
    - rewrite E. change (u64 B) with 0. assert (c = 1) as -> by lia. split; [done|]. unfold limb_ok. lia.
    - rewrite u64_small by (unfold limb_ok; lia). destruct (Z.ltb_spec (f + c) c); simpl; [lia|]. split; [lia|unfold limb_ok; lia]. }
  destruct (IH (Z.b2z (v <? c))) as (vs & c' & -> & Hvs & El & Hc' & E); [destruct (v <? c); simpl; lia|].
  exists (v :: vs), c'. split; [done|]. split; [by constructor|]. split; [simpl; lia|]. split; [done|]. cbn [map val length]. rewrite Bn_S. fold f. lia.
Qed.
Lemma abs_limbs_app a b sgn c :
  abs_limbs (a ++ b) sgn c = let '(x, c) := abs_limbs a sgn c in let '(y, c) := abs_limbs b sgn c in (x ++ y, c).
Proof.
  revert c. induction a as [|v a IH]; intros c; cbn [abs_limbs app]; [by destruct (abs_limbs b sgn c)|]. rewrite IH.
  destruct (abs_limbs a sgn _) as [x c1]. by destruct (abs_limbs b sgn c1).
Qed.

(** The limbs of the magnitude. *)
Lemma magnitude_limbs a n1 :
  limbs_ok a -> a <> [] ->
  exists low t c c', abs_limbs (take n1 a) (js_bigint_sign a) (Z.b2z (js_bigint_sign a)) = (low, c) /\
    abs_limbs (drop n1 a) (js_bigint_sign a) c = (t, c') /\ limbs_ok low /\ limbs_ok t /\
    length low = length (take n1 a) /\ length t = length (drop n1 a) /\ val low + Bn (length low) * val t = Z.abs (sval a).
Proof.
  intros Ha Hne. set (s := js_bigint_sign a) in *. assert (limbs_ok (take n1 a)) as H1 by (by apply Forall_take). assert (limbs_ok (drop n1 a)) as H2 by (by apply Forall_drop).
  destruct (abs_limbs_ok (take n1 a) s (Z.b2z s) H1) as (low & c & E1 & Hlow & El1 & Hc & _); [destruct s; simpl; lia|].
  destruct (abs_limbs_ok (drop n1 a) s c H2 Hc) as (t & c' & E2 & Ht & El2 & Hc' & _).
  destruct (abs_limbs_ok a s (Z.b2z s) Ha) as (M & cM & EM & HM & ElM & HcM & EvM); [destruct s; simpl; lia|].
  pose proof EM as EM'. rewrite <- (take_drop n1 a) in EM' at 1. rewrite abs_limbs_app, E1, E2 in EM'. injection EM' as EM1 EM2. subst M.
  exists low, t, c, c'. split_and!; try done. rewrite <- val_app. pose proof (val_bound _ HM) as HbM. rewrite ElM in HbM. pose proof (val_bound a Ha). pose proof (sval_bounds a Ha Hne) as Hb. pose proof (Bn_pos (length a)).
  pose proof (sval_neg a Ha Hne) as Hs. fold s in Hs. unfold sval in *. fold s in Hs, Hb |- *. destruct s; symmetry in Hs; simpl Z.b2z in *.
  - apply bool_decide_eq_true in Hs. destruct (val_flip a Ha) as [_ Ef]. rewrite Ef in EvM. assert (cM = 0) as -> by nia. lia.
  - rewrite map_flip_false in EvM. assert (cM = 0) as -> by nia. lia.
Qed.

Lemma fold_lor_zero l z : limbs_ok l -> 0 <= z -> (foldl Z.lor z l =? 0) = (z =? 0) && (val l =? 0).
Proof.
  intros Hl. revert z. induction Hl as [|x l Hx Hl IH]; intros z Hz; cbn [foldl val]; [by rewrite andb_true_r|]. unfold limb_ok in Hx. pose proof (val_bound l Hl).
  rewrite IH by (apply Z.lor_nonneg; lia). destruct (Z.eqb_spec (Z.lor z x) 0) as [E|E].
  - apply Z.lor_eq_0_iff in E as [-> ->]. simpl. destruct (Z.eqb_spec (val l) 0), (Z.eqb_spec (0 + B * val l) 0); done || lia.
  - simpl. symmetry. apply andb_false_iff. destruct (Z.eqb_spec z 0) as [->|]; [right|by left]. rewrite Z.lor_0_l in E. apply Z.eqb_neq. lia.
Qed.

(** The quotient by [2^n] with a last bit set when the division is not exact. *)
Definition sticky (a n : Z) : Z := Z.lor (a / 2 ^ n) (Z.b2z (negb (a mod 2 ^ n =? 0))).

(** A bit joined at the bottom does not change the bits above. *)
Lemma lor_low t (s : bool) k :
  0 <= t -> 1 <= k -> let u := Z.lor t (Z.b2z s) in u / 2 ^ k = t / 2 ^ k /\ (u mod 2 ^ k =? 0) = (t mod 2 ^ k =? 0) && negb s /\ t <= u <= t + 1.
Proof.
  intros Ht Hk u. destruct s; cbn [Z.b2z] in u; [|subst u; rewrite Z.lor_0_r, andb_true_r; split; [done|split; [done|lia]]]. rewrite andb_false_r.
  assert (exists h (b : bool), t = 2 * h + Z.b2z b /\ u = 2 * h + 1 /\ 0 <= h) as (h & b & Et & Eu & Hh).
  { exists (t / 2), (Z.odd t). assert (t = 2 * (t / 2) + Z.b2z (Z.odd t)) as Et by (rewrite (Z.div_mod t 2) at 1 by lia; rewrite Zmod_odd; by destruct (Z.odd t)). split; [done|]. split; [|apply Z.div_pos; lia].
    assert (t / 2 = u / 2) as -> by (change 2 with (2 ^ 1); rewrite <- !Z.shiftr_div_pow2 by lia; unfold u; rewrite Z.shiftr_lor; symmetry; apply Z.lor_0_r).
    assert (Z.odd u = true) as Ho by (unfold u; rewrite <- Z.bit0_odd, Z.lor_spec; apply orb_true_r). rewrite (Z.div_mod u 2) at 1 by lia. by rewrite Zmod_odd, Ho. }
  assert (2 ^ k = 2 * 2 ^ (k - 1)) as Ek by (rewrite <- Z.pow_succ_r by lia; f_equal; lia). pose proof (Z.pow_pos_nonneg 2 (k - 1) ltac:(lia) ltac:(lia)).
  clearbody u. subst t u. rewrite Ek, <- !Z.div_div by lia. rewrite !(Z.add_comm (2 * h)), !(Z.mul_comm 2 h), !Z.div_add by lia.
  split; [|split].
  - by destruct b.
  - apply Z.eqb_neq. rewrite Z.rem_mul_r by lia. rewrite Z.mod_add by lia. change (1 mod 2) with 1. pose proof (Z.mod_pos_bound ((1 + h * 2) / 2) (2 ^ (k - 1))). lia.
  - destruct b; simpl; lia.
Qed.

(** A quotient and a remainder give the sticky quotient. *)
Lemma sticky_unique a n q r : 0 <= n -> a = q * 2 ^ n + r -> 0 <= r < 2 ^ n -> sticky a n = Z.lor q (Z.b2z (negb (r =? 0))).
Proof.
  intros Hn -> Hr. unfold sticky. replace ((q * 2 ^ n + r) / 2 ^ n) with q by (apply (Z.div_unique _ _ _ r); lia). by replace ((q * 2 ^ n + r) mod 2 ^ n) with r by (apply (Z.mod_unique_pos _ _ q); lia).
Qed.

Lemma log2_mul_pow2 a b e n : 0 <= n -> 0 <= e -> a = b * 2 ^ n -> 2 ^ e <= b < 2 ^ (e + 1) -> Z.log2 a = e + n.
Proof.
  intros Hn He -> Hb. pose proof (Z.pow_pos_nonneg 2 n ltac:(lia) Hn). apply Z.log2_unique; [lia|]. rewrite <- Z.add_succ_l, !Z.pow_add_r by lia. change (Z.succ e) with (e + 1). nia.
Qed.

(** The last part of [js_bigint_get_mant_exp], for the two high limbs and whether bits below are set. *)
Definition mant_of (t0 t1 : Z) (low : bool) (len : nat) : Z * Z :=
  let a1 := t1 in
  let a0 := Z.lor t0 (Z.b2z low) in
  let '(shift, a1, a0) :=
    if a1 =? 0 then (64, a0, 0)
    else
      let shift := js_limb_clz a1 in
      if shift =? 0 then (shift, a1, a0)
      else (shift, Z.lor (u64 (Z.shiftl a1 shift)) (Z.shiftr a0 (64 - shift)), u64 (Z.shiftl a0 shift)) in
  (Z.lor a1 (Z.b2z (negb (a0 =? 0))), Z.of_nat len * 64 - shift - 1).

(** No bits below the two high limbs, or a high limb of zero. *)
Lemma mant_of_low t0 low n1 A :
  limb_ok t0 -> 0 <= low < Bn n1 -> A = low + Bn n1 * t0 -> 2 ^ 63 <= t0 ->
  mant_of t0 0 (negb (low =? 0)) (n1 + 2) = (sticky (A * 2 ^ 64) (Z.log2 A + 1), Z.log2 A).
Proof.
  intros Ht0 Hlow EA Hhigh. unfold mant_of. cbv zeta. rewrite Z.eqb_refl. set (N := Bn n1) in *. assert (N = 2 ^ (64 * Z.of_nat n1)) as EN by apply Bn_pow2. assert (0 < N) as HN by apply Bn_pos.
  set (m := Z.of_nat n1) in *. assert (0 <= m) by lia. unfold limb_ok in *. assert (Z.log2 A = 64 * m + 63) as El.
  { apply Z.log2_unique; [lia|]. replace (Z.succ (64 * m + 63)) with (64 * m + 64) by lia. rewrite !Z.pow_add_r, <- EN by lia. change (2 ^ 64) with B. clearbody N. nia. }
  rewrite El. f_equal; [|lia]. replace (negb (0 =? 0)) with false by done. rewrite Z.lor_0_r. symmetry.
  assert (2 ^ (64 * m + 63 + 1) = N * B) as Ep by (replace (64 * m + 63 + 1) with (64 * m + 64) by lia; rewrite Z.pow_add_r, <- EN by lia; done). clearbody N.
  rewrite (sticky_unique _ _ t0 (low * B)); [|lia|rewrite Ep, EA; change (2 ^ 64) with B; ring|rewrite Ep; nia]. do 3 f_equal. destruct (Z.eqb_spec low 0), (Z.eqb_spec (low * B) 0); done || lia.
Qed.

(** The quotient and the remainder of the shifted magnitude, with [B = C * P]. *)
Lemma shifted_quotient t0 t1 low N C P :
  0 <= t0 -> 0 <= low < N -> B = C * P -> 0 < C -> 0 < P ->
  let r := (N * ((t0 mod C) * P) + low * P) * C in
  (low + N * (t0 + B * t1)) * B = (t1 * P + t0 / C) * (N * C * B) + r /\ 0 <= r < N * C * B /\ (r =? 0) = (t0 mod C =? 0) && (low =? 0).
Proof.
  intros Ht0 Hlow EB HC HP r. pose proof (Z.div_mod t0 C ltac:(lia)) as Edm. pose proof (Z.mod_pos_bound t0 C HC) as Hm. set (q := t0 / C) in *. set (x := t0 mod C) in *. clearbody q x. subst t0. split; [|split].
  - unfold r. rewrite EB. ring.
  - unfold r. assert (0 <= x * P + P <= B) as Hx by (rewrite EB; nia). assert (0 <= N * (x * P) + low * P < N * B) as Hb by nia. clear -Hb HC. split; [nia|]. replace (N * C * B) with ((N * B) * C) by ring. apply Z.mul_lt_mono_pos_r; lia.
  - unfold r. clear r. assert (0 <= x * P) by nia. assert (0 <= N * (x * P)) by (apply Z.mul_nonneg_nonneg; lia). assert (0 <= low * P) by (apply Z.mul_nonneg_nonneg; lia). destruct (Z.eqb_spec x 0) as [->|]; [destruct (Z.eqb_spec low 0) as [->|]|]; cbn [andb]; [apply Z.eqb_eq; lia|apply Z.eqb_neq; nia|].
    apply Z.eqb_neq. assert (0 < N * (x * P)) by (apply Z.mul_pos_pos; [|apply Z.mul_pos_pos]; lia). nia.
Qed.

(** The joined bit and the bits shifted out. *)
Lemma shifted_bits t0 (sl : bool) s :
  limb_ok t0 -> 1 <= s <= 63 ->
  let a0 := Z.lor t0 (Z.b2z sl) in
  Z.shiftr a0 (64 - s) = t0 / 2 ^ (64 - s) /\ (u64 (Z.shiftl a0 s) =? 0) = (t0 mod 2 ^ (64 - s) =? 0) && negb sl.
Proof.
  intros Ht Hs a0. unfold limb_ok in Ht. destruct (lor_low t0 sl (64 - s) ltac:(lia) ltac:(lia)) as (H1 & H2 & H3). fold a0 in H1, H2, H3. rewrite Z.shiftr_div_pow2 by lia. split; [done|].
  assert (limb_ok a0) as Ha0. { apply (logic_limb OP_or t0 (Z.b2z sl)); [done|unfold limb_ok; destruct sl; simpl; lia]. }
  rewrite <- H2, u64_shiftl, Z.shiftl_mul_pow2 by (done || lia). pose proof (Z.pow_pos_nonneg 2 s). destruct (Z.eqb_spec (a0 mod 2 ^ (64 - s)) 0) as [->|]; [done|apply Z.eqb_neq; nia].
Qed.

Lemma mant_log2 A Q N C r m s :
  2 ^ 63 <= Q < B -> A * B = Q * (N * C * B) + r -> 0 <= r < N * C * B -> N * C = 2 ^ (64 * m + (64 - s)) -> 0 <= m -> 0 <= s <= 63 -> Z.log2 A = 64 * m + 127 - s.
Proof.
  intros HQ EA Hr E Hm Hs. assert (0 < 2 ^ (64 * m + (64 - s))) as HP by (apply Z.pow_pos_nonneg; lia). rewrite E in *. set (P := 2 ^ (64 * m + (64 - s))) in *.
  assert (2 ^ (64 * m + 127 - s) = P * 2 ^ 63) as E1 by (unfold P; rewrite <- Z.pow_add_r by lia; f_equal; lia).
  apply Z.log2_unique; [lia|]. rewrite Z.pow_succ_r, E1 by lia. clearbody P. clear E1 E. split; nia.
Qed.

(** The exponent and the mantissa of [A = low + N * (t0 + B * t1)], for the lower limbs below [N]. *)
Lemma mant_of_ok t0 t1 low n1 A :
  limb_ok t0 -> limb_ok t1 -> 0 <= low < Bn n1 -> A = low + Bn n1 * (t0 + B * t1) -> (t1 = 0 -> 2 ^ 63 <= t0) ->
  mant_of t0 t1 (negb (low =? 0)) (n1 + 2) = (sticky (A * 2 ^ 64) (Z.log2 A + 1), Z.log2 A).
Proof.
  intros Ht0 Ht1 Hlow EA Hhigh. destruct (Z.eq_dec t1 0) as [->|Ht10]; [apply mant_of_low; try done; [lia|by apply Hhigh]|].
  unfold mant_of. cbv zeta. destruct (Z.eqb_spec t1 0); [done|]. pose proof Ht1 as Ht1'. pose proof Ht0 as Ht0'. unfold limb_ok in Ht1', Ht0'.
  destruct (clz_ok t1 Ht1 ltac:(lia)) as (Hs & H1 & H2). set (s := js_limb_clz t1) in *. clearbody s. pose proof (Z.pow_pos_nonneg 2 s ltac:(lia) ltac:(lia)) as HP. pose proof (Z.pow_pos_nonneg 2 (64 - s) ltac:(lia) ltac:(lia)) as HC.
  assert (B = 2 ^ (64 - s) * 2 ^ s) as EB by (rewrite <- Z.pow_add_r by lia; replace (64 - s + s) with 64 by lia; done).
  destruct (shifted_quotient t0 t1 low (Bn n1) (2 ^ (64 - s)) (2 ^ s)) as (EQ & Hr & Hz); [lia|done..|]. cbv zeta in *. rewrite <- EA in EQ. set (r := (_ + low * 2 ^ s) * _) in *. clearbody r.
  assert (0 <= t0 / 2 ^ (64 - s) < 2 ^ s) as Hq by (split; [apply Z.div_pos; lia|apply Z.div_lt_upper_bound; [lia|rewrite <- EB; lia]]).
  set (Q := t1 * 2 ^ s + t0 / 2 ^ (64 - s)) in *. assert (2 ^ 63 <= Q < B) as HQ by (unfold Q; change (2 ^ 64) with B in H2; lia).
  assert (Bn n1 * 2 ^ (64 - s) = 2 ^ (64 * Z.of_nat n1 + (64 - s))) as EP by (rewrite Bn_pow2, <- Z.pow_add_r by lia; done).
  pose proof (mant_log2 A Q _ _ r _ s HQ EQ Hr EP ltac:(lia) Hs) as El. rewrite El.
  assert (2 ^ (64 * Z.of_nat n1 + 127 - s + 1) = Bn n1 * 2 ^ (64 - s) * B) as Ep by (rewrite EP; change B with (2 ^ 64); rewrite <- Z.pow_add_r by lia; f_equal; lia).
  rewrite (sticky_unique _ _ Q r); [|lia|rewrite Ep; exact EQ|by rewrite Ep]. rewrite Hz. destruct (Z.eqb_spec s 0) as [->|Es].
  - change (64 - 0) with 64 in *. f_equal; [|lia]. unfold Q. change (2 ^ 64) with B. rewrite Z.div_small, Z.mod_small, Z.mul_1_r, Z.add_0_r by lia. do 3 f_equal. destruct (Z.eqb_spec low 0); cbn [negb Z.b2z].
    + by rewrite Z.lor_0_r, andb_true_r.
    + rewrite andb_false_r. apply Z.eqb_neq. intros [_ E]%Z.lor_eq_0_iff. done.
  - f_equal; [|lia]. destruct (shifted_bits t0 (negb (low =? 0)) s Ht0 ltac:(lia)) as [-> ->]. rewrite negb_involutive.
    rewrite (u64_small (Z.shiftl t1 s)) by (unfold limb_ok; rewrite Z.shiftl_mul_pow2 by lia; change (2 ^ 64) with B in H2; lia). rewrite lor_shiftl_add by (unfold uint_ok; lia). done.
Qed.

Lemma sticky_scale a n k : 0 <= n -> 0 <= k -> sticky (a * 2 ^ k) (n + k) = sticky a n.
Proof.
  intros Hn Hk. unfold sticky. pose proof (Z.pow_pos_nonneg 2 n ltac:(lia) Hn). pose proof (Z.pow_pos_nonneg 2 k ltac:(lia) Hk).
  rewrite Z.pow_add_r, Z.div_mul_cancel_r, Z.mul_mod_distr_r by lia. do 3 f_equal. destruct (Z.eqb_spec (a mod 2 ^ n) 0) as [->|]; [done|apply Z.eqb_neq; nia].
Qed.

Lemma mant_of_len t0 t1 l n m : mant_of t0 t1 l n = ((mant_of t0 t1 l m).1, (mant_of t0 t1 l m).2 + 64 * (Z.of_nat n - Z.of_nat m)).
Proof. unfold mant_of. cbv zeta. destruct (t1 =? 0); [|destruct (_ =? 0)]; cbn [fst snd]; f_equal; lia. Qed.

Lemma get_mant_exp_ok a :
  bigint_ok a -> sval a <> 0 -> let A := Z.abs (sval a) in js_bigint_get_mant_exp a = (sticky (A * 2 ^ 64) (Z.log2 A + 1), Z.log2 A).
Proof.
  intros Ha Hz A. pose proof Ha as [Hl Hne%normalized_ne]. unfold js_bigint_get_mant_exp. destruct (magnitude_limbs a (length a - 2) Hl Hne) as (low & t & c & c' & -> & -> & Hlow & Ht & Ello & Elt & Ev).
  fold A in Ev. rewrite length_take in Ello. rewrite length_drop in Elt. destruct a as [|x [|y a]]; [done| |].
  - destruct low; [|done]. destruct t as [|v [|]]; [done| |done]. simpl in Ev. rewrite Bn_0 in Ev. inversion Ht as [|? ? Hv _]; subst x0 l. pose proof Hv as Hv'. unfold limb_ok in Hv'. cbn [foldl]. cbv zeta.
    change (mant_of 0 v (negb (0 =? 0)) (length [x]) = (sticky (A * 2 ^ 64) (Z.log2 A + 1), Z.log2 A)). assert (0 < A) by lia.
    rewrite (mant_of_len 0 v _ 1 (0 + 2)), (mant_of_ok 0 v 0 0 (A * 2 ^ 64)); [|unfold limb_ok; lia|done|rewrite Bn_0; lia|rewrite Bn_0; change (2 ^ 64) with B; lia|lia]. cbn [fst snd].
    rewrite Z.log2_mul_pow2 by lia. pose proof (Z.log2_nonneg A). f_equal; [|simpl; lia]. replace (64 + Z.log2 A + 1) with (Z.log2 A + 1 + 64) by lia. apply sticky_scale; lia.
  - cbn [length] in Ello, Elt. destruct t as [|t0 [|t1 [|]]]; cbn [length] in Elt; try lia. cbv zeta. inversion Ht as [|? ? Ht0 Ht']; subst x0 l. inversion Ht' as [|? ? Ht1 _]; subst x0 l.
    rewrite fold_lor_zero by (done || lia). rewrite Z.eqb_refl. cbn [andb]. change (length (x :: y :: a)) with (S (S (length a))). replace (S (S (length a))) with (length a + 2)%nat by lia.
    assert (length low = length a) as El by lia. pose proof (val_bound low Hlow) as Hvl. rewrite El in *. cbn [val] in Ev. rewrite Z.mul_0_r, Z.add_0_r in Ev. apply mant_of_ok; try done.
    intros ->. pose proof (normalized_magnitude _ (S (length a)) Ha Hz eq_refl) as Hm. fold A in Hm. rewrite Bn_S in Hm. pose proof (Bn_pos (length a)). unfold limb_ok in Ht0. nia.
Qed.

(** ** Part 3: conversions *)

(** One bit less, with the bit shifted out joined to the last. *)
Lemma sticky_shift a n : 0 <= a -> 0 <= n -> let u := sticky a n in Z.lor (Z.shiftr u 1) (Z.land u 1) = sticky a (n + 1).
Proof.
  intros Ha Hn u. pose proof (Z.pow_pos_nonneg 2 n ltac:(lia) Hn). pose proof (Z.div_pos a (2 ^ n) ltac:(lia) ltac:(lia)) as Hq. unfold sticky in u. set (q := a / 2 ^ n) in *. set (f := negb (a mod 2 ^ n =? 0)) in *.
  destruct (lor_low q f 1 Hq ltac:(lia)) as (H1 & H2 & _). fold u in H1, H2. change (2 ^ 1) with 2 in *.
  pose proof (Z.div_mod a (2 ^ n) ltac:(lia)) as Ea. fold q in Ea. pose proof (Z.mod_pos_bound a (2 ^ n) ltac:(lia)). pose proof (Z.div_mod q 2 ltac:(lia)) as Eq. pose proof (Z.mod_pos_bound q 2 ltac:(lia)).
  rewrite (sticky_unique a (n + 1) (q / 2) (q mod 2 * 2 ^ n + a mod 2 ^ n)); [|lia|rewrite Z.pow_add_r by lia; change (2 ^ 1) with 2; nia|rewrite Z.pow_add_r by lia; change (2 ^ 1) with 2; nia].
  rewrite Z.shiftr_div_pow2 by lia. change (2 ^ 1) with 2. rewrite H1. f_equal. transitivity (u mod 2); [apply (Z.land_ones u 1); lia|].
  assert (u mod 2 = Z.b2z (negb (u mod 2 =? 0))) as -> by (rewrite Zmod_odd; by destruct (Z.odd u)). rewrite H2. do 2 f_equal. unfold f. rewrite negb_involutive.
  destruct (Z.eqb_spec (q mod 2) 0) as [->|]; cbn [andb]; [by rewrite Z.mul_0_l, Z.add_0_l|symmetry; apply Z.eqb_neq; nia].
Qed.

(** The low bits of a quotient with its joined bit, against half of the unit. *)
Lemma half_compare q (f : bool) k :
  0 <= q -> 2 <= k ->
  let u := Z.lor q (Z.b2z f) in let x := q mod 2 ^ k in let y := u mod 2 ^ k in let h := 2 ^ (k - 1) in
  u / 2 ^ k = q / 2 ^ k /\ (x < h -> y < h) /\ (h < x -> h < y) /\ (x = h -> if f then h < y else y = h).
Proof.
  intros Hq Hk u x y h. destruct (lor_low q f k Hq ltac:(lia)) as (Hu1 & _ & Hu3). fold u in Hu1, Hu3. split; [done|].
  assert (2 ^ k = 2 * h) as Ek by (unfold h; rewrite <- Z.pow_succ_r by lia; f_equal; lia). assert (exists g, h = 2 * g /\ 0 < g) as (g & Eh & Hg).
  { exists (2 ^ (k - 2)). split; [unfold h; rewrite <- Z.pow_succ_r by lia; f_equal; lia|apply Z.pow_pos_nonneg; lia]. }
  assert (y = x + (u - q)) as Ey. { unfold x, y. rewrite !Z.mod_eq by lia. rewrite Hu1. lia. }
  assert (Z.odd u = Z.odd q || f) as Hodd. { unfold u. rewrite <- !Z.bit0_odd, Z.lor_spec. by destruct f. }
  assert (forall z, z mod 2 ^ k = z - 2 * (h * (z / 2 ^ k))) as Hmod by (intros z; rewrite Z.mod_eq by lia; rewrite Ek at 1; lia).
  assert (Z.odd y = Z.odd u) as Hyo by (unfold y; rewrite Hmod, Z.odd_sub, (Z.odd_mul 2); apply xorb_false_r).
  assert (Z.odd x = Z.odd q) as Hxo by (unfold x; rewrite Hmod, Z.odd_sub, (Z.odd_mul 2); apply xorb_false_r).
  assert (Z.odd h = false) as Hho by (rewrite Eh, Z.odd_mul; done). clearbody x y h u.
  assert (forall z w, Z.odd z <> Z.odd w -> z <> w) as Hne by (intros z w Ho ->; done).
  split; [|split].
  - intros Hx. destruct (Z.eq_dec y h) as [E|]; [|lia]. exfalso. assert (x = h - 1) as Ex by lia. rewrite Ex, Z.odd_sub, Hho in Hxo. simpl in Hxo. rewrite E, Hho, Hodd, <- Hxo in Hyo. done.
  - intros Hx. destruct (Z.eq_dec u q); lia.
  - intros ->. destruct f.
    + assert (y <> h); [|lia]. apply Hne. rewrite Hho, Hyo, Hodd, orb_true_r. done.
    + rewrite orb_false_r in Hodd. destruct (Z.eq_dec u (q + 1)) as [E|]; [|lia]. rewrite E, Z.odd_add in Hodd. by destruct (Z.odd q).
Qed.

Lemma join_bound x r m P : 0 <= x < m -> 0 <= r < P -> 0 <= x * P + r < m * P.
Proof. nia. Qed.

(** Rounding the sticky quotient rounds the number. *)
Lemma round_sticky a n k :
  0 <= a -> 0 <= n -> 2 <= k <= 31 -> sticky a n < 2 ^ 63 -> shr_rndn (sticky a n) k = round_even a (n + k).
Proof.
  intros Ha Hn Hk Hsmall. pose proof (Z.pow_pos_nonneg 2 n ltac:(lia) Hn) as Hpn. pose proof (Z.div_pos a (2 ^ n) ltac:(lia) ltac:(lia)) as Hq. unfold sticky in *.
  pose proof (Z.div_mod a (2 ^ n) ltac:(lia)) as Ea. pose proof (Z.mod_pos_bound a (2 ^ n) ltac:(lia)) as Hr. set (q := a / 2 ^ n) in *. set (r := a mod 2 ^ n) in *.
  destruct (half_compare q (negb (r =? 0)) k Hq ltac:(lia)) as (Hu & Hlt & Hgt & Heq). set (u := Z.lor q _) in *. set (h := 2 ^ (k - 1)) in *.
  assert (2 ^ k = 2 * h) as Ek by (unfold h; rewrite <- Z.pow_succ_r by lia; f_equal; lia). assert (0 < h <= 2 ^ 30) as Hh by (unfold h; split; [apply Z.pow_pos_nonneg; lia|apply Z.pow_le_mono_r; lia]).
  pose proof (Z.div_mod u (2 ^ k) ltac:(lia)) as Eu. rewrite Hu in Eu. pose proof (Z.mod_pos_bound u (2 ^ k) ltac:(lia)) as Hy. pose proof (Z.div_mod q (2 ^ k) ltac:(lia)) as Eq. pose proof (Z.mod_pos_bound q (2 ^ k) ltac:(lia)) as Hx.
  set (Q := q / 2 ^ k) in *. set (x := q mod 2 ^ k) in *. set (y := u mod 2 ^ k) in *.
  assert (0 <= u) as Hu0 by (apply Z.lor_nonneg; split; [done|destruct (r =? 0); simpl; lia]).
  unfold shr_rndn. rewrite (Z.shiftr_div_pow2 u), Hu, Z.shiftl_1_l by lia. fold h. assert (Z.land Q 1 = Z.b2z (Z.odd Q)) as -> by (transitivity (Q mod 2); [apply (Z.land_ones Q 1); lia|rewrite Zmod_odd; by destruct (Z.odd Q)]).
  set (o := Z.b2z (Z.odd Q)). assert (0 <= o <= 1) as Ho by (unfold o; destruct (Z.odd Q); simpl; lia). rewrite u64_small, Z.shiftr_div_pow2 by (unfold limb_ok; lia).
  assert (a = Q * 2 ^ (n + k) + (x * 2 ^ n + r)) as Ea2 by (rewrite Z.pow_add_r by lia; rewrite Ea, Eq at 1; ring). assert (2 ^ (n + k) = 2 * (h * 2 ^ n)) as Enk by (rewrite Z.pow_add_r, Ek by lia; ring).
  assert (0 <= x * 2 ^ n + r < 2 ^ (n + k)) as Hxr by (rewrite Z.add_comm, Z.pow_add_r by lia; rewrite (Z.mul_comm (2 ^ n)), Z.add_comm; by apply join_bound).
  unfold round_even. assert (a / 2 ^ (n + k) = Q) as -> by (symmetry; apply (Z.div_unique _ _ _ (x * 2 ^ n + r)); lia).
  assert (a mod 2 ^ (n + k) = x * 2 ^ n + r) as -> by (symmetry; apply (Z.mod_unique_pos _ _ Q); lia). rewrite Enk.
  assert (forall b, (0 <= b <= 1) -> (b * 2 ^ k <= y + o + h - 1 < (b + 1) * 2 ^ k) -> (u + (o + (h - 1))) / 2 ^ k = Q + b) as Hres by (intros b Hb Hbb; symmetry; apply (Z.div_unique _ _ _ (y + o + h - 1 - b * 2 ^ k)); lia).
  clearbody y x u r Q q. destruct (Z.lt_trichotomy x h) as [Hxh|[Hxh|Hxh]].
  - specialize (Hlt Hxh). replace (2 * (x * 2 ^ n + r) ?= 2 * (h * 2 ^ n)) with Lt by (symmetry; apply Z.compare_lt_iff; nia). rewrite (Hres 0); lia.
  - specialize (Heq Hxh). rewrite Hxh. destruct (Z.eqb_spec r 0) as [->|]; cbn [negb] in Heq.
    + rewrite Z.add_0_r, Z.compare_refl, <- Z.negb_odd. unfold o in *. destruct (Z.odd Q); simpl Z.b2z in *; simpl negb; cbv iota; [rewrite (Hres 1); lia|rewrite (Hres 0); lia].
    + replace (2 * (h * 2 ^ n + r) ?= 2 * (h * 2 ^ n)) with Gt by (symmetry; apply Z.compare_gt_iff; lia). rewrite (Hres 1); lia.
  - specialize (Hgt Hxh). replace (2 * (x * 2 ^ n + r) ?= 2 * (h * 2 ^ n)) with Gt by (symmetry; apply Z.compare_gt_iff; nia). rewrite (Hres 1); lia.
Qed.

Lemma pack_bits (s : bool) x m :
  0 <= x < 2 ^ 11 -> 0 <= m < 2 ^ 52 -> Z.lor (Z.lor (Z.shiftl (Z.b2z s) 63) (Z.shiftl x 52)) m = Z.b2z s * 2 ^ 63 + x * 2 ^ 52 + m.
Proof.
  intros Hx Hm. replace (Z.shiftl (Z.b2z s) 63) with (Z.shiftl (Z.shiftl (Z.b2z s) 11) 52) by (rewrite Z.shiftl_shiftl by lia; done).
  rewrite <- Z.shiftl_lor, !lor_shiftl_add by (done || lia). lia.
Qed.

Lemma round_even_bounds a n : 0 <= a -> 0 <= n -> a / 2 ^ n <= round_even a n <= a / 2 ^ n + 1.
Proof. intros. unfold round_even. destruct (_ ?= _); [destruct (Z.even _)| |]; lia. Qed.

(** The rounded quotient is as near as any. *)
Lemma round_even_nearest a n : 0 <= a -> 0 <= n -> 2 * Z.abs (round_even a n * 2 ^ n - a) <= 2 ^ n.
Proof.
  intros Ha Hn. pose proof (Z.pow_pos_nonneg 2 n ltac:(lia) Hn). pose proof (Z.div_mod a (2 ^ n) ltac:(lia)) as E. pose proof (Z.mod_pos_bound a (2 ^ n) ltac:(lia)). unfold round_even.
  destruct (Z.compare_spec (2 * (a mod 2 ^ n)) (2 ^ n)); [destruct (Z.even _)| |]; lia.
Qed.

Lemma js_bigint_to_float64_ok a : bigint_ok a -> js_bigint_to_float64 a = float_of_int (sval a).
Proof.
  intros Ha. pose proof Ha as [Hl Hne%normalized_ne]. destruct a as [|x [|y a]]; [done|cbn [js_bigint_to_float64]; by rewrite sval_one|].
  unfold js_bigint_to_float64. set (l := x :: y :: a) in *. pose proof (normalized_large l (length a) Ha eq_refl) as Hlarge. pose proof (Bn_mono 1 (S (length a)) ltac:(lia)) as Hm. rewrite Bn_S, Bn_0 in Hm.
  assert (sval l <> 0) as Hz by lia. rewrite (get_mant_exp_ok l Ha Hz). set (A := Z.abs (sval l)). assert (2 ^ 63 <= A) as HA by (unfold A; lia). assert (63 <= Z.log2 A) as He by (apply Z.log2_le_pow2; lia).
  unfold float_of_int. destruct (Z.eqb_spec (sval l) 0); [done|]. fold A. destruct (Z.log2_spec A ltac:(lia)) as [H1 H2]. set (e := Z.log2 A) in *. assert (sticky (A * 2 ^ 64) (e + 1) = sticky A (e - 63)) as -> by (rewrite <- (sticky_scale A (e - 63) 64) by lia; f_equal; lia).
  cbv zeta. destruct (Z.leb_spec e 52); [lia|]. rewrite (sval_neg l Hl Hne). assert ((sval l <? 0) = bool_decide (sval l < 0)) as -> by (case_bool_decide; lia). set (s := bool_decide (sval l < 0)). clearbody s.
  destruct (Z.ltb_spec 1023 e) as [|He2].
  { destruct (round_even A (e - 52) =? 2 ^ 53); [destruct (Z.ltb_spec 1023 (e + 1)); [|lia]|destruct (Z.ltb_spec 1023 e); [|lia]]; by destruct s. }
  rewrite (sticky_shift A (e - 63)) by lia. replace (e - 63 + 1) with (e - 62) by lia.
  assert (forall k, 0 <= k <= e -> 2 ^ k <= A / 2 ^ (e - k) < 2 ^ (k + 1)) as Hdiv.
  { intros k Hk. pose proof (Z.pow_pos_nonneg 2 (e - k)). split; [apply Z.div_le_lower_bound; [lia|]|apply Z.div_lt_upper_bound; [lia|]]; rewrite <- Z.pow_add_r by lia; [replace (e - k + k) with e by lia; done|replace (e - k + (k + 1)) with (Z.succ e) by lia; done]. }
  assert (sticky A (e - 62) < 2 ^ 63) as Hst.
  { specialize (Hdiv 62 ltac:(lia)). unfold sticky. set (q := A / 2 ^ (e - 62)) in *. destruct (lor_low q (negb (A mod 2 ^ (e - 62) =? 0)) 63 ltac:(lia) ltac:(lia)) as (Hu & _ & Hu3). set (u := Z.lor q _) in *.
    rewrite (Z.div_small q) in Hu by lia. apply Z.div_small_iff in Hu; lia. }
  rewrite (round_sticky A (e - 62) 10) by lia. replace (e - 62 + 10) with (e - 52) by lia. specialize (Hdiv 52 ltac:(lia)). pose proof (round_even_bounds A (e - 52) ltac:(lia) ltac:(lia)) as Hb.
  set (m := round_even A (e - 52)) in *. clearbody m. change (Z.shiftl 1 53) with (2 ^ 53). change (Z.shiftl 1 52 - 1) with (Z.ones 52). change (52 + 1) with 53 in Hdiv. clear -He2 Hb Hdiv He.
  destruct (Z.leb_spec (2 ^ 53) m), (Z.eqb_spec m (2 ^ 53)); try lia.
  - subst m. change (Z.land (Z.shiftr (2 ^ 53) 1) (Z.ones 52)) with 0. rewrite pack_bits by lia. destruct (Z.ltb_spec 1023 (e + 1)); unfold float_bits; [replace e with 1023 by lia; done|lia].
  - rewrite Z.land_ones by lia. assert (m mod 2 ^ 52 = m - 2 ^ 52) as -> by (symmetry; apply (Z.mod_unique_pos _ _ 1); lia). rewrite pack_bits by lia. destruct (Z.ltb_spec 1023 e); [lia|done].
Qed.

(** A finite double times [2^1074], an integer. *)
Definition float_scaled (b : Z) : Z :=
  let m := if float_exp b =? 0 then float_mant b else (2 ^ 52 + float_mant b) * 2 ^ (float_exp b - 1) in
  if float_sign b then - m else m.

Lemma float_fields b : uint_ok 64 b -> 0 <= float_exp b <= 2047 /\ 0 <= float_mant b < 2 ^ 52.
Proof.
  intros Hb. unfold uint_ok, float_exp, float_mant in *. change (Z.shiftl 1 11 - 1) with (Z.ones 11). change (Z.shiftl 1 52 - 1) with (Z.ones 52). rewrite !Z.land_ones by lia.
  pose proof (Z.mod_pos_bound (Z.shiftr b 52) (2 ^ 11)). pose proof (Z.mod_pos_bound b (2 ^ 52)). lia.
Qed.

(** A number between zero and [p] is no multiple of [p]. *)
Lemma no_multiple z p m (sgn : bool) : 0 < m < p -> z * p <> if sgn then - m else m.
Proof. intros Hm E. destruct (Z.lt_trichotomy z 0) as [|[->|]]; destruct sgn; nia. Qed.

Section FromFloat.
Context (fresh : nat -> list Z) (fresh_ok : forall n, length (fresh n) = n /\ limbs_ok (fresh n)).

(** [mant * 2^e] as a big integer. *)
Lemma shifted_integer (sgn : bool) mant e :
  0 < mant < 2 ^ 53 -> 0 <= e <= 971 ->
  exists r, (r ⇐ js_bigint_shl fresh (js_bigint_set_si (if sgn then u64 (- mant) else mant)) e; ok (Integer r)) = (ok (Integer r) : throws _) /\
    bigint_ok r /\ sval r = (if sgn then - mant else mant) * 2 ^ e.
Proof.
  intros Hm He. set (v := if sgn then u64 (- mant) else mant). assert (limb_ok v /\ sval [v] = if sgn then - mant else mant) as [Hv Ev].
  { unfold v. destruct sgn.
    - assert (u64 (- mant) = B - mant) as -> by (unfold wrap; symmetry; apply (Z.mod_unique_pos _ _ (-1)); change (2 ^ 64) with B; lia). split; [unfold limb_ok; lia|].
      rewrite sval_one, sign_bit by (unfold limb_ok; lia). destruct (Z.leb_spec (2 ^ 63) (B - mant)); simpl Z.b2z; lia.
    - split; [unfold limb_ok; lia|]. rewrite sval_one, sign_bit by (unfold limb_ok; lia). destruct (Z.leb_spec (2 ^ 63) mant); simpl Z.b2z; lia. }
  clearbody v. assert (js_bigint_set_si v = [v]) as -> by (unfold js_bigint_set_si; by rewrite u64_small).
  pose proof (js_bigint_shl_ok fresh [v] e (small_ok v Hv) ltac:(lia) ltac:(rewrite Ev; destruct sgn; lia)) as Hs. unfold computes in Hs.
  assert (e / 64 <= 15) by (assert (e / 64 < 16) by (apply Z.div_lt_upper_bound; lia); lia). pose proof (Z.div_pos e 64 ltac:(lia) ltac:(lia)).
  destruct (Z.ltb_spec JS_BIGINT_MAX_SIZE (Z.of_nat (length [v] + Z.to_nat (e / 64)))) as [Hsz|]; [unfold JS_BIGINT_MAX_SIZE in Hsz; simpl length in Hsz; lia|].
  destruct Hs as (r & -> & Hr & Evr). exists r. rewrite Evr, Ev. done.
Qed.

Lemma js_bigint_from_float64_ok b :
  uint_ok 64 b ->
  exists res, js_bigint_from_float64 fresh b = ok res /\
  match res with
  | NotFinite => float_exp b = 2047
  | NotInteger => float_exp b <> 2047 /\ forall z, z * 2 ^ 1074 <> float_scaled b
  | Integer r => float_exp b <> 2047 /\ bigint_ok r /\ sval r * 2 ^ 1074 = float_scaled b
  end.
Proof.
  intros Hb. destruct (float_fields b Hb) as [He Hm]. unfold js_bigint_from_float64, float_scaled. cbv zeta. set (e := float_exp b) in *. set (mant := float_mant b) in *. set (sgn := float_sign b). clearbody e mant sgn.
  destruct (Z.eqb_spec e 2047) as [->|He1]; [by exists NotFinite|]. destruct (Z.eqb_spec e 0) as [->|He0]; cbn [andb].
  { destruct (Z.eqb_spec mant 0) as [->|].
    - exists (Integer [0]). split; [done|]. split; [done|]. split; [apply small_ok; unfold limb_ok; lia|by destruct sgn].
    - exists NotInteger. split; [done|]. split; [done|]. intros z. apply no_multiple. pose proof (Z.pow_le_mono_r 2 52 1074 ltac:(lia) ltac:(lia)) as Hp. revert Hp. generalize (2 ^ 1074). intros. lia. }
  destruct (Z.ltb_spec (e - 1023) 0).
  { exists NotInteger. split; [done|]. split; [done|]. intros z. apply no_multiple. assert (2 ^ 1074 = 2 ^ 53 * 2 ^ (e - 1) * 2 ^ (1022 - e)) as Ep by (rewrite <- !Z.pow_add_r by lia; f_equal; lia).
    pose proof (Z.pow_pos_nonneg 2 (e - 1) ltac:(lia) ltac:(lia)). pose proof (Z.pow_pos_nonneg 2 (1022 - e) ltac:(lia) ltac:(lia)). rewrite Ep. set (P := 2 ^ (e - 1)) in *. set (R := 2 ^ (1022 - e)) in *. clearbody P R.
    assert (0 < (2 ^ 52 + mant) * P < 2 ^ 53 * P) by nia. nia. }
  assert (Z.lor mant (Z.shiftl 1 52) = 2 ^ 52 + mant) as -> by (rewrite Z.lor_comm, lor_shiftl_add by (done || lia); lia). set (M := 2 ^ 52 + mant). assert (2 ^ 52 <= M < 2 ^ 53) as HM by (unfold M; lia). clearbody M.
  set (k := e - 1023) in *. assert (e - 1 = k + 1022) as -> by lia. assert (k <= 1023) by lia. clearbody k. destruct (Z.ltb_spec k 52); cbn [andb].
  - rewrite Z.shiftl_1_l. replace (2 ^ (52 - k) - 1) with (Z.ones (52 - k)) by (rewrite Z.ones_equiv; lia). rewrite Z.land_ones, Z.shiftr_div_pow2 by lia. set (D := 2 ^ (52 - k)). assert (0 < D <= 2 ^ 52) as HD by (unfold D; split; [apply Z.pow_pos_nonneg|apply Z.pow_le_mono_r]; lia).
    assert (2 ^ 1074 = D * 2 ^ (k + 1022)) as Ep by (unfold D; rewrite <- Z.pow_add_r by lia; f_equal; lia). pose proof (Z.pow_pos_nonneg 2 (k + 1022) ltac:(lia) ltac:(lia)) as HP. rewrite Ep. set (P := 2 ^ (k + 1022)) in *. clearbody P.
    pose proof (Z.div_mod M D ltac:(lia)) as EM. pose proof (Z.mod_pos_bound M D ltac:(lia)) as Hmod. destruct (Z.eqb_spec (M mod D) 0) as [E0|E0]; cbn [negb].
    + assert (0 < M / D) by (apply Z.div_str_pos; lia). assert (M / D < 2 ^ 53) by (apply Z.div_lt_upper_bound; nia).
      destruct (shifted_integer sgn (M / D) 0 ltac:(lia) ltac:(lia)) as (r & E & Hr & Ev). exists (Integer r). split; [exact E|]. split; [done|]. split; [done|]. rewrite Ev, Z.mul_1_r. destruct sgn; nia.
    + exists NotInteger. split; [done|]. split; [done|]. intros z Hz. assert (z * D = if sgn then - M else M) as Hz' by (apply (Z.mul_reg_r _ _ P); [lia|]; destruct sgn; lia).
      apply (no_multiple (M / D - (if sgn then - z else z)) D (M mod D) true); [lia|]. destruct sgn; lia.
  - destruct (shifted_integer sgn M (k - 52) ltac:(lia) ltac:(lia)) as (r & E & Hr & Ev). exists (Integer r). split; [exact E|]. split; [done|]. split; [done|]. rewrite Ev.
    assert (2 ^ (k + 1022) = 2 ^ (k - 52) * 2 ^ 1074) as -> by (rewrite <- Z.pow_add_r by lia; f_equal; lia). destruct sgn; ring.
Qed.
End FromFloat.

(** ** Part 4: the comparison *)

Lemma sticky_compare a n m : 0 <= a -> 0 <= n -> three_way (sticky a n) (2 * m) = three_way a (2 * m * 2 ^ n).
Proof.
  intros Ha Hn. pose proof (Z.pow_pos_nonneg 2 n ltac:(lia) Hn) as HP. pose proof (Z.div_mod a (2 ^ n) ltac:(lia)) as Ea. pose proof (Z.mod_pos_bound a (2 ^ n) ltac:(lia)) as Hr. pose proof (Z.div_pos a (2 ^ n) Ha HP) as Hq. unfold sticky.
  set (q := a / 2 ^ n) in *. set (r := a mod 2 ^ n) in *. destruct (lor_low q (negb (r =? 0)) 1 Hq ltac:(lia)) as (Hu1 & Hu2 & Hu3). change (2 ^ 1) with 2 in *. set (u := Z.lor q _) in *. rewrite negb_involutive in Hu2.
  pose proof (Z.div_mod q 2 ltac:(lia)). pose proof (Z.mod_pos_bound q 2 ltac:(lia)). pose proof (Z.div_mod u 2 ltac:(lia)) as Eu. pose proof (Z.mod_pos_bound u 2 ltac:(lia)). rewrite Hu1 in Eu.
  clearbody q r u. set (P := 2 ^ n) in *. clearbody P. destruct (Z.eqb_spec r 0) as [->|Hr0].
  - rewrite andb_true_r in Hu2. assert (u = q) as -> by (destruct (Z.eqb_spec (u mod 2) 0), (Z.eqb_spec (q mod 2) 0); lia || done).
    destruct (Z.lt_trichotomy q (2 * m)) as [|[->|]]; [rewrite !three_way_lt by nia; done| |rewrite !three_way_gt by nia; done]. unfold three_way. rewrite Ea, Z.add_0_r, (Z.mul_comm P), !Z.compare_refl. done.
  - rewrite andb_false_r in Hu2. apply Z.eqb_neq in Hu2. destruct (Z.le_gt_cases (2 * m) q).
    + rewrite !three_way_gt by nia. done.
    + rewrite !three_way_lt by nia. done.
Qed.

Lemma three_way_opp x y : three_way (- x) (- y) = - three_way x y.
Proof. unfold three_way. rewrite Z.compare_opp, Z.compare_antisym. by destruct (x ?= y). Qed.

Lemma three_way_mul x y k : 0 < k -> three_way (x * k) (y * k) = three_way x y.
Proof. intros Hk. unfold three_way. by rewrite <- Zmult_compare_compat_r by lia. Qed.

(** Magnitudes with the same sign: by exponent, then by mantissa. *)
Lemma magnitude_compare A M x :
  0 < A -> 2 ^ 52 <= M < 2 ^ 53 -> 1 <= x <= 2046 ->
  let f := Z.log2 A in let e := x - 1023 in
  three_way (A * 2 ^ 1074) (M * 2 ^ (x - 1)) = if f =? e then three_way (sticky (A * 2 ^ 64) (f + 1)) (M * 2 ^ 11) else if f <? e then -1 else 1.
Proof.
  intros HA HM Hx f e. pose proof (Z.log2_nonneg A) as Hf. destruct (Z.log2_spec A HA) as [H1 H2]. fold f in Hf, H1, H2. destruct (Z.eqb_spec f e) as [E|E].
  - replace (M * 2 ^ 11) with (2 * (M * 2 ^ 10)) by lia. rewrite sticky_compare by lia. replace (2 * (M * 2 ^ 10) * 2 ^ (f + 1)) with (M * 2 ^ (f + 12)) by (rewrite !Z.pow_add_r by lia; change (2 ^ 12) with (2 * 2 ^ 10 * 2); change (2 ^ 1) with 2; ring).
    rewrite <- (three_way_mul (A * 2 ^ 64) _ (2 ^ 1010)) by (apply Z.pow_pos_nonneg; lia). rewrite <- !Z.mul_assoc, <- !Z.pow_add_r by lia. do 3 f_equal. lia.
  - destruct (Z.ltb_spec f e) as [Hlt|Hge].
    + apply three_way_lt. apply Z.lt_le_trans with (2 ^ Z.succ f * 2 ^ 1074); [apply Z.mul_lt_mono_pos_r; [apply Z.pow_pos_nonneg; lia|done]|].
      transitivity (2 ^ 52 * 2 ^ (x - 1)); [rewrite <- !Z.pow_add_r by lia; apply Z.pow_le_mono_r; lia|]. apply Z.mul_le_mono_nonneg_r; [apply Z.pow_nonneg; lia|lia].
    + apply three_way_gt. apply Z.lt_le_trans with (2 ^ 53 * 2 ^ (x - 1)); [apply Z.mul_lt_mono_pos_r; [apply Z.pow_pos_nonneg; lia|lia]|].
      transitivity (2 ^ f * 2 ^ 1074); [rewrite <- !Z.pow_add_r by lia; apply Z.pow_le_mono_r; lia|]. apply Z.mul_le_mono_nonneg_r; [apply Z.pow_nonneg; lia|lia].
Qed.

(** The sign and the size of a finite double. *)
Lemma float_scaled_sign b : uint_ok 64 b -> float_exp b <> 0 \/ float_mant b <> 0 -> if float_sign b then float_scaled b < 0 else 0 < float_scaled b.
Proof.
  intros Hb Hn. destruct (float_fields b Hb) as [He Hm]. unfold float_scaled. destruct (Z.eqb_spec (float_exp b) 0); [destruct (float_sign b); lia|].
  pose proof (Z.pow_pos_nonneg 2 (float_exp b - 1)). destruct (float_sign b); nia.
Qed.

(** What the comparison should give, and the cases in which it gives the opposite: two negative
    numbers with different exponents. *)
Definition compare_float (a : list Z) (b : Z) : Z := three_way (sval a * 2 ^ 1074) (float_scaled b).
Definition misordered (a : list Z) (b : Z) : bool := (sval a <? 0) && (float_scaled b <? 0) && negb (Z.log2 (- sval a) =? float_exp b - 1023).

Lemma three_way_cases x y : (x < y /\ three_way x y = -1) \/ (x = y /\ three_way x y = 0) \/ (y < x /\ three_way x y = 1).
Proof. unfold three_way. destruct (Z.compare_spec x y); auto. Qed.
Lemma order_cases x y (s : bool) : (if x <? y then 2 * Z.b2z s - 1 else if y <? x then 1 - 2 * Z.b2z s else 0) = if s then - three_way x y else three_way x y.
Proof. unfold three_way. destruct (Z.compare_spec x y), (Z.ltb_spec x y), (Z.ltb_spec y x), s; simpl; lia. Qed.

(** Two numbers of the same sign. *)
Lemma same_sign_compare a b :
  bigint_ok a -> sval a <> 0 -> uint_ok 64 b -> float_exp b <> 2047 -> float_exp b <> 0 \/ float_mant b <> 0 -> js_bigint_sign a = float_sign b ->
  (let '(a_mant, f) := js_bigint_get_mant_exp a in
   if f =? float_exp b - 1023 then
     let mant := u64 (Z.shiftl (Z.lor (float_mant b) (Z.shiftl 1 52)) 11) in
     if a_mant <? mant then 2 * Z.b2z (js_bigint_sign a) - 1 else if mant <? a_mant then 1 - 2 * Z.b2z (js_bigint_sign a) else 0
   else if f <? float_exp b - 1023 then -1 else 1) =
  if misordered a b then - compare_float a b else compare_float a b.
Proof.
  intros Ha Hz Hb He1 Hn Hs. pose proof Ha as [Hl Hne%normalized_ne]. rewrite (get_mant_exp_ok a Ha Hz). destruct (float_fields b Hb) as [He Hm]. pose proof (float_scaled_sign b Hb Hn) as Hsg.
  unfold misordered, compare_float. pose proof (sval_neg a Hl Hne) as Hsa. set (A := Z.abs (sval a)). set (s := js_bigint_sign a) in *. rewrite <- Hs in Hsg.
  assert (sval a = if s then - A else A) as Esa by (unfold A; rewrite Hsa; case_bool_decide; lia). assert (0 < A) as HA by (unfold A; lia).
  assert (float_scaled b = let m := (if float_exp b =? 0 then float_mant b else (2 ^ 52 + float_mant b) * 2 ^ (float_exp b - 1)) in if s then - m else m) as EF by (unfold float_scaled; by rewrite <- Hs).
  set (m := if float_exp b =? 0 then _ else _) in EF. cbv zeta in EF.
  assert (three_way (sval a * 2 ^ 1074) (float_scaled b) = if s then - three_way (A * 2 ^ 1074) m else three_way (A * 2 ^ 1074) m) as ->.
  { rewrite Esa, EF. destruct s; [|done]. by rewrite Z.mul_opp_l, three_way_opp. }
  assert ((sval a <? 0) = s) as -> by (rewrite Hsa; case_bool_decide; lia). assert ((float_scaled b <? 0) = s) as -> by (destruct s; lia). rewrite andb_diag.
  replace (Z.log2 (- sval a)) with (if s then Z.log2 A else Z.log2 (- A)) by (rewrite Esa; destruct s; f_equal; lia). pose proof (Z.log2_nonneg A).
  destruct (Z.eqb_spec (float_exp b) 0) as [E0|E0].
  - rewrite E0. destruct (Z.eqb_spec (Z.log2 A) (0 - 1023)); [lia|]. destruct (Z.ltb_spec (Z.log2 A) (0 - 1023)); [lia|]. assert (three_way (A * 2 ^ 1074) m = 1) as ->.
    { apply three_way_gt. unfold m. pose proof (Z.pow_le_mono_r 2 52 1074 ltac:(lia) ltac:(lia)) as Hp. revert Hp. generalize (2 ^ 1074). intros. nia. }
    destruct s; [|done]. destruct (Z.eqb_spec (Z.log2 A) (0 - 1023)); [lia|done].
  - assert (Z.lor (float_mant b) (Z.shiftl 1 52) = 2 ^ 52 + float_mant b) as -> by (rewrite Z.lor_comm, lor_shiftl_add by (done || lia); lia).
    set (M := 2 ^ 52 + float_mant b) in *. assert (2 ^ 52 <= M < 2 ^ 53) as HM by (unfold M; lia). assert (u64 (Z.shiftl M 11) = M * 2 ^ 11) as -> by (rewrite Z.shiftl_mul_pow2 by lia; apply u64_small; unfold limb_ok; lia).
    unfold m. rewrite (magnitude_compare A M (float_exp b) HA HM ltac:(lia)). cbv zeta. destruct (Z.eqb_spec (Z.log2 A) (float_exp b - 1023)) as [E|E].
    + rewrite order_cases. destruct s; [|done]. by rewrite E, Z.eqb_refl.
    + destruct s; [|done]. destruct (Z.eqb_spec (Z.log2 A) (float_exp b - 1023)); [done|]. cbn [negb andb]. by rewrite Z.opp_involutive.
Qed.

Lemma js_bigint_float64_cmp_ok a b :
  bigint_ok a -> uint_ok 64 b -> float_exp b <> 2047 -> js_bigint_float64_cmp a b = if misordered a b then - compare_float a b else compare_float a b.
Proof.
  intros Ha Hb He1. pose proof Ha as [Hl Hne%normalized_ne]. unfold js_bigint_float64_cmp. cbv zeta. destruct (Z.eqb_spec (float_exp b) 2047); [done|].
  pose proof (sval_neg a Hl Hne) as Hsa. pose proof (Z.pow_pos_nonneg 2 1074 ltac:(lia) ltac:(lia)) as HP. destruct ((float_exp b =? 0) && (float_mant b =? 0)) eqn:Eb0.
  { apply andb_prop in Eb0 as [E1%Z.eqb_eq E2%Z.eqb_eq]. assert (float_scaled b = 0) as EF by (unfold float_scaled; rewrite E1, E2; by destruct (float_sign b)). unfold misordered, compare_float. rewrite EF, andb_false_r. cbn [andb].
    destruct (bool_decide (a = [0])) eqn:Ea0; [apply bool_decide_eq_true in Ea0; by subst a|]. apply bool_decide_eq_false in Ea0. rewrite zero_iff in Ea0 by done. revert HP. generalize (2 ^ 1074). intros P HP. rewrite Hsa. case_bool_decide; simpl Z.b2z; symmetry; [apply three_way_lt|apply three_way_gt]; nia. }
  assert (float_exp b <> 0 \/ float_mant b <> 0) as Hn by (destruct (Z.eqb_spec (float_exp b) 0), (Z.eqb_spec (float_mant b) 0); [done|by right|by left|by left]).
  pose proof (float_scaled_sign b Hb Hn) as Hsg. destruct (bool_decide (a = [0])) eqn:Ea0.
  { apply bool_decide_eq_true in Ea0. rewrite zero_iff in Ea0 by done. unfold misordered, compare_float. rewrite Ea0. cbn [andb]. change (0 <? 0) with false. cbn [andb]. rewrite Z.mul_0_l. destruct (float_sign b); simpl Z.b2z; symmetry; [by apply three_way_gt|by apply three_way_lt]. }
  apply bool_decide_eq_false in Ea0. rewrite zero_iff in Ea0 by done. destruct (Bool.eqb_spec (js_bigint_sign a) (float_sign b)) as [Hs|Hs]; cbn [negb].
  - by apply same_sign_compare.
  - unfold misordered, compare_float. revert HP. generalize (2 ^ 1074). intros P HP. rewrite Hsa in *. destruct (float_sign b); case_bool_decide; try done.
    + destruct (Z.ltb_spec (sval a) 0); [lia|]. cbn [andb]. symmetry. apply three_way_gt. nia.
    + destruct (Z.ltb_spec (sval a) 0); [|lia]. destruct (Z.ltb_spec (float_scaled b) 0); [lia|]. cbn [andb]. symmetry. apply three_way_lt. nia.
Qed.

(** ** Part 5: theorems *)

(** C17. Conversions: [js_bigint_to_float64] gives the double nearest to a big integer, ties to even,
    the same that rounding the whole number at once gives, and infinity for numbers that round to
    [2^1024] or more; [js_bigint_from_float64] of any 64 bits says whether the double is finite and
    whether it is an integer, and then gives exactly that integer, without an exception. *)
Theorem bigint_float_conversions fresh a b :
  (forall n, length (fresh n) = n /\ limbs_ok (fresh n)) -> bigint_ok a -> uint_ok 64 b ->
  js_bigint_to_float64 a = float_of_int (sval a) /\
  exists res, js_bigint_from_float64 fresh b = ok res /\
  match res with
  | NotFinite => float_exp b = 2047
  | NotInteger => float_exp b <> 2047 /\ forall z, z * 2 ^ 1074 <> float_scaled b
  | Integer r => float_exp b <> 2047 /\ bigint_ok r /\ sval r * 2 ^ 1074 = float_scaled b
  end.
Proof. intros Hf Ha Hb. split; [by apply js_bigint_to_float64_ok|by apply js_bigint_from_float64_ok]. Qed.

(** Comparison with a finite double: [js_bigint_float64_cmp] gives the order of the exact values,
    whatever their sizes, except for two negative numbers with different exponents; for those it
    gives the opposite order, so that [-10n < -2.5] is false and [-2n < -10.5] is true. *)
Theorem bigint_float_order a b :
  bigint_ok a -> uint_ok 64 b -> float_exp b <> 2047 ->
  js_bigint_float64_cmp a b = if misordered a b then - compare_float a b else compare_float a b.
Proof. apply js_bigint_float64_cmp_ok. Qed.
Lemma bigint_float_order_witness :
  (* -10n and -2.5 *)
  js_bigint_float64_cmp [18446744073709551606] 0xC004000000000000 = 1 /\ misordered [18446744073709551606] 0xC004000000000000 = true /\
  js_bigint_float64_cmp [18446744073709551606] 0xC004000000000000 =
  if misordered [18446744073709551606] 0xC004000000000000 then - compare_float [18446744073709551606] 0xC004000000000000 else compare_float [18446744073709551606] 0xC004000000000000.
Proof.
  split; [vm_compute; reflexivity|]. split; [vm_compute; reflexivity|].
  apply (bigint_float_order [18446744073709551606] 0xC004000000000000); [by apply bigint_ok_dec|unfold uint_ok; lia|by vm_compute].
Defined.
Lemma bigint_float_conversions_witness :
  js_bigint_to_float64 [18446744073709551615; 5] = 0x4418000000000000 /\
  js_bigint_from_float64 fresh_junk 0xC004000000000000 = ok NotInteger /\
  js_bigint_to_float64 [18446744073709551615; 5] = float_of_int (sval [18446744073709551615; 5]).
Proof.
  split; [vm_compute; reflexivity|]. split; [vm_compute; reflexivity|].
  apply (bigint_float_conversions fresh_junk [18446744073709551615; 5] 0xC004000000000000 fresh_junk_ok); [by apply bigint_ok_dec|unfold uint_ok; lia].
Defined.
