(* ===== verification/BigIntOps.v ===== *)
(** The operators of scripts on big integers, deps/quickjs/quickjs.c: [js_unary_arith_slow],
    [js_not_slow], [js_binary_arith_slow], [js_add_slow], [js_binary_logic_slow],
    [js_compare_bigint] and [js_bigint_asUintN].

    A big integer in a value is short, a 64-bit integer in the value itself, or an array. The
    functions are given for operands that are big integers, and for comparisons also 32-bit integers
    and doubles; operands that are converted first are not modelled. A function returns what it
    leaves on the stack.

    Part 1 is the code, Part 2 values, Part 3 the operators, Part 4 the theorems. *)

From S2P Require Import Prelude Limbs BigInt BigIntFloat.

(** ** Part 1: the code *)

(** [z] in a signed integer of [w] bits. *)
Definition signed (w z : Z) : Z := let u := wrap w z in if 2 ^ (w - 1) <=? u then u - 2 ^ w else u.

Definition JS_CompactBigInt (p : list Z) : bigint_value := match p with [x] => SHORT_BIG_INT (signed 64 x) | _ => BIG_INT p end.
Definition compact (m : throws (list Z)) : throws bigint_value := r ⇐ m; ok (JS_CompactBigInt r).

Section Code.
Context (fresh : nat -> list Z).

Definition js_bigint_new_di (a : Z) : throws (list Z) :=
  if a =? signed 64 a then _ ⇐ js_bigint_new fresh 1; ok [u64 a]
  else _ ⇐ js_bigint_new fresh 2; ok [u64 a; u64 (Z.shiftr a 64)].

(** A 128-bit result: short when it fits. *)
Definition short_or_big (v : Z) : throws bigint_value :=
  if is_short v then ok (SHORT_BIG_INT v) else r ⇐ js_bigint_new_di v; ok (BIG_INT r).

Definition JS_NewBigInt64 (v : Z) : throws bigint_value := ok (SHORT_BIG_INT v).
Definition JS_NewBigUint64 (v : Z) : throws bigint_value :=
  if v <=? JS_SHORT_BIG_INT_MAX then ok (SHORT_BIG_INT v) else p ⇐ js_bigint_new_ui64 fresh v; ok (BIG_INT p).

Inductive unary_op := OP_plus | OP_inc | OP_dec | OP_neg | OP_not.

Definition unary_slow (op : unary_op) (p1 : list Z) : throws bigint_value :=
  match op with
  | OP_plus => throw UnaryPlus
  | OP_inc => compact (js_bigint_add fresh p1 (js_bigint_set_si 1) false)
  | OP_dec => compact (js_bigint_add fresh p1 (js_bigint_set_si (-1)) false)
  | OP_neg => compact (js_bigint_neg fresh p1)
  | OP_not => compact (js_bigint_not fresh p1)
  end.
Definition js_unary_arith_slow (op : unary_op) (op1 : bigint_value) : throws bigint_value :=
  match op1 with
  | SHORT_BIG_INT v =>
      match op with
      | OP_plus => throw UnaryPlus
      | OP_inc => if v =? JS_SHORT_BIG_INT_MAX then unary_slow op (operand op1) else ok (SHORT_BIG_INT (v + 1))
      | OP_dec => if v =? JS_SHORT_BIG_INT_MIN then unary_slow op (operand op1) else ok (SHORT_BIG_INT (v - 1))
      | OP_neg => if v =? JS_SHORT_BIG_INT_MIN then unary_slow op (operand op1) else ok (SHORT_BIG_INT (- v))
      | OP_not => AssertFail
      end
  | BIG_INT p1 => unary_slow op p1
  end.
Definition js_not_slow (op1 : bigint_value) : throws bigint_value :=
  match op1 with SHORT_BIG_INT v => ok (SHORT_BIG_INT (Z.lnot v)) | BIG_INT p => compact (js_bigint_not fresh p) end.

Inductive arith_op := OP_sub | OP_mul | OP_div | OP_mod | OP_pow.

Definition arith_slow (op : arith_op) (op1 op2 : bigint_value) : throws bigint_value :=
  let p1 := operand op1 in
  let p2 := operand op2 in
  compact (match op with
           | OP_sub => js_bigint_add fresh p1 p2 true
           | OP_mul => js_bigint_mul fresh p1 p2
           | OP_div => js_bigint_divrem fresh p1 p2 false
           | OP_mod => js_bigint_divrem fresh p1 p2 true
           | OP_pow => js_bigint_pow fresh p1 p2
           end).
Definition js_binary_arith_slow (op : arith_op) (op1 op2 : bigint_value) : throws bigint_value :=
  match op1, op2 with
  | SHORT_BIG_INT v1, SHORT_BIG_INT v2 =>
      let no_division := (v2 =? 0) || ((u64 v1 =? Z.shiftl 1 63) && (v2 =? -1)) in
      match op with
      | OP_sub => short_or_big (v1 - v2)
      | OP_mul => short_or_big (v1 * v2)
      | OP_div => if no_division then arith_slow op op1 op2 else ok (SHORT_BIG_INT (Z.quot v1 v2))
      | OP_mod => if no_division then arith_slow op op1 op2 else ok (SHORT_BIG_INT (Z.rem v1 v2))
      | OP_pow => arith_slow op op1 op2
      end
  | _, _ => arith_slow op op1 op2
  end.

Definition add_slow (op1 op2 : bigint_value) : throws bigint_value := compact (js_bigint_add fresh (operand op1) (operand op2) false).
Definition js_add_slow (op1 op2 : bigint_value) : throws bigint_value :=
  match op1, op2 with
  | SHORT_BIG_INT v1, SHORT_BIG_INT v2 => short_or_big (v1 + v2)
  | _, _ => add_slow op1 op2
  end.

Inductive bit_op := OP_bit (op : logic_op) | OP_shl | OP_sar.

Definition INT32_MAX : Z := 2 ^ 31 - 1.
Definition logic_slow (op : bit_op) (op1 op2 : bigint_value) : throws bigint_value :=
  let p1 := operand op1 in
  let p2 := operand op2 in
  let shift := js_bigint_get_si_sat p2 in
  let shift := if INT32_MAX <? shift then INT32_MAX else if shift <? - INT32_MAX then - INT32_MAX else shift in
  let by_shift shift := if 0 <=? shift then js_bigint_shl fresh p1 shift else js_bigint_shr fresh p1 (- shift) in
  compact (match op with OP_bit op => js_bigint_logic fresh p1 p2 op | OP_shl => by_shift shift | OP_sar => by_shift (- shift) end).

(** The labels [bigint_shl] and [bigint_sar] of the fast path. *)
Definition short_shl (v1 v2 : Z) : throws bigint_value := short_or_big (signed 128 (Z.shiftl (wrap 128 v1) v2)).
Definition short_sar (v1 v2 : Z) : throws bigint_value := ok (SHORT_BIG_INT (Z.shiftr v1 v2)).
Definition js_binary_logic_slow (op : bit_op) (op1 op2 : bigint_value) : throws bigint_value :=
  match op1, op2 with
  | SHORT_BIG_INT v1, SHORT_BIG_INT v2 =>
      match op with
      | OP_bit op => ok (SHORT_BIG_INT (logic op v1 v2))
      | OP_sar => if 63 <? v2 then logic_slow OP_sar op1 op2
                  else if v2 <? 0 then (if v2 <? - 63 then logic_slow OP_sar op1 op2 else short_shl v1 (- v2))
                  else short_sar v1 v2
      | OP_shl => if 63 <? v2 then logic_slow OP_shl op1 op2
                  else if v2 <? 0 then (if v2 <? - 63 then logic_slow OP_shl op1 op2 else short_sar v1 (- v2))
                  else short_shl v1 v2
      end
  | _, _ => logic_slow op op1 op2
  end.

(** Operands of comparisons; at least one is a big integer. *)
Inductive numeric := INT (v : Z) | BIGINT (v : bigint_value) | FLOAT64 (d : Z).
Inductive relation_op := OP_lt | OP_lte | OP_gt | OP_gte | OP_eq.

Definition relation (op : relation_op) (val : Z) : bool :=
  match op with OP_lt => val <? 0 | OP_lte => val <=? 0 | OP_gt => 0 <? val | OP_gte => 0 <=? val | OP_eq => val =? 0 end.
Definition JS_ToBigIntBuf (v : numeric) : outcome (list Z) :=
  match v with INT v => Ret (js_bigint_set_si v) | BIGINT v => Ret (operand v) | FLOAT64 _ => AssertFail end.
Definition small_int (v : numeric) : option Z := match v with INT v | BIGINT (SHORT_BIG_INT v) => Some v | _ => None end.
Definition js_compare_bigint (op : relation_op) (op1 op2 : numeric) : outcome bool :=
  match small_int op1, small_int op2 with
  | Some v1, Some v2 => Ret (relation op (Z.b2z (v2 <? v1) - Z.b2z (v1 <? v2)))
  | _, _ =>
      match op1, op2 with
      | FLOAT64 d, _ => p2 ← JS_ToBigIntBuf op2; let val := js_bigint_float64_cmp p2 d in if val =? 2 then Ret false else Ret (relation op (- val))
      | _, FLOAT64 d => p1 ← JS_ToBigIntBuf op1; let val := js_bigint_float64_cmp p1 d in if val =? 2 then Ret false else Ret (relation op val)
      | _, _ => p1 ← JS_ToBigIntBuf op1; p2 ← JS_ToBigIntBuf op2; Ret (relation op (js_bigint_cmp p1 p2))
      end
  end.

(** [js_bigint_asUintN], for a number of bits already converted; [asIntN] for the signed variant. *)
Definition keep_bits (v shift : Z) (asIntN : bool) : Z :=
  let v := u64 (Z.shiftl v shift) in if asIntN then u64 (Z.shiftr (signed 64 v) shift) else Z.shiftr v shift.
Definition js_bigint_asUintN (bits : Z) (a : bigint_value) (asIntN : bool) : throws bigint_value :=
  if bits =? 0 then ok (SHORT_BIG_INT 0)
  else
    match a with
    | SHORT_BIG_INT v => if 64 <=? bits then ok a else ok (SHORT_BIG_INT (signed 64 (keep_bits (u64 v) (64 - bits) asIntN)))
    | BIG_INT p =>
        if Z.of_nat (length p) * 64 <=? bits then ok a
        else
          let len := Z.to_nat ((bits + 63) / 64) in
          r ⇐ js_bigint_new fresh len;
          r ← splice r 0 (take (len - 1) p);
          x ← limb p (len - 1);
          r ← splice r (len - 1) [keep_bits x (Z.land (- bits) 63) asIntN];
          ok (JS_CompactBigInt (js_bigint_normalize r))
    end.
End Code.

(** ** Part 2: values *)

Local Notation B := 18446744073709551616.

(** What an operator does: the result, or an exception that the number is too large, for which
    [large] holds. *)
Definition exact (m : throws bigint_value) (z : Z) (large : Prop) : Prop :=
  match m with Ret (inr v) => value_ok v /\ value v = z | Ret (inl TooLarge) => large | _ => False end.

(** The signed value of bits is the number of that range with those bits. *)
Lemma signed_unique w x z k : 1 <= w -> - 2 ^ (w - 1) <= z < 2 ^ (w - 1) -> x = z + k * 2 ^ w -> signed w x = z.
Proof.
  intros Hw Hz ->. unfold signed, wrap. rewrite Z.mod_add by (apply Z.pow_nonzero; lia). assert (2 ^ w = 2 * 2 ^ (w - 1)) as E by (rewrite <- Z.pow_succ_r by lia; f_equal; lia).
  destruct (Z.le_gt_cases 0 z).
  - rewrite Z.mod_small by lia. destruct (Z.leb_spec (2 ^ (w - 1)) z); lia.
  - replace (z mod 2 ^ w) with (z + 2 ^ w) by (apply (Z.mod_unique_pos _ _ (-1)); lia). destruct (Z.leb_spec (2 ^ (w - 1)) (z + 2 ^ w)); lia.
Qed.
Lemma signed_limb x : limb_ok x -> signed 64 x = sval [x] /\ is_short (sval [x]) = true.
Proof.
  intros Hx. pose proof (sval_bounds [x]) as Hb. cbn [length] in Hb. rewrite Bn_S, Bn_0 in Hb. specialize (Hb ltac:(constructor; [done|apply Forall_nil_2]) ltac:(done)).
  split; [|apply is_short_iff; lia]. apply (signed_unique 64 x _ (Z.b2z (Z.testbit x 63))); [lia|lia|]. rewrite sval_one. change (2 ^ 64) with B. lia.
Qed.

Lemma compact_ok r : bigint_ok r -> value_ok (JS_CompactBigInt r) /\ value (JS_CompactBigInt r) = sval r.
Proof.
  intros Hr. destruct r as [|x [|y r]]; [by destruct Hr| |]; cbn [JS_CompactBigInt value_ok value].
  - destruct (signed_limb x) as [-> ?]; [|done]. destruct Hr as [Hr _]. by inversion Hr.
  - split; [|done]. split; [done|]. simpl. lia.
Qed.

(** A value is determined by its number. *)
Lemma value_inj v w : value_ok v -> value_ok w -> value v = value w -> v = w.
Proof.
  assert (forall p, bigint_ok p -> (2 <= length p)%nat -> is_short (sval p) = true -> False) as Hbig.
  { intros p Hp Hl Hs%is_short_iff. destruct (length p) as [|[|n]] eqn:El; [lia..|]. pose proof (normalized_large p n Hp El) as Hn. pose proof (Bn_mono 1 (S n) ltac:(lia)) as Hm. rewrite Bn_S, Bn_0 in Hm. lia. }
  destruct v as [v|p], w as [w|q]; cbn [value_ok value]; intros Hv Hw E.
  - by subst.
  - exfalso. destruct Hw as [Hq Hl]. apply (Hbig q Hq Hl). by rewrite <- E.
  - exfalso. destruct Hv as [Hp Hl]. apply (Hbig p Hp Hl). by rewrite E.
  - f_equal. apply bigint_ok_inj; [apply Hv|apply Hw|done].
Qed.

Lemma compact_computes m len z : computes m len z -> exact (compact m) z (JS_BIGINT_MAX_SIZE < Z.of_nat len).
Proof.
  unfold computes, compact. destruct (Z.ltb_spec JS_BIGINT_MAX_SIZE (Z.of_nat len)); [intros ->; done|]. intros (r & -> & Hr & <-). cbn [js_bind exact]. by apply compact_ok.
Qed.
Lemma exact_short v z large : is_short v = true -> v = z -> exact (ok (SHORT_BIG_INT v)) z large.
Proof. by intros ? <-. Qed.
Lemma exact_weaken m z (P Q : Prop) : exact m z P -> (P -> Q) -> exact m z Q.
Proof. destruct m as [[[]|r]| |]; simpl; auto. Qed.

(** ** Part 3: the operators *)

Section Operators.
Context (fresh : nat -> list Z) (fresh_ok : forall n, length (fresh n) = n /\ limbs_ok (fresh n)).

Lemma short_or_big_ok v large : - 2 ^ 127 <= v < 2 ^ 127 -> exact (short_or_big fresh v) v large.
Proof.
  intros Hv. unfold short_or_big. destruct (is_short v) eqn:Es; [by apply exact_short|]. unfold js_bigint_new_di.
  assert (v <> signed 64 v) as Hne. { intros E. destruct (signed_limb (u64 v) (u64_limb v)) as [E' Hs']. unfold signed in *. rewrite (u64_small (u64 v)) in E' by apply u64_limb. rewrite <- E', <- E in Hs'. congruence. }
  destruct (Z.eqb_spec v (signed 64 v)); [done|]. cbn [js_bind js_bigint_new exact value_ok value]. set (lo := u64 v). set (hi := u64 (Z.shiftr v 64)).
  assert (- 2 ^ 63 <= v / B < 2 ^ 63) as Hq by (split; [apply Z.div_le_lower_bound; lia|apply Z.div_lt_upper_bound; lia]).
  assert (limb_ok lo) as Hlo by apply u64_limb. assert (limb_ok hi) as Hhi by apply u64_limb.
  assert (sval [lo; hi] = v) as Ev. { rewrite sval_cons by done. unfold hi. rewrite Z.shiftr_div_pow2 by lia. change (2 ^ 64) with B. rewrite sval_short by done. unfold lo. pose proof (u64_split v). lia. }
  split; [|done]. split; [|simpl; lia]. split; [constructor; [done|]; constructor; [done|apply Forall_nil_2]|].
  apply (normalized_snoc [] lo hi). destruct (redundant hi lo) eqn:Er; [|done]. exfalso. pose proof (redundant_sval [] hi lo Hhi Hlo Er) as E. cbn [app] in E.
  destruct (signed_limb lo Hlo) as [_ Hs]. rewrite <- E, Ev in Hs. congruence.
Qed.

Lemma js_add_slow_ok a b : value_ok a -> value_ok b -> exact (js_add_slow fresh a b) (value a + value b) (JS_BIGINT_MAX_SIZE < Z.of_nat (max (limbs a) (limbs b))).
Proof.
  intros Ha Hb. destruct (operand_ok a Ha) as [Ha1 Ha2]. destruct (operand_ok b Hb) as [Hb1 Hb2]. pose proof (compact_computes _ _ _ (js_bigint_add_computes fresh _ _ false Ha1 Hb1)) as Hs. cbn iota in Hs. rewrite Ha2, Hb2 in Hs.
  destruct a as [v|p], b as [w|q]; try exact Hs. cbn [value_ok] in Ha, Hb. apply is_short_iff in Ha, Hb. cbn [js_add_slow value]. apply short_or_big_ok. lia.
Qed.

Lemma js_not_slow_ok a : value_ok a -> exact (js_not_slow fresh a) (Z.lnot (value a)) (JS_BIGINT_MAX_SIZE < Z.of_nat (limbs a)).
Proof.
  intros Ha. destruct (operand_ok a Ha) as [Ha1 Ha2]. pose proof (compact_computes _ _ _ (js_bigint_not_ok fresh fresh_ok _ Ha1)) as Hs. rewrite Ha2 in Hs.
  destruct a as [v|p]; [|exact Hs]. cbn [value_ok] in Ha. apply is_short_iff in Ha. apply exact_short; [|done]. apply is_short_iff. cbn [value]. unfold Z.lnot. lia.
Qed.

(** The unary operators other than [~], which [js_not_slow] does. *)
Definition unary_spec (op : unary_op) (z : Z) : Z := match op with OP_plus => z | OP_inc => z + 1 | OP_dec => z - 1 | OP_neg => - z | OP_not => Z.lnot z end.
Lemma js_unary_arith_slow_ok op a :
  value_ok a -> op <> OP_not ->
  if match op with OP_plus => true | _ => false end then js_unary_arith_slow fresh op a = throw UnaryPlus
  else exact (js_unary_arith_slow fresh op a) (unary_spec op (value a)) (JS_BIGINT_MAX_SIZE < Z.of_nat (limbs a)).
Proof.
  intros Ha Hop. destruct (operand_ok a Ha) as [Ha1 Ha2]. assert (forall x, bigint_ok (js_bigint_set_si x)) as Hsi by (intros x; apply small_ok, u64_limb).
  assert (op <> OP_plus -> exact (unary_slow fresh op (operand a)) (unary_spec op (value a)) (JS_BIGINT_MAX_SIZE < Z.of_nat (limbs a))) as Hs.
  { intros Hp. rewrite <- Ha2. pose proof (normalized_ne _ (proj2 Ha1)) as Hne. assert (max (limbs a) 1 = limbs a) as El by (unfold limbs; destruct (operand a); [done|simpl; lia]).
    destruct op; try done; cbn [unary_slow unary_spec].
    - pose proof (compact_computes _ _ _ (js_bigint_add_computes fresh _ _ false Ha1 (Hsi 1))) as H. cbn [js_bigint_set_si length] in H. fold (limbs a) in H. rewrite El in H. exact H.
    - pose proof (compact_computes _ _ _ (js_bigint_add_computes fresh _ _ false Ha1 (Hsi (-1)))) as H. cbn [js_bigint_set_si length] in H. fold (limbs a) in H. rewrite El in H. exact H.
    - exact (compact_computes _ _ _ (js_bigint_neg_ok fresh _ Ha1)). }
  destruct a as [v|p]; [|destruct op; try done; by apply Hs]. cbn [value_ok] in Ha. apply is_short_iff in Ha. unfold JS_SHORT_BIG_INT_MAX, JS_SHORT_BIG_INT_MIN in *. destruct op; try done; cbn [js_unary_arith_slow].
  - destruct (Z.eqb_spec v JS_SHORT_BIG_INT_MAX); [by apply Hs|]. apply exact_short; [|done]. apply is_short_iff. unfold JS_SHORT_BIG_INT_MAX in *. lia.
  - destruct (Z.eqb_spec v JS_SHORT_BIG_INT_MIN); [by apply Hs|]. apply exact_short; [|done]. apply is_short_iff. unfold JS_SHORT_BIG_INT_MIN in *. lia.
  - destruct (Z.eqb_spec v JS_SHORT_BIG_INT_MIN); [by apply Hs|]. apply exact_short; [|done]. apply is_short_iff. unfold JS_SHORT_BIG_INT_MIN in *. lia.
Qed.

Definition arith_spec (op : arith_op) (x y : Z) : Z :=
  match op with OP_sub => x - y | OP_mul => x * y | OP_div => Z.quot x y | OP_mod => Z.rem x y | OP_pow => x ^ y end.
(** The exceptions of the operators, and when a number is too large for them. *)
Definition arith_exn (op : arith_op) (y : Z) : option js_exn :=
  match op with
  | OP_div | OP_mod => if y =? 0 then Some DivisionByZero else None
  | OP_pow => if y <? 0 then Some NegativeExponent else None
  | _ => None
  end.
Definition arith_large (op : arith_op) (a b : bigint_value) : Prop :=
  match op with
  | OP_sub => JS_BIGINT_MAX_SIZE < Z.of_nat (max (limbs a) (limbs b))
  | OP_mul => JS_BIGINT_MAX_SIZE < Z.of_nat (limbs a + limbs b)
  | OP_div | OP_mod => JS_BIGINT_MAX_SIZE < Z.of_nat (limbs a + 2)
  | OP_pow => too_large (value a ^ value b)
  end.

Lemma power_exact m z : power_ok m z -> exact (compact m) z (too_large z).
Proof. destruct m as [[[]|r]| |]; try done. cbn [compact js_bind exact power_ok]. intros [Hr <-]. by apply compact_ok. Qed.

Lemma arith_slow_ok op a b :
  value_ok a -> value_ok b ->
  match arith_exn op (value b) with
  | Some e => arith_slow fresh op a b = throw e
  | None => exact (arith_slow fresh op a b) (arith_spec op (value a) (value b)) (arith_large op a b)
  end.
Proof.
  intros Ha Hb. destruct (operand_ok a Ha) as [Ha1 Ha2]. destruct (operand_ok b Hb) as [Hb1 Hb2]. unfold arith_slow. destruct op; cbn [arith_exn arith_spec arith_large].
  - pose proof (compact_computes _ _ _ (js_bigint_add_computes fresh _ _ true Ha1 Hb1)) as H. cbn iota in H. by rewrite Ha2, Hb2 in H.
  - pose proof (compact_computes _ _ _ (js_bigint_mul_ok fresh fresh_ok _ _ Ha1 Hb1)) as H. by rewrite Ha2, Hb2 in H.
  - destruct (Z.eqb_spec (value b) 0) as [E|E]; rewrite <- Hb2 in E.
    + apply zero_iff in E; [|done]. rewrite E. reflexivity.
    + pose proof (compact_computes _ _ _ (js_bigint_divrem_ok fresh fresh_ok _ _ false Ha1 Hb1 E)) as H. cbn iota in H. by rewrite Ha2, Hb2 in H.
  - destruct (Z.eqb_spec (value b) 0) as [E|E]; rewrite <- Hb2 in E.
    + apply zero_iff in E; [|done]. rewrite E. reflexivity.
    + pose proof (compact_computes _ _ _ (js_bigint_divrem_ok fresh fresh_ok _ _ true Ha1 Hb1 E)) as H. cbn iota in H. by rewrite Ha2, Hb2 in H.
  - destruct (Z.ltb_spec (value b) 0) as [E|E]; rewrite <- Hb2 in E.
    + unfold js_bigint_pow. rewrite (sval_neg _ (proj1 Hb1) (normalized_ne _ (proj2 Hb1))). by rewrite bool_decide_eq_true_2.
    + rewrite <- Ha2, <- Hb2. apply power_exact, js_bigint_pow_ok; done.
Qed.

Lemma quot_short v w : is_short v = true -> is_short w = true -> w <> 0 -> ~ (v = - 2 ^ 63 /\ w = -1) -> is_short (Z.quot v w) = true.
Proof.
  rewrite !is_short_iff. intros Hv Hw H0 Hm. destruct (Z.eq_dec w 1) as [->|]; [by rewrite Z.quot_1_r|]. destruct (Z.eq_dec w (-1)) as [->|].
  - change (-1) with (- (1)). rewrite Z.quot_opp_r, Z.quot_1_r by lia. lia.
  - assert (Z.abs (Z.quot v w) <= 2 ^ 62); [|lia]. rewrite <- Z.quot_abs by done. rewrite Z.quot_div_nonneg by lia. apply Z.div_le_upper_bound; lia.
Qed.
Lemma rem_short v w : is_short w = true -> w <> 0 -> is_short (Z.rem v w) = true.
Proof. rewrite !is_short_iff. intros Hw H0. pose proof (Z.rem_bound_abs v w H0). lia. Qed.

Lemma js_binary_arith_slow_ok op a b :
  value_ok a -> value_ok b ->
  match arith_exn op (value b) with
  | Some e => js_binary_arith_slow fresh op a b = throw e
  | None => exact (js_binary_arith_slow fresh op a b) (arith_spec op (value a) (value b)) (arith_large op a b)
  end.
Proof.
  intros Ha Hb. pose proof (arith_slow_ok op a b Ha Hb) as Hs. destruct a as [v|p], b as [w|q]; try exact Hs. cbn [js_binary_arith_slow value value_ok] in *. pose proof Ha as Ha'. pose proof Hb as Hb'. apply is_short_iff in Ha', Hb'.
  assert ((u64 v =? Z.shiftl 1 63) = (v =? - 2 ^ 63)) as ->.
  { change (Z.shiftl 1 63) with (2 ^ 63). unfold wrap. destruct (Z.le_gt_cases 0 v).
    - rewrite Z.mod_small by lia. destruct (Z.eqb_spec v (2 ^ 63)), (Z.eqb_spec v (- 2 ^ 63)); lia || done.
    - replace (v mod 2 ^ 64) with (v + 2 ^ 64) by (apply (Z.mod_unique_pos _ _ (-1)); lia). destruct (Z.eqb_spec (v + 2 ^ 64) (2 ^ 63)), (Z.eqb_spec v (- 2 ^ 63)); lia || done. }
  destruct op; cbn [arith_exn arith_spec] in *.
  - apply short_or_big_ok. lia.
  - apply short_or_big_ok. nia.
  - destruct (Z.eqb_spec w 0) as [->|Hw]; [exact Hs|]. cbn [orb]. destruct (Z.eqb_spec v (- 2 ^ 63)), (Z.eqb_spec w (-1)); cbn [andb]; try exact Hs; (apply exact_short; [apply quot_short; try done; lia|done]).
  - destruct (Z.eqb_spec w 0) as [->|Hw]; [exact Hs|]. cbn [orb]. destruct (Z.eqb_spec v (- 2 ^ 63)), (Z.eqb_spec w (-1)); cbn [andb]; try exact Hs; (apply exact_short; [by apply rem_short|done]).
  - destruct (w <? 0); exact Hs.
Qed.

Lemma logic_short op v w : is_short v = true -> is_short w = true -> is_short (logic op v w) = true.
Proof.
  rewrite !is_short_iff. intros Hv Hw. assert (limbs_ok [u64 v] /\ limbs_ok [u64 w]) as [H1 H2] by (split; (constructor; [apply u64_limb|apply Forall_nil_2])).
  destruct (logic_loop_ok op [u64 v] [u64 w] H1 H2 ltac:(done) ltac:(done)) as (H3 & H4 & H5). rewrite !sval_short in H5 by done. rewrite <- H5, <- is_short_iff. cbn [logic_loop] in *.
  apply signed_limb. by inversion H3.
Qed.

(** Shifts, of numbers that are not as long as the clamp of the shift count. *)
Definition shift_large (a : bigint_value) (k : Z) : Prop := JS_BIGINT_MAX_SIZE < Z.of_nat (limbs a + Z.to_nat (k / 64)).

Lemma by_shift_ok a k :
  value_ok a -> Z.of_nat (limbs a) <= 2 ^ 24 ->
  let c := if INT32_MAX <? k then INT32_MAX else if k <? - INT32_MAX then - INT32_MAX else k in
  exact (compact (if 0 <=? c then js_bigint_shl fresh (operand a) c else js_bigint_shr fresh (operand a) (- c))) (Z.shiftl (value a) k) (shift_large a k).
Proof.
  intros Ha Hl c. destruct (operand_ok a Ha) as [Ha1 Ha2]. assert (INT32_MAX = 2147483647) as EM by done. remember INT32_MAX as M eqn:E. clear E. pose proof Ha1 as [Hla Hne%normalized_ne].
  destruct (Z.leb_spec 0 c) as [Hc|Hc].
  - assert (0 <= k) as Hk by (unfold c in Hc; destruct (Z.ltb_spec M k), (Z.ltb_spec k (- M)); lia). assert (c = Z.min k M) as Ec by (unfold c; destruct (Z.ltb_spec M k), (Z.ltb_spec k (- M)); lia). rewrite Z.shiftl_mul_pow2 by done.
    destruct (Z.eq_dec (value a) 0) as [Ez|Ez].
    { rewrite Ez, Z.mul_0_l. rewrite <- Ha2 in Ez. apply zero_iff in Ez; [|done]. unfold js_bigint_shl. rewrite bool_decide_eq_true_2 by done. cbn. done. }
    pose proof (compact_computes _ _ _ (js_bigint_shl_ok fresh _ c Ha1 Hc ltac:(lia))) as Hs. rewrite Ha2 in Hs. fold (limbs a) in Hs. unfold shift_large.
    destruct (Z.le_gt_cases k M) as [Hle|Hgt]; [assert (c = k) as -> by lia; exact Hs|]. assert (c = M) as -> by lia.
    pose proof (Z.div_le_mono M k 64 ltac:(lia) ltac:(lia)) as Hdiv. assert (JS_BIGINT_MAX_SIZE < M / 64) as Hm by (rewrite EM; done). unfold computes in *.
    pose proof (js_bigint_shl_ok fresh _ M Ha1 Hc ltac:(lia)) as Hx. unfold computes in Hx. fold (limbs a) in Hx. destruct (Z.ltb_spec JS_BIGINT_MAX_SIZE (Z.of_nat (limbs a + Z.to_nat (M / 64)))); [|lia]. rewrite Hx. cbn [compact js_bind exact]. lia.
  - assert (k < 0) as Hk by (unfold c in Hc; destruct (Z.ltb_spec M k), (Z.ltb_spec k (- M)); lia). assert (- c = Z.min (- k) M) as Ec by (unfold c; destruct (Z.ltb_spec M k), (Z.ltb_spec k (- M)); lia).
    rewrite <- Z.shiftr_opp_r, Z.shiftr_div_pow2 by lia. pose proof (js_bigint_shr_ok fresh _ (- c) Ha1 ltac:(lia)) as Hs. unfold computes in Hs. rewrite Ha2 in Hs.
    destruct (Z.ltb_spec JS_BIGINT_MAX_SIZE (Z.of_nat (length (operand a) - Z.to_nat (- c / 64)))) as [Hsz|].
    + rewrite Hs. cbn [compact js_bind exact]. unfold shift_large. fold (limbs a) in Hsz. lia.
    + destruct Hs as (r & -> & Hr & Ev). cbn [compact js_bind exact]. destruct (compact_ok r Hr) as [H1 H2]. rewrite H2, Ev. split; [done|].
      destruct (Z.le_gt_cases (- k) M) as [Hle|Hgt]; [f_equal; f_equal; lia|]. replace (- c) with M by lia.
      assert (forall n, M <= n -> value a / 2 ^ n = if value a <? 0 then -1 else 0) as Hfar.
      { intros n Hn. pose proof (sval_bounds _ Hla Hne) as Hb. rewrite Ha2 in Hb. rewrite Bn_pow2 in Hb. fold (limbs a) in Hb. pose proof (Z.pow_le_mono_r 2 (64 * Z.of_nat (limbs a)) n ltac:(lia) ltac:(lia)) as Hp.
        destruct (Z.ltb_spec (value a) 0); [symmetry; apply (Z.div_unique _ _ _ (value a + 2 ^ n)); lia|apply Z.div_small; lia]. }
      rewrite !Hfar by lia. done.
Qed.

Definition bit_spec (op : bit_op) (x y : Z) : Z := match op with OP_bit op => logic op x y | OP_shl => Z.shiftl x y | OP_sar => Z.shiftr x y end.
Definition bit_large (op : bit_op) (a b : bigint_value) : Prop :=
  match op with OP_bit _ => JS_BIGINT_MAX_SIZE < Z.of_nat (max (limbs a) (limbs b)) | OP_shl => shift_large a (value b) | OP_sar => shift_large a (- value b) end.

Lemma logic_slow_ok op a b : value_ok a -> value_ok b -> Z.of_nat (limbs a) <= 2 ^ 24 -> exact (logic_slow fresh op a b) (bit_spec op (value a) (value b)) (bit_large op a b).
Proof.
  intros Ha Hb Hl. destruct (operand_ok a Ha) as [Ha1 Ha2]. destruct (operand_ok b Hb) as [Hb1 Hb2]. unfold logic_slow. rewrite js_bigint_get_si_sat_ok, Hb2 by done. cbv zeta.
  set (k := value b). set (k64 := Z.max (- 2 ^ 63) (Z.min (2 ^ 63 - 1) k)). set (clamp := fun k => if INT32_MAX <? k then INT32_MAX else if k <? - INT32_MAX then - INT32_MAX else k).
  assert (clamp k64 = clamp k) as E1 by (unfold clamp, k64, INT32_MAX; destruct (Z.ltb_spec (2 ^ 31 - 1) k), (Z.ltb_spec k (- (2 ^ 31 - 1))), (Z.ltb_spec (2 ^ 31 - 1) (Z.max (- 2 ^ 63) (Z.min (2 ^ 63 - 1) k))), (Z.ltb_spec (Z.max (- 2 ^ 63) (Z.min (2 ^ 63 - 1) k)) (- (2 ^ 31 - 1))); lia).
  assert (- clamp k = clamp (- k)) as E2 by (unfold clamp, INT32_MAX; destruct (Z.ltb_spec (2 ^ 31 - 1) k), (Z.ltb_spec k (- (2 ^ 31 - 1))), (Z.ltb_spec (2 ^ 31 - 1) (- k)), (Z.ltb_spec (- k) (- (2 ^ 31 - 1))); lia).
  change (if INT32_MAX <? k64 then INT32_MAX else if k64 <? - INT32_MAX then - INT32_MAX else k64) with (clamp k64). rewrite E1. destruct op as [op| |]; cbn [bit_spec bit_large].
  - pose proof (compact_computes _ _ _ (js_bigint_logic_ok fresh _ _ op Ha1 Hb1)) as H. by rewrite Ha2, Hb2 in H.
  - exact (by_shift_ok a k Ha Hl).
  - rewrite E2, <- Z.shiftl_opp_r. exact (by_shift_ok a (- k) Ha Hl).
Qed.

Lemma short_shl_ok v k large : is_short v = true -> 0 <= k <= 63 -> exact (short_shl fresh v k) (Z.shiftl v k) large.
Proof.
  rewrite is_short_iff. intros Hv Hk. pose proof (Z.pow_pos_nonneg 2 k ltac:(lia) ltac:(lia)). pose proof (Z.pow_le_mono_r 2 k 63 ltac:(lia) ltac:(lia)). unfold short_shl.
  assert (signed 128 (Z.shiftl (wrap 128 v) k) = Z.shiftl v k) as ->.
  { rewrite !Z.shiftl_mul_pow2 by lia. pose proof (Z.div_mod v (2 ^ 128) ltac:(lia)) as E. apply (signed_unique 128 _ _ (- (v / 2 ^ 128) * 2 ^ k)); [lia|nia|]. unfold wrap. assert (v mod 2 ^ 128 = v - 2 ^ 128 * (v / 2 ^ 128)) as -> by lia. ring. }
  apply short_or_big_ok. rewrite Z.shiftl_mul_pow2 by lia. nia.
Qed.
Lemma short_sar_ok v k large : is_short v = true -> 0 <= k <= 63 -> exact (short_sar v k) (Z.shiftr v k) large.
Proof.
  rewrite is_short_iff. intros Hv Hk. apply exact_short; [|done]. apply is_short_iff. rewrite Z.shiftr_div_pow2 by lia. pose proof (Z.pow_pos_nonneg 2 k ltac:(lia) ltac:(lia)).
  split; [apply Z.div_le_lower_bound; nia|apply Z.div_lt_upper_bound; nia].
Qed.

Lemma js_binary_logic_slow_ok op a b :
  value_ok a -> value_ok b -> Z.of_nat (limbs a) <= 2 ^ 24 -> exact (js_binary_logic_slow fresh op a b) (bit_spec op (value a) (value b)) (bit_large op a b).
Proof.
  intros Ha Hb Hl. pose proof (logic_slow_ok op a b Ha Hb Hl) as Hs. destruct a as [v|p], b as [w|q]; try exact Hs. cbn [js_binary_logic_slow value value_ok] in *.
  destruct op as [op| |]; cbn [bit_spec] in *.
  - apply exact_short; [by apply logic_short|done].
  - destruct (Z.ltb_spec 63 w); [exact Hs|]. destruct (Z.ltb_spec w 0); [|apply short_shl_ok; [done|lia]]. destruct (Z.ltb_spec w (-63)); [exact Hs|]. rewrite <- Z.shiftr_opp_r. apply short_sar_ok; [done|lia].
  - destruct (Z.ltb_spec 63 w); [exact Hs|]. destruct (Z.ltb_spec w 0); [|apply short_sar_ok; [done|lia]]. destruct (Z.ltb_spec w (-63)); [exact Hs|]. rewrite <- Z.shiftl_opp_r. apply short_shl_ok; [done|lia].
Qed.

(** *** asIntN and asUintN *)

Lemma signed_range w z : 1 <= w -> - 2 ^ (w - 1) <= signed w z < 2 ^ (w - 1) /\ exists j, z = signed w z + j * 2 ^ w.
Proof.
  intros Hw. unfold signed, wrap. assert (2 ^ w = 2 * 2 ^ (w - 1)) as E by (rewrite <- Z.pow_succ_r by lia; f_equal; lia). pose proof (Z.pow_pos_nonneg 2 (w - 1) ltac:(lia) ltac:(lia)).
  pose proof (Z.mod_pos_bound z (2 ^ w) ltac:(lia)). pose proof (Z.div_mod z (2 ^ w) ltac:(lia)). destruct (Z.leb_spec (2 ^ (w - 1)) (z mod 2 ^ w)); (split; [lia|]).
  - exists (z / 2 ^ w + 1). lia.
  - exists (z / 2 ^ w). lia.
Qed.

Lemma keep_bits_ok x w : limb_ok x -> 1 <= w <= 64 -> keep_bits x (64 - w) false = x mod 2 ^ w /\ keep_bits x (64 - w) true = u64 (signed w x).
Proof.
  intros Hx Hw. unfold keep_bits. rewrite u64_shiftl by (done || lia). replace (64 - (64 - w)) with w by lia. pose proof (Z.pow_pos_nonneg 2 (64 - w) ltac:(lia) ltac:(lia)). split.
  - rewrite Z.shiftr_shiftl_l, Z.sub_diag by lia. apply Z.shiftl_0_r.
  - destruct (signed_range w x ltac:(lia)) as [Hr [j Ej]]. assert (signed 64 (Z.shiftl (x mod 2 ^ w) (64 - w)) = signed w x * 2 ^ (64 - w)) as ->.
    { assert (2 ^ 64 = 2 ^ w * 2 ^ (64 - w)) as E64 by (rewrite <- Z.pow_add_r by lia; f_equal; lia). assert (2 ^ (64 - 1) = 2 ^ (w - 1) * 2 ^ (64 - w)) as E63 by (rewrite <- Z.pow_add_r by lia; f_equal; lia).
      pose proof (Z.div_mod x (2 ^ w) ltac:(apply Z.pow_nonzero; lia)) as E. apply (signed_unique 64 _ _ (j - x / 2 ^ w)); [lia|rewrite E63; nia|]. rewrite Z.shiftl_mul_pow2, E64 by lia.
      assert (x mod 2 ^ w = signed w x + (j - x / 2 ^ w) * 2 ^ w) as -> by lia. ring. }
    f_equal. rewrite Z.shiftr_div_pow2 by lia. apply Z.div_mul. lia.
Qed.

Lemma sval_mod p lo x rest : p = lo ++ [x] ++ rest -> exists k, sval p = val lo + Bn (length lo) * (x + B * k).
Proof.
  intros ->. rewrite sval_app by done. destruct rest as [|y rest]; [exists (- Z.b2z (Z.testbit x 63))|exists (sval (y :: rest))].
  - cbn [app]. rewrite sval_one. lia.
  - change ([x] ++ y :: rest) with (x :: y :: rest). rewrite (sval_cons x) by done. lia.
Qed.

(** The low [bits] bits of a number, with a top limb of [w] bits. *)
Lemma low_limbs lo x k w :
  limbs_ok lo -> limb_ok x -> 1 <= w <= 64 ->
  let V := val lo + Bn (length lo) * (x + B * k) in let bits := 64 * Z.of_nat (length lo) + w in
  sval (lo ++ [u64 (signed w x)]) = signed bits V /\ sval (lo ++ [x mod 2 ^ w]) = if w =? 64 then signed bits V else V mod 2 ^ bits.
Proof.
  intros Hlo Hx Hw V bits. set (N := Bn (length lo)) in *. assert (N = 2 ^ (64 * Z.of_nat (length lo))) as EN by apply Bn_pow2. pose proof (val_bound lo Hlo) as Hv. fold N in Hv. assert (0 < N) as HN by apply Bn_pos.
  destruct (signed_range w x ltac:(lia)) as [Hr [j Ej]]. assert (2 ^ bits = N * 2 ^ w) as Eb by (unfold bits; rewrite Z.pow_add_r, <- EN by lia; done). assert (2 ^ (bits - 1) = N * 2 ^ (w - 1)) as Eb1 by (unfold bits; replace (64 * Z.of_nat (length lo) + w - 1) with (64 * Z.of_nat (length lo) + (w - 1)) by lia; rewrite Z.pow_add_r, <- EN by lia; done).
  assert (B = 2 ^ w * 2 ^ (64 - w)) as EB by (rewrite <- Z.pow_add_r by lia; replace (w + (64 - w)) with 64 by lia; done). pose proof (Z.pow_le_mono_r 2 (w - 1) 63 ltac:(lia) ltac:(lia)). pose proof (Z.pow_pos_nonneg 2 w ltac:(lia) ltac:(lia)).
  assert (signed bits V = val lo + N * signed w x) as Es.
  { apply (signed_unique _ _ _ (j + 2 ^ (64 - w) * k)); [unfold bits; lia|rewrite Eb1; nia|]. unfold V. rewrite Eb, EB. rewrite Ej at 1. ring. }
  assert (sval (lo ++ [u64 (signed w x)]) = signed bits V) as E1. { rewrite sval_app, sval_short by (done || lia). fold N. lia. }
  split; [done|]. destruct (Z.eqb_spec w 64) as [->|].
  - rewrite Es. rewrite sval_app by done. fold N. rewrite Z.mod_small by done. destruct (signed_limb x Hx) as [-> _]. done.
  - pose proof (Z.mod_pos_bound x (2 ^ w) ltac:(lia)). pose proof (Z.pow_le_mono_r 2 w 63 ltac:(lia) ltac:(lia)). rewrite sval_app by done. fold N. assert (sval [x mod 2 ^ w] = x mod 2 ^ w) as ->.
    { rewrite sval_one, sign_bit by (unfold limb_ok; lia). destruct (Z.leb_spec (2 ^ 63) (x mod 2 ^ w)); simpl Z.b2z; lia. }
    pose proof (Z.div_mod x (2 ^ w) ltac:(lia)) as Ex. apply (Z.mod_unique_pos _ _ (x / 2 ^ w + 2 ^ (64 - w) * k)); [rewrite Eb; nia|]. unfold V. rewrite Eb, EB. rewrite Ex at 1. ring.
Qed.

(** The number [js_bigint_asUintN] gives: for whole limbs the unsigned variant does what the signed
    one does. *)
Definition as_bits (bits : Z) (a : bigint_value) (asIntN : bool) : Z :=
  if bits =? 0 then 0
  else if asIntN || (64 * Z.of_nat (limbs a) <=? bits) || (bits mod 64 =? 0) then signed bits (value a) else value a mod 2 ^ bits.

Lemma signed_wide a bits : value_ok a -> 64 * Z.of_nat (limbs a) <= bits -> 0 < bits -> signed bits (value a) = value a.
Proof.
  intros Ha Hb Hp. destruct (operand_ok a Ha) as [[Hl Hne%normalized_ne] Ev]. pose proof (sval_bounds _ Hl Hne) as Hs. rewrite Ev, Bn_pow2 in Hs. fold (limbs a) in Hs.
  pose proof (Z.pow_le_mono_r 2 (64 * Z.of_nat (limbs a)) bits ltac:(lia) Hb) as Hm. assert (2 ^ bits = 2 * 2 ^ (bits - 1)) as E by (rewrite <- Z.pow_succ_r by lia; f_equal; lia).
  apply (signed_unique _ _ _ 0); lia.
Qed.

Lemma keep_limb x w (asIntN : bool) : limb_ok x -> 1 <= w <= 64 -> limb_ok (keep_bits x (64 - w) asIntN).
Proof.
  intros Hx Hw. destruct (keep_bits_ok x w Hx Hw) as [H1 H2]. destruct asIntN; [rewrite H2; apply u64_limb|]. rewrite H1. unfold limb_ok in *. pose proof (Z.mod_pos_bound x (2 ^ w) ltac:(apply Z.pow_pos_nonneg; lia)).
  pose proof (Z.pow_le_mono_r 2 w 64 ltac:(lia) ltac:(lia)) as Hp. change (2 ^ 64) with B in Hp. lia.
Qed.

Lemma kept_value lo x k w (asIntN : bool) :
  limbs_ok lo -> limb_ok x -> 1 <= w <= 64 ->
  let V := val lo + Bn (length lo) * (x + B * k) in let bits := 64 * Z.of_nat (length lo) + w in
  sval (lo ++ [keep_bits x (64 - w) asIntN]) = if asIntN || (w =? 64) then signed bits V else V mod 2 ^ bits.
Proof.
  intros Hlo Hx Hw V bits. destruct (keep_bits_ok x w Hx Hw) as [K1 K2]. destruct (low_limbs lo x k w Hlo Hx Hw) as [L1 L2]. fold V bits in L1, L2. destruct asIntN; [by rewrite K2|]. by rewrite K1, L2.
Qed.

Lemma js_bigint_asUintN_ok bits a asIntN :
  value_ok a -> 0 <= bits -> exact (js_bigint_asUintN fresh bits a asIntN) (as_bits bits a asIntN) (JS_BIGINT_MAX_SIZE < Z.of_nat (limbs a)).
Proof.
  intros Ha Hb. unfold js_bigint_asUintN, as_bits. destruct (Z.eqb_spec bits 0) as [->|Hb0]; [done|]. destruct (operand_ok a Ha) as [Ha1 Ha2].
  destruct (Z.leb_spec (64 * Z.of_nat (limbs a)) bits) as [Hw|Hw].
  { rewrite orb_true_r. cbn [orb]. rewrite signed_wide by (done || lia). destruct a as [v|p].
    - unfold limbs in Hw. cbn [operand js_bigint_set_si length] in Hw. destruct (Z.leb_spec 64 bits); [|lia]. done.
    - unfold limbs in Hw. cbn [operand] in Hw. destruct (Z.leb_spec (Z.of_nat (length p) * 64) bits); [|lia]. done. }
  rewrite orb_false_r. destruct a as [v|p].
  - unfold limbs in Hw. cbn [operand js_bigint_set_si length] in Hw. destruct (Z.leb_spec 64 bits); [lia|]. cbn [exact value_ok]. rewrite (Z.mod_small bits) by lia. destruct (Z.eqb_spec bits 0); [lia|]. rewrite orb_false_r.
    pose proof (kept_value [] (u64 v) (v / B) bits asIntN ltac:(apply Forall_nil_2) (u64_limb v) ltac:(lia)) as Hk. cbn [app val length] in Hk. cbv zeta in Hk. rewrite Bn_0 in Hk. change (64 * Z.of_nat 0 + bits) with bits in Hk.
    replace (0 + 1 * (u64 v + B * (v / B))) with v in Hk by (pose proof (u64_split v); lia). destruct (Z.eqb_spec bits 64); [lia|]. rewrite orb_false_r in Hk.
    destruct (signed_limb _ (keep_limb (u64 v) bits asIntN (u64_limb v) ltac:(lia))) as [-> Hs]. split; [done|]. exact Hk.
  - destruct Ha as [Hp Hl2]. unfold limbs in *. cbn [operand value] in *. destruct (Z.leb_spec (Z.of_nat (length p) * 64) bits); [lia|]. set (len := Z.to_nat ((bits + 63) / 64)).
    pose proof (Z.div_mod (bits + 63) 64 ltac:(lia)) as Edm. pose proof (Z.mod_pos_bound (bits + 63) 64 ltac:(lia)). assert (1 <= Z.of_nat len /\ 64 * (Z.of_nat len - 1) < bits <= 64 * Z.of_nat len) as Hlen by (unfold len; lia).
    assert (len <= length p)%nat as Hlp by lia. rewrite bigint_new_bind. destruct (Z.ltb_spec JS_BIGINT_MAX_SIZE (Z.of_nat len)); [cbn [exact]; lia|]. set (w := bits - 64 * (Z.of_nat len - 1)).
    assert (Z.land (- bits) 63 = 64 - w) as ->. { transitivity (- bits mod 64); [apply (Z.land_ones (- bits) 6); lia|]. symmetry. apply (Z.mod_unique_pos _ _ (- Z.of_nat len)); unfold w; lia. }
    destruct (split_at p (len - 1) 1) as (lo & hi & rest & -> & Elo & Ehi); [lia|]. destruct hi as [|x [|]]; try done. pose proof Hp as [Hlp' _]. apply limbs_app in Hlp' as [Hlo Hx]. apply Forall_app in Hx as [Hx _]. inversion Hx as [|? ? Hx' _]; subst x0 l.
    rewrite <- Elo, take_app_length. destruct (fresh_ok len) as [Hf _]. destruct (split_at (fresh len) 0 (length lo)) as (z & old & last & Ef & Ez & Eold); [lia|]. destruct z; [|done]. cbn [app] in Ef. rewrite Ef in *. rewrite length_app in Hf.
    rewrite splice_front by done. cbn [mbind outcome_bind]. assert (limb (lo ++ [x] ++ rest) (length lo) = Ret x) as -> by (by apply limb_app). cbn [mbind outcome_bind].
    destruct last as [|y [|]]; simpl length in Hf; try lia. change [y] with ([y] ++ []). rewrite splice_app by done. cbn [mbind outcome_bind exact]. rewrite app_nil_r.
    destruct (sval_mod _ lo x rest eq_refl) as [k Ek]. pose proof (kept_value lo x k w asIntN Hlo Hx' ltac:(unfold w; lia)) as Hk. cbv zeta in Hk. rewrite <- Ek in Hk. replace (64 * Z.of_nat (length lo) + w) with bits in Hk by (unfold w; lia).
    assert ((w =? 64) = (bits mod 64 =? 0)) as Ew. { destruct (Z.eqb_spec w 64) as [E|E]; symmetry; [apply Z.eqb_eq|apply Z.eqb_neq]; [symmetry; apply (Z.mod_unique_pos _ _ (Z.of_nat len)); unfold w in E; lia|]. replace (bits mod 64) with w by (apply (Z.mod_unique_pos _ _ (Z.of_nat len - 1)); unfold w in *; lia). unfold w. lia. }
    rewrite Ew in Hk. assert (limbs_ok (lo ++ [keep_bits x (64 - w) asIntN])) as Hr by (apply limbs_snoc; split; [done|]; apply keep_limb; [done|unfold w; lia]).
    destruct (normalize_ok _ Hr) as (N1 & N2 & _); [by destruct lo|]. destruct (compact_ok _ N1) as [C1 C2]. split; [done|]. rewrite C2, N2. exact Hk.
Qed.
End Operators.

(** *** Comparisons *)

Definition numeric_ok (n : numeric) : Prop := match n with INT v => - 2 ^ 31 <= v < 2 ^ 31 | BIGINT v => value_ok v | FLOAT64 d => uint_ok 64 d /\ float_exp d <> 2047 end.
(** A number times [2^1074], an integer also for doubles. *)
Definition scaled (n : numeric) : Z := match n with INT v => v * 2 ^ 1074 | BIGINT v => value v * 2 ^ 1074 | FLOAT64 d => float_scaled d end.
Definition relation_spec (op : relation_op) (x y : Z) : bool :=
  match op with OP_lt => x <? y | OP_lte => x <=? y | OP_gt => y <? x | OP_gte => y <=? x | OP_eq => x =? y end.

Lemma relation_three_way op x y : relation op (three_way x y) = relation_spec op x y.
Proof.
  unfold three_way. destruct (Z.compare_spec x y) as [->|H|H]; destruct op; cbn [relation relation_spec]; symmetry; rewrite ?Z.ltb_irrefl, ?Z.leb_refl, ?Z.eqb_refl; try done;
    (apply Z.ltb_lt || apply Z.ltb_ge || apply Z.leb_le || apply Z.leb_gt || apply Z.eqb_neq); lia.
Qed.
Lemma three_way_swap x y : - three_way x y = three_way y x.
Proof. unfold three_way. rewrite (Z.compare_antisym x y). by destruct (x ?= y). Qed.
Lemma three_way_not_2 x y : (three_way x y =? 2) = false /\ (- three_way x y =? 2) = false.
Proof. unfold three_way. by destruct (x ?= y). Qed.
Lemma three_way_sign v w : Z.b2z (w <? v) - Z.b2z (v <? w) = three_way v w.
Proof. unfold three_way. destruct (Z.compare_spec v w), (Z.ltb_spec w v), (Z.ltb_spec v w); simpl; lia. Qed.

(** The array of an operand that is no double. *)
Definition int_of (n : numeric) : option Z := match n with INT v => Some v | BIGINT v => Some (value v) | FLOAT64 _ => None end.
Lemma to_bigint_buf n z : numeric_ok n -> int_of n = Some z -> exists p, JS_ToBigIntBuf n = Ret p /\ bigint_ok p /\ sval p = z /\ scaled n = z * 2 ^ 1074.
Proof.
  destruct n as [v|v|d]; cbn [numeric_ok int_of JS_ToBigIntBuf]; intros Hn [= <-]; (eexists; split; [done|]).
  - split; [apply small_ok, u64_limb|]. split; [|done]. apply sval_short. lia.
  - destruct (operand_ok v Hn) as [? ?]. done.
Qed.

(** Two operands of which one is a double, in the order that the code reverses. *)
Definition reversed (a b : numeric) : bool :=
  match a, b with
  | FLOAT64 d, n | n, FLOAT64 d => match JS_ToBigIntBuf n with Ret p => misordered p d | _ => false end
  | _, _ => false
  end.

Lemma scaled_three_way x y : three_way (x * 2 ^ 1074) (y * 2 ^ 1074) = three_way x y.
Proof. apply three_way_mul. apply Z.pow_pos_nonneg; lia. Qed.

Lemma small_int_of n v : small_int n = Some v -> int_of n = Some v.
Proof. by destruct n as [w|[w|p]|d]; intros [= <-]. Qed.

Lemma compare_integers op a b v w :
  numeric_ok a -> numeric_ok b -> int_of a = Some v -> int_of b = Some w -> js_compare_bigint op a b = Ret (relation_spec op (scaled a) (scaled b)).
Proof.
  intros Ha Hb Ia Ib. destruct (to_bigint_buf a v Ha Ia) as (p & Ep & Hp & Ev & ->). destruct (to_bigint_buf b w Hb Ib) as (q & Eq & Hq & Ew & ->). rewrite <- relation_three_way, scaled_three_way.
  unfold js_compare_bigint. destruct (small_int a) as [v'|] eqn:Ea; [destruct (small_int b) as [w'|] eqn:Eb|].
  - apply small_int_of in Ea, Eb. simplify_eq. by rewrite three_way_sign.
  - destruct a as [|?|]; destruct b as [|?|]; try done; rewrite Ep, Eq; cbn [mbind outcome_bind]; by rewrite js_bigint_cmp_ok, Ev, Ew by done.
  - destruct a as [|?|]; destruct b as [|?|]; try done; rewrite Ep, Eq; cbn [mbind outcome_bind]; by rewrite js_bigint_cmp_ok, Ev, Ew by done.
Qed.

(** The comparison of an integer with a double. *)
Lemma compare_double n z d :
  numeric_ok n -> uint_ok 64 d -> float_exp d <> 2047 -> int_of n = Some z ->
  exists p, JS_ToBigIntBuf n = Ret p /\ (js_bigint_float64_cmp p d =? 2) = false /\
    js_bigint_float64_cmp p d = (if misordered p d then three_way (float_scaled d) (scaled n) else three_way (scaled n) (float_scaled d)).
Proof.
  intros Hn Hd He Hz. destruct (to_bigint_buf n z Hn Hz) as (p & Ep & Hp & Ev & ->). exists p. split; [done|]. rewrite (js_bigint_float64_cmp_ok p d Hp Hd He). unfold compare_float. rewrite Ev.
  destruct (three_way_not_2 (z * 2 ^ 1074) (float_scaled d)) as [H1 H2]. destruct (misordered p d); [by rewrite H2, three_way_swap|by rewrite H1].
Qed.

Lemma js_compare_bigint_ok op a b :
  numeric_ok a -> numeric_ok b -> int_of a <> None \/ int_of b <> None ->
  js_compare_bigint op a b = Ret (if reversed a b then relation_spec op (scaled b) (scaled a) else relation_spec op (scaled a) (scaled b)).
Proof.
  intros Ha Hb Hsome. destruct (int_of a) as [v|] eqn:Ia; [destruct (int_of b) as [w|] eqn:Ib|].
  - assert (reversed a b = false) as -> by (destruct a, b; done). by apply (compare_integers op a b v w).
  - destruct b as [|?|d]; try done. destruct Hb as [Hd He]. destruct (compare_double a v d Ha Hd He Ia) as (p & Ep & E2 & Ec). cbn [scaled].
    assert (js_compare_bigint op a (FLOAT64 d) = Ret (relation op (js_bigint_float64_cmp p d))) as ->. { unfold js_compare_bigint. destruct a as [x|[x|x]|]; try done; cbn [small_int]; rewrite Ep; cbn [mbind outcome_bind]; by rewrite E2. }
    assert (reversed a (FLOAT64 d) = misordered p d) as -> by (destruct a; try done; cbn [reversed]; by rewrite Ep). rewrite Ec. destruct (misordered p d); by rewrite relation_three_way.
  - destruct a as [|?|d]; try done. destruct Ha as [Hd He]. destruct Hsome as [|Hsome]; [done|]. destruct (int_of b) as [w|] eqn:Ib; [|done]. destruct (compare_double b w d Hb Hd He Ib) as (p & Ep & E2 & Ec). cbn [scaled].
    assert (js_compare_bigint op (FLOAT64 d) b = Ret (relation op (- js_bigint_float64_cmp p d))) as ->. { unfold js_compare_bigint. cbn [small_int]. rewrite Ep. cbn [mbind outcome_bind]. by rewrite E2. }
    assert (reversed (FLOAT64 d) b = misordered p d) as -> by (cbn [reversed]; by rewrite Ep). rewrite Ec. destruct (misordered p d); by rewrite three_way_swap, relation_three_way.
Qed.

(** ** Part 4: theorems *)

(** C12. The arithmetic of scripts on big integers: for any two values [+], [-], [*], [/], [%], [**],
    the unary operators and [~] leave the exact result, short exactly when it fits in 64 bits, on
    the fast path of two short values as on the path through the arrays; they throw for division by
    zero, negative exponents and unary plus, and otherwise only when the operands are too long or
    the power too large. *)
Theorem bigint_operators_exact fresh a b :
  (forall n, length (fresh n) = n /\ limbs_ok (fresh n)) -> value_ok a -> value_ok b ->
  exact (js_add_slow fresh a b) (value a + value b) (JS_BIGINT_MAX_SIZE < Z.of_nat (max (limbs a) (limbs b))) /\
  (forall op, match arith_exn op (value b) with
              | Some e => js_binary_arith_slow fresh op a b = throw e
              | None => exact (js_binary_arith_slow fresh op a b) (arith_spec op (value a) (value b)) (arith_large op a b)
              end) /\
  js_unary_arith_slow fresh OP_plus a = throw UnaryPlus /\
  (forall op, op = OP_inc \/ op = OP_dec \/ op = OP_neg ->
    exact (js_unary_arith_slow fresh op a) (unary_spec op (value a)) (JS_BIGINT_MAX_SIZE < Z.of_nat (limbs a))) /\
  exact (js_not_slow fresh a) (Z.lnot (value a)) (JS_BIGINT_MAX_SIZE < Z.of_nat (limbs a)).
Proof.
  intros Hf Ha Hb. split; [by apply js_add_slow_ok|]. split; [intros op; by apply js_binary_arith_slow_ok|]. split; [|split].
  - exact (js_unary_arith_slow_ok fresh OP_plus a Ha ltac:(done)).
  - intros op Hop. pose proof (js_unary_arith_slow_ok fresh op a Ha) as H. destruct Hop as [->|[-> | ->]]; by apply H.
  - by apply js_not_slow_ok.
Qed.

(** Bits: [&], [|] and [^] of any two big integers are those of their infinite two's complement,
    [<<] and [>>] shift by any big integer, to the other side for a negative one, rounding down;
    and [asIntN] gives the low bits as a signed number. [asUintN] gives the low bits as an unsigned
    number, except when their number is a multiple of 64 or is at least the length of the array:
    then it gives the signed number too, so that [BigInt.asUintN(64, -1n)] is [-1n]. *)
Theorem bigint_bits_exact fresh a b bits :
  (forall n, length (fresh n) = n /\ limbs_ok (fresh n)) -> value_ok a -> value_ok b -> Z.of_nat (limbs a) <= 2 ^ 24 -> 0 <= bits ->
  (forall op, exact (js_binary_logic_slow fresh op a b) (bit_spec op (value a) (value b)) (bit_large op a b)) /\
  (forall asIntN, exact (js_bigint_asUintN fresh bits a asIntN) (as_bits bits a asIntN) (JS_BIGINT_MAX_SIZE < Z.of_nat (limbs a))).
Proof. intros Hf Ha Hb Hl Hbits. split; [intros op; by apply js_binary_logic_slow_ok|intros asIntN; by apply js_bigint_asUintN_ok]. Qed.

(** C18. Comparisons: [js_compare_bigint] of big integers, 32-bit integers and finite doubles, not both
    doubles, decides the relation of the exact values; but for a negative integer and a negative
    double whose exponents differ it decides the relation of the values exchanged. *)
Theorem bigint_comparisons op a b :
  numeric_ok a -> numeric_ok b -> int_of a <> None \/ int_of b <> None ->
  js_compare_bigint op a b = Ret (if reversed a b then relation_spec op (scaled b) (scaled a) else relation_spec op (scaled a) (scaled b)).
Proof. apply js_compare_bigint_ok. Qed.

Lemma bigint_operators_exact_witness :
  js_binary_arith_slow fresh_junk OP_mul (SHORT_BIG_INT (- 2 ^ 63)) (SHORT_BIG_INT (- 2 ^ 63)) = ok (BIG_INT [0; 4611686018427387904]) /\
  js_binary_arith_slow fresh_junk OP_div (SHORT_BIG_INT (- 2 ^ 63)) (SHORT_BIG_INT (-1)) = ok (BIG_INT [9223372036854775808; 0]) /\
  exact (js_binary_arith_slow fresh_junk OP_div (SHORT_BIG_INT (- 2 ^ 63)) (SHORT_BIG_INT (-1))) (2 ^ 63) (JS_BIGINT_MAX_SIZE < 3).
Proof.
  split; [vm_compute; reflexivity|]. split; [vm_compute; reflexivity|].
  destruct (bigint_operators_exact fresh_junk (SHORT_BIG_INT (- 2 ^ 63)) (SHORT_BIG_INT (-1)) fresh_junk_ok eq_refl eq_refl) as (_ & H & _). exact (H OP_div).
Defined.
Lemma bigint_bits_exact_witness :
  js_bigint_asUintN fresh_junk 64 (SHORT_BIG_INT (-1)) false = ok (SHORT_BIG_INT (-1)) /\ (-1) mod 2 ^ 64 = 18446744073709551615 /\
  exact (js_bigint_asUintN fresh_junk 64 (SHORT_BIG_INT (-1)) false) (as_bits 64 (SHORT_BIG_INT (-1)) false) (JS_BIGINT_MAX_SIZE < 1).
Proof.
  split; [vm_compute; reflexivity|]. split; [reflexivity|].
  destruct (bigint_bits_exact fresh_junk (SHORT_BIG_INT (-1)) (SHORT_BIG_INT 5) 64 fresh_junk_ok eq_refl eq_refl ltac:(vm_compute; discriminate) ltac:(lia)) as [_ H]. exact (H false).
Defined.
Lemma bigint_comparisons_witness :
  (* -10n < -2.5 *)
  js_compare_bigint OP_lt (BIGINT (SHORT_BIG_INT (-10))) (FLOAT64 0xC004000000000000) = Ret false /\
  js_compare_bigint OP_lt (BIGINT (SHORT_BIG_INT (-10))) (FLOAT64 0xC004000000000000) =
  Ret (if reversed (BIGINT (SHORT_BIG_INT (-10))) (FLOAT64 0xC004000000000000)
       then relation_spec OP_lt (scaled (FLOAT64 0xC004000000000000)) (scaled (BIGINT (SHORT_BIG_INT (-10))))
       else relation_spec OP_lt (scaled (BIGINT (SHORT_BIG_INT (-10)))) (scaled (FLOAT64 0xC004000000000000))).
Proof.
  split; [vm_compute; reflexivity|]. apply (bigint_comparisons OP_lt (BIGINT (SHORT_BIG_INT (-10))) (FLOAT64 0xC004000000000000)); [done|split; [unfold uint_ok; lia|by vm_compute]|by left].
Defined.
