(* ===== verification/Util.v ===== *)
(** The helpers of src/util.cc: SHA-1, base64, the WebSocket accept key, and the file
    extension and content type lookups. [read_file] is file I/O and is not modelled. *)

From Stdlib Require Import Btauto.
From S2P Require Import Prelude CString.

(** ** sha1 *)

Module Sha1.

(** Five 32-bit words: [h[0..4]], and the working variables [a..e]. *)
Record words := mkWords { wa : Z; wb : Z; wc : Z; wd : Z; we : Z }.

Definition H0 : words :=
  mkWords 0x67452301 0xEFCDAB89 0x98BADCFE 0x10325476 0xC3D2E1F0.

(** [(x << n) | (x >> (32 - n))] on [uint32_t]. *)
Definition rotl (n x : Z) : Z := Z.lor (u32 (Z.shiftl x n)) (Z.shiftr x (32 - n)).

Definition padded_len (len : Z) : Z := u64 (((len + 8) / 64 + 1) * 64).

(** The zeroed buffer after [memcpy], the 0x80 marker and the eight length bytes. *)
Definition pad (data : list Z) : list Z :=
  let len := Z.of_nat (length data) in
  let n := Z.to_nat (padded_len len) in
  let msg := data ++ replicate (n - length data) 0 in
  let msg := <[length data := 0x80]> msg in
  let bit_len := u64 (len * 8) in
  foldl (fun m i => <[(n - 1 - i)%nat := Z.land (Z.shiftr bit_len (Z.of_nat i * 8)) 0xFF]> m)
        msg (seq 0 8).

Definition byte_at (msg : list Z) (i : nat) : Z := default 0 (msg !! i).

(** [w[i]] for [i < 16]. *)
Definition load_word (msg : list Z) (off i : nat) : Z :=
  u32 (Z.lor (Z.lor (Z.lor (Z.shiftl (byte_at msg (off + i * 4)) 24)
                           (Z.shiftl (byte_at msg (off + i * 4 + 1)) 16))
                    (Z.shiftl (byte_at msg (off + i * 4 + 2)) 8))
             (byte_at msg (off + i * 4 + 3))).

Definition extend_word (w : list Z) (i : nat) : list Z :=
  let x := Z.lxor (Z.lxor (Z.lxor (byte_at w (i - 3)) (byte_at w (i - 8)))
                          (byte_at w (i - 14))) (byte_at w (i - 16)) in
  w ++ [rotl 1 x].

Definition schedule (msg : list Z) (off : nat) : list Z :=
  foldl extend_word (load_word msg off <$> seq 0 16) (seq 16 64).

(** The choice of [f] and [k] in round [i]. *)
Definition round_f (i : nat) (b c d : Z) : Z :=
  if (i <? 20)%nat then Z.lor (Z.land b c) (Z.land (u32 (Z.lnot b)) d)
  else if (i <? 40)%nat then Z.lxor (Z.lxor b c) d
  else if (i <? 60)%nat then Z.lor (Z.lor (Z.land b c) (Z.land b d)) (Z.land c d)
  else Z.lxor (Z.lxor b c) d.

Definition round_k (i : nat) : Z :=
  if (i <? 20)%nat then 0x5A827999
  else if (i <? 40)%nat then 0x6ED9EBA1
  else if (i <? 60)%nat then 0x8F1BBCDC
  else 0xCA62C1D6.

Definition round (w : list Z) (v : words) (i : nat) : words :=
  let temp := u32 (rotl 5 (wa v) + round_f i (wb v) (wc v) (wd v) + we v
                   + round_k i + byte_at w i) in
  mkWords temp (wa v) (rotl 30 (wb v)) (wc v) (wd v).

Definition add_words (h v : words) : words :=
  mkWords (u32 (wa h + wa v)) (u32 (wb h + wb v)) (u32 (wc h + wc v))
          (u32 (wd h + wd v)) (u32 (we h + we v)).

Definition block (msg : list Z) (h : words) (off : nat) : words :=
  add_words h (foldl (round (schedule msg off)) h (seq 0 80)).

Definition word_bytes (h : Z) : list Z :=
  [Z.land (Z.shiftr h 24) 0xFF; Z.land (Z.shiftr h 16) 0xFF;
   Z.land (Z.shiftr h 8) 0xFF; Z.land h 0xFF].

Definition digest_of (h : words) : list Z :=
  word_bytes (wa h) ++ word_bytes (wb h) ++ word_bytes (wc h) ++ word_bytes (wd h)
    ++ word_bytes (we h).

Definition sha1 (data : list Z) : list Z :=
  let msg := pad data in
  digest_of (foldl (block msg) H0 ((fun b => b * 64)%nat <$> seq 0 (length msg / 64))).

End Sha1.

(** ** base64 *)

Module Base64.

Definition t : list Z :=
  bytes_of_string "ABCDEFGHIJKLMNOPQRSTUVWXYZabcdefghijklmnopqrstuvwxyz0123456789+/".

Definition sym (i : Z) : Z := default 0 (t !! Z.to_nat i).

(** One iteration of the loop: [d[i]], and [d[i+1]], [d[i+2]] when they exist. *)
Definition encode_group (b0 : Z) (b1 b2 : option Z) : list Z :=
  let n := Z.lor (Z.lor (Z.shiftl b0 16) (from_option (fun b => Z.shiftl b 8) 0 b1))
                 (default 0 b2) in
  [sym (Z.land (Z.shiftr n 18) 0x3F);
   sym (Z.land (Z.shiftr n 12) 0x3F);
   (if b1 is Some _ then sym (Z.land (Z.shiftr n 6) 0x3F) else 61);
   (if b2 is Some _ then sym (Z.land n 0x3F) else 61)].

Fixpoint base64 (d : list Z) : list Z :=
  match d with
  | [] => []
  | [b0] => encode_group b0 None None
  | [b0; b1] => encode_group b0 (Some b1) None
  | b0 :: b1 :: b2 :: d' => encode_group b0 (Some b1) (Some b2) ++ base64 d'
  end.

End Base64.

(** ** The WebSocket accept key *)

Definition magic : list Z := bytes_of_string "258EAFA5-E914-47DA-95CA-C5AB0DC85B11".

Definition compute_ws_accept_key (incoming_sec_key : list Z) : list Z :=
  Base64.base64 (Sha1.sha1 (incoming_sec_key ++ magic)).

(** ** File names *)

(** Pointers into [filename] are offsets; [NULL] compares below every pointer. *)
Definition ptr_gt (a b : option nat) : bool :=
  match a, b with
  | Some i, Some j => (j <? i)%nat
  | Some _, None => true
  | None, _ => false
  end.

Definition get_file_extension (filename : option (list Z)) : option (list Z) :=
  match filename with
  | None => None
  | Some s =>
      let dot := strrchr s 46 in
      let slash := strrchr s 47 in
      let backslash := strrchr s 92 in
      let last_sep := if ptr_gt slash backslash then slash else backslash in
      match dot with
      | None => None
      | Some d =>
          if match last_sep with Some l => (d <? l)%nat | None => false end then None
          else if (d =? 0)%nat then None
          else Some (drop (S d) s)
      end
  end.

(** [get_content_type(NULL)] dereferences [NULL]. *)
Definition get_content_type (ext : option (list Z)) : outcome (list Z) :=
  match ext with
  | None => UB
  | Some e =>
      if strncmp0 e (bytes_of_string "js") 2 then Ret (bytes_of_string "text/javascript")
      else if strncmp0 e (bytes_of_string "html") 4 then Ret (bytes_of_string "text/html")
      else if strncmp0 e (bytes_of_string "ico") 3
      then Ret (bytes_of_string "image/vnd.microsoft.icon")
      else if strncmp0 e (bytes_of_string "css") 3 then Ret (bytes_of_string "text/css")
      else Ret (bytes_of_string "text/plaintext")
  end.

(** ** Reference: SHA-1 as FIPS 180-4 defines it

    The standard's constants, arithmetic instead of shifts, exclusive-or forms of the round
    functions, and the padding as the standard words it: a 1 bit, the least number of zero bits that
    brings the length to 448 modulo 512, and the 64-bit big-endian bit length. Nothing of it is
    shared with the code's definitions. *)
Module Fips.

Definition ROTL (n x : Z) : Z := (x * 2 ^ n) mod 2 ^ 32 + x / 2 ^ (32 - n).
Definition Ch (x y z : Z) : Z := Z.lxor (Z.land x y) (Z.land (2 ^ 32 - 1 - x) z).
Definition Parity (x y z : Z) : Z := Z.lxor (Z.lxor x y) z.
Definition Maj (x y z : Z) : Z := Z.lxor (Z.lxor (Z.land x y) (Z.land x z)) (Z.land y z).

Fixpoint be_bytes (n : nat) (x : Z) : list Z :=
  match n with
  | O => []
  | S n' => (x / 256 ^ Z.of_nat n') mod 256 :: be_bytes n' x
  end.

Definition pad (data : list Z) : list Z :=
  let len := Z.of_nat (length data) in
  data ++ [128] ++ replicate (Z.to_nat ((55 - len) mod 64)) 0 ++ be_bytes 8 (8 * len).

Definition word (msg : list Z) (off i : nat) : Z :=
  nth (off + i * 4) msg 0 * 2 ^ 24 + nth (off + i * 4 + 1) msg 0 * 2 ^ 16
  + nth (off + i * 4 + 2) msg 0 * 2 ^ 8 + nth (off + i * 4 + 3) msg 0.

Definition next_W (W : list Z) (t : nat) : list Z :=
  W ++ [ROTL 1 (Z.lxor (Z.lxor (Z.lxor (nth (t - 3) W 0) (nth (t - 8) W 0)) (nth (t - 14) W 0)) (nth (t - 16) W 0))].

Definition W (msg : list Z) (off : nat) : list Z :=
  foldl next_W (word msg off <$> seq 0 16) (seq 16 64).

Definition f (t : nat) (x y z : Z) : Z :=
  if (t <? 20)%nat then Ch x y z
  else if (t <? 40)%nat then Parity x y z
  else if (t <? 60)%nat then Maj x y z
  else Parity x y z.

(** The constants of section 4.2.1, one for each twenty rounds: the square roots of 2, 3, 5 and 10
    times [2^30]. *)
Definition K (t : nat) : Z := Z.sqrt (nth (t / 20) [2; 3; 5; 10] 0 * 2 ^ 60).

(** The initial hash value of section 5.3.1. *)
Definition H0 : list Z := [0x67452301; 0xefcdab89; 0x98badcfe; 0x10325476; 0xc3d2e1f0].

(** The working variables a to e, in a list. *)
Definition round (W : list Z) (v : list Z) (t : nat) : list Z :=
  match v with
  | [a; b; c; d; e] => [(ROTL 5 a + f t b c d + e + K t + nth t W 0) mod 2 ^ 32; a; ROTL 30 b; c; d]
  | _ => v
  end.

Definition block (msg : list Z) (h : list Z) (off : nat) : list Z :=
  zip_with (fun x y => (x + y) mod 2 ^ 32) (foldl (round (W msg off)) h (seq 0 80)) h.

Definition digest (h : list Z) : list Z := mjoin (be_bytes 4 <$> h).

Definition sha1 (data : list Z) : list Z :=
  let msg := pad data in
  digest (foldl (block msg) H0 ((fun b => b * 64)%nat <$> seq 0 (length msg / 64))).

End Fips.

(** ** The code computes the reference *)

Section Sha1_fips.
Import Sha1.

Lemma rotl_ROTL n x : 0 < n < 32 -> uint_ok 32 x ->
  rotl n x = Fips.ROTL n x /\ uint_ok 32 (rotl n x).
Proof.
  intros Hn Hx. unfold rotl, Fips.ROTL, wrap. split.
  - rewrite Z.shiftl_mul_pow2, Z.shiftr_div_pow2 by lia.
    replace (2 ^ 32) with (2 ^ (32 - n) * 2 ^ n)
      by (rewrite <- Z.pow_add_r by lia; f_equal; lia).
    assert (0 < 2 ^ n /\ 0 < 2 ^ (32 - n)) as [? ?] by (split; apply Z.pow_pos_nonneg; lia).
    rewrite Z.mul_mod_distr_r by lia. rewrite <- (Z.shiftl_mul_pow2 (_ mod _)) by lia.
    rewrite lor_shiftl_add, Z.shiftl_mul_pow2; [done|lia|lia|].
    split; [apply Z.div_pos; unfold uint_ok in Hx; lia|].
    apply Z.div_lt_upper_bound; [lia|]. rewrite <- Z.pow_add_r by lia.
    replace (32 - n + n) with 32 by lia. apply Hx.
  - apply uint_lor; [lia|apply (wrap_ok 32); lia|].
    apply uint_shiftr; (done || lia).
Qed.

Lemma round_f_fips i b c d : uint_ok 32 b -> round_f i b c d = Fips.f i b c d.
Proof.
  intros Hb. unfold round_f, Fips.f, Fips.Ch, Fips.Parity, Fips.Maj.
  destruct (i <? 20)%nat; [|destruct (i <? 40)%nat; [done|destruct (i <? 60)%nat; [|done]]].
  - replace (2 ^ 32 - 1 - b) with (u32 (Z.lnot b)).
    2: { unfold wrap, Z.lnot, uint_ok in *. rewrite <- Z.sub_1_r.
         rewrite <- (Z.mod_add _ 1) by lia. rewrite Z.mod_small; lia. }
    apply Z.bits_inj'. intros j Hj. rewrite Z.lor_spec, Z.lxor_spec, !Z.land_spec.
    unfold wrap. destruct (Z.lt_ge_cases j 32).
    + rewrite Z.mod_pow2_bits_low, Z.lnot_spec by lia. btauto.
    + rewrite Z.mod_pow2_bits_high, (uint_testbit_high 32 b) by (done || lia). btauto.
  - apply Z.bits_inj'. intros j Hj. rewrite !Z.lor_spec, !Z.lxor_spec, !Z.land_spec. btauto.
Qed.

Lemma byte_at_ok w l i : 0 <= w -> Forall (uint_ok w) l -> uint_ok w (byte_at l i).
Proof.
  intros Hw Hl. unfold byte_at. destruct (l !! i) eqn:E; simpl.
  - rewrite list.Forall_lookup in Hl. eauto.
  - split; [done|]. apply Z.pow_pos_nonneg; lia.
Qed.

Lemma byte_at_nth l i : byte_at l i = nth i l 0.
Proof. symmetry. apply nth_lookup. Qed.

Lemma load_word_fips msg off i : bytes_ok msg ->
  load_word msg off i = Fips.word msg off i /\ uint_ok 32 (load_word msg off i).
Proof.
  intros Hm. split; [|apply wrap_ok; lia]. unfold load_word, Fips.word. rewrite <- !byte_at_nth.
  pose proof (byte_at_ok 8 msg (off + i * 4) ltac:(lia) Hm).
  pose proof (byte_at_ok 8 msg (off + i * 4 + 1) ltac:(lia) Hm).
  pose proof (byte_at_ok 8 msg (off + i * 4 + 2) ltac:(lia) Hm).
  pose proof (byte_at_ok 8 msg (off + i * 4 + 3) ltac:(lia) Hm).
  unfold uint_ok in *.
  replace (Z.shiftl (byte_at msg (off + i * 4)) 24)
    with (Z.shiftl (Z.shiftl (Z.shiftl (byte_at msg (off + i * 4)) 8) 8) 8)
    by (rewrite !Z.shiftl_shiftl by lia; done).
  replace (Z.shiftl (byte_at msg (off + i * 4 + 1)) 16)
    with (Z.shiftl (Z.shiftl (byte_at msg (off + i * 4 + 1)) 8) 8)
    by (rewrite !Z.shiftl_shiftl by lia; done).
  rewrite <- !Z.shiftl_lor.
  rewrite !lor_shiftl_add by (unfold uint_ok; lia).
  rewrite wrap_small by (unfold uint_ok; lia). lia.
Qed.

Lemma schedule_fips msg off : bytes_ok msg ->
  schedule msg off = Fips.W msg off /\ Forall (uint_ok 32) (schedule msg off).
Proof.
  intros Hm. unfold schedule, Fips.W.
  assert (load_word msg off <$> seq 0 16 = Fips.word msg off <$> seq 0 16) as <-.
  { apply list_fmap_ext. intros ? i _. by apply load_word_fips. }
  apply (foldl_inv_eq (Forall (uint_ok 32))).
  - apply list.Forall_fmap, list.Forall_forall. intros i _. by apply load_word_fips.
  - intros w i Hw _. unfold extend_word, Fips.next_W. rewrite <- !byte_at_nth.
    destruct (rotl_ROTL 1 (Z.lxor (Z.lxor (Z.lxor (byte_at w (i - 3)) (byte_at w (i - 8)))
               (byte_at w (i - 14))) (byte_at w (i - 16)))) as [He Hok]; [lia| |].
    + auto 6 using byte_at_ok with capy lia.
    + rewrite He in *. split; [done|]. apply list.Forall_app. auto.
Qed.

Definition words_ok (v : words) : Prop :=
  uint_ok 32 (wa v) /\ uint_ok 32 (wb v) /\ uint_ok 32 (wc v) /\
  uint_ok 32 (wd v) /\ uint_ok 32 (we v).

(** The five words of the code as the standard's list. *)
Definition to_list (v : words) : list Z := [wa v; wb v; wc v; wd v; we v].

Lemma round_k_fips i : (i < 80)%nat -> round_k i = Fips.K i.
Proof.
  assert (forallb (fun i => round_k i =? Fips.K i) (seq 0 80) = true) as H by by vm_compute.
  rewrite forallb_forall in H. intros Hi. apply Z.eqb_eq, H, in_seq. lia.
Qed.

Lemma round_fips w v i : words_ok v -> (i < 80)%nat ->
  to_list (round w v i) = Fips.round w (to_list v) i /\ words_ok (round w v i).
Proof.
  intros (Ha & Hb & Hc & Hd & He) Hi. unfold round, Fips.round, to_list. simpl wa; simpl wb; simpl wc; simpl wd; simpl we.
  destruct (rotl_ROTL 5 (wa v) ltac:(lia) Ha) as [H5 _].
  destruct (rotl_ROTL 30 (wb v) ltac:(lia) Hb) as [H30 H30ok].
  rewrite H5, H30, round_f_fips, round_k_fips, byte_at_nth in * by done. split; [done|].
  unfold words_ok. simpl. split_and!; try done. apply wrap_ok. lia.
Qed.

Lemma add_words_ok h v : words_ok (add_words h v).
Proof. unfold words_ok, add_words. simpl. split_and!; apply wrap_ok; lia. Qed.

Lemma foldl_sim {A B C} (P : A -> Prop) (h : A -> B) (f : A -> C -> A) (g : B -> C -> B) l a :
  P a -> (forall a x, P a -> x ∈ l -> h (f a x) = g (h a) x /\ P (f a x)) ->
  h (foldl f a l) = foldl g (h a) l /\ P (foldl f a l).
Proof.
  revert a. induction l as [|x l IH]; intros a Ha Hf; [done|]. simpl.
  destruct (Hf a x Ha ltac:(left)) as [<- Hp]. apply IH; [done|]. intros a' y Ha' Hy. apply Hf; [done|by right].
Qed.

Lemma block_fips msg h off : bytes_ok msg -> words_ok h ->
  to_list (block msg h off) = Fips.block msg (to_list h) off /\ words_ok (block msg h off).
Proof.
  intros Hm Hh. unfold block, Fips.block. split; [|apply add_words_ok].
  destruct (schedule_fips msg off Hm) as [<- _].
  destruct (foldl_sim words_ok to_list (round (schedule msg off)) (Fips.round (schedule msg off)) (seq 0 80) h Hh) as [<- _].
  { intros v i Hv Hi%elem_of_seq. apply round_fips; [done|lia]. }
  generalize (foldl (round (schedule msg off)) h (seq 0 80)). intros v.
  unfold add_words, to_list, wrap. simpl. by rewrite (Z.add_comm (wa h)), (Z.add_comm (wb h)), (Z.add_comm (wc h)), (Z.add_comm (wd h)), (Z.add_comm (we h)).
Qed.

Lemma shiftr_byte x n : 0 <= n -> Z.land (Z.shiftr x (n * 8)) 255 = (x / 256 ^ n) mod 256.
Proof.
  intros. rewrite Z.shiftr_div_pow2 by lia. change 255 with (2 ^ 8 - 1).
  rewrite land_pow2_mask by lia. rewrite Z.mul_comm, Z.pow_mul_r by lia. done.
Qed.

Lemma digest_fips h : digest_of h = Fips.digest (to_list h).
Proof.
  assert (forall x, word_bytes x = Fips.be_bytes 4 x) as Hw.
  { intros x. unfold word_bytes. cbn [Fips.be_bytes].
    rewrite <- !shiftr_byte by lia. done. }
  unfold digest_of, Fips.digest, to_list. rewrite !Hw. simpl. done.
Qed.

Lemma be_bytes_ok n x : bytes_ok (Fips.be_bytes n x).
Proof. induction n; constructor; [|done]. apply (Z.mod_pos_bound _ 256). lia. Qed.

Lemma fips_pad_ok data : bytes_ok data -> bytes_ok (Fips.pad data).
Proof.
  intros Hd. unfold Fips.pad, bytes_ok. rewrite !list.Forall_app. split_and!.
  - done.
  - constructor; [unfold uint_ok; lia|constructor].
  - apply Forall_replicate. unfold uint_ok. lia.
  - apply be_bytes_ok.
Qed.

(** The eight writes of the length loop fill the last eight cells. *)
Lemma length_writes (l : list Z) (x : Z) n :
  n = (length l + 8)%nat ->
  foldl (fun m i => <[(n - 1 - i)%nat := Z.land (Z.shiftr x (Z.of_nat i * 8)) 0xFF]> m)
        (l ++ replicate 8 0) (seq 0 8) = l ++ Fips.be_bytes 8 x.
Proof.
  intros ->. cbn [seq foldl].
  replace (length l + 8 - 1 - 0)%nat with (length l + 7)%nat by lia.
  replace (length l + 8 - 1 - 1)%nat with (length l + 6)%nat by lia.
  replace (length l + 8 - 1 - 2)%nat with (length l + 5)%nat by lia.
  replace (length l + 8 - 1 - 3)%nat with (length l + 4)%nat by lia.
  replace (length l + 8 - 1 - 4)%nat with (length l + 3)%nat by lia.
  replace (length l + 8 - 1 - 5)%nat with (length l + 2)%nat by lia.
  replace (length l + 8 - 1 - 6)%nat with (length l + 1)%nat by lia.
  replace (length l + 8 - 1 - 7)%nat with (length l + 0)%nat by lia.
  rewrite !insert_app_r. f_equal. rewrite !shiftr_byte by lia. done.
Qed.

Lemma pad_fips data : Z.of_nat (length data) < 2 ^ 61 -> pad data = Fips.pad data.
Proof.
  intros Hl. unfold pad, Fips.pad, padded_len. cbv zeta.
  set (len := Z.of_nat (length data)) in *.
  rewrite !wrap_small by (unfold uint_ok; Z.div_mod_to_equations; lia).
  set (k := (55 - len) mod 64).
  assert (0 <= k < 64) as Hk by (apply Z.mod_pos_bound; lia).
  replace (((len + 8) / 64 + 1) * 64) with (len + 1 + k + 8)
    by (subst k; Z.div_mod_to_equations; lia).
  replace (Z.to_nat (len + 1 + k + 8) - length data)%nat with (1 + (Z.to_nat k + 8))%nat by lia.
  rewrite (replicate_add 1). replace (length data) with (length data + 0)%nat at 1 by lia.
  rewrite insert_app_r. cbn [replicate app insert list_insert].
  rewrite replicate_add, app_comm_cons, app_assoc.
  rewrite length_writes by (rewrite length_app; simpl; rewrite length_replicate; lia).
  rewrite <- app_assoc. simpl. by rewrite Z.mul_comm.
Qed.

End Sha1_fips.

(** ** Reference decoder for base64 (RFC 4648, section 4) *)
Module Decode64.

Definition unsym (c : Z) : option Z := (fun p => Z.of_nat p.1) <$> list_find (c =.) Base64.t.

Definition decode_group (c0 c1 c2 c3 : Z) : option (list Z) :=
  i0 ← unsym c0; i1 ← unsym c1;
  if (c2 =? 61) && (c3 =? 61) then Some [i0 * 4 + i1 / 16]
  else
    i2 ← unsym c2;
    if c3 =? 61 then Some [i0 * 4 + i1 / 16; i1 mod 16 * 16 + i2 / 4]
    else i3 ← unsym c3; Some [i0 * 4 + i1 / 16; i1 mod 16 * 16 + i2 / 4; i2 mod 4 * 64 + i3].

Fixpoint decode (s : list Z) : option (list Z) :=
  match s with
  | [] => Some []
  | c0 :: c1 :: c2 :: c3 :: s' =>
      g ← decode_group c0 c1 c2 c3; rest ← decode s'; Some (g ++ rest)
  | _ => None
  end.

Lemma unsym_sym i : 0 <= i < 64 -> unsym (Base64.sym i) = Some i /\ Base64.sym i <> 61.
Proof.
  intros Hi.
  assert (Forall (fun n => unsym (Base64.sym (Z.of_nat n)) = Some (Z.of_nat n) /\
                           Base64.sym (Z.of_nat n) <> 61) (seq 0 64)) as Hall.
  { assert (forallb (fun n => bool_decide (unsym (Base64.sym (Z.of_nat n)) = Some (Z.of_nat n)
              /\ Base64.sym (Z.of_nat n) <> 61)) (seq 0 64) = true) as Hc by (vm_compute; done).
    rewrite forallb_forall in Hc. apply List.Forall_forall. intros n Hn.
    specialize (Hc n Hn). by apply bool_decide_eq_true in Hc. }
  rewrite list.Forall_forall in Hall. specialize (Hall (Z.to_nat i)).
  rewrite Z2Nat.id in Hall by lia. apply Hall, elem_of_seq. lia.
Qed.

Lemma sixbits n k : 0 <= k -> Z.land (Z.shiftr n k) 0x3F = (n / 2 ^ k) mod 64.
Proof.
  intros. change 0x3F with (2 ^ 6 - 1). rewrite land_pow2_mask, Z.shiftr_div_pow2 by lia. done.
Qed.

Lemma sixbits0 n : Z.land n 0x3F = n mod 64.
Proof. rewrite <- (Z.shiftr_0_r n) at 1. rewrite sixbits, Z.div_1_r by lia. done. Qed.

Lemma group_value b0 b1 b2 : byte_ok b0 -> byte_ok b1 -> byte_ok b2 ->
  Z.lor (Z.lor (Z.shiftl b0 16) (Z.shiftl b1 8)) b2 = b0 * 65536 + b1 * 256 + b2.
Proof.
  intros H0 H1 H2. replace (Z.shiftl b0 16) with (Z.shiftl (Z.shiftl b0 8) 8)
    by (rewrite Z.shiftl_shiftl by lia; done).
  rewrite <- Z.shiftl_lor, !lor_shiftl_add by (done || lia). lia.
Qed.

(** Solves the three ways a group can end. *)
Ltac decode_group_tac :=
  unfold decode_group;
  repeat match goal with
  | |- context [unsym (Base64.sym ?e)] =>
      let H1 := fresh in let H2 := fresh in
      destruct (unsym_sym e ltac:(Z.div_mod_to_equations; lia)) as [H1 H2];
      rewrite H1; apply Z.eqb_neq in H2; rewrite ?H2; clear H1 H2; simpl
  end;
  rewrite ?andb_false_r; simpl;
  repeat f_equal; unfold uint_ok in *; Z.div_mod_to_equations; lia.

Lemma group_decodes b0 b1 b2 : byte_ok b0 -> from_option byte_ok True b1 ->
  from_option byte_ok True b2 -> (b1 = None -> b2 = None) ->
  exists c0 c1 c2 c3, Base64.encode_group b0 b1 b2 = [c0; c1; c2; c3] /\
    decode_group c0 c1 c2 c3 = Some (b0 :: option_list b1 ++ option_list b2).
Proof.
  intros H0 H1 H2 H12. unfold Base64.encode_group. do 4 eexists. split; [reflexivity|].
  assert (Z.lor (Z.lor (Z.shiftl b0 16) (from_option (fun b => Z.shiftl b 8) 0 b1)) (default 0 b2)
          = b0 * 65536 + default 0 b1 * 256 + default 0 b2) as ->.
  { rewrite <- group_value; [by destruct b1|done| |]; destruct b1, b2; try done; unfold uint_ok;
      simpl; lia. }
  rewrite !sixbits, ?sixbits0 by lia.
  destruct b1 as [b1|], b2 as [b2|]; simpl in *; unfold uint_ok in *.
  - decode_group_tac.
  - decode_group_tac.
  - specialize (H12 eq_refl). done.
  - decode_group_tac.
Qed.

End Decode64.

Lemma sha1_fips data :
  bytes_ok data -> Z.of_nat (length data) < 2 ^ 61 -> Sha1.sha1 data = Fips.sha1 data.
Proof.
  intros Hd Hl. unfold Sha1.sha1, Fips.sha1. cbv zeta. rewrite digest_fips, pad_fips by done. f_equal.
  change Fips.H0 with (to_list Sha1.H0). apply (foldl_sim words_ok).
  - unfold words_ok, uint_ok. simpl. lia.
  - intros h off Hh _. apply block_fips; [by apply fips_pad_ok|done].
Qed.

(** ** Properties *)

(** C36. [sha1] is the SHA-1 of FIPS 180-4 for every message that the standard gives a digest, of
    less than [2^61] bytes: the in-place padding, the bit-level rotations, the or-forms of the round
    functions and the constants give the digest the standard defines. The two messages of the
    standard's examples have the digests published with it. *)
Theorem sha1_is_fips data :
  bytes_ok data -> Z.of_nat (length data) < 2 ^ 61 -> Sha1.sha1 data = Fips.sha1 data /\
  Sha1.sha1 (bytes_of_string "abc") = Fips.be_bytes 20 0xa9993e364706816aba3e25717850c26c9cd0d89d /\
  Sha1.sha1 (bytes_of_string "abcdbcdecdefdefgefghfghighijhijkijkljklmklmnlmnomnopnopq") =
    Fips.be_bytes 20 0x84983e441c3bd26ebaae4aa1f95129e5e54670f1.
Proof. intros Hd Hl. split; [by apply sha1_fips|]. split; by vm_compute. Qed.

(** The digest is 20 bytes, whatever the message. *)
Lemma length_sha1 data : length (Sha1.sha1 data) = 20%nat.
Proof. unfold Sha1.sha1, Sha1.digest_of. cbv zeta. by rewrite !length_app. Qed.

Lemma sha1_bytes_ok data : bytes_ok (Sha1.sha1 data).
Proof.
  unfold Sha1.sha1. cbv zeta. rewrite digest_fips. unfold Fips.digest, bytes_ok, to_list. cbn [fmap list_fmap mjoin list_join].
  rewrite !list.Forall_app. split_and!; try apply be_bytes_ok. constructor.
Qed.

Lemma base64_spec d : bytes_ok d ->
  Decode64.decode (Base64.base64 d) = Some d /\
  length (Base64.base64 d) = (4 * ((length d + 2) / 3))%nat.
Proof.
  revert d. fix IH 1. intros [|b0 [|b1 [|b2 d]]] Hd; [done| | |].
  - apply list.Forall_cons in Hd as [H0 _].
    destruct (Decode64.group_decodes b0 None None) as (c0 & c1 & c2 & c3 & He & Hg); try done.
    cbn [Base64.base64]. rewrite He. split; [|done]. simpl. by rewrite Hg.
  - apply list.Forall_cons in Hd as [H0 [H1 _]%list.Forall_cons].
    destruct (Decode64.group_decodes b0 (Some b1) None) as (c0 & c1 & c2 & c3 & He & Hg); try done.
    cbn [Base64.base64]. rewrite He. split; [|done]. simpl. by rewrite Hg.
  - apply list.Forall_cons in Hd as [H0 [H1 [H2 Hd]%list.Forall_cons]%list.Forall_cons].
    destruct (Decode64.group_decodes b0 (Some b1) (Some b2)) as (c0 & c1 & c2 & c3 & He & Hg);
      try done.
    destruct (IH d Hd) as [IHd IHl]. cbn [Base64.base64]. rewrite He. split.
    + simpl. rewrite Hg. simpl. by rewrite IHd.
    + rewrite length_app, IHl. cbn [length].
      replace (S (S (S (length d))) + 2)%nat with (length d + 2 + 1 * 3)%nat by lia.
      rewrite Nat.div_add by lia. lia.
Qed.

(** [base64] round-trips: a decoder written from RFC 4648 gives back the bytes,
    and the text has four characters per started group of three bytes. *)
Theorem base64_roundtrip d :
  bytes_ok d ->
  Decode64.decode (Base64.base64 d) = Some d /\
  length (Base64.base64 d) = (4 * ((length d + 2) / 3))%nat.
Proof. apply base64_spec. Qed.

(** The accept key of a handshake is the base64 text, always 28 characters long,
    of the FIPS SHA-1 digest of the client's key followed by the protocol's GUID; the
    example of RFC 6455 gives the value quoted in src/ws.cc. *)
Theorem accept_key_correct key :
  bytes_ok key -> Z.of_nat (length key) < 2 ^ 59 ->
  Decode64.decode (compute_ws_accept_key key) = Some (Fips.sha1 (key ++ magic)) /\
  length (compute_ws_accept_key key) = 28%nat /\
  compute_ws_accept_key (bytes_of_string "dGhlIHNhbXBsZSBub25jZQ==")
    = bytes_of_string "s3pPLMBiTxaQ9kYGzzhZRbK+xOo=".
Proof.
  intros Hk Hl. unfold compute_ws_accept_key.
  destruct (base64_spec (Sha1.sha1 (key ++ magic)) (sha1_bytes_ok _)) as [Hd Hn].
  rewrite Hd, Hn, length_sha1. split_and!; [|done|vm_compute; done].
  f_equal. apply sha1_fips.
  - apply list.Forall_app. split; [done|]. by apply (bool_decide_unpack _); vm_compute.
  - rewrite length_app. change (length magic) with 36%nat. lia.
Qed.

(** Whether the position [l] exists and lies after [d]. *)
Definition after (l : option nat) (d : nat) : bool :=
  match l with Some l => (d <? l)%nat | None => false end.

Lemma after_last_sep a b d :
  after (if ptr_gt a b then a else b) d = after a d || after b d.
Proof.
  destruct a as [i|], b as [j|]; simpl; try done; [|by rewrite orb_false_r].
  destruct (Nat.ltb_spec j i); simpl; destruct (Nat.ltb_spec d i), (Nat.ltb_spec d j);
    simpl; (done || lia).
Qed.

Lemma after_strrchr s1 x s2 c :
  x <> c -> after (strrchr (s1 ++ x :: s2) c) (length s1) = bool_decide (c ∈ s2).
Proof.
  intros Hx. rewrite strrchr_app. simpl. destruct (strrchr s2 c) as [j|] eqn:E.
  - rewrite bool_decide_eq_true_2; [apply Nat.ltb_lt; lia|].
    apply strrchr_Some in E as (t1 & t2 & -> & _). set_solver.
  - rewrite bool_decide_eq_false_2 by (by apply strrchr_None).
    apply Z.eqb_neq in Hx. rewrite Hx. destruct (strrchr s1 c) as [i|] eqn:E1; [|done].
    apply strrchr_Some in E1 as (t1 & t2 & -> & <- & _). simpl. apply Nat.ltb_ge.
    rewrite length_app. simpl. lia.
Qed.

(** [get_file_extension] returns [e] exactly when the name is a non-empty stem, a
    dot and [e], with neither a dot nor a path separator in [e]. *)
Theorem file_extension_correct s e :
  get_file_extension (Some s) = Some e <->
  exists stem, s = stem ++ 46 :: e /\ stem <> [] /\ (46 ∉ e) /\ (47 ∉ e) /\ (92 ∉ e).
Proof.
  unfold get_file_extension. fold (after (if ptr_gt (strrchr s 47) (strrchr s 92)
    then strrchr s 47 else strrchr s 92)).
  destruct (strrchr s 46) as [d|] eqn:E.
  2: { split; [done|]. intros (stem & -> & _). apply strrchr_None in E. set_solver. }
  change (match ?l with Some l => (d <? l)%nat | None => false end) with (after l d).
  rewrite after_last_sep. apply strrchr_Some in E as (s1 & s2 & -> & <- & Hd).
  rewrite !after_strrchr by done.
  assert (drop (S (length s1)) (s1 ++ 46 :: s2) = s2) as Hdrop.
  { rewrite drop_app_ge by lia. by replace (S (length s1) - length s1)%nat with 1%nat by lia. }
  rewrite Hdrop. clear Hdrop. split.
  - repeat case_bool_decide; simpl; try done. destruct s1 as [|x s1]; simpl; [done|].
    intros [= <-]. by exists (x :: s1).
  - intros (stem & He & Hne & H46 & H47 & H92).
    assert (s1 = stem /\ s2 = e) as [-> ->].
    { assert (strrchr (s1 ++ 46 :: s2) 46 = Some (length s1)) as Ha by (apply strrchr_Some; eauto).
      assert (strrchr (s1 ++ 46 :: s2) 46 = Some (length stem)) as Hb
        by (rewrite He; apply strrchr_Some; eauto).
      apply app_inj_1 in He as [-> [= ->]]; [done|congruence]. }
    rewrite !bool_decide_eq_false_2 by done. simpl. by destruct stem.
Qed.

(** The rows of [get_content_type], as prefixes of the extension. *)
Definition content_type_of (e : list Z) : list Z :=
  if decide (bytes_of_string "js" `prefix_of` e) then bytes_of_string "text/javascript"
  else if decide (bytes_of_string "html" `prefix_of` e) then bytes_of_string "text/html"
  else if decide (bytes_of_string "ico" `prefix_of` e)
  then bytes_of_string "image/vnd.microsoft.icon"
  else if decide (bytes_of_string "css" `prefix_of` e) then bytes_of_string "text/css"
  else bytes_of_string "text/plaintext".

Lemma strncmp0_decide e lit n : (0 ∉ lit) -> n = length lit ->
  strncmp0 e lit n = bool_decide (lit `prefix_of` e).
Proof.
  intros Hl ->. destruct (strncmp0 e lit (length lit)) eqn:E; symmetry.
  - apply bool_decide_eq_true. by apply strncmp0_prefix.
  - apply bool_decide_eq_false. intros Hp. apply strncmp0_prefix in Hp; congruence.
Qed.

Lemma content_type_short e : exists ct, get_content_type (Some e) = Ret ct /\ (length ct <= 24)%nat.
Proof.
  unfold get_content_type. repeat case_match; eexists; (split; [reflexivity|vm_compute; lia]).
Qed.

(** The content type depends on a prefix of the extension only (so "json" is
    served as JavaScript), and the call is undefined for a file without extension. *)
Theorem content_type_correct :
  (forall e, get_content_type (Some e) = Ret (content_type_of e)) /\
  (forall f, get_file_extension f = None <-> get_content_type (get_file_extension f) = UB) /\
  get_content_type (get_file_extension (Some (bytes_of_string "data.json")))
    = Ret (bytes_of_string "text/javascript").
Proof.
  assert (forall e, get_content_type (Some e) = Ret (content_type_of e)) as Hct.
  { intros e. unfold get_content_type, content_type_of.
    rewrite (strncmp0_decide e (bytes_of_string "js")), (strncmp0_decide e (bytes_of_string "html")),
      (strncmp0_decide e (bytes_of_string "ico")), (strncmp0_decide e (bytes_of_string "css"))
      by (done || (vm_compute; set_solver)).
    repeat (case_decide; [rewrite bool_decide_eq_true_2 by done; done
                         |rewrite bool_decide_eq_false_2 by done]). done. }
  split_and!; [done| |done].
  intros f. destruct (get_file_extension f) as [e|]; [|done]. by rewrite Hct.
Qed.

(** ** Witnesses *)

Lemma sha1_is_fips_witness :
  Sha1.sha1 (bytes_of_string "capy") = Fips.sha1 (bytes_of_string "capy").
Proof.
  apply (sha1_is_fips (bytes_of_string "capy")).
  - by apply (bool_decide_unpack _); vm_compute.
  - simpl. lia.
Defined.

Lemma base64_roundtrip_witness :
  Decode64.decode (Base64.base64 [1; 2; 255; 7]) = Some [1; 2; 255; 7].
Proof.
  apply (base64_roundtrip [1; 2; 255; 7]). by apply (bool_decide_unpack _); vm_compute.
Defined.

Lemma accept_key_correct_witness :
  length (compute_ws_accept_key (bytes_of_string "x3JJHMbDL1EzLkh9GBhXDw==")) = 28%nat.
Proof.
  apply (accept_key_correct (bytes_of_string "x3JJHMbDL1EzLkh9GBhXDw==")).
  - by apply (bool_decide_unpack _); vm_compute.
  - simpl. lia.
Defined.
