(* ===== verification/Ws.v ===== *)
(** The WebSocket layer: the frame parser and encoder of src/ws.cc and the upgrade
    detection [parseWSUpgrade] of src/server.cc.

    [parseFrame] works on a [std::vector<char>] of exactly [len] bytes and unmasks the
    payload in place, so the model threads the buffer and stops with [UB] at the first
    access outside it. Pointers into the buffer are offsets. *)

From S2P Require Import Prelude CString Util.

(** [struct Frame]; [payload] is the offset of the payload in the buffer. *)
Record Frame := mkFrame { fin : bool; opcode : Z; payload : Z; len : Z }.

Definition get_byte (data : list Z) (i : Z) : outcome Z :=
  match data.[i] with Some b => Ret b | None => UB end.

(** The eight iterations [payload_len = (payload_len << 8) | data[2 + i]]. *)
Fixpoint read_len64 (data : list Z) (idx : list Z) (acc : Z) : outcome Z :=
  match idx with
  | [] => Ret acc
  | i :: idx' => b ← get_byte data (2 + i); read_len64 data idx' (Z.lor (u64 (Z.shiftl acc 8)) b)
  end.

(** [for (i = 0; i < payload_len; i++) frame.payload[i] ^= mask[i % 4]]. Each iteration
    touches a new cell of the buffer, so [fuel = length data + 1] iterations either end
    the loop or leave the buffer. *)
Fixpoint unmask_loop (fuel : nat) (data : list Z) (off mask_offset payload_len i : Z) :
    outcome (list Z) :=
  match fuel with
  | O => UB
  | S fuel' =>
      if i <? payload_len then
        b ← get_byte data (off + i);
        m ← get_byte data (mask_offset + i mod 4);
        match arr_set data (off + i) (Z.lxor b m) with
        | None => UB
        | Some data' => unmask_loop fuel' data' off mask_offset payload_len (i + 1)
        end
      else Ret data
  end.

(** The declared payload length and the offset after the length field; [None] is the
    early [return 0] for a truncated length. *)
Definition parse_len (data : list Z) (size : Z) (len7 : Z) : outcome (option (Z * Z)) :=
  if len7 =? 126 then
    if size <? 4 then Ret None
    else b2 ← get_byte data 2; b3 ← get_byte data 3;
         Ret (Some (Z.lor (Z.shiftl b2 8) b3, 4))
  else if len7 =? 127 then
    if size <? 10 then Ret None
    else n ← read_len64 data [0; 1; 2; 3; 4; 5; 6; 7] 0; Ret (Some (n, 10))
  else Ret (Some (len7, 2)).

(** [size_t parseFrame(const uint8_t *data, size_t len, Frame &frame)], with [size] for
    its [len]: the returned count, the frame and the buffer afterwards. *)
Definition parseFrame (data : list Z) (size : Z) (frame : Frame) :
    outcome (Z * Frame * list Z) :=
  if size <? 2 then Ret (0, frame, data)
  else
    d0 ← get_byte data 0;
    d1 ← get_byte data 1;
    let frame := mkFrame (negb (Z.land d0 0x80 =? 0)) (Z.land d0 0x0F)
                         (payload frame) (len frame) in
    let masked := negb (Z.land d1 0x80 =? 0) in
    hdr ← parse_len data size (Z.land d1 0x7F);
    match hdr with
    | None => Ret (0, frame, data)
    | Some (payload_len, offset) =>
        let mask_offset := offset in
        let offset := if masked then offset + 4 else offset in
        let total := u64 (offset + payload_len) in
        if size <? total then Ret (0, frame, data)
        else
          let frame := mkFrame (fin frame) (opcode frame) offset payload_len in
          if masked then
            data' ← unmask_loop (S (length data)) data offset mask_offset payload_len 0;
            Ret (total, frame, data')
          else Ret (total, frame, data)
    end.

(** The bytes [sendFrame] hands to [uv_write]. *)
Definition sendFrame (pl : list Z) (op : Z) : list Z :=
  let n := Z.of_nat (length pl) in
  [Z.lor 0x80 op] ++
  (if n <=? 125 then [u8 n]
   else if n <=? 65535 then [126; Z.land (Z.shiftr n 8) 0xFF; Z.land n 0xFF]
   else 127 :: ((fun i => Z.land (Z.shiftr n (i * 8)) 0xFF) <$> [7; 6; 5; 4; 3; 2; 1; 0]))
  ++ pl.

(** [WebSocket::send_frame]: the payload is a C string, the opcode is 1 (text). *)
Definition send_frame (frame_payload : list Z) : list Z := sendFrame (cstr frame_payload) 1.

(** The [std::string] built from [f.payload] and [f.len]: the bytes must lie in the
    buffer. *)
Definition frame_data (f : Frame) (data : list Z) : outcome (list Z) :=
  if payload f + len f <=? Z.of_nat (length data)
  then Ret (take (Z.to_nat (len f)) (drop (Z.to_nat (payload f)) data))
  else UB.

(** [WebSocket::onMessage]: the bytes consumed (0 for "need more data") and the string
    given to the JavaScript [onMessage] property when it [is_function]; the text is
    rebuilt from [c_str()], so it ends at its first NUL. [buf_len] and the result are
    [int]s, the length [parseFrame] takes and returns is a [size_t]. *)
Definition onMessage (is_function : bool) (buffer : list Z) (buf_len : Z) :
    outcome (Z * option (list Z)) :=
  '(op, f, data) ← parseFrame buffer (u64 buf_len) (mkFrame false 0 0 0);
  if op =? 0 then Ret (0, None)
  else if is_function && (opcode f =? 1) then
    text ← frame_data f data; Ret (s32 op, Some (cstr text))
  else Ret (s32 op, None).

(** The text [complete_protocol_upgrade_handshake] writes. *)
Definition handshake_response (exchange_key : list Z) : list Z :=
  let crlf := [13; 10] in
  bytes_of_string "HTTP/1.1 101 Switching Protocols" ++ crlf ++
  bytes_of_string "Upgrade: websocket" ++ crlf ++
  bytes_of_string "Connection: Upgrade" ++ crlf ++
  bytes_of_string "Sec-WebSocket-Accept: " ++ exchange_key ++ crlf ++ crlf.

(** ** Upgrade detection *)

Record WSUpgradeInfo := mkInfo {
  isUpgrade : bool; key : list Z; version : list Z; protocol : list Z }.

(** The locals of the loop: [hasUpgrade], [hasConnection] and [info]. *)
Record upgrade_scan := mkScan { hasUpgrade : bool; hasConnection : bool; info : WSUpgradeInfo }.

(** [name.size() == n && strncasecmp(name.c_str(), lit, n) == 0]. *)
Definition name_is (name : list Z) (lit : list Z) : bool :=
  (length name =? length lit)%nat && strncasecmp0 (cstr name) lit (length lit).

Definition scan_header (s : upgrade_scan) (h : list Z * list Z) : upgrade_scan :=
  let '(name, value) := h in
  let i := info s in
  if name_is name (bytes_of_string "Upgrade") then
    mkScan (strncasecmp0 (cstr value) (bytes_of_string "websocket") 9) (hasConnection s) i
  else if name_is name (bytes_of_string "Connection") then
    mkScan (hasUpgrade s) (strcasestr (cstr value) (bytes_of_string "upgrade")) i
  else if name_is name (bytes_of_string "Sec-WebSocket-Key") then
    mkScan (hasUpgrade s) (hasConnection s) (mkInfo (isUpgrade i) value (version i) (protocol i))
  else if name_is name (bytes_of_string "Sec-WebSocket-Version") then
    mkScan (hasUpgrade s) (hasConnection s) (mkInfo (isUpgrade i) (key i) value (protocol i))
  else if name_is name (bytes_of_string "Sec-WebSocket-Protocol") then
    mkScan (hasUpgrade s) (hasConnection s) (mkInfo (isUpgrade i) (key i) (version i) value)
  else s.

Definition parseWSUpgrade (headers : list (list Z * list Z)) : WSUpgradeInfo :=
  let s := foldl scan_header (mkScan false false (mkInfo false [] [] [])) headers in
  let i := info s in
  mkInfo (hasUpgrade s && hasConnection s && negb (bool_decide (key i = [])))
         (key i) (version i) (protocol i).

(** ** Reference: frames as RFC 6455, section 5.2, lays them out *)

(** [payload[i] ^ key[i mod 4]], starting at index [i]. *)
Fixpoint mask_from (key : list Z) (i : nat) (l : list Z) : list Z :=
  match l with
  | [] => []
  | b :: l' => Z.lxor b (Sha1.byte_at key (i mod 4)) :: mask_from key (S i) l'
  end.

Definition len_field (masked : bool) (n : Z) : list Z :=
  let m := if masked then 128 else 0 in
  if n <? 126 then [m + n]
  else if n <? 65536 then (m + 126) :: Fips.be_bytes 2 n
  else (m + 127) :: Fips.be_bytes 8 n.

(** The frame of a peer; clients pass a masking key, servers none. *)
Definition wire_header (fin : bool) (op : Z) (key : option (list Z)) (n : Z) : list Z :=
  ((if fin then 128 else 0) + op) :: len_field (bool_decide (is_Some key)) n
    ++ default [] key.

Definition wire_payload (key : option (list Z)) (pl : list Z) : list Z :=
  from_option (fun k => mask_from k 0 pl) pl key.

Definition wire_frame (fin : bool) (op : Z) (key : option (list Z)) (pl : list Z) : list Z :=
  wire_header fin op key (Z.of_nat (length pl)) ++ wire_payload key pl.

(** The length field of a buffer, read from the list: length and offset after it. *)
Definition be_value (l : list Z) : Z := foldl (fun a b => a * 256 + b) 0 l.

Definition decode_len (data : list Z) : option (Z * Z) :=
  match data with
  | _ :: d1 :: rest =>
      if d1 mod 128 =? 126 then
        if (length rest <? 2)%nat then None else Some (be_value (take 2 rest), 4)
      else if d1 mod 128 =? 127 then
        if (length rest <? 8)%nat then None else Some (be_value (take 8 rest), 10)
      else Some (d1 mod 128, 2)
  | _ => None
  end.

(** Whether the header asks for unmasking, and the number of bytes it announces for the
    whole frame, as a number that does not wrap. *)
Definition is_masked (data : list Z) : bool :=
  match data with _ :: d1 :: _ => 128 <=? d1 | _ => false end.

Definition declared_end (data : list Z) : option Z :=
  '(n, o) ← decode_len data; Some (o + (if is_masked data then 4 else 0) + n).

(** The value of the last header with the given name, names compared without case. *)
Definition header_value (lit : list Z) (headers : list (list Z * list Z)) : option (list Z) :=
  snd <$> list.last (filter (fun h => tolower <$> h.1 = tolower <$> lit) headers).

(** ** Lemmas *)

Lemma byte_bits d : byte_ok d ->
  negb (Z.land d 0x80 =? 0) = (128 <=? d) /\ Z.land d 0x7F = d mod 128 /\
  Z.land d 0x0F = d mod 16.
Proof.
  intros Hd. split_and!.
  - assert (forallb (fun n => eqb (negb (Z.land (Z.of_nat n) 0x80 =? 0)) (128 <=? Z.of_nat n))
      (seq 0 256) = true) as Hc by (vm_compute; done).
    rewrite forallb_forall in Hc. specialize (Hc (Z.to_nat d)).
    unfold uint_ok in Hd. rewrite Z2Nat.id in Hc by lia.
    apply eqb_prop, Hc, in_seq. lia.
  - change 0x7F with (2 ^ 7 - 1). by rewrite land_pow2_mask by lia.
  - change 0x0F with (2 ^ 4 - 1). by rewrite land_pow2_mask by lia.
Qed.

Lemma get_byte_nat data (i : nat) b : data !! i = Some b -> get_byte data (Z.of_nat i) = Ret b.
Proof. intros Hb. unfold get_byte. by rewrite arr_get_nat, Hb. Qed.

Lemma lor_byte_step acc b : 0 <= acc -> byte_ok b -> acc * 256 + b < 2 ^ 64 ->
  Z.lor (u64 (Z.shiftl acc 8)) b = acc * 256 + b.
Proof.
  intros Ha Hb Hlt. unfold uint_ok in Hb.
  rewrite wrap_small by (rewrite Z.shiftl_mul_pow2 by lia; unfold uint_ok; lia).
  by rewrite lor_shiftl_add by (unfold uint_ok; lia).
Qed.

Lemma be_value_bound l acc k : bytes_ok l -> 0 <= acc < 256 ^ k -> 0 <= k ->
  0 <= foldl (fun a b => a * 256 + b) acc l < 256 ^ (k + Z.of_nat (length l)).
Proof.
  revert acc k. induction l as [|b l IH]; intros acc k Hl Ha Hk; simpl.
  - by rewrite Z.add_0_r.
  - apply list.Forall_cons in Hl as [Hb Hl]. unfold uint_ok in Hb.
    replace (k + Z.of_nat (S (length l))) with (k + 1 + Z.of_nat (length l)) by lia.
    apply IH; [done| |lia]. rewrite Z.pow_add_r by lia. lia.
Qed.

(** Reads one byte of a buffer whose first cells are known. *)
Ltac read_byte :=
  match goal with
  | |- mbind _ (get_byte ?d ?i) = _ =>
      let k := eval vm_compute in (Z.to_nat i) in
      rewrite (get_byte_nat d k _ eq_refl : get_byte d i = _); simpl mbind
  end.

Lemma parse_len_decode data d0 d1 rest :
  data = d0 :: d1 :: rest -> bytes_ok data ->
  parse_len data (Z.of_nat (length data)) (d1 mod 128) = Ret (decode_len data).
Proof.
  intros -> Hb. unfold parse_len, decode_len.
  apply list.Forall_cons in Hb as [_ [_ Hb]%list.Forall_cons].
  destruct (d1 mod 128 =? 126) eqn:E126; [|destruct (d1 mod 128 =? 127) eqn:E127; [|done]].
  - destruct rest as [|b2 [|b3 rest]]; [done|done|].
    apply list.Forall_cons in Hb as [H2 [H3 _]%list.Forall_cons].
    bool_case; reflect_bools; [simpl in *; lia|].
    do 2 read_byte. rewrite lor_shiftl_add by (done || lia). done.
  - do 8 (destruct rest as [|? rest]; [done|]).
    repeat (apply list.Forall_cons in Hb as [? Hb]). unfold uint_ok in *.
    bool_case; reflect_bools; [simpl in *; lia|].
    match goal with |- mbind _ (read_len64 ?d ?l 0) = _ =>
      enough (read_len64 d l 0 = Ret (be_value [z; z0; z1; z2; z3; z4; z5; z6])) as -> by done
    end.
    cbn [read_len64]. do 8 (read_byte; rewrite lor_byte_step by (unfold uint_ok; lia)). done.
Qed.

Lemma decode_len_bound data n off : bytes_ok data -> decode_len data = Some (n, off) ->
  0 <= n < 2 ^ 64 /\ 2 <= off <= 10 /\ off <= Z.of_nat (length data) /\
  (n <= 65535 \/ off = 10).
Proof.
  intros Hb. destruct data as [|d0 [|d1 rest]]; [done|done|]. simpl.
  apply list.Forall_cons in Hb as [_ [Hd Hb]%list.Forall_cons].
  assert (forall k, 0 <= be_value (take k rest) < 256 ^ Z.of_nat (length (take k rest))) as Hv.
  { intros k. apply (be_value_bound _ 0 0); [by apply Forall_take|lia|lia]. }
  assert (forall k, (k <= length rest)%nat -> length (take k rest) = k) as Hlen
    by (intros; rewrite length_take; lia).
  repeat bool_case; intros [= <- <-]; repeat match goal with
    | H : (_ <? _)%nat = false |- _ => apply Nat.ltb_ge in H end.
  - specialize (Hv 2%nat). rewrite Hlen in Hv by done. simpl in Hv. lia.
  - specialize (Hv 8%nat). rewrite Hlen in Hv by done. simpl in Hv. lia.
  - pose proof (Z.mod_pos_bound d1 128). lia.
Qed.

(** The loop unmasks the cells from [i] on and leaves the others alone. *)
Lemma unmask_loop_spec fuel key pre don todo rest moff :
  (length todo < fuel)%nat -> length key = 4%nat -> 0 <= moff ->
  (forall j, (j < 4)%nat -> pre !! (Z.to_nat moff + j)%nat = key !! j) ->
  unmask_loop fuel (pre ++ don ++ todo ++ rest) (Z.of_nat (length pre)) moff
    (Z.of_nat (length don + length todo)) (Z.of_nat (length don))
  = Ret (pre ++ don ++ mask_from key (length don) todo ++ rest).
Proof.
  intros Hf Hk Hm Hkey. revert don todo Hf. induction fuel as [|fuel IH]; intros don todo Hf; [lia|].
  simpl. destruct todo as [|b todo]; simpl.
  { bool_case; reflect_bools; [simpl in *; lia|done]. }
  bool_case; reflect_bools; [|simpl in *; lia].
  replace (Z.of_nat (length pre) + Z.of_nat (length don))
    with (Z.of_nat (length pre + length don)) by lia.
  rewrite (get_byte_nat _ (length pre + length don) b).
  2: { rewrite lookup_app_r by lia. apply list_lookup_middle. lia. }
  simpl mbind. set (j := (length don mod 4)%nat).
  assert (j < 4)%nat as Hj by (apply Nat.mod_upper_bound; lia).
  destruct (lookup_lt_is_Some_2 key j) as [m Hmk]; [lia|].
  replace (moff + Z.of_nat (length don) mod 4) with (Z.of_nat (Z.to_nat moff + j)).
  2: { rewrite Nat2Z.inj_add, Z2Nat.id by done. subst j. by rewrite Nat2Z.inj_mod. }
  rewrite (get_byte_nat _ _ m).
  2: { apply lookup_app_l_Some. by rewrite Hkey. }
  simpl mbind. rewrite arr_set_nat by (rewrite !length_app; simpl; lia).
  rewrite insert_app_r. replace (length don) with (length don + 0)%nat at 1 by lia.
  rewrite insert_app_r. simpl.
  specialize (IH (don ++ [Z.lxor b m]) todo ltac:(simpl in Hf; lia)).
  rewrite length_app in IH. simpl length in IH. rewrite <- !app_assoc in IH. simpl in IH.
  replace (Z.of_nat (length don + S (length todo))) with (Z.of_nat (length don + 1 + length todo)) by lia.
  replace (Z.of_nat (length don) + 1) with (Z.of_nat (length don + 1)) by lia.
  rewrite IH. change (3 - (Nat.divmod (length don) 3 0 3).2)%nat with j.
  unfold Sha1.byte_at. rewrite Hmk. simpl. by rewrite Nat.add_1_r.
Qed.

(** Past the end of the buffer the loop leaves it. *)
Lemma unmask_loop_overrun fuel data off moff n i :
  0 <= off -> 0 <= moff -> 0 <= i -> Z.of_nat (length data) < off + n ->
  unmask_loop fuel data off moff n i = UB \/ n <= i.
Proof.
  intros Ho Hm Hi Hn. revert data i Hi Hn. induction fuel as [|fuel IH]; intros data i Hi Hn;
    [by left|]. simpl. bool_case; reflect_bools; [left|by right].
  unfold get_byte. destruct (data.[off + i]) as [b|] eqn:E; [|done]. simpl.
  destruct (data.[moff + i mod 4]) as [m|] eqn:Em; [|done]. simpl.
  apply arr_get_Some in E as [_ E]. apply lookup_lt_Some in E as Hlt.
  replace (off + i) with (Z.of_nat (Z.to_nat (off + i))) by lia. rewrite arr_set_nat by done.
  destruct (IH (<[Z.to_nat (off + i) := Z.lxor b m]> data) (i + 1)) as [?|?]; [lia| |done|].
  - by rewrite length_insert.
  - exfalso. assert (i = n - 1) by lia. subst. lia.
Qed.

(** [parseFrame] on a whole buffer, with its length field decoded. *)
Lemma parseFrame_eq data d0 d1 rest f : data = d0 :: d1 :: rest -> bytes_ok data ->
  parseFrame data (Z.of_nat (length data)) f =
  let skip := Ret (0, mkFrame (128 <=? d0) (d0 mod 16) (payload f) (len f), data) in
  match decode_len data with
  | None => skip
  | Some (n, o) =>
      let off := if 128 <=? d1 then o + 4 else o in
      if Z.of_nat (length data) <? u64 (off + n) then skip
      else data' ← (if 128 <=? d1 then unmask_loop (S (length data)) data off o n 0 else Ret data);
           Ret (u64 (off + n), mkFrame (128 <=? d0) (d0 mod 16) off n, data')
  end.
Proof.
  intros Hd Hb. pose proof (parse_len_decode _ _ _ _ Hd Hb) as Hp.
  assert (byte_ok d0 /\ byte_ok d1) as [H0 H1].
  { subst. by apply list.Forall_cons in Hb as [? [? _]%list.Forall_cons]. }
  destruct (byte_bits d0 H0) as (B0 & _ & B1), (byte_bits d1 H1) as (B2 & B3 & _).
  unfold parseFrame. bool_case; reflect_bools; [subst; simpl in *; lia|].
  rewrite (get_byte_nat data 0 d0 ltac:(by rewrite Hd) : get_byte data 0 = _). simpl mbind.
  rewrite (get_byte_nat data 1 d1 ltac:(by rewrite Hd) : get_byte data 1 = _). simpl mbind.
  rewrite B0, B1, B2, B3, Hp. simpl. destruct (decode_len data) as [[n o]|]; [|done].
  bool_case; [done|]. by destruct (128 <=? d1).
Qed.

Lemma be_value_be_bytes k n acc :
  foldl (fun a b => a * 256 + b) acc (Fips.be_bytes k n)
  = acc * 256 ^ Z.of_nat k + n mod 256 ^ Z.of_nat k.
Proof.
  revert acc. induction k as [|k IH]; intros acc; [simpl; rewrite Z.mod_1_r; lia|].
  cbn [Fips.be_bytes foldl]. rewrite IH.
  replace (256 ^ Z.of_nat (S k)) with (256 ^ Z.of_nat k * 256)
    by (rewrite Nat2Z.inj_succ, Z.pow_succ_r by lia; lia).
  rewrite Z.rem_mul_r by lia. ring.
Qed.

Definition key_ok (key : option (list Z)) : Prop :=
  from_option (fun k => length k = 4%nat /\ bytes_ok k) True key.

(** The length before the masking key. *)
Definition hdr_len (n : Z) : Z := if n <? 126 then 2 else if n <? 65536 then 4 else 10.

Lemma wire_header_eq fin op key n : 0 <= op < 16 -> 0 <= n < 2 ^ 64 ->
  exists d0 d1 ext,
    wire_header fin op key n = d0 :: d1 :: ext ++ default [] key /\
    (128 <=? d0) = fin /\ d0 mod 16 = op /\ byte_ok d0 /\
    (128 <=? d1) = bool_decide (is_Some key) /\ byte_ok d1 /\ bytes_ok ext /\
    Z.of_nat (length ext) = hdr_len n - 2 /\
    (forall rest, decode_len (d0 :: d1 :: ext ++ rest) = Some (n, hdr_len n)).
Proof.
  intros Ho Hn. unfold wire_header, len_field, hdr_len.
  set (m := if bool_decide (is_Some key) then 128 else 0).
  assert (forall v, 0 <= v < 128 -> (128 <=? m + v) = bool_decide (is_Some key) /\
    byte_ok (m + v) /\ (m + v) mod 128 = v) as Hm.
  { intros v Hv. unfold uint_ok. subst m. destruct (bool_decide (is_Some key)).
    - split_and!; [apply Z.leb_le; lia|lia|lia|].
      symmetry. apply (Z.mod_unique _ _ 1); lia.
    - split_and!; [apply Z.leb_gt; lia|lia|lia|]. by rewrite Z.mod_small by lia. }
  assert ((128 <=? (if fin then 128 else 0) + op) = fin /\
    ((if fin then 128 else 0) + op) mod 16 = op /\ byte_ok ((if fin then 128 else 0) + op))
    as (F1 & F2 & F3).
  { unfold uint_ok. destruct fin; split_and!; try lia.
    - symmetry. apply (Z.mod_unique _ _ 8); lia.
    - by apply Z.mod_small. }
  destruct (n <? 126) eqn:?; [|destruct (n <? 65536) eqn:?]; reflect_bools.
  - destruct (Hm n ltac:(lia)) as (M1 & M2 & M3).
    eexists _, _, []. split_and!; try done; [constructor|]. intros rest. simpl. rewrite M3.
    rewrite !(proj2 (Z.eqb_neq _ _)) by lia. done.
  - destruct (Hm 126 ltac:(lia)) as (M1 & M2 & M3).
    eexists _, _, (Fips.be_bytes 2 n). split_and!; try done; [apply be_bytes_ok|].
    intros rest. cbn [decode_len]. rewrite M3. simpl Z.eqb.
    simpl Nat.ltb. rewrite (take_app_length' _ _ 2) by done. unfold be_value.
    rewrite be_value_be_bytes, Z.mod_small by lia. repeat f_equal; lia.
  - destruct (Hm 127 ltac:(lia)) as (M1 & M2 & M3).
    eexists _, _, (Fips.be_bytes 8 n). split_and!; try done; [apply be_bytes_ok|].
    intros rest. cbn [decode_len]. rewrite M3. simpl Z.eqb.
    simpl Nat.ltb. rewrite (take_app_length' _ _ 8) by done. unfold be_value.
    rewrite be_value_be_bytes, Z.mod_small by lia. repeat f_equal; lia.
Qed.

Lemma length_mask_from key i l : length (mask_from key i l) = length l.
Proof. revert i. induction l; intros; simpl; f_equal; auto. Qed.

Lemma mask_from_involutive key i l : mask_from key i (mask_from key i l) = l.
Proof.
  revert i. induction l as [|b l IH]; intros i; simpl; [done|].
  by rewrite IH, Z.lxor_assoc, Z.lxor_nilpotent, Z.lxor_0_r.
Qed.

Lemma mask_from_ok key i l : bytes_ok key -> bytes_ok l -> bytes_ok (mask_from key i l).
Proof.
  intros Hk Hl. revert i. induction Hl as [|b l Hb Hl IH]; intros i; cbn [mask_from];
    constructor; [|apply IH].
  apply uint_lxor; [lia|done|]. unfold Sha1.byte_at.
  destruct (key !! (i mod 4)%nat) as [m|] eqn:E; simpl; [|unfold uint_ok; lia].
  by apply (list.Forall_lookup_1 _ _ _ _ Hk) in E.
Qed.

Lemma length_wire_payload key pl : length (wire_payload key pl) = length pl.
Proof. destruct key; [apply length_mask_from|done]. Qed.

Lemma wire_payload_ok key pl : key_ok key -> bytes_ok pl -> bytes_ok (wire_payload key pl).
Proof. destruct key; simpl; [intros [_ ?] ?; by apply mask_from_ok|done]. Qed.

Lemma length_key key : key_ok key ->
  Z.of_nat (length (default [] key)) = if bool_decide (is_Some key) then 4 else 0.
Proof. destruct key; simpl; [by intros [-> _]|done]. Qed.

Lemma length_wire_header fin op key n : key_ok key -> 0 <= op < 16 -> 0 <= n < 2 ^ 64 ->
  Z.of_nat (length (wire_header fin op key n))
  = hdr_len n + if bool_decide (is_Some key) then 4 else 0.
Proof.
  intros Hk Ho Hn. destruct (wire_header_eq fin op key n Ho Hn)
    as (d0 & d1 & ext & -> & _ & _ & _ & _ & _ & _ & Hl & _).
  pose proof (length_key _ Hk). simpl. rewrite length_app. lia.
Qed.

Lemma hdr_len_bound n : 2 <= hdr_len n <= 10.
Proof. unfold hdr_len. repeat bool_case; lia. Qed.

Lemma wire_header_ok fin op key n : key_ok key -> 0 <= op < 16 -> 0 <= n < 2 ^ 64 ->
  bytes_ok (wire_header fin op key n).
Proof.
  intros Hk Ho Hn. destruct (wire_header_eq fin op key n Ho Hn)
    as (d0 & d1 & ext & -> & _ & _ & ? & _ & ? & ? & _).
  do 2 (constructor; [done|]). apply list.Forall_app. split; [done|].
  destruct key; simpl in *; [by destruct Hk|constructor].
Qed.

Lemma wire_frame_ok fin op key pl : key_ok key -> 0 <= op < 16 ->
  Z.of_nat (length pl) < 2 ^ 64 -> bytes_ok pl -> bytes_ok (wire_frame fin op key pl).
Proof.
  intros. apply list.Forall_app. split; [apply wire_header_ok|apply wire_payload_ok]; done || lia.
Qed.

(** What [parseFrame] decides from a header whose frame does not wrap [total]. *)
Lemma parse_wire fin op key pl rest f :
  key_ok key -> 0 <= op < 16 -> bytes_ok pl -> bytes_ok rest ->
  Z.of_nat (length pl) + 14 < 2 ^ 64 ->
  let hdr := wire_header fin op key (Z.of_nat (length pl)) in
  let data := wire_frame fin op key pl ++ rest in
  parseFrame data (Z.of_nat (length data)) f
  = Ret (Z.of_nat (length (wire_frame fin op key pl)),
         mkFrame fin op (Z.of_nat (length hdr)) (Z.of_nat (length pl)), hdr ++ pl ++ rest).
Proof.
  intros Hk Ho Hp Hr Hn hdr data.
  assert (bytes_ok data) as Hd by (apply list.Forall_app; split; [apply wire_frame_ok|]; done || lia).
  pose proof (length_wire_header fin op key (Z.of_nat (length pl)) Hk Ho ltac:(lia)) as Hh.
  pose proof (hdr_len_bound (Z.of_nat (length pl))) as Hhb.
  assert (Z.of_nat (length (wire_frame fin op key pl)) =
    Z.of_nat (length hdr) + Z.of_nat (length pl)) as Hw.
  { unfold wire_frame. rewrite length_app, length_wire_payload. subst hdr. lia. }
  destruct (wire_header_eq fin op key (Z.of_nat (length pl)) Ho ltac:(lia))
    as (d0 & d1 & ext & He & F1 & F2 & _ & M1 & _ & _ & Hl & Hdec).
  assert (data = d0 :: d1 :: ext ++ default [] key ++ wire_payload key pl ++ rest) as Hdata.
  { subst data. unfold wire_frame. rewrite He. simpl. by rewrite <- !app_assoc. }
  rewrite (parseFrame_eq data d0 d1 _ f Hdata Hd).
  assert (decode_len data = Some (Z.of_nat (length pl), hdr_len (Z.of_nat (length pl)))) as ->
    by (rewrite Hdata; apply Hdec).
  rewrite F1, F2, M1.
  cbv zeta. set (n := Z.of_nat (length pl)) in *.
  replace (if bool_decide (is_Some key) then hdr_len n + 4 else hdr_len n)
    with (Z.of_nat (length hdr)) by (subst hdr; destruct (bool_decide (is_Some key)); lia).
  rewrite wrap_small by (unfold uint_ok; subst hdr; destruct (bool_decide (is_Some key)); lia).
  rewrite <- Hw. bool_case; reflect_bools.
  { subst data. rewrite length_app in *. lia. }
  destruct key as [k|].
  - destruct Hk as [Hk4 _]. change (bool_decide (is_Some (Some k))) with true. cbv iota.
    assert (data = hdr ++ [] ++ mask_from k 0 pl ++ rest) as Hdata'
      by (subst data hdr; unfold wire_frame; by rewrite <- app_assoc).
    pose proof (unmask_loop_spec (S (length data)) k hdr [] (mask_from k 0 pl) rest (hdr_len n))
      as Hu.
    rewrite <- Hdata', length_mask_from, mask_from_involutive in Hu.
    change (Z.of_nat (length (@nil Z))) with 0 in Hu.
    change (length (@nil Z) + length pl)%nat with (length pl) in Hu.
    fold n in Hu. rewrite Hu; [done|..].
    + rewrite Hdata', !length_app, length_mask_from. simpl. lia.
    + done.
    + lia.
    + intros j Hj. subst hdr. rewrite He. simpl default.
      replace (Z.to_nat (hdr_len n) + j)%nat with (S (S (length ext + j))) by lia. simpl.
      rewrite lookup_app_r by lia. f_equal. lia.
  - subst data hdr. unfold wire_frame. by rewrite <- app_assoc.
Qed.

Lemma declared_end_inv data e : declared_end data = Some e ->
  exists d0 d1 rest n o, data = d0 :: d1 :: rest /\ decode_len data = Some (n, o) /\
    is_masked data = (128 <=? d1) /\ e = o + (if 128 <=? d1 then 4 else 0) + n.
Proof.
  unfold declared_end. destruct (decode_len data) as [[n o]|] eqn:E; [|done].
  destruct data as [|d0 [|d1 rest]]; [done|done|]. intros [= <-].
  exists d0, d1, rest, n, o. done.
Qed.

(** Unmasking a payload that lies in the buffer. *)
Lemma unmask_loop_in data o n :
  0 <= o -> 0 <= n -> o + 4 + n <= Z.of_nat (length data) ->
  exists data', unmask_loop (S (length data)) data (o + 4) o n 0 = Ret data' /\
    length data' = length data.
Proof.
  intros Ho Hn Hl.
  set (pre := take (Z.to_nat (o + 4)) data). set (tl := drop (Z.to_nat (o + 4)) data).
  set (todo := take (Z.to_nat n) tl). set (rest := drop (Z.to_nat n) tl).
  set (k := take 4 (drop (Z.to_nat o) data)).
  assert (data = pre ++ [] ++ todo ++ rest) as Hd.
  { subst pre todo rest tl. simpl. by rewrite !take_drop. }
  assert (length pre = Z.to_nat (o + 4)) as Hp by (subst pre; rewrite length_take; lia).
  assert (length todo = Z.to_nat n) as Ht
    by (subst todo tl; rewrite length_take, length_drop; lia).
  exists (pre ++ [] ++ mask_from k 0 todo ++ rest). split.
  - pose proof (unmask_loop_spec (S (length data)) k pre [] todo rest o) as Hu.
    rewrite <- Hd, Hp, Ht in Hu. change (length []) with 0%nat in Hu.
    rewrite Nat.add_0_l, !Z2Nat.id in Hu by lia.
    apply Hu; [lia| |done|].
    + subst k. rewrite length_take, length_drop. lia.
    + intros j Hj. subst pre k. rewrite !lookup_take_lt by lia. by rewrite lookup_drop.
  - transitivity (length (pre ++ [] ++ todo ++ rest)); [|by rewrite <- Hd].
    by rewrite !length_app, length_mask_from.
Qed.

Lemma decode_len_app p q r : decode_len p = Some r -> decode_len (p ++ q) = Some r.
Proof.
  destruct p as [|d0 [|d1 p]]; [done|done|]. cbn [decode_len app].
  rewrite length_app.
  repeat (bool_case; try done); repeat match goal with
    | H : (_ <? _)%nat = _ |- _ => apply Nat.ltb_ge in H || apply Nat.ltb_lt in H end;
    try lia; intros [= <-]; by rewrite take_app_le by done.
Qed.

Lemma sendFrame_wire pl op : 0 <= op < 16 -> Z.of_nat (length pl) < 2 ^ 64 ->
  sendFrame pl op = wire_frame true op None pl.
Proof.
  intros Ho Hn. unfold sendFrame, wire_frame, wire_header, len_field.
  change (bool_decide (is_Some None)) with false. cbv iota zeta. simpl default.
  set (n := Z.of_nat (length pl)) in *.
  replace (Z.lor 128 op) with (128 + op).
  2: { change (Z.lor 128 op) with (Z.lor (Z.shiftl 1 7) op).
       by rewrite lor_shiftl_add by (unfold uint_ok; lia). }
  assert (forall i, 0 <= i -> Z.land (Z.shiftr n i) 255 = (n / 2 ^ i) mod 256) as Hb.
  { intros i Hi. change 255 with (2 ^ 8 - 1). by rewrite land_pow2_mask, Z.shiftr_div_pow2 by lia. }
  pose proof (Hb 0 ltac:(lia)) as H0. rewrite Z.shiftr_0_r in H0.
  destruct (n <=? 125) eqn:E1; [|destruct (n <=? 65535) eqn:E2]; reflect_bools.
  - rewrite (proj2 (Z.ltb_lt _ _)) by lia. by rewrite wrap_small by (unfold uint_ok; lia).
  - rewrite (proj2 (Z.ltb_ge n 126)), (proj2 (Z.ltb_lt n 65536)) by lia.
    cbn [Fips.be_bytes app wire_payload from_option]. rewrite Hb, H0 by lia. done.
  - rewrite (proj2 (Z.ltb_ge n 126)), (proj2 (Z.ltb_ge n 65536)) by lia.
    cbn [Fips.be_bytes app wire_payload from_option fmap list_fmap]. rewrite !Hb by lia. done.
Qed.

Lemma header_value_snoc lit hs h :
  header_value lit (hs ++ [h]) =
  if decide (tolower <$> h.1 = tolower <$> lit) then Some h.2 else header_value lit hs.
Proof.
  unfold header_value. rewrite list.filter_app.
  destruct (decide _) as [H|H].
  - rewrite list.filter_cons_True by done. by rewrite list.filter_nil, last_snoc.
  - rewrite list.filter_cons_False by done. by rewrite list.filter_nil, app_nil_r.
Qed.

Lemma name_is_spec name lit : (0 ∉ lit) ->
  name_is name lit = bool_decide (tolower <$> name = tolower <$> lit).
Proof.
  intros Hz. unfold name_is. apply eq_true_iff_eq.
  rewrite andb_true_iff, Nat.eqb_eq, strncasecmp0_prefix, bool_decide_eq_true by done. split.
  - intros [Hl [k Hk]]. assert (cstr name = name) as Hc.
    { apply cstr_full. apply (f_equal length) in Hk.
      rewrite length_app, !length_fmap in Hk. lia. }
    rewrite Hc in Hk. apply (f_equal length) in Hk as Hk'.
    rewrite length_app, !length_fmap in Hk'. destruct k; [|simpl in Hk'; lia].
    by rewrite app_nil_r in Hk.
  - intros Hn. apply (f_equal length) in Hn as Hl. rewrite !length_fmap in Hl.
    split; [done|]. rewrite cstr_no_nul; [by exists []; rewrite Hn, app_nil_r|].
    intros H0. apply Hz. apply (list_elem_of_fmap_2 tolower) in H0. rewrite Hn in H0.
    apply list_elem_of_fmap in H0 as (c & Hc & Hin). symmetry in Hc. apply tolower_0 in Hc. by subst.
Qed.

(** The locals of the scan after a list of headers. *)
Definition scan_of (hs : list (list Z * list Z)) : upgrade_scan :=
  mkScan
    (from_option (fun v => strncasecmp0 (cstr v) (bytes_of_string "websocket") 9) false
       (header_value (bytes_of_string "Upgrade") hs))
    (from_option (fun v => strcasestr (cstr v) (bytes_of_string "upgrade")) false
       (header_value (bytes_of_string "Connection") hs))
    (mkInfo false
       (default [] (header_value (bytes_of_string "Sec-WebSocket-Key") hs))
       (default [] (header_value (bytes_of_string "Sec-WebSocket-Version") hs))
       (default [] (header_value (bytes_of_string "Sec-WebSocket-Protocol") hs))).

Lemma scan_headers hs :
  foldl scan_header (mkScan false false (mkInfo false [] [] [])) hs = scan_of hs.
Proof.
  induction hs as [|[name value] hs IH] using rev_ind; [done|].
  rewrite foldl_snoc, IH. unfold scan_header.
  rewrite !name_is_spec by (vm_compute; set_solver). unfold scan_of. rewrite !header_value_snoc.
  simpl fst. simpl snd.
  repeat match goal with
  | |- context [bool_decide (?n = ?l)] => rewrite (bool_decide_decide (n = l))
  end.
  repeat match goal with
  | |- context [decide (tolower <$> name = ?l)] => destruct (decide (tolower <$> name = l))
  end; try done; repeat match goal with
  | H : _ = tolower <$> _ |- _ => apply (f_equal length) in H; rewrite !length_fmap in H
  end; simpl in *; lia.
Qed.

Lemma frame_data_at fin op hdr pl rest :
  frame_data (mkFrame fin op (Z.of_nat (length hdr)) (Z.of_nat (length pl))) (hdr ++ pl ++ rest)
  = Ret pl.
Proof.
  unfold frame_data. cbn [payload len]. rewrite !length_app.
  rewrite (proj2 (Z.leb_le _ _)) by lia.
  by rewrite !Nat2Z.id, drop_app_length, take_app_length.
Qed.

(** ** Theorems *)

(** C30. On a buffer that starts with any frame of RFC 6455 (masked or not, any opcode,
    any of the three length encodings), [parseFrame] consumes exactly that frame, reports
    its fin bit, opcode and length, and leaves the payload unmasked in the buffer with the
    header and the following bytes untouched; [onMessage] hands a text frame's payload, up
    to its first NUL, to JavaScript. *)
Theorem ws_parse_roundtrip fin op key pl rest f :
  key_ok key -> 0 <= op < 16 -> bytes_ok pl -> bytes_ok rest ->
  let hdr := wire_header fin op key (Z.of_nat (length pl)) in
  let frame := wire_frame fin op key pl in
  let data := frame ++ rest in
  Z.of_nat (length data) < 2 ^ 31 ->
  parseFrame data (Z.of_nat (length data)) f
  = Ret (Z.of_nat (length frame), mkFrame fin op (Z.of_nat (length hdr)) (Z.of_nat (length pl)),
         hdr ++ pl ++ rest) /\
  onMessage true data (Z.of_nat (length data))
  = Ret (Z.of_nat (length frame), if op =? 1 then Some (cstr pl) else None).
Proof.
  intros Hk Ho Hp Hr hdr frame data Hlen.
  assert (length data = length hdr + length pl + length rest)%nat as Hl.
  { subst data frame hdr. unfold wire_frame. by rewrite !length_app, length_wire_payload. }
  assert (length frame = length hdr + length pl)%nat as Hf.
  { subst frame hdr. unfold wire_frame. by rewrite !length_app, length_wire_payload. }
  pose proof (length_wire_header fin op key (Z.of_nat (length pl)) Hk Ho ltac:(lia)) as Hh.
  pose proof (hdr_len_bound (Z.of_nat (length pl))).
  pose proof (fun f => parse_wire fin op key pl rest f Hk Ho Hp Hr ltac:(lia)) as Hw.
  fold hdr frame in Hw. fold data in Hw. split; [apply Hw|].
  unfold onMessage. rewrite wrap_small by (unfold uint_ok; lia). rewrite Hw.
  cbv beta iota delta [mbind outcome_bind].
  rewrite (proj2 (Z.eqb_neq _ 0)) by (subst hdr; destruct (bool_decide (is_Some key)); lia).
  rewrite s32_small by lia. cbn [opcode andb].
  destruct (op =? 1); [|done]. by rewrite frame_data_at.
Qed.

Lemma ws_parse_roundtrip_witness :
  onMessage true (wire_frame true 1 (Some [1; 2; 3; 4]) [72; 105] ++ [7]) 9 = Ret (8, Some [72; 105]).
Proof.
  apply (ws_parse_roundtrip true 1 (Some [1; 2; 3; 4]) [72; 105] [7] (mkFrame false 0 0 0));
    simpl; unfold bytes_ok; rewrite ?list.Forall_cons; unfold uint_ok; split_and?; try lia; auto.
Defined.

(** Every proper prefix of a frame is answered with "need more data": the result is
    0 and the buffer is not changed. *)
Theorem ws_parse_incomplete fin op key pl p q f :
  key_ok key -> 0 <= op < 16 -> bytes_ok pl -> Z.of_nat (length pl) + 14 < 2 ^ 64 ->
  wire_frame fin op key pl = p ++ q -> q <> [] ->
  exists f', parseFrame p (Z.of_nat (length p)) f = Ret (0, f', p).
Proof.
  intros Hk Ho Hp Hn Hpq Hq.
  assert (bytes_ok p) as Hb.
  { assert (bytes_ok (p ++ q)) as Hpq' by (rewrite <- Hpq; apply wire_frame_ok; done || lia).
    by apply list.Forall_app in Hpq' as [? _]. }
  destruct p as [|d0 [|d1 p]]; [by eexists|by eexists|].
  rewrite (parseFrame_eq _ d0 d1 p f eq_refl Hb). cbv zeta.
  destruct (decode_len (d0 :: d1 :: p)) as [[n o]|] eqn:Ed; [|by eexists].
  apply (decode_len_app _ q) in Ed. rewrite <- Hpq in Ed.
  destruct (wire_header_eq fin op key (Z.of_nat (length pl)) Ho ltac:(lia))
    as (w0 & w1 & ext & He & _ & _ & _ & M1 & _ & _ & Hl & Hdec).
  pose proof (hdr_len_bound (Z.of_nat (length pl))).
  pose proof (length_key key Hk) as Hlk.
  unfold wire_frame in *. rewrite He in *. simpl in Hpq. rewrite <- app_assoc in Hpq.
  simpl app in Ed. rewrite <- app_assoc, Hdec in Ed. injection Ed as <- <-.
  injection Hpq as <- <- Hpq. apply (f_equal length) in Hpq.
  rewrite !length_app, length_wire_payload in Hpq. rewrite M1.
  assert (0 < length q)%nat by (destruct q; [done|simpl; lia]).
  rewrite wrap_small by (unfold uint_ok; destruct (bool_decide (is_Some key)); lia).
  rewrite (proj2 (Z.ltb_lt _ _)) by (simpl length; destruct (bool_decide (is_Some key)); lia).
  by eexists.
Qed.

Lemma ws_parse_incomplete_witness : exists f',
  parseFrame [129; 130; 1; 2; 3; 4; 73] 7 (mkFrame false 0 0 0)
  = Ret (0, f', [129; 130; 1; 2; 3; 4; 73]).
Proof.
  apply (ws_parse_incomplete true 1 (Some [1; 2; 3; 4]) [72; 105]
    [129; 130; 1; 2; 3; 4; 73] [107] (mkFrame false 0 0 0));
    simpl; unfold bytes_ok; rewrite ?list.Forall_cons; unfold uint_ok; split_and?; try lia; auto.
Defined.

Lemma parseFrame_bounds data f :
  bytes_ok data -> from_option (fun e => e < 2 ^ 64) True (declared_end data) ->
  exists c f' data', parseFrame data (Z.of_nat (length data)) f = Ret (c, f', data') /\
    length data' = length data /\
    ((c = 0 /\ data' = data /\
      from_option (fun e => Z.of_nat (length data) < e) True (declared_end data)) \/
     (declared_end data = Some c /\ 0 < c <= Z.of_nat (length data) /\
      payload f' + len f' = c /\ 2 <= payload f' /\ 0 <= len f')).
Proof.
  intros Hb Hd. destruct (declared_end data) as [e|] eqn:E.
  - simpl in Hd. apply declared_end_inv in E as (d0 & d1 & rest & n & o & Hdata & Hdec & _ & ->).
    rewrite (parseFrame_eq data d0 d1 rest f Hdata Hb), Hdec. cbv zeta.
    destruct (decode_len_bound _ _ _ Hb Hdec) as (Hn & Ho & _).
    replace (if 128 <=? d1 then o + 4 else o) with (o + if 128 <=? d1 then 4 else 0)
      by (destruct (128 <=? d1); lia).
    rewrite wrap_small by (unfold uint_ok; destruct (128 <=? d1); lia).
    bool_case; reflect_bools; [by eexists _, _, _; split; [done|]; auto|].
    destruct (128 <=? d1).
    + destruct (unmask_loop_in data o n) as (data' & -> & Hl); [lia..|].
      eexists _, _, data'. do 2 (split; [done|]). right. simpl. split_and!; lia || f_equal; lia.
    + eexists _, _, data. do 2 (split; [done|]). right. simpl. split_and!; lia || f_equal; lia.
  - unfold declared_end in E. destruct data as [|d0 [|d1 rest]]; [by do 3 eexists; split; auto..|].
    rewrite (parseFrame_eq _ d0 d1 rest f eq_refl Hb). cbv zeta.
    destruct (decode_len (d0 :: d1 :: rest)) as [[n o]|]; [done|].
    by eexists _, _, _; split; [done|]; auto.
Qed.

Lemma onMessage_total is_function data :
  bytes_ok data -> from_option (fun e => e < 2 ^ 64) True (declared_end data) ->
  Z.of_nat (length data) < 2 ^ 31 ->
  exists rc text, onMessage is_function data (Z.of_nat (length data)) = Ret (rc, text).
Proof.
  intros Hb Hd Hl. unfold onMessage. rewrite wrap_small by (unfold uint_ok; lia).
  destruct (parseFrame_bounds data (mkFrame false 0 0 0) Hb Hd)
    as (c & f & data' & -> & Hl' & Hc). cbn [mbind outcome_bind].
  destruct (c =? 0) eqn:E; [eauto|]. destruct Hc as [[-> _]|(_ & Hc & Hp & _)]; [done|].
  destruct (is_function && _); [|eauto]. unfold frame_data.
  rewrite (proj2 (Z.leb_le _ _)) by lia. cbn [mbind outcome_bind]. eauto.
Qed.

(** On every buffer whose declared frame end fits 64 bits, [parseFrame] returns, stays
    inside the buffer and keeps its length: it consumes exactly the declared frame when
    the buffer holds it, with the payload at the end of it, and otherwise returns 0 with
    the buffer as it was. *)
Theorem ws_parse_in_bounds data f :
  bytes_ok data -> from_option (fun e => e < 2 ^ 64) True (declared_end data) ->
  exists c f' data', parseFrame data (Z.of_nat (length data)) f = Ret (c, f', data') /\
    length data' = length data /\
    ((c = 0 /\ data' = data /\
      from_option (fun e => Z.of_nat (length data) < e) True (declared_end data)) \/
     (declared_end data = Some c /\ 0 < c <= Z.of_nat (length data) /\
      payload f' + len f' = c /\ 2 <= payload f' /\ 0 <= len f')).
Proof. apply parseFrame_bounds. Qed.

Lemma ws_parse_in_bounds_witness : declared_end [130; 3; 9; 9] = Some 5 /\
  exists c f' data', parseFrame [130; 3; 9; 9] 4 (mkFrame false 0 0 0) = Ret (c, f', data').
Proof.
  split; [done|]. destruct (ws_parse_in_bounds [130; 3; 9; 9] (mkFrame false 0 0 0))
    as (c & f' & data' & He & _); [by apply (bool_decide_unpack _)|done|].
  by exists c, f', data'.
Defined.

(** A header whose declared end exceeds 64 bits makes [total] wrap, and the length
    check passes for a short buffer: a masked frame is then unmasked past the end of the
    buffer, and an unmasked one is accepted with a payload that is not in the buffer, so
    that reading it leaves the buffer. *)
Theorem ws_parse_length_overflow data f e :
  bytes_ok data -> declared_end data = Some e ->
  2 ^ 64 <= e <= 2 ^ 64 + Z.of_nat (length data) -> Z.of_nat (length data) < 2 ^ 63 ->
  (is_masked data = true -> parseFrame data (Z.of_nat (length data)) f = UB) /\
  (is_masked data = false -> exists f',
     parseFrame data (Z.of_nat (length data)) f = Ret (e - 2 ^ 64, f', data) /\
     frame_data f' data = UB).
Proof.
  intros Hb (d0 & d1 & rest & n & o & Hdata & Hdec & -> & ->)%declared_end_inv He Hlen.
  rewrite (parseFrame_eq data d0 d1 rest f Hdata Hb), Hdec. cbv zeta.
  destruct (decode_len_bound _ _ _ Hb Hdec) as (Hn & Ho & _).
  replace (if 128 <=? d1 then o + 4 else o) with (o + if 128 <=? d1 then 4 else 0)
    by (destruct (128 <=? d1); lia).
  set (t := o + (if 128 <=? d1 then 4 else 0) + n) in *.
  assert (u64 t = t - 2 ^ 64) as ->.
  { unfold wrap. symmetry. apply (Z.mod_unique _ _ 1); [left|lia].
    subst t. destruct (128 <=? d1); lia. }
  rewrite (proj2 (Z.ltb_ge _ _)) by lia. subst t. split; intros Hm; rewrite Hm in *.
  - destruct (unmask_loop_overrun (S (length data)) data (o + 4) o n 0) as [->|]; [lia..|done|lia].
  - eexists. split; [done|]. unfold frame_data. cbn [payload len].
    by rewrite (proj2 (Z.leb_gt _ _)) by lia.
Qed.

Lemma ws_parse_length_overflow_witness :
  parseFrame [129; 255; 255; 255; 255; 255; 255; 255; 255; 255; 1; 2; 3; 4] 14 (mkFrame false 0 0 0)
  = UB.
Proof.
  apply (ws_parse_length_overflow
    [129; 255; 255; 255; 255; 255; 255; 255; 255; 255; 1; 2; 3; 4] (mkFrame false 0 0 0)
    (2 ^ 64 + 13));
    [by apply (bool_decide_unpack _)|by vm_compute|simpl; lia|simpl; lia|done].
Defined.

(** C31. [sendFrame] writes exactly the unmasked, final RFC 6455 frame of its payload with
    the shortest length encoding, and a peer parsing those bytes gets the opcode and the
    payload back. *)
Theorem ws_send_roundtrip pl op f :
  0 <= op < 16 -> bytes_ok pl -> Z.of_nat (length pl) + 14 < 2 ^ 64 ->
  let data := sendFrame pl op in
  data = wire_frame true op None pl /\
  exists f', parseFrame data (Z.of_nat (length data)) f = Ret (Z.of_nat (length data), f', data) /\
    fin f' = true /\ opcode f' = op /\ frame_data f' data = Ret pl.
Proof.
  intros Ho Hp Hn data.
  assert (data = wire_frame true op None pl) as Hw by (apply sendFrame_wire; done || lia).
  split; [done|]. clearbody data. subst data.
  pose proof (parse_wire true op None pl [] f I Ho Hp (Forall_nil_2 _) Hn) as Hx.
  cbv zeta in Hx. rewrite !app_nil_r in Hx.
  eexists. split; [exact Hx|]. do 2 (split; [done|]).
  pose proof (frame_data_at true op (wire_header true op None (Z.of_nat (length pl))) pl []) as Hf.
  by rewrite app_nil_r in Hf.
Qed.

Lemma ws_send_roundtrip_witness :
  sendFrame (bytes_of_string "hi") 1 = wire_frame true 1 None (bytes_of_string "hi").
Proof.
  apply (ws_send_roundtrip (bytes_of_string "hi") 1 (mkFrame false 0 0 0));
    [lia|by apply (bool_decide_unpack _)|simpl; lia].
Defined.

(** [parseWSUpgrade] compares header names without case, the last header of a name
    decides, and the request is an upgrade exactly when that [Upgrade] value starts with
    "websocket", that [Connection] value contains "upgrade" (both without case and read up
    to a NUL) and the key is present and not empty. *)
Theorem ws_upgrade_spec headers :
  let i := parseWSUpgrade headers in
  key i = default [] (header_value (bytes_of_string "Sec-WebSocket-Key") headers) /\
  version i = default [] (header_value (bytes_of_string "Sec-WebSocket-Version") headers) /\
  protocol i = default [] (header_value (bytes_of_string "Sec-WebSocket-Protocol") headers) /\
  (isUpgrade i = true <->
   exists u c pre post k,
     header_value (bytes_of_string "Upgrade") headers = Some u /\
     bytes_of_string "websocket" `prefix_of` (tolower <$> cstr u) /\
     header_value (bytes_of_string "Connection") headers = Some c /\
     tolower <$> cstr c = pre ++ bytes_of_string "upgrade" ++ post /\
     header_value (bytes_of_string "Sec-WebSocket-Key") headers = Some k /\ k <> []).
Proof.
  cbv zeta. unfold parseWSUpgrade. rewrite scan_headers. cbv zeta.
  do 3 (split; [done|]). cbn [isUpgrade scan_of hasUpgrade hasConnection info key].
  rewrite !andb_true_iff, negb_true_iff, bool_decide_eq_false.
  pose proof (fun v => strncasecmp0_prefix (cstr v) (bytes_of_string "websocket")) as Hu.
  pose proof (fun v => strcasestr_spec (cstr v) (bytes_of_string "upgrade")) as Hc.
  change (length (bytes_of_string "websocket")) with 9%nat in Hu.
  change (tolower <$> bytes_of_string "websocket") with (bytes_of_string "websocket") in Hu.
  change (tolower <$> bytes_of_string "upgrade") with (bytes_of_string "upgrade") in Hc.
  split.
  - intros [[H1 H2] H3].
    destruct (header_value (bytes_of_string "Upgrade") headers) as [u|]; [|done].
    destruct (header_value (bytes_of_string "Connection") headers) as [c|]; [|done].
    destruct (header_value (bytes_of_string "Sec-WebSocket-Key") headers) as [k|]; [|done].
    simpl in H1, H2. apply Hu in H1; [|vm_compute; set_solver].
    apply Hc in H2 as (pre & post & He); [|vm_compute; set_solver].
    by exists u, c, pre, post, k.
  - intros (u & c & pre & post & k & -> & Hpre & -> & He & -> & Hk). simpl. split_and!; [| |done].
    + apply Hu; [vm_compute; set_solver|done].
    + apply Hc; [vm_compute; set_solver|]. by exists pre, post.
Qed.

Example parse_masked_hello :
  parseFrame [0x81; 0x85; 0x37; 0xfa; 0x21; 0x3d; 0x7f; 0x9f; 0x4d; 0x51; 0x58] 11
    (mkFrame false 0 0 0)
  = Ret (11, mkFrame true 1 6 5,
         [0x81; 0x85; 0x37; 0xfa; 0x21; 0x3d] ++ bytes_of_string "Hello").
Proof. vm_compute. reflexivity. Qed.
