(* ===== verification/HttpParser.v ===== *)
(** The request parser of deps/picohttpparser, as [Server::process_http_1_request] uses it.

    A pointer into the buffer is the list of bytes from it to [buf_end]; a token is the list
    of the bytes between two pointers. Dereferencing or moving a pointer at [buf_end] gives
    [POob], so that the model shows every read that would leave the buffer. [sse] selects
    the [__SSE4_2__] branches of the source. *)

From S2P Require Import Prelude.

(** The result of a parsing step: a value and the new [buf], a value of [*ret] with a
    [NULL] return, or a read outside the buffer. *)
Inductive pres (A : Type) : Type :=
| POk (a : A) (buf : list Z)
| PErr (ret : Z)
| POob.
Arguments POk {A} a buf.
Arguments PErr {A} ret.
Arguments POob {A}.

Definition pbind {A B} (m : pres A) (k : A -> list Z -> pres B) : pres B :=
  match m with POk a buf => k a buf | PErr r => PErr r | POob => POob end.

Notation "'let*' ( x , b ) ':=' m 'in' k" := (pbind m (fun x b => k))
  (at level 10, x pattern, b name, m at level 100, k at level 200).

(** ** Character classes *)

(** [IS_PRINTABLE_ASCII]: [(unsigned char)(c) - 040u < 0137u]. *)
Definition IS_PRINTABLE_ASCII (c : Z) : bool := u32 (c - 32) <? 95.

(** [(c < 040 && c != HT) || c == DEL] on an [unsigned char]. *)
Definition is_ctl (c : Z) : bool := ((c <? 32) && negb (c =? 9)) || (c =? 127).

(** [token_char_map], with the string literal's digits. *)
Definition token_char_map : list Z :=
  replicate 32 0 ++
  [0;1;0;1;1;1;1;1;0;0;1;1;0;1;1;0;1;1;1;1;1;1;1;1;1;1;0;0;0;0;0;0] ++
  [0;1;1;1;1;1;1;1;1;1;1;1;1;1;1;1;1;1;1;1;1;1;1;1;1;1;1;0;0;0;1;1] ++
  [1;1;1;1;1;1;1;1;1;1;1;1;1;1;1;1;1;1;1;1;1;1;1;1;1;1;1;0;1;0;1;0] ++
  replicate 128 0.

Definition token_char (c : Z) : bool := negb (default 0 (token_char_map !! Z.to_nat c) =? 0).

(** ** Scanning *)

Definition CHECK_EOF (buf : list Z) : pres () :=
  match buf with [] => PErr (-2) | _ => POk tt buf end.

Definition EXPECT_CHAR_NO_CHECK (ch : Z) (buf : list Z) : pres () :=
  match buf with
  | [] => POob
  | c :: rest => if negb (c =? ch) then PErr (-1) else POk tt rest
  end.

Definition EXPECT_CHAR (ch : Z) (buf : list Z) : pres () :=
  let* (_, buf) := CHECK_EOF buf in EXPECT_CHAR_NO_CHECK ch buf.

(** [_mm_cmpestri] with [_SIDD_CMP_RANGES]: the index of the first of 16 bytes inside one
    of the ranges, [None] for the value 16. *)
Definition in_ranges (ranges : list (Z * Z)) (c : Z) : bool :=
  existsb (fun '(a, b) => (a <=? c) && (c <=? b)) ranges.

Fixpoint cmpestri (ranges : list (Z * Z)) (block : list Z) : option nat :=
  match block with
  | [] => None
  | c :: block' => if in_ranges ranges c then Some 0%nat else S <$> cmpestri ranges block'
  end.

(** [_mm_loadu_si128]: the 16 bytes from [buf]. *)
Definition load16 (buf : list Z) : option (list Z) := if (16 <=? length buf)%nat then Some (take 16 buf) else None.

(** The [do]-[while] loop over the blocks, whether it found one; every turn loads 16 bytes, so the
    blocks of the buffer and one are enough fuel. *)
Fixpoint findchar_blocks (fuel : nat) (ranges : list (Z * Z)) (left : Z) (buf : list Z) : pres bool :=
  match fuel with
  | O => POob
  | S fuel' =>
      match load16 buf with
      | None => POob
      | Some b16 =>
          match cmpestri ranges b16 with
          | Some r => POk true (drop r buf)
          | None =>
              let buf := drop 16 buf in
              let left := left - 16 in
              if left =? 0 then POk false buf else findchar_blocks fuel' ranges left buf
          end
      end
  end.

Definition findchar_fast (sse : bool) (ranges : list (Z * Z)) (buf : list Z) : pres bool :=
  if sse && (16 <=? length buf)%nat
  then findchar_blocks (S (length buf / 16)) ranges (Z.land (Z.of_nat (length buf)) (Z.lnot 15)) buf
  else POk false buf.

(** The bytes from [from] up to the later pointer [to]. *)
Definition token_of (from to : list Z) : list Z := take (length from - length to) from.

(** The loop that moves [buf] to [next_char], with the class of the rejected characters as
    [bad]; every move is followed by [CHECK_EOF()]. *)
Fixpoint token_loop (next_char : Z) (bad : Z -> bool) (buf : list Z) : pres () :=
  match buf with
  | [] => POob
  | c :: rest =>
      if c =? next_char then POk tt buf
      else if bad c then PErr (-1)
      else match rest with [] => PErr (-2) | _ => token_loop next_char bad rest end
  end.

Definition scan_token (sse : bool) (ranges : list (Z * Z)) (next_char : Z) (bad : Z -> bool)
    (buf : list Z) : pres (list Z) :=
  let buf_start := buf in
  let* (found, buf) := findchar_fast sse ranges buf in
  let* (_, buf) := if found then POk tt buf else CHECK_EOF buf in
  let* (_, buf) := token_loop next_char bad buf in
  POk (token_of buf_start buf) buf.

Definition parse_token_ranges : list (Z * Z) :=
  [(0, 32); (34, 34); (40, 41); (44, 44); (47, 47); (58, 64); (91, 93); (123, 255)].

Definition parse_token (sse : bool) (next_char : Z) : list Z -> pres (list Z) :=
  scan_token sse parse_token_ranges next_char (fun c => negb (token_char c)).

(** The macro [ADVANCE_TOKEN]. *)
Definition ADVANCE_TOKEN (sse : bool) : list Z -> pres (list Z) :=
  scan_token sse [(0, 32); (127, 127)] 32
    (fun c => negb (IS_PRINTABLE_ASCII c) && ((c <? 32) || (c =? 127))).

(** [n] times [DOIT]: whether it met a character that is not printable, and where. *)
Fixpoint doit (n : nat) (buf : list Z) : pres bool :=
  match n, buf with
  | O, _ => POk false buf
  | S _, [] => POob
  | S n', c :: rest => if IS_PRINTABLE_ASCII c then doit n' rest else POk true buf
  end.

(** [while (buf_end - buf >= 8)]: [true] when it jumps to [FOUND_CTL]. Each turn moves [buf], so the
    buffer's length and one is enough fuel. *)
Fixpoint eol_unrolled (fuel : nat) (buf : list Z) : pres bool :=
  match fuel with
  | O => POob
  | S fuel' =>
      if (8 <=? length buf)%nat then
        let* (non_printable, buf) := doit 8 buf in
        if non_printable then
          match buf with
          | [] => POob
          | c :: rest => if is_ctl c then POk true buf else eol_unrolled fuel' rest
          end
        else eol_unrolled fuel' buf
      else POk false buf
  end.

(** [for (;; ++buf) { CHECK_EOF(); ... }], up to [FOUND_CTL]. *)
Fixpoint eol_loop (buf : list Z) : pres () :=
  match buf with
  | [] => PErr (-2)
  | c :: rest =>
      if negb (IS_PRINTABLE_ASCII c) && is_ctl c then POk tt buf else eol_loop rest
  end.

Definition get_token_to_eol (sse : bool) (buf : list Z) : pres (list Z) :=
  let token_start := buf in
  let* (found, buf) :=
    if sse then findchar_fast sse [(0, 8); (10, 31); (127, 127)] buf
    else eol_unrolled (S (length buf)) buf in
  let* (_, buf) := if found then POk tt buf else eol_loop buf in
  match buf with
  | [] => POob
  | c :: rest =>
      if c =? 13 then
        let* (_, buf') := EXPECT_CHAR 10 rest in POk (token_of token_start buf) buf'
      else if c =? 10 then POk (token_of token_start buf) rest
      else PErr (-1)
  end.

(** ** The request *)

(** [do { ++buf; CHECK_EOF(); }] while the character is a space. *)
Fixpoint skip_spaces (buf : list Z) : pres () :=
  match buf with
  | [] => POob
  | _ :: rest =>
      match rest with
      | [] => PErr (-2)
      | c :: _ => if c =? 32 then skip_spaces rest else POk tt rest
      end
  end.

(** [PARSE_INT(valp, 1)]. *)
Definition PARSE_INT (buf : list Z) : pres Z :=
  match buf with
  | [] => POob
  | c :: rest => if (c <? 48) || (57 <? c) then PErr (-1) else POk (c - 48) rest
  end.

Fixpoint expect_chars (chs : list Z) (buf : list Z) : pres () :=
  match chs with
  | [] => POk tt buf
  | ch :: chs' => let* (_, buf) := EXPECT_CHAR_NO_CHECK ch buf in expect_chars chs' buf
  end.

Definition parse_http_version (buf : list Z) : pres Z :=
  if (length buf <? 9)%nat then PErr (-2)
  else let* (_, buf) := expect_chars (bytes_of_string "HTTP/1.") buf in PARSE_INT buf.

(** [struct phr_header]; [name] is [None] on a continuation line. *)
Record phr_header := mkHeader { name : option (list Z); value : list Z }.

(** [for (;; ++buf) { CHECK_EOF(); if (!(SP or HT)) break; }]. *)
Fixpoint skip_blanks (buf : list Z) : pres () :=
  match buf with
  | [] => PErr (-2)
  | c :: rest => if (c =? 32) || (c =? 9) then skip_blanks rest else POk tt buf
  end.

(** "remove trailing SPs and HTABs", on the reversed value. *)
Fixpoint drop_blanks (l : list Z) : list Z :=
  match l with
  | [] => []
  | c :: l' => if (c =? 32) || (c =? 9) then drop_blanks l' else l
  end.

Definition trim_end (l : list Z) : list Z := reverse (drop_blanks (reverse l)).

(** The name of a header line: [None] on a continuation line;
    [first] is [*num_headers == 0]. *)
Definition header_name (sse first : bool) (buf : list Z) : pres (option (list Z)) :=
  match buf with
  | [] => POob
  | c :: _ =>
      if negb (negb first && ((c =? 32) || (c =? 9))) then
        let* (nm, buf) := parse_token sse 58 buf in
        if (length nm =? 0)%nat then PErr (-1)
        else
          match buf with
          | [] => POob
          | _ :: buf => let* (_, buf) := skip_blanks buf in POk (Some nm) buf
          end
      else POk None buf
  end.

Definition parse_header (sse first : bool) (buf : list Z) : pres phr_header :=
  let* (_, buf) := CHECK_EOF buf in
  let* (nm, buf) := header_name sse first buf in
  let* (v, buf) := get_token_to_eol sse buf in
  POk (mkHeader nm (trim_end v)) buf.

(** [parse_headers]; [left] is [max_headers - *num_headers] and [acc] holds the headers
    read so far. *)
Fixpoint parse_headers (sse : bool) (left : nat) (acc : list phr_header) (buf : list Z) :
    pres (list phr_header) :=
  match buf with
  | [] => PErr (-2)
  | c :: rest =>
      if c =? 13 then let* (_, buf) := EXPECT_CHAR 10 rest in POk acc buf
      else if c =? 10 then POk acc rest
      else
        match left with
        | O => PErr (-1)
        | S left' =>
            let* (h, buf') := parse_header sse (length acc =? 0)%nat buf in
            parse_headers sse left' (acc ++ [h]) buf'
        end
  end.

Record request := mkRequest {
  method : list Z; path : list Z; minor_version : Z; headers : list phr_header }.

(** A CRLF or a lone LF; [none] is what happens on any other character. *)
Definition line_end (none : list Z -> pres ()) (buf : list Z) : pres () :=
  match buf with
  | [] => POob
  | c :: rest =>
      if c =? 13 then EXPECT_CHAR 10 rest else if c =? 10 then POk tt rest else none buf
  end.

Definition parse_request (sse : bool) (max_headers : nat) (buf : list Z) : pres request :=
  let* (_, buf) := CHECK_EOF buf in
  let* (_, buf) := line_end (POk tt) buf in
  let* (m, buf) := parse_token sse 32 buf in
  let* (_, buf) := skip_spaces buf in
  let* (p, buf) := ADVANCE_TOKEN sse buf in
  let* (_, buf) := skip_spaces buf in
  if (length m =? 0)%nat || (length p =? 0)%nat then PErr (-1)
  else
    let* (v, buf) := parse_http_version buf in
    let* (_, buf) := line_end (fun _ => PErr (-1)) buf in
    let* (hs, buf) := parse_headers sse max_headers [] buf in
    POk (mkRequest m p v hs) buf.

(** [is_complete]: two line ends in a row, searched from [last_len - 3]. *)
Fixpoint complete_loop (fuel : nat) (ret_cnt : Z) (buf : list Z) : pres () :=
  match fuel with
  | O => POob
  | S fuel' =>
      let* (_, buf) := CHECK_EOF buf in
      match buf with
      | [] => POob
      | c :: rest =>
          let* (n, buf) :=
            if c =? 13 then
              let* (_, buf) := CHECK_EOF rest in
              let* (_, buf) := EXPECT_CHAR 10 buf in POk (ret_cnt + 1) buf
            else if c =? 10 then POk (ret_cnt + 1) rest
            else POk 0 rest in
          if n =? 2 then POk tt buf else complete_loop fuel' n buf
      end
  end.

(** A [last_len] beyond the buffer starts the search behind its end. *)
Definition is_complete (buf : list Z) (last_len : nat) : pres () :=
  if (last_len <? 3)%nat then complete_loop (S (length buf)) 0 buf
  else if (length buf <? last_len - 3)%nat then POob
  else let buf := drop (last_len - 3) buf in complete_loop (S (length buf)) 0 buf.

(** [phr_parse_request]: the returned number and, when it is a byte count, the request. *)
Definition phr_parse_request (sse : bool) (buf : list Z) (max_headers last_len : nat) :
    outcome (Z * option request) :=
  match (if (last_len =? 0)%nat then POk tt buf else is_complete buf last_len) with
  | PErr r => Ret (r, None)
  | POob => UB
  | POk _ _ =>
      match parse_request sse max_headers buf with
      | POk q rest => Ret (s32 (Z.of_nat (length buf - length rest)), Some q)
      | PErr r => Ret (r, None)
      | POob => UB
      end
  end.

(** ** The response *)

(** [PARSE_INT_3]. *)
Definition PARSE_INT_3 (buf : list Z) : pres Z :=
  let* (a, buf) := PARSE_INT buf in
  let* (b, buf) := PARSE_INT buf in
  let* (c, buf) := PARSE_INT buf in
  POk (100 * a + 10 * b + c) buf.

(** [do { ++*msg; --*msg_len; }] while the character is a space; the message is followed
    by its line end, so the loop stops there at the latest. *)
Fixpoint drop_spaces (l : list Z) : list Z :=
  match l with
  | [] => []
  | c :: l' => if c =? 32 then drop_spaces l' else l
  end.

Record response := mkResponse {
  resp_minor : Z; status : Z; msg : list Z; resp_headers : list phr_header }.

Definition parse_response (sse : bool) (max_headers : nat) (buf : list Z) : pres response :=
  let* (v, buf) := parse_http_version buf in
  match buf with
  | [] => POob
  | c :: _ =>
      if negb (c =? 32) then PErr (-1)
      else
        let* (_, buf) := skip_spaces buf in
        if (length buf <? 4)%nat then PErr (-2)
        else
          let* (st, buf) := PARSE_INT_3 buf in
          let* (m, buf) := get_token_to_eol sse buf in
          let* (m, buf) :=
            match m with
            | [] => POk m buf
            | c :: _ => if c =? 32 then POk (drop_spaces m) buf else PErr (-1)
            end in
          let* (hs, buf) := parse_headers sse max_headers [] buf in
          POk (mkResponse v st m hs) buf
  end.

Definition phr_parse_response (sse : bool) (buf : list Z) (max_headers last_len : nat) :
    outcome (Z * option response) :=
  match (if (last_len =? 0)%nat then POk tt buf else is_complete buf last_len) with
  | PErr r => Ret (r, None)
  | POob => UB
  | POk _ _ =>
      match parse_response sse max_headers buf with
      | POk q rest => Ret (s32 (Z.of_nat (length buf - length rest)), Some q)
      | PErr r => Ret (r, None)
      | POob => UB
      end
  end.

Definition phr_parse_headers (sse : bool) (buf : list Z) (max_headers last_len : nat) :
    outcome (Z * list phr_header) :=
  match (if (last_len =? 0)%nat then POk tt buf else is_complete buf last_len) with
  | PErr r => Ret (r, [])
  | POob => UB
  | POk _ _ =>
      match parse_headers sse max_headers [] buf with
      | POk hs rest => Ret (s32 (Z.of_nat (length buf - length rest)), hs)
      | PErr r => Ret (r, [])
      | POob => UB
      end
  end.

(** ** The vector scans skip only characters the scalar loops accept *)

(** Where a scan stopped: it skipped characters outside [P], and a hit is a [P]. *)
Definition scan_stop (P : Z -> bool) (buf b : list Z) (found : bool) : Prop :=
  exists pre, buf = pre ++ b /\ Forall (fun c => P c = false) pre /\
    (found = true -> exists c rest, b = c :: rest /\ P c = true).

Lemma scan_stop_here P buf : scan_stop P buf buf false.
Proof. by exists []. Qed.

Lemma scan_stop_app P pre buf b found :
  Forall (fun c => P c = false) pre -> scan_stop P buf b found -> scan_stop P (pre ++ buf) b found.
Proof.
  intros Hp (mid & -> & Hm & Hf). exists (pre ++ mid).
  by rewrite <- app_assoc, list.Forall_app.
Qed.

Lemma cmpestri_spec ranges block rest :
  match cmpestri ranges block with
  | Some r => scan_stop (in_ranges ranges) (block ++ rest) (drop r (block ++ rest)) true
  | None => Forall (fun c => in_ranges ranges c = false) block
  end.
Proof.
  induction block as [|c block IH]; simpl; [constructor|].
  destruct (in_ranges ranges c) eqn:E; simpl; [exists []; split_and!; [done|constructor|by eauto]|].
  destruct (cmpestri ranges block); simpl; [|by constructor].
  apply (scan_stop_app _ [c]); [by constructor|done].
Qed.

(** The loop loads only whole blocks of the buffer. *)
Lemma findchar_blocks_spec fuel ranges n buf : (0 < n < fuel)%nat -> (16 * n <= length buf)%nat ->
  exists found b, findchar_blocks fuel ranges (16 * Z.of_nat n) buf = POk found b /\ scan_stop (in_ranges ranges) buf b found.
Proof.
  revert n buf. induction fuel as [|fuel IH]; intros n buf Hn Hl; [lia|]. cbn [findchar_blocks]. unfold load16.
  rewrite (proj2 (Nat.leb_le 16 _)) by lia. pose proof (cmpestri_spec ranges (take 16 buf) (drop 16 buf)) as Hc.
  destruct (cmpestri ranges (take 16 buf)) as [r|]; [rewrite take_drop in Hc; by eexists _, _|].
  cbv zeta. destruct (Z.eqb_spec (16 * Z.of_nat n - 16) 0).
  - exists false, (drop 16 buf). split; [done|]. rewrite <- (take_drop 16 buf) at 1. apply scan_stop_app; [done|apply scan_stop_here].
  - destruct (IH (n - 1)%nat (drop 16 buf)) as (found & b & E & Hs); [lia|rewrite length_drop; lia|].
    replace (16 * Z.of_nat n - 16) with (16 * Z.of_nat (n - 1)) by lia. rewrite E. exists found, b. split; [done|].
    rewrite <- (take_drop 16 buf). by apply scan_stop_app.
Qed.

Lemma findchar_fast_spec sse ranges buf :
  exists found b, findchar_fast sse ranges buf = POk found b /\ scan_stop (in_ranges ranges) buf b found.
Proof.
  unfold findchar_fast. destruct (sse && _) eqn:E; [|exists false, buf; split; [done|apply scan_stop_here]].
  apply andb_true_iff in E as [_ E%Nat.leb_le]. pose proof (Nat.div_mod (length buf) 16 ltac:(lia)) as Hd.
  pose proof (Nat.mod_upper_bound (length buf) 16 ltac:(lia)) as Hm.
  assert (Z.land (Z.of_nat (length buf)) (Z.lnot 15) = 16 * Z.of_nat (length buf / 16)) as ->.
  { change (Z.lnot 15) with (Z.lnot (Z.ones 4)). rewrite <- Z.ldiff_land, Z.ldiff_ones_r, Z.shiftr_div_pow2, Z.shiftl_mul_pow2 by lia.
    change (2 ^ 4) with (Z.of_nat 16). rewrite Nat2Z.inj_div. lia. }
  apply findchar_blocks_spec; lia.
Qed.

Lemma token_loop_skip next bad pre b :
  Forall (fun c => c <> next /\ bad c = false) pre -> b <> [] ->
  token_loop next bad (pre ++ b) = token_loop next bad b.
Proof.
  intros Hp Hb. induction Hp as [|c pre [Hn Hc] Hp IH]; [done|]. simpl.
  rewrite (proj2 (Z.eqb_neq _ _)), Hc by done.
  destruct (pre ++ b) eqn:E; [|done]. by apply app_nil in E as [_ ?].
Qed.

Lemma token_loop_end next bad pre :
  Forall (fun c => c <> next /\ bad c = false) pre -> pre <> [] ->
  token_loop next bad pre = PErr (-2).
Proof.
  intros Hp Hn. induction Hp as [|c pre [Hc Hb] Hp IH]; [done|]. simpl.
  rewrite (proj2 (Z.eqb_neq _ _)), Hb by done. destruct pre; [done|]. by apply IH.
Qed.

Definition scan_token_scalar (next_char : Z) (bad : Z -> bool) (buf : list Z) : pres (list Z) :=
  let* (_, b) := CHECK_EOF buf in
  let* (_, b) := token_loop next_char bad b in
  POk (token_of buf b) b.

Lemma scan_token_sse sse ranges next bad buf :
  (forall c, byte_ok c -> in_ranges ranges c = false -> c <> next /\ bad c = false) ->
  bytes_ok buf -> scan_token sse ranges next bad buf = scan_token_scalar next bad buf.
Proof.
  intros Hr Hb. unfold scan_token, scan_token_scalar.
  pose proof (findchar_fast_spec sse ranges buf) as Hf.
  destruct Hf as (found & b & -> & pre & -> & Hp & Hne). cbn [pbind].
  assert (Forall (fun c => c <> next /\ bad c = false) pre) as Hg.
  { apply list.Forall_app in Hb as [Hb _]. rewrite list.Forall_forall in Hp, Hb |- *.
    intros c Hc. apply Hr; auto. }
  destruct (decide (b = [])) as [->|Hn].
  - destruct found; [by destruct (Hne eq_refl) as (? & ? & ? & _)|]. rewrite app_nil_r.
    destruct pre as [|c pre]; [done|]. cbn [CHECK_EOF pbind].
    by rewrite token_loop_end.
  - assert (CHECK_EOF (pre ++ b) = POk tt (pre ++ b)) as ->.
    { destruct (pre ++ b) eqn:E; [|done]. by apply app_nil in E as [_ ?]. }
    assert ((if found then POk tt b else CHECK_EOF b) = POk tt b) as ->
      by (destruct found, b; done).
    cbn [pbind]. by rewrite token_loop_skip.
Qed.

(** A property of all bytes, by evaluation. *)
Lemma all_bytes (P : Z -> bool) :
  forallb P (Z.of_nat <$> seq 0 256) = true -> forall c, byte_ok c -> P c = true.
Proof.
  intros Hf c Hc. unfold uint_ok in Hc. rewrite forallb_forall in Hf. apply Hf.
  apply list_elem_of_In, list_elem_of_fmap. exists (Z.to_nat c). split; [lia|].
  apply elem_of_seq. lia.
Qed.

Lemma parse_token_scalar sse next buf : next = 32 \/ next = 58 -> bytes_ok buf ->
  parse_token sse next buf = scan_token_scalar next (fun c => negb (token_char c)) buf.
Proof.
  intros Hn. apply scan_token_sse. intros c Hc Hr.
  pose proof (all_bytes (fun c => in_ranges parse_token_ranges c ||
    (token_char c && negb (c =? 32) && negb (c =? 58))) ltac:(vm_compute; done) c Hc) as H.
  cbv beta in H. rewrite Hr in H. simpl in H. reflect_bools. rewrite H. split; [lia|done].
Qed.

Definition path_bad (c : Z) : bool :=
  negb (IS_PRINTABLE_ASCII c) && ((c <? 32) || (c =? 127)).

Lemma advance_token_scalar sse buf : bytes_ok buf ->
  ADVANCE_TOKEN sse buf = scan_token_scalar 32 path_bad buf.
Proof.
  apply scan_token_sse. intros c Hc Hr.
  pose proof (all_bytes (fun c => in_ranges [(0, 32); (127, 127)] c ||
    (negb (path_bad c) && negb (c =? 32))) ltac:(vm_compute; done) c Hc) as H.
  cbv beta in H. rewrite Hr in H. simpl in H. reflect_bools. done.
Qed.

Lemma ctl_not_printable c : byte_ok c -> negb (IS_PRINTABLE_ASCII c) && is_ctl c = is_ctl c.
Proof.
  intros Hc. pose proof (all_bytes (fun c => eqb (negb (IS_PRINTABLE_ASCII c) && is_ctl c)
    (is_ctl c)) ltac:(vm_compute; done) c Hc) as H. by apply eqb_prop.
Qed.

Lemma doit_spec n buf : (n <= length buf)%nat -> exists np b pre, doit n buf = POk np b /\
  buf = pre ++ b /\ Forall (fun c => IS_PRINTABLE_ASCII c = true) pre /\
  if np then b <> [] else length pre = n.
Proof.
  revert buf. induction n as [|n IH]; intros buf Hl; simpl; [by exists false, buf, []|].
  destruct buf as [|c buf]; [simpl in Hl; lia|].
  destruct (IS_PRINTABLE_ASCII c) eqn:E; [|by exists true, (c :: buf), []].
  destruct (IH buf) as (np & b & pre & -> & -> & Hf & Hn); [simpl in Hl; lia|].
  exists np, b, (c :: pre). split; [done|]. split; [done|]. split; [by constructor|]. destruct np; [done|]. simpl. lia.
Qed.

Lemma eol_unrolled_spec fuel buf : bytes_ok buf -> (length buf < fuel)%nat ->
  exists found b, eol_unrolled fuel buf = POk found b /\ scan_stop is_ctl buf b found.
Proof.
  revert buf. induction fuel as [|fuel IH]; intros buf Hb Hl; [lia|]. cbn [eol_unrolled].
  destruct (8 <=? length buf)%nat eqn:E8; [|exists false, buf; split; [done|apply scan_stop_here]]. apply Nat.leb_le in E8.
  destruct (doit_spec 8 buf E8) as (np & b & pre & -> & -> & Hp & Hnp). cbn [pbind].
  apply list.Forall_app in Hb as [Hb1 Hb2]. rewrite length_app in Hl.
  assert (Forall (fun c => is_ctl c = false) pre) as Hn.
  { rewrite list.Forall_forall in Hp. unfold bytes_ok in Hb1. rewrite list.Forall_forall in Hb1 |- *.
    intros c Hc. rewrite <- ctl_not_printable by auto. by rewrite Hp. }
  destruct np; [destruct b as [|c rest]; [done|]|].
  - apply list.Forall_cons in Hb2 as [? Hb2]. destruct (is_ctl c) eqn:E.
    { exists true, (c :: rest). split; [done|]. exists pre. split_and!; [done|done|by eauto]. }
    destruct (IH rest Hb2) as (found & b & -> & Hs); [simpl in Hl; lia|]. exists found, b. split; [done|].
    apply scan_stop_app; [done|]. apply (scan_stop_app _ [c]); [by constructor|done].
  - destruct (IH b Hb2) as (found & b' & -> & Hs); [lia|]. exists found, b'. split; [done|]. by apply scan_stop_app.
Qed.

Lemma eol_ranges c : byte_ok c -> in_ranges [(0, 8); (10, 31); (127, 127)] c = is_ctl c.
Proof.
  intros Hc. pose proof (all_bytes (fun c => eqb (in_ranges [(0, 8); (10, 31); (127, 127)] c)
    (is_ctl c)) ltac:(vm_compute; done) c Hc) as H. by apply eqb_prop.
Qed.

Lemma scan_stop_ext P Q buf b found : (forall c, byte_ok c -> P c = Q c) -> bytes_ok buf ->
  scan_stop P buf b found -> scan_stop Q buf b found.
Proof.
  intros He Hb (pre & -> & Hp & Hf). apply list.Forall_app in Hb as [Hb1 Hb2].
  exists pre. split_and!; [done| |].
  - unfold bytes_ok in Hb1. rewrite list.Forall_forall in Hp, Hb1 |- *.
    intros c Hc. rewrite <- He by auto. auto.
  - intros Ht. destruct (Hf Ht) as (c & rest & -> & Hc). apply list.Forall_cons in Hb2 as [? _].
    exists c, rest. by rewrite <- He.
Qed.

Lemma eol_loop_skip pre b : bytes_ok pre -> Forall (fun c => is_ctl c = false) pre ->
  eol_loop (pre ++ b) = eol_loop b.
Proof.
  intros Hb Hp. induction Hp as [|c pre Hc Hp IH]; [done|].
  apply list.Forall_cons in Hb as [? ?]. simpl. rewrite ctl_not_printable, Hc by done. auto.
Qed.

Definition eol_scalar (buf : list Z) : pres (list Z) :=
  let* (_, b) := eol_loop buf in
  match b with
  | [] => POob
  | c :: rest =>
      if c =? 13 then let* (_, b') := EXPECT_CHAR 10 rest in POk (token_of buf b) b'
      else if c =? 10 then POk (token_of buf b) rest
      else PErr (-1)
  end.

Lemma get_token_to_eol_scalar sse buf : bytes_ok buf ->
  get_token_to_eol sse buf = eol_scalar buf.
Proof.
  intros Hb. unfold get_token_to_eol, eol_scalar.
  set (r := if sse then _ else _).
  assert (exists found b, r = POk found b /\ scan_stop is_ctl buf b found) as (found & b & -> & Hr).
  { subst r. destruct sse; [|apply eol_unrolled_spec; [done|lia]].
    destruct (findchar_fast_spec true [(0, 8); (10, 31); (127, 127)] buf) as (found & b & -> & Hs). exists found, b. split; [done|].
    by apply (scan_stop_ext (in_ranges [(0, 8); (10, 31); (127, 127)])); [apply eol_ranges|..]. }
  destruct Hr as (pre & -> & Hp & Hf). cbn [pbind].
  apply list.Forall_app in Hb as [Hb1 Hb2]. rewrite eol_loop_skip by done.
  assert ((if found then POk tt b else eol_loop b) = eol_loop b) as ->; [|done].
  destruct found; [|done]. destruct (Hf eq_refl) as (c & rest & -> & Hc).
  apply list.Forall_cons in Hb2 as [? ?]. simpl. by rewrite ctl_not_printable, Hc.
Qed.

(** ** More input never changes a verdict

    [stable f buf]: [f] stays inside [buf]; when it succeeds or rejects, it does so without
    looking past what it has, so that any [more] bytes give the same verdict. *)
Definition stable {A} (f : list Z -> pres A) (buf : list Z) : Prop :=
  match f buf with
  | POk a r => r `suffix_of` buf /\
      forall more, bytes_ok more -> f (buf ++ more) = POk a (r ++ more)
  | PErr e => e = -2 \/ (e = -1 /\ forall more, bytes_ok more -> f (buf ++ more) = PErr (-1))
  | POob => False
  end.

Lemma stable_bind {A B} (m : list Z -> pres A) (k : A -> list Z -> pres B) buf :
  stable m buf ->
  (forall a r, m buf = POk a r -> r `suffix_of` buf -> stable (k a) r) ->
  stable (fun b => pbind (m b) k) buf.
Proof.
  unfold stable. intros Hm Hk. destruct (m buf) as [a r|e|] eqn:E; simpl; [| |done].
  - destruct Hm as [Hs Hm]. specialize (Hk a r eq_refl Hs). destruct (k a r) as [b r'|e|]; [| |done].
    + destruct Hk as [Hs' Hk]. split; [by etrans|]. intros more Hb. rewrite Hm by done. simpl. auto.
    + destruct Hk as [?|[? Hk]]; [auto|right]. split; [done|].
      intros more Hb. rewrite Hm by done. simpl. auto.
  - destruct Hm as [?|[? Hm]]; [auto|right]. split; [done|]. intros more Hb. by rewrite Hm.
Qed.

Lemma stable_ext {A} (f g : list Z -> pres A) buf :
  (forall more, bytes_ok more -> f (buf ++ more) = g (buf ++ more)) -> stable g buf -> stable f buf.
Proof.
  intros He. pose proof (He [] ltac:(constructor)) as H0. rewrite app_nil_r in H0.
  unfold stable. rewrite H0. destruct (g buf); [|intros [?|[? Hg]]; [auto|right]|done].
  - intros [? Hg]. split; [done|]. intros. rewrite He by done. auto.
  - split; [done|]. intros. rewrite He by done. auto.
Qed.

Lemma stable_ok {A} (a : A) buf : stable (POk a) buf.
Proof. split; [done|]. done. Qed.

Lemma stable_reject {A} buf : stable (fun _ => @PErr A (-1)) buf.
Proof. right. done. Qed.

Lemma stable_check_eof buf : stable CHECK_EOF buf.
Proof. destruct buf; [by left|]. split; done. Qed.

Lemma check_eof_ok buf a b : CHECK_EOF buf = POk a b -> b = buf /\ b <> [].
Proof. destruct buf; [done|]. by intros [= _ <-]. Qed.

Lemma stable_expect_no_check ch buf : buf <> [] -> stable (EXPECT_CHAR_NO_CHECK ch) buf.
Proof.
  destruct buf as [|c buf]; [done|]. intros _. unfold stable. simpl.
  destruct (negb (c =? ch)); [by right|]. split; [by exists [c]|done].
Qed.

Lemma stable_expect_char ch buf : stable (EXPECT_CHAR ch) buf.
Proof.
  destruct buf as [|c buf]; [by left|].
  apply (stable_expect_no_check ch (c :: buf)). done.
Qed.

Lemma suffix_bytes_ok r buf : r `suffix_of` buf -> bytes_ok buf -> bytes_ok r.
Proof. intros [k ->] [_ ?]%list.Forall_app. done. Qed.

(** A loop that looks at one character at a time. *)
Lemma stable_cons {A} (f : list Z -> pres A) c rest :
  (forall more, bytes_ok more -> f (c :: rest ++ more) = f (rest ++ more)) ->
  stable f rest -> stable f (c :: rest).
Proof.
  intros He. pose proof (He [] ltac:(constructor)) as H0. rewrite app_nil_r in H0.
  unfold stable. rewrite H0. destruct (f rest) as [a r|e|]; [| |done].
  - intros [Hs Hf]. split; [by apply suffix_cons_r|]. intros more Hm. simpl. rewrite He by done. auto.
  - intros [?|[? Hf]]; [auto|right]. split; [done|]. intros more Hm. simpl. rewrite He by done. auto.
Qed.

Lemma stable_token_loop next bad buf : buf <> [] -> stable (token_loop next bad) buf.
Proof.
  induction buf as [|c rest IH]; [done|]. intros _.
  destruct (c =? next) eqn:En; [|destruct (bad c) eqn:Eb; [|destruct rest as [|d rest]]].
  - unfold stable. simpl. rewrite En. done.
  - unfold stable. simpl. rewrite En, Eb. by right.
  - unfold stable. simpl. rewrite En, Eb. by left.
  - apply stable_cons; [|by apply IH]. intros more _. cbn [token_loop app].
    rewrite En, Eb. done.
Qed.

Lemma token_of_app buf r more : r `suffix_of` buf ->
  token_of (buf ++ more) (r ++ more) = token_of buf r.
Proof.
  intros [k ->]. unfold token_of. rewrite !length_app.
  replace (length k + length r + length more - (length r + length more))%nat with (length k) by lia.
  replace (length k + length r - length r)%nat with (length k) by lia.
  by rewrite <- app_assoc, !take_app_length.
Qed.

Lemma token_of_split used r : token_of (used ++ r) r = used.
Proof.
  unfold token_of. rewrite length_app.
  replace (length used + length r - length r)%nat with (length used) by lia.
  by rewrite take_app_length.
Qed.

(** A step whose value is the text it moved over. *)
Lemma stable_with_token {A B} (m : list Z -> pres A) (k : A -> list Z -> list Z -> pres B) buf :
  stable m buf ->
  (forall a r, m buf = POk a r -> r `suffix_of` buf -> stable (k a (token_of buf r)) r) ->
  stable (fun b => pbind (m b) (fun a r => k a (token_of b r) r)) buf.
Proof.
  intros Hm Hk. pose proof Hm as Hm'. unfold stable in Hm'.
  destruct (m buf) as [a r|e|] eqn:E; [| |done].
  - destruct Hm' as [Hs Hm']. specialize (Hk a r eq_refl Hs).
    unfold stable in *. rewrite E. simpl.
    destruct (k a (token_of buf r) r) as [b r'|e|] eqn:Ek; [| |done].
    + destruct Hk as [Hs' Hk]. split; [by etrans|]. intros more Hb. rewrite Hm' by done. simpl.
      rewrite token_of_app by done. auto.
    + destruct Hk as [?|[? Hk]]; [auto|right]. split; [done|]. intros more Hb.
      rewrite Hm' by done. simpl. rewrite token_of_app by done. auto.
  - unfold stable. rewrite E. simpl. destruct Hm' as [?|[? Hm']]; [auto|right].
    split; [done|]. intros more Hb. by rewrite Hm'.
Qed.

Lemma stable_scan_token next bad buf : stable (scan_token_scalar next bad) buf.
Proof.
  destruct buf as [|c buf]; [by left|].
  apply (stable_ext _ (fun b => pbind (token_loop next bad b) (fun _ r => POk (token_of b r) r)));
    [done|].
  apply (stable_with_token (token_loop next bad) (fun _ t r => POk t r));
    [by apply stable_token_loop|]. intros. apply stable_ok.
Qed.

Lemma stable_eol_loop buf : bytes_ok buf -> stable eol_loop buf.
Proof.
  induction buf as [|c rest IH]; intros Hb; [by left|].
  destruct (negb (IS_PRINTABLE_ASCII c) && is_ctl c) eqn:E.
  - unfold stable. simpl. rewrite E. done.
  - apply stable_cons; [intros; simpl; by rewrite E|].
    apply IH. by apply list.Forall_cons in Hb as [_ ?].
Qed.

Lemma eol_loop_ok buf a r : eol_loop buf = POk a r -> r <> [].
Proof.
  induction buf as [|c rest IH]; [done|]. simpl. destruct (negb _ && _); [|auto].
  by intros [= <- <-].
Qed.

Lemma stable_eol buf : bytes_ok buf -> stable eol_scalar buf.
Proof.
  intros Hb.
  apply (stable_with_token eol_loop (fun _ t r => match r with
    | [] => POob
    | c :: rest => if c =? 13 then let* (_, b') := EXPECT_CHAR 10 rest in POk t b'
                   else if c =? 10 then POk t rest else PErr (-1) end));
    [by apply stable_eol_loop|].
  intros a r Hr _. apply eol_loop_ok in Hr. destruct r as [|c rest]; [done|]. clear Hr.
  destruct (c =? 13) eqn:E1; [|destruct (c =? 10) eqn:E2].
  - unfold stable. cbn [app]. rewrite E1.
    pose proof (stable_bind (EXPECT_CHAR 10) (fun _ b' => POk (token_of buf (c :: rest)) b') rest
      (stable_expect_char 10 rest) ltac:(intros; apply stable_ok)) as Hs.
    unfold stable in Hs. destruct (pbind _ _) as [b r'|e|]; [| |done].
    + destruct Hs as [Hs Hm]. split; [by apply suffix_cons_r|done].
    + done.
  - unfold stable. cbn [app]. rewrite E1, E2. split; [by exists [c]|done].
  - unfold stable. cbn [app]. rewrite E1, E2. by right.
Qed.

Lemma stable_token_to_eol sse buf : bytes_ok buf -> stable (get_token_to_eol sse) buf.
Proof.
  intros Hb. apply (stable_ext _ eol_scalar); [|by apply stable_eol].
  intros more Hm. apply get_token_to_eol_scalar. by apply list.Forall_app.
Qed.

Lemma stable_parse_token sse next buf : next = 32 \/ next = 58 -> bytes_ok buf ->
  stable (parse_token sse next) buf.
Proof.
  intros Hn Hb. eapply stable_ext; [|apply stable_scan_token].
  intros more Hm. apply parse_token_scalar; [done|]. by apply list.Forall_app.
Qed.

Lemma stable_advance_token sse buf : bytes_ok buf -> stable (ADVANCE_TOKEN sse) buf.
Proof.
  intros Hb. eapply stable_ext; [|apply stable_scan_token].
  intros more Hm. apply advance_token_scalar. by apply list.Forall_app.
Qed.

(** A token ends at its delimiter. *)
Lemma scan_token_ok next bad buf t r : scan_token_scalar next bad buf = POk t r ->
  exists rest, r = next :: rest /\ buf = t ++ r /\ Forall (fun c => c <> next /\ bad c = false) t.
Proof.
  unfold scan_token_scalar. destruct buf as [|c0 buf0]; [done|]. cbn [CHECK_EOF pbind].
  generalize (c0 :: buf0) as buf. clear. intros buf.
  assert (forall b r', token_loop next bad b = POk tt r' ->
    exists pre rest, b = pre ++ r' /\ r' = next :: rest /\
      Forall (fun c => c <> next /\ bad c = false) pre) as Hl.
  { clear. induction b as [|c b IH]; [done|]. intros r'. simpl.
    destruct (c =? next) eqn:E; reflect_bools; [intros [= <-]; subst; by exists [], b|].
    destruct (bad c) eqn:Eb; [done|]. destruct b as [|d b]; [done|].
    intros (pre & rest & -> & -> & Hp)%IH. exists (c :: pre), rest.
    split_and!; [done|done|by constructor]. }
  destruct (token_loop next bad buf) as [[] r'|e|] eqn:E; [|done|done]. simpl.
  intros [= <- <-]. apply Hl in E as (pre & rest & -> & -> & Hp).
  rewrite token_of_split. eauto.
Qed.

Lemma stable_skip_spaces buf : buf <> [] -> stable skip_spaces buf.
Proof.
  induction buf as [|c rest IH]; [done|]. intros _. destruct rest as [|d rest]; [by left|].
  destruct (d =? 32) eqn:E.
  - apply stable_cons; [|by apply IH]. intros more _. cbn [skip_spaces app]. by rewrite E.
  - unfold stable. simpl. rewrite E. split; [by exists [c]|done].
Qed.

Lemma stable_skip_blanks buf : stable skip_blanks buf.
Proof.
  induction buf as [|c rest IH]; [by left|].
  destruct ((c =? 32) || (c =? 9)) eqn:E.
  - apply stable_cons; [|done]. intros more _. simpl. by rewrite E.
  - unfold stable. simpl. rewrite E. done.
Qed.

Lemma stable_line_end none buf : buf <> [] -> (forall b, stable none b) ->
  stable (line_end none) buf.
Proof.
  destruct buf as [|c rest]; [done|]. intros _ Hn.
  destruct (c =? 13) eqn:E1; [|destruct (c =? 10) eqn:E2].
  - pose proof (stable_expect_char 10 rest) as Hs. unfold stable in *. simpl. rewrite E1.
    destruct (EXPECT_CHAR 10 rest); [|done|done].
    destruct Hs. split; [by apply suffix_cons_r|done].
  - unfold stable. simpl. rewrite E1, E2. split; [by exists [c]|done].
  - eapply stable_ext; [|apply Hn]. intros more _. simpl. by rewrite E1, E2.
Qed.

Lemma expect_chars_ok chs buf : (length chs <= length buf)%nat ->
  stable (expect_chars chs) buf /\
  forall a r, expect_chars chs buf = POk a r -> buf = chs ++ r.
Proof.
  revert buf. induction chs as [|ch chs IH]; intros buf Hl.
  { split; [apply stable_ok|]. by intros a r [= _ <-]. }
  destruct buf as [|c buf]; [simpl in Hl; lia|]. simpl in Hl.
  destruct (IH buf ltac:(lia)) as [Hs Hr]. split.
  - apply (stable_bind (EXPECT_CHAR_NO_CHECK ch)); [by apply stable_expect_no_check|].
    intros [] r. simpl. destruct (negb (c =? ch)); [done|]. by intros [= <-] _.
  - intros a r. cbn [expect_chars EXPECT_CHAR_NO_CHECK].
    destruct (c =? ch) eqn:E; [|done]. simpl. intros ->%Hr. by apply Z.eqb_eq in E as ->.
Qed.

(** The version and the end of its line, whose first character [parse_http_version] has
    checked to be there. *)
Definition version_line (buf : list Z) : pres Z :=
  let* (v, b) := parse_http_version buf in
  let* (_, b) := line_end (fun _ => PErr (-1)) b in POk v b.

Lemma stable_version_line buf : stable version_line buf.
Proof.
  destruct (length buf <? 9)%nat eqn:El.
  { unfold stable, version_line, parse_http_version. rewrite El. by left. }
  apply Nat.ltb_ge in El.
  apply (stable_ext _ (fun b => pbind (expect_chars (bytes_of_string "HTTP/1.") b)
    (fun _ b => pbind (PARSE_INT b)
      (fun v b => pbind (line_end (fun _ => PErr (-1)) b) (fun _ => POk v))))).
  { intros more _. unfold version_line, parse_http_version.
    rewrite (proj2 (Nat.ltb_ge _ _)) by (rewrite length_app; lia).
    by destruct (expect_chars _ (buf ++ more)). }
  destruct (expect_chars_ok (bytes_of_string "HTTP/1.") buf) as [Hs Hr]; [simpl; lia|].
  apply stable_bind; [done|]. intros [] r He _. apply Hr in He. subst buf.
  rewrite length_app in El. simpl in El. destruct r as [|c [|d r]]; [simpl in *; lia..|].
  destruct ((c <? 48) || (57 <? c)) eqn:E.
  { unfold stable. simpl. rewrite E. by right. }
  apply (stable_ext _ (fun b => pbind (line_end (fun _ => PErr (-1)) (tail b)) (fun _ => POk (c - 48)))).
  { intros more _. simpl. by rewrite E. }
  apply (stable_bind (fun b => line_end (fun _ => PErr (-1)) (tail b))); [|intros; apply stable_ok].
  pose proof (stable_line_end (fun _ => PErr (-1)) (d :: r) ltac:(done)
    ltac:(intros; apply stable_reject)) as Hl.
  unfold stable in *. cbn [tail app] in *. destruct (line_end _ (d :: r)); [|done|done].
  destruct Hl. split; [by apply suffix_cons_r|done].
Qed.

Lemma stable_tail {A} (f : list Z -> pres A) c buf : stable f buf ->
  stable (fun b => f (tail b)) (c :: buf).
Proof.
  unfold stable. cbn [tail app]. destruct (f buf); [|done|done].
  intros []. split; [by apply suffix_cons_r|done].
Qed.

Lemma stable_header_name sse first buf : buf <> [] -> bytes_ok buf ->
  stable (header_name sse first) buf.
Proof.
  intros Hn Hb. destruct buf as [|c buf]; [done|].
  apply (stable_ext _ (fun buf => if negb (negb first && ((c =? 32) || (c =? 9))) then
    pbind (parse_token sse 58 buf) (fun nm buf => if (length nm =? 0)%nat then PErr (-1)
      else match buf with [] => POob | _ :: buf => let* (_, buf) := skip_blanks buf in POk (Some nm) buf end) else POk None buf)); [done|].
  destruct (negb _); [|apply stable_ok].
  apply stable_bind; [apply stable_parse_token; auto|]. intros nm r Hr Hs.
  rewrite parse_token_scalar in Hr by auto. apply scan_token_ok in Hr as (rest & -> & _).
  destruct (length nm =? 0)%nat; [apply stable_reject|].
  apply (stable_ext _ (fun b => pbind (skip_blanks (tail b)) (fun _ => POk (Some nm)))); [done|].
  apply (stable_tail (fun b => pbind (skip_blanks b) (fun _ => POk (Some nm)))).
  apply stable_bind; [apply stable_skip_blanks|]. intros. apply stable_ok.
Qed.

Lemma stable_parse_header sse first buf : bytes_ok buf -> stable (parse_header sse first) buf.
Proof.
  intros Hb. unfold parse_header.
  apply stable_bind; [apply stable_check_eof|]. intros [] b He Hs.
  pose proof (suffix_bytes_ok _ _ Hs Hb) as Hb1.
  apply stable_bind; [apply stable_header_name; [by eapply check_eof_ok|done]|].
  intros nm b2 _ Hs2. pose proof (suffix_bytes_ok _ _ Hs2 Hb1) as Hb2.
  apply stable_bind; [by apply stable_token_to_eol|]. intros. apply stable_ok.
Qed.

Lemma stable_parse_headers sse left acc buf : bytes_ok buf ->
  stable (parse_headers sse left acc) buf.
Proof.
  revert acc buf. induction left as [|left IH]; intros acc [|c rest] Hb; [by left| |by left|].
  all: destruct (c =? 13) eqn:E1; [|destruct (c =? 10) eqn:E2].
  1,4: apply (stable_ext _ (fun b => pbind (EXPECT_CHAR 10 (tail b)) (fun _ => POk acc)));
    [intros more _; simpl; by rewrite E1|];
    apply (stable_tail (fun b => pbind (EXPECT_CHAR 10 b) (fun _ => POk acc)));
    apply stable_bind; [apply stable_expect_char|intros; apply stable_ok].
  1,3: unfold stable; simpl; rewrite E1, E2; split; [by exists [c]|done].
  - unfold stable. simpl. rewrite E1, E2. by right.
  - apply (stable_ext _ (fun b => pbind (parse_header sse (length acc =? 0)%nat b)
      (fun h => parse_headers sse left (acc ++ [h])))).
    { intros more _. cbn [parse_headers app]. by rewrite E1, E2. }
    apply stable_bind; [by apply stable_parse_header|].
    intros h r _ Hs. apply IH. by apply (suffix_bytes_ok _ (c :: rest)).
Qed.

Lemma stable_suffix {A} (f : list Z -> pres A) buf a r : stable f buf -> f buf = POk a r ->
  r `suffix_of` buf.
Proof. unfold stable. intros Hs He. rewrite He in Hs. by destruct Hs. Qed.

Lemma skip_spaces_suffix c buf a r : skip_spaces (c :: buf) = POk a r -> r `suffix_of` c :: buf.
Proof. apply stable_suffix. by apply stable_skip_spaces. Qed.

(** [parse_request] from the path on. *)
Definition from_path (sse : bool) (max : nat) (m buf : list Z) : pres request :=
  let* (p, buf) := ADVANCE_TOKEN sse buf in
  let* (_, buf) := skip_spaces buf in
  if (length m =? 0)%nat || (length p =? 0)%nat then PErr (-1)
  else
    let* (v, buf) := parse_http_version buf in
    let* (_, buf) := line_end (fun _ => PErr (-1)) buf in
    let* (hs, buf) := parse_headers sse max [] buf in
    POk (mkRequest m p v hs) buf.

Lemma stable_from_path sse max m buf : bytes_ok buf -> stable (from_path sse max m) buf.
Proof.
  intros Hb3. unfold from_path.
  apply stable_bind; [by apply stable_advance_token|]. intros p b4 Hp Hs4.
  rewrite advance_token_scalar in Hp by done. apply scan_token_ok in Hp as (? & -> & _).
  pose proof (suffix_bytes_ok _ _ Hs4 Hb3) as Hb4.
  apply stable_bind; [by apply stable_skip_spaces|]. intros [] b5 _ Hs5.
  pose proof (suffix_bytes_ok _ _ Hs5 Hb4) as Hb5.
  destruct (_ || _); [apply stable_reject|].
  apply (stable_ext _ (fun b => pbind (version_line b) (fun v b =>
    pbind (parse_headers sse max [] b) (fun hs => POk (mkRequest m p v hs))))).
  { intros more _. unfold version_line. destruct (parse_http_version (b5 ++ more)); [|done|done].
    simpl. by destruct (line_end _ _). }
  apply stable_bind; [apply stable_version_line|]. intros v b6 _ Hs6.
  pose proof (suffix_bytes_ok _ _ Hs6 Hb5) as Hb6.
  apply stable_bind; [by apply stable_parse_headers|]. intros. apply stable_ok.
Qed.

Lemma stable_parse_request sse max buf : bytes_ok buf -> stable (parse_request sse max) buf.
Proof.
  intros Hb. unfold parse_request.
  apply stable_bind; [apply stable_check_eof|]. intros [] b0 He Hs.
  pose proof (suffix_bytes_ok _ _ Hs Hb) as Hb0.
  apply stable_bind; [apply stable_line_end; [by eapply check_eof_ok|]; intros; apply stable_ok|].
  intros [] b1 _ Hs1. pose proof (suffix_bytes_ok _ _ Hs1 Hb0) as Hb1.
  apply stable_bind; [apply stable_parse_token; auto|]. intros m b2 Hm Hs2.
  pose proof (suffix_bytes_ok _ _ Hs2 Hb1) as Hb2.
  rewrite parse_token_scalar in Hm by auto. apply scan_token_ok in Hm as (? & -> & _).
  apply stable_bind; [by apply stable_skip_spaces|]. intros [] b3 _ Hs3.
  apply stable_from_path. by apply (suffix_bytes_ok _ _ Hs3).
Qed.

Lemma pbind_ok {A B} (m : pres A) (k : A -> list Z -> pres B) b r :
  pbind m k = POk b r -> exists a r', m = POk a r' /\ k a r' = POk b r.
Proof. destruct m; [|done|done]. eauto. Qed.

Lemma skip_spaces_moves buf a r : skip_spaces buf = POk a r -> (length r < length buf)%nat.
Proof.
  induction buf as [|c [|d rest] IH]; [done|done|]. cbn [skip_spaces]. destruct (d =? 32).
  - intros H%IH. simpl in *. lia.
  - intros [= _ <-]. simpl. lia.
Qed.

(** A successful parse consumes something. *)
Lemma parse_request_moves sse max buf q r : bytes_ok buf ->
  parse_request sse max buf = POk q r -> (length r < length buf)%nat.
Proof.
  intros Hb H. unfold parse_request in H.
  apply pbind_ok in H as ([] & b0 & [-> Hn]%check_eof_ok & H).
  apply pbind_ok in H as ([] & b1 & H1 & H).
  pose proof (stable_suffix _ _ _ _ (stable_line_end _ _ Hn (stable_ok tt)) H1) as Hs1.
  apply (suffix_bytes_ok _ _ Hs1) in Hb as Hb1. apply suffix_length in Hs1.
  apply pbind_ok in H as (m & b2 & H2 & H).
  pose proof (stable_suffix _ _ _ _ (stable_parse_token sse 32 b1 ltac:(auto) Hb1) H2) as Hs2.
  apply (suffix_bytes_ok _ _ Hs2) in Hb1 as Hb2. apply suffix_length in Hs2.
  apply pbind_ok in H as ([] & b3 & H3 & H). apply skip_spaces_moves in H3 as Hl3.
  assert (b3 `suffix_of` b2) as Hs3 by (destruct b2; [done|by eapply skip_spaces_suffix]).
  apply (suffix_bytes_ok _ _ Hs3) in Hb2 as Hb3.
  pose proof (stable_suffix _ _ _ _ (stable_from_path sse max m b3 Hb3) H) as Hs4.
  apply suffix_length in Hs4. lia.
Qed.

(** ** The vector build parses as the scalar one *)

Lemma pbind_ext {A B} (m m' : pres A) (k k' : A -> list Z -> pres B) :
  m = m' -> (forall a r, m = POk a r -> k a r = k' a r) -> pbind m k = pbind m' k'.
Proof. intros <- Hk. destruct m; simpl; auto. Qed.

Lemma header_name_sse sse first buf : bytes_ok buf ->
  header_name sse first buf = header_name false first buf.
Proof.
  intros Hb. unfold header_name. destruct buf; [done|]. by rewrite !(parse_token_scalar _ _ (_ :: _)) by auto.
Qed.

Lemma parse_header_sse sse first buf : bytes_ok buf ->
  parse_header sse first buf = parse_header false first buf.
Proof.
  intros Hb. unfold parse_header. apply pbind_ext; [done|].
  intros [] r [-> Hn]%check_eof_ok. apply pbind_ext; [by apply header_name_sse|].
  intros nm b Hs%(stable_suffix _ _ _ _ (stable_header_name _ _ _ Hn Hb)).
  apply (suffix_bytes_ok _ _ Hs) in Hb.
  by rewrite !get_token_to_eol_scalar.
Qed.

Lemma parse_headers_sse sse left acc buf : bytes_ok buf ->
  parse_headers sse left acc buf = parse_headers false left acc buf.
Proof.
  revert acc buf. induction left as [|left IH]; intros acc [|c rest] Hb; [done..|].
  cbn [parse_headers]. destruct (c =? 13); [done|]. destruct (c =? 10); [done|].
  apply pbind_ext; [by apply parse_header_sse|].
  intros h r Hs%(stable_suffix _ _ _ _ (stable_parse_header _ _ _ Hb)).
  apply IH. by apply (suffix_bytes_ok _ _ Hs).
Qed.

Lemma parse_request_sse sse max buf : bytes_ok buf ->
  parse_request sse max buf = parse_request false max buf.
Proof.
  intros Hb. unfold parse_request. apply pbind_ext; [done|]. intros [] b [-> Hn]%check_eof_ok.
  apply pbind_ext; [done|].
  intros [] b1 Hs%(stable_suffix _ _ _ _ (stable_line_end _ _ Hn (stable_ok tt))).
  apply (suffix_bytes_ok _ _ Hs) in Hb as Hb1. clear Hs.
  apply pbind_ext; [by rewrite !parse_token_scalar by auto|]. intros m b2 Hm.
  pose proof (stable_suffix _ _ _ _ (stable_parse_token sse 32 b1 ltac:(auto) Hb1) Hm) as Hs.
  apply (suffix_bytes_ok _ _ Hs) in Hb1 as Hb2. clear Hs.
  rewrite parse_token_scalar in Hm by auto. apply scan_token_ok in Hm as (? & -> & _).
  apply pbind_ext; [done|].
  intros [] b3 Hs%skip_spaces_suffix.
  apply (suffix_bytes_ok _ _ Hs) in Hb2 as Hb3. clear Hs.
  apply pbind_ext; [by rewrite !advance_token_scalar|]. intros p b4 Hp.
  pose proof (stable_suffix _ _ _ _ (stable_advance_token sse b3 Hb3) Hp) as Hs.
  apply (suffix_bytes_ok _ _ Hs) in Hb3 as Hb4. clear Hs.
  rewrite advance_token_scalar in Hp by done. apply scan_token_ok in Hp as (? & -> & _).
  apply pbind_ext; [done|].
  intros [] b5 Hs%skip_spaces_suffix.
  apply (suffix_bytes_ok _ _ Hs) in Hb4 as Hb5. clear Hs.
  destruct (_ || _); [done|]. apply pbind_ext; [done|]. intros v b6 Hv.
  apply pbind_ext; [done|]. intros [] b7 Hl.
  assert (b7 `suffix_of` b5) as Hs.
  { apply (stable_suffix version_line _ v); [apply stable_version_line|].
    unfold version_line. rewrite Hv. simpl. by rewrite Hl. }
  apply (suffix_bytes_ok _ _ Hs) in Hb5 as Hb7.
  apply pbind_ext; [by apply parse_headers_sse|done].
Qed.

(** ** Reference: the text of a request *)

Definition crlf : list Z := [13; 10].

Definition print_header (h : list Z * list Z) : list Z := h.1 ++ [58; 32] ++ h.2 ++ crlf.

Definition print_request (m p : list Z) (v : Z) (hs : list (list Z * list Z)) : list Z :=
  m ++ [32] ++ p ++ [32] ++ bytes_of_string "HTTP/1." ++ [48 + v] ++ crlf
    ++ concat (print_header <$> hs) ++ crlf.

Definition blank (c : Z) : bool := (c =? 32) || (c =? 9).

Definition token_ok (t : list Z) : Prop :=
  t <> [] /\ Forall (fun c => byte_ok c /\ token_char c = true) t.

Definition path_ok (p : list Z) : Prop :=
  p <> [] /\ Forall (fun c => byte_ok c /\ 32 < c /\ c <> 127) p.

(** A field value: no control characters but HT, and no blank at either end. *)
Definition value_ok (v : list Z) : Prop :=
  Forall (fun c => byte_ok c /\ is_ctl c = false) v /\
  from_option (fun c => blank c = false) True (head v) /\
  from_option (fun c => blank c = false) True (list.last v).

Lemma scan_token_run next bad t rest : Forall (fun c => c <> next /\ bad c = false) t ->
  scan_token_scalar next bad (t ++ next :: rest) = POk t (next :: rest).
Proof.
  intros Ht. unfold scan_token_scalar.
  assert (CHECK_EOF (t ++ next :: rest) = POk tt (t ++ next :: rest)) as -> by (by destruct t).
  cbn [pbind]. rewrite token_loop_skip by done. simpl. rewrite Z.eqb_refl. simpl.
  by rewrite token_of_split.
Qed.

Lemma token_ok_scan next t : next = 32 \/ next = 58 -> token_ok t ->
  Forall (fun c => c <> next /\ negb (token_char c) = false) t.
Proof.
  intros Hn [_ Ht]. eapply list.Forall_impl; [exact Ht|]. intros c [_ Hc].
  split; [|by rewrite Hc]. intros ->. by destruct Hn as [-> | ->].
Qed.

Lemma eol_run v rest : bytes_ok v -> Forall (fun c => is_ctl c = false) v ->
  eol_scalar (v ++ crlf ++ rest) = POk v rest.
Proof.
  intros Hb Hv. unfold eol_scalar. rewrite eol_loop_skip by done. simpl.
  by rewrite token_of_split.
Qed.

Lemma trim_end_id v : from_option (fun c => blank c = false) True (list.last v) -> trim_end v = v.
Proof.
  destruct v as [|c v _] using rev_ind; [done|]. rewrite last_snoc. simpl. intros Hc.
  unfold trim_end. rewrite reverse_snoc. simpl. unfold blank in Hc. rewrite Hc.
  by rewrite reverse_cons, reverse_involutive.
Qed.

Lemma skip_blanks_value v rest : value_ok v ->
  skip_blanks (32 :: v ++ crlf ++ rest) = POk tt (v ++ crlf ++ rest).
Proof.
  intros (_ & Hh & _). destruct v as [|c v]; [done|]. simpl in *. unfold blank in Hh. by rewrite Hh.
Qed.

Definition header_ok (h : list Z * list Z) : Prop := token_ok h.1 /\ value_ok h.2.

Lemma token_ok_bytes t : token_ok t -> bytes_ok t.
Proof. intros [_ H]. eapply list.Forall_impl; [exact H|]. by intros c [? _]. Qed.

Lemma value_ok_bytes v : value_ok v -> bytes_ok v.
Proof. intros [H _]. eapply list.Forall_impl; [exact H|]. by intros c [? _]. Qed.

Lemma crlf_ok : bytes_ok crlf.
Proof. by apply (bool_decide_unpack _). Qed.

Lemma print_header_ok h : header_ok h -> bytes_ok (print_header h).
Proof.
  intros [Ht Hv]. unfold print_header. repeat apply Forall_app_2;
    [by apply token_ok_bytes|by apply (bool_decide_unpack _)|by apply value_ok_bytes|apply crlf_ok].
Qed.

Lemma parse_header_run sse first h rest : header_ok h -> bytes_ok rest ->
  parse_header sse first (print_header h ++ rest) = POk (mkHeader (Some h.1) h.2) rest.
Proof.
  intros Hh Hr. pose proof (print_header_ok h Hh) as Hb. destruct Hh as [Ht Hv].
  assert (bytes_ok (print_header h ++ rest)) as Hb' by (by apply Forall_app_2).
  rewrite parse_header_sse by done. destruct h as [n v]. unfold print_header in *. simpl fst in *.
  simpl snd in *. rewrite <- !app_assoc in *. unfold parse_header.
  pose proof Ht as [Hn Hc]. destruct n as [|c n]; [done|]. cbn [CHECK_EOF pbind app].
  unfold header_name. cbn [app].
  assert (negb (negb first && ((c =? 32) || (c =? 9))) = true) as ->.
  { apply list.Forall_cons in Hc as [[_ Hc] _].
    destruct (c =? 32) eqn:E; [apply Z.eqb_eq in E; by subst|].
    destruct (c =? 9) eqn:E'; [apply Z.eqb_eq in E'; by subst|]. by destruct first. }
  rewrite parse_token_scalar by auto.
  pose proof (scan_token_run 58 (fun c => negb (token_char c)) (c :: n) (32 :: v ++ crlf ++ rest)
    (token_ok_scan 58 _ ltac:(auto) Ht)) as Hs.
  cbn [app] in Hs. rewrite Hs. cbn [pbind length Nat.eqb tail].
  rewrite skip_blanks_value by done. cbn [pbind].
  assert (bytes_ok (v ++ crlf ++ rest)) as Hb2
    by (repeat apply Forall_app_2; [by apply value_ok_bytes|apply crlf_ok|done]).
  rewrite get_token_to_eol_scalar by done.
  destruct Hv as (Hv1 & _ & Hv3). rewrite eol_run; [..|].
  - simpl. by rewrite trim_end_id.
  - eapply list.Forall_impl; [exact Hv1|]. by intros ? [? _].
  - eapply list.Forall_impl; [exact Hv1|]. by intros ? [_ ?].
Qed.

Definition to_header (h : list Z * list Z) : phr_header := mkHeader (Some h.1) h.2.

Lemma parse_headers_run sse left acc hs rest :
  Forall header_ok hs -> (length hs <= left)%nat -> bytes_ok rest ->
  parse_headers sse left acc (concat (print_header <$> hs) ++ crlf ++ rest)
  = POk (acc ++ (to_header <$> hs)) rest.
Proof.
  intros Hh. revert left acc. induction Hh as [|h hs Hh Hhs IH]; intros left acc Hl Hr.
  { simpl. rewrite app_nil_r. by destruct left. }
  destruct left as [|left]; [simpl in Hl; lia|]. rewrite fmap_cons. cbn [concat].
  rewrite <- app_assoc. set (tl := concat (print_header <$> hs) ++ crlf ++ rest).
  assert (bytes_ok tl) as Htl.
  { subst tl. repeat apply Forall_app_2; [|apply crlf_ok|done]. clear -Hhs.
    induction Hhs; simpl; [constructor|]. apply Forall_app_2; [by apply print_header_ok|done]. }
  pose proof (parse_header_run sse (length acc =? 0)%nat h tl Hh Htl) as Hp.
  assert (exists c n, print_header h ++ tl = c :: n /\ c <> 13 /\ c <> 10) as (c & n & He & H13 & H10).
  { destruct Hh as [[Hne Hc] _]. unfold print_header. destruct h.1 as [|c n]; [done|].
    apply list.Forall_cons in Hc as [[_ Hc] _]. eexists c, _. split; [done|].
    split; intros ->; done. }
  rewrite He in *. cbn [parse_headers]. rewrite !(proj2 (Z.eqb_neq _ _)) by done.
  rewrite Hp. cbn [pbind]. subst tl. rewrite IH; [|simpl in Hl; lia|done].
  by rewrite <- app_assoc.
Qed.

Record request_ok (m p : list Z) (v : Z) (hs : list (list Z * list Z)) : Prop := {
  ro_method : token_ok m;
  ro_path : path_ok p;
  ro_version : 0 <= v <= 9;
  ro_headers : Forall header_ok hs }.

Lemma path_ok_scan p : path_ok p ->
  bytes_ok p /\ Forall (fun c => c <> 32 /\ path_bad c = false) p.
Proof.
  intros [_ Hp]. split; (eapply list.Forall_impl; [exact Hp|]); intros c (Hc & H1 & H2); [done|].
  split; [lia|]. unfold path_bad. rewrite (proj2 (Z.ltb_ge c 32)), (proj2 (Z.eqb_neq c 127)) by lia.
  by rewrite andb_false_r.
Qed.

Lemma headers_bytes_ok hs : Forall header_ok hs -> bytes_ok (concat (print_header <$> hs)).
Proof.
  induction 1; simpl; [constructor|]. apply Forall_app_2; [by apply print_header_ok|done].
Qed.

Lemma print_request_ok m p v hs : request_ok m p v hs -> bytes_ok (print_request m p v hs).
Proof.
  intros [Hm Hp Hv Hh]. apply path_ok_scan in Hp as [Hp _].
  unfold print_request. repeat apply Forall_app_2.
  all: try apply crlf_ok; try by apply (bool_decide_unpack _).
  - by apply token_ok_bytes.
  - done.
  - repeat constructor; unfold uint_ok; lia.
  - by apply headers_bytes_ok.
Qed.

Lemma version_line_run v rest : 0 <= v <= 9 ->
  version_line (bytes_of_string "HTTP/1." ++ [48 + v] ++ crlf ++ rest) = POk v rest.
Proof.
  intros Hv. unfold version_line, parse_http_version. cbn [length app bytes_of_string Nat.ltb Nat.leb].
  assert ((48 + v <? 48) || (57 <? 48 + v) = false) as Hd.
  { apply orb_false_iff. split; apply Z.ltb_ge; lia. }
  simpl. rewrite Hd. simpl. by replace (48 + v - 48) with v by lia.
Qed.

Lemma parse_request_run sse max m p v hs rest :
  request_ok m p v hs -> (length hs <= max)%nat -> bytes_ok rest ->
  parse_request sse max (print_request m p v hs ++ rest)
  = POk (mkRequest m p v (to_header <$> hs)) rest.
Proof.
  intros Hok Hmax Hr. pose proof (print_request_ok _ _ _ _ Hok) as Hb.
  destruct Hok as [Hm Hp Hv Hh].
  set (tl := concat (print_header <$> hs) ++ crlf ++ rest).
  set (vl := bytes_of_string "HTTP/1." ++ [48 + v] ++ crlf ++ tl).
  assert (print_request m p v hs ++ rest = m ++ 32 :: p ++ 32 :: vl) as He.
  { subst vl tl. unfold print_request. by rewrite <- !app_assoc. }
  assert (bytes_ok (m ++ 32 :: p ++ 32 :: vl)) as Hb' by (rewrite <- He; by apply Forall_app_2).
  rewrite He. clear He Hb.
  apply list.Forall_app in Hb' as Hb2. destruct Hb2 as [_ [_ Hb2]%list.Forall_cons].
  unfold parse_request. pose proof Hm as [Hne Hmc]. pose proof Hp as [Hpe _].
  destruct m as [|c m]; [done|]. cbn [CHECK_EOF pbind app].
  assert (line_end (POk tt) (c :: m ++ 32 :: p ++ 32 :: vl)
    = POk tt (c :: m ++ 32 :: p ++ 32 :: vl)) as ->.
  { apply list.Forall_cons in Hmc as [[_ Hc] _]. simpl.
    destruct (c =? 13) eqn:E; [apply Z.eqb_eq in E; by subst|].
    destruct (c =? 10) eqn:E'; [apply Z.eqb_eq in E'; by subst|done]. }
  cbn [pbind]. rewrite parse_token_scalar by auto.
  pose proof (scan_token_run 32 (fun c => negb (token_char c)) (c :: m) (p ++ 32 :: vl)
    (token_ok_scan 32 _ ltac:(auto) Hm)) as Hs. cbn [app] in Hs. rewrite Hs. cbn [pbind].
  apply path_ok_scan in Hp as [Hpb Hpc]. destruct p as [|d p]; [done|].
  assert (skip_spaces (32 :: (d :: p) ++ 32 :: vl) = POk tt ((d :: p) ++ 32 :: vl)) as ->.
  { apply list.Forall_cons in Hpc as [[Hd _] _]. simpl.
    by rewrite (proj2 (Z.eqb_neq _ _)) by done. }
  cbn [pbind]. rewrite advance_token_scalar, scan_token_run by done. cbn [pbind].
  assert (skip_spaces (32 :: vl) = POk tt vl) as -> by done. cbn [pbind length Nat.eqb orb].
  pose proof (version_line_run v tl Hv) as Hvl. fold vl in Hvl. unfold version_line in Hvl.
  destruct (parse_http_version vl) as [v' b|e|]; [|done|done]. cbn [pbind] in *.
  destruct (line_end _ b) as [[] b'|e|]; [|done|done]. cbn [pbind] in *.
  injection Hvl as -> ->. subst tl. by rewrite parse_headers_run.
Qed.

(** The text of a response head with a one-line status. *)
Definition print_response (st : Z) (reason : list Z) (hs : list (list Z * list Z)) : list Z :=
  bytes_of_string "HTTP/1.1 " ++ [48 + st / 100; 48 + st / 10 mod 10; 48 + st mod 10; 32]
    ++ reason ++ crlf ++ concat (print_header <$> hs) ++ crlf.

Lemma digit_ok d : 0 <= d <= 9 -> (48 + d <? 48) || (57 <? 48 + d) = false.
Proof. intros. apply orb_false_iff. split; apply Z.ltb_ge; lia. Qed.

Lemma parse_int_3_run a b c rest : 0 <= a <= 9 -> 0 <= b <= 9 -> 0 <= c <= 9 ->
  PARSE_INT_3 (48 + a :: 48 + b :: 48 + c :: rest) = POk (100 * a + 10 * b + c) rest.
Proof.
  intros Ha Hb Hc. unfold PARSE_INT_3, PARSE_INT.
  do 3 (rewrite digit_ok by done; cbn [pbind]). f_equal. lia.
Qed.

Lemma expect_chars_run chs rest : expect_chars chs (chs ++ rest) = POk tt rest.
Proof. induction chs as [|c chs IH]; [done|]. simpl. by rewrite Z.eqb_refl. Qed.

Lemma parse_response_run sse max st reason hs rest :
  100 <= st <= 999 -> value_ok reason -> reason <> [] -> Forall header_ok hs ->
  (length hs <= max)%nat -> bytes_ok rest ->
  parse_response sse max (print_response st reason hs ++ rest)
  = POk (mkResponse 1 st reason (to_header <$> hs)) rest.
Proof.
  intros Hst Hv Hne Hh Hmax Hr.
  set (tl := concat (print_header <$> hs) ++ crlf ++ rest).
  assert (bytes_ok tl) as Htl.
  { subst tl. repeat apply Forall_app_2; [by apply headers_bytes_ok|apply crlf_ok|done]. }
  assert (print_response st reason hs ++ rest = bytes_of_string "HTTP/1.1 " ++
    48 + st / 100 :: 48 + st / 10 mod 10 :: 48 + st mod 10 :: ((32 :: reason) ++ crlf ++ tl)) as ->.
  { subst tl. unfold print_response. by rewrite <- !app_assoc. }
  pose proof (Z.mod_pos_bound (st / 10) 10 ltac:(lia)). pose proof (Z.mod_pos_bound st 10 ltac:(lia)).
  assert (1 <= st / 100 <= 9) as Hq.
  { pose proof (Z.div_le_mono 100 st 100 ltac:(lia) ltac:(lia)).
    pose proof (Z.div_le_mono st 999 100 ltac:(lia) ltac:(lia)). done. }
  set (d := 48 + st / 100). set (b := _ :: (32 :: reason) ++ _).
  unfold parse_response, parse_http_version.
  rewrite (proj2 (Nat.ltb_ge _ _)) by (simpl; lia).
  change (bytes_of_string "HTTP/1.1 " ++ d :: 48 + st / 10 mod 10 :: b)
    with (bytes_of_string "HTTP/1." ++ 49 :: 32 :: d :: 48 + st / 10 mod 10 :: b).
  rewrite expect_chars_run. cbn [pbind].
  change (PARSE_INT (49 :: 32 :: ?x)) with (POk 1 (32 :: x)). cbn [pbind].
  change (negb (32 =? 32)) with false. cbv iota.
  assert (forall x, skip_spaces (32 :: d :: x) = POk tt (d :: x)) as ->.
  { intros x. cbn [skip_spaces]. by rewrite (proj2 (Z.eqb_neq d 32)) by lia. }
  cbn [pbind]. rewrite (proj2 (Nat.ltb_ge _ _)) by (simpl; lia).
  subst b. subst d. rewrite parse_int_3_run by lia. cbn [pbind].
  destruct Hv as (Hv1 & Hv2 & Hv3).
  assert (bytes_ok (32 :: reason) /\ Forall (fun c => is_ctl c = false) (32 :: reason)) as [Hb1 Hb2].
  { split; (constructor; [done|]); eapply list.Forall_impl; try exact Hv1; by intros ? [? ?]. }
  rewrite get_token_to_eol_scalar by (apply Forall_app_2; [done|apply Forall_app_2; [apply crlf_ok|done]]).
  rewrite eol_run by done. cbn [pbind Z.eqb].
  destruct reason as [|c reason]; [done|]. simpl in Hv2. unfold blank in Hv2.
  apply orb_false_iff in Hv2 as [Hc _].
  assert (drop_spaces (32 :: c :: reason) = c :: reason) as -> by (simpl; by rewrite Hc).
  change (32 =? 32)%positive with true. cbv iota. cbn [pbind]. subst tl.
  rewrite parse_headers_run by done. cbn [pbind app]. f_equal. f_equal.
  pose proof (Z.div_mod st 100). pose proof (Z.div_mod st 10). pose proof (Z.div_mod (st / 10) 10).
  rewrite Z.div_div in * by lia. change (10 * 10) with 100 in *. lia.
Qed.

Lemma phr_parse_request_total sse max buf : bytes_ok buf -> Z.of_nat (length buf) < 2 ^ 31 ->
  exists r q, phr_parse_request sse buf max 0 = Ret (r, q) /\
    ((q = None /\ (r = -1 \/ r = -2)) \/ (is_Some q /\ 0 < r <= Z.of_nat (length buf))).
Proof.
  intros Hb Hl. unfold phr_parse_request. cbn [Nat.eqb].
  pose proof (stable_parse_request sse max buf Hb) as Hs. unfold stable in Hs.
  destruct (parse_request sse max buf) as [q r|e|] eqn:E; [| |done].
  - destruct Hs as [[used Hu] _]. apply parse_request_moves in E; [|done].
    rewrite s32_small by lia. do 2 eexists. split; [done|]. right. split; [done|lia].
  - do 2 eexists. split; [done|]. left. destruct Hs as [->|[-> _]]; auto.
Qed.

(** The same for a block of headers on its own: no read outside the buffer, and a verdict
    other than "partial" stays when more bytes arrive. *)
Theorem http_headers_streaming sse max buf more :
  bytes_ok buf -> bytes_ok more -> Z.of_nat (length (buf ++ more)) < 2 ^ 31 ->
  exists r hs, phr_parse_headers sse buf max 0 = Ret (r, hs) /\
    (r = -1 \/ r = -2 \/ 0 <= r <= Z.of_nat (length buf)) /\
    (r <> -2 -> phr_parse_headers sse (buf ++ more) max 0 = Ret (r, hs)).
Proof.
  intros Hb Hm Hl. unfold phr_parse_headers. cbn [Nat.eqb].
  pose proof (stable_parse_headers sse max [] buf Hb) as Hs. unfold stable in Hs. rewrite length_app in Hl.
  destruct (parse_headers sse max [] buf) as [hs r|e|] eqn:E; [| |done].
  - destruct Hs as [[used Hu] Hmore]. do 2 eexists. split; [done|].
    assert (Hlen : length buf = (length used + length r)%nat) by (by rewrite Hu, length_app).
    rewrite s32_small by lia. split; [lia|]. intros _. rewrite Hmore by done. do 3 f_equal.
    rewrite !length_app, Hlen, s32_small by lia. lia.
  - do 2 eexists. split; [done|]. destruct Hs as [->|[-> Hmore]]; [split; [lia|done]|].
    split; [lia|]. intros _. by rewrite Hmore.
Qed.

(** ** Theorems *)

(** C6. On any buffer the request parser, in both builds, returns without reading outside
    it; the result is "partial", "failed" or a positive count of at most the buffer's
    length; and a result other than "partial" stays the same when more bytes arrive, so the
    verdict on a request does not depend on how the network cut it into reads. *)
Theorem http_parse_streaming sse max buf more :
  bytes_ok buf -> bytes_ok more -> Z.of_nat (length (buf ++ more)) < 2 ^ 31 ->
  exists r q, phr_parse_request sse buf max 0 = Ret (r, q) /\
    phr_parse_request (negb sse) buf max 0 = Ret (r, q) /\
    ((q = None /\ (r = -1 \/ r = -2)) \/ (is_Some q /\ 0 < r <= Z.of_nat (length buf))) /\
    (r <> -2 -> phr_parse_request sse (buf ++ more) max 0 = Ret (r, q)).
Proof.
  intros Hb Hm Hl. unfold phr_parse_request. cbn [Nat.eqb].
  rewrite length_app in Hl. pose proof (stable_parse_request sse max buf Hb) as Hs.
  rewrite (parse_request_sse (negb sse)), <- (parse_request_sse sse) by done.
  unfold stable in Hs. destruct (parse_request sse max buf) as [q r|e|] eqn:E; [| |done].
  - destruct Hs as [[used ->] Hs]. rewrite length_app in *.
    replace (length used + length r - length r)%nat with (length used) by lia.
    apply parse_request_moves in E; [|done]. rewrite length_app in E.
    rewrite s32_small by lia. do 2 eexists. do 2 (split; [done|]). split; [right; split; [done|lia]|].
    intros _. rewrite Hs by done. rewrite !length_app.
    replace (length used + length r + length more - (length r + length more))%nat
      with (length used) by lia. by rewrite s32_small by lia.
  - do 2 eexists. do 2 (split; [done|]). destruct Hs as [->|[-> Hs]].
    + split; [left; auto|done].
    + split; [left; auto|]. intros _. by rewrite Hs.
Qed.

(** A target of more than two blocks that ends in a control character. *)
Definition long_get : list Z := bytes_of_string "GET /a-path-longer-than-two-vector-blocks" ++ [13].
Lemma http_parse_streaming_witness :
  phr_parse_request true long_get 100 0 = Ret (-1, None) /\
  phr_parse_request true (long_get ++ [65; 66]) 100 0 = Ret (-1, None).
Proof.
  destruct (http_parse_streaming true 100 long_get [65; 66])
    as (r & q & H1 & _ & _ & H2); [by apply (bool_decide_unpack _)..|done|].
  assert (r = -1 /\ q = None) as [-> ->] by (vm_compute in H1; by injection H1 as <- <-).
  split; [done|]. by apply H2.
Defined.

(** C5. Every well-formed request followed by anything parses to its method, path, minor
    version and headers in order, and consumes exactly its own bytes. *)
Theorem http_parse_roundtrip sse max m p v hs rest :
  request_ok m p v hs -> (length hs <= max)%nat -> bytes_ok rest ->
  Z.of_nat (length (print_request m p v hs)) < 2 ^ 31 ->
  phr_parse_request sse (print_request m p v hs ++ rest) max 0
  = Ret (Z.of_nat (length (print_request m p v hs)), Some (mkRequest m p v (to_header <$> hs))).
Proof.
  intros Hok Hmax Hr Hl. unfold phr_parse_request. cbn [Nat.eqb].
  rewrite parse_request_run by done. rewrite length_app.
  replace (length (print_request m p v hs) + length rest - length rest)%nat
    with (length (print_request m p v hs)) by lia. by rewrite s32_small by lia.
Qed.

(** A request whose parts are known, by evaluation. *)
Definition get_hello : list Z * list Z * Z * list (list Z * list Z) :=
  (bytes_of_string "GET", bytes_of_string "/hello", 1,
   [(bytes_of_string "Host", bytes_of_string "capy"); (bytes_of_string "X", [])]).

Lemma get_hello_ok : let '(m, p, v, hs) := get_hello in request_ok m p v hs.
Proof.
  split; [split; [done|]|split; [done|]|lia|].
  - by apply (bool_decide_unpack _).
  - by apply (bool_decide_unpack _).
  - repeat constructor; try done; by apply (bool_decide_unpack _).
Qed.

Lemma http_parse_roundtrip_witness :
  phr_parse_request true (let '(m, p, v, hs) := get_hello in print_request m p v hs ++ [1; 2]) 100 0
  = Ret (40, Some (mkRequest (bytes_of_string "GET") (bytes_of_string "/hello") 1
      (to_header <$> get_hello.2))).
Proof.
  apply (http_parse_roundtrip true 100 _ _ 1 get_hello.2 [1; 2] get_hello_ok); [simpl; lia| |done].
  by apply (bool_decide_unpack _).
Defined.

(** Every proper prefix of a well-formed request is "partial": the server keeps
    waiting instead of rejecting or truncating a request that arrives in pieces. *)
Theorem http_parse_partial sse max m p v hs pre post :
  request_ok m p v hs -> (length hs <= max)%nat ->
  print_request m p v hs = pre ++ post -> post <> [] ->
  phr_parse_request sse pre max 0 = Ret (-2, None).
Proof.
  intros Hok Hmax He Hpost. pose proof (print_request_ok _ _ _ _ Hok) as Hb.
  pose proof (parse_request_run sse max m p v hs [] Hok Hmax ltac:(constructor)) as Hrun.
  rewrite app_nil_r, He in Hrun. rewrite He in Hb. apply list.Forall_app in Hb as [Hb1 Hb2].
  pose proof (stable_parse_request sse max pre Hb1) as Hs.
  unfold stable, phr_parse_request in *. cbn [Nat.eqb].
  destruct (parse_request sse max pre) as [q r|e|]; [| |done].
  - destruct Hs as [_ Hs]. rewrite Hs in Hrun by done. injection Hrun as _ Hn.
    by apply app_nil in Hn as [_ ?].
  - destruct Hs as [->|[-> Hs]]; [done|]. by rewrite Hs in Hrun.
Qed.

Lemma http_parse_partial_witness :
  phr_parse_request false (bytes_of_string "GET /hello HTT") 100 0 = Ret (-2, None).
Proof.
  apply (http_parse_partial false 100 _ _ 1 get_hello.2 (bytes_of_string "GET /hello HTT")
    (drop 14 (let '(m, p, v, hs) := get_hello in print_request m p v hs)) get_hello_ok);
    [simpl; lia|done|done].
Defined.
