(* ===== verification/Chunked.v ===== *)
(** The decoder of the chunked transfer encoding, [phr_decode_chunked] of
    deps/picohttpparser/picohttpparser.c, which rewrites its buffer in place.

    The cases of the [switch] fall through into each other; each is a function that ends
    with the function of the next case. [chunk_run] is a reference decoder that reads one
    byte at a time; the in-place decoder is proved equivalent to it. *)

From S2P Require Import Prelude CString.

Inductive chunk_state :=
| CHUNKED_IN_CHUNK_SIZE | CHUNKED_IN_CHUNK_EXT | CHUNKED_IN_CHUNK_HEADER_EXPECT_LF | CHUNKED_IN_CHUNK_DATA
| CHUNKED_IN_CHUNK_DATA_EXPECT_CR | CHUNKED_IN_CHUNK_DATA_EXPECT_LF
| CHUNKED_IN_TRAILERS_LINE_HEAD | CHUNKED_IN_TRAILERS_LINE_MIDDLE.

#[export] Instance chunk_state_eq_dec : EqDecision chunk_state.
Proof. solve_decision. Defined.

Record phr_chunked_decoder := mkDecoder {
  bytes_left_in_chunk : Z; consume_trailer : bool; _hex_count : Z; _state : chunk_state;
  _total_read : Z; _total_overhead : Z }.

(** A decoder that was filled with zeros, with [consume_trailer] set by the caller. *)
Definition decoder_zero (consume : bool) : phr_chunked_decoder := mkDecoder 0 consume 0 CHUNKED_IN_CHUNK_SIZE 0 0.

Definition set_state (d : phr_chunked_decoder) (s : chunk_state) : phr_chunked_decoder :=
  mkDecoder (bytes_left_in_chunk d) (consume_trailer d) (_hex_count d) s (_total_read d) (_total_overhead d).
Definition set_left (d : phr_chunked_decoder) (n : Z) : phr_chunked_decoder :=
  mkDecoder n (consume_trailer d) (_hex_count d) (_state d) (_total_read d) (_total_overhead d).
Definition set_hex (d : phr_chunked_decoder) (n : Z) : phr_chunked_decoder :=
  mkDecoder (bytes_left_in_chunk d) (consume_trailer d) n (_state d) (_total_read d) (_total_overhead d).

Definition decode_hex (ch : Z) : Z :=
  if (48 <=? ch) && (ch <=? 57) then ch - 48
  else if (65 <=? ch) && (ch <=? 70) then ch - 65 + 10
  else if (97 <=? ch) && (ch <=? 102) then ch - 97 + 10
  else -1.

(** [memmove(buf + dst, buf + src, n)] *)
Definition memmove (buf : list Z) (dst src n : nat) : list Z :=
  take dst buf ++ take n (drop src buf) ++ drop (dst + n) buf.

(** How a pass of the [while] loop ends: at [Exit] with a value of [ret], at [Complete], or
    with a [break] into the next pass. *)
Inductive pass :=
| AtExit (ret : Z) (d : phr_chunked_decoder) (buf : list Z) (dst src : nat)
| AtComplete (d : phr_chunked_decoder) (buf : list Z) (dst src : nat)
| NextPass (d : phr_chunked_decoder) (buf : list Z) (dst src : nat).

Definition case_data_expect_lf (d : phr_chunked_decoder) (buf : list Z) (dst src : nat) : pass :=
  match buf !! src with
  | None => AtExit (-2) d buf dst src
  | Some c =>
      if negb (c =? 10) then AtExit (-1) d buf dst src
      else NextPass (set_state d CHUNKED_IN_CHUNK_SIZE) buf dst (S src)
  end.

Definition case_data_expect_cr (d : phr_chunked_decoder) (buf : list Z) (dst src : nat) : pass :=
  match buf !! src with
  | None => AtExit (-2) d buf dst src
  | Some c =>
      if negb (c =? 13) then AtExit (-1) d buf dst src
      else case_data_expect_lf (set_state d CHUNKED_IN_CHUNK_DATA_EXPECT_LF) buf dst (S src)
  end.

Definition case_data (d : phr_chunked_decoder) (buf : list Z) (dst src : nat) : pass :=
  let avail := (length buf - src)%nat in
  if Z.of_nat avail <? bytes_left_in_chunk d then
    let buf' := if Nat.eqb dst src then buf else memmove buf dst src avail in
    AtExit (-2) (set_left d (bytes_left_in_chunk d - Z.of_nat avail)) buf' (dst + avail) (src + avail)
  else
    let n := Z.to_nat (bytes_left_in_chunk d) in
    let buf' := if Nat.eqb dst src then buf else memmove buf dst src n in
    case_data_expect_cr (set_state (set_left d 0) CHUNKED_IN_CHUNK_DATA_EXPECT_CR) buf' (dst + n) (src + n).

Definition case_header_expect_lf (d : phr_chunked_decoder) (buf : list Z) (dst src : nat) : pass :=
  match buf !! src with
  | None => AtExit (-2) d buf dst src
  | Some c =>
      if negb (c =? 10) then AtExit (-1) d buf dst src
      else if bytes_left_in_chunk d =? 0 then
        if consume_trailer d then NextPass (set_state d CHUNKED_IN_TRAILERS_LINE_HEAD) buf dst (S src)
        else AtComplete d buf dst (S src)
      else case_data (set_state d CHUNKED_IN_CHUNK_DATA) buf dst (S src)
  end.

(** The loops over [src] recurse on the bytes left, [drop src buf]. *)
Fixpoint ext_loop (bytes : list Z) (d : phr_chunked_decoder) (buf : list Z) (dst src : nat) : pass :=
  match bytes with
  | [] => AtExit (-2) d buf dst src
  | c :: bytes' =>
      if c =? 13 then case_header_expect_lf (set_state d CHUNKED_IN_CHUNK_HEADER_EXPECT_LF) buf dst (S src)
      else if c =? 10 then AtExit (-1) d buf dst src
      else ext_loop bytes' d buf dst (S src)
  end.

Definition case_ext (d : phr_chunked_decoder) (buf : list Z) (dst src : nat) : pass :=
  ext_loop (drop src buf) d buf dst src.

(** The characters that may follow the chunk size. *)
Definition after_size (c : Z) : bool :=
  (c =? 32) || (c =? 9) || (c =? 59) || (c =? 10) || (c =? 13).

Fixpoint size_loop (bytes : list Z) (d : phr_chunked_decoder) (buf : list Z) (dst src : nat) : pass :=
  match bytes with
  | [] => AtExit (-2) d buf dst src
  | c :: bytes' =>
      let v := decode_hex c in
      if v =? -1 then
        if _hex_count d =? 0 then AtExit (-1) d buf dst src
        else if after_size c then case_ext (set_state (set_hex d 0) CHUNKED_IN_CHUNK_EXT) buf dst src
        else AtExit (-1) d buf dst src
      else if _hex_count d =? 16 then AtExit (-1) d buf dst src
      else
        size_loop bytes' (set_hex (set_left d (wrap 64 (bytes_left_in_chunk d * 16 + v))) (_hex_count d + 1))
          buf dst (S src)
  end.

Definition case_size (d : phr_chunked_decoder) (buf : list Z) (dst src : nat) : pass :=
  size_loop (drop src buf) d buf dst src.

Fixpoint trailer_middle_loop (bytes : list Z) (d : phr_chunked_decoder) (buf : list Z) (dst src : nat) : pass :=
  match bytes with
  | [] => AtExit (-2) d buf dst src
  | c :: bytes' =>
      if c =? 10 then NextPass (set_state d CHUNKED_IN_TRAILERS_LINE_HEAD) buf dst (S src)
      else trailer_middle_loop bytes' d buf dst (S src)
  end.

Definition case_trailer_middle (d : phr_chunked_decoder) (buf : list Z) (dst src : nat) : pass :=
  trailer_middle_loop (drop src buf) d buf dst src.

Fixpoint trailer_head_loop (bytes : list Z) (d : phr_chunked_decoder) (buf : list Z) (dst src : nat) : pass :=
  match bytes with
  | [] => AtExit (-2) d buf dst src
  | c :: bytes' =>
      if negb (c =? 13) then
        if c =? 10 then AtComplete d buf dst (S src)
        else case_trailer_middle (set_state d CHUNKED_IN_TRAILERS_LINE_MIDDLE) buf dst (S src)
      else trailer_head_loop bytes' d buf dst (S src)
  end.

Definition case_trailer_head (d : phr_chunked_decoder) (buf : list Z) (dst src : nat) : pass :=
  trailer_head_loop (drop src buf) d buf dst src.

Definition switch_state (d : phr_chunked_decoder) (buf : list Z) (dst src : nat) : pass :=
  match _state d with
  | CHUNKED_IN_CHUNK_SIZE => case_size d buf dst src
  | CHUNKED_IN_CHUNK_EXT => case_ext d buf dst src
  | CHUNKED_IN_CHUNK_HEADER_EXPECT_LF => case_header_expect_lf d buf dst src
  | CHUNKED_IN_CHUNK_DATA => case_data d buf dst src
  | CHUNKED_IN_CHUNK_DATA_EXPECT_CR => case_data_expect_cr d buf dst src
  | CHUNKED_IN_CHUNK_DATA_EXPECT_LF => case_data_expect_lf d buf dst src
  | CHUNKED_IN_TRAILERS_LINE_HEAD => case_trailer_head d buf dst src
  | CHUNKED_IN_TRAILERS_LINE_MIDDLE => case_trailer_middle d buf dst src
  end.

(** The [while] loop; every pass but the last reads a byte, so [length buf + 1] passes are
    enough. [None]: out of fuel. *)
Fixpoint decode_loop (fuel : nat) (d : phr_chunked_decoder) (buf : list Z) (dst src : nat) :
    option (Z * phr_chunked_decoder * list Z * nat * nat) :=
  match fuel with
  | O => None
  | S fuel' =>
      match switch_state d buf dst src with
      | AtExit ret d' buf' dst' src' => Some (ret, d', buf', dst', src')
      | AtComplete d' buf' dst' src' => Some (Z.of_nat (length buf' - src'), d', buf', dst', src')
      | NextPass d' buf' dst' src' => decode_loop fuel' d' buf' dst' src'
      end
  end.

(** [phr_decode_chunked(decoder, buf, &bufsz)]: the result, the decoder, the buffer and the
    new [bufsz]. *)
Definition phr_decode_chunked (d : phr_chunked_decoder) (buf : list Z) :
    option (Z * phr_chunked_decoder * list Z * nat) :=
  let bufsz := length buf in
  let d0 := mkDecoder (bytes_left_in_chunk d) (consume_trailer d) (_hex_count d) (_state d)
              (wrap 64 (_total_read d + Z.of_nat bufsz)) (_total_overhead d) in
  '(ret, d1, buf1, dst, src) ← decode_loop (S bufsz) d0 buf 0 0;
  let buf2 := if Nat.eqb dst src then buf1 else memmove buf1 dst src (bufsz - src) in
  if ret =? -2 then
    let overhead := wrap 64 (_total_overhead d1 + Z.of_nat (bufsz - dst)) in
    let d2 := mkDecoder (bytes_left_in_chunk d1) (consume_trailer d1) (_hex_count d1) (_state d1)
                (_total_read d1) overhead in
    let ret' := if (100 * 1024 <=? overhead) && (wrap 64 (_total_read d1 - overhead) <? _total_read d1 / 4)
                then -1 else -2 in
    Some (ret', d2, buf2, dst)
  else Some (ret, d1, buf2, dst).

Definition phr_decode_chunked_is_in_data (d : phr_chunked_decoder) : bool :=
  bool_decide (_state d = CHUNKED_IN_CHUNK_DATA).

(** ** Reference decoder *)

(** What one byte does: the next state and the data byte it carries, the end of the message,
    or an error. *)
Inductive byte_result := BNext (d : phr_chunked_decoder) (out : list Z) | BEnd (d : phr_chunked_decoder) | BError.

Definition ext_byte (d : phr_chunked_decoder) (c : Z) : byte_result :=
  if c =? 13 then BNext (set_state d CHUNKED_IN_CHUNK_HEADER_EXPECT_LF) []
  else if c =? 10 then BError else BNext d [].

Definition chunk_byte (d : phr_chunked_decoder) (c : Z) : byte_result :=
  match _state d with
  | CHUNKED_IN_CHUNK_SIZE =>
      if decode_hex c =? -1 then
        if (_hex_count d =? 0) || negb (after_size c) then BError
        else ext_byte (set_state (set_hex d 0) CHUNKED_IN_CHUNK_EXT) c
      else if _hex_count d =? 16 then BError
      else BNext (set_hex (set_left d (wrap 64 (bytes_left_in_chunk d * 16 + decode_hex c))) (_hex_count d + 1)) []
  | CHUNKED_IN_CHUNK_EXT => ext_byte d c
  | CHUNKED_IN_CHUNK_HEADER_EXPECT_LF =>
      if negb (c =? 10) then BError
      else if bytes_left_in_chunk d =? 0 then
        if consume_trailer d then BNext (set_state d CHUNKED_IN_TRAILERS_LINE_HEAD) [] else BEnd d
      else BNext (set_state d CHUNKED_IN_CHUNK_DATA) []
  | CHUNKED_IN_CHUNK_DATA =>
      BNext (if bytes_left_in_chunk d =? 1 then set_state (set_left d 0) CHUNKED_IN_CHUNK_DATA_EXPECT_CR
             else set_left d (bytes_left_in_chunk d - 1)) [c]
  | CHUNKED_IN_CHUNK_DATA_EXPECT_CR =>
      if c =? 13 then BNext (set_state d CHUNKED_IN_CHUNK_DATA_EXPECT_LF) [] else BError
  | CHUNKED_IN_CHUNK_DATA_EXPECT_LF =>
      if c =? 10 then BNext (set_state d CHUNKED_IN_CHUNK_SIZE) [] else BError
  | CHUNKED_IN_TRAILERS_LINE_HEAD =>
      if c =? 13 then BNext d []
      else if c =? 10 then BEnd d else BNext (set_state d CHUNKED_IN_TRAILERS_LINE_MIDDLE) []
  | CHUNKED_IN_TRAILERS_LINE_MIDDLE =>
      if c =? 10 then BNext (set_state d CHUNKED_IN_TRAILERS_LINE_HEAD) [] else BNext d []
  end.

(** The bytes in order: more input needed, the end with the bytes that follow it, or an
    error; with the data decoded so far. *)
Inductive run_result :=
| RMore (d : phr_chunked_decoder) (out : list Z)
| REnd (d : phr_chunked_decoder) (out rest : list Z)
| RError.

Definition prepend (out : list Z) (r : run_result) : run_result :=
  match r with
  | RMore d out' => RMore d (out ++ out')
  | REnd d out' rest => REnd d (out ++ out') rest
  | RError => RError
  end.

Fixpoint chunk_run (d : phr_chunked_decoder) (bytes : list Z) : run_result :=
  match bytes with
  | [] => RMore d []
  | c :: bytes' =>
      match chunk_byte d c with
      | BNext d' out => prepend out (chunk_run d' bytes')
      | BEnd d' => REnd d' [] bytes'
      | BError => RError
      end
  end.

(** In the middle of the data of a chunk some of it is missing. *)
Definition decoder_ok (d : phr_chunked_decoder) : Prop :=
  0 <= bytes_left_in_chunk d < 2 ^ 64 /\
  (_state d = CHUNKED_IN_CHUNK_DATA -> 0 < bytes_left_in_chunk d).

Lemma prepend_nil r : prepend [] r = r.
Proof. by destruct r. Qed.

Lemma prepend_app o1 o2 r : prepend o1 (prepend o2 r) = prepend (o1 ++ o2) r.
Proof. destruct r; simpl; by rewrite ?app_assoc. Qed.

(** What a pass is worth to the reference decoder reading the bytes left. *)
Definition pass_ok (d : phr_chunked_decoder) (buf : list Z) (dst src : nat) (p : pass) : Prop :=
  match p with
  | AtExit ret d' buf' dst' src' =>
      (ret = -1 /\ chunk_run d (drop src buf) = RError) \/
      (ret = -2 /\ src' = length buf /\ length buf' = length buf /\ (dst' <= src')%nat /\ decoder_ok d' /\
       exists out, chunk_run d (drop src buf) = RMore d' out /\ take dst' buf' = take dst buf ++ out)
  | AtComplete d' buf' dst' src' =>
      length buf' = length buf /\ (dst' <= src' <= length buf)%nat /\
      exists out, chunk_run d (drop src buf) = REnd d' out (drop src' buf') /\ take dst' buf' = take dst buf ++ out
  | NextPass d' buf' dst' src' =>
      length buf' = length buf /\ (dst' <= src' <= length buf)%nat /\ (src < src')%nat /\ decoder_ok d' /\
      exists out, chunk_run d (drop src buf) = prepend out (chunk_run d' (drop src' buf')) /\
        take dst' buf' = take dst buf ++ out
  end.

(** A pass that first reads a byte that carries no data. *)
Lemma pass_ok_byte d d' buf dst src c p :
  buf !! src = Some c -> chunk_byte d c = BNext d' [] ->
  pass_ok d' buf dst (S src) p -> pass_ok d buf dst src p.
Proof.
  intros Hc Hb. assert (Hrun : chunk_run d (drop src buf) = chunk_run d' (drop (S src) buf)).
  { rewrite (drop_S _ _ _ Hc). simpl. by rewrite Hb, prepend_nil. }
  destruct p; simpl; rewrite Hrun; [done|done|]. intros (? & ? & ? & ? & ?). split_and!; (done || lia).
Qed.

Lemma pass_ok_same d d' buf dst src p :
  chunk_run d (drop src buf) = chunk_run d' (drop src buf) -> pass_ok d' buf dst src p -> pass_ok d buf dst src p.
Proof. intros Hr. destruct p; simpl; by rewrite Hr. Qed.

Lemma pass_ok_error d d' buf dst src c dst' src' :
  buf !! src = Some c -> chunk_byte d c = BError -> pass_ok d buf dst src (AtExit (-1) d' buf dst' src').
Proof. intros Hc Hb. left. split; [done|]. rewrite (drop_S _ _ _ Hc). simpl. by rewrite Hb. Qed.

Lemma pass_ok_more d buf dst src :
  (dst <= src)%nat -> src = length buf -> decoder_ok d -> pass_ok d buf dst src (AtExit (-2) d buf dst src).
Proof.
  intros Hd -> Hok. right. split_and!; try done. exists []. rewrite drop_all, app_nil_r. done.
Qed.

Lemma lookup_end {A} (buf : list A) src : (src <= length buf)%nat -> buf !! src = None -> src = length buf.
Proof. intros Hs Hn%lookup_ge_None. lia. Qed.

Lemma data_expect_lf_ok d buf dst src :
  _state d = CHUNKED_IN_CHUNK_DATA_EXPECT_LF -> decoder_ok d -> (dst <= src <= length buf)%nat ->
  pass_ok d buf dst src (case_data_expect_lf d buf dst src).
Proof.
  intros Hs Hok Hb. unfold case_data_expect_lf. destruct (buf !! src) as [c|] eqn:Ec;
    [|apply pass_ok_more; [lia|apply lookup_end; [lia|done]|done]].
  pose proof (lookup_lt_Some _ _ _ Ec).
  assert (Hbyte : chunk_byte d c = if c =? 10 then BNext (set_state d CHUNKED_IN_CHUNK_SIZE) [] else BError)
    by (unfold chunk_byte; by rewrite Hs).
  destruct (c =? 10); cbn [negb]; [|by eapply pass_ok_error].
  simpl. split; [done|]. split; [lia|]. split; [lia|]. split; [split; [apply Hok|done]|]. exists [].
  rewrite (drop_S _ _ _ Ec). simpl. by rewrite Hbyte, !prepend_nil, app_nil_r.
Qed.

Lemma data_expect_cr_ok d buf dst src :
  _state d = CHUNKED_IN_CHUNK_DATA_EXPECT_CR -> decoder_ok d -> (dst <= src <= length buf)%nat ->
  pass_ok d buf dst src (case_data_expect_cr d buf dst src).
Proof.
  intros Hs Hok Hb. unfold case_data_expect_cr. destruct (buf !! src) as [c|] eqn:Ec;
    [|apply pass_ok_more; [lia|apply lookup_end; [lia|done]|done]].
  pose proof (lookup_lt_Some _ _ _ Ec).
  assert (Hbyte : chunk_byte d c = if c =? 13 then BNext (set_state d CHUNKED_IN_CHUNK_DATA_EXPECT_LF) [] else BError)
    by (unfold chunk_byte; by rewrite Hs).
  destruct (c =? 13); cbn [negb]; [|by eapply pass_ok_error].
  eapply pass_ok_byte; [done|exact Hbyte|]. apply data_expect_lf_ok; [done|by split; [apply Hok|]|lia].
Qed.

(** The copy of a piece of data, skipped when it is in place already. *)
Definition shift (buf : list Z) (dst src n : nat) : list Z :=
  if Nat.eqb dst src then buf else memmove buf dst src n.

Lemma shift_spec buf dst src n :
  (dst <= src)%nat -> (src + n <= length buf)%nat ->
  length (shift buf dst src n) = length buf /\
  take (dst + n) (shift buf dst src n) = take dst buf ++ take n (drop src buf) /\
  drop (src + n) (shift buf dst src n) = drop (src + n) buf.
Proof.
  intros Hd Hn. unfold shift, memmove. destruct (Nat.eqb_spec dst src) as [->|Hne].
  - split_and!; [done| |done]. rewrite <- (take_drop src buf) at 1.
    rewrite take_app, length_take, take_take. f_equal; [f_equal; lia|f_equal; lia].
  - split_and!.
    + rewrite !length_app, !length_take, !length_drop. lia.
    + rewrite app_assoc, take_app_length'; [done|]. rewrite length_app, !length_take, length_drop. lia.
    + rewrite app_assoc, drop_app_ge by (rewrite length_app, !length_take, length_drop; lia).
      rewrite drop_drop, length_app, !length_take, length_drop. f_equal. lia.
Qed.

Lemma run_data d bytes :
  _state d = CHUNKED_IN_CHUNK_DATA -> 0 < bytes_left_in_chunk d ->
  chunk_run d bytes =
    if Z.of_nat (length bytes) <? bytes_left_in_chunk d then
      RMore (set_left d (bytes_left_in_chunk d - Z.of_nat (length bytes))) bytes
    else
      prepend (take (Z.to_nat (bytes_left_in_chunk d)) bytes)
        (chunk_run (set_state (set_left d 0) CHUNKED_IN_CHUNK_DATA_EXPECT_CR)
           (drop (Z.to_nat (bytes_left_in_chunk d)) bytes)).
Proof.
  revert d. induction bytes as [|c bytes IH]; intros d Hs Hl.
  - simpl length. destruct (Z.ltb_spec (Z.of_nat 0) (bytes_left_in_chunk d)); [|lia]. simpl.
    rewrite Z.sub_0_r. by destruct d.
  - cbn [chunk_run]. unfold chunk_byte. rewrite Hs. cbn [length].
    destruct (Z.eqb_spec (bytes_left_in_chunk d) 1) as [E|E].
    + rewrite E. destruct (Z.ltb_spec (Z.of_nat (S (length bytes))) 1); [lia|]. simpl. done.
    + set (d1 := set_left d (bytes_left_in_chunk d - 1)).
      rewrite (IH d1) by (unfold d1; simpl; (done || lia)). unfold d1. cbn [set_left bytes_left_in_chunk].
      destruct (Z.ltb_spec (Z.of_nat (length bytes)) (bytes_left_in_chunk d - 1));
        destruct (Z.ltb_spec (Z.of_nat (S (length bytes))) (bytes_left_in_chunk d)); try lia.
      * cbn [prepend]. unfold set_left. simpl. f_equal. f_equal. lia.
      * rewrite prepend_app. replace (Z.to_nat (bytes_left_in_chunk d)) with
          (S (Z.to_nat (bytes_left_in_chunk d - 1))) by lia. done.
Qed.

(** A pass over data that was moved, starting with the case after it. *)
Lemma pass_ok_data d d' buf dst src n p :
  chunk_run d (drop src buf) = prepend (take n (drop src buf)) (chunk_run d' (drop (src + n) buf)) ->
  (dst <= src)%nat -> (src + n <= length buf)%nat -> 
  pass_ok d' (shift buf dst src n) (dst + n) (src + n) p -> (0 < n)%nat -> pass_ok d buf dst src p.
Proof.
  intros Hrun Hd Hn Hp Hpos. destruct (shift_spec buf dst src n Hd Hn) as (Hlen & Htake & Hdrop).
  destruct p as [ret dx bx dstx srcx|dx bx dstx srcx|dx bx dstx srcx]; simpl in *; rewrite Hdrop in Hp; rewrite Hrun.
  - destruct Hp as [(-> & ->)|(-> & -> & Hl & ? & ? & out & -> & Ht)]; [by left|]. right.
    split; [done|]. split; [lia|]. split; [lia|]. split; [done|]. split; [done|].
    exists (take n (drop src buf) ++ out). split; [done|]. by rewrite Ht, Htake, <- app_assoc.
  - destruct Hp as (Hl & ? & out & -> & Ht). split; [lia|]. split; [lia|].
    exists (take n (drop src buf) ++ out). split; [done|]. by rewrite Ht, Htake, <- app_assoc.
  - destruct Hp as (Hl & ? & ? & ? & out & -> & Ht). split; [lia|]. split; [lia|]. split; [lia|]. split; [done|].
    exists (take n (drop src buf) ++ out). split; [by rewrite prepend_app|]. by rewrite Ht, Htake, <- app_assoc.
Qed.

Lemma case_data_ok d buf dst src :
  _state d = CHUNKED_IN_CHUNK_DATA -> decoder_ok d -> (dst <= src <= length buf)%nat ->
  pass_ok d buf dst src (case_data d buf dst src).
Proof.
  intros Hs [Hl Hpos] Hb. specialize (Hpos Hs). pose proof (run_data d (drop src buf) Hs Hpos) as Hrun.
  rewrite length_drop in Hrun. unfold case_data. fold (shift buf dst src (length buf - src)).
  fold (shift buf dst src (Z.to_nat (bytes_left_in_chunk d))).
  destruct (Z.ltb_spec (Z.of_nat (length buf - src)) (bytes_left_in_chunk d)).
  - destruct (shift_spec buf dst src (length buf - src)) as (Hlen & Htake & _); [lia|lia|]. right.
    split; [done|]. split; [lia|]. split; [done|]. split; [lia|]. split; [split; simpl; lia|].
    exists (drop src buf). split; [done|]. rewrite Htake. f_equal. apply firstn_all2. rewrite length_drop. lia.
  - rewrite drop_drop in Hrun. eapply (pass_ok_data d _ buf dst src (Z.to_nat (bytes_left_in_chunk d)));
      [exact Hrun|lia|lia| |lia].
    destruct (shift_spec buf dst src (Z.to_nat (bytes_left_in_chunk d))) as (Hlen & _); [lia|lia|].
    apply data_expect_cr_ok; [done|split; simpl; [lia|done]|lia].
Qed.

Lemma header_expect_lf_ok d buf dst src :
  _state d = CHUNKED_IN_CHUNK_HEADER_EXPECT_LF -> decoder_ok d -> (dst <= src <= length buf)%nat ->
  pass_ok d buf dst src (case_header_expect_lf d buf dst src).
Proof.
  intros Hs Hok Hb. unfold case_header_expect_lf. destruct (buf !! src) as [c|] eqn:Ec;
    [|apply pass_ok_more; [lia|apply lookup_end; [lia|done]|done]].
  pose proof (lookup_lt_Some _ _ _ Ec). pose proof Hok as [Hl _].
  destruct (c =? 10) eqn:E10; cbn [negb]; [|eapply pass_ok_error; [done|]; unfold chunk_byte; by rewrite Hs, E10].
  destruct (Z.eqb_spec (bytes_left_in_chunk d) 0) as [E0|E0].
  - assert (Hbyte : chunk_byte d c = if consume_trailer d then BNext (set_state d CHUNKED_IN_TRAILERS_LINE_HEAD) []
                                     else BEnd d) by (unfold chunk_byte; by rewrite Hs, E10, E0).
    destruct (consume_trailer d); simpl; (split; [done|]); (split; [lia|]).
    + split; [lia|]. split; [by split; [apply Hok|]|]. exists [].
      rewrite (drop_S _ _ _ Ec). simpl. by rewrite Hbyte, !prepend_nil, app_nil_r.
    + exists []. rewrite (drop_S _ _ _ Ec). simpl. by rewrite Hbyte, app_nil_r.
  - eapply pass_ok_byte; [done| |apply case_data_ok; [done|split; simpl; lia|lia]].
    unfold chunk_byte. rewrite Hs, E10. by destruct (Z.eqb_spec (bytes_left_in_chunk d) 0).
Qed.

Lemma drop_cons_lookup {A} (l : list A) i x l' :
  drop i l = x :: l' -> l !! i = Some x /\ l' = drop (S i) l.
Proof.
  intros H. assert (Hl : l !! i = Some x) by (rewrite <- (Nat.add_0_r i), <- lookup_drop, H; done).
  split; [done|]. rewrite (drop_S _ _ _ Hl) in H. by injection H.
Qed.

Lemma drop_nil_length {A} (l : list A) i : (i <= length l)%nat -> drop i l = [] -> i = length l.
Proof. intros Hi H. apply (f_equal length) in H. rewrite length_drop in H. simpl in H. lia. Qed.

Lemma case_ext_ok d buf dst src :
  _state d = CHUNKED_IN_CHUNK_EXT -> decoder_ok d -> (dst <= src <= length buf)%nat ->
  pass_ok d buf dst src (case_ext d buf dst src).
Proof.
  intros Hs Hok. unfold case_ext. remember (drop src buf) as bytes eqn:Eb.
  revert src Eb. induction bytes as [|c bytes IH]; intros src Eb Hb; simpl.
  - apply pass_ok_more; [lia|by apply drop_nil_length; [lia|]|done].
  - symmetry in Eb. apply drop_cons_lookup in Eb as [Ec ->]. pose proof (lookup_lt_Some _ _ _ Ec).
    assert (Hbyte : chunk_byte d c = ext_byte d c) by (unfold chunk_byte; by rewrite Hs). unfold ext_byte in Hbyte.
    destruct (c =? 13); [|destruct (c =? 10)].
    + eapply pass_ok_byte; [done|exact Hbyte|]. apply header_expect_lf_ok; [done|by split; [apply Hok|]|lia].
    + by eapply pass_ok_error.
    + eapply pass_ok_byte; [done|exact Hbyte|]. apply IH; [done|lia].
Qed.

Lemma decode_hex_range c : -1 <= decode_hex c < 16.
Proof. unfold decode_hex. repeat case_match; reflect_bools; lia. Qed.

Lemma case_size_ok d buf dst src :
  _state d = CHUNKED_IN_CHUNK_SIZE -> decoder_ok d -> (dst <= src <= length buf)%nat ->
  pass_ok d buf dst src (case_size d buf dst src).
Proof.
  unfold case_size. remember (drop src buf) as bytes eqn:Eb. revert d src Eb.
  induction bytes as [|c bytes IH]; intros d src Eb Hs Hok Hb; simpl.
  - apply pass_ok_more; [lia|by apply drop_nil_length; [lia|]|done].
  - pose proof Eb as Eb'. symmetry in Eb. apply drop_cons_lookup in Eb as [Ec ->]. pose proof (lookup_lt_Some _ _ _ Ec).
    pose proof (eq_refl (chunk_byte d c)) as Hbyte. unfold chunk_byte at 2 in Hbyte. rewrite Hs in Hbyte.
    destruct (decode_hex c =? -1).
    + destruct (_hex_count d =? 0); cbn [orb] in Hbyte; [by eapply pass_ok_error|].
      destruct (after_size c); cbn [negb] in Hbyte; [|by eapply pass_ok_error].
      eapply pass_ok_same; [|apply case_ext_ok; [done|by split; [apply Hok|]|lia]].
      rewrite (drop_S _ _ _ Ec). simpl. rewrite Hbyte. by unfold ext_byte, chunk_byte at 1.
    + destruct (_hex_count d =? 16); [by eapply pass_ok_error|].
      eapply pass_ok_byte; [done|exact Hbyte|]. apply IH; [done|done| |lia].
      split; [|simpl; congruence]. apply (wrap_ok 64). lia.
Qed.

Lemma case_trailer_middle_ok d buf dst src :
  _state d = CHUNKED_IN_TRAILERS_LINE_MIDDLE -> decoder_ok d -> (dst <= src <= length buf)%nat ->
  pass_ok d buf dst src (case_trailer_middle d buf dst src).
Proof.
  intros Hs Hok. unfold case_trailer_middle. remember (drop src buf) as bytes eqn:Eb.
  revert src Eb. induction bytes as [|c bytes IH]; intros src Eb Hb; simpl.
  - apply pass_ok_more; [lia|by apply drop_nil_length; [lia|]|done].
  - symmetry in Eb. apply drop_cons_lookup in Eb as [Ec ->]. pose proof (lookup_lt_Some _ _ _ Ec).
    pose proof (eq_refl (chunk_byte d c)) as Hbyte. unfold chunk_byte at 2 in Hbyte. rewrite Hs in Hbyte.
    destruct (c =? 10).
    + simpl. split; [done|]. split; [lia|]. split; [lia|]. split; [by split; [apply Hok|]|]. exists [].
      rewrite (drop_S _ _ _ Ec). simpl. by rewrite Hbyte, !prepend_nil, app_nil_r.
    + eapply pass_ok_byte; [done|exact Hbyte|]. apply IH; [done|lia].
Qed.

Lemma case_trailer_head_ok d buf dst src :
  _state d = CHUNKED_IN_TRAILERS_LINE_HEAD -> decoder_ok d -> (dst <= src <= length buf)%nat ->
  pass_ok d buf dst src (case_trailer_head d buf dst src).
Proof.
  intros Hs Hok. unfold case_trailer_head. remember (drop src buf) as bytes eqn:Eb.
  revert src Eb. induction bytes as [|c bytes IH]; intros src Eb Hb; simpl.
  - apply pass_ok_more; [lia|by apply drop_nil_length; [lia|]|done].
  - symmetry in Eb. apply drop_cons_lookup in Eb as [Ec ->]. pose proof (lookup_lt_Some _ _ _ Ec).
    pose proof (eq_refl (chunk_byte d c)) as Hbyte. unfold chunk_byte at 2 in Hbyte. rewrite Hs in Hbyte.
    destruct (c =? 13); cbn [negb]; [|destruct (c =? 10)].
    + eapply pass_ok_byte; [done|exact Hbyte|]. apply IH; [done|lia].
    + simpl. split; [done|]. split; [lia|]. exists []. rewrite (drop_S _ _ _ Ec). simpl. by rewrite Hbyte, app_nil_r.
    + eapply pass_ok_byte; [done|exact Hbyte|]. apply case_trailer_middle_ok; [done|by split; [apply Hok|]|lia].
Qed.

Lemma switch_ok d buf dst src :
  decoder_ok d -> (dst <= src <= length buf)%nat -> pass_ok d buf dst src (switch_state d buf dst src).
Proof.
  intros Hok Hb. unfold switch_state. destruct (_state d) eqn:Es.
  - by apply case_size_ok.
  - by apply case_ext_ok.
  - by apply header_expect_lf_ok.
  - by apply case_data_ok.
  - by apply data_expect_cr_ok.
  - by apply data_expect_lf_ok.
  - by apply case_trailer_head_ok.
  - by apply case_trailer_middle_ok.
Qed.

(** What the loop computes, for any fuel that covers the bytes left. *)
Lemma decode_loop_ok fuel d buf dst src :
  decoder_ok d -> (dst <= src <= length buf)%nat -> (length buf - src < fuel)%nat ->
  exists ret d' buf' dst' src', decode_loop fuel d buf dst src = Some (ret, d', buf', dst', src') /\
  ((ret = -1 /\ chunk_run d (drop src buf) = RError) \/
   (length buf' = length buf /\ (dst' <= src' <= length buf)%nat /\ exists out, take dst' buf' = take dst buf ++ out /\
    ((ret = -2 /\ decoder_ok d' /\ src' = length buf /\ chunk_run d (drop src buf) = RMore d' out) \/
     (ret = Z.of_nat (length buf - src') /\ chunk_run d (drop src buf) = REnd d' out (drop src' buf'))))).
Proof.
  revert d buf dst src. induction fuel as [|fuel IH]; intros d buf dst src Hok Hb Hf; [lia|]. cbn [decode_loop].
  pose proof (switch_ok d buf dst src Hok Hb) as Hp. destruct (switch_state d buf dst src) as
    [ret d' buf' dst' src'|d' buf' dst' src'|d' buf' dst' src']; simpl in Hp.
  - eexists _, _, _, _, _. split; [done|]. destruct Hp as [?|(? & ? & ? & ? & ? & out & ? & ?)]; [by left|].
    right. split; [done|]. split; [lia|]. exists out. auto 10.
  - destruct Hp as (Hl & ? & out & ? & ?). eexists _, _, _, _, _. split; [done|]. right.
    split; [done|]. split; [lia|]. exists out. split; [done|]. right. by rewrite Hl.
  - destruct Hp as (Hl & Hb' & Hlt & Hok' & out & Hrun & Ht).
    destruct (IH d' buf' dst' src') as (ret & d2 & buf2 & dst2 & src2 & Hd & Hres); [done|lia|lia|].
    exists ret, d2, buf2, dst2, src2. split; [done|]. rewrite Hl in Hres.
    destruct Hres as [[-> Hr]|(Hl2 & Hb2 & out2 & Ht2 & Hres)]; [left; by rewrite Hrun, Hr|right].
    split; [done|]. split; [done|]. exists (out ++ out2). rewrite Ht2, Ht, app_assoc. split; [done|].
    destruct Hres as [(-> & ? & -> & Hr)|(-> & Hr)]; [left|right]; rewrite Hrun, Hr; auto.
Qed.

(** The loop does not touch the counters. *)
Definition same_totals (d : phr_chunked_decoder) (p : pass) : Prop :=
  match p with
  | AtExit _ d' _ _ _ | AtComplete d' _ _ _ | NextPass d' _ _ _ =>
      _total_read d' = _total_read d /\ _total_overhead d' = _total_overhead d
  end.

Lemma data_totals d buf dst src : same_totals d (case_data d buf dst src).
Proof. unfold case_data, case_data_expect_cr, case_data_expect_lf. repeat case_match; done. Qed.

Lemma header_totals d buf dst src : same_totals d (case_header_expect_lf d buf dst src).
Proof.
  unfold case_header_expect_lf. repeat (case_match; try done).
  exact (data_totals (set_state d CHUNKED_IN_CHUNK_DATA) buf dst (S src)).
Qed.

Lemma ext_totals d bytes buf dst src : same_totals d (ext_loop bytes d buf dst src).
Proof.
  revert src. induction bytes as [|c bytes IH]; intros src; simpl; [done|].
  destruct (c =? 13); [|by destruct (c =? 10)].
  exact (header_totals (set_state d CHUNKED_IN_CHUNK_HEADER_EXPECT_LF) buf dst (S src)).
Qed.

Lemma size_totals d bytes buf dst src : same_totals d (size_loop bytes d buf dst src).
Proof.
  revert d src. induction bytes as [|c bytes IH]; intros d src; simpl; [done|].
  repeat (case_match; try done).
  - exact (ext_totals (set_state (set_hex d 0) CHUNKED_IN_CHUNK_EXT) (drop src buf) buf dst src).
  - match goal with |- context[size_loop bytes ?d1 _ _ ?i] => exact (IH d1 i) end.
Qed.

Lemma trailer_totals d bytes buf dst src :
  same_totals d (trailer_middle_loop bytes d buf dst src) /\ same_totals d (trailer_head_loop bytes d buf dst src).
Proof.
  assert (Hm : forall d bytes src, same_totals d (trailer_middle_loop bytes d buf dst src)).
  { clear. intros d bytes. induction bytes as [|c bytes IH]; intros src; simpl; [done|]. by destruct (c =? 10). }
  split; [apply Hm|]. revert src. induction bytes as [|c bytes IH]; intros src; simpl; [done|].
  destruct (negb (c =? 13)); [|done]. destruct (c =? 10); [done|]. unfold case_trailer_middle.
  match goal with |- context[trailer_middle_loop ?b ?d1 _ _ ?i] => exact (Hm d1 b i) end.
Qed.

Lemma switch_totals d buf dst src : same_totals d (switch_state d buf dst src).
Proof.
  unfold switch_state. destruct (_state d); try apply trailer_totals.
  - apply size_totals.
  - apply ext_totals.
  - apply header_totals.
  - apply data_totals.
  - unfold case_data_expect_cr, case_data_expect_lf. repeat case_match; done.
  - unfold case_data_expect_lf. repeat case_match; done.
Qed.

Lemma decode_loop_totals fuel d buf dst src ret d' buf' dst' src' :
  decode_loop fuel d buf dst src = Some (ret, d', buf', dst', src') ->
  _total_read d' = _total_read d /\ _total_overhead d' = _total_overhead d.
Proof.
  revert d buf dst src. induction fuel as [|fuel IH]; intros d buf dst src; [done|]. cbn [decode_loop].
  pose proof (switch_totals d buf dst src) as Ht. destruct (switch_state d buf dst src); simpl in Ht; intros H.
  1,2: injection H; intros; by subst.
  destruct (IH _ _ _ _ H). intuition congruence.
Qed.

(** The counters do not influence the decoding. *)
Definition set_totals (d : phr_chunked_decoder) (read overhead : Z) : phr_chunked_decoder :=
  mkDecoder (bytes_left_in_chunk d) (consume_trailer d) (_hex_count d) (_state d) read overhead.

Definition result_totals (r : run_result) (read overhead : Z) : run_result :=
  match r with
  | RMore d out => RMore (set_totals d read overhead) out
  | REnd d out rest => REnd (set_totals d read overhead) out rest
  | RError => RError
  end.

Lemma chunk_run_totals d bytes r o :
  chunk_run (set_totals d r o) bytes = result_totals (chunk_run d bytes) r o.
Proof.
  revert d. induction bytes as [|c bytes IH]; intros d; [done|]. simpl.
  assert (Hb : chunk_byte (set_totals d r o) c =
    match chunk_byte d c with
    | BNext d' out => BNext (set_totals d' r o) out | BEnd d' => BEnd (set_totals d' r o) | BError => BError end).
  { unfold chunk_byte, ext_byte. destruct d as [left tr hex st tot ov]. simpl. destruct st; simpl; repeat case_match; done. }
  rewrite Hb. destruct (chunk_byte d c) as [d' out|d'|]; [|done|done].
  rewrite IH. by destruct (chunk_run d' bytes).
Qed.

Lemma chunk_run_app d a b :
  chunk_run d (a ++ b) =
    match chunk_run d a with
    | RMore d' out => prepend out (chunk_run d' b)
    | REnd d' out rest => REnd d' out (rest ++ b)
    | RError => RError
    end.
Proof.
  revert d. induction a as [|c a IH]; intros d; simpl; [by rewrite prepend_nil|].
  destruct (chunk_byte d c) as [d' out|d'|]; [|done|done]. rewrite IH.
  destruct (chunk_run d' a) as [d2 o2|d2 o2 rest|]; simpl; [by rewrite prepend_app|done|done].
Qed.

(** The overhead test at the end of an incomplete call. *)
Definition overhead_exceeded (d : phr_chunked_decoder) : bool :=
  (100 * 1024 <=? _total_overhead d) && (wrap 64 (_total_read d - _total_overhead d) <? _total_read d / 4).

(** The decoder in place against the reference decoder. *)
Lemma phr_decode_chunked_spec d buf :
  decoder_ok d ->
  exists ret d' buf' n, phr_decode_chunked d buf = Some (ret, d', buf', n) /\
  let read := wrap 64 (_total_read d + Z.of_nat (length buf)) in
  match chunk_run d buf with
  | RError => ret = -1 /\ _total_read d' = read /\ _total_overhead d' = _total_overhead d
  | RMore d1 out =>
      d' = set_totals d1 read (wrap 64 (_total_overhead d + Z.of_nat (length buf - length out))) /\
      ret = (if overhead_exceeded d' then -1 else -2) /\ decoder_ok d' /\ n = length out /\ take n buf' = out
  | REnd d1 out rest =>
      d' = set_totals d1 read (_total_overhead d) /\
      ret = Z.of_nat (length rest) /\ n = length out /\ take n buf' = out /\ take (length rest) (drop n buf') = rest
  end.
Proof.
  intros Hok. unfold phr_decode_chunked.
  set (d0 := mkDecoder _ _ _ _ _ _).
  assert (Hd0 : d0 = set_totals d (_total_read d0) (_total_overhead d0)) by done.
  destruct (decode_loop_ok (S (length buf)) d0 buf 0 0) as (ret & d1 & buf1 & dst & src & Hd & Hres); [done|lia|lia|].
  rewrite Hd. cbn [mbind option_bind]. rewrite drop_0, Hd0, chunk_run_totals in Hres.
  destruct Hres as [[-> Hr]|(Hl & Hb & out & Ht & Hres)].
  { apply decode_loop_totals in Hd. eexists _, _, _, _. split; [done|]. by destruct (chunk_run d buf). }
  rewrite take_0, app_nil_l in Ht. fold (shift buf1 dst src (length buf - src)).
  destruct (shift_spec buf1 dst src (length buf - src)) as (Hlen & Htake & _); [lia|lia|].
  assert (Hdst : dst = length out) by (rewrite <- Ht, length_take; lia).
  assert (Hout : take dst (shift buf1 dst src (length buf - src)) = out).
  { apply (f_equal (take dst)) in Htake. rewrite take_take, Nat.min_l in Htake by lia.
    rewrite Htake, take_app_le by (rewrite length_take; lia). by rewrite take_take, Nat.min_id. }
  destruct Hres as [(-> & Hok1 & -> & Hr)|(-> & Hr)].
  - destruct (chunk_run d buf) as [dr o|dr o rest|]; simplify_eq/=. eexists _, _, _, _. split; [done|].
    split; [done|]. split; [done|]. split; [done|]. split; [done|exact Hout].
  - destruct (chunk_run d buf) as [dr o|dr o rest|]; simplify_eq/=.
    destruct (Z.eqb_spec (Z.of_nat (length buf - src)) (-2)); [lia|]. eexists _, _, _, _. split; [done|].
    rewrite length_drop, Hl. split; [done|]. split; [done|]. split; [done|]. split; [exact Hout|].
    match goal with H : take (?k + _) _ = _ |- _ => apply (f_equal (drop k)) in H end.
    rewrite drop_app_length' in Htake by (rewrite length_take; lia). rewrite take_drop_commute, Htake. apply firstn_all2. rewrite length_drop. lia.
Qed.

(** ** Chunked messages *)

(** The value of hexadecimal digits read from the left. *)
Definition hex_value (ds : list Z) : Z := foldl (fun a c => a * 16 + decode_hex c) 0 ds.

(** A chunk: the digits of its size, its extension (blank or introduced by a semicolon) and
    its data. *)
Record chunk := mkChunk { c_digits : list Z; c_ext : list Z; c_data : list Z }.

Definition no_eol (s : list Z) : Prop := Forall (fun c => c <> 13 /\ c <> 10) s.

Definition header_ok (c : chunk) : Prop :=
  (1 <= length (c_digits c) <= 16)%nat /\ Forall (fun d => decode_hex d <> -1) (c_digits c) /\
  hex_value (c_digits c) = Z.of_nat (length (c_data c)) /\
  no_eol (c_ext c) /\ match c_ext c with [] => True | e :: _ => after_size e = true /\ decode_hex e = -1 end.

Definition encode_chunk (c : chunk) : list Z :=
  c_digits c ++ c_ext c ++ [13; 10] ++ c_data c ++ match c_data c with [] => [] | _ => [13; 10] end.

(** A line of the trailer, without its line feed. *)
Definition line_ok (l : list Z) : Prop :=
  Forall (fun c => c <> 10) l /\ match l with [] => False | c :: _ => c <> 13 end.

Definition encode_message (cs : list chunk) (last : chunk) (trailer : list (list Z)) : list Z :=
  mjoin (encode_chunk <$> cs) ++ encode_chunk last ++ mjoin ((fun l => l ++ [10]) <$> trailer) ++ [13; 10].

Definition message_ok (cs : list chunk) (last : chunk) (trailer : list (list Z)) : Prop :=
  Forall (fun c => header_ok c /\ c_data c <> []) cs /\ header_ok last /\ c_data last = [] /\ Forall line_ok trailer.

Lemma run_digits d ds bytes :
  _state d = CHUNKED_IN_CHUNK_SIZE -> 0 <= _hex_count d -> _hex_count d + Z.of_nat (length ds) <= 16 ->
  0 <= bytes_left_in_chunk d < 16 ^ _hex_count d -> Forall (fun c => decode_hex c <> -1) ds ->
  let left := foldl (fun a c => a * 16 + decode_hex c) (bytes_left_in_chunk d) ds in
  0 <= left < 2 ^ 64 /\
  chunk_run d (ds ++ bytes) = chunk_run (set_hex (set_left d left) (_hex_count d + Z.of_nat (length ds))) bytes.
Proof.
  revert d. induction ds as [|c ds IH]; intros d Hs Hh0 Hh Hl Hds; simpl.
  - split.
    + assert (16 ^ _hex_count d <= 16 ^ 16) by (apply Z.pow_le_mono_r; simpl in *; lia). lia.
    + rewrite Z.add_0_r. by destruct d.
  - inversion Hds as [|? ? Hc Hds']; subst. pose proof (decode_hex_range c). simpl in Hh.
    unfold chunk_byte at 1. rewrite Hs. destruct (Z.eqb_spec (decode_hex c) (-1)); [done|].
    destruct (Z.eqb_spec (_hex_count d) 16); [lia|]. rewrite prepend_nil.
    assert (Hpow : 16 ^ (_hex_count d + 1) = 16 ^ _hex_count d * 16) by (rewrite Z.pow_add_r by lia; done).
    assert (16 ^ (_hex_count d + 1) <= 16 ^ 16) by (apply Z.pow_le_mono_r; lia).
    rewrite wrap_small by (unfold uint_ok; lia).
    set (d1 := set_hex _ _). destruct (IH d1) as [Hb Hr]; [done|simpl; lia..|done|].
    split; [exact Hb|]. rewrite Hr. f_equal. unfold d1, set_hex, set_left. simpl. f_equal. lia.
Qed.

Lemma run_ext d ext bytes :
  _state d = CHUNKED_IN_CHUNK_EXT -> no_eol ext ->
  chunk_run d (ext ++ 13 :: bytes) = chunk_run (set_state d CHUNKED_IN_CHUNK_HEADER_EXPECT_LF) bytes.
Proof.
  intros Hs He. induction He as [|c ext [H13 H10] _ IH]; simpl; unfold chunk_byte at 1; rewrite Hs; unfold ext_byte.
  - simpl. by rewrite prepend_nil.
  - destruct (Z.eqb_spec c 13); [done|]. destruct (Z.eqb_spec c 10); [done|]. by rewrite prepend_nil.
Qed.

(** The header of a chunk up to the state after its line feed. *)
Lemma run_header d c bytes :
  d = set_totals (decoder_zero true) (_total_read d) (_total_overhead d) -> header_ok c ->
  chunk_run d (c_digits c ++ c_ext c ++ [13; 10] ++ bytes) =
  chunk_run (set_state (set_left d (Z.of_nat (length (c_data c))))
    match c_data c with [] => CHUNKED_IN_TRAILERS_LINE_HEAD | _ => CHUNKED_IN_CHUNK_DATA end) bytes.
Proof.
  intros Hd (Hlen & Hds & Hval & Hext & Hfirst). destruct d as [left tr hex st read ov].
  unfold set_totals in Hd. simpl in Hd. injection Hd as -> -> -> ->.
  destruct (run_digits (mkDecoder 0 true 0 CHUNKED_IN_CHUNK_SIZE read ov) (c_digits c) (c_ext c ++ [13; 10] ++ bytes))
    as [Hb ->]; [done|simpl; lia..|done|].
  cbn [bytes_left_in_chunk _hex_count] in *. fold (hex_value (c_digits c)) in *. rewrite Z.add_0_l, Hval in *.
  set (d1 := set_hex _ _).
  assert (Hrun : chunk_run d1 (c_ext c ++ [13; 10] ++ bytes) =
    chunk_run (set_state (set_hex d1 0) CHUNKED_IN_CHUNK_EXT) (c_ext c ++ [13; 10] ++ bytes)).
  { assert (Hh1 : (_hex_count d1 =? 0) = false) by (unfold d1; simpl; lia).
    assert (Hfst : forall x rest, after_size x = true -> decode_hex x = -1 ->
      chunk_run d1 (x :: rest) = chunk_run (set_state (set_hex d1 0) CHUNKED_IN_CHUNK_EXT) (x :: rest)).
    { intros x rest Ha Hx. simpl. unfold chunk_byte at 1. change (_state d1) with CHUNKED_IN_CHUNK_SIZE.
      cbn iota. by rewrite Hx, Hh1, Ha. }
    destruct (c_ext c) as [|e ext]; [by apply Hfst|]. destruct Hfirst. by apply Hfst. }
  rewrite Hrun. change ([13; 10] ++ bytes) with (13 :: 10 :: bytes). rewrite run_ext by done.
  simpl. destruct (c_data c) as [|x data]; simpl; by rewrite prepend_nil.
Qed.

Lemma run_chunk d c bytes :
  d = set_totals (decoder_zero true) (_total_read d) (_total_overhead d) -> header_ok c -> c_data c <> [] ->
  chunk_run d (encode_chunk c ++ bytes) = prepend (c_data c) (chunk_run d bytes).
Proof.
  intros Hd Hc Hne. unfold encode_chunk. rewrite <- !app_assoc, run_header by done.
  destruct (c_data c) as [|x data] eqn:Ex; [done|]. rewrite <- Ex in *.
  rewrite run_data by (done || (simpl; rewrite Ex; simpl; lia)).
  cbn [set_state set_left bytes_left_in_chunk]. rewrite length_app, Nat2Z.id.
  destruct (Z.ltb_spec (Z.of_nat (length (c_data c) + length ([13; 10] ++ bytes))) (Z.of_nat (length (c_data c)))); [lia|].
  rewrite take_app_length, drop_app_length. f_equal. simpl. rewrite !prepend_nil. f_equal.
  rewrite Hd. done.
Qed.

Lemma run_line d l bytes :
  _state d = CHUNKED_IN_TRAILERS_LINE_HEAD -> line_ok l -> chunk_run d ((l ++ [10]) ++ bytes) = chunk_run d bytes.
Proof.
  intros Hs [Hl Hf]. destruct l as [|c l]; [done|]. inversion Hl as [|? ? Hc Hl']; subst.
  simpl. unfold chunk_byte at 1. rewrite Hs. destruct (Z.eqb_spec c 13); [done|]. destruct (Z.eqb_spec c 10); [done|].
  rewrite prepend_nil. clear Hl. induction Hl' as [|x l Hx _ IH]; simpl.
  - rewrite prepend_nil. unfold set_state. rewrite <- Hs. by destruct d.
  - unfold chunk_byte at 1. cbn [set_state _state]. destruct (Z.eqb_spec x 10); [done|]. by rewrite prepend_nil.
Qed.

Lemma run_message d cs last trailer rest :
  d = set_totals (decoder_zero true) (_total_read d) (_total_overhead d) -> message_ok cs last trailer ->
  chunk_run d (encode_message cs last trailer ++ rest) =
  REnd (set_state d CHUNKED_IN_TRAILERS_LINE_HEAD) (mjoin (c_data <$> cs)) rest.
Proof.
  intros Hd (Hcs & Hlast & Hnil & Htr). unfold encode_message.
  induction Hcs as [|c cs [Hc Hne] _ IH].
  - simpl. unfold encode_chunk. rewrite Hnil, app_nil_r, <- !app_assoc. rewrite run_header by done. rewrite Hnil. simpl length.
    set (d1 := set_state _ _). assert (Hd1 : d1 = set_state d CHUNKED_IN_TRAILERS_LINE_HEAD) by (unfold d1; by rewrite Hd).
    simpl app. rewrite Hd1. assert (Hs : _state (set_state d CHUNKED_IN_TRAILERS_LINE_HEAD) = CHUNKED_IN_TRAILERS_LINE_HEAD) by done.
    induction Htr as [|l trailer Hl _ IHt]; simpl; [done|].
    rewrite <- (app_assoc (l ++ [10])). by rewrite run_line.
  - change (mjoin (encode_chunk <$> (c :: cs))) with (encode_chunk c ++ mjoin (encode_chunk <$> cs)).
    rewrite <- !app_assoc, run_chunk by done. rewrite <- !app_assoc in IH. by rewrite IH.
Qed.

(** ** Properties *)

(** C7. The decoder in place computes what a decoder that reads one byte at a time computes,
    for every buffer and every state between two calls: it always terminates, leaves the
    decoder in the reference's state and the decoded data at the start of the buffer, and at
    the end of the message reports and keeps the bytes that follow it. Its two counters are
    exact modulo 2^64: the bytes of all the calls, and of the calls that asked for more the
    bytes that carried no data. It reports an error exactly when the reference does, or when
    a call that asks for more has an overhead of at least 100 KB and less than a quarter of
    the bytes read are not overhead. *)
Theorem chunked_decoder_correct d buf :
  decoder_ok d ->
  exists ret d' buf' n, phr_decode_chunked d buf = Some (ret, d', buf', n) /\
  let read := wrap 64 (_total_read d + Z.of_nat (length buf)) in
  match chunk_run d buf with
  | RError => ret = -1 /\ _total_read d' = read /\ _total_overhead d' = _total_overhead d
  | RMore d1 out =>
      d' = set_totals d1 read (wrap 64 (_total_overhead d + Z.of_nat (length buf - length out))) /\
      ret = (if overhead_exceeded d' then -1 else -2) /\ decoder_ok d' /\ n = length out /\ take n buf' = out
  | REnd d1 out rest =>
      d' = set_totals d1 read (_total_overhead d) /\
      ret = Z.of_nat (length rest) /\ n = length out /\ take n buf' = out /\ take (length rest) (drop n buf') = rest
  end.
Proof. apply phr_decode_chunked_spec. Qed.

(** C8. Every well-formed chunked message is decoded to its data: chunks with any sizes below
    2^64, digits of either case, leading zeros and extensions, and any trailer; the bytes
    that follow the message are left untouched behind the data. *)
Theorem chunked_decodes_messages cs last trailer rest :
  message_ok cs last trailer ->
  exists d' buf' n, phr_decode_chunked (decoder_zero true) (encode_message cs last trailer ++ rest)
    = Some (Z.of_nat (length rest), d', buf', n) /\
    take n buf' = mjoin (c_data <$> cs) /\ take (length rest) (drop n buf') = rest.
Proof.
  intros Hm. destruct (phr_decode_chunked_spec (decoder_zero true) (encode_message cs last trailer ++ rest))
    as (ret & d' & buf' & n & Hd & Hres); [done|].
  rewrite run_message in Hres by done. destruct Hres as (_ & -> & _ & ? & ?). eauto 10.
Qed.

(** The pieces in which a message arrives do not matter: if a first call asks for more
    and a second one finds the end, a single call on both pieces finds the same end and the
    same data. *)
Theorem chunked_streaming d a b d1 buf1 n1 ret d2 buf2 n2 :
  decoder_ok d -> phr_decode_chunked d a = Some (-2, d1, buf1, n1) ->
  phr_decode_chunked d1 b = Some (ret, d2, buf2, n2) -> 0 <= ret ->
  exists d' buf' n, phr_decode_chunked d (a ++ b) = Some (ret, d', buf', n) /\
    take n buf' = take n1 buf1 ++ take n2 buf2.
Proof.
  intros Hok Ha Hb Hret. destruct (phr_decode_chunked_spec d a Hok) as (? & ? & ? & ? & Ha' & Hra).
  rewrite Ha in Ha'. injection Ha' as <- <- <- <-.
  destruct (chunk_run d a) as [da oa|da oa resta|] eqn:Era; [|destruct Hra as (_ & ? & _); lia|by destruct Hra].
  destruct Hra as (Hd1 & _ & Hok1 & -> & Hta).
  destruct (phr_decode_chunked_spec d1 b Hok1) as (? & ? & ? & ? & Hb' & Hrb).
  rewrite Hb in Hb'. injection Hb' as <- <- <- <-.
  rewrite Hd1, chunk_run_totals in Hrb.
  destruct (phr_decode_chunked_spec d (a ++ b) Hok) as (r3 & d3 & buf3 & n3 & Hab & Hrab).
  rewrite chunk_run_app, Era in Hrab.
  destruct (chunk_run da b) as [db ob|db ob restb|]; simpl in Hrb, Hrab; [| |lia].
  - destruct Hrb as (_ & Hr & _). destruct (overhead_exceeded d2); lia.
  - destruct Hrb as (_ & -> & -> & Htb & _). destruct Hrab as (_ & -> & -> & Ht & _).
    eexists _, _, _. split; [exact Hab|]. by rewrite Ht, Hta, Htb.
Qed.

(** ** Witnesses *)

Lemma decoder_zero_ok consume : decoder_ok (decoder_zero consume).
Proof. by split. Qed.

(** Data in the middle of a chunk, behind a header of five bytes. *)
Lemma chunked_decoder_correct_witness :
  exists buf', phr_decode_chunked (decoder_zero false) (bytes_of_string "4;x" ++ [13; 10; 97; 98]) =
    Some (-2, mkDecoder 2 false 0 CHUNKED_IN_CHUNK_DATA 7 5, buf', 2%nat) /\ take 2 buf' = [97; 98].
Proof.
  destruct (chunked_decoder_correct (decoder_zero false) (bytes_of_string "4;x" ++ [13; 10; 97; 98]) (decoder_zero_ok _))
    as (ret & d' & buf' & n & H & -> & -> & _ & -> & Ht).
  exists buf'. split; [exact H|exact Ht].
Defined.

Definition two_chunks : list chunk :=
  [mkChunk (bytes_of_string "3") [] [97; 98; 99]; mkChunk (bytes_of_string "02") (bytes_of_string ";q=1") [100; 101]].
Definition last_chunk : chunk := mkChunk (bytes_of_string "0") [] [].
Definition one_trailer : list (list Z) := [bytes_of_string "X: y" ++ [13]].

Lemma two_chunks_ok : message_ok two_chunks last_chunk one_trailer.
Proof.
  repeat constructor; try done; simpl; try lia.
Qed.

Lemma chunked_decodes_messages_witness :
  exists d' buf' n, phr_decode_chunked (decoder_zero true) (encode_message two_chunks last_chunk one_trailer ++ [71])
    = Some (1, d', buf', n) /\ take n buf' = [97; 98; 99; 100; 101] /\ take 1 (drop n buf') = [71].
Proof. exact (chunked_decodes_messages two_chunks last_chunk one_trailer [71] two_chunks_ok). Defined.

Definition piece_a : list Z := encode_chunk (mkChunk (bytes_of_string "3") [] [97; 98; 99]).
Definition piece_b : list Z := bytes_of_string "0" ++ [13; 10].

Definition call (d : phr_chunked_decoder) (buf : list Z) : Z * phr_chunked_decoder * list Z * nat :=
  default (0, d, [], 0%nat) (phr_decode_chunked d buf).
Definition after_a := call (decoder_zero false) piece_a.
Definition after_b := call (after_a.1.1.2) piece_b.

Lemma chunked_streaming_witness :
  exists d' buf' n, phr_decode_chunked (decoder_zero false) (piece_a ++ piece_b) = Some (0, d', buf', n) /\
    take n buf' = take 3 after_a.1.2 ++ take 0 after_b.1.2.
Proof.
  refine (chunked_streaming (decoder_zero false) piece_a piece_b after_a.1.1.2 after_a.1.2 3 0 after_b.1.1.2
            after_b.1.2 0 (decoder_zero_ok _) _ _ ltac:(lia)); vm_compute; reflexivity.
Defined.
