(* ===== verification/HttpMessage.v ===== *)
(** The text of HTTP responses: [ResponseObject::build_headers] and the head that
    [ResponseObject::send] writes (src/http_message.cc), [setHeader] and [end]
    (src/builtins/response.cc), the two unused builders of src/server.cc, and the fixed 404
    and 503 texts.

    [snprintf] is modelled on the destination array, so that a write or a pointer outside
    [char header_buf[header_len]] shows as [UB]. *)

From S2P Require Import Prelude CString HttpParser.

(** ** snprintf *)

(** The decimal digits [%zu] prints; a [size_t] has at most 20. *)
Fixpoint dec_digits (fuel : nat) (n : Z) : list Z :=
  match fuel with
  | O => []
  | S fuel' => (if n <? 10 then [] else dec_digits fuel' (n / 10)) ++ [48 + n mod 10]
  end.

Definition dec (n : Z) : list Z := dec_digits 20 n.

Definition write_at (buf : list Z) (off : nat) (w : list Z) : list Z :=
  take off buf ++ w ++ drop (off + length w) buf.

(** [snprintf(buf + off, size, ...)] of a text: at most [size - 1] characters and a NUL are
    stored, and the length of the whole text is returned. *)
Definition snprintf (buf : list Z) (off size : Z) (text : list Z) : outcome (list Z * Z) :=
  let n := Z.of_nat (length text) in
  if Z.of_nat (length buf) <? off then UB
  else if size =? 0 then Ret (buf, n)
  else
    let w := (if n <? size then text else take (Z.to_nat (size - 1)) text) ++ [0] in
    if off + Z.of_nat (length w) <=? Z.of_nat (length buf)
    then Ret (write_at buf (Z.to_nat off) w, n)
    else UB.

(** ** The response object *)

(** The fields of [ResponseObject] the text depends on. [headers] lists the entries of the
    [std::map<const char *, const char *>] in its iteration order, which is the order of
    the key pointers. *)
Record ResponseText := mkResp {
  response_len : Z; response_buffer : list Z; resp_hdrs : list (list Z * list Z);
  header_size : Z; is_static : bool }.

(** [response_set_header]: every call inserts a fresh [strdup]ed key, so nothing is ever
    replaced; [pos] is where the new pointer sorts. *)
Definition set_header (pos : nat) (key val : list Z) (r : ResponseText) : ResponseText :=
  mkResp (response_len r) (response_buffer r)
    (take pos (resp_hdrs r) ++ (cstr key, cstr val) :: drop pos (resp_hdrs r))
    (s32 (header_size r + Z.of_nat (length (cstr val)))) (is_static r).

(** [response_end]: the body is copied up to its NUL; [send] follows. *)
Definition set_body (body : list Z) (r : ResponseText) : ResponseText :=
  mkResp (Z.of_nat (length (cstr body))) (cstr body) (resp_hdrs r) (header_size r) (is_static r).

Definition status_line : list Z := bytes_of_string "HTTP/1.1 200 OK" ++ crlf.

Definition header_line (key val : list Z) : list Z := key ++ bytes_of_string ": " ++ val ++ crlf.

(** The arguments of the first [snprintf] of each branch. *)
Definition default_head (n : Z) : list Z :=
  status_line ++ header_line (bytes_of_string "Content-Type") (bytes_of_string "text/plain")
    ++ header_line (bytes_of_string "Content-Length") (dec n)
    ++ header_line (bytes_of_string "Connection") (bytes_of_string "keep-alive") ++ crlf.

Definition standard_head (n : Z) : list Z :=
  status_line ++ header_line (bytes_of_string "Content-Length") (dec n)
    ++ header_line (bytes_of_string "Connection") (bytes_of_string "keep-alive").

(** [offset += snprintf(header_buf + offset, header_len - offset, ...)] for each text. *)
Fixpoint append_texts (header_len : Z) (texts : list (list Z)) (buf : list Z) (offset : Z) :
    outcome (list Z * Z) :=
  match texts with
  | [] => Ret (buf, offset)
  | t :: texts' =>
      '(buf, n) ← snprintf buf offset (u64 (header_len - offset)) t;
      append_texts header_len texts' buf (u64 (offset + n))
  end.

(** [ResponseObject::build_headers]; [header_buf] is [None] for a null pointer. *)
Definition build_headers (header_buf : option (list Z)) (header_len : Z) (res : ResponseText) :
    outcome (option (list Z) * Z) :=
  match header_buf with
  | None => Ret (None, -1)
  | Some buf =>
      if header_len =? 0 then Ret (Some buf, -1)
      else if header_size res =? 0 then
        '(buf, ret) ← snprintf buf 0 header_len (default_head (response_len res));
        Ret (Some buf, ret)
      else
        '(buf, offset) ← append_texts header_len
          (standard_head (response_len res)
             :: ((fun '(k, v) => header_line k v) <$> resp_hdrs res) ++ [crlf]) buf 0;
        Ret (Some buf, s32 offset)
  end.

(** [build_headers_buf] of src/server.cc repeats [ResponseObject::build_headers]. *)
Definition build_headers_buf : option (list Z) -> Z -> ResponseText -> outcome (option (list Z) * Z) :=
  build_headers.

(** [build_headers(buf, body_len, content_type)] of src/server.cc. *)
Definition build_headers_512 (buf : list Z) (body_len : Z) (content_type : list Z) :
    outcome (list Z * Z) :=
  snprintf buf 0 512
    (status_line ++ header_line (bytes_of_string "Content-Type") content_type
       ++ header_line (bytes_of_string "Content-Length") (dec body_len)
       ++ header_line (bytes_of_string "Connection") (bytes_of_string "keep-alive") ++ crlf).

(** The bytes of [uv_buf_init(base, n)] that [uv_write] reads from an array. *)
Definition uv_buf_bytes (base : list Z) (n : Z) : outcome (list Z) :=
  if (0 <=? n) && (n <=? Z.of_nat (length base)) then Ret (take (Z.to_nat n) base) else UB.

(** What [ResponseObject::send] writes to the socket: [stack] is the uninitialised
    [char header_buf[header_size + 256]]. *)
Definition send_bytes (stack : list Z) (r : ResponseText) : outcome (list Z) :=
  '(buf, header_len) ← build_headers (Some stack) (header_size r + 256) r;
  head ← uv_buf_bytes (default [] buf) header_len;
  body ← uv_buf_bytes (response_buffer r) (response_len r);
  Ret (head ++ body).

(** The text of [resp_with_404]. *)
Definition response_404 : list Z :=
  bytes_of_string "HTTP/1.1 404 Not Found" ++ crlf
    ++ bytes_of_string "Content-Type: text/plain" ++ crlf
    ++ bytes_of_string "Content-Length: 9" ++ crlf
    ++ bytes_of_string "Connection: keep-alive" ++ crlf ++ crlf
    ++ bytes_of_string "Not Found".

(** The text of [ResponseObject::abort]. *)
Definition response_503 : list Z :=
  bytes_of_string "HTTP/1.1 503 Service Unavailable" ++ crlf
    ++ bytes_of_string "Connection: close" ++ crlf
    ++ bytes_of_string "Content-Length: 0" ++ crlf ++ crlf.

(** ** Lemmas *)

(** Decoding the digits gives the number back. *)
Definition undec (l : list Z) : Z := foldl (fun a c => a * 10 + (c - 48)) 0 l.

Lemma dec_digits_spec fuel n : 0 <= n < 10 ^ Z.of_nat fuel -> (0 < fuel)%nat ->
  undec (dec_digits fuel n) = n /\ Forall (fun c => 48 <= c <= 57) (dec_digits fuel n) /\
  (1 <= length (dec_digits fuel n) <= fuel)%nat.
Proof.
  revert n. induction fuel as [|fuel IH]; intros n Hn Hf; [lia|]. cbn [dec_digits].
  pose proof (Z.mod_pos_bound n 10 ltac:(lia)).
  destruct (n <? 10) eqn:E; reflect_bools.
  - rewrite Z.mod_small by lia. split_and!; [unfold undec; simpl; lia| |simpl; lia|simpl; lia].
    constructor; [lia|constructor].
  - assert (0 <= n / 10 < 10 ^ Z.of_nat fuel) as Hq.
    { split; [apply Z.div_pos; lia|]. apply Z.div_lt_upper_bound; [lia|].
      rewrite Nat2Z.inj_succ, Z.pow_succ_r in Hn by lia. lia. }
    assert (0 < fuel)%nat as Hf'.
    { destruct fuel; [|lia]. simpl in Hq.
      pose proof (Z.div_le_mono 10 n 10 ltac:(lia) ltac:(lia)) as H10. change (10 / 10) with 1 in H10.
      lia. }
    destruct (IH (n / 10) Hq Hf') as (H1 & H2 & H3). split_and!.
    + unfold undec in *. rewrite foldl_app, H1. simpl. pose proof (Z.div_mod n 10). lia.
    + apply Forall_app_2; [done|]. constructor; [lia|constructor].
    + rewrite length_app. simpl. lia.
    + rewrite length_app. simpl. lia.
Qed.

Lemma dec_spec n : uint_ok 64 n ->
  undec (dec n) = n /\ Forall (fun c => 48 <= c <= 57) (dec n) /\ (1 <= length (dec n) <= 20)%nat.
Proof. intros Hn. apply dec_digits_spec; [unfold uint_ok in Hn; simpl; lia|lia]. Qed.

Lemma length_write_at buf off w : (off + length w <= length buf)%nat ->
  length (write_at buf off w) = length buf.
Proof. intros. unfold write_at. rewrite !length_app, length_take, length_drop. lia. Qed.

Lemma snprintf_length buf off size t : 0 <= off ->
  snprintf buf off size t = UB \/
  exists buf', snprintf buf off size t = Ret (buf', Z.of_nat (length t)) /\
    length buf' = length buf.
Proof.
  intros Ho. unfold snprintf. destruct (_ <? off) eqn:E; [by left|]. destruct (size =? 0); [by right; eauto|].
  set (w := _ ++ [0]). destruct (_ <=? _) eqn:E2; [|by left]. right. eexists. split; [done|].
  apply length_write_at. reflect_bools. lia.
Qed.

Definition total (texts : list (list Z)) : Z := Z.of_nat (length (concat texts)).

Lemma total_cons t texts : total (t :: texts) = Z.of_nat (length t) + total texts.
Proof. unfold total. simpl. rewrite length_app. lia. Qed.

Lemma total_nonneg texts : 0 <= total texts.
Proof. unfold total. lia. Qed.

(** Whatever the texts, the loop either leaves the array or counts them all. *)
Lemma append_texts_length H texts buf off : 0 <= off -> off + total texts < 2 ^ 63 ->
  append_texts H texts buf off = UB \/
  exists buf', append_texts H texts buf off = Ret (buf', off + total texts) /\
    length buf' = length buf.
Proof.
  revert buf off. induction texts as [|t texts IH]; intros buf off Ho Hb; cbn [append_texts].
  { right. exists buf. split; [f_equal; f_equal; unfold total; simpl; lia|done]. }
  rewrite total_cons in *. pose proof (total_nonneg texts).
  destruct (snprintf_length buf off (u64 (H - off)) t Ho) as [->|(b1 & -> & Hl)]; [by left|].
  cbn [mbind outcome_bind]. rewrite wrap_small by (unfold uint_ok; lia).
  destruct (IH b1 (off + Z.of_nat (length t))) as [->|(b2 & -> & Hl2)]; [lia|lia|by left|].
  right. exists b2. split; [f_equal; f_equal; lia|congruence].
Qed.

Lemma snprintf_fit buf pre off t size :
  off = Z.of_nat (length pre) -> pre `prefix_of` buf -> Z.of_nat (length t) < size ->
  off + Z.of_nat (length t) < Z.of_nat (length buf) ->
  exists buf', snprintf buf off size t = Ret (buf', Z.of_nat (length t)) /\
    length buf' = length buf /\ (pre ++ t) `prefix_of` buf'.
Proof.
  intros -> [k ->] Hs Hf. unfold snprintf.
  rewrite (proj2 (Z.ltb_ge _ _)) by lia. rewrite (proj2 (Z.eqb_neq _ _)) by lia.
  rewrite (proj2 (Z.ltb_lt _ _)) by lia.
  rewrite (proj2 (Z.leb_le _ _)) by (rewrite (length_app t); simpl; lia).
  eexists. split; [done|]. rewrite Nat2Z.id. split.
  - apply length_write_at. rewrite (length_app t). simpl. lia.
  - unfold write_at. rewrite take_app_length. eexists. by rewrite <- !app_assoc.
Qed.

(** Texts that fit with a byte to spare are stored one after the other. *)
Lemma append_texts_fit H texts buf pre off :
  off = Z.of_nat (length pre) -> pre `prefix_of` buf -> Z.of_nat (length buf) = H -> H < 2 ^ 63 ->
  off + total texts < H ->
  exists buf', append_texts H texts buf off = Ret (buf', off + total texts) /\
    Z.of_nat (length buf') = H /\ (pre ++ concat texts) `prefix_of` buf'.
Proof.
  revert buf pre off. induction texts as [|t texts IH]; intros buf pre off Ho Hp Hl H63 Hf;
    cbn [append_texts concat].
  { exists buf. rewrite app_nil_r. split; [f_equal; f_equal; unfold total; simpl; lia|done]. }
  rewrite total_cons in *. pose proof (total_nonneg texts).
  rewrite wrap_small by (unfold uint_ok; lia).
  destruct (snprintf_fit buf pre off t (H - off)) as (b1 & -> & Hl1 & Hp1); [done|done|lia|lia|].
  cbn [mbind outcome_bind]. rewrite wrap_small by (unfold uint_ok; lia).
  destruct (IH b1 (pre ++ t) (off + Z.of_nat (length t))) as (b2 & -> & Hl2 & Hp2);
    [rewrite length_app; lia|done|lia|done|lia|].
  exists b2. rewrite <- app_assoc in Hp2. split; [f_equal; f_equal; lia|done].
Qed.

Lemma append_texts_snoc H texts t buf off : append_texts H (texts ++ [t]) buf off =
  '(b, o) ← append_texts H texts buf off;
  '(b, n) ← snprintf b o (u64 (H - o)) t; Ret (b, u64 (o + n)).
Proof.
  revert buf off. induction texts as [|t' texts IH]; intros buf off; cbn [append_texts app].
  { cbn [mbind outcome_bind]. by destruct (snprintf _ _ _ _) as [[? ?]| |]. }
  destruct (snprintf _ _ _ t') as [[b n]| |]; [|done|done]. cbn [mbind outcome_bind].
  apply IH.
Qed.

(** The texts [build_headers] writes when custom headers were set. *)
Definition head_texts (r : ResponseText) : list (list Z) :=
  standard_head (response_len r) :: ((fun '(k, v) => header_line k v) <$> resp_hdrs r).

Lemma build_headers_custom r stack H : H <> 0 -> header_size r <> 0 ->
  build_headers (Some stack) H r =
  '(buf, offset) ← append_texts H (head_texts r ++ [crlf]) stack 0; Ret (Some buf, s32 offset).
Proof.
  intros HH Hs. unfold build_headers.
  by rewrite (proj2 (Z.eqb_neq H 0)), (proj2 (Z.eqb_neq (header_size r) 0)) by done.
Qed.

(** The header fields a response carries, in the order they are written. *)
Definition content_length (n : Z) : list Z * list Z := (bytes_of_string "Content-Length", dec n).
Definition keep_alive : list Z * list Z :=
  (bytes_of_string "Connection", bytes_of_string "keep-alive").

Definition head_fields (r : ResponseText) : list (list Z * list Z) :=
  if header_size r =? 0 then
    [(bytes_of_string "Content-Type", bytes_of_string "text/plain");
     content_length (response_len r); keep_alive]
  else content_length (response_len r) :: keep_alive :: resp_hdrs r.

Definition head_text (r : ResponseText) : list Z :=
  print_response 200 (bytes_of_string "OK") (head_fields r).

Definition value_sizes (hs : list (list Z * list Z)) : Z :=
  foldr (fun h n => Z.of_nat (length h.2) + n) 0 hs.
Definition key_sizes (hs : list (list Z * list Z)) : Z :=
  foldr (fun h n => Z.of_nat (length h.1) + 4 + n) 0 hs.

(** What the 256 bytes beside the values have to hold. *)
Definition header_room (r : ResponseText) : Z :=
  61 + Z.of_nat (length (dec (response_len r))) + key_sizes (resp_hdrs r).

(** A response whose [header_size] counts its values, as [setHeader] keeps it. *)
Record resp_ok (r : ResponseText) : Prop := {
  ro_len : response_len r = Z.of_nat (length (response_buffer r));
  ro_len_max : response_len r < 2 ^ 31;
  ro_size : header_size r = value_sizes (resp_hdrs r);
  ro_size_max : header_size r < 2 ^ 30 }.

Lemma value_sizes_nonneg hs : 0 <= value_sizes hs.
Proof. induction hs; simpl; lia. Qed.

Lemma key_sizes_nonneg hs : 0 <= key_sizes hs.
Proof. induction hs; simpl; lia. Qed.

Lemma value_sizes_app a b : value_sizes (a ++ b) = value_sizes a + value_sizes b.
Proof. induction a; simpl; lia. Qed.

(** [setHeader] keeps [header_size] in step with the values. *)
Lemma set_header_ok pos k v r : resp_ok r ->
  header_size r + Z.of_nat (length (cstr v)) < 2 ^ 30 -> resp_ok (set_header pos k v r).
Proof.
  intros [H1 H2 H3 H4] Hv. pose proof (value_sizes_nonneg (resp_hdrs r)).
  split; simpl; [done|done| |]; rewrite s32_small by lia; [|done].
  rewrite value_sizes_app. simpl. rewrite H3, <- (take_drop pos (resp_hdrs r)) at 1.
  rewrite value_sizes_app. lia.
Qed.

Lemma header_lines (hs : list (list Z * list Z)) :
  (fun '(k, v) => header_line k v) <$> hs = print_header <$> hs.
Proof. apply list_fmap_ext. by intros ? [k v] _. Qed.

Lemma head_texts_concat r : header_size r <> 0 -> concat (head_texts r ++ [crlf]) = head_text r.
Proof.
  intros Hs. unfold head_text, head_fields, head_texts, print_response.
  rewrite (proj2 (Z.eqb_neq _ _)) by done. rewrite header_lines, !fmap_cons.
  cbn [concat app]. rewrite concat_app. cbn [concat].
  unfold standard_head, status_line, print_header at 2 3, header_line.
  cbn [fst snd content_length keep_alive]. rewrite app_nil_r, <- !app_assoc. reflexivity.
Qed.

Lemma default_head_text r : header_size r = 0 -> default_head (response_len r) = head_text r.
Proof.
  intros Hs. unfold head_text, head_fields. rewrite Hs. cbn [Z.eqb].
  unfold default_head, print_response. rewrite !fmap_cons. cbn [concat].
  unfold status_line, print_header, header_line. cbn [fst snd content_length keep_alive].
  rewrite <- !app_assoc. reflexivity.
Qed.

Lemma length_head_custom r : header_size r <> 0 ->
  Z.of_nat (length (head_text r)) = header_room r + value_sizes (resp_hdrs r).
Proof.
  intros Hs. rewrite <- head_texts_concat by done. unfold header_room.
  change (head_texts r) with ([standard_head (response_len r)] ++
    ((fun '(k, v) => header_line k v) <$> resp_hdrs r)).
  rewrite header_lines, !concat_app, !length_app. cbn [concat length].
  assert (Z.of_nat (length (concat (print_header <$> resp_hdrs r)))
    = key_sizes (resp_hdrs r) + value_sizes (resp_hdrs r)) as Hc.
  { induction (resp_hdrs r) as [|h hs IH]; [done|]. rewrite fmap_cons. cbn [concat].
    rewrite length_app, Nat2Z.inj_add, IH. unfold print_header. rewrite !length_app.
    simpl. lia. }
  unfold standard_head, status_line, header_line. rewrite !length_app. simpl. lia.
Qed.

Lemma length_head_default r : header_size r = 0 ->
  Z.of_nat (length (head_text r)) = 87 + Z.of_nat (length (dec (response_len r))).
Proof.
  intros Hs. rewrite <- default_head_text by done.
  unfold default_head, status_line, header_line. rewrite !length_app. simpl. lia.
Qed.

Lemma send_body r : response_len r = Z.of_nat (length (response_buffer r)) ->
  uv_buf_bytes (response_buffer r) (response_len r) = Ret (response_buffer r).
Proof.
  intros Hl. unfold uv_buf_bytes. rewrite Hl.
  rewrite (proj2 (Z.leb_le 0 _)), Z.leb_refl by lia. simpl.
  by rewrite Nat2Z.id, firstn_all.
Qed.

Lemma uv_buf_prefix t buf : t `prefix_of` buf ->
  uv_buf_bytes buf (Z.of_nat (length t)) = Ret t.
Proof.
  intros [k ->]. unfold uv_buf_bytes. rewrite length_app.
  rewrite (proj2 (Z.leb_le 0 _)), (proj2 (Z.leb_le _ (Z.of_nat _))) by lia. simpl.
  by rewrite Nat2Z.id, take_app_length.
Qed.

Lemma uv_buf_over base n : Z.of_nat (length base) < n -> uv_buf_bytes base n = UB.
Proof.
  intros. unfold uv_buf_bytes. rewrite (proj2 (Z.leb_gt n _)) by lia. by rewrite andb_false_r.
Qed.

Lemma dec_len r : resp_ok r -> (1 <= length (dec (response_len r)) <= 20)%nat.
Proof. intros [Hl Hm _ _]. apply dec_spec. unfold uint_ok. lia. Qed.

Lemma send_default stack r : resp_ok r -> header_size r = 0 ->
  Z.of_nat (length stack) = 256 -> send_bytes stack r = Ret (head_text r ++ response_buffer r).
Proof.
  intros Hr Hs Hl. pose proof (dec_len r Hr). unfold send_bytes, build_headers. rewrite Hs.
  change (0 + 256 =? 0) with false. change (0 =? 0) with true. cbv iota.
  rewrite default_head_text by done. pose proof (length_head_default r Hs).
  destruct (snprintf_fit stack [] 0 (head_text r) 256) as (b & Hb & Hl' & Hp);
    [done|by exists stack|lia|lia|].
  change (0 + 256) with 256. rewrite Hb. cbn [mbind outcome_bind default].
  rewrite uv_buf_prefix by done. cbn [mbind outcome_bind]. by rewrite (send_body r) by apply Hr.
Qed.

Lemma send_fits stack r : header_size r <> 0 -> 0 <= header_size r < 2 ^ 30 ->
  response_len r = Z.of_nat (length (response_buffer r)) ->
  Z.of_nat (length (head_text r)) < header_size r + 256 ->
  Z.of_nat (length stack) = header_size r + 256 ->
  send_bytes stack r = Ret (head_text r ++ response_buffer r).
Proof.
  intros Hs Hmax Hlen Hroom Hl. unfold send_bytes. rewrite build_headers_custom by lia.
  destruct (append_texts_fit (header_size r + 256) (head_texts r ++ [crlf]) stack [] 0)
    as (b & -> & Hlb & Hp); [done|by exists stack|done|lia| |].
  { unfold total. rewrite head_texts_concat by done. lia. }
  unfold total. rewrite head_texts_concat in * by done. cbn [mbind outcome_bind default].
  rewrite s32_small by lia. rewrite Z.add_0_l, uv_buf_prefix by done. cbn [mbind outcome_bind].
  by rewrite send_body.
Qed.

Lemma send_custom stack r : resp_ok r -> header_size r <> 0 -> header_room r < 256 ->
  Z.of_nat (length stack) = header_size r + 256 ->
  send_bytes stack r = Ret (head_text r ++ response_buffer r).
Proof.
  intros Hr Hs Hroom Hl. pose proof (value_sizes_nonneg (resp_hdrs r)).
  pose proof (length_head_custom r Hs) as Hh. destruct Hr as [R1 R2 R3 R4].
  apply send_fits; lia || done.
Qed.

Lemma digits_value_ok l : Forall (fun c => 48 <= c <= 57) l -> value_ok l.
Proof.
  intros Hl. assert (forall c, 48 <= c <= 57 -> blank c = false /\ is_ctl c = false /\ byte_ok c) as Hc.
  { intros c Hc. unfold blank, is_ctl, uint_ok.
    rewrite !(proj2 (Z.eqb_neq c _)), (proj2 (Z.ltb_ge c 32)) by lia. split_and!; done || lia. }
  split_and!.
  - eapply list.Forall_impl; [exact Hl|]. intros c Hx. destruct (Hc c Hx) as (? & ? & ?). done.
  - destruct l as [|c l]; [done|]. apply list.Forall_cons in Hl as [Hx _]. apply Hc, Hx.
  - destruct l as [|c l _] using rev_ind; [done|]. rewrite last_snoc.
    apply list.Forall_app in Hl as [_ [Hx _]%list.Forall_cons]. apply Hc, Hx.
Qed.

(** The fixed header fields are well formed, by evaluation. *)
Lemma known_header_ok k v :
  bool_decide (k <> [] /\ Forall (fun c => byte_ok c /\ token_char c = true) k) = true ->
  bool_decide (Forall (fun c => byte_ok c /\ is_ctl c = false) v) = true ->
  from_option (fun c => blank c = false) True (head v) ->
  from_option (fun c => blank c = false) True (list.last v) -> header_ok (k, v).
Proof.
  intros Hk%bool_decide_eq_true Hv%bool_decide_eq_true H1 H2. split; [done|by split_and!].
Qed.

(** A response whose header names leave room in the 256 spare bytes is written as a
    status line, a correct Content-Length, keep-alive and its headers, followed by the
    body, whatever the uninitialised stack buffer held; a peer's response parser reads
    status 200, exactly these fields and the length of the head back. *)
Theorem http_response_wellformed sse stack r :
  resp_ok r -> (header_size r = 0 \/ header_room r < 256) ->
  Z.of_nat (length stack) = header_size r + 256 ->
  send_bytes stack r = Ret (head_text r ++ response_buffer r) /\
  (bytes_ok (response_buffer r) -> Forall header_ok (resp_hdrs r) -> (length (resp_hdrs r) <= 97)%nat ->
   phr_parse_response sse (head_text r ++ response_buffer r) 100 0
   = Ret (Z.of_nat (length (head_text r)),
          Some (mkResponse 1 200 (bytes_of_string "OK") (to_header <$> head_fields r))) /\
   undec (dec (response_len r)) = Z.of_nat (length (response_buffer r))).
Proof.
  intros Hr Hroom Hl. pose proof (dec_len r Hr) as Hd. split.
  { destruct (decide (header_size r = 0)) as [H0|H0]; [apply send_default; lia || done|].
    apply send_custom; done || lia. }
  intros Hb Hh Hn. pose proof Hr as [R1 R2 R3 R4].
  destruct (dec_spec (response_len r)) as (D1 & D2 & _); [unfold uint_ok; lia|].
  split; [|by rewrite D1].
  assert (Z.of_nat (length (head_text r)) < 2 ^ 31) as Hlen.
  { destruct (decide (header_size r = 0)) as [H0|H0].
    - rewrite length_head_default by done. lia.
    - rewrite length_head_custom by done. lia. }
  unfold phr_parse_response. cbn [Nat.eqb]. unfold head_text.
  rewrite parse_response_run; [|lia| |done| | |done].
  - fold (head_text r). rewrite length_app.
    replace (length (head_text r) + length (response_buffer r) - length (response_buffer r))%nat
      with (length (head_text r)) by lia. by rewrite s32_small by lia.
  - repeat split; by apply (bool_decide_unpack _).
  - assert (header_ok (content_length (response_len r))) as Hcl.
    { split; [split; [done|by apply (bool_decide_unpack _)]|]. by apply digits_value_ok. }
    unfold head_fields. destruct (header_size r =? 0);
      repeat (constructor; [first [exact Hcl|by apply known_header_ok]|]); [constructor|done].
  - unfold head_fields. destruct (header_size r =? 0); simpl; lia.
Qed.

(** [res.setHeader("Content-Type", "text/html")] and [res.end("hi")]. *)
Definition hello_resp : ResponseText :=
  set_body (bytes_of_string "hi")
    (set_header 0 (bytes_of_string "Content-Type") (bytes_of_string "text/html")
      (mkResp 0 [] [] 0 false)).

Lemma hello_resp_ok : resp_ok hello_resp.
Proof. by split. Qed.

Lemma http_response_wellformed_witness :
  send_bytes (replicate 265 170) hello_resp = Ret (head_text hello_resp ++ [104; 105]).
Proof.
  apply (http_response_wellformed false (replicate 265 170) hello_resp hello_resp_ok);
    [right; by vm_compute|done].
Defined.

(** Two bytes left for the final CRLF: [snprintf] stores the CR and its NUL. *)
Lemma snprintf_crlf_cut t k : length k = 2%nat ->
  snprintf (t ++ k) (Z.of_nat (length t)) 2 crlf = Ret (t ++ [13; 0], 2).
Proof.
  intros Hk. unfold snprintf. rewrite length_app, Hk.
  rewrite (proj2 (Z.ltb_ge _ _)) by lia. change (2 =? 0) with false. cbv iota zeta.
  change (Z.of_nat (length crlf) <? 2) with false. cbv iota.
  change (take (Z.to_nat (2 - 1)) crlf ++ [0]) with [13; 0].
  rewrite (proj2 (Z.leb_le _ _)) by (simpl; lia).
  unfold write_at. rewrite Nat2Z.id, take_app_length, drop_ge; [by rewrite app_nil_r|].
  rewrite length_app. simpl. lia.
Qed.

Lemma send_exact stack r : resp_ok r -> header_size r <> 0 -> header_room r = 256 ->
  Z.of_nat (length stack) = header_size r + 256 ->
  send_bytes stack r
  = Ret (take (length (head_text r) - 1) (head_text r) ++ [0] ++ response_buffer r).
Proof.
  intros Hr Hs Hroom Hl. pose proof (length_head_custom r Hs) as Hh.
  pose proof (value_sizes_nonneg (resp_hdrs r)). pose proof Hr as [R1 R2 R3 R4].
  pose proof (head_texts_concat r Hs) as Hc. unfold send_bytes.
  rewrite build_headers_custom, append_texts_snoc by lia.
  rewrite concat_app in Hc. set (t := concat (head_texts r)) in *.
  cbn [concat] in Hc. rewrite app_nil_r in Hc. rewrite <- Hc in *. rewrite length_app in Hh.
  change (length crlf) with 2%nat in Hh.
  destruct (append_texts_fit (header_size r + 256) (head_texts r) stack [] 0)
    as (b & -> & Hlb & [k ->]);
    [done|by exists stack|done|lia|unfold total; fold t; lia|].
  cbn [mbind outcome_bind app] in *. unfold total in *. fold t in Hlb |- *. rewrite Z.add_0_l.
  rewrite length_app in Hlb. change (length crlf) with 2%nat in *.
  rewrite wrap_small by (unfold uint_ok; lia).
  replace (header_size r + 256 - Z.of_nat (length t)) with 2 by lia.
  rewrite snprintf_crlf_cut by lia. cbn [mbind outcome_bind].
  rewrite wrap_small, s32_small by (unfold uint_ok; lia).
  replace (Z.of_nat (length t) + 2)
    with (Z.of_nat (length (t ++ [13; 0]))) by (rewrite length_app; simpl; lia).
  rewrite (uv_buf_prefix (t ++ [13; 0])) by done. cbn [mbind outcome_bind].
  rewrite (send_body r) by apply Hr. cbn [mbind outcome_bind]. rewrite length_app.
  replace (length t + length crlf - 1)%nat with (length t + 1)%nat by (simpl; lia).
  rewrite take_app_add. by rewrite <- !app_assoc.
Qed.

(** When the header names do not fit the 256 spare bytes, [send] leaves the buffer,
    for every content of it; when they fit it exactly, the byte after the last CR is the
    NUL of [snprintf] instead of the LF, and the head never ends. *)
Theorem http_response_overflow stack r :
  resp_ok r -> header_size r <> 0 -> header_room r < 2 ^ 30 ->
  Z.of_nat (length stack) = header_size r + 256 ->
  (256 < header_room r -> send_bytes stack r = UB) /\
  (header_room r = 256 ->
   send_bytes stack r
   = Ret (take (length (head_text r) - 1) (head_text r) ++ [0] ++ response_buffer r)).
Proof.
  intros Hr Hs Hmax Hl. split; intros Hroom; [|by apply send_exact].
  pose proof (length_head_custom r Hs) as Hh. pose proof (value_sizes_nonneg (resp_hdrs r)).
  pose proof Hr as [R1 R2 R3 R4]. pose proof (head_texts_concat r Hs) as Hc. unfold send_bytes.
  rewrite build_headers_custom by lia.
  destruct (append_texts_length (header_size r + 256) (head_texts r ++ [crlf]) stack 0)
    as [->|(b & -> & Hlb)]; [lia|unfold total; rewrite Hc; lia|done|].
  cbn [mbind outcome_bind]. change (default [] (Some b)) with b.
  unfold total. rewrite Hc, s32_small by lia.
  by rewrite (uv_buf_over b) by lia.
Qed.

(** Twelve headers of one character values and names of fifteen characters. *)
Definition big_resp : ResponseText :=
  foldr (fun i => set_header 0 (replicate 15 (97 + i)) [49]) (mkResp 0 [] [] 0 false)
    [0; 1; 2; 3; 4; 5; 6; 7; 8; 9; 10; 11].

Lemma http_response_overflow_witness : send_bytes (replicate 268 0) big_resp = UB.
Proof.
  apply (http_response_overflow (replicate 268 0) big_resp);
    [by split|done|by vm_compute|done|by vm_compute].
Defined.
