(* ===== verification/ClientOps.v ===== *)
(** The receive buffers of a connection: include/client_op.h on the fields of
    include/client_state.h.

    A connection keeps the data it has received in a singly linked list of [ReadBuffer]s
    taken from the server's pool. The operations work on the pool through the
    [ObjectPool] interface: following a pointer that is not live is [UB]. *)

From S2P Require Import Prelude MemPool ObjectPool.

Record ReadBuffer := mkRB { read_buffer : list Z; rb_len : Z; rb_next : option Z }.

(** [memset] on a [ReadBuffer]: eight equal bytes make up [len] and [next]. *)
#[export] Instance memset_ReadBuffer : Memset ReadBuffer := fun c =>
  let word := c * 0x0101010101010101 in
  mkRB (replicate 256 c) word (if word =? 0 then None else Some word).

(** The fields [recv_head], [recv_tail], [recv_count] and [recv_len] of [ClientState]. *)
Record Recv := mkRecv {
  recv_head : option Z; recv_tail : option Z; recv_count : Z; recv_len : Z }.

Definition no_recv : Recv := mkRecv None None 0 0.

Section Operations.
Context {BP : Type} `{ObjectPool BP ReadBuffer}.
Implicit Types (bp : BP) (r : Recv).

(** [p->field] on a pointer into the buffer pool. *)
Definition deref bp (p : option Z) : outcome (Z * ReadBuffer) :=
  match p with
  | None => UB
  | Some b => match op_get bp b with None => UB | Some rb => Ret (b, rb) end
  end.

Definition recv_new_buffer r (buff : option Z) bp : outcome (Recv * BP) :=
  match buff with
  | None => Ret (r, bp)
  | Some b =>
      '(_, rb) ← deref bp buff;
      let len := s32 (recv_len r + rb_len rb) in
      match recv_head r with
      | None => Ret (mkRecv buff buff (u64 (recv_count r + 1)) len, bp)
      | Some _ =>
          '(t, tb) ← deref bp (recv_tail r);
          let bp := op_set bp t (mkRB (read_buffer tb) (rb_len tb) buff) in
          Ret (mkRecv (recv_head r) buff (u64 (recv_count r + 1)) len, bp)
      end
  end.

(** The loop of [clear_buffer]; every turn takes a live buffer out of the pool. *)
Fixpoint clear_loop (fuel : nat) (head : option Z) bp : outcome BP :=
  match head with
  | None => Ret bp
  | Some currHead =>
      match fuel with
      | O => UB
      | S fuel' =>
          '(_, rb) ← deref bp head;
          bp ← op_release currHead bp;
          clear_loop fuel' (rb_next rb) bp
      end
  end.

(** [clear_buffer]; [recv_count] turns are enough (see [clear_buffer_spec]). *)
Definition clear_buffer r bp : outcome (Recv * BP) :=
  bp ← clear_loop (Z.to_nat (recv_count r)) (recv_head r) bp;
  Ret (no_recv, bp).

Definition get_recv_packet_len r : Z := recv_len r.
Definition get_recv_packet_count r : Z := s32 (recv_count r).

(** [memcpy(buff + offset, src, n)] from a 256-byte array. *)
Definition memcpy_at (buff : list Z) (offset : Z) (src : list Z) (n : Z) : outcome (list Z) :=
  if (n <=? Z.of_nat (length src)) && (offset + n <=? Z.of_nat (length buff))
  then Ret (take (Z.to_nat offset) buff ++ take (Z.to_nat n) src
              ++ drop (Z.to_nat (offset + n)) buff)
  else UB.

Fixpoint flatten_loop (fuel : nat) bp (wh : option Z) (offset : Z) (buff : list Z) :
    outcome (list Z) :=
  match wh with
  | None => Ret buff
  | Some _ =>
      match fuel with
      | O => UB
      | S fuel' =>
          '(_, rb) ← deref bp wh;
          buff ← memcpy_at buff offset (read_buffer rb) (rb_len rb);
          flatten_loop fuel' bp (rb_next rb) (u64 (offset + rb_len rb)) buff
      end
  end.

Definition flatten_buffer r bp (buff : list Z) : outcome (list Z) :=
  flatten_loop (Z.to_nat (recv_count r)) bp (recv_head r) 0 buff.

(** [print_recv_buffer]: the same walk into [recv_buffer[recv_len + 1]], then a NUL. *)
Definition print_recv_buffer r bp (stack : list Z) : outcome (list Z) :=
  buff ← flatten_loop (Z.to_nat (recv_count r)) bp (recv_head r) 0 stack;
  match arr_set buff (recv_len r) 0 with None => UB | Some buff => Ret buff end.

(** What libuv and [process_http_1_request] do with one read of [data]: the buffer from
    [on_alloc_buffer_cb] is filled, its [len] set and the buffer linked in. *)
Definition fill_buffer (b : Z) (data : list Z) bp : outcome BP :=
  '(_, rb) ← deref bp (Some b);
  if (length data <=? length (read_buffer rb))%nat then
    Ret (op_set bp b (mkRB (data ++ drop (length data) (read_buffer rb))
                           (Z.of_nat (length data)) (rb_next rb)))
  else UB.

End Operations.

(** ** The chain of buffers *)

Section Chain.
Context {BP : Type} `{ObjectPool BP ReadBuffer}.
Implicit Types (bp : BP) (r : Recv) (m : gmap Z ReadBuffer) (l : list Z).

Definition rb_ok (rb : ReadBuffer) : Prop :=
  length (read_buffer rb) = 256%nat /\ 0 <= rb_len rb <= 256.

Definition rb_data (rb : ReadBuffer) : list Z := take (Z.to_nat (rb_len rb)) (read_buffer rb).

(** Following [next] from [h] visits exactly [l]. *)
Fixpoint buf_chain m (h : option Z) l : Prop :=
  match l with
  | [] => h = None
  | b :: l' => h = Some b /\ exists rb, m !! b = Some rb /\ rb_ok rb /\ buf_chain m (rb_next rb) l'
  end.

(** The bytes of the chain, in order. *)
Definition content m l : list Z := concat ((fun b => from_option rb_data [] (m !! b)) <$> l).

Record recv_ok m r l : Prop := {
  ro_chain : buf_chain m (recv_head r) l;
  ro_tail : recv_tail r = list.last l;
  ro_nodup : NoDup l;
  ro_count : recv_count r = Z.of_nat (length l);
  ro_bytes : recv_len r = Z.of_nat (length (content m l)) }.

Lemma rb_data_length rb : rb_ok rb -> Z.of_nat (length (rb_data rb)) = rb_len rb.
Proof. intros [Hl Hn]. unfold rb_data. rewrite length_take. lia. Qed.

Lemma content_cons m b rb l : m !! b = Some rb -> content m (b :: l) = rb_data rb ++ content m l.
Proof. intros Hb. unfold content. rewrite fmap_cons, Hb. done. Qed.

Lemma content_app m l1 l2 : content m (l1 ++ l2) = content m l1 ++ content m l2.
Proof. unfold content. by rewrite fmap_app, concat_app. Qed.

Lemma content_ext m m' l : (forall b, b ∈ l -> rb_data <$> m !! b = rb_data <$> m' !! b) ->
  content m l = content m' l.
Proof.
  intros He. unfold content. f_equal. apply list_fmap_ext. intros i b Hb.
  apply list_elem_of_lookup_2 in Hb. specialize (He b Hb).
  destruct (m !! b), (m' !! b); simpl in *; congruence.
Qed.

Lemma chain_length_le m h l : buf_chain m h l -> (length (content m l) <= 256 * length l)%nat.
Proof.
  revert h. induction l as [|b l IH]; intros h; [simpl; lia|].
  intros [_ (rb & Hb & Hok & Hc)]. rewrite (content_cons m b rb l Hb), length_app.
  apply IH in Hc. pose proof (rb_data_length rb Hok). destruct Hok. cbn [length]. lia.
Qed.

Lemma deref_repr bp n m b rb : op_repr bp n m -> m !! b = Some rb ->
  deref bp (Some b) = Ret (b, rb).
Proof. intros Hr Hb. unfold deref. by rewrite (op_get_repr _ _ _ _ Hr), Hb. Qed.

Lemma chain_live m h l b : buf_chain m h l -> b ∈ l -> is_Some (m !! b).
Proof.
  revert h. induction l as [|x l IH]; intros h; [set_solver|].
  intros [_ (xb & Hx & _ & Hc)] [->|Hin]%elem_of_cons; [by eexists|by eapply IH].
Qed.

(** A chain does not look at buffers outside it. *)
Lemma chain_ext m m' h l : (forall b, b ∈ l -> m !! b = m' !! b) ->
  buf_chain m h l -> buf_chain m' h l.
Proof.
  revert h. induction l as [|b l IH]; intros h He; [done|].
  intros [-> (rb & Hb & Hok & Hc)]. split; [done|]. exists rb.
  rewrite <- He by set_solver. split_and!; [done|done|]. apply IH; [set_solver|done].
Qed.

Lemma chain_snoc m h l t b tb : NoDup (l ++ [t]) -> buf_chain m h (l ++ [t]) ->
  m !! t = Some tb -> rb_next tb = None -> b ∉ l ++ [t] ->
  (exists rb, m !! b = Some rb /\ rb_ok rb /\ rb_next rb = None) ->
  buf_chain (<[t := mkRB (read_buffer tb) (rb_len tb) (Some b)]> m) h (l ++ [t; b]).
Proof.
  intros Hnd Hc Ht Htn Hb (rb & Hrb & Hok & Hn). revert h Hc. induction l as [|x l IH]; intros h.
  - intros [-> (tb' & Ht' & Htok & _)]. rewrite Ht in Ht'. injection Ht' as <-.
    split; [done|]. eexists. rewrite lookup_insert_eq. split_and!; [done|done|]. simpl.
    split; [done|]. exists rb. rewrite lookup_insert_ne by set_solver. done.
  - simpl in Hnd. apply list.NoDup_cons in Hnd as [Hx Hnd].
    intros [-> (xb & Hxb & Hxok & Hc)]. split; [done|]. exists xb.
    rewrite lookup_insert_ne by set_solver. split_and!; [done|done|].
    apply IH; [done|set_solver|done].
Qed.

Lemma chain_last_next m h l t : buf_chain m h (l ++ [t]) ->
  exists tb, m !! t = Some tb /\ rb_ok tb /\ rb_next tb = None.
Proof.
  revert h. induction l as [|x l IH]; intros h.
  - intros [_ (tb & ? & ? & ?)]. eauto.
  - intros [_ (xb & _ & _ & Hc)]. by apply IH in Hc.
Qed.

Lemma recv_new_buffer_spec bp n m r l b rb :
  op_repr bp n m -> recv_ok m r l -> b ∉ l -> m !! b = Some rb -> rb_ok rb ->
  rb_next rb = None -> recv_len r + rb_len rb < 2 ^ 31 -> Z.of_nat (length l) + 1 < 2 ^ 64 ->
  exists r' bp' m', recv_new_buffer r (Some b) bp = Ret (r', bp') /\ op_repr bp' n m' /\
    recv_ok m' r' (l ++ [b]) /\ content m' (l ++ [b]) = content m l ++ rb_data rb /\
    (forall x, x ∉ l -> m' !! x = m !! x) /\ dom m' = dom m.
Proof.
  intros Hr Hok Hb Hmb Hrb Hn Hlen Hcnt. pose proof (rb_data_length rb Hrb) as Hdl.
  assert (forall m', (forall x, rb_data <$> m' !! x = rb_data <$> m !! x) ->
    content m' (l ++ [b]) = content m l ++ rb_data rb) as Hcont.
  { intros m' He. rewrite (content_ext m' m) by auto. rewrite content_app. f_equal.
    rewrite (content_cons m b rb [] Hmb). apply app_nil_r. }
  destruct Hok as [Hch Htl Hnd Hct Hby].
  unfold recv_new_buffer. rewrite (deref_repr bp n m b rb Hr Hmb). cbn [mbind outcome_bind].
  rewrite s32_small by (destruct Hrb; lia). rewrite wrap_small by (unfold uint_ok; lia).
  destruct l as [|t l _] using rev_ind.
  - simpl in Hch. rewrite Hch. do 3 eexists. split_and!; [done|exact Hr| |by apply Hcont|done|done].
    split; simpl; [|done|apply NoDup_singleton|simpl in Hct; lia|].
    + split; [done|]. eauto.
    + pose proof (Hcont m ltac:(done)) as Hc. simpl in Hc. rewrite Hc, Hby. simpl. lia.
  - destruct (chain_last_next _ _ _ _ Hch) as (tb & Ht & Htok & Htn).
    assert (is_Some (recv_head r)) as [h Hh].
    { destruct l; destruct Hch as [-> _]; by eexists. }
    rewrite Hh, Htl, last_snoc, (deref_repr bp n m t tb Hr Ht). cbn [mbind outcome_bind].
    set (m' := <[t := mkRB (read_buffer tb) (rb_len tb) (Some b)]> m).
    assert (forall x, rb_data <$> m' !! x = rb_data <$> m !! x) as Hd.
    { intros x. subst m'. destruct (decide (x = t)) as [->|];
        [by rewrite lookup_insert_eq, Ht|by rewrite lookup_insert_ne]. }
    do 2 eexists. exists m'. split_and!; [done|by apply op_set_repr| |by apply Hcont| |].
    + split; simpl.
      * rewrite <- app_assoc. rewrite Hh in Hch. eapply chain_snoc; eauto.
      * by rewrite last_snoc.
      * apply list.NoDup_app. split_and!; [done|set_solver|apply NoDup_singleton].
      * rewrite length_app. simpl. lia.
      * rewrite (Hcont m' Hd), length_app, Hby. lia.
    + intros x Hx. subst m'. rewrite lookup_insert_ne by set_solver. done.
    + subst m'. rewrite dom_insert_lookup_L; [done|by eexists].
Qed.

(** [flatten_buffer] copies the bytes of the chain, in order. *)
Lemma flatten_loop_spec bp n m : op_repr bp n m -> forall l fuel h pre junk,
  buf_chain m h l -> (length l <= fuel)%nat -> length junk = length (content m l) ->
  Z.of_nat (length pre + length junk) < 2 ^ 64 ->
  flatten_loop fuel bp h (Z.of_nat (length pre)) (pre ++ junk) = Ret (pre ++ content m l).
Proof.
  intros Hr. induction l as [|b l IH]; intros fuel h pre junk Hc Hf Hj Hlt.
  { simpl in Hc. subst h. destruct junk; [|done]. by destruct fuel. }
  destruct Hc as [-> (rb & Hb & Hok & Hc)]. destruct fuel as [|fuel]; [simpl in Hf; lia|].
  cbn [flatten_loop]. rewrite (deref_repr bp n m b rb Hr Hb). cbn [mbind outcome_bind].
  rewrite (content_cons m b rb l Hb) in *. pose proof (rb_data_length rb Hok) as Hd.
  rewrite length_app in Hj. unfold memcpy_at. rewrite length_app.
  rewrite (proj2 (Z.leb_le _ _)), (proj2 (Z.leb_le _ _)) by (destruct Hok; lia). cbn [andb mbind outcome_bind].
  rewrite Nat2Z.id, take_app_length. fold (rb_data rb).
  replace (Z.to_nat (Z.of_nat (length pre) + rb_len rb))
    with (length pre + length (rb_data rb))%nat by lia.
  rewrite drop_app_add, wrap_small by (unfold uint_ok; lia).
  specialize (IH fuel (rb_next rb) (pre ++ rb_data rb) (drop (length (rb_data rb)) junk) Hc).
  rewrite length_app, length_drop, <- !app_assoc in IH.
  replace (Z.of_nat (length pre) + rb_len rb)
    with (Z.of_nat (length pre + length (rb_data rb))) by lia.
  apply IH; simpl in Hf; lia.
Qed.

Lemma flatten_buffer_spec bp n m r l buff : op_repr bp n m -> recv_ok m r l ->
  Z.of_nat (length buff) = recv_len r -> recv_len r < 2 ^ 63 ->
  flatten_buffer r bp buff = Ret (content m l).
Proof.
  intros Hr [Hc _ _ Hct Hby] Hl Hlt. unfold flatten_buffer.
  rewrite Hct, Nat2Z.id. apply (flatten_loop_spec bp n m Hr l _ _ [] buff); simpl; done || lia.
Qed.

(** [clear_buffer] gives exactly the chain back to the pool. *)
Lemma clear_loop_spec n l : forall m bp h fuel, op_repr bp n m -> NoDup l -> buf_chain m h l ->
  (length l <= fuel)%nat ->
  exists bp' m', clear_loop fuel h bp = Ret bp' /\ op_repr bp' n m' /\
    forall b, m' !! b = if decide (b ∈ l) then None else m !! b.
Proof.
  induction l as [|b l IH]; intros m bp h fuel Hr Hnd Hc Hf.
  { simpl in Hc. subst h. exists bp, m. split_and!; [by destruct fuel|done|].
    intros b. by rewrite decide_False by set_solver. }
  destruct Hc as [-> (rb & Hb & Hok & Hc)]. destruct fuel as [|fuel]; [simpl in Hf; lia|].
  apply list.NoDup_cons in Hnd as [Hni Hnd]. cbn [clear_loop].
  rewrite (deref_repr bp n m b rb Hr Hb). cbn [mbind outcome_bind].
  destruct (op_release_repr bp n m b Hr) as (bp1 & -> & Hr1); [by eexists|]. cbn [mbind outcome_bind].
  destruct (IH (delete b m) bp1 (rb_next rb) fuel Hr1 Hnd) as (bp2 & m2 & He & Hr2 & Hm2).
  - eapply chain_ext; [|exact Hc]. intros x Hx. rewrite lookup_delete_ne; [done|]. set_solver.
  - simpl in Hf. lia.
  - exists bp2, m2. split_and!; [done|done|]. intros x. rewrite Hm2.
    destruct (decide (x = b)) as [->|Hne].
    + rewrite lookup_delete_eq, (decide_True (P := b ∈ b :: l)) by set_solver. by case_decide.
    + rewrite lookup_delete_ne by done.
      destruct (decide (x ∈ l)); [rewrite decide_True by set_solver|rewrite decide_False by set_solver]; done.
Qed.

Lemma clear_buffer_spec bp n m r l : op_repr bp n m -> recv_ok m r l ->
  exists bp' m', clear_buffer r bp = Ret (no_recv, bp') /\ op_repr bp' n m' /\
    forall b, m' !! b = if decide (b ∈ l) then None else m !! b.
Proof.
  intros Hr [Hc _ Hnd Hct _]. unfold clear_buffer. rewrite Hct, Nat2Z.id.
  destruct (clear_loop_spec n l m bp (recv_head r) (length l) Hr Hnd Hc) as (bp' & m' & -> & ? & ?);
    [done|]. eauto.
Qed.

Lemma recv_ok_empty m : recv_ok m no_recv [].
Proof. split; try done. constructor. Qed.

End Chain.

(** ** Reassembly *)

Section Receive.
Context {BP : Type} `{OP : ObjectPool BP ReadBuffer}.
Context (Hzero : op_zero = mkRB (replicate 256 0) 0 None).
Implicit Types (bp : BP) (r : Recv) (m : gmap Z ReadBuffer) (l : list Z).

(** One read of [data] on a connection: [on_alloc_buffer_cb], the read into the buffer,
    [rb->len = nread] and [recv_new_buffer]. *)
Definition receive_one (data : list Z) r bp : outcome (option (Recv * BP)) :=
  '(b, bp) ← op_acquire bp;
  match b with
  | None => Ret None
  | Some p => bp ← fill_buffer p data bp; q ← recv_new_buffer r b bp; Ret (Some q)
  end.

Fixpoint receive (chunks : list (list Z)) r bp : outcome (option (Recv * BP)) :=
  match chunks with
  | [] => Ret (Some (r, bp))
  | data :: chunks' =>
      q ← receive_one data r bp;
      match q with None => Ret None | Some (r, bp) => receive chunks' r bp end
  end.

(** The connection has received [data] in the buffers [l] it took from a pool whose map
    was [m0]. *)
Record received m0 n (data : list Z) r bp m l : Prop := {
  rc_repr : op_repr bp n m;
  rc_ok : recv_ok m r l;
  rc_data : content m l = data;
  rc_fresh : forall b, b ∈ l -> m0 !! b = None;
  rc_frame : forall b, b ∉ l -> m !! b = m0 !! b;
  rc_size : size m = (size m0 + length l)%nat }.

Lemma receive_one_full data r bp n m : op_repr bp n m -> size m = n ->
  receive_one data r bp = Ret None.
Proof. intros Hr Hs. unfold receive_one. by rewrite (op_acquire_full bp n m). Qed.

Lemma receive_one_spec m0 n old data r bp m l :
  received m0 n old r bp m l -> size m <> n -> (length data <= 256)%nat ->
  Z.of_nat n * 256 < 2 ^ 31 ->
  exists r' bp' m' b, receive_one data r bp = Ret (Some (r', bp')) /\
    received m0 n (old ++ data) r' bp' m' (l ++ [b]).
Proof.
  intros [Hr Hok Hd Hfr Hm Hsz] Hn Hlen Hmax. unfold receive_one.
  destruct (op_acquire_free bp n m Hr Hn) as (b & bp1 & -> & Hb & Hr1). rewrite Hzero in Hr1.
  cbn [mbind outcome_bind]. unfold fill_buffer.
  rewrite (deref_repr bp1 n _ b _ Hr1 (lookup_insert_eq _ _ _)). cbn [mbind outcome_bind read_buffer].
  rewrite length_replicate, (proj2 (Nat.leb_le _ _)) by done. cbn [mbind outcome_bind rb_next].
  set (rb := mkRB _ _ None). set (m1 := <[b := rb]> m).
  assert (op_repr (op_set bp1 b rb) n m1) as Hr2.
  { eapply op_set_repr in Hr1; [|rewrite lookup_insert_eq; by eexists].
    by rewrite insert_insert_eq in Hr1. }
  assert (b ∉ l) as Hbl.
  { intros Hin. destruct Hok as [Hc _ _ _ _].
    destruct (chain_live _ _ _ _ Hc Hin). congruence. }
  assert (forall x, x ∈ l -> m !! x = m1 !! x) as Hext.
  { intros x Hx. subst m1. rewrite lookup_insert_ne; [done|]. intros ->. done. }
  assert (content m l = content m1 l) as Hc1 by (apply content_ext; intros x Hx; by rewrite Hext).
  assert (recv_ok m1 r l) as Hok1.
  { destruct Hok as [Hc ? ? ? ?]. split; [|done|done|done|congruence].
    eapply chain_ext; [|exact Hc]. done. }
  assert (rb_ok rb /\ rb_data rb = data) as [Hrok Hrd].
  { subst rb. unfold rb_ok, rb_data. cbn [read_buffer rb_len]. split.
    - rewrite length_app, length_drop, length_replicate. lia.
    - by rewrite Nat2Z.id, take_app_length. }
  assert (length l < n)%nat as Hln by (pose proof (op_size bp n m Hr); lia).
  pose proof (chain_length_le m1 _ l (ro_chain _ _ _ Hok1)) as Hcl.
  destruct (recv_new_buffer_spec (op_set bp1 b rb) n m1 r l b rb Hr2 Hok1 Hbl
    (lookup_insert_eq _ _ _) Hrok eq_refl) as (r' & bp' & m' & -> & Hr' & Hok' & Hc' & Hf' & Hdom).
  { rewrite (ro_bytes _ _ _ Hok1). destruct Hrok. lia. }
  { lia. }
  cbn [mbind outcome_bind]. exists r', bp', m', b. split; [done|]. split; [done|done| | | |].
  - by rewrite Hc', Hrd, <- Hc1, Hd.
  - intros x [Hx | ->%list_elem_of_singleton]%elem_of_app; [by apply Hfr|].
    rewrite <- Hm by done. done.
  - intros x Hx. rewrite Hf' by set_solver. subst m1. rewrite lookup_insert_ne by set_solver.
    apply Hm. set_solver.
  - rewrite <- size_dom, Hdom, size_dom. subst m1. rewrite map_size_insert_None by done.
    rewrite Hsz, length_app. simpl. lia.
Qed.

Lemma receive_spec m0 n chunks : Z.of_nat n * 256 < 2 ^ 31 ->
  Forall (fun d => (length d <= 256)%nat) chunks ->
  forall old r bp m l, received m0 n old r bp m l -> (size m + length chunks <= n)%nat ->
  exists r' bp' m' l', receive chunks r bp = Ret (Some (r', bp')) /\
    received m0 n (old ++ concat chunks) r' bp' m' l'.
Proof.
  intros Hmax Hc. induction Hc as [|d chunks Hd Hc IH]; intros old r bp m l Hrc Hsz; cbn [receive concat].
  { exists r, bp, m, l. by rewrite app_nil_r. }
  destruct (receive_one_spec m0 n old d r bp m l Hrc) as (r1 & bp1 & m1 & b & -> & Hrc1);
    [simpl in Hsz; lia|done|done|]. cbn [mbind outcome_bind].
  destruct (IH _ _ _ _ _ Hrc1) as (r2 & bp2 & m2 & l2 & He & Hrc2).
  { rewrite (rc_size _ _ _ _ _ _ _ Hrc1), (rc_size _ _ _ _ _ _ _ Hrc) in *.
    rewrite length_app. simpl in *. lia. }
  exists r2, bp2, m2, l2. by rewrite app_assoc.
Qed.

(** Whatever way a request is cut into reads of at most 256 bytes, as long as the
    pool has that many buffers, [flatten_buffer] reassembles exactly the bytes received,
    in order, and [clear_buffer] returns every buffer: the pool is as it was before. *)
Theorem recv_reassembles n m0 bp chunks junk :
  op_repr bp n m0 -> Forall (fun d => (length d <= 256)%nat) chunks ->
  (size m0 + length chunks <= n)%nat -> Z.of_nat n * 256 < 2 ^ 31 ->
  length junk = length (concat chunks) ->
  exists r bp' bp'', receive chunks no_recv bp = Ret (Some (r, bp')) /\
    get_recv_packet_len r = Z.of_nat (length (concat chunks)) /\
    flatten_buffer r bp' junk = Ret (concat chunks) /\
    clear_buffer r bp' = Ret (no_recv, bp'') /\ op_repr bp'' n m0.
Proof.
  intros Hr Hc Hsz Hmax Hj.
  destruct (receive_spec m0 n chunks Hmax Hc [] no_recv bp m0 []) as (r & bp' & m & l & He & Hrc);
    [|lia|].
  { split; [done|apply recv_ok_empty|done|set_solver|done|simpl; lia]. }
  destruct Hrc as [Hr' Hok Hd Hfr Hfm Hsm]. simpl in Hd. pose proof (ro_bytes _ _ _ Hok) as Hby.
  destruct (clear_buffer_spec bp' n m r l Hr' Hok) as (bp'' & m' & Hcl & Hr'' & Hm').
  exists r, bp', bp''. split_and!; [done|unfold get_recv_packet_len; congruence| |done|].
  - rewrite <- Hd. apply (flatten_buffer_spec bp' n m); [done|done|rewrite Hj, <- Hd; done|].
    pose proof (chain_length_le m _ l (ro_chain _ _ _ Hok)). pose proof (op_size bp' n m Hr'). lia.
  - replace m0 with m'; [done|]. apply map_eq. intros b. rewrite Hm'.
    destruct (decide (b ∈ l)); [by rewrite Hfr|by apply Hfm].
Qed.

End Receive.

(** A pool of eight buffers, fed "GET /" and " HTTP" in two reads. *)
Definition pool8 : MemPool ReadBuffer :=
  match MemPool_ctor (mkRB (replicate 256 0) 0 None) 8 "ReadBufferPool" with Ret p => p | _ => mkPool [] 0 0 0 EmptyString end.

Lemma recv_reassembles_witness : exists r bp' bp'',
  receive (OP := mem_pool_objects false)
    [bytes_of_string "GET /"; bytes_of_string " HTTP"] no_recv pool8 = Ret (Some (r, bp')) /\
  flatten_buffer (H := mem_pool_objects false) r bp' (replicate 10 170)
    = Ret (bytes_of_string "GET / HTTP") /\
  clear_buffer (H := mem_pool_objects false) r bp' = Ret (no_recv, bp'').
Proof.
  destruct (recv_reassembles (OP := mem_pool_objects false) eq_refl 8 ∅ pool8
    [bytes_of_string "GET /"; bytes_of_string " HTTP"] (replicate 10 170))
    as (r & bp' & bp'' & H1 & _ & H2 & H3 & _);
    [by apply (mem_pool_new false (mkRB (replicate 256 0) 0 None) 8 "ReadBufferPool")|by apply (bool_decide_unpack _)|rewrite map_size_empty; simpl; lia|done|done
    |by exists r, bp', bp''].
Defined.
