(* ===== verification/Server.v ===== *)
(** The HTTP and WebSocket server: the libuv callbacks of src/server.cc with the response
    life cycle of src/http_message.cc, the routes of src/http_context.cc and the pools of
    include/server_pool.h.

    The state of a connection is its [ClientState] slot, in which the libuv handles are
    embedded; their state follows deps/libuv/src/unix/stream.c, core.c and src/timer.c.
    Every callback is a function on the server's state that stops with [UB] at a dangling
    pointer, a double free or the reuse of a request that is in flight, and with
    [AssertFail] where libuv asserts. What the event loop, the kernel and the JavaScript
    code do is the sequence of events. *)

From S2P Require Import Prelude CString MemPool ObjectPool HttpParser HttpMessage ClientOps Ws Util.

(** ** libuv handles *)

(** The flags of a [uv_tcp_t]: [st_open] is a file descriptor that is not -1. *)
Record Stream := mkStream {
  st_open : bool; st_reading : bool; st_readable : bool; st_writable : bool;
  st_closing : bool; st_closed : bool }.

Definition UV_EOF : Z := -4095.
Definition UV_ENOBUFS : Z := -105.
Definition UV_EINVAL : Z := -22.
Definition UV_EALREADY : Z := -114.
Definition UV_ENOTCONN : Z := -107.
Definition UV_EBADF : Z := -9.
Definition UV_EPIPE : Z := -32.

(** [uv_tcp_init]: no descriptor yet. *)
Definition uv_tcp_init : Stream := mkStream false false false false false false.

(** [uv_accept] on success: [uv__stream_open] with both directions. *)
Definition uv_accept (s : Stream) : Stream :=
  mkStream true (st_reading s) true true (st_closing s) (st_closed s).

Definition uv_read_start (s : Stream) : Stream * Z :=
  if st_closing s then (s, UV_EINVAL)
  else if st_reading s then (s, UV_EALREADY)
  else if negb (st_readable s) then (s, UV_ENOTCONN)
  else (mkStream (st_open s) true (st_readable s) (st_writable s) (st_closing s) (st_closed s), 0).

Definition uv_read_stop (s : Stream) : Stream :=
  mkStream (st_open s) false (st_readable s) (st_writable s) (st_closing s) (st_closed s).

Definition uv_is_closing (s : Stream) : bool := st_closing s.

(** [uv_close] with [uv__stream_close]; closing twice fails its assertion. *)
Definition uv_close (s : Stream) : outcome Stream :=
  if st_closing s then AssertFail else Ret (mkStream false false false false true (st_closed s)).

(** [uv__check_before_write]: the result of [uv_write] on the stream. *)
Definition uv_write_rc (s : Stream) : Z :=
  if negb (st_open s) then UV_EBADF else if negb (st_writable s) then UV_EPIPE else 0.

Record Timer := mkTimer { tm_active : bool; tm_closing : bool }.

Definition uv_timer_init : Timer := mkTimer false false.
Definition uv_timer_start (t : Timer) : Timer :=
  if tm_closing t then t else mkTimer true false.
Definition uv_timer_stop (t : Timer) : Timer := mkTimer false (tm_closing t).
(** The idle timer repeats, so [uv_timer_again] stops and restarts it. *)
Definition uv_timer_again (t : Timer) : Timer := uv_timer_start (uv_timer_stop t).
Definition uv_close_timer (t : Timer) : outcome Timer :=
  if tm_closing t then AssertFail else Ret (mkTimer false true).

(** ** Connections *)

Record ConnGuard := mkGuard { alive : bool; ref_count : Z }.

#[export] Instance memset_ConnGuard : Memset ConnGuard := fun c =>
  mkGuard (negb (c =? 0)) (s32 (c * 0x01010101)).

(** The callback of the request in [write_handle]. *)
Inductive write_cb := on_write | on_static_write | on_abort_write.

(** What [pending_write_buffer] points to. *)
Inductive mbuf := Null | Allocated | Freed.

Definition TYPE_HTTP_1 : Z := 1.
Definition TYPE_WEB_SOCKET : Z := 2.

Record ClientState := mkClient {
  socket : Stream; idle_timer : Timer; write_handle : option write_cb; shutdown_req : bool;
  write_in_flight : bool; closing : bool; conn_protocol : Z; recv : Recv;
  pending_write_buffer : mbuf; activeWs : option nat; guard : option Z }.

#[export] Instance memset_ClientState : Memset ClientState := fun c =>
  let b := negb (c =? 0) in
  mkClient (mkStream b b b b b b) (mkTimer b b) None b b b c
    (mkRecv (if b then Some c else None) (if b then Some c else None) c c)
    (if b then Freed else Null) (if b then Some 0%nat else None) (if b then Some c else None).

(** [init_client_state]. *)
Definition init_client_state (cli : ClientState) : ClientState :=
  mkClient (socket cli) (idle_timer cli) (write_handle cli) (shutdown_req cli)
    false false TYPE_HTTP_1 no_recv Null (activeWs cli) (guard cli).

(** The [WebSocket] structure: whether [sock_js] has been set, and whether the JavaScript
    object has an [onMessage] and an [onClose] function. *)
Record WebSocket := mkWS { sock_js : bool; on_message : bool; on_close : bool; ws_cli : Z }.

(** [ResponseObject], with the identity of its [RequestObject]. *)
Record Response := mkRes { r_req : nat; r_cli : Z; r_guard : Z; r_text : ResponseText }.

(** A route is a JavaScript callback or a file of [serveStatic]. *)
Inductive handler := JsHandler (id : nat) | StaticFile (fp file : list Z).

(** What leaves the server: bytes for a socket, and calls of JavaScript functions. *)
Inductive effect :=
| Write (c : Z) (bytes : list Z)
| JsRequest (id : nat) (res : nat) (uri : list Z)
| JsWsOpen (ws : nat)
| JsWsMessage (ws : nat) (text : list Z)
| JsWsClose (ws : nat)
| Rejected.

Record Server (CP BP GP : Type) := mkServer {
  clients : CP; read_buffers : BP; guards : GP;
  responses : gmap nat Response; requests : gset nat; websockets : gmap nat WebSocket;
  next_id : nat;
  routes_ : gmap (list Z * list Z) handler; ws_routes_ : gset (list Z);
  effects : list effect }.
Arguments mkServer {CP BP GP}.
Arguments clients {CP BP GP}.
Arguments read_buffers {CP BP GP}.
Arguments guards {CP BP GP}.
Arguments responses {CP BP GP}.
Arguments requests {CP BP GP}.
Arguments websockets {CP BP GP}.
Arguments next_id {CP BP GP}.
Arguments routes_ {CP BP GP}.
Arguments ws_routes_ {CP BP GP}.
Arguments effects {CP BP GP}.

Section Handlers.
Context {CP BP GP : Type} `{ObjectPool CP ClientState} `{ObjectPool BP ReadBuffer}
  `{ObjectPool GP ConnGuard}.
Abbreviation server := (Server CP BP GP).
Implicit Types (w : server) (c : Z).

(** *** Field updates *)

Definition with_clients w x : server :=
  mkServer x (read_buffers w) (guards w) (responses w) (requests w) (websockets w) (next_id w)
    (routes_ w) (ws_routes_ w) (effects w).
Definition with_buffers w x : server :=
  mkServer (clients w) x (guards w) (responses w) (requests w) (websockets w) (next_id w)
    (routes_ w) (ws_routes_ w) (effects w).
Definition with_guards w x : server :=
  mkServer (clients w) (read_buffers w) x (responses w) (requests w) (websockets w) (next_id w)
    (routes_ w) (ws_routes_ w) (effects w).
Definition with_responses w x : server :=
  mkServer (clients w) (read_buffers w) (guards w) x (requests w) (websockets w) (next_id w)
    (routes_ w) (ws_routes_ w) (effects w).
Definition with_requests w x : server :=
  mkServer (clients w) (read_buffers w) (guards w) (responses w) x (websockets w) (next_id w)
    (routes_ w) (ws_routes_ w) (effects w).
Definition with_websockets w x : server :=
  mkServer (clients w) (read_buffers w) (guards w) (responses w) (requests w) x (next_id w)
    (routes_ w) (ws_routes_ w) (effects w).
Definition with_next_id w x : server :=
  mkServer (clients w) (read_buffers w) (guards w) (responses w) (requests w) (websockets w) x
    (routes_ w) (ws_routes_ w) (effects w).
Definition with_routes w x y : server :=
  mkServer (clients w) (read_buffers w) (guards w) (responses w) (requests w) (websockets w)
    (next_id w) x y (effects w).
Definition emit (e : effect) w : server :=
  mkServer (clients w) (read_buffers w) (guards w) (responses w) (requests w) (websockets w)
    (next_id w) (routes_ w) (ws_routes_ w) (effects w ++ [e]).

(** [handle->data] as a client: a pointer to a slot that was released is dangling. *)
Definition get_client w c : outcome ClientState :=
  match op_get (clients w) c with None => UB | Some cl => Ret cl end.

Definition set_client c (cl : ClientState) w : server := with_clients w (op_set (clients w) c cl).

Definition with_socket (cl : ClientState) (s : Stream) : ClientState :=
  mkClient s (idle_timer cl) (write_handle cl) (shutdown_req cl) (write_in_flight cl)
    (closing cl) (conn_protocol cl) (recv cl) (pending_write_buffer cl) (activeWs cl) (guard cl).
Definition with_timer (cl : ClientState) (t : Timer) : ClientState :=
  mkClient (socket cl) t (write_handle cl) (shutdown_req cl) (write_in_flight cl)
    (closing cl) (conn_protocol cl) (recv cl) (pending_write_buffer cl) (activeWs cl) (guard cl).
Definition with_write (cl : ClientState) (wr : option write_cb) : ClientState :=
  mkClient (socket cl) (idle_timer cl) wr (shutdown_req cl) (write_in_flight cl)
    (closing cl) (conn_protocol cl) (recv cl) (pending_write_buffer cl) (activeWs cl) (guard cl).
Definition with_shutdown (cl : ClientState) (b : bool) : ClientState :=
  mkClient (socket cl) (idle_timer cl) (write_handle cl) b (write_in_flight cl)
    (closing cl) (conn_protocol cl) (recv cl) (pending_write_buffer cl) (activeWs cl) (guard cl).
Definition with_in_flight (cl : ClientState) (b : bool) : ClientState :=
  mkClient (socket cl) (idle_timer cl) (write_handle cl) (shutdown_req cl) b
    (closing cl) (conn_protocol cl) (recv cl) (pending_write_buffer cl) (activeWs cl) (guard cl).
Definition with_closing (cl : ClientState) (b : bool) : ClientState :=
  mkClient (socket cl) (idle_timer cl) (write_handle cl) (shutdown_req cl) (write_in_flight cl)
    b (conn_protocol cl) (recv cl) (pending_write_buffer cl) (activeWs cl) (guard cl).
Definition with_recv (cl : ClientState) (r : Recv) : ClientState :=
  mkClient (socket cl) (idle_timer cl) (write_handle cl) (shutdown_req cl) (write_in_flight cl)
    (closing cl) (conn_protocol cl) r (pending_write_buffer cl) (activeWs cl) (guard cl).
Definition with_pending (cl : ClientState) (m : mbuf) : ClientState :=
  mkClient (socket cl) (idle_timer cl) (write_handle cl) (shutdown_req cl) (write_in_flight cl)
    (closing cl) (conn_protocol cl) (recv cl) m (activeWs cl) (guard cl).
Definition with_ws (cl : ClientState) (proto : Z) (x : option nat) : ClientState :=
  mkClient (socket cl) (idle_timer cl) (write_handle cl) (shutdown_req cl) (write_in_flight cl)
    (closing cl) proto (recv cl) (pending_write_buffer cl) x (guard cl).
Definition with_guard (cl : ClientState) (g : option Z) : ClientState :=
  mkClient (socket cl) (idle_timer cl) (write_handle cl) (shutdown_req cl) (write_in_flight cl)
    (closing cl) (conn_protocol cl) (recv cl) (pending_write_buffer cl) (activeWs cl) g.

(** *** Guards: include/conn_guard.h *)

Definition get_guard w (g : Z) : outcome ConnGuard :=
  match op_get (guards w) g with None => UB | Some gd => Ret gd end.

(** [ConnGuard::acquire]. *)
Definition guard_acquire (g : Z) w : outcome server :=
  gd ← get_guard w g;
  Ret (with_guards w (op_set (guards w) g (mkGuard (alive gd) (s32 (ref_count gd + 1))))).

(** [ConnGuard::release]: the last reference returns the guard to its pool. *)
Definition guard_release (g : Z) w : outcome server :=
  gd ← get_guard w g;
  let n := s32 (ref_count gd - 1) in
  let w := with_guards w (op_set (guards w) g (mkGuard (alive gd) n)) in
  if n =? 0 then gp ← op_release g (guards w); Ret (with_guards w gp) else Ret w.

(** *** Closing a connection *)

(** [if (!uv_is_closing(socket)) uv_close(socket, on_client_closed_cb)]. *)
Definition close_socket c w : outcome server :=
  cl ← get_client w c;
  if uv_is_closing (socket cl) then Ret w
  else s ← uv_close (socket cl); Ret (set_client c (with_socket cl s) w).

Definition on_idle_timer_closed_cb c w : outcome server :=
  cp ← op_release c (clients w); Ret (with_clients w cp).

Definition on_idle_timeout_cb c w : outcome server := close_socket c w.

(** [client_ops::clear_buffer(client)]. *)
Definition clear_client c w : outcome server :=
  cl ← get_client w c;
  '(r, bp) ← clear_buffer (recv cl) (read_buffers w);
  Ret (set_client c (with_recv cl r) (with_buffers w bp)).

(** The part of [on_client_closed_cb] for an upgraded connection: [onClose] and
    [JS_FreeValue] read [sock_js], then the structure is freed. *)
Definition close_ws c w : outcome server :=
  cl ← get_client w c;
  match activeWs cl with
  | None => Ret w
  | Some i =>
      match websockets w !! i with
      | None => UB
      | Some ws =>
          if negb (sock_js ws) then UB
          else
            let w := if on_close ws then emit (JsWsClose i) w else w in
            Ret (set_client c (with_ws cl (conn_protocol cl) None)
                   (with_websockets w (delete i (websockets w))))
      end
  end.

(** "Invalidate guard before reclaim". *)
Definition close_guard c w : outcome server :=
  cl ← get_client w c;
  match guard cl with
  | None => Ret w
  | Some g =>
      gd ← get_guard w g;
      let w := with_guards w (op_set (guards w) g (mkGuard false (ref_count gd))) in
      w ← guard_release g w;
      cl ← get_client w c;
      Ret (set_client c (with_guard cl None) w)
  end.

Definition on_client_closed_cb c w : outcome server :=
  cl ← get_client w c;
  let w := set_client c (with_closing cl true) w in
  w ← clear_client c w;
  w ← close_ws c w;
  w ← close_guard c w;
  cl ← get_client w c;
  t ← uv_close_timer (uv_timer_stop (idle_timer cl));
  Ret (set_client c (with_timer cl t) w).

(** *** Writes *)

(** [uv_write] on the connection's own [write_handle]; starting a request that is still
    in flight corrupts libuv's queue. *)
Definition uv_write (cb : write_cb) (bytes : list Z) c w : outcome (server * Z) :=
  cl ← get_client w c;
  let rc := uv_write_rc (socket cl) in
  if rc <? 0 then Ret (w, rc)
  else if write_handle cl is Some _ then UB
  else Ret (emit (Write c bytes) (set_client c (with_write cl (Some cb)) w), 0).

(** [free(client_state->pending_write_buffer)]. *)
Definition free_pending (cl : ClientState) : outcome ClientState :=
  match pending_write_buffer cl with
  | Freed => UB
  | Null => Ret cl
  | Allocated => Ret (with_pending cl Freed)
  end.

Definition on_write_cb c w : outcome server :=
  cl ← get_client w c;
  cl ← free_pending (with_in_flight cl false);
  Ret (set_client c (with_socket cl (uv_read_start (socket cl)).1) w).

Definition on_static_write_cb c w : outcome server :=
  cl ← get_client w c;
  let cl := with_in_flight cl false in
  Ret (set_client c (with_socket cl (uv_read_start (socket cl)).1) w).

(** *** Responses: src/http_message.cc *)

Definition get_response w (r : nat) : outcome Response :=
  match responses w !! r with None => UB | Some res => Ret res end.

(** [delete this] and [delete this->req]. *)
Definition delete_response (r : nat) w : server := with_responses w (delete r (responses w)).
Definition delete_request (q : nat) w : server := with_requests w (requests w ∖ {[q]}).

(** [guard->release(); delete this->req; delete this;], the exit of [send] for a
    connection that is gone. *)
Definition drop_response (r : nat) (res : Response) w : outcome server :=
  w ← guard_release (r_guard res) w;
  Ret (delete_response r (delete_request (r_req res) w)).

(** [header_buf] is uninitialised stack memory. *)
Definition stack_buffer (t : ResponseText) : list Z := replicate (Z.to_nat (header_size t + 256)) 0.

(** [ResponseObject::send]. The two buffers of a response that is not static are written
    from [header_buf] on the stack and [pending_write_buffer]; [sync] tells whether the
    kernel takes everything at once. A request that stays queued still points to
    [header_buf] when [send] has returned. *)
Definition send (sync : bool) (r : nat) w : outcome server :=
  res ← get_response w r;
  gd ← get_guard w (r_guard res);
  if negb (alive gd) then drop_response r res w
  else
    cl ← get_client w (r_cli res);
    if closing cl then drop_response r res w
    else
      bytes ← send_bytes (stack_buffer (r_text res)) (r_text res);
      let w := delete_request (r_req res) w in
      let cb := if is_static (r_text res) then on_static_write else on_write in
      let w := if is_static (r_text res) then w
               else set_client (r_cli res) (with_pending cl Allocated) w in
      '(w, rc) ← uv_write cb bytes (r_cli res) w;
      if (0 <=? rc) && negb sync then UB
      else w ← guard_release (r_guard res) w; Ret (delete_response r w).

Definition resp_with_404 (r : nat) w : outcome server :=
  res ← get_response w r;
  '(w, _) ← uv_write on_static_write response_404 (r_cli res) w;
  w ← guard_release (r_guard res) w;
  Ret (delete_response r w).

(** [ResponseObject::abort]; the request object is not deleted. *)
Definition abort (r : nat) w : outcome server :=
  res ← get_response w r;
  gd ← get_guard w (r_guard res);
  if negb (alive gd) then w ← guard_release (r_guard res) w; Ret (delete_response r w)
  else
    cl ← get_client w (r_cli res);
    if closing cl then w ← guard_release (r_guard res) w; Ret (delete_response r w)
    else
      '(w, rc) ← uv_write on_abort_write response_503 (r_cli res) w;
      w ← (if rc <? 0 then
             cl ← get_client w (r_cli res);
             s ← uv_close (socket cl);
             Ret (set_client (r_cli res) (with_socket cl s) w)
           else Ret w);
      w ← guard_release (r_guard res) w;
      Ret (delete_response r w).

(** [on_abort_write_cb]: [uv_shutdown] fails on a stream that is not writable or closing. *)
Definition on_abort_write_cb c w : outcome server :=
  cl ← get_client w c;
  if negb (st_writable (socket cl)) || st_closing (socket cl) || shutdown_req cl then Ret w
  else
    let s := socket cl in
    Ret (set_client c (with_shutdown (with_socket cl
      (mkStream (st_open s) (st_reading s) (st_readable s) false (st_closing s) (st_closed s))) true) w).

(** [on_abort_shutdown_cb]: [uv_close] without looking whether the socket is closing. *)
Definition on_abort_shutdown_cb c w : outcome server :=
  cl ← get_client w c;
  s ← uv_close (socket cl);
  Ret (set_client c (with_socket cl s) w).

Definition run_write_cb (cb : write_cb) c w : outcome server :=
  match cb with
  | on_write => on_write_cb c w
  | on_static_write => on_static_write_cb c w
  | on_abort_write => on_abort_write_cb c w
  end.

(** *** Routes: src/http_context.cc *)

Definition register_api_function (method uri : list Z) (h : handler) w : server :=
  with_routes w (<[(method, uri) := h]> (routes_ w)) (ws_routes_ w).

Definition register_ws_cb (uri : list Z) w : server :=
  with_routes w (routes_ w) ({[uri]} ∪ ws_routes_ w).

(** The body of a [serveStatic] route: the content type, [header_size] and [send]. *)
Definition static_text (ct file : list Z) : ResponseText :=
  mkResp (Z.of_nat (length file)) file [(bytes_of_string "Content-Type", ct)]
    (Z.of_nat (length (bytes_of_string "text/html")) +
     Z.of_nat (length (bytes_of_string "Content-Type"))) true.

Definition run_static (sync : bool) (fp file : list Z) (r : nat) w : outcome server :=
  res ← get_response w r;
  ct ← get_content_type (get_file_extension (Some fp));
  let res := mkRes (r_req res) (r_cli res) (r_guard res) (static_text ct file) in
  send sync r (with_responses w (<[r := res]> (responses w))).

Definition invoke_function (sync : bool) (r : nat) (verb uri : list Z) w : outcome server :=
  match routes_ w !! (verb, uri) with
  | Some (JsHandler id) => Ret (emit (JsRequest id r uri) w)
  | Some (StaticFile fp file) => run_static sync fp file r w
  | None => resp_with_404 r w
  end.

(** [invoke_ws_function] on a fresh [WebSocket]: only a registered route sets [sock_js]. *)
Definition invoke_ws_function (i : nat) (uri : list Z) w : outcome server :=
  match websockets w !! i with
  | None => UB
  | Some ws =>
      if bool_decide (uri ∈ ws_routes_ w) then
        Ret (emit (JsWsOpen i) (with_websockets w
          (<[i := mkWS true (on_message ws) (on_close ws) (ws_cli ws)]> (websockets w))))
      else Ret w
  end.

(** [complete_protocol_upgrade_handshake]: the response is a local [std::string]. *)
Definition complete_handshake (sync : bool) (accept : list Z) (i : nat) c w : outcome server :=
  cl ← get_client w c;
  if closing cl then Ret w
  else
    let ok := 0 <=? uv_write_rc (socket cl) in
    if ok && negb sync then UB
    else
      let w := if ok then emit (Write c (handshake_response accept)) w else w in
      Ret (set_client c (with_ws cl TYPE_WEB_SOCKET (Some i)) w).

(** *** Requests *)

(** The headers as [parseWSUpgrade] sees them: a continuation line has an empty name. *)
Definition upgrade_headers (q : request) : list (list Z * list Z) :=
  (fun h => (default [] (name h), value h)) <$> headers q.

(** [req->verb] and [req->uri]: 15 and 511 characters at most, read back as C strings. *)
Definition req_verb (q : request) : list Z := cstr (take 15 (method q)).
Definition req_uri (q : request) : list Z := cstr (take 511 (path q)).

(** A complete request on a connection that can take it. *)
Definition dispatch_request (sync : bool) (q : request) c w : outcome server :=
  cl ← get_client w c;
  let w := set_client c (with_in_flight cl true) w in
  let qid := next_id w in
  let rid := S (next_id w) in
  let w := with_next_id (with_requests w ({[qid]} ∪ requests w)) (S (S rid)) in
  w ← clear_client c w;
  let info := parseWSUpgrade (upgrade_headers q) in
  if isUpgrade info then
    let wsid := S rid in
    let w := with_websockets w (<[wsid := mkWS false false false c]> (websockets w)) in
    w ← invoke_ws_function wsid (req_uri q) w;
    complete_handshake sync (compute_ws_accept_key (key info)) wsid c w
  else
    cl ← get_client w c;
    match guard cl with
    | None => UB
    | Some g =>
        let w := with_responses w (<[rid := mkRes qid c g (mkResp 0 [] [] 0 false)]> (responses w)) in
        w ← guard_acquire g w;
        invoke_function sync rid (req_verb q) (req_uri q) w
    end.

(** The part of [process_http_1_request] and [process_web_socket_request] both have:
    link the buffer in and copy everything received into a vector. *)
Definition receive_data (b : Z) c w : outcome (server * list Z) :=
  cl ← get_client w c;
  '(r, bp) ← recv_new_buffer (recv cl) (Some b) (read_buffers w);
  let w := set_client c (with_recv cl r) (with_buffers w bp) in
  data ← flatten_buffer r bp (replicate (Z.to_nat (recv_len r)) 0);
  Ret (w, data).

Definition process_http_1_request (sync : bool) (b : Z) c w : outcome server :=
  '(w, data) ← receive_data b c w;
  '(pret, q) ← phr_parse_request false data 100 0;
  if pret =? -2 then Ret w
  else if pret <? 0 then close_socket c w
  else
    cl ← get_client w c;
    if write_in_flight cl || closing cl then
      w ← clear_client c w;
      cl ← get_client w c;
      Ret (set_client c (with_socket cl (uv_read_stop (socket cl))) w)
    else match q with None => UB | Some q => dispatch_request sync q c w end.

Definition process_web_socket_request (b : Z) c w : outcome server :=
  cl ← get_client w c;
  '(w, data) ← receive_data b c w;
  match activeWs cl with
  | None => UB
  | Some i =>
      match websockets w !! i with
      | None => UB
      | Some ws =>
          '(rc, text) ← onMessage (sock_js ws && on_message ws) data (Z.of_nat (length data));
          if rc =? 0 then Ret w
          else if negb (sock_js ws) then UB
          else clear_client c (match text with None => w | Some t => emit (JsWsMessage i t) w end)
      end
  end.

(** *** Reading *)

Definition on_alloc_buffer_cb c w : outcome (option Z * server) :=
  _ ← get_client w c;
  '(b, bp) ← op_acquire (read_buffers w);
  Ret (b, with_buffers w bp).

Definition release_read_buffer (b : option Z) w : outcome server :=
  match b with
  | None => AssertFail
  | Some b => bp ← op_release b (read_buffers w); Ret (with_buffers w bp)
  end.

Definition on_read_cb (sync : bool) (nread : Z) (b : option Z) c w : outcome server :=
  cl ← get_client w c;
  if 0 <? nread then
    let w := set_client c (with_timer cl (uv_timer_again (idle_timer cl))) w in
    match b with
    | None => UB
    | Some b =>
        if conn_protocol cl =? TYPE_HTTP_1 then process_http_1_request sync b c w
        else if conn_protocol cl =? TYPE_WEB_SOCKET then process_web_socket_request b c w
        else AssertFail
    end
  else if nread =? UV_EOF then w ← release_read_buffer b w; close_socket c w
  else if nread =? UV_ENOBUFS then close_socket c w
  else w ← release_read_buffer b w; close_socket c w.

(** What [read] gives [uv__read]: data, EAGAIN, end of file or another error. *)
Inductive kread := KData (data : list Z) | KAgain | KEof | KErr (err : Z).

(** Clears the flags [uv__read] clears before (end of file) or around (error) the callback. *)
Definition stream_ended (eof : bool) (s : Stream) : Stream :=
  if eof then uv_read_stop s
  else mkStream (st_open s) (st_reading s) false false (st_closing s) (st_closed s).

(** One turn of the loop of [uv__read]: the state afterwards and whether the loop goes
    on, which it does after a read that filled the 256 bytes. *)
Definition read_once (sync : bool) (k : kread) c w : outcome (server * bool) :=
  '(b, w) ← on_alloc_buffer_cb c w;
  match b with
  | None => w ← on_read_cb sync UV_ENOBUFS None c w; Ret (w, false)
  | Some p =>
      match k with
      | KData data =>
          bp ← fill_buffer p data (read_buffers w);
          w ← on_read_cb sync (Z.of_nat (length data)) b c (with_buffers w bp);
          Ret (w, (256 <=? length data)%nat)
      | KAgain => w ← on_read_cb sync 0 b c w; Ret (w, false)
      | KEof =>
          cl ← get_client w c;
          let w := set_client c (with_socket cl (stream_ended true (socket cl))) w in
          w ← on_read_cb sync UV_EOF b c w; Ret (w, false)
      | KErr e =>
          cl ← get_client w c;
          let w := set_client c (with_socket cl (stream_ended false (socket cl))) w in
          w ← on_read_cb sync e b c w; Ret (w, false)
      end
  end.

(** [uv__read]: at most 32 turns, while the stream is being read. *)
Fixpoint uv__read (count : nat) (sync : bool) (ks : list kread) c w : outcome server :=
  match count, ks with
  | S count', k :: ks' =>
      cl ← get_client w c;
      if st_reading (socket cl) then
        '(w, more) ← read_once sync k c w;
        if (more : bool) then uv__read count' sync ks' c w else Ret w
      else Ret w
  | _, _ => Ret w
  end.

(** *** Connecting *)

(** [on_peer_connected]; [accepted] and [named] are the results of [uv_accept] and
    [uv_tcp_getpeername]. A rejected peer is accepted into a temporary socket and closed. *)
Definition on_peer_connected (status : Z) (accepted named : bool) w : outcome server :=
  if status <? 0 then Ret w
  else
    '(client, cp) ← op_acquire (clients w);
    let w := with_clients w cp in
    match client with
    | None => Ret (emit Rejected w)
    | Some c =>
        cl ← get_client w c;
        let cl := init_client_state cl in
        let w := set_client c cl w in
        '(guard, gp) ← op_acquire (guards w);
        let w := with_guards w gp in
        match guard with
        | None => cp ← op_release c (clients w); Ret (emit Rejected (with_clients w cp))
        | Some g =>
            let w := with_guards w (op_set (guards w) g (mkGuard true 0)) in
            w ← guard_acquire g w;
            let cl := with_guard cl (Some g) in
            let cl := with_socket cl uv_tcp_init in
            let cl := with_timer cl (uv_timer_start uv_timer_init) in
            let cl := if accepted then with_socket cl (uv_accept (socket cl)) else cl in
            let cl := if accepted && named then with_socket cl (uv_read_start (socket cl)).1 else cl in
            Ret (set_client c cl w)
        end
    end.

(** *** The event loop *)

(** [uv__finish_close] on a connection's socket: [uv__stream_destroy] completes the write
    and the shutdown in flight with UV_ECANCELED, then the close callback runs. *)
Definition finish_close c w : outcome server :=
  cl ← get_client w c;
  let s := socket cl in
  let w := set_client c (with_socket (with_write cl None)
    (mkStream (st_open s) (st_reading s) (st_readable s) (st_writable s) (st_closing s) true)) w in
  w ← match write_handle cl with None => Ret w | Some cb => run_write_cb cb c w end;
  cl ← get_client w c;
  w ← (if shutdown_req cl then on_abort_shutdown_cb c (set_client c (with_shutdown cl false) w)
       else Ret w);
  on_client_closed_cb c w.

(** [response_end] and [response_set_header] of src/builtins/response.cc on a response
    object that JavaScript holds, and [send] of src/builtins/ws_js.cc. *)
Definition js_end (malloc_ok sync : bool) (body : list Z) (r : nat) w : outcome server :=
  res ← get_response w r;
  if negb malloc_ok then abort r w
  else
    let res := mkRes (r_req res) (r_cli res) (r_guard res) (set_body body (r_text res)) in
    send sync r (with_responses w (<[r := res]> (responses w))).

Definition js_set_header (pos : nat) (k v : list Z) (r : nat) w : outcome server :=
  res ← get_response w r;
  let res := mkRes (r_req res) (r_cli res) (r_guard res) (set_header pos k v (r_text res)) in
  Ret (with_responses w (<[r := res]> (responses w))).

Definition js_ws_send (sync : bool) (text : list Z) (i : nat) w : outcome server :=
  match websockets w !! i with
  | None => UB
  | Some ws =>
      cl ← get_client w (ws_cli ws);
      if uv_write_rc (socket cl) <? 0 then Ret w
      else if negb sync then UB else Ret (emit (Write (ws_cli ws) (send_frame text)) w)
  end.

Definition js_ws_handlers (m cl : bool) (i : nat) w : outcome server :=
  match websockets w !! i with
  | None => UB
  | Some ws => Ret (with_websockets w (<[i := mkWS (sock_js ws) m cl (ws_cli ws)]> (websockets w)))
  end.

Inductive event :=
| EvConnect (status : Z) (accepted named : bool)
| EvRead (sync : bool) (k : kread) (c : Z)
| EvWritten (c : Z)
| EvShutdown (c : Z)
| EvIdle (c : Z)
| EvSocketClosed (c : Z)
| EvTimerClosed (c : Z)
| JsEnd (malloc_ok sync : bool) (body : list Z) (r : nat)
| JsSetHeader (pos : nat) (k v : list Z) (r : nat)
| JsWsSend (sync : bool) (text : list Z) (i : nat)
| JsWsHandlers (m cl : bool) (i : nat)
| JsRoute (uri : list Z) (h : handler)
| JsWsRoute (uri : list Z).

(** The request of [write_handle] completes: libuv forgets it and runs its callback. *)
Definition write_done c w : outcome server :=
  cl ← get_client w c;
  match write_handle cl with
  | None => Ret w
  | Some cb => run_write_cb cb c (set_client c (with_write cl None) w)
  end.

Definition shutdown_done c w : outcome server :=
  cl ← get_client w c;
  if shutdown_req cl then on_abort_shutdown_cb c (set_client c (with_shutdown cl false) w)
  else Ret w.

Definition handle (e : event) w : outcome server :=
  match e with
  | EvConnect st acc nm => on_peer_connected st acc nm w
  | EvRead sync k c => '(w, _) ← read_once sync k c w; Ret w
  | EvWritten c => write_done c w
  | EvShutdown c => shutdown_done c w
  | EvIdle c => on_idle_timeout_cb c w
  | EvSocketClosed c => finish_close c w
  | EvTimerClosed c => on_idle_timer_closed_cb c w
  | JsEnd ok sync body r => js_end ok sync body r w
  | JsSetHeader pos k v r => js_set_header pos k v r w
  | JsWsSend sync text i => js_ws_send sync text i w
  | JsWsHandlers m cl i => js_ws_handlers m cl i w
  | JsRoute uri h => Ret (register_api_function (bytes_of_string "GET") uri h w)
  | JsWsRoute uri => Ret (register_ws_cb uri w)
  end.

(** A server that has not been asked anything. *)
Definition start (cp : CP) (bp : BP) (gp : GP) : server := mkServer cp bp gp ∅ ∅ ∅ 0 ∅ ∅ [].

(** The events of the loop, in order. *)
Fixpoint run (es : list event) w : outcome server :=
  match es with
  | [] => Ret w
  | e :: es' => w ← handle e w; run es' w
  end.

End Handlers.

(** ** The pools of include/server_pool.h *)

Definition DEFAULT_MAX_CONNECTIONS : nat := 512.
Definition DEFAULT_READ_BUFFER_HEADROOM : nat := 8.

Abbreviation pooled_server := (Server (MemPool ClientState) (MemPool ReadBuffer) (MemPool ConnGuard)).

Definition ServerPool_ctor (max_connections : nat) : outcome pooled_server :=
  clients ← MemPool_ctor (memset 0) max_connections "ClientPool";
  read_buffers ← MemPool_ctor (memset 0) (max_connections * DEFAULT_READ_BUFFER_HEADROOM) "ReadBufferPool";
  guards ← MemPool_ctor (memset 0) max_connections "ConnGuardPool";
  Ret (start clients read_buffers guards).

(** [ServerPool::verify_no_leaks], what [~Server] calls. *)
Definition pool_verify_no_leaks (w : pooled_server) :
    option (Z * Z) * option (Z * Z) * option (Z * Z) :=
  (verify_no_leaks (clients w), verify_no_leaks (read_buffers w), verify_no_leaks (guards w)).
