(* ===== verification/ServerInv.v ===== *)
(** The invariant of the server and what keeps it.

    Everything the callbacks share, guards, responses, WebSockets and read buffers, has one
    owner: a connection, or a response whose connection is gone. An event changes what one
    or two owners have; [inv_update] says when the rest of the server does not notice. *)

From S2P Require Import Prelude CString MemPool ObjectPool HttpParser HttpMessage ClientOps Ws Util Server.

(** ** Ownership *)

Inductive resource := RGuard (g : Z) | RResp (r : nat) | RWs (i : nat) | RBuf (b : Z).

#[export] Instance resource_eq_dec : EqDecision resource.
Proof. solve_decision. Defined.

(** What a connection, or an orphaned response, owns. *)
Record conn := mkConn {
  k_guard : option Z; k_resp : option nat; k_ws : option nat; k_bufs : list Z }.

Definition owns (k : conn) (x : resource) : Prop :=
  match x with
  | RGuard g => k_guard k = Some g
  | RResp r => k_resp k = Some r
  | RWs i => k_ws k = Some i
  | RBuf b => b ∈ k_bufs k
  end.

(** [inl c] is the connection in slot [c], [inr r] the orphaned response [r]. *)
Abbreviation owner := (Z + nat)%type.

Inductive res_val :=
| VGuard (g : ConnGuard) | VResp (r : Response) | VWs (w : WebSocket) | VBuf (b : ReadBuffer).

Definition holds (K : gmap owner conn) (o : owner) (x : resource) : Prop :=
  exists k, K !! o = Some k /\ owns k x.

#[export] Instance owns_dec k x : Decision (owns k x).
Proof. destruct x; simpl; apply _. Defined.

#[export] Instance holds_dec K o x : Decision (holds K o x).
Proof.
  destruct (K !! o) as [k|] eqn:E.
  - destruct (decide (owns k x)) as [Ho|Hn]; [left; by exists k|right].
    intros (k' & Hk & ?). congruence.
  - right. intros (k & Hk & _). congruence.
Defined.

Section Invariant.
Context {CP BP GP : Type} `{OC : ObjectPool CP ClientState} `{OB : ObjectPool BP ReadBuffer}
  `{OG : ObjectPool GP ConnGuard}.
Context (NC NB : nat).
Abbreviation server := (Server CP BP GP).
Implicit Types (w : server) (c : Z) (CL : gmap Z ClientState) (BL : gmap Z ReadBuffer)
  (GL : gmap Z ConnGuard) (RS : gmap nat Response) (WS : gmap nat WebSocket)
  (K : gmap owner conn) (k : conn) (o : owner).

(** The maps behind the three pools; guards and clients have equally many slots. *)
Record view w CL BL GL : Prop := {
  v_clients : op_repr (clients w) NC CL;
  v_buffers : op_repr (read_buffers w) NB BL;
  v_guards : op_repr (guards w) NC GL }.

Definition at_ RS WS BL GL (x : resource) : option res_val :=
  match x with
  | RGuard g => VGuard <$> GL !! g
  | RResp r => VResp <$> RS !! r
  | RWs i => VWs <$> WS !! i
  | RBuf b => VBuf <$> BL !! b
  end.

Definition resp_refs k : Z := if k_resp k is Some _ then 1 else 0.

(** A response JavaScript may still end. *)
Definition res_ok (res : Response) : Prop := resp_ok (r_text res) /\ is_static (r_text res) = false.

Definition stream_ok (s : Stream) : Prop :=
  (st_closing s = true -> st_open s = false /\ st_reading s = false /\ st_writable s = false) /\
  (st_closed s = true -> st_closing s = true).

(** A connection whose socket has not finished closing. *)
Record conn_open RS WS BL GL c (cl : ClientState) k : Prop := {
  co_closing : closing cl = false;
  co_timer : tm_closing (idle_timer cl) = false;
  co_guard : exists g, k_guard k = Some g /\ GL !! g = Some (mkGuard true (1 + resp_refs k));
  co_proto : (conn_protocol cl = TYPE_HTTP_1 /\ k_ws k = None) \/
             (conn_protocol cl = TYPE_WEB_SOCKET /\ k_resp k = None /\
              exists i ws, k_ws k = Some i /\ WS !! i = Some ws /\ sock_js ws = true /\ ws_cli ws = c);
  co_write : match write_handle cl with
             | None => True
             | Some on_abort_write => False
             | Some on_write => k_resp k = None /\ write_in_flight cl = true /\
                                pending_write_buffer cl = Allocated
             | Some on_static_write => k_resp k = None /\ write_in_flight cl = true
             end;
  co_resp : forall r, k_resp k = Some r -> write_in_flight cl = true /\
              exists res, RS !! r = Some res /\ r_cli res = c /\
                k_guard k = Some (r_guard res) /\ res_ok res }.

(** After [on_client_closed_cb]: only the timer is left. *)
Record conn_closed (cl : ClientState) k : Prop := {
  cc_closing : closing cl = true;
  cc_sock : st_closing (socket cl) = true;
  cc_timer : tm_closing (idle_timer cl) = true;
  cc_write : write_handle cl = None;
  cc_none : k = mkConn None None None [] }.

Record conn_ok RS WS BL GL c (cl : ClientState) k : Prop := {
  ck_guard : guard cl = k_guard k;
  ck_ws : activeWs cl = k_ws k;
  ck_recv : recv_ok BL (recv cl) (k_bufs k);
  ck_bytes : bytes_ok (content BL (k_bufs k));
  ck_stream : stream_ok (socket cl);
  ck_shutdown : shutdown_req cl = false;
  ck_phase : if st_closed (socket cl) then conn_closed cl k else conn_open RS WS BL GL c cl k }.

Definition orphan_ok RS GL (r : nat) k : Prop :=
  exists g res, k = mkConn (Some g) (Some r) None [] /\ GL !! g = Some (mkGuard false 1) /\
    RS !! r = Some res /\ r_guard res = g /\ res_ok res.

Definition owner_ok RS WS CL BL GL o k : Prop :=
  match o with
  | inl c => exists cl, CL !! c = Some cl /\ conn_ok RS WS BL GL c cl k
  | inr r => orphan_ok RS GL r k
  end.

(** Identifiers handed out later are fresh. *)
Definition ids_ok w : Prop :=
  (forall r, (next_id w <= r)%nat -> responses w !! r = None) /\
  (forall i, (next_id w <= i)%nat -> websockets w !! i = None).

(** [serveStatic] was given a file whose name has an extension. *)
Definition route_ok (h : handler) : Prop :=
  match h with
  | JsHandler _ => True
  | StaticFile fp file =>
      is_Some (get_file_extension (Some fp)) /\ Z.of_nat (length file) < 2 ^ 31
  end.

Record inv w CL BL GL K : Prop := {
  i_view : view w CL BL GL;
  i_owner : forall o k, K !! o = Some k ->
    owner_ok (responses w) (websockets w) CL BL GL o k;
  i_conns : forall c, is_Some (CL !! c) -> is_Some (K !! inl c);
  i_complete : forall x, is_Some (at_ (responses w) (websockets w) BL GL x) ->
    exists o, holds K o x;
  i_unique : forall o1 o2 x, holds K o1 x -> holds K o2 x -> o1 = o2;
  i_ids : ids_ok w;
  i_routes : map_Forall (fun _ h => route_ok h) (routes_ w) }.

(** ** The frame *)

Lemma conn_ok_frame RS WS BL GL RS' WS' BL' GL' c cl k : conn_ok RS WS BL GL c cl k ->
  (forall x, owns k x -> at_ RS' WS' BL' GL' x = at_ RS WS BL GL x) -> conn_ok RS' WS' BL' GL' c cl k.
Proof.
  intros [H1 H2 H3 H4 H5 H6 H7] Hf.
  assert (forall b, b ∈ k_bufs k -> BL !! b = BL' !! b) as Hb.
  { intros b Hb. specialize (Hf (RBuf b) Hb). simpl in Hf.
    destruct (BL !! b), (BL' !! b); simpl in *; congruence. }
  assert (content BL (k_bufs k) = content BL' (k_bufs k)) as Hc
    by (apply content_ext; intros b Hb'; by rewrite Hb).
  split; [done|done| |by rewrite <- Hc|done|done|].
  - destruct H3 as [Hch ? ? ? ?]. split; [by eapply chain_ext|done|done|done|by rewrite <- Hc].
  - destruct (st_closed (socket cl)); [done|]. destruct H7 as [O1 O2 O3 O4 O5 O6].
    split; [done|done| | |done|].
    + destruct O3 as (g & Hg & HGL). exists g. split; [done|]. specialize (Hf (RGuard g) Hg).
      simpl in Hf. rewrite HGL in Hf. destruct (GL' !! g); simpl in *; congruence.
    + destruct O4 as [?|(? & ? & i & ws & Hi & Hws & ?)]; [by left|right]. split_and!; [done|done|].
      exists i, ws. split; [done|]. split; [|done]. specialize (Hf (RWs i) Hi).
      simpl in Hf. rewrite Hws in Hf. destruct (WS' !! i); simpl in *; congruence.
    + intros r Hr. destruct (O6 r Hr) as (? & res & Hres & ?). split; [done|]. exists res.
      split; [|done]. specialize (Hf (RResp r) Hr). simpl in Hf. rewrite Hres in Hf.
      destruct (RS' !! r); simpl in *; congruence.
Qed.

Lemma orphan_ok_frame RS WS GL BL RS' WS' GL' BL' r k : orphan_ok RS GL r k ->
  (forall x, owns k x -> at_ RS' WS' BL' GL' x = at_ RS WS BL GL x) -> orphan_ok RS' GL' r k.
Proof.
  intros (g & res & -> & Hg & Hr & ? & ?) Hf. exists g, res.
  pose proof (Hf (RGuard g) eq_refl) as H1. pose proof (Hf (RResp r) eq_refl) as H2.
  simpl in *. rewrite Hg in H1. rewrite Hr in H2.
  destruct (GL' !! g), (RS' !! r); simpl in *; try done.
  split_and!; try done; congruence.
Qed.

Lemma owned_live RS WS CL BL GL o k x : owner_ok RS WS CL BL GL o k -> owns k x ->
  is_Some (at_ RS WS BL GL x).
Proof.
  destruct o as [c|r]; simpl.
  - intros (cl & _ & [_ _ Hr _ _ _ Hp]) Hx. destruct x as [g|r|i|b]; simpl in *.
    + destruct (st_closed (socket cl)); [destruct Hp as [_ _ _ _ ->]; done|].
      destruct (co_guard _ _ _ _ _ _ _ Hp) as (g' & Hg & HGL). rewrite Hg in Hx. injection Hx as ->.
      rewrite HGL. by eexists.
    + destruct (st_closed (socket cl)); [destruct Hp as [_ _ _ _ ->]; done|].
      destruct (co_resp _ _ _ _ _ _ _ Hp r Hx) as (_ & res & -> & _). by eexists.
    + destruct (st_closed (socket cl)); [destruct Hp as [_ _ _ _ ->]; done|].
      destruct (co_proto _ _ _ _ _ _ _ Hp) as [[_ ?]|(_ & _ & i' & ws & Hi & Hw & _)]; [congruence|].
      rewrite Hi in Hx. injection Hx as ->. rewrite Hw. by eexists.
    + destruct Hr as [Hc _ _ _ _]. apply (chain_live _ _ _ _ Hc) in Hx as [rb ->]. by eexists.
  - intros (g & res & -> & Hg & Hr & _) Hx.
    destruct x as [g'|r'|i|b]; simpl in *; [injection Hx as <-|injection Hx as <-|done|set_solver].
    + rewrite Hg. by eexists.
    + rewrite Hr. by eexists.
Qed.

Lemma holds_some_dec K (S : list owner) x :
  (exists o, o ∈ S /\ holds K o x) \/ (forall o, o ∈ S -> ~ holds K o x).
Proof.
  destruct (decide (Exists (fun o => holds K o x) S)) as [He|Hn].
  - left. by apply list.Exists_exists in He.
  - right. intros o Ho Hx. apply Hn, list.Exists_exists. eauto.
Qed.

(** An event that touches only what the owners in [S] have, and what is fresh. *)
Lemma inv_update w CL BL GL K w' CL' BL' GL' K' (S : list owner) :
  inv w CL BL GL K -> view w' CL' BL' GL' -> ids_ok w' ->
  map_Forall (fun _ h => route_ok h) (routes_ w') ->
  (forall o, o ∉ S -> K' !! o = K !! o) ->
  (forall c, inl c ∉ S -> CL' !! c = CL !! c) ->
  (forall o k, o ∈ S -> K' !! o = Some k -> owner_ok (responses w') (websockets w') CL' BL' GL' o k) ->
  (forall c, inl c ∈ S -> is_Some (CL' !! c) -> is_Some (K' !! inl c)) ->
  (forall o x, o ∈ S -> holds K' o x ->
     (exists o', o' ∈ S /\ holds K o' x) \/ at_ (responses w) (websockets w) BL GL x = None) ->
  (forall x, (forall o, o ∈ S -> ~ holds K' o x) -> (forall o, o ∈ S -> ~ holds K o x) ->
     at_ (responses w') (websockets w') BL' GL' x = at_ (responses w) (websockets w) BL GL x) ->
  (forall x, (exists o, o ∈ S /\ holds K o x) -> (forall o, o ∈ S -> ~ holds K' o x) ->
     at_ (responses w') (websockets w') BL' GL' x = None) ->
  (forall o1 o2 x, o1 ∈ S -> o2 ∈ S -> holds K' o1 x -> holds K' o2 x -> o1 = o2) ->
  inv w' CL' BL' GL' K'.
Proof.
  intros [Hv Ho Hcs Hcm Hu Hi Hrt] Hv' Hi' Hrt' HK HCL HS Hconn Hnew Hsame Hgone Huniq.
  assert (forall o x, o ∉ S -> holds K' o x <-> holds K o x) as Hout.
  { intros o x Hn. unfold holds. by rewrite HK. }
  (* what an owner outside S has is not touched *)
  assert (forall o x, o ∉ S -> holds K o x -> at_ (responses w') (websockets w') BL' GL' x = at_ (responses w) (websockets w) BL GL x) as Hkeep.
  { intros o x Hn Hx.
    assert (forall o', o' ∈ S -> ~ holds K o' x) as Hn1.
    { intros o' Ho' Hx'. apply Hn. by rewrite (Hu o o' x). }
    apply Hsame; [|done]. intros o' Ho' Hx'.
    destruct (Hnew o' x Ho' Hx') as [(o2 & Ho2 & Hx2)|Hnone]; [by apply (Hn1 o2)|].
    destruct Hx as (k & Hk & Hx). specialize (Ho o k Hk).
    assert (is_Some (at_ (responses w) (websockets w) BL GL x)) as [? Hs]; [|congruence].
    by apply (owned_live (responses w) (websockets w) CL BL GL o k). }
  assert (forall o1 o2 x, o1 ∈ S -> o2 ∉ S -> holds K' o1 x -> holds K' o2 x -> False) as Hmix.
  { intros o1 o2 x I1 N2 H1 H2. apply Hout in H2 as H2'; [|done].
    destruct (Hnew o1 x I1 H1) as [(o & Io & Hx)|Hnone].
    - by rewrite (Hu o o2 x Hx H2') in Io.
    - destruct H2' as (k & Hk & Hx). destruct (owned_live (responses w) (websockets w) CL BL GL o2 k x (Ho o2 k Hk) Hx). congruence. }
  split; [done| | | | |done|done].
  - intros o k Hk. destruct (decide (o ∈ S)) as [Hin|Hn]; [by apply HS|].
    rewrite HK in Hk by done. specialize (Ho o k Hk).
    assert (forall x, owns k x -> at_ (responses w') (websockets w') BL' GL' x = at_ (responses w) (websockets w) BL GL x) as Hf.
    { intros x Hx. apply (Hkeep o); [done|]. by exists k. }
    destruct o as [c|r]; simpl in *.
    + destruct Ho as (cl & Hcl & Hok). exists cl. rewrite HCL by done. split; [done|].
      by eapply conn_ok_frame.
    + by eapply orphan_ok_frame.
  - intros c Hc. destruct (decide (inl c ∈ S)) as [Hin|Hn]; [by apply Hconn|].
    rewrite HK by done. apply Hcs. by rewrite <- HCL.
  - intros x Hx. destruct (holds_some_dec K' S x) as [(o & _ & ?)|Hn']; [by exists o|].
    destruct (holds_some_dec K S x) as [He|Hne].
    + rewrite Hgone in Hx by done. by destruct Hx.
    + rewrite Hsame in Hx by done. destruct (Hcm x Hx) as [o Ho1]. exists o.
      apply Hout; [|done]. intros Hin. by apply (Hne o).
  - intros o1 o2 x H1 H2.
    destruct (decide (o1 ∈ S)) as [I1|N1], (decide (o2 ∈ S)) as [I2|N2].
    + by apply (Huniq o1 o2 x).
    + exfalso. by apply (Hmix o1 o2 x).
    + exfalso. by apply (Hmix o2 o1 x).
    + apply Hout in H1, H2; [|done..]. by apply (Hu o1 o2 x).
Qed.

(** ** Views *)

(** Two states that differ at most in the pools, the requests and the effects. *)
Record same_env w w' : Prop := {
  se_responses : responses w' = responses w;
  se_websockets : websockets w' = websockets w;
  se_next : next_id w' = next_id w;
  se_routes : routes_ w' = routes_ w;
  se_ws_routes : ws_routes_ w' = ws_routes_ w }.

#[export] Instance same_env_refl : Reflexive same_env.
Proof. by split. Qed.

#[export] Instance same_env_trans : Transitive same_env.
Proof. intros w1 w2 w3 [] []. split; congruence. Qed.

Lemma same_env_ids w w' : same_env w w' -> ids_ok w -> ids_ok w'.
Proof. intros [Hr Hw Hn _ _] [H1 H2]. unfold ids_ok. rewrite Hr, Hw, Hn. done. Qed.

Lemma get_client_view w CL BL GL c cl : view w CL BL GL -> CL !! c = Some cl ->
  get_client w c = Ret cl.
Proof. intros [Hc _ _] He. unfold get_client. by rewrite (op_get_repr _ _ _ _ Hc), He. Qed.

Lemma set_client_view w CL BL GL c cl : view w CL BL GL -> is_Some (CL !! c) ->
  view (set_client c cl w) (<[c := cl]> CL) BL GL.
Proof. intros [Hc Hb Hg] Hs. split; [by apply op_set_repr|done|done]. Qed.

Lemma set_again_view w CL BL GL c x cl : view w (<[c := x]> CL) BL GL ->
  view (set_client c cl w) (<[c := cl]> CL) BL GL.
Proof.
  intros Hv. rewrite <- (insert_insert_eq CL c cl x).
  apply set_client_view; [done|]. rewrite lookup_insert_eq. by eexists.
Qed.

Lemma get_guard_view w CL BL GL g gd : view w CL BL GL -> GL !! g = Some gd ->
  get_guard w g = Ret gd.
Proof. intros [_ _ Hg] He. unfold get_guard. by rewrite (op_get_repr _ _ _ _ Hg), He. Qed.

Lemma set_guard_view w CL BL GL g gd : view w CL BL GL -> is_Some (GL !! g) ->
  view (with_guards w (op_set (guards w) g gd)) CL BL (<[g := gd]> GL).
Proof. intros [Hc Hb Hg] Hs. split; [done|done|by apply op_set_repr]. Qed.

Lemma guard_acquire_view w CL BL GL g a n : view w CL BL GL -> GL !! g = Some (mkGuard a n) ->
  0 <= n < 2 ^ 30 ->
  exists w', guard_acquire g w = Ret w' /\ view w' CL BL (<[g := mkGuard a (n + 1)]> GL) /\
    same_env w w'.
Proof.
  intros Hv Hg Hn. unfold guard_acquire. rewrite (get_guard_view w CL BL GL g _ Hv Hg). simpl.
  rewrite s32_small by lia. eexists. split_and!; [done|by apply set_guard_view|by split].
Qed.

(** Dropping a reference: the last one frees the guard. *)
Lemma guard_release_view w CL BL GL g a n : view w CL BL GL -> GL !! g = Some (mkGuard a n) ->
  1 <= n < 2 ^ 30 ->
  exists w', guard_release g w = Ret w' /\
    view w' CL BL (if n =? 1 then delete g GL else <[g := mkGuard a (n - 1)]> GL) /\
    same_env w w'.
Proof.
  intros Hv Hg Hn. unfold guard_release. rewrite (get_guard_view w CL BL GL g _ Hv Hg).
  cbn [mbind outcome_bind alive ref_count]. rewrite s32_small by lia.
  pose proof (set_guard_view w CL BL GL g (mkGuard a (n - 1)) Hv ltac:(by eexists)) as Hv1.
  destruct (n =? 1) eqn:E; reflect_bools.
  - rewrite (proj2 (Z.eqb_eq (n - 1) 0)) by lia.
    destruct (op_release_repr _ _ _ g (v_guards _ _ _ _ Hv1)) as (gp & -> & Hr);
      [rewrite lookup_insert_eq; by eexists|]. cbn [mbind outcome_bind].
    rewrite delete_insert_eq in Hr. eexists. split; [done|]. split; [|by split].
    split; [apply Hv1|apply Hv1|done].
  - rewrite (proj2 (Z.eqb_neq (n - 1) 0)) by lia. eexists. by split_and!.
Qed.

Lemma clear_client_view w CL BL GL c cl l : view w CL BL GL -> CL !! c = Some cl ->
  recv_ok BL (recv cl) l ->
  exists w' BL', clear_client c w = Ret w' /\
    view w' (<[c := with_recv cl no_recv]> CL) BL' GL /\ same_env w w' /\
    (forall b, BL' !! b = if decide (b ∈ l) then None else BL !! b).
Proof.
  intros Hv Hc Hr. unfold clear_client. rewrite (get_client_view w CL BL GL c cl Hv Hc). simpl.
  destruct (clear_buffer_spec _ _ _ _ _ (v_buffers _ _ _ _ Hv) Hr) as (bp & BL' & -> & Hb & Hl). simpl.
  eexists _, BL'. split_and!; [done| |by split|done].
  apply (set_client_view (with_buffers w bp)); [|by eexists]. split; [apply Hv|done|apply Hv].
Qed.

(** ** Changes of one connection *)

Lemma holds_singleton K c k x : K !! inl c = Some k -> holds K (inl c) x <-> owns k x.
Proof. intros Hk. unfold holds. rewrite Hk. split; [intros (? & [= <-] & ?); done|eauto]. Qed.

Lemma inv_conn w CL BL GL K c k w' BL' GL' cl' k' :
  inv w CL BL GL K -> K !! inl c = Some k ->
  view w' (<[c := cl']> CL) BL' GL' -> ids_ok w' -> routes_ w' = routes_ w ->
  conn_ok (responses w') (websockets w') BL' GL' c cl' k' ->
  (forall x, owns k' x -> owns k x \/ at_ (responses w) (websockets w) BL GL x = None) ->
  (forall x, ~ owns k x -> ~ owns k' x -> at_ (responses w') (websockets w') BL' GL' x = at_ (responses w) (websockets w) BL GL x) ->
  (forall x, owns k x -> ~ owns k' x -> at_ (responses w') (websockets w') BL' GL' x = None) ->
  inv w' (<[c := cl']> CL) BL' GL' (<[inl c := k']> K).
Proof.
  intros Hi Hk Hv Hid Hrt Hok Hnew Hsame Hgone.
  assert (forall x, holds (<[inl c := k']> K) (inl c) x <-> owns k' x) as Hh'
    by (intros; apply holds_singleton, lookup_insert_eq).
  assert (forall x, holds K (inl c) x <-> owns k x) as Hh by (intros; by apply holds_singleton).
  eapply (inv_update w CL BL GL K _ _ _ _ _ [inl c]); try done.
  - rewrite Hrt. apply Hi.
  - intros o Ho. rewrite lookup_insert_ne by set_solver. done.
  - intros c' Hc'. rewrite lookup_insert_ne by set_solver. done.
  - intros o k0 ->%list_elem_of_singleton. rewrite lookup_insert_eq. intros [= <-].
    exists cl'. by rewrite lookup_insert_eq.
  - intros c' [= ->]%list_elem_of_singleton _. rewrite lookup_insert_eq. by eexists.
  - intros o x ->%list_elem_of_singleton Hx%Hh'. destruct (Hnew x Hx); [left|by right].
    exists (inl c). split; [set_solver|]. by apply Hh.
  - intros x H1 H2. apply Hsame.
    + intros Hx. apply (H2 (inl c)); [set_solver|]. by apply Hh.
    + intros Hx. apply (H1 (inl c)); [set_solver|]. by apply Hh'.
  - intros x (o & ->%list_elem_of_singleton & Hx%Hh) H1. apply Hgone; [done|].
    intros Hx'. apply (H1 (inl c)); [set_solver|]. by apply Hh'.
  - intros o1 o2 x ->%list_elem_of_singleton ->%list_elem_of_singleton. done.
Qed.

(** Only the record of the connection changes. *)
Lemma inv_set w CL BL GL K c cl k cl' :
  inv w CL BL GL K -> CL !! c = Some cl -> K !! inl c = Some k -> conn_ok (responses w) (websockets w) BL GL c cl' k ->
  inv (set_client c cl' w) (<[c := cl']> CL) BL GL K.
Proof.
  intros Hi Hc Hk Hok. rewrite <- (insert_id K (inl c) k Hk).
  eapply (inv_conn w CL BL GL K c k); try done.
  - apply set_client_view; [apply Hi|by eexists].
  - exact (i_ids _ _ _ _ _ Hi).
  - auto.
Qed.

Lemma inv_client w CL BL GL K c cl : inv w CL BL GL K -> CL !! c = Some cl ->
  exists k, K !! inl c = Some k /\ conn_ok (responses w) (websockets w) BL GL c cl k.
Proof.
  intros Hi Hc. destruct (i_conns _ _ _ _ _ Hi c) as [k Hk]; [by eexists|]. exists k. split; [done|].
  destruct (i_owner _ _ _ _ _ Hi _ _ Hk) as (cl' & Hc' & Hok). congruence.
Qed.

(** The invariant, for some contents of the pools and some ownership. *)
Definition Inv w : Prop := exists CL BL GL K, inv w CL BL GL K.

(** A call that returns and keeps the invariant. *)
Definition safe (m : outcome server) : Prop := exists w', m = Ret w' /\ Inv w'.

Lemma safe_ret w : Inv w -> safe (Ret w).
Proof. intros Hi. by exists w. Qed.

Lemma safe_set w CL BL GL K c cl k cl' :
  inv w CL BL GL K -> CL !! c = Some cl -> K !! inl c = Some k ->
  conn_ok (responses w) (websockets w) BL GL c cl' k -> safe (Ret (set_client c cl' w)).
Proof. intros. apply safe_ret. do 4 eexists. by eapply inv_set. Qed.

(** Only the record of the connection changed, in any number of writes. *)
Lemma safe_env w CL BL GL K c cl k w' cl' :
  inv w CL BL GL K -> CL !! c = Some cl -> K !! inl c = Some k ->
  view w' (<[c := cl']> CL) BL GL -> same_env w w' ->
  conn_ok (responses w) (websockets w) BL GL c cl' k -> safe (Ret w').
Proof.
  intros Hi Hc Hk Hv Hse Hok. apply safe_ret. exists (<[c := cl']> CL), BL, GL, K.
  rewrite <- (insert_id K (inl c) k Hk). pose proof Hse as [E1 E2 _ E4 _].
  eapply (inv_conn w CL BL GL K c k); try done; rewrite ?E1, ?E2; try done.
  - by eapply same_env_ids, Hi.
  - auto.
Qed.

Lemma conn_ok_socket RS WS BL GL c cl k s : conn_ok RS WS BL GL c cl k -> stream_ok s ->
  st_closed s = st_closed (socket cl) -> conn_ok RS WS BL GL c (with_socket cl s) k.
Proof.
  intros [H1 H2 H3 H4 H5 H6 H7] Hs He. split; [done..|]. cbn [with_socket socket]. rewrite He.
  destruct (st_closed (socket cl)) eqn:E.
  - destruct H7. split; try done. destruct Hs as [_ Hs]. apply Hs. congruence.
  - destruct H7. by split.
Qed.

Lemma conn_ok_timer RS WS BL GL c cl k t : conn_ok RS WS BL GL c cl k ->
  tm_closing t = tm_closing (idle_timer cl) -> conn_ok RS WS BL GL c (with_timer cl t) k.
Proof.
  intros [H1 H2 H3 H4 H5 H6 H7] He. split; [done..|]. cbn [with_timer socket].
  destruct (st_closed (socket cl)); destruct H7; split; try done; cbn [with_timer idle_timer]; congruence.
Qed.

Lemma read_start_ok s : stream_ok s ->
  stream_ok (uv_read_start s).1 /\ st_closed (uv_read_start s).1 = st_closed s.
Proof.
  intros Hs. unfold uv_read_start. destruct (st_closing s) eqn:E; [done|].
  destruct (st_reading s); [done|]. destruct (st_readable s); [|done].
  split; [|done]. destruct Hs as [H1 H2]. split; simpl; [congruence|].
  intros Ht. apply H2 in Ht. congruence.
Qed.

(** *** Closing *)

Lemma close_socket_safe w CL BL GL K c cl : inv w CL BL GL K -> CL !! c = Some cl ->
  safe (close_socket c w).
Proof.
  intros Hi Hc. destruct (inv_client w CL BL GL K c cl Hi Hc) as (k & Hk & Hok).
  unfold close_socket. rewrite (get_client_view w CL BL GL c cl (i_view _ _ _ _ _ Hi) Hc).
  cbn [mbind outcome_bind]. unfold uv_is_closing, uv_close.
  destruct (st_closing (socket cl)) eqn:E; cbn [mbind outcome_bind].
  { apply safe_ret. by exists CL, BL, GL, K. }
  eapply safe_set; [done..|]. apply conn_ok_socket; [done| |done].
  destruct (ck_stream _ _ _ _ _ _ _ Hok) as [_ Hcl]. split; [done|]. simpl. intros Ht.
  apply Hcl in Ht. congruence.
Qed.

Lemma timer_closed_safe w CL BL GL K c cl : inv w CL BL GL K -> CL !! c = Some cl ->
  tm_closing (idle_timer cl) = true -> safe (on_idle_timer_closed_cb c w).
Proof.
  intros Hi Hc Ht. destruct (inv_client w CL BL GL K c cl Hi Hc) as (k & Hk & Hok).
  pose proof (i_view _ _ _ _ _ Hi) as Hv. unfold on_idle_timer_closed_cb.
  destruct (op_release_repr _ _ _ c (v_clients _ _ _ _ Hv)) as (cp & -> & Hr); [by eexists|].
  cbn [mbind outcome_bind]. apply safe_ret. exists (delete c CL), BL, GL, (delete (inl c) K).
  assert (k = mkConn None None None []) as ->.
  { pose proof (ck_phase _ _ _ _ _ _ _ Hok) as Hp.
    destruct (st_closed (socket cl)); [apply Hp|].
    pose proof (co_timer _ _ _ _ _ _ _ Hp). congruence. }
  assert (forall x, ~ holds K (inl c) x) as Hn.
  { intros x (k & Hk' & Hx). rewrite Hk in Hk'. injection Hk' as <-.
    destruct x; simpl in Hx; try done. set_solver. }
  eapply (inv_update w CL BL GL K _ _ _ _ _ [inl c]); try done.
  - split; [done|apply Hv|apply Hv].
  - exact (i_ids _ _ _ _ _ Hi).
  - exact (i_routes _ _ _ _ _ Hi).
  - intros o Ho. rewrite lookup_delete_ne; [done|set_solver].
  - intros c' Hc'. rewrite lookup_delete_ne; [done|set_solver].
  - intros o k ->%list_elem_of_singleton. by rewrite lookup_delete_eq.
  - intros c' [= ->]%list_elem_of_singleton. rewrite lookup_delete_eq. by intros [].
  - intros o x ->%list_elem_of_singleton (k & Hk' & _). by rewrite lookup_delete_eq in Hk'.
  - intros x (o & ->%list_elem_of_singleton & Hx). by apply Hn in Hx.
  - by intros o1 o2 x ->%list_elem_of_singleton ->%list_elem_of_singleton.
Qed.

(** *** Completed writes *)

(** The record after the callback of a write: the request is done, the flag cleared. *)
Lemma write_cb_run cb cl s : write_handle cl = Some cb -> cb <> on_abort_write ->
  (cb = on_write -> pending_write_buffer cl = Allocated) ->
  exists cl', (forall w CL BL GL c, view w CL BL GL -> CL !! c = Some (with_socket (with_write cl None) s) ->
      run_write_cb cb c w = Ret (set_client c cl' w)) /\
    socket cl' = (uv_read_start s).1 /\ idle_timer cl' = idle_timer cl /\ write_handle cl' = None /\
    shutdown_req cl' = shutdown_req cl /\ write_in_flight cl' = false /\ closing cl' = closing cl /\
    conn_protocol cl' = conn_protocol cl /\ recv cl' = recv cl /\ activeWs cl' = activeWs cl /\
    guard cl' = guard cl.
Proof.
  intros Hw Hna Hp. destruct cb; [| |done].
  - eexists. split.
    + intros w CL BL GL c Hv Hc. cbn [run_write_cb]. unfold on_write_cb.
      rewrite (get_client_view w CL BL GL c _ Hv Hc). cbn [mbind outcome_bind].
      unfold free_pending. cbn [with_in_flight pending_write_buffer with_socket with_write].
      rewrite (Hp eq_refl). cbn [mbind outcome_bind]. reflexivity.
    + done.
  - eexists. split.
    + intros w CL BL GL c Hv Hc. cbn [run_write_cb]. unfold on_static_write_cb.
      rewrite (get_client_view w CL BL GL c _ Hv Hc). reflexivity.
    + done.
Qed.

Lemma write_done_safe w CL BL GL K c cl : inv w CL BL GL K -> CL !! c = Some cl ->
  safe (write_done c w).
Proof.
  intros Hi Hc. destruct (inv_client w CL BL GL K c cl Hi Hc) as (k & Hk & Hok).
  unfold write_done. rewrite (get_client_view w CL BL GL c cl (i_view _ _ _ _ _ Hi) Hc).
  cbn [mbind outcome_bind]. destruct (write_handle cl) as [cb|] eqn:Ew.
  2: { apply safe_ret. by exists CL, BL, GL, K. }
  destruct Hok as [H1 H2 H3 H4 H5 H6 H7]. destruct (st_closed (socket cl)) eqn:Ec.
  { destruct H7. congruence. }
  destruct H7 as [O1 O2 O3 O4 O5 O6]. rewrite Ew in O5.
  destruct (write_cb_run cb cl (socket cl) Ew) as (cl' & Hrun & E1 & E2 & E3 & E4 & E5 & E6 & E7 & E8 & E9 & E10).
  { by intros ->. }
  { intros ->. by destruct O5 as (_ & _ & ?). }
  assert (k_resp k = None) as Hkr by (destruct cb; by destruct O5).
  rewrite (Hrun _ (<[c := with_write cl None]> CL) BL GL c);
    [|apply set_client_view; [apply Hi|by eexists]|by rewrite lookup_insert_eq; destruct cl].
  destruct (read_start_ok (socket cl) H5) as [Hs Hcs].
  apply (safe_env w CL BL GL K c cl k _ cl' Hi Hc Hk).
  - eapply set_again_view, set_client_view; [apply Hi|by eexists].
  - by split.
  - split; [congruence|congruence|congruence|done|congruence|congruence|].
    rewrite E1, Hcs, Ec. split; [congruence|congruence|done|rewrite E7; done|by rewrite E3|].
    intros r Hr. congruence.
Qed.

(** *** The end of a connection *)

(** The WebSockets left when the one of a connection is freed. *)
Definition drop_ws (i : option nat) (WS : gmap nat WebSocket) : gmap nat WebSocket :=
  from_option (fun i => delete i WS) WS i.

Lemma close_ws_view w CL BL GL c cl : view w CL BL GL -> CL !! c = Some cl ->
  (forall i, activeWs cl = Some i -> exists ws, websockets w !! i = Some ws /\ sock_js ws = true) ->
  exists w', close_ws c w = Ret w' /\
    view w' (<[c := with_ws cl (conn_protocol cl) None]> CL) BL GL /\
    responses w' = responses w /\ websockets w' = drop_ws (activeWs cl) (websockets w) /\
    next_id w' = next_id w /\ routes_ w' = routes_ w.
Proof.
  intros Hv Hc Hws. unfold close_ws. rewrite (get_client_view w CL BL GL c cl Hv Hc).
  cbn [mbind outcome_bind]. destruct (activeWs cl) as [i|] eqn:E.
  - destruct (Hws i eq_refl) as (ws & -> & ->). cbn [negb]. eexists. split; [done|].
    assert (forall w1, view w1 CL BL GL ->
      view (set_client c (with_ws cl (conn_protocol cl) None) w1)
        (<[c := with_ws cl (conn_protocol cl) None]> CL) BL GL) as Hset.
    { intros w1 Hv1. apply set_client_view; [done|by eexists]. }
    destruct (on_close ws); (split; [apply Hset; split; apply Hv|done]).
  - exists w. split; [done|]. split; [|done]. rewrite insert_id; [done|].
    rewrite Hc. destruct cl; simpl in *. by rewrite E.
Qed.

Lemma close_guard_view w CL BL GL c cl g n : view w CL BL GL -> CL !! c = Some cl ->
  guard cl = Some g -> GL !! g = Some (mkGuard true n) -> 1 <= n < 2 ^ 30 ->
  exists w', close_guard c w = Ret w' /\
    view w' (<[c := with_guard cl None]> CL) BL
      (if n =? 1 then delete g GL else <[g := mkGuard false (n - 1)]> GL) /\ same_env w w'.
Proof.
  intros Hv Hc Hg HGL Hn. unfold close_guard. rewrite (get_client_view w CL BL GL c cl Hv Hc).
  cbn [mbind outcome_bind]. rewrite Hg, (get_guard_view w CL BL GL g _ Hv HGL).
  cbn [mbind outcome_bind ref_count].
  pose proof (set_guard_view w CL BL GL g (mkGuard false n) Hv ltac:(by eexists)) as Hv1.
  destruct (guard_release_view _ _ _ _ g false n Hv1) as (w2 & -> & Hv2 & Hse);
    [by rewrite lookup_insert_eq|done|]. cbn [mbind outcome_bind].
  rewrite (get_client_view w2 _ _ _ c cl Hv2 Hc). cbn [mbind outcome_bind].
  eexists. split; [done|]. split; [|by destruct Hse; split].
  destruct (n =? 1); rewrite ?delete_insert_eq, ?insert_insert_eq in Hv2;
    (apply set_client_view; [done|by eexists]).
Qed.

(** What [on_client_closed_cb] leaves behind. *)
Lemma on_client_closed_view w CL BL GL c cl l g n : view w CL BL GL -> CL !! c = Some cl ->
  recv_ok BL (recv cl) l ->
  (forall i, activeWs cl = Some i -> exists ws, websockets w !! i = Some ws /\ sock_js ws = true) ->
  guard cl = Some g -> GL !! g = Some (mkGuard true n) -> 1 <= n < 2 ^ 30 ->
  tm_closing (idle_timer cl) = false ->
  exists w' BL' cl', on_client_closed_cb c w = Ret w' /\
    view w' (<[c := cl']> CL) BL' (if n =? 1 then delete g GL else <[g := mkGuard false (n - 1)]> GL) /\
    responses w' = responses w /\ websockets w' = drop_ws (activeWs cl) (websockets w) /\
    next_id w' = next_id w /\ routes_ w' = routes_ w /\
    (forall b, BL' !! b = if decide (b ∈ l) then None else BL !! b) /\
    cl' = mkClient (socket cl) (mkTimer false true) (write_handle cl) (shutdown_req cl)
      (write_in_flight cl) true (conn_protocol cl) no_recv (pending_write_buffer cl) None None.
Proof.
  intros Hv Hc Hr Hws Hg HGL Hn Ht. unfold on_client_closed_cb.
  rewrite (get_client_view w CL BL GL c cl Hv Hc). cbn [mbind outcome_bind].
  pose proof (set_client_view w CL BL GL c (with_closing cl true) Hv ltac:(by eexists)) as Hv1.
  destruct (clear_client_view _ _ _ _ c _ l Hv1 (lookup_insert_eq _ _ _) Hr)
    as (w2 & BL' & -> & Hv2 & [R2 W2 N2 T2 _] & HBL). cbn [mbind outcome_bind].
  rewrite insert_insert_eq in Hv2.
  destruct (close_ws_view _ _ _ _ c _ Hv2 (lookup_insert_eq _ _ _))
    as (w3 & -> & Hv3 & R3 & W3 & N3 & T3).
  { intros i Hi. rewrite W2. by apply Hws. }
  cbn [mbind outcome_bind]. rewrite insert_insert_eq in Hv3.
  destruct (close_guard_view _ _ _ _ c _ g n Hv3 (lookup_insert_eq _ _ _))
    as (w4 & -> & Hv4 & [R4 W4 N4 T4 _]); [done|done|done|]. cbn [mbind outcome_bind].
  rewrite insert_insert_eq in Hv4.
  rewrite (get_client_view _ _ _ _ c _ Hv4 (lookup_insert_eq _ _ _)). cbn [mbind outcome_bind].
  unfold uv_close_timer, uv_timer_stop.
  cbn [tm_closing with_guard with_ws with_recv with_closing idle_timer]. rewrite Ht.
  cbn [mbind outcome_bind].
  eexists _, BL', _. split; [done|]. split; [by eapply set_again_view|].
  cbn [set_client with_clients responses websockets next_id routes_ with_recv with_closing activeWs]
    in R2, W2, N2, T2, W3 |- *.
  split_and!; [congruence..|done|done].
Qed.

Lemma elem_two {A} (a b o : A) : o ∈ [a; b] -> o = a \/ o = b.
Proof. set_solver. Qed.

Definition no_conn : conn := mkConn None None None [].

Lemma no_conn_owns x : ~ owns no_conn x.
Proof. destruct x; simpl; try done. set_solver. Qed.

Lemma drop_ws_lookup i WS j : drop_ws i WS !! j = if decide (i = Some j) then None else WS !! j.
Proof.
  destruct i as [i|]; simpl; [|done].
  destruct (decide (Some i = Some j)) as [[= ->]|Hn]; [by rewrite lookup_delete_eq|].
  rewrite lookup_delete_ne; [done|congruence].
Qed.

Definition is_resp (x : resource) : bool := if x is RResp _ then true else false.

(** Buffers and WebSocket of the connection gone, everything but its guard untouched. *)
Lemma at_dropped RS WS BL BL' GL GL' k g x :
  k_guard k = Some g -> (forall b, BL' !! b = if decide (b ∈ k_bufs k) then None else BL !! b) ->
  (forall g', g' <> g -> GL' !! g' = GL !! g') -> x <> RGuard g ->
  at_ RS (drop_ws (k_ws k) WS) BL' GL' x =
  if decide (owns k x /\ is_resp x = false) then None
  else at_ RS WS BL GL x.
Proof.
  intros Hg HB HG Hx. destruct x as [g'|r|i|b]; simpl.
  - rewrite HG by congruence. rewrite decide_False; [done|]. intros [He _]. congruence.
  - rewrite decide_False; [done|]. by intros [_ ?].
  - rewrite drop_ws_lookup. repeat case_decide; tauto || done.
  - rewrite HB. repeat case_decide; tauto || done.
Qed.

(** The connection dies with nothing pending: the guard goes with it. *)
Lemma inv_conn_gone w CL BL GL K c k cl' w' BL' g : inv w CL BL GL K -> K !! inl c = Some k ->
  k_guard k = Some g -> k_resp k = None ->
  view w' (<[c := cl']> CL) BL' (delete g GL) ->
  responses w' = responses w -> websockets w' = drop_ws (k_ws k) (websockets w) ->
  next_id w' = next_id w -> routes_ w' = routes_ w ->
  (forall b, BL' !! b = if decide (b ∈ k_bufs k) then None else BL !! b) ->
  conn_ok (responses w') (websockets w') BL' (delete g GL) c cl' no_conn ->
  inv w' (<[c := cl']> CL) BL' (delete g GL) (<[inl c := no_conn]> K).
Proof.
  intros Hi Hk Hg Hr Hv ER EW EN ET HB Hok.
  assert (forall x, at_ (responses w') (websockets w') BL' (delete g GL) x =
    if decide (owns k x) then None else at_ (responses w) (websockets w) BL GL x) as Hat.
  { intros x. rewrite ER, EW. destruct (decide (x = RGuard g)) as [->|Hx].
    - simpl. rewrite lookup_delete_eq, decide_True by done. done.
    - rewrite (at_dropped _ _ BL BL' GL (delete g GL) k g) by
        (done || intros; rewrite lookup_delete_ne by done; done).
      repeat case_decide; try tauto. destruct x; simpl in *; try tauto. congruence. }
  eapply (inv_conn w CL BL GL K c k); try done.
  - destruct (i_ids _ _ _ _ _ Hi) as [I1 I2]. split; intros j Hj; rewrite EN in Hj.
    + rewrite ER. by apply I1.
    + rewrite EW, drop_ws_lookup. case_decide; [done|by apply I2].
  - intros x Hx. by apply no_conn_owns in Hx.
  - intros x Hn _. by rewrite Hat, decide_False.
  - intros x Hx _. by rewrite Hat, decide_True.
Qed.

(** The connection dies with a response pending: the response keeps the guard. *)
Lemma inv_conn_orphan w CL BL GL K c k cl' w' BL' g r : inv w CL BL GL K -> K !! inl c = Some k ->
  k_guard k = Some g -> k_resp k = Some r ->
  (exists res, responses w !! r = Some res /\ r_guard res = g /\ res_ok res) ->
  view w' (<[c := cl']> CL) BL' (<[g := mkGuard false 1]> GL) ->
  responses w' = responses w -> websockets w' = drop_ws (k_ws k) (websockets w) ->
  next_id w' = next_id w -> routes_ w' = routes_ w ->
  (forall b, BL' !! b = if decide (b ∈ k_bufs k) then None else BL !! b) ->
  conn_ok (responses w') (websockets w') BL' (<[g := mkGuard false 1]> GL) c cl' no_conn ->
  inv w' (<[c := cl']> CL) BL' (<[g := mkGuard false 1]> GL)
    (<[inl c := no_conn]> (<[inr r := mkConn (Some g) (Some r) None []]> K)).
Proof.
  intros Hi Hk Hg Hr (res & Hres & Hrg & Hrok) Hv ER EW EN ET HB Hok.
  set (K' := <[inl c := no_conn]> (<[inr r := mkConn (Some g) (Some r) None []]> K)).
  assert (forall x, ~ holds K' (inl c) x) as Hc0.
  { intros x Hx. rewrite (holds_singleton K' c no_conn) in Hx by apply lookup_insert_eq.
    by apply no_conn_owns in Hx. }
  assert (forall x, holds K' (inr r) x <-> x = RGuard g \/ x = RResp r) as Hr0.
  { intros x. unfold holds, K'. rewrite lookup_insert_ne, lookup_insert_eq by done. split.
    - intros (k0 & [= <-] & Hx). destruct x; simpl in Hx; simplify_eq; [by left|by right|set_solver].
    - intros [-> | ->]; eexists; by split. }
  assert (forall x, holds K (inl c) x <-> owns k x) as Hck by (intros; by apply holds_singleton).
  assert (forall x, x <> RGuard g -> x <> RResp r ->
    at_ (responses w') (websockets w') BL' (<[g := mkGuard false 1]> GL) x =
    if decide (owns k x) then None else at_ (responses w) (websockets w) BL GL x) as Hat.
  { intros x Hx1 Hx2. rewrite ER, EW.
    rewrite (at_dropped _ _ BL BL' GL (<[g := mkGuard false 1]> GL) k g) by
      (done || intros; rewrite lookup_insert_ne by done; done).
    repeat case_decide; try tauto. destruct x; simpl in *; try tauto. congruence. }
  eapply (inv_update w CL BL GL K _ _ _ _ K' [inl c; inr r]); try done.
  - destruct (i_ids _ _ _ _ _ Hi) as [I1 I2]. split; intros j Hj; rewrite EN in Hj.
    + rewrite ER. by apply I1.
    + rewrite EW, drop_ws_lookup. case_decide; [done|by apply I2].
  - rewrite ET. apply Hi.
  - intros o Ho. unfold K'. rewrite !lookup_insert_ne by set_solver. done.
  - intros c' Hc'. rewrite lookup_insert_ne by set_solver. done.
  - intros o k0 [-> | ->]%elem_two Hko; unfold K' in Hko.
    + rewrite lookup_insert_eq in Hko. injection Hko as <-. exists cl'. by rewrite lookup_insert_eq.
    + rewrite lookup_insert_ne, lookup_insert_eq in Hko by done. injection Hko as <-.
      exists g, res. rewrite lookup_insert_eq, ER. done.
  - intros c' [[= ->]|?]%elem_two _; [|done]. unfold K'. rewrite lookup_insert_eq. by eexists.
  - intros o x Ho Hx. left. exists (inl c). split; [set_solver|]. apply Hck.
    apply elem_two in Ho as [-> | ->].
    + by apply Hc0 in Hx.
    + apply Hr0 in Hx as [-> | ->]; done.
  - intros x H1 H2. rewrite Hat.
    + rewrite decide_False; [done|]. intros Hx. apply (H2 (inl c)); [set_solver|]. by apply Hck.
    + intros ->. apply (H1 (inr r)); [set_solver|]. apply Hr0. by left.
    + intros ->. apply (H1 (inr r)); [set_solver|]. apply Hr0. by right.
  - intros x (o & Ho & Hx) H1.
    assert (x <> RGuard g /\ x <> RResp r) as [Hx1 Hx2].
    { split; intros ->; (apply (H1 (inr r)); [set_solver|]); apply Hr0; auto. }
    rewrite Hat by done. rewrite decide_True; [done|]. apply Hck.
    apply elem_two in Ho as [-> | ->]; [done|].
    destruct Hx as (k0 & Hk0 & Hx). destruct (i_owner _ _ _ _ _ Hi _ _ Hk0) as (g0 & res0 & -> & _ & Hr' & Hg' & _).
    destruct x; simpl in Hx; simplify_eq; set_solver.
  - intros o1 o2 x [-> | ->]%elem_two [-> | ->]%elem_two H1 H2; try done.
    + by apply Hc0 in H1.
    + by apply Hc0 in H2.
Qed.

(** After [on_client_closed_cb] the connection owns nothing. *)
Lemma conn_closed_ok RS WS BL GL c cl s : stream_ok s -> st_closed s = true ->
  write_handle cl = None -> shutdown_req cl = false ->
  conn_ok RS WS BL GL c (mkClient s (mkTimer false true) (write_handle cl) (shutdown_req cl)
    (write_in_flight cl) true (conn_protocol cl) no_recv (pending_write_buffer cl) None None) no_conn.
Proof.
  intros Hs Hc Hw Hsh. split; [done|done|apply recv_ok_empty|constructor|done|done|].
  cbn [socket]. rewrite Hc. split; try done. by apply Hs.
Qed.

(** The write in flight is completed before the close callback. *)
Lemma finish_write w CL BL GL K c cl k : inv w CL BL GL K -> CL !! c = Some cl ->
  K !! inl c = Some k -> conn_ok (responses w) (websockets w) BL GL c cl k ->
  st_closing (socket cl) = true -> st_closed (socket cl) = false ->
  let s := mkStream (st_open (socket cl)) (st_reading (socket cl)) (st_readable (socket cl))
             (st_writable (socket cl)) (st_closing (socket cl)) true in
  exists w' cl', match write_handle cl with
    | None => Ret (set_client c (with_socket (with_write cl None) s) w)
    | Some cb => run_write_cb cb c (set_client c (with_socket (with_write cl None) s) w)
    end = Ret w' /\ view w' (<[c := cl']> CL) BL GL /\ same_env w w' /\
    socket cl' = s /\ write_handle cl' = None /\ idle_timer cl' = idle_timer cl /\
    shutdown_req cl' = shutdown_req cl /\ recv cl' = recv cl /\ activeWs cl' = activeWs cl /\
    guard cl' = guard cl.
Proof.
  intros Hi Hc Hk Hok Hcl Hnc s. pose proof (i_view _ _ _ _ _ Hi) as Hv.
  pose proof (set_client_view w CL BL GL c (with_socket (with_write cl None) s) Hv ltac:(by eexists)) as Hv1.
  destruct (write_handle cl) as [cb|] eqn:Ew.
  2: { exists (set_client c (with_socket (with_write cl None) s) w), (with_socket (with_write cl None) s).
       by split_and!. }
  pose proof (ck_phase _ _ _ _ _ _ _ Hok) as Hp. rewrite Hnc in Hp.
  pose proof (co_write _ _ _ _ _ _ _ Hp) as Hw. rewrite Ew in Hw.
  destruct (write_cb_run cb cl s Ew) as (cl' & Hrun & E1 & E2 & E3 & E4 & E5 & E6 & E7 & E8 & E9 & E10).
  { by intros ->. }
  { intros ->. by destruct Hw as (_ & _ & ?). }
  rewrite (Hrun _ _ _ _ c Hv1 (lookup_insert_eq _ _ _)). exists (set_client c cl' (set_client c (with_socket (with_write cl None) s) w)), cl'.
  split; [done|]. split; [by eapply set_again_view|]. split; [by split|].
  split_and!; try done. rewrite E1. unfold uv_read_start. cbn [st_closing s]. by rewrite Hcl.
Qed.

Lemma finish_close_safe w CL BL GL K c cl : inv w CL BL GL K -> CL !! c = Some cl ->
  st_closing (socket cl) = true -> st_closed (socket cl) = false -> safe (finish_close c w).
Proof.
  intros Hi Hc Hcl Hnc. destruct (inv_client w CL BL GL K c cl Hi Hc) as (k & Hk & Hok).
  unfold finish_close. rewrite (get_client_view w CL BL GL c cl (i_view _ _ _ _ _ Hi) Hc).
  cbn [mbind outcome_bind].
  destruct (finish_write w CL BL GL K c cl k Hi Hc Hk Hok Hcl Hnc)
    as (w1 & cl1 & He & Hv1 & Hse & E1 & E2 & E3 & E4 & E5 & E6 & E7).
  rewrite He. cbn [mbind outcome_bind].
  rewrite (get_client_view w1 _ _ _ c cl1 Hv1 (lookup_insert_eq _ _ _)). cbn [mbind outcome_bind].
  rewrite E4, (ck_shutdown _ _ _ _ _ _ _ Hok). cbn [mbind outcome_bind].
  destruct Hok as [K1 K2 K3 K4 K5 K6 K7]. rewrite Hnc in K7. destruct K7 as [O1 O2 O3 O4 O5 O6].
  destruct O3 as (g & Hg & HGL). destruct Hse as [R1 W1 N1 T1 _].
  destruct (on_client_closed_view w1 _ BL GL c cl1 (k_bufs k) g (1 + resp_refs k) Hv1
    (lookup_insert_eq _ _ _)) as (w2 & BL' & cl2 & -> & Hv2 & R2 & W2 & N2 & T2 & HB & Hcl2).
  - congruence.
  - intros i Hx. rewrite E6, K2 in Hx. rewrite W1.
    destruct O4 as [[_ ?]|(_ & _ & i' & ws & Hi' & Hws & Hs & _)]; [congruence|].
    rewrite Hi' in Hx. injection Hx as ->. eauto.
  - congruence.
  - done.
  - unfold resp_refs. destruct (k_resp k); lia.
  - congruence.
  - apply safe_ret. rewrite insert_insert_eq in Hv2. rewrite W1, E6, K2 in W2.
    rewrite R1 in R2. rewrite N1 in N2. rewrite T1 in T2.
    assert (forall GL', conn_ok (responses w2) (websockets w2) BL' GL' c cl2 no_conn) as Hok2.
    { intros GL'. subst cl2. apply conn_closed_ok; [|by rewrite E1|done|congruence].
      rewrite E1. destruct K5 as [S1 S2]. split; simpl; auto. }
    unfold resp_refs in *. destruct (k_resp k) as [r|] eqn:Er.
    + change (1 + 1 =? 1) with false in Hv2. change (1 + 1 - 1) with 1 in Hv2.
      destruct (O6 r eq_refl) as (_ & res & Hres & Hrc & Hrg & Hrok).
      do 4 eexists. eapply (inv_conn_orphan w CL BL GL K c k cl2 w2 BL' g r); eauto.
      exists res. split_and!; [done|congruence|done].
    + change (1 + 0 =? 1) with true in Hv2.
      do 4 eexists. eapply (inv_conn_gone w CL BL GL K c k cl2 w2 BL' g); eauto.
Qed.

End Invariant.
