(* ===== verification/ServerSteps.v ===== *)
(** Every handler of the server returns and keeps the invariant of [ServerInv]: the ends
    of responses, accepted connections, and what is done with received data. *)

From S2P Require Import Prelude CString MemPool ObjectPool HttpParser HttpMessage ClientOps Ws Util Server ServerInv.

Section Steps.
Context {CP BP GP : Type} `{OC : ObjectPool CP ClientState} `{OB : ObjectPool BP ReadBuffer}
  `{OG : ObjectPool GP ConnGuard}.
Context (NC NB : nat).
Abbreviation server := (Server CP BP GP).
Abbreviation inv := (inv NC NB).
Abbreviation view := (view NC NB).
Abbreviation Inv := (Inv NC NB).
Abbreviation safe := (safe NC NB).
Implicit Types (w : server) (c : Z) (CL : gmap Z ClientState) (BL : gmap Z ReadBuffer)
  (GL : gmap Z ConnGuard) (RS : gmap nat Response) (WS : gmap nat WebSocket)
  (K : gmap owner conn) (k : conn) (o : owner).

(** A call that returns, keeps the invariant and has exactly the effects [es]. *)
Definition safe_eff w (es : list effect) (m : outcome server) : Prop :=
  exists w', m = Ret w' /\ Inv w' /\ effects w' = effects w ++ es.

Lemma safe_eff_safe w es m : safe_eff w es m -> safe m.
Proof. intros (w' & ? & ? & _). by exists w'. Qed.

Lemma safe_eff_from w w1 es m : effects w1 = effects w -> safe_eff w1 es m -> safe_eff w es m.
Proof. intros He (w' & ? & ? & E). exists w'. by rewrite <- He. Qed.

Lemma safe_no_eff w m : safe m -> (forall w', m = Ret w' -> effects w' = effects w) -> safe_eff w [] m.
Proof. intros (w' & ? & ?) He. exists w'. split_and!; [done|done|]. rewrite app_nil_r. auto. Qed.

Lemma guard_acquire_effects g w w' : guard_acquire g w = Ret w' -> effects w' = effects w.
Proof. unfold guard_acquire. intros H. ret_inv H gd E. by injection H as <-. Qed.

Lemma guard_release_effects g w w' : guard_release g w = Ret w' -> effects w' = effects w.
Proof.
  unfold guard_release. intros H. ret_inv H gd E. destruct (_ =? 0); [|by injection H as <-].
  ret_inv H gp E2. by injection H as <-.
Qed.

Lemma clear_client_effects c w w' : clear_client c w = Ret w' -> effects w' = effects w.
Proof.
  unfold clear_client. intros H. ret_inv H cl E. ret_inv H p E2. destruct p. by injection H as <-.
Qed.

Lemma close_socket_effects c w w' : close_socket c w = Ret w' -> effects w' = effects w.
Proof.
  unfold close_socket. intros H. ret_inv H cl E. destruct (uv_is_closing _); [by injection H as <-|].
  ret_inv H p E2. by injection H as <-.
Qed.

Lemma receive_data_effects b c w w' d : receive_data b c w = Ret (w', d) -> effects w' = effects w.
Proof.
  unfold receive_data. intros H. ret_inv H cl E. ret_inv H p E2. destruct p. ret_inv H d' E3.
  by injection H as <- _.
Qed.

(** ** Responses *)

(** A write that reaches the peer, if the socket can still be written to. *)
Definition write_to c (cl : ClientState) (bytes : list Z) : list effect :=
  if st_open (socket cl) && st_writable (socket cl) then [Write c bytes] else [].

Definition k_done k : conn := mkConn (k_guard k) None (k_ws k) (k_bufs k).

(** The fields of a connection a response does not touch. *)
Record same_conn (cl cl' : ClientState) : Prop := {
  sc_socket : socket cl' = socket cl;
  sc_timer : idle_timer cl' = idle_timer cl;
  sc_shutdown : shutdown_req cl' = shutdown_req cl;
  sc_closing : closing cl' = closing cl;
  sc_proto : conn_protocol cl' = conn_protocol cl;
  sc_recv : recv cl' = recv cl;
  sc_ws : activeWs cl' = activeWs cl;
  sc_guard : guard cl' = guard cl }.

(** Two states that differ at most in the pools, the effects and the response [r]. *)
Record env_but (r : nat) w w' : Prop := {
  eb_responses : delete r (responses w') = delete r (responses w);
  eb_websockets : websockets w' = websockets w;
  eb_next : next_id w' = next_id w;
  eb_routes : routes_ w' = routes_ w }.

Lemma env_but_same r w w' w'' : env_but r w w' -> same_env w' w'' -> env_but r w w''.
Proof. intros [] []. split; congruence. Qed.

Lemma env_but_ids r w w' : env_but r w w' -> ids_ok w -> ids_ok (delete_response r w').
Proof.
  intros [E1 E2 E3 _] [I1 I2]. unfold ids_ok. cbn [delete_response with_responses responses websockets next_id].
  rewrite E1, E2, E3. split; [|done]. intros j Hj. apply lookup_delete_None. right. by apply I1.
Qed.

(** The end of a response on a live connection: its reference on the guard goes. *)
Lemma inv_resp_done w CL BL GL K c k r g w' cl' : inv w CL BL GL K -> K !! inl c = Some k ->
  k_resp k = Some r -> k_guard k = Some g -> env_but r w w' ->
  view w' (<[c := cl']> CL) BL (<[g := mkGuard true 1]> GL) ->
  conn_ok (delete r (responses w)) (websockets w) BL (<[g := mkGuard true 1]> GL) c cl' (k_done k) ->
  Inv (delete_response r w').
Proof.
  intros Hi Hk Hr Hg He Hv Hok. exists (<[c := cl']> CL), BL, (<[g := mkGuard true 1]> GL), (<[inl c := k_done k]> K).
  pose proof He as [E1 E2 E3 E4].
  eapply (inv_conn _ _ w CL BL GL K c k); try done;
    cbn [delete_response with_responses responses websockets routes_]; rewrite ?E1, ?E2; try done.
  - destruct Hv. by split.
  - by eapply env_but_ids, Hi.
  - intros x Hx. left. by destruct x.
  - intros x Hn Hn'. destruct x as [g'|r'|i|b]; simpl in *; try done.
    + by rewrite lookup_insert_ne by congruence.
    + by rewrite lookup_delete_ne by congruence.
  - intros x Hx Hn. destruct x as [g'|r'|i|b]; simpl in *; try done.
    rewrite Hr in Hx. injection Hx as ->. by rewrite lookup_delete_eq.
Qed.

Lemma conn_ok_done RS WS BL GL c cl k r g cl' : conn_ok RS WS BL GL c cl k ->
  st_closed (socket cl) = false -> k_resp k = Some r -> k_guard k = Some g -> same_conn cl cl' ->
  (write_handle cl' = None \/ (write_handle cl' = Some on_static_write /\ write_in_flight cl' = true) \/
   (write_handle cl' = Some on_write /\ write_in_flight cl' = true /\ pending_write_buffer cl' = Allocated)) ->
  conn_ok (delete r RS) WS BL (<[g := mkGuard true 1]> GL) c cl' (k_done k).
Proof.
  intros [K1 K2 K3 K4 K5 K6 K7] Hnc Hr Hg [S1 S2 S3 S4 S5 S6 S7 S8] Hw. rewrite Hnc in K7.
  destruct K7 as [O1 O2 O3 O4 O5 O6].
  split; cbn [k_done k_guard k_ws k_bufs]; try congruence.
  rewrite S1, Hnc. split; cbn [k_done k_guard k_ws k_bufs k_resp]; try congruence.
  - exists g. by rewrite lookup_insert_eq.
  - left. destruct O4 as [[? ?]|(_ & ? & _)]; [split; congruence|congruence].
  - destruct Hw as [->|[[-> ->]|(-> & -> & ->)]]; done.
Qed.

(** A pending response has the connection's [write_handle] to itself. *)
Lemma resp_write_free RS WS BL GL c cl k r : conn_open RS WS BL GL c cl k -> k_resp k = Some r ->
  write_handle cl = None.
Proof.
  intros [_ _ _ _ O5 _] Hr. destruct (write_handle cl) as [[]|]; [| |done|done]; destruct O5; congruence.
Qed.

Lemma uv_write_view w CL BL GL c cl cb bytes : view w CL BL GL -> CL !! c = Some cl ->
  write_handle cl = None ->
  exists w' rc, uv_write cb bytes c w = Ret (w', rc) /\
    view w' (<[c := if rc <? 0 then cl else with_write cl (Some cb)]> CL) BL GL /\ same_env w w' /\
    effects w' = effects w ++ write_to c cl bytes /\
    (rc <? 0) = negb (st_open (socket cl) && st_writable (socket cl)).
Proof.
  intros Hv Hc Hw. unfold uv_write. rewrite (get_client_view _ _ w CL BL GL c cl Hv Hc).
  cbn [mbind outcome_bind]. rewrite Hw. unfold uv_write_rc, write_to.
  destruct (st_open (socket cl)); [destruct (st_writable (socket cl))|]; cbn [negb andb].
  - change (0 <? 0) with false. do 2 eexists. split; [done|]. change (0 <? 0) with false. split; [|done].
    destruct (set_client_view _ _ w CL BL GL c (with_write cl (Some cb)) Hv ltac:(by eexists)). by split.
  - do 2 eexists. split; [done|]. change (UV_EPIPE <? 0) with true. rewrite insert_id by done. by rewrite app_nil_r.
  - do 2 eexists. split; [done|]. change (UV_EBADF <? 0) with true. rewrite insert_id by done. by rewrite app_nil_r.
Qed.

(** [guard->release(); delete this;] after the write of a live connection's response. *)
Lemma resp_tail_safe w CL BL GL K c cl k r g w' cl' : inv w CL BL GL K -> CL !! c = Some cl ->
  K !! inl c = Some k -> conn_ok (responses w) (websockets w) BL GL c cl k ->
  k_resp k = Some r -> k_guard k = Some g -> env_but r w w' ->
  view w' (<[c := cl']> CL) BL GL -> same_conn cl cl' ->
  (write_handle cl' = None \/ (write_handle cl' = Some on_static_write /\ write_in_flight cl' = true) \/
   (write_handle cl' = Some on_write /\ write_in_flight cl' = true /\ pending_write_buffer cl' = Allocated)) ->
  exists w'', (w2 ← guard_release g w'; Ret (delete_response r w2)) = Ret w'' /\ Inv w'' /\
    effects w'' = effects w' /\ responses w'' = delete r (responses w).
Proof.
  intros Hi Hc Hk Hok Hr Hg He Hv Hs Hw.
  pose proof (ck_phase _ _ _ _ _ _ _ Hok) as Hp. destruct (st_closed (socket cl)) eqn:Ec.
  { destruct Hp as [_ _ _ _ ->]. done. }
  destruct (co_guard _ _ _ _ _ _ _ Hp) as (g' & Hg' & HGL). rewrite Hg in Hg'. injection Hg' as <-.
  unfold resp_refs in HGL. rewrite Hr in HGL.
  destruct (guard_release_view _ _ w' _ BL GL g true 2 Hv HGL ltac:(lia)) as (w2 & Ew2 & Hv2 & Hse).
  rewrite Ew2. cbn [mbind outcome_bind]. change (2 =? 1) with false in Hv2. change (2 - 1) with 1 in Hv2.
  pose proof (env_but_same _ _ _ _ He Hse) as He2.
  eexists. split_and!; [done| |exact (guard_release_effects _ _ _ Ew2)|apply He2].
  eapply (inv_resp_done w); eauto. by eapply conn_ok_done.
Qed.

(** Who a live response belongs to: its connection, or nobody any more. *)
Lemma resp_owner w CL BL GL K r res : inv w CL BL GL K -> responses w !! r = Some res ->
  (exists cl k, CL !! r_cli res = Some cl /\ K !! inl (r_cli res) = Some k /\
     conn_ok (responses w) (websockets w) BL GL (r_cli res) cl k /\ st_closed (socket cl) = false /\
     conn_open (responses w) (websockets w) BL GL (r_cli res) cl k /\
     k_resp k = Some r /\ k_guard k = Some (r_guard res) /\ write_in_flight cl = true /\
     GL !! r_guard res = Some (mkGuard true 2) /\ res_ok res) \/
  (K !! inr r = Some (mkConn (Some (r_guard res)) (Some r) None []) /\
   GL !! r_guard res = Some (mkGuard false 1) /\ res_ok res).
Proof.
  intros Hi Hr. destruct (i_complete _ _ _ _ _ _ _ Hi (RResp r)) as (o & k & Hk & Hx).
  { simpl. rewrite Hr. by eexists. }
  simpl in Hx. pose proof (i_owner _ _ _ _ _ _ _ Hi o k Hk) as Ho. destruct o as [c|r'].
  - left. destruct Ho as (cl & Hc & Hok). pose proof (ck_phase _ _ _ _ _ _ _ Hok) as Hp.
    destruct (st_closed (socket cl)) eqn:Ec; [destruct Hp as [_ _ _ _ ->]; done|].
    destruct (co_resp _ _ _ _ _ _ _ Hp r Hx) as (Hf & res' & Hr' & Hcli & Hg & Hrok).
    rewrite Hr in Hr'. injection Hr' as <-. subst c. exists cl, k. split_and!; try done.
    destruct (co_guard _ _ _ _ _ _ _ Hp) as (g & Hg' & HGL). unfold resp_refs in HGL.
    rewrite Hx in HGL. rewrite Hg in Hg'. injection Hg' as <-. done.
  - right. destruct Ho as (g & res' & -> & HGL & Hr' & <- & Hrok). simpl in Hx. injection Hx as ->.
    rewrite Hr in Hr'. injection Hr' as <-. done.
Qed.

(** The end of a response whose connection is gone: the guard goes with it. *)
Lemma orphan_done w CL BL GL K r g w' : inv w CL BL GL K ->
  K !! inr r = Some (mkConn (Some g) (Some r) None []) -> env_but r w w' ->
  view w' CL BL (delete g GL) -> Inv (delete_response r w').
Proof.
  intros Hi Hk He Hv. exists CL, BL, (delete g GL), (delete (inr r) K). pose proof He as [E1 E2 E3 E4].
  assert (forall x, holds K (inr r) x <-> x = RGuard g \/ x = RResp r) as Hx.
  { intros x. unfold holds. rewrite Hk. split.
    - intros (k & [= <-] & Hx). destruct x; simpl in Hx; simplify_eq; [by left|by right|set_solver].
    - intros [-> | ->]; eexists; by split. }
  assert (forall x, ~ holds (delete (inr r) K) (inr r) x) as Hn.
  { intros x (k & Hk' & _). by rewrite lookup_delete_eq in Hk'. }
  eapply (inv_update _ _ w CL BL GL K _ _ _ _ _ [inr r]); try done;
    cbn [delete_response with_responses responses websockets routes_]; rewrite ?E1, ?E2; try done.
  - destruct Hv. by split.
  - by eapply env_but_ids, Hi.
  - rewrite E4. apply Hi.
  - intros o Ho. rewrite lookup_delete_ne; [done|set_solver].
  - intros o k ->%list_elem_of_singleton Hk'. by rewrite lookup_delete_eq in Hk'.
  - intros c Hc%list_elem_of_singleton. done.
  - intros o x ->%list_elem_of_singleton Hx'. by apply Hn in Hx'.
  - intros x _ Hnx. specialize (Hnx (inr r) ltac:(set_solver)). rewrite Hx in Hnx.
    destruct x as [g'|r'|i|b]; simpl; try done.
    + rewrite lookup_delete_ne; [done|]. intros ->. auto.
    + rewrite lookup_delete_ne; [done|]. intros ->. auto.
  - intros x (o & ->%list_elem_of_singleton & [-> | ->]%Hx) _; simpl; by rewrite lookup_delete_eq.
  - intros o1 o2 x ->%list_elem_of_singleton ->%list_elem_of_singleton. done.
Qed.

Definition with_text (res : Response) (t : ResponseText) : Response :=
  mkRes (r_req res) (r_cli res) (r_guard res) t.

Definition put_response (r : nat) (res : Response) w : server :=
  with_responses w (<[r := res]> (responses w)).

(** What a response in [w] writes: nothing once its connection is gone. *)
Definition answer w (res : Response) (bytes : list Z) : list effect :=
  match op_get (guards w) (r_guard res), op_get (clients w) (r_cli res) with
  | Some gd, Some cl => if alive gd then write_to (r_cli res) cl bytes else []
  | _, _ => []
  end.

(** [send] of a response whose text is complete. *)
Lemma send_safe w CL BL GL K r res t bytes : inv w CL BL GL K -> responses w !! r = Some res ->
  send_bytes (stack_buffer t) t = Ret bytes ->
  exists w', send true r (put_response r (with_text res t) w) = Ret w' /\ Inv w' /\
    effects w' = effects w ++ answer w res bytes /\ responses w' = delete r (responses w).
Proof.
  intros Hi Hr Hb. pose proof (i_view _ _ _ _ _ _ _ Hi) as Hv. unfold send, get_response.
  set (w0 := put_response _ _ _). assert (view w0 CL BL GL) as Hv0 by (destruct Hv; by split).
  assert (env_but r w w0) as He0.
  { split; [|done..]. simpl. by rewrite delete_insert_eq. }
  replace (responses w0 !! r) with (Some (with_text res t)) by (subst w0; simpl; by rewrite lookup_insert_eq).
  cbn [mbind outcome_bind with_text r_req r_cli r_guard r_text]. unfold answer.
  rewrite (op_get_repr _ _ _ _ (v_guards _ _ _ _ _ _ Hv)), (op_get_repr _ _ _ _ (v_clients _ _ _ _ _ _ Hv)).
  destruct (resp_owner w CL BL GL K r res Hi Hr)
    as [(cl & k & Hc & Hk & Hok & Hnc & Hop & Hkr & Hkg & Hfl & HGL & _)|(Hk & HGL & _)];
    rewrite (get_guard_view _ _ w0 CL BL GL _ _ Hv0 HGL); cbn [mbind outcome_bind alive negb].
  2: { unfold drop_response. cbn [with_text r_guard r_req].
       destruct (guard_release_view _ _ w0 CL BL GL _ _ 1 Hv0 HGL ltac:(lia)) as (w1 & Ew1 & Hv1 & Hse).
       rewrite Ew1. cbn [mbind outcome_bind]. change (1 =? 1) with true in Hv1.
       eapply env_but_same in Hse; [|exact He0]. destruct Hse as [F1 F2 F3 F4].
       eexists. split; [done|]. rewrite HGL. cbn [alive].
       split; [eapply (orphan_done w); eauto; [by split|by destruct Hv1; split]|].
       split; [|by rewrite <- F1]. apply guard_release_effects in Ew1. simpl. rewrite Ew1. by destruct (CL !! _); rewrite app_nil_r. }
  rewrite (get_client_view _ _ w0 CL BL GL _ _ Hv0 Hc). cbn [mbind outcome_bind].
  rewrite (co_closing _ _ _ _ _ _ _ Hop), Hb. cbn [mbind outcome_bind].
  pose proof (resp_write_free _ _ _ _ _ _ _ _ Hop Hkr) as Hwr.
  set (cl1 := if is_static t then cl else with_pending cl Allocated).
  set (w1 := if is_static t then delete_request _ w0 else _).
  assert (view w1 (<[r_cli res := cl1]> CL) BL GL) as Hv1.
  { subst w1 cl1. destruct (is_static t).
    - rewrite insert_id by done. destruct Hv0. by split.
    - apply set_client_view; [destruct Hv0; by split|by eexists]. }
  assert (same_env w0 w1) as Hse1 by (subst w1; destruct (is_static t); by split).
  assert (write_handle cl1 = None /\ same_conn cl cl1 /\ write_in_flight cl1 = true /\
    (is_static t = false -> pending_write_buffer cl1 = Allocated)) as (Hw1 & Hsc & Hf1 & Hp1).
  { subst cl1. by destruct (is_static t). }
  assert (effects w1 = effects w) as Ef1 by (subst w1; by destruct (is_static t)).
  assert (write_to (r_cli res) cl1 bytes = write_to (r_cli res) cl bytes) as Ewt
    by (unfold write_to; by rewrite (sc_socket _ _ Hsc)).
  clearbody w1 cl1.
  destruct (uv_write_view w1 _ BL GL (r_cli res) cl1 (if is_static t then on_static_write else on_write) bytes Hv1
    (lookup_insert_eq _ _ _) Hw1) as (w2 & rc & -> & Hv2 & Hse2 & Ef2 & _).
  cbn [mbind outcome_bind]. rewrite andb_false_r. rewrite insert_insert_eq in Hv2.
  rewrite HGL, Hc. cbn [alive]. rewrite <- Ewt, <- Ef1, <- Ef2.
  eapply (resp_tail_safe w CL BL GL K (r_cli res) cl k); eauto.
  - eapply env_but_same; [|exact Hse2]. eapply env_but_same; [|exact Hse1]. done.
  - destruct (rc <? 0); [done|]. destruct Hsc. by split.
  - destruct (rc <? 0); [by left|right]. destruct (is_static t); [by left|right]. split_and!; auto.
Qed.

Lemma resp_with_404_safe w CL BL GL K r res cl : inv w CL BL GL K -> responses w !! r = Some res ->
  CL !! r_cli res = Some cl -> K !! inr r = None ->
  safe_eff w (write_to (r_cli res) cl response_404) (resp_with_404 r w).
Proof.
  intros Hi Hr Hc Hno. pose proof (i_view _ _ _ _ _ _ _ Hi) as Hv. unfold resp_with_404, get_response.
  rewrite Hr. cbn [mbind outcome_bind].
  destruct (resp_owner w CL BL GL K r res Hi Hr)
    as [(cl' & k & Hc' & Hk & Hok & Hnc & Hop & Hkr & Hkg & Hfl & HGL & _)|(Hk & _)]; [|congruence].
  rewrite Hc in Hc'. injection Hc' as <-.
  pose proof (resp_write_free _ _ _ _ _ _ _ _ Hop Hkr) as Hwr.
  destruct (uv_write_view w CL BL GL (r_cli res) cl on_static_write response_404 Hv Hc Hwr)
    as (w2 & rc & -> & Hv2 & Hse2 & Ef2 & _). cbn [mbind outcome_bind].
  edestruct (resp_tail_safe w CL BL GL K (r_cli res) cl k) as (w' & -> & Hinv & Ef & _);
    [exact Hi|exact Hc|exact Hk|exact Hok|exact Hkr|exact Hkg| |exact Hv2|..|exists w'; by rewrite Ef, Ef2].
  - eapply env_but_same; [|exact Hse2]. by split.
  - by destruct (rc <? 0).
  - destruct (rc <? 0); [by left|right; by left].
Qed.

(** ** Connections *)

Context (zero_client : @op_zero CP ClientState OC = memset 0).

(** A connection that has just been accepted, with its guard. *)
Lemma inv_conn_new w CL BL GL K c cl g w' : inv w CL BL GL K -> CL !! c = None -> GL !! g = None ->
  same_env w w' -> view w' (<[c := cl]> CL) BL (<[g := mkGuard true 1]> GL) ->
  conn_ok (responses w) (websockets w) BL (<[g := mkGuard true 1]> GL) c cl (mkConn (Some g) None None []) ->
  Inv w'.
Proof.
  intros Hi Hc Hg Hse Hv Hok. pose proof Hse as [E1 E2 E3 E4 _].
  set (k := mkConn (Some g) None None []).
  exists (<[c := cl]> CL), BL, (<[g := mkGuard true 1]> GL), (<[inl c := k]> K).
  assert (K !! inl c = None) as HK.
  { destruct (K !! inl c) as [k'|] eqn:E; [|done].
    destruct (i_owner _ _ _ _ _ _ _ Hi _ _ E) as (cl' & Hcl' & _). congruence. }
  assert (forall x, ~ holds K (inl c) x) as Hn by (intros x (k' & Hk' & _); congruence).
  assert (forall x, holds (<[inl c := k]> K) (inl c) x <-> x = RGuard g) as Hh.
  { intros x. rewrite holds_singleton by apply lookup_insert_eq. unfold k.
    destruct x; simpl; (split; [intros Hx; simplify_eq; set_solver|intros [= ->]; done]). }
  eapply (inv_update _ _ w CL BL GL K _ _ _ _ _ [inl c]); try done; rewrite ?E1, ?E2; try done.
  - by eapply same_env_ids, Hi.
  - rewrite E4. apply Hi.
  - intros o Ho. rewrite lookup_insert_ne by set_solver. done.
  - intros c' Hc'. rewrite lookup_insert_ne by set_solver. done.
  - intros o k' ->%list_elem_of_singleton. rewrite lookup_insert_eq. intros [= <-].
    exists cl. by rewrite lookup_insert_eq.
  - intros c' [= ->]%list_elem_of_singleton _. rewrite lookup_insert_eq. by eexists.
  - intros o x ->%list_elem_of_singleton ->%Hh. right. simpl. by rewrite Hg.
  - intros x Hx _. specialize (Hx (inl c) ltac:(set_solver)). rewrite Hh in Hx.
    destruct x; try done. simpl. rewrite lookup_insert_ne; [done|congruence].
  - intros x (o & ->%list_elem_of_singleton & Hx). by apply Hn in Hx.
  - by intros o1 o2 x ->%list_elem_of_singleton ->%list_elem_of_singleton.
Qed.

Lemma inv_same w CL BL GL K w' : inv w CL BL GL K -> view w' CL BL GL -> same_env w w' -> Inv w'.
Proof.
  intros [_ Ho Hcs Hcm Hu Hid Hrt] Hv Hse. pose proof Hse as [E1 E2 E3 E4 _].
  exists CL, BL, GL, K. split; rewrite ?E1, ?E2, ?E4; try done. by eapply same_env_ids.
Qed.

Lemma conn_new_ok RS WS BL GL c g (accepted named : bool) :
  let cl := with_timer (with_socket (with_guard (init_client_state (memset 0)) (Some g)) uv_tcp_init)
              (uv_timer_start uv_timer_init) in
  let cl := if accepted then with_socket cl (uv_accept (socket cl)) else cl in
  let cl := if accepted && named then with_socket cl (uv_read_start (socket cl)).1 else cl in
  GL !! g = Some (mkGuard true 1) ->
  conn_ok RS WS BL GL c cl (mkConn (Some g) None None []).
Proof.
  intros cl cl1 cl2 HG.
  assert (conn_ok RS WS BL GL c cl (mkConn (Some g) None None [])) as H0.
  { split; try done; [apply recv_ok_empty|constructor|].
    split; try done; [by exists g|by left]. }
  assert (conn_ok RS WS BL GL c cl1 (mkConn (Some g) None None [])) as H1.
  { subst cl1. destruct accepted; [|done]. by apply conn_ok_socket. }
  subst cl2. destruct (accepted && named) eqn:E; [|done].
  destruct (read_start_ok (socket cl1) (ck_stream _ _ _ _ _ _ _ H1)). by apply conn_ok_socket.
Qed.

Lemma connect_safe w CL BL GL K st accepted named : inv w CL BL GL K ->
  safe (on_peer_connected st accepted named w).
Proof.
  intros Hi. pose proof (i_view _ _ _ _ _ _ _ Hi) as Hv. unfold on_peer_connected.
  destruct (st <? 0); [apply safe_ret; by exists CL, BL, GL, K|].
  destruct (decide (size CL = NC)) as [Hf|Hf].
  { rewrite (op_acquire_full _ _ _ (v_clients _ _ _ _ _ _ Hv) Hf). cbn [mbind outcome_bind].
    apply safe_ret. eapply inv_same; [exact Hi|destruct Hv; by split|by split]. }
  destruct (op_acquire_free _ _ _ (v_clients _ _ _ _ _ _ Hv) Hf) as (c & cp & -> & Hc & Hcp).
  rewrite zero_client in Hcp. cbn [mbind outcome_bind].
  assert (view (with_clients w cp) (<[c := memset 0]> CL) BL GL) as Hv1 by (split; [done|apply Hv..]).
  rewrite (get_client_view _ _ _ _ _ _ c _ Hv1 (lookup_insert_eq _ _ _)). cbn [mbind outcome_bind].
  pose proof (set_again_view _ _ _ _ _ _ c _ (init_client_state (memset 0)) Hv1) as Hv2.
  set (w2 := set_client c _ _) in *. assert (same_env w w2) as Hse2 by by split. clearbody w2.
  destruct (decide (size GL = NC)) as [Hg|Hg].
  { rewrite (op_acquire_full _ _ _ (v_guards _ _ _ _ _ _ Hv2) Hg). cbn [mbind outcome_bind].
    destruct (op_release_repr _ _ _ c (v_clients _ _ _ _ _ _ Hv2)) as (cp' & He & Hr);
      [rewrite lookup_insert_eq; by eexists|]. cbn [with_guards clients]. rewrite He.
    cbn [mbind outcome_bind]. rewrite delete_insert_id in Hr by done.
    apply safe_ret. eapply inv_same; [exact Hi|destruct Hv2; by split|destruct Hse2; by split]. }
  destruct (op_acquire_free _ _ _ (v_guards _ _ _ _ _ _ Hv2) Hg) as (g & gp & -> & Hng & Hgp).
  cbn [mbind outcome_bind].
  set (w3 := with_guards (with_guards w2 gp) _).
  assert (view w3 (<[c := init_client_state (memset 0)]> CL) BL (<[g := mkGuard true 0]> GL)) as Hv3.
  { subst w3. split; [apply Hv2|apply Hv2|]. rewrite <- (insert_insert_eq GL g _ op_zero).
    apply op_set_repr; [done|]. rewrite lookup_insert_eq. by eexists. }
  assert (same_env w w3) as Hse3 by (destruct Hse2; by split). clearbody w3.
  destruct (guard_acquire_view _ _ w3 _ _ _ g true 0 Hv3 (lookup_insert_eq _ _ _) ltac:(lia))
    as (w4 & -> & Hv4 & Hse4). cbn [mbind outcome_bind]. rewrite insert_insert_eq in Hv4.
  apply safe_ret. eapply (inv_conn_new w); [exact Hi|exact Hc|exact Hng| |eapply set_again_view, Hv4|].
  - etrans; [exact Hse3|]. etrans; [exact Hse4|]. by split.
  - apply conn_new_ok. apply lookup_insert_eq.
Qed.

(** ** Received data *)

Definition k_recv k (l : list Z) : conn := mkConn (k_guard k) (k_resp k) (k_ws k) l.

(** The chain of received buffers of an open connection is replaced. *)
Lemma conn_ok_recv RS WS BL GL BL' c cl k r l : conn_ok RS WS BL GL c cl k ->
  st_closed (socket cl) = false -> recv_ok BL' r l -> bytes_ok (content BL' l) ->
  conn_ok RS WS BL' GL c (with_recv cl r) (k_recv k l).
Proof.
  intros [K1 K2 K3 K4 K5 K6 K7] Hnc Hr Hb. split; try done. cbn [with_recv socket]. rewrite Hnc in *.
  destruct K7. by split.
Qed.

Lemma owns_recv k l x : owns (k_recv k l) x <->
  match x with RBuf b => b ∈ l | _ => owns k x end.
Proof. by destruct x. Qed.

(** [clear_client] on an open connection. *)
Lemma clear_client_inv w CL BL GL K c cl k : inv w CL BL GL K -> CL !! c = Some cl ->
  K !! inl c = Some k -> conn_ok (responses w) (websockets w) BL GL c cl k ->
  st_closed (socket cl) = false ->
  exists w' BL', clear_client c w = Ret w' /\ same_env w w' /\
    inv w' (<[c := with_recv cl no_recv]> CL) BL' GL (<[inl c := k_recv k []]> K) /\
    conn_ok (responses w) (websockets w) BL' GL c (with_recv cl no_recv) (k_recv k []).
Proof.
  intros Hi Hc Hk Hok Hnc.
  destruct (clear_client_view _ _ w CL BL GL c cl (k_bufs k) (i_view _ _ _ _ _ _ _ Hi) Hc
    (ck_recv _ _ _ _ _ _ _ Hok)) as (w' & BL' & -> & Hv & Hse & HB).
  exists w', BL'. assert (conn_ok (responses w) (websockets w) BL' GL c (with_recv cl no_recv) (k_recv k [])) as Hok'
    by (apply (conn_ok_recv _ _ BL); [done|done|apply recv_ok_empty|constructor]).
  split_and!; [done|done| |done]. pose proof Hse as [E1 E2 _ E4 _].
  eapply (inv_conn _ _ w CL BL GL K c k); try done; rewrite ?E1, ?E2; try done.
  - by eapply same_env_ids, Hi.
  - intros x Hx%owns_recv. left. destruct x; try done. set_solver.
  - intros x Hx _. destruct x as [| | |b]; try done. simpl in *. by rewrite HB, decide_False.
  - intros x Hx Hn. destruct x as [| | |b]; try done. simpl in *. by rewrite HB, decide_True.
Qed.

Context (small_pool : Z.of_nat NB * 256 < 2 ^ 31).

Lemma chain_count BL r l : recv_ok BL r l -> (length l <= size BL)%nat.
Proof.
  intros Hr. rewrite <- size_dom, <- (size_list_to_set (C := gset Z) l) by apply Hr.
  apply subseteq_size. intros b. rewrite elem_of_list_to_set, elem_of_dom. apply chain_live with (recv_head r), Hr.
Qed.

(** A filled buffer joins the chain of its connection. *)
Lemma receive_data_inv w CL BL GL K c cl k p rb w1 : inv w CL BL GL K ->
  K !! inl c = Some k -> st_closed (socket cl) = false -> BL !! p = None ->
  view w1 (<[c := cl]> CL) (<[p := rb]> BL) GL -> same_env w w1 ->
  conn_ok (responses w) (websockets w) BL GL c cl k ->
  rb_ok rb -> rb_next rb = None -> bytes_ok (rb_data rb) ->
  exists w' r' BL', receive_data p c w1 = Ret (w', content BL (k_bufs k) ++ rb_data rb) /\
    same_env w w' /\ (length (content BL (k_bufs k) ++ rb_data rb) <= 256 * NB)%nat /\
    inv w' (<[c := with_recv cl r']> CL) BL' GL (<[inl c := k_recv k (k_bufs k ++ [p])]> K) /\
    conn_ok (responses w) (websockets w) BL' GL c (with_recv cl r') (k_recv k (k_bufs k ++ [p])).
Proof.
  intros Hi Hk Hnc Hp Hv Hse Hok Hrb Hnx Hby. set (l := k_bufs k).
  pose proof (ck_recv _ _ _ _ _ _ _ Hok) as Hr. fold l in Hr.
  assert (p ∉ l) as Hpl.
  { intros Hin. destruct (chain_live _ _ _ _ (ro_chain _ _ _ Hr) Hin). congruence. }
  set (BL1 := <[p := rb]> BL) in *.
  assert (forall b, b ∈ l -> BL !! b = BL1 !! b) as Hext.
  { intros b Hb. subst BL1. rewrite lookup_insert_ne; [done|]. by intros ->. }
  assert (content BL l = content BL1 l) as Hc1 by (apply content_ext; intros b Hb; by rewrite Hext).
  assert (recv_ok BL1 (recv cl) l) as Hr1.
  { destruct Hr as [Hch ? ? ? ?]. split; [by eapply chain_ext|done|done|done|congruence]. }
  pose proof (chain_count BL (recv cl) l Hr) as Hl.
  pose proof (op_size _ _ _ (v_buffers _ _ _ _ _ _ Hv)) as Hsz.
  subst BL1. rewrite map_size_insert_None in Hsz by done. set (BL1 := <[p := rb]> BL) in *.
  pose proof (chain_length_le _ _ _ (ro_chain _ _ _ Hr1)) as Hcl. pose proof (rb_data_length rb Hrb) as Hdl.
  pose proof (ro_bytes _ _ _ Hr1) as Hrl. destruct Hrb as [Hb1 Hb2] eqn:EHrb. clear EHrb.
  unfold receive_data. rewrite (get_client_view _ _ w1 _ _ _ c cl Hv (lookup_insert_eq _ _ _)).
  cbn [mbind outcome_bind].
  destruct (recv_new_buffer_spec _ _ _ (recv cl) l p rb (v_buffers _ _ _ _ _ _ Hv) Hr1 Hpl
    (lookup_insert_eq _ _ _) Hrb Hnx) as (r' & bp' & BL' & -> & Hbp & Hok' & Hcont & Hfr & Hdom); [lia|lia|].
  cbn [mbind outcome_bind].
  assert (length (content BL1 l ++ rb_data rb) <= 256 * NB)%nat as Hlen by (rewrite length_app; lia).
  pose proof (ro_bytes _ _ _ Hok') as Hrl'. rewrite Hcont in Hrl'.
  rewrite (flatten_buffer_spec bp' NB BL' r' (l ++ [p])); [|done|done|rewrite length_replicate; lia|lia].
  cbn [mbind outcome_bind]. rewrite Hcont, <- Hc1. rewrite <- Hc1 in Hlen.
  assert (bytes_ok (content BL' (l ++ [p]))) as Hbok.
  { rewrite Hcont, <- Hc1. apply list.Forall_app. split; [apply Hok|done]. }
  pose proof (conn_ok_recv _ _ _ _ BL' c cl k r' (l ++ [p]) Hok Hnc Hok' Hbok) as Hconn.
  eexists _, r', BL'. split; [done|]. split; [destruct Hse; by split|]. split; [done|]. split; [|done].
  destruct Hse as [E1 E2 E3 E4 _].
  eapply (inv_conn _ _ w CL BL GL K c k); try done;
    cbn [set_client with_clients with_buffers responses websockets routes_]; rewrite ?E1, ?E2; try done.
  - eapply set_again_view. split; [apply Hv|done|apply Hv].
  - destruct (i_ids _ _ _ _ _ _ _ Hi) as [I1 I2]. unfold ids_ok. simpl. rewrite E1, E2, E3. done.
  - intros x Hx%owns_recv. destruct x as [| | |b]; [by left..|]. 
    apply elem_of_app in Hx as [?| ->%list_elem_of_singleton]; [by left|right]. simpl. by rewrite Hp.
  - intros x Hx Hn. rewrite owns_recv in Hn. destruct x as [| | |b]; try done. simpl in *.
    rewrite Hfr by done. subst BL1. rewrite lookup_insert_ne; [done|]. set_solver.
  - intros x Hx Hn. rewrite owns_recv in Hn. destruct x as [| | |b]; try done. simpl in *. set_solver.
Qed.

(** ** Requests *)

(** What a connection has when nothing is under way on it. *)
Lemma idle_conn RS WS BL GL c cl k : conn_open RS WS BL GL c cl k -> write_in_flight cl = false ->
  conn_protocol cl = TYPE_HTTP_1 ->
  k_resp k = None /\ k_ws k = None /\ write_handle cl = None /\
  exists g, k_guard k = Some g /\ GL !! g = Some (mkGuard true 1).
Proof.
  intros [_ _ (g & Hg & HG) O4 O5 O6] Hf Hp.
  assert (k_resp k = None) as Hr.
  { destruct (k_resp k) as [r|] eqn:E; [|done]. destruct (O6 r eq_refl) as [? _]. congruence. }
  unfold resp_refs in HG. rewrite Hr in HG. split_and!; [done| | |by exists g].
  - destruct O4 as [[_ ?]|(Hw & _)]; [done|]. rewrite Hp in Hw. done.
  - destruct (write_handle cl) as [[]|]; [| |done|done]; naive_solver congruence.
Qed.

Lemma conn_ok_in_flight RS WS BL GL c cl k : conn_ok RS WS BL GL c cl k -> write_handle cl = None ->
  st_closed (socket cl) = false -> conn_ok RS WS BL GL c (with_in_flight cl true) k.
Proof.
  intros [K1 K2 K3 K4 K5 K6 K7] Hw Hnc. split; try done. cbn [with_in_flight socket].
  rewrite Hnc in *. destruct K7 as [O1 O2 O3 O4 O5 O6]. split; try done.
  - cbn [with_in_flight write_handle]. by rewrite Hw.
  - intros r Hr. split; [done|]. by apply O6.
Qed.

(** A fresh response on an idle connection takes a reference on its guard. *)
Lemma inv_resp_new w CL BL GL K c cl g r q w' : inv w CL BL GL K -> CL !! c = Some cl ->
  K !! inl c = Some (mkConn (Some g) None None []) ->
  conn_ok (responses w) (websockets w) BL GL c cl (mkConn (Some g) None None []) ->
  st_closed (socket cl) = false -> write_handle cl = None -> write_in_flight cl = true ->
  responses w !! r = None -> (r < next_id w)%nat ->
  responses w' = <[r := mkRes q c g (mkResp 0 [] [] 0 false)]> (responses w) ->
  websockets w' = websockets w -> next_id w' = next_id w -> routes_ w' = routes_ w ->
  view w' CL BL (<[g := mkGuard true 2]> GL) ->
  inv w' CL BL (<[g := mkGuard true 2]> GL) (<[inl c := mkConn (Some g) (Some r) None []]> K).
Proof.
  intros Hi Hc Hk Hok Hnc Hw Hf Hr Hlt ER EW EN ET Hv.
  rewrite <- (insert_id CL c cl Hc) in Hv |- *.
  eapply (inv_conn _ _ w CL BL GL K c); try done; rewrite ?ER, ?EW.
  - destruct (i_ids _ _ _ _ _ _ _ Hi) as [I1 I2]. split; intros j Hj; rewrite EN in Hj.
    + rewrite ER, lookup_insert_ne by lia. by apply I1.
    + rewrite EW. by apply I2.
  - destruct Hok as [K1 K2 K3 K4 K5 K6 K7]. rewrite Hnc in K7. destruct K7 as [O1 O2 O3 O4 O5 O6].
    split; try done. rewrite Hnc. split; try done.
    + exists g. by rewrite lookup_insert_eq.
    + left. destruct O4 as [?|(_ & _ & ? & ? & ? & _)]; done.
    + by rewrite Hw.
    + intros r' [= <-]. split; [done|]. eexists. rewrite lookup_insert_eq. by split_and!.
  - intros x Hx. destruct x; simpl in *; simplify_eq; [by left|right|by left]. by rewrite Hr.
  - intros x Hn Hn'. destruct x; simpl in *; try done; by rewrite lookup_insert_ne by congruence.
  - intros x Hx Hn. by destruct x.
Qed.

(** An upgraded connection owns its WebSocket. *)
Lemma inv_upgrade w CL BL GL K c cl g i w' : inv w CL BL GL K ->
  K !! inl c = Some (mkConn (Some g) None None []) ->
  conn_ok (responses w) (websockets w) BL GL c cl (mkConn (Some g) None None []) ->
  st_closed (socket cl) = false -> websockets w !! i = None -> (i < next_id w)%nat ->
  responses w' = responses w ->
  websockets w' = <[i := mkWS true false false c]> (websockets w) ->
  next_id w' = next_id w -> routes_ w' = routes_ w ->
  view w' (<[c := with_ws cl TYPE_WEB_SOCKET (Some i)]> CL) BL GL -> Inv w'.
Proof.
  intros Hi Hk Hok Hnc Hw Hlt ER EW EN ET Hv.
  do 4 eexists. eapply (inv_conn _ _ w CL BL GL K c _ _ _ _ _ (mkConn (Some g) None (Some i) []));
    try done; rewrite ?ER, ?EW.
  - destruct (i_ids _ _ _ _ _ _ _ Hi) as [I1 I2]. split; intros j Hj; rewrite EN in Hj.
    + rewrite ER. by apply I1.
    + rewrite EW, lookup_insert_ne by lia. by apply I2.
  - destruct Hok as [K1 K2 K3 K4 K5 K6 K7]. rewrite Hnc in K7. destruct K7 as [O1 O2 O3 O4 O5 O6].
    split; try done. cbn [with_ws socket]. rewrite Hnc. split; try done.
    right. split_and!; [done|done|]. eexists i, _. rewrite lookup_insert_eq. by split_and!.
  - intros x Hx. destruct x; simpl in *; simplify_eq; [by left|right|by left]. by rewrite Hw.
  - intros x Hn Hn'. destruct x; simpl in *; try done; by rewrite lookup_insert_ne by congruence.
  - intros x Hx Hn. by destruct x.
Qed.

Lemma static_send ct file : (length ct <= 24)%nat -> Z.of_nat (length file) < 2 ^ 31 ->
  send_bytes (stack_buffer (static_text ct file)) (static_text ct file)
  = Ret (head_text (static_text ct file) ++ file).
Proof.
  intros Hct Hf. destruct (dec_spec (Z.of_nat (length file))) as (_ & _ & Hd); [unfold uint_ok; lia|].
  apply send_fits; [done|by split|done| |done].
  rewrite length_head_custom by done. unfold header_room. simpl. lia.
Qed.

(** The response to a [serveStatic] route. *)
Definition static_bytes (fp file : list Z) : list Z :=
  match get_content_type (get_file_extension (Some fp)) with
  | Ret ct => head_text (static_text ct file) ++ file
  | _ => []
  end.

(** What a request for [verb] and [uri] on connection [c] causes; [r] is its response. *)
Definition route_effects w c (cl : ClientState) (r : nat) (verb uri : list Z) : list effect :=
  match routes_ w !! (verb, uri) with
  | Some (JsHandler id) => [JsRequest id r uri]
  | Some (StaticFile fp file) => write_to c cl (static_bytes fp file)
  | None => write_to c cl response_404
  end.

(** The handler of a route, on a response that is pending on its connection. *)
Lemma invoke_function_safe w CL BL GL K c cl r res verb uri : inv w CL BL GL K ->
  responses w !! r = Some res -> r_cli res = c -> CL !! c = Some cl -> K !! inr r = None ->
  safe_eff w (route_effects w c cl r verb uri) (invoke_function true r verb uri w).
Proof.
  intros Hi Hr Hcli Hc Hno. pose proof (i_view _ _ _ _ _ _ _ Hi) as Hv. unfold invoke_function, route_effects.
  destruct (routes_ w !! (verb, uri)) as [[id|fp file]|] eqn:E.
  - eexists. split_and!; [done| |done]. eapply inv_same; [exact Hi| |by split]. destruct Hv. by split.
  - pose proof (i_routes _ _ _ _ _ _ _ Hi _ _ E) as [[e He] Hf]. unfold run_static, get_response, static_bytes.
    rewrite Hr, He. cbn [mbind outcome_bind].
    destruct (content_type_short e) as (ct & -> & Hct). cbn [mbind outcome_bind].
    destruct (send_safe w CL BL GL K r res (static_text ct file) _ Hi Hr (static_send ct file Hct Hf))
      as (w' & He' & Hinv & Hef & _). exists w'. split; [done|]. split; [done|]. rewrite Hef. unfold answer.
    rewrite (op_get_repr _ _ _ _ (v_guards _ _ _ _ _ _ Hv)), (op_get_repr _ _ _ _ (v_clients _ _ _ _ _ _ Hv)).
    destruct (resp_owner w CL BL GL K r res Hi Hr)
      as [(cl' & k & Hc' & _ & _ & _ & _ & _ & _ & _ & -> & _)|(Hk & _)]; [|congruence].
    by rewrite Hcli, Hc.
  - subst c. by eapply resp_with_404_safe.
Qed.

Lemma upgrade_safe w CL BL GL K c cl g i uri accept : inv w CL BL GL K -> CL !! c = Some cl ->
  K !! inl c = Some (mkConn (Some g) None None []) ->
  conn_ok (responses w) (websockets w) BL GL c cl (mkConn (Some g) None None []) ->
  st_closed (socket cl) = false -> closing cl = false ->
  websockets w !! i = None -> (i < next_id w)%nat -> uri ∈ ws_routes_ w ->
  safe_eff w (JsWsOpen i :: write_to c cl (handshake_response accept))
    (w' ← invoke_ws_function i uri
            (with_websockets w (<[i := mkWS false false false c]> (websockets w)));
     complete_handshake true accept i c w').
Proof.
  intros Hi Hc Hk Hok Hnc Hcl Hfr Hlt Hu. pose proof (i_view _ _ _ _ _ _ _ Hi) as Hv.
  unfold invoke_ws_function. cbn [with_websockets websockets ws_routes_]. rewrite lookup_insert_eq.
  rewrite bool_decide_eq_true_2 by done. cbn [mbind outcome_bind on_message on_close ws_cli].
  unfold complete_handshake. set (w3 := emit _ _).
  assert (view w3 CL BL GL) as Hv3 by (destruct Hv; by split).
  rewrite (get_client_view _ _ w3 _ _ _ c cl Hv3 Hc). cbn [mbind outcome_bind].
  rewrite Hcl, andb_false_r. eexists. split; [done|].
  set (w4 := if 0 <=? _ then _ else w3).
  assert (view w4 CL BL GL) as Hv4 by (subst w4; destruct (0 <=? _); [destruct Hv3; by split|done]).
  split.
  - eapply (inv_upgrade w CL BL GL K c cl g i); try done.
    1-4: subst w4; destruct (0 <=? _); simpl; rewrite ?insert_insert_eq; done.
    apply set_client_view; [done|by eexists].
  - subst w4. unfold write_to, uv_write_rc. destruct (st_open (socket cl)); [destruct (st_writable (socket cl))|];
      simpl; rewrite <- ?app_assoc; done.
Qed.

Lemma respond_safe w CL BL GL K c cl g r q verb uri : inv w CL BL GL K -> CL !! c = Some cl ->
  K !! inl c = Some (mkConn (Some g) None None []) ->
  conn_ok (responses w) (websockets w) BL GL c cl (mkConn (Some g) None None []) ->
  st_closed (socket cl) = false -> write_handle cl = None -> write_in_flight cl = true ->
  GL !! g = Some (mkGuard true 1) -> responses w !! r = None -> (r < next_id w)%nat ->
  K !! inr r = None ->
  safe_eff w (route_effects w c cl r verb uri)
    (w' ← guard_acquire g
            (with_responses w (<[r := mkRes q c g (mkResp 0 [] [] 0 false)]> (responses w)));
     invoke_function true r verb uri w').
Proof.
  intros Hi Hc Hk Hok Hnc Hw Hf HG Hfr Hlt Hno. pose proof (i_view _ _ _ _ _ _ _ Hi) as Hv.
  set (w3 := with_responses _ _). assert (view w3 CL BL GL) as Hv3 by (destruct Hv; by split).
  destruct (guard_acquire_view _ _ w3 _ _ _ g true 1 Hv3 HG ltac:(lia)) as (w4 & Ew4 & Hv4 & [T1 T2 T3 T4 _]).
  rewrite Ew4. cbn [mbind outcome_bind].
  change (1 + 1) with 2 in Hv4. apply guard_acquire_effects in Ew4.
  apply (safe_eff_from w w4); [done|].
  replace (route_effects w c cl r verb uri) with (route_effects w4 c cl r verb uri)
    by (unfold route_effects; by rewrite T4).
  eapply (invoke_function_safe w4 _ _ _ _ c cl r (mkRes q c g (mkResp 0 [] [] 0 false)));
    [by eapply (inv_resp_new w CL BL GL K c cl g r q)|..].
  - rewrite T1. simpl. by rewrite lookup_insert_eq.
  - done.
  - done.
  - by rewrite lookup_insert_ne.
Qed.

(** What a request on an idle connection causes. *)
Definition request_effects w c (cl : ClientState) (q : request) : list effect :=
  let info := parseWSUpgrade (upgrade_headers q) in
  if isUpgrade info then
    JsWsOpen (S (S (next_id w))) :: write_to c cl (handshake_response (compute_ws_accept_key (key info)))
  else route_effects w c cl (S (next_id w)) (req_verb q) (req_uri q).

(** A request on an idle connection; an upgrade needs a registered WebSocket route. *)
Lemma dispatch_safe w CL BL GL K c cl k q : inv w CL BL GL K -> CL !! c = Some cl ->
  K !! inl c = Some k -> conn_ok (responses w) (websockets w) BL GL c cl k ->
  st_closed (socket cl) = false -> write_in_flight cl = false -> conn_protocol cl = TYPE_HTTP_1 ->
  (isUpgrade (parseWSUpgrade (upgrade_headers q)) = true -> req_uri q ∈ ws_routes_ w) ->
  safe_eff w (request_effects w c cl q) (dispatch_request true q c w).
Proof.
  intros Hi Hc Hk Hok Hnc Hf Hpr Hup. pose proof (i_view _ _ _ _ _ _ _ Hi) as Hv.
  pose proof (ck_phase _ _ _ _ _ _ _ Hok) as Hp. rewrite Hnc in Hp.
  destruct (idle_conn _ _ _ _ _ _ _ Hp Hf Hpr) as (Hkr & Hkw & Hwh & g & Hkg & HG).
  unfold dispatch_request. rewrite (get_client_view _ _ w CL BL GL c cl Hv Hc). cbn [mbind outcome_bind].
  pose proof (conn_ok_in_flight _ _ _ _ _ _ _ Hok Hwh Hnc) as Hok1.
  set (rid := S (next_id (set_client c (with_in_flight cl true) w))).
  assert (rid = S (next_id w)) as Erid by done.
  set (w1 := with_next_id _ _). destruct (i_ids _ _ _ _ _ _ _ Hi) as [I1 I2].
  assert (inv w1 (<[c := with_in_flight cl true]> CL) BL GL K) as Hi1.
  { destruct (inv_set _ _ w CL BL GL K c cl k _ Hi Hc Hk Hok1) as [V1 V2 V3 V4 V5 [V6 V7] V8].
    split; try done; [destruct V1; by split|].
    split; intros j Hj; change (S (S (S (next_id w))) <= j)%nat in Hj; [apply V6|apply V7]; simpl; lia. }
  assert (K !! inr rid = None) as Hno.
  { destruct (K !! inr rid) as [k'|] eqn:E; [|done].
    destruct (i_owner _ _ _ _ _ _ _ Hi _ _ E) as (? & ? & _ & _ & Hr & _).
    rewrite I1 in Hr; [done|]. subst rid. simpl. lia. }
  destruct (clear_client_inv w1 _ BL GL K c _ k Hi1 (lookup_insert_eq _ _ _) Hk Hok1 Hnc)
    as (w2 & BL2 & Ew2 & [S1 S2 S3 S4 S5] & Hi2 & Hok2). rewrite Ew2. cbn [mbind outcome_bind].
  rewrite insert_insert_eq in Hi2. apply clear_client_effects in Ew2. apply (safe_eff_from w w2); [done|].
  unfold request_effects.
  assert (k_recv k [] = mkConn (Some g) None None []) as Ek
    by (unfold k_recv; by rewrite Hkg, Hkr, Hkw).
  rewrite Ek in *. rewrite <- S1, <- S2 in Hok2. pose proof (i_view _ _ _ _ _ _ _ Hi2) as Hv2.
  destruct (isUpgrade _) eqn:Eu.
  - change (write_to c cl) with (write_to c (with_recv (with_in_flight cl true) no_recv)).
    eapply (upgrade_safe w2 _ BL2 GL _ c _ g);
      [exact Hi2|apply lookup_insert_eq|apply lookup_insert_eq|done|done|apply Hp|..].
    + rewrite S2. apply I2. simpl. lia.
    + rewrite S3. simpl. lia.
    + rewrite S5. by apply Hup.
  - rewrite (get_client_view _ _ w2 _ _ _ c _ Hv2 (lookup_insert_eq _ _ _)). cbn [mbind outcome_bind].
    cbn [with_recv with_in_flight guard]. rewrite (ck_guard _ _ _ _ _ _ _ Hok), Hkg.
    replace (route_effects w c cl (S (next_id w)) (req_verb q) (req_uri q))
      with (route_effects w2 c (with_recv (with_in_flight cl true) no_recv) rid (req_verb q) (req_uri q))
      by (unfold route_effects; by rewrite S4).
    eapply (respond_safe w2 _ BL2 GL _ c _ g rid);
      [exact Hi2|apply lookup_insert_eq|apply lookup_insert_eq|done..| | |].
    + rewrite S1. apply I1. subst rid. simpl. lia.
    + rewrite S3. simpl. subst rid. simpl. lia.
    + by rewrite lookup_insert_ne.
Qed.

(** The bytes a connection has received and not yet consumed. *)
Definition pending_data c w : list Z :=
  match get_client w c with
  | Ret cl =>
      match flatten_buffer (recv cl) (read_buffers w) (replicate (Z.to_nat (recv_len (recv cl))) 0) with
      | Ret d => d
      | _ => []
      end
  | _ => []
  end.

Lemma pending_data_content w CL BL GL K c cl k : inv w CL BL GL K -> CL !! c = Some cl ->
  conn_ok (responses w) (websockets w) BL GL c cl k -> pending_data c w = content BL (k_bufs k).
Proof.
  intros Hi Hc Hok. pose proof (i_view _ _ _ _ _ _ _ Hi) as Hv. pose proof (ck_recv _ _ _ _ _ _ _ Hok) as Hr.
  unfold pending_data. rewrite (get_client_view _ _ w CL BL GL c cl Hv Hc).
  pose proof (chain_count _ _ _ Hr). pose proof (op_size _ _ _ (v_buffers _ _ _ _ _ _ Hv)).
  pose proof (chain_length_le _ _ _ (ro_chain _ _ _ Hr)). pose proof (ro_bytes _ _ _ Hr).
  rewrite (flatten_buffer_spec _ NB BL _ (k_bufs k)); [done|apply Hv|done|rewrite length_replicate; lia|lia].
Qed.

(** A WebSocket upgrade, if the data is one, names a registered route. *)
Definition upgrade_ok (data : list Z) w : bool :=
  match phr_parse_request false data 100 0 with
  | Ret (_, Some q) =>
      negb (isUpgrade (parseWSUpgrade (upgrade_headers q))) || bool_decide (req_uri q ∈ ws_routes_ w)
  | _ => true
  end.

(** The end a WebSocket frame declares fits 64 bits. *)
Definition frame_ok (data : list Z) : bool :=
  match declared_end data with Some e => e <? 2 ^ 64 | None => true end.

(** What data on an HTTP connection causes. *)
Definition http_effects w c (cl : ClientState) (data : list Z) : list effect :=
  match phr_parse_request false data 100 0 with
  | Ret (_, Some q) => if write_in_flight cl then [] else request_effects w c cl q
  | _ => []
  end.

Lemma process_http_safe w CL BL GL K c cl k p rb w1 : inv w CL BL GL K ->
  K !! inl c = Some k -> st_closed (socket cl) = false -> BL !! p = None ->
  view w1 (<[c := cl]> CL) (<[p := rb]> BL) GL -> same_env w w1 ->
  conn_ok (responses w) (websockets w) BL GL c cl k ->
  rb_ok rb -> rb_next rb = None -> bytes_ok (rb_data rb) -> conn_protocol cl = TYPE_HTTP_1 ->
  upgrade_ok (content BL (k_bufs k) ++ rb_data rb) w = true ->
  effects w1 = effects w ->
  safe_eff w (http_effects w c cl (content BL (k_bufs k) ++ rb_data rb)) (process_http_1_request true p c w1).
Proof.
  intros Hi Hk Hnc Hp Hv Hse Hok Hrb Hnx Hby Hpr Hup Hef. unfold process_http_1_request.
  destruct (receive_data_inv w CL BL GL K c cl k p rb w1 Hi Hk Hnc Hp Hv Hse Hok Hrb Hnx Hby)
    as (w2 & r' & BL' & Ew2 & Hse2 & Hlen & Hi2 & Hok2). rewrite Ew2. cbn [mbind outcome_bind].
  apply receive_data_effects in Ew2. apply (safe_eff_from w w2); [congruence|].
  set (data := content BL (k_bufs k) ++ rb_data rb) in *.
  pose proof (lookup_insert_eq CL c (with_recv cl r')) as Hc2.
  pose proof (lookup_insert_eq K (inl c) (k_recv k (k_bufs k ++ [p]))) as Hk2.
  rewrite <- (se_responses _ _ Hse2), <- (se_websockets _ _ Hse2) in Hok2.
  destruct (phr_parse_request_total false 100 data) as (n & q & Hq & Hn).
  { apply list.Forall_app. split; [apply Hok|done]. }
  { lia. }
  unfold upgrade_ok in Hup. unfold http_effects. rewrite Hq in *. cbn [mbind outcome_bind].
  destruct (n =? -2) eqn:E2.
  { apply Z.eqb_eq in E2. destruct Hn as [[-> _]|[_ ?]]; [|lia]. apply safe_no_eff; [|by intros ? [= <-]].
    apply safe_ret. by do 4 eexists. }
  destruct (n <? 0) eqn:E0; reflect_bools.
  { destruct Hn as [[-> _]|[_ ?]]; [|lia]. apply safe_no_eff; [by eapply close_socket_safe|].
    apply close_socket_effects. }
  destruct Hn as [[-> [? | ?]]|[[q' ->] _]]; [lia..|].
  rewrite (get_client_view _ _ w2 _ _ _ c _ (i_view _ _ _ _ _ _ _ Hi2) Hc2). cbn [mbind outcome_bind].
  change (write_in_flight cl) with (write_in_flight (with_recv cl r')).
  destruct (write_in_flight (with_recv cl r')) eqn:Ef; cbn [orb].
  2: { pose proof (ck_phase _ _ _ _ _ _ _ Hok2) as Hph. cbn [with_recv socket] in Hph. rewrite Hnc in Hph.
       rewrite (co_closing _ _ _ _ _ _ _ Hph).
       replace (request_effects w c cl q') with (request_effects w2 c (with_recv cl r') q')
         by (unfold request_effects, route_effects; by rewrite (se_next _ _ Hse2), (se_routes _ _ Hse2)).
       eapply (dispatch_safe w2); eauto. rewrite (se_ws_routes _ _ Hse2). intros Hu. rewrite Hu in Hup.
       cbn [negb orb] in Hup. by apply bool_decide_eq_true in Hup. }
  destruct (clear_client_inv w2 _ _ _ _ c _ _ Hi2 Hc2 Hk2 Hok2 Hnc)
    as (w3 & BL3 & Ew3 & Hse3 & Hi3 & Hok3). rewrite Ew3. cbn [mbind outcome_bind].
  apply clear_client_effects in Ew3.
  rewrite (get_client_view _ _ w3 _ _ _ c _ (i_view _ _ _ _ _ _ _ Hi3) (lookup_insert_eq _ _ _)).
  cbn [mbind outcome_bind]. rewrite <- (se_responses _ _ Hse3), <- (se_websockets _ _ Hse3) in Hok3.
  apply safe_no_eff; [|intros ? [= <-]; exact Ew3].
  eapply safe_set; [exact Hi3|apply lookup_insert_eq|apply lookup_insert_eq|].
  apply conn_ok_socket; [done| |done]. destruct (ck_stream _ _ _ _ _ _ _ Hok) as [H1 H2].
  split; [|done]. simpl. intros Hcl. by destruct (H1 Hcl) as (? & _ & ?).
Qed.

(** What data on an upgraded connection causes: the text of a complete text frame reaches
    [onMessage]. *)
Definition ws_effects w (cl : ClientState) (data : list Z) : list effect :=
  match activeWs cl with
  | None => []
  | Some i =>
      match websockets w !! i with
      | None => []
      | Some ws =>
          match onMessage (sock_js ws && on_message ws) data (Z.of_nat (length data)) with
          | Ret (rc, Some t) => if rc =? 0 then [] else [JsWsMessage i t]
          | _ => []
          end
      end
  end.

Lemma process_ws_safe w CL BL GL K c cl k p rb w1 : inv w CL BL GL K ->
  K !! inl c = Some k -> st_closed (socket cl) = false -> BL !! p = None ->
  view w1 (<[c := cl]> CL) (<[p := rb]> BL) GL -> same_env w w1 ->
  conn_ok (responses w) (websockets w) BL GL c cl k ->
  rb_ok rb -> rb_next rb = None -> bytes_ok (rb_data rb) -> conn_protocol cl = TYPE_WEB_SOCKET ->
  frame_ok (content BL (k_bufs k) ++ rb_data rb) = true ->
  effects w1 = effects w ->
  safe_eff w (ws_effects w cl (content BL (k_bufs k) ++ rb_data rb)) (process_web_socket_request p c w1).
Proof.
  intros Hi Hk Hnc Hp Hv Hse Hok Hrb Hnx Hby Hpr Hfr Hef. unfold process_web_socket_request.
  rewrite (get_client_view _ _ w1 _ _ _ c cl Hv (lookup_insert_eq _ _ _)). cbn [mbind outcome_bind].
  destruct (receive_data_inv w CL BL GL K c cl k p rb w1 Hi Hk Hnc Hp Hv Hse Hok Hrb Hnx Hby)
    as (w2 & r' & BL' & Ew2 & Hse2 & Hlen & Hi2 & Hok2). rewrite Ew2. cbn [mbind outcome_bind].
  apply receive_data_effects in Ew2. apply (safe_eff_from w w2); [congruence|].
  set (data := content BL (k_bufs k) ++ rb_data rb) in *.
  pose proof (ck_phase _ _ _ _ _ _ _ Hok) as Hph. rewrite Hnc in Hph.
  destruct (co_proto _ _ _ _ _ _ _ Hph) as [[Hh _]|(_ & _ & i & ws & Hki & Hws & Hs & _)];
    [by rewrite Hpr in Hh|].
  unfold ws_effects. rewrite (ck_ws _ _ _ _ _ _ _ Hok), Hki, (se_websockets _ _ Hse2), Hws, Hs. cbn [andb].
  destruct (onMessage_total (on_message ws) data) as (rc & text & ->).
  { apply list.Forall_app. split; [apply Hok|done]. }
  { unfold frame_ok in Hfr. destruct (declared_end data); simpl; [by apply Z.ltb_lt|done]. }
  { lia. }
  cbn [mbind outcome_bind]. destruct (rc =? 0).
  { assert (safe_eff w2 [] (Ret w2)); [|by destruct text].
    apply safe_no_eff; [|by intros ? [= <-]]. apply safe_ret. by do 4 eexists. }
  cbn [negb].
  set (w3 := match text with None => w2 | Some t => _ end).
  assert (view w3 (<[c := with_recv cl r']> CL) BL' GL /\ same_env w2 w3) as [Hv3 Hse3].
  { subst w3. destruct (i_view _ _ _ _ _ _ _ Hi2). by destruct text. }
  assert (inv w3 (<[c := with_recv cl r']> CL) BL' GL (<[inl c := k_recv k (k_bufs k ++ [p])]> K)) as Hi3.
  { destruct Hi2 as [_ I2 I3 I4 I5 I6 I7]. pose proof Hse3 as [E1 E2 _ E4 _].
    split; rewrite ?E1, ?E2, ?E4; try done. by eapply same_env_ids. }
  destruct (clear_client_inv w3 _ _ _ _ c (with_recv cl r') (k_recv k (k_bufs k ++ [p])) Hi3)
    as (w4 & BL4 & Ew4 & _ & Hi4 & _); [apply lookup_insert_eq..| |done|].
  - by rewrite (se_responses _ _ Hse3), (se_websockets _ _ Hse3), (se_responses _ _ Hse2), (se_websockets _ _ Hse2).
  - rewrite Ew4. apply clear_client_effects in Ew4. exists w4. split; [done|]. split; [by do 4 eexists|].
    rewrite Ew4. subst w3. destruct text; [done|]. by rewrite app_nil_r.
Qed.

Context (zero_buffer : @op_zero BP ReadBuffer OB = mkRB (replicate 256 0) 0 None).

(** What may arrive on a connection: at most 256 bytes, or an error of [read]. *)
Definition read_ok (k : kread) c w : Prop :=
  match k with
  | KData data =>
      (1 <= length data <= 256)%nat /\ bytes_ok data /\
      match get_client w c with
      | Ret cl => if conn_protocol cl =? TYPE_HTTP_1 then upgrade_ok (pending_data c w ++ data) w = true
                  else frame_ok (pending_data c w ++ data) = true
      | _ => False
      end
  | KAgain | KEof => True
  | KErr e => e < 0 /\ e <> UV_ENOBUFS
  end.

(** The buffer [on_alloc_buffer_cb] took goes back and the connection is closed. *)
Lemma read_failed_safe w CL BL GL K c cl k p w1 s : inv w CL BL GL K -> CL !! c = Some cl ->
  K !! inl c = Some k -> conn_ok (responses w) (websockets w) BL GL c cl k ->
  stream_ok s -> st_closed s = st_closed (socket cl) -> BL !! p = None ->
  view w1 (<[c := with_socket cl s]> CL) (<[p := op_zero]> BL) GL -> same_env w w1 ->
  safe (w2 ← release_read_buffer (Some p) w1; close_socket c w2).
Proof.
  intros Hi Hc Hk Hok Hs Hsc Hp Hv Hse. unfold release_read_buffer.
  destruct (op_release_repr _ _ _ p (v_buffers _ _ _ _ _ _ Hv)) as (bp & -> & Hr);
    [rewrite lookup_insert_eq; by eexists|]. cbn [mbind outcome_bind].
  rewrite delete_insert_id in Hr by done.
  assert (inv (with_buffers w1 bp) (<[c := with_socket cl s]> CL) BL GL K) as Hi2.
  { rewrite <- (insert_id K (inl c) k Hk). destruct Hse as [E1 E2 E3 E4 _].
    eapply (inv_conn _ _ w CL BL GL K c k); try done;
      cbn [with_buffers responses websockets routes_]; rewrite ?E1, ?E2; try done.
    - split; [apply Hv|done|apply Hv].
    - destruct (i_ids _ _ _ _ _ _ _ Hi) as [I1 I2]. unfold ids_ok. simpl. by rewrite E1, E2, E3.
    - by apply conn_ok_socket.
    - auto. }
  eapply close_socket_safe; [exact Hi2|apply lookup_insert_eq].
Qed.

Lemma fill_buffer_view bp m p data : op_repr bp NB (<[p := op_zero]> m) -> (length data <= 256)%nat ->
  exists bp' rb, fill_buffer p data bp = Ret bp' /\ op_repr bp' NB (<[p := rb]> m) /\
    rb_ok rb /\ rb_next rb = None /\ rb_data rb = data.
Proof.
  intros Hr Hl. rewrite zero_buffer in Hr. unfold fill_buffer.
  rewrite (deref_repr bp NB _ p _ Hr (lookup_insert_eq _ _ _)). cbn [mbind outcome_bind read_buffer].
  rewrite length_replicate, (proj2 (Nat.leb_le _ _)) by done. cbn [rb_next].
  do 2 eexists. split; [done|]. split.
  { eapply op_set_repr in Hr; [|rewrite lookup_insert_eq; by eexists]. by rewrite insert_insert_eq in Hr. }
  unfold rb_ok, rb_data. cbn [read_buffer rb_len rb_next]. split_and!; [|lia|lia|done|].
  - rewrite length_app, length_drop, length_replicate. lia.
  - by rewrite Nat2Z.id, take_app_length.
Qed.

Lemma timer_again_closing t : tm_closing (uv_timer_again t) = tm_closing t.
Proof. unfold uv_timer_again, uv_timer_start, uv_timer_stop. simpl. by destruct (tm_closing t) eqn:E. Qed.

Lemma stream_ended_ok eof s : stream_ok s -> stream_ok (stream_ended eof s) /\ st_closed (stream_ended eof s) = st_closed s.
Proof.
  intros [H1 H2]. destruct eof; (split; [|done]); (split; simpl; [|done]);
    intros Hc; by destruct (H1 Hc) as (? & ? & ?).
Qed.

Definition data_effects w c (cl : ClientState) (data : list Z) : list effect :=
  if conn_protocol cl =? TYPE_HTTP_1 then http_effects w c cl data else ws_effects w cl data.

(** Data on a connection that is being read. *)
Lemma data_safe w CL BL GL K c cl k p rb w1 data : inv w CL BL GL K -> CL !! c = Some cl ->
  K !! inl c = Some k -> conn_ok (responses w) (websockets w) BL GL c cl k ->
  st_closed (socket cl) = false -> BL !! p = None -> view w1 CL (<[p := rb]> BL) GL -> same_env w w1 ->
  rb_ok rb -> rb_next rb = None -> rb_data rb = data -> read_ok (KData data) c w ->
  effects w1 = effects w ->
  safe_eff w (data_effects w c cl (pending_data c w ++ data))
    (on_read_cb true (Z.of_nat (length data)) (Some p) c w1).
Proof.
  intros Hi Hc Hk Hok Hnc Hp Hv Hse Hrb Hnx <- (Hlen & Hby & Hrd) Hef. unfold on_read_cb, data_effects.
  rewrite (get_client_view _ _ w CL BL GL c cl (i_view _ _ _ _ _ _ _ Hi) Hc) in Hrd.
  rewrite (pending_data_content w CL BL GL K c cl k Hi Hc Hok) in Hrd |- *.
  rewrite (get_client_view _ _ w1 CL _ GL c cl Hv Hc). cbn [mbind outcome_bind].
  rewrite (proj2 (Z.ltb_lt 0 _)) by lia.
  set (cl1 := with_timer cl _). set (w2 := set_client c cl1 w1).
  assert (conn_ok (responses w) (websockets w) BL GL c cl1 k) as Hok1.
  { apply conn_ok_timer; [done|]. apply timer_again_closing. }
  assert (view w2 (<[c := cl1]> CL) (<[p := rb]> BL) GL) as Hv2 by (apply set_client_view; [done|by eexists]).
  assert (same_env w w2) as Hse2 by (destruct Hse; by split).
  change (conn_protocol cl) with (conn_protocol cl1) in *.
  change (http_effects w c cl) with (http_effects w c cl1). change (ws_effects w cl) with (ws_effects w cl1).
  destruct (conn_protocol cl1 =? TYPE_HTTP_1) eqn:Epr.
  - eapply (process_http_safe w CL BL GL K c cl1 k p rb w2); eauto. by apply Z.eqb_eq.
  - pose proof (ck_phase _ _ _ _ _ _ _ Hok1) as Hph. change (socket cl1) with (socket cl) in Hph.
    rewrite Hnc in Hph. destruct (co_proto _ _ _ _ _ _ _ Hph) as [[Hh _]|[Hh _]].
    { rewrite Hh in Epr. done. }
    rewrite Hh. change (TYPE_WEB_SOCKET =? TYPE_WEB_SOCKET) with true. cbv iota.
    eapply (process_ws_safe w CL BL GL K c cl1 k p rb w2); eauto.
Qed.

(** A read that gave no data: the buffer is released and the connection closed. *)
Lemma read_error_safe w CL BL GL K c cl k p w1 s n : inv w CL BL GL K -> CL !! c = Some cl ->
  K !! inl c = Some k -> conn_ok (responses w) (websockets w) BL GL c cl k -> BL !! p = None ->
  stream_ok s /\ st_closed s = st_closed (socket cl) ->
  view w1 (<[c := with_socket cl s]> CL) (<[p := op_zero]> BL) GL -> same_env w w1 ->
  n <= 0 -> n <> UV_ENOBUFS -> safe (on_read_cb true n (Some p) c w1).
Proof.
  intros Hi Hc Hk Hok Hp [Hs Hsc] Hv Hse Hn Hne. unfold on_read_cb.
  rewrite (get_client_view _ _ w1 _ _ _ c _ Hv (lookup_insert_eq _ _ _)). cbn [mbind outcome_bind].
  rewrite (proj2 (Z.ltb_ge 0 n)), (proj2 (Z.eqb_neq n UV_ENOBUFS)) by done.
  destruct (n =? UV_EOF); eapply (read_failed_safe w CL BL GL K c cl k p w1 s); eauto.
Qed.

(** No buffer left: the connection is closed. *)
Lemma no_buffer_safe w CL BL GL K c cl : inv w CL BL GL K -> CL !! c = Some cl ->
  safe (on_read_cb true UV_ENOBUFS None c w).
Proof.
  intros Hi Hc. unfold on_read_cb.
  rewrite (get_client_view _ _ w CL BL GL c cl (i_view _ _ _ _ _ _ _ Hi) Hc). cbn [mbind outcome_bind].
  change (0 <? UV_ENOBUFS) with false. change (UV_ENOBUFS =? UV_EOF) with false.
  change (UV_ENOBUFS =? UV_ENOBUFS) with true. by eapply close_socket_safe.
Qed.

(** What one read causes; with no buffer left, nothing. *)
Definition read_effects (kr : kread) c w : list effect :=
  match kr, op_acquire (read_buffers w), op_get (clients w) c with
  | KData data, Ret (Some _, _), Some cl => data_effects w c cl (pending_data c w ++ data)
  | _, _, _ => []
  end.

Lemma release_read_buffer_effects b w w' : release_read_buffer b w = Ret w' -> effects w' = effects w.
Proof.
  unfold release_read_buffer. destruct b; [|done]. intros H. ret_inv H bp E. by injection H as <-.
Qed.

Lemma on_read_error_effects sync n b c w w' : n <= 0 -> on_read_cb sync n b c w = Ret w' ->
  effects w' = effects w.
Proof.
  intros Hn H. unfold on_read_cb in H. ret_inv H cl E. rewrite (proj2 (Z.ltb_ge 0 n)) in H by done.
  destruct (n =? UV_EOF); [|destruct (n =? UV_ENOBUFS); [by eapply close_socket_effects|]];
    ret_inv H w1 E1; apply close_socket_effects in H; apply release_read_buffer_effects in E1; congruence.
Qed.

Lemma read_once_safe w CL BL GL K c cl kr : inv w CL BL GL K -> CL !! c = Some cl ->
  st_reading (socket cl) = true -> read_ok kr c w ->
  exists w' more, read_once true kr c w = Ret (w', more) /\ Inv w' /\
    effects w' = effects w ++ read_effects kr c w.
Proof.
  intros Hi Hc Hrd Hok. destruct (inv_client _ _ w CL BL GL K c cl Hi Hc) as (k & Hk & Hck).
  pose proof (i_view _ _ _ _ _ _ _ Hi) as Hv. destruct (ck_stream _ _ _ _ _ _ _ Hck) as [Hs1 Hs2].
  assert (st_closed (socket cl) = false) as Hnc.
  { destruct (st_closed (socket cl)); [|done]. destruct (Hs1 (Hs2 eq_refl)) as (_ & ? & _). congruence. }
  unfold read_once, on_alloc_buffer_cb, read_effects. rewrite (get_client_view _ _ w CL BL GL c cl Hv Hc).
  cbn [mbind outcome_bind]. destruct (decide (size BL = NB)) as [Hf|Hf].
  { rewrite (op_acquire_full _ _ _ (v_buffers _ _ _ _ _ _ Hv) Hf). cbn [mbind outcome_bind].
    replace (with_buffers w (read_buffers w)) with w by (by destruct w).
    destruct (no_buffer_safe w CL BL GL K c cl Hi Hc) as (w' & Ew & Hinv). rewrite Ew. cbn [mbind outcome_bind].
    do 2 eexists. split; [done|]. split; [done|].
    rewrite (on_read_error_effects _ UV_ENOBUFS _ _ _ _ ltac:(done) Ew). destruct kr; by rewrite app_nil_r. }
  rewrite (op_get_repr _ _ _ _ (v_clients _ _ _ _ _ _ Hv)), Hc.
  destruct (op_acquire_free _ _ _ (v_buffers _ _ _ _ _ _ Hv) Hf) as (p & bp & -> & Hp & Hbp).
  cbn [mbind outcome_bind]. set (w1 := with_buffers w bp).
  assert (view w1 CL (<[p := op_zero]> BL) GL) as Hv1 by (split; [apply Hv|done|apply Hv]).
  assert (same_env w w1) as Hse1 by by split.
  assert (view w1 (<[c := with_socket cl (socket cl)]> CL) (<[p := op_zero]> BL) GL) as Hv1'.
  { replace (with_socket cl (socket cl)) with cl by (by destruct cl). by rewrite insert_id. }
  destruct kr as [data| | |e].
  - destruct (fill_buffer_view bp BL p data Hbp) as (bp' & rb & Hfb & Hr' & Hrb & Hnx & Hd); [apply Hok|].
    change (read_buffers w1) with bp. rewrite Hfb. cbn [mbind outcome_bind].
    destruct (data_safe w CL BL GL K c cl k p rb (with_buffers w1 bp') data) as (w' & -> & Hinv & Hef); try done.
    + split; [apply Hv|done|apply Hv].
    + cbn [mbind outcome_bind]. eauto 6.
  - destruct (read_error_safe w CL BL GL K c cl k p w1 (socket cl) 0) as (w' & Ew & Hinv); try done.
    rewrite Ew. cbn [mbind outcome_bind]. do 2 eexists. split; [done|]. split; [done|].
    rewrite app_nil_r. by apply (on_read_error_effects _ 0 _ _ _ _ ltac:(done) Ew).
  - rewrite (get_client_view _ _ w1 _ _ _ c _ Hv1 Hc). cbn [mbind outcome_bind].
    edestruct (read_error_safe w CL BL GL K c cl k p (set_client c (with_socket cl (stream_ended true (socket cl))) w1)
      (stream_ended true (socket cl)) UV_EOF) as (w' & Ew & Hinv);
      [done..|by apply stream_ended_ok|apply set_client_view; [exact Hv1|by eexists]|by split|done|done|].
    rewrite Ew. cbn [mbind outcome_bind]. do 2 eexists. split; [done|]. split; [done|].
    rewrite app_nil_r. by apply (on_read_error_effects _ UV_EOF _ _ _ _ ltac:(done) Ew).
  - rewrite (get_client_view _ _ w1 _ _ _ c _ Hv1 Hc). cbn [mbind outcome_bind].
    destruct Hok as [He1 He2].
    edestruct (read_error_safe w CL BL GL K c cl k p (set_client c (with_socket cl (stream_ended false (socket cl))) w1)
      (stream_ended false (socket cl)) e) as (w' & Ew & Hinv);
      [done..|by apply stream_ended_ok|apply set_client_view; [exact Hv1|by eexists]|by split|lia|done|].
    rewrite Ew. cbn [mbind outcome_bind]. do 2 eexists. split; [done|]. split; [done|].
    rewrite app_nil_r. by apply (on_read_error_effects _ e _ _ _ _ ltac:(lia) Ew).
Qed.

(** ** Calls from JavaScript *)

(** The headers of a response leave room for the fixed part of the head. *)
Definition end_ok (body : list Z) (r : nat) w : Prop :=
  match responses w !! r with
  | None => False
  | Some res =>
      let t := set_body body (r_text res) in
      response_len t < 2 ^ 31 /\ (header_size t = 0 \/ header_room t < 256)
  end.

(** The bytes of a response ended with [body]. *)
Definition end_bytes (body : list Z) (res : Response) : list Z :=
  head_text (set_body body (r_text res)) ++ cstr body.

Lemma end_sends body res : resp_ok (r_text res) ->
  (let t := set_body body (r_text res) in response_len t < 2 ^ 31 /\ (header_size t = 0 \/ header_room t < 256)) ->
  send_bytes (stack_buffer (set_body body (r_text res))) (set_body body (r_text res)) = Ret (end_bytes body res).
Proof.
  clear small_pool. intros Hro [Hl Hroom]. set (t := set_body body (r_text res)) in *.
  assert (resp_ok t) as Ht by (destruct Hro; by split).
  assert (Z.of_nat (length (stack_buffer t)) = header_size t + 256) as Hst.
  { unfold stack_buffer. rewrite length_replicate. destruct Ht as [_ _ Hsz _].
    pose proof (value_sizes_nonneg (resp_hdrs t)). lia. }
  change (end_bytes body res) with (head_text t ++ response_buffer t).
  destruct (decide (header_size t = 0)) as [H0|H0]; [apply send_default; done || lia|].
  apply send_custom; done || lia.
Qed.

Lemma js_end_safe w CL BL GL K body r res : inv w CL BL GL K -> responses w !! r = Some res ->
  end_ok body r w ->
  exists w', js_end true true body r w = Ret w' /\ Inv w' /\
    effects w' = effects w ++ answer w res (end_bytes body res) /\ responses w' = delete r (responses w).
Proof.
  intros Hi Hr Hok. unfold end_ok in Hok. unfold js_end, get_response. rewrite Hr in *.
  cbn [mbind outcome_bind negb].
  assert (res_ok res) as [Hro _].
  { destruct (resp_owner w CL BL GL K r res Hi Hr) as [(? & ? & ?)|?]; naive_solver. }
  eapply send_safe; [done|done|]. by apply end_sends.
Qed.

Definition header_ok_for (v : list Z) (r : nat) w : Prop :=
  match responses w !! r with
  | None => False
  | Some res => header_size (r_text res) + Z.of_nat (length (cstr v)) < 2 ^ 30
  end.

(** A response's text changes; its owner keeps it. *)
Lemma inv_put_response w CL BL GL K r res t : inv w CL BL GL K -> responses w !! r = Some res ->
  resp_ok t -> is_static t = false -> Inv (put_response r (with_text res t) w).
Proof.
  intros Hi Hr Ht Hst. exists CL, BL, GL, K. destruct Hi as [V1 V2 V3 V4 V5 [I1 I2] V7].
  assert (forall x, is_Some (at_ (<[r := with_text res t]> (responses w)) (websockets w) BL GL x) ->
    is_Some (at_ (responses w) (websockets w) BL GL x)) as Hat.
  { intros [g|r'|i|b]; simpl; try done. rewrite !fmap_is_Some. destruct (decide (r' = r)) as [->|];
      [intros _; by eexists|by rewrite lookup_insert_ne]. }
  split; cbn [put_response with_responses responses websockets routes_]; try done.
  - destruct V1. by split.
  - intros [c|r'] k Hk; specialize (V2 _ _ Hk); simpl in *.
    + destruct V2 as (cl & Hc & [K1 K2 K3 K4 K5 K6 K7]). exists cl. split; [done|]. split; try done.
      destruct (st_closed (socket cl)); [done|]. destruct K7 as [O1 O2 O3 O4 O5 O6]. split; try done.
      intros r' Hr'. destruct (O6 r' Hr') as (Hf & res' & Hres & Hcl & Hg & Hrok). split; [done|].
      destruct (decide (r' = r)) as [->|]; [|rewrite lookup_insert_ne by done; by exists res'].
      rewrite lookup_insert_eq. eexists. split; [done|]. rewrite Hr in Hres. injection Hres as <-. done.
    + destruct V2 as (g & res' & -> & Hg & Hres & Hrg & Hrok). exists g.
      destruct (decide (r' = r)) as [->|]; [|rewrite lookup_insert_ne by done; by exists res'].
      rewrite lookup_insert_eq. eexists. split_and!; try done. rewrite Hr in Hres. by injection Hres as <-.
  - intros x Hx. by apply V4, Hat.
  - split; [|done]. intros j Hj. simpl in *. rewrite lookup_insert_ne; [by apply I1|].
    intros <-. rewrite I1 in Hr by done. done.
Qed.

Lemma js_set_header_safe w CL BL GL K pos key v r : inv w CL BL GL K -> header_ok_for v r w ->
  safe (js_set_header pos key v r w).
Proof.
  intros Hi Hok. unfold header_ok_for in Hok. unfold js_set_header, get_response.
  destruct (responses w !! r) as [res|] eqn:Hr; [|done]. cbn [mbind outcome_bind]. apply safe_ret.
  assert (res_ok res) as [Hro Hst].
  { destruct (resp_owner w CL BL GL K r res Hi Hr) as [(? & ? & ?)|?]; naive_solver. }
  eapply (inv_put_response w CL BL GL K r res); [done|done|by apply set_header_ok|done].
Qed.

(** The connection of a live WebSocket. *)
Lemma ws_owner w CL BL GL K i ws : inv w CL BL GL K -> websockets w !! i = Some ws ->
  exists cl k, CL !! ws_cli ws = Some cl /\ K !! inl (ws_cli ws) = Some k /\
    conn_ok (responses w) (websockets w) BL GL (ws_cli ws) cl k /\ k_ws k = Some i /\
    st_closed (socket cl) = false /\ conn_protocol cl = TYPE_WEB_SOCKET /\ k_resp k = None /\ sock_js ws = true.
Proof.
  intros Hi Hw. destruct (i_complete _ _ _ _ _ _ _ Hi (RWs i)) as (o & k & Hk & Hx).
  { simpl. rewrite Hw. by eexists. }
  simpl in Hx. pose proof (i_owner _ _ _ _ _ _ _ Hi o k Hk) as Ho. destruct o as [c|r'].
  - destruct Ho as (cl & Hc & Hok). pose proof (ck_phase _ _ _ _ _ _ _ Hok) as Hp.
    destruct (st_closed (socket cl)) eqn:Ec; [destruct Hp as [_ _ _ _ ->]; done|].
    destruct (co_proto _ _ _ _ _ _ _ Hp) as [[_ ?]|(Hpr & Hrs & i' & ws' & Hi' & Hw' & Hs & Hc')]; [congruence|].
    rewrite Hx in Hi'. injection Hi' as <-. rewrite Hw in Hw'. injection Hw' as <-. subst c.
    by exists cl, k.
  - destruct Ho as (g & res' & -> & _). done.
Qed.

Lemma js_ws_send_safe w CL BL GL K text i : inv w CL BL GL K -> is_Some (websockets w !! i) ->
  safe (js_ws_send true text i w).
Proof.
  intros Hi [ws Hw]. unfold js_ws_send. rewrite Hw.
  destruct (ws_owner w CL BL GL K i ws Hi Hw) as (cl & k & Hc & _).
  pose proof (i_view _ _ _ _ _ _ _ Hi) as Hv.
  rewrite (get_client_view _ _ w CL BL GL _ cl Hv Hc). cbn [mbind outcome_bind negb].
  destruct (_ <? 0); apply safe_ret; [by exists CL, BL, GL, K|].
  eapply inv_same; [exact Hi|destruct Hv; by split|by split].
Qed.

Lemma js_ws_handlers_safe w CL BL GL K m cls i : inv w CL BL GL K -> is_Some (websockets w !! i) ->
  safe (js_ws_handlers m cls i w).
Proof.
  intros Hi [ws Hw]. unfold js_ws_handlers. rewrite Hw. apply safe_ret.
  destruct (ws_owner w CL BL GL K i ws Hi Hw) as (cl & k & Hc & Hk & Hok & Hki & Hnc & Hpr & Hrs & Hs).
  exists (<[ws_cli ws := cl]> CL), BL, GL, (<[inl (ws_cli ws) := k]> K).
  eapply (inv_conn _ _ w CL BL GL K (ws_cli ws) k); try done; cbn [with_websockets responses websockets].
  - rewrite (insert_id CL) by done. destruct (i_view _ _ _ _ _ _ _ Hi). by split.
  - destruct (i_ids _ _ _ _ _ _ _ Hi) as [I1 I2]. split; simpl; [done|]. intros j Hj.
    rewrite lookup_insert_ne; [by apply I2|]. intros <-. rewrite I2 in Hw by done. done.
  - destruct Hok as [K1 K2 K3 K4 K5 K6 K7]. split; try done. rewrite Hnc in *.
    destruct K7 as [O1 O2 O3 O4 O5 O6]. split; try done. right. split_and!; [done|done|].
    eexists i, _. by rewrite lookup_insert_eq.
  - by left.
  - intros x Hn _. destruct x as [| |j|]; try done. simpl in *.
    rewrite lookup_insert_ne; [done|]. congruence.
Qed.

Lemma routes_safe w CL BL GL K rt wrt : inv w CL BL GL K ->
  map_Forall (fun _ h => route_ok h) rt -> Inv (with_routes w rt wrt).
Proof.
  intros [V1 V2 V3 V4 V5 V6 V7] Hr. exists CL, BL, GL, K. split; try done. destruct V1. by split.
Qed.

End Steps.
