(* ===== verification/ServerSafety.v ===== *)
(** The server as a whole: the events that the event loop, the peers and scripts cause, what the
    code relies on when it handles them, the states they lead to, and what holds there. *)

From S2P Require Import Prelude CString MemPool ObjectPool HttpParser HttpMessage ClientOps Ws Util Server ServerInv ServerSteps.

Section Safety.
Context {CP BP GP : Type} `{OC : ObjectPool CP ClientState} `{OB : ObjectPool BP ReadBuffer}
  `{OG : ObjectPool GP ConnGuard}.
Abbreviation server := (Server CP BP GP).
Implicit Types (w : server) (c : Z).

(** What libuv promises of the callbacks it makes: a read brings 1 to 256 bytes, nothing, the end or
    an error to a connection that is reading, and the other callbacks come to handles they were
    asked for. *)
Definition from_libuv (e : event) w : Prop :=
  match e with
  | EvRead _ k c =>
      match k with
      | KData data => (1 <= length data <= 256)%nat /\ bytes_ok data
      | KErr n => n < 0 /\ n <> UV_ENOBUFS
      | KAgain | KEof => True
      end /\ exists cl, op_get (clients w) c = Some cl /\ st_reading (socket cl) = true
  | EvWritten c | EvIdle c => is_Some (op_get (clients w) c)
  | EvShutdown c => exists cl, op_get (clients w) c = Some cl /\ shutdown_req cl = true
  | EvSocketClosed c => exists cl, op_get (clients w) c = Some cl /\
      st_closing (socket cl) = true /\ st_closed (socket cl) = false
  | EvTimerClosed c => exists cl, op_get (clients w) c = Some cl /\ tm_closing (idle_timer cl) = true
  | _ => True
  end.

(** What a script must respect: it uses responses that it has not ended and WebSockets that are not
    gone, and serves files with an extension and below 2 GiB. *)
Definition script_ok (e : event) w : Prop :=
  match e with
  | JsEnd _ _ _ r | JsSetHeader _ _ _ r => is_Some (responses w !! r)
  | JsWsSend _ _ i | JsWsHandlers _ _ i => is_Some (websockets w !! i)
  | JsRoute _ h => route_ok h
  | _ => True
  end.

(** What the code relies on without checking it. The kernel takes every write at once: buffers on
    the stack are passed to [uv_write]. *)
Definition taken_at_once (e : event) : Prop :=
  match e with EvRead sync _ _ | JsEnd _ sync _ _ | JsWsSend sync _ _ => sync = true | _ => True end.
(** [res.end] finds memory: without it the connection is shut down and closed unasked. *)
Definition memory_left (e : event) : Prop := match e with JsEnd malloc_ok _ _ _ => malloc_ok = true | _ => True end.
(** A peer asks for a WebSocket only on a target with a WebSocket route, and the end of a frame that
    its header declares is below 2^64. *)
Definition peer_ok (e : event) w : Prop :=
  match e with
  | EvRead _ (KData data) c =>
      match get_client w c with
      | Ret cl => if conn_protocol cl =? TYPE_HTTP_1 then upgrade_ok (pending_data c w ++ data) w = true
                  else frame_ok (pending_data c w ++ data) = true
      | _ => False
      end
  | _ => True
  end.
(** The head of a response fits the 256 bytes reserved beyond the header values, and the lengths fit
    an [int]. *)
Definition texts_fit (e : event) w : Prop :=
  match e with JsEnd _ _ body r => end_ok body r w | JsSetHeader _ _ v r => header_ok_for v r w | _ => True end.

Definition allowed (e : event) w : Prop :=
  from_libuv e w /\ script_ok e w /\ taken_at_once e /\ memory_left e /\ peer_ok e w /\ texts_fit e w.

(** The states a server with [NC] clients and guards and [NB] buffers can get into. *)
Inductive reachable (NC NB : nat) : server -> Prop :=
| reach_start cp bp gp : op_repr cp NC ∅ -> op_repr bp NB ∅ -> op_repr gp NC ∅ ->
    reachable NC NB (start cp bp gp)
| reach_step w e w' : reachable NC NB w -> allowed e w -> handle e w = Ret w' ->
    reachable NC NB w'.

Context (zero_client : @op_zero CP ClientState OC = memset 0).
Context (zero_buffer : @op_zero BP ReadBuffer OB = memset 0).
Context (NC NB : nat) (small_pool : Z.of_nat NB * 256 < 2 ^ 31).

Lemma start_inv cp bp gp : op_repr cp NC ∅ -> op_repr bp NB ∅ -> op_repr gp NC ∅ ->
  Inv NC NB (start cp bp gp).
Proof.
  intros Hc Hb Hg. exists ∅, ∅, ∅, ∅. split; try done.
  - intros c Hs. rewrite lookup_empty in Hs. by destruct Hs.
  - intros x Hs. destruct x; simpl in Hs; rewrite lookup_empty in Hs; by destruct Hs.
  - intros o1 o2 x (k & Hk & _). by rewrite lookup_empty in Hk.
Qed.

Lemma handle_safe e w : Inv NC NB w -> allowed e w -> safe NC NB (handle e w).
Proof.
  intros (CL & BL & GL & K & Hi) Ha. pose proof (i_view _ _ _ _ _ _ _ Hi) as Hv.
  assert (forall c cl, op_get (clients w) c = Some cl -> CL !! c = Some cl) as Hget.
  { intros c cl He. by rewrite (op_get_repr _ _ _ _ (v_clients _ _ _ _ _ _ Hv)) in He. }
  destruct e as [st acc nm|sync k c|c|c|c|c|c|ok sync body r|pos k v r|sync text i|m cl i|uri h|uri];
    destruct Ha as (Hlib & Hsc & Hsy & Hme & Hpe & Hte);
    cbn [from_libuv script_ok taken_at_once memory_left peer_ok texts_fit handle] in *.
  - by eapply connect_safe.
  - subst sync. destruct Hlib as (Hr & cl & Hcl & Hrd). assert (read_ok k c w) by (destruct k; naive_solver).
    destruct (read_once_safe NC NB zero_client small_pool zero_buffer w CL BL GL K c cl k Hi) as (w' & more & -> & Hinv & _);
      [by apply Hget|done|done|]. by exists w'.
  - destruct Hlib as [cl Hcl]. eapply write_done_safe; [exact Hi|by apply Hget].
  - destruct Hlib as (cl & Hcl & Hs). apply Hget in Hcl.
    destruct (inv_client _ _ w CL BL GL K c cl Hi Hcl) as (k & _ & Hok).
    pose proof (ck_shutdown _ _ _ _ _ _ _ Hok). congruence.
  - destruct Hlib as [cl Hcl]. eapply close_socket_safe; [exact Hi|by apply Hget].
  - destruct Hlib as (cl & Hcl & H1 & H2). eapply finish_close_safe; [exact Hi|by apply Hget|done|done].
  - destruct Hlib as (cl & Hcl & Ht). eapply timer_closed_safe; [exact Hi|by apply Hget|done].
  - subst ok sync. destruct Hsc as [res Hr]. destruct (js_end_safe NC NB w CL BL GL K body r res Hi Hr Hte) as (w' & -> & Hinv & _). by exists w'.
  - by eapply js_set_header_safe.
  - subst sync. by eapply js_ws_send_safe.
  - by eapply js_ws_handlers_safe.
  - apply safe_ret. eapply routes_safe; [exact Hi|]. apply map_Forall_insert_2; [done|apply Hi].
  - apply safe_ret. eapply routes_safe; [exact Hi|apply Hi].
Qed.

Lemma server_reachable_inv w : reachable NC NB w -> Inv NC NB w.
Proof.
  induction 1 as [cp bp gp|w e w' _ IH Ha He]; [by apply start_inv|].
  destruct (handle_safe e w IH Ha) as (w'' & He' & Hinv). congruence.
Qed.


(** ** Resources *)

Lemma no_leaks w : reachable NC NB w -> (forall c, op_get (clients w) c = None) -> responses w = ∅ ->
  view NC NB w ∅ ∅ ∅ /\ websockets w = ∅.
Proof.
  intros Hr Hno Hresp. destruct (server_reachable_inv w Hr) as (CL & BL & GL & K & Hi).
  pose proof (i_view _ _ _ _ _ _ _ Hi) as [Hc Hb Hg].
  assert (forall c, CL !! c = None) as HC.
  { intros c. by rewrite <- (op_get_repr _ _ _ _ Hc). }
  assert (forall x, at_ (responses w) (websockets w) BL GL x = None) as Hn.
  { intros x. destruct (at_ _ _ _ _ x) as [v|] eqn:Ex; [|done].
    destruct (i_complete _ _ _ _ _ _ _ Hi x) as ([c|r] & k & Hk & _); [by eexists| |].
    - destruct (i_owner _ _ _ _ _ _ _ Hi _ _ Hk) as (cl & Hcl & _). by rewrite HC in Hcl.
    - destruct (i_owner _ _ _ _ _ _ _ Hi _ _ Hk) as (g & res & _ & _ & Hres & _).
      by rewrite Hresp, lookup_empty in Hres. }
  assert (CL = ∅ /\ BL = ∅ /\ GL = ∅ /\ websockets w = ∅) as (-> & -> & -> & ->); [|by repeat split].
  split_and!; apply map_eq; intros i; rewrite lookup_empty.
  - apply HC.
  - specialize (Hn (RBuf i)). by apply fmap_None in Hn.
  - specialize (Hn (RGuard i)). by apply fmap_None in Hn.
  - specialize (Hn (RWs i)). by apply fmap_None in Hn.
Qed.

(** Who holds a live guard. *)
Lemma guard_owner w CL BL GL K g gd : inv NC NB w CL BL GL K -> GL !! g = Some gd ->
  exists o k, K !! o = Some k /\ k_guard k = Some g /\
    (forall r, k_resp k = Some r <-> exists res, responses w !! r = Some res /\ r_guard res = g) /\
    match o with
    | inl c => gd = mkGuard true (1 + resp_refs k) /\
               exists cl, CL !! c = Some cl /\ guard cl = Some g
    | inr r => gd = mkGuard false 1 /\ k_resp k = Some r
    end.
Proof.
  intros Hi Hgd. destruct (i_complete _ _ _ _ _ _ _ Hi (RGuard g)) as (o & k & Hk & Hx);
    [simpl; rewrite Hgd; by eexists|]. simpl in Hx. exists o, k. split; [done|]. split; [done|].
  pose proof (i_owner _ _ _ _ _ _ _ Hi _ _ Hk) as Ho.
  assert (forall r res, responses w !! r = Some res -> r_guard res = g -> k_resp k = Some r) as Hback.
  { intros r res Hres <-. destruct (resp_owner _ _ w CL BL GL K r res Hi Hres)
      as [(cl & k' & _ & Hk' & _ & _ & _ & Hkr & Hkg & _)|(Hk' & _)].
    - assert (o = inl (r_cli res)) as -> by (apply (i_unique _ _ _ _ _ _ _ Hi _ _ (RGuard (r_guard res)));
        [exists k; by split|exists k'; by split]). congruence.
    - assert (o = inr r) as -> by (apply (i_unique _ _ _ _ _ _ _ Hi _ _ (RGuard (r_guard res)));
        [exists k; by split|eexists; by split]). rewrite Hk in Hk'. by injection Hk' as ->. }
  destruct o as [c|r].
  - destruct Ho as (cl & Hcl & Hok). pose proof (ck_phase _ _ _ _ _ _ _ Hok) as Hp.
    destruct (st_closed _); [destruct Hp as [_ _ _ _ ->]; done|].
    destruct (co_guard _ _ _ _ _ _ _ Hp) as (g' & Hg' & HG). split.
    + intros r. split; [|intros (res & ? & ?); by eapply Hback]. intros Hr.
      destruct (co_resp _ _ _ _ _ _ _ Hp r Hr) as (_ & res & Hres & _ & Hkg & _). exists res.
      split; [done|congruence].
    + split; [congruence|]. exists cl. split; [done|]. rewrite (ck_guard _ _ _ _ _ _ _ Hok). done.
  - destruct Ho as (g' & res & -> & HG & Hres & Hrg & _). simpl in Hx. injection Hx as ->. split.
    + intros r'. split; [intros [= <-]; by exists res|intros (res' & ? & ?); by eapply Hback].
    + split; [congruence|done].
Qed.

(** A guard counts its holders: it is alive exactly while one connection refers to it,
    at most one response holds it, and its count is the number of the two. *)
Theorem guard_refs_exact w g gd : reachable NC NB w -> op_get (guards w) g = Some gd ->
  (alive gd = true <-> exists c cl, op_get (clients w) c = Some cl /\ guard cl = Some g) /\
  (forall c1 cl1 c2 cl2, op_get (clients w) c1 = Some cl1 -> guard cl1 = Some g ->
     op_get (clients w) c2 = Some cl2 -> guard cl2 = Some g -> c1 = c2) /\
  (forall r1 res1 r2 res2, responses w !! r1 = Some res1 -> r_guard res1 = g ->
     responses w !! r2 = Some res2 -> r_guard res2 = g -> r1 = r2) /\
  ref_count gd = (if alive gd then 1 else 0) +
    (if bool_decide (map_Exists (fun _ res => r_guard res = g) (responses w)) then 1 else 0).
Proof.
  intros Hr Hgd. destruct (server_reachable_inv w Hr) as (CL & BL & GL & K & Hi).
  pose proof (i_view _ _ _ _ _ _ _ Hi) as [Hc _ Hg]. rewrite (op_get_repr _ _ _ _ Hg) in Hgd.
  destruct (guard_owner w CL BL GL K g gd Hi Hgd) as (o & k & Hk & Hkg & Hresp & Ho).
  assert (forall c cl, op_get (clients w) c = Some cl -> guard cl = Some g -> o = inl c) as Hcg.
  { intros c cl Hcl Hcg. rewrite (op_get_repr _ _ _ _ Hc) in Hcl.
    destruct (inv_client _ _ w CL BL GL K c cl Hi Hcl) as (k' & Hk' & Hok).
    rewrite (ck_guard _ _ _ _ _ _ _ Hok) in Hcg.
    apply (i_unique _ _ _ _ _ _ _ Hi _ _ (RGuard g)); [exists k; by split|exists k'; by split]. }
  split_and!.
  - destruct o as [c|r].
    + destruct Ho as [-> (cl & Hcl & Hcg')]. split; [intros _|done]. exists c, cl.
      by rewrite (op_get_repr _ _ _ _ Hc).
    + destruct Ho as [-> _]. split; [done|]. intros (c & cl & H1 & H2). specialize (Hcg c cl H1 H2). done.
  - intros c1 cl1 c2 cl2 H1 H2 H3 H4. pose proof (Hcg _ _ H1 H2). pose proof (Hcg _ _ H3 H4). congruence.
  - intros r1 res1 r2 res2 H1 H2 H3 H4.
    assert (k_resp k = Some r1) by (apply Hresp; eauto). assert (k_resp k = Some r2) by (apply Hresp; eauto).
    congruence.
  - assert (bool_decide (map_Exists (fun _ res => r_guard res = g) (responses w))
      = if k_resp k is Some _ then true else false) as ->.
    { destruct (k_resp k) as [r|] eqn:E.
      - apply bool_decide_eq_true. destruct (proj1 (Hresp r) eq_refl) as (res & ? & ?). by exists r, res.
      - apply bool_decide_eq_false. intros (r & res & H1 & H2).
        assert (None = Some r) by (apply Hresp; eauto). done. }
    destruct o as [c|r]; destruct Ho as [-> Ho].
    + unfold resp_refs. by destruct (k_resp k).
    + by rewrite Ho.
Qed.

(** ** Reads *)

Definition closing_at w c : Prop := exists cl, op_get (clients w) c = Some cl /\ st_closing (socket cl) = true.

Lemma close_socket_closes w CL BL GL c cl : view NC NB w CL BL GL -> CL !! c = Some cl ->
  exists w', close_socket c w = Ret w' /\ closing_at w' c.
Proof.
  intros Hv Hc. unfold close_socket, closing_at. rewrite (get_client_view _ _ w CL BL GL c cl Hv Hc).
  cbn [mbind outcome_bind]. unfold uv_is_closing, uv_close. destruct (st_closing (socket cl)) eqn:E.
  - exists w. split; [done|]. exists cl. by rewrite (op_get_repr _ _ _ _ (v_clients _ _ _ _ _ _ Hv)).
  - cbn [mbind outcome_bind]. eexists. split; [done|].
    destruct (set_client_view _ _ w CL BL GL c (with_socket cl (mkStream false false false false true
      (st_closed (socket cl)))) Hv ltac:(by eexists)) as [Hv' _ _].
    eexists. rewrite (op_get_repr _ _ _ _ Hv'), lookup_insert_eq. done.
Qed.

(** The buffer of a read without data goes back and the connection is closed. *)
Lemma no_data_cb w CL BL GL c cl p n : view NC NB w CL BL GL -> CL !! c = Some cl -> is_Some (BL !! p) -> n <= 0 -> n <> UV_ENOBUFS ->
  exists w', on_read_cb true n (Some p) c w = Ret w' /\ closing_at w' c.
Proof.
  intros Hv Hc Hp Hn Hne. unfold on_read_cb. rewrite (get_client_view _ _ w CL BL GL c cl Hv Hc). cbn [mbind outcome_bind].
  destruct (Z.ltb_spec 0 n); [lia|]. destruct (Z.eqb_spec n UV_ENOBUFS); [done|]. unfold release_read_buffer.
  destruct (op_release_repr _ _ _ p (v_buffers _ _ _ _ _ _ Hv) Hp) as (bp & -> & Hr). cbn [mbind outcome_bind].
  assert (view NC NB (with_buffers w bp) CL (delete p BL) GL) as Hv2 by (split; [apply Hv|done|apply Hv]).
  destruct (close_socket_closes _ _ _ _ c cl Hv2 Hc) as (w' & -> & Hcl). destruct (n =? UV_EOF); eauto.
Qed.

(** A read without data, or without a buffer for it, closes the connection. *)
Lemma no_data_closes w CL BL GL c cl kr : view NC NB w CL BL GL -> CL !! c = Some cl ->
  match kr with KData _ => size BL = NB | KErr n => n < 0 /\ n <> UV_ENOBUFS | _ => True end ->
  exists w', read_once true kr c w = Ret (w', false) /\ closing_at w' c.
Proof.
  intros Hv Hc Hk. unfold read_once, on_alloc_buffer_cb.
  rewrite (get_client_view _ _ w CL BL GL c cl Hv Hc). cbn [mbind outcome_bind].
  destruct (decide (size BL = NB)) as [Hf|Hf].
  - rewrite (op_acquire_full _ _ _ (v_buffers _ _ _ _ _ _ Hv) Hf). cbn [mbind outcome_bind].
    replace (with_buffers w (read_buffers w)) with w by (by destruct w). unfold on_read_cb.
    rewrite (get_client_view _ _ w CL BL GL c cl Hv Hc). cbn [mbind outcome_bind].
    destruct (close_socket_closes w CL BL GL c cl Hv Hc) as (w' & Hcs & Hcl).
    change (0 <? UV_ENOBUFS) with false. change (UV_ENOBUFS =? UV_EOF) with false.
    change (UV_ENOBUFS =? UV_ENOBUFS) with true. cbv iota. rewrite Hcs. cbn [mbind outcome_bind]. eauto.
  - destruct (op_acquire_free _ _ _ (v_buffers _ _ _ _ _ _ Hv) Hf) as (p & bp & -> & Hp & Hbp).
    cbn [mbind outcome_bind].
    assert (view NC NB (with_buffers w bp) CL (<[p := op_zero]> BL) GL) as Hv1
      by (split; [apply Hv|done|apply Hv]).
    assert (is_Some (<[p := op_zero]> BL !! p)) as Hpb by (rewrite lookup_insert_eq; by eexists).
    assert (forall s, view NC NB (set_client c (with_socket cl s) (with_buffers w bp)) (<[c := with_socket cl s]> CL) (<[p := op_zero]> BL) GL) as Hset
      by (intros s; apply set_client_view; [done|by eexists]).
    destruct kr as [data| | |n]; [done| | |].
    + destruct (no_data_cb _ _ _ _ c cl p 0 Hv1 Hc Hpb ltac:(lia) ltac:(done)) as (w' & -> & Hcl). cbn [mbind outcome_bind]. eauto.
    + rewrite (get_client_view _ _ _ _ _ _ c cl Hv1 Hc). cbn [mbind outcome_bind].
      destruct (no_data_cb _ _ _ _ c _ p UV_EOF (Hset (stream_ended true (socket cl))) (lookup_insert_eq _ _ _) Hpb ltac:(done) ltac:(done)) as (w' & -> & Hcl).
      cbn [mbind outcome_bind]. eauto.
    + rewrite (get_client_view _ _ _ _ _ _ c cl Hv1 Hc). cbn [mbind outcome_bind].
      destruct (no_data_cb _ _ _ _ c _ p n (Hset (stream_ended false (socket cl))) (lookup_insert_eq _ _ _) Hpb ltac:(lia) ltac:(naive_solver)) as (w' & -> & Hcl).
      cbn [mbind outcome_bind]. eauto.
Qed.

(** A partial request stays with its connection. *)
Lemma partial_read w CL BL GL K c cl data : inv NC NB w CL BL GL K -> CL !! c = Some cl ->
  st_reading (socket cl) = true -> conn_protocol cl = TYPE_HTTP_1 -> (1 <= length data <= 256)%nat ->
  bytes_ok data -> phr_parse_request false (pending_data c w ++ data) 100 0 = Ret (-2, None) ->
  size BL <> NB ->
  exists w' CL' BL' GL' cl', read_once true (KData data) c w = Ret (w', (256 <=? length data)%nat) /\
    view NC NB w' CL' BL' GL' /\ CL' !! c = Some cl' /\ st_reading (socket cl') = true.
Proof.
  intros Hi Hc Hrd Hpr Hlen Hby Hpart Hfree. pose proof (i_view _ _ _ _ _ _ _ Hi) as Hv.
  destruct (inv_client _ _ w CL BL GL K c cl Hi Hc) as (k & Hk & Hok).
  rewrite (pending_data_content _ _ small_pool w CL BL GL K c cl k Hi Hc Hok) in Hpart.
  assert (st_closed (socket cl) = false) as Hnc.
  { destruct (ck_stream _ _ _ _ _ _ _ Hok) as [Hs1 Hs2]. destruct (st_closed (socket cl)); [|done].
    destruct (Hs1 (Hs2 eq_refl)) as (_ & ? & _). congruence. }
  unfold read_once, on_alloc_buffer_cb. rewrite (get_client_view _ _ w CL BL GL c cl Hv Hc).
  cbn [mbind outcome_bind].
  destruct (op_acquire_free _ _ _ (v_buffers _ _ _ _ _ _ Hv) Hfree) as (p & bp & -> & Hp & Hbp).
  cbn [mbind outcome_bind with_buffers read_buffers].
  destruct (fill_buffer_view NB zero_buffer bp BL p data Hbp) as (bp' & rb & -> & Hr' & Hrb & Hnx & Hd); [lia|].
  cbn [mbind outcome_bind]. set (w1 := with_buffers _ bp').
  assert (view NC NB w1 CL (<[p := rb]> BL) GL) as Hv1 by (split; [apply Hv|done|apply Hv]).
  unfold on_read_cb. rewrite (get_client_view _ _ w1 _ _ _ c cl Hv1 Hc). cbn [mbind outcome_bind].
  rewrite (proj2 (Z.ltb_lt 0 _)) by lia. rewrite Hpr. change (TYPE_HTTP_1 =? TYPE_HTTP_1) with true. cbv iota.
  set (cl1 := with_timer cl _). unfold process_http_1_request.
  destruct (receive_data_inv NC NB zero_client small_pool w CL BL GL K c cl1 k p rb (set_client c cl1 w1))
    as (w2 & r' & BL' & -> & _ & _ & Hi2 & _); try done.
  { apply set_client_view; [done|by eexists]. }
  { apply conn_ok_timer; [done|apply timer_again_closing]. }
  { by rewrite Hd. }
  cbn [mbind outcome_bind]. rewrite Hd, Hpart. cbn [mbind outcome_bind]. change (-2 =? -2) with true. cbv iota.
  cbn [mbind outcome_bind]. do 5 eexists. split; [done|]. split; [apply Hi2|].
  split; [apply lookup_insert_eq|done].
Qed.

(** A read that finds nothing (EAGAIN, which libuv reports as 0 bytes) closes the
    connection; libuv reads again after every read that filled the 256-byte buffer, so an
    incomplete request whose bytes fill it exactly gets its connection closed. *)
Theorem full_read_closes w c cl data : reachable NC NB w -> op_get (clients w) c = Some cl ->
  st_reading (socket cl) = true ->
  (exists w', handle (EvRead true KAgain c) w = Ret w' /\ closing_at w' c) /\
  (conn_protocol cl = TYPE_HTTP_1 -> length data = 256%nat -> bytes_ok data ->
   phr_parse_request false (pending_data c w ++ data) 100 0 = Ret (-2, None) ->
   (exists p bp, op_acquire (read_buffers w) = Ret (Some p, bp)) ->
   exists w', uv__read 32 true [KData data; KAgain] c w = Ret w' /\ closing_at w' c).
Proof.
  intros Hr Hcl Hrd. destruct (server_reachable_inv w Hr) as (CL & BL & GL & K & Hi).
  pose proof (i_view _ _ _ _ _ _ _ Hi) as Hv.
  rewrite (op_get_repr _ _ _ _ (v_clients _ _ _ _ _ _ Hv)) in Hcl. split.
  - destruct (no_data_closes w CL BL GL c cl KAgain Hv Hcl I) as (w' & He & Hc). cbn [handle]. rewrite He. eauto.
  - intros Hpr Hlen Hby Hpart (p & bp & Hacq).
    assert (size BL <> NB) as Hfree.
    { intros Hf. rewrite (op_acquire_full _ _ _ (v_buffers _ _ _ _ _ _ Hv) Hf) in Hacq. done. }
    destruct (partial_read w CL BL GL K c cl data Hi Hcl Hrd Hpr) as (w1 & CL1 & BL1 & GL1 & cl1 & He1 & Hv1 & Hc1 & Hrd1);
      [lia|done|done|done|].
    cbn [uv__read]. rewrite (get_client_view _ _ w CL BL GL c cl Hv Hcl). cbn [mbind outcome_bind].
    rewrite Hrd, He1, Hlen. cbn [mbind outcome_bind]. change (256 <=? 256)%nat with true. cbv iota.
    rewrite (get_client_view _ _ w1 _ _ _ c cl1 Hv1 Hc1). cbn [mbind outcome_bind]. rewrite Hrd1.
    destruct (no_data_closes w1 CL1 BL1 GL1 c cl1 KAgain Hv1 Hc1 I) as (w' & -> & Hcl').
    cbn [mbind outcome_bind]. eauto.
Qed.

(** ** Requests and responses *)

(** C2. What a read that libuv makes as it promises causes, when the kernel takes writes at once and
    the peer upgrades only registered routes and declares frame ends below 2^64. Its effects are
    exactly what the bytes received so far say: none while the request is incomplete, malformed or
    a response is still being written, the handler of the route registered for its method and
    target, the file of a static route, a 404, or the WebSocket handshake with the key the protocol
    asks for; on an upgraded connection the text of a complete text frame reaches the script. A read
    without data, be it the end, an error or EAGAIN, and one for which no buffer is left, has no
    effect but that the connection is closed. *)
Theorem server_read_effects w kr c : reachable NC NB w ->
  from_libuv (EvRead true kr c) w -> peer_ok (EvRead true kr c) w ->
  exists w', handle (EvRead true kr c) w = Ret w' /\ effects w' = effects w ++ read_effects kr c w /\
    match kr, op_acquire (read_buffers w) with
    | KData _, Ret (Some _, _) => True
    | _, _ => closing_at w' c
    end.
Proof.
  intros Hr (Hlib & cl & Hcl & Hrd) Hp. destruct (server_reachable_inv w Hr) as (CL & BL & GL & K & Hi).
  assert (read_ok kr c w) as Hok by (destruct kr; naive_solver).
  pose proof (i_view _ _ _ _ _ _ _ Hi) as Hv. rewrite (op_get_repr _ _ _ _ (v_clients _ _ _ _ _ _ Hv)) in Hcl.
  destruct (read_once_safe NC NB zero_client small_pool zero_buffer w CL BL GL K c cl kr Hi Hcl Hrd Hok)
    as (w' & more & He & _ & Hef). exists w'. cbn [handle]. rewrite He. split; [done|]. split; [done|].
  assert (match kr with KData _ => size BL = NB | KErr n => n < 0 /\ n <> UV_ENOBUFS | _ => True end -> closing_at w' c) as Hclose.
  { intros Hk. destruct (no_data_closes w CL BL GL c cl kr Hv Hcl Hk) as (w2 & He2 & Hcw). rewrite He in He2. by injection He2 as <- _. }
  destruct kr as [data| | |n]; try by apply Hclose.
  destruct (decide (size BL = NB)) as [Hf|Hf].
  - rewrite (op_acquire_full _ _ _ (v_buffers _ _ _ _ _ _ Hv) Hf). by apply Hclose.
  - destruct (op_acquire_free _ _ _ (v_buffers _ _ _ _ _ _ Hv) Hf) as (p & bp & -> & _). done.
Qed.

(** C3. Ending a response, when memory is left, the kernel takes the write at once, the head fits the
    256 bytes reserved beyond the header values and the lengths fit an [int]: its head and body are
    written to its connection, once; to a connection that is gone nothing is written; and a second
    [end] on the object touches freed memory. Without these conditions the head can overflow its
    buffer (HttpMessage), and a write that is not taken at once refers to a dead stack frame
    ([async_write_dangles]). *)
Theorem response_written w r res body : reachable NC NB w -> responses w !! r = Some res ->
  end_ok body r w ->
  exists w', handle (JsEnd true true body r) w = Ret w' /\
    effects w' = effects w ++ answer w res (end_bytes body res) /\
    responses w' = delete r (responses w) /\
    forall ok sync b, handle (JsEnd ok sync b r) w' = UB.
Proof.
  intros Hr Hres Hok. destruct (server_reachable_inv w Hr) as (CL & BL & GL & K & Hi).
  destruct (js_end_safe NC NB w CL BL GL K body r res Hi Hres Hok) as (w' & He & _ & Hef & Hdel).
  exists w'. split_and!; [done|done|done|]. intros ok sync b. cbn [handle]. unfold js_end, get_response.
  by rewrite Hdel, lookup_delete_eq.
Qed.

(** The head of a response lives on the stack of [send]: on a live connection, a write
    the kernel does not take at once is left with a dangling buffer. *)
Theorem async_write_dangles w r res cl body : reachable NC NB w -> responses w !! r = Some res ->
  end_ok body r w -> op_get (clients w) (r_cli res) = Some cl ->
  guard cl = Some (r_guard res) -> st_open (socket cl) = true -> st_writable (socket cl) = true ->
  handle (JsEnd true false body r) w = UB.
Proof.
  intros Hr Hres Hok Hcl Hgd Hop Hwr. destruct (server_reachable_inv w Hr) as (CL & BL & GL & K & Hi).
  pose proof (i_view _ _ _ _ _ _ _ Hi) as Hv.
  rewrite (op_get_repr _ _ _ _ (v_clients _ _ _ _ _ _ Hv)) in Hcl.
  destruct (resp_owner _ _ w CL BL GL K r res Hi Hres)
    as [(cl' & k & Hcl' & Hk & Hck & Hnc & Hopn & Hkr & Hkg & _ & HG & Hro & _)|(Hk & _)].
  2: { destruct (inv_client _ _ w CL BL GL K _ cl Hi Hcl) as (k & Hk' & Hck).
       assert (inl (r_cli res) = inr r) as ?; [|done].
       apply (i_unique _ _ _ _ _ _ _ Hi _ _ (RGuard (r_guard res))); [exists k|eexists; by split].
       split; [done|]. simpl. by rewrite <- (ck_guard _ _ _ _ _ _ _ Hck). }
  rewrite Hcl in Hcl'. injection Hcl' as <-. cbn [handle]. unfold js_end, get_response. rewrite Hres.
  cbn [mbind outcome_bind negb]. unfold send, get_response.
  set (t := set_body body (r_text res)). set (w0 := with_responses _ _).
  assert (view NC NB w0 CL BL GL) as Hv0 by (destruct Hv; by split).
  replace (responses w0 !! r) with (Some (with_text res t)) by (subst w0; simpl; by rewrite lookup_insert_eq).
  cbn [mbind outcome_bind with_text r_guard r_cli r_text r_req].
  rewrite (get_guard_view _ _ w0 CL BL GL _ _ Hv0 HG). cbn [mbind outcome_bind alive negb].
  rewrite (get_client_view _ _ w0 CL BL GL _ _ Hv0 Hcl). cbn [mbind outcome_bind].
  rewrite (co_closing _ _ _ _ _ _ _ Hopn).
  unfold end_ok in Hok. rewrite Hres in Hok. rewrite (end_sends body res Hro Hok : send_bytes (stack_buffer t) t = _).
  cbn [mbind outcome_bind]. set (w1 := if is_static t then _ else set_client _ _ _).
  pose proof (resp_write_free _ _ _ _ _ _ _ _ Hopn Hkr) as Hwh.
  set (cl1 := if is_static t then cl else with_pending cl Allocated).
  assert (view NC NB w1 (<[r_cli res := cl1]> CL) BL GL) as Hv1.
  { subst w1 cl1. destruct (is_static t).
    - rewrite insert_id by done. destruct Hv0. by split.
    - apply set_client_view; [destruct Hv0; by split|by eexists]. }
  destruct (uv_write_view NC NB w1 _ BL GL (r_cli res) cl1 (if is_static t then on_static_write else on_write)
    (end_bytes body res) Hv1 (lookup_insert_eq _ _ _)) as (w2 & rc & -> & _ & _ & _ & Hrc);
    [subst cl1; by destruct (is_static t)|].
  cbn [mbind outcome_bind]. replace (0 <=? rc) with true; [done|].
  assert (socket cl1 = socket cl) as Es by (subst cl1; by destruct (is_static t)).
  rewrite Es, Hop, Hwr in Hrc. simpl in Hrc. symmetry. apply Z.leb_le. by apply Z.ltb_ge.
Qed.

End Safety.

(** ** The server on the pools of include/server_pool.h *)

Section Pooled.
Context (ndebug : bool).
#[local] Existing Instance mem_pool_objects.
Lemma pool_empty_ok {T} `{Memset T} (p : MemPool T) n : op_repr (ObjectPool := mem_pool_objects ndebug) p n ∅ ->
  verify_no_leaks p = None.
Proof.
  intros [s Hm]. unfold verify_no_leaks. rewrite (rel_count _ _ (pm_rel _ _ _ _ Hm)).
  pose proof (pm_size _ _ _ _ Hm) as Hs. rewrite map_size_empty in Hs. rewrite (pm_cap _ _ _ _ Hm).
  by rewrite (proj2 (Z.eqb_eq _ 0)) by lia.
Qed.

(** C4. Nothing leaks: once no connection and no response is left, [~Server] finds all
    three pools complete, and every WebSocket has been freed. *)
Theorem server_no_leaks n (w : pooled_server) : Z.of_nat n < 2 ^ 20 ->
  reachable (OC := mem_pool_objects ndebug) (OB := mem_pool_objects ndebug)
    (OG := mem_pool_objects ndebug) n (n * DEFAULT_READ_BUFFER_HEADROOM) w ->
  (forall c, pool_get (clients w) c = None) -> responses w = ∅ ->
  pool_verify_no_leaks w = (None, None, None) /\ websockets w = ∅.
Proof.
  intros Hn Hr Hc Hresp. unfold DEFAULT_READ_BUFFER_HEADROOM in Hr.
  destruct (no_leaks (OC := mem_pool_objects ndebug) (OB := mem_pool_objects ndebug)
    (OG := mem_pool_objects ndebug) eq_refl eq_refl n (n * 8) ltac:(lia) w Hr Hc Hresp) as [[H1 H2 H3] Hw].
  split; [|done]. unfold pool_verify_no_leaks. by erewrite !pool_empty_ok.
Qed.

End Pooled.

(** ** A small server *)

Module Small.

#[local] Instance clients_pool : ObjectPool (MemPool ClientState) ClientState := mem_pool_objects false.
#[local] Instance buffers_pool : ObjectPool (MemPool ReadBuffer) ReadBuffer := mem_pool_objects false.
#[local] Instance guards_pool : ObjectPool (MemPool ConnGuard) ConnGuard := mem_pool_objects false.

Definition no_pool {T} : MemPool T := mkPool [] 0 0 0 EmptyString.
Definition fresh : pooled_server := match ServerPool_ctor 2 with Ret w => w | _ => start no_pool no_pool no_pool end.
Definition after (es : list event) : pooled_server := match run es fresh with Ret w => w | _ => fresh end.

Definition get_root : list Z := bytes_of_string "GET / HTTP/1.1" ++ crlf ++ crlf.

Abbreviation reach := (reachable 2 16).

Lemma reach_after es e : reach (after es) -> allowed e (after es) ->
  handle e (after es) = Ret (after (es ++ [e])) -> reach (after (es ++ [e])).
Proof. apply reach_step. Qed.

Lemma reach_init : reach (after []).
Proof.
  change (after []) with (start (clients fresh) (read_buffers fresh) (guards fresh)).
  apply reach_start; [apply (mem_pool_new false (memset 0) 2 "ClientPool")|apply (mem_pool_new false (memset 0) 16 "ReadBufferPool")
    |apply (mem_pool_new false (memset 0) 2 "ConnGuardPool")]; vm_compute; reflexivity.
Qed.

Definition route : event := JsRoute (bytes_of_string "/") (JsHandler 7).
Definition connect : event := EvConnect 0 true true.
Definition ask : event := EvRead true (KData get_root) 0.
Definition routed : list event := ([] ++ [route]) ++ [connect].
Definition asked : list event := routed ++ [ask].

Lemma reach_routed : reach (after routed).
Proof.
  apply (reach_after ([] ++ [route]) connect); [|by split_and!|vm_compute; reflexivity].
  apply (reach_after [] route); [apply reach_init|by split_and!|vm_compute; reflexivity].
Qed.

Lemma ask_from_libuv : from_libuv ask (after routed).
Proof.
  split; [split|].
  - vm_compute. lia.
  - by apply (bool_decide_unpack _).
  - eexists. split; vm_compute; reflexivity.
Qed.

Lemma ask_peer_ok : peer_ok ask (after routed).
Proof. vm_compute. reflexivity. Qed.

Lemma ask_allowed : allowed ask (after routed).
Proof. exact (conj ask_from_libuv (conj I (conj eq_refl (conj I (conj ask_peer_ok I))))). Qed.

Lemma reach_asked : reach (after asked).
Proof. apply (reach_after routed ask); [apply reach_routed|apply ask_allowed|vm_compute; reflexivity]. Qed.

Definition hello : list Z := bytes_of_string "hello".


Lemma server_read_effects_witness : exists w', handle ask (after routed) = Ret w' /\
  effects w' = [JsRequest 7 1 (bytes_of_string "/")].
Proof.
  destruct (server_read_effects (OC := clients_pool) (OB := buffers_pool) (OG := guards_pool) eq_refl eq_refl 2 16 eq_refl (after routed) (KData get_root) 0 reach_routed ask_from_libuv ask_peer_ok)
    as (w' & He & Hef & _).
  exists w'. split; [exact He|]. rewrite Hef. vm_compute. reflexivity.
Defined.

Lemma asked_end_ok : end_ok hello 1 (after asked).
Proof. vm_compute. split; [reflexivity|left; reflexivity]. Qed.

Definition asked_response : Response := mkRes 0 0 0 (mkResp 0 [] [] 0 false).

Lemma asked_response_live : responses (after asked) !! 1%nat = Some asked_response.
Proof. vm_compute. reflexivity. Qed.

Lemma response_written_witness : exists w',
  handle (JsEnd true true hello 1) (after asked) = Ret w' /\
  effects w' = [JsRequest 7 1 (bytes_of_string "/"); Write 0 (end_bytes hello asked_response)].
Proof.
  destruct (response_written (OC := clients_pool) (OB := buffers_pool) (OG := guards_pool) eq_refl eq_refl 2 16 eq_refl (after asked) 1 asked_response hello reach_asked
    asked_response_live asked_end_ok) as (w' & H1 & H2 & _).
  exists w'. split; [exact H1|]. rewrite H2. vm_compute. reflexivity.
Defined.

(** The connection of [asked], and what [op_get] sees of it. *)
Definition client0 : ClientState :=
  match op_get (clients (after asked)) 0 with Some cl => cl | None => memset 0 end.

Lemma async_write_dangles_witness : handle (JsEnd true false hello 1) (after asked) = UB.
Proof.
  apply (async_write_dangles (OC := clients_pool) (OB := buffers_pool) (OG := guards_pool) eq_refl eq_refl 2 16 eq_refl (after asked) 1 asked_response client0 hello reach_asked
    asked_response_live asked_end_ok); vm_compute; reflexivity.
Defined.

Lemma guard_refs_exact_witness : op_get (guards (after asked)) 0 = Some (mkGuard true 2) /\
  2 = 1 + if bool_decide (map_Exists (fun _ res => r_guard res = 0) (responses (after asked))) then 1 else 0.
Proof.
  assert (op_get (guards (after asked)) 0 = Some (mkGuard true 2)) as Hg by (vm_compute; reflexivity).
  split; [exact Hg|].
  apply (guard_refs_exact (OC := clients_pool) (OB := buffers_pool) (OG := guards_pool) eq_refl eq_refl 2 16 eq_refl (after asked) 0 (mkGuard true 2) reach_asked Hg).
Defined.

(** 256 bytes of a request whose end has not arrived. *)
Definition half_request : list Z := bytes_of_string "GET /" ++ replicate 251 97.

Lemma full_read_closes_witness : exists w',
  uv__read 32 true [KData half_request; KAgain] 0 (after routed) = Ret w' /\ closing_at w' 0.
Proof.
  set (cl := match op_get (clients (after routed)) 0 with Some cl => cl | None => memset 0 end).
  apply (full_read_closes (OC := clients_pool) (OB := buffers_pool) (OG := guards_pool) eq_refl eq_refl 2 16 eq_refl (after routed) 0 cl half_request reach_routed);
    [vm_compute; reflexivity..| | |].
  - apply (bool_decide_unpack _). vm_compute. exact I.
  - vm_compute. reflexivity.
  - eexists _, _. vm_compute. reflexivity.
Defined.

(** An upgrade request for the target [/], on which no WebSocket route is registered. *)
Definition upgrade_root : list Z :=
  bytes_of_string "GET / HTTP/1.1" ++ crlf ++ bytes_of_string "Upgrade: websocket" ++ crlf
    ++ bytes_of_string "Connection: Upgrade" ++ crlf
    ++ bytes_of_string "Sec-WebSocket-Key: dGhlIHNhbXBsZSBub25jZQ==" ++ crlf ++ crlf.

(** A WebSocket upgrade on a target without a WebSocket route is accepted, and the
    server reads the uninitialised [sock_js] of the connection when it closes; with a
    route registered the same events are handled. *)
Theorem upgrade_without_route :
  run [connect; EvRead true (KData upgrade_root) 0; EvIdle 0; EvSocketClosed 0] fresh = UB /\
  exists w, run [JsWsRoute (bytes_of_string "/"); connect; EvRead true (KData upgrade_root) 0; EvIdle 0;
    EvSocketClosed 0; EvTimerClosed 0] fresh = Ret w /\
    pool_verify_no_leaks w = (None, None, None).
Proof. split; [vm_compute; reflexivity|]. eexists. split; vm_compute; reflexivity. Qed.

(** [abort] closes its connection without asking whether it is closing: when the idle
    timer closes the socket between the 503 and the end of the shutdown, [uv_close] runs
    twice on it and its assertion fails; without the timer the same events end well. *)
Theorem abort_closes_twice :
  run (asked ++ [JsEnd false true hello 1; EvWritten 0; EvIdle 0; EvShutdown 0]) fresh
    = AssertFail /\
  exists w, run (asked ++ [JsEnd false true hello 1; EvWritten 0; EvShutdown 0; EvSocketClosed 0;
    EvTimerClosed 0]) fresh = Ret w /\ pool_verify_no_leaks w = (None, None, None).
Proof. split; [vm_compute; reflexivity|]. eexists. split; vm_compute; reflexivity. Qed.

Definition ended : list event := asked ++ [JsEnd true true hello 1].
Definition written : list event := ended ++ [EvWritten 0].
Definition idled : list event := written ++ [EvIdle 0].
Definition closed : list event := idled ++ [EvSocketClosed 0].
Definition freed : list event := closed ++ [EvTimerClosed 0].

Lemma reach_freed : reach (after freed).
Proof.
  apply (reach_after closed (EvTimerClosed 0)); [| |vm_compute; reflexivity].
  2: { split; [eexists; split; vm_compute; reflexivity|by split_and!]. }
  apply (reach_after idled (EvSocketClosed 0)); [| |vm_compute; reflexivity].
  2: { split; [eexists; split; [|split]; vm_compute; reflexivity|by split_and!]. }
  apply (reach_after written (EvIdle 0)); [| |vm_compute; reflexivity].
  2: { split; [eexists; vm_compute; reflexivity|by split_and!]. }
  apply (reach_after ended (EvWritten 0)); [| |vm_compute; reflexivity].
  2: { split; [eexists; vm_compute; reflexivity|by split_and!]. }
  apply (reach_after asked (JsEnd true true hello 1)); [apply reach_asked| |vm_compute; reflexivity].
  split; [exact I|]. split; [eexists; vm_compute; reflexivity|]. exact (conj eq_refl (conj eq_refl (conj I asked_end_ok))).
Qed.

Lemma freed_empty c : pool_get (clients (after freed)) c = None.
Proof.
  destruct (decide (c = 0)) as [->|]; [vm_compute; reflexivity|].
  destruct (decide (c = 1)) as [->|]; [vm_compute; reflexivity|].
  unfold pool_get. rewrite arr_get_None; [done|].
  replace (Z.of_nat (length (slots_ (clients (after freed))))) with 2 by (vm_compute; reflexivity). lia.
Qed.

(** A request answered, the connection idle, closed and released. *)
Lemma server_no_leaks_witness : pool_verify_no_leaks (after freed) = (None, None, None).
Proof.
  apply (server_no_leaks false 2 (after freed) eq_refl reach_freed freed_empty).
  vm_compute. reflexivity.
Defined.

End Small.
